(* ===== verification/_CoqProject ===== *)
-Q . S2P
Prelude.v
AvlTree.v
AvlTreeFacts.v
AvlTreeCorrect.v
AvlTreeTheorems.v
AvlTreeRefine.v
Numbers.v
CircularBuffer.v
Hashtable.v
HashtableFacts.v
HashtableTheorems.v
Unicode.v
UnicodeFacts.v
UnicodeTheorems.v
IntegerText.v
IntegerTextTheorems.v
Format.v
FormatFacts.v
FormatTheorems.v
Concurrency.v
RwLock.v
FastLock.v
FastLockFacts.v
FastLockTheorems.v
QueuedLock.v
QueuedLockFacts.v
QueuedLockSteps.v
QueuedLockTheorems.v
WakeEvent.v
WakeEventTheorems.v
Condition.v
Event.v
EventFacts.v
EventTheorems.v
Rundown.v
RundownFacts.v
RundownTheorems.v
HandleTable.v
HandleTableFacts.v
HandleTableLists.v
HandleTableOps.v
HandleTableTheorems.v
Object.v
ObjectFacts.v
ObjectSteps.v
ObjectTheorems.v
Wildcards.v
NaturalCompare.v
Strings.v
StringsTheorems.v
Blocks.v
Containers.v
ContainersTheorems.v
StringBuilder.v
StringBuilderTheorems.v
Callback.v
CallbackTheorems.v
WorkQueue.v
WorkQueueTheorems.v
Checksum.v
CommandLine.v
CommandLineTheorems.v
FilePool.v
FilePoolFacts.v
FilePoolSegments.v
FilePoolLists.v
FilePoolOps.v
FilePoolAlloc.v
FilePoolCreate.v
FilePoolSystem.v
FilePoolTheorems.v
FileStream.v
FileStreamFacts.v
FileStreamTheorems.v
FreeList.v
AutoPool.v
AutoPoolTheorems.v
StringSearch.v
StringSearchTheorems.v
Utilities.v
