(* ===== verification/Prelude.v ===== *)
(** * phlib: the base library of System Informer

    This development models parts of [src/phlib], the C library that System
    Informer, its plugins and its tools are built on, and proves them correct:
    the data structures, the text routines and the synchronization objects that
    the rest of the program takes for granted. Every operation is a definition
    that can be evaluated; its name is that of the C function, and local loops of
    a function have names of their own.

    ** How the C code is represented

    - Integers keep their C width: a value is a [Z], and additions,
      multiplications and casts that can wrap go through [u8], [u16], [u32],
      [u64] and [i32] of this file. Bit operations are those of [Z].
    - A function that only computes is a function. A function that reads and
      writes memory or changes a structure is a program of the monad [ST] of
      this file: it may read and write its state, and it may fault ([None]) where
      the C code would access memory it does not own. The predicate [wp m Q s]
      says that [m] does not fault from [s] and ends in a state and a result that
      satisfy [Q]; so each theorem of the form [wp ...] is one of total
      correctness.
    - Functions that several threads execute at the same time are state machines
      ([Concurrency]). A thread is at a point of a function, with the
      local variables that are live there, just before an access to the shared
      state; [next] lists what can happen then. One step is one interlocked
      operation or one plain read or write of a shared word (sequentially
      consistent; the weaker orderings that volatile accesses allow are not
      modelled). [reachable] is what a system of threads can become by any
      interleaving.
    - Loops that do not follow a structure take fuel: the number of elements,
      blocks or digits they can pass. Running out of fuel is a fault or a wrong
      result, never a success, and the theorems on these loops prove that the
      fuel given by the callers is enough: the enumeration of a tree passes each
      element at most once; a chain of a hashtable and a free list of a handle
      table have at most as many entries as are allocated; the digits of a 64-bit
      integer fit 64 places; the three bytes that a decoder reads back after an
      error are consumed in a bounded number of turns.

    ** The files

    - [Prelude] (this file): integers at their width, the monad [ST] and its
      rules, lemmas on lists.
    - [AvlTree] (src/phlib/avltree.c): the tree at the level of its links, in a
      heap of [PH_AVL_LINKS]. [AvlTreeFacts] relates a heap to an abstract tree
      with recorded balances (with zippers for the loops that climb),
      [AvlTreeCorrect] proves the two balancing loops and the searches,
      [AvlTreeTheorems] and [AvlTreeRefine] state what each operation and any
      sequence of operations does to the sorted list of the elements.
    - [Numbers] (basesup.c: PhRoundUpToPowerOfTwo, PhExponentiate, PhCountBits).
    - [CircularBuffer] (circbuf_i.h, circbuf_h.h): the template with sizes that
      are powers of two, over a memory of blocks; the history that a buffer
      stands for, and what resizing does to it.
    - [Hashtable] (basesup.c): hashtables and simple hashtables.
      [HashtableFacts] has the invariant of buckets, chains and free list, with
      the class [KeyOk] for what the callbacks owe; [HashtableTheorems] the
      refinement of finite maps.
    - [Unicode] (basesup.c): decoder, encoder and the conversions between UTF-8
      and UTF-16, both as they are compiled, over two services of Windows that are
      parameters (the class [NativeConversion]), and in the branch that is not
      (PH_NATIVE_STRING_CONVERSION is 1), whose names end in [_portable]. [UnicodeFacts] compares the decoder, which takes one unit at a
      time and puts units back after an error, with a reference that sees whole
      sequences, through a class for stream decoders with two instances;
      [UnicodeTheorems] has the conversions, with what is documented of the services
      as the class [NativeConversionOk].
    - [IntegerText] (basesup.c, data.c): hexadecimal strings and reading
      integers, with [IntegerTextTheorems].
    - [Format] (format.c, format_i.h, format_std.cpp): the formatting code, and
      its two includers PhFormat and PhFormatToBuffer as instances of the class
      [FormatBuffer]; [FormatFacts] proves the engine against the laws of that
      class, [FormatTheorems] proves the laws for both includers. The locale and
      [std::to_chars] are parameters (the class [Environment]).
    - [Concurrency]: systems of threads, schedules, invariants, sums over
      threads, and the rule that a state can be drained.
    - [FastLock], [FastLockFacts], [FastLockTheorems] (fastlock.c): the
      reader-writer lock. The counts in its word are of 10 bits, hence the bound
      of 1023 threads; the number of spins is that of the code, and the number
      of processors is a parameter.
    - [Event], [EventFacts], [EventTheorems] (sync.c, phbasesup.h): events and
      one-time initialization. The reference count has 15 bits to itself, hence
      the bound of 32766 threads. [EventFacts] is about the part of a thread that
      uses an event, so that it serves the clients of events as well.
    - [Rundown], [RundownFacts], [RundownTheorems] (sync.c, phbasesup.h): rundown
      protection, a client of the event.
    - [HandleTable] (handle.c, handlep.h): the tables of one to three levels, the
      two free lists, the locks of the entries, for one thread at a time.
      [HandleTableFacts] shows that the levels are one flat array,
      [HandleTableLists] has the invariant of the free lists, [HandleTableOps]
      the operations on a finite map of open handles, [HandleTableTheorems] the
      properties. The allocator, the contents of fresh memory and which locks
      other threads hold are parameters.
    - [Object], [ObjectFacts], [ObjectSteps], [ObjectTheorems] (ref.c, refp.h):
      reference-counted objects used by any number of threads, with immediate and
      deferred deletion. [ObjectFacts] has the invariant of the headers,
      [ObjectSteps] what a step does to it as one thread sees it.
    - [RwLock]: what a reader-writer lock promises, for the two locks of phlib and for
      their clients.
    - [QueuedLock], [QueuedLockFacts], [QueuedLockSteps], [QueuedLockTheorems]
      (queuedlock.c): the queued lock, its word, the list of wait blocks on the
      stacks of the waiters, and the keyed event, for up to 2^32 - 1 threads, the
      most that the shared count of a wait block can tell apart.
    - [WakeEvent], [WakeEventTheorems] and [Condition] (queuedlock.c): wake events and
      condition variables, which use the same list of wait blocks.
    - [Wildcards] (util.c): the matcher of patterns with asterisks and question
      marks, against the rules of matching.
    - [NaturalCompare] (basesup.c): natural order, as the lexicographic order of
      keys; the class [Ordering] of comparison functions.
    - [Strings], [StringsTheorems] (basesup.c, phbasesup.h): references to
      counted strings. Upper case is a parameter of these three files, as is
      whether the processor has the vector instructions.
    - [Blocks]: blocks of memory with an access outside as a fault.
    - [Containers], [ContainersTheorems] (basesup.c): lists, arrays and pointer lists.
    - [StringBuilder], [StringBuilderTheorems] (basesup.c): string builders and byte
      string builders, for capacities up to 2^62 bytes.
    - [Callback], [CallbackTheorems] (basesup.c): callback objects, for fewer than 2^31
      threads (the busy count of a registration is a LONG).
    - [WorkQueue], [WorkQueueTheorems] (workqueue.c): work queues, for up to MAXLONG
      queued items (the count of the semaphore).
    - [Checksum] (util.c, data.c): CRC-32, against the register that shifts bit by
      bit, and CRC-32C.
    - [CommandLine], [CommandLineTheorems] (util.c): command lines.
    - [FilePool] (filepool.c): storage in a file that is mapped a segment at a time; all
      structures are words of the file, read and written through the views that are
      mapped. [FilePoolFacts] has the layout and the cache of views,
      [FilePoolSegments] bit maps and blocks, [FilePoolLists] the free lists that
      are linked through the segments, [FilePoolOps] and [FilePoolAlloc] what
      allocation and freeing do to them, [FilePoolCreate] creation and
      destruction, [FilePoolSystem] a system to run them on, [FilePoolTheorems] the
      properties: for segment shifts from 18 to 28 (the smaller ones, which the
      code accepts, do not work, as a theorem shows) and fewer than 2^31 references.
      Windows may refuse any mapping: the model counts the refusals, and the theorems
      say what is left of their conclusions then, since the code ignores some.
      The fuel of the search through a free list is the number of segments that 32
      bits of offset can tell apart.
    - [FileStream], [FileStreamFacts], [FileStreamTheorems] (filestream.c): buffered
      files; the services of the file object are parameters, with what is
      documented of them as the class [FileObjectOk]; any of them may fail, without
      an effect then.
    - [FreeList] (basesup.c): free lists, for a maximum
      count that is, with the number of threads, at most 2^32 (the count is a ULONG).
    - [AutoPool], [AutoPoolTheorems] (ref.c, ref.h): automatic dereference pools, of one
      thread; delete procedures are a parameter.
    - [StringSearch], [StringSearchTheorems] (strsrch.c, data.c): the search of memory for
      strings; the callbacks are parameters.
    - [Utilities] (util.c): rectangles, shortened strings, texts of
      menus and the mapping of flags.

    Containers use [Numbers] and [Blocks]; the formatting engine uses the digits of
    [IntegerText]; rundown protection uses the event; wake events and condition
    variables use the wait blocks of the queued lock; callbacks use [RwLock] and
    [Condition]; command lines and utilities use string builders and string references; file
    streams use the conversions of [Unicode]. Work queues stand on what is shown of
    locks, condition variables and rundown protection, and file pools take the tree of
    views for the sequence of its elements, as [AvlTreeRefine] shows it is.

    ** What the theorems show

    - Refinement: the AVL tree and the list of its elements; hashtables, simple
      hashtables and handle tables and finite maps; the circular buffer and the
      history of additions; lists and the sequence of their items; the fast lock and
      the queued lock and an abstract reader-writer lock; condition variables and a
      queue of threads; file streams and a file with a position; automatic dereference
      pools and a stack of lists.
    - Equivalence: the decoder and a reference, the wildcard matcher and the
      rules of matching, natural comparison and an order of keys, comparison by
      blocks and equality of texts, the checksum by table and by bits.
    - Round trips: UTF-8 and UTF-16, hexadecimal strings, integers, escaped parts of
      command lines, addresses and relative virtual addresses, file pools that are
      closed and opened again.
    - Bounds: no conversion writes outside its buffer, no formatting function outside
      its own, but for one of a single byte, no builder outside its block, the stack of the tree enumeration
      does not overflow, the number of handles.
    - Safety and liveness of the concurrent parts: mutual exclusion, no lost
      wakeup, use of kernel events only while they are open, no access to freed
      objects, to wait blocks that are gone or to registrations that ended, no block
      of a free list that is given twice; liveness is stated as: from every reachable
      state some continuation ends well.
    - Functional behaviour: parsing of command lines with options, allocation in a
      file pool (blocks that are apart from all others and the bit maps, counts
      and lists in agreement), freeing; strings that are found in memory, each where it
      is said to be.
    - Errors: the behaviours that differ from what comments promise or that look
      unintended, each as a theorem about the code as it is (resizing of
      circular buffers, limits of the formatting functions, closing an event's
      handle twice, the end of a rundown, deferred deletions that are lost, a
      handle's own lock, timeouts of wake events, pulses of callbacks at once, items
      and waits of work queues that are lost, a checksum that does not advance,
      backslashes that are dropped, the limits of file pools, positions and ends of
      buffered files, objects that are added to a pool while it is drained, strings
      that a search misses).
    - Termination is part of every theorem on a program of [ST]; the parser of command
      lines has one of its own.

    ** Not modelled

    The parts of phlib that are calls to Windows (native.c and the other native*.c,
    util.c and mapimg.c for the most part, http, symprv, kph, appresolver, settings),
    the user interface (treenew.c, graph, theme, emenu, hexedit, guisup; SystemInformer
    and the plugins), the kernel driver, the declarations in phnt, and the tools. Of the
    modelled files: floating-point parsing and the prime search of basesup.c, the
    debug-only code, the interleavings of several threads in the handle table, condition variables with other kinds of
    locks, the parser of command lines that searches for files, and the protection of
    read-only file pools. *)

From stdpp Require Export base tactics numbers list gmap fin_maps sorting.
From Stdlib Require Export ZArith Lia.

#[global] Open Scope Z_scope.

(** ** Machine integers

    A [ULONG] is a [Z] in [0, 2^32); arithmetic wraps through [u32]. *)

Definition u8 (x : Z) : Z := x mod 2 ^ 8.
Definition u16 (x : Z) : Z := x mod 2 ^ 16.
Definition u32 (x : Z) : Z := x mod 2 ^ 32.
Definition u64 (x : Z) : Z := x mod 2 ^ 64.

(** A [LONG] is a [Z] in [-2^31, 2^31). *)
Definition i32 (x : Z) : Z := (x + 2 ^ 31) mod 2 ^ 32 - 2 ^ 31.

Definition ULONG_MAX : Z := 2 ^ 32 - 1.

Lemma u32_small x : 0 <= x < 2 ^ 32 → u32 x = x.
Proof. intros. by apply Z.mod_small. Qed.

Lemma u32_add a b : u32 (u32 a + b) = u32 (a + b).
Proof. apply Z.add_mod_idemp_l. lia. Qed.

Lemma u32_range x : 0 <= u32 x < 2 ^ 32.
Proof. apply Z.mod_pos_bound. lia. Qed.

Lemma i32_small x : - 2 ^ 31 <= x < 2 ^ 31 → i32 x = x.
Proof. intros. unfold i32. rewrite Z.mod_small; lia. Qed.

(** Masking with a power of two less one, at the width of the mask's type. *)
Lemma mod_mod_pow2 x k w : 0 ≤ k ≤ w → (x mod 2 ^ w) mod 2 ^ k = x mod 2 ^ k.
Proof.
  intros Hk. assert (0 < 2 ^ k) by (apply Z.pow_pos_nonneg; lia).
  assert (2 ^ w = 2 ^ (w - k) * 2 ^ k) as Hw by (rewrite <-Z.pow_add_r by lia; f_equal; lia).
  assert (0 < 2 ^ (w - k)) by (apply Z.pow_pos_nonneg; lia).
  rewrite (Z.mod_eq x (2 ^ w)) by lia. generalize (x / 2 ^ w). intros q.
  replace (x - 2 ^ w * q) with (x + (- 2 ^ (w - k) * q) * 2 ^ k) by (rewrite Hw; ring).
  apply Z.mod_add. lia.
Qed.

Lemma land_pow2 x k : 0 ≤ k → Z.land x (2 ^ k - 1) = x mod 2 ^ k.
Proof.
  intros Hk. rewrite <-Z.land_ones by done. f_equal. rewrite Z.ones_equiv. lia.
Qed.

(** *** Exhaustive checks *)

(** A check of [n] consecutive numbers. *)
Fixpoint all_from (p : Z → bool) (n : nat) (x : Z) : bool :=
  match n with
  | O => true
  | S n => p x && all_from p n (x + 1)
  end.

Lemma all_from_spec p n x y : all_from p n x = true → x ≤ y < x + Z.of_nat n → p y = true.
Proof.
  revert x. induction n as [|n IH]; intros x; [lia|]. cbn [all_from]. rewrite andb_true_iff. intros [Hp Hn] Hy.
  destruct (Z.eq_dec y x) as [->|]; [done|]. apply (IH (x + 1)); [done|lia].
Qed.

(** ** A state monad with faults

    [ST S A] runs on a state of type [S]; [None] stands for an access
    violation (or, for the functions that take fuel, for fuel running out):
    every functional theorem of the development shows that the result is
    [Some]. *)

Definition ST (S A : Type) : Type := S → option (A * S).

#[global] Instance ST_ret S : MRet (ST S) := λ A a s, Some (a, s).
#[global] Instance ST_bind S : MBind (ST S) := λ A B f m s,
  match m s with
  | Some (a, s') => f a s'
  | None => None
  end.

Definition fault {S A} : ST S A := λ _, None.
Definition get_st {S} : ST S S := λ s, Some (s, s).
Definition put_st {S} (s : S) : ST S unit := λ _, Some (tt, s).

(** *** Total correctness

    [wp m Q s]: run from [s], [m] does not fault and its result and final state
    satisfy [Q]. *)

Definition wp {S A} (m : ST S A) (Q : A → S → Prop) (s : S) : Prop :=
  ∃ a s', m s = Some (a, s') ∧ Q a s'.

Lemma wp_ret {S A} (a : A) (Q : A → S → Prop) (s : S) : Q a s → wp (mret a) Q s.
Proof. intros HQ. by exists a, s. Qed.

Lemma wp_bind {S A B} (m : ST S A) (f : A → ST S B) (Q : B → S → Prop) (s : S) :
  wp m (λ a s', wp (f a) Q s') s → wp (m ≫= f) Q s.
Proof.
  intros (a & s1 & Hm & b & s2 & Hf & HQ). exists b, s2. split; [|done].
  unfold mbind, ST_bind. by rewrite Hm.
Qed.

Lemma wp_assoc {S A B C} (m : ST S A) (f : A → ST S B) (g : B → ST S C) Q (s : S) :
  wp ((m ≫= f) ≫= g) Q s → wp (m ≫= λ a, f a ≫= g) Q s.
Proof. unfold wp, mbind, ST_bind. by destruct (m s) as [[??]|]. Qed.

Lemma wp_unassoc {S A B C} (m : ST S A) (f : A → ST S B) (g : B → ST S C) Q (s : S) :
  wp (m ≫= λ a, f a ≫= g) Q s → wp ((m ≫= f) ≫= g) Q s.
Proof. unfold wp, mbind, ST_bind. by destruct (m s) as [[??]|]. Qed.

Lemma wp_mono {S A} (m : ST S A) (P Q : A → S → Prop) (s : S) :
  wp m P s → (∀ a s', P a s' → Q a s') → wp m Q s.
Proof. intros (a & s' & Hm & HP) HPQ. exists a, s'. auto. Qed.

Lemma wp_eq {S A} (m : ST S A) (a : A) (s s' : S) :
  wp m (λ b s1, b = a ∧ s1 = s') s → m s = Some (a, s').
Proof. by intros (b & s1 & Hm & -> & ->). Qed.

Lemma wp_get {S} (Q : S → S → Prop) (s : S) : Q s s → wp get_st Q s.
Proof. intros HQ. by exists s, s. Qed.

Lemma wp_put {S} (Q : unit → S → Prop) (s s' : S) : Q tt s' → wp (put_st s') Q s.
Proof. intros HQ. by exists tt, s'. Qed.

(** A deterministic program has one outcome, so what it is known to satisfy
    holds of any outcome one computes. *)
Lemma wp_inv {S A} (m : ST S A) (Q : A → S → Prop) (s : S) a s' :
  wp m Q s → m s = Some (a, s') → Q a s'.
Proof. intros (b & s1 & Hm & HQ) Hm'. by simplify_eq. Qed.

(** Programs run one statement at a time. *)
Ltac step := lazymatch goal with
  | |- wp (mret _) _ _ => apply wp_ret
  | |- wp get_st _ _ => apply wp_get
  | |- wp (put_st _) _ _ => apply wp_put
  | |- wp (_ ≫= _) _ _ => apply wp_bind
  end; cbv beta iota.
Ltac steps := repeat step.

(** Focus the first program of a sequence; syntactic, so that a definition that
    starts with a sequence is left folded. *)
Ltac enter_bind :=
  lazymatch goal with
  | |- wp (_ ≫= _) _ _ => apply wp_bind
  | _ => idtac
  end.

(** ** Lists *)

Lemma filter_none {A} (P : A → Prop) `{!∀ x, Decision (P x)} (l : list A) :
  (∀ x, x ∈ l → ¬ P x) → filter P l = [].
Proof.
  intros Hl. destruct (filter P l) as [|x k] eqn:Hf; [done|]. exfalso.
  assert (x ∈ filter P l) as [Hx Hin]%list_elem_of_filter by (rewrite Hf; set_solver).
  by apply (Hl x).
Qed.

Lemma filter_all {A} (P : A → Prop) `{!∀ x, Decision (P x)} (l : list A) :
  (∀ x, x ∈ l → P x) → filter P l = l.
Proof.
  induction l as [|x l IH]; [done|]. intros Hl. rewrite filter_cons_True by (apply Hl; set_solver).
  f_equal. apply IH. set_solver.
Qed.

Lemma head_unique {A} (l : list A) (x : A) :
  x ∈ l → (∀ y, y ∈ l → y = x) → head l = Some x.
Proof. destruct l as [|y l]; [by intros ?%elem_of_nil|]. intros _ Hl. simpl. f_equal. apply Hl. set_solver. Qed.
