(* ===== verification/AvlTree.v ===== *)
(** The AVL tree of [phlib/avltree.c], at the level of its links: a heap maps
    addresses to [PH_AVL_LINKS] structures and every function of the file is a
    program that reads and writes that heap. *)

From S2P Require Import Prelude.

(** ** Data *)

(** An address; [NULL] is 0. *)
Abbreviation ptr := Z.
Definition NULL : ptr := 0.

(** [struct _PH_AVL_LINKS]. *)
Record PH_AVL_LINKS : Type := Links {
  Parent : ptr;
  Left : ptr;
  Right : ptr;
  Balance : Z
}.

(** [struct _PH_AVL_TREE]: [Root] is the address of the embedded sentinel
    links, whose [Right] field is the real root. *)
Record PH_AVL_TREE : Type := AvlTree {
  Root : ptr;
  Count : Z;
  CompareFunction : ptr → ptr → Z
}.

Abbreviation heap := (gmap Z PH_AVL_LINKS).

(** ** Memory accesses *)

Definition load (p : ptr) : ST heap PH_AVL_LINKS := λ h,
  if decide (p = NULL) then None else
  match h !! p with
  | Some l => Some (l, h)
  | None => None
  end.

Definition store (p : ptr) (l : PH_AVL_LINKS) : ST heap unit := λ h,
  if decide (p = NULL) then None else
  match h !! p with
  | Some _ => Some (tt, <[p := l]> h)
  | None => None
  end.

Definition get_Parent (p : ptr) : ST heap ptr := l ← load p; mret (Parent l).
Definition get_Left (p : ptr) : ST heap ptr := l ← load p; mret (Left l).
Definition get_Right (p : ptr) : ST heap ptr := l ← load p; mret (Right l).
Definition get_Balance (p : ptr) : ST heap Z := l ← load p; mret (Balance l).

Definition set_Parent (p v : ptr) : ST heap unit :=
  l ← load p; store p (Links v (Left l) (Right l) (Balance l)).
Definition set_Left (p v : ptr) : ST heap unit :=
  l ← load p; store p (Links (Parent l) v (Right l) (Balance l)).
Definition set_Right (p v : ptr) : ST heap unit :=
  l ← load p; store p (Links (Parent l) (Left l) v (Balance l)).
Definition set_Balance (p : ptr) (v : Z) : ST heap unit :=
  l ← load p; store p (Links (Parent l) (Left l) (Right l) v).

(** A [PPH_AVL_LINKS *] is the address of the [Left] or [Right] field of a
    structure. *)
Inductive side : Type := SLeft | SRight.

#[global] Instance side_eq_dec : EqDecision side.
Proof. solve_decision. Defined.

Definition ref : Type := ptr * side.

Definition read_ref (r : ref) : ST heap ptr :=
  match r.2 with SLeft => get_Left r.1 | SRight => get_Right r.1 end.

Definition write_ref (r : ref) (v : ptr) : ST heap unit :=
  match r.2 with SLeft => set_Left r.1 v | SRight => set_Right r.1 v end.

(** ** Initialization *)

Definition PhInitializeAvlTree (Tree : ptr) (CompareFunction : ptr → ptr → Z) : ST heap PH_AVL_TREE :=
  set_Parent Tree NULL ;;
  set_Left Tree NULL ;;
  set_Right Tree NULL ;;
  set_Balance Tree 0 ;;
  mret (AvlTree Tree 0 CompareFunction).

Definition PhRootElementAvlTree (Tree : PH_AVL_TREE) : ST heap ptr := get_Right (Root Tree).

(** ** Search *)

(** The [while (TRUE)] loop of [PhpFindElementAvlTree]. *)
Fixpoint find_loop (fuel : nat) (Tree : PH_AVL_TREE) (Element links : ptr) : ST heap (ptr * Z) :=
  match fuel with
  | O => fault
  | S fuel =>
      let result := CompareFunction Tree Element links in
      if result =? 0 then mret (links, 0)
      else if result <? 0 then
        left ← get_Left links;
        if decide (left = NULL) then mret (links, -1)
        else find_loop fuel Tree Element left
      else
        right ← get_Right links;
        if decide (right = NULL) then mret (links, 1)
        else find_loop fuel Tree Element right
  end.

Definition PhpFindElementAvlTree (fuel : nat) (Tree : PH_AVL_TREE) (Element : ptr) : ST heap (ptr * Z) :=
  links ← PhRootElementAvlTree Tree;
  if decide (links = NULL) then mret (Root Tree, 1)
  else find_loop fuel Tree Element links.

(** ** Rotations

    [Root] is the field that holds the address of the subtree's root. *)

Definition PhpRotateLeftAvlLinks (Root : ref) : ST heap unit :=
  P ← read_ref Root;
  Q ← get_Right P;
  (* the new root is Q *)
  write_ref Root Q ;;
  PParent ← get_Parent P;
  set_Parent Q PParent ;;
  (* P.Right = Q.Left (transfer B) *)
  QLeft ← get_Left Q;
  set_Right P QLeft ;;
  PRight ← get_Right P;
  (if decide (PRight = NULL) then mret tt else set_Parent PRight P) ;;
  (* Q.Left = P *)
  set_Left Q P ;;
  set_Parent P Q.

Definition PhpRotateLeftTwiceAvlLinks (Root : ref) : ST heap unit :=
  P ← read_ref Root;
  Q ← get_Right P;
  R ← get_Left Q;
  (* the new root is R *)
  write_ref Root R ;;
  PParent ← get_Parent P;
  set_Parent R PParent ;;
  (* Q.Left = R.Right (transfer C) *)
  RRight ← get_Right R;
  set_Left Q RRight ;;
  QLeft ← get_Left Q;
  (if decide (QLeft = NULL) then mret tt else set_Parent QLeft Q) ;;
  (* R.Right = Q *)
  set_Right R Q ;;
  set_Parent Q R ;;
  (* P.Right = R.Left (transfer B) *)
  RLeft ← get_Left R;
  set_Right P RLeft ;;
  PRight ← get_Right P;
  (if decide (PRight = NULL) then mret tt else set_Parent PRight P) ;;
  (* R.Left = P *)
  set_Left R P ;;
  set_Parent P R.

Definition PhpRotateRightAvlLinks (Root : ref) : ST heap unit :=
  Q ← read_ref Root;
  P ← get_Left Q;
  (* the new root is P *)
  write_ref Root P ;;
  QParent ← get_Parent Q;
  set_Parent P QParent ;;
  (* Q.Left = P.Right (transfer B) *)
  PRight ← get_Right P;
  set_Left Q PRight ;;
  QLeft ← get_Left Q;
  (if decide (QLeft = NULL) then mret tt else set_Parent QLeft Q) ;;
  (* P.Right = Q *)
  set_Right P Q ;;
  set_Parent Q P.

Definition PhpRotateRightTwiceAvlLinks (Root : ref) : ST heap unit :=
  P ← read_ref Root;
  Q ← get_Left P;
  R ← get_Right Q;
  (* the new root is R *)
  write_ref Root R ;;
  PParent ← get_Parent P;
  set_Parent R PParent ;;
  (* Q.Right = R.Left (transfer B) *)
  RLeft ← get_Left R;
  set_Right Q RLeft ;;
  QRight ← get_Right Q;
  (if decide (QRight = NULL) then mret tt else set_Parent QRight Q) ;;
  (* R.Left = Q *)
  set_Left R Q ;;
  set_Parent Q R ;;
  (* P.Left = R.Right (transfer C) *)
  RRight ← get_Right R;
  set_Left P RRight ;;
  PLeft ← get_Left P;
  (if decide (PLeft = NULL) then mret tt else set_Parent PLeft P) ;;
  (* R.Right = P *)
  set_Right R P ;;
  set_Parent P R.

Definition PhpRebalanceAvlLinks (Root : ref) : ST heap Z :=
  P ← read_ref Root;
  PBalance ← get_Balance P;
  if PBalance =? -1 then
    Q ← get_Left P;
    QBalance ← get_Balance Q;
    if QBalance =? -1 then
      (* left-left *)
      PhpRotateRightAvlLinks Root ;;
      set_Balance P 0 ;;
      set_Balance Q 0 ;;
      mret 1
    else if QBalance =? 1 then
      (* left-right *)
      R ← get_Right Q;
      PhpRotateRightTwiceAvlLinks Root ;;
      RBalance ← get_Balance R;
      (if RBalance =? -1 then set_Balance P 1 ;; set_Balance Q 0
       else if RBalance =? 1 then set_Balance P 0 ;; set_Balance Q (-1)
       else set_Balance P 0 ;; set_Balance Q 0) ;;
      set_Balance R 0 ;;
      mret 2
    else
      (* special (only occurs when removing) *)
      PhpRotateRightAvlLinks Root ;;
      set_Balance Q 1 ;;
      mret 3
  else
    Q ← get_Right P;
    QBalance ← get_Balance Q;
    if QBalance =? 1 then
      (* right-right *)
      PhpRotateLeftAvlLinks Root ;;
      set_Balance P 0 ;;
      set_Balance Q 0 ;;
      mret 1
    else if QBalance =? -1 then
      (* right-left *)
      R ← get_Left Q;
      PhpRotateLeftTwiceAvlLinks Root ;;
      RBalance ← get_Balance R;
      (if RBalance =? -1 then set_Balance P 0 ;; set_Balance Q 1
       else if RBalance =? 1 then set_Balance P (-1) ;; set_Balance Q 0
       else set_Balance P 0 ;; set_Balance Q 0) ;;
      set_Balance R 0 ;;
      mret 2
    else
      (* special (only occurs when removing) *)
      PhpRotateLeftAvlLinks Root ;;
      set_Balance Q (-1) ;;
      mret 3.

(** [PhIsLeftChildElement(Links)]: [Links->Parent->Left == Links]. *)
Definition PhIsLeftChildElement (Links : ptr) : ST heap bool :=
  parent ← get_Parent Links;
  left ← get_Left parent;
  mret (bool_decide (left = Links)).

(** [&P->Parent->Left] or [&P->Parent->Right], the field that holds [P]. *)
Definition parent_ref (P : ptr) : ST heap ref :=
  isleft ← PhIsLeftChildElement P;
  parent ← get_Parent P;
  mret (parent, if isleft : bool then SLeft else SRight).

(** ** Insertion *)

(** The balancing loop [while (P != root)] of [PhAddElementAvlTree]. *)
Fixpoint add_balance_loop (fuel : nat) (root P : ptr) : ST heap unit :=
  match fuel with
  | O => fault
  | S fuel =>
      if decide (P = root) then mret tt
      else
        isleft ← PhIsLeftChildElement P;
        let balance := if isleft : bool then -1 else 1 in
        P ← get_Parent P;
        PBalance ← get_Balance P;
        if PBalance =? 0 then
          set_Balance P balance ;;
          add_balance_loop fuel root P
        else if negb (PBalance =? balance) then
          set_Balance P 0
        else
          ref ← parent_ref P;
          PhpRebalanceAvlLinks ref ;;
          mret tt
  end.

(** Returns NULL and the updated tree when [Element] was added, and the
    existing element with the tree unchanged otherwise. *)
Definition PhAddElementAvlTree (fuel : nat) (Tree : PH_AVL_TREE) (Element : ptr)
    : ST heap (ptr * PH_AVL_TREE) :=
  '(P, result) ← PhpFindElementAvlTree fuel Tree Element;
  linked ← (if result <? 0 then set_Left P Element ;; mret true
            else if 0 <? result then set_Right P Element ;; mret true
            else mret false);
  if negb linked then mret (P, Tree)
  else
    set_Parent Element P ;;
    set_Left Element NULL ;;
    set_Right Element NULL ;;
    set_Balance Element 0 ;;
    root ← PhRootElementAvlTree Tree;
    add_balance_loop fuel root Element ;;
    mret (NULL, AvlTree (Root Tree) (u32 (Count Tree + 1)) (CompareFunction Tree)).

(** ** Removal *)

(** [while (p->Left) p = p->Left;] *)
Fixpoint leftmost (fuel : nat) (p : ptr) : ST heap ptr :=
  match fuel with
  | O => fault
  | S fuel =>
      left ← get_Left p;
      if decide (left = NULL) then mret p else leftmost fuel left
  end.

(** [while (p->Right) p = p->Right;] *)
Fixpoint rightmost (fuel : nat) (p : ptr) : ST heap ptr :=
  match fuel with
  | O => fault
  | S fuel =>
      right ← get_Right p;
      if decide (right = NULL) then mret p else rightmost fuel right
  end.

(** The element that is unlinked from the tree in place of [Element]. *)
Definition remove_candidate (fuel : nat) (Element : ptr) : ST heap ptr :=
  l ← load Element;
  if decide (Left l = NULL ∨ Right l = NULL) then mret Element
  else if 0 <=? Balance l then leftmost fuel (Right l)
  else rightmost fuel (Left l).

(** Replaces [newElement] by its only child, if any. *)
Definition unlink_child (replace : ref) (newElement : ptr) : ST heap unit :=
  right ← get_Right newElement;
  if decide (right = NULL) then
    left ← get_Left newElement;
    write_ref replace left ;;
    parent ← get_Parent newElement;
    if decide (left = NULL) then mret tt else set_Parent left parent
  else
    write_ref replace right ;;
    parent ← get_Parent newElement;
    set_Parent right parent.

(** The balancing loop [while (P != root)] of [PhRemoveElementAvlTree]. *)
Fixpoint remove_balance_loop (fuel : nat) (root P : ptr) (balance : Z) : ST heap unit :=
  match fuel with
  | O => fault
  | S fuel =>
      if decide (P = root) then mret tt
      else
        PBalance ← get_Balance P;
        next ← (if PBalance =? balance then
                  set_Balance P 0 ;; mret (Some P)
                else if PBalance =? 0 then
                  set_Balance P (- balance) ;; mret None
                else
                  ref ← parent_ref P;
                  code ← PhpRebalanceAvlLinks ref;
                  if code =? 3 then mret None
                  else parent ← get_Parent P; mret (Some parent));
        match next with
        | None => mret tt
        | Some P =>
            isleft ← PhIsLeftChildElement P;
            parent ← get_Parent P;
            remove_balance_loop fuel root parent (if isleft : bool then -1 else 1)
        end
  end.

(** [*newElement = *Element] and the links around it: the subject takes the
    place of the removed element. *)
Definition replace_subject (Element newElement : ptr) : ST heap unit :=
  l ← load Element;
  store newElement l ;;
  isleft ← PhIsLeftChildElement Element;
  parent ← get_Parent newElement;
  (if isleft : bool then set_Left parent newElement else set_Right parent newElement) ;;
  left ← get_Left newElement;
  (if decide (left = NULL) then mret tt else set_Parent left newElement) ;;
  right ← get_Right newElement;
  (if decide (right = NULL) then mret tt else set_Parent right newElement).

Definition PhRemoveElementAvlTree (fuel : nat) (Tree : PH_AVL_TREE) (Element : ptr)
    : ST heap PH_AVL_TREE :=
  newElement ← remove_candidate fuel Element;
  replace ← parent_ref newElement;
  unlink_child replace newElement ;;
  P ← get_Parent newElement;
  remove_balance_loop fuel (Root Tree) P (match replace.2 with SLeft => -1 | SRight => 1 end) ;;
  (if decide (newElement = Element) then mret tt else replace_subject Element newElement) ;;
  mret (AvlTree (Root Tree) (u32 (Count Tree - 1)) (CompareFunction Tree)).

(** ** Lookups *)

Definition PhFindElementAvlTree (fuel : nat) (Tree : PH_AVL_TREE) (Element : ptr) : ST heap ptr :=
  '(links, result) ← PhpFindElementAvlTree fuel Tree Element;
  if result =? 0 then mret links else mret NULL.

(** The [while (links)] loops of the four bound searches. *)
Fixpoint lower_bound_loop (fuel : nat) (Tree : PH_AVL_TREE) (Element links closest : ptr) : ST heap ptr :=
  match fuel with
  | O => fault
  | S fuel =>
      if decide (links = NULL) then mret closest
      else if 0 <? CompareFunction Tree Element links then
        right ← get_Right links;
        lower_bound_loop fuel Tree Element right closest
      else
        left ← get_Left links;
        lower_bound_loop fuel Tree Element left links
  end.

Definition PhLowerBoundElementAvlTree (fuel : nat) (Tree : PH_AVL_TREE) (Element : ptr) : ST heap ptr :=
  links ← PhRootElementAvlTree Tree;
  lower_bound_loop fuel Tree Element links NULL.

Fixpoint upper_bound_loop (fuel : nat) (Tree : PH_AVL_TREE) (Element links closest : ptr) : ST heap ptr :=
  match fuel with
  | O => fault
  | S fuel =>
      if decide (links = NULL) then mret closest
      else if 0 <=? CompareFunction Tree Element links then
        right ← get_Right links;
        upper_bound_loop fuel Tree Element right closest
      else
        left ← get_Left links;
        upper_bound_loop fuel Tree Element left links
  end.

Definition PhUpperBoundElementAvlTree (fuel : nat) (Tree : PH_AVL_TREE) (Element : ptr) : ST heap ptr :=
  links ← PhRootElementAvlTree Tree;
  upper_bound_loop fuel Tree Element links NULL.

Fixpoint lower_dual_bound_loop (fuel : nat) (Tree : PH_AVL_TREE) (Element links closest : ptr) : ST heap ptr :=
  match fuel with
  | O => fault
  | S fuel =>
      if decide (links = NULL) then mret closest
      else if 0 <? CompareFunction Tree Element links then
        right ← get_Right links;
        lower_dual_bound_loop fuel Tree Element right links
      else
        left ← get_Left links;
        lower_dual_bound_loop fuel Tree Element left closest
  end.

Definition PhLowerDualBoundElementAvlTree (fuel : nat) (Tree : PH_AVL_TREE) (Element : ptr) : ST heap ptr :=
  links ← PhRootElementAvlTree Tree;
  lower_dual_bound_loop fuel Tree Element links NULL.

Fixpoint upper_dual_bound_loop (fuel : nat) (Tree : PH_AVL_TREE) (Element links closest : ptr) : ST heap ptr :=
  match fuel with
  | O => fault
  | S fuel =>
      if decide (links = NULL) then mret closest
      else if 0 <=? CompareFunction Tree Element links then
        right ← get_Right links;
        upper_dual_bound_loop fuel Tree Element right links
      else
        left ← get_Left links;
        upper_dual_bound_loop fuel Tree Element left closest
  end.

Definition PhUpperDualBoundElementAvlTree (fuel : nat) (Tree : PH_AVL_TREE) (Element : ptr) : ST heap ptr :=
  links ← PhRootElementAvlTree Tree;
  upper_dual_bound_loop fuel Tree Element links NULL.

Definition PhMinimumElementAvlTree (fuel : nat) (Tree : PH_AVL_TREE) : ST heap ptr :=
  links ← PhRootElementAvlTree Tree;
  if decide (links = NULL) then mret NULL else leftmost fuel links.

Definition PhMaximumElementAvlTree (fuel : nat) (Tree : PH_AVL_TREE) : ST heap ptr :=
  links ← PhRootElementAvlTree Tree;
  if decide (links = NULL) then mret NULL else rightmost fuel links.

(** ** Traversal *)

(** [while (links && links->Right == Element) { Element = links; links = links->Parent; }] *)
Fixpoint climb_from_right (fuel : nat) (Element links : ptr) : ST heap ptr :=
  match fuel with
  | O => fault
  | S fuel =>
      if decide (links = NULL) then mret links
      else
        right ← get_Right links;
        if decide (right = Element) then
          parent ← get_Parent links;
          climb_from_right fuel links parent
        else mret links
  end.

Definition PhSuccessorElementAvlTree (fuel : nat) (Element : ptr) : ST heap ptr :=
  right ← get_Right Element;
  if decide (right = NULL) then
    links ← get_Parent Element;
    climb_from_right fuel Element links
  else leftmost fuel right.

Fixpoint climb_from_left (fuel : nat) (Element links : ptr) : ST heap ptr :=
  match fuel with
  | O => fault
  | S fuel =>
      if decide (links = NULL) then mret links
      else
        left ← get_Left links;
        if decide (left = Element) then
          parent ← get_Parent links;
          climb_from_left fuel links parent
        else mret links
  end.

Definition PhPredecessorElementAvlTree (fuel : nat) (Element : ptr) : ST heap ptr :=
  left ← get_Left Element;
  if decide (left = NULL) then
    links ← get_Parent Element;
    links ← climb_from_left fuel Element links;
    if decide (links = NULL) then mret links
    else
      parent ← get_Parent links;
      if decide (parent = NULL) then mret NULL (* reached Root, so no more elements *)
      else mret links
  else rightmost fuel left.

(** ** Enumeration *)

Inductive PH_TREE_ENUMERATION_ORDER : Type :=
  | TreeEnumerateInOrder
  | TreeEnumerateInReverseOrder.

(** [PPH_AVL_LINKS stackBase[47]]: a push beyond the array is a fault. *)
Definition stack_size : nat := 47.

Definition push (links : ptr) (stack : list ptr) : ST heap (list ptr) :=
  if decide (length stack < stack_size)%nat then mret (links :: stack) else fault.

(** [while (links) { *stack++ = links; links = links->Left; }], and its mirror
    image for the reverse order. *)
Fixpoint push_spine (fuel : nat) (order : PH_TREE_ENUMERATION_ORDER) (links : ptr) (stack : list ptr)
    : ST heap (list ptr) :=
  match fuel with
  | O => fault
  | S fuel =>
      if decide (links = NULL) then mret stack
      else
        stack ← push links stack;
        next ← (match order with
                | TreeEnumerateInOrder => get_Left links
                | TreeEnumerateInReverseOrder => get_Right links
                end);
        push_spine fuel order next stack
  end.

Section Enum.
(** The callback and the state its [Context] points to. *)
Context {C : Type} (Callback : ptr → C → bool * C).

Fixpoint enum_loop (fuel depth : nat) (order : PH_TREE_ENUMERATION_ORDER) (stack : list ptr) (Context : C)
    : ST heap C :=
  match fuel with
  | O => fault
  | S fuel =>
      match stack with
      | [] => mret Context
      | links :: stack =>
          let '(continue, Context) := Callback links Context in
          if negb continue then mret Context
          else
            next ← (match order with
                    | TreeEnumerateInOrder => get_Right links
                    | TreeEnumerateInReverseOrder => get_Left links
                    end);
            stack ← push_spine depth order next stack;
            enum_loop fuel depth order stack Context
      end
  end.

Definition PhEnumAvlTree (fuel depth : nat) (Tree : PH_AVL_TREE) (order : PH_TREE_ENUMERATION_ORDER) (Context : C)
    : ST heap C :=
  links ← PhRootElementAvlTree Tree;
  stack ← push_spine depth order links [];
  enum_loop fuel depth order stack Context.
End Enum.
