(* ===== verification/AvlTreeFacts.v ===== *)
(** Correctness of the AVL tree: the abstract trees, the predicate that relates
    them to the links in memory, and the refinement of every operation. *)

From S2P Require Import Prelude AvlTree.

(** ** Abstract trees

    A node holds its address and its recorded balance factor. *)

Inductive tree : Type :=
  | E
  | T (l : tree) (a : ptr) (b : Z) (r : tree).

Definition ptr_of (t : tree) : ptr := match t with E => NULL | T _ a _ _ => a end.

Fixpoint inorder (t : tree) : list ptr :=
  match t with
  | E => []
  | T l a _ r => inorder l ++ a :: inorder r
  end.

Fixpoint height (t : tree) : Z :=
  match t with
  | E => 0
  | T l _ _ r => 1 + Z.max (height l) (height r)
  end.

(** The balance factor is the right height minus left height. *)
Fixpoint avl (t : tree) : Prop :=
  match t with
  | E => True
  | T l _ b r => avl l ∧ avl r ∧ b = height r - height l ∧ -1 ≤ b ≤ 1
  end.

(** The links of [t] are in the heap, the root's parent being [par]. *)
Fixpoint rep (h : heap) (par : ptr) (t : tree) : Prop :=
  match t with
  | E => True
  | T l a b r =>
      a ≠ NULL ∧ h !! a = Some (Links par (ptr_of l) (ptr_of r) b) ∧
      rep h a l ∧ rep h a r
  end.

(** The whole tree: the sentinel links hold the root in [Right]. *)
Definition tree_at (h : heap) (Tree : PH_AVL_TREE) (t : tree) : Prop :=
  Root Tree ≠ NULL ∧
  h !! Root Tree = Some (Links NULL NULL (ptr_of t) 0) ∧
  rep h (Root Tree) t ∧
  NoDup (Root Tree :: inorder t).

(** *** Contexts *)

(** A step of the path from a subtree up to the root, innermost first: the
    side the subtree is on, the parent, its balance and the other child. *)
Record frame : Type := Frame {
  fside : side;
  faddr : ptr;
  fbal : Z;
  fsib : tree
}.

Definition plug1 (f : frame) (t : tree) : tree :=
  match fside f with
  | SLeft => T t (faddr f) (fbal f) (fsib f)
  | SRight => T (fsib f) (faddr f) (fbal f) t
  end.

Definition plug (c : list frame) (t : tree) : tree := foldl (λ t f, plug1 f t) t c.

Definition ctx_parent (par : ptr) (c : list frame) : ptr :=
  match c with [] => par | f :: _ => faddr f end.

Definition ctx_side (c : list frame) : side :=
  match c with [] => SRight | f :: _ => fside f end.

Definition frame_links (par focus : ptr) (f : frame) : PH_AVL_LINKS :=
  match fside f with
  | SLeft => Links par focus (ptr_of (fsib f)) (fbal f)
  | SRight => Links par (ptr_of (fsib f)) focus (fbal f)
  end.

Fixpoint rep_ctx (h : heap) (par : ptr) (c : list frame) (focus : ptr) : Prop :=
  match c with
  | [] => True
  | f :: c =>
      faddr f ≠ NULL ∧
      h !! faddr f = Some (frame_links (ctx_parent par c) focus f) ∧
      rep h (faddr f) (fsib f) ∧
      rep_ctx h par c (faddr f)
  end.

Fixpoint ctx_left (c : list frame) : list ptr :=
  match c with
  | [] => []
  | f :: c =>
      match fside f with
      | SLeft => ctx_left c
      | SRight => ctx_left c ++ inorder (fsib f) ++ [faddr f]
      end
  end.

Fixpoint ctx_right (c : list frame) : list ptr :=
  match c with
  | [] => []
  | f :: c =>
      match fside f with
      | SLeft => faddr f :: inorder (fsib f) ++ ctx_right c
      | SRight => ctx_right c
      end
  end.

(** ** Basic lemmas *)

Lemma ptr_of_nonnull h par t : rep h par t → ptr_of t = NULL → t = E.
Proof. destruct t; simpl; [done|]. by intros [??] ->. Qed.

Lemma ptr_of_plug1 f t : ptr_of (plug1 f t) = faddr f.
Proof. unfold plug1. by destruct (fside f). Qed.

Lemma ptr_of_plug c t t' : ptr_of t = ptr_of t' → ptr_of (plug c t) = ptr_of (plug c t').
Proof.
  revert t t'. induction c as [|f c IH]; intros t t' Ht; [done|].
  apply IH. by rewrite !ptr_of_plug1.
Qed.

Lemma inorder_plug c t : inorder (plug c t) = ctx_left c ++ inorder t ++ ctx_right c.
Proof.
  revert t. induction c as [|f c IH]; intros t; simpl.
  - by rewrite app_nil_r.
  - rewrite IH. unfold plug1. destruct (fside f); simpl; by rewrite <-?app_assoc; simpl.
Qed.

Lemma plug_cons f c t : plug (f :: c) t = plug c (plug1 f t).
Proof. done. Qed.

Lemma plug_app c1 c2 t : plug (c1 ++ c2) t = plug c2 (plug c1 t).
Proof. unfold plug. by rewrite foldl_app. Qed.

Lemma rep_plug1 h par f t :
  rep h par (plug1 f t) ↔
  faddr f ≠ NULL ∧ h !! faddr f = Some (frame_links par (ptr_of t) f) ∧
  rep h (faddr f) (fsib f) ∧ rep h (faddr f) t.
Proof. unfold plug1, frame_links. destruct (fside f); simpl; naive_solver. Qed.

Lemma rep_plug h par c t :
  rep h par (plug c t) ↔ rep_ctx h par c (ptr_of t) ∧ rep h (ctx_parent par c) t.
Proof.
  revert t. induction c as [|f c IH]; intros t; simpl; [naive_solver|].
  rewrite IH, rep_plug1, ptr_of_plug1. naive_solver.
Qed.

Lemma rep_nonnull h par t x : rep h par t → x ∈ inorder t → x ≠ NULL.
Proof.
  revert par. induction t as [|l IHl a b r IHr]; intros par; simpl; [by intros _ ?%elem_of_nil|].
  intros (Ha & _ & Hl & Hr). rewrite elem_of_app, elem_of_cons.
  intros [?|[->|?]]; [by eapply IHl|done|by eapply IHr].
Qed.

Lemma rep_frame h h' par t :
  rep h par t → (∀ x, x ∈ inorder t → h' !! x = h !! x) → rep h' par t.
Proof.
  revert par. induction t as [|l IHl a b r IHr]; intros par; simpl; [done|].
  intros (Ha & Hlk & Hl & Hr) Hfr. split_and!; [done| | |].
  - rewrite Hfr; [done|]. set_solver.
  - apply IHl; [done|]. set_solver.
  - apply IHr; [done|]. set_solver.
Qed.

Lemma rep_ctx_frame h h' par c focus :
  rep_ctx h par c focus →
  (∀ x, x ∈ ctx_left c ++ ctx_right c → h' !! x = h !! x) →
  rep_ctx h' par c focus.
Proof.
  revert focus. induction c as [|f c IH]; intros focus; simpl; [done|].
  intros (Ha & Hlk & Hs & Hc) Hfr. destruct (fside f) eqn:Hside.
  all: split_and!; [done|rewrite Hfr; [done|set_solver]
    |apply (rep_frame h); [done|set_solver]|apply IH; [done|set_solver]].
Qed.

(** The innermost frame is the only part of a context that knows the focus. *)
Definition set_child (s : side) (l : PH_AVL_LINKS) (v : ptr) : PH_AVL_LINKS :=
  match s with
  | SLeft => Links (Parent l) v (Right l) (Balance l)
  | SRight => Links (Parent l) (Left l) v (Balance l)
  end.

Definition child (s : side) (l : PH_AVL_LINKS) : ptr :=
  match s with SLeft => Left l | SRight => Right l end.

(** *** Rules for single accesses *)

Section Accesses.
Context (h : heap) (p : ptr) (l : PH_AVL_LINKS).
Context (Hp : p ≠ NULL) (Hl : h !! p = Some l).

Lemma wp_load (Q : PH_AVL_LINKS → heap → Prop) : Q l h → wp (load p) Q h.
Proof using Hp Hl.
  intros HQ. exists l, h. split; [|done]. unfold load. rewrite decide_False by done.
  by rewrite Hl.
Qed.

Lemma wp_store l' (Q : unit → heap → Prop) : Q tt (<[p := l']> h) → wp (store p l') Q h.
Proof using Hp Hl.
  intros HQ. eexists tt, _. split; [|exact HQ]. unfold store. rewrite decide_False by done.
  by rewrite Hl.
Qed.

Lemma wp_get_Parent (Q : ptr → heap → Prop) : Q (Parent l) h → wp (get_Parent p) Q h.
Proof using Hp Hl. intros. apply wp_bind, wp_load, wp_ret; done. Qed.
Lemma wp_get_Left (Q : ptr → heap → Prop) : Q (Left l) h → wp (get_Left p) Q h.
Proof using Hp Hl. intros. apply wp_bind, wp_load, wp_ret; done. Qed.
Lemma wp_get_Right (Q : ptr → heap → Prop) : Q (Right l) h → wp (get_Right p) Q h.
Proof using Hp Hl. intros. apply wp_bind, wp_load, wp_ret; done. Qed.
Lemma wp_get_Balance (Q : Z → heap → Prop) : Q (Balance l) h → wp (get_Balance p) Q h.
Proof using Hp Hl. intros. apply wp_bind, wp_load, wp_ret; done. Qed.

Lemma wp_set_Parent v (Q : unit → heap → Prop) :
  Q tt (<[p := Links v (Left l) (Right l) (Balance l)]> h) → wp (set_Parent p v) Q h.
Proof using Hp Hl. intros. apply wp_bind, wp_load, wp_store; done. Qed.
Lemma wp_set_Left v (Q : unit → heap → Prop) :
  Q tt (<[p := Links (Parent l) v (Right l) (Balance l)]> h) → wp (set_Left p v) Q h.
Proof using Hp Hl. intros. apply wp_bind, wp_load, wp_store; done. Qed.
Lemma wp_set_Right v (Q : unit → heap → Prop) :
  Q tt (<[p := Links (Parent l) (Left l) v (Balance l)]> h) → wp (set_Right p v) Q h.
Proof using Hp Hl. intros. apply wp_bind, wp_load, wp_store; done. Qed.
Lemma wp_set_Balance v (Q : unit → heap → Prop) :
  Q tt (<[p := Links (Parent l) (Left l) (Right l) v]> h) → wp (set_Balance p v) Q h.
Proof using Hp Hl. intros. apply wp_bind, wp_load, wp_store; done. Qed.

Lemma wp_read_ref s (Q : ptr → heap → Prop) : Q (child s l) h → wp (read_ref (p, s)) Q h.
Proof using Hp Hl. destruct s; [apply wp_get_Left|apply wp_get_Right]. Qed.
Lemma wp_write_ref s v (Q : unit → heap → Prop) :
  Q tt (<[p := set_child s l v]> h) → wp (write_ref (p, s) v) Q h.
Proof using Hp Hl. destruct s; [apply wp_set_Left|apply wp_set_Right]. Qed.
End Accesses.

(** Write to the [Parent] field of a subtree's root, when there is one. *)
Lemma wp_reparent h par t v (Q : unit → heap → Prop) :
  rep h par t → NoDup (inorder t) →
  (∀ h', rep h' v t → (∀ x, x ∉ inorder t → h' !! x = h !! x) → Q tt h') →
  wp (if decide (ptr_of t = NULL) then mret tt else set_Parent (ptr_of t) v) Q h.
Proof.
  intros Hrep Hnd HQ. destruct t as [|l a b r]; simpl in *.
  { apply wp_ret. by apply HQ. }
  destruct Hrep as (Ha & Hlk & Hl & Hr).
  apply NoDup_app in Hnd as (_ & Hdisj & Hnd). apply NoDup_cons in Hnd as [Hnr _].
  rewrite decide_False by done. eapply wp_set_Parent; [done..|]. apply HQ; simpl.
  - split_and!; [done|by rewrite lookup_insert_eq| |].
    all: eapply rep_frame; [done|]; intros x Hx; rewrite lookup_insert_ne; set_solver.
  - intros x Hx. rewrite lookup_insert_ne; set_solver.
Qed.

(** *** Local updates

    [local_update h h' pp s t t']: the field [s] of [pp] held the subtree [t];
    it now holds [t'], and nothing but [pp]'s field and the links of [t] has
    been written. *)
Record local_update (h h' : heap) (pp : ptr) (s : side) (t t' : tree) : Prop := {
  lu_parent : ∀ l, h !! pp = Some l → h' !! pp = Some (set_child s l (ptr_of t'));
  lu_rep : rep h' pp t';
  lu_frame : ∀ x, x ≠ pp → x ∉ inorder t → h' !! x = h !! x
}.

(** The pairwise distinctness facts that the rotations use. *)
Lemma distinct2 (pp a b : ptr) (X0 X1 X2 : list ptr) :
  NoDup (pp :: X0 ++ a :: X1 ++ b :: X2) →
  (pp ≠ a ∧ pp ≠ b ∧ a ≠ b) ∧
  (pp ∉ X0 ∧ a ∉ X0 ∧ b ∉ X0) ∧ (pp ∉ X1 ∧ a ∉ X1 ∧ b ∉ X1) ∧ (pp ∉ X2 ∧ a ∉ X2 ∧ b ∉ X2) ∧
  ((∀ x, x ∈ X0 → x ∉ X1) ∧ (∀ x, x ∈ X0 → x ∉ X2) ∧ (∀ x, x ∈ X1 → x ∉ X2)) ∧
  (NoDup X0 ∧ NoDup X1 ∧ NoDup X2).
Proof.
  rewrite NoDup_cons, NoDup_app, NoDup_cons, NoDup_app, NoDup_cons. set_solver.
Qed.

Lemma distinct3 (pp a b c : ptr) (X0 X1 X2 X3 : list ptr) :
  NoDup (pp :: X0 ++ a :: X1 ++ b :: X2 ++ c :: X3) →
  (pp ≠ a ∧ pp ≠ b ∧ pp ≠ c ∧ a ≠ b ∧ a ≠ c ∧ b ≠ c) ∧
  (pp ∉ X0 ∧ a ∉ X0 ∧ b ∉ X0 ∧ c ∉ X0) ∧ (pp ∉ X1 ∧ a ∉ X1 ∧ b ∉ X1 ∧ c ∉ X1) ∧
  (pp ∉ X2 ∧ a ∉ X2 ∧ b ∉ X2 ∧ c ∉ X2) ∧ (pp ∉ X3 ∧ a ∉ X3 ∧ b ∉ X3 ∧ c ∉ X3) ∧
  ((∀ x, x ∈ X0 → x ∉ X1) ∧ (∀ x, x ∈ X0 → x ∉ X2) ∧ (∀ x, x ∈ X0 → x ∉ X3) ∧
   (∀ x, x ∈ X1 → x ∉ X2) ∧ (∀ x, x ∈ X1 → x ∉ X3) ∧ (∀ x, x ∈ X2 → x ∉ X3)) ∧
  (NoDup X0 ∧ NoDup X1 ∧ NoDup X2 ∧ NoDup X3).
Proof.
  rewrite NoDup_cons, NoDup_app, NoDup_cons, NoDup_app, NoDup_cons, NoDup_app, NoDup_cons.
  set_solver.
Qed.

(** Resolve a lookup through writes and through heaps known up to a frame. *)
Ltac lk :=
  repeat first
    [ rewrite lookup_insert_eq
    | rewrite lookup_insert_ne by (done || congruence)
    | match goal with
      | H : ∀ x, x ∉ _ → ?h' !! x = _ |- context [?h' !! _] =>
          rewrite H by first [done | solve [eauto]]
      end ];
  first [ done | eassumption ].

(** Run the next access of a heap program. *)
Ltac hstep :=
  enter_bind;
  first
    [ eapply wp_get_Left | eapply wp_get_Right | eapply wp_get_Parent | eapply wp_get_Balance
    | eapply wp_set_Left | eapply wp_set_Right | eapply wp_set_Parent | eapply wp_set_Balance
    | eapply wp_read_ref | eapply wp_write_ref | eapply wp_load | eapply wp_store ];
  [ done | lk | cbn [Left Right Parent Balance child set_child fst snd] ].

(** [x] is not in a list that is disjoint from one that holds it. *)
Ltac notin :=
  first
    [ done
    | solve [eauto]
    | intros ?; match goal with
      | H : ∀ x, x ∈ ?X → x ∉ ?Y, H1 : ?x ∈ ?X, H2 : ?x ∈ ?Y |- _ => exact (H x H1 H2)
      end ].

(** Goals [rep h' par t] where [h'] differs from the heap of a hypothesis only
    at addresses outside [t]. *)
Ltac rep_outside :=
  match goal with
  | H : rep _ ?par ?t |- rep _ ?par ?t =>
      apply (rep_frame _ _ _ _ H); intros ? ?;
      repeat first
        [ rewrite lookup_insert_ne by (intros ->; eauto)
        | match goal with
          | H : ∀ x, x ∉ _ → ?h' !! x = _ |- context [?h' !! _] => rewrite H by notin
          end ]; done
  end.

(** The conditional write [if (t) t->Parent = v]. *)
Ltac hreparent :=
  enter_bind;
  match goal with
  | H : rep _ ?par ?t |- wp (if decide (ptr_of ?t = NULL) then _ else _) _ _ =>
      apply (wp_reparent _ par t); [ rep_outside | done | intros ? ? ? ]
  end.

(** The facts of [rep] on an explicit tree and of [NoDup] on its inorder. *)
Ltac rep_facts Hrep distinct Hnd :=
  rewrite <-?app_assoc in Hnd; simpl in Hnd; rewrite <-?app_assoc in Hnd; simpl in Hnd;
  apply distinct in Hnd; destruct_and! Hnd; destruct_and! Hrep.

(** A lookup outside an explicit inorder list. *)
Ltac lookup_outside Hx :=
  rewrite ?elem_of_app, ?elem_of_cons in Hx;
  repeat first
    [ rewrite lookup_insert_ne by (intros ->; tauto)
    | match goal with
      | H : ∀ x, x ∉ _ → ?h' !! x = _ |- context [?h' !! _] => rewrite H by tauto
      end ];
  done.

Ltac close_update HK :=
  apply HK; split; simpl;
  [ intros ? ?; simplify_eq; lk
  | split_and!; first [ done | lk | rep_outside ]
  | let Hx := fresh in let Hy := fresh in intros ? Hy Hx;
    rewrite ?elem_of_app, ?elem_of_cons, ?elem_of_app, ?elem_of_cons, ?elem_of_app, ?elem_of_cons in Hx; lookup_outside Hx ].

Lemma rotate_left_ok h pp s lp A P bp B Q bq C (K : unit → heap → Prop) :
  pp ≠ NULL → h !! pp = Some lp → child s lp = P →
  rep h pp (T A P bp (T B Q bq C)) →
  NoDup (pp :: inorder (T A P bp (T B Q bq C))) →
  (∀ h', local_update h h' pp s (T A P bp (T B Q bq C)) (T (T A P bp B) Q bq C) → K tt h') →
  wp (PhpRotateLeftAvlLinks (pp, s)) K h.
Proof.
  intros Hpp Hlp Hch Hrep Hnd HK. simpl in Hrep, Hnd. rep_facts Hrep distinct2 Hnd.
  unfold PhpRotateLeftAvlLinks. hstep. rewrite Hch. repeat hstep. hreparent. repeat hstep.
  close_update HK.
Qed.

Lemma rotate_right_ok h pp s lp A P bp B Q bq C (K : unit → heap → Prop) :
  pp ≠ NULL → h !! pp = Some lp → child s lp = Q →
  rep h pp (T (T A P bp B) Q bq C) →
  NoDup (pp :: inorder (T (T A P bp B) Q bq C)) →
  (∀ h', local_update h h' pp s (T (T A P bp B) Q bq C) (T A P bp (T B Q bq C)) → K tt h') →
  wp (PhpRotateRightAvlLinks (pp, s)) K h.
Proof.
  intros Hpp Hlp Hch Hrep Hnd HK. simpl in Hrep, Hnd. rep_facts Hrep distinct2 Hnd.
  unfold PhpRotateRightAvlLinks. hstep. rewrite Hch. repeat hstep. hreparent. repeat hstep.
  close_update HK.
Qed.

Lemma rotate_left_twice_ok h pp s lp A P bp B R br C Q bq D (K : unit → heap → Prop) :
  pp ≠ NULL → h !! pp = Some lp → child s lp = P →
  rep h pp (T A P bp (T (T B R br C) Q bq D)) →
  NoDup (pp :: inorder (T A P bp (T (T B R br C) Q bq D))) →
  (∀ h', local_update h h' pp s (T A P bp (T (T B R br C) Q bq D)) (T (T A P bp B) R br (T C Q bq D)) → K tt h') →
  wp (PhpRotateLeftTwiceAvlLinks (pp, s)) K h.
Proof.
  intros Hpp Hlp Hch Hrep Hnd HK. simpl in Hrep, Hnd. rep_facts Hrep distinct3 Hnd.
  unfold PhpRotateLeftTwiceAvlLinks. hstep. rewrite Hch. repeat hstep. hreparent. repeat hstep. hreparent. repeat hstep.
  close_update HK.
Qed.

Lemma rotate_right_twice_ok h pp s lp A Q bq B R br C P bp D (K : unit → heap → Prop) :
  pp ≠ NULL → h !! pp = Some lp → child s lp = P →
  rep h pp (T (T A Q bq (T B R br C)) P bp D) →
  NoDup (pp :: inorder (T (T A Q bq (T B R br C)) P bp D)) →
  (∀ h', local_update h h' pp s (T (T A Q bq (T B R br C)) P bp D) (T (T A Q bq B) R br (T C P bp D)) → K tt h') →
  wp (PhpRotateRightTwiceAvlLinks (pp, s)) K h.
Proof.
  intros Hpp Hlp Hch Hrep Hnd HK. simpl in Hrep, Hnd. rep_facts Hrep distinct3 Hnd.
  unfold PhpRotateRightTwiceAvlLinks. hstep. rewrite Hch. repeat hstep. hreparent. repeat hstep. hreparent. repeat hstep.
  close_update HK.
Qed.

(** *** Sequences of updates below one field *)

(** The field [s] of [pp] holds the subtree [t]. *)
Definition at_ref (h : heap) (pp : ptr) (s : side) (t : tree) : Prop :=
  pp ≠ NULL ∧ rep h pp t ∧ NoDup (pp :: inorder t) ∧
  ∃ l, h !! pp = Some l ∧ child s l = ptr_of t.

(** From [h0] to [h] the field went from [t0] to [t], a tree on the same
    addresses in the same order. *)
Record upd (h0 : heap) (pp : ptr) (s : side) (t0 : tree) (h : heap) (t : tree) : Prop := {
  upd_lu : local_update h0 h pp s t0 t;
  upd_inorder : inorder t = inorder t0;
  upd_at : at_ref h pp s t
}.

Lemma set_child_twice s l u v : set_child s (set_child s l u) v = set_child s l v.
Proof. by destruct s. Qed.

Lemma set_child_id s l v : child s l = v → set_child s l v = l.
Proof. intros <-. by destruct s, l. Qed.

Lemma child_set_child s l v : child s (set_child s l v) = v.
Proof. by destruct s. Qed.

Lemma upd_refl h pp s t : at_ref h pp s t → upd h pp s t h t.
Proof.
  intros Hat. split; [|done|done]. destruct Hat as (Hpp & Hrep & Hnd & lp & Hlp & Hch).
  split; [|done|done]. intros l Hl. simplify_eq. by rewrite set_child_id.
Qed.

Lemma upd_step h0 pp s t0 h t h' t' :
  upd h0 pp s t0 h t → local_update h h' pp s t t' → inorder t' = inorder t →
  upd h0 pp s t0 h' t'.
Proof.
  intros [[Hp1 Hr1 Hf1] Hin Hat] [Hp2 Hr2 Hf2] Hin2.
  destruct Hat as (Hpp & Hrep & Hnd & lp & Hlp & Hch).
  split; [split|congruence|split_and!].
  - intros l Hl. rewrite (Hp2 _ (Hp1 _ Hl)). by rewrite set_child_twice.
  - done.
  - intros x Hx Hx'. rewrite Hf2, Hf1; [done..|]. by rewrite Hin.
  - done.
  - done.
  - by rewrite Hin2.
  - eexists. split; [by apply Hp2|]. apply child_set_child.
Qed.

Lemma set_balance_ok h0 pp s t0 h c A a b B v (K : unit → heap → Prop) :
  upd h0 pp s t0 h (plug c (T A a b B)) →
  (∀ h', upd h0 pp s t0 h' (plug c (T A a v B)) → K tt h') →
  wp (set_Balance a v) K h.
Proof.
  intros Hu HK. pose proof (upd_at _ _ _ _ _ _ Hu) as (Hpp & Hrep & Hnd & lp & Hlp & Hch).
  apply rep_plug in Hrep as [Hc Ht]. simpl in Ht. destruct Ht as (Ha & Hla & HA & HB).
  rewrite inorder_plug in Hnd. simpl in Hnd.
  assert (a ∉ ctx_left c ∧ a ∉ ctx_right c ∧ a ∉ inorder A ∧ a ∉ inorder B ∧ a ≠ pp) as Hout.
  { revert Hnd. rewrite NoDup_cons, !NoDup_app, NoDup_cons. set_solver. }
  destruct_and! Hout.
  assert (ptr_of (plug c (T A a v B)) = ptr_of (plug c (T A a b B))) as Hptr.
  { by apply ptr_of_plug. }
  eapply wp_set_Balance; [done..|]. apply HK. eapply upd_step; [done| |].
  2: by rewrite !inorder_plug.
  split.
  - intros l Hl. rewrite lookup_insert_ne by done. simplify_eq. rewrite Hptr, set_child_id; done.
  - apply rep_plug. split.
    + simpl. eapply rep_ctx_frame; [done|]. intros x Hx. rewrite lookup_insert_ne; set_solver.
    + simpl. split_and!; [done|by rewrite lookup_insert_eq| |].
      all: eapply rep_frame; [done|]; intros x Hx; rewrite lookup_insert_ne; set_solver.
  - intros x Hx Hx'. rewrite inorder_plug in Hx'. rewrite lookup_insert_ne; set_solver.
Qed.

(** ** Rebalancing *)

(** The tree and the code that [PhpRebalanceAvlLinks] produces; code 0 stands
    for the shapes on which the function would follow a null pointer. *)
Definition rebalance_tree (t : tree) : tree * Z :=
  match t with
  | E => (t, 0)
  | T l p bp r =>
      if bp =? -1 then
        match l with
        | E => (t, 0)
        | T A q bq B =>
            if bq =? -1 then (T A q 0 (T B p 0 r), 1)
            else if bq =? 1 then
              match B with
              | E => (t, 0)
              | T B x bx C =>
                  (T (T A q (if bx =? 1 then -1 else 0) B) x 0 (T C p (if bx =? -1 then 1 else 0) r), 2)
              end
            else (T A q 1 (T B p bp r), 3)
        end
      else
        match r with
        | E => (t, 0)
        | T B q bq C =>
            if bq =? 1 then (T (T l p 0 B) q 0 C, 1)
            else if bq =? -1 then
              match B with
              | E => (t, 0)
              | T B x bx D =>
                  (T (T l p (if bx =? 1 then -1 else 0) B) x 0 (T D q (if bx =? -1 then 1 else 0) C), 2)
              end
            else (T (T l p bp B) q (-1) C, 3)
        end
  end.

Lemma inorder_rebalance t : inorder (rebalance_tree t).1 = inorder t.
Proof.
  destruct t as [|l p bp r]; simpl; [done|].
  repeat (case_match; simplify_eq; simpl); rewrite <-?app_assoc; simpl;
    rewrite <-?app_assoc; done.
Qed.

(** Unless the rotation was the special one, the old root is now a child of the
    new root. *)
Lemma rebalance_child t :
  (rebalance_tree t).2 ≠ 0 → (rebalance_tree t).2 ≠ 3 →
  ∃ A b B q bq C, (rebalance_tree t).1 = T (T A (ptr_of t) b B) q bq C ∨
                  (rebalance_tree t).1 = T C q bq (T A (ptr_of t) b B).
Proof.
  destruct t as [|l p bp r]; simpl; [done|].
  repeat (case_match; simplify_eq; simpl; try done); intros _ _; eauto 8.
Qed.

(** One rotation, as a step of an update sequence. *)
Ltac rotate_step lem :=
  match goal with
  | Hu : upd ?h0 ?pp ?s ?t0 ?h ?t |- wp (_ ≫= _) _ _ =>
      let lp := fresh "lp" in
      let Hlu := fresh "Hlu" in
      apply wp_bind;
      destruct (upd_at _ _ _ _ _ _ Hu) as (? & ? & ? & lp & ? & ?);
      eapply (lem h pp s lp); try eassumption;
      intros ? Hlu;
      eapply (upd_step _ _ _ _ _ _ _ _ Hu) in Hlu;
      [ clear Hu | simpl; rewrite <-?app_assoc; simpl; rewrite <-?app_assoc; done ]
  end.

(** Updates of the balance at a given place of the subtree. *)
Ltac balance_step c :=
  match goal with
  | Hu : upd _ _ _ _ _ _ |- wp _ _ _ =>
      enter_bind;
      eapply (set_balance_ok _ _ _ _ _ c); [ exact Hu | clear Hu; intros ? Hu; simpl in Hu ]
  end.

(** The balances after a double rotation, by cases on the balance of R. *)
Ltac read_balance :=
  match goal with
  | Hu : upd _ _ _ _ _ _ |- wp _ _ _ =>
      let Hr := fresh in
      destruct (upd_at _ _ _ _ _ _ Hu) as (_ & Hr & _); simpl in Hr; destruct_and! Hr;
      hstep
  end.

Lemma rebalance_ok h0 h pp s t0 t (K : Z → heap → Prop) :
  upd h0 pp s t0 h t → (rebalance_tree t).2 ≠ 0 →
  (∀ h', upd h0 pp s t0 h' (rebalance_tree t).1 → K (rebalance_tree t).2 h') →
  wp (PhpRebalanceAvlLinks (pp, s)) K h.
Proof.
  intros Hu Hcode HK. unfold PhpRebalanceAvlLinks.
  destruct (upd_at _ _ _ _ _ _ Hu) as (Hpp & Hrep & Hnd & lp & Hlp & Hch).
  destruct t as [|l p bp r]; [done|]. simpl in Hcode, HK, Hrep, Hch.
  destruct Hrep as (Hp & Hlkp & Hl & Hr).
  hstep. rewrite Hch. hstep. destruct (bp =? -1).
  - destruct l as [|A q bq B]; [done|]. simpl in Hl. destruct Hl as (Hq & Hlkq & HA & HB).
    repeat hstep. destruct (bq =? -1).
          { rotate_step rotate_right_ok.
      balance_step [Frame SRight q bq A]. balance_step (@nil frame).
      apply wp_ret, HK, Hlu. }
    destruct (bq =? 1).
    + destruct B as [|B x bx C]; [done|]. simpl in HB. destruct HB as (Hx & Hlkx & HB & HC).
      hstep. rotate_step rotate_right_twice_ok.
      read_balance. apply wp_bind.
      destruct (bx =? -1) eqn:Hbx; [|destruct (bx =? 1)].
      { assert (bx =? 1 = false) as Hbx1 by lia. rewrite Hbx1 in HK.
        balance_step [Frame SRight x bx (T A q bq B)]. balance_step [Frame SLeft x bx (T C p 1 r)].
        balance_step (@nil frame). apply wp_ret, HK, Hlu. }
      all: balance_step [Frame SRight x bx (T A q bq B)].
      all: balance_step [Frame SLeft x bx (T C p 0 r)] || balance_step [Frame SLeft x bx (T C p 1 r)].
      all: balance_step (@nil frame); apply wp_ret, HK, Hlu.
    + rotate_step rotate_right_ok. balance_step (@nil frame). apply wp_ret, HK, Hlu.
  - destruct r as [|B q bq C]; [done|]. simpl in Hr. destruct Hr as (Hq & Hlkq & HB & HC).
    repeat hstep. destruct (bq =? 1).
    { rotate_step rotate_left_ok.
      balance_step [Frame SLeft q bq C]. balance_step (@nil frame).
      apply wp_ret, HK, Hlu. }
    destruct (bq =? -1).
    + destruct B as [|B x bx D]; [done|]. simpl in HB. destruct HB as (Hx & Hlkx & HB & HD).
      hstep. rotate_step rotate_left_twice_ok. read_balance. apply wp_bind.
      destruct (bx =? -1) eqn:Hbx; [|destruct (bx =? 1)].
      { assert (bx =? 1 = false) as Hbx1 by lia. rewrite Hbx1 in HK.
        balance_step [Frame SLeft x bx (T D q bq C)]. balance_step [Frame SRight x bx (T l p 0 B)].
        balance_step (@nil frame). apply wp_ret, HK, Hlu. }
      all: balance_step [Frame SLeft x bx (T D q bq C)].
      all: balance_step [Frame SRight x bx (T l p 0 B)] || balance_step [Frame SRight x bx (T l p (-1) B)].
      all: balance_step (@nil frame); apply wp_ret, HK, Hlu.
    + rotate_step rotate_left_ok. balance_step (@nil frame). apply wp_ret, HK, Hlu.
Qed.

(** *** The balancing loops on abstract trees *)

Definition side_balance (s : side) : Z := match s with SLeft => -1 | SRight => 1 end.

Definition set_fbal (f : frame) (b : Z) : frame := Frame (fside f) (faddr f) b (fsib f).

(** After an insertion the focus has grown by one level. *)
Fixpoint fix_add (c : list frame) (t : tree) : tree :=
  match c with
  | [] => t
  | f :: c =>
      let balance := side_balance (fside f) in
      if fbal f =? 0 then fix_add c (plug1 (set_fbal f balance) t)
      else if negb (fbal f =? balance) then plug c (plug1 (set_fbal f 0) t)
      else plug c (rebalance_tree (plug1 f t)).1
  end.

(** After a removal the focus has lost one level. *)
Fixpoint fix_rem (c : list frame) (t : tree) : tree :=
  match c with
  | [] => t
  | f :: c =>
      let balance := side_balance (fside f) in
      if fbal f =? balance then fix_rem c (plug1 (set_fbal f 0) t)
      else if fbal f =? 0 then plug c (plug1 (set_fbal f (- balance)) t)
      else
        let '(t', code) := rebalance_tree (plug1 f t) in
        if code =? 3 then plug c t' else fix_rem c t'
  end.

(** The context is balanced when its focus has height [k]. *)
Fixpoint avl_ctx (c : list frame) (k : Z) : Prop :=
  match c with
  | [] => True
  | f :: c =>
      avl (fsib f) ∧ -1 ≤ fbal f ≤ 1 ∧
      fbal f = (match fside f with SLeft => height (fsib f) - k | SRight => k - height (fsib f) end) ∧
      avl_ctx c (1 + Z.max k (height (fsib f)))
  end.

Lemma height_nonneg t : 0 ≤ height t.
Proof. induction t; simpl; lia. Qed.

Lemma height_plug1 f t : height (plug1 f t) = 1 + Z.max (height t) (height (fsib f)).
Proof. unfold plug1. destruct (fside f); simpl; lia. Qed.

Lemma avl_plug c t : avl (plug c t) ↔ avl t ∧ avl_ctx c (height t).
Proof.
  revert t. induction c as [|f c IH]; intros t; [simpl; tauto|].
  rewrite plug_cons, IH, height_plug1. simpl. unfold plug1.
  destruct (fside f); simpl; naive_solver lia.
Qed.

(** The root of a tree one of whose children is two levels higher than the
    other, as its stale balance factor says. *)
Definition lopsided (t : tree) : Prop :=
  match t with
  | E => False
  | T l _ b r =>
      avl l ∧ avl r ∧
      ((b = -1 ∧ height l = height r + 2) ∨ (b = 1 ∧ height r = height l + 2))
  end.

Lemma rebalance_avl t :
  lopsided t →
  avl (rebalance_tree t).1 ∧ (rebalance_tree t).2 ≠ 0 ∧
  height (rebalance_tree t).1 = height t - (if (rebalance_tree t).2 =? 3 then 0 else 1).
Proof.
  destruct t as [|l p b r]; simpl; [done|]. intros (Hl & Hr & Hb).
  pose proof (height_nonneg l). pose proof (height_nonneg r).
  destruct (Z.eqb_spec b (-1)).
  - destruct l as [|A q bq B]; simpl in *; [lia|]. destruct_and! Hl.
    pose proof (height_nonneg A). pose proof (height_nonneg B).
    destruct (Z.eqb_spec bq (-1)); [simpl; split_and!; auto; lia|].
    destruct (Z.eqb_spec bq 1); [|simpl; split_and!; auto; lia].
    destruct B as [|B x bx C]; simpl in *; [lia|].
    pose proof (height_nonneg B). pose proof (height_nonneg C).
    repeat case_match; split_and!; (tauto || lia).
  - destruct r as [|B q bq C]; simpl in *; [lia|]. destruct_and! Hr.
    pose proof (height_nonneg B). pose proof (height_nonneg C).
    destruct (Z.eqb_spec bq 1); [simpl; split_and!; auto; lia|].
    destruct (Z.eqb_spec bq (-1)); [|simpl; split_and!; auto; lia].
    destruct B as [|B x bx D]; simpl in *; [lia|].
    pose proof (height_nonneg B). pose proof (height_nonneg D).
    repeat case_match; split_and!; (tauto || lia).
Qed.

(** A tree that has just grown: a single leaf, or one with a non-zero balance. *)
Definition grown (t : tree) : Prop :=
  match t with E => False | T l _ b r => b ≠ 0 ∨ (l = E ∧ r = E) end.

Lemma rebalance_code_grown f t :
  grown t → avl t → 1 < height t → fbal f = side_balance (fside f) →
  (rebalance_tree (plug1 f t)).2 ≠ 3.
Proof.
  destruct t as [|l a b r]; [done|]. intros Hg (_ & _ & _ & Hb1) Hh Hb.
  assert (b = -1 ∨ b = 1) as Hb0 by (destruct Hg as [|[-> ->]]; [lia|simpl in Hh; lia]).
  unfold plug1. destruct (fside f); rewrite Hb; simpl; destruct Hb0 as [-> | ->]; simpl;
    [done|destruct r|destruct l|]; done.
Qed.

Lemma height_set_fbal f b t : height (plug1 (set_fbal f b) t) = height (plug1 f t).
Proof. by rewrite !height_plug1. Qed.

Lemma avl_plug1_set f b t :
  avl (plug1 (set_fbal f b) t) ↔
  avl t ∧ avl (fsib f) ∧ -1 ≤ b ≤ 1 ∧
  b = (match fside f with SLeft => height (fsib f) - height t | SRight => height t - height (fsib f) end).
Proof. unfold plug1, set_fbal. destruct (fside f); simpl; naive_solver. Qed.

Lemma lopsided_plug1 f t :
  fbal f = side_balance (fside f) → avl t → avl (fsib f) → height t = height (fsib f) + 2 →
  lopsided (plug1 f t).
Proof. unfold plug1, side_balance. destruct (fside f); simpl; intros ->; naive_solver lia. Qed.

(** [pending d c t]: the balance factors above the focus still count it [d]
    levels lower than it now is. *)
Definition pending (d : Z) (c : list frame) (t : tree) : Prop :=
  avl t ∧ avl_ctx c (height t - d).

Lemma pending_height d f c t b k :
  pending d (f :: c) t → height (plug1 (set_fbal f b) t) - k = 1 + Z.max (height t - d) (height (fsib f)) →
  avl_ctx c (height (plug1 (set_fbal f b) t) - k).
Proof. intros (_ & _ & _ & _ & Hc) ->. done. Qed.

(** The parent was balanced and now leans to the side that grew. *)
Lemma add_step_lean f c t :
  pending 1 (f :: c) t → fbal f = 0 →
  let t' := plug1 (set_fbal f (side_balance (fside f))) t in pending 1 c t' ∧ grown t'.
Proof.
  intros Hp Hb0. pose proof Hp as (Ht & Hs & Hb1 & Hb & _). split; [split|].
  - apply avl_plug1_set. destruct (fside f); simpl in *; split_and!; (done || lia).
  - apply (pending_height _ _ _ _ _ _ Hp). rewrite height_set_fbal, height_plug1.
    destruct (fside f); simpl in *; lia.
  - unfold plug1, set_fbal. simpl. destruct (fside f); simpl; by left.
Qed.

(** The parent leant to the other side and is now balanced. *)
Lemma add_step_level f c t :
  pending 1 (f :: c) t → fbal f ≠ 0 → fbal f ≠ side_balance (fside f) →
  avl (plug c (plug1 (set_fbal f 0) t)).
Proof.
  intros Hp Hb0 Hb2. pose proof Hp as (Ht & Hs & Hb1 & Hb & _). apply avl_plug. split.
  - apply avl_plug1_set. destruct (fside f); simpl in *; split_and!; (done || lia).
  - rewrite <-(Z.sub_0_r (height _)). apply (pending_height _ _ _ _ _ _ Hp).
    rewrite height_set_fbal, height_plug1. destruct (fside f); simpl in *; lia.
Qed.

(** The parent leant to the side that grew: a rotation restores its height. *)
Lemma add_step_rotate f c t :
  pending 1 (f :: c) t → grown t → fbal f ≠ 0 → fbal f = side_balance (fside f) →
  (rebalance_tree (plug1 f t)).2 ≠ 0 ∧ avl (plug c (rebalance_tree (plug1 f t)).1).
Proof.
  intros (Ht & Hs & Hb1 & Hb & Hc) Hg Hb0 Hb2. pose proof (height_nonneg (fsib f)).
  assert (height t = height (fsib f) + 2) as Hh by (destruct (fside f); simpl in *; lia).
  destruct (rebalance_avl (plug1 f t)) as (Hr & Hcode & Hrh); [by apply lopsided_plug1|].
  pose proof (rebalance_code_grown f t Hg Ht ltac:(lia) Hb2) as Hcode3.
  split; [done|]. rewrite height_plug1, (proj2 (Z.eqb_neq _ _) Hcode3) in Hrh.
  apply avl_plug. split; [done|]. rewrite Hrh.
  replace (_ - 1) with (1 + Z.max (height t - 1) (height (fsib f))); [done|lia].
Qed.

Lemma fix_add_avl c t : pending 1 c t → grown t → avl (fix_add c t).
Proof.
  revert t. induction c as [|f c IH]; intros t Hp Hg; [by destruct Hp|]. simpl.
  destruct (Z.eqb_spec (fbal f) 0) as [Hb0|Hb0].
  - destruct (add_step_lean f c t Hp Hb0) as [??]. by apply IH.
  - destruct (Z.eqb_spec (fbal f) (side_balance (fside f))); simpl.
    + by apply add_step_rotate.
    + by apply add_step_level.
Qed.

Lemma rem_step_level f c t :
  pending (-1) (f :: c) t → fbal f = side_balance (fside f) →
  pending (-1) c (plug1 (set_fbal f 0) t).
Proof.
  intros Hp Hb2. pose proof Hp as (Ht & Hs & Hb1 & Hb & _). split.
  - apply avl_plug1_set. destruct (fside f); simpl in *; split_and!; (done || lia).
  - apply (pending_height _ _ _ _ _ _ Hp). rewrite height_set_fbal, height_plug1.
    destruct (fside f); simpl in *; lia.
Qed.

Lemma rem_step_lean f c t :
  pending (-1) (f :: c) t → fbal f ≠ side_balance (fside f) → fbal f = 0 →
  avl (plug c (plug1 (set_fbal f (- side_balance (fside f))) t)).
Proof.
  intros Hp Hb2 Hb0. pose proof Hp as (Ht & Hs & Hb1 & Hb & _). apply avl_plug. split.
  - apply avl_plug1_set. destruct (fside f); simpl in *; split_and!; (done || lia).
  - rewrite <-(Z.sub_0_r (height _)). apply (pending_height _ _ _ _ _ _ Hp).
    rewrite height_set_fbal, height_plug1. destruct (fside f); simpl in *; lia.
Qed.

Lemma rem_step_rotate f c t :
  pending (-1) (f :: c) t → fbal f ≠ side_balance (fside f) → fbal f ≠ 0 →
  let '(t', code) := rebalance_tree (plug1 f t) in
  code ≠ 0 ∧ if code =? 3 then avl (plug c t') else pending (-1) c t'.
Proof.
  intros (Ht & Hs & Hb1 & Hb & Hc) Hb2 Hb0. pose proof (height_nonneg t).
  assert (lopsided (plug1 f t)) as Hlop.
  { unfold plug1. destruct (fside f); simpl in *; split_and!; (done || lia). }
  destruct (rebalance_avl _ Hlop) as (Hr & Hcode & Hrh). rewrite height_plug1 in Hrh.
  assert (height (fsib f) = height t + 2) by (destruct (fside f); simpl in *; lia).
  destruct (rebalance_tree (plug1 f t)) as [t' code]; simpl in *. split; [done|].
  destruct (code =? 3); [apply avl_plug; split; [done|]|split; [done|]].
  - by replace (height t') with (1 + Z.max (height t - -1) (height (fsib f))) by lia.
  - by replace (height t' - -1) with (1 + Z.max (height t - -1) (height (fsib f))) by lia.
Qed.

Lemma fix_rem_avl c t : pending (-1) c t → avl (fix_rem c t).
Proof.
  revert t. induction c as [|f c IH]; intros t Hp; [by destruct Hp|]. simpl.
  destruct (Z.eqb_spec (fbal f) (side_balance (fside f))).
  { by apply IH, rem_step_level. }
  destruct (Z.eqb_spec (fbal f) 0); [by apply rem_step_lean|].
  pose proof (rem_step_rotate f c t Hp) as Hrot.
  destruct (rebalance_tree (plug1 f t)) as [t' code]. destruct Hrot as [_ Hrot]; [done..|].
  destruct (code =? 3); [done|by apply IH].
Qed.

Lemma inorder_set_fbal f b t : inorder (plug1 (set_fbal f b) t) = inorder (plug1 f t).
Proof. unfold plug1, set_fbal. by destruct (fside f). Qed.

Lemma inorder_plug_congr c t t' : inorder t = inorder t' → inorder (plug c t) = inorder (plug c t').
Proof. intros Ht. by rewrite !inorder_plug, Ht. Qed.

Lemma inorder_fix_add c t : inorder (fix_add c t) = inorder (plug c t).
Proof.
  revert t. induction c as [|f c IH]; intros t; [done|]. simpl.
  repeat case_match; rewrite ?IH; apply inorder_plug_congr;
    rewrite ?inorder_rebalance; by rewrite ?inorder_set_fbal.
Qed.

Lemma inorder_fix_rem c t : inorder (fix_rem c t) = inorder (plug c t).
Proof.
  revert t. induction c as [|f c IH]; intros t; [done|]. simpl.
  pose proof (inorder_rebalance (plug1 f t)) as Hreb.
  repeat case_match; simplify_eq/=; rewrite ?IH; apply inorder_plug_congr; by rewrite ?inorder_set_fbal.
Qed.

(** ** Focusing a subtree of the whole tree *)

(** Everything of the tree but the focus and its parent. *)
Definition rest (f : frame) (c : list frame) : list ptr :=
  ctx_left c ++ inorder (fsib f) ++ ctx_right c.

Lemma inorder_plug_perm f c t :
  inorder (plug (f :: c) t) ≡ₚ faddr f :: inorder t ++ rest f c.
Proof.
  rewrite inorder_plug. unfold rest. simpl. destruct (fside f); simpl; solve_Permutation.
Qed.

Lemma focus_nodup r f c t :
  NoDup (r :: inorder (plug (f :: c) t)) →
  r ≠ faddr f ∧ r ∉ inorder t ∧ faddr f ∉ inorder t ∧ faddr f ∉ rest f c ∧
  (∀ x, x ∈ rest f c → x ∉ inorder t) ∧ r ∉ rest f c ∧ NoDup (inorder t).
Proof.
  rewrite inorder_plug_perm, !NoDup_cons, NoDup_app, elem_of_cons, !elem_of_app.
  intros (Hr & Hf & Hnd & Hd & _). split_and!; [tauto..| |tauto|done].
  intros x Hx Hx'. by apply (Hd x).
Qed.

Section Focus.
Context (Tree : PH_AVL_TREE).

Abbreviation root := (Root Tree).

(** What the root field holds during an operation that started from [t0]. *)
Definition tree_upd (h0 : heap) (t0 : tree) (h : heap) (t : tree) : Prop :=
  upd h0 root SRight t0 h t ∧ tree_at h Tree t.

Lemma tree_upd_refl h t : tree_at h Tree t → tree_upd h t h t.
Proof using Type.
  intros Hat. split; [|done]. destruct Hat as (? & ? & ? & ?).
  apply upd_refl. split_and!; eauto.
Qed.

Lemma tree_upd_intro h0 t0 h t :
  tree_at h0 Tree t0 → upd h0 root SRight t0 h t → tree_upd h0 t0 h t.
Proof using Type.
  intros (Hr & Hlk & _ & _) Hu. split; [done|].
  destruct (upd_at _ _ _ _ _ _ Hu) as (_ & Hrep & Hnd & _).
  split_and!; [done| |done|done].
  by apply (lu_parent _ _ _ _ _ _ (upd_lu _ _ _ _ _ _ Hu)) in Hlk.
Qed.

Lemma focus_links h c l a b r :
  tree_at h Tree (plug c (T l a b r)) →
  a ≠ NULL ∧ h !! a = Some (Links (ctx_parent root c) (ptr_of l) (ptr_of r) b) ∧
  rep h a l ∧ rep h a r.
Proof using Type. intros (_ & _ & Hrep & _). by apply rep_plug in Hrep as [_ ?]. Qed.

(** The links of the parent of the focus, the sentinel's included. *)
Lemma parent_links h c t :
  tree_at h Tree (plug c t) →
  ctx_parent root c ≠ NULL ∧
  ∃ l, h !! ctx_parent root c = Some l ∧ child (ctx_side c) l = ptr_of t ∧
    (ctx_side c = SRight → t ≠ E → Left l ≠ ptr_of t).
Proof using Type.
  intros Hat. destruct c as [|f c]; simpl.
  - destruct Hat as (Hr & Hlk & Hrep & _). split; [done|]. eexists. split_and!; [done..|].
    intros _ Ht. simpl. destruct t; [done|]. simpl in Hrep. naive_solver.
  - destruct Hat as (Hr & Hlk & Hrep & Hnd). apply rep_plug in Hrep as [(Ha & Hlf & Hs & _) Ht].
    split; [done|]. eexists. split; [done|]. unfold frame_links.
    apply focus_nodup in Hnd as (_ & _ & _ & _ & Hct & _).
    destruct (fside f) eqn:Hf; simpl; (split; [done|]); [done|]. intros _ HtE Heq.
    destruct (fsib f) as [|l' a' b' r'] eqn:Hsib.
    { simpl in Heq. by apply HtE, (ptr_of_nonnull h (faddr f)). }
    apply (Hct (ptr_of t)).
    + unfold rest. rewrite Hsib, <-Heq. simpl. rewrite !elem_of_app, elem_of_cons. auto.
    + destruct t; [done|]. simpl. rewrite elem_of_app, elem_of_cons. auto.
Qed.

Lemma wp_is_left h c t (K : bool → heap → Prop) :
  tree_at h Tree (plug c t) → t ≠ E →
  K (bool_decide (ctx_side c = SLeft)) h → wp (PhIsLeftChildElement (ptr_of t)) K h.
Proof using Type.
  intros Hat HtE HK. destruct t as [|l a b r]; [done|].
  destruct (focus_links _ _ _ _ _ _ Hat) as (Ha & Hlk & _).
  destruct (parent_links _ _ _ Hat) as (Hp & lp & Hlp & Hch & Hne).
  unfold PhIsLeftChildElement. simpl. hstep. hstep. apply wp_ret.
  destruct (ctx_side c) eqn:Hs; simpl in *.
  - by rewrite bool_decide_true.
  - specialize (Hne eq_refl HtE). by rewrite bool_decide_false.
Qed.

Lemma wp_parent_ref h c t (K : ref → heap → Prop) :
  tree_at h Tree (plug c t) → t ≠ E →
  K (ctx_parent root c, ctx_side c) h → wp (parent_ref (ptr_of t)) K h.
Proof using Type.
  intros Hat HtE HK. apply wp_bind. apply (wp_is_left h c); [done..|].
  destruct t as [|l a b r]; [done|]. destruct (focus_links _ _ _ _ _ _ Hat) as (Ha & Hlk & _).
  simpl. hstep. apply wp_ret. by destruct (ctx_side c).
Qed.

Lemma at_ref_focus h c t :
  tree_at h Tree (plug c t) → at_ref h (ctx_parent root c) (ctx_side c) t.
Proof using Type.
  intros Hat. destruct (parent_links _ _ _ Hat) as (Hp & lp & Hlp & Hch & _).
  destruct Hat as (Hr & Hlk & Hrep & Hnd). apply rep_plug in Hrep as [_ Ht].
  split_and!; [done|done| |by eauto]. destruct c as [|f c]; [done|].
  apply focus_nodup in Hnd as (_ & _ & Hft & _ & _ & _ & Hnd). by constructor.
Qed.

(** An update of the focus is an update of the whole tree. *)
Lemma local_update_plug h h' c t t' :
  tree_at h Tree (plug c t) →
  local_update h h' (ctx_parent root c) (ctx_side c) t t' →
  local_update h h' root SRight (plug c t) (plug c t').
Proof using Type.
  intros (Hr & Hlk & Hrep & Hnd) Hlu. destruct c as [|f c]; [done|]. simpl in Hlu.
  destruct Hlu as [Hpar Hrep' Hfr]. apply rep_plug in Hrep as [Hc Ht].
  apply focus_nodup in Hnd as (Hrf & Hrt & Hft & Hfc & Hct & Hrc & _).
  destruct Hc as (Hfa & Hlf & Hs & Hc).
  assert (∀ x, x ∈ rest f c → h' !! x = h !! x) as Hout.
  { intros x Hx. apply Hfr; [by intros ->|by apply Hct]. }
  unfold rest in Hout. split.
  - intros l Hl. rewrite Hfr by done. simplify_eq. simpl. rewrite Hlk.
    rewrite !plug_cons. do 2 f_equal. apply ptr_of_plug. by rewrite !ptr_of_plug1.
  - apply rep_plug. split; [|done]. simpl. split_and!; [done| | |].
    + rewrite (Hpar _ Hlf). unfold frame_links. by destruct (fside f).
    + eapply rep_frame; [done|]. set_solver.
    + eapply rep_ctx_frame; [done|]. set_solver.
  - intros x Hx Hx'. rewrite inorder_plug_perm, elem_of_cons, elem_of_app in Hx'.
    apply Hfr; tauto.
Qed.

Lemma tree_upd_focus h0 t0 h c t h' t' :
  tree_upd h0 t0 h (plug c t) → tree_at h0 Tree t0 →
  upd h (ctx_parent root c) (ctx_side c) t h' t' →
  tree_upd h0 t0 h' (plug c t').
Proof using Type.
  intros [Hu Hat] Hat0 Hu'. apply tree_upd_intro; [done|]. eapply upd_step; [done| |].
  - apply local_update_plug; [done|]. apply (upd_lu _ _ _ _ _ _ Hu').
  - apply inorder_plug_congr, (upd_inorder _ _ _ _ _ _ Hu').
Qed.
End Focus.
