(* ===== verification/AvlTreeCorrect.v ===== *)
(** The operations of the AVL tree against their abstract specification. *)

From S2P Require Import Prelude AvlTree AvlTreeFacts.

(** ** The balancing loops *)

Lemma ptr_of_in t : t ≠ E → ptr_of t ∈ inorder t.
Proof. destruct t; [done|]. simpl. set_solver. Qed.

Lemma root_outside_focus f c t : ptr_of (plug (f :: c) t) ∈ faddr f :: rest f c.
Proof.
  revert f t. induction c as [|g c IH]; intros f t.
  - rewrite plug_cons. simpl. rewrite ptr_of_plug1. set_solver.
  - rewrite plug_cons. specialize (IH g (plug1 f t)). unfold rest in *. simpl.
    destruct (fside g); set_solver.
Qed.

Lemma root_not_focus r f c t :
  NoDup (r :: inorder (plug (f :: c) t)) → t ≠ E → ptr_of t ≠ ptr_of (plug (f :: c) t).
Proof.
  intros Hnd HtE Heq. apply focus_nodup in Hnd as (_ & _ & Hft & _ & Hct & _).
  pose proof (ptr_of_in t HtE) as Hin. rewrite Heq in Hin.
  destruct (elem_of_cons (rest f c) (ptr_of (plug (f :: c) t)) (faddr f)) as [Hor _].
  destruct (Hor (root_outside_focus f c t)) as [Heq'|Hr]; [by rewrite <-Heq' in Hft|].
  by apply (Hct _ Hr).
Qed.

Section Loops.
Context (Tree : PH_AVL_TREE) (h0 : heap) (t0 : tree).
Context (Hat0 : tree_at h0 Tree t0).

Abbreviation tupd := (tree_upd Tree h0 t0).

Lemma set_frame_balance_ok h f c t v (K : unit → heap → Prop) :
  tupd h (plug (f :: c) t) →
  (∀ h', tupd h' (plug (set_fbal f v :: c) t) → K tt h') →
  wp (set_Balance (faddr f) v) K h.
Proof using Hat0.
  intros [Hu Hat] HK. destruct f as [sd a b sib]. destruct sd.
  all: eapply (set_balance_ok _ _ _ _ _ c); [exact Hu|].
  all: intros h' Hu'; apply HK, tree_upd_intro; [done|exact Hu'].
Qed.

Lemma wp_focus_parent h f c t (K : ptr → heap → Prop) :
  tupd h (plug (f :: c) t) → t ≠ E → K (faddr f) h → wp (get_Parent (ptr_of t)) K h.
Proof using Type.
  intros [_ Hat] HtE HK. destruct t as [|l a b r]; [done|].
  destruct (focus_links _ _ _ _ _ _ _ Hat) as (Ha & Hlk & _). simpl. by hstep.
Qed.

Lemma wp_frame_balance h f c t (K : Z → heap → Prop) :
  tupd h (plug (f :: c) t) → K (fbal f) h → wp (get_Balance (faddr f)) K h.
Proof using Type.
  intros [_ Hat] HK. destruct Hat as (_ & _ & Hrep & _).
  apply rep_plug in Hrep as [(Ha & Hlf & _) _]. hstep. unfold frame_links.
  by destruct (fside f).
Qed.

(** Rebalancing at the parent of the focus. *)
Lemma rebalance_parent_ok h f c t (K : Z → heap → Prop) :
  tupd h (plug (f :: c) t) →
  (rebalance_tree (plug1 f t)).2 ≠ 0 →
  (∀ h', tupd h' (plug c (rebalance_tree (plug1 f t)).1) → K (rebalance_tree (plug1 f t)).2 h') →
  wp (ref ← parent_ref (faddr f); PhpRebalanceAvlLinks ref) K h.
Proof using Hat0.
  intros [Hu Hat] Hcode HK. apply wp_bind. rewrite <-(ptr_of_plug1 f t).
  assert (plug1 f t ≠ E) by (unfold plug1; by destruct (fside f)).
  apply (wp_parent_ref Tree h c); [done..|].
  eapply rebalance_ok; [apply upd_refl, at_ref_focus; exact Hat|done|].
  intros h' Hu'. apply HK. by eapply (tree_upd_focus _ _ _ h).
Qed.

Lemma plug1_nonE f t : plug1 f t ≠ E.
Proof using Type. unfold plug1. by destruct (fside _). Qed.

Lemma ptr_of_set_fbal f b t : ptr_of (plug1 (set_fbal f b) t) = faddr f.
Proof using Type. by rewrite ptr_of_plug1. Qed.

Lemma decide_root f c t root :
  root = ptr_of (plug (f :: c) t) → NoDup (Root Tree :: inorder (plug (f :: c) t)) → t ≠ E →
  ptr_of t ≠ root.
Proof using Type. intros -> ??. by eapply root_not_focus. Qed.

Lemma is_left_balance (s : side) :
  (if bool_decide (s = SLeft) then -1 else 1) = side_balance s.
Proof using Type. by destruct s. Qed.

Lemma add_balance_loop_ok c t h fuel root (K : unit → heap → Prop) :
  (length c < fuel)%nat →
  tupd h (plug c t) → root = ptr_of (plug c t) →
  pending 1 c t → grown t →
  (∀ h', tupd h' (fix_add c t) → K tt h') →
  wp (add_balance_loop fuel root (ptr_of t)) K h.
Proof using Hat0.
  revert t h fuel. induction c as [|f c IH]; intros t h fuel Hfuel Hu Hroot Hp Hg HK;
    (destruct fuel as [|fuel]; [simpl in Hfuel; lia|]); simpl.
  { rewrite decide_True by done. by apply wp_ret, HK. }
  assert (t ≠ E) as HtE by (by destruct t).
  rewrite decide_False by (eapply decide_root; [done|apply Hu|done]).
  apply wp_bind, (wp_is_left Tree h (f :: c)); [apply Hu|done|]. simpl.
  apply wp_bind, (wp_focus_parent h f c); [done..|].
  apply wp_bind, (wp_frame_balance h f c t); [done|].
  rewrite is_left_balance. simpl in HK.
  destruct (Z.eqb_spec (fbal f) 0) as [Hb0|Hb0].
  - apply wp_bind, (set_frame_balance_ok h f c t); [done|]. intros h' Hu'.
    destruct (add_step_lean f c t Hp Hb0) as [Hp' Hg'].
    rewrite <-(ptr_of_set_fbal f (side_balance (fside f)) t).
    apply IH; [simpl in Hfuel; lia|done| |done..].
    rewrite Hroot, plug_cons. apply ptr_of_plug. by rewrite !ptr_of_plug1.
  - destruct (Z.eqb_spec (fbal f) (side_balance (fside f))) as [Hb2|Hb2]; simpl.
    + destruct (add_step_rotate f c t Hp Hg Hb0 Hb2) as [Hcode _].
      apply wp_assoc, wp_bind, (rebalance_parent_ok h f c t); [done..|].
      intros h' Hu'. by apply wp_ret, HK.
    + apply (set_frame_balance_ok h f c t); [done|]. intros h' Hu'. by apply HK.
Qed.

(** [P = P->Parent] after a rotation at [P]. *)
Lemma wp_rotated_parent h f c t (K : ptr → heap → Prop) :
  tupd h (plug c (rebalance_tree (plug1 f t)).1) →
  (rebalance_tree (plug1 f t)).2 ≠ 0 → (rebalance_tree (plug1 f t)).2 ≠ 3 →
  K (ptr_of (rebalance_tree (plug1 f t)).1) h → wp (get_Parent (faddr f)) K h.
Proof using Type.
  intros [_ Hat] Hcode Hcode3 HK.
  destruct (rebalance_child (plug1 f t)) as (A & b & B & q & bq & C & Heq); [done..|].
  rewrite ptr_of_plug1 in Heq. destruct Heq as [Heq|Heq]; rewrite Heq in *;
    destruct (focus_links _ _ _ _ _ _ _ Hat) as (_ & _ & Hl & Hr); simpl in Hl, Hr.
  - destruct Hl as (Ha & Hlk & _). by hstep.
  - destruct Hr as (Ha & Hlk & _). by hstep.
Qed.

Lemma remove_balance_loop_ok c t h fuel (K : unit → heap → Prop) :
  (length c < fuel)%nat →
  tupd h (plug c t) → pending (-1) c t →
  (∀ h', tupd h' (fix_rem c t) → K tt h') →
  wp (remove_balance_loop fuel (Root Tree) (ctx_parent (Root Tree) c) (side_balance (ctx_side c))) K h.
Proof using Hat0.
  revert t h fuel. induction c as [|f c IH]; intros t h fuel Hfuel Hu Hp HK;
    (destruct fuel as [|fuel]; [simpl in Hfuel; lia|]); simpl.
  { rewrite decide_True by done. by apply wp_ret, HK. }
  rewrite decide_False.
  2: { destruct Hu as [_ (_ & _ & _ & Hnd)]. apply focus_nodup in Hnd as (? & _). congruence. }
  assert (∀ t' h', tupd h' (plug c t') → t' ≠ E → pending (-1) c t' →
    (∀ h', tupd h' (fix_rem c t') → K tt h') →
    wp (isleft ← PhIsLeftChildElement (ptr_of t'); parent ← get_Parent (ptr_of t');
        remove_balance_loop fuel (Root Tree) parent (if isleft : bool then -1 else 1)) K h') as Hnext.
  { intros t' h' Hu' HtE Hp' HK'. apply wp_bind, (wp_is_left Tree h' c); [apply Hu'|done|].
    destruct t' as [|l a b r] eqn:Ht'; [done|].
    destruct (focus_links _ _ _ _ _ _ _ (proj2 Hu')) as (Ha & Hlk & _).
    simpl. hstep. rewrite is_left_balance. by apply (IH t'); [simpl in Hfuel; lia|subst t'..]. }
  apply wp_bind, (wp_frame_balance h f c t); [done|]. simpl in HK.
  destruct (Z.eqb_spec (fbal f) (side_balance (fside f))) as [Hb2|Hb2].
  { apply wp_bind, wp_bind, (set_frame_balance_ok h f c t); [done|]. intros h' Hu'. apply wp_ret.
    rewrite <-(ptr_of_set_fbal f 0 t).
    apply Hnext; [done|apply plug1_nonE|by apply rem_step_level|done]. }
  destruct (Z.eqb_spec (fbal f) 0) as [Hb0|Hb0].
  { apply wp_bind, wp_bind, (set_frame_balance_ok h f c t); [done|]. intros h' Hu'.
    by apply wp_ret, wp_ret, HK. }
  pose proof (rem_step_rotate f c t Hp Hb2 Hb0) as Hrot.
  destruct (rebalance_tree (plug1 f t)) as [t' code] eqn:Hreb. destruct Hrot as [Hcode Hrot].
  assert (t' ≠ E) as HtE'.
  { pose proof (inorder_rebalance (plug1 f t)) as Hin. rewrite Hreb in Hin. intros ->.
    pose proof (ptr_of_in _ (plug1_nonE f t)) as Hx. rewrite <-Hin in Hx. by apply elem_of_nil in Hx. }
  apply wp_bind, wp_assoc, wp_bind, (rebalance_parent_ok h f c t); rewrite ?Hreb; [done..|].
  simpl. intros h' Hu'. destruct (Z.eqb_spec code 3).
  { by apply wp_ret, wp_ret, HK. }
  apply wp_bind, (wp_rotated_parent h' f c t); rewrite ?Hreb; [done..|].
  by apply wp_ret, Hnext.
Qed.
End Loops.

(** ** The order on elements *)

(** What the library relies on: the sign of [CompareFunction] is that of a total
    preorder. *)
Class CompareOk (cmp : ptr → ptr → Z) : Prop := {
  cmp_refl x : cmp x x = 0;
  cmp_antisym x y : cmp x y < 0 ↔ 0 < cmp y x;
  cmp_trans x y z : cmp x y ≤ 0 → cmp y z ≤ 0 → cmp x z ≤ 0
}.

Section Order.
Context (cmp : ptr → ptr → Z) {Hcmp : CompareOk cmp}.

Definition lt (x y : ptr) : Prop := cmp x y < 0.

Lemma cmp_sym0 x y : cmp x y = 0 → cmp y x = 0.
Proof using Hcmp. pose proof (cmp_antisym x y). pose proof (cmp_antisym y x). lia. Qed.

Lemma lt_gt x y : lt x y ↔ 0 < cmp y x.
Proof using Hcmp. apply cmp_antisym. Qed.

Lemma le_trans x y z : cmp x y ≤ 0 → cmp y z ≤ 0 → cmp x z ≤ 0.
Proof using Hcmp. apply cmp_trans. Qed.

Lemma lt_le_trans x y z : lt x y → cmp y z ≤ 0 → lt x z.
Proof using Hcmp.
  unfold lt. intros Hxy Hyz. assert (cmp x z ≤ 0) by (apply (le_trans x y); [lia|done]).
  assert (cmp x z ≠ 0); [|lia]. intros H0. apply cmp_sym0 in H0.
  assert (cmp y x ≤ 0) by (apply (le_trans y z); [done|lia]). apply cmp_antisym in Hxy. lia.
Qed.

Lemma le_lt_trans x y z : cmp x y ≤ 0 → lt y z → lt x z.
Proof using Hcmp.
  unfold lt. intros Hxy Hyz. assert (cmp x z ≤ 0) by (apply (le_trans x y); [done|lia]).
  assert (cmp x z ≠ 0); [|lia]. intros H0. apply cmp_sym0 in H0.
  assert (cmp z y ≤ 0) by (apply (le_trans z x); [lia|done]). apply cmp_antisym in Hyz. lia.
Qed.

#[export] Instance lt_transitive : Transitive lt.
Proof using Hcmp. intros x y z Hxy Hyz. apply (lt_le_trans x y); [done|]. unfold lt in Hyz. lia. Qed.

Lemma lt_irrefl x : ¬ lt x x.
Proof using Hcmp. unfold lt. rewrite cmp_refl. lia. Qed.

Definition sorted (l : list ptr) : Prop := StronglySorted lt l.

Lemma sorted_app l k :
  sorted (l ++ k) ↔ (∀ x y, x ∈ l → y ∈ k → lt x y) ∧ sorted l ∧ sorted k.
Proof using Type. apply StronglySorted_app. Qed.

Lemma sorted_cons x l : sorted (x :: l) ↔ sorted l ∧ (∀ y, y ∈ l → lt x y).
Proof using Type. unfold sorted. rewrite StronglySorted_cons, Forall_forall. tauto. Qed.
End Order.

(** ** Search *)

Section Search.
Context (Tree : PH_AVL_TREE) (e : ptr).

Abbreviation cmp := (CompareFunction Tree).

(** The path that the search for [e] follows below the context [c], and the
    subtree it stops at: the equal element, or the missing child. *)
Fixpoint descend (t : tree) (c : list frame) : list frame * tree :=
  match t with
  | E => (c, E)
  | T l a b r =>
      let result := cmp e a in
      if result =? 0 then (c, t)
      else if result <? 0 then descend l (Frame SLeft a b r :: c)
      else descend r (Frame SRight a b l :: c)
  end.

Definition find_result (ct : list frame * tree) : ptr * Z :=
  match ct.2 with
  | E => (ctx_parent (Root Tree) ct.1, side_balance (ctx_side ct.1))
  | T _ a _ _ => (a, 0)
  end.

Lemma plug_descend t c : plug (descend t c).1 (descend t c).2 = plug c t.
Proof using Type.
  revert c. induction t as [|l IHl a b r IHr]; intros c; simpl; [done|].
  destruct (_ =? 0); [done|]. destruct (_ <? 0); [by rewrite IHl|by rewrite IHr].
Qed.

Lemma descend_length t c : Z.of_nat (length (descend t c).1) ≤ Z.of_nat (length c) + height t.
Proof using Type.
  revert c. induction t as [|l IHl a b r IHr]; intros c; simpl; [lia|].
  pose proof (height_nonneg l). pose proof (height_nonneg r).
  destruct (_ =? 0); [simpl; lia|].
  destruct (_ <? 0); [etrans; [apply IHl|]|etrans; [apply IHr|]]; simpl; lia.
Qed.

(** Everything on the left of the path is smaller than [e], everything on its
    right is bigger. *)
Definition bounds (c : list frame) : Prop :=
  (∀ x, x ∈ ctx_left c → lt cmp x e) ∧ (∀ x, x ∈ ctx_right c → lt cmp e x).

Lemma descend_bounds {Hcmp : CompareOk cmp} t c :
  sorted cmp (inorder t) → bounds c → bounds (descend t c).1.
Proof using Type.
  revert c. induction t as [|l IHl a b r IHr]; intros c Hs Hb; simpl; [done|]. simpl in Hs.
  apply sorted_app in Hs as (Hlr & Hl & Hr). apply sorted_cons in Hr as [Hr Har].
  destruct Hb as [Hb1 Hb2].
  destruct (Z.eqb_spec (cmp e a) 0); [done|]. destruct (Z.ltb_spec (cmp e a) 0).
  - apply IHl; [done|]. split; simpl; [done|]. intros x. rewrite elem_of_cons, elem_of_app.
    intros [->|[Hx|Hx]]; [done| |auto]. eapply lt_transitive; [done..|]. by apply Har.
  - apply IHr; [done|]. split; simpl; [|done]. intros x.
    rewrite !elem_of_app, list_elem_of_singleton.
    assert (lt cmp a e) by (apply lt_gt; [done|lia]).
    intros [Hx|[Hx| ->]]; [auto| |done].
    eapply lt_transitive; [done|apply Hlr; [done|]|done]. apply elem_of_cons. by left.
Qed.

Lemma descend_equal t c :
  (descend t c).2 ≠ E → cmp e (ptr_of (descend t c).2) = 0 ∧ ptr_of (descend t c).2 ∈ inorder t.
Proof using Type.
  revert c. induction t as [|l IHl a b r IHr]; intros c; simpl; [done|].
  destruct (Z.eqb_spec (cmp e a) 0); [simpl; set_solver|].
  destruct (_ <? 0); intros HE; [apply IHl in HE|apply IHr in HE]; set_solver.
Qed.

(** The search stops at an equal element when there is one. *)
Lemma descend_found {Hcmp : CompareOk cmp} t c :
  sorted cmp (inorder t) → ∀ x, x ∈ inorder t → cmp e x = 0 → ptr_of (descend t c).2 = x.
Proof using Type.
  revert c. induction t as [|l IHl a b r IHr]; intros c Hs x; simpl; [by intros ?%elem_of_nil|].
  simpl in Hs. apply sorted_app in Hs as (Hlr & Hl & [Hr Har]%sorted_cons).
  rewrite elem_of_app, elem_of_cons. intros Hx Heq.
  assert (∀ y, y ∈ inorder l → lt cmp y a) as Hla by (intros y Hy; apply Hlr; [done|set_solver]).
  destruct (Z.eqb_spec (cmp e a) 0) as [Hea|Hea]; [|destruct (Z.ltb_spec (cmp e a) 0) as [Hlt|Hgt]].
  - assert (cmp a x ≤ 0 ∧ cmp x a ≤ 0) as [Hax Hxa].
    { pose proof (cmp_sym0 cmp _ _ Hea). pose proof (cmp_sym0 cmp _ _ Heq).
      split; [apply (le_trans cmp a e x)|apply (le_trans cmp x e a)]; lia. }
    simpl. destruct Hx as [Hx|[->|Hx]]; [|done|].
    + specialize (Hla _ Hx). apply lt_gt in Hla; [lia|done].
    + specialize (Har _ Hx). apply lt_gt in Har; [lia|done].
  - apply IHl; [done| |done]. pose proof (cmp_sym0 cmp _ _ Heq) as Hxe.
    assert (lt cmp x a) as Hxa by (apply (le_lt_trans cmp x e a); [lia|done]).
    destruct Hx as [Hx|[->|Hx]]; [done|by apply lt_irrefl in Hxa|].
    specialize (Har _ Hx). by assert (lt cmp a a) as ?%lt_irrefl by (by eapply lt_transitive).
  - apply IHr; [done| |done].
    assert (lt cmp a x) as Hax by (apply (lt_le_trans cmp a e x); [apply lt_gt; [done|lia]|lia]).
    destruct Hx as [Hx|[->|Hx]]; [|by apply lt_irrefl in Hax|done].
    specialize (Hla _ Hx). by assert (lt cmp a a) as ?%lt_irrefl by (by eapply lt_transitive).
Qed.

Lemma find_loop_ok t c h fuel (K : ptr * Z → heap → Prop) :
  tree_at h Tree (plug c t) → t ≠ E → height t ≤ Z.of_nat fuel →
  K (find_result (descend t c)) h → wp (find_loop fuel Tree e (ptr_of t)) K h.
Proof using Type.
  revert t c. induction fuel as [|fuel IH]; intros t c Hat HtE Hf HK.
  { destruct t; [done|]. simpl in Hf. pose proof (height_nonneg t1). lia. }
  destruct t as [|l a b r]; [done|]. simpl in *.
  destruct (focus_links _ _ _ _ _ _ _ Hat) as (Ha & Hlk & Hl & Hr).
  destruct (cmp e a =? 0); [by apply wp_ret|]. destruct (cmp e a <? 0).
  - hstep. case_decide as Hnull.
    + apply (ptr_of_nonnull h a) in Hnull as ->; [|done]. by apply wp_ret.
    + apply (IH l (Frame SLeft a b r :: c)); [done|by intros ->|lia|done].
  - hstep. case_decide as Hnull.
    + apply (ptr_of_nonnull h a) in Hnull as ->; [|done]. by apply wp_ret.
    + apply (IH r (Frame SRight a b l :: c)); [done|by intros ->|lia|done].
Qed.

Lemma find_ok t h fuel (K : ptr * Z → heap → Prop) :
  tree_at h Tree t → height t ≤ Z.of_nat fuel →
  K (find_result (descend t [])) h → wp (PhpFindElementAvlTree fuel Tree e) K h.
Proof using Type.
  intros Hat Hf HK. unfold PhpFindElementAvlTree, PhRootElementAvlTree.
  pose proof Hat as (Hr & Hlk & Hrep & _). hstep. case_decide as Hnull.
  - apply (ptr_of_nonnull h (Root Tree)) in Hnull as ->; [|done]. by apply wp_ret.
  - apply (find_loop_ok t []); [done|by intros ->|done..].
Qed.
End Search.

(** ** Whole-tree updates *)

Lemma tree_at_frame h h' Tree t :
  tree_at h Tree t → (∀ x, x ∈ Root Tree :: inorder t → h' !! x = h !! x) → tree_at h' Tree t.
Proof.
  intros (Hr & Hlk & Hrep & Hnd) Hfr. split_and!; [done| | |done].
  - rewrite Hfr; [done|]. apply elem_of_cons. by left.
  - eapply rep_frame; [done|]. intros x Hx. apply Hfr. apply elem_of_cons. by right.
Qed.

Lemma tree_at_update h h' Tree t t' :
  tree_at h Tree t → local_update h h' (Root Tree) SRight t t' →
  NoDup (Root Tree :: inorder t') → tree_at h' Tree t'.
Proof.
  intros (Hr & Hlk & Hrep & Hnd) [Hp Hrep' _] Hnd'. split_and!; [done| |done|done].
  by apply Hp in Hlk.
Qed.

Lemma tree_upd_frame Tree h0 t0 h t :
  tree_upd Tree h0 t0 h t → ∀ x, x ∉ Root Tree :: inorder t0 → h !! x = h0 !! x.
Proof.
  intros [Hu _] x. rewrite elem_of_cons. intros Hx.
  apply (lu_frame _ _ _ _ _ _ (upd_lu _ _ _ _ _ _ Hu)); tauto.
Qed.

(** ** Insertion *)

Section Add.
Context (Tree : PH_AVL_TREE) (e : ptr).

Definition leaf : tree := T E e 0 E.

Lemma inorder_plug_leaf c : inorder (plug c leaf) ≡ₚ e :: inorder (plug c E).
Proof using Type. rewrite !inorder_plug. simpl. by rewrite <-Permutation_middle. Qed.

Lemma link_leaf h c lp :
  tree_at h Tree (plug c E) → e ≠ NULL → e ∉ Root Tree :: inorder (plug c E) →
  h !! ctx_parent (Root Tree) c = Some lp →
  tree_at (<[e := Links (ctx_parent (Root Tree) c) NULL NULL 0]>
    (<[ctx_parent (Root Tree) c := set_child (ctx_side c) lp e]> h)) Tree (plug c leaf).
Proof using Type.
  intros Hat Hne He Hlp. set (P := ctx_parent (Root Tree) c) in *.
  assert (P ∈ Root Tree :: inorder (plug c E)) as HPin.
  { subst P. destruct c as [|f c]; cbn [ctx_parent]; [apply elem_of_cons; by left|].
    apply elem_of_cons. right. rewrite inorder_plug_perm. apply elem_of_cons. by left. }
  assert (e ≠ P) as HeP by (by intros Heq; rewrite Heq in He).
  rewrite insert_insert_ne by done.
  assert (tree_at (<[e := Links P NULL NULL 0]> h) Tree (plug c E)) as Hat'.
  { eapply tree_at_frame; [done|]. intros x Hx. rewrite lookup_insert_ne; [done|by intros <-]. }
  eapply tree_at_update; [exact Hat'| |].
  - apply local_update_plug; [done|]. split.
    + intros l Hl. fold P in Hl. rewrite lookup_insert_ne in Hl by done. simplify_eq. by rewrite lookup_insert_eq.
    + simpl. split_and!; [done| |done|done]. rewrite lookup_insert_ne by done. by rewrite lookup_insert_eq.
    + intros x Hx _. by rewrite lookup_insert_ne.
  - destruct Hat as (_ & _ & _ & Hnd). rewrite inorder_plug_leaf, Permutation_swap.
    by apply NoDup_cons.
Qed.

(** The element is linked where the search ended, then the tree is balanced. *)
Definition tree_add (t : tree) : tree := fix_add (descend Tree e t []).1 leaf.

Lemma add_ok h t fuel (K : ptr * PH_AVL_TREE → heap → Prop) :
  tree_at h Tree t → avl t → (descend Tree e t []).2 = E →
  e ≠ NULL → e ∉ Root Tree :: inorder t → is_Some (h !! e) → height t < Z.of_nat fuel →
  (∀ h', tree_at h' Tree (tree_add t) → (∀ x, x ∉ e :: Root Tree :: inorder t → h' !! x = h !! x) →
    K (NULL, AvlTree (Root Tree) (u32 (Count Tree + 1)) (CompareFunction Tree)) h') →
  wp (PhAddElementAvlTree fuel Tree e) K h.
Proof using Type.
  intros Hat Havl HE Hne He [le Hle] Hf HK. unfold PhAddElementAvlTree.
  pose proof (plug_descend Tree e t []) as Hplug. rewrite HE in Hplug.
  pose proof (descend_length Tree e t []) as Hlen. unfold tree_add in HK.
  destruct (descend Tree e t []) as [c t'] eqn:Hd. simpl in HE, Hplug, Hlen, HK. subst t'.
  apply wp_bind, (find_ok Tree e t); [done|lia|]. rewrite Hd. unfold find_result. cbn [fst snd].
  rewrite <-Hplug in *.
  destruct (parent_links Tree h c E Hat) as (HP & lp & Hlp & Hch & _).
  assert (e ≠ ctx_parent (Root Tree) c) as HeP.
  { intros Heq. rewrite Heq in He. apply He. destruct c as [|f c]; cbn [ctx_parent]; [apply elem_of_cons; by left|].
    apply elem_of_cons. right. rewrite inorder_plug_perm. apply elem_of_cons. by left. }
  apply wp_bind. apply (wp_mono _ (λ b h1, b = true ∧
    h1 = <[ctx_parent (Root Tree) c := set_child (ctx_side c) lp e]> h)).
  { destruct (ctx_side c); simpl; hstep; by apply wp_ret. }
  intros b h1 [-> ->]. cbn [negb]. do 4 hstep.
  rewrite !insert_insert_eq. cbn [Parent Left Right Balance].
  pose proof (link_leaf h c lp Hat Hne He Hlp) as Hat1.
  set (h1 := <[e:=_]> _) in *.
  unfold PhRootElementAvlTree. pose proof Hat1 as (HR & HlkR & _ & _). hstep.
  apply wp_bind.
  apply (add_balance_loop_ok Tree h1 (plug c leaf) Hat1 c leaf); [lia| |done| |by right|].
  - by apply tree_upd_refl.
  - apply avl_plug in Havl as [_ Hc]. split; [done|]. exact Hc.
  - intros h' Hu'. apply wp_ret, HK; [apply Hu'|]. intros x Hx.
    rewrite (tree_upd_frame _ _ _ _ _ Hu').
    + subst h1. rewrite elem_of_cons in Hx. rewrite !lookup_insert_ne; [done| |].
      * intros <-. destruct c as [|f c]; cbn [ctx_parent] in Hx; [set_solver|].
        apply Hx. rewrite inorder_plug_perm, !elem_of_cons. auto.
      * intros <-. tauto.
    + rewrite inorder_plug_leaf, Permutation_swap. done.
Qed.
End Add.

(** ** Removal *)

Lemma in_plug t e : e ∈ inorder t → ∃ c l b r, t = plug c (T l e b r).
Proof.
  induction t as [|l IHl a b r IHr]; simpl; [by intros ?%elem_of_nil|].
  rewrite elem_of_app, elem_of_cons. intros [Hin|[->|Hin]].
  - destruct (IHl Hin) as (c & l' & b' & r' & ->).
    exists (c ++ [Frame SLeft a b r]), l', b', r'. by rewrite plug_app.
  - by exists [], l, b, r.
  - destruct (IHr Hin) as (c & l' & b' & r' & ->).
    exists (c ++ [Frame SRight a b l]), l', b', r'. by rewrite plug_app.
Qed.

Lemma inorder_plug_node c l a b r :
  inorder (plug c (T l a b r)) ≡ₚ a :: ctx_left c ++ inorder l ++ inorder r ++ ctx_right c.
Proof. rewrite inorder_plug. simpl. solve_Permutation. Qed.

(** The paths to the leftmost and to the rightmost node of a subtree. *)
Fixpoint left_spine (l : tree) (a : ptr) (b : Z) (r : tree) (c : list frame) : list frame * (ptr * Z * tree) :=
  match l with
  | E => (c, (a, b, r))
  | T l' a' b' r' => left_spine l' a' b' r' (Frame SLeft a b r :: c)
  end.

Fixpoint right_spine (l : tree) (a : ptr) (b : Z) (r : tree) (c : list frame) : list frame * (ptr * Z * tree) :=
  match r with
  | E => (c, (a, b, l))
  | T l' a' b' r' => right_spine l' a' b' r' (Frame SRight a b l :: c)
  end.

Lemma left_spine_plug l a b r c :
  let '(c', (n, bn, rn)) := left_spine l a b r c in
  plug c' (T E n bn rn) = plug c (T l a b r) ∧ ctx_left c' = ctx_left c ∧
  Z.of_nat (length c') ≤ Z.of_nat (length c) + height l.
Proof.
  revert a b r c. induction l as [|l IHl a' b' r' _]; intros a b r c; simpl.
  - split_and!; [done|done|lia].
  - specialize (IHl a' b' r' (Frame SLeft a b r :: c)).
    destruct (left_spine _ _ _ _ _) as [c' [[n bn] rn]]. destruct IHl as (-> & -> & Hlen).
    simpl in *. split_and!; [done|done|lia].
Qed.

Lemma right_spine_plug l a b r c :
  let '(c', (n, bn, ln)) := right_spine l a b r c in
  plug c' (T ln n bn E) = plug c (T l a b r) ∧ ctx_right c' = ctx_right c ∧
  Z.of_nat (length c') ≤ Z.of_nat (length c) + height r.
Proof.
  revert l a b c. induction r as [|l' _ a' b' r IHr]; intros l a b c; simpl.
  - split_and!; [done|done|lia].
  - specialize (IHr l' a' b' (Frame SRight a b l :: c)).
    destruct (right_spine _ _ _ _ _) as [c' [[n bn] ln]]. destruct IHr as (-> & -> & Hlen).
    simpl in *. split_and!; [done|done|lia].
Qed.

Lemma length_ctx c t : Z.of_nat (length c) + height t ≤ height (plug c t).
Proof.
  revert t. induction c as [|f c IH]; intros t; [simpl; lia|].
  rewrite plug_cons. specialize (IH (plug1 f t)). rewrite height_plug1 in IH. simpl length. lia.
Qed.

Section Remove.
Context (Tree : PH_AVL_TREE).

Lemma leftmost_ok h c l a b r fuel (K : ptr → heap → Prop) :
  tree_at h Tree (plug c (T l a b r)) → height l < Z.of_nat fuel →
  K (left_spine l a b r c).2.1.1 h → wp (leftmost fuel a) K h.
Proof using Type.
  revert c l a b r. induction fuel as [|fuel IH]; intros c l a b r Hat Hf HK.
  { pose proof (height_nonneg l). lia. }
  destruct (focus_links _ _ _ _ _ _ _ Hat) as (Ha & Hlk & Hl & Hr). simpl. hstep.
  case_decide as Hnull.
  - apply (ptr_of_nonnull h a) in Hnull as ->; [|done]. by apply wp_ret.
  - destruct l as [|l' a' b' r']; [done|]. simpl in *. pose proof (height_nonneg r').
    apply (IH (Frame SLeft a b r :: c) l' a' b' r'); [done|lia|done].
Qed.

Lemma rightmost_ok h c l a b r fuel (K : ptr → heap → Prop) :
  tree_at h Tree (plug c (T l a b r)) → height r < Z.of_nat fuel →
  K (right_spine l a b r c).2.1.1 h → wp (rightmost fuel a) K h.
Proof using Type.
  revert c l a b r. induction fuel as [|fuel IH]; intros c l a b r Hat Hf HK.
  { pose proof (height_nonneg r). lia. }
  destruct (focus_links _ _ _ _ _ _ _ Hat) as (Ha & Hlk & Hl & Hr). simpl. hstep.
  case_decide as Hnull.
  - apply (ptr_of_nonnull h a) in Hnull as ->; [|done]. by apply wp_ret.
  - destruct r as [|l' a' b' r']; [done|]. simpl in *. pose proof (height_nonneg l').
    apply (IH (Frame SRight a b l :: c) l' a' b' r'); [done|lia|done].
Qed.

(** A node with at most one child is replaced by that child. *)
Definition only_child (l r child : tree) : Prop := (l = E ∧ child = r) ∨ (r = E ∧ child = l).

Lemma unlink_child_ok h c l n b r child (K : unit → heap → Prop) :
  tree_at h Tree (plug c (T l n b r)) → only_child l r child →
  (∀ h', local_update h h' (ctx_parent (Root Tree) c) (ctx_side c) (T l n b r) child →
    h' !! n = h !! n → K tt h') →
  wp (unlink_child (ctx_parent (Root Tree) c, ctx_side c) n) K h.
Proof using Type.
  intros Hat Hoc HK.
  pose proof (at_ref_focus _ _ _ _ Hat) as (HP & Hrep & Hnd & lp & Hlp & Hch).
  set (P := ctx_parent (Root Tree) c) in *. clearbody P. simpl in Hrep.
  destruct Hrep as (Hn & Hlk & Hl & Hr).
  apply NoDup_cons in Hnd as [HPn Hnd]. simpl in HPn, Hnd.
  apply NoDup_app in Hnd as (Hndl & Hdl & Hndr). apply NoDup_cons in Hndr as [Hnr Hndr].
  rewrite elem_of_app, elem_of_cons in HPn.
  assert (n ≠ P) by (intros ->; tauto).
  assert (n ∉ inorder l) by (intros Hin; apply (Hdl n Hin), elem_of_cons; by left).
  unfold unlink_child. hstep. case_decide as Hrn.
  - apply (ptr_of_nonnull h n) in Hrn as ->; [|done].
    assert (child = l) as -> by (destruct Hoc as [[-> ->]|[_ ->]]; done).
    assert (P ∉ inorder l) by tauto.
    do 3 hstep. hreparent. apply HK; [split; simpl|].
    + intros l' Hl'. simplify_eq. lk.
    + done.
    + intros x Hx Hx'. rewrite elem_of_app in Hx'. rewrite H3 by tauto. by rewrite lookup_insert_ne.
    + lk.
  - destruct Hoc as [[-> ->]|[-> ->]]; [|done].
    assert (P ∉ inorder r) by tauto.
    do 2 hstep. destruct r as [|rl a rb rr]; [done|].
    rewrite <-(decide_False (P := ptr_of (T rl a rb rr) = NULL) (mret tt)
      (set_Parent (ptr_of (T rl a rb rr)) P)) by done.
    hreparent. apply HK; [split; simpl|].
    + intros l' Hl'. simplify_eq. lk.
    + done.
    + intros x Hx Hx'. rewrite elem_of_cons in Hx'. rewrite H3 by (simpl; tauto). by rewrite lookup_insert_ne.
    + lk.
Qed.

(** [newElement], which is outside of the tree, takes the place of [e]. *)
Lemma replace_subject_ok h c l e b r n (K : unit → heap → Prop) :
  tree_at h Tree (plug c (T l e b r)) → n ≠ NULL → is_Some (h !! n) →
  n ∉ Root Tree :: inorder (plug c (T l e b r)) →
  (∀ h', tree_at h' Tree (plug c (T l n b r)) →
    (∀ x, x ∉ n :: Root Tree :: inorder (plug c (T l e b r)) → h' !! x = h !! x) → K tt h') →
  wp (replace_subject e n) K h.
Proof using Type.
  intros Hat Hn [ln Hln] Hout HK. unfold replace_subject.
  destruct (focus_links _ _ _ _ _ _ _ Hat) as (He & Hlk & _ & _).
  do 2 hstep.
  set (P := ctx_parent (Root Tree) c) in *.
  set (h1 := <[n:=_]> h).
  assert (tree_at h1 Tree (plug c (T l e b r))) as Hat1.
  { eapply tree_at_frame; [done|]. intros x Hx. subst h1.
    rewrite lookup_insert_ne; [done|by intros <-]. }
  apply wp_bind, (wp_is_left Tree h1 c _ _ Hat1); [done|].
  pose proof (at_ref_focus _ _ _ _ Hat1) as (HP & Hrep & Hnd & lp & Hlp & Hch).
  fold P in HP, Hrep, Hnd, Hlp. simpl in Hrep. destruct Hrep as (_ & Hlk1 & Hl & Hr).
  assert (P ∈ Root Tree :: inorder (plug c (T l e b r))) as HPin.
  { subst P. destruct c as [|f c]; cbn [ctx_parent]; [apply elem_of_cons; by left|].
    apply elem_of_cons. right. rewrite inorder_plug_perm. apply elem_of_cons. by left. }
  assert (n ≠ P ∧ n ≠ e ∧ n ∉ inorder l ∧ n ∉ inorder r) as (HnP & Hne & Hnl & Hnr).
  { split_and!; [by intros ->|..]; intros Hin; apply Hout, elem_of_cons; right;
      rewrite inorder_plug; simpl; rewrite !elem_of_app, elem_of_cons; subst; auto. }
  apply NoDup_cons in Hnd as [HPt Hnd]. simpl in HPt, Hnd. rewrite elem_of_app, elem_of_cons in HPt.
  apply NoDup_app in Hnd as (Hndl & Hdl & Hndr). apply NoDup_cons in Hndr as [Her Hndr].
  assert (e ∉ inorder l) by (intros Hin; apply (Hdl e Hin), elem_of_cons; by left).
  assert (∀ x, x ∈ inorder l → x ∉ inorder r) as Hdlr.
  { intros x Hx Hx'. apply (Hdl x Hx), elem_of_cons. by right. }
  assert (P ∉ inorder l ∧ P ∉ inorder r ∧ P ≠ e) as (HPl & HPr & HPe) by tauto.
  assert (h1 !! n = Some (Links P (ptr_of l) (ptr_of r) b)) as Hln1 by (subst h1; by rewrite lookup_insert_eq).
  assert (∀ x, x ≠ n → h1 !! x = h !! x) as Hh1 by (intros x Hx; subst h1; by rewrite lookup_insert_ne).
  assert (P = ctx_parent (Root Tree) c) as HPeq by done. clearbody h1 P. hstep.
  apply wp_bind. apply (wp_mono _ (λ _ h2, h2 = <[P := set_child (ctx_side c) lp n]> h1)).
  { destruct (ctx_side c); simpl; by hstep. }
  intros _ h2 ->. hstep. hreparent. hstep. hreparent.
  assert (NoDup (Root Tree :: inorder (plug c (T l n b r)))) as Hnd'.
  { destruct Hat as (_ & _ & _ & Hnd). revert Hnd Hout. rewrite !inorder_plug_node.
    rewrite !NoDup_cons, !elem_of_cons. intros ??. split_and!; [intros [<-|?]; tauto|tauto..]. }
  apply HK.
  - eapply tree_at_update; [exact Hat1| |done]. apply local_update_plug; [done|].
    rewrite <-HPeq. split; simpl.
    + intros l' Hl'. simplify_eq. lk.
    + split_and!; [done|lk|rep_outside|done].
    + intros x Hx Hx'. rewrite elem_of_app, elem_of_cons in Hx'.
      rewrite H3, H1, lookup_insert_ne by (done || tauto). done.
  - intros x Hx. rewrite elem_of_cons, elem_of_cons, inorder_plug, !elem_of_app in Hx.
    simpl in Hx. rewrite elem_of_app, elem_of_cons in Hx.
    assert (P ≠ x) by (intros <-; rewrite inorder_plug, elem_of_cons, !elem_of_app in HPin; simpl in HPin;
      rewrite elem_of_app, elem_of_cons in HPin; tauto).
    rewrite H3, H1, lookup_insert_ne, Hh1 by (done || tauto). done.
Qed.

Lemma only_child_inorder l n b r child :
  only_child l r child → inorder (T l n b r) ≡ₚ n :: inorder child.
Proof using Type. intros [[-> ->]|[-> ->]]; simpl; [done|]. by rewrite <-Permutation_cons_append. Qed.

Lemma only_child_height l n b r child :
  only_child l r child → height (T l n b r) = height child + 1.
Proof using Type.
  intros [[-> ->]|[-> ->]]; simpl; [pose proof (height_nonneg r)|pose proof (height_nonneg l)]; lia.
Qed.

Lemma inorder_plug_only_child c l n b r child :
  only_child l r child → inorder (plug c (T l n b r)) ≡ₚ n :: inorder (plug c child).
Proof using Type.
  intros Hoc. rewrite !inorder_plug, (only_child_inorder _ _ _ _ _ Hoc). simpl.
  by rewrite <-Permutation_middle.
Qed.

Lemma pending_unlink c l n b r child :
  avl (plug c (T l n b r)) → only_child l r child → pending (-1) c child.
Proof using Type.
  intros Havl Hoc. apply avl_plug in Havl as [(? & ? & _) Hc].
  rewrite (only_child_height _ _ _ _ _ Hoc) in Hc. split.
  - by destruct Hoc as [[-> ->]|[-> ->]].
  - by replace (height child - -1) with (height child + 1) by lia.
Qed.

(** Unlinking a node with at most one child and balancing the tree. *)
Lemma unlink_balance_ok {A} h c l n b r child fuel (m : ST heap A) (K : A → heap → Prop) :
  tree_at h Tree (plug c (T l n b r)) → avl (plug c (T l n b r)) → only_child l r child →
  (length c < fuel)%nat →
  (∀ h', tree_at h' Tree (fix_rem c child) → h' !! n = h !! n →
    (∀ x, x ∉ Root Tree :: inorder (plug c (T l n b r)) → h' !! x = h !! x) → wp m K h') →
  wp (replace ← parent_ref n; unlink_child replace n ;; P ← get_Parent n;
      remove_balance_loop fuel (Root Tree) P (match replace.2 with SLeft => -1 | SRight => 1 end) ;; m) K h.
Proof using Type.
  intros Hat Havl Hoc Hf HK.
  apply wp_bind, (wp_parent_ref Tree h c _ _ Hat); [done|].
  apply wp_bind, (unlink_child_ok h c l n b r child); [done..|]. intros h1 Hlu Hn.
  pose proof (inorder_plug_only_child c l n b r child Hoc) as Hperm.
  pose proof Hat as (_ & _ & _ & Hnd). rewrite Hperm, Permutation_swap, NoDup_cons in Hnd.
  destruct Hnd as [Hnout Hnd].
  pose proof (local_update_plug Tree _ _ _ _ _ Hat Hlu) as Hlu'.
  assert (tree_at h1 Tree (plug c child)) as Hat1 by (by eapply tree_at_update).
  destruct (focus_links _ _ _ _ _ _ _ Hat) as (Hn0 & Hlkn & _). rewrite Hlkn in Hn. hstep.
  apply wp_bind.
  apply (remove_balance_loop_ok Tree h1 (plug c child) Hat1 c child); [done|by apply tree_upd_refl| |].
  - by eapply pending_unlink.
  - intros h2 Hu2. pose proof (tree_upd_frame _ _ _ _ _ Hu2) as Hfr. apply HK; [apply Hu2| |].
    + rewrite Hfr by done. by rewrite Hn, Hlkn.
    + intros x Hx. rewrite Hperm in Hx. rewrite !elem_of_cons in Hx.
      rewrite Hfr by (rewrite elem_of_cons; tauto).
      apply (lu_frame _ _ _ _ _ _ Hlu'); [tauto|]. rewrite Hperm, elem_of_cons. tauto.
Qed.

(** The result of a removal: the element is gone, the other elements keep their
    order, and nothing outside of the tree has changed. *)
Record removed (h : heap) (t : tree) (e : ptr) (h' : heap) (t' : tree) : Prop := {
  removed_at : tree_at h' Tree t';
  removed_avl : avl t';
  removed_inorder : ∃ l1 l2, inorder t = l1 ++ e :: l2 ∧ inorder t' = l1 ++ l2;
  removed_frame : ∀ x, x ∉ Root Tree :: inorder t → h' !! x = h !! x
}.

Definition after_remove : PH_AVL_TREE :=
  AvlTree (Root Tree) (u32 (Count Tree - 1)) (CompareFunction Tree).

(** The element itself has at most one child. *)
Lemma remove_direct_ok h c l e b r child fuel (K : PH_AVL_TREE → heap → Prop) :
  tree_at h Tree (plug c (T l e b r)) → avl (plug c (T l e b r)) → only_child l r child →
  (length c < fuel)%nat →
  (∀ h' t', removed h (plug c (T l e b r)) e h' t' → K after_remove h') →
  wp (PhRemoveElementAvlTree fuel Tree e) K h.
Proof using Type.
  intros Hat Havl Hoc Hf HK. unfold PhRemoveElementAvlTree, remove_candidate.
  destruct (focus_links _ _ _ _ _ _ _ Hat) as (He & Hlk & _).
  apply wp_bind. hstep. cbn [Left Right Balance].
  rewrite decide_True by (destruct Hoc as [[-> _]|[-> _]]; simpl; auto). apply wp_ret.
  eapply unlink_balance_ok; [done..|]. intros h' Hat' Hn Hfr. cbn beta.
  rewrite decide_True by done. apply wp_bind, wp_ret, wp_ret.
  apply (HK h' (fix_rem c child)). split; [done| | |done].
  - by eapply fix_rem_avl, pending_unlink.
  - rewrite inorder_fix_rem, !inorder_plug. simpl.
    destruct Hoc as [[-> ->]|[-> ->]]; simpl.
    + by exists (ctx_left c), (inorder r ++ ctx_right c).
    + exists (ctx_left c ++ inorder l), (ctx_right c). by rewrite <-!app_assoc.
Qed.

Lemma app_cons_inj (A A' B B' : list ptr) (e : ptr) :
  NoDup (A ++ e :: B) → A ++ e :: B = A' ++ e :: B' → A = A' ∧ B = B'.
Proof using Type.
  revert A'. induction A as [|x A IH]; intros [|y A'] Hnd Heq; simplify_eq/=.
  - done.
  - apply NoDup_cons in Hnd as [Hnd _]. set_solver.
  - apply NoDup_cons in Hnd as [Hnd _]. set_solver.
  - apply NoDup_cons in Hnd as [_ Hnd]. opose proof* (IH A') as [-> ->]; done.
Qed.

(** The in-order neighbour [n] of the element is unlinked in its place, and then
    takes its place. *)
Lemma remove_swap_ok h c l n b r child t e A B fuel (K : PH_AVL_TREE → heap → Prop) :
  t = plug c (T l n b r) → tree_at h Tree t → avl t → only_child l r child →
  inorder (plug c child) = A ++ e :: B →
  (inorder t = A ++ e :: n :: B ∨ inorder t = A ++ n :: e :: B) →
  (length c < fuel)%nat →
  (∀ h' t', removed h t e h' t' → K after_remove h') →
  wp (replace ← parent_ref n; unlink_child replace n ;; P ← get_Parent n;
      remove_balance_loop fuel (Root Tree) P (match replace.2 with SLeft => -1 | SRight => 1 end) ;;
      (if decide (n = e) then mret tt else replace_subject e n) ;; mret after_remove) K h.
Proof using Type.
  intros Ht Hat Havl Hoc Hin1 Hin Hf HK. pose proof Hat as (_ & _ & _ & Hnd).
  assert (NoDup (n :: A ++ e :: B)) as Hnd'.
  { apply NoDup_cons in Hnd as [_ Hnd]. revert Hnd. destruct Hin as [-> | ->].
    - intros Hnd. apply (NoDup_Permutation_proper _ (A ++ e :: n :: B)); [solve_Permutation|done].
    - by rewrite <-Permutation_middle. }
  subst t. eapply unlink_balance_ok; [done..|]. intros h1 Hat1 Hn1 Hfr1.
  apply NoDup_cons in Hnd' as [Hnout Hnd'].
  assert (n ≠ e) as Hne by (intros ->; apply Hnout; set_solver).
  rewrite decide_False by done.
  destruct (in_plug (fix_rem c child) e) as (c2 & l2 & b2 & r2 & Heq2).
  { rewrite inorder_fix_rem, Hin1. set_solver. }
  assert (A = ctx_left c2 ++ inorder l2 ∧ B = inorder r2 ++ ctx_right c2) as [HA HB].
  { apply (app_cons_inj _ _ _ _ e); [done|]. rewrite <-Hin1, <-inorder_fix_rem, Heq2, inorder_plug.
    simpl. by rewrite <-!app_assoc. }
  rewrite Heq2 in Hat1. destruct (focus_links _ _ _ _ _ _ _ Hat) as (Hn0 & Hlkn & _).
  assert (n ∉ Root Tree :: inorder (plug c2 (T l2 e b2 r2))) as Hnout'.
  { rewrite <-Heq2, inorder_fix_rem, Hin1, elem_of_cons. intros [->|?]; [|done].
    apply NoDup_cons in Hnd as [Hnd _]. apply Hnd. rewrite inorder_plug_node. by apply elem_of_cons; left. }
  apply wp_bind, (replace_subject_ok h1 c2 l2 e b2 r2 n); [done|done|by rewrite Hn1|done|].
  intros h2 Hat2 Hfr2. apply wp_ret, (HK h2 (plug c2 (T l2 n b2 r2))). split; [done| | |].
  - pose proof (fix_rem_avl c child (pending_unlink _ _ _ _ _ _ Havl Hoc)) as Havl2.
    rewrite Heq2 in Havl2. apply avl_plug in Havl2. by apply avl_plug.
  - assert (inorder (plug c2 (T l2 n b2 r2)) = A ++ n :: B) as ->.
    { rewrite HA, HB, inorder_plug. simpl. by rewrite <-!app_assoc. }
    destruct Hin as [-> | ->]; [by exists A, (n :: B)|]. exists (A ++ [n]), B. by rewrite <-!app_assoc.
  - intros x Hx. rewrite Hfr2, Hfr1; [done|done|]. rewrite <-Heq2, inorder_fix_rem.
    rewrite inorder_plug_only_child, !elem_of_cons in Hx by done. rewrite !elem_of_cons. tauto.
Qed.

Lemma remove_ok h t e fuel (K : PH_AVL_TREE → heap → Prop) :
  tree_at h Tree t → avl t → e ∈ inorder t → height t < Z.of_nat fuel →
  (∀ h' t', removed h t e h' t' → K after_remove h') →
  wp (PhRemoveElementAvlTree fuel Tree e) K h.
Proof using Type.
  intros Hat Havl Hin Hf HK. destruct (in_plug t e Hin) as (c & l & b & r & ->).
  pose proof (length_ctx c (T l e b r)) as Hlen.
  pose proof (height_nonneg (T l e b r)).
  destruct l as [|ll la lb lr]; [eapply remove_direct_ok; try done; [by left|lia]|].
  destruct r as [|rl ra rb rr]; [eapply remove_direct_ok; try done; [by right|lia]|].
  unfold PhRemoveElementAvlTree, remove_candidate.
  destruct (focus_links _ _ _ _ _ _ _ Hat) as (He & Hlk & [Hla _] & [Hra _]).
  apply wp_bind. hstep. cbn [Left Right Balance ptr_of].
  assert (Z.of_nat (length c) + height (T (T ll la lb lr) e b (T rl ra rb rr)) < Z.of_nat fuel) as Hlf by lia.
  cbn [height] in Hlf.
  pose proof (height_nonneg ll). pose proof (height_nonneg lr).
  pose proof (height_nonneg rl). pose proof (height_nonneg rr).
  rewrite decide_False by tauto. destruct (0 <=? b).
  - pose proof (left_spine_plug rl ra rb rr (Frame SRight e b (T ll la lb lr) :: c)) as Hsp.
    apply (leftmost_ok h (Frame SRight e b (T ll la lb lr) :: c) rl ra rb rr); [done|lia|].
    destruct (left_spine _ _ _ _ _) as [c' [[n bn] rn]]. cbn [fst snd].
    destruct Hsp as (Hplug & Hleft & Hlen').
    eapply (remove_swap_ok h c' E n bn rn rn _ e (ctx_left c ++ inorder (T ll la lb lr)) (inorder rn ++ ctx_right c'));
      [symmetry; exact Hplug|done|done|by left| | |simpl length in Hlen'; lia|done].
    + rewrite inorder_plug, Hleft. simpl. by rewrite <-!app_assoc.
    + left. change (plug c _) with (plug (Frame SRight e b (T ll la lb lr) :: c) (T rl ra rb rr)).
      rewrite <-Hplug, inorder_plug, Hleft. simpl. by rewrite <-!app_assoc.
  - pose proof (right_spine_plug ll la lb lr (Frame SLeft e b (T rl ra rb rr) :: c)) as Hsp.
    apply (rightmost_ok h (Frame SLeft e b (T rl ra rb rr) :: c) ll la lb lr); [done|lia|].
    destruct (right_spine _ _ _ _ _) as [c' [[n bn] ln]]. cbn [fst snd].
    destruct Hsp as (Hplug & Hright & Hlen').
    eapply (remove_swap_ok h c' ln n bn E ln _ e (ctx_left c' ++ inorder ln) (inorder (T rl ra rb rr) ++ ctx_right c));
      [symmetry; exact Hplug|done|done|by right| | |simpl length in Hlen'; lia|done].
    + rewrite inorder_plug, Hright. simpl. by rewrite <-!app_assoc.
    + right. change (plug c _) with (plug (Frame SLeft e b (T rl ra rb rr) :: c) (T ll la lb lr)).
      rewrite <-Hplug, inorder_plug, Hright. simpl. by rewrite <-!app_assoc.
Qed.
End Remove.

(** ** Bound searches *)

(** The first element that satisfies [p], the last one that satisfies [q], found
    by a descent that is right when [p] and [q] are monotone along the tree. *)
Fixpoint first_sat (p : ptr → bool) (t : tree) (d : ptr) : ptr :=
  match t with
  | E => d
  | T l a _ r => if p a then first_sat p l a else first_sat p r d
  end.

Fixpoint last_sat (q : ptr → bool) (t : tree) (d : ptr) : ptr :=
  match t with
  | E => d
  | T l a _ r => if q a then last_sat q r a else last_sat q l d
  end.

Section Bounds.
Context (R : ptr → ptr → Prop).

Lemma first_sat_filter (p : ptr → bool) t d :
  StronglySorted R (inorder t) → (∀ x y, R x y → p x → p y) →
  first_sat p t d = default d (head (filter p (inorder t))).
Proof using Type.
  intros Hs Hp. revert d Hs. induction t as [|l IHl a b r IHr]; intros d Hs; simpl; [done|].
  simpl in Hs. apply StronglySorted_app in Hs as (Hla & Hl & [Har Hr]%StronglySorted_cons).
  rewrite filter_app, filter_cons. destruct (p a) eqn:Hpa.
  - case_decide as Hd; [clear Hd|by destruct Hd]. rewrite IHl by done.
    by destruct (filter p (inorder l)).
  - case_decide as Hd; [by destruct Hd|clear Hd]. rewrite IHr by done.
    assert (filter p (inorder l) = []) as ->; [|done].
    apply filter_none. intros x Hx Hpx.
    specialize (Hp x a (Hla x a Hx ltac:(set_solver)) Hpx). by rewrite Hpa in Hp.
Qed.

Lemma last_sat_filter (q : ptr → bool) t d :
  StronglySorted R (inorder t) → (∀ x y, R x y → q y → q x) →
  last_sat q t d = default d (last (filter q (inorder t))).
Proof using Type.
  intros Hs Hq. revert d Hs. induction t as [|l IHl a b r IHr]; intros d Hs; simpl; [done|].
  simpl in Hs. apply StronglySorted_app in Hs as (Hla & Hl & [Har Hr]%StronglySorted_cons).
  rewrite filter_app, filter_cons, last_app. destruct (q a) eqn:Hqa.
  - case_decide as Hd; [clear Hd|by destruct Hd]. rewrite IHr by done.
    rewrite last_cons. by destruct (last (filter q (inorder r))).
  - case_decide as Hd; [by destruct Hd|clear Hd]. rewrite IHl by done.
    assert (filter q (inorder r) = []) as ->; [|done].
    apply filter_none. intros x Hx Hqx.
    rewrite Forall_forall in Har. specialize (Hq a x (Har x Hx) Hqx). by rewrite Hqa in Hq.
Qed.
End Bounds.

(** The four descents follow [first_sat] and [last_sat]. *)
Section BoundLoops.
Context (Tree : PH_AVL_TREE) (e : ptr) (h : heap).
Abbreviation cmp := (CompareFunction Tree).

Ltac bound_loop par t d fuel :=
  let IH := fresh "IH" in
  revert par t d; induction fuel as [|fuel IH]; intros par t d; intros Hrep Hf HK;
    [pose proof (height_nonneg t); lia|]; simpl;
  destruct t as [|l a b r]; [rewrite decide_True by done; by apply wp_ret|];
  destruct Hrep as (Ha & Hlk & Hl & Hr); simpl in *; rewrite decide_False by done;
  match goal with |- wp (if ?test then _ else _) _ _ => destruct test end;
  hstep; eapply IH; (eassumption || lia).

Lemma lower_bound_loop_ok par t d fuel (K : ptr → heap → Prop) :
  rep h par t → height t < Z.of_nat fuel →
  K (first_sat (λ x, negb (0 <? cmp e x)) t d) h → wp (lower_bound_loop fuel Tree e (ptr_of t) d) K h.
Proof using Type. bound_loop par t d fuel. Qed.

Lemma upper_bound_loop_ok par t d fuel (K : ptr → heap → Prop) :
  rep h par t → height t < Z.of_nat fuel →
  K (first_sat (λ x, negb (0 <=? cmp e x)) t d) h → wp (upper_bound_loop fuel Tree e (ptr_of t) d) K h.
Proof using Type. bound_loop par t d fuel. Qed.

Lemma lower_dual_bound_loop_ok par t d fuel (K : ptr → heap → Prop) :
  rep h par t → height t < Z.of_nat fuel →
  K (last_sat (λ x, 0 <? cmp e x) t d) h → wp (lower_dual_bound_loop fuel Tree e (ptr_of t) d) K h.
Proof using Type. bound_loop par t d fuel. Qed.

Lemma upper_dual_bound_loop_ok par t d fuel (K : ptr → heap → Prop) :
  rep h par t → height t < Z.of_nat fuel →
  K (last_sat (λ x, 0 <=? cmp e x) t d) h → wp (upper_dual_bound_loop fuel Tree e (ptr_of t) d) K h.
Proof using Type. bound_loop par t d fuel. Qed.

End BoundLoops.

(** ** Minimum, maximum and traversal *)

Section Traversal.
Context (Tree : PH_AVL_TREE).

Lemma left_spine_head l a b r c :
  inorder (T l a b r) = (left_spine l a b r c).2.1.1 :: tail (inorder (T l a b r)).
Proof using Type.
  revert a b r c. induction l as [|l IHl a' b' r' _]; intros a b r c; [done|].
  cbn [left_spine]. specialize (IHl a' b' r' (Frame SLeft a b r :: c)).
  change (inorder (T (T l a' b' r') a b r)) with (inorder (T l a' b' r') ++ a :: inorder r).
  by rewrite IHl at 1 2.
Qed.

Lemma right_spine_last l a b r c :
  last (inorder (T l a b r)) = Some (right_spine l a b r c).2.1.1.
Proof using Type.
  revert l a b c. induction r as [|l' _ a' b' r IHr]; intros l a b c.
  - simpl. by rewrite last_snoc.
  - cbn [right_spine]. rewrite <-(IHr l' a' b' (Frame SRight a b l :: c)).
    change (inorder (T l a b (T l' a' b' r))) with (inorder l ++ a :: inorder (T l' a' b' r)).
    rewrite last_app, last_cons. by rewrite (IHr l' a' b' (Frame SRight a b l :: c)).
Qed.

Lemma minimum_ok h t fuel (K : ptr → heap → Prop) :
  tree_at h Tree t → height t < Z.of_nat fuel →
  K (default NULL (head (inorder t))) h → wp (PhMinimumElementAvlTree fuel Tree) K h.
Proof using Type.
  intros Hat Hf HK. pose proof Hat as (Hr & Hlk & Hrep & _).
  unfold PhMinimumElementAvlTree, PhRootElementAvlTree. hstep. case_decide as Hn.
  - apply (ptr_of_nonnull h (Root Tree)) in Hn as ->; [|done]. by apply wp_ret.
  - destruct t as [|l a b r]; [done|]. pose proof (height_nonneg r). simpl in Hf.
    apply (leftmost_ok Tree h [] l a b r); [done|lia|].
    by rewrite (left_spine_head l a b r []) in HK.
Qed.

Lemma maximum_ok h t fuel (K : ptr → heap → Prop) :
  tree_at h Tree t → height t < Z.of_nat fuel →
  K (default NULL (last (inorder t))) h → wp (PhMaximumElementAvlTree fuel Tree) K h.
Proof using Type.
  intros Hat Hf HK. pose proof Hat as (Hr & Hlk & Hrep & _).
  unfold PhMaximumElementAvlTree, PhRootElementAvlTree. hstep. case_decide as Hn.
  - apply (ptr_of_nonnull h (Root Tree)) in Hn as ->; [|done]. by apply wp_ret.
  - destruct t as [|l a b r]; [done|]. pose proof (height_nonneg l). simpl in Hf.
    apply (rightmost_ok Tree h [] l a b r); [done|lia|].
    by rewrite (right_spine_last l a b r []) in HK.
Qed.

(** Up to the first ancestor that has the focus on its left; the sentinel holds
    the root in [Right], so that the climb ends above it at NULL. *)
Lemma climb_from_right_ok h c t fuel (K : ptr → heap → Prop) :
  tree_at h Tree (plug c t) → t ≠ E → (length c + 2 ≤ fuel)%nat →
  K (default NULL (head (ctx_right c))) h →
  wp (climb_from_right fuel (ptr_of t) (ctx_parent (Root Tree) c)) K h.
Proof using Type.
  revert t fuel. induction c as [|f c IH]; intros t fuel Hat HtE Hf HK.
  - destruct fuel as [|[|fuel]]; [simpl in Hf; lia..|].
    destruct Hat as (Hr & Hlk & _). cbn [ctx_parent climb_from_right].
    rewrite decide_False by done. hstep. rewrite decide_True by done. hstep.
    rewrite decide_True by done. by apply wp_ret.
  - destruct fuel as [|fuel]; [simpl in Hf; lia|].
    destruct (parent_links Tree h (f :: c) t Hat) as (HP & lp & Hlp & Hch & Hne).
    cbn [climb_from_right]. rewrite decide_False by done. hstep.
    pose proof Hat as (Hr & Hlk & Hrep & Hnd).
    apply rep_plug in Hrep as [(Ha & Hlf & Hs & Hc) Ht]. cbn [ctx_parent] in Hlp. simplify_eq.
    cbn [ctx_side ctx_right] in *. unfold frame_links in *. destruct (fside f) eqn:Hside; simpl in *.
    + rewrite decide_False. { by apply wp_ret. }
      intros Heq. apply focus_nodup in Hnd as (_ & _ & _ & _ & Hct & _).
      destruct (fsib f) as [|l' a' b' r'] eqn:Hsib.
      { simpl in Heq. symmetry in Heq. by apply HtE, (ptr_of_nonnull h (faddr f)). }
      apply (Hct (ptr_of t)); [|by apply ptr_of_in].
      unfold rest. rewrite Hsib, <-Heq. simpl. rewrite !elem_of_app, elem_of_cons. auto.
    + rewrite decide_True by done. hstep.
      rewrite <-(ptr_of_plug1 f t). apply IH; [done| |lia|done]. unfold plug1. by rewrite Hside.
Qed.

(** What the climb from the left side reaches: the nearest ancestor that has the
    focus on its right, the sentinel for the nodes of the left spine. *)
Definition left_ancestor (c : list frame) : ptr := default (Root Tree) (last (ctx_left c)).

Lemma climb_from_left_ok h c t fuel (K : ptr → heap → Prop) :
  tree_at h Tree (plug c t) → t ≠ E → (length c + 1 ≤ fuel)%nat →
  K (left_ancestor c) h →
  wp (climb_from_left fuel (ptr_of t) (ctx_parent (Root Tree) c)) K h.
Proof using Type.
  revert t fuel. induction c as [|f c IH]; intros t fuel Hat HtE Hf HK;
    (destruct fuel as [|fuel]; [simpl in Hf; lia|]).
  - destruct Hat as (Hr & Hlk & Hrep & _). cbn [ctx_parent climb_from_left].
    rewrite decide_False by done. hstep. rewrite decide_False; [by apply wp_ret|].
    intros Hn. symmetry in Hn. by apply HtE, (ptr_of_nonnull h (Root Tree)).
  - destruct (parent_links Tree h (f :: c) t Hat) as (HP & lp & Hlp & Hch & Hne).
    cbn [climb_from_left]. rewrite decide_False by done. hstep.
    pose proof Hat as (Hr & Hlk & Hrep & Hnd).
    apply rep_plug in Hrep as [(Ha & Hlf & Hs & Hc) Ht]. cbn [ctx_parent] in Hlp. simplify_eq.
    unfold left_ancestor in HK.
    cbn [ctx_side ctx_left] in *. unfold frame_links in *. destruct (fside f) eqn:Hside; simpl in *.
    + rewrite decide_True by done. hstep.
      rewrite <-(ptr_of_plug1 f t). apply IH; [done| |lia|done]. unfold plug1. by rewrite Hside.
    + rewrite app_assoc, last_snoc in HK. specialize (Hne eq_refl HtE).
      rewrite decide_False by done. by apply wp_ret.
Qed.

Lemma successor_ok h c l e b r fuel (K : ptr → heap → Prop) :
  tree_at h Tree (plug c (T l e b r)) → height (plug c (T l e b r)) + 2 ≤ Z.of_nat fuel →
  K (default NULL (head (inorder r ++ ctx_right c))) h →
  wp (PhSuccessorElementAvlTree fuel e) K h.
Proof using Type.
  intros Hat Hf HK. pose proof (length_ctx c (T l e b r)) as Hlen.
  destruct (focus_links _ _ _ _ _ _ _ Hat) as (He & Hlk & Hl & Hr).
  pose proof (height_nonneg (T l e b r)). unfold PhSuccessorElementAvlTree. hstep. case_decide as Hn.
  - apply (ptr_of_nonnull h e) in Hn as ->; [|done]. hstep.
    apply (climb_from_right_ok h c (T l e b E)); [done|done|lia|done].
  - destruct r as [|rl ra rb rr]; [done|]. pose proof (height_nonneg l). pose proof (height_nonneg rr).
    cbn [height] in Hlen.
    apply (leftmost_ok Tree h (Frame SRight e b l :: c) rl ra rb rr); [done|lia|].
    by rewrite (left_spine_head rl ra rb rr (Frame SRight e b l :: c)) in HK.
Qed.

Lemma predecessor_ok h c l e b r fuel (K : ptr → heap → Prop) :
  tree_at h Tree (plug c (T l e b r)) → height (plug c (T l e b r)) + 2 ≤ Z.of_nat fuel →
  K (default NULL (last (ctx_left c ++ inorder l))) h →
  wp (PhPredecessorElementAvlTree fuel e) K h.
Proof using Type.
  intros Hat Hf HK. pose proof (length_ctx c (T l e b r)) as Hlen.
  destruct (focus_links _ _ _ _ _ _ _ Hat) as (He & Hlk & Hl & Hr).
  pose proof (height_nonneg (T l e b r)). unfold PhPredecessorElementAvlTree. hstep. case_decide as Hn.
  - apply (ptr_of_nonnull h e) in Hn as ->; [|done]. hstep.
    apply wp_bind, (climb_from_left_ok h c (T E e b r)); [done|done|lia|].
    cbn [inorder] in HK. rewrite app_nil_r in HK. unfold left_ancestor.
    pose proof Hat as (HR & HlkR & Hrep & _).
    destruct (last (ctx_left c)) as [p|] eqn:Hlast; simpl in *.
    + assert (p ∈ inorder (plug c (T E e b r))) as Hin.
      { rewrite inorder_plug, elem_of_app. left. by apply last_Some_elem_of. }
      destruct (in_plug _ _ Hin) as (c' & l' & b' & r' & Heq). rewrite Heq in Hat.
      destruct (focus_links _ _ _ _ _ _ _ Hat) as (Hp & Hlkp & _).
      destruct (parent_links _ _ _ _ Hat) as (HPp & _).
      rewrite decide_False by done. hstep. rewrite decide_False by done. by apply wp_ret.
    + rewrite decide_False by done. hstep. rewrite decide_True by done. by apply wp_ret.
  - destruct l as [|ll la lb lr]; [done|]. pose proof (height_nonneg r). pose proof (height_nonneg ll).
    cbn [height] in Hlen.
    apply (rightmost_ok Tree h (Frame SLeft e b r :: c) ll la lb lr); [done|lia|].
    by rewrite last_app, (right_spine_last ll la lb lr (Frame SLeft e b r :: c)) in HK.
Qed.
End Traversal.

(** ** Enumeration *)

Definition trav (order : PH_TREE_ENUMERATION_ORDER) (t : tree) : list ptr :=
  match order with
  | TreeEnumerateInOrder => inorder t
  | TreeEnumerateInReverseOrder => reverse (inorder t)
  end.

(** The callback is run on the elements in turn until it returns FALSE. *)
Fixpoint fold_until {C} (Callback : ptr → C → bool * C) (l : list ptr) (ctx : C) : C :=
  match l with
  | [] => ctx
  | x :: l =>
      let '(continue, ctx) := Callback x ctx in
      if negb continue then ctx else fold_until Callback l ctx
  end.

Definition first_child (order : PH_TREE_ENUMERATION_ORDER) (l r : tree) : tree :=
  match order with TreeEnumerateInOrder => l | TreeEnumerateInReverseOrder => r end.

Definition second_child (order : PH_TREE_ENUMERATION_ORDER) (l r : tree) : tree :=
  match order with TreeEnumerateInOrder => r | TreeEnumerateInReverseOrder => l end.

Section Enumeration.
Context (order : PH_TREE_ENUMERATION_ORDER) (h : heap).

Lemma trav_node l a b r :
  trav order (T l a b r) = trav order (first_child order l r) ++ a :: trav order (second_child order l r).
Proof using Type.
  unfold trav, first_child, second_child. destruct order; simpl; [done|].
  rewrite reverse_app, reverse_cons. by rewrite <-app_assoc.
Qed.

(** The stack holds nodes whose element and second subtree are still to come;
    each leaves room for the spine of that subtree. *)
Fixpoint stack_rep (stack : list ptr) (ts : list tree) : Prop :=
  match stack, ts with
  | [], [] => True
  | p :: stack, t :: ts =>
      p = ptr_of t ∧ t ≠ E ∧ (∃ par, rep h par t) ∧
      Z.of_nat (length stack) + height t ≤ Z.of_nat stack_size ∧ stack_rep stack ts
  | _, _ => False
  end.

Fixpoint pending_list (ts : list tree) : list ptr :=
  match ts with
  | [] => []
  | E :: ts => pending_list ts
  | T l a b r :: ts => a :: trav order (second_child order l r) ++ pending_list ts
  end.

Lemma stack_rep_length stack ts : stack_rep stack ts → length stack = length ts.
Proof using Type.
  revert ts. induction stack as [|p stack IH]; intros [|t ts]; simpl; try done.
  intros (_ & _ & _ & _ & Hs). by rewrite (IH _ Hs).
Qed.

Lemma push_spine_ok fuel par t stack ts (K : list ptr → heap → Prop) :
  rep h par t → height t < Z.of_nat fuel →
  Z.of_nat (length stack) + height t ≤ Z.of_nat stack_size →
  stack_rep stack ts →
  (∀ stack' ts', stack_rep stack' ts' → pending_list ts' = trav order t ++ pending_list ts → K stack' h) →
  wp (push_spine fuel order (ptr_of t) stack) K h.
Proof using Type.
  revert par t stack ts. induction fuel as [|fuel IH]; intros par t stack ts Hrep Hf Hsz Hst HK.
  { pose proof (height_nonneg t). lia. }
  destruct t as [|l a b r]; cbn [push_spine ptr_of].
  { rewrite decide_True by done. apply wp_ret, (HK stack ts); [done|]. by destruct order. }
  pose proof Hrep as (Ha & Hlk & Hl & Hr). rewrite decide_False by done. unfold push. apply wp_bind.
  pose proof (height_nonneg l). pose proof (height_nonneg r). cbn [height] in Hf, Hsz.
  rewrite decide_True by lia. apply wp_ret.
  assert (∃ par', rep h par' (first_child order l r)) as [par' Hrep'] by (unfold first_child, second_child; destruct order; eauto).
  assert (height (first_child order l r) ≤ Z.max (height l) (height r)) by (unfold first_child, second_child; destruct order; lia).
  apply wp_bind. apply (wp_mono _ (λ p h', p = ptr_of (first_child order l r) ∧ h' = h)).
  { destruct order; hstep; by split. }
  intros p h' [-> ->]. apply (IH par' _ _ (T l a b r :: ts)); [done|lia|simpl length; lia| |].
  - split_and!; [done|done|by exists par|cbn [height]; lia|done].
  - intros stack' ts' Hst' Hp'. apply (HK stack' ts' Hst'). rewrite Hp', trav_node.
    cbn [pending_list]. by rewrite <-app_assoc.
Qed.

Lemma enum_loop_ok {C} (Callback : ptr → C → bool * C) fuel depth stack ts ctx (K : C → heap → Prop) :
  stack_rep stack ts → (length (pending_list ts) < fuel)%nat → (stack_size < depth)%nat →
  K (fold_until Callback (pending_list ts) ctx) h →
  wp (enum_loop Callback fuel depth order stack ctx) K h.
Proof using Type.
  revert stack ts ctx. induction fuel as [|fuel IH]; intros stack ts ctx Hst Hf Hd HK; [lia|].
  destruct stack as [|p stack], ts as [|t ts]; try done; [by apply wp_ret|].
  destruct Hst as (-> & HtE & (par & Hrep) & Hsz & Hst). destruct t as [|l a b r]; [done|].
  cbn [enum_loop ptr_of pending_list fold_until] in *.
  destruct (Callback a ctx) as [continue ctx']. destruct continue; cbn [negb] in *; [|by apply wp_ret].
  pose proof Hrep as (Ha & Hlk & Hl & Hr).
  pose proof (height_nonneg l). pose proof (height_nonneg r). cbn [height] in Hsz.
  assert (∃ par', rep h par' (second_child order l r)) as [par' Hrep'] by (unfold first_child, second_child; destruct order; eauto).
  assert (height (second_child order l r) ≤ Z.max (height l) (height r)) by (unfold first_child, second_child; destruct order; lia).
  apply wp_bind. apply (wp_mono _ (λ p h', p = ptr_of (second_child order l r) ∧ h' = h)).
  { destruct order; hstep; by split. }
  intros p h' [-> ->]. apply wp_bind, (push_spine_ok _ par' _ _ ts); [done|lia|lia|done|].
  intros stack' ts' Hst' Hp'. apply (IH _ ts'); [done| |done|by rewrite Hp'].
  rewrite Hp'. simpl in Hf. lia.
Qed.
End Enumeration.

(** ** Height *)

(** [min_size n] is the least number of elements of a balanced tree of height
    [n]: the Fibonacci-like sequence 0, 1, 2, 4, 7, ... *)
Fixpoint min_size2 (n : nat) : Z * Z :=
  match n with
  | O => (0, 1)
  | S n => let '(x, y) := min_size2 n in (y, x + y + 1)
  end.

Definition min_size (n : nat) : Z := (min_size2 n).1.

Lemma min_size_SS n : min_size (S (S n)) = min_size (S n) + min_size n + 1.
Proof. unfold min_size. simpl. destruct (min_size2 n) as [x y]. simpl. lia. Qed.

Lemma min_size_S_le n : 0 ≤ min_size n ≤ min_size (S n).
Proof.
  induction n as [|n IH]; [done|]. rewrite min_size_SS. lia.
Qed.

Lemma min_size_mono n m : (n ≤ m)%nat → min_size n ≤ min_size m.
Proof. induction 1 as [|m _ IH]; [done|]. pose proof (min_size_S_le m). lia. Qed.

Lemma avl_min_size t : avl t → min_size (Z.to_nat (height t)) ≤ Z.of_nat (length (inorder t)).
Proof.
  induction t as [|l IHl a b r IHr]; [done|]. intros (Hl & Hr & Hb & Hb1).
  specialize (IHl Hl). specialize (IHr Hr). pose proof (height_nonneg l). pose proof (height_nonneg r).
  cbn [height inorder]. rewrite length_app. cbn [length].
  assert (∀ n m, (n ≤ S m)%nat → (m ≤ S n)%nat → min_size (S (Nat.max n m)) ≤ min_size n + min_size m + 1) as Hmax.
  { intros n m H1 H2. destruct (Nat.lt_trichotomy n m) as [?|[->|?]].
    - assert (m = S n) as -> by lia. rewrite Nat.max_r, min_size_SS by lia. lia.
    - rewrite Nat.max_id. destruct m as [|m]; [done|]. rewrite min_size_SS.
      pose proof (min_size_S_le m). lia.
    - assert (n = S m) as -> by lia. rewrite Nat.max_l, min_size_SS by lia. lia. }
  specialize (Hmax (Z.to_nat (height l)) (Z.to_nat (height r)) ltac:(lia) ltac:(lia)).
  replace (Z.to_nat _) with (S (Nat.max (Z.to_nat (height l)) (Z.to_nat (height r)))) by lia. lia.
Qed.

(** A tree whose [Count] fits in a [ULONG] has height at most 45. *)
Lemma avl_height_bound t : avl t → Z.of_nat (length (inorder t)) < 2 ^ 32 → height t ≤ 45.
Proof.
  intros Havl Hn. apply avl_min_size in Havl. destruct (Z.le_gt_cases (height t) 45); [done|].
  pose proof (min_size_mono 46 (Z.to_nat (height t)) ltac:(lia)) as Hm.
  assert (min_size 46 = 4807526975) as Heq by (by vm_compute). lia.
Qed.
