(* ===== verification/AvlTreeTheorems.v ===== *)
(** What the AVL tree of [phlib/avltree.c] promises: the theorems on
    [PhAddElementAvlTree], [PhRemoveElementAvlTree], the searches and the
    enumeration, over the list of elements that the tree stands for. *)

From S2P Require Import Prelude AvlTree AvlTreeFacts AvlTreeCorrect.

(** ** The abstract value of a tree

    [avl_rep h Tree l]: in the heap [h], [Tree] is a balanced search tree whose
    elements are [l] in ascending order, and its [Count] is right. *)
Definition avl_rep (h : heap) (Tree : PH_AVL_TREE) (l : list ptr) : Prop :=
  ∃ t, tree_at h Tree t ∧ avl t ∧ inorder t = l ∧ sorted (CompareFunction Tree) l ∧
    Count Tree = Z.of_nat (length l) ∧ Z.of_nat (length l) < 2 ^ 32.

(** An element that may be linked: its memory exists and is not in use by the
    tree. *)
Definition fresh (h : heap) (Tree : PH_AVL_TREE) (l : list ptr) (e : ptr) : Prop :=
  e ≠ NULL ∧ is_Some (h !! e) ∧ e ∉ Root Tree :: l.

(** Fuel for the loops: a tree whose [Count] fits in a [ULONG] is at most 45
    levels high. *)
Definition avl_fuel : nat := 47.

Lemma avl_rep_height h Tree l :
  avl_rep h Tree l →
  ∃ t, tree_at h Tree t ∧ avl t ∧ inorder t = l ∧ height t ≤ 45.
Proof.
  intros (t & Hat & Havl & <- & _ & _ & Hn). exists t. split_and!; [done..|].
  by apply avl_height_bound.
Qed.

Lemma sorted_insert cmp `{!CompareOk cmp} l1 l2 e :
  sorted cmp (l1 ++ l2) → (∀ x, x ∈ l1 → lt cmp x e) → (∀ x, x ∈ l2 → lt cmp e x) →
  sorted cmp (l1 ++ e :: l2).
Proof.
  rewrite !sorted_app, sorted_cons. intros (H12 & H1 & H2) Hl Hr. split_and!; [|done|done|done].
  intros x y Hx. rewrite elem_of_cons. intros [->|Hy]; auto.
Qed.

Lemma sorted_delete cmp l1 l2 e : sorted cmp (l1 ++ e :: l2) → sorted cmp (l1 ++ l2).
Proof.
  rewrite !sorted_app, sorted_cons. intros (H12 & H1 & H2 & _). split_and!; [|done|done].
  intros x y Hx Hy. apply H12; [done|]. apply elem_of_cons. by right.
Qed.

(** In a sorted list no two elements compare equal. *)
Lemma sorted_equal cmp `{!CompareOk cmp} l x y :
  sorted cmp l → x ∈ l → y ∈ l → cmp x y = 0 → x = y.
Proof.
  induction l as [|z l IH]; [by intros _ ?%elem_of_nil|].
  rewrite sorted_cons, !elem_of_cons. intros [Hs Hz] [->|Hx] [->|Hy] Heq; [done| | |auto].
  - specialize (Hz y Hy). unfold lt in Hz. lia.
  - specialize (Hz x Hx). apply cmp_sym0 in Heq; [|done]. unfold lt in Hz. lia.
Qed.

(** ** The comparison used by the witnesses *)

#[export] Instance compare_sub_ok : CompareOk Z.sub.
Proof. split; intros; lia. Qed.

(** A tree of three elements and a spare one, built by the code itself. *)
Definition sample_memory : heap :=
  list_to_map (map (λ p, (p, Links 7 7 7 7)) [10; 20; 30; 40; 100]).

Definition sample_tree : PH_AVL_TREE := AvlTree 100 3 Z.sub.

Definition sample_heap : heap :=
  match (T ← PhInitializeAvlTree 100 Z.sub; '(_, T) ← PhAddElementAvlTree avl_fuel T 10;
         '(_, T) ← PhAddElementAvlTree avl_fuel T 20; '(_, T) ← PhAddElementAvlTree avl_fuel T 30;
         mret T) sample_memory with
  | Some (_, h) => h
  | None => ∅
  end.

Lemma sample_rep : avl_rep sample_heap sample_tree [10; 20; 30].
Proof.
  exists (T (T E 10 0 E) 20 0 (T E 30 0 E)). split_and!; [|by vm_compute; split_and!|done| |done|done].
  - split_and!; [done|by vm_compute| |by repeat (constructor; [set_solver|]); constructor].
    by repeat (split; [done || by vm_compute|]).
  - repeat (constructor; try done).
Qed.

(** ** The specification: a sorted list

    An addition returns the element that compares equal and leaves the list
    alone, or inserts the element between the smaller and the bigger ones. *)
Definition spec_find (cmp : ptr → ptr → Z) (e : ptr) (l : list ptr) : option ptr :=
  head (filter (λ x, cmp e x = 0) l).

Definition spec_insert (cmp : ptr → ptr → Z) (e : ptr) (l : list ptr) : list ptr :=
  filter (λ x, 0 < cmp e x) l ++ e :: filter (λ x, cmp e x < 0) l.

Definition spec_add (cmp : ptr → ptr → Z) (e : ptr) (l : list ptr) : ptr * list ptr :=
  match spec_find cmp e l with
  | Some x => (x, l)
  | None => (NULL, spec_insert cmp e l)
  end.

Definition spec_remove (e : ptr) (l : list ptr) : list ptr := filter (λ x, x ≠ e) l.

Lemma spec_find_Some cmp e l x :
  spec_find cmp e l = Some x → x ∈ l ∧ cmp e x = 0.
Proof.
  unfold spec_find. intros Hx%head_Some_elem_of. by apply list_elem_of_filter in Hx as [??].
Qed.

Lemma spec_find_None cmp e l x : spec_find cmp e l = None → x ∈ l → cmp e x ≠ 0.
Proof.
  unfold spec_find. intros Hnone%head_None Hx Heq.
  apply (not_elem_of_nil x). rewrite <-Hnone. by apply list_elem_of_filter.
Qed.

(** Where a sorted list splits is given by the comparisons. *)
Lemma spec_insert_split cmp `{!CompareOk cmp} e l1 l2 :
  sorted cmp (l1 ++ e :: l2) → spec_insert cmp e (l1 ++ l2) = l1 ++ e :: l2.
Proof.
  rewrite sorted_app, sorted_cons. intros (H12 & _ & _ & Hr).
  assert (∀ x, x ∈ l1 → 0 < cmp e x) as Hl.
  { intros x Hx. apply cmp_antisym. apply (H12 x e); [done|]. apply elem_of_cons. by left. }
  unfold spec_insert. rewrite !filter_app, (filter_none _ l2), (filter_none (λ x, cmp e x < 0) l1), app_nil_r.
  - by rewrite !filter_all.
  - intros x Hx. specialize (Hl x Hx). lia.
  - intros x Hx. specialize (Hr x Hx). unfold lt in Hr. lia.
Qed.

Lemma spec_remove_split e l1 l2 :
  NoDup (l1 ++ e :: l2) → spec_remove e (l1 ++ e :: l2) = l1 ++ l2.
Proof.
  rewrite NoDup_app, NoDup_cons. intros (_ & H12 & Hr & _). unfold spec_remove.
  rewrite filter_app, filter_cons_False by tauto.
  rewrite !filter_all; [done| |].
  - intros x Hx ->. done.
  - intros x Hx ->. apply (H12 e Hx). apply elem_of_cons. by left.
Qed.

Section Operations.
Context (h : heap) (Tree : PH_AVL_TREE) (l : list ptr) (fuel : nat).

(** An element that compares equal to none is inserted at its place. *)
Lemma add_new (e : ptr) :
  CompareOk (CompareFunction Tree) → avl_rep h Tree l → fresh h Tree l e →
  (∀ x, x ∈ l → CompareFunction Tree e x ≠ 0) →
  Z.of_nat (length l) + 1 < 2 ^ 32 → (avl_fuel ≤ fuel)%nat →
  ∃ h' Tree' l1 l2,
    PhAddElementAvlTree fuel Tree e h = Some ((NULL, Tree'), h') ∧
    l = l1 ++ l2 ∧ avl_rep h' Tree' (l1 ++ e :: l2) ∧
    Root Tree' = Root Tree ∧ CompareFunction Tree' = CompareFunction Tree ∧
    (∀ x, x ∉ e :: Root Tree :: l → h' !! x = h !! x).
Proof using Type.
  intros Hcmp Hrep (Hne & Hmem & He) Hnew Hsz Hfuel.
  destruct Hrep as (t & Hat & Havl & <- & Hs & Hc & Hn).
  pose proof (avl_height_bound t Havl Hn) as Hh. unfold avl_fuel in Hfuel.
  assert ((descend Tree e t []).2 = E) as HE.
  { destruct (descend Tree e t []).2 eqn:Hd; [done|].
    destruct (descend_equal Tree e t []) as [H0 Hin]; [by rewrite Hd|]. by destruct (Hnew _ Hin). }
  pose proof (plug_descend Tree e t []) as Hplug. rewrite HE in Hplug. change (plug [] t) with t in Hplug.
  destruct (descend_bounds Tree e t [] Hs) as [Hlo Hhi]; [split; by intros ? ?%elem_of_nil|].
  assert (inorder t = ctx_left (descend Tree e t []).1 ++ ctx_right (descend Tree e t []).1) as Hin.
  { rewrite <-Hplug at 1. by rewrite inorder_plug. }
  assert (inorder (tree_add Tree e t) = ctx_left (descend Tree e t []).1 ++ e :: ctx_right (descend Tree e t []).1) as Hin'.
  { unfold tree_add. rewrite inorder_fix_add, inorder_plug. done. }
  assert (∀ A B, length (A ++ e :: B) = S (length (A ++ B))) as Hlen0.
  { intros A B. rewrite !length_app. simpl. lia. }
  pose proof (Hlen0 (ctx_left (descend Tree e t []).1) (ctx_right (descend Tree e t []).1)) as Hlen.
  rewrite <-Hin in Hlen.
  destruct (add_ok Tree e h t fuel (λ r h', r = (NULL, AvlTree (Root Tree) (u32 (Count Tree + 1)) (CompareFunction Tree)) ∧
    tree_at h' Tree (tree_add Tree e t) ∧ ∀ x, x ∉ e :: Root Tree :: inorder t → h' !! x = h !! x))
    as (r & h' & Hrun & -> & Hat' & Hfr); [done..|lia|done|].
  eexists h', _, _, _. split_and!; [exact Hrun|exact Hin| |done|done|exact Hfr].
  exists (tree_add Tree e t). split_and!.
  - exact Hat'.
  - apply fix_add_avl; [|by right]. rewrite <-Hplug in Havl. by apply avl_plug in Havl as [_ ?].
  - done.
  - rewrite Hin in Hs. by apply sorted_insert.
  - rewrite Hlen. simpl. rewrite Hc, u32_small by lia. lia.
  - rewrite Hlen. lia.
Qed.

(** An element that compares equal to one of the tree is not inserted. *)
Lemma add_existing (e x : ptr) :
  CompareOk (CompareFunction Tree) → avl_rep h Tree l →
  x ∈ l → CompareFunction Tree e x = 0 → (avl_fuel ≤ fuel)%nat →
  PhAddElementAvlTree fuel Tree e h = Some ((x, Tree), h).
Proof using Type.
  intros Hcmp (t & Hat & Havl & <- & Hs & Hc & Hn) Hx Heq Hfuel.
  pose proof (avl_height_bound t Havl Hn) as Hh. unfold avl_fuel in Hfuel.
  pose proof (descend_found Tree e t [] Hs x Hx Heq) as Hd.
  apply wp_eq. unfold PhAddElementAvlTree. apply wp_bind, (find_ok Tree e t); [done|lia|].
  unfold find_result. destruct (descend Tree e t []).2; simpl in Hd.
  - destruct Hat as (_ & _ & Hrep & _). by destruct (rep_nonnull _ _ _ _ Hrep Hx).
  - subst a. by apply wp_bind, wp_ret, wp_ret.
Qed.

(** An element of the tree is removed, and every other one keeps its place. *)
Lemma remove_element (e : ptr) :
  avl_rep h Tree l → e ∈ l → (avl_fuel ≤ fuel)%nat →
  ∃ h' Tree' l1 l2,
    PhRemoveElementAvlTree fuel Tree e h = Some (Tree', h') ∧
    l = l1 ++ e :: l2 ∧ avl_rep h' Tree' (l1 ++ l2) ∧
    Root Tree' = Root Tree ∧ CompareFunction Tree' = CompareFunction Tree ∧
    (∀ x, x ∉ Root Tree :: l → h' !! x = h !! x).
Proof using Type.
  intros (t & Hat & Havl & <- & Hs & Hc & Hn) He Hfuel.
  pose proof (avl_height_bound t Havl Hn) as Hh. unfold avl_fuel in Hfuel.
  destruct (remove_ok Tree h t e fuel (λ r h', r = after_remove Tree ∧ ∃ t', removed Tree h t e h' t'))
    as (r & h' & Hrun & -> & t' & [Hat' Havl' (l1 & l2 & Hin & Hin') Hfr]); [done|done|done|lia|by eauto|].
  exists h', (after_remove Tree), l1, l2. split_and!; [done|done| |done|done|done].
  assert (length (inorder t) = S (length (l1 ++ l2))) as Hlen.
  { rewrite Hin, !length_app. simpl. lia. }
  exists t'. split_and!; [done|done|done| | |lia].
  - rewrite Hin in Hs. by eapply sorted_delete.
  - simpl. rewrite Hc, Hlen, u32_small by lia. lia.
Qed.

Lemma add_refines (e : ptr) :
  CompareOk (CompareFunction Tree) → avl_rep h Tree l → (avl_fuel ≤ fuel)%nat →
  (spec_find (CompareFunction Tree) e l = None → fresh h Tree l e ∧ Z.of_nat (length l) + 1 < 2 ^ 32) →
  ∃ h' Tree',
    PhAddElementAvlTree fuel Tree e h = Some (((spec_add (CompareFunction Tree) e l).1, Tree'), h') ∧
    avl_rep h' Tree' (spec_add (CompareFunction Tree) e l).2 ∧
    Root Tree' = Root Tree ∧ CompareFunction Tree' = CompareFunction Tree ∧
    (∀ x, x ∉ e :: Root Tree :: l → h' !! x = h !! x).
Proof using Type.
  intros Hcmp Hrep Hfuel Hnew. unfold spec_add.
  destruct (spec_find _ e l) as [x|] eqn:Hf.
  - apply spec_find_Some in Hf as [Hx Heq]. exists h, Tree.
    split_and!; [by apply add_existing|done..].
  - destruct (Hnew eq_refl) as [Hfresh Hsz].
    destruct (add_new e) as (h' & Tree' & l1 & l2 & Hrun & Heq & Hrep' & HR & HC & Hfr);
      [done|done|done|by intros x; apply spec_find_None|done|done|].
    exists h', Tree'. split_and!; [done| |done..]. cbn [snd]. rewrite Heq, spec_insert_split; [done..|].
    rewrite <-HC. by destruct Hrep' as (? & _ & _ & _ & ? & _).
Qed.

Lemma remove_refines (e : ptr) :
  avl_rep h Tree l → e ∈ l → (avl_fuel ≤ fuel)%nat →
  ∃ h' Tree',
    PhRemoveElementAvlTree fuel Tree e h = Some (Tree', h') ∧ avl_rep h' Tree' (spec_remove e l) ∧
    Root Tree' = Root Tree ∧ CompareFunction Tree' = CompareFunction Tree ∧
    (∀ x, x ∉ Root Tree :: l → h' !! x = h !! x).
Proof using Type.
  intros Hrep He Hfuel.
  destruct (remove_element e) as (h' & Tree' & l1 & l2 & Hrun & Heq & Hrep' & HR & HC & Hfr); [done..|].
  exists h', Tree'. split_and!; [done| |done..].
  destruct Hrep as (t & (_ & _ & _ & [_ Hnd]%NoDup_cons) & _ & Hin & _). rewrite Hin in Hnd.
  rewrite Heq in Hnd. rewrite Heq at 1. by rewrite spec_remove_split.
Qed.
End Operations.

Section Theorems.
Context (h : heap) (Tree : PH_AVL_TREE) (l : list ptr) (fuel : nat).

(** C1. Adding an element refines the specification: the function returns the
    element that compares equal, if there is one, and NULL after inserting the
    element otherwise; the result is a balanced search tree with the right count,
    and no memory outside of the tree and the element is written. *)
Theorem avl_add (e : ptr) :
  CompareOk (CompareFunction Tree) → avl_rep h Tree l → (avl_fuel ≤ fuel)%nat →
  (spec_find (CompareFunction Tree) e l = None → fresh h Tree l e ∧ Z.of_nat (length l) + 1 < 2 ^ 32) →
  ∃ h' Tree',
    PhAddElementAvlTree fuel Tree e h = Some (((spec_add (CompareFunction Tree) e l).1, Tree'), h') ∧
    avl_rep h' Tree' (spec_add (CompareFunction Tree) e l).2 ∧
    Root Tree' = Root Tree ∧ CompareFunction Tree' = CompareFunction Tree ∧
    (∀ x, x ∉ e :: Root Tree :: l → h' !! x = h !! x).
Proof using Type. intros. by apply add_refines. Qed.

(** C2. Removing an element of the tree refines the removal from the list: every
    other element keeps its place, the tree is balanced and its count is one less,
    and no memory outside of the tree is written. *)
Theorem avl_remove (e : ptr) :
  avl_rep h Tree l → e ∈ l → (avl_fuel ≤ fuel)%nat →
  ∃ h' Tree',
    PhRemoveElementAvlTree fuel Tree e h = Some (Tree', h') ∧ avl_rep h' Tree' (spec_remove e l) ∧
    Root Tree' = Root Tree ∧ CompareFunction Tree' = CompareFunction Tree ∧
    (∀ x, x ∉ Root Tree :: l → h' !! x = h !! x).
Proof using Type. intros. by apply remove_refines. Qed.

(** A search returns the element that compares equal, when there is one, and
    NULL otherwise. *)
Theorem avl_find (e : ptr) :
  CompareOk (CompareFunction Tree) → avl_rep h Tree l → (avl_fuel ≤ fuel)%nat →
  PhFindElementAvlTree fuel Tree e h =
    Some (default NULL (head (filter (λ x, CompareFunction Tree e x = 0) l)), h).
Proof using Type.
  intros Hcmp (t & Hat & Havl & <- & Hs & Hc & Hn) Hfuel.
  pose proof (avl_height_bound t Havl Hn) as Hh. unfold avl_fuel in Hfuel.
  apply wp_eq. apply wp_bind, (find_ok Tree e t); [done|lia|].
  pose proof (descend_found Tree e t [] Hs) as Hd. unfold find_result.
  destruct (descend Tree e t []).2 as [|l' a b r] eqn:Hde; simpl in Hd; cbn [snd].
  - rewrite filter_none.
    + unfold side_balance. cbn [fst]. destruct (ctx_side _); simpl; by apply wp_ret.
    + intros x Hx Heq. destruct Hat as (_ & _ & Hrep & _).
      destruct (rep_nonnull _ _ _ _ Hrep Hx). symmetry. by apply Hd.
  - destruct (descend_equal Tree e t []) as [Heq Hin]; [by rewrite Hde|]. rewrite Hde in Heq, Hin.
    rewrite (head_unique _ a); [simpl; by apply wp_ret|by apply list_elem_of_filter|].
    intros x [Hx Hxin]%list_elem_of_filter. symmetry. by apply Hd.
Qed.

(** The four bound searches return the first element that is not smaller than,
    or that is bigger than, the given one, and the last element that is smaller
    than, or not bigger than it; NULL when there is none. *)
Theorem avl_bounds (e : ptr) :
  CompareOk (CompareFunction Tree) → avl_rep h Tree l → (avl_fuel ≤ fuel)%nat →
  PhLowerBoundElementAvlTree fuel Tree e h =
    Some (default NULL (head (filter (λ x, CompareFunction Tree e x ≤ 0) l)), h) ∧
  PhUpperBoundElementAvlTree fuel Tree e h =
    Some (default NULL (head (filter (λ x, CompareFunction Tree e x < 0) l)), h) ∧
  PhLowerDualBoundElementAvlTree fuel Tree e h =
    Some (default NULL (last (filter (λ x, 0 < CompareFunction Tree e x) l)), h) ∧
  PhUpperDualBoundElementAvlTree fuel Tree e h =
    Some (default NULL (last (filter (λ x, 0 ≤ CompareFunction Tree e x) l)), h).
Proof using Type.
  intros Hcmp (t & Hat & Havl & <- & Hs & Hc & Hn) Hfuel.
  pose proof (avl_height_bound t Havl Hn) as Hh. unfold avl_fuel in Hfuel.
  pose proof Hat as (HR & Hlk & Hrep & _). set (cmp := CompareFunction Tree) in *.
  assert (∀ x y, lt cmp x y → cmp e x ≤ 0 → cmp e y < 0) as Hle.
  { intros x y Hxy Hex. by apply (le_lt_trans cmp e x y). }
  assert (∀ x y, lt cmp x y → 0 ≤ cmp e y → 0 < cmp e x) as Hge.
  { intros x y Hxy Hey. apply cmp_antisym, (lt_le_trans cmp x y e); [done|].
    destruct (Z.eq_dec (cmp e y) 0) as [H0|H0]; [apply cmp_sym0 in H0; [lia|done]|].
    assert (0 < cmp e y) as Hlt by lia. apply cmp_antisym in Hlt. lia. }
  split_and!; apply wp_eq; apply wp_bind; unfold PhRootElementAvlTree; hstep.
  - eapply lower_bound_loop_ok; [done|lia|]. split; [|done].
    rewrite (first_sat_filter (lt cmp)); [|done|].
    + f_equal. f_equal. apply list_filter_iff. intros x. fold cmp. destruct (Z.ltb_spec 0 (cmp e x)); simpl; lia.
    + intros x y Hxy. specialize (Hle x y Hxy). fold cmp.
      destruct (Z.ltb_spec 0 (cmp e x)), (Z.ltb_spec 0 (cmp e y)); simpl; (done || lia).
  - eapply upper_bound_loop_ok; [done|lia|]. split; [|done].
    rewrite (first_sat_filter (lt cmp)); [|done|].
    + f_equal. f_equal. apply list_filter_iff. intros x. fold cmp. destruct (Z.leb_spec 0 (cmp e x)); simpl; lia.
    + intros x y Hxy. specialize (Hle x y Hxy). fold cmp.
      destruct (Z.leb_spec 0 (cmp e x)), (Z.leb_spec 0 (cmp e y)); simpl; (done || lia).
  - eapply lower_dual_bound_loop_ok; [done|lia|]. split; [|done].
    rewrite (last_sat_filter (lt cmp)); [|done|].
    + f_equal. f_equal. apply list_filter_iff. intros x. fold cmp. destruct (Z.ltb_spec 0 (cmp e x)); simpl; lia.
    + intros x y Hxy. specialize (Hge x y Hxy). fold cmp.
      destruct (Z.ltb_spec 0 (cmp e x)), (Z.ltb_spec 0 (cmp e y)); simpl; (done || lia).
  - eapply upper_dual_bound_loop_ok; [done|lia|]. split; [|done].
    rewrite (last_sat_filter (lt cmp)); [|done|].
    + f_equal. f_equal. apply list_filter_iff. intros x. fold cmp. destruct (Z.leb_spec 0 (cmp e x)); simpl; lia.
    + intros x y Hxy. specialize (Hge x y Hxy). fold cmp.
      destruct (Z.leb_spec 0 (cmp e x)), (Z.leb_spec 0 (cmp e y)); simpl; (done || lia).
Qed.

(** The ends and the neighbours: the minimum and maximum are the first and last
    element, and from any element the successor and the predecessor are the next
    and the previous one, NULL past the ends (and for an empty tree). *)
Theorem avl_traversal :
  avl_rep h Tree l → (avl_fuel ≤ fuel)%nat →
  PhMinimumElementAvlTree fuel Tree h = Some (default NULL (head l), h) ∧
  PhMaximumElementAvlTree fuel Tree h = Some (default NULL (last l), h) ∧
  ∀ l1 e l2, l = l1 ++ e :: l2 →
    PhSuccessorElementAvlTree fuel e h = Some (default NULL (head l2), h) ∧
    PhPredecessorElementAvlTree fuel e h = Some (default NULL (last l1), h).
Proof using Type.
  intros (t & Hat & Havl & <- & Hs & Hc & Hn) Hfuel.
  pose proof (avl_height_bound t Havl Hn) as Hh. unfold avl_fuel in Hfuel.
  split_and!; [apply wp_eq, (minimum_ok Tree h t); [done|lia|done]
              |apply wp_eq, (maximum_ok Tree h t); [done|lia|done]|].
  intros l1 e l2 Heq. destruct (in_plug t e) as (c & l' & b & r & ->); [rewrite Heq; set_solver|].
  pose proof Hat as (_ & _ & _ & [_ Hnd]%NoDup_cons). rewrite inorder_plug in Heq, Hnd.
  simpl in Heq, Hnd.
  destruct (app_cons_inj (ctx_left c ++ inorder l') l1 (inorder r ++ ctx_right c) l2 e) as [<- <-].
  { revert Hnd. apply NoDup_Permutation_proper. solve_Permutation. }
  { rewrite <-Heq, <-!app_assoc. done. }
  split; apply wp_eq; [by apply (successor_ok Tree h c l' e b r); [|lia|]
                      |by apply (predecessor_ok Tree h c l' e b r); [|lia|]].
Qed.

(** The enumeration runs the callback on the elements in ascending or
    descending order until it returns FALSE; its stack of 47 entries never
    overflows, whatever the tree. *)
Theorem avl_enum {C} (Callback : ptr → C → bool * C) order (ctx : C) (depth : nat) :
  avl_rep h Tree l → (length l < fuel)%nat → (avl_fuel < depth)%nat →
  PhEnumAvlTree Callback fuel depth Tree order ctx h =
    Some (fold_until Callback (match order with
                               | TreeEnumerateInOrder => l
                               | TreeEnumerateInReverseOrder => reverse l
                               end) ctx, h).
Proof using Type.
  intros (t & Hat & Havl & <- & Hs & Hc & Hn) Hfuel Hdepth.
  pose proof (avl_height_bound t Havl Hn) as Hh. unfold avl_fuel in Hdepth.
  pose proof Hat as (HR & Hlk & Hrep & _).
  apply wp_eq. unfold PhEnumAvlTree, PhRootElementAvlTree. hstep. cbn [Right].
  eapply wp_bind, (push_spine_ok order h depth _ t [] []); [done|lia|simpl; unfold stack_size; lia|done|].
  intros stack ts Hst Hp. cbn [pending_list] in Hp. rewrite app_nil_r in Hp.
  eapply enum_loop_ok; [done| |unfold stack_size; lia|by rewrite Hp; destruct order].
  rewrite Hp. unfold trav. destruct order; rewrite ?length_reverse; lia.
Qed.
End Theorems.
