(* ===== verification/AvlTreeRefine.v ===== *)
(** Sequences of additions and removals from [PhInitializeAvlTree] on, against
    the sorted list that specifies them; and the concrete inputs at which the
    theorems on the AVL tree are applied. *)

From S2P Require Import Prelude AvlTree AvlTreeFacts AvlTreeCorrect AvlTreeTheorems.

(** ** No operation allocates or frees *)

Definition keeps_dom {A} (m : ST heap A) : Prop :=
  ∀ h a h', m h = Some (a, h') → dom h' = dom h.

Create HintDb avl_dom.

Lemma keeps_ret {A} (a : A) : keeps_dom (mret a).
Proof. by intros h b h' [= _ ->]. Qed.

Lemma keeps_fault {A} : keeps_dom (fault (A:=A)).
Proof. intros h b h' Heq. discriminate Heq. Qed.

Lemma keeps_bind {A B} (m : ST heap A) (f : A → ST heap B) :
  keeps_dom m → (∀ a, keeps_dom (f a)) → keeps_dom (m ≫= f).
Proof.
  intros Hm Hf h b h'. unfold mbind, ST_bind. destruct (m h) as [[a h1]|] eqn:Heq; [|done].
  intros Hr. by rewrite (Hf a _ _ _ Hr), (Hm _ _ _ Heq).
Qed.

Lemma keeps_load p : keeps_dom (load p).
Proof.
  intros h l h'. unfold load. case_decide; [done|]. destruct (h !! p); [|done]. by intros [= _ ->].
Qed.

Lemma keeps_store p l : keeps_dom (store p l).
Proof.
  intros h a h'. unfold store. case_decide; [done|]. destruct (h !! p) eqn:Hp; [|done].
  intros [= <- <-]. by apply dom_insert_lookup_L.
Qed.

#[export] Hint Resolve keeps_ret keeps_fault keeps_load keeps_store : avl_dom.

(** Follow the structure of a program. *)
Ltac keeps :=
  repeat first
    [ progress intros
    | solve [auto with avl_dom nocore]
    | apply keeps_bind
    | case_match ].

Lemma keeps_set p v :
  keeps_dom (set_Parent p v) ∧ keeps_dom (set_Left p v) ∧ keeps_dom (set_Right p v) ∧ keeps_dom (set_Balance p v).
Proof. unfold set_Parent, set_Left, set_Right, set_Balance. split_and!; keeps. Qed.

Lemma keeps_get p :
  keeps_dom (get_Parent p) ∧ keeps_dom (get_Left p) ∧ keeps_dom (get_Right p) ∧ keeps_dom (get_Balance p).
Proof. unfold get_Parent, get_Left, get_Right, get_Balance. split_and!; keeps. Qed.

#[export] Hint Extern 1 (keeps_dom (set_Parent _ _)) => apply keeps_set : avl_dom.
#[export] Hint Extern 1 (keeps_dom (set_Left _ _)) => apply keeps_set : avl_dom.
#[export] Hint Extern 1 (keeps_dom (set_Right _ _)) => apply keeps_set : avl_dom.
#[export] Hint Extern 1 (keeps_dom (set_Balance _ _)) => apply keeps_set : avl_dom.
#[export] Hint Extern 1 (keeps_dom (get_Parent _)) => apply keeps_get : avl_dom.
#[export] Hint Extern 1 (keeps_dom (get_Left _)) => apply keeps_get : avl_dom.
#[export] Hint Extern 1 (keeps_dom (get_Right _)) => apply keeps_get : avl_dom.
#[export] Hint Extern 1 (keeps_dom (get_Balance _)) => apply keeps_get : avl_dom.

Lemma keeps_read_ref r : keeps_dom (read_ref r).
Proof. unfold read_ref. keeps. Qed.

Lemma keeps_write_ref r v : keeps_dom (write_ref r v).
Proof. unfold write_ref. keeps. Qed.

#[export] Hint Resolve keeps_read_ref keeps_write_ref : avl_dom.

Lemma keeps_parent_ref p : keeps_dom (parent_ref p).
Proof. unfold parent_ref, PhIsLeftChildElement. keeps. Qed.

Lemma keeps_rebalance r : keeps_dom (PhpRebalanceAvlLinks r).
Proof.
  unfold PhpRebalanceAvlLinks, PhpRotateLeftAvlLinks, PhpRotateRightAvlLinks,
    PhpRotateLeftTwiceAvlLinks, PhpRotateRightTwiceAvlLinks. keeps.
Qed.

Lemma keeps_find fuel Tree e : keeps_dom (PhpFindElementAvlTree fuel Tree e).
Proof.
  assert (∀ fuel links, keeps_dom (find_loop fuel Tree e links)) as Hloop.
  { intros n. induction n as [|n IH]; intros links; cbn [find_loop]; keeps. }
  unfold PhpFindElementAvlTree, PhRootElementAvlTree. keeps.
Qed.

#[export] Hint Resolve keeps_parent_ref keeps_rebalance keeps_find : avl_dom.

Lemma keeps_add_loop fuel root p : keeps_dom (add_balance_loop fuel root p).
Proof.
  revert p. induction fuel as [|n IH]; intros p; cbn [add_balance_loop]; unfold PhIsLeftChildElement; keeps.
Qed.

Lemma keeps_remove_loop fuel root p b : keeps_dom (remove_balance_loop fuel root p b).
Proof.
  revert p b. induction fuel as [|n IH]; intros p b; cbn [remove_balance_loop]; unfold PhIsLeftChildElement; keeps.
Qed.

Lemma keeps_leftmost fuel p : keeps_dom (leftmost fuel p).
Proof. revert p. induction fuel as [|n IH]; intros p; cbn [leftmost]; keeps. Qed.

Lemma keeps_rightmost fuel p : keeps_dom (rightmost fuel p).
Proof. revert p. induction fuel as [|n IH]; intros p; cbn [rightmost]; keeps. Qed.

#[export] Hint Resolve keeps_add_loop keeps_remove_loop keeps_leftmost keeps_rightmost : avl_dom.

Lemma keeps_add fuel Tree e : keeps_dom (PhAddElementAvlTree fuel Tree e).
Proof. unfold PhAddElementAvlTree, PhRootElementAvlTree. keeps. Qed.

Lemma keeps_remove fuel Tree e : keeps_dom (PhRemoveElementAvlTree fuel Tree e).
Proof.
  unfold PhRemoveElementAvlTree, remove_candidate, unlink_child, replace_subject, PhIsLeftChildElement. keeps.
Qed.

Lemma keeps_init p cmp : keeps_dom (PhInitializeAvlTree p cmp).
Proof. unfold PhInitializeAvlTree. keeps. Qed.

(** ** Scripts *)

Inductive avl_op : Type := OpAdd (e : ptr) | OpRemove (e : ptr).

(** A removal returns nothing; NULL stands for its result. *)
Fixpoint run_ops (fuel : nat) (Tree : PH_AVL_TREE) (ops : list avl_op) : ST heap (list ptr * PH_AVL_TREE) :=
  match ops with
  | [] => mret ([], Tree)
  | OpAdd e :: ops =>
      '(r, Tree) ← PhAddElementAvlTree fuel Tree e;
      '(rs, Tree) ← run_ops fuel Tree ops;
      mret (r :: rs, Tree)
  | OpRemove e :: ops =>
      Tree ← PhRemoveElementAvlTree fuel Tree e;
      '(rs, Tree) ← run_ops fuel Tree ops;
      mret (NULL :: rs, Tree)
  end.

Fixpoint spec_ops (cmp : ptr → ptr → Z) (l : list ptr) (ops : list avl_op) : list ptr * list ptr :=
  match ops with
  | [] => ([], l)
  | OpAdd e :: ops =>
      let '(r, l) := spec_add cmp e l in
      let '(rs, l) := spec_ops cmp l ops in (r :: rs, l)
  | OpRemove e :: ops =>
      let '(rs, l) := spec_ops cmp (spec_remove e l) ops in (NULL :: rs, l)
  end.

(** What the callers owe: memory for an element that is added, which is not yet
    linked when no element compares equal; only linked elements are removed. *)
Fixpoint valid_ops (mem : gset ptr) (root : ptr) (cmp : ptr → ptr → Z) (l : list ptr) (ops : list avl_op) : Prop :=
  match ops with
  | [] => True
  | OpAdd e :: ops =>
      (spec_find cmp e l = None → e ≠ NULL ∧ e ∈ mem ∧ e ∉ root :: l) ∧
      valid_ops mem root cmp (spec_add cmp e l).2 ops
  | OpRemove e :: ops => e ∈ l ∧ valid_ops mem root cmp (spec_remove e l) ops
  end.

Lemma spec_insert_length cmp e l : (length (spec_insert cmp e l) ≤ S (length l))%nat.
Proof.
  unfold spec_insert. rewrite length_app. simpl. induction l as [|x l IH]; [done|].
  rewrite !filter_cons. repeat case_decide; simpl; lia.
Qed.

Lemma run_ops_refine fuel ops : ∀ h Tree l,
  CompareOk (CompareFunction Tree) → avl_rep h Tree l → (avl_fuel ≤ fuel)%nat →
  valid_ops (dom h) (Root Tree) (CompareFunction Tree) l ops →
  Z.of_nat (length l + length ops) < 2 ^ 32 →
  ∃ h' Tree', run_ops fuel Tree ops h = Some (((spec_ops (CompareFunction Tree) l ops).1, Tree'), h') ∧
    avl_rep h' Tree' (spec_ops (CompareFunction Tree) l ops).2.
Proof.
  induction ops as [|op ops IH]; intros h Tree l Hcmp Hrep Hfuel Hv Hsz; [by exists h, Tree|].
  destruct op as [e|e]; cbn [run_ops spec_ops valid_ops length] in *; destruct Hv as [Hv Hvs].
  - destruct (add_refines h Tree l fuel e) as (h1 & T1 & Hrun & Hrep1 & HR & HC & _); [done..| |].
    { intros Hnone. destruct (Hv Hnone) as (? & ?%elem_of_dom & ?). split; [done|lia]. }
    pose proof (keeps_add _ _ _ _ _ _ Hrun) as Hdom.
    assert (length (spec_add (CompareFunction Tree) e l).2 ≤ S (length l))%nat as Hlen.
    { unfold spec_add. destruct (spec_find _ _ _); simpl; [lia|]. apply spec_insert_length. }
    destruct (spec_add (CompareFunction Tree) e l) as [r l1]. cbn [fst snd] in *.
    destruct (IH h1 T1 l1) as (h2 & T2 & Hrun2 & Hrep2);
      [by rewrite HC|done|done|by rewrite Hdom, HR, HC|lia|].
    rewrite HC in Hrun2, Hrep2. destruct (spec_ops _ l1 ops) as [rs l2]. exists h2, T2. split; [|done].
    unfold mbind, ST_bind. by rewrite Hrun, Hrun2.
  - destruct (remove_refines h Tree l fuel e) as (h1 & T1 & Hrun & Hrep1 & HR & HC & _); [done..|].
    pose proof (keeps_remove _ _ _ _ _ _ Hrun) as Hdom.
    pose proof (length_filter (λ x, x ≠ e) l) as Hlen. fold (spec_remove e l) in Hlen.
    destruct (IH h1 T1 (spec_remove e l)) as (h2 & T2 & Hrun2 & Hrep2);
      [by rewrite HC|done|done|by rewrite Hdom, HR, HC|lia|].
    rewrite HC in Hrun2, Hrep2. destruct (spec_ops _ _ ops) as [rs l2]. exists h2, T2. split; [|done].
    unfold mbind, ST_bind. by rewrite Hrun, Hrun2.
Qed.

Lemma init_ok h p cmp :
  p ≠ NULL → p ∈ dom h →
  ∃ h', PhInitializeAvlTree p cmp h = Some (AvlTree p 0 cmp, h') ∧ avl_rep h' (AvlTree p 0 cmp) [].
Proof.
  intros Hp [l Hl]%elem_of_dom.
  assert (wp (PhInitializeAvlTree p cmp) (λ T h', T = AvlTree p 0 cmp ∧ avl_rep h' (AvlTree p 0 cmp) []) h)
    as (T & h' & Hrun & -> & Hrep); [|by exists h'].
  unfold PhInitializeAvlTree. repeat hstep. apply wp_ret. split; [done|].
  exists E. split_and!; [|done|done|constructor|done|done].
  split_and!; [done| |done|repeat constructor; by intros ?%elem_of_nil].
  simpl. by rewrite !lookup_insert_eq.
Qed.

(** C3. Any sequence of additions and removals on a tree that
    [PhInitializeAvlTree] set up runs without fault, returns what the specification
    returns, and leaves a balanced search tree of the specified elements. *)
Theorem avl_scripts (h : heap) (root : ptr) (cmp : ptr → ptr → Z) (ops : list avl_op) (fuel : nat) :
  CompareOk cmp → root ≠ NULL → root ∈ dom h → valid_ops (dom h) root cmp [] ops →
  Z.of_nat (length ops) < 2 ^ 32 → (avl_fuel ≤ fuel)%nat →
  ∃ h' Tree',
    (Tree ← PhInitializeAvlTree root cmp; run_ops fuel Tree ops) h =
      Some (((spec_ops cmp [] ops).1, Tree'), h') ∧
    avl_rep h' Tree' (spec_ops cmp [] ops).2.
Proof.
  intros Hcmp Hr Hin Hv Hsz Hfuel.
  destruct (init_ok h root cmp Hr Hin) as (h1 & Hrun & Hrep).
  destruct (run_ops_refine fuel ops h1 (AvlTree root 0 cmp) []) as (h2 & T2 & Hrun2 & Hrep2);
    [done|done|done|by rewrite (keeps_init _ _ _ _ _ Hrun)|done|].
  exists h2, T2. split; [|done]. unfold mbind at 1, ST_bind at 1. by rewrite Hrun.
Qed.

(** ** Concrete inputs *)

Lemma avl_add_witness :
  ∃ h' Tree', PhAddElementAvlTree avl_fuel sample_tree 40 sample_heap = Some ((NULL, Tree'), h') ∧
    avl_rep h' Tree' [10; 20; 30; 40].
Proof.
  destruct (avl_add sample_heap sample_tree [10; 20; 30] avl_fuel 40) as (h' & T' & Hrun & Hrep & _).
  - apply compare_sub_ok.
  - apply sample_rep.
  - reflexivity.
  - intros _. split; [split_and!; [done|by eexists; vm_compute|set_solver]|reflexivity].
  - exists h', T'. split; [exact Hrun|exact Hrep].
Defined.

Lemma avl_remove_witness :
  ∃ h' Tree', PhRemoveElementAvlTree avl_fuel sample_tree 20 sample_heap = Some (Tree', h') ∧
    avl_rep h' Tree' [10; 30].
Proof.
  destruct (avl_remove sample_heap sample_tree [10; 20; 30] avl_fuel 20) as (h' & T' & Hrun & Hrep & _).
  - apply sample_rep.
  - set_solver.
  - reflexivity.
  - exists h', T'. split; [exact Hrun|exact Hrep].
Defined.

Lemma avl_find_witness : PhFindElementAvlTree avl_fuel sample_tree 30 sample_heap = Some (30, sample_heap).
Proof.
  exact (avl_find sample_heap sample_tree [10; 20; 30] avl_fuel 30 compare_sub_ok sample_rep (le_n _)).
Defined.

Lemma avl_bounds_witness :
  PhLowerBoundElementAvlTree avl_fuel sample_tree 15 sample_heap = Some (20, sample_heap) ∧
  PhUpperDualBoundElementAvlTree avl_fuel sample_tree 15 sample_heap = Some (10, sample_heap).
Proof.
  destruct (avl_bounds sample_heap sample_tree [10; 20; 30] avl_fuel 15 compare_sub_ok sample_rep (le_n _))
    as (Hl & _ & _ & Hu).
  split; [exact Hl|exact Hu].
Defined.

Lemma avl_traversal_witness :
  PhMinimumElementAvlTree avl_fuel sample_tree sample_heap = Some (10, sample_heap) ∧
  PhSuccessorElementAvlTree avl_fuel 30 sample_heap = Some (NULL, sample_heap).
Proof.
  destruct (avl_traversal sample_heap sample_tree [10; 20; 30] avl_fuel sample_rep (le_n _)) as (Hmin & _ & Hnext).
  split; [exact Hmin|]. exact (proj1 (Hnext [10; 20] 30 [] eq_refl)).
Defined.

Lemma avl_enum_witness :
  PhEnumAvlTree (λ e ctx, (negb (e =? 20), e :: ctx)) 4 48 sample_tree TreeEnumerateInReverseOrder [] sample_heap =
  Some ([20; 30], sample_heap).
Proof.
  refine (avl_enum sample_heap sample_tree [10; 20; 30] 4 _ TreeEnumerateInReverseOrder [] 48 sample_rep _ _);
    apply le_n.
Defined.

Lemma avl_scripts_witness :
  ∃ h' Tree',
    (Tree ← PhInitializeAvlTree 100 Z.sub;
     run_ops avl_fuel Tree [OpAdd 30; OpAdd 10; OpAdd 20; OpAdd 20; OpRemove 10]) sample_memory =
      Some (([NULL; NULL; NULL; 20; NULL], Tree'), h') ∧
    avl_rep h' Tree' [20; 30].
Proof.
  apply (avl_scripts sample_memory 100 Z.sub [OpAdd 30; OpAdd 10; OpAdd 20; OpAdd 20; OpRemove 10] avl_fuel).
  - apply compare_sub_ok.
  - done.
  - by apply elem_of_dom; eexists; vm_compute.
  - repeat split; try done; try (by apply elem_of_dom; eexists; vm_compute); vm_compute; set_solver.
  - reflexivity.
  - apply le_n.
Defined.
