(* ===== verification/Numbers.v ===== *)
(** The integer routines of [phlib/basesup.c] that the containers build on:
    [PhRoundUpToPowerOfTwo], [PhExponentiate], [PhExponentiate64],
    [PhCountBits] and [PhCountBitsUlongPtr], with the bit-twiddling written
    out at the width of the C types. *)

From S2P Require Import Prelude.

(** ** Operations *)

(** One [Number |= Number >> k]. *)
Definition smear (k x : Z) : Z := Z.lor x (Z.shiftr x k).

Definition PhRoundUpToPowerOfTwo (Number : Z) : Z :=
  let Number := u32 (Number - 1) in
  let Number := smear 1 Number in
  let Number := smear 2 Number in
  let Number := smear 4 Number in
  let Number := smear 8 Number in
  let Number := smear 16 Number in
  u32 (Number + 1).

(** The loop of the exponentiations on a [w]-bit [Base]; the 32 bits of the
    exponent bound the number of iterations. *)
Fixpoint exponentiate_loop (fuel : nat) (w Base Exponent result : Z) : Z :=
  match fuel with
  | O => result
  | S fuel =>
      if Exponent =? 0 then result
      else
        let result := if negb (Z.land Exponent 1 =? 0) then (result * Base) mod 2 ^ w else result in
        exponentiate_loop fuel w ((Base * Base) mod 2 ^ w) (Z.shiftr Exponent 1) result
  end.

Definition PhExponentiate (Base Exponent : Z) : Z := exponentiate_loop 32 32 Base Exponent 1.

Definition PhExponentiate64 (Base Exponent : Z) : Z := exponentiate_loop 32 64 Base Exponent 1.

(** The branch without the population count instruction; [T] is [ULONG]. *)
Definition count_bits_steps (wrap : Z → Z) (Value : Z) : Z :=
  let T_max := 2 ^ 32 - 1 in
  let Value := wrap (Value - Z.land (Z.shiftr Value 1) (T_max / 3)) in
  let Value := wrap (Z.land Value (T_max / 15 * 3) + Z.land (Z.shiftr Value 2) (T_max / 15 * 3)) in
  let Value := Z.land (wrap (Value + Z.shiftr Value 4)) (T_max / 255 * 15) in
  Z.shiftr (u32 (wrap (Value * (T_max / 255)))) ((4 - 1) * 8).

(** [popcnt] stands for the machine instruction, [_mm_popcnt_u32] and
    [_mm_popcnt_u64]; [PhHasPopulationCount] tells whether the processor has it. *)
Definition PhCountBits (PhHasPopulationCount : bool) (popcnt : Z → Z) (Value : Z) : Z :=
  if PhHasPopulationCount then popcnt Value else count_bits_steps u32 Value.

(** On 64-bit Windows [Value] is 64 bits wide, and [T] is still [ULONG]. *)
Definition PhCountBitsUlongPtr (PhHasPopulationCount : bool) (popcnt : Z → Z) (Value : Z) : Z :=
  if PhHasPopulationCount then u32 (popcnt Value) else count_bits_steps u64 Value.

(** ** Rounding up *)

(** Bit [i] of [y] tells whether [x] has a bit in the window [i, i + w). *)
Definition window (w x y : Z) : Prop :=
  ∀ i, 0 ≤ i → Z.testbit y i = true ↔ ∃ j, i ≤ j < i + w ∧ Z.testbit x j = true.

Lemma window_1 x : window 1 x x.
Proof.
  intros i Hi. split; [intros Hb; exists i; split; [lia|done]|].
  intros (j & Hj & Hb). by replace i with j by lia.
Qed.

Lemma window_smear w x y : 0 < w → window w x y → window (w + w) x (smear w y).
Proof.
  intros Hw Hy i Hi. unfold smear. rewrite Z.lor_spec, Z.shiftr_spec, orb_true_iff by lia.
  rewrite (Hy i Hi), (Hy (i + w)) by lia. split.
  - intros [(j & Hj & Hb)|(j & Hj & Hb)]; exists j; (split; [lia|done]).
  - intros (j & Hj & Hb). destruct (Z.lt_ge_cases j (i + w)); [left|right]; exists j; (split; [lia|done]).
Qed.

Lemma smear_ones x :
  0 < x < 2 ^ 32 → smear 16 (smear 8 (smear 4 (smear 2 (smear 1 x)))) = Z.ones (Z.log2 x + 1).
Proof.
  intros Hx.
  assert (window 32 x (smear 16 (smear 8 (smear 4 (smear 2 (smear 1 x)))))) as Hw.
  { apply (window_smear 16), (window_smear 8), (window_smear 4), (window_smear 2), (window_smear 1), window_1; lia. }
  assert (0 ≤ Z.log2 x) by apply Z.log2_nonneg.
  assert (Z.log2 x < 32) by (apply Z.log2_lt_pow2; lia).
  apply Z.bits_inj'. intros i Hi. apply eq_true_iff_eq. rewrite (Hw i Hi), Z.testbit_ones_nonneg, Z.ltb_lt by lia.
  split.
  - intros (j & Hj & Hb). destruct (Z.le_gt_cases j (Z.log2 x)); [lia|].
    rewrite Z.bits_above_log2 in Hb by lia. done.
  - intros Hlt. exists (Z.log2 x). split; [lia|]. apply Z.bit_log2. lia.
Qed.

Lemma round_up_value n : 1 ≤ n ≤ 2 ^ 31 → PhRoundUpToPowerOfTwo n = 2 ^ Z.log2_up n.
Proof.
  intros Hn. unfold PhRoundUpToPowerOfTwo. rewrite (u32_small (n - 1)) by lia.
  destruct (Z.eq_dec n 1) as [->|Hne]; [done|]. rewrite smear_ones by lia.
  rewrite Z.log2_up_eqn by lia. rewrite Z.ones_equiv.
  replace (Z.pred (2 ^ (Z.log2 (n - 1) + 1)) + 1) with (2 ^ (Z.log2 (n - 1) + 1)) by lia.
  assert (0 ≤ Z.log2 (n - 1) ≤ 30) as Hl.
  { split; [apply Z.log2_nonneg|]. apply Z.lt_succ_r, Z.log2_lt_pow2; [lia|]. simpl. lia. }
  replace (Z.succ (Z.log2 (Z.pred n))) with (Z.log2 (n - 1) + 1) by (unfold Z.pred, Z.succ; f_equal).
  apply u32_small. split; [apply Z.pow_nonneg; lia|]. apply Z.pow_lt_mono_r; lia.
Qed.

(** Rounding up gives the least power of two that is not smaller, for every
    number up to 2^31; zero and the numbers above wrap to zero. *)
Theorem round_up_to_power_of_two (n : Z) :
  0 ≤ n < 2 ^ 32 →
  PhRoundUpToPowerOfTwo n = if decide (1 ≤ n ≤ 2 ^ 31) then 2 ^ Z.log2_up n else 0.
Proof.
  intros Hn. case_decide as Hd; [by apply round_up_value|].
  unfold PhRoundUpToPowerOfTwo. destruct (Z.eq_dec n 0) as [->|H0]; [done|].
  rewrite (u32_small (n - 1)) by lia. rewrite smear_ones by lia.
  replace (Z.log2 (n - 1)) with 31; [done|]. symmetry. apply Z.log2_unique; [lia|]. simpl. lia.
Qed.

(** ** Exponentiation *)

Lemma exponentiate_loop_ok fuel w b e r :
  0 < w → 0 ≤ e < 2 ^ Z.of_nat fuel → 0 ≤ r < 2 ^ w →
  exponentiate_loop fuel w b e r = (r * b ^ e) mod 2 ^ w.
Proof.
  intros Hw. revert b e r. induction fuel as [|fuel IH]; intros b e r He Hr.
  { simpl in He. replace e with 0 by lia. cbn [exponentiate_loop]. rewrite Z.pow_0_r, Z.mul_1_r, Z.mod_small; lia. }
  rewrite Nat2Z.inj_succ, Z.pow_succ_r in He by lia. cbn [exponentiate_loop].
  assert (0 < 2 ^ w) by (apply Z.pow_pos_nonneg; lia).
  destruct (Z.eqb_spec e 0) as [->|Hne]; [rewrite Z.pow_0_r, Z.mul_1_r, Z.mod_small; lia|].
  assert (Z.shiftr e 1 = e / 2) as Hsh by (rewrite Z.shiftr_div_pow2; done).
  assert (Z.land e 1 = e mod 2) as Hbit by (apply (Z.land_ones e 1); lia).
  pose proof (Z.div_mod e 2). pose proof (Z.mod_pos_bound e 2).
  rewrite Hsh, Hbit, IH; [|lia|destruct (negb _); [apply Z.mod_pos_bound|]; lia].
  set (q := e / 2) in *.
  assert (e = 2 * q + e mod 2) as Heq by lia. rewrite Heq at 2.
  rewrite Z.pow_add_r, Z.pow_mul_r by lia. rewrite Z.pow_2_r.
  assert (∀ c, (c * ((b * b) mod 2 ^ w) ^ q) mod 2 ^ w = (c * (b * b) ^ q) mod 2 ^ w) as Hpow.
  { intros c. rewrite <-Z.mul_mod_idemp_r, Z.mod_pow_l, Z.mul_mod_idemp_r by lia. done. }
  rewrite Hpow.
  destruct (Z.eqb_spec (e mod 2) 0) as [->|Hm]; cbn [negb].
  - by rewrite Z.pow_0_r, Z.mul_1_r.
  - replace (e mod 2) with 1 by lia. rewrite Z.pow_1_r.
    rewrite Z.mul_mod_idemp_l by lia.
    f_equal. ring.
Qed.

(** The square-and-multiply loops compute the power at the width of their
    result, for every base and exponent. *)
Theorem exponentiate_power (b e : Z) :
  0 ≤ e < 2 ^ 32 →
  PhExponentiate b e = (b ^ e) mod 2 ^ 32 ∧ PhExponentiate64 b e = (b ^ e) mod 2 ^ 64.
Proof.
  intros He. unfold PhExponentiate, PhExponentiate64.
  rewrite !exponentiate_loop_ok by (simpl; lia). by rewrite !Z.mul_1_l.
Qed.

(** ** Counting bits *)

(** The reference: how many of the low [n] bits are set. *)
Fixpoint popcount (n : nat) (x : Z) : Z :=
  match n with
  | O => 0
  | S n => Z.b2z (Z.testbit x (Z.of_nat n)) + popcount n x
  end.

Lemma testbit_halves a b i :
  0 ≤ a < 2 ^ 16 → 0 ≤ i →
  Z.testbit (a + 2 ^ 16 * b) i = if decide (i < 16) then Z.testbit a i else Z.testbit b (i - 16).
Proof.
  intros Ha Hi. case_decide as Hd.
  - rewrite <-(Z.mod_pow2_bits_low (a + 2 ^ 16 * b) 16 i) by lia.
    rewrite Z.mul_comm, Z.mod_add by lia. by rewrite Z.mod_small.
  - replace b with ((a + 2 ^ 16 * b) / 2 ^ 16) at 2 by (rewrite Z.mul_comm, Z.div_add, Z.div_small; lia).
    rewrite <-Z.shiftr_div_pow2, Z.shiftr_spec by lia. f_equal. lia.
Qed.

Lemma land_bound x m w : 0 ≤ w → 0 ≤ x → 0 ≤ m < 2 ^ w → 0 ≤ Z.land x m < 2 ^ w.
Proof.
  intros Hw Hx Hm. assert (0 ≤ Z.land x m) as Hl by (apply Z.land_nonneg; lia).
  split; [done|]. destruct (Z.eq_dec (Z.land x m) 0) as [->|]; [lia|].
  pose proof (Z.log2_land x m). assert (m ≠ 0) by (intros ->; by rewrite Z.land_0_r in *).
  assert (Z.log2 m < w) by (apply Z.log2_lt_pow2; lia). apply Z.log2_lt_pow2; lia.
Qed.

(** A field that is shifted down and masked stays within its half when the mask
    leaves out what the shift brings in. *)
Lemma shift_mask_halves k a b m n :
  0 ≤ k ≤ 16 → 0 ≤ a < 2 ^ 16 → 0 ≤ m < 2 ^ (16 - k) →
  Z.land (Z.shiftr (a + 2 ^ 16 * b) k) (m + 2 ^ 16 * n) =
  Z.land (Z.shiftr a k) m + 2 ^ 16 * Z.land (Z.shiftr b k) n.
Proof.
  intros Hk Ha Hm. assert (2 ^ (16 - k) ≤ 2 ^ 16) by (apply Z.pow_le_mono_r; lia).
  assert (0 ≤ Z.land (Z.shiftr a k) m < 2 ^ 16) by (apply land_bound; [lia|apply Z.shiftr_nonneg; lia|lia]).
  apply Z.bits_inj'. intros i Hi. rewrite testbit_halves, !Z.land_spec, Z.shiftr_spec, !testbit_halves by lia.
  repeat case_decide; try lia; rewrite ?Z.land_spec, ?Z.shiftr_spec by lia.
  - done.
  - assert (Z.testbit m i = false) as ->; [|by rewrite !andb_false_r].
    destruct (Z.eq_dec m 0) as [->|]; [apply Z.testbit_0_l|]. apply Z.bits_above_log2; [lia|].
    assert (Z.log2 m < 16 - k) by (apply Z.log2_lt_pow2; lia). lia.
  - by replace (i + k - 16) with (i - 16 + k) by lia.
Qed.

Lemma popcount_halves a b :
  0 ≤ a < 2 ^ 16 → popcount 32 (a + 2 ^ 16 * b) = popcount 16 b + popcount 16 a.
Proof.
  intros Ha. rewrite (eq_refl : popcount 32 = popcount (16 + 16)).
  assert (∀ n, (n ≤ 16)%nat → popcount n (a + 2 ^ 16 * b) = popcount n a) as Hlow.
  { induction n as [|n IH]; intros Hn; [done|]. cbn [popcount].
    rewrite testbit_halves, decide_True, IH by lia. done. }
  assert (∀ n, popcount (n + 16) (a + 2 ^ 16 * b) = popcount n b + popcount 16 a) as Hhigh; [|apply Hhigh].
  induction n as [|n IH]; [apply (Hlow 16%nat); lia|]. set (P := popcount 16 a) in *. cbn [popcount Nat.add].
  rewrite IH, testbit_halves, decide_False by lia. replace (Z.of_nat (n + 16) - 16) with (Z.of_nat n) by lia. lia.
Qed.

(** The computation on one half, and what it leaves: a byte for each of the two
    bytes of the half, whatever is shifted in from the other half. *)
Definition half1 (a : Z) : Z := a - Z.land (Z.shiftr a 1) 0x5555.
Definition half2 (a : Z) : Z := Z.land a 0x3333 + Z.land (Z.shiftr a 2) 0x3333.
Definition half3 (a : Z) : Z := Z.land (a + Z.shiftr a 4) 0x0f0f.

Definition half_ok (a : Z) : bool :=
  let x := half1 a in let y := half2 x in let z := half3 y in
  (0 <=? x) && (x <? 2 ^ 16) && (0 <=? y) && (y mod 16 <=? 4) && (y + Z.shiftr y 4 + 2 ^ 12 * 4 <? 2 ^ 16) &&
  forallb (λ c, Z.land (y + Z.shiftr y 4 + 2 ^ 12 * c) 0x0f0f =? z) [0; 1; 2; 3; 4] &&
  (z mod 256 + z / 256 =? popcount 16 a) && (z mod 256 <=? 8) && (z / 256 <=? 8) && (0 <=? z).

Lemma half_ok_all : all_from half_ok (Z.to_nat (2 ^ 16)) 0 = true.
Proof. vm_compute. reflexivity. Qed.

Record half_facts (a : Z) : Prop := {
  hf_1 : 0 ≤ half1 a < 2 ^ 16;
  hf_2 : 0 ≤ half2 (half1 a);
  hf_2_mod : half2 (half1 a) mod 16 ≤ 4;
  hf_2_bound : half2 (half1 a) + Z.shiftr (half2 (half1 a)) 4 + 2 ^ 12 * 4 < 2 ^ 16;
  hf_3 : ∀ c, 0 ≤ c ≤ 4 →
    Z.land (half2 (half1 a) + Z.shiftr (half2 (half1 a)) 4 + 2 ^ 12 * c) 0x0f0f = half3 (half2 (half1 a));
  hf_bytes : half3 (half2 (half1 a)) mod 256 + half3 (half2 (half1 a)) / 256 = popcount 16 a;
  hf_lo : half3 (half2 (half1 a)) mod 256 ≤ 8;
  hf_hi : half3 (half2 (half1 a)) / 256 ≤ 8;
  hf_3_pos : 0 ≤ half3 (half2 (half1 a))
}.

Lemma half_facts_all a : 0 ≤ a < 2 ^ 16 → half_facts a.
Proof.
  intros Ha. assert (half_ok a = true) as Hb by (apply (all_from_spec _ _ _ a half_ok_all); lia).
  unfold half_ok in Hb. cbv zeta in Hb. rewrite !andb_true_iff, !Z.leb_le, !Z.ltb_lt, Z.eqb_eq in Hb.
  destruct Hb as (((((((((? & ?) & ?) & ?) & ?) & Hc) & ?) & ?) & ?) & ?). split; try done.
  intros c Hc'. rewrite forallb_forall in Hc. apply Z.eqb_eq, Hc.
  assert (c = 0 ∨ c = 1 ∨ c = 2 ∨ c = 3 ∨ c = 4) by lia. simpl. intuition.
Qed.

(** The product with 0x01010101 adds the four bytes up in the highest one. *)
Lemma byte_sum p q :
  0 ≤ p → 0 ≤ q → p mod 256 ≤ 8 → p / 256 ≤ 8 → q mod 256 ≤ 8 → q / 256 ≤ 8 →
  Z.shiftr (u32 ((p + 2 ^ 16 * q) * (1 + 2 ^ 8 + 2 ^ 16 + 2 ^ 24))) ((4 - 1) * 8) =
  (q mod 256 + q / 256) + (p mod 256 + p / 256).
Proof.
  intros Hp Hq. rewrite Z.shiftr_div_pow2 by lia. unfold u32. change ((4 - 1) * 8) with 24.
  pose proof (Z.div_mod p 256). pose proof (Z.div_mod q 256).
  pose proof (Z.mod_pos_bound p 256). pose proof (Z.mod_pos_bound q 256).
  assert (0 ≤ p / 256 ∧ 0 ≤ q / 256) as [? ?] by (split; apply Z.div_pos; lia).
  set (p0 := p mod 256) in *. set (p1 := p / 256) in *.
  set (q0 := q mod 256) in *. set (q1 := q / 256) in *. intros.
  symmetry. apply Z.div_unique with (r := p0 + 2 ^ 8 * (p0 + p1) + 2 ^ 16 * (p0 + p1 + q0)); [lia|].
  symmetry. apply Z.mod_unique with (q := q1 + q0 + p1 + 256 * (q1 + q0) + 2 ^ 16 * q1); lia.
Qed.

Lemma count_bits_32 (wrap : Z → Z) a b :
  (∀ x, 0 ≤ x < 2 ^ 32 → wrap x = x) → (∀ x, u32 (wrap x) = u32 x) →
  0 ≤ a < 2 ^ 16 → 0 ≤ b < 2 ^ 16 →
  count_bits_steps wrap (a + 2 ^ 16 * b) = popcount 16 b + popcount 16 a.
Proof.
  intros Hw Hwu Ha Hb. destruct (half_facts_all a Ha) as [A1 A2 A3 A4 A5 A6 A7 A8 A9].
  destruct (half_facts_all b Hb) as [B1 B2 B3 B4 B5 B6 B7 B8 B9].
  unfold count_bits_steps. cbv zeta.
  change ((2 ^ 32 - 1) / 3) with (0x5555 + 2 ^ 16 * 0x5555).
  change ((2 ^ 32 - 1) / 15 * 3) with (0x3333 + 2 ^ 16 * 0x3333).
  change ((2 ^ 32 - 1) / 255 * 15) with (0x0f0f + 2 ^ 16 * 0x0f0f).
  change ((2 ^ 32 - 1) / 255) with (1 + 2 ^ 8 + 2 ^ 16 + 2 ^ 24).
  rewrite (shift_mask_halves 1) by lia.
  replace (a + 2 ^ 16 * b - (Z.land (Z.shiftr a 1) 0x5555 + 2 ^ 16 * Z.land (Z.shiftr b 1) 0x5555))
    with (half1 a + 2 ^ 16 * half1 b) by (unfold half1; lia).
  rewrite (Hw (half1 a + _)) by lia.
  pose proof (shift_mask_halves 0 (half1 a) (half1 b) 0x3333 0x3333) as E0. rewrite !Z.shiftr_0_r in E0.
  rewrite E0, (shift_mask_halves 2) by lia.
  replace (_ + _ + (_ + _)) with (half2 (half1 a) + 2 ^ 16 * half2 (half1 b)) by (unfold half2; lia).
  set (x := half2 (half1 a)) in *. set (y := half2 (half1 b)) in *.
  assert (0 ≤ Z.shiftr x 4 ∧ 0 ≤ Z.shiftr y 4) as [? ?] by (split; apply Z.shiftr_nonneg; lia).
  rewrite (Hw (x + _)) by lia.
  assert (Z.shiftr (x + 2 ^ 16 * y) 4 = Z.shiftr x 4 + 2 ^ 12 * (y mod 16) + 2 ^ 16 * Z.shiftr y 4) as Hs.
  { rewrite !Z.shiftr_div_pow2 by lia. change (2 ^ 4) with 16. pose proof (Z.div_mod y 16).
    replace (x + 2 ^ 16 * y) with (x + (2 ^ 12 * y) * 16) by lia. rewrite Z.div_add by lia. lia. }
  rewrite Hs. pose proof (Z.mod_pos_bound y 16).
  replace (_ + (_ + _ + _)) with ((x + Z.shiftr x 4 + 2 ^ 12 * (y mod 16)) + 2 ^ 16 * (y + Z.shiftr y 4)) by lia.
  rewrite (Hw (_ + 2 ^ 16 * (y + _))) by lia.
  pose proof (shift_mask_halves 0 (x + Z.shiftr x 4 + 2 ^ 12 * (y mod 16)) (y + Z.shiftr y 4) 0x0f0f 0x0f0f) as E1.
  rewrite !Z.shiftr_0_r in E1. rewrite E1 by lia.
  rewrite A5 by lia. fold (half3 y). set (p := half3 x) in *. set (q := half3 y) in *.
  rewrite Hwu, <-A6, <-B6. by apply byte_sum.
Qed.

(** Only the low 32 bits reach the first mask. *)
Lemma land_low V k m : 0 ≤ k ≤ 32 → 0 ≤ m < 2 ^ (32 - k) → Z.land (Z.shiftr V k) m = Z.land (Z.shiftr (u32 V) k) m.
Proof.
  intros Hk Hm. apply Z.bits_inj'. intros i Hi. rewrite !Z.land_spec, !Z.shiftr_spec by lia.
  destruct (Z.lt_ge_cases (i + k) 32); [unfold u32; by rewrite Z.mod_pow2_bits_low|].
  assert (Z.testbit m i = false) as ->; [|by rewrite !andb_false_r].
  destruct (Z.eq_dec m 0) as [->|]; [apply Z.testbit_0_l|]. apply Z.bits_above_log2; [lia|].
  assert (Z.log2 m < 32 - k) by (apply Z.log2_lt_pow2; lia). lia.
Qed.

Lemma u32_sub_idemp V x : u32 (u32 V - x) = u32 (V - x).
Proof. unfold u32. apply Zminus_mod_idemp_l. Qed.

Lemma u32_u64 x : u32 (u64 x) = u32 x.
Proof.
  unfold u32, u64. rewrite (Z.mod_eq x (2 ^ 64)) by lia.
  replace (x - 2 ^ 64 * (x / 2 ^ 64)) with (x + (- 2 ^ 32 * (x / 2 ^ 64)) * 2 ^ 32) by lia.
  apply Z.mod_add. lia.
Qed.

Lemma count_bits_low V : count_bits_steps u64 V = count_bits_steps u64 (u32 V).
Proof.
  unfold count_bits_steps. cbv zeta. rewrite (land_low V 1) by (by vm_compute).
  set (X := Z.land (Z.shiftr (u32 V) 1) _). set (m := (2 ^ 32 - 1) / 15 * 3).
  assert (0 ≤ m < 2 ^ (32 - 2)) by (subst m; by vm_compute).
  assert (∀ k, 0 ≤ k ≤ 2 → Z.land (Z.shiftr (u64 (V - X)) k) m = Z.land (Z.shiftr (u64 (u32 V - X)) k) m) as Heq.
  { intros k Hk. assert (2 ^ (32 - 2) ≤ 2 ^ (32 - k)) by (apply Z.pow_le_mono_r; lia).
    rewrite (land_low (u64 (V - X))), (land_low (u64 (u32 V - X))) by lia.
    by rewrite !u32_u64, u32_sub_idemp. }
  pose proof (Heq 0) as Heq0. rewrite !Z.shiftr_0_r in Heq0. by rewrite Heq0, Heq by lia.
Qed.

Lemma count_bits_steps_ok wrap x :
  (∀ x, 0 ≤ x < 2 ^ 32 → wrap x = x) → (∀ x, u32 (wrap x) = u32 x) → 0 ≤ x < 2 ^ 32 →
  count_bits_steps wrap x = popcount 32 x.
Proof.
  intros Hw Hwu Hx. pose proof (Z.div_mod x (2 ^ 16)). pose proof (Z.mod_pos_bound x (2 ^ 16)).
  assert (0 ≤ x / 2 ^ 16 < 2 ^ 16) by (split; [apply Z.div_pos|apply Z.div_lt_upper_bound]; lia).
  replace x with (x mod 2 ^ 16 + 2 ^ 16 * (x / 2 ^ 16)) by lia.
  rewrite popcount_halves by lia. apply count_bits_32; [done|done|lia|lia].
Qed.

Lemma popcount_bound n x : 0 ≤ popcount n x ≤ Z.of_nat n.
Proof. induction n as [|n IH]; cbn [popcount]; [lia|]. destruct (Z.testbit x (Z.of_nat n)); simpl; lia. Qed.

(** Where the instruction counts the bits, so do the functions; without it,
    [PhCountBits] counts the bits of its argument all the same, and
    [PhCountBitsUlongPtr] those of the low half of its 64-bit argument only. *)
Theorem count_bits (PhHasPopulationCount : bool) (popcnt32 popcnt64 : Z → Z) (V : Z) :
  (∀ x, 0 ≤ x < 2 ^ 32 → popcnt32 x = popcount 32 x) →
  (∀ x, 0 ≤ x < 2 ^ 64 → popcnt64 x = popcount 64 x) →
  0 ≤ V < 2 ^ 64 →
  (V < 2 ^ 32 → PhCountBits PhHasPopulationCount popcnt32 V = popcount 32 V) ∧
  PhCountBitsUlongPtr PhHasPopulationCount popcnt64 V =
    if PhHasPopulationCount then popcount 64 V else popcount 32 (u32 V).
Proof.
  intros H32 H64 HV. unfold PhCountBits, PhCountBitsUlongPtr. destruct PhHasPopulationCount; split.
  - intros Hlt. apply H32. lia.
  - rewrite H64 by done. apply u32_small. pose proof (popcount_bound 64 V). lia.
  - intros Hlt. apply count_bits_steps_ok; [apply u32_small|intros x; unfold u32; rewrite Z.mod_mod; lia|lia].
  - rewrite count_bits_low. apply count_bits_steps_ok; [|apply u32_u64|apply u32_range].
    intros x Hx. apply Z.mod_small. lia.
Qed.

(** ** Concrete inputs *)

Lemma round_up_to_power_of_two_witness : PhRoundUpToPowerOfTwo 100 = 128 ∧ PhRoundUpToPowerOfTwo (2 ^ 31 + 1) = 0.
Proof.
  split.
  - refine (round_up_to_power_of_two 100 _). lia.
  - refine (round_up_to_power_of_two (2 ^ 31 + 1) _). lia.
Defined.

Lemma exponentiate_power_witness : PhExponentiate 3 21 = 1870418611 ∧ PhExponentiate64 3 21 = 10460353203.
Proof. refine (exponentiate_power 3 21 _). lia. Defined.

Lemma count_bits_witness :
  PhCountBits false (popcount 32) 0xf00f0001 = 9 ∧ PhCountBitsUlongPtr false (popcount 64) (2 ^ 40 + 5) = 2.
Proof.
  split.
  - refine (proj1 (count_bits false (popcount 32) (popcount 64) 0xf00f0001 _ _ _) _); done.
  - refine (proj2 (count_bits false (popcount 32) (popcount 64) (2 ^ 40 + 5) _ _ _)); done.
Defined.
