(* ===== verification/CircularBuffer.v ===== *)
(** The circular buffers of [phlib/circbuf_i.h] and [phlib/include/circbuf_h.h],
    in the variant that the program compiles, with sizes that are powers of two.
    The template's element type [T] is a type variable. The buffer's array is a
    block of a memory, so that what [memcpy] may touch and which blocks stay
    allocated are part of the model. *)

From S2P Require Import Prelude Numbers.

Record PH_CIRCULAR_BUFFER : Type := CircularBuffer {
  Size : Z;
  SizeMinusOne : Z;
  Count : Z;
  Index : Z;
  Data : Z
}.

(** A block is an array of elements; [None] is an element that was never
    written. *)
Abbreviation memory T := (gmap Z (list (option T))).

Section Operations.
Context {T : Type}.

(** ** Memory *)

Definition PhAllocate (n : Z) : ST (memory T) Z := λ m,
  let p := fresh (dom m) in Some (p, <[p := replicate (Z.to_nat n) None]> m).

Definition PhFree (p : Z) : ST (memory T) unit := λ m,
  match m !! p with
  | Some _ => Some (tt, delete p m)
  | None => None
  end.

Definition cell_load (p i : Z) : ST (memory T) (option T) := λ m,
  match m !! p with
  | Some cells =>
      if decide (0 ≤ i) then
        match cells !! Z.to_nat i with
        | Some v => Some (v, m)
        | None => None
        end
      else None
  | None => None
  end.

Definition cell_store (p i : Z) (v : option T) : ST (memory T) unit := λ m,
  match m !! p with
  | Some cells =>
      if decide (0 ≤ i < Z.of_nat (length cells)) then Some (tt, <[p := <[Z.to_nat i := v]> cells]> m) else None
  | None => None
  end.

(** [memcpy(&dst[di], &src[si], sizeof(T) * n)] faults outside of the arrays. *)
Definition memcpy (dst di src si n : Z) : ST (memory T) unit := λ m,
  match m !! dst, m !! src with
  | Some d, Some s =>
      if decide (0 ≤ di ∧ 0 ≤ si ∧ 0 ≤ n ∧ di + n ≤ Z.of_nat (length d) ∧ si + n ≤ Z.of_nat (length s)) then
        Some (tt, <[dst := take (Z.to_nat di) d ++ take (Z.to_nat n) (drop (Z.to_nat si) s) ++
                           drop (Z.to_nat (di + n)) d]> m)
      else None
  | _, _ => None
  end.

(** ** Operations *)

Definition PhInitializeCircularBuffer (size : Z) : ST (memory T) PH_CIRCULAR_BUFFER :=
  let size := PhRoundUpToPowerOfTwo size in
  data ← PhAllocate size;
  mret (CircularBuffer size (u32 (size - 1)) 0 0 data).

Definition PhDeleteCircularBuffer (Buffer : PH_CIRCULAR_BUFFER) : ST (memory T) unit := PhFree (Data Buffer).

Definition PhResizeCircularBuffer (Buffer : PH_CIRCULAR_BUFFER) (NewSize : Z) : ST (memory T) PH_CIRCULAR_BUFFER :=
  let NewSize := PhRoundUpToPowerOfTwo NewSize in
  (* If we're not actually resizing it, return. *)
  if NewSize =? Size Buffer then mret Buffer
  else
    newData ← PhAllocate NewSize;
    let tailSize := u32 (Size Buffer - Index Buffer) in
    let headSize := u32 (Count Buffer - tailSize) in
    if Size Buffer <? NewSize then
      (* Copy the tail, then the head. *)
      memcpy newData 0 (Data Buffer) (Index Buffer) tailSize ;;
      memcpy newData tailSize (Data Buffer) 0 headSize ;;
      mret (CircularBuffer NewSize (u32 (NewSize - 1)) (Count Buffer) 0 newData)
    else
      (if NewSize <=? tailSize then
         (* Copy only a part of the tail. *)
         memcpy newData 0 (Data Buffer) (Index Buffer) NewSize
       else
         (* Copy the tail, then only part of the head. *)
         memcpy newData 0 (Data Buffer) (Index Buffer) tailSize ;;
         memcpy newData tailSize (Data Buffer) 0 (u32 (NewSize - tailSize))) ;;
      let count := if NewSize <? Count Buffer then NewSize else Count Buffer in
      mret (CircularBuffer NewSize (u32 (NewSize - 1)) count 0 newData).

Definition PhClearCircularBuffer (Buffer : PH_CIRCULAR_BUFFER) : PH_CIRCULAR_BUFFER :=
  CircularBuffer (Size Buffer) (SizeMinusOne Buffer) 0 0 (Data Buffer).

(** [Destination] is a block of the caller's. *)
Definition PhCopyCircularBuffer (Buffer : PH_CIRCULAR_BUFFER) (Destination count : Z) : ST (memory T) unit :=
  let tailSize := u32 (Size Buffer - Index Buffer) in
  let count := if Count Buffer <? count then Count Buffer else count in
  if count <=? tailSize then
    memcpy Destination 0 (Data Buffer) (Index Buffer) count
  else
    memcpy Destination 0 (Data Buffer) (Index Buffer) tailSize ;;
    memcpy Destination tailSize (Data Buffer) 0 (u32 (count - tailSize)).

(** [(Buffer->Index + Index) & Buffer->SizeMinusOne]. *)
Definition slot (Buffer : PH_CIRCULAR_BUFFER) (i : Z) : Z :=
  Z.land (u32 (Index Buffer + i)) (SizeMinusOne Buffer).

Definition PhGetItemCircularBuffer (Buffer : PH_CIRCULAR_BUFFER) (i : Z) : ST (memory T) (option T) :=
  cell_load (Data Buffer) (slot Buffer i).

Definition PhSetItemCircularBuffer (Buffer : PH_CIRCULAR_BUFFER) (i : Z) (Value : T) : ST (memory T) unit :=
  cell_store (Data Buffer) (slot Buffer i) (Some Value).

(** [if (Buffer->Count < Buffer->Size) Buffer->Count++;] *)
Definition counted (Buffer : PH_CIRCULAR_BUFFER) : Z :=
  if Count Buffer <? Size Buffer then u32 (Count Buffer + 1) else Count Buffer.

Definition PhAddItemCircularBuffer (Buffer : PH_CIRCULAR_BUFFER) (Value : T) : ST (memory T) PH_CIRCULAR_BUFFER :=
  let index := i32 (slot Buffer (-1)) in
  cell_store (Data Buffer) index (Some Value) ;;
  mret (CircularBuffer (Size Buffer) (SizeMinusOne Buffer) (counted Buffer) index (Data Buffer)).

Definition PhAddItemCircularBuffer2 (Buffer : PH_CIRCULAR_BUFFER) (Value : T)
    : ST (memory T) (option T * PH_CIRCULAR_BUFFER) :=
  let index := i32 (slot Buffer (-1)) in
  oldValue ← cell_load (Data Buffer) index;
  cell_store (Data Buffer) index (Some Value) ;;
  mret (oldValue, CircularBuffer (Size Buffer) (SizeMinusOne Buffer) (counted Buffer) index (Data Buffer)).

End Operations.

(** ** The contents

    The array read from [Index] on, around its end. *)
Definition view {A} (idx : nat) (cells : list A) : list A := drop idx cells ++ take idx cells.

Lemma view_length {A} idx (cells : list A) : (idx ≤ length cells)%nat → length (view idx cells) = length cells.
Proof. intros. unfold view. rewrite length_app, length_drop, length_take. lia. Qed.

Lemma view_lookup {A} idx (cells : list A) i :
  (idx < length cells)%nat → (i < length cells)%nat →
  view idx cells !! i = cells !! (if decide (idx + i < length cells)%nat then (idx + i)%nat
                                  else (idx + i - length cells)%nat).
Proof.
  intros Hidx Hi. unfold view. case_decide.
  - rewrite lookup_app_l, lookup_drop by (rewrite length_drop; lia). done.
  - rewrite lookup_app_r, length_drop, lookup_take_lt by (rewrite ?length_drop; lia). f_equal. lia.
Qed.

(** Writing in front of the first element. *)
Lemma view_push {A} idx (cells : list A) v :
  (idx < length cells)%nat →
  let idx' := if decide (idx = 0%nat) then (length cells - 1)%nat else (idx - 1)%nat in
  view idx' (<[idx' := v]> cells) = v :: take (length cells - 1) (view idx cells).
Proof.
  intros Hidx idx'. subst idx'. unfold view. case_decide as H0.
  - subst idx. rewrite take_insert_ge, drop_0, take_0, app_nil_r by lia.
    rewrite drop_insert_ge by lia. rewrite Nat.sub_diag.
    assert (length (drop (length cells - 1) cells) = 1%nat) as H1 by (rewrite length_drop; lia).
    destruct (drop (length cells - 1) cells) as [|x [|]]; simpl in H1; try lia. done.
  - rewrite take_insert_ge by lia. rewrite drop_insert_ge, Nat.sub_diag by lia.
    destruct (lookup_lt_is_Some_2 cells (idx - 1)) as [x Hx]; [lia|].
    rewrite (drop_S _ x) by done. replace (S (idx - 1)) with idx by lia. simpl. f_equal.
    rewrite (take_app_ge (drop idx cells)), take_take, length_drop by (rewrite length_drop; lia).
    do 2 f_equal. lia.
Qed.

(** [cb_rep m B l]: in the memory [m], the items of [B] are [l], the newest
    first; the size is a power of two and the mask belongs to it. *)
Record cb_rep {T} (m : memory T) (B : PH_CIRCULAR_BUFFER) (l : list T) : Prop := {
  cr_size : ∃ k, 0 ≤ k ≤ 31 ∧ Size B = 2 ^ k;
  cr_mask : SizeMinusOne B = Size B - 1;
  cr_index : 0 ≤ Index B < Size B;
  cr_count : Count B = Z.of_nat (length l);
  cr_fits : Count B ≤ Size B;
  cr_data : ∃ cells, m !! Data B = Some cells ∧ Z.of_nat (length cells) = Size B ∧
    take (length l) (view (Z.to_nat (Index B)) cells) = Some <$> l
}.

Section Correct.
Context {T : Type}.
Implicit Types (m : memory T) (B : PH_CIRCULAR_BUFFER) (l : list T).

Lemma cb_size_bound m B l : cb_rep m B l → 1 ≤ Size B ≤ 2 ^ 31.
Proof using Type.
  intros [(k & Hk & ->)]. split; [|apply Z.pow_le_mono_r; lia].
  assert (0 < 2 ^ k) by (apply Z.pow_pos_nonneg; lia). lia.
Qed.

Lemma slot_mod m B l i : cb_rep m B l → slot B i = (Index B + i) mod Size B.
Proof using Type.
  intros [(k & Hk & Hs) Hm]. unfold slot, u32. rewrite Hm, Hs, land_pow2, mod_mod_pow2; lia.
Qed.

Lemma slot_nat m B l i :
  cb_rep m B l → 0 ≤ i < Size B →
  slot B i = Z.of_nat (if decide (Z.to_nat (Index B) + Z.to_nat i < Z.to_nat (Size B))%nat
                       then Z.to_nat (Index B) + Z.to_nat i
                       else Z.to_nat (Index B) + Z.to_nat i - Z.to_nat (Size B)).
Proof using Type.
  intros Hrep Hi. rewrite (slot_mod m B l) by done. destruct Hrep as [_ _ Hidx _ _ _].
  case_decide; symmetry.
  - apply Z.mod_unique with (q := 0); lia.
  - apply Z.mod_unique with (q := 1); lia.
Qed.

Lemma slot_previous m B l :
  cb_rep m B l →
  slot B (-1) = Z.of_nat (if decide (Z.to_nat (Index B) = 0)%nat then Z.to_nat (Size B) - 1
                          else Z.to_nat (Index B) - 1).
Proof using Type.
  intros Hrep. rewrite (slot_mod m B l) by done. destruct Hrep as [_ _ Hidx _ _ _].
  case_decide; symmetry.
  - apply Z.mod_unique with (q := -1); lia.
  - apply Z.mod_unique with (q := 0); lia.
Qed.

Lemma wp_cell_load m p i cells v (Q : option T → memory T → Prop) :
  m !! p = Some cells → 0 ≤ i → cells !! Z.to_nat i = Some v → Q v m → wp (cell_load p i) Q m.
Proof using Type.
  intros Hp Hi Hv HQ. exists v, m. split; [|done]. unfold cell_load. by rewrite Hp, decide_True, Hv.
Qed.

Lemma wp_cell_store m p i cells v (Q : unit → memory T → Prop) :
  m !! p = Some cells → 0 ≤ i < Z.of_nat (length cells) → Q tt (<[p := <[Z.to_nat i := v]> cells]> m) →
  wp (cell_store p i v) Q m.
Proof using Type.
  intros Hp Hi HQ. eexists tt, _. split; [|exact HQ]. unfold cell_store. by rewrite Hp, decide_True.
Qed.

Lemma wp_memcpy m dst di src si n d s (Q : unit → memory T → Prop) :
  m !! dst = Some d → m !! src = Some s → 0 ≤ di → 0 ≤ si → 0 ≤ n →
  di + n ≤ Z.of_nat (length d) → si + n ≤ Z.of_nat (length s) →
  Q tt (<[dst := take (Z.to_nat di) d ++ take (Z.to_nat n) (drop (Z.to_nat si) s) ++
                  drop (Z.to_nat (di + n)) d]> m) →
  wp (memcpy dst di src si n) Q m.
Proof using Type.
  intros Hd Hs ????? HQ. eexists tt, _. split; [|exact HQ]. unfold memcpy.
  by rewrite Hd, Hs, decide_True.
Qed.

Lemma cb_init_ok m size (Q : PH_CIRCULAR_BUFFER → memory T → Prop) :
  1 ≤ size ≤ 2 ^ 31 →
  (∀ B m', cb_rep m' B [] → Size B = 2 ^ Z.log2_up size → Data B ∉ dom m →
     m' = <[Data B := replicate (Z.to_nat (Size B)) None]> m → Q B m') →
  wp (PhInitializeCircularBuffer size) Q m.
Proof using Type.
  intros Hsz HQ. unfold PhInitializeCircularBuffer. rewrite round_up_value by done.
  set (n := 2 ^ Z.log2_up size) in *.
  assert (0 ≤ Z.log2_up size ≤ 31) as Hk.
  { split; [apply Z.log2_up_nonneg|]. change 31 with (Z.log2_up (2 ^ 31)). apply Z.log2_up_le_mono. lia. }
  assert (1 ≤ n ≤ 2 ^ 31) as Hn.
  { split; [|apply Z.pow_le_mono_r; lia]. assert (0 < n) by (apply Z.pow_pos_nonneg; lia). lia. }
  enter_bind. eexists _, _. split; [reflexivity|]. apply wp_ret. rewrite u32_small by lia.
  apply HQ; cbn [Size Data]; [|done|apply is_fresh|done].
  split; cbn [Size SizeMinusOne Count Index Data]; [by exists (Z.log2_up size)|done|lia|done|lia|].
  eexists. split; [apply lookup_insert_eq|]. rewrite length_replicate. split; [lia|done].
Qed.

Lemma cb_get_ok m B l i v (Q : option T → memory T → Prop) :
  cb_rep m B l → 0 ≤ i → l !! Z.to_nat i = Some v → Q (Some v) m → wp (PhGetItemCircularBuffer B i) Q m.
Proof using Type.
  intros Hrep Hi Hv HQ. pose proof (lookup_lt_Some _ _ _ Hv) as Hlt.
  pose proof Hrep as [_ _ Hidx Hc Hf (cells & Hd & Hlen & Hl)].
  unfold PhGetItemCircularBuffer. rewrite (slot_nat m B l) by (done || lia).
  eapply wp_cell_load; [done|lia| |exact HQ]. rewrite Nat2Z.id, <-Hlen, Nat2Z.id.
  rewrite <-view_lookup by lia. apply (f_equal (lookup (Z.to_nat i))) in Hl.
  by rewrite lookup_take_lt, list_lookup_fmap, Hv in Hl.
Qed.

(** Adding writes in front and drops what no longer fits. *)
Lemma cb_add_state m B l v cells index :
  cb_rep m B l → m !! Data B = Some cells → index = slot B (-1) →
  cb_rep (<[Data B := <[Z.to_nat index := Some v]> cells]> m)
    (CircularBuffer (Size B) (SizeMinusOne B) (counted B) index (Data B)) (take (Z.to_nat (Size B)) (v :: l)).
Proof using Type.
  intros Hrep Hcells ->. pose proof (cb_size_bound _ _ _ Hrep) as Hsz. pose proof (slot_previous m B l Hrep) as Hslot.
  pose proof Hrep as [Hs Hm Hidx Hc Hf (cells' & Hd & Hlen & Hl)]. simplify_eq.
  assert (0 ≤ slot B (-1) < Size B) as Hb.
  { rewrite (slot_mod m B l) by done. apply Z.mod_pos_bound. lia. }
  assert (Z.to_nat (Size B) = length cells) as Hn by lia.
  split; cbn [Size SizeMinusOne Count Index Data]; [done|done|done| | |].
  - unfold counted. rewrite length_take. simpl length.
    destruct (Z.ltb_spec (Count B) (Size B)); [rewrite u32_small by lia|]; lia.
  - unfold counted. destruct (Z.ltb_spec (Count B) (Size B)); [rewrite u32_small by lia|]; lia.
  - eexists. split; [apply lookup_insert_eq|]. rewrite length_insert. split; [done|].
    rewrite Hslot, Nat2Z.id, Hn.
    rewrite (view_push (Z.to_nat (Index B)) cells (Some v)) by lia.
    rewrite length_take. simpl length. destruct cells as [|c cells]; [simpl in Hlen; lia|].
    remember (c :: cells) as cs eqn:Hcs. assert (length cs = S (length cs - 1)) as Hpos by (subst; simpl; lia).
    rewrite Hpos at 1. rewrite <-Nat.succ_min_distr. cbn [take]. rewrite Hpos at 3. cbn [take fmap list_fmap].
    f_equal. rewrite fmap_take, <-Hl, !take_take. f_equal. lia.
Qed.

Lemma cb_add_ok m B l v (Q : PH_CIRCULAR_BUFFER → memory T → Prop) :
  cb_rep m B l →
  (∀ B' m', cb_rep m' B' (take (Z.to_nat (Size B)) (v :: l)) → Size B' = Size B → Data B' = Data B →
     (∀ p, p ≠ Data B → m' !! p = m !! p) → Q B' m') →
  wp (PhAddItemCircularBuffer B v) Q m.
Proof using Type.
  intros Hrep HQ. pose proof (cb_size_bound _ _ _ Hrep) as Hsz.
  pose proof Hrep as [_ _ Hidx _ _ (cells & Hd & Hlen & _)].
  assert (0 ≤ slot B (-1) < Size B) as Hb.
  { rewrite (slot_mod m B l) by done. apply Z.mod_pos_bound. lia. }
  unfold PhAddItemCircularBuffer. rewrite i32_small by lia. enter_bind.
  eapply wp_cell_store; [done|lia|]. apply wp_ret, HQ; [by apply cb_add_state|done|done|].
  intros p Hp. by rewrite lookup_insert_ne.
Qed.

(** The variant that returns what it overwrites: the item that drops out of a
    full buffer. *)
Lemma cb_add2_ok m B l v (Q : option T * PH_CIRCULAR_BUFFER → memory T → Prop) :
  cb_rep m B l →
  (∀ old B' m', cb_rep m' B' (take (Z.to_nat (Size B)) (v :: l)) → Size B' = Size B → Data B' = Data B →
     (Count B = Size B → old = last l) →
     (∀ p, p ≠ Data B → m' !! p = m !! p) → Q (old, B') m') →
  wp (PhAddItemCircularBuffer2 B v) Q m.
Proof using Type.
  intros Hrep HQ. pose proof (cb_size_bound _ _ _ Hrep) as Hsz.
  pose proof Hrep as [_ _ Hidx Hc _ (cells & Hd & Hlen & Hl)].
  assert (0 ≤ slot B (-1) < Size B) as Hb.
  { rewrite (slot_mod m B l) by done. apply Z.mod_pos_bound. lia. }
  unfold PhAddItemCircularBuffer2. rewrite i32_small by lia.
  destruct (lookup_lt_is_Some_2 cells (Z.to_nat (slot B (-1)))) as [old Hold]; [lia|]. enter_bind.
  eapply wp_cell_load; [done|lia|done|]. enter_bind.
  eapply wp_cell_store; [done|lia|]. apply wp_ret, HQ; [by apply cb_add_state|done|done| |].
  - intros Hfull. rewrite take_ge in Hl by (rewrite view_length; lia).
    rewrite last_lookup. apply (f_equal (lookup (pred (length l)))) in Hl.
    rewrite list_lookup_fmap, view_lookup in Hl by lia.
    rewrite (slot_previous m B l), Nat2Z.id in Hold by done.
    destruct (lookup_lt_is_Some_2 l (pred (length l))) as [x Hx]; [lia|]. rewrite Hx in Hl |- *.
    enough (Some old = Some (Some x)) by congruence. etrans; [symmetry; exact Hold|]. etrans; [|exact Hl].
    f_equal. repeat case_decide; lia.
  - intros p Hp. by rewrite lookup_insert_ne.
Qed.

Lemma cb_set_ok m B l i v (Q : unit → memory T → Prop) :
  cb_rep m B l → 0 ≤ i < Count B →
  (∀ m', cb_rep m' B (<[Z.to_nat i := v]> l) → (∀ p, p ≠ Data B → m' !! p = m !! p) → Q tt m') →
  wp (PhSetItemCircularBuffer B i v) Q m.
Proof using Type.
  intros Hrep Hi HQ. pose proof Hrep as [Hs Hm Hidx Hc Hf (cells & Hd & Hlen & Hl)].
  unfold PhSetItemCircularBuffer. rewrite (slot_nat m B l) by (done || lia).
  eapply wp_cell_store; [done|case_decide; lia|]. rewrite Nat2Z.id. apply HQ; [|by intros p Hp; rewrite lookup_insert_ne].
  split; try done; rewrite ?length_insert; try done.
  eexists. split; [apply lookup_insert_eq|]. rewrite length_insert. split; [done|].
  apply list_eq. intros j. rewrite list_lookup_fmap.
  destruct (Nat.lt_ge_cases j (length l)) as [Hj|Hj].
  - rewrite lookup_take_lt, view_lookup by (rewrite ?length_insert; lia). rewrite length_insert.
    apply (f_equal (lookup j)) in Hl. rewrite lookup_take_lt, list_lookup_fmap, view_lookup in Hl by lia.
    rewrite !list_lookup_insert. rewrite <-Hlen, Nat2Z.id.
    destruct (decide (Z.to_nat i = j)) as [<-|Hne].
    + rewrite !decide_True; [done|lia|]. split; [done|]. case_decide; lia.
    + rewrite (decide_False (P := Z.to_nat i = j ∧ _)) by tauto. rewrite <-Hl.
      rewrite decide_False; [done|]. intros [He _]. repeat case_decide; lia.
  - rewrite lookup_take_ge by lia. by rewrite (proj2 (lookup_ge_None _ _)) by (rewrite length_insert; lia).
Qed.

(** What the two copies of [PhCopyCircularBuffer] and [PhResizeCircularBuffer] put
    at the front of their destination. *)
Lemma copy_view {A} (cells : list A) idx n :
  (idx ≤ length cells)%nat →
  take n (view idx cells) =
    take n (drop idx cells) ++ take (n - (length cells - idx)) (take idx cells).
Proof using Type. intros Hidx. unfold view. by rewrite take_app, length_drop. Qed.

(** The tail alone, and the tail followed by a part of the head. *)
Lemma copy_tail_ok m dst d src cells idx n (Q : unit → memory T → Prop) :
  m !! dst = Some d → m !! src = Some cells →
  0 ≤ idx → 0 ≤ n → n ≤ Z.of_nat (length cells) - idx → n ≤ Z.of_nat (length d) →
  Q tt (<[dst := take (Z.to_nat n) (view (Z.to_nat idx) cells) ++ drop (Z.to_nat n) d]> m) →
  wp (memcpy dst 0 src idx n) Q m.
Proof using Type.
  intros Hd Hs Hi Hn Ht Hl HQ. eapply wp_memcpy; [done..|lia|lia|lia|lia|lia|].
  rewrite Z.add_0_l. rewrite copy_view in HQ by lia.
  replace (Z.to_nat n - _)%nat with 0%nat in HQ by lia. by rewrite take_0, app_nil_r in HQ.
Qed.

Lemma copy_both_ok {R} m dst d src cells idx tail n (k : ST (memory T) R) (Q : R → memory T → Prop) :
  m !! dst = Some d → m !! src = Some cells → dst ≠ src →
  0 ≤ idx → tail = Z.of_nat (length cells) - idx → 0 ≤ tail ≤ n → n ≤ Z.of_nat (length cells) →
  n ≤ Z.of_nat (length d) →
  wp k Q (<[dst := take (Z.to_nat n) (view (Z.to_nat idx) cells) ++ drop (Z.to_nat n) d]> m) →
  wp (memcpy dst 0 src idx tail ;; memcpy dst tail src 0 (n - tail) ;; k) Q m.
Proof using Type.
  intros Hd Hs Hne Hi Htail Htn Hnc Hnd HQ. enter_bind. eapply wp_memcpy; [done..|lia|lia|lia|lia|lia|].
  rewrite Z.add_0_l. change (Z.to_nat 0) with 0%nat. rewrite take_0, app_nil_l.
  set (t := take (Z.to_nat tail) _).
  assert (length t = Z.to_nat tail) as Ht by (subst t; rewrite length_take, length_drop; lia). enter_bind.
  eapply wp_memcpy; [apply lookup_insert_eq|by rewrite lookup_insert_ne|lia|lia|lia| |lia|].
  { rewrite length_app, length_drop. lia. }
  rewrite insert_insert_eq. change (Z.to_nat 0) with 0%nat. rewrite drop_0.
  rewrite <-Ht at 1. rewrite take_app_length, (drop_app_ge t), drop_drop by lia.
  rewrite copy_view in HQ by lia. replace (take (Z.to_nat n) (drop (Z.to_nat idx) cells)) with t in HQ.
  - rewrite <-app_assoc, take_take in HQ.
    replace (_ `min` _)%nat with (Z.to_nat (n - tail)) in HQ by lia.
    by replace (Z.to_nat tail + _)%nat with (Z.to_nat n) by lia.
  - subst t. rewrite !take_ge by (rewrite length_drop; lia). done.
Qed.

Lemma wp_ret_unit (c : ST (memory T) unit) (Q : unit → memory T → Prop) s :
  wp (c ;; mret tt) Q s → wp c Q s.
Proof using Type.
  intros (a & s' & Hrun & HQ). unfold mbind, ST_bind in Hrun. destruct (c s) as [[[] s1]|] eqn:Hm; [|done].
  exists tt, s1. injection Hrun as <- <-. done.
Qed.

Lemma cb_copy_ok m B l dst d count (Q : unit → memory T → Prop) :
  cb_rep m B l → m !! dst = Some d → dst ≠ Data B → 0 ≤ count < 2 ^ 32 →
  Z.min count (Count B) ≤ Z.of_nat (length d) →
  Q tt (<[dst := (Some <$> take (Z.to_nat count) l) ++ drop (length (take (Z.to_nat count) l)) d]> m) →
  wp (PhCopyCircularBuffer B dst count) Q m.
Proof using Type.
  intros Hrep Hd Hne Hcnt Hfit HQ. pose proof (cb_size_bound _ _ _ Hrep) as Hsz.
  pose proof Hrep as [Hs Hm Hidx Hc Hf (cells & Hcells & Hlen & Hl)].
  unfold PhCopyCircularBuffer. rewrite u32_small by lia.
  set (n := if Count B <? count then Count B else count).
  assert (n = Z.min count (Count B)) as Hn by (subst n; destruct (Z.ltb_spec (Count B) count); lia).
  assert (length (take (Z.to_nat count) l) = Z.to_nat n) as Hlt by (rewrite length_take; lia).
  assert (Some <$> take (Z.to_nat count) l = take (Z.to_nat n) (view (Z.to_nat (Index B)) cells)) as Hv.
  { rewrite fmap_take, <-Hl, take_take. f_equal. lia. }
  rewrite Hv, Hlt in HQ. destruct (Z.leb_spec n (Size B - Index B)).
  - eapply copy_tail_ok; [done..|lia|lia|lia|lia|exact HQ].
  - rewrite u32_small by lia. apply wp_ret_unit, wp_unassoc.
    eapply copy_both_ok; [done..|lia|lia|lia|lia|lia|]. by apply wp_ret.
Qed.

(** Resizing is safe when the buffer gets smaller, or when its items reach the
    end of the array; the old array stays allocated. *)
Lemma cb_resize_ok m B l NewSize (Q : PH_CIRCULAR_BUFFER → memory T → Prop) :
  cb_rep m B l → 1 ≤ NewSize ≤ 2 ^ 31 →
  (2 ^ Z.log2_up NewSize ≤ Size B ∨ Size B - Index B ≤ Count B) →
  (∀ B' m', cb_rep m' B' (take (Z.to_nat (Size B')) l) → Size B' = 2 ^ Z.log2_up NewSize →
     (∀ p, p ∈ dom m → m' !! p = m !! p) →
     (if decide (Size B' = Size B) then B' = B ∧ m' = m else Data B' ∉ dom m) → Q B' m') →
  wp (PhResizeCircularBuffer B NewSize) Q m.
Proof using Type.
  intros Hrep HN Hsafe HQ. pose proof (cb_size_bound _ _ _ Hrep) as Hsz.
  pose proof Hrep as [Hs Hm Hidx Hc Hf (cells & Hcells & Hlen & Hl)].
  unfold PhResizeCircularBuffer. rewrite round_up_value by done. set (n := 2 ^ Z.log2_up NewSize) in *.
  assert (0 ≤ Z.log2_up NewSize ≤ 31) as Hk.
  { split; [apply Z.log2_up_nonneg|]. change 31 with (Z.log2_up (2 ^ 31)). apply Z.log2_up_le_mono. lia. }
  assert (1 ≤ n ≤ 2 ^ 31) as Hn.
  { split; [|apply Z.pow_le_mono_r; lia]. assert (0 < n) by (apply Z.pow_pos_nonneg; lia). lia. }
  destruct (Z.eqb_spec n (Size B)) as [Heq|Hneq].
  { apply wp_ret, HQ; [|done..|by rewrite decide_True]. by rewrite take_ge by lia. }
  enter_bind. eexists _, _. split; [reflexivity|]. set (p := fresh (dom m)). set (d := replicate (Z.to_nat n) None).
  assert (p ∉ dom m) as Hp by apply is_fresh.
  assert (p ≠ Data B) as Hpne by (intros ->; apply Hp; by eapply elem_of_dom_2).
  assert (length d = Z.to_nat n) as Hd by apply length_replicate.
  rewrite !(u32_small (Size B - Index B)), (u32_small (n - 1)) by lia.
  assert (∀ count j, count = Z.min n (Count B) → (Z.to_nat count ≤ j ≤ Z.to_nat n)%nat →
    (j ≤ length cells)%nat →
    cb_rep (<[p := take j (view (Z.to_nat (Index B)) cells) ++ drop j d]> (<[p := d]> m))
      (CircularBuffer n (n - 1) count 0 p) (take (Z.to_nat n) l)) as Hrep'.
  { intros count j Hcount Hj Hjc. rewrite insert_insert_eq.
    split; cbn [Size SizeMinusOne Count Index Data]; [by exists (Z.log2_up NewSize)|done|lia| |lia|].
    - rewrite length_take. lia.
    - eexists. split; [apply lookup_insert_eq|].
      rewrite length_app, length_take, view_length, length_drop by lia. split; [lia|].
      rewrite length_take. change (Z.to_nat 0) with 0%nat. unfold view at 1. rewrite drop_0, take_0, app_nil_r.
      rewrite take_app_le by (rewrite length_take, view_length; lia).
      rewrite take_take, fmap_take, <-Hl, take_take. f_equal. lia. }
  assert (∀ m', (∃ ws, m' = <[p := ws]> (<[p := d]> m)) → ∀ q, q ∈ dom m → m' !! q = m !! q) as Hfr.
  { intros m' [ws ->] q Hq. rewrite !lookup_insert_ne by (intros ->; done). done. }
  destruct (Z.ltb_spec (Size B) n) as [Hgrow|Hshrink].
  - rewrite u32_small by lia. eapply copy_both_ok;
      [apply lookup_insert_eq|by rewrite lookup_insert_ne|done|lia|lia|lia|lia|lia|].
    apply wp_ret, HQ; cbn [Size Data]; [apply Hrep'; lia|done|apply Hfr; by eexists|by rewrite decide_False].
  - set (count := if n <? Count B then n else Count B).
    assert (count = Z.min n (Count B)) as Hcount by (subst count; destruct (Z.ltb_spec n (Count B)); lia).
    destruct (Z.leb_spec n (Size B - Index B)).
    + enter_bind. eapply copy_tail_ok; [apply lookup_insert_eq|by rewrite lookup_insert_ne|lia|lia|lia|lia|].
      apply wp_ret, HQ; cbn [Size Data]; [apply Hrep'; lia|done|apply Hfr; by eexists|by rewrite decide_False].
    + rewrite u32_small by lia. apply wp_unassoc. eapply copy_both_ok;
        [apply lookup_insert_eq|by rewrite lookup_insert_ne|done|lia|lia|lia|lia|lia|].
      apply wp_ret, HQ; cbn [Size Data]; [apply Hrep'; lia|done|apply Hfr; by eexists|by rewrite decide_False].
Qed.

(** Enlarging a buffer whose items do not reach the end of the array: [headSize]
    wraps below zero, and the second copy runs out of the arrays. *)
Lemma cb_resize_fault m B l NewSize :
  cb_rep m B l → 1 ≤ NewSize ≤ 2 ^ 31 → Size B < 2 ^ Z.log2_up NewSize → Count B < Size B - Index B →
  PhResizeCircularBuffer B NewSize m = None.
Proof using Type.
  intros Hrep HN Hgrow Hshort. pose proof (cb_size_bound _ _ _ Hrep) as Hsz.
  pose proof Hrep as [Hs Hm Hidx Hc Hf (cells & Hcells & Hlen & Hl)].
  unfold PhResizeCircularBuffer. rewrite round_up_value by done. set (n := 2 ^ Z.log2_up NewSize) in *.
  rewrite (proj2 (Z.eqb_neq _ _)), (proj2 (Z.ltb_lt _ _)) by lia.
  unfold mbind, ST_bind at 1. cbn [PhAllocate]. set (p := fresh (dom m)).
  assert (p ∉ dom m) as Hp by apply is_fresh.
  assert (p ≠ Data B) as Hpne by (intros ->; apply Hp; by eapply elem_of_dom_2).
  unfold ST_bind. destruct (memcpy p 0 _ _ _ _) as [[u m1]|] eqn:Hcopy; [|done].
  assert (m1 !! Data B = Some cells) as Hsrc.
  { unfold memcpy in Hcopy. rewrite lookup_insert_eq, lookup_insert_ne, Hcells in Hcopy by done.
    case_decide; [|done]. injection Hcopy as _ <-. by rewrite !lookup_insert_ne. }
  unfold memcpy. rewrite Hsrc. destruct (m1 !! p); [|done].
  assert (n ≤ 2 ^ 31) as Hn.
  { apply Z.pow_le_mono_r; [lia|]. change 31 with (Z.log2_up (2 ^ 31)). apply Z.log2_up_le_mono. lia. }
  assert (u32 (Count B - (Size B - Index B)) = Count B - (Size B - Index B) + 2 ^ 32) as Hhead.
  { symmetry. apply Z.mod_unique with (q := -1); lia. }
  rewrite (u32_small (Size B - _)), Hhead by lia. rewrite decide_False by lia. done.
Qed.
End Correct.

(** ** What the buffer promises *)

Section Theorems.
Context {T : Type}.

(** Adding a sequence of values. *)
Fixpoint cb_add_items (Buffer : PH_CIRCULAR_BUFFER) (values : list T) : ST (memory T) PH_CIRCULAR_BUFFER :=
  match values with
  | [] => mret Buffer
  | v :: values => Buffer ← PhAddItemCircularBuffer Buffer v; cb_add_items Buffer values
  end.

Lemma cb_add_items_ok (values : list T) : ∀ m B l,
  cb_rep m B l →
  wp (cb_add_items B values) (λ B' m',
    cb_rep m' B' (take (Z.to_nat (Size B)) (reverse values ++ l)) ∧ Size B' = Size B) m.
Proof using Type.
  induction values as [|v values IH]; intros m B l Hrep; cbn [cb_add_items].
  - apply wp_ret. split; [|done]. rewrite take_ge; [done|]. destruct Hrep as [_ _ _ Hc Hf _].
    change (reverse [] ++ l) with l. lia.
  - enter_bind. apply (cb_add_ok m B l v); [done|]. intros B1 m1 Hrep1 Hsz _ _.
    eapply wp_mono; [apply (IH m1 B1 _ Hrep1)|]. intros B2 m2 [Hrep2 Hsz2]. rewrite Hsz in *. split; [|done].
    revert Hrep2. rewrite reverse_cons, <-app_assoc. cbn [app].
    generalize (Z.to_nat (Size B)) as n, (reverse values) as k, (v :: l) as l'. intros n k l'.
    rewrite !take_app, take_take. by replace (Nat.min (n - length k) n) with (n - length k)%nat by lia.
Qed.

(** C4. The buffer keeps the history: after any sequence of additions to a new
    buffer, reading the item [i] returns the value that was added [i] additions
    before the last one, for as many items as the rounded size holds. *)
Theorem cb_history (m : memory T) (size : Z) (values : list T) :
  1 ≤ size ≤ 2 ^ 31 →
  ∃ B m',
    (B ← PhInitializeCircularBuffer size; cb_add_items B values) m = Some (B, m') ∧
    Size B = 2 ^ Z.log2_up size ∧ Count B = Z.min (Size B) (Z.of_nat (length values)) ∧
    cb_rep m' B (take (Z.to_nat (Size B)) (reverse values)) ∧
    ∀ i v, (Z.of_nat i < Size B) → reverse values !! i = Some v →
      PhGetItemCircularBuffer B (Z.of_nat i) m' = Some (Some v, m').
Proof using Type.
  intros Hsz.
  assert (wp (B ← PhInitializeCircularBuffer size; cb_add_items B values) (λ B m',
    cb_rep m' B (take (Z.to_nat (Size B)) (reverse values)) ∧ Size B = 2 ^ Z.log2_up size) m)
    as (B & m' & Hrun & Hrep & Hs).
  { enter_bind. apply cb_init_ok; [done|]. intros B0 m0 Hrep0 Hs0 _ _.
    eapply wp_mono; [by apply cb_add_items_ok|]. intros B1 m1 [Hrep1 Hs1]. rewrite app_nil_r in Hrep1.
    rewrite Hs1. done. }
  exists B, m'. pose proof (cb_size_bound _ _ _ Hrep). split_and!; [done|done| |done|].
  - destruct Hrep as [_ _ _ Hc _ _]. rewrite Hc, length_take, length_reverse. lia.
  - intros i v Hi Hv. apply wp_eq. eapply cb_get_ok; [done|lia| |done]. rewrite Nat2Z.id, lookup_take_lt; [done|lia].
Qed.

(** Writing to an item, and the addition that returns what it overwrites: the
    other items are unchanged; a full buffer gives its oldest item back. *)
Theorem cb_set_and_replace (m : memory T) (B : PH_CIRCULAR_BUFFER) (l : list T) (v : T) :
  cb_rep m B l →
  (∀ i, 0 ≤ i < Count B → ∃ m',
     PhSetItemCircularBuffer B i v m = Some (tt, m') ∧ cb_rep m' B (<[Z.to_nat i := v]> l)) ∧
  ∃ old B' m', PhAddItemCircularBuffer2 B v m = Some ((old, B'), m') ∧
    cb_rep m' B' (take (Z.to_nat (Size B)) (v :: l)) ∧ (Count B = Size B → old = last l).
Proof using Type.
  intros Hrep. split.
  - intros i Hi. destruct (cb_set_ok m B l i v (λ _ m', cb_rep m' B (<[Z.to_nat i := v]> l)))
      as ([] & m' & Hrun & Hrep'); [done..|]. by exists m'.
  - destruct (cb_add2_ok m B l v (λ r m', cb_rep m' r.2 (take (Z.to_nat (Size B)) (v :: l)) ∧
      (Count B = Size B → r.1 = last l))) as ([old B'] & m' & Hrun & Hrep' & Hold); [done|by intros|].
    by exists old, B', m'.
Qed.

(** Copying writes the newest items, at most [count] of them, to the front of the
    destination and leaves the rest of it alone. *)
Theorem cb_copy (m : memory T) (B : PH_CIRCULAR_BUFFER) (l : list T) (dst count : Z) (d : list (option T)) :
  cb_rep m B l → m !! dst = Some d → dst ≠ Data B → 0 ≤ count < 2 ^ 32 →
  Z.min count (Count B) ≤ Z.of_nat (length d) →
  PhCopyCircularBuffer B dst count m =
    Some (tt, <[dst := (Some <$> take (Z.to_nat count) l) ++ drop (length (take (Z.to_nat count) l)) d]> m).
Proof using Type. intros. apply wp_eq. by eapply cb_copy_ok. Qed.

(** Resizing keeps the newest items that fit when the buffer shrinks, or when
    its items reach the end of its array (as those of a full buffer do), and
    leaves the old array allocated; enlarging a buffer whose items do not reach
    the end copies outside of the arrays. *)
Theorem cb_resize (m : memory T) (B : PH_CIRCULAR_BUFFER) (l : list T) (NewSize : Z) :
  cb_rep m B l → 1 ≤ NewSize ≤ 2 ^ 31 →
  if decide (2 ^ Z.log2_up NewSize ≤ Size B ∨ Size B - Index B ≤ Count B) then
    ∃ B' m', PhResizeCircularBuffer B NewSize m = Some (B', m') ∧
      Size B' = 2 ^ Z.log2_up NewSize ∧ cb_rep m' B' (take (Z.to_nat (Size B')) l) ∧
      m' !! Data B = m !! Data B ∧ (Size B' ≠ Size B → Data B' ≠ Data B)
  else PhResizeCircularBuffer B NewSize m = None.
Proof using Type.
  intros Hrep HN. case_decide as Hd.
  - destruct (cb_resize_ok m B l NewSize (λ B' m', Size B' = 2 ^ Z.log2_up NewSize ∧
      cb_rep m' B' (take (Z.to_nat (Size B')) l) ∧
      m' !! Data B = m !! Data B ∧ (Size B' ≠ Size B → Data B' ≠ Data B)))
      as (B' & m' & Hrun & HQ); [done..| |by exists B', m'].
    destruct Hrep as [_ _ _ _ _ (cells & Hdata & _)]. apply elem_of_dom_2 in Hdata.
    intros B' m' Hrep' Hs Hfr Hnew. split_and!; [done|done|by apply Hfr|].
    intros Hne. rewrite decide_False in Hnew by done. by intros Heq; rewrite Heq in Hnew.
  - apply (cb_resize_fault m B l); [done|done|lia|lia].
Qed.
End Theorems.

(** ** Concrete inputs *)

Definition cb_sample : option (PH_CIRCULAR_BUFFER * memory Z) :=
  (B ← PhInitializeCircularBuffer 3; cb_add_items B [1; 2; 3; 4; 5; 6]) ∅.

Definition cb_sample_buffer : PH_CIRCULAR_BUFFER := CircularBuffer 4 3 4 2 0.
Definition cb_sample_memory : memory Z := {[ 0 := [Some 4; Some 3; Some 6; Some 5]; 7 := [None; None] ]}.

Lemma cb_sample_ok : cb_sample = Some (cb_sample_buffer, {[ 0 := [Some 4; Some 3; Some 6; Some 5] ]}).
Proof. vm_compute. reflexivity. Qed.

Lemma cb_sample_rep : cb_rep cb_sample_memory cb_sample_buffer [6; 5; 4; 3].
Proof.
  split; [by exists 2|done|done|done|done|]. by exists [Some 4; Some 3; Some 6; Some 5].
Qed.

Lemma cb_history_witness :
  ∃ B m', (B ← PhInitializeCircularBuffer 3; cb_add_items B [1; 2; 3; 4; 5]) (∅ : memory Z) = Some (B, m') ∧
    PhGetItemCircularBuffer B 3 m' = Some (Some 2, m').
Proof.
  destruct (cb_history (∅ : memory Z) 3 [1; 2; 3; 4; 5]) as (B & m' & Hrun & Hs & _ & _ & Hget); [done|].
  exists B, m'. split; [exact Hrun|]. apply (Hget 3%nat); [rewrite Hs|]; reflexivity.
Defined.

Lemma cb_set_and_replace_witness :
  ∃ old B' m', PhAddItemCircularBuffer2 cb_sample_buffer 7 cb_sample_memory = Some ((old, B'), m') ∧
    cb_rep m' B' [7; 6; 5; 4] ∧ old = Some 3.
Proof.
  destruct (cb_set_and_replace cb_sample_memory cb_sample_buffer [6; 5; 4; 3] 7 cb_sample_rep)
    as [_ (old & B' & m' & Hrun & Hrep & Hold)].
  exists old, B', m'. split; [exact Hrun|]. split; [exact Hrep|exact (Hold eq_refl)].
Defined.

Lemma cb_copy_witness :
  PhCopyCircularBuffer cb_sample_buffer 7 2 cb_sample_memory =
  Some (tt, <[7 := [Some 6; Some 5]]> cb_sample_memory).
Proof.
  apply (cb_copy cb_sample_memory cb_sample_buffer [6; 5; 4; 3] 7 2 [None; None]); [apply cb_sample_rep|done..].
Defined.

Lemma cb_resize_witness :
  PhResizeCircularBuffer (CircularBuffer 4 3 0 0 0) 8 cb_sample_memory = None ∧
  ∃ B' m', PhResizeCircularBuffer cb_sample_buffer 8 cb_sample_memory = Some (B', m') ∧
    cb_rep m' B' [6; 5; 4; 3].
Proof.
  assert (cb_rep cb_sample_memory (CircularBuffer 4 3 0 0 0) []) as H0.
  { split; [by exists 2|done|done|done|done|]. by exists [Some 4; Some 3; Some 6; Some 5]. }
  split; [refine (cb_resize cb_sample_memory _ [] 8 H0 _); done|].
  destruct (cb_resize cb_sample_memory cb_sample_buffer [6; 5; 4; 3] 8 cb_sample_rep (ltac:(done)))
    as (B' & m' & Hrun & Hs & Hrep & _).
  exists B', m'. split; [exact Hrun|]. rewrite Hs in Hrep. exact Hrep.
Defined.
