(* ===== verification/Hashtable.v ===== *)
(** The hashtables of [phlib/basesup.c]: chained buckets over one array of
    entries with a free list ([PhCreateHashtable] to [PhRemoveEntryHashtable]),
    and the simple hashtables, which map pointers to pointers. [PH_HASHTABLE_POWER_OF_TWO_SIZE]
    is defined, [PH_HASHTABLE_FULL_HASH] is not. *)

From S2P Require Import Prelude Numbers.

(** The user data of an entry is a type variable, so that [EntrySize] plays no
    role. *)
Record PH_HASHTABLE_ENTRY (B : Type) : Type := HashtableEntry {
  HashCode : Z;
  Next : Z;
  Body : B
}.
Arguments HashtableEntry {B}.
Arguments HashCode {B}.
Arguments Next {B}.
Arguments Body {B}.

(** An entry of the array that was never written is [None]: reading it is a
    fault. *)
Record PH_HASHTABLE (B : Type) : Type := Hashtable {
  EqualFunction : B → B → bool;
  HashFunction : B → Z;
  AllocatedBuckets : Z;
  Buckets : list Z;
  AllocatedEntries : Z;
  Entries : list (option (PH_HASHTABLE_ENTRY B));
  Count : Z;
  FreeEntry : Z;
  NextEntry : Z
}.
Arguments Hashtable {B}.
Arguments EqualFunction {B}.
Arguments HashFunction {B}.
Arguments AllocatedBuckets {B}.
Arguments Buckets {B}.
Arguments AllocatedEntries {B}.
Arguments Entries {B}.
Arguments Count {B}.
Arguments FreeEntry {B}.
Arguments NextEntry {B}.

Definition MAXLONG : Z := 2 ^ 31 - 1.

Section Operations.
Context {B : Type}.
Abbreviation table := (PH_HASHTABLE B).

(** ** Field accesses *)

Definition with_Entries (t : table) (v : list (option (PH_HASHTABLE_ENTRY B))) : table :=
  Hashtable (EqualFunction t) (HashFunction t) (AllocatedBuckets t) (Buckets t)
    (AllocatedEntries t) v (Count t) (FreeEntry t) (NextEntry t).
Definition set_Entries (v : list (option (PH_HASHTABLE_ENTRY B))) : ST table unit := λ t, Some (tt, with_Entries t v).
Definition with_Buckets (t : table) (v : list Z) : table :=
  Hashtable (EqualFunction t) (HashFunction t) (AllocatedBuckets t) v
    (AllocatedEntries t) (Entries t) (Count t) (FreeEntry t) (NextEntry t).
Definition set_Buckets (v : list Z) : ST table unit := λ t, Some (tt, with_Buckets t v).

(** [AllocatedBuckets] and [AllocatedEntries], which are set together. *)
Definition with_Allocated (t : table) (v : Z) : table :=
  Hashtable (EqualFunction t) (HashFunction t) v (Buckets t) v (Entries t) (Count t) (FreeEntry t) (NextEntry t).
Definition set_Allocated (v : Z) : ST table unit := λ t, Some (tt, with_Allocated t v).

Definition with_Count (t : table) (v : Z) : table :=
  Hashtable (EqualFunction t) (HashFunction t) (AllocatedBuckets t) (Buckets t)
    (AllocatedEntries t) (Entries t) v (FreeEntry t) (NextEntry t).
Definition set_Count (v : Z) : ST table unit := λ t, Some (tt, with_Count t v).
Definition with_FreeEntry (t : table) (v : Z) : table :=
  Hashtable (EqualFunction t) (HashFunction t) (AllocatedBuckets t) (Buckets t)
    (AllocatedEntries t) (Entries t) (Count t) v (NextEntry t).
Definition set_FreeEntry (v : Z) : ST table unit := λ t, Some (tt, with_FreeEntry t v).
Definition with_NextEntry (t : table) (v : Z) : table :=
  Hashtable (EqualFunction t) (HashFunction t) (AllocatedBuckets t) (Buckets t)
    (AllocatedEntries t) (Entries t) (Count t) (FreeEntry t) v.
Definition set_NextEntry (v : Z) : ST table unit := λ t, Some (tt, with_NextEntry t v).

(** [PH_HASHTABLE_GET_ENTRY(Hashtable, i)] and what is read through it. *)
Definition get_entry (i : Z) : ST table (PH_HASHTABLE_ENTRY B) := λ t,
  if decide (0 ≤ i) then
    match Entries t !! Z.to_nat i with
    | Some (Some e) => Some (e, t)
    | _ => None
    end
  else None.

(** Writing a whole entry, which need not have been written before. *)
Definition put_entry (i : Z) (e : PH_HASHTABLE_ENTRY B) : ST table unit := λ t,
  if decide (0 ≤ i < Z.of_nat (length (Entries t))) then
    set_Entries (<[Z.to_nat i := Some e]> (Entries t)) t
  else None.

Definition set_Next (i next : Z) : ST table unit :=
  e ← get_entry i; put_entry i (HashtableEntry (HashCode e) next (Body e)).

Definition get_bucket (i : Z) : ST table Z := λ t,
  if decide (0 ≤ i) then
    match Buckets t !! Z.to_nat i with
    | Some v => Some (v, t)
    | None => None
    end
  else None.

Definition put_bucket (i v : Z) : ST table unit := λ t,
  if decide (0 ≤ i < Z.of_nat (length (Buckets t))) then
    set_Buckets (<[Z.to_nat i := v]> (Buckets t)) t
  else None.

(** ** Hash codes and buckets *)

Definition PhpValidateHash (Hash : Z) : Z := Z.land Hash MAXLONG.

Definition PhpIndexFromHash (t : table) (Hash : Z) : Z := Z.land Hash (u32 (AllocatedBuckets t - 1)).

Definition PhpGetNumberOfBuckets (Capacity : Z) : Z := PhRoundUpToPowerOfTwo Capacity.

(** The buckets after [memset(Buckets, 0xff, ...)]. *)
Definition empty_buckets (n : Z) : list Z := replicate (Z.to_nat n) ULONG_MAX.

Definition PhCreateHashtable (EqualFunction : B → B → bool) (HashFunction : B → Z) (InitialCapacity : Z) : table :=
  (* Initial capacity of 0 is not allowed. *)
  let InitialCapacity := if InitialCapacity =? 0 then 1 else InitialCapacity in
  let n := PhpGetNumberOfBuckets InitialCapacity in
  Hashtable EqualFunction HashFunction n (empty_buckets n) n (replicate (Z.to_nat n) None) 0 ULONG_MAX 0.

(** The loop that distributes the entries among the buckets again, from entry [i]
    on; [fuel] entries are left. *)
Fixpoint redistribute (fuel : nat) (i : Z) : ST table unit :=
  match fuel with
  | O => mret tt
  | S fuel =>
      entry ← get_entry i;
      (if negb (HashCode entry =? ULONG_MAX) then
         t ← get_st;
         let index := PhpIndexFromHash t (HashCode entry) in
         head ← get_bucket index;
         set_Next i head ;;
         put_bucket index i
       else mret tt) ;;
      redistribute fuel (i + 1)
  end.

(** [PhReAllocate]: the contents are kept, the new part is not written. *)
Definition reallocate (n : Z) (es : list (option (PH_HASHTABLE_ENTRY B))) : list (option (PH_HASHTABLE_ENTRY B)) :=
  take (Z.to_nat n) es ++ replicate (Z.to_nat n - length es) None.

Definition PhpResizeHashtable (NewCapacity : Z) : ST table unit :=
  t ← get_st;
  let n := PhpGetNumberOfBuckets NewCapacity in
  set_Allocated n ;;
  set_Buckets (empty_buckets n) ;;
  set_Entries (reallocate n (Entries t)) ;;
  redistribute (Z.to_nat (NextEntry t)) 0.

(** ** Search *)

(** The loop [for (i = Buckets[index]; i != ULONG_MAX; i = entry->Next)] of the
    addition and the search; a chain has at most as many entries as the array. *)
Fixpoint find_in_bucket (fuel : nat) (hashCode : Z) (Entry : B) (i : Z) : ST table (option Z) :=
  match fuel with
  | O => fault
  | S fuel =>
      if i =? ULONG_MAX then mret None
      else
        entry ← get_entry i;
        t ← get_st;
        if (HashCode entry =? hashCode) && EqualFunction t (Body entry) Entry then mret (Some i)
        else find_in_bucket fuel hashCode Entry (Next entry)
  end.

Definition chain_fuel (t : table) : nat := S (length (Entries t)).

(** A pointer to the body of an entry is modelled by the index of the entry;
    [None] is NULL. *)
Definition PhFindEntryHashtable (Entry : B) : ST table (option Z) :=
  t ← get_st;
  let hashCode := PhpValidateHash (HashFunction t Entry) in
  i ← get_bucket (PhpIndexFromHash t hashCode);
  find_in_bucket (chain_fuel t) hashCode Entry i.

(** ** Addition *)

(** Takes an entry from the free list, or the next one of the array, which may be
    enlarged for it; the bucket is then computed again. Returns [freeEntry] and
    [index]. *)
Definition allocate_entry (hashCode index : Z) : ST table (Z * Z) :=
  t ← get_st;
  if negb (FreeEntry t =? ULONG_MAX) then
    let freeEntry := FreeEntry t in
    entry ← get_entry freeEntry;
    set_FreeEntry (Next entry) ;;
    mret (freeEntry, index)
  else
    index ← (if NextEntry t =? AllocatedEntries t then
               PhpResizeHashtable (u32 (AllocatedBuckets t * 2)) ;;
               t ← get_st; mret (PhpIndexFromHash t hashCode)
             else mret index);
    t ← get_st;
    let freeEntry := NextEntry t in
    set_NextEntry (u32 (NextEntry t + 1)) ;;
    mret (freeEntry, index).

(** The entry and whether it was added. *)
Definition PhpAddEntryHashtable (Entry : B) (CheckForDuplicate : bool) : ST table (Z * bool) :=
  t ← get_st;
  let hashCode := PhpValidateHash (HashFunction t Entry) in
  let index := PhpIndexFromHash t hashCode in
  existing ← (if CheckForDuplicate then
                i ← get_bucket index; find_in_bucket (chain_fuel t) hashCode Entry i
              else mret None);
  match existing with
  | Some i => mret (i, false)
  | None =>
      '(freeEntry, index) ← allocate_entry hashCode index;
      head ← get_bucket index;
      put_entry freeEntry (HashtableEntry hashCode head Entry) ;;
      put_bucket index freeEntry ;;
      t ← get_st;
      set_Count (u32 (Count t + 1)) ;;
      mret (freeEntry, true)
  end.

Definition PhAddEntryHashtable (Entry : B) : ST table (option Z) :=
  '(entry, added) ← PhpAddEntryHashtable Entry true;
  mret (if added : bool then Some entry else None).

Definition PhAddEntryHashtableEx (Entry : B) : ST table (Z * bool) := PhpAddEntryHashtable Entry true.

(** ** Removal *)

Fixpoint remove_from_bucket (fuel : nat) (hashCode index : Z) (Entry : B) (previousIndex i : Z) : ST table bool :=
  match fuel with
  | O => fault
  | S fuel =>
      if i =? ULONG_MAX then mret false
      else
        entry ← get_entry i;
        t ← get_st;
        if (HashCode entry =? hashCode) && EqualFunction t (Body entry) Entry then
          (* Unlink the entry from the bucket. *)
          (if previousIndex =? ULONG_MAX then put_bucket index (Next entry)
           else set_Next previousIndex (Next entry)) ;;
          put_entry i (HashtableEntry ULONG_MAX (FreeEntry t) (Body entry)) ;;
          set_FreeEntry i ;;
          set_Count (u32 (Count t - 1)) ;;
          mret true
        else remove_from_bucket fuel hashCode index Entry i (Next entry)
  end.

Definition PhRemoveEntryHashtable (Entry : B) : ST table bool :=
  t ← get_st;
  let hashCode := PhpValidateHash (HashFunction t Entry) in
  let index := PhpIndexFromHash t hashCode in
  i ← get_bucket index;
  remove_from_bucket (chain_fuel t) hashCode index Entry ULONG_MAX i.

Definition PhClearHashtable : ST table unit :=
  t ← get_st;
  if 0 <? Count t then
    set_Buckets (empty_buckets (AllocatedBuckets t)) ;;
    set_Count 0 ;;
    set_FreeEntry ULONG_MAX ;;
    set_NextEntry 0
  else mret tt.

(** ** Enumeration *)

(** The entry found, if any, and the next [EnumerationKey]. *)
Fixpoint enum_loop (fuel : nat) (EnumerationKey : Z) : ST table (option Z * Z) :=
  match fuel with
  | O => fault
  | S fuel =>
      t ← get_st;
      if EnumerationKey <? NextEntry t then
        entry ← get_entry EnumerationKey;
        if negb (HashCode entry =? ULONG_MAX) then mret (Some EnumerationKey, u32 (EnumerationKey + 1))
        else enum_loop fuel (u32 (EnumerationKey + 1))
      else mret (None, EnumerationKey)
  end.

Definition PhEnumHashtable (EnumerationKey : Z) : ST table (option Z * Z) :=
  t ← get_st; enum_loop (S (Z.to_nat (NextEntry t))) EnumerationKey.

(** What a caller's loop [while (PhEnumHashtable(Hashtable, &entry, &key))] sees. *)
Fixpoint enum_all (fuel : nat) (EnumerationKey : Z) : ST table (list B) :=
  match fuel with
  | O => fault
  | S fuel =>
      '(found, EnumerationKey) ← PhEnumHashtable EnumerationKey;
      match found with
      | None => mret []
      | Some i =>
          entry ← get_entry i;
          rest ← enum_all fuel EnumerationKey;
          mret (Body entry :: rest)
      end
  end.
End Operations.

(** ** Integer hashes *)

(** Java style. *)
Definition PhHashInt32 (Value : Z) : Z :=
  let Value := Z.lxor Value (Z.lxor (Z.shiftr Value 20) (Z.shiftr Value 12)) in
  Z.lxor (Z.lxor Value (Z.shiftr Value 7)) (Z.shiftr Value 4).

Definition PhHashInt64 (Value : Z) : Z :=
  let Value := u64 (u64 (Z.lnot Value) + u64 (Z.shiftl Value 18)) in
  let Value := Z.lxor Value (Z.shiftr Value 31) in
  let Value := u64 (Value * 21) in
  let Value := Z.lxor Value (Z.shiftr Value 11) in
  let Value := u64 (Value + u64 (Z.shiftl Value 6)) in
  let Value := Z.lxor Value (Z.shiftr Value 22) in
  u32 Value.

(** The 64-bit build. *)
Definition PhHashIntPtr (Value : Z) : Z := PhHashInt64 Value.

(** ** Simple hashtables *)

Record PH_KEY_VALUE_PAIR : Type := KeyValuePair {
  Key : Z;
  Value : Z
}.

Definition PhpSimpleHashtableEqualFunction (Entry1 Entry2 : PH_KEY_VALUE_PAIR) : bool := Key Entry1 =? Key Entry2.

Definition PhpSimpleHashtableHashFunction (Entry : PH_KEY_VALUE_PAIR) : Z := PhHashIntPtr (Key Entry).

Definition PhCreateSimpleHashtable (InitialCapacity : Z) : PH_HASHTABLE PH_KEY_VALUE_PAIR :=
  PhCreateHashtable PhpSimpleHashtableEqualFunction PhpSimpleHashtableHashFunction InitialCapacity.

(** Returns [Value], or NULL when the key is present. *)
Definition PhAddItemSimpleHashtable (key value : Z) : ST (PH_HASHTABLE PH_KEY_VALUE_PAIR) Z :=
  added ← PhAddEntryHashtable (KeyValuePair key value);
  mret (match added with Some _ => value | None => 0 end).

(** The lookup entry's [Value] is not initialized: [garbage] stands for what it
    happens to hold. The address of the value of the entry found is modelled by
    the index of the entry. *)
Definition PhFindItemSimpleHashtable (garbage key : Z) : ST (PH_HASHTABLE PH_KEY_VALUE_PAIR) (option Z) :=
  PhFindEntryHashtable (KeyValuePair key garbage).

Definition PhFindItemSimpleHashtable2 (garbage key : Z) : ST (PH_HASHTABLE PH_KEY_VALUE_PAIR) Z :=
  item ← PhFindItemSimpleHashtable garbage key;
  match item with
  | Some i => entry ← get_entry i; mret (Value (Body entry))
  | None => mret 0
  end.

Definition PhRemoveItemSimpleHashtable (garbage key : Z) : ST (PH_HASHTABLE PH_KEY_VALUE_PAIR) bool :=
  PhRemoveEntryHashtable (KeyValuePair key garbage).
