(* ===== verification/HashtableFacts.v ===== *)
(** The hashtables refine finite maps: the invariant of buckets, chains and free
    list, and the lemmas on each operation. *)

From S2P Require Import Prelude Numbers Hashtable.

(** What the callbacks owe: entries have a key; the comparison compares keys,
    and the hash depends on the key only. *)
Class KeyOk {B K : Type} (equal : B → B → bool) (hash : B → Z) (key : B → K) : Prop := {
  key_equal : ∀ x y, equal x y = true ↔ key x = key y;
  key_hash : ∀ x y, key x = key y → hash x = hash y
}.

Section Chains.
Context {B : Type}.
Implicit Types (es : list (option (PH_HASHTABLE_ENTRY B))) (t : PH_HASHTABLE B).

(** The entries [c] follow one another from the index [h] to the index [h']. *)
Fixpoint segment es (h : Z) (c : list nat) (h' : Z) : Prop :=
  match c with
  | [] => h = h'
  | i :: c => h = Z.of_nat i ∧ ∃ e, es !! i = Some (Some e) ∧ segment es (Next e) c h'
  end.

(** A whole chain. *)
Definition linked es (h : Z) (c : list nat) : Prop := segment es h c ULONG_MAX.

Lemma segment_app es h c1 c2 h'' :
  segment es h (c1 ++ c2) h'' ↔ ∃ h', segment es h c1 h' ∧ segment es h' c2 h''.
Proof using Type.
  revert h. induction c1 as [|i c1 IH]; intros h; simpl; [naive_solver|].
  setoid_rewrite IH. naive_solver.
Qed.

Lemma segment_frame es es' h c h' :
  segment es h c h' → (∀ i, i ∈ c → es' !! i = es !! i) → segment es' h c h'.
Proof using Type.
  revert h. induction c as [|i c IH]; intros h; [done|]. intros (-> & e & He & Hl) Hfr. split; [done|].
  exists e. rewrite Hfr by set_solver. split; [done|]. apply IH; [done|]. set_solver.
Qed.

Lemma segment_insert es h c h' i e : segment es h c h' → i ∉ c → segment (<[i := e]> es) h c h'.
Proof using Type.
  intros Hl Hi. eapply segment_frame; [done|]. intros j Hj. apply list_lookup_insert_ne. by intros ->.
Qed.

Lemma linked_entry es h c i : linked es h c → i ∈ c → ∃ e, es !! i = Some (Some e).
Proof using Type.
  unfold linked. intros Hl (c1 & c2 & ->)%list_elem_of_split.
  apply segment_app in Hl as (h' & _ & Hl). destruct Hl as (_ & e & He & _). by exists e.
Qed.

Lemma linked_lt es h c i : linked es h c → i ∈ c → (i < length es)%nat.
Proof using Type. intros Hl Hi. destruct (linked_entry es h c i) as [e He]; [done..|]. by eapply lookup_lt_Some. Qed.

(** A chain without repetitions is no longer than the array. *)
Lemma linked_length es h c : linked es h c → NoDup c → (length c ≤ length es)%nat.
Proof using Type.
  intros Hl Hnd. rewrite <-(length_seq (length es) 0). apply submseteq_length, NoDup_submseteq; [done|].
  intros i Hi. apply elem_of_seq. split; [lia|]. by apply (linked_lt es h c).
Qed.

(** Unlinking [i] after [j], and in front. *)
Lemma unlink_after es h c0 j i c2 ej ei :
  linked es h ((c0 ++ [j]) ++ i :: c2) → NoDup ((c0 ++ [j]) ++ i :: c2) →
  es !! j = Some (Some ej) → es !! i = Some (Some ei) →
  linked (<[j := Some (HashtableEntry (HashCode ej) (Next ei) (Body ej))]> es) h ((c0 ++ [j]) ++ c2).
Proof using Type.
  unfold linked. intros (h2 & (h1 & H0 & H1)%segment_app & H2)%segment_app Hnd Hj Hi. apply segment_app.
  simpl in H1, H2. destruct H1 as (-> & ej' & Hj' & H1). destruct H2 as (-> & ei' & Hi' & H2).
  assert (ei' = ei) as -> by congruence. assert (ej' = ej) as -> by congruence.
  assert (j ∉ c0 ∧ j ∉ c2) as [Hj0 Hj2].
  { apply NoDup_app in Hnd as (Hnd0 & Hd & _). apply NoDup_app in Hnd0 as (_ & Hd0 & _). split.
    - intros Hin. apply (Hd0 j Hin). set_solver.
    - intros Hin. apply (Hd j); set_solver. }
  exists (Next ei). split; [|by apply segment_insert]. apply segment_app. exists (Z.of_nat j).
  split; [by apply segment_insert|]. split; [done|].
  exists (HashtableEntry (HashCode ej) (Next ei) (Body ej)). split; [|done].
  apply list_lookup_insert_eq. by eapply lookup_lt_Some.
Qed.
End Chains.

Section Access.
Context {B : Type}.
Implicit Types (t : PH_HASHTABLE B).

Lemma wp_get_entry t i e (Q : PH_HASHTABLE_ENTRY B → PH_HASHTABLE B → Prop) :
  Entries t !! i = Some (Some e) → Q e t → wp (get_entry (Z.of_nat i)) Q t.
Proof using Type.
  intros He HQ. exists e, t. split; [|done]. unfold get_entry. by rewrite decide_True, Nat2Z.id, He by lia.
Qed.

Lemma wp_put_entry t i e (Q : unit → PH_HASHTABLE B → Prop) :
  (i < length (Entries t))%nat → Q tt (with_Entries t (<[i := Some e]> (Entries t))) →
  wp (put_entry (Z.of_nat i) e) Q t.
Proof using Type.
  intros Hi HQ. eexists tt, _. split; [|exact HQ]. unfold put_entry, set_Entries.
  by rewrite decide_True, Nat2Z.id by lia.
Qed.

Lemma wp_set_Next t i e next (Q : unit → PH_HASHTABLE B → Prop) :
  Entries t !! i = Some (Some e) →
  Q tt (with_Entries t (<[i := Some (HashtableEntry (HashCode e) next (Body e))]> (Entries t))) →
  wp (set_Next (Z.of_nat i) next) Q t.
Proof using Type.
  intros He HQ. unfold set_Next. apply wp_bind. eapply wp_get_entry; [done|].
  apply wp_put_entry; [by eapply lookup_lt_Some|done].
Qed.

Lemma wp_get_bucket t b v (Q : Z → PH_HASHTABLE B → Prop) :
  Buckets t !! b = Some v → Q v t → wp (get_bucket (Z.of_nat b)) Q t.
Proof using Type.
  intros He HQ. exists v, t. split; [|done]. unfold get_bucket. by rewrite decide_True, Nat2Z.id, He by lia.
Qed.

Lemma wp_put_bucket t b v (Q : unit → PH_HASHTABLE B → Prop) :
  (b < length (Buckets t))%nat → Q tt (with_Buckets t (<[b := v]> (Buckets t))) →
  wp (put_bucket (Z.of_nat b) v) Q t.
Proof using Type.
  intros Hi HQ. eexists tt, _. split; [|exact HQ]. unfold put_bucket, set_Buckets.
  by rewrite decide_True, Nat2Z.id by lia.
Qed.

(** The walk along a chain finds an entry that matches, or there is none. *)
Lemma find_in_bucket_ok t fuel hashCode Entry h c (Q : option Z → PH_HASHTABLE B → Prop) :
  linked (Entries t) h c → Z.of_nat (length (Entries t)) < 2 ^ 32 → (length c < fuel)%nat →
  (∀ i e, i ∈ c → Entries t !! i = Some (Some e) → HashCode e = hashCode →
     EqualFunction t (Body e) Entry = true → Q (Some (Z.of_nat i)) t) →
  ((∀ i e, i ∈ c → Entries t !! i = Some (Some e) → HashCode e = hashCode →
     EqualFunction t (Body e) Entry = true → False) → Q None t) →
  wp (find_in_bucket fuel hashCode Entry h) Q t.
Proof using Type.
  intros Hl Hsz. revert h c Hl. induction fuel as [|fuel IH]; intros h c Hl Hf Hyes Hno; [lia|].
  cbn [find_in_bucket]. destruct c as [|i c].
  { unfold linked in Hl. simpl in Hl. subst h. rewrite Z.eqb_refl. apply wp_ret, Hno. by intros ? ? ?%elem_of_nil. }
  pose proof (linked_lt _ _ _ i Hl) as Hlt. destruct Hl as (-> & e & He & Hl).
  specialize (Hlt ltac:(set_solver)). unfold ULONG_MAX. destruct (Z.eqb_spec (Z.of_nat i) (2 ^ 32 - 1)); [lia|].
  enter_bind. eapply wp_get_entry; [done|]. enter_bind. apply wp_get.
  destruct (Z.eqb_spec (HashCode e) hashCode) as [Hhc|Hhc], (EqualFunction t (Body e) Entry) eqn:Heq; simpl.
  1: apply wp_ret; eapply Hyes; [set_solver|done..].
  all: apply (IH _ c Hl); [simpl in Hf; lia|intros j ej Hj; apply Hyes; set_solver|].
  all: intros Hnone; apply Hno; intros j ej [->|Hj]%elem_of_cons; [congruence|eauto].
Qed.
End Access.

(** ** The invariant *)

Section Invariant.
Context {B K : Type} `{Countable K}.
Context (equal : B → B → bool) (hash : B → Z) (key : B → K).
Implicit Types (t : PH_HASHTABLE B) (M : gmap K B) (hole : option nat).

(** Sizes. *)
Record geometry t : Prop := {
  geo_pow : ∃ k, 0 ≤ k ≤ 31 ∧ AllocatedBuckets t = 2 ^ k;
  geo_alloc : AllocatedEntries t = AllocatedBuckets t;
  geo_buckets : Z.of_nat (length (Buckets t)) = AllocatedBuckets t;
  geo_entries : Z.of_nat (length (Entries t)) = AllocatedBuckets t;
  geo_next : 0 ≤ NextEntry t ≤ AllocatedBuckets t
}.

(** Entry [i] is in use; it is not. *)
Definition used t (i : nat) (e : PH_HASHTABLE_ENTRY B) : Prop :=
  Z.of_nat i < NextEntry t ∧ Entries t !! i = Some (Some e) ∧ HashCode e ≠ ULONG_MAX.

Definition unused t (i : nat) : Prop :=
  Z.of_nat i < NextEntry t ∧ ∃ e, Entries t !! i = Some (Some e) ∧ HashCode e = ULONG_MAX.

Definition in_bucket t (i b : nat) : Prop :=
  ∃ e, used t i e ∧ PhpIndexFromHash t (HashCode e) = Z.of_nat b.

(** The chain of every bucket holds the entries below [n] that belong to it. *)
Definition buckets_ok t (n : Z) : Prop :=
  ∀ b, (b < length (Buckets t))%nat →
    ∃ h c, Buckets t !! b = Some h ∧ linked (Entries t) h c ∧ NoDup c ∧
      ∀ i, i ∈ c ↔ Z.of_nat i < n ∧ in_bucket t i b.

Definition hole_size hole : Z := match hole with Some _ => 1 | None => 0 end.

Definition free_ok hole t : Prop :=
  ∃ c, linked (Entries t) (FreeEntry t) c ∧ NoDup c ∧ (∀ i, i ∈ c ↔ hole ≠ Some i ∧ unused t i) ∧
    Count t + Z.of_nat (length c) + hole_size hole = NextEntry t.

(** The entries in use are the elements of the map. *)
Definition contents t M : Prop :=
  (∀ k x, M !! k = Some x ↔ ∃ i e, used t i e ∧ key (Body e) = k ∧ Body e = x) ∧
  (∀ i j e f, used t i e → used t j f → key (Body e) = key (Body f) → i = j).

(** [inv hole t M]: the table holds the map; [hole] is an entry that was taken
    for an addition and is not yet written. *)
Record inv hole t M : Prop := {
  inv_equal : EqualFunction t = equal;
  inv_hash : HashFunction t = hash;
  inv_geo : geometry t;
  inv_init : ∀ i, Z.of_nat i < NextEntry t → hole ≠ Some i → ∃ e, Entries t !! i = Some (Some e);
  inv_hole : ∀ f, hole = Some f → Z.of_nat f < NextEntry t ∧ ∀ e, ¬ used t f e;
  inv_chains : buckets_ok t (NextEntry t);
  inv_free : free_ok hole t;
  inv_code : ∀ i e, used t i e → HashCode e = PhpValidateHash (hash (Body e));
  inv_contents : contents t M;
  inv_size : Count t = Z.of_nat (size M)
}.

Lemma validate_range h : 0 ≤ PhpValidateHash h < 2 ^ 31.
Proof using Type.
  unfold PhpValidateHash, MAXLONG. rewrite (land_pow2 h 31) by lia. apply Z.mod_pos_bound. lia.
Qed.

Lemma geo_size t : geometry t → 1 ≤ AllocatedBuckets t ≤ 2 ^ 31.
Proof using Type.
  intros [(k & Hk & ->) _ _ _ _]. assert (0 < 2 ^ k) by (apply Z.pow_pos_nonneg; lia).
  split; [lia|]. apply Z.pow_le_mono_r; lia.
Qed.

Lemma index_mod t h : geometry t → PhpIndexFromHash t h = h mod AllocatedBuckets t.
Proof using Type.
  intros Hg. pose proof (geo_size t Hg). destruct Hg as [(k & Hk & Hp) _ _ _ _].
  unfold PhpIndexFromHash. rewrite u32_small by lia. rewrite Hp. apply land_pow2. lia.
Qed.

Lemma index_bucket t h : geometry t → ∃ b, PhpIndexFromHash t h = Z.of_nat b ∧ (b < length (Buckets t))%nat.
Proof using Type.
  intros Hg. rewrite (index_mod t h Hg). pose proof (geo_size t Hg). destruct Hg as [_ _ Hb _ _].
  pose proof (Z.mod_pos_bound h (AllocatedBuckets t)).
  exists (Z.to_nat (h mod AllocatedBuckets t)). split; lia.
Qed.

Lemma used_lt t i e : used t i e → (i < length (Entries t))%nat.
Proof using Type. intros (_ & He & _). by eapply lookup_lt_Some. Qed.

(** ** Resizing *)

(** [t'] is [t] with the links of its entries in use, and its buckets, changed. *)
Record resembles t t' : Prop := {
  rs_equal : EqualFunction t' = EqualFunction t;
  rs_hash : HashFunction t' = HashFunction t;
  rs_alloc : AllocatedBuckets t' = AllocatedBuckets t;
  rs_allocE : AllocatedEntries t' = AllocatedEntries t;
  rs_buckets : length (Buckets t') = length (Buckets t);
  rs_entries : length (Entries t') = length (Entries t);
  rs_next : NextEntry t' = NextEntry t;
  rs_free : FreeEntry t' = FreeEntry t;
  rs_count : Count t' = Count t;
  rs_entry : ∀ i e, Entries t !! i = Some (Some e) →
    ∃ e', Entries t' !! i = Some (Some e') ∧ HashCode e' = HashCode e ∧ Body e' = Body e ∧
      (HashCode e = ULONG_MAX → e' = e);
  rs_entry' : ∀ i e', Entries t' !! i = Some (Some e') → ∃ e, Entries t !! i = Some (Some e)
}.

Lemma resembles_trans t1 t2 t3 : resembles t1 t2 → resembles t2 t3 → resembles t1 t3.
Proof using Type.
  intros [A1 A2 A3 A4 A5 A6 A7 A8 A9 A10 A11] [B1 B2 B3 B4 B5 B6 B7 B8 B9 B10 B11].
  split; try congruence.
  - intros i e He. destruct (A10 i e He) as (e2 & He2 & Hc2 & Hb2 & Hu2).
    destruct (B10 i e2 He2) as (e3 & He3 & Hc3 & Hb3 & Hu3). exists e3. split_and!; [done|congruence|congruence|].
    intros Hu. rewrite Hu3, Hu2; [done|done|congruence].
  - intros i e3 He3. destruct (B11 i e3 He3) as [e2 He2]. by apply (A11 i e2).
Qed.

Lemma resembles_geo t t' : resembles t t' → geometry t → geometry t'.
Proof using Type.
  intros [A1 A2 A3 A4 A5 A6 A7 A8 A9 A10 A11] [G1 G2 G3 G4 G5].
  split; rewrite ?A3, ?A4, ?A5, ?A6, ?A7; done.
Qed.

Lemma resembles_used t t' i e' :
  resembles t t' → used t' i e' → ∃ e, used t i e ∧ HashCode e' = HashCode e ∧ Body e' = Body e.
Proof using Type.
  intros Hr (Hi & He' & Hc). destruct (rs_entry' _ _ Hr _ _ He') as [e He].
  destruct (rs_entry _ _ Hr _ _ He) as (e2 & He2 & Hc2 & Hb2 & _). simplify_eq.
  exists e. split; [|done]. split_and!; [by rewrite <-(rs_next _ _ Hr)|done|congruence].
Qed.

Lemma used_resembles t t' i e :
  resembles t t' → used t i e → ∃ e', used t' i e' ∧ HashCode e' = HashCode e ∧ Body e' = Body e.
Proof using Type.
  intros Hr (Hi & He & Hc). destruct (rs_entry _ _ Hr _ _ He) as (e' & He' & Hc' & Hb' & _).
  exists e'. split; [|done]. split_and!; [by rewrite (rs_next _ _ Hr)|done|congruence].
Qed.

Lemma resembles_index t t' h : resembles t t' → PhpIndexFromHash t' h = PhpIndexFromHash t h.
Proof using Type. intros Hr. unfold PhpIndexFromHash. by rewrite (rs_alloc _ _ Hr). Qed.

Lemma resembles_in_bucket t t' i b : resembles t t' → in_bucket t' i b ↔ in_bucket t i b.
Proof using Type.
  intros Hr. split.
  - intros (e' & Hu & Hi). destruct (resembles_used t t' i e' Hr Hu) as (e & Hu' & Hc & _).
    exists e. split; [done|]. by rewrite <-(resembles_index t t'), <-Hc.
  - intros (e & Hu & Hi). destruct (used_resembles t t' i e Hr Hu) as (e' & Hu' & Hc & _).
    exists e'. split; [done|]. by rewrite (resembles_index t t'), Hc.
Qed.

(** One step: the entry [j] becomes the head of its bucket. *)
Definition relinked t (j b : nat) (e : PH_HASHTABLE_ENTRY B) (h : Z) : PH_HASHTABLE B :=
  let t := with_Entries t (<[j := Some (HashtableEntry (HashCode e) h (Body e))]> (Entries t)) in
  with_Buckets t (<[b := Z.of_nat j]> (Buckets t)).

Lemma relinked_resembles t j b e h : used t j e → resembles t (relinked t j b e h).
Proof using Type.
  intros (Hj & He & Hc). split; try done; cbn [relinked Buckets Entries with_Buckets with_Entries].
  - apply length_insert.
  - apply length_insert.
  - intros i e0 He0. rewrite list_lookup_insert. case_decide as Hd; [|by exists e0].
    destruct Hd as [-> Hlt]. simplify_eq. by eexists.
  - intros i e'. rewrite list_lookup_insert. case_decide as Hd; [|by eauto].
    destruct Hd as [-> Hlt]. eauto.
Qed.

Lemma relinked_ok t j b e h :
  geometry t → used t j e → PhpIndexFromHash t (HashCode e) = Z.of_nat b → Buckets t !! b = Some h →
  buckets_ok t (Z.of_nat j) → buckets_ok (relinked t j b e h) (Z.of_nat (S j)).
Proof using Type.
  intros Hg Hu Hb Hh Hok b' Hb'. pose proof (relinked_resembles t j b e h Hu) as Hr.
  rewrite (rs_buckets _ _ Hr) in Hb'. destruct (Hok b' Hb') as (h' & c & Hh' & Hl & Hnd & Hc).
  assert (j ∉ c) as Hjc by (intros Hin; apply Hc in Hin; lia).
  assert (∀ i, i ∈ (if decide (b' = b) then j :: c else c) ↔
            Z.of_nat i < Z.of_nat (S j) ∧ in_bucket (relinked t j b e h) i b') as Hmem.
  { intros i. rewrite (resembles_in_bucket _ _ _ _ Hr). case_decide as Hd.
    - subst b'. rewrite elem_of_cons, Hc. split.
      + intros [->|[? ?]]; (split; [lia|]); [by exists e|done].
      + intros [Hlt Hin]. destruct (decide (i = j)); [by left|right]. split; [lia|done].
    - rewrite Hc. split; intros [Hlt Hin]; (split; [|done]); [lia|].
      assert (i ≠ j); [|lia]. intros ->. destruct Hin as (e' & (_ & He' & _) & Hi').
      destruct Hu as (_ & He & _). simplify_eq. lia. }
  cbn [relinked Buckets Entries with_Buckets with_Entries]. case_decide as Hd.
  - subst b'. exists (Z.of_nat j), (j :: c). simplify_eq. split_and!; [by apply list_lookup_insert_eq| | |done].
    + split; [done|]. eexists. split; [apply list_lookup_insert_eq; by apply (used_lt _ _ e)|].
      by apply segment_insert.
    + by apply NoDup_cons.
  - exists h', c. split_and!; [by rewrite list_lookup_insert_ne|by apply segment_insert|done|done].
Qed.

Lemma redistribute_ok fuel : ∀ t j (Q : unit → PH_HASHTABLE B → Prop),
  geometry t → NextEntry t = Z.of_nat (j + fuel) →
  (∀ i, Z.of_nat i < NextEntry t → ∃ e, Entries t !! i = Some (Some e)) →
  buckets_ok t (Z.of_nat j) →
  (∀ t', resembles t t' → buckets_ok t' (NextEntry t') → Q tt t') →
  wp (redistribute fuel (Z.of_nat j)) Q t.
Proof using Type.
  induction fuel as [|fuel IH]; intros t j Q Hg Hn Hinit Hok HQ; cbn [redistribute].
  { apply wp_ret, HQ; [|by rewrite Hn, Nat.add_0_r]. split; try done; eauto. }
  destruct (Hinit j) as [e He]; [lia|]. enter_bind. eapply wp_get_entry; [done|]. enter_bind.
  replace (Z.of_nat j + 1) with (Z.of_nat (S j)) by lia.
  destruct (Z.eqb_spec (HashCode e) ULONG_MAX) as [Hc|Hc]; cbn [negb].
  - apply wp_ret, IH; [done|lia|done| |done]. intros b Hb.
    destruct (Hok b Hb) as (h & c & Hh & Hl & Hnd & Hm). exists h, c. split_and!; [done..|].
    intros i. rewrite Hm. split; intros [Hlt Hin]; (split; [|done]); [lia|].
    assert (i ≠ j); [|lia]. intros ->. destruct Hin as (e' & (_ & He' & Hc') & _). congruence.
  - enter_bind. apply wp_get. destruct (index_bucket t (HashCode e) Hg) as (b & Hb & Hlt). rewrite Hb.
    destruct (Hok b Hlt) as (h & c & Hh & _). enter_bind. eapply wp_get_bucket; [done|].
    enter_bind. eapply wp_set_Next; [done|]. apply wp_put_bucket; [done|].
    assert (used t j e) as Hu by (split_and!; [lia|done|done]).
    pose proof (relinked_resembles t j b e h Hu) as Hr.
    apply (IH (relinked t j b e h)); [by eapply resembles_geo|cbn; lia| | |].
    + intros i Hi. destruct (Hinit i Hi) as [e0 He0]. destruct (rs_entry _ _ Hr _ _ He0) as (e1 & He1 & _). by exists e1.
    + by apply relinked_ok.
    + intros t' Hr' Hok'. apply HQ; [|done]. by eapply resembles_trans.
Qed.

(** A table with the same entries up to their links, and chains of its own. *)
Lemma rebuild_inv hole t t' M :
  inv hole t M → geometry t' → buckets_ok t' (NextEntry t') →
  EqualFunction t' = EqualFunction t → HashFunction t' = HashFunction t →
  NextEntry t' = NextEntry t → FreeEntry t' = FreeEntry t → Count t' = Count t →
  (∀ i e, Entries t !! i = Some (Some e) →
    ∃ e', Entries t' !! i = Some (Some e') ∧ HashCode e' = HashCode e ∧ Body e' = Body e ∧
      (HashCode e = ULONG_MAX → e' = e)) →
  (∀ i e', Z.of_nat i < NextEntry t → Entries t' !! i = Some (Some e') → ∃ e, Entries t !! i = Some (Some e)) →
  inv hole t' M.
Proof using Type.
  intros [I1 I2 I3 I4 I5 I6 I7 I8 I9 I10] Hg Hb HE HH HN HF HC Hfw Hbw.
  assert (∀ i e', used t' i e' → ∃ e, used t i e ∧ HashCode e' = HashCode e ∧ Body e' = Body e) as Hu1.
  { intros i e' (Hi & He' & Hc). rewrite HN in Hi. destruct (Hbw i e' Hi He') as [e He].
    destruct (Hfw i e He) as (e2 & He2 & Hc2 & Hb2 & _). simplify_eq. exists e. split; [|done].
    split_and!; [done|done|congruence]. }
  assert (∀ i e, used t i e → ∃ e', used t' i e' ∧ HashCode e' = HashCode e ∧ Body e' = Body e) as Hu2.
  { intros i e (Hi & He & Hc). destruct (Hfw i e He) as (e2 & He2 & Hc2 & Hb2 & _). exists e2. split; [|done].
    split_and!; [by rewrite HN|done|congruence]. }
  split; try congruence; try done.
  - intros i Hi Hh. rewrite HN in Hi. destruct (I4 i Hi Hh) as [e He].
    destruct (Hfw i e He) as (e' & He' & _). by exists e'.
  - intros f Hf. rewrite HN. destruct (I5 f Hf) as [Hlt Hno]. split; [done|].
    intros e Hu. destruct (Hu1 f e Hu) as (e0 & Hu0 & _). by apply (Hno e0).
  - destruct I7 as (c & Hl & Hnd & Hm & Hsz). exists c. rewrite HF, HC, HN. split_and!; [|done| |done].
    + eapply segment_frame; [done|]. intros i Hi. apply Hm in Hi as (_ & _ & e & He & Hc).
      destruct (Hfw i e He) as (e' & He' & _ & _ & Heq). by rewrite He, He', Heq.
    + intros i. rewrite Hm. unfold unused. rewrite HN. split; intros (Hh & Hi & e & He & Hc); (split_and!; [done|done|]).
      * destruct (Hfw i e He) as (e' & He' & Hc' & _). exists e'. split; [done|congruence].
      * destruct (Hbw i e Hi He) as [e0 He0]. destruct (Hfw i e0 He0) as (e' & He' & Hc' & _). exists e0.
        split; [done|congruence].
  - intros i e' Hu. destruct (Hu1 i e' Hu) as (e & Hu' & -> & ->). by apply (I8 i).
  - destruct I9 as [Hmap Hinj]. split.
    + intros k x. rewrite Hmap. split; intros (i & e & Hu & Hk & Hx).
      * destruct (Hu2 i e Hu) as (e' & Hu' & _ & Hb'). exists i, e'. by rewrite Hb'.
      * destruct (Hu1 i e Hu) as (e' & Hu' & _ & Hb'). exists i, e'. by rewrite <-Hb'.
    + intros i j e f Hi Hj Hk. destruct (Hu1 i e Hi) as (e' & Hi' & _ & Hbi).
      destruct (Hu1 j f Hj) as (f' & Hj' & _ & Hbj). apply (Hinj i j e' f'); [done|done|congruence].
Qed.

Lemma reallocate_lookup n es i : (i < length es ≤ Z.to_nat n)%nat → reallocate (B:=B) n es !! i = es !! i.
Proof using Type.
  intros Hi. unfold reallocate. rewrite take_ge by lia. by rewrite lookup_app_l by lia.
Qed.

Lemma resize_ok t M NewCapacity (Q : unit → PH_HASHTABLE B → Prop) :
  inv None t M → NewCapacity = 2 * AllocatedBuckets t → AllocatedBuckets t ≤ 2 ^ 30 →
  (∀ t', inv None t' M → AllocatedBuckets t' = 2 * AllocatedBuckets t → NextEntry t' = NextEntry t →
     FreeEntry t' = FreeEntry t → Q tt t') →
  wp (PhpResizeHashtable NewCapacity) Q t.
Proof using Type.
  intros Hinv -> Hsz HQ. pose proof Hinv as [I1 I2 I3 I4 I5 I6 I7 I8 I9 I10]. pose proof (geo_size t I3) as Hs.
  destruct I3 as [(k & Hk & Hp) G2 G3 G4 G5].
  assert (k < 31) as Hk'. { apply (Z.pow_lt_mono_r_iff 2); [lia|lia|]. rewrite <-Hp. lia. }
  assert (2 * AllocatedBuckets t = 2 ^ (k + 1)) as Hdbl by (rewrite Z.pow_add_r, <-Hp by lia; lia).
  unfold PhpResizeHashtable, PhpGetNumberOfBuckets. enter_bind. apply wp_get.
  assert (PhRoundUpToPowerOfTwo (2 * AllocatedBuckets t) = 2 * AllocatedBuckets t) as ->.
  { rewrite round_up_value by lia. rewrite Hdbl at 1. rewrite Z.log2_up_pow2 by lia. done. }
  set (n := 2 * AllocatedBuckets t) in *. do 3 (enter_bind; eexists _, _; split; [reflexivity|]).
  set (t1 := with_Entries _ _).
  assert (length (reallocate n (Entries t)) = Z.to_nat n) as Hlen.
  { unfold reallocate. rewrite length_app, length_take, length_replicate. lia. }
  assert (geometry t1) as Hg1.
  { split; cbn; [exists (k + 1); split; [lia|done]|done| | |lia];
      [unfold empty_buckets; rewrite length_replicate|rewrite Hlen]; lia. }
  apply (redistribute_ok (Z.to_nat (NextEntry t)) t1 0); [done|cbn; lia| | |].
  - cbn. intros i Hi. rewrite reallocate_lookup by lia. by apply I4.
  - intros b Hb. exists ULONG_MAX, []. cbn in *. split_and!; [|done|constructor|].
    + apply lookup_replicate. unfold empty_buckets in Hb. by rewrite length_replicate in Hb.
    + intros i. split; [by intros ?%elem_of_nil|]. intros [? _]. lia.
  - intros t' Hr Hb'. apply HQ; [|by rewrite (rs_alloc _ _ Hr)|by rewrite (rs_next _ _ Hr)|by rewrite (rs_free _ _ Hr)].
    apply (rebuild_inv None t); [done|by eapply resembles_geo|done|apply Hr..| |].
    + intros i e He. apply (rs_entry _ _ Hr). cbn. pose proof (lookup_lt_Some _ _ _ He).
      rewrite reallocate_lookup by lia. done.
    + intros i e' Hi He'. destruct (rs_entry' _ _ Hr i e' He') as [e He]. exists e. cbn in He.
      rewrite reallocate_lookup in He by lia. done.
Qed.

(** ** Search *)

Lemma inv_chain hole t M h :
  inv hole t M →
  ∃ b v c, PhpIndexFromHash t h = Z.of_nat b ∧ (b < length (Buckets t))%nat ∧ Buckets t !! b = Some v ∧
    linked (Entries t) v c ∧ NoDup c ∧ (length c < chain_fuel t)%nat ∧ ∀ i, i ∈ c ↔ in_bucket t i b.
Proof using Type.
  intros Hinv. destruct (index_bucket t h (inv_geo _ _ _ Hinv)) as (b & Hb & Hlt).
  destruct (inv_chains _ _ _ Hinv b Hlt) as (v & c & Hv & Hl & Hnd & Hm).
  exists b, v, c. split_and!; [done..| |].
  - pose proof (linked_length _ _ _ Hl Hnd). unfold chain_fuel. lia.
  - intros i. rewrite Hm. split; [by intros [_ ?]|]. intros Hin. split; [|done]. by destruct Hin as (e & [? _] & _).
Qed.

(** What a search for [E] returns. *)
Definition found t M (E : B) (r : option Z) : Prop :=
  match M !! key E with
  | Some x => ∃ i e, r = Some (Z.of_nat i) ∧ used t i e ∧ Body e = x
  | None => r = None
  end.

Context {Hkey : KeyOk equal hash key}.

(** An entry is where its key says. *)
Lemma in_its_bucket hole t M E b i e :
  inv hole t M → PhpIndexFromHash t (PhpValidateHash (hash E)) = Z.of_nat b → used t i e →
  key (Body e) = key E → in_bucket t i b ∧ HashCode e = PhpValidateHash (hash E).
Proof using Hkey.
  intros Hinv Hb Hu Hk. assert (HashCode e = PhpValidateHash (hash E)) as Hc.
  { rewrite (inv_code _ _ _ Hinv i e Hu). f_equal. by apply (key_hash (key := key)). }
  split; [|done]. exists e. by rewrite Hc.
Qed.

Lemma chain_find_ok t M E (Q : option Z → PH_HASHTABLE B → Prop) :
  inv None t M → (∀ r, found t M E r → Q r t) →
  wp (i ← get_bucket (PhpIndexFromHash t (PhpValidateHash (hash E)));
      find_in_bucket (chain_fuel t) (PhpValidateHash (hash E)) E i) Q t.
Proof using Hkey.
  intros Hinv HQ. destruct (inv_chain None t M (PhpValidateHash (hash E)) Hinv)
    as (b & v & c & Hb & Hlt & Hv & Hl & Hnd & Hf & Hm).
  pose proof (geo_size t (inv_geo _ _ _ Hinv)). pose proof (geo_entries t (inv_geo _ _ _ Hinv)).
  destruct (inv_contents _ _ _ Hinv) as [Hmap Hinj].
  rewrite Hb. enter_bind. eapply wp_get_bucket; [done|].
  eapply find_in_bucket_ok; [done|lia|done| |]; rewrite (inv_equal _ _ _ Hinv).
  - intros i e Hi He Hc Heq. apply HQ. unfold found. apply (key_equal (hash := hash) (key := key)) in Heq.
    assert (used t i e) as Hu. { apply Hm in Hi as (e' & Hu & _). pose proof Hu as (_ & He' & _). congruence. }
    assert (M !! key E = Some (Body e)) as -> by (apply Hmap; by exists i, e). by exists i, e.
  - intros Hnone. apply HQ. unfold found. destruct (M !! key E) as [x|] eqn:Hx; [|done]. exfalso.
    apply Hmap in Hx as (i & e & Hu & Hk & <-). destruct (in_its_bucket None t M E b i e) as [Hin Hc]; [done..|].
    apply (Hnone i e); [by apply Hm|by destruct Hu as (_ & ? & _)|done|].
    by apply (key_equal (hash := hash) (key := key)).
Qed.

Lemma find_entry_ok t M E (Q : option Z → PH_HASHTABLE B → Prop) :
  inv None t M → (∀ r, found t M E r → Q r t) → wp (PhFindEntryHashtable E) Q t.
Proof using Hkey.
  intros Hinv HQ. unfold PhFindEntryHashtable. enter_bind. apply wp_get. rewrite (inv_hash _ _ _ Hinv).
  by eapply chain_find_ok.
Qed.

(** ** Addition *)

(** [f] is taken: apart from its old contents, the table is as before. *)
Definition taken t M (f : nat) : Prop :=
  (f < length (Entries t))%nat ∧
  ∃ e0, inv (Some f) (with_Entries t (<[f := Some e0]> (Entries t))) M.

Lemma take_free t M f e :
  inv None t M → FreeEntry t = Z.of_nat f → Entries t !! f = Some (Some e) →
  taken (with_FreeEntry t (Next e)) M f.
Proof using Type.
  clear Hkey.
  intros [I1 I2 I3 I4 I5 I6 I7 I8 I9 I10] Hf He. pose proof (geo_size t I3). pose proof (geo_entries t I3).
  pose proof (lookup_lt_Some _ _ _ He) as Hlt. split; [done|]. exists e. cbn [Entries with_FreeEntry].
  rewrite list_insert_id by done. destruct I7 as (cf & Hl & Hnd & Hm & Hsz).
  destruct cf as [|f' cf]; [unfold linked in Hl; simpl in Hl; unfold ULONG_MAX in *; lia|].
  destruct Hl as (Hf' & e' & He' & Hl). assert (f' = f) as -> by lia. simplify_eq.
  apply NoDup_cons in Hnd as [Hnotin Hnd]. assert (unused t f) as (Hfn & e'' & He'' & Hc) by (apply Hm; set_solver).
  split; try done.
  - by destruct I3.
  - intros i Hi _. by apply I4.
  - intros f0 [= <-]. split; [done|]. intros e0 (_ & He0 & Hc0). cbn in He0. congruence.
  - exists cf. cbn in *. split_and!; [done|done| |lia]. intros i. split.
    + intros Hi. split; [intros [= ->]; done|]. apply Hm. by apply elem_of_cons; right.
    + intros [Hne Hu]. assert (i ∈ f :: cf) as [->|?]%elem_of_cons by (by apply Hm); [done|done].
Qed.

Lemma take_next t M (E : B) :
  inv None t M → FreeEntry t = ULONG_MAX → NextEntry t < AllocatedEntries t →
  taken (with_NextEntry t (NextEntry t + 1)) M (Z.to_nat (NextEntry t)).
Proof using Type.
  clear Hkey.
  intros [I1 I2 I3 I4 I5 I6 I7 I8 I9 I10] Hfree Hlt. pose proof (geo_size t I3).
  pose proof I3 as [G1 G2 G3 G4 G5]. set (f := Z.to_nat (NextEntry t)). assert (Z.of_nat f = NextEntry t) as Hf by lia.
  assert (f < length (Entries t))%nat as Hfl by lia. split; [done|].
  exists (HashtableEntry ULONG_MAX 0 E). set (e0 := HashtableEntry _ _ _). set (t' := with_Entries _ _).
  assert (∀ i e, used t' i e ↔ used t i e) as Hused.
  { intros i e. unfold used, t'. cbn. rewrite list_lookup_insert. split.
    - intros (Hi & He & Hc). case_decide as Hd; [by simplify_eq|]. split_and!; [|done|done].
      assert (f ≠ i) by naive_solver. lia.
    - intros (Hi & He & Hc). rewrite decide_False by lia. split_and!; [lia|done|done]. }
  assert (∀ h c, linked (Entries t) h c → f ∉ c → linked (Entries t') h c) as Hlk.
  { intros h c Hl Hin. by apply segment_insert. }
  split; try done.
  - split; cbn; rewrite ?length_insert; try done. lia.
  - cbn. intros i Hi Hne. rewrite list_lookup_insert_ne by congruence. apply I4; [|done].
    assert (i ≠ f) by congruence. lia.
  - intros f0 [= <-]. split; [cbn; lia|]. intros e Hu%Hused. destruct Hu as [? _]. lia.
  - intros b Hb. destruct (I6 b Hb) as (h & c & Hh & Hl & Hnd & Hm). exists h, c. split_and!; [done| |done|].
    + apply Hlk; [done|]. intros [Hin _]%Hm. lia.
    + intros i. rewrite Hm. cbn [NextEntry with_NextEntry with_Entries t'].
      split; intros [Hi (e & Hu & Hidx)]; pose proof Hu as Hu'; apply Hused in Hu'; (split; [|by exists e]).
      * lia.
      * destruct Hu' as [? _]. lia.
  - destruct I7 as (c & Hl & Hnd & Hm & Hsz). cbn. rewrite Hfree in *.
    destruct c as [|x c]; [|destruct Hl as [Hx _]; assert (unused t x) as [? _] by (apply Hm; set_solver);
      unfold ULONG_MAX in *; lia].
    exists []. split_and!; [done|constructor| |simpl in *; lia]. intros i. split; [by intros ?%elem_of_nil|].
    intros (Hne & Hi & e & He & Hc). cbn in Hi, He. rewrite list_lookup_insert_ne in He by congruence. apply Hm.
    split; [done|]. split; [|by exists e]. assert (i ≠ f) by congruence. lia.
  - intros i e Hu%Hused. by apply (I8 i).
  - destruct I9 as [Hmap Hinj]. split.
    + intros k x. rewrite Hmap. by setoid_rewrite Hused.
    + intros i j e e' Hi%Hused Hj%Hused. by apply Hinj.
Qed.

Lemma allocate_entry_ok t M (E : B) hashCode (Q : Z * Z → PH_HASHTABLE B → Prop) :
  inv None t M → NextEntry t < 2 ^ 31 →
  (∀ f t', taken t' M f → NextEntry t ≤ NextEntry t' ≤ NextEntry t + 1 →
     Q (Z.of_nat f, PhpIndexFromHash t' hashCode) t') →
  wp (allocate_entry hashCode (PhpIndexFromHash t hashCode)) Q t.
Proof using Type.
  clear Hkey. intros Hinv Hsz HQ. pose proof (inv_geo _ _ _ Hinv) as Hg. pose proof (geo_size t Hg).
  pose proof Hg as [(k & Hk & Hp) G2 G3 G4 G5].
  unfold allocate_entry. enter_bind. apply wp_get. destruct (Z.eqb_spec (FreeEntry t) ULONG_MAX) as [Hf|Hf]; cbn [negb].
  - apply (wp_bind _ _ _ t). destruct (Z.eqb_spec (NextEntry t) (AllocatedEntries t)) as [Hfull|Hroom].
    + assert (k < 31) as Hk31. { apply (Z.pow_lt_mono_r_iff 2); [lia|lia|]. rewrite <-Hp. lia. }
      assert (AllocatedBuckets t ≤ 2 ^ 30) by (rewrite Hp; apply Z.pow_le_mono_r; lia).
      enter_bind. eapply (resize_ok t M); [done|rewrite u32_small by lia; lia|done|].
      intros t1 Hinv1 Ha1 Hn1 Hf1. enter_bind. apply wp_get, wp_ret. enter_bind. apply wp_get. enter_bind.
      pose proof (inv_geo _ _ _ Hinv1) as [_ G2' _ _ _].
      eexists tt, _. split; [reflexivity|]. apply wp_ret. rewrite u32_small by lia.
      specialize (HQ (Z.to_nat (NextEntry t1)) (with_NextEntry t1 (NextEntry t1 + 1))).
      rewrite Z2Nat.id in HQ by lia. apply HQ; [apply take_next; [done|done|congruence|lia]|cbn; lia].
    + apply wp_ret. enter_bind. apply wp_get. enter_bind.
      eexists tt, _. split; [reflexivity|]. apply wp_ret. rewrite u32_small by lia.
      specialize (HQ (Z.to_nat (NextEntry t)) (with_NextEntry t (NextEntry t + 1))).
      rewrite Z2Nat.id in HQ by lia. apply HQ; [apply take_next; [done|done|done|lia]|cbn; lia].
  - destruct (inv_free _ _ _ Hinv) as (c & Hl & _ & Hm & _).
    destruct c as [|f c]; [by destruct Hf|]. pose proof Hl as (Hfe & e & He & _). rewrite Hfe.
    enter_bind. eapply wp_get_entry; [done|]. enter_bind. eexists tt, _. split; [reflexivity|]. apply wp_ret.
    apply (HQ f (with_FreeEntry t (Next e))); [by apply (take_free t M f)|cbn; lia].
Qed.

(** Writing the entry that was taken. *)
Definition filled t (f b : nat) (hashCode h : Z) (E : B) : PH_HASHTABLE B :=
  let t := with_Entries t (<[f := Some (HashtableEntry hashCode h E)]> (Entries t)) in
  let t := with_Buckets t (<[b := Z.of_nat f]> (Buckets t)) in
  with_Count t (u32 (Count t + 1)).

Lemma filled_inv t M f b h E :
  taken t M f → M !! key E = None →
  PhpIndexFromHash t (PhpValidateHash (hash E)) = Z.of_nat b → Buckets t !! b = Some h →
  inv None (filled t f b (PhpValidateHash (hash E)) h E) (<[key E := E]> M).
Proof using Type.
  clear Hkey. intros (Hfl & e0 & Hinv) HM Hb Hh. set (t0 := with_Entries _ _) in Hinv.
  destruct Hinv as [I1 I2 I3 I4 I5 I6 I7 I8 I9 I10]. pose proof (geo_size t0 I3). pose proof I3 as [G1 G2 G3 G4 G5].
  destruct (I5 f eq_refl) as [Hfn Hfu]. set (hc := PhpValidateHash (hash E)).
  pose proof (validate_range (hash E)) as Hhc. fold hc in Hhc, Hb.
  set (t' := filled t f b hc h E). set (e1 := HashtableEntry hc h E).
  assert (Entries t' = <[f := Some e1]> (Entries t0)) as Hes by (symmetry; apply list_insert_insert_eq).
  assert (used t' f e1) as Hu1.
  { split_and!; [done|rewrite Hes; apply list_lookup_insert_eq; cbn; by rewrite length_insert|].
    cbn. unfold ULONG_MAX. lia. }
  assert (∀ i e, used t' i e ↔ (i = f ∧ e = e1) ∨ used t0 i e) as Hused.
  { intros i e. split.
    - intros Hu. destruct (decide (i = f)) as [->|Hne].
      + left. split; [done|]. destruct Hu as (_ & He & _), Hu1 as (_ & He1 & _). congruence.
      + right. destruct Hu as (Hi & He & Hc). rewrite Hes, list_lookup_insert_ne in He by done. by split_and!.
    - intros [[-> ->]|Hu]; [done|]. assert (i ≠ f) by (intros ->; by apply (Hfu e)).
      destruct Hu as (Hi & He & Hc). split_and!; [done|by rewrite Hes, list_lookup_insert_ne|done]. }
  destruct I9 as [Hmap Hinj]. destruct I7 as (c & Hl & Hnd & Hm & Hcount).
  assert (0 ≤ Count t0) by (rewrite I10; lia). simpl hole_size in Hcount.
  assert (Count t' = Count t0 + 1) as HC'.
  { change (u32 (Count t0 + 1) = Count t0 + 1). apply u32_small. lia. }
  split.
  - done.
  - done.
  - cbn in G4. rewrite length_insert in G4. split; cbn; rewrite ?length_insert; done.
  - intros i Hi _. rewrite Hes, list_lookup_insert. case_decide; [by eexists|].
    destruct (decide (i = f)) as [->|Hne]; [|apply I4; [done|congruence]].
    exfalso. cbn in *. rewrite length_insert in *. tauto.
  - done.
  - intros b' Hb'. cbn [t' filled Buckets with_Count with_Buckets with_Entries] in Hb'. rewrite length_insert in Hb'.
    destruct (I6 b' Hb') as (h' & cb & Hh' & Hlb & Hndb & Hmb).
    assert (f ∉ cb) as Hfc by (intros Hin; apply Hmb in Hin as (_ & e & Hu & _); by apply (Hfu e)).
    assert (∀ i, in_bucket t' i b' ↔ (i = f ∧ b' = b) ∨ in_bucket t0 i b') as Hin.
    { intros i. unfold in_bucket. setoid_rewrite Hused. split.
      - intros (e & [[-> ->]|Hu] & Hidx); [left|by right; exists e]. split; [done|].
        change (PhpIndexFromHash t hc = Z.of_nat b') in Hidx. lia.
      - intros [[-> ->]|(e & Hu & Hidx)]; [|exists e; by auto]. exists e1. split; [by left|done]. }
    destruct (decide (b' = b)) as [->|Hne].
    + exists (Z.of_nat f), (f :: cb). cbn in Hh'. simplify_eq. split_and!.
      * by apply list_lookup_insert_eq.
      * split; [done|]. exists e1. split; [by destruct Hu1 as (_ & ? & _)|]. cbn [Next e1]. rewrite Hes.
        by apply segment_insert.
      * by apply NoDup_cons.
      * intros i. rewrite elem_of_cons, Hmb, Hin. change (NextEntry t') with (NextEntry t0).
        split; [intros [->|[? ?]]; auto|]. intros [Hi [[-> _]|Hin']]; auto.
    + exists h', cb. split_and!; [|rewrite Hes; by apply segment_insert|done|].
      * cbn. by rewrite list_lookup_insert_ne.
      * intros i. rewrite Hmb, Hin. change (NextEntry t') with (NextEntry t0). naive_solver.
  - exists c. change (FreeEntry t') with (FreeEntry t0). change (NextEntry t') with (NextEntry t0). rewrite HC'.
    assert (f ∉ c) as Hfc by (intros Hin; apply Hm in Hin as [? _]; done).
    split_and!; [rewrite Hes; by apply segment_insert|done| |simpl hole_size; lia].
    intros i. rewrite Hm. unfold unused. change (NextEntry t') with (NextEntry t0). split.
    + intros (Hne & Hi & e & He & Hc). split_and!; [done|done|]. exists e.
      rewrite Hes, list_lookup_insert_ne by congruence. done.
    + intros (_ & Hi & e & He & Hc). assert (i ≠ f) as Hne.
      { intros ->. destruct Hu1 as (_ & He1 & Hc1). congruence. }
      rewrite Hes, list_lookup_insert_ne in He by done. split_and!; [congruence|done|by exists e].
  - intros i e [[-> ->]|Hu]%Hused; [done|by apply (I8 i)].
  - assert (∀ i e, used t0 i e → key (Body e) ≠ key E) as Hnew.
    { intros i e Hu Hk. assert (M !! key E = Some (Body e)); [|congruence]. apply Hmap. by exists i, e. }
    split.
    + intros k x. rewrite lookup_insert_Some, Hmap. split.
      * intros [[<- <-]|[Hk (i & e & Hu & ? & ?)]]; [exists f, e1|exists i, e]; rewrite Hused; auto.
      * intros (i & e & [[-> ->]|Hu]%Hused & Hk & Hx); [left; by split|right].
        split; [|by exists i, e]. rewrite <-Hk. intros Heq. by apply (Hnew i e).
    + intros i j e e' [[-> ->]|Hi]%Hused [[-> ->]|Hj]%Hused Hk; [done| | |by apply (Hinj i j e e')].
      * by destruct (Hnew j e').
      * by destruct (Hnew i e).
  - rewrite HC', map_size_insert_None by done. rewrite I10. lia.
Qed.

(** The result of an addition: the entry of that key, and whether it is new. *)
Lemma add_entry_ok t M E (Q : Z * bool → PH_HASHTABLE B → Prop) :
  inv None t M → NextEntry t < 2 ^ 31 →
  (∀ x i e, M !! key E = Some x → used t i e → Body e = x → Q (Z.of_nat i, false) t) →
  (∀ t' i e, M !! key E = None → inv None t' (<[key E := E]> M) → used t' i e → Body e = E →
     NextEntry t' ≤ NextEntry t + 1 → Q (Z.of_nat i, true) t') →
  wp (PhpAddEntryHashtable E true) Q t.
Proof using Hkey.
  intros Hinv Hsz Hold Hnew. unfold PhpAddEntryHashtable. enter_bind. apply wp_get.
  rewrite (inv_hash _ _ _ Hinv). apply wp_bind, (chain_find_ok t M E); [done|]. intros r Hr.
  unfold found in Hr. destruct (M !! key E) as [x|] eqn:HM.
  { destruct Hr as (i & e & -> & Hu & Hx). by apply wp_ret, (Hold x i e). }
  subst r. enter_bind. apply (allocate_entry_ok t M E); [done|done|]. intros f t1 Ht1 Hn1.
  pose proof Ht1 as (Hfl & e0 & Hinv1).
  destruct (index_bucket _ (PhpValidateHash (hash E)) (inv_geo _ _ _ Hinv1)) as (b & Hb & Hlt).
  change (PhpIndexFromHash t1 (PhpValidateHash (hash E)) = Z.of_nat b) in Hb.
  change (b < length (Buckets t1))%nat in Hlt. rewrite Hb.
  destruct (lookup_lt_is_Some_2 (Buckets t1) b Hlt) as [h Hh]. enter_bind. eapply wp_get_bucket; [done|].
  enter_bind. apply wp_put_entry; [done|]. enter_bind. apply wp_put_bucket; [done|].
  enter_bind. apply wp_get. enter_bind. eexists tt, _. split; [reflexivity|]. apply wp_ret.
  apply (Hnew (filled t1 f b (PhpValidateHash (hash E)) h E) f (HashtableEntry (PhpValidateHash (hash E)) h E));
    [done|by apply filled_inv| |done|cbn; lia].
  pose proof (validate_range (hash E)). split_and!; cbn.
  - by destruct (inv_hole _ _ _ Hinv1 f eq_refl) as [? _].
  - by apply list_lookup_insert_eq.
  - unfold ULONG_MAX. lia.
Qed.

(** ** Removal *)

(** The chains hold every entry in use but [i]. *)
Definition buckets_but t (i : nat) : Prop :=
  ∀ b, (b < length (Buckets t))%nat →
    ∃ h c, Buckets t !! b = Some h ∧ linked (Entries t) h c ∧ NoDup c ∧
      ∀ j, j ∈ c ↔ j ≠ i ∧ in_bucket t j b.

(** What the removal does after unlinking. *)
Definition released t (i : nat) (x : B) (next : Z) : PH_HASHTABLE B :=
  let t := with_Entries t (<[i := Some (HashtableEntry ULONG_MAX next x)]> (Entries t)) in
  let t := with_FreeEntry t (Z.of_nat i) in
  with_Count t (u32 (Count t - 1)).

Lemma released_inv t t2 M i e :
  inv None t M → used t i e → resembles t t2 → buckets_but t2 i →
  inv None (released t2 i (Body e) (FreeEntry t)) (delete (key (Body e)) M).
Proof using Type.
  clear Hkey. intros Hinv Hu Hr Hbut. pose proof (inv_geo _ _ _ Hinv) as Hg.
  pose proof (resembles_geo _ _ Hr Hg) as [G1 G2 G3 G4 G5]. pose proof (geo_size t Hg).
  destruct Hinv as [I1 I2 I3 I4 I5 I6 I7 I8 [Hmap Hinj] I10].
  set (t' := released _ _ _ _). set (e1 := HashtableEntry ULONG_MAX (FreeEntry t) (Body e)).
  assert (Entries t' = <[i := Some e1]> (Entries t2)) as Hes by done.
  assert (i < length (Entries t2))%nat as Hi by (rewrite (rs_entries _ _ Hr); by apply (used_lt t i e)).
  assert (NextEntry t' = NextEntry t) as Hn by apply (rs_next _ _ Hr).
  assert (∀ j f, used t' j f ↔ j ≠ i ∧ used t2 j f) as Hused.
  { intros j f. unfold used. rewrite Hes, list_lookup_insert. change (NextEntry t') with (NextEntry t2). split.
    - intros (Hj & Hf & Hc). case_decide as Hd; [|split; [naive_solver|done]]. simplify_eq.
    - intros (Hne & Hj & Hf & Hc). by rewrite decide_False by naive_solver. }
  assert (M !! key (Body e) = Some (Body e)) as HMe by (apply Hmap; by exists i, e).
  assert (1 ≤ Count t) as Hc1.
  { rewrite I10. assert (size M ≠ 0)%nat; [|lia]. intros ->%map_size_empty_inv. by rewrite lookup_empty in HMe. }
  destruct I7 as (c & Hl & Hnd & Hm & Hsz). simpl hole_size in Hsz.
  assert (Count t' = Count t - 1) as HC.
  { change (u32 (Count t2 - 1) = Count t - 1). rewrite (rs_count _ _ Hr). destruct Hg. apply u32_small. lia. }
  assert (i ∉ c) as Hic.
  { intros Hin. apply Hm in Hin as (_ & _ & f & Hf & Hcf). destruct Hu as (_ & He & Hc). congruence. }
  split.
  - etrans; [apply (rs_equal _ _ Hr)|done].
  - etrans; [apply (rs_hash _ _ Hr)|done].
  - split; cbn; rewrite ?length_insert; done.
  - intros j Hj _. rewrite Hes, list_lookup_insert. case_decide; [by eexists|]. rewrite Hn in Hj.
    destruct (I4 j Hj) as [f Hf]; [done|]. destruct (rs_entry _ _ Hr _ _ Hf) as (f' & Hf' & _). by exists f'.
  - done.
  - intros b Hb. destruct (Hbut b Hb) as (h & cb & Hh & Hlb & Hndb & Hmb). exists h, cb.
    split_and!; [done| |done|].
    + rewrite Hes. apply segment_insert; [done|]. intros Hin. by apply Hmb in Hin as [? _].
    + intros j. rewrite Hmb. unfold in_bucket. setoid_rewrite Hused.
      split; [intros (Hne & f & Hf & Hidx)|intros (Hlt & f & [Hne Hf] & Hidx)].
      * split; [by destruct Hf as [? _]|by exists f].
      * split; [done|by exists f].
  - exists (i :: c). split_and!.
    + split; [done|]. exists e1. rewrite Hes. split; [by apply list_lookup_insert_eq|]. cbn [Next e1].
      apply segment_insert; [|done]. eapply segment_frame; [exact Hl|]. intros j Hj. apply Hm in Hj as (_ & _ & f & Hf & Hcf).
      destruct (rs_entry _ _ Hr _ _ Hf) as (f' & Hf' & _ & _ & Heq). by rewrite Hf, Hf', Heq.
    + by apply NoDup_cons.
    + intros j. rewrite elem_of_cons, Hm. unfold unused. rewrite Hn, Hes, list_lookup_insert. split.
      * intros [->|(_ & Hj & f & Hf & Hcf)]; (split; [done|]).
        -- destruct Hu as [? _]. split; [done|]. exists e1. by rewrite decide_True.
        -- split; [done|]. case_decide; [by exists e1|]. destruct (rs_entry _ _ Hr _ _ Hf) as (f' & Hf' & Hc' & _).
           exists f'. split; [done|congruence].
      * intros (_ & Hj & f & Hf & Hcf). case_decide as Hd; [left; by destruct Hd|right]. split_and!; [done|done|].
        destruct (rs_entry' _ _ Hr _ _ Hf) as [f0 Hf0]. destruct (rs_entry _ _ Hr _ _ Hf0) as (f' & Hf' & Hc' & _).
        exists f0. split; [done|congruence].
    + rewrite HC, Hn. simpl. lia.
  - intros j f [_ Hf]%Hused. destruct (resembles_used t t2 j f Hr Hf) as (f0 & Hf0 & -> & ->). by apply (I8 j).
  - split.
    + intros k x. rewrite lookup_delete_Some, Hmap. split.
      * intros (Hne & j & f & Hf & Hk & Hx). destruct (used_resembles t t2 j f Hr Hf) as (f' & Hf' & _ & Hb').
        exists j, f'. rewrite Hused, Hb'. split; [|done]. split; [|done]. intros ->. destruct Hf as (_ & Hfe & _), Hu as (_ & He & _).
        congruence.
      * intros (j & f' & [Hne Hf']%Hused & Hk & Hx). destruct (resembles_used t t2 j f' Hr Hf') as (f & Hf & _ & Hb').
        split; [|exists j, f; by rewrite <-Hb']. intros Hk'. apply Hne, (Hinj j i f e); [done|done|congruence].
    + intros j k f g [_ Hf]%Hused [_ Hg']%Hused Hk.
      destruct (resembles_used t t2 j f Hr Hf) as (f0 & Hf0 & _ & Hbf).
      destruct (resembles_used t t2 k g Hr Hg') as (g0 & Hg0 & _ & Hbg). apply (Hinj j k f0 g0); congruence.
  - rewrite HC, map_size_delete_Some, I10 by (by eexists). rewrite I10 in Hc1. lia.
Qed.

(** Bucket [b] of [t2] lost [i], and the other buckets are as in [t]. *)
Lemma buckets_but_intro t t2 b i h c :
  buckets_ok t (NextEntry t) → resembles t t2 → in_bucket t i b →
  (b < length (Buckets t))%nat → Buckets t2 !! b = Some h → linked (Entries t2) h c → NoDup c →
  (∀ j, j ∈ c ↔ j ≠ i ∧ in_bucket t j b) →
  (∀ b' h' c', b' ≠ b → Buckets t !! b' = Some h' → linked (Entries t) h' c' →
     (∀ j, j ∈ c' → in_bucket t j b') → Buckets t2 !! b' = Some h' ∧ linked (Entries t2) h' c') →
  buckets_but t2 i.
Proof using Type.
  clear Hkey. intros Hok Hr Hin Hb Hh Hl Hnd Hm Hother b' Hb'. rewrite (rs_buckets _ _ Hr) in Hb'.
  destruct (decide (b' = b)) as [->|Hne].
  - exists h, c. split_and!; [done..|]. intros j. rewrite Hm. by rewrite (resembles_in_bucket t t2).
  - destruct (Hok b' Hb') as (h' & c' & Hh' & Hl' & Hnd' & Hm').
    destruct (Hother b' h' c') as [Hh2 Hl2]; [done..|by intros j [_ ?]%Hm'|].
    exists h', c'. split_and!; [done..|]. intros j. rewrite Hm', (resembles_in_bucket t t2) by done. split.
    + intros [_ Hj]. split; [|done]. intros ->. destruct Hin as (e & (_ & He & _) & Hi).
      destruct Hj as (f & (_ & Hf & _) & Hj). simplify_eq. lia.
    + intros [_ Hj]. split; [|done]. by destruct Hj as (f & [? _] & _).
Qed.

Lemma in_bucket_unique t i b b' : in_bucket t i b → in_bucket t i b' → b = b'.
Proof using Type.
  clear Hkey. intros (e & (_ & He & _) & Hb) (f & (_ & Hf & _) & Hb'). simplify_eq. lia.
Qed.

Lemma index_not_max i : Z.of_nat i < 2 ^ 32 - 1 → (Z.of_nat i =? ULONG_MAX) = false.
Proof using Type. intros Hi. apply Z.eqb_neq. unfold ULONG_MAX. lia. Qed.

Lemma remove_from_bucket_ok M E t b h c2 : ∀ c1 fuel cur (Q : bool → PH_HASHTABLE B → Prop),
  inv None t M → PhpIndexFromHash t (PhpValidateHash (hash E)) = Z.of_nat b → Buckets t !! b = Some h →
  linked (Entries t) h (c1 ++ c2) → NoDup (c1 ++ c2) → (∀ i, i ∈ c1 ++ c2 ↔ in_bucket t i b) →
  linked (Entries t) cur c2 →
  (∀ i e, i ∈ c1 → used t i e → key (Body e) ≠ key E) → (length c2 < fuel)%nat →
  (∀ t', inv None t' (delete (key E) M) → is_Some (M !! key E) → NextEntry t' = NextEntry t → Q true t') →
  (M !! key E = None → Q false t) →
  wp (remove_from_bucket fuel (PhpValidateHash (hash E)) (Z.of_nat b) E
        (default ULONG_MAX (Z.of_nat <$> last c1)) cur) Q t.
Proof using Hkey.
  induction c2 as [|i c2 IH]; intros c1 fuel cur Q Hinv Hb Hh Hl Hnd Hm Hcur Hno Hf Hyes Hnone;
    (destruct fuel as [|fuel]; [simpl in Hf; lia|]); cbn [remove_from_bucket];
    destruct (inv_contents _ _ _ Hinv) as [Hmap Hinj].
  { unfold linked in Hcur. simpl in Hcur. subst cur. rewrite Z.eqb_refl. apply wp_ret, Hnone.
    destruct (M !! key E) as [x|] eqn:Hx; [|done]. exfalso. apply Hmap in Hx as (i & e & Hu & Hk & _).
    destruct (in_its_bucket None t M E b i e) as [Hin _]; [done..|]. apply Hm in Hin. rewrite app_nil_r in Hin.
    by apply (Hno i e). }
  pose proof (geo_size t (inv_geo _ _ _ Hinv)). pose proof (geo_entries t (inv_geo _ _ _ Hinv)).
  assert (i < length (Entries t))%nat as Hlt by (apply (linked_lt _ cur (i :: c2)); set_solver).
  destruct Hcur as (-> & e & He & Hcur). rewrite (index_not_max i) by lia.
  enter_bind. eapply wp_get_entry; [done|]. enter_bind. apply wp_get. rewrite (inv_equal _ _ _ Hinv).
  assert (in_bucket t i b) as Hib by (apply Hm; set_solver).
  assert (used t i e) as Hu. { destruct Hib as (e' & Hu & _). pose proof Hu as (_ & He' & _). congruence. }
  destruct (decide (key (Body e) = key E)) as [Hk|Hk].
  - destruct (in_its_bucket None t M E b i e) as [_ Hc]; [done..|]. rewrite Hc, Z.eqb_refl.
    rewrite (proj2 (key_equal (hash := hash) (key := key) (Body e) E) Hk). cbn [andb].
    assert (∀ t2, resembles t t2 → buckets_but t2 i → FreeEntry t2 = FreeEntry t → Count t2 = Count t →
      wp (put_entry (Z.of_nat i) (HashtableEntry ULONG_MAX (FreeEntry t) (Body e)) ;; set_FreeEntry (Z.of_nat i) ;;
          set_Count (u32 (Count t - 1)) ;; mret true) Q t2) as Hrest.
    { intros t2 Hr Hbut Hfe Hct. enter_bind. apply wp_put_entry; [by rewrite (rs_entries _ _ Hr)|].
      enter_bind. eexists tt, _. split; [reflexivity|]. enter_bind. eexists tt, _. split; [reflexivity|].
      apply wp_ret. rewrite <-Hct. apply (Hyes (released t2 i (Body e) (FreeEntry t))).
      - rewrite <-Hk. by apply released_inv.
      - exists (Body e). apply Hmap. by exists i, e.
      - apply (rs_next _ _ Hr). }
    assert (i ∉ c1 ∧ i ∉ c2) as [Hi1 Hi2].
    { apply NoDup_app in Hnd as (_ & Hd & Hnd2). apply NoDup_cons in Hnd2 as [? _]. split; [|done].
      intros Hin. apply (Hd i Hin). set_solver. }
    assert (NoDup (c1 ++ c2)) as Hnd'.
    { apply (NoDup_Permutation_proper _ (i :: c1 ++ c2)) in Hnd; [by apply NoDup_cons in Hnd as [_ ?]|].
      symmetry. apply Permutation_middle. }
    assert (∀ j, j ∈ c1 ++ c2 ↔ j ≠ i ∧ in_bucket t j b) as Hm'.
    { intros j. rewrite <-Hm, !elem_of_app, elem_of_cons. split; [intros Hj|tauto]. split; [|tauto].
      intros ->. tauto. }
    assert (b < length (Buckets t))%nat as Hbl by (by eapply lookup_lt_Some).
    destruct c1 as [|j c0 _] using rev_ind.
    + cbn [last fmap option_fmap option_map default]. rewrite Z.eqb_refl. enter_bind. apply wp_put_bucket; [done|].
      apply Hrest; [|eapply buckets_but_intro; [apply (inv_chains _ _ _ Hinv)| |done|done| | |exact Hnd'|exact Hm'|]|done|done].
      * split; try done; [apply length_insert|intros j f Hj; by exists f|by eauto].
      * split; try done; [apply length_insert|intros j f Hj; by exists f|by eauto].
      * by apply list_lookup_insert_eq.
      * done.
      * intros b' h' c' Hne Hh' Hl' _. split; [|done]. cbn. by rewrite list_lookup_insert_ne.
    + rewrite last_snoc. change (default ULONG_MAX (Z.of_nat <$> Some j)) with (Z.of_nat j).
      assert (in_bucket t j b) as (ej & Huj & Hjb) by (apply Hm; set_solver).
      pose proof (used_lt t j ej Huj). rewrite (index_not_max j) by lia.
      pose proof Huj as (_ & Hej & _). enter_bind. eapply wp_set_Next; [done|].
      assert (resembles t (with_Entries t (<[j := Some (HashtableEntry (HashCode ej) (Next e) (Body ej))]> (Entries t)))) as Hr.
      { split; try done; [apply length_insert|cbn; intros x f Hxf|cbn; intros x f Hxf];
          rewrite list_lookup_insert in *; case_decide as Hd; try (destruct Hd as [-> _]); simplify_eq; eauto.
        eexists. split_and!; [done|done|done|]. intros Hc'. by destruct Huj as (_ & _ & ?). }
      apply Hrest; [done| |done|done].
      eapply buckets_but_intro; [apply (inv_chains _ _ _ Hinv)|done|done|done|exact Hh| |exact Hnd'|exact Hm'|].
      * by apply (unlink_after (Entries t) h c0 j i c2 ej e).
      * intros b' h' c' Hne Hh' Hl' Hin'. split; [done|]. apply segment_insert; [done|].
        intros Hj. apply Hne, (in_bucket_unique t j); [by apply Hin'|by exists ej].
  - replace ((HashCode e =? PhpValidateHash (hash E)) && equal (Body e) E) with false.
    2: { symmetry. apply andb_false_iff. right. apply not_true_iff_false. by rewrite (key_equal (hash := hash) (key := key)). }
    assert (default ULONG_MAX (Z.of_nat <$> last (c1 ++ [i])) = Z.of_nat i) as <- by (by rewrite last_snoc).
    apply IH; rewrite <-?app_assoc; [done..| |simpl in Hf; lia|done|done].
    + intros j f. rewrite elem_of_app, list_elem_of_singleton. intros [Hj| ->] Hf'; [by apply (Hno j)|].
      destruct Hu as (_ & Hu & _), Hf' as (_ & Hf' & _). congruence.
Qed.

Lemma remove_entry_ok t M E (Q : bool → PH_HASHTABLE B → Prop) :
  inv None t M →
  (∀ t', inv None t' (delete (key E) M) → is_Some (M !! key E) → NextEntry t' = NextEntry t → Q true t') →
  (M !! key E = None → Q false t) →
  wp (PhRemoveEntryHashtable E) Q t.
Proof using Hkey.
  intros Hinv Hyes Hno. unfold PhRemoveEntryHashtable. enter_bind. apply wp_get. rewrite (inv_hash _ _ _ Hinv).
  destruct (inv_chain None t M (PhpValidateHash (hash E)) Hinv) as (b & v & c & Hb & Hlt & Hv & Hl & Hnd & Hf & Hm).
  rewrite Hb. enter_bind. eapply wp_get_bucket; [done|].
  eapply (remove_from_bucket_ok M E t b v c []); try done. by intros ? ? ?%elem_of_nil.
Qed.

(** ** The empty table *)

Lemma empty_inv t :
  geometry t → EqualFunction t = equal → HashFunction t = hash →
  Buckets t = empty_buckets (AllocatedBuckets t) → Count t = 0 → FreeEntry t = ULONG_MAX → NextEntry t = 0 →
  inv None t ∅.
Proof using Type.
  clear Hkey. intros Hg He Hh Hb Hc Hf Hn.
  assert (∀ i e, ¬ used t i e) as Hu by (intros i e [? _]; lia).
  split; [done|done|done|intros i; lia|done| | | | |by rewrite Hc].
  - intros b Hlt. exists ULONG_MAX, []. split_and!; [|done|constructor|].
    + rewrite Hb in Hlt |- *. apply lookup_replicate. unfold empty_buckets in Hlt. by rewrite length_replicate in Hlt.
    + intros i. split; [by intros ?%elem_of_nil|]. intros [? _]. lia.
  - exists []. split_and!; [by rewrite Hf|constructor| |simpl; lia].
    intros i. split; [by intros ?%elem_of_nil|]. intros (_ & ? & _). lia.
  - intros i e Hue. by destruct (Hu i e).
  - split; [|intros i j e f Hi; by destruct (Hu i e)]. intros k x. rewrite lookup_empty.
    split; [done|]. intros (i & e & Hue & _). by destruct (Hu i e).
Qed.

Lemma create_inv capacity :
  0 ≤ capacity ≤ 2 ^ 31 → inv None (PhCreateHashtable equal hash capacity) ∅.
Proof using Type.
  clear Hkey. intros Hcap. unfold PhCreateHashtable, PhpGetNumberOfBuckets.
  set (c := if capacity =? 0 then 1 else capacity).
  assert (1 ≤ c ≤ 2 ^ 31) as Hc by (subst c; destruct (Z.eqb_spec capacity 0); lia).
  rewrite round_up_value by done.
  assert (0 ≤ Z.log2_up c ≤ 31) as Hk.
  { split; [apply Z.log2_up_nonneg|]. change 31 with (Z.log2_up (2 ^ 31)). apply Z.log2_up_le_mono. lia. }
  assert (0 < 2 ^ Z.log2_up c) by (apply Z.pow_pos_nonneg; lia).
  apply empty_inv; [|done..]. split; cbn; [by exists (Z.log2_up c)|done| | |lia];
    unfold empty_buckets; rewrite length_replicate; lia.
Qed.

Lemma clear_ok t M (Q : unit → PH_HASHTABLE B → Prop) :
  inv None t M → (∀ t', inv None t' ∅ → NextEntry t' ≤ NextEntry t → Q tt t') → wp PhClearHashtable Q t.
Proof using Type.
  clear Hkey. intros Hinv HQ. unfold PhClearHashtable. enter_bind. apply wp_get.
  destruct (Z.ltb_spec 0 (Count t)) as [Hc|Hc].
  - do 3 (enter_bind; eexists tt, _; split; [reflexivity|]). eexists tt, _. split; [reflexivity|].
    pose proof (inv_geo _ _ _ Hinv) as Hg. pose proof (geo_size t Hg). destruct Hg as [G1 G2 G3 G4 G5].
    apply HQ; [|cbn; lia]. apply empty_inv; [|apply Hinv..| | | |]; try done.
    split; cbn; [done|done| |done|lia]. unfold empty_buckets. rewrite length_replicate. lia.
  - apply wp_ret, HQ; [|done]. rewrite (inv_size _ _ _ Hinv) in Hc.
    assert (M = ∅) as <-; [|done]. apply map_size_empty_iff. lia.
Qed.

(** ** Enumeration *)

(** The bodies of the entries in use from [i] on, [n] entries being left. *)
Fixpoint bodies t (i n : nat) : list B :=
  match n with
  | O => []
  | S n =>
      match Entries t !! i with
      | Some (Some e) => if HashCode e =? ULONG_MAX then bodies t (S i) n else Body e :: bodies t (S i) n
      | _ => bodies t (S i) n
      end
  end.

Lemma elem_of_bodies t n : ∀ i x,
  x ∈ bodies t i n ↔ ∃ j e, (i ≤ j < i + n)%nat ∧ Entries t !! j = Some (Some e) ∧ HashCode e ≠ ULONG_MAX ∧ Body e = x.
Proof using B.
  clear Hkey key hash equal. induction n as [|n IH]; intros i x; cbn [bodies].
  { split; [by intros ?%elem_of_nil|]. intros (j & e & Hj & _). lia. }
  assert (∀ P : nat → Prop, (∃ j, (i ≤ j < i + S n)%nat ∧ P j) ↔ P i ∨ ∃ j, (S i ≤ j < S i + n)%nat ∧ P j) as Hsplit.
  { intros P. split.
    - intros (j & Hj & HP). destruct (decide (j = i)) as [->|]; [by left|]. right. exists j. split; [lia|done].
    - intros [HP|(j & Hj & HP)]; [exists i|exists j]; (split; [lia|done]). }
  set (P j := ∃ e, Entries t !! j = Some (Some e) ∧ HashCode e ≠ ULONG_MAX ∧ Body e = x).
  transitivity (P i ∨ x ∈ bodies t (S i) n).
  - unfold P. destruct (Entries t !! i) as [[e|]|] eqn:He; [|naive_solver..].
    destruct (Z.eqb_spec (HashCode e) ULONG_MAX); [naive_solver|]. rewrite elem_of_cons. naive_solver.
  - rewrite IH. transitivity (∃ j, (i ≤ j < i + S n)%nat ∧ P j).
    + rewrite Hsplit. unfold P. naive_solver.
    + unfold P. naive_solver.
Qed.

Lemma enum_next_ok t M fuel : ∀ j (Q : option Z * Z → PH_HASHTABLE B → Prop),
  inv None t M → Z.of_nat j ≤ NextEntry t → NextEntry t - Z.of_nat j < Z.of_nat fuel →
  (∀ i e, (j ≤ i)%nat → Z.of_nat i < NextEntry t → Entries t !! i = Some (Some e) →
     bodies t j (Z.to_nat (NextEntry t) - j) = Body e :: bodies t (S i) (Z.to_nat (NextEntry t) - S i) →
     Q (Some (Z.of_nat i), Z.of_nat (S i)) t) →
  (bodies t j (Z.to_nat (NextEntry t) - j) = [] → Q (None, NextEntry t) t) →
  wp (enum_loop fuel (Z.of_nat j)) Q t.
Proof using Type.
  clear Hkey. induction fuel as [|fuel IH]; intros j Q Hinv Hj Hf Hyes Hno; [lia|]. cbn [enum_loop].
  pose proof (inv_geo _ _ _ Hinv) as Hg. pose proof (geo_size t Hg). destruct Hg as [_ _ _ _ Hn].
  enter_bind. apply wp_get. destruct (Z.ltb_spec (Z.of_nat j) (NextEntry t)) as [Hlt|Hge].
  - destruct (inv_init _ _ _ Hinv j) as [e He]; [done|done|]. enter_bind. eapply wp_get_entry; [done|].
    rewrite u32_small by lia. replace (Z.of_nat j + 1) with (Z.of_nat (S j)) by lia.
    replace (Z.to_nat (NextEntry t) - j)%nat with (S (Z.to_nat (NextEntry t) - S j)) in * by lia.
    cbn [bodies] in *. rewrite He in *. destruct (Z.eqb_spec (HashCode e) ULONG_MAX) as [Hc|Hc]; cbn [negb].
    + apply IH; [done|lia|lia| |done]. intros i f Hi. apply Hyes. lia.
    + by apply wp_ret, (Hyes j e).
  - apply wp_ret. replace (Z.of_nat j) with (NextEntry t) by lia. apply Hno.
    by replace (Z.to_nat (NextEntry t) - j)%nat with 0%nat by lia.
Qed.

Lemma enum_all_ok t M fuel : ∀ j (Q : list B → PH_HASHTABLE B → Prop),
  inv None t M → Z.of_nat j ≤ NextEntry t → (length (bodies t j (Z.to_nat (NextEntry t) - j)) < fuel)%nat →
  Q (bodies t j (Z.to_nat (NextEntry t) - j)) t → wp (enum_all fuel (Z.of_nat j)) Q t.
Proof using Type.
  clear Hkey. induction fuel as [|fuel IH]; intros j Q Hinv Hj Hf HQ; [lia|]. cbn [enum_all]. enter_bind.
  unfold PhEnumHashtable. enter_bind. apply wp_get. apply (enum_next_ok t M); [done|done|lia| |].
  - intros i e Hji Hi He Hb. enter_bind. eapply wp_get_entry; [done|]. apply wp_bind. rewrite Hb in *.
    apply IH; [done|lia|simpl in Hf; lia|]. by apply wp_ret.
  - intros Hb. rewrite Hb in HQ. by apply wp_ret.
Qed.

(** The bodies are the elements of the map, each once. *)
Lemma bodies_map t M :
  inv None t M →
  list_to_map ((λ x, (key x, x)) <$> bodies t 0 (Z.to_nat (NextEntry t))) = M ∧
  NoDup (key <$> bodies t 0 (Z.to_nat (NextEntry t))).
Proof using Type.
  clear Hkey. intros Hinv. destruct (inv_contents _ _ _ Hinv) as [Hmap Hinj].
  assert (∀ n i, (i + n ≤ Z.to_nat (NextEntry t))%nat → NoDup (key <$> bodies t i n)) as Hnd.
  { induction n as [|n IH]; intros i Hi; cbn [bodies]; [constructor|].
    destruct (Entries t !! i) as [[e|]|] eqn:He; [|apply IH; lia..].
    destruct (Z.eqb_spec (HashCode e) ULONG_MAX) as [Hc|Hc]; [apply IH; lia|].
    rewrite fmap_cons. apply NoDup_cons. split; [|apply IH; lia].
    intros (x & Hk & (j & f & Hj & Hf & Hcf & <-)%elem_of_bodies)%list_elem_of_fmap.
    assert (i = j); [|lia]. apply (Hinj i j e f); [split_and!; [lia|done|done]..|done]. }
  assert (NoDup (((λ x, (key x, x)) <$> bodies t 0 (Z.to_nat (NextEntry t))).*1)) as Hnd1.
  { rewrite <-list_fmap_compose. apply (Hnd _ 0%nat). lia. }
  split; [|apply (Hnd _ 0%nat); lia]. apply map_eq. intros k. apply option_eq. intros x.
  rewrite <-elem_of_list_to_map, list_elem_of_fmap, Hmap by done. split.
  - intros (y & [= -> ->] & (j & f & Hj & Hf & Hcf & <-)%elem_of_bodies).
    exists j, f. split; [|done]. split_and!; [lia|done|done].
  - intros (i & e & (Hi & He & Hc) & <- & <-). exists (Body e). split; [done|]. apply elem_of_bodies.
    exists i, e. split_and!; [lia|lia|done..].
Qed.
End Invariant.
