(* ===== verification/HashtableTheorems.v ===== *)
(** What the hashtables promise: each operation on the table is the operation of
    the same name on a finite map. *)

From S2P Require Import Prelude Numbers Hashtable HashtableFacts.

Section Theorems.
Context {B K : Type} `{Countable K}.
Context (equal : B → B → bool) (hash : B → Z) (key : B → K).
Implicit Types (t : PH_HASHTABLE B) (M : gmap K B).

(** The table holds the map [M]. *)
Definition ht_rep t M : Prop := inv equal hash key None t M.

(** The entry at the address [i] holds [x]. *)
Definition points_to t (i : Z) (x : B) : Prop := ∃ j e, i = Z.of_nat j ∧ used t j e ∧ Body e = x.

(** C5. Adding an entry whose key is present returns the entry that is there and
    changes nothing; otherwise the entry is inserted, whether an entry of the free
    list is taken, the next one of the array, or the next one after doubling the
    array and distributing all the entries again. *)
Theorem hashtable_add t M (E : B) :
  KeyOk equal hash key → ht_rep t M → NextEntry t < 2 ^ 31 →
  ∃ i t', PhAddEntryHashtableEx E t = Some ((i, bool_decide (M !! key E = None)), t') ∧
    match M !! key E with
    | Some x => t' = t ∧ points_to t i x
    | None => ht_rep t' (<[key E := E]> M) ∧ points_to t' i E
    end.
Proof using Type.
  intros Hkey Hrep Hsz.
  destruct (add_entry_ok equal hash key t M E (λ r t', r.2 = bool_decide (M !! key E = None) ∧
    match M !! key E with
    | Some x => t' = t ∧ points_to t r.1 x
    | None => ht_rep t' (<[key E := E]> M) ∧ points_to t' r.1 E
    end)) as ([i b] & t' & Hrun & Hb & HQ); [done|done| | |].
  - intros x i e Hx Hu Hb. rewrite Hx. split_and!; [done|done|]. by exists i, e.
  - intros t' i e HM Hinv Hu Hb _. rewrite HM. split_and!; [done|done|]. by exists i, e.
  - exists i, t'. simpl in Hb. rewrite <-Hb. done.
Qed.

(** A search returns the entry of the key, or NULL, and changes nothing;
    removing an entry deletes the key from the map, and fails when it is not there;
    clearing empties the map. *)
Theorem hashtable_find_remove t M (E : B) :
  KeyOk equal hash key → ht_rep t M →
  (∃ r, PhFindEntryHashtable E t = Some (r, t) ∧
     match M !! key E with
     | Some x => ∃ i, r = Some i ∧ points_to t i x
     | None => r = None
     end) ∧
  (∃ t', PhRemoveEntryHashtable E t = Some (bool_decide (is_Some (M !! key E)), t') ∧
     ht_rep t' (delete (key E) M)) ∧
  (∃ t', PhClearHashtable t = Some (tt, t') ∧ ht_rep t' ∅).
Proof using Type.
  intros Hkey Hrep. split_and!.
  - destruct (find_entry_ok equal hash key t M E (λ r t', t' = t ∧ found key t M E r)) as (r & t' & Hrun & -> & Hf);
      [done|done|]. exists r. split; [done|]. unfold found in Hf. destruct (M !! key E); [|done].
    destruct Hf as (i & e & -> & Hu & Hx). eexists. split; [done|]. by exists i, e.
  - destruct (remove_entry_ok equal hash key t M E (λ r t', r = bool_decide (is_Some (M !! key E)) ∧
      ht_rep t' (delete (key E) M))) as (r & t' & Hrun & -> & Hr); [done| | |by exists t'].
    + intros t' Hinv HM _. split; [by rewrite bool_decide_true|done].
    + intros HM. rewrite HM. split; [done|]. by rewrite delete_id.
  - destruct (clear_ok equal hash key t M (λ _ t', ht_rep t' ∅)) as ([] & t' & Hrun & Hr); [done|done|by exists t'].
Qed.

(** Enumerating from key zero gives every element of the map exactly once, for
    any fuel above the number of elements. *)
Theorem hashtable_enum t M (fuel : nat) :
  ht_rep t M → (size M < fuel)%nat →
  ∃ l, enum_all fuel 0 t = Some (l, t) ∧
    list_to_map ((λ x, (key x, x)) <$> l) = M ∧ NoDup (key <$> l).
Proof using Type.
  intros Hrep Hf. destruct (bodies_map equal hash key t M Hrep) as [HM Hnd].
  pose proof (geo_next t (inv_geo _ _ _ _ _ _ Hrep)).
  set (l := bodies t 0 (Z.to_nat (NextEntry t))) in *. exists l. split; [|done].
  assert (length l = size M) as Hlen.
  { rewrite <-HM, map_size_list_to_map, length_fmap; [done|]. by rewrite <-list_fmap_compose. }
  apply wp_eq. apply (enum_all_ok equal hash key t M fuel 0); [done|lia| |];
    rewrite Nat.sub_0_r; [fold l; lia|done].
Qed.
End Theorems.

(** ** Simple hashtables *)

#[export] Instance simple_key_ok : KeyOk PhpSimpleHashtableEqualFunction PhpSimpleHashtableHashFunction Key.
Proof.
  split.
  - intros x y. unfold PhpSimpleHashtableEqualFunction. apply Z.eqb_eq.
  - intros x y Hk. unfold PhpSimpleHashtableHashFunction. by rewrite Hk.
Qed.

(** A client's calls; [garbage] is what the lookup entry of a search holds. *)
Inductive simple_op : Type :=
  | OpAdd (key value : Z)
  | OpFind (garbage key : Z)
  | OpRemove (garbage key : Z)
  | OpClear.

Definition run_simple (op : simple_op) : ST (PH_HASHTABLE PH_KEY_VALUE_PAIR) Z :=
  match op with
  | OpAdd key value => PhAddItemSimpleHashtable key value
  | OpFind garbage key => PhFindItemSimpleHashtable2 garbage key
  | OpRemove garbage key => b ← PhRemoveItemSimpleHashtable garbage key; mret (Z.b2z b)
  | OpClear => PhClearHashtable ;; mret 0
  end.

Fixpoint run_simples (ops : list simple_op) : ST (PH_HASHTABLE PH_KEY_VALUE_PAIR) (list Z) :=
  match ops with
  | [] => mret []
  | op :: ops => r ← run_simple op; rs ← run_simples ops; mret (r :: rs)
  end.

(** The same calls on a map; 0 is NULL and FALSE. *)
Definition spec_simple (op : simple_op) (M : gmap Z Z) : Z * gmap Z Z :=
  match op with
  | OpAdd key value => match M !! key with Some _ => (0, M) | None => (value, <[key := value]> M) end
  | OpFind _ key => (default 0 (M !! key), M)
  | OpRemove _ key => (Z.b2z (bool_decide (is_Some (M !! key))), delete key M)
  | OpClear => (0, ∅)
  end.

Fixpoint spec_simples (ops : list simple_op) (M : gmap Z Z) : list Z * gmap Z Z :=
  match ops with
  | [] => ([], M)
  | op :: ops => let '(r, M) := spec_simple op M in let '(rs, M) := spec_simples ops M in (r :: rs, M)
  end.

Definition simple_rep (t : PH_HASHTABLE PH_KEY_VALUE_PAIR) (M : gmap Z Z) : Prop :=
  ∃ N, ht_rep PhpSimpleHashtableEqualFunction PhpSimpleHashtableHashFunction Key t N ∧ M = Value <$> N.

Abbreviation sE := PhpSimpleHashtableEqualFunction.
Abbreviation sH := PhpSimpleHashtableHashFunction.

Lemma run_simple_ok op t M :
  simple_rep t M → NextEntry t < 2 ^ 31 →
  wp (run_simple op) (λ r t', r = (spec_simple op M).1 ∧ simple_rep t' (spec_simple op M).2 ∧
    NextEntry t' ≤ NextEntry t + 1) t.
Proof.
  intros (N & Hrep & ->) Hsz. destruct op as [k v|g k|g k|]; cbn [run_simple spec_simple].
  - unfold PhAddItemSimpleHashtable, PhAddEntryHashtable. enter_bind. enter_bind.
    apply (add_entry_ok sE sH Key t N (KeyValuePair k v)); [done|done| |]; cbn [Key].
    + intros x i e Hx Hu _. do 2 apply wp_ret. rewrite lookup_fmap, Hx. simpl. split_and!; [done| |lia]. by exists N.
    + intros t' i e HN Hinv Hu _ Hn. do 2 apply wp_ret. rewrite lookup_fmap, HN. simpl.
      split_and!; [done| |done]. eexists. split; [done|]. by rewrite fmap_insert.
  - unfold PhFindItemSimpleHashtable2, PhFindItemSimpleHashtable. enter_bind.
    apply (find_entry_ok sE sH Key t N (KeyValuePair k g)); [done|]. cbn [Key]. intros r Hr. unfold found in Hr.
    cbn [Key] in Hr. rewrite lookup_fmap. destruct (N !! k) as [x|] eqn:Hx.
    + destruct Hr as (i & e & -> & (Hi & He & _) & Hb). enter_bind. eapply wp_get_entry; [done|]. apply wp_ret.
      rewrite Hb. split_and!; [done| |simpl; lia]. by exists N.
    + subst r. apply wp_ret. split_and!; [done| |simpl; lia]. by exists N.
  - unfold PhRemoveItemSimpleHashtable. enter_bind. apply (remove_entry_ok sE sH Key t N (KeyValuePair k g)); [done| |]; cbn [Key].
    + intros t' Hinv HN Hn. apply wp_ret. rewrite bool_decide_true by (rewrite lookup_fmap; by apply fmap_is_Some).
      split_and!; [done| |simpl; lia]. eexists. split; [done|]. by rewrite fmap_delete.
    + intros HN. apply wp_ret. rewrite bool_decide_false by (rewrite lookup_fmap, HN; by intros [? ?]).
      split_and!; [done| |simpl; lia]. exists N. split; [done|]. simpl. rewrite delete_id; [done|]. by rewrite lookup_fmap, HN.
  - enter_bind. apply (clear_ok sE sH Key t N); [done|]. intros t' Hinv Hn. apply wp_ret.
    split_and!; [done| |simpl; lia]. eexists. split; [done|]. by rewrite fmap_empty.
Qed.

Lemma run_simples_ok ops : ∀ t M,
  simple_rep t M → NextEntry t + Z.of_nat (length ops) < 2 ^ 31 →
  wp (run_simples ops) (λ rs t', rs = (spec_simples ops M).1 ∧ simple_rep t' (spec_simples ops M).2) t.
Proof.
  induction ops as [|op ops IH]; intros t M Hrep Hsz; cbn [run_simples spec_simples length] in *; [by apply wp_ret|].
  enter_bind. eapply wp_mono; [apply (run_simple_ok op t M); [done|lia]|]. intros r t1 (-> & Hrep1 & Hn).
  destruct (spec_simple op M) as [r M1]. cbn [fst snd] in *. enter_bind.
  eapply wp_mono; [apply (IH t1 M1 Hrep1); lia|]. intros rs t2 [-> Hrep2].
  destruct (spec_simples ops M1) as [rs M2]. by apply wp_ret.
Qed.

(** Any sequence of additions, searches, removals and clearings of a new simple
    hashtable returns what a finite map from keys to values returns, and ends in
    that map. *)
Theorem simple_hashtable_scripts (capacity : Z) (ops : list simple_op) :
  0 ≤ capacity ≤ 2 ^ 31 → Z.of_nat (length ops) < 2 ^ 31 →
  ∃ t', run_simples ops (PhCreateSimpleHashtable capacity) = Some ((spec_simples ops ∅).1, t') ∧
    simple_rep t' (spec_simples ops ∅).2.
Proof.
  intros Hcap Hsz. destruct (run_simples_ok ops (PhCreateSimpleHashtable capacity) ∅) as (rs & t' & Hrun & -> & Hrep).
  - eexists. split; [by apply create_inv|]. by rewrite fmap_empty.
  - done.
  - by exists t'.
Qed.

(** ** Concrete inputs *)

Definition pair (k v : Z) : PH_KEY_VALUE_PAIR := KeyValuePair k v.

Lemma empty_rep : ht_rep sE sH Key (PhCreateSimpleHashtable 1) ∅.
Proof. by apply create_inv. Qed.

Lemma hashtable_add_witness :
  ∃ i t', PhAddEntryHashtableEx (pair 5 6) (PhCreateSimpleHashtable 1) = Some ((i, true), t') ∧
    ht_rep sE sH Key t' {[5 := pair 5 6]}.
Proof.
  destruct (hashtable_add sE sH Key (PhCreateSimpleHashtable 1) ∅ (pair 5 6) simple_key_ok empty_rep eq_refl)
    as (i & t' & Hrun & Hrep & _).
  exists i, t'. split; [exact Hrun|exact Hrep].
Defined.

Definition sample_table : PH_HASHTABLE PH_KEY_VALUE_PAIR :=
  match PhAddEntryHashtableEx (pair 5 6) (PhCreateSimpleHashtable 1) with
  | Some (_, t) => t
  | None => PhCreateSimpleHashtable 1
  end.

Lemma sample_table_rep : ht_rep sE sH Key sample_table {[5 := pair 5 6]}.
Proof.
  assert (wp (PhAddEntryHashtableEx (pair 5 6)) (λ _ t', ht_rep sE sH Key t' {[5 := pair 5 6]}) (PhCreateSimpleHashtable 1))
    as (r & t' & Hrun & Hrep).
  { apply (add_entry_ok sE sH Key _ ∅ (pair 5 6)); [apply empty_rep|done|by intros|by intros]. }
  unfold sample_table. by rewrite Hrun.
Qed.

Lemma hashtable_find_remove_witness :
  (∃ i, PhFindEntryHashtable (pair 5 0) sample_table = Some (Some i, sample_table)) ∧
  ∃ t', PhRemoveEntryHashtable (pair 5 0) sample_table = Some (true, t') ∧ ht_rep sE sH Key t' ∅.
Proof.
  destruct (hashtable_find_remove sE sH Key sample_table {[5 := pair 5 6]} (pair 5 0) simple_key_ok sample_table_rep)
    as ((r & Hfind & Hr) & (t' & Hremove & Hrep) & _).
  split; [|exists t'; split; [exact Hremove|exact Hrep]]. destruct Hr as (i & -> & _). exists i. exact Hfind.
Defined.

Lemma hashtable_enum_witness : ∃ l, enum_all 2 0 sample_table = Some (l, sample_table) ∧ NoDup (Key <$> l).
Proof.
  destruct (hashtable_enum sE sH Key sample_table {[5 := pair 5 6]} 2 sample_table_rep (le_n _)) as (l & Hrun & _ & Hnd).
  exists l. split; [exact Hrun|exact Hnd].
Defined.

Lemma simple_hashtable_scripts_witness :
  ∃ t', run_simples [OpAdd 1 10; OpAdd 2 20; OpAdd 3 30; OpAdd 1 11; OpRemove 0 2; OpAdd 4 40; OpFind 7 3; OpFind 7 2]
    (PhCreateSimpleHashtable 1) = Some ([10; 20; 30; 0; 1; 40; 30; 0], t').
Proof.
  destruct (simple_hashtable_scripts 1
    [OpAdd 1 10; OpAdd 2 20; OpAdd 3 30; OpAdd 1 11; OpRemove 0 2; OpAdd 4 40; OpFind 7 3; OpFind 7 2])
    as (t' & Hrun & _); [done|done|].
  exists t'. exact Hrun.
Defined.
