(* ===== verification/Unicode.v ===== *)
(** The Unicode decoder and encoder of [phlib/basesup.c], and the conversions
    between UTF-8, UTF-16 and ASCII. The conversions between UTF-8 and UTF-16 are
    there in both branches of the code: the one that is compiled, which calls
    Windows ([PH_NATIVE_STRING_CONVERSION] is 1), and the one built on the decoder
    and the encoder, whose definitions end in [_portable]. *)

From S2P Require Import Prelude.

Definition PH_UNICODE_MAX_CODE_POINT : Z := 0x10ffff.

Definition PH_UNICODE_UTF8 : Z := 0.
Definition PH_UNICODE_UTF16 : Z := 1.
Definition PH_UNICODE_UTF32 : Z := 2.

(** ** Surrogates *)

Definition PH_UNICODE_UTF16_TO_HIGH_SURROGATE (CodePoint : Z) : Z := u16 (Z.shiftr CodePoint 10) + 0xd7c0.
Definition PH_UNICODE_UTF16_TO_LOW_SURROGATE (CodePoint : Z) : Z := u16 (Z.land CodePoint 0x3ff) + 0xdc00.
Definition PH_UNICODE_UTF16_IS_HIGH_SURROGATE (CodeUnit : Z) : bool := (0xd800 <=? CodeUnit) && (CodeUnit <=? 0xdbff).
Definition PH_UNICODE_UTF16_IS_LOW_SURROGATE (CodeUnit : Z) : bool := (0xdc00 <=? CodeUnit) && (CodeUnit <=? 0xdfff).
Definition PH_UNICODE_UTF16_TO_CODE_POINT (HighSurrogate LowSurrogate : Z) : Z :=
  u32 (Z.shiftl HighSurrogate 10 + LowSurrogate - 0x35fdc00).

(** ** The decoder

    [Input] is [u.Utf8.Input], [u.Utf16.Input] or [u.Utf32.Input], of 4, 2 or 1
    slots; [CodeUnit1] is also [u.Utf16.CodeUnit]. A decoder only uses the member
    of the union that its encoding selects. *)
Record PH_UNICODE_DECODER : Type := Decoder {
  Encoding : Z;
  State : Z;
  InputCount : Z;
  Input : list Z;
  CodeUnit1 : Z;
  CodeUnit2 : Z;
  CodeUnit3 : Z;
  CodeUnit4 : Z
}.

Definition input_slots (encoding : Z) : nat :=
  match encoding with 0 => 4%nat | 1 => 2%nat | _ => 1%nat end.

Definition PhInitializeUnicodeDecoder (encoding : Z) : PH_UNICODE_DECODER :=
  Decoder encoding 0 0 (replicate (input_slots encoding) 0) 0 0 0 0.

Abbreviation dec := (ST PH_UNICODE_DECODER).

Definition set_State (s : Z) : dec unit := λ d,
  Some (tt, Decoder (Encoding d) s (InputCount d) (Input d) (CodeUnit1 d) (CodeUnit2 d) (CodeUnit3 d) (CodeUnit4 d)).
Definition set_Input (n : Z) (i : list Z) : dec unit := λ d,
  Some (tt, Decoder (Encoding d) (State d) n i (CodeUnit1 d) (CodeUnit2 d) (CodeUnit3 d) (CodeUnit4 d)).
Definition set_CodeUnit (which : nat) (c : Z) : dec unit := λ d,
  Some (tt, Decoder (Encoding d) (State d) (InputCount d) (Input d)
    (if decide (which = 1%nat) then c else CodeUnit1 d) (if decide (which = 2%nat) then c else CodeUnit2 d)
    (if decide (which = 3%nat) then c else CodeUnit3 d) (if decide (which = 4%nat) then c else CodeUnit4 d)).

(** A code unit at the width of the encoding. *)
Definition code_unit (encoding x : Z) : Z :=
  match encoding with 0 => u8 x | 1 => u16 x | _ => u32 x end.

Definition PhWriteUnicodeDecoder (CodeUnit : Z) : dec bool :=
  d ← get_st;
  match Encoding d with
  | 0 =>
      if 4 <=? InputCount d then mret false
      else set_Input (InputCount d + 1) (<[Z.to_nat (InputCount d) := u8 CodeUnit]> (Input d)) ;; mret true
  | 1 =>
      if 2 <=? InputCount d then mret false
      else set_Input (InputCount d + 1) (<[Z.to_nat (InputCount d) := u16 CodeUnit]> (Input d)) ;; mret true
  | 2 =>
      if 1 <=? InputCount d then mret false
      else set_Input 1 [CodeUnit] ;; mret true
  | _ => fault (* PhRaiseStatus(STATUS_UNSUCCESSFUL) *)
  end.

(** [None] is FALSE. The slots are shifted down by one; the last one keeps its
    contents. *)
Definition PhpReadUnicodeDecoder : dec (option Z) :=
  d ← get_st;
  match Encoding d with
  | 0 | 1 | 2 =>
      if InputCount d =? 0 then mret None
      else
        match Input d with
        | c :: rest =>
            set_Input (InputCount d - 1) (match last rest with Some l => rest ++ [l] | None => [c] end) ;;
            mret (Some c)
        | [] => fault
        end
  | _ => fault
  end.

Definition PhpUnreadUnicodeDecoder (CodeUnit : Z) : dec unit :=
  d ← get_st;
  match Encoding d with
  | 0 =>
      if 4 <=? InputCount d then fault
      else set_Input (InputCount d + 1) (u8 CodeUnit :: take 3 (Input d))
  | 1 =>
      if 2 <=? InputCount d then fault
      else set_Input (InputCount d + 1) (u16 CodeUnit :: take 1 (Input d))
  | 2 =>
      if 1 <=? InputCount d then fault
      else set_Input 1 [CodeUnit]
  | _ => fault
  end.

(** Puts back the code units after the first, and returns that one escaped. *)
Definition PhpDecodeUtf8Error (Which : Z) : dec Z :=
  d ← get_st;
  (if 4 <=? Which then PhpUnreadUnicodeDecoder (CodeUnit4 d) else mret tt) ;;
  (if 3 <=? Which then PhpUnreadUnicodeDecoder (CodeUnit3 d) else mret tt) ;;
  (if 2 <=? Which then PhpUnreadUnicodeDecoder (CodeUnit2 d) else mret tt) ;;
  set_State 0 ;;
  mret (u32 (CodeUnit1 d + 0xdc00)).

(** What one turn of the [while (TRUE)] loop does: [continue], or return. *)
Inductive turn : Type :=
  | Continue
  | Return (r : option Z).

Definition return_error (Which : Z) : dec turn := c ← PhpDecodeUtf8Error Which; mret (Return (Some c)).
Definition return_code (codePoint : Z) : dec turn := set_State 0 ;; mret (Return (Some codePoint)).
Definition continue_in (s : Z) : dec turn := set_State s ;; mret Continue.

Definition is_continuation (codeUnit : Z) : bool := Z.land codeUnit 0xc0 =? 0x80.

(** [switch (Decoder->State)] for UTF-8. *)
Definition utf8_turn (codeUnit : Z) : dec turn :=
  d ← get_st;
  match State d with
  | 0 =>
      set_CodeUnit 1 (u8 codeUnit) ;;
      if codeUnit <? 0x80 then mret (Return (Some codeUnit))
      else if codeUnit <? 0xc2 then return_error 1
      else if codeUnit <? 0xe0 then continue_in 1 (* 2 byte sequence *)
      else if codeUnit <? 0xf0 then continue_in 2 (* 3 byte sequence *)
      else if codeUnit <? 0xf5 then continue_in 3 (* 4 byte sequence *)
      else return_error 1
  | 1 => (* 2 byte sequence *)
      set_CodeUnit 2 (u8 codeUnit) ;;
      if is_continuation codeUnit then return_code (u32 (Z.shiftl (CodeUnit1 d) 6 + codeUnit - 0x3080))
      else return_error 2
  | 2 => (* 3 byte sequence (1) *)
      set_CodeUnit 2 (u8 codeUnit) ;;
      if is_continuation codeUnit && (negb (CodeUnit1 d =? 0xe0) || (0xa0 <=? codeUnit)) then continue_in 4
      else return_error 2
  | 3 => (* 4 byte sequence (1) *)
      set_CodeUnit 2 (u8 codeUnit) ;;
      if is_continuation codeUnit && (negb (CodeUnit1 d =? 0xf0) || (0x90 <=? codeUnit)) &&
         (negb (CodeUnit1 d =? 0xf4) || (codeUnit <? 0x90)) then continue_in 5
      else return_error 2
  | 4 => (* 3 byte sequence (2) *)
      set_CodeUnit 3 (u8 codeUnit) ;;
      if is_continuation codeUnit then
        return_code (u32 (Z.shiftl (CodeUnit1 d) 12 + Z.shiftl (CodeUnit2 d) 6 + codeUnit - 0xe2080))
      else return_error 3
  | 5 => (* 4 byte sequence (2) *)
      set_CodeUnit 3 (u8 codeUnit) ;;
      if is_continuation codeUnit then continue_in 6 else return_error 3
  | 6 => (* 4 byte sequence (3) *)
      set_CodeUnit 4 (u8 codeUnit) ;;
      if is_continuation codeUnit then
        return_code (u32 (Z.shiftl (CodeUnit1 d) 18 + Z.shiftl (CodeUnit2 d) 12 + Z.shiftl (CodeUnit3 d) 6 +
                          codeUnit - 0x3c82080))
      else return_error 4
  | _ => mret (Return None)
  end.

(** [switch (Decoder->State)] for UTF-16. *)
Definition utf16_turn (codeUnit : Z) : dec turn :=
  d ← get_st;
  match State d with
  | 0 =>
      if PH_UNICODE_UTF16_IS_HIGH_SURROGATE codeUnit then set_CodeUnit 1 (u16 codeUnit) ;; continue_in 1
      else mret (Return (Some codeUnit))
  | 1 =>
      if PH_UNICODE_UTF16_IS_LOW_SURROGATE codeUnit then
        return_code (PH_UNICODE_UTF16_TO_CODE_POINT (CodeUnit1 d) codeUnit)
      else
        PhpUnreadUnicodeDecoder codeUnit ;;
        return_code (CodeUnit1 d)
  | _ => mret (Return None)
  end.

(** Every turn that continues consumes a code unit of the input. *)
Fixpoint decode_loop (fuel : nat) : dec (option Z) :=
  match fuel with
  | O => fault
  | S fuel =>
      d ← get_st;
      match Encoding d with
      | 0 | 1 =>
          unit ← PhpReadUnicodeDecoder;
          match unit with
          | None => mret None
          | Some codeUnit =>
              t ← (if Encoding d =? 0 then utf8_turn codeUnit else utf16_turn codeUnit);
              match t with
              | Continue => decode_loop fuel
              | Return r => mret r
              end
          end
      | 2 => PhpReadUnicodeDecoder
      | _ => mret None
      end
  end.

(** At most four code units are in the input. *)
Definition PhDecodeUnicodeDecoder : dec (option Z) := decode_loop 5.

(** ** The encoder

    The number of code units and the code units; [None] is FALSE. *)
Definition PhEncodeUnicode (encoding CodePoint : Z) : option (Z * list Z) :=
  match encoding with
  | 0 =>
      if CodePoint <? 0x80 then Some (1, [u8 CodePoint])
      else if CodePoint <=? 0x7ff then
        Some (2, [u8 (u8 (Z.shiftr CodePoint 6) + 0xc0); u8 (u8 (Z.land CodePoint 0x3f) + 0x80)])
      else if CodePoint <=? 0xffff then
        Some (3, [u8 (u8 (Z.shiftr CodePoint 12) + 0xe0); u8 (u8 (Z.land (Z.shiftr CodePoint 6) 0x3f) + 0x80);
                  u8 (u8 (Z.land CodePoint 0x3f) + 0x80)])
      else if CodePoint <=? PH_UNICODE_MAX_CODE_POINT then
        Some (4, [u8 (u8 (Z.shiftr CodePoint 18) + 0xf0); u8 (u8 (Z.land (Z.shiftr CodePoint 12) 0x3f) + 0x80);
                  u8 (u8 (Z.land (Z.shiftr CodePoint 6) 0x3f) + 0x80); u8 (u8 (Z.land CodePoint 0x3f) + 0x80)])
      else None
  | 1 =>
      if CodePoint <? 0x10000 then Some (1, [u16 CodePoint])
      else if CodePoint <=? PH_UNICODE_MAX_CODE_POINT then
        Some (2, [u16 (PH_UNICODE_UTF16_TO_HIGH_SURROGATE CodePoint);
                  u16 (PH_UNICODE_UTF16_TO_LOW_SURROGATE CodePoint)])
      else None
  | 2 => Some (1, [CodePoint])
  | _ => None
  end.

(** ** Conversions with the decoder

    The loops that write one code unit at a time and process every code point that
    is then decoded; [body] is the processing. One code unit completes at most
    four code points. *)
Section Loops.
Context {A : Type} (body : Z → A → A).

(** [while (PhDecodeUnicodeDecoder(&decoder, &codePoint)) { ... }] *)
Fixpoint drain (fuel : nat) (acc : A) : dec A :=
  match fuel with
  | O => fault
  | S fuel =>
      codePoint ← PhDecodeUnicodeDecoder;
      match codePoint with
      | None => mret acc
      | Some codePoint => drain fuel (body codePoint acc)
      end
  end.

(** [while (inRemaining != 0) { PhWriteUnicodeDecoder(&decoder, *in); ... }] *)
Fixpoint feed (input : list Z) (acc : A) : dec A :=
  match input with
  | [] => mret acc
  | x :: input =>
      PhWriteUnicodeDecoder x ;;
      acc ← drain 6 acc;
      feed input acc
  end.

Definition decode_input (encoding : Z) (input : list Z) (acc : A) : option A :=
  match feed input acc (PhInitializeUnicodeDecoder encoding) with
  | Some (acc, _) => Some acc
  | None => None
  end.
End Loops.

(** [result] and the size of the output so far, in bytes; [unitSize] is the size of
    a code unit of the target [encoding]. *)
Definition size_body (encoding unitSize codePoint : Z) (acc : bool * Z) : bool * Z :=
  match PhEncodeUnicode encoding codePoint with
  | Some (numberOfCodeUnits, _) => (acc.1, acc.2 + numberOfCodeUnits * unitSize)
  | None => (false, acc.2)
  end.

(** [result], the code units written, [outRemaining] and the size in bytes. *)
Record output : Type := Output {
  result : bool;
  out : list Z;
  outRemaining : Z;
  outBytes : Z
}.

Definition buffer_body (encoding unitSize codePoint : Z) (acc : output) : output :=
  match PhEncodeUnicode encoding codePoint with
  | Some (numberOfCodeUnits, codeUnits) =>
      let bytes := outBytes acc + numberOfCodeUnits * unitSize in
      if numberOfCodeUnits <=? outRemaining acc then
        Output (result acc) (out acc ++ codeUnits) (outRemaining acc - numberOfCodeUnits) bytes
      else Output false (out acc) (outRemaining acc) bytes
  | None => Output false (out acc) (outRemaining acc) (outBytes acc)
  end.

Definition PhConvertUtf8ToUtf16Size_portable (Utf8String : list Z) : option (bool * Z) :=
  decode_input (size_body PH_UNICODE_UTF16 2) PH_UNICODE_UTF8 Utf8String (true, 0).

Definition PhConvertUtf8ToUtf16Buffer_portable (MaxBytesInUtf16String : Z) (Utf8String : list Z) : option output :=
  decode_input (buffer_body PH_UNICODE_UTF16 2) PH_UNICODE_UTF8 Utf8String (Output true [] (MaxBytesInUtf16String / 2) 0).

(** The string, or NULL; the outer [None] is a fault. *)
Definition PhConvertUtf8ToUtf16Ex_portable (Buffer : list Z) : option (option (list Z)) :=
  match PhConvertUtf8ToUtf16Size_portable Buffer with
  | Some (true, utf16Bytes) =>
      match PhConvertUtf8ToUtf16Buffer_portable utf16Bytes Buffer with
      | Some o => Some (if result o then Some (out o) else None)
      | None => None
      end
  | Some (false, _) => Some None
  | None => None
  end.

Definition PhConvertUtf16ToUtf8Size_portable (Utf16String : list Z) : option (bool * Z) :=
  decode_input (size_body PH_UNICODE_UTF8 1) PH_UNICODE_UTF16 Utf16String (true, 0).

Definition PhConvertUtf16ToUtf8Buffer_portable (MaxBytesInUtf8String : Z) (Utf16String : list Z) : option output :=
  decode_input (buffer_body PH_UNICODE_UTF8 1) PH_UNICODE_UTF16 Utf16String (Output true [] MaxBytesInUtf8String 0).

Definition PhConvertUtf16ToUtf8Ex_portable (Buffer : list Z) : option (option (list Z)) :=
  match PhConvertUtf16ToUtf8Size_portable Buffer with
  | Some (true, utf8Bytes) =>
      match PhConvertUtf16ToUtf8Buffer_portable utf8Bytes Buffer with
      | Some o => Some (if result o then Some (out o) else None)
      | None => None
      end
  | Some (false, _) => Some None
  | None => None
  end.

(** The bytes written so far and [outLength]. *)
Definition ascii_body (Replacement codePoint : Z) (acc : list Z * Z) : list Z * Z :=
  if codePoint <? 0x80 then (acc.1 ++ [codePoint], acc.2 + 1)
  else if negb (Replacement =? 0) then (acc.1 ++ [Replacement], acc.2 + 1)
  else acc.

Definition PhConvertUtf16ToAsciiEx (Buffer : list Z) (Replacement : Z) : option (list Z * Z) :=
  decode_input (ascii_body Replacement) PH_UNICODE_UTF16 Buffer ([], 0).

(** ** The conversions that are compiled *)

Definition NT_SUCCESS (status : Z) : bool := status <? 2 ^ 31.

(** What ntdll provides. The destination is its size in bytes, or NULL; the answer is the
    status, the units that were written to the destination and the number of bytes reported. *)
Class NativeConversion := {
  RtlUTF8ToUnicodeN : option Z → list Z → Z * list Z * Z;
  RtlUnicodeToUTF8N : option Z → list Z → Z * list Z * Z;
}.

Section Native.
Context `{NativeConversion}.

(** A string of which the length in bytes is passed as a ULONG; [unitSize] is the size of
    its units. *)
Definition ulong_string (unitSize : Z) (s : list Z) : list Z :=
  take (Z.to_nat (u32 (unitSize * Z.of_nat (length s)) / unitSize)) s.

(** The size in bytes; [None] is FALSE. *)
Definition PhConvertUtf8ToUtf16Size (Utf8String : list Z) : option Z :=
  let '(status, _, bytesInUtf16String) := RtlUTF8ToUnicodeN None (ulong_string 1 Utf8String) in
  if NT_SUCCESS status then Some bytesInUtf16String else None.

(** The units that were written, and the size in bytes, of which [None] is FALSE. *)
Definition PhConvertUtf8ToUtf16Buffer (MaxBytesInUtf16String : Z) (Utf8String : list Z) : list Z * option Z :=
  let '(status, written, bytesInUtf16String) := RtlUTF8ToUnicodeN (Some (u32 MaxBytesInUtf16String)) (ulong_string 1 Utf8String) in
  (written, if NT_SUCCESS status then Some bytesInUtf16String else None).

(** A new string of [n] units; those that are not written afterwards are shown as zeros. *)
Definition filled (n : Z) (written : list Z) : list Z := written ++ replicate (Z.to_nat n - length written) 0.

(** The string, or NULL. *)
Definition PhConvertUtf8ToUtf16Ex (Buffer : list Z) : option (list Z) :=
  match PhConvertUtf8ToUtf16Size Buffer with
  | None => None
  | Some utf16Bytes =>
      match PhConvertUtf8ToUtf16Buffer utf16Bytes Buffer with
      | (written, Some _) => Some (filled (utf16Bytes / 2) written)
      | (_, None) => None
      end
  end.

Definition PhConvertUtf16ToUtf8Size (Utf16String : list Z) : option Z :=
  let '(status, _, bytesInUtf8String) := RtlUnicodeToUTF8N None (ulong_string 2 Utf16String) in
  if NT_SUCCESS status then Some bytesInUtf8String else None.

Definition PhConvertUtf16ToUtf8Buffer (MaxBytesInUtf8String : Z) (Utf16String : list Z) : list Z * option Z :=
  let '(status, written, bytesInUtf8String) := RtlUnicodeToUTF8N (Some (u32 MaxBytesInUtf8String)) (ulong_string 2 Utf16String) in
  (written, if NT_SUCCESS status then Some bytesInUtf8String else None).

Definition PhConvertUtf16ToUtf8Ex (Buffer : list Z) : option (list Z) :=
  match PhConvertUtf16ToUtf8Size Buffer with
  | None => None
  | Some utf8Bytes =>
      match PhConvertUtf16ToUtf8Buffer utf8Bytes Buffer with
      | (written, Some _) => Some (filled utf8Bytes written)
      | (_, None) => None
      end
  end.
End Native.
