(* ===== verification/UnicodeFacts.v ===== *)
(** The decoder, which consumes one code unit at a time and puts code units back
    after an error, against a reference that looks at a whole sequence of code
    units at once; an interface for stream decoders, with the UTF-8 and UTF-16
    decoders as its instances. *)

From S2P Require Import Prelude Unicode.

(** ** References

    What a sequence of code units starts with: more input is needed, or a code
    point and what follows it. *)
Inductive verdict : Type :=
  | Incomplete
  | Emit (codePoint : Z) (rest : list Z).

(** The second unit of a three-byte sequence, and of a four-byte sequence: no
    overlong forms, nothing above 0x10ffff. *)
Definition second3 (c1 c2 : Z) : bool := is_continuation c2 && (negb (c1 =? 0xe0) || (0xa0 <=? c2)).
Definition second4 (c1 c2 : Z) : bool :=
  is_continuation c2 && (negb (c1 =? 0xf0) || (0x90 <=? c2)) && (negb (c1 =? 0xf4) || (c2 <? 0x90)).

(** UTF-8; the first byte of anything ill-formed is escaped as 0xdc00 plus the
    byte, and decoding goes on at the next byte. *)
Definition utf8_head (bs : list Z) : verdict :=
  match bs with
  | [] => Incomplete
  | c1 :: r =>
      let bad := Emit (c1 + 0xdc00) r in
      if c1 <? 0x80 then Emit c1 r
      else if c1 <? 0xc2 then bad
      else if c1 <? 0xe0 then
        match r with
        | [] => Incomplete
        | c2 :: r2 => if is_continuation c2 then Emit ((c1 - 0xc0) * 0x40 + (c2 - 0x80)) r2 else bad
        end
      else if c1 <? 0xf0 then
        match r with
        | [] => Incomplete
        | c2 :: r2 =>
            if second3 c1 c2 then
              match r2 with
              | [] => Incomplete
              | c3 :: r3 =>
                  if is_continuation c3 then Emit ((c1 - 0xe0) * 0x1000 + (c2 - 0x80) * 0x40 + (c3 - 0x80)) r3
                  else bad
              end
            else bad
        end
      else if c1 <? 0xf5 then
        match r with
        | [] => Incomplete
        | c2 :: r2 =>
            if second4 c1 c2 then
              match r2 with
              | [] => Incomplete
              | c3 :: r3 =>
                  if is_continuation c3 then
                    match r3 with
                    | [] => Incomplete
                    | c4 :: r4 =>
                        if is_continuation c4 then
                          Emit ((c1 - 0xf0) * 0x40000 + (c2 - 0x80) * 0x1000 + (c3 - 0x80) * 0x40 + (c4 - 0x80)) r4
                        else bad
                    end
                  else bad
              end
            else bad
        end
      else bad
  end.

(** UTF-16; a lone surrogate stands for itself. *)
Definition utf16_head (us : list Z) : verdict :=
  match us with
  | [] => Incomplete
  | c1 :: r =>
      if PH_UNICODE_UTF16_IS_HIGH_SURROGATE c1 then
        match r with
        | [] => Incomplete
        | c2 :: r2 =>
            if PH_UNICODE_UTF16_IS_LOW_SURROGATE c2 then
              Emit (0x10000 + (c1 - 0xd800) * 0x400 + (c2 - 0xdc00)) r2
            else Emit c1 r
        end
      else Emit c1 r
  end.

(** All the code points of a sequence, and the incomplete rest. *)
Section Reference.
Context (head : list Z → verdict).

Fixpoint decode_fuel (fuel : nat) (us : list Z) : list Z * list Z :=
  match fuel with
  | O => ([], us)
  | S fuel =>
      match head us with
      | Incomplete => ([], us)
      | Emit c rest => let '(cs, p) := decode_fuel fuel rest in (c :: cs, p)
      end
  end.

Definition reference (us : list Z) : list Z * list Z := decode_fuel (length us) us.

(** A verdict is final: more input does not change it. *)
Class Prompt : Prop := {
  prompt_nil : head [] = Incomplete;
  prompt_app : ∀ us c rest more, head us = Emit c rest → head (us ++ more) = Emit c (rest ++ more);
  prompt_shorter : ∀ us c rest, head us = Emit c rest → (length rest < length us)%nat
}.

Context `{Prompt}.

Lemma decode_fuel_enough f us : (length us ≤ f)%nat → decode_fuel f us = reference us.
Proof using Type*.
  unfold reference. revert us. induction f as [f IH] using lt_wf_ind. intros us Hf.
  destruct f as [|f]; destruct us as [|u us]; [done|simpl in Hf; lia| |].
  { simpl. by rewrite prompt_nil. }
  change (length (u :: us)) with (S (length us)). cbn [decode_fuel].
  destruct (head (u :: us)) as [|c rest] eqn:Hh; [done|]. apply prompt_shorter in Hh. simpl in Hh, Hf.
  rewrite (IH f) by lia. by rewrite (IH (length us)) by lia.
Qed.

Lemma reference_emit us c rest : head us = Emit c rest → reference us = (c :: (reference rest).1, (reference rest).2).
Proof using Type*.
  intros Hh. pose proof (prompt_shorter _ _ _ Hh). unfold reference at 1.
  destruct us as [|u us]; [by rewrite prompt_nil in Hh|]. cbn [length decode_fuel]. rewrite Hh.
  rewrite decode_fuel_enough by (simpl in *; lia). by destruct (reference rest).
Qed.

Lemma reference_incomplete us : head us = Incomplete → reference us = ([], us).
Proof using Type. intros Hh. unfold reference. destruct us; [done|]. cbn [length decode_fuel]. by rewrite Hh. Qed.

Lemma reference_pending us : head (reference us).2 = Incomplete.
Proof using Type*.
  induction us as [us IH] using (induction_ltof1 _ (@length Z)). unfold ltof in IH.
  destruct (head us) as [|c rest] eqn:Hh; [by rewrite reference_incomplete|].
  rewrite (reference_emit us c rest Hh). simpl. apply IH. by eapply prompt_shorter.
Qed.

(** Decoding can be done in pieces. *)
Lemma reference_app us more :
  reference (us ++ more) =
    ((reference us).1 ++ (reference ((reference us).2 ++ more)).1, (reference ((reference us).2 ++ more)).2).
Proof using Type*.
  induction us as [us IH] using (induction_ltof1 _ (@length Z)). unfold ltof in IH.
  destruct (head us) as [|c rest] eqn:Hh.
  - rewrite (reference_incomplete us Hh). simpl. by destruct (reference (us ++ more)).
  - rewrite (reference_emit us c rest Hh), (reference_emit (us ++ more) c (rest ++ more)) by (by apply prompt_app).
    rewrite (IH rest) by (by eapply prompt_shorter). done.
Qed.
End Reference.

#[export] Instance utf16_prompt : Prompt utf16_head.
Proof.
  split; [done| |].
  - intros [|c1 [|c2 us]] c rest more; cbn [utf16_head app]; repeat case_match; naive_solver.
  - intros [|c1 [|c2 us]] c rest; cbn [utf16_head]; repeat case_match; intros; simplify_eq/=; lia.
Qed.

#[export] Instance utf8_prompt : Prompt utf8_head.
Proof.
  split; [done| |].
  - intros [|c1 [|c2 [|c3 [|c4 us]]]] c rest more; cbn [utf8_head app]; cbv zeta; repeat case_match; intros; simplify_eq/=; done.
  - intros [|c1 [|c2 [|c3 [|c4 us]]]] c rest; cbn [utf8_head]; cbv zeta; repeat case_match; intros; simplify_eq/=; lia.
Qed.

(** ** The state of a decoder

    [inputs n d q]: the code units [q] are in the input, which has [n] slots. *)
Definition inputs (n : nat) (d : PH_UNICODE_DECODER) (q : list Z) : Prop :=
  InputCount d = Z.of_nat (length q) ∧ length (Input d) = n ∧ take (length q) (Input d) = q.

Definition same_control (d d' : PH_UNICODE_DECODER) : Prop :=
  Encoding d' = Encoding d ∧ State d' = State d ∧ CodeUnit1 d' = CodeUnit1 d ∧ CodeUnit2 d' = CodeUnit2 d ∧
  CodeUnit3 d' = CodeUnit3 d ∧ CodeUnit4 d' = CodeUnit4 d.

Lemma inputs_push n d q x (i : list Z) :
  inputs n d q → (length q < n)%nat → i = <[length q := x]> (Input d) →
  inputs n (Decoder (Encoding d) (State d) (InputCount d + 1) i (CodeUnit1 d) (CodeUnit2 d) (CodeUnit3 d) (CodeUnit4 d)) (q ++ [x]).
Proof.
  intros (Hc & Hl & Ht) Hlt ->. unfold inputs. cbn. rewrite length_app, length_insert. simpl. split_and!; [lia|done|].
  rewrite Nat.add_1_r, (take_S_r _ _ x) by (apply list_lookup_insert_eq; lia). f_equal. by rewrite take_insert_ge by lia.
Qed.

Lemma wp_read n d x q (Q : option Z → PH_UNICODE_DECODER → Prop) :
  (Encoding d = 0 ∨ Encoding d = 1) → (1 < n)%nat → inputs n d (x :: q) →
  (∀ d', inputs n d' q → same_control d d' → Q (Some x) d') → wp PhpReadUnicodeDecoder Q d.
Proof.
  intros He Hn (Hc & Hl & Ht) HQ. unfold PhpReadUnicodeDecoder. enter_bind. apply wp_get.
  simpl length in Hc. destruct (Input d) as [|c rest] eqn:Hi; [done|]. simpl in Ht. injection Ht as -> Hq.
  assert (∃ l, last rest = Some l) as [l Hlast].
  { destruct (last rest) eqn:Hlr; [by eexists|]. apply last_None in Hlr as ->. simpl in Hl. lia. }
  assert (wp (set_Input (InputCount d - 1) (match last rest with Some l => rest ++ [l] | None => [x] end) ;; mret (Some x)) Q d).
  { enter_bind. eexists tt, _. split; [reflexivity|]. apply wp_ret, HQ; [|done]. rewrite Hlast. unfold inputs. cbn.
    split_and!; [lia|rewrite length_app; simpl in *; lia|]. simpl in Hl. rewrite take_app_le; [done|].
    rewrite <-Hq, length_take. lia. }
  destruct He as [-> | ->]; rewrite (proj2 (Z.eqb_neq _ _)) by lia; done.
Qed.

Lemma wp_read_empty n d (Q : option Z → PH_UNICODE_DECODER → Prop) :
  (Encoding d = 0 ∨ Encoding d = 1) → inputs n d [] → Q None d → wp PhpReadUnicodeDecoder Q d.
Proof.
  intros He (Hc & _) HQ. unfold PhpReadUnicodeDecoder. enter_bind. apply wp_get. simpl in Hc. rewrite Hc.
  destruct He as [-> | ->]; by apply wp_ret.
Qed.

Lemma wp_unread n d x q (Q : unit → PH_UNICODE_DECODER → Prop) :
  (Encoding d = 0 ∧ n = 4%nat ∧ 0 ≤ x < 2 ^ 8 ∨ Encoding d = 1 ∧ n = 2%nat ∧ 0 ≤ x < 2 ^ 16) →
  inputs n d q → (length q < n)%nat →
  (∀ d', inputs n d' (x :: q) → same_control d d' → Q tt d') → wp (PhpUnreadUnicodeDecoder x) Q d.
Proof.
  intros He (Hc & Hl & Ht) Hlt HQ. unfold PhpUnreadUnicodeDecoder. enter_bind. apply wp_get.
  destruct He as [(-> & -> & Hx)|(-> & -> & Hx)].
  - rewrite (proj2 (Z.leb_gt _ _)) by lia. eexists tt, _. split; [reflexivity|]. apply HQ; [|done].
    unfold inputs, u8. cbn. rewrite Z.mod_small, length_take, take_take by lia.
    split_and!; [lia|lia|]. f_equal. rewrite <-Ht at 2. f_equal. lia.
  - rewrite (proj2 (Z.leb_gt _ _)) by lia. eexists tt, _. split; [reflexivity|]. apply HQ; [|done].
    unfold inputs, u16. cbn. rewrite Z.mod_small, length_take, take_take by lia.
    split_and!; [lia|lia|]. f_equal. rewrite <-Ht at 2. f_equal. lia.
Qed.

(** What the clients of a decoder rely on: [sd_rep d p q] says that [d] has taken
    in the incomplete sequence [p] and has the code units [q] in its input. *)
Class StreamDecoder (encoding : Z) (head : list Z → verdict) (valid : Z → Prop) : Type := {
  sd_rep : PH_UNICODE_DECODER → list Z → list Z → Prop;
  sd_prompt :: Prompt head;
  sd_init : sd_rep (PhInitializeUnicodeDecoder encoding) [] [];
  sd_pending : ∀ d p q, sd_rep d p q → head p = Incomplete ∧ (length p + length q ≤ 4)%nat;
  sd_write : ∀ d p x, sd_rep d p [] → valid x → wp (PhWriteUnicodeDecoder x) (λ b d', b = true ∧ sd_rep d' p [x]) d;
  sd_decode : ∀ d p q, sd_rep d p q → wp PhDecodeUnicodeDecoder (λ r d',
    match head (p ++ q) with
    | Incomplete => r = None ∧ sd_rep d' (p ++ q) []
    | Emit c rest => r = Some c ∧ sd_rep d' [] rest
    end) d
}.

(** *** UTF-16 *)

Record rep16 (d : PH_UNICODE_DECODER) (p q : list Z) : Prop := {
  r16_encoding : Encoding d = 1;
  r16_inputs : inputs 2 d q;
  r16_state : State d = match p with [] => 0 | _ => 1 end;
  r16_pending : match p with [] => True | [c] => CodeUnit1 d = c | _ => False end;
  r16_head : utf16_head p = Incomplete;
  r16_units : Forall (λ x, 0 ≤ x < 2 ^ 16) (p ++ q);
  r16_length : (length p + length q ≤ 2)%nat
}.

Lemma decode16 fuel : ∀ d p q,
  rep16 d p q → (length q < fuel)%nat →
  wp (decode_loop fuel) (λ r d',
    match utf16_head (p ++ q) with
    | Incomplete => r = None ∧ rep16 d' (p ++ q) []
    | Emit c rest => r = Some c ∧ rep16 d' [] rest
    end) d.
Proof.
  induction fuel as [|fuel IH]; intros d p q Hrep Hf; [lia|]. pose proof Hrep as [He Hi Hs Hp Hh Hu Hl].
  cbn [decode_loop]. enter_bind. apply wp_get. rewrite He. enter_bind. destruct q as [|x q].
  { eapply (wp_read_empty 2); [by right|done|]. apply wp_ret. rewrite app_nil_r, Hh. split; [done|].
    by destruct Hrep; rewrite app_nil_r in *; split; rewrite ?app_nil_r. }
  eapply (wp_read 2); [by right|lia|done|]. intros d1 Hi1 (He1 & Hs1 & Hc1 & _).
  apply Forall_app in Hu as [Hup Huq]. apply Forall_cons in Huq as [Hx Huq]. simpl Z.eqb. enter_bind.
  unfold utf16_turn. enter_bind. apply wp_get. rewrite Hs1, Hs. destruct p as [|c1 [|c2 p]]; [| |done].
  - destruct (PH_UNICODE_UTF16_IS_HIGH_SURROGATE x) eqn:Hhi.
    + enter_bind. eexists tt, _. split; [reflexivity|]. unfold continue_in. enter_bind.
      eexists tt, _. split; [reflexivity|]. apply wp_ret. rewrite app_nil_l.
      apply (IH _ [x] q); [|simpl in Hf; lia]. split; cbn; [congruence| |done| | | |simpl in Hl; lia].
      * by destruct Hi1 as (? & ? & ?).
      * unfold u16. by rewrite Z.mod_small.
      * by rewrite Hhi.
      * by constructor.
    + apply wp_ret, wp_ret. rewrite app_nil_l. cbn [utf16_head]. rewrite Hhi. split; [done|].
      split; cbn; try done; [by rewrite He1|by rewrite Hs1|simpl in Hl; lia].
  - subst c1. cbn [utf16_head] in Hh. destruct (PH_UNICODE_UTF16_IS_HIGH_SURROGATE (CodeUnit1 d)) eqn:Hhi; [|done].
    apply Forall_cons in Hup as [Hcu _]. cbn [app utf16_head]. rewrite Hhi.
    destruct (PH_UNICODE_UTF16_IS_LOW_SURROGATE x) eqn:Hlo.
    + unfold return_code. enter_bind. eexists tt, _. split; [reflexivity|]. apply wp_ret, wp_ret. rewrite Hc1. split.
      * unfold PH_UNICODE_UTF16_IS_HIGH_SURROGATE, PH_UNICODE_UTF16_IS_LOW_SURROGATE in *.
        apply andb_true_iff in Hhi, Hlo. rewrite !Z.leb_le in Hhi, Hlo.
        unfold PH_UNICODE_UTF16_TO_CODE_POINT. rewrite Z.shiftl_mul_pow2 by lia. f_equal. rewrite u32_small; lia.
      * split; cbn; try done; [by rewrite He1|simpl in Hl; lia].
    + enter_bind. eapply (wp_unread 2); [right; by rewrite He1|done|simpl in Hl; lia|]. intros d2 Hi2 (He2 & Hs2 & Hc2 & _).
      unfold return_code. enter_bind. eexists tt, _. split; [reflexivity|]. apply wp_ret, wp_ret. rewrite Hc1.
      split; [done|]. split; cbn; try done; [congruence|by constructor|simpl in Hl; lia].
Qed.

#[export] Instance utf16_decoder : StreamDecoder PH_UNICODE_UTF16 utf16_head (λ x, 0 ≤ x < 2 ^ 16).
Proof.
  refine {| sd_rep := rep16 |}.
  - split; try done. simpl. lia.
  - intros d p q [_ _ _ _ Hh _ Hl]. split; [done|lia].
  - intros d p x [He Hi Hs Hp Hh Hu Hl] Hx. unfold PhWriteUnicodeDecoder. enter_bind. apply wp_get. rewrite He.
    assert (length p < 2)%nat as Hp2.
    { destruct p as [|c1 [|c2 p]]; [simpl; lia|simpl; lia|done]. }
    pose proof Hi as (Hc & Hlen & _). change (InputCount d = 0) in Hc. rewrite Hc, (proj2 (Z.leb_gt 2 0)) by lia. enter_bind. eexists tt, _. split; [reflexivity|].
    apply wp_ret. split; [done|]. unfold u16. rewrite Z.mod_small by lia.
    split; cbn; try done; [|by rewrite app_nil_r in Hu; apply Forall_app; split; [|by constructor]|simpl; lia].
    pose proof (inputs_push 2 d [] x _ Hi ltac:(simpl; lia) eq_refl) as Hpush. by rewrite Hc in Hpush.
  - intros d p q Hrep. apply (decode16 5); [done|]. destruct Hrep as [_ _ _ _ _ _ Hl]. lia.
Defined.

(** *** UTF-8 *)

Lemma continuation_range c : 0 ≤ c < 2 ^ 8 → is_continuation c = (0x80 <=? c) && (c <? 0xc0).
Proof.
  intros Hc. apply eqb_true_iff.
  apply (all_from_spec (λ c, Bool.eqb (is_continuation c) ((0x80 <=? c) && (c <? 0xc0))) 256 0); [by vm_compute|lia].
Qed.

Lemma continuation_true c : 0 ≤ c < 2 ^ 8 → is_continuation c = true → 0x80 ≤ c < 0xc0.
Proof. intros Hc. rewrite continuation_range, andb_true_iff, Z.leb_le, Z.ltb_lt by done. lia. Qed.

Definition state8 (p : list Z) : Z :=
  match p with
  | [] => 0
  | [a] => if a <? 0xe0 then 1 else if a <? 0xf0 then 2 else 3
  | [a; _] => if a <? 0xf0 then 4 else 5
  | _ => 6
  end.

Definition pending8 (d : PH_UNICODE_DECODER) (p : list Z) : Prop :=
  match p with
  | [] => True
  | [a] => CodeUnit1 d = a
  | [a; b] => CodeUnit1 d = a ∧ CodeUnit2 d = b
  | [a; b; c] => CodeUnit1 d = a ∧ CodeUnit2 d = b ∧ CodeUnit3 d = c
  | _ => False
  end.

Record rep8 (d : PH_UNICODE_DECODER) (p q : list Z) : Prop := {
  r8_encoding : Encoding d = 0;
  r8_inputs : inputs 4 d q;
  r8_state : State d = state8 p;
  r8_pending : pending8 d p;
  r8_head : utf8_head p = Incomplete;
  r8_units : Forall (λ x, 0 ≤ x < 2 ^ 8) (p ++ q);
  r8_length : (length p + length q ≤ 4)%nat
}.

(** Putting back the units after the first. *)
Lemma wp_return_error d w units q (Q : turn → PH_UNICODE_DECODER → Prop) :
  Encoding d = 0 → inputs 4 d q → Forall (λ x, 0 ≤ x < 2 ^ 8) units → 0 ≤ CodeUnit1 d < 2 ^ 8 →
  (1 + length units + length q ≤ 4)%nat →
  (w = 1 ∧ units = [] ∨ w = 2 ∧ units = [CodeUnit2 d] ∨ w = 3 ∧ units = [CodeUnit2 d; CodeUnit3 d] ∨
   w = 4 ∧ units = [CodeUnit2 d; CodeUnit3 d; CodeUnit4 d]) →
  (∀ d', Encoding d' = 0 → State d' = 0 → inputs 4 d' (units ++ q) → Q (Return (Some (CodeUnit1 d + 0xdc00))) d') →
  wp (return_error w) Q d.
Proof.
  intros He Hi Hu H1 Hlen Hw HQ. unfold return_error, PhpDecodeUtf8Error. enter_bind. enter_bind. apply wp_get.
  assert (∀ d', Encoding d' = 0 → inputs 4 d' (units ++ q) →
    wp (set_State 0 ;; mret (u32 (CodeUnit1 d + 0xdc00))) (λ a s', wp (mret (Return (Some a))) Q s') d') as Hend.
  { intros d' He' Hi'. enter_bind. eexists tt, _. split; [reflexivity|]. do 2 apply wp_ret. rewrite u32_small by lia.
    by apply HQ. }
  assert (∀ d' x r (K : unit → PH_UNICODE_DECODER → Prop), Encoding d' = 0 → 0 ≤ x < 2 ^ 8 → inputs 4 d' r →
    (length r < 4)%nat → (∀ d'', Encoding d'' = 0 → inputs 4 d'' (x :: r) → K tt d'') →
    wp (PhpUnreadUnicodeDecoder x) K d') as Hunread.
  { intros d' x r K He' Hx Hi' Hl' HK. eapply (wp_unread 4); [by left|done|done|]. intros d'' Hi'' (He'' & _).
    apply HK; [congruence|done]. }
  destruct Hw as [[-> ->]|[[-> ->]|[[-> ->]|[-> ->]]]]; simpl Z.leb; cbn [length] in Hlen; rewrite ?Forall_cons in Hu.
  - enter_bind. apply wp_ret. enter_bind. apply wp_ret. enter_bind. apply wp_ret. by apply Hend.
  - enter_bind. apply wp_ret. enter_bind. apply wp_ret. enter_bind.
    apply (Hunread d _ q); [done|tauto|done|lia|]. intros d1 He1 Hi1. by apply Hend.
  - enter_bind. apply wp_ret. enter_bind. apply (Hunread d _ q); [done|tauto|done|lia|]. intros d1 He1 Hi1.
    enter_bind. apply (Hunread d1 _ (CodeUnit3 d :: q)); [done|tauto|done|simpl; lia|]. intros d2 He2 Hi2. by apply Hend.
  - enter_bind. apply (Hunread d _ q); [done|tauto|done|lia|]. intros d1 He1 Hi1.
    enter_bind. apply (Hunread d1 _ (CodeUnit4 d :: q)); [done|tauto|done|simpl; lia|]. intros d2 He2 Hi2.
    enter_bind. apply (Hunread d2 _ (CodeUnit3 d :: CodeUnit4 d :: q)); [done|tauto|done|simpl; lia|].
    intros d3 He3 Hi3. by apply Hend.
Qed.

Definition turn_ok (p : list Z) (x : Z) (q : list Z) (t : turn) (d : PH_UNICODE_DECODER) : Prop :=
  match utf8_head (p ++ [x]) with
  | Incomplete => t = Continue ∧ rep8 d (p ++ [x]) q
  | Emit c rest => t = Return (Some c) ∧ rep8 d [] (rest ++ q)
  end.

(** An error that puts back the code units [units]. *)
Lemma turn_error d w p x q units :
  utf8_head (p ++ [x]) = Emit (CodeUnit1 d + 0xdc00) units →
  Encoding d = 0 → inputs 4 d q → Forall (λ x, 0 ≤ x < 2 ^ 8) (CodeUnit1 d :: units ++ q) →
  (1 + length units + length q ≤ 4)%nat →
  (w = 1 ∧ units = [] ∨ w = 2 ∧ units = [CodeUnit2 d] ∨ w = 3 ∧ units = [CodeUnit2 d; CodeUnit3 d] ∨
   w = 4 ∧ units = [CodeUnit2 d; CodeUnit3 d; CodeUnit4 d]) →
  wp (return_error w) (turn_ok p x q) d.
Proof.
  intros Hh He Hi [H1 Hu]%Forall_cons Hlen Hw. eapply (wp_return_error d w units q); try done.
  - by apply Forall_app in Hu as [? _].
  - intros d' He' Hs' Hi'. unfold turn_ok. rewrite Hh. split; [done|].
    split; try done. rewrite length_app. simpl. lia.
Qed.

(** A complete sequence. *)
Lemma turn_code d p x q c :
  utf8_head (p ++ [x]) = Emit c [] → Encoding d = 0 → inputs 4 d q → Forall (λ x, 0 ≤ x < 2 ^ 8) q →
  (length q ≤ 4)%nat → wp (return_code c) (turn_ok p x q) d.
Proof.
  intros Hh He Hi Hu Hl. unfold return_code. enter_bind. eexists tt, _. split; [reflexivity|]. apply wp_ret.
  unfold turn_ok. rewrite Hh. split; [done|]. by split.
Qed.

(** One more unit of an incomplete sequence. *)
Lemma turn_continue d s p x q :
  utf8_head (p ++ [x]) = Incomplete → Encoding d = 0 → inputs 4 d q → Forall (λ x, 0 ≤ x < 2 ^ 8) (p ++ x :: q) →
  (length p + S (length q) ≤ 4)%nat → s = state8 (p ++ [x]) → pending8 d (p ++ [x]) →
  wp (continue_in s) (turn_ok p x q) d.
Proof.
  intros Hh He Hi Hu Hl -> Hp. unfold continue_in. enter_bind. eexists tt, _. split; [reflexivity|]. apply wp_ret.
  unfold turn_ok. rewrite Hh. split; [done|]. split; try done.
  - by rewrite <-app_assoc.
  - rewrite length_app. simpl. lia.
Qed.

(** The arithmetic of the decoder on the bytes of a well-formed sequence. *)
Lemma code_point_2 a b :
  0xc2 ≤ a < 0xe0 → 0x80 ≤ b < 0xc0 →
  u32 (Z.shiftl a 6 + b - 0x3080) = (a - 0xc0) * 0x40 + (b - 0x80).
Proof. intros. rewrite Z.shiftl_mul_pow2 by lia. rewrite u32_small; lia. Qed.

Lemma code_point_3 a b c :
  0xe0 ≤ a < 0xf0 → 0x80 ≤ b < 0xc0 → 0x80 ≤ c < 0xc0 →
  u32 (Z.shiftl a 12 + Z.shiftl b 6 + c - 0xe2080) = (a - 0xe0) * 0x1000 + (b - 0x80) * 0x40 + (c - 0x80).
Proof. intros. rewrite !Z.shiftl_mul_pow2 by lia. rewrite u32_small; lia. Qed.

Lemma code_point_4 a b c e :
  0xf0 ≤ a < 0xf5 → 0x80 ≤ b < 0xc0 → 0x80 ≤ c < 0xc0 → 0x80 ≤ e < 0xc0 →
  u32 (Z.shiftl a 18 + Z.shiftl b 12 + Z.shiftl c 6 + e - 0x3c82080) =
  (a - 0xf0) * 0x40000 + (b - 0x80) * 0x1000 + (c - 0x80) * 0x40 + (e - 0x80).
Proof. intros. rewrite !Z.shiftl_mul_pow2 by lia. rewrite u32_small; lia. Qed.

Ltac bool_facts :=
  repeat match goal with
  | H : _ && _ = true |- _ => apply andb_true_iff in H as [? ?]
  | H : (_ <? _) = true |- _ => apply Z.ltb_lt in H
  | H : (_ <? _) = false |- _ => apply Z.ltb_ge in H
  | H : (_ <=? _) = true |- _ => apply Z.leb_le in H
  | H : (_ <=? _) = false |- _ => apply Z.leb_gt in H
  end.

Lemma wp_set_CodeUnit d w c (Q : unit → PH_UNICODE_DECODER → Prop) :
  (∀ d', Encoding d' = Encoding d → State d' = State d → (∀ n q, inputs n d q → inputs n d' q) →
    CodeUnit1 d' = (if decide (w = 1%nat) then c else CodeUnit1 d) →
    CodeUnit2 d' = (if decide (w = 2%nat) then c else CodeUnit2 d) →
    CodeUnit3 d' = (if decide (w = 3%nat) then c else CodeUnit3 d) →
    CodeUnit4 d' = (if decide (w = 4%nat) then c else CodeUnit4 d) → Q tt d') →
  wp (set_CodeUnit w c) Q d.
Proof. intros HQ. eexists tt, _. split; [reflexivity|]. by apply HQ. Qed.

Section Turn.
Context (d : PH_UNICODE_DECODER) (x : Z) (q : list Z).
Context (He : Encoding d = 0) (Hi : inputs 4 d q) (Hx : 0 ≤ x < 2 ^ 8).

Abbreviation bytes := (Forall (λ x, 0 ≤ x < 2 ^ 8)).

(** Enters the case of the state, up to the stored code unit. *)
Ltac enter_state Hs :=
  unfold utf8_turn; enter_bind; apply wp_get; rewrite Hs; enter_bind;
  apply wp_set_CodeUnit; intros d' He' Hs' Hi' H1' H2' H3' H4';
  simpl in H1', H2', H3', H4'; specialize (Hi' 4%nat q Hi);
  try rewrite (Z.mod_small x (2 ^ 8) Hx : u8 x = x) in *; rewrite He in He'.

(** The verdict on the sequence so far, from the outcomes of the tests. *)
Ltac verdict := cbn [app utf8_head]; cbv zeta; unfold second3, second4;
  repeat match goal with H : _ = true |- _ => rewrite H | H : _ = false |- _ => rewrite H end;
  rewrite ?Z.ltb_irrefl; try reflexivity.

(** The three ways to go on; what is left to show is the verdict, and which units
    are put back or which state is next. *)
Ltac units :=
  repeat match goal with
  | H : CodeUnit1 ?d = _ |- context [CodeUnit1 ?d] => rewrite H
  | H : CodeUnit2 ?d = _ |- context [CodeUnit2 ?d] => rewrite H
  | H : CodeUnit3 ?d = _ |- context [CodeUnit3 ?d] => rewrite H
  | H : CodeUnit4 ?d = _ |- context [CodeUnit4 ?d] => rewrite H
  end.
Ltac error us := apply (turn_error _ _ _ _ _ us); units; try assumption;
  try (simpl; lia); try (by repeat (constructor; [assumption|])); try (by repeat constructor).
Ltac continue := apply turn_continue; cbn [pending8 app]; units; try assumption; try (simpl; lia); try (by repeat (constructor; [assumption|]));
  try (by repeat constructor); try (by split_and!).

Lemma turn8_0 :
  State d = 0 → bytes (x :: q) → (S (length q) ≤ 4)%nat → wp (utf8_turn x) (turn_ok [] x q) d.
Proof using Type*.
  intros Hs Hu Hl. pose proof Hu as [_ Huq]%Forall_cons. enter_state Hs.
  destruct (x <? 0x80) eqn:E1.
  { apply wp_ret. unfold turn_ok. replace (utf8_head ([] ++ [x])) with (Emit x []) by verdict.
    split; [done|]. split; try done; [by rewrite Hs'|simpl; lia]. }
  destruct (x <? 0xc2) eqn:E2.
  { error (@nil Z); first [solve [verdict]|naive_solver]. }
  destruct (x <? 0xe0) eqn:E3; [continue; [verdict|cbn; by rewrite E3]|].
  destruct (x <? 0xf0) eqn:E4; [continue; [verdict|cbn; by rewrite E3, E4]|].
  destruct (x <? 0xf5) eqn:E5; [continue; [verdict|cbn; by rewrite E3, E4]|].
  error (@nil Z); first [solve [verdict]|naive_solver].
Qed.

Lemma lead_range a :
  utf8_head [a] = Incomplete → 0 ≤ a < 2 ^ 8 →
  (a <? 0x80) = false ∧ (a <? 0xc2) = false ∧ (a <? 0xf5) = true ∧ 0xc2 ≤ a < 0xf5.
Proof using Type.
  clear. cbn [utf8_head]. cbv zeta. intros Hh Ha.
  destruct (a <? 0x80) eqn:E1; [done|]. destruct (a <? 0xc2) eqn:E2; [done|].
  destruct (a <? 0xf5) eqn:E5; bool_facts; [split_and!; try done; lia|].
  rewrite (proj2 (Z.ltb_ge a 0xe0)), (proj2 (Z.ltb_ge a 0xf0)) in Hh by lia. done.
Qed.

Lemma turn8_1 a :
  pending8 d [a] → utf8_head [a] = Incomplete → State d = state8 [a] → bytes ([a] ++ x :: q) →
  (2 + length q ≤ 4)%nat → wp (utf8_turn x) (turn_ok [a] x q) d.
Proof using Type*.
  intros Ha Hh Hs Hu Hl. cbn in Ha. apply Forall_cons in Hu as [Har Hu]. pose proof Hu as [_ Huq]%Forall_cons.
  destruct (lead_range a Hh Har) as (E1 & E2 & E5 & Hr). cbn [state8] in Hs.
  destruct (a <? 0xe0) eqn:E3; [|destruct (a <? 0xf0) eqn:E4]; enter_state Hs; rewrite Ha in *.
  - destruct (is_continuation x) eqn:Ec.
    + apply Z.ltb_lt in E3 as E3'. pose proof (continuation_true x Hx Ec).
      apply turn_code; try done; [|lia]. rewrite code_point_2 by lia. verdict.
    + error [x]; first [solve [verdict]|naive_solver].
  - destruct (is_continuation x && _) eqn:Ec.
    + continue; [verdict|cbn; by rewrite ?E3, ?E4].
    + error [x]; first [solve [verdict]|naive_solver].
  - destruct (is_continuation x && _ && _) eqn:Ec.
    + continue; [verdict|cbn; by rewrite ?E3, ?E4].
    + error [x]; first [solve [verdict]|naive_solver].
Qed.

Lemma turn8_2 a b :
  pending8 d [a; b] → utf8_head [a; b] = Incomplete → State d = state8 [a; b] → bytes ([a; b] ++ x :: q) →
  (3 + length q ≤ 4)%nat → wp (utf8_turn x) (turn_ok [a; b] x q) d.
Proof using Type*.
  intros [Ha Hb] Hh Hs Hu Hl. apply Forall_cons in Hu as [Har [Hbr Hu]%Forall_cons]. pose proof Hu as [_ Huq]%Forall_cons.
  assert (utf8_head [a] = Incomplete) as Hha.
  { cbn [utf8_head] in Hh |- *. cbv zeta in *. repeat case_match; done. }
  destruct (lead_range a Hha Har) as (E1 & E2 & E5 & Hr). cbn [state8] in Hs.
  cbn [utf8_head] in Hh. cbv zeta in Hh. rewrite E1, E2, E5 in Hh.
  destruct (a <? 0xe0) eqn:E3; [by destruct (is_continuation b)|].
  destruct (a <? 0xf0) eqn:E4.
  - destruct (second3 a b) eqn:Eb; [|done]. enter_state Hs. rewrite Ha, Hb in *. unfold second3 in Eb.
    destruct (is_continuation x) eqn:Ec.
    + apply Z.ltb_lt in E4 as E4'. apply Z.ltb_ge in E3 as E3'. pose proof (continuation_true x Hx Ec).
      apply andb_true_iff in Eb as Eb'. pose proof (continuation_true b Hbr (proj1 Eb')).
      apply turn_code; try done; [|lia]. rewrite code_point_3 by lia. verdict.
    + error [b; x]; first [solve [verdict]|naive_solver].
  - destruct (second4 a b) eqn:Eb; [|done]. enter_state Hs. rewrite Ha, Hb in *. unfold second4 in Eb.
    destruct (is_continuation x) eqn:Ec.
    + continue; verdict.
    + error [b; x]; first [solve [verdict]|naive_solver].
Qed.

Lemma turn8_3 a b c :
  pending8 d [a; b; c] → utf8_head [a; b; c] = Incomplete → State d = state8 [a; b; c] → bytes ([a; b; c] ++ x :: q) →
  (4 + length q ≤ 4)%nat → wp (utf8_turn x) (turn_ok [a; b; c] x q) d.
Proof using Type*.
  intros (Ha & Hb & Hc) Hh Hs Hu Hl. apply Forall_cons in Hu as [Har [Hbr [Hcr Hu]%Forall_cons]%Forall_cons].
  pose proof Hu as [_ Huq]%Forall_cons.
  assert (utf8_head [a] = Incomplete) as Hha.
  { cbn [utf8_head] in Hh |- *. cbv zeta in *. repeat case_match; done. }
  destruct (lead_range a Hha Har) as (E1 & E2 & E5 & Hr). cbn [state8] in Hs.
  cbn [utf8_head] in Hh. cbv zeta in Hh. rewrite E1, E2, E5 in Hh.
  destruct (a <? 0xe0) eqn:E3; [by destruct (is_continuation b)|].
  destruct (a <? 0xf0) eqn:E4; [by destruct (second3 a b), (is_continuation c)|].
  destruct (second4 a b) eqn:Eb; [|done]. destruct (is_continuation c) eqn:Ec; [|done].
  enter_state Hs. rewrite Ha, Hb, Hc in *. unfold second4 in Eb.
  destruct (is_continuation x) eqn:Ex.
  - apply Z.ltb_ge in E4 as E4'. pose proof (continuation_true x Hx Ex). pose proof (continuation_true c Hcr Ec).
    apply andb_true_iff in Eb as Eb'. destruct Eb' as [Eb' _]. apply andb_true_iff in Eb' as [Eb' _].
    pose proof (continuation_true b Hbr Eb'). clear Eb'.
    apply turn_code; try done; [|lia]. rewrite code_point_4 by lia. verdict.
  - error [b; c; x]; first [solve [verdict]|naive_solver].
Qed.
End Turn.

Lemma turn8_ok d d1 p x q :
  rep8 d p (x :: q) → inputs 4 d1 q → same_control d d1 → wp (utf8_turn x) (turn_ok p x q) d1.
Proof.
  intros [He _ Hs Hp Hh Hu Hl] Hi (He1 & Hs1 & H1 & H2 & H3 & H4). simpl in Hl.
  assert (0 ≤ x < 2 ^ 8) as Hx. { apply Forall_app in Hu as [_ Hu]. by apply Forall_cons in Hu as [? _]. }
  rewrite He in He1. rewrite Hs in Hs1.
  destruct p as [|a [|b [|c [|]]]]; cbn [pending8] in Hp; [..|done].
  - apply turn8_0; [done..|simpl in *; lia].
  - apply turn8_1; [done..|cbn; congruence|done|done|done|simpl in *; lia].
  - apply turn8_2; [done..|cbn; intuition congruence|done|done|done|simpl in *; lia].
  - apply turn8_3; [done..|cbn; intuition congruence|done|done|done|simpl in *; lia].
Qed.

Lemma decode8 fuel : ∀ d p q,
  rep8 d p q → (length q < fuel)%nat →
  wp (decode_loop fuel) (λ r d',
    match utf8_head (p ++ q) with
    | Incomplete => r = None ∧ rep8 d' (p ++ q) []
    | Emit c rest => r = Some c ∧ rep8 d' [] rest
    end) d.
Proof.
  induction fuel as [|fuel IH]; intros d p q Hrep Hf; [lia|]. pose proof Hrep as [He Hi Hs Hp Hh Hu Hl].
  cbn [decode_loop]. enter_bind. apply wp_get. rewrite He. enter_bind. destruct q as [|x q].
  { eapply (wp_read_empty 4); [by left|done|]. apply wp_ret. rewrite app_nil_r, Hh. split; [done|].
    by destruct Hrep; rewrite app_nil_r in *; split; rewrite ?app_nil_r. }
  eapply (wp_read 4); [by left|lia|done|]. intros d1 Hi1 Hc1. simpl Z.eqb. enter_bind.
  eapply wp_mono; [by eapply turn8_ok|]. intros t d2. unfold turn_ok.
  replace (p ++ x :: q) with ((p ++ [x]) ++ q) by (by rewrite <-app_assoc).
  destruct (utf8_head (p ++ [x])) as [|c rest] eqn:Hv; intros [-> Hrep2].
  - apply IH; [done|simpl in Hf; lia].
  - apply wp_ret. by rewrite (prompt_app _ _ _ _ q Hv).
Qed.

#[export] Instance utf8_decoder : StreamDecoder PH_UNICODE_UTF8 utf8_head (λ x, 0 ≤ x < 2 ^ 8).
Proof.
  refine {| sd_rep := rep8 |}.
  - split; try done. simpl. lia.
  - intros d p q [_ _ _ _ Hh _ Hl]. by split.
  - intros d p x [He Hi Hs Hp Hh Hu Hl] Hx. unfold PhWriteUnicodeDecoder. enter_bind. apply wp_get. rewrite He.
    assert (length p < 4)%nat as Hp4 by (destruct p as [|? [|? [|? [|]]]]; [simpl; lia..|done]).
    pose proof Hi as (Hc & Hlen & _). change (InputCount d = 0) in Hc.
    rewrite Hc, (proj2 (Z.leb_gt 4 0)) by lia. enter_bind. eexists tt, _. split; [reflexivity|].
    apply wp_ret. split; [done|]. unfold u8. rewrite Z.mod_small by lia.
    split; cbn; try done; [|by rewrite app_nil_r in Hu; apply Forall_app; split; [|by constructor]|lia].
    pose proof (inputs_push 4 d [] x _ Hi ltac:(simpl; lia) eq_refl) as Hpush. by rewrite Hc in Hpush.
  - intros d p q Hrep. apply (decode8 5); [done|]. destruct Hrep as [_ _ _ _ _ _ Hl]. lia.
Defined.
