(* ===== verification/UnicodeTheorems.v ===== *)
(** The theorems about the Unicode decoder, the encoder and the string
    conversions: the loops agree with the reference decoding, the conversions are
    total and exact, and they are inverse to each other. *)

From S2P Require Import Prelude Unicode UnicodeFacts.

(** ** The loops of the conversions *)

Section Stream.
Context (encoding : Z) (head : list Z → verdict) (valid : Z → Prop) `{!StreamDecoder encoding head valid}.
Context {A : Type} (body : Z → A → A).

Abbreviation run cs acc := (foldl (λ a c, body c a) acc cs).

Lemma drain_spec fuel : ∀ d p q acc,
  sd_rep d p q → (length p + length q < fuel)%nat →
  wp (drain body fuel acc) (λ acc' d',
    acc' = run (reference head (p ++ q)).1 acc ∧ sd_rep d' (reference head (p ++ q)).2 []) d.
Proof using Type*.
  induction fuel as [|fuel IH]; intros d p q acc Hrep Hf; [lia|].
  cbn [drain]. enter_bind. eapply wp_mono; [by apply sd_decode|]. cbn beta. intros r d'.
  destruct (head (p ++ q)) as [|c rest] eqn:Hh.
  - intros [-> Hd']. rewrite (reference_incomplete head _ Hh). by apply wp_ret.
  - intros [-> Hd']. rewrite (reference_emit head _ c rest Hh). cbn [fst snd foldl].
    apply (IH d' [] rest); [done|]. pose proof (prompt_shorter _ _ _ _ Hh) as Hs. rewrite length_app in Hs. simpl. lia.
Qed.

Lemma feed_spec input : ∀ d p acc,
  sd_rep d p [] → Forall valid input →
  wp (feed body input acc) (λ acc' d',
    acc' = run (reference head (p ++ input)).1 acc ∧ sd_rep d' (reference head (p ++ input)).2 []) d.
Proof using Type*.
  induction input as [|x input IH]; intros d p acc Hrep Hv.
  - apply sd_pending in Hrep as Hp. destruct Hp as [Hh _]. cbn [feed]. rewrite app_nil_r, (reference_incomplete head _ Hh).
    by apply wp_ret.
  - apply Forall_cons in Hv as [Hx Hv]. cbn [feed]. enter_bind. eapply wp_mono; [by apply sd_write|]. cbn beta.
    intros b d1 [-> Hd1]. enter_bind. eapply wp_mono; [apply drain_spec; [done|]|].
    { apply sd_pending in Hd1 as [_ Hl]. lia. }
    cbn beta. intros acc1 d2 [-> Hd2]. eapply wp_mono; [by apply IH|]. cbn beta. intros acc2 d3 [-> Hd3].
    replace (p ++ x :: input) with ((p ++ [x]) ++ input) by (by rewrite <-app_assoc).
    rewrite (reference_app head (p ++ [x]) input). cbn [fst snd]. by rewrite foldl_app.
Qed.

Lemma decode_input_spec input acc :
  Forall valid input → decode_input body encoding input acc = Some (run (reference head input).1 acc).
Proof using Type*.
  intros Hv. destruct (feed_spec input _ [] acc sd_init Hv) as (acc' & d' & Hr & -> & _).
  unfold decode_input. by rewrite Hr.
Qed.
End Stream.

(** ** The encodings *)

Abbreviation code_point c := (0 ≤ c ≤ 0x10ffff).
Abbreviation bytes us := (Forall (λ x, 0 ≤ x < 2 ^ 8) us).
Abbreviation words us := (Forall (λ x, 0 ≤ x < 2 ^ 16) us).

(** A code point that is not a surrogate. *)
Definition scalar (c : Z) : Prop := code_point c ∧ (c < 0xd800 ∨ 0xdfff < c).

Definition utf8_encode (c : Z) : list Z :=
  if c <? 0x80 then [c]
  else if c <? 0x800 then [0xc0 + c / 0x40; 0x80 + c mod 0x40]
  else if c <? 0x10000 then [0xe0 + c / 0x1000; 0x80 + c / 0x40 mod 0x40; 0x80 + c mod 0x40]
  else [0xf0 + c / 0x40000; 0x80 + c / 0x1000 mod 0x40; 0x80 + c / 0x40 mod 0x40; 0x80 + c mod 0x40].

Definition utf16_encode (c : Z) : list Z :=
  if c <? 0x10000 then [c] else [0xd800 + (c - 0x10000) / 0x400; 0xdc00 + c mod 0x400].

Definition encode_with (encode : Z → list Z) (cs : list Z) : list Z := concat (map encode cs).

Lemma shiftr_div c k : 0 ≤ k → Z.shiftr c k = c / 2 ^ k.
Proof. intros. by apply Z.shiftr_div_pow2. Qed.

Lemma land_3f x : Z.land x 0x3f = x mod 0x40.
Proof. by apply (land_pow2 x 6). Qed.

Lemma encode_utf8 c :
  code_point c → PhEncodeUnicode PH_UNICODE_UTF8 c = Some (Z.of_nat (length (utf8_encode c)), utf8_encode c).
Proof.
  intros Hc. unfold PhEncodeUnicode, PH_UNICODE_UTF8, utf8_encode. rewrite !land_3f, !shiftr_div by lia.
  change (2 ^ 6) with 0x40. change (2 ^ 12) with 0x1000. change (2 ^ 18) with 0x40000.
  assert (∀ x, u8 (u8 (x mod 0x40) + 0x80) = 0x80 + x mod 0x40) as Hm.
  { intros x. unfold u8. pose proof (Z.mod_pos_bound x 0x40). rewrite (Z.mod_small (x mod 0x40)), Z.mod_small by lia. lia. }
  assert (∀ x b, 0 ≤ x → 0 ≤ b → x + b < 2 ^ 8 → u8 (u8 x + b) = b + x) as Hl.
  { intros x b ???. unfold u8. rewrite (Z.mod_small x), Z.mod_small by lia. lia. }
  rewrite !Hm.
  destruct (Z.ltb_spec c 0x80); [unfold u8; by rewrite Z.mod_small by lia|].
  destruct (Z.leb_spec c 0x7ff); [rewrite (proj2 (Z.ltb_lt c 0x800)), Hl by (Z.to_euclidean_division_equations; lia); done|].
  rewrite (proj2 (Z.ltb_ge c 0x800)) by lia.
  destruct (Z.leb_spec c 0xffff); [rewrite (proj2 (Z.ltb_lt c 0x10000)), Hl by (Z.to_euclidean_division_equations; lia); done|].
  rewrite (proj2 (Z.ltb_ge c 0x10000)) by lia.
  rewrite (proj2 (Z.leb_le c PH_UNICODE_MAX_CODE_POINT)) by (unfold PH_UNICODE_MAX_CODE_POINT; lia).
  rewrite Hl by (Z.to_euclidean_division_equations; lia). done.
Qed.

Lemma encode_utf16 c :
  code_point c → PhEncodeUnicode PH_UNICODE_UTF16 c = Some (Z.of_nat (length (utf16_encode c)), utf16_encode c).
Proof.
  intros Hc. unfold PhEncodeUnicode, PH_UNICODE_UTF16, utf16_encode.
  destruct (Z.ltb_spec c 0x10000); [unfold u16; by rewrite Z.mod_small by lia|].
  rewrite (proj2 (Z.leb_le c PH_UNICODE_MAX_CODE_POINT)) by (unfold PH_UNICODE_MAX_CODE_POINT; lia).
  unfold PH_UNICODE_UTF16_TO_HIGH_SURROGATE, PH_UNICODE_UTF16_TO_LOW_SURROGATE.
  rewrite (land_pow2 c 10 ltac:(lia) : Z.land c 0x3ff = c mod 0x400), (shiftr_div c 10 ltac:(lia)).
  change (2 ^ 10) with 0x400. unfold u16. change (2 ^ 16) with 0x10000.
  do 3 f_equal; [|f_equal]; Z.to_euclidean_division_equations; lia.
Qed.

(** ** Decoding is the inverse of encoding *)

Lemma continuation_byte x : is_continuation (0x80 + x mod 0x40) = true.
Proof.
  pose proof (Z.mod_pos_bound x 0x40). rewrite continuation_range by lia.
  rewrite andb_true_iff, Z.leb_le, Z.ltb_lt. lia.
Qed.

(** Decides a comparison that arithmetic settles. *)
Ltac decide_tests :=
  repeat match goal with
  | |- context [?x <? ?y] =>
      first [rewrite (proj2 (Z.ltb_lt x y)) by lia | rewrite (proj2 (Z.ltb_ge x y)) by lia]
  | |- context [?x <=? ?y] =>
      first [rewrite (proj2 (Z.leb_le x y)) by lia | rewrite (proj2 (Z.leb_gt x y)) by lia]
  end.

Lemma head_encode8 c more : code_point c → utf8_head (utf8_encode c ++ more) = Emit c more.
Proof.
  intros Hc. unfold utf8_encode.
  destruct (Z.ltb_spec c 0x80); [cbn [app utf8_head]; cbv zeta; by decide_tests|].
  destruct (Z.ltb_spec c 0x800); [|destruct (Z.ltb_spec c 0x10000)]; cbn [app utf8_head]; cbv zeta;
    unfold second3, second4; rewrite ?continuation_byte.
  - assert (2 ≤ c / 0x40 < 0x20) by (Z.to_euclidean_division_equations; lia).
    decide_tests. f_equal. Z.to_euclidean_division_equations; lia.
  - assert (0 ≤ c / 0x1000 < 0x10) by (Z.to_euclidean_division_equations; lia). decide_tests.
    replace (negb (0xe0 + c / 0x1000 =? 0xe0) || (0xa0 <=? 0x80 + c / 0x40 mod 0x40)) with true.
    + f_equal. Z.to_euclidean_division_equations; lia.
    + symmetry. apply orb_true_iff. rewrite negb_true_iff, Z.eqb_neq, Z.leb_le. Z.to_euclidean_division_equations; lia.
  - assert (0 ≤ c / 0x40000 < 5) by (Z.to_euclidean_division_equations; lia). decide_tests.
    replace (negb (0xf0 + c / 0x40000 =? 0xf0) || (0x90 <=? 0x80 + c / 0x1000 mod 0x40)) with true.
    2:{ symmetry. apply orb_true_iff. rewrite negb_true_iff, Z.eqb_neq, Z.leb_le. Z.to_euclidean_division_equations; lia. }
    replace (negb (0xf0 + c / 0x40000 =? 0xf4) || (0x80 + c / 0x1000 mod 0x40 <? 0x90)) with true.
    2:{ symmetry. apply orb_true_iff. rewrite negb_true_iff, Z.eqb_neq, Z.ltb_lt. Z.to_euclidean_division_equations; lia. }
    cbn [andb]. f_equal. Z.to_euclidean_division_equations; lia.
Qed.

Lemma head_encode16 c more : scalar c → utf16_head (utf16_encode c ++ more) = Emit c more.
Proof.
  intros [Hc Hs]. unfold utf16_encode. destruct (Z.ltb_spec c 0x10000); cbn [app utf16_head];
    unfold PH_UNICODE_UTF16_IS_HIGH_SURROGATE, PH_UNICODE_UTF16_IS_LOW_SURROGATE.
  - destruct Hs; decide_tests; cbn [andb]; rewrite ?andb_false_r; done.
  - assert (0 ≤ (c - 0x10000) / 0x400 < 0x400) by (Z.to_euclidean_division_equations; lia).
    pose proof (Z.mod_pos_bound c 0x400). decide_tests. cbn [andb]. f_equal. Z.to_euclidean_division_equations; lia.
Qed.

Lemma reference_encode head encode (P : Z → Prop) `{!Prompt head} cs :
  (∀ c more, P c → head (encode c ++ more) = Emit c more) → Forall P cs →
  reference head (encode_with encode cs) = (cs, []).
Proof.
  intros He. induction 1 as [|c cs Hc _ IH]; [done|]. unfold encode_with. cbn [map concat].
  rewrite (reference_emit head _ c (encode_with encode cs)) by (by apply He). by rewrite IH.
Qed.

(** ** Encoding is the inverse of decoding, for UTF-16 *)

Lemma encode_head16 us c rest : words us → utf16_head us = Emit c rest → us = utf16_encode c ++ rest.
Proof.
  intros Hu. destruct us as [|a us]; [done|]. apply Forall_cons in Hu as [Ha Hu]. cbn [utf16_head].
  assert (utf16_encode a = [a]) as Hea by (unfold utf16_encode; by decide_tests).
  destruct (PH_UNICODE_UTF16_IS_HIGH_SURROGATE a) eqn:Hh; [|intros [= <- <-]; by rewrite Hea].
  destruct us as [|b us]; [done|]. destruct (PH_UNICODE_UTF16_IS_LOW_SURROGATE b) eqn:Hl; [|intros [= <- <-]; by rewrite Hea].
  unfold PH_UNICODE_UTF16_IS_HIGH_SURROGATE, PH_UNICODE_UTF16_IS_LOW_SURROGATE in *.
  apply andb_true_iff in Hh, Hl. rewrite !Z.leb_le in Hh, Hl. intros [= <- <-]. unfold utf16_encode. decide_tests.
  cbn [app]. f_equal; [|f_equal]; Z.to_euclidean_division_equations; lia.
Qed.

Lemma encode_reference16 us :
  words us → encode_with utf16_encode (reference utf16_head us).1 ++ (reference utf16_head us).2 = us.
Proof.
  induction us as [us IH] using (induction_ltof1 _ (@length Z)). unfold ltof in IH. intros Hu.
  destruct (utf16_head us) as [|c rest] eqn:Hh; [by rewrite reference_incomplete|].
  rewrite (reference_emit utf16_head us c rest Hh). cbn [fst snd]. unfold encode_with. cbn [map concat].
  rewrite <-app_assoc. pose proof (encode_head16 us c rest Hu Hh) as ->.
  apply Forall_app in Hu as [_ Hr]. f_equal. apply IH; [|done]. rewrite length_app. unfold utf16_encode.
  case_match; simpl; lia.
Qed.

(** ** The code points that a decoder produces *)

Lemma reference_forall head (V : Z → Prop) (P : Z → Prop) `{!Prompt head} us :
  (∀ us c rest, Forall V us → head us = Emit c rest → P c ∧ Forall V rest) → Forall V us → Forall P (reference head us).1.
Proof.
  intros Hd. induction us as [us IH] using (induction_ltof1 _ (@length Z)). unfold ltof in IH. intros Hu.
  destruct (head us) as [|c rest] eqn:Hh; [by rewrite reference_incomplete|].
  rewrite (reference_emit head us c rest Hh). cbn [fst]. destruct (Hd _ _ _ Hu Hh) as [Hc Hr].
  constructor; [done|]. apply IH; [|done]. apply (prompt_shorter _ _ _ _ Hh).
Qed.

Lemma reference16_code_points us : words us → Forall (λ c, code_point c) (reference utf16_head us).1.
Proof.
  refine (reference_forall utf16_head (λ x, 0 ≤ x < 2 ^ 16) (λ c, code_point c) us _). clear us. intros us c rest Hu Hh. split.
  2:{ rewrite (encode_head16 us c rest Hu Hh) in Hu. by apply Forall_app in Hu as [_ ?]. }
  destruct us as [|a [|b us]]; [done|..]; cbn [utf16_head] in Hh; apply Forall_cons in Hu as [Ha _];
    unfold PH_UNICODE_UTF16_IS_HIGH_SURROGATE, PH_UNICODE_UTF16_IS_LOW_SURROGATE in Hh;
    repeat case_match; simplify_eq; bool_facts; lia.
Qed.

Lemma reference8_code_points us : bytes us → Forall (λ c, code_point c) (reference utf8_head us).1.
Proof.
  refine (reference_forall utf8_head (λ x, 0 ≤ x < 2 ^ 8) (λ c, code_point c) us _). clear us. intros us c rest Hu Hh.
  destruct us as [|c1 us]; [done|]. apply Forall_cons in Hu as [Hb1 Hu]. cbn [utf8_head] in Hh. cbv zeta in Hh.
  assert (code_point (c1 + 0xdc00)) as Hbad by lia.
  destruct (Z.ltb_spec c1 0x80); [simplify_eq; split; [lia|done]|].
  destruct (Z.ltb_spec c1 0xc2); [simplify_eq; split; [lia|done]|].
  destruct us as [|c2 us]; [repeat case_match; simplify_eq; by split|].
  apply Forall_cons in Hu as Hu2. destruct Hu2 as [Hb2 Hu2].
  destruct (Z.ltb_spec c1 0xe0).
  { destruct (is_continuation c2) eqn:E2; simplify_eq; [|by split].
    pose proof (continuation_true c2 Hb2 E2). split; [lia|done]. }
  unfold second3, second4 in Hh. rewrite !(continuation_range c2 Hb2) in Hh.
  destruct us as [|c3 us]; [repeat case_match; simplify_eq; by split|].
  apply Forall_cons in Hu2 as Hu3. destruct Hu3 as [Hb3 Hu3].
  destruct (Z.ltb_spec c1 0xf0).
  { destruct (is_continuation c3) eqn:E3; [pose proof (continuation_true c3 Hb3 E3)|];
      repeat case_match; simplify_eq; try (by split); bool_facts; (split; [lia|done]). }
  destruct us as [|c4 us]; [repeat case_match; simplify_eq; by split|].
  apply Forall_cons in Hu3 as Hu4. destruct Hu4 as [Hb4 Hu4].
  destruct (is_continuation c4) eqn:E4; [pose proof (continuation_true c4 Hb4 E4)|];
  destruct (is_continuation c3) eqn:E3; [pose proof (continuation_true c3 Hb3 E3)| |pose proof (continuation_true c3 Hb3 E3)|].
  all: repeat case_match; simplify_eq; try (by split); bool_facts; (split; [|done]).
  assert (c1 ≠ 0xf4 ∨ c2 < 0x90) as [?|?]; [|lia|lia].
  match goal with H : negb (c1 =? 0xf4) || _ = true |- _ => apply orb_true_iff in H as [?%negb_true_iff%Z.eqb_neq|?%Z.ltb_lt] end; lia.
Qed.

(** ** The bodies of the loops *)

Section Bodies.
Context (encoding k : Z) (encode : Z → list Z).

Definition encodes (c : Z) : Prop :=
  PhEncodeUnicode encoding c = Some (Z.of_nat (length (encode c)), encode c).

Lemma encode_with_cons c cs : encode_with encode (c :: cs) = encode c ++ encode_with encode cs.
Proof using Type. done. Qed.

Lemma size_run cs : Forall encodes cs → ∀ r n,
  foldl (λ a c, size_body encoding k c a) (r, n) cs = (r, n + k * Z.of_nat (length (encode_with encode cs))).
Proof using Type.
  induction 1 as [|c cs Hc _ IH]; intros r n; [cbn; f_equal; lia|]. cbn [foldl]. unfold size_body at 2. rewrite Hc. cbn [fst snd].
  rewrite IH, encode_with_cons, length_app. f_equal. lia.
Qed.

(** A code point that does not fit is skipped, and the result is FALSE. *)
Lemma buffer_run cs : Forall encodes cs → ∀ r o m b, 0 ≤ m →
  ∃ written,
    foldl (λ a c, buffer_body encoding k c a) (Output r o m b) cs =
      Output (r && (Z.of_nat (length (encode_with encode cs)) <=? m)) (o ++ encode_with encode written)
        (m - Z.of_nat (length (encode_with encode written))) (b + k * Z.of_nat (length (encode_with encode cs))) ∧
    written `sublist_of` cs ∧
    Z.of_nat (length (encode_with encode written)) ≤ m ∧
    (Z.of_nat (length (encode_with encode cs)) ≤ m → written = cs).
Proof using Type.
  induction 1 as [|c cs Hc _ IH]; intros r o m b Hm.
  { exists []. change (encode_with encode []) with (@nil Z). cbn [foldl length]. change (Z.of_nat 0) with 0.
    rewrite app_nil_r, (proj2 (Z.leb_le 0 m)), andb_true_r by done. split_and!; [f_equal; lia|constructor|lia|done]. }
  cbn [foldl]. unfold buffer_body at 2. rewrite Hc. cbn [result out outRemaining outBytes].
  rewrite encode_with_cons, length_app, Nat2Z.inj_add. destruct (Z.leb_spec (Z.of_nat (length (encode c))) m) as [Hfit|Hfit].
  - destruct (IH r (o ++ encode c) (m - Z.of_nat (length (encode c))) (b + Z.of_nat (length (encode c)) * k) ltac:(lia))
      as (written & -> & Hsub & Hle & Heq).
    exists (c :: written). rewrite encode_with_cons, length_app, Nat2Z.inj_add, <-app_assoc. split_and!.
    + f_equal; [|lia|lia]. f_equal. apply eq_bool_prop_intro. rewrite !Is_true_true, !Z.leb_le. lia.
    + by constructor.
    + lia.
    + intros. f_equal. apply Heq. lia.
  - destruct (IH false o m (b + Z.of_nat (length (encode c)) * k) Hm) as (written & -> & Hsub & Hle & Heq).
    exists written. rewrite (proj2 (Z.leb_gt (_ + _) m)) by lia. split_and!.
    + rewrite andb_false_r. f_equal. lia.
    + by constructor.
    + done.
    + lia.
Qed.
End Bodies.

Definition ascii_encode (Replacement c : Z) : list Z :=
  if c <? 0x80 then [c] else if Replacement =? 0 then [] else [Replacement].

Lemma ascii_run Replacement cs : ∀ o n,
  foldl (λ a c, ascii_body Replacement c a) (o, n) cs =
    (o ++ encode_with (ascii_encode Replacement) cs, n + Z.of_nat (length (encode_with (ascii_encode Replacement) cs))).
Proof.
  induction cs as [|c cs IH]; intros o n; [cbn; rewrite app_nil_r; f_equal; lia|].
  cbn [foldl]. rewrite encode_with_cons, length_app, Nat2Z.inj_add. unfold ascii_body at 2, ascii_encode at 1 3.
  destruct (c <? 0x80); [|destruct (Replacement =? 0)]; cbn [negb fst snd app]; rewrite IH, <-?app_assoc; f_equal; simpl; lia.
Qed.

Lemma ascii_encode_short Replacement cs : (length (encode_with (ascii_encode Replacement) cs) ≤ length cs)%nat.
Proof.
  induction cs as [|c cs IH]; [done|]. rewrite encode_with_cons, length_app. unfold ascii_encode at 1.
  repeat case_match; simpl; lia.
Qed.

Lemma reference_short head `{!Prompt head} us : (length (reference head us).1 + length (reference head us).2 ≤ length us)%nat.
Proof.
  induction us as [us IH] using (induction_ltof1 _ (@length Z)). unfold ltof in IH.
  destruct (head us) as [|c rest] eqn:Hh; [by rewrite reference_incomplete|].
  rewrite (reference_emit head us c rest Hh). cbn [fst snd length].
  pose proof (prompt_shorter _ _ _ _ Hh) as Hs. specialize (IH _ Hs). lia.
Qed.

(** ** The conversions *)

Lemma encodes8 cs : Forall (λ c, code_point c) cs → Forall (encodes PH_UNICODE_UTF8 utf8_encode) cs.
Proof. intros Hcs. exact (Forall_impl _ _ _ Hcs encode_utf8). Qed.

Lemma encodes16 cs : Forall (λ c, code_point c) cs → Forall (encodes PH_UNICODE_UTF16 utf16_encode) cs.
Proof. intros Hcs. exact (Forall_impl _ _ _ Hcs encode_utf16). Qed.

(** The text of a string of bytes or of words. *)
Definition text8 (us : list Z) : list Z := (reference utf8_head us).1.
Definition text16 (us : list Z) : list Z := (reference utf16_head us).1.

Lemma convert_size8 us : bytes us →
  PhConvertUtf8ToUtf16Size_portable us = Some (true, 2 * Z.of_nat (length (encode_with utf16_encode (text8 us)))).
Proof.
  intros Hu. unfold PhConvertUtf8ToUtf16Size_portable. rewrite (decode_input_spec _ utf8_head _ _ us _ Hu).
  by rewrite (size_run _ _ utf16_encode) by (by apply encodes16, reference8_code_points).
Qed.

Lemma convert_size16 us : words us →
  PhConvertUtf16ToUtf8Size_portable us = Some (true, Z.of_nat (length (encode_with utf8_encode (text16 us)))).
Proof.
  intros Hu. unfold PhConvertUtf16ToUtf8Size_portable. rewrite (decode_input_spec _ utf16_head _ _ us _ Hu).
  rewrite (size_run _ _ utf8_encode) by (by apply encodes8, reference16_code_points). do 2 f_equal. unfold text16. lia.
Qed.

(** What a conversion into a buffer of [room] units leaves there. *)
Definition fills (encode : Z → list Z) (k : Z) (cs : list Z) (room : Z) (o : output) : Prop :=
  result o = (Z.of_nat (length (encode_with encode cs)) <=? room) ∧
  outBytes o = k * Z.of_nat (length (encode_with encode cs)) ∧
  Z.of_nat (length (out o)) ≤ room ∧
  (∃ written, written `sublist_of` cs ∧ out o = encode_with encode written) ∧
  (result o = true → out o = encode_with encode cs).

Lemma fills_run encoding encode k cs room : 0 ≤ room → Forall (encodes encoding encode) cs →
  fills encode k cs room (foldl (λ a c, buffer_body encoding k c a) (Output true [] room 0) cs).
Proof.
  intros Hm Hcs. destruct (buffer_run encoding k encode cs Hcs true [] room 0 Hm) as (written & -> & Hsub & Hle & Heq).
  unfold fills. cbn [result out outBytes]. cbn [app andb]. split_and!; [done|lia|lia|by exists written|].
  intros Hfit%Z.leb_le. by rewrite Heq.
Qed.

Lemma convert_buffer8 room us : 0 ≤ room → bytes us →
  ∃ o, PhConvertUtf8ToUtf16Buffer_portable room us = Some o ∧ fills utf16_encode 2 (text8 us) (room / 2) o.
Proof.
  intros Hm Hu. unfold PhConvertUtf8ToUtf16Buffer_portable. rewrite (decode_input_spec _ utf8_head _ _ us _ Hu).
  eexists. split; [done|]. apply fills_run; [by apply Z.div_pos|]. by apply encodes16, reference8_code_points.
Qed.

Lemma convert_buffer16 room us : 0 ≤ room → words us →
  ∃ o, PhConvertUtf16ToUtf8Buffer_portable room us = Some o ∧ fills utf8_encode 1 (text16 us) room o.
Proof.
  intros Hm Hu. unfold PhConvertUtf16ToUtf8Buffer_portable. rewrite (decode_input_spec _ utf16_head _ _ us _ Hu).
  eexists. split; [done|]. apply fills_run; [done|]. by apply encodes8, reference16_code_points.
Qed.

Lemma convert8 us : bytes us → PhConvertUtf8ToUtf16Ex_portable us = Some (Some (encode_with utf16_encode (text8 us))).
Proof.
  intros Hu. unfold PhConvertUtf8ToUtf16Ex_portable. rewrite convert_size8 by done.
  edestruct (convert_buffer8 (2 * Z.of_nat (length (encode_with utf16_encode (text8 us)))) us) as (o & -> & Hr & _ & _ & _ & Ho); [lia|done|].
  rewrite Z.mul_comm, Z.div_mul, Z.leb_refl in Hr by done. by rewrite Hr, Ho.
Qed.

Lemma convert16 us : words us → PhConvertUtf16ToUtf8Ex_portable us = Some (Some (encode_with utf8_encode (text16 us))).
Proof.
  intros Hu. unfold PhConvertUtf16ToUtf8Ex_portable. rewrite convert_size16 by done.
  edestruct (convert_buffer16 (Z.of_nat (length (encode_with utf8_encode (text16 us)))) us) as (o & -> & Hr & _ & _ & _ & Ho); [lia|done|].
  rewrite Z.leb_refl in Hr. by rewrite Hr, Ho.
Qed.

Lemma text_encode8 cs : Forall (λ c, code_point c) cs → text8 (encode_with utf8_encode cs) = cs.
Proof.
  intros Hcs. unfold text8. by rewrite (reference_encode utf8_head utf8_encode (λ c, code_point c) cs head_encode8).
Qed.

Lemma text_encode16 cs : Forall scalar cs → text16 (encode_with utf16_encode cs) = cs.
Proof. intros Hcs. unfold text16. by rewrite (reference_encode utf16_head utf16_encode scalar cs head_encode16). Qed.

Lemma encode_with_units (P : Z → Prop) encode cs :
  Forall (λ c, code_point c) cs → (∀ c, code_point c → Forall P (encode c)) → Forall P (encode_with encode cs).
Proof.
  intros Hcs He. induction Hcs as [|c cs Hc _ IH]; [by constructor|]. rewrite encode_with_cons. apply Forall_app. auto.
Qed.

Lemma utf8_encode_bytes c : code_point c → bytes (utf8_encode c).
Proof. intros Hc. unfold utf8_encode. repeat case_match; bool_facts; repeat constructor; Z.to_euclidean_division_equations; lia. Qed.

Lemma utf16_encode_words c : code_point c → words (utf16_encode c).
Proof. intros Hc. unfold utf16_encode. repeat case_match; bool_facts; repeat constructor; Z.to_euclidean_division_equations; lia. Qed.

Lemma scalar_code_points cs : Forall scalar cs → Forall (λ c, code_point c) cs.
Proof. intros Hcs. eapply Forall_impl; [done|]. by intros c [? _]. Qed.

(** ** Properties *)

(** C6. Writing a string to the decoder one code unit at a time and draining it
    after each, as every conversion does, never raises and decodes the string as
    the reference does, whatever the units are: well-formed text, overlong forms,
    surrogates and stray bytes. A client that instead fills the four units of the
    input while two bytes of a sequence are pending makes the decoder put back
    more units than the input holds: every write is accepted, and decoding
    raises. *)
Theorem unicode_streaming {A} (body : Z → A → A) (us : list Z) (acc : A) :
  (bytes us → decode_input body PH_UNICODE_UTF8 us acc = Some (foldl (λ a c, body c a) acc (text8 us))) ∧
  (words us → decode_input body PH_UNICODE_UTF16 us acc = Some (foldl (λ a c, body c a) acc (text16 us))) ∧
  let fill : dec bool :=
    PhWriteUnicodeDecoder 0xe2 ;; PhDecodeUnicodeDecoder ;; PhWriteUnicodeDecoder 0x82 ;; PhDecodeUnicodeDecoder ;;
    PhWriteUnicodeDecoder 0x41 ;; PhWriteUnicodeDecoder 0x42 ;; PhWriteUnicodeDecoder 0x43 ;; PhWriteUnicodeDecoder 0x44 in
  (∃ d, fill (PhInitializeUnicodeDecoder PH_UNICODE_UTF8) = Some (true, d)) ∧
  (fill ;; PhDecodeUnicodeDecoder) (PhInitializeUnicodeDecoder PH_UNICODE_UTF8) = None.
Proof.
  split; [|split; [|split]]; [intros Hu; apply (decode_input_spec _ _ _ body us acc Hu)..| |by vm_compute].
  eexists. by vm_compute.
Qed.

Lemma unicode_streaming_witness :
  decode_input (λ c a, a ++ [c]) PH_UNICODE_UTF8 [0x41; 0xf0; 0x9f; 0x98; 0x80; 0xe2; 0x82; 0xed; 0xa0; 0x80] [] =
    Some (foldl (λ a c, a ++ [c]) [] [0x41; 0x1f600; 0xdce2; 0xdc82; 0xd800]) ∧
  decode_input (λ c a, a ++ [c]) PH_UNICODE_UTF16 [0xd83d; 0xde00; 0xd83d; 0x41; 0xd800] [] = Some [0x1f600; 0xd83d; 0x41].
Proof.
  split.
  - refine (proj1 (unicode_streaming _ _ []) _). repeat (constructor; [lia|]). constructor.
  - refine (proj1 (proj2 (unicode_streaming _ _ [])) _). repeat (constructor; [lia|]). constructor.
Defined.

(** The conversions of any string of bytes or of words succeed: the size is
    the exact size of the encoding of the text, and the string is the encoding of
    the text. *)
Theorem unicode_conversions (us : list Z) :
  (bytes us →
    PhConvertUtf8ToUtf16Size_portable us = Some (true, 2 * Z.of_nat (length (encode_with utf16_encode (text8 us)))) ∧
    PhConvertUtf8ToUtf16Ex_portable us = Some (Some (encode_with utf16_encode (text8 us)))) ∧
  (words us →
    PhConvertUtf16ToUtf8Size_portable us = Some (true, Z.of_nat (length (encode_with utf8_encode (text16 us)))) ∧
    PhConvertUtf16ToUtf8Ex_portable us = Some (Some (encode_with utf8_encode (text16 us)))).
Proof. split; intros Hu; split; auto using convert_size8, convert8, convert_size16, convert16. Qed.

Lemma unicode_conversions_witness :
  PhConvertUtf8ToUtf16Ex_portable [0x41; 0xe2; 0x82; 0xac; 0xff] = Some (Some [0x41; 0x20ac; 0xdcff]) ∧
  PhConvertUtf16ToUtf8Ex_portable [0x41; 0xd83d; 0xde00] = Some (Some [0x41; 0xf0; 0x9f; 0x98; 0x80]).
Proof.
  split.
  - refine (proj2 (proj1 (unicode_conversions _) _)). repeat (constructor; [lia|]). constructor.
  - refine (proj2 (proj2 (unicode_conversions _) _)). repeat (constructor; [lia|]). constructor.
Defined.

(** *** The decoder and the encoder *)

(** The code points that the loop of the conversions gives. *)
Definition decode_all (encoding : Z) (us : list Z) : option (list Z) := decode_input (λ c cs, cs ++ [c]) encoding us [].

Definition encode_all (encoding : Z) (cs : list Z) : option (list Z) :=
  foldr (λ c r, r ← r; '(_, units) ← PhEncodeUnicode encoding c; Some (units ++ r)) (Some []) cs.

Lemma foldl_snoc (cs acc : list Z) : foldl (λ a c, a ++ [c]) acc cs = acc ++ cs.
Proof. revert acc. induction cs as [|c cs IH]; intros acc; [by rewrite app_nil_r|]. cbn. by rewrite IH, <-app_assoc. Qed.

Lemma decode_all8 us : bytes us → decode_all PH_UNICODE_UTF8 us = Some (text8 us).
Proof. intros Hu. unfold decode_all. by rewrite (decode_input_spec _ utf8_head _ _ us _ Hu), foldl_snoc. Qed.

Lemma decode_all16 us : words us → decode_all PH_UNICODE_UTF16 us = Some (text16 us).
Proof. intros Hu. unfold decode_all. by rewrite (decode_input_spec _ utf16_head _ _ us _ Hu), foldl_snoc. Qed.

Lemma encode_all_ok encoding encode cs : Forall (encodes encoding encode) cs → encode_all encoding cs = Some (encode_with encode cs).
Proof.
  induction 1 as [|c cs Hc _ IH]; [done|]. unfold encode_all in *. cbn [foldr]. rewrite IH. cbn. by rewrite Hc.
Qed.

Lemma encode_all_none encoding cs c : c ∈ cs → PhEncodeUnicode encoding c = None → encode_all encoding cs = None.
Proof.
  intros Hin Hc. unfold encode_all. induction cs as [|d cs IH]; [by apply elem_of_nil in Hin|]. cbn [foldr].
  apply elem_of_cons in Hin as [<-|Hin]; [|by rewrite IH]. destruct (foldr _ _ cs); [|done]. cbn. by rewrite Hc.
Qed.

Lemma pending16 us : (reference utf16_head us).2 = [] ∨ ∃ c, (reference utf16_head us).2 = [c] ∧ PH_UNICODE_UTF16_IS_HIGH_SURROGATE c = true.
Proof.
  pose proof (reference_pending utf16_head us) as Hp. destruct (reference utf16_head us).2 as [|c [|? ?]]; [by left| |];
    cbn [utf16_head] in Hp; [|by repeat case_match].
  right. exists c. split; [done|]. by destruct (PH_UNICODE_UTF16_IS_HIGH_SURROGATE c).
Qed.

(** C34. The decoder undoes the encoder: any sequence of code points comes back from UTF-8, and
    any sequence of code points that are not surrogates from UTF-16; above 0x10ffff nothing is
    encoded. And any UTF-16 string, lone surrogates included, comes back when its code points
    are taken through UTF-8 and encoded again, but for a last high surrogate, for which the
    decoder still waits. *)
Theorem unicode_codec (cs us : list Z) :
  (Forall (λ c, code_point c) cs → ∃ utf8, encode_all PH_UNICODE_UTF8 cs = Some utf8 ∧ bytes utf8 ∧ decode_all PH_UNICODE_UTF8 utf8 = Some cs) ∧
  (Forall scalar cs → ∃ utf16, encode_all PH_UNICODE_UTF16 cs = Some utf16 ∧ words utf16 ∧ decode_all PH_UNICODE_UTF16 utf16 = Some cs) ∧
  (∀ c, c ∈ cs → 0x10ffff < c → encode_all PH_UNICODE_UTF8 cs = None ∧ encode_all PH_UNICODE_UTF16 cs = None) ∧
  (words us → ∃ points utf8 utf16 dropped,
    decode_all PH_UNICODE_UTF16 us = Some points ∧ encode_all PH_UNICODE_UTF8 points = Some utf8 ∧
    decode_all PH_UNICODE_UTF8 utf8 = Some points ∧ encode_all PH_UNICODE_UTF16 points = Some utf16 ∧
    us = utf16 ++ dropped ∧ (dropped = [] ∨ ∃ c, dropped = [c] ∧ PH_UNICODE_UTF16_IS_HIGH_SURROGATE c = true)).
Proof.
  assert (∀ cs, Forall (λ c, code_point c) cs → encode_all PH_UNICODE_UTF8 cs = Some (encode_with utf8_encode cs) ∧
    bytes (encode_with utf8_encode cs) ∧ decode_all PH_UNICODE_UTF8 (encode_with utf8_encode cs) = Some cs) as H8.
  { intros ps Hps. pose proof (encode_with_units _ utf8_encode ps Hps utf8_encode_bytes) as Hb.
    split_and!; [by apply encode_all_ok, encodes8|done|]. by rewrite decode_all8, text_encode8. }
  split_and!.
  - intros Hc. exists (encode_with utf8_encode cs). by apply H8.
  - intros Hs. pose proof (scalar_code_points cs Hs) as Hc. pose proof (encode_with_units _ utf16_encode cs Hc utf16_encode_words) as Hw.
    exists (encode_with utf16_encode cs). split_and!; [by apply encode_all_ok, encodes16|done|]. by rewrite decode_all16, text_encode16.
  - intros c Hin Hc. split; apply (encode_all_none _ _ c Hin); unfold PhEncodeUnicode, PH_UNICODE_MAX_CODE_POINT; cbn; by decide_tests.
  - intros Hu. pose proof (reference16_code_points us Hu) as Hc. destruct (H8 _ Hc) as (He & _ & Hd).
    exists (text16 us), (encode_with utf8_encode (text16 us)), (encode_with utf16_encode (text16 us)), (reference utf16_head us).2.
    split_and!; [by apply decode_all16|done|done|by apply encode_all_ok, encodes16|symmetry; by apply encode_reference16|apply pending16].
Qed.

Lemma unicode_codec_witness :
  (∃ utf8, encode_all PH_UNICODE_UTF8 [0xe9; 0xd800; 0x1f600] = Some utf8 ∧ decode_all PH_UNICODE_UTF8 utf8 = Some [0xe9; 0xd800; 0x1f600]) ∧
  encode_all PH_UNICODE_UTF8 [0x110000] = None ∧
  ∃ points, decode_all PH_UNICODE_UTF16 [0xdc00; 0x41; 0xd800] = Some points ∧ encode_all PH_UNICODE_UTF16 points = Some [0xdc00; 0x41].
Proof.
  split; [|split].
  - destruct (unicode_codec [0xe9; 0xd800; 0x1f600] []) as [H _]. destruct H as (utf8 & H1 & _ & H2); [repeat constructor; lia|]. by exists utf8.
  - destruct (unicode_codec [0x110000] []) as (_ & _ & H & _). apply (H 0x110000); [constructor|lia].
  - destruct (unicode_codec [] [0xdc00; 0x41; 0xd800]) as (_ & _ & _ & H). destruct H as (points & utf8 & utf16 & dropped & H1 & _ & _ & H2 & _); [repeat constructor; lia|].
    assert (decode_all PH_UNICODE_UTF16 [0xdc00; 0x41; 0xd800] = Some [0xdc00; 0x41]) as Hd by (by vm_compute).
    exists points. split; [done|]. rewrite Hd in H1. injection H1 as <-. by vm_compute.
Defined.

(** *** The branch that is not compiled *)

(** Text survives the conversions of the branch that is not compiled: the UTF-8 and the UTF-16 encoding of a
    sequence of scalar values convert to each other, and any UTF-16 string, lone
    surrogates included, comes back from UTF-8 unchanged but for a last high
    surrogate, which is dropped. *)
Theorem unicode_roundtrip_portable (cs us : list Z) :
  (Forall scalar cs →
    PhConvertUtf8ToUtf16Ex_portable (encode_with utf8_encode cs) = Some (Some (encode_with utf16_encode cs)) ∧
    PhConvertUtf16ToUtf8Ex_portable (encode_with utf16_encode cs) = Some (Some (encode_with utf8_encode cs))) ∧
  (words us →
    ∃ utf8 utf16 dropped,
      PhConvertUtf16ToUtf8Ex_portable us = Some (Some utf8) ∧ PhConvertUtf8ToUtf16Ex_portable utf8 = Some (Some utf16) ∧
      us = utf16 ++ dropped ∧
      (dropped = [] ∨ ∃ c, dropped = [c] ∧ PH_UNICODE_UTF16_IS_HIGH_SURROGATE c = true)).
Proof.
  split.
  - intros Hcs. pose proof (scalar_code_points cs Hcs) as Hc.
    rewrite convert8 by (apply encode_with_units; auto using utf8_encode_bytes).
    rewrite convert16 by (apply encode_with_units; auto using utf16_encode_words).
    by rewrite text_encode8, text_encode16.
  - intros Hu. pose proof (reference16_code_points us Hu) as Hc.
    exists (encode_with utf8_encode (text16 us)), (encode_with utf16_encode (text16 us)), (reference utf16_head us).2.
    split_and!; [by apply convert16| |symmetry; by apply encode_reference16|].
    + rewrite convert8 by (apply encode_with_units; auto using utf8_encode_bytes). by rewrite text_encode8.
    + pose proof (reference_pending utf16_head us) as Hp. destruct (reference utf16_head us).2 as [|c [|? ?]]; [by left| |];
        cbn [utf16_head] in Hp; [|by repeat case_match].
      right. exists c. split; [done|]. by destruct (PH_UNICODE_UTF16_IS_HIGH_SURROGATE c).
Qed.

Lemma unicode_roundtrip_portable_witness :
  PhConvertUtf8ToUtf16Ex_portable [0xc3; 0xa9; 0xf0; 0x9f; 0x98; 0x80] = Some (Some [0xe9; 0xd83d; 0xde00]) ∧
  ∃ utf8 utf16 dropped, PhConvertUtf16ToUtf8Ex_portable [0xdc00; 0x41; 0xd800] = Some (Some utf8) ∧
    PhConvertUtf8ToUtf16Ex_portable utf8 = Some (Some utf16) ∧ [0xdc00; 0x41; 0xd800] = utf16 ++ dropped ∧
    (dropped = [] ∨ ∃ c, dropped = [c] ∧ PH_UNICODE_UTF16_IS_HIGH_SURROGATE c = true).
Proof.
  split.
  - refine (proj1 (proj1 (unicode_roundtrip_portable [0xe9; 0x1f600] []) _)).
    repeat (constructor; [unfold scalar; lia|]). constructor.
  - refine (proj2 (unicode_roundtrip_portable [] [0xdc00; 0x41; 0xd800]) _). repeat (constructor; [lia|]). constructor.
Defined.

(** Converting into a buffer of the caller: never more than the buffer holds is
    written, only whole code points are, the size that would be needed is
    reported, and the result is TRUE exactly when everything fits, in which case
    everything is there. *)
Theorem unicode_buffers (room : Z) (us : list Z) :
  0 ≤ room →
  (bytes us → ∃ o, PhConvertUtf8ToUtf16Buffer_portable room us = Some o ∧ fills utf16_encode 2 (text8 us) (room / 2) o) ∧
  (words us → ∃ o, PhConvertUtf16ToUtf8Buffer_portable room us = Some o ∧ fills utf8_encode 1 (text16 us) room o).
Proof. intros Hm. split; intros Hu; [by apply convert_buffer8|by apply convert_buffer16]. Qed.

Lemma unicode_buffers_witness :
  ∃ o, PhConvertUtf16ToUtf8Buffer_portable 3 [0xe9; 0x20ac; 0x41] = Some o ∧ fills utf8_encode 1 [0xe9; 0x20ac; 0x41] 3 o.
Proof.
  refine (proj2 (unicode_buffers 3 [0xe9; 0x20ac; 0x41] _) _); [lia|].
  repeat (constructor; [lia|]). constructor.
Defined.

(** The conversion to ASCII keeps the ASCII characters and replaces or drops
    the others, and never writes past the bytes allocated for it, one for each
    unit of the string. *)
Theorem unicode_ascii (us : list Z) (Replacement : Z) :
  words us →
  ∃ s, PhConvertUtf16ToAsciiEx us Replacement = Some (s, Z.of_nat (length s)) ∧
    s = encode_with (ascii_encode Replacement) (text16 us) ∧ (length s ≤ length us)%nat.
Proof.
  intros Hu. unfold PhConvertUtf16ToAsciiEx. rewrite (decode_input_spec _ utf16_head _ _ us _ Hu), ascii_run.
  eexists. split_and!; [done|done|]. cbn [app].
  pose proof (ascii_encode_short Replacement (reference utf16_head us).1). pose proof (reference_short utf16_head us). lia.
Qed.

Lemma unicode_ascii_witness :
  ∃ s, PhConvertUtf16ToAsciiEx [0x41; 0xd83d; 0xde00; 0x42] 0x3f = Some (s, Z.of_nat (length s)) ∧
    s = [0x41; 0x3f; 0x42] ∧ (length s ≤ 4)%nat.
Proof. refine (unicode_ascii [0x41; 0xd83d; 0xde00; 0x42] 0x3f _). repeat (constructor; [lia|]). constructor. Defined.

(** *** The conversions that are compiled *)

(** The code points of a UTF-16 string, with the replacement character for a surrogate that is
    not part of a pair. *)
Fixpoint scalars16 (us : list Z) : list Z :=
  match us with
  | [] => []
  | a :: us =>
      if PH_UNICODE_UTF16_IS_HIGH_SURROGATE a then
        match us with
        | b :: us' => if PH_UNICODE_UTF16_IS_LOW_SURROGATE b then 0x10000 + (a - 0xd800) * 0x400 + (b - 0xdc00) :: scalars16 us'
                      else 0xfffd :: scalars16 us
        | [] => [0xfffd]
        end
      else if PH_UNICODE_UTF16_IS_LOW_SURROGATE a then 0xfffd :: scalars16 us
      else a :: scalars16 us
  end.

Lemma list_ind2 (P : list Z → Prop) : P [] → (∀ a, P [a]) → (∀ a b us, P us → P (b :: us) → P (a :: b :: us)) → ∀ us, P us.
Proof.
  intros H0 H1 H2 us. enough (P us ∧ ∀ a, P (a :: us)) by tauto. induction us as [|b us [IH IH']]; [by split|]. split; [done|]. intros a. by apply H2.
Qed.

Lemma scalars16_ok us : words us → Forall scalar (scalars16 us) ∧ length (encode_with utf16_encode (scalars16 us)) = length us.
Proof.
  assert (scalar 0xfffd) as Hr by (unfold scalar; lia).
  assert (∀ a, 0 ≤ a < 2 ^ 16 → PH_UNICODE_UTF16_IS_HIGH_SURROGATE a = false → PH_UNICODE_UTF16_IS_LOW_SURROGATE a = false → scalar a ∧ utf16_encode a = [a]) as Hplain.
  { intros a Ha H1 H2. unfold PH_UNICODE_UTF16_IS_HIGH_SURROGATE, PH_UNICODE_UTF16_IS_LOW_SURROGATE in *. unfold scalar, utf16_encode. decide_tests. split; [lia|done]. }
  assert (∀ c cs (n : nat), scalar c → length (utf16_encode c) = 1%nat → Forall scalar cs ∧ length (encode_with utf16_encode cs) = n →
    Forall scalar (c :: cs) ∧ length (encode_with utf16_encode (c :: cs)) = S n) as Hcons.
  { intros c cs n Hc Hl [H1 H2]. rewrite encode_with_cons, length_app, Hl, H2. split; [by constructor|done]. }
  induction us as [|a|a b us IH IH'] using list_ind2; intros Hu; [done| |]; apply Forall_cons in Hu as [Ha Hu]; cbn [scalars16].
  - destruct (PH_UNICODE_UTF16_IS_HIGH_SURROGATE a) eqn:Hh; [by apply (Hcons _ [] 0%nat)|]. destruct (PH_UNICODE_UTF16_IS_LOW_SURROGATE a) eqn:Hl; [by apply (Hcons _ [] 0%nat)|].
    destruct (Hplain a Ha Hh Hl) as [H1 H2]. apply (Hcons _ [] 0%nat); [done|by rewrite H2|done].
  - specialize (IH' Hu). cbn [scalars16] in IH'. destruct (PH_UNICODE_UTF16_IS_HIGH_SURROGATE a) eqn:Hh.
    + apply Forall_cons in Hu as [Hb Hu]. destruct (PH_UNICODE_UTF16_IS_LOW_SURROGATE b) eqn:Hl; [|by apply Hcons].
      destruct (IH Hu) as [H1 H2]. unfold PH_UNICODE_UTF16_IS_HIGH_SURROGATE, PH_UNICODE_UTF16_IS_LOW_SURROGATE in *.
      split; [constructor; [unfold scalar; lia|done]|]. rewrite encode_with_cons, length_app, H2. unfold utf16_encode. by decide_tests.
    + destruct (PH_UNICODE_UTF16_IS_LOW_SURROGATE a) eqn:Hl; [by apply Hcons|]. destruct (Hplain a Ha Hh Hl) as [H1 H2]. apply Hcons; [done|by rewrite H2|done].
Qed.

Lemma scalars16_encode cs : Forall scalar cs → scalars16 (encode_with utf16_encode cs) = cs.
Proof.
  induction 1 as [|c cs [Hc Hs] _ IH]; [done|]. rewrite encode_with_cons. unfold utf16_encode at 1. destruct (Z.ltb_spec c 0x10000); cbn [app scalars16];
    unfold PH_UNICODE_UTF16_IS_HIGH_SURROGATE, PH_UNICODE_UTF16_IS_LOW_SURROGATE.
  - destruct Hs; decide_tests; cbn [andb]; rewrite ?andb_false_r, IH; done.
  - assert (0 ≤ (c - 0x10000) / 0x400 < 0x400) by (Z.to_euclidean_division_equations; lia).
    pose proof (Z.mod_pos_bound c 0x400). decide_tests. cbn [andb]. rewrite IH. f_equal. Z.to_euclidean_division_equations; lia.
Qed.

(** What a service does with a source of which [target] is the conversion, of units of [k] bytes:
    without a destination it gives the size, and with one it fills it or refuses. *)
Definition serves (service : option Z → list Z → Z * list Z * Z) (k : Z) (source target : list Z) : Prop :=
  (∃ status, service None source = (status, [], k * Z.of_nat (length target)) ∧ NT_SUCCESS status = true) ∧
  ∀ room, 0 ≤ room → ∃ status written size, service (Some room) source = (status, written, size) ∧
    if decide (k * Z.of_nat (length target) ≤ room) then NT_SUCCESS status = true ∧ written = target ∧ size = k * Z.of_nat (length target)
    else NT_SUCCESS status = false ∧ k * Z.of_nat (length written) ≤ room.

(** What Windows documents of its conversions: surrogates that are not part of a pair become the
    replacement character, and text that is well-formed is encoded anew. *)
Class NativeConversionOk (N : NativeConversion) := {
  to_utf8 us : words us → 2 * Z.of_nat (length us) < 2 ^ 32 → Z.of_nat (length (encode_with utf8_encode (scalars16 us))) < 2 ^ 32 →
    serves RtlUnicodeToUTF8N 1 us (encode_with utf8_encode (scalars16 us));
  to_utf16 cs : Forall scalar cs → Z.of_nat (length (encode_with utf8_encode cs)) < 2 ^ 32 → 2 * Z.of_nat (length (encode_with utf16_encode cs)) < 2 ^ 32 →
    serves RtlUTF8ToUnicodeN 2 (encode_with utf8_encode cs) (encode_with utf16_encode cs);
}.

Section Native.
Context `{N : NativeConversion}.

Lemma ulong_string_short k us : 0 < k → k * Z.of_nat (length us) < 2 ^ 32 → ulong_string k us = us.
Proof.
  intros Hk Hl. unfold ulong_string. rewrite u32_small by lia. rewrite Z.mul_comm, Z.div_mul, Nat2Z.id by lia. by apply take_ge.
Qed.

Lemma filled_whole n us : n = Z.of_nat (length us) → filled n us = us.
Proof. intros ->. unfold filled. by rewrite Nat2Z.id, Nat.sub_diag, app_nil_r. Qed.

(** A string of which the size does not fit in 32 bits is cut, without an error. *)
Lemma native_truncates us k : 0 ≤ k < 2 ^ 31 → Z.of_nat (length us) = 2 ^ 31 + k →
  PhConvertUtf16ToUtf8Ex us = PhConvertUtf16ToUtf8Ex (take (Z.to_nat k) us).
Proof.
  intros Hk Hl. unfold PhConvertUtf16ToUtf8Ex, PhConvertUtf16ToUtf8Size, PhConvertUtf16ToUtf8Buffer.
  assert (ulong_string 2 us = take (Z.to_nat k) us) as ->.
  { unfold ulong_string. f_equal. f_equal. rewrite Hl. unfold u32. rewrite <-(Z.mod_unique (2 * (2 ^ 31 + k)) (2 ^ 32) 1 (2 * k)) by lia.
    rewrite Z.mul_comm. by apply Z.div_mul. }
  rewrite ulong_string_short; [done|lia|]. rewrite length_take. lia.
Qed.

Context `{NOk : !NativeConversionOk N}.

Lemma native_to_utf8 us : words us → 2 * Z.of_nat (length us) < 2 ^ 32 → Z.of_nat (length (encode_with utf8_encode (scalars16 us))) < 2 ^ 32 →
  PhConvertUtf16ToUtf8Size us = Some (Z.of_nat (length (encode_with utf8_encode (scalars16 us)))) ∧
  PhConvertUtf16ToUtf8Ex us = Some (encode_with utf8_encode (scalars16 us)) ∧
  ∀ room, 0 ≤ room < 2 ^ 32 → ∃ written,
    PhConvertUtf16ToUtf8Buffer room us =
      (written, if decide (Z.of_nat (length (encode_with utf8_encode (scalars16 us))) ≤ room) then Some (Z.of_nat (length (encode_with utf8_encode (scalars16 us)))) else None) ∧
    Z.of_nat (length written) ≤ room ∧ (Z.of_nat (length (encode_with utf8_encode (scalars16 us))) ≤ room → written = encode_with utf8_encode (scalars16 us)).
Proof.
  intros Hu Hl H32. pose proof (to_utf8 us Hu Hl H32) as [(st & Hnull & Hst) Hroom]. set (utf8 := encode_with utf8_encode (scalars16 us)) in *.
  pose proof (ulong_string_short 2 us ltac:(lia) Hl) as Hul. rewrite Z.mul_1_l in *.
  assert (∀ room, 0 ≤ room < 2 ^ 32 → ∃ written, PhConvertUtf16ToUtf8Buffer room us = (written, if decide (Z.of_nat (length utf8) ≤ room) then Some (Z.of_nat (length utf8)) else None) ∧
    Z.of_nat (length written) ≤ room ∧ (Z.of_nat (length utf8) ≤ room → written = utf8)) as Hbuffer.
  { intros room Hr. unfold PhConvertUtf16ToUtf8Buffer. rewrite Hul, u32_small by lia. destruct (Hroom room ltac:(lia)) as (st' & w & n & -> & Hw). exists w.
    rewrite !Z.mul_1_l in Hw. case_decide; destruct Hw as [-> Hw]; [destruct Hw as [-> ->]; by split_and!|]. split_and!; [done|lia|lia]. }
  assert (PhConvertUtf16ToUtf8Size us = Some (Z.of_nat (length utf8))) as Hsize by (unfold PhConvertUtf16ToUtf8Size; by rewrite Hul, Hnull, Hst).
  split; [done|]. split; [|done]. unfold PhConvertUtf16ToUtf8Ex. rewrite Hsize. destruct (Hbuffer (Z.of_nat (length utf8)) ltac:(lia)) as (w & -> & _ & Hw).
  rewrite decide_True by lia. by rewrite Hw, filled_whole by lia.
Qed.

Lemma native_to_utf16 cs : Forall scalar cs → Z.of_nat (length (encode_with utf8_encode cs)) < 2 ^ 32 → 2 * Z.of_nat (length (encode_with utf16_encode cs)) < 2 ^ 32 →
  PhConvertUtf8ToUtf16Ex (encode_with utf8_encode cs) = Some (encode_with utf16_encode cs).
Proof.
  intros Hc H8 H16. pose proof (to_utf16 cs Hc H8 H16) as [(st & Hnull & Hst) Hroom]. unfold PhConvertUtf8ToUtf16Ex, PhConvertUtf8ToUtf16Size, PhConvertUtf8ToUtf16Buffer.
  rewrite ulong_string_short, Hnull, Hst by lia. rewrite u32_small by lia. edestruct (Hroom (2 * Z.of_nat (length (encode_with utf16_encode cs)))) as (st' & w & n & -> & Hw); [lia|].
  rewrite decide_True in Hw by lia. destruct Hw as (-> & -> & ->). rewrite filled_whole; [done|]. rewrite Z.mul_comm. by apply Z.div_mul.
Qed.

End Native.

(** A service that converts the text that is there, by the definitions above. *)
Definition serve (k : Z) (convert : list Z → list Z) (destination : option Z) (source : list Z) : Z * list Z * Z :=
  let target := convert source in
  match destination with
  | None => (0, [], k * Z.of_nat (length target))
  | Some room => if decide (k * Z.of_nat (length target) ≤ room) then (0, target, k * Z.of_nat (length target)) else (0xC0000023, [], 0)
  end.

Definition ntdll : NativeConversion := {|
  RtlUTF8ToUnicodeN := serve 2 (λ us, encode_with utf16_encode (text8 us));
  RtlUnicodeToUTF8N := serve 1 (λ us, encode_with utf8_encode (scalars16 us));
|}.

Lemma serve_serves k convert source : 0 ≤ k → serves (serve k convert) k source (convert source).
Proof.
  intros Hk. split; [by eexists|]. intros room Hr. unfold serve. case_decide; eexists _, _, _; (split; [done|]); [done|]. split; [done|]. cbn [length]. lia.
Qed.

#[export] Instance ntdll_ok : NativeConversionOk ntdll.
Proof.
  constructor.
  - intros us _ _ _. exact (serve_serves 1 (λ us, encode_with utf8_encode (scalars16 us)) us ltac:(lia)).
  - intros cs Hc _ _. pose proof (serve_serves 2 (λ us, encode_with utf16_encode (text8 us)) (encode_with utf8_encode cs) ltac:(lia)) as H.
    cbn beta in H. by rewrite text_encode8 in H by by apply scalar_code_points.
Qed.

