(* ===== verification/IntegerText.v ===== *)
(** Integers and bytes as text: the digit tables of [phlib/data.c] and the
    functions of [phlib/basesup.c] that read and write hexadecimal strings and
    read integers. A string is the list of its UTF-16 units. *)

From S2P Require Import Prelude.

(** ** Digits *)

Definition PhCharToInteger : list Z :=
  replicate 32 ULONG_MAX ++
  seqZ 36 16 (* ' ' - '/' *) ++ seqZ 0 10 (* '0' - '9' *) ++ seqZ 52 7 (* ':' - '@' *) ++
  seqZ 10 26 (* 'A' - 'Z' *) ++ seqZ 59 6 (* '[' - '`' *) ++ seqZ 10 26 (* 'a' - 'z' *) ++
  seqZ 65 4 (* '{' - '~' *) ++ replicate 129 ULONG_MAX.

Definition PhIntegerToChar : list Z :=
  seqZ 48 10 (* 0 - 9 *) ++ seqZ 97 26 (* 10 - 35 *) ++ seqZ 32 16 (* 36 - 51 *) ++
  seqZ 58 7 (* 52 - 58 *) ++ seqZ 91 6 (* 59 - 64 *) ++ seqZ 123 4 (* 65 - 68 *).

Definition PhIntegerToCharUpper : list Z :=
  seqZ 48 10 (* 0 - 9 *) ++ seqZ 65 26 (* 10 - 35 *) ++ seqZ 32 16 (* 36 - 51 *) ++
  seqZ 58 7 (* 52 - 58 *) ++ seqZ 91 6 (* 59 - 64 *) ++ seqZ 123 4 (* 65 - 68 *).

(** [PhCharToInteger[(UCHAR)c]]: the index is at most 255. *)
Definition char_to_integer (c : Z) : Z := nth (Z.to_nat (u8 c)) PhCharToInteger ULONG_MAX.

(** [table[i]], for an [i] the table has. *)
Definition integer_to_char (table : list Z) (i : Z) : Z := nth (Z.to_nat i) table 0.

(** ** Hexadecimal strings *)

(** Two digits at a time; the byte of a character that is no digit is 0xff. *)
Fixpoint hex_bytes (String : list Z) : list Z :=
  match String with
  | hi :: lo :: String =>
      u8 (u8 (Z.shiftl (char_to_integer hi) 4) + u8 (char_to_integer lo)) :: hex_bytes String
  | _ => []
  end.

(** The bytes written to the front of the buffer; [None] is FALSE. *)
Definition PhHexStringToBuffer (String : list Z) : option (list Z) :=
  if Z.odd (Z.of_nat (length String)) then None else Some (hex_bytes String).

Definition PhHexStringToBufferEx (String : list Z) (BufferLength : Z) : option (list Z) :=
  if Z.odd (Z.of_nat (length String)) then None
  else if Z.of_nat (length String) / 2 >? BufferLength then None
  else Some (hex_bytes String).

Definition hex_chars (UpperCase : bool) (b : Z) : list Z :=
  let table := if UpperCase then PhIntegerToCharUpper else PhIntegerToChar in
  [integer_to_char table (Z.shiftr b 4); integer_to_char table (Z.land b 0xf)].

Definition PhBufferToHexStringEx (Buffer : list Z) (UpperCase : bool) : list Z :=
  concat (map (hex_chars UpperCase) Buffer).

Definition PhBufferToHexString (Buffer : list Z) : list Z := PhBufferToHexStringEx Buffer false.

(** Writing units to a buffer; [None] when a unit falls outside. *)
Definition store (off : Z) (us : list Z) (memory : list Z) : option (list Z) :=
  if (0 <=? off) && (off + Z.of_nat (length us) <=? Z.of_nat (length memory)) then
    Some (take (Z.to_nat off) memory ++ us ++ drop (Z.to_nat off + length us) memory)
  else None.

(** The loop over the input, from unit [off] of the output on. *)
Fixpoint write_hex (UpperCase : bool) (InputBuffer : list Z) (off : Z) (OutputBuffer : list Z) : option (list Z) :=
  match InputBuffer with
  | [] => Some OutputBuffer
  | b :: InputBuffer =>
      match store off (hex_chars UpperCase b) OutputBuffer with
      | Some OutputBuffer => write_hex UpperCase InputBuffer (off + 2) OutputBuffer
      | None => None
      end
  end.

(** The output buffer is a list of [OutputLength / 2] units; the result, the buffer
    and [ReturnLength]. [None] is a write out of bounds. *)
Definition PhBufferToHexStringBuffer (InputBuffer : list Z) (UpperCase : bool) (OutputBuffer : list Z)
    (OutputLength : Z) : option (bool * list Z * Z) :=
  let InputLength := Z.of_nat (length InputBuffer) in
  if OutputLength <? InputLength * 2 * 2 then Some (false, OutputBuffer, InputLength * 2 * 2)
  else
    match write_hex UpperCase InputBuffer 0 OutputBuffer with
    | Some OutputBuffer =>
        match store (InputLength * 2) [0] OutputBuffer with
        | Some OutputBuffer => Some (true, OutputBuffer, InputLength * 2 * 2)
        | None => None
        end
    | None => None
    end.

(** ** Integers *)

(** The loop: [valid] and [result], both so far. *)
Fixpoint string_to_integer (Base : Z) (String : list Z) (valid : bool) (result : Z) : bool * Z :=
  match String with
  | [] => (valid, result)
  | c :: String =>
      let value := char_to_integer c in
      if value <? Base then string_to_integer Base String valid (u64 (result * Base + value))
      else string_to_integer Base String false result
  end.

Definition PhpStringToInteger64 (String : list Z) (Base : Z) : bool * Z := string_to_integer Base String true 0.

(** [switch (string.Buffer[1])] *)
Definition prefix_base (c : Z) : Z :=
  if (c =? 120 (* 'x' *)) || (c =? 88) then 16
  else if (c =? 111 (* 'o' *)) || (c =? 79) then 8
  else if (c =? 98 (* 'b' *)) || (c =? 66) then 2
  else if (c =? 116 (* 't' *)) || (c =? 84) then 3
  else if (c =? 113 (* 'q' *)) || (c =? 81) then 4
  else if (c =? 119 (* 'w' *)) || (c =? 87) then 12
  else if (c =? 114 (* 'r' *)) || (c =? 82) then 32
  else 10.

(** The sign and what follows it. *)
Definition skip_sign (string : list Z) : bool * list Z :=
  match string with
  | c :: rest => if (c =? 45 (* '-' *)) || (c =? 43 (* '+' *)) then (c =? 45, rest) else (false, string)
  | [] => (false, string)
  end.

(** The base, and the string without the prefix that says it. *)
Definition skip_prefix (Base : Z) (string : list Z) : Z * list Z :=
  if negb (Base =? 0) then (Base, string)
  else
    match string with
    | c0 :: c1 :: rest =>
        if c0 =? 48 (* '0' *) then
          let base := prefix_base c1 in
          if negb (base =? 10) then (base, rest) else (base, string)
        else (10, string)
    | _ => (10, string)
    end.

(** A [LONG64] is a [Z] in [-2^63, 2^63). *)
Definition i64 (x : Z) : Z := (x + 2 ^ 63) mod 2 ^ 64 - 2 ^ 63.

(** Whether the string is valid, and the integer; [None] is FALSE with no integer
    stored. *)
Definition PhStringToInteger64 (String : list Z) (Base : Z) : option (bool * Z) :=
  if Base >? 69 then None
  else
    let '(negative, string) := skip_sign String in
    let '(base, string) := skip_prefix Base string in
    let '(valid, result) := PhpStringToInteger64 string base in
    Some (valid, if negative then i64 (- i64 result) else i64 result).

Definition PhStringToUInt64 (String : list Z) (Base : Z) : option (bool * Z) :=
  if Base >? 69 then None
  else
    let '(_, string) := skip_sign String in
    let '(base, string) := skip_prefix Base string in
    Some (PhpStringToInteger64 string base).
