(* ===== verification/IntegerTextTheorems.v ===== *)
(** The theorems about hexadecimal strings and about reading integers. *)

From S2P Require Import Prelude IntegerText.

(** ** The digit tables are inverse to each other *)

Lemma char_of_digit d : 0 ≤ d < 69 →
  char_to_integer (integer_to_char PhIntegerToChar d) = d ∧ char_to_integer (integer_to_char PhIntegerToCharUpper d) = d.
Proof.
  intros Hd. rewrite <-!Z.eqb_eq, <-andb_true_iff.
  apply (all_from_spec (λ d, (char_to_integer (integer_to_char PhIntegerToChar d) =? d) &&
    (char_to_integer (integer_to_char PhIntegerToCharUpper d) =? d)) 69 0); [by vm_compute|lia].
Qed.

(** The value of a character is a digit below 69 or all ones. *)
Lemma char_to_integer_range c : 0 ≤ char_to_integer c < 69 ∨ char_to_integer c = ULONG_MAX.
Proof.
  unfold char_to_integer. assert (0 ≤ u8 c < 256) as Hc by (apply Z.mod_pos_bound; lia). revert Hc. generalize (u8 c). intros x Hx.
  assert ((nth (Z.to_nat x) PhCharToInteger ULONG_MAX <? 69) && (0 <=? nth (Z.to_nat x) PhCharToInteger ULONG_MAX) ||
          (nth (Z.to_nat x) PhCharToInteger ULONG_MAX =? ULONG_MAX) = true) as H.
  { apply (all_from_spec (λ x, (nth (Z.to_nat x) PhCharToInteger ULONG_MAX <? 69) && (0 <=? nth (Z.to_nat x) PhCharToInteger ULONG_MAX) ||
      (nth (Z.to_nat x) PhCharToInteger ULONG_MAX =? ULONG_MAX)) 256 0); [by vm_compute|lia]. }
  rewrite orb_true_iff, andb_true_iff, Z.ltb_lt, Z.leb_le, Z.eqb_eq in H. lia.
Qed.

(** ** Hexadecimal strings *)

Lemma hex_byte up b : 0 ≤ b < 256 →
  u8 (u8 (Z.shiftl (char_to_integer (nth 0 (hex_chars up b) 0)) 4) + u8 (char_to_integer (nth 1 (hex_chars up b) 0))) = b.
Proof.
  intros Hb. apply Z.eqb_eq.
  apply (all_from_spec (λ b, u8 (u8 (Z.shiftl (char_to_integer (nth 0 (hex_chars up b) 0)) 4) + u8 (char_to_integer (nth 1 (hex_chars up b) 0))) =? b) 256 0);
    [by destruct up; vm_compute|lia].
Qed.

Lemma hex_bytes_chars up bs : Forall (λ b, 0 ≤ b < 256) bs → hex_bytes (PhBufferToHexStringEx bs up) = bs.
Proof.
  induction 1 as [|b bs Hb _ IH]; [done|]. change (PhBufferToHexStringEx (b :: bs) up) with (hex_chars up b ++ PhBufferToHexStringEx bs up).
  pose proof (hex_byte up b Hb) as Hh. unfold hex_chars in *. cbn [app hex_bytes nth] in *. by rewrite Hh, IH.
Qed.

Lemma length_hex up bs : length (PhBufferToHexStringEx bs up) = (2 * length bs)%nat.
Proof. induction bs as [|b bs IH]; [done|]. change (PhBufferToHexStringEx (b :: bs) up) with (hex_chars up b ++ PhBufferToHexStringEx bs up).
  rewrite length_app, IH. cbn. lia. Qed.

Lemma length_hex_bytes s : Z.Even (Z.of_nat (length s)) → length s = (2 * length (hex_bytes s))%nat.
Proof.
  induction s as [s IH] using (induction_ltof1 _ (@length Z)). unfold ltof in IH. intros [k Hk].
  destruct s as [|a [|b s]]; [done|simpl in Hk; lia|]. cbn [length hex_bytes] in *.
  rewrite (IH s) at 1 by (lia || (exists (k - 1); lia)). lia.
Qed.

Lemma store_app us (n : nat) m : (n + length us ≤ length m)%nat →
  store (Z.of_nat n) us m = Some (take n m ++ us ++ drop (n + length us) m).
Proof.
  intros. unfold store. rewrite (proj2 (Z.leb_le _ _)), (proj2 (Z.leb_le _ _)) by lia. by rewrite Nat2Z.id.
Qed.

Lemma write_hex_spec up bs : ∀ n m, (n + 2 * length bs ≤ length m)%nat →
  write_hex up bs (Z.of_nat n) m = Some (take n m ++ PhBufferToHexStringEx bs up ++ drop (n + 2 * length bs) m).
Proof.
  induction bs as [|b bs IH]; intros n m Hn.
  { cbn. by rewrite Nat.add_0_r, take_drop. }
  cbn [write_hex length] in *. change (PhBufferToHexStringEx (b :: bs) up) with (hex_chars up b ++ PhBufferToHexStringEx bs up).
  rewrite store_app by (cbn [length hex_chars]; lia). replace (Z.of_nat n + 2) with (Z.of_nat (n + 2)) by lia.
  change (length (hex_chars up b)) with 2%nat.
  set (A := take n m ++ hex_chars up b).
  assert (length A = n + 2)%nat as HA by (unfold A; rewrite length_app, length_take; cbn [length hex_chars]; lia).
  rewrite app_assoc. fold A. rewrite IH by (rewrite length_app, HA, length_drop; lia). f_equal.
  rewrite take_app_length' by done. rewrite drop_app_ge by lia. rewrite HA, drop_drop. unfold A. rewrite <-!app_assoc.
  do 4 f_equal. lia.
Qed.

(** Reading a hexadecimal string undoes writing one, in both cases of the
    letters; a string of odd length is refused, and so is one whose bytes do not
    fit; any other string is accepted, whether or not its characters are
    hexadecimal digits. *)
Theorem hex_roundtrip (bs : list Z) (UpperCase : bool) (s : list Z) (BufferLength : Z) :
  (Forall (λ b, 0 ≤ b < 256) bs → PhHexStringToBuffer (PhBufferToHexStringEx bs UpperCase) = Some bs) ∧
  (Forall (λ b, 0 ≤ b < 256) bs →
    PhHexStringToBufferEx (PhBufferToHexStringEx bs UpperCase) BufferLength =
      if Z.of_nat (length bs) <=? BufferLength then Some bs else None) ∧
  (Z.Odd (Z.of_nat (length s)) → PhHexStringToBuffer s = None ∧ PhHexStringToBufferEx s BufferLength = None) ∧
  (Z.Even (Z.of_nat (length s)) → ∃ any, PhHexStringToBuffer s = Some any ∧ length s = (2 * length any)%nat).
Proof.
  assert (Z.odd (Z.of_nat (length (PhBufferToHexStringEx bs UpperCase))) = false) as He.
  { rewrite length_hex, <-Z.negb_even, Nat2Z.inj_mul, Z.even_mul. done. }
  unfold PhHexStringToBuffer, PhHexStringToBufferEx. split_and!.
  - intros Hb. by rewrite He, hex_bytes_chars.
  - intros Hb. rewrite He, hex_bytes_chars by done. rewrite length_hex, Nat2Z.inj_mul, Z.mul_comm, Z.div_mul by done.
    rewrite Z.gtb_ltb, Z.ltb_antisym. by destruct (_ <=? _).
  - intros Ho. apply Z.odd_spec in Ho. by rewrite Ho.
  - intros Hs. apply Z.even_spec in Hs as Hs'. rewrite <-Z.negb_even, Hs'. cbn [negb]. eexists. split; [done|]. by apply length_hex_bytes.
Qed.

Lemma hex_roundtrip_witness :
  PhHexStringToBuffer [49; 50; 57; 65] = Some [0x12; 0x9a] ∧ PhHexStringToBufferEx [49; 50; 57; 65] 1 = None ∧
  PhHexStringToBuffer [49; 50; 57] = None ∧ ∃ any, PhHexStringToBuffer [0x7a; 0x7f] = Some any ∧ 2%nat = (2 * length any)%nat.
Proof.
  destruct (hex_roundtrip [0x12; 0x9a] true [49; 50; 57] 1) as (H1 & H2 & H3 & _).
  destruct (hex_roundtrip [] true [0x7a; 0x7f] 1) as (_ & _ & _ & H4). split_and!.
  - apply H1. repeat (constructor; [lia|]). constructor.
  - apply H2. repeat (constructor; [lia|]). constructor.
  - apply H3. by apply Z.odd_spec.
  - apply H4. by apply Z.even_spec.
Defined.

(** Writing hexadecimal digits into a buffer of the caller: a buffer that
    cannot take the digits is refused and left alone; one that also takes the
    terminator gets the string; and for one of exactly the reported size, or with
    room for one more byte, the terminator is written past the end. *)
Theorem hex_buffer (bs : list Z) (UpperCase : bool) (Output : list Z) (OutputLength : Z) :
  Z.of_nat (length Output) = OutputLength / 2 → 0 ≤ OutputLength →
  PhBufferToHexStringBuffer bs UpperCase Output OutputLength =
    let n := Z.of_nat (length bs) * 4 in
    if OutputLength <? n then Some (false, Output, n)
    else if OutputLength <? n + 2 then None
    else Some (true, PhBufferToHexStringEx bs UpperCase ++ 0 :: drop (2 * length bs + 1) Output, n).
Proof.
  intros Hl HO. unfold PhBufferToHexStringBuffer. replace (Z.of_nat (length bs) * 2 * 2) with (Z.of_nat (length bs) * 4) by lia.
  cbv zeta. destruct (Z.ltb_spec OutputLength (Z.of_nat (length bs) * 4)) as [|Hge]; [done|].
  assert (2 * length bs ≤ length Output)%nat by (Z.to_euclidean_division_equations; lia).
  rewrite (write_hex_spec UpperCase bs 0) by lia. change (take 0 Output) with (@nil Z). rewrite app_nil_l.
  replace (Z.of_nat (length bs) * 2) with (Z.of_nat (length (PhBufferToHexStringEx bs UpperCase))) by (rewrite length_hex; lia).
  destruct (Z.ltb_spec OutputLength (Z.of_nat (length bs) * 4 + 2)).
  - unfold store. rewrite length_app, length_drop, length_hex. cbn [length].
    rewrite (proj2 (Z.leb_gt (_ + 1) _)); [by rewrite andb_false_r|]. Z.to_euclidean_division_equations; lia.
  - assert (2 * length bs + 1 ≤ length Output)%nat by (Z.to_euclidean_division_equations; lia).
    rewrite store_app by (rewrite length_app, length_drop, length_hex; cbn [length]; lia).
    rewrite take_app_length, drop_app_ge by lia. rewrite drop_drop, Nat.add_0_l. do 4 f_equal. cbn [app]. do 2 f_equal.
    cbn [length]. lia.
Qed.

Lemma hex_buffer_witness :
  PhBufferToHexStringBuffer [0xab] false [7; 7; 7] 6 = Some (true, [97; 98; 0], 4) ∧
  PhBufferToHexStringBuffer [0xab] false [7; 7] 4 = None ∧
  PhBufferToHexStringBuffer [0xab] false [7] 2 = Some (false, [7], 4).
Proof.
  split_and!.
  - exact (hex_buffer [0xab] false [7; 7; 7] 6 eq_refl ltac:(lia)).
  - exact (hex_buffer [0xab] false [7; 7] 4 eq_refl ltac:(lia)).
  - exact (hex_buffer [0xab] false [7] 2 eq_refl ltac:(lia)).
Defined.

(** ** Integers *)

(** The number that digits denote. *)
Definition value_from (radix a : Z) (ds : list Z) : Z := foldl (λ a d, a * radix + d) a ds.

Lemma value_from_mod radix ds : ∀ a, u64 (value_from radix (u64 a) ds) = u64 (value_from radix a ds).
Proof.
  unfold value_from, u64. induction ds as [|d ds IH]; intros a; cbn [foldl]; [by rewrite Zmod_mod|].
  rewrite <-IH. symmetry. rewrite <-IH. f_equal. f_equal.
  rewrite <-(Zplus_mod_idemp_l ((a mod _) * _)), Zmult_mod_idemp_l, Zplus_mod_idemp_l. done.
Qed.

Lemma string_to_integer_spec Base s : ∀ valid a,
  string_to_integer Base s valid (u64 a) =
    (valid && forallb (λ c, char_to_integer c <? Base) s,
     u64 (value_from Base a (filter (λ d, d < Base) (map char_to_integer s)))).
Proof.
  induction s as [|c s IH]; intros valid a; cbn [string_to_integer map forallb].
  { by rewrite andb_true_r. }
  destruct (Z.ltb_spec (char_to_integer c) Base).
  - rewrite filter_cons_True by done. rewrite IH. cbn [andb]. f_equal. set (ds := filter _ _). set (v := char_to_integer c).
    change (value_from Base a (v :: ds)) with (value_from Base (a * Base + v) ds).
    rewrite <-(value_from_mod _ _ (u64 a * _ + _)), <-(value_from_mod _ _ (a * _ + _)). do 2 f_equal. unfold u64.
    by rewrite <-Zplus_mod_idemp_l, Zmult_mod_idemp_l, Zplus_mod_idemp_l.
  - rewrite filter_cons_False by lia. rewrite IH. cbn [andb]. by rewrite andb_false_r.
Qed.

Lemma string_to_integer_eq s Base :
  PhpStringToInteger64 s Base =
    (forallb (λ c, char_to_integer c <? Base) s, u64 (value_from Base 0 (filter (λ d, d < Base) (map char_to_integer s)))).
Proof. apply (string_to_integer_spec Base s true 0). Qed.

(** Reading an integer: the result is TRUE exactly when every character is a
    digit of the base, and the integer is what the digits denote, modulo 2^64, the
    other characters being skipped. Only the low byte of a character counts, so
    that U+0131 is read as the digit 1. *)
Theorem string_to_integer_value (s : list Z) (Base : Z) :
  PhpStringToInteger64 s Base =
    (forallb (λ c, char_to_integer c <? Base) s,
     u64 (value_from Base 0 (filter (λ d, d < Base) (map char_to_integer s)))) ∧
  PhpStringToInteger64 s Base = PhpStringToInteger64 (map u8 s) Base ∧
  PhpStringToInteger64 [0x131] 10 = (true, 1).
Proof.
  assert (∀ c, char_to_integer (u8 c) = char_to_integer c) as Hc.
  { intros c. unfold char_to_integer. do 2 f_equal. apply Zmod_mod. }
  split_and!; [apply string_to_integer_eq| |by vm_compute]. rewrite !string_to_integer_eq, map_map. f_equal.
  - induction s as [|c s IH]; [done|]. cbn [map forallb]. by rewrite Hc, IH.
  - do 3 f_equal. apply map_ext. intros c. by rewrite Hc.
Qed.
