(* ===== verification/Format.v ===== *)
(** The formatting engine of [phlib/format.c] and [phlib/format_i.h]: the one
    formatting code, which is included twice, and the two functions that include
    it, with their own macros for the buffer. Strings are lists of UTF-16 units;
    lengths and capacities are in bytes, as in the code. *)

From S2P Require Import Prelude IntegerText.

(** ** Elements *)

Definition CharFormatType : Z := 0.
Definition StringFormatType : Z := 1.
Definition StringZFormatType : Z := 2.
Definition MultiByteStringFormatType : Z := 3.
Definition MultiByteStringZFormatType : Z := 4.
Definition Int32FormatType : Z := 5.
Definition Int64FormatType : Z := 6.
Definition IntPtrFormatType : Z := 7.
Definition UInt32FormatType : Z := 8.
Definition UInt64FormatType : Z := 9.
Definition UIntPtrFormatType : Z := 10.
Definition SingleFormatType : Z := 11.
Definition DoubleFormatType : Z := 12.
Definition SizeFormatType : Z := 13.
Definition FormatTypeMask : Z := 0x3f.
Definition FormatUsePrecision : Z := 0x40.
Definition FormatUsePad : Z := 0x80.
Definition FormatUseRadix : Z := 0x100.
Definition FormatStandardForm : Z := 0x1000.
Definition FormatHexadecimalForm : Z := 0x2000.
Definition FormatCropZeros : Z := 0x8000.
Definition FormatGroupDigits : Z := 0x10000.
Definition FormatPrefixSign : Z := 0x20000.
Definition FormatPadZeros : Z := 0x40000.
Definition FormatUpperCase : Z := 0x20000000.
Definition FormatRightAlign : Z := 0x40000000.
Definition FormatLeftAlign : Z := 0x80000000.

(** [Type & flag] as a condition. *)
Definition has (Type_ flag : Z) : bool := negb (Z.land Type_ flag =? 0).

Definition BUFFER_SIZE : Z := 512.
Definition _CVTBUFSIZE : Z := 349.

(** Texts are put together from these characters. *)
Definition SPACE : Z := 32.
Definition PLUS : Z := 43.
Definition MINUS : Z := 45.
Definition DOT : Z := 46.
Definition ZERO : Z := 48.

(** [PhpSizeUnitNamesCounted] *)
Definition size_unit_names : list (list Z) :=
  [[66]; [107; 66]; [77; 66]; [71; 66]; [84; 66]; [80; 66]; [69; 66]].

(** [(DOUBLE)x] for a [ULONG64]: the nearest integer with 53 significant bits, ties
    to even. *)
Definition round_double (x : Z) : Z :=
  let k := Z.log2 x - 52 in
  if k <=? 0 then x
  else
    let q := x / 2 ^ k in
    let r := x mod 2 ^ k in
    if (2 ^ k <? 2 * r) || ((2 * r =? 2 ^ k) && Z.odd q) then (q + 1) * 2 ^ k else q * 2 ^ k.

Inductive chars_format : Set := fixed | general | hex.

(** What the engine uses from outside of it: floating-point numbers and
    [std::to_chars] on them, which is given here without its bound on the length;
    the number [m / 1024^i]; the system's conversion of multibyte strings, to a
    size and to a string; and the settings. *)
Class Environment := {
  FLOAT : Type;
  DOUBLE : Type;
  size_double : Z → Z → DOUBLE;
  to_chars_single : FLOAT → chars_format → Z → list Z;
  to_chars_double : DOUBLE → chars_format → Z → list Z;
  RtlMultiByteToUnicodeSize : list Z → option Z;
  RtlMultiByteToUnicodeN : list Z → option (list Z);
  PhpFormatDecimalSeparator : Z;
  PhpFormatThousandSeparator : Z;
  PhpFormatUserLocale : bool;
  PhMaxSizeUnit : Z;
  uninitialized : Z (* what new memory holds *)
}.

(** The union [u]; the 32-bit members share a constructor, and so do the 64-bit
    ones. A null-terminated string is the list of what precedes the null. *)
Inductive payload `{Environment} : Type :=
  | Char (c : Z)
  | String_ (s : list Z)
  | StringZ (s : list Z)
  | MultiByteString (s : list Z)
  | MultiByteStringZ (s : list Z)
  | Int32 (x : Z)
  | Int64 (x : Z)
  | Single (x : FLOAT)
  | Double (x : DOUBLE)
  | Size (x : Z).

Record PH_FORMAT `{Environment} : Type := Format {
  Type_ : Z;
  Precision : Z;
  Width : Z;
  Pad : Z;
  Radix : Z;
  u : payload
}.

Arguments Format {_} _ _ _ _ _ _.
Arguments Char {_} _.
Arguments String_ {_} _.
Arguments StringZ {_} _.
Arguments MultiByteString {_} _.
Arguments MultiByteStringZ {_} _.
Arguments Int32 {_} _.
Arguments Int64 {_} _.
Arguments Single {_} _.
Arguments Double {_} _.
Arguments Size {_} _.

(** ** The buffer

    The state that both includers keep; [allocatedLength] stands for
    [BufferLength] in [PhFormatToBuffer], which alone has [overrun]. [buffer] is an
    index into [memory]. *)
Record FORMAT_STATE : Type := FormatState {
  memory : list Z;
  allocatedLength : Z;
  overrun : bool;
  buffer : Z;
  usedLength : Z
}.

Abbreviation fmt := (ST FORMAT_STATE).

(** The macros of an includer. *)
Class FormatBuffer : Type := {
  ENSURE_BUFFER : Z → fmt unit;
  OK_BUFFER : FORMAT_STATE → bool
}.

(** Writes through [buffer], and moves it past what was written. *)
Definition put (us : list Z) : fmt unit := λ s,
  match store (buffer s) us (memory s) with
  | Some m => Some (tt, FormatState m (allocatedLength s) (overrun s) (buffer s + Z.of_nat (length us)) (usedLength s))
  | None => None
  end.

(** Writes through [buffer], which stays. *)
Definition poke (us : list Z) : fmt unit := λ s,
  match store (buffer s) us (memory s) with
  | Some m => Some (tt, FormatState m (allocatedLength s) (overrun s) (buffer s) (usedLength s))
  | None => None
  end.

Definition add_used (n : Z) : fmt unit := λ s,
  Some (tt, FormatState (memory s) (allocatedLength s) (overrun s) (buffer s) (usedLength s + n)).

Definition ADVANCE_BUFFER (Length : Z) : fmt unit := λ s,
  Some (tt, FormatState (memory s) (allocatedLength s) (overrun s) (buffer s + Length / 2) (usedLength s + Length)).

Section Engine.
Context `{Environment} `{FormatBuffer}.

(** [if (OK_BUFFER) ...] *)
Definition when_ok (m : fmt unit) : fmt unit := s ← get_st; if OK_BUFFER s then m else mret tt.

(** *** Characters and strings *)

Definition emit (us : list Z) : fmt unit :=
  let Length := Z.of_nat (length us) * 2 in
  ENSURE_BUFFER Length ;; when_ok (poke us) ;; ADVANCE_BUFFER Length.

Definition emit_multi_byte (bs : list Z) : fmt unit :=
  match RtlMultiByteToUnicodeSize bs with
  | Some bytesInUnicodeString =>
      ENSURE_BUFFER bytesInUnicodeString ;;
      s ← get_st;
      if negb (OK_BUFFER s) then ADVANCE_BUFFER bytesInUnicodeString
      else
        match RtlMultiByteToUnicodeN bs with
        | Some us => poke us ;; ADVANCE_BUFFER bytesInUnicodeString
        | None => mret tt
        end
  | None => mret tt
  end.

(** *** Integers

    The digits are written backwards into [tempBuffer], which has 512 units;
    [count] of them are used and [needsSep] digits have been written since the last
    separator. *)
Fixpoint process_digits (fuel : nat) (group : bool) (radix : Z) (table : list Z) (Input needsSep : Z)
    (temp : list Z) : option (list Z) :=
  match fuel with
  | O => None
  | S fuel =>
      let r := Input mod radix in
      let Input := Input / radix in
      let temp := integer_to_char table r :: temp in
      let needsSep := needsSep + 1 in
      let sep := group && (needsSep =? 3) && negb (Input =? 0) in
      let temp := if sep then PhpFormatThousandSeparator :: temp else temp in
      if BUFFER_SIZE <? Z.of_nat (length temp) then None
      else if negb (Input =? 0) then
        process_digits fuel group radix table Input (if sep then 0 else needsSep) temp
      else Some temp
  end.

(** Every turn divides a number below 2^64 by at least two. *)
Definition integer_text (f : PH_FORMAT) (Input : Z) : option (list Z) :=
  let radix :=
    if has (Type_ f) FormatUseRadix && (2 <=? Radix f) && (Radix f <=? 69) then Radix f else 10 in
  let integerToChar := if has (Type_ f) FormatUpperCase then PhIntegerToCharUpper else PhIntegerToChar in
  if negb (Input =? 0) then
    process_digits 64 (has (Type_ f) FormatGroupDigits) radix integerToChar Input 0 []
  else Some [ZERO].

Definition put_sign (negative positive : bool) : fmt unit :=
  if negative then put [MINUS] else if positive then put [PLUS] else mret tt.

Definition COMMON_INTEGER_FORMAT (negative : bool) (Input : Z) (f : PH_FORMAT) : fmt unit :=
  match integer_text f Input with
  | Some temp =>
      let tempCount := Z.of_nat (length temp) in
      let prefix := has (Type_ f) FormatPrefixSign in
      let preCount := if negative then 1 else if prefix then 1 else 0 in
      let pad := has (Type_ f) FormatPadZeros && negb (has (Type_ f) FormatGroupDigits) && (preCount + tempCount <? Width f) in
      let padCount := if pad then Width f - (preCount + tempCount) else 0 in
      let preCount := preCount + padCount in
      ENSURE_BUFFER ((preCount + tempCount) * 2) ;;
      when_ok (put_sign negative prefix ;;
               (if pad then put (replicate (Z.to_nat padCount) ZERO) else mret tt) ;;
               put temp) ;;
      add_used ((preCount + tempCount) * 2)
  | None => fault
  end.

(** *** Floating point numbers *)

Definition chars_format_of (flags : Z) : chars_format :=
  if has flags FormatStandardForm then general
  else if has flags FormatHexadecimalForm then hex
  else fixed.

(** [PhFormatSingleToUtf8] and [PhFormatDoubleToUtf8]: [std::to_chars] into a local
    buffer of [_CVTBUFSIZE + 1] characters; [None] is FALSE. *)
Definition PhFormatToUtf8 (text : list Z) : option (list Z) :=
  if _CVTBUFSIZE + 1 <? Z.of_nat (length text) then None
  else if Z.of_nat (length text) =? 0 then None
  else Some text.

Definition upper (c : Z) : Z := if (97 <=? c) && (c <=? 122) then c - 32 else c.

Fixpoint localize (s : list Z) : list Z :=
  match s with
  | [] => []
  | c :: s => if c =? DOT then u8 PhpFormatDecimalSeparator :: s else c :: localize s
  end.

(** [PhpFormatSingleToUtf8Locale] and [PhpFormatDoubleToUtf8Locale]. *)
Definition format_locale (text : list Z) (flags : Z) : list Z :=
  match PhFormatToUtf8 text with
  | None => []
  | Some s =>
      let s := if PhpFormatUserLocale then localize s else s in
      if has flags FormatUpperCase then map upper s else s
  end.

(** The characters before the first one that satisfies the test, and the rest. *)
Fixpoint span_until (stop : Z → bool) (s : list Z) : list Z * list Z :=
  match s with
  | [] => ([], [])
  | c :: rest => if stop c then ([], s) else let '(a, b) := span_until stop rest in (c :: a, b)
  end.

Fixpoint drop_zeros (s : list Z) : list Z :=
  match s with
  | c :: rest => if c =? ZERO then drop_zeros rest else s
  | [] => []
  end.

(** From the end of the fraction back over the zeros, and over the decimal point if
    nothing else is left; the separator stops the scan. *)
Definition PhpCropZeros (s : list Z) : list Z :=
  let decimalSeparator := u8 PhpFormatDecimalSeparator in
  match span_until (λ c, c =? decimalSeparator) s with
  | (whole, point :: rest) =>
      let '(fraction, stop) := span_until (λ c, (c =? 101 (* 'e' *)) || (c =? 69)) rest in
      let back := drop_zeros (rev (whole ++ point :: fraction)) in
      let back := match back with c :: back' => if c =? decimalSeparator then back' else back | [] => [] end in
      rev back ++ stop
  | (_, []) => s
  end.

Definition precision_of (f : PH_FORMAT) : Z :=
  if has (Type_ f) FormatUsePrecision then Z.min (Precision f) (BUFFER_SIZE - 1 - _CVTBUFSIZE) else 6.

(** The contents of [temp]. *)
Definition double_text (to_chars : chars_format → Z → list Z) (f : PH_FORMAT) : list Z :=
  let s := format_locale (to_chars (chars_format_of (Type_ f)) (precision_of f)) (Type_ f) in
  if has (Type_ f) FormatCropZeros then PhpCropZeros s else s.

Definition is_digit (c : Z) : bool := u8 (c - ZERO) <? 10.

(** [while (copyCount--) { ... }] over the digits of the whole part. *)
Fixpoint put_grouped (whole : list Z) (needsSep : Z) : fmt unit :=
  match whole with
  | [] => mret tt
  | c :: whole =>
      put [c] ;;
      if (needsSep =? 0) && negb (Z.of_nat (length whole) =? 0) then
        put [PhpFormatThousandSeparator] ;; put_grouped whole 2
      else put_grouped whole (u32 (needsSep - 1))
  end.

Definition COMMON_DOUBLE_FORMAT (to_chars : chars_format → Z → list Z) (f : PH_FORMAT) : fmt unit :=
  let temp := double_text to_chars f in
  let negative := match temp with c :: _ => c =? MINUS | [] => false end in
  let temp := if negative then tail temp else temp in
  let positive := negb negative && has (Type_ f) FormatPrefixSign in
  let length := Z.of_nat (length temp) in
  if has (Type_ f) FormatGroupDigits && negb (has (Type_ f) (Z.lor FormatStandardForm FormatHexadecimalForm)) then
    let '(whole, decimalPoint) := span_until (λ c, negb (is_digit c)) temp in
    let wholeCount := Z.of_nat (List.length whole) in
    let sepsCount := if negb (wholeCount =? 0) then (wholeCount + 2) / 3 - 1 else 0 in
    let signed := negative || positive in
    ENSURE_BUFFER ((length + sepsCount) * 2 + (if signed then 2 else 0)) ;;
    when_ok (put_sign negative positive ;; put_grouped whole ((wholeCount + 2) mod 3)) ;;
    add_used ((if signed then 2 else 0) + (wholeCount + sepsCount) * 2) ;;
    when_ok (poke decimalPoint ;; ADVANCE_BUFFER ((length - wholeCount) * 2))
  else
    let preLength := if negative || positive then 1 else 0 in
    let pad := has (Type_ f) FormatPadZeros && (preLength + length <? Width f) in
    let padLength := if pad then Width f - (preLength + length) else 0 in
    let preLength := preLength + padLength in
    ENSURE_BUFFER ((preLength + length) * 2) ;;
    when_ok (put_sign negative positive ;;
             if pad then put (replicate (Z.to_nat padLength) ZERO) else mret tt) ;;
    add_used (preLength * 2) ;;
    when_ok (poke temp ;; ADVANCE_BUFFER (length * 2)).

(** *** Sizes

    [while (s >= 1000 && ...) { s /= 1024; i++; }], where [s] is [m / 1024^i]. *)
Fixpoint size_unit (fuel : nat) (m maxSizeUnit i : Z) : Z :=
  match fuel with
  | O => i
  | S fuel =>
      if (1000 * 1024 ^ i <=? m) && (i <? Z.of_nat (length size_unit_names)) && (i <? maxSizeUnit)
      then size_unit fuel m maxSizeUnit (i + 1)
      else i
  end.

Definition size_format (f : PH_FORMAT) (s : DOUBLE) : PH_FORMAT :=
  Format (Z.lor DoubleFormatType (Z.lor FormatUsePrecision (Z.lor FormatCropZeros FormatGroupDigits)))
    (if has (Type_ f) FormatUsePrecision then Precision f else 2) 0 0 0 (Double s).

Definition format_size (f : PH_FORMAT) (Size : Z) : fmt unit :=
  if Size =? 0 then emit [ZERO]
  else
    let maxSizeUnit := if has (Type_ f) FormatUseRadix then Radix f else PhMaxSizeUnit in
    let m := round_double Size in
    let i := size_unit 8 m maxSizeUnit 0 in
    COMMON_DOUBLE_FORMAT (to_chars_double (size_double m i)) (size_format f (size_double m i)) ;;
    match size_unit_names !! Z.to_nat i with
    | Some name => emit (SPACE :: name)
    | None => fault
    end.

(** *** The loop *)

(** [switch (format->Type & FormatTypeMask)]; a member of the union that the type
    does not select cannot be read. *)
Definition format_element (f : PH_FORMAT) : fmt unit :=
  let type := Z.land (Type_ f) FormatTypeMask in
  if type =? CharFormatType then match u f with Char c => emit [c] | _ => fault end
  else if type =? StringFormatType then match u f with String_ s => emit s | _ => fault end
  else if type =? StringZFormatType then match u f with StringZ s => emit s | _ => fault end
  else if (type =? MultiByteStringFormatType) || (type =? MultiByteStringZFormatType) then
    if Type_ f =? MultiByteStringFormatType then match u f with MultiByteString s => emit_multi_byte s | _ => fault end
    else match u f with MultiByteStringZ s => emit_multi_byte s | _ => fault end
  else if type =? Int32FormatType then
    match u f with
    | Int32 x => if x <? 0 then COMMON_INTEGER_FORMAT true (u32 (- x)) f else COMMON_INTEGER_FORMAT false x f
    | _ => fault
    end
  else if type =? UInt32FormatType then
    match u f with Int32 x => COMMON_INTEGER_FORMAT false (u32 x) f | _ => fault end
  else if (type =? Int64FormatType) || (type =? IntPtrFormatType) then
    match u f with
    | Int64 x => if x <? 0 then COMMON_INTEGER_FORMAT true (u64 (- x)) f else COMMON_INTEGER_FORMAT false x f
    | _ => fault
    end
  else if (type =? UInt64FormatType) || (type =? UIntPtrFormatType) then
    match u f with Int64 x => COMMON_INTEGER_FORMAT false (u64 x) f | _ => fault end
  else if type =? SingleFormatType then
    match u f with Single x => COMMON_DOUBLE_FORMAT (to_chars_single x) f | _ => fault end
  else if type =? DoubleFormatType then
    match u f with Double x => COMMON_DOUBLE_FORMAT (to_chars_double x) f | _ => fault end
  else if type =? SizeFormatType then
    match u f with Size x => format_size f x | _ => fault end
  else mret tt.

(** [memmove] within the memory, of [count] units. *)
Definition move (dst src count : Z) : fmt unit := λ s,
  if (0 <=? src) && (src + count <=? Z.of_nat (length (memory s))) then
    match store dst (take (Z.to_nat count) (drop (Z.to_nat src) (memory s))) (memory s) with
    | Some m => Some (tt, FormatState m (allocatedLength s) (overrun s) (buffer s) (usedLength s))
    | None => None
    end
  else None.

(** [wmemset] at an index. *)
Definition fill (dst : Z) (us : list Z) : fmt unit := λ s,
  match store dst us (memory s) with
  | Some m => Some (tt, FormatState m (allocatedLength s) (overrun s) (buffer s) (usedLength s))
  | None => None
  end.

(** [ContinueLoop]: alignment of a part of [partLength] bytes. *)
Definition format_align (f : PH_FORMAT) (partLength : Z) : fmt unit :=
  if has (Type_ f) (Z.lor FormatLeftAlign FormatRightAlign) then
    let newLength := Width f * 2 in
    if partLength <? newLength then
      let addLength := newLength - partLength in
      ENSURE_BUFFER addLength ;;
      when_ok (
        let pad := replicate (Z.to_nat (addLength / 2)) (if has (Type_ f) FormatUsePad then Pad f else SPACE) in
        if has (Type_ f) FormatLeftAlign then poke pad
        else
          s ← get_st;
          let start := buffer s - partLength / 2 in
          move (start + addLength / 2) start (partLength / 2) ;;
          fill start pad) ;;
      ADVANCE_BUFFER addLength
    else mret tt
  else mret tt.

Definition format_part (f : PH_FORMAT) : fmt unit :=
  s ← get_st;
  let partLength := usedLength s in
  format_element f ;;
  s ← get_st;
  format_align f (usedLength s - partLength).

(** [while (Count--)] *)
Fixpoint format_parts (fs : list PH_FORMAT) : fmt unit :=
  match fs with
  | [] => mret tt
  | f :: fs => format_part f ;; format_parts fs
  end.
End Engine.

(** ** The two functions *)

Section Functions.
Context `{Environment}.

(** [PhCreateStringEx(NULL, Length)]: room for the string and a terminator. *)
Definition new_string (Length : Z) : list Z := replicate (Z.to_nat (Length / 2) + 1) uninitialized.

(** [PhpResizeFormatBuffer], and the assignment of [buffer]. *)
Definition PhpResizeFormatBuffer (NeededLength : Z) : fmt unit := λ s,
  let allocated := Z.max (allocatedLength s * 2) (usedLength s + NeededLength) in
  if usedLength s / 2 <=? Z.of_nat (length (memory s)) then
    match store 0 (take (Z.to_nat (usedLength s / 2)) (memory s)) (new_string allocated) with
    | Some m => Some (tt, FormatState m allocated (overrun s) (usedLength s / 2) (usedLength s))
    | None => None
    end
  else None.

Definition string_buffer : FormatBuffer := {|
  ENSURE_BUFFER NeededLength :=
    s ← get_st;
    if allocatedLength s <? usedLength s + NeededLength then PhpResizeFormatBuffer NeededLength else mret tt;
  OK_BUFFER _ := true
|}.

(** [SMALL_BUFFER_LENGTH] depends on the layout of a string object. *)
Definition PhFormat (SMALL_BUFFER_LENGTH : Z) (fs : list PH_FORMAT) (InitialCapacity : Z) : option (list Z) :=
  let InitialCapacity := Z.max InitialCapacity SMALL_BUFFER_LENGTH in
  match format_parts (H0 := string_buffer) fs (FormatState (new_string InitialCapacity) InitialCapacity false 0 0) with
  | Some (_, s) =>
      match store (usedLength s / 2) [0] (memory s) with
      | Some m => Some (take (Z.to_nat (usedLength s / 2)) m)
      | None => None
      end
  | None => None
  end.

Definition fixed_buffer : FormatBuffer := {|
  ENSURE_BUFFER NeededLength := λ s,
    Some (tt, FormatState (memory s) (allocatedLength s)
      (overrun s || (allocatedLength s <? usedLength s + NeededLength)) (buffer s) (usedLength s));
  OK_BUFFER s := negb (overrun s)
|}.

(** [Buffer] is the units of the caller's buffer, of [BufferLength] bytes, or NULL.
    The result, the buffer and [ReturnLength]; [None] is a write out of bounds. *)
Definition PhFormatToBuffer (fs : list PH_FORMAT) (Buffer : option (list Z)) (BufferLength : Z) :
    option (bool * list Z * Z) :=
  let m := match Buffer with Some m => m | None => [] end in
  let null := match Buffer with Some _ => false | None => true end in
  match (format_parts (H0 := fixed_buffer) fs ;; ENSURE_BUFFER (FormatBuffer := fixed_buffer) 2)
          (FormatState m BufferLength null 0 0) with
  | Some (_, s) =>
      if negb (overrun s) then
        match store (buffer s) [0] (memory s) with
        | Some m => Some (true, m, usedLength s + 2)
        | None => None
        end
      else if negb null && negb (BufferLength =? 0) then
        match store 0 [0] (memory s) with
        | Some m => Some (false, m, usedLength s + 2)
        | None => None
        end
      else Some (false, memory s, usedLength s + 2)
  | None => None
  end.

(** ** Initialization *)

Definition format_int (Type_ Width Radix x : Z) : PH_FORMAT := Format Type_ 0 Width 0 Radix (Int64 x).
Definition PhInitFormatC (c : Z) : PH_FORMAT := Format CharFormatType 0 0 0 0 (Char c).
Definition PhInitFormatI64D (x : Z) : PH_FORMAT := format_int Int64FormatType 0 0 x.
Definition PhInitFormatI64U (x : Z) : PH_FORMAT := format_int UInt64FormatType 0 0 x.
Definition PhInitFormatI64UGroupDigits (x : Z) : PH_FORMAT := format_int (Z.lor UInt64FormatType FormatGroupDigits) 0 0 x.
Definition PhInitFormatI64UWithWidth (x Width : Z) : PH_FORMAT := format_int (Z.lor UInt64FormatType FormatPadZeros) Width 0 x.
Definition PhInitFormatI64X (x : Z) : PH_FORMAT := format_int (Z.lor UInt64FormatType FormatUseRadix) 0 16 x.
Definition PhInitFormatIXPadZeros (x : Z) : PH_FORMAT :=
  format_int (Z.lor UIntPtrFormatType (Z.lor FormatUseRadix FormatPadZeros)) 16 16 x.

(** *** Time spans *)

Definition PH_TICKS_PER_MS : Z := 10000.
Definition PH_TICKS_PER_SEC : Z := PH_TICKS_PER_MS * 1000.
Definition PH_TICKS_PER_MIN : Z := PH_TICKS_PER_SEC * 60.
Definition PH_TICKS_PER_HOUR : Z := PH_TICKS_PER_MIN * 60.
Definition PH_TICKS_PER_DAY : Z := PH_TICKS_PER_HOUR * 24.
Definition PH_TICKS_PARTIAL_MS (Ticks : Z) : Z := (Ticks / PH_TICKS_PER_MS) mod 1000.
Definition PH_TICKS_PARTIAL_SEC (Ticks : Z) : Z := (Ticks / PH_TICKS_PER_SEC) mod 60.
Definition PH_TICKS_PARTIAL_MIN (Ticks : Z) : Z := (Ticks / PH_TICKS_PER_MIN) mod 60.
Definition PH_TICKS_PARTIAL_HOURS (Ticks : Z) : Z := (Ticks / PH_TICKS_PER_HOUR) mod 24.
Definition PH_TICKS_PARTIAL_DAYS (Ticks : Z) : Z := Ticks / PH_TICKS_PER_DAY.

Definition PH_TIMESPAN_STR_LEN_1 : Z := 31.
Definition PH_TIMESPAN_HMSM : Z := 1.
Definition PH_TIMESPAN_DHMS : Z := 2.
Definition PH_TIMESPAN_DHMSM : Z := 3.
Definition COLON : Z := 58.

Definition time_span_format (Ticks Mode : Z) : list PH_FORMAT :=
  if Mode =? PH_TIMESPAN_HMSM then
    [PhInitFormatI64UWithWidth (PH_TICKS_PARTIAL_HOURS Ticks) 2; PhInitFormatC COLON;
     PhInitFormatI64UWithWidth (PH_TICKS_PARTIAL_MIN Ticks) 2; PhInitFormatC COLON;
     PhInitFormatI64UWithWidth (PH_TICKS_PARTIAL_SEC Ticks) 2; PhInitFormatC DOT;
     PhInitFormatI64UWithWidth (PH_TICKS_PARTIAL_MS Ticks) 3]
  else if Mode =? PH_TIMESPAN_DHMS then
    [PhInitFormatI64U (PH_TICKS_PARTIAL_DAYS Ticks); PhInitFormatC COLON;
     PhInitFormatI64UWithWidth (PH_TICKS_PARTIAL_HOURS Ticks) 2; PhInitFormatC COLON;
     PhInitFormatI64UWithWidth (PH_TICKS_PARTIAL_MIN Ticks) 2; PhInitFormatC COLON;
     PhInitFormatI64UWithWidth (PH_TICKS_PARTIAL_SEC Ticks) 2]
  else if Mode =? PH_TIMESPAN_DHMSM then
    [PhInitFormatI64U (PH_TICKS_PARTIAL_DAYS Ticks); PhInitFormatC COLON;
     PhInitFormatI64UWithWidth (PH_TICKS_PARTIAL_HOURS Ticks) 2; PhInitFormatC COLON;
     PhInitFormatI64UWithWidth (PH_TICKS_PARTIAL_MIN Ticks) 2; PhInitFormatC COLON;
     PhInitFormatI64UWithWidth (PH_TICKS_PARTIAL_SEC Ticks) 2; PhInitFormatC COLON;
     PhInitFormatI64UWithWidth (PH_TICKS_PARTIAL_MS Ticks) 3]
  else
    [PhInitFormatI64UWithWidth (PH_TICKS_PARTIAL_HOURS Ticks) 2; PhInitFormatC COLON;
     PhInitFormatI64UWithWidth (PH_TICKS_PARTIAL_MIN Ticks) 2; PhInitFormatC DOT;
     PhInitFormatI64UWithWidth (PH_TICKS_PARTIAL_SEC Ticks) 2].

Definition PhPrintTimeSpanToBuffer (Ticks Mode : Z) (Buffer : option (list Z)) (BufferLength : Z) :
    option (bool * list Z * Z) :=
  PhFormatToBuffer (time_span_format Ticks Mode) Buffer BufferLength.

(** The destination afterwards. *)
Definition PhPrintTimeSpan (Destination : list Z) (Ticks Mode : Z) : option (list Z) :=
  match PhPrintTimeSpanToBuffer Ticks Mode (Some Destination) (PH_TIMESPAN_STR_LEN_1 * 2) with
  | Some (_, m, _) => Some m
  | None => None
  end.

(** [PhIntegerToString64]; the outer [None] is a fault, the inner one NULL. *)
Definition PhIntegerToString64 (SMALL_BUFFER_LENGTH Integer Base : Z) (Signed : bool) : option (option (list Z)) :=
  if (Base =? 1) || (Base >? 69) then Some None
  else
    let format := if Signed then PhInitFormatI64D Integer else PhInitFormatI64U (u64 Integer) in
    let format :=
      if negb (Base =? 0) then Format (Z.lor (Type_ format) FormatUseRadix) (Precision format) (Width format)
                                 (Pad format) Base (u format)
      else format in
    match PhFormat SMALL_BUFFER_LENGTH [format] 0 with
    | Some s => Some (Some s)
    | None => None
    end.
End Functions.
