(* ===== verification/FormatFacts.v ===== *)
(** The formatting engine against the texts it should produce: an interface for
    the buffers of its two includers, and the engine proved against it. *)

From S2P Require Import Prelude IntegerText Format.

(** ** Reference texts *)

(** The digits of [n], the first one first. *)
Fixpoint digits_fuel (fuel : nat) (radix n : Z) : list Z :=
  match fuel with
  | O => []
  | S fuel => if n / radix =? 0 then [n mod radix] else digits_fuel fuel radix (n / radix) ++ [n mod radix]
  end.

Definition digits (radix n : Z) : list Z := digits_fuel 64 radix n.

(** A separator after each character that has a multiple of three characters after
    it, counting [k] more, except the last. *)
Fixpoint grouped_from (sep : Z) (k : nat) (s : list Z) : list Z :=
  match s with
  | [] => []
  | [c] => [c]
  | c :: s => if ((length s + k) mod 3 =? 0)%nat then c :: sep :: grouped_from sep k s else c :: grouped_from sep k s
  end.

Definition grouped (sep : Z) (s : list Z) : list Z := grouped_from sep 0 s.

Section Texts.
Context `{Environment}.

Definition radix_of (f : PH_FORMAT) : Z :=
  if has (Type_ f) FormatUseRadix && (2 <=? Radix f) && (Radix f <=? 69) then Radix f else 10.

Definition table_of (f : PH_FORMAT) : list Z :=
  if has (Type_ f) FormatUpperCase then PhIntegerToCharUpper else PhIntegerToChar.

Definition group_if (group : bool) (s : list Z) : list Z :=
  if group then grouped PhpFormatThousandSeparator s else s.

Definition integer_reference (f : PH_FORMAT) (n : Z) : list Z :=
  group_if (has (Type_ f) FormatGroupDigits) (map (integer_to_char (table_of f)) (digits (radix_of f) n)).

(** The sign, and zeros up to the width. *)
Definition with_sign (f : PH_FORMAT) (negative pad : bool) (s : list Z) : list Z :=
  let sign := if negative then [MINUS] else if has (Type_ f) FormatPrefixSign then [PLUS] else [] in
  let zeros := if pad then replicate (Z.to_nat (Width f) - length sign - length s) ZERO else [] in
  sign ++ zeros ++ s.

Definition integer_part (f : PH_FORMAT) (x : Z) : list Z :=
  with_sign f (x <? 0) (has (Type_ f) FormatPadZeros && negb (has (Type_ f) FormatGroupDigits)) (integer_reference f (Z.abs x)).

Definition double_part (to_chars : chars_format → Z → list Z) (f : PH_FORMAT) : list Z :=
  let temp := double_text to_chars f in
  let negative := match temp with c :: _ => c =? MINUS | [] => false end in
  let temp := if negative then tail temp else temp in
  if has (Type_ f) FormatGroupDigits && negb (has (Type_ f) (Z.lor FormatStandardForm FormatHexadecimalForm)) then
    let '(whole, rest) := span_until (λ c, negb (is_digit c)) temp in
    with_sign f negative false (grouped PhpFormatThousandSeparator whole ++ rest)
  else with_sign f negative (has (Type_ f) FormatPadZeros) temp.

Definition size_part (f : PH_FORMAT) (x : Z) : list Z :=
  if x =? 0 then [ZERO]
  else
    let m := round_double x in
    let i := size_unit 8 m (if has (Type_ f) FormatUseRadix then Radix f else PhMaxSizeUnit) 0 in
    double_part (to_chars_double (size_double m i)) (size_format f (size_double m i)) ++
    SPACE :: nth (Z.to_nat i) size_unit_names [].

(** The text of an element, before alignment. *)
Definition element_text (f : PH_FORMAT) : list Z :=
  match u f with
  | Char c => [c]
  | String_ s | StringZ s => s
  | MultiByteString s | MultiByteStringZ s => match RtlMultiByteToUnicodeN s with Some us => us | None => [] end
  | Int32 x | Int64 x => integer_part f x
  | Single x => double_part (to_chars_single x) f
  | Double x => double_part (to_chars_double x) f
  | Size x => size_part f x
  end.

(** Alignment to the width. *)
Definition aligned (f : PH_FORMAT) (s : list Z) : list Z :=
  let pad := replicate (Z.to_nat (Width f) - length s) (if has (Type_ f) FormatUsePad then Pad f else SPACE) in
  if has (Type_ f) FormatLeftAlign then s ++ pad
  else if has (Type_ f) FormatRightAlign then pad ++ s
  else s.

Definition part_text (f : PH_FORMAT) : list Z := aligned f (element_text f).
Definition text_of (fs : list PH_FORMAT) : list Z := concat (map part_text fs).

(** The member of the union is the one the type selects, and integers are in
    range. *)
Definition valid (f : PH_FORMAT) : Prop :=
  let type := Z.land (Type_ f) FormatTypeMask in
  0 ≤ Width f ∧
  match u f with
  | Char _ => type = CharFormatType
  | String_ _ => type = StringFormatType
  | StringZ _ => type = StringZFormatType
  | MultiByteString _ => Type_ f = MultiByteStringFormatType
  | MultiByteStringZ _ => type = MultiByteStringZFormatType
  | Int32 x => type = Int32FormatType ∧ - 2 ^ 31 ≤ x < 2 ^ 31 ∨ type = UInt32FormatType ∧ 0 ≤ x < 2 ^ 32
  | Int64 x =>
      (type = Int64FormatType ∨ type = IntPtrFormatType) ∧ - 2 ^ 63 ≤ x < 2 ^ 63 ∨
      (type = UInt64FormatType ∨ type = UIntPtrFormatType) ∧ 0 ≤ x < 2 ^ 64
  | Single _ => type = SingleFormatType
  | Double _ => type = DoubleFormatType
  | Size x => type = SizeFormatType ∧ 0 ≤ x < 2 ^ 64
  end.

(** Elements whose length does not depend on the buffer. *)
Definition floating (f : PH_FORMAT) : Prop :=
  match u f with Single _ | Double _ | Size _ => True | _ => False end.
End Texts.

(** The system's conversion of multibyte strings reports the size of its result. *)
Class EnvironmentLaws `{Environment} : Prop :=
  multi_byte_size s : RtlMultiByteToUnicodeSize s = (λ us, Z.of_nat (length us) * 2) <$> RtlMultiByteToUnicodeN s.

(** ** Digits *)

Lemma grouped_from_snoc sep k s x :
  s ≠ [] → (k < 3)%nat →
  grouped_from sep k (s ++ [x]) =
    if (k =? 2)%nat then grouped_from sep 0 s ++ [sep; x] else grouped_from sep (S k) s ++ [x].
Proof.
  intros Hs Hk. induction s as [|c [|d s] IH]; [done| |].
  - cbn [app grouped_from length]. destruct k as [|[|[|]]]; [done|done|done|lia].
  - specialize (IH ltac:(done)). change ((c :: d :: s) ++ [x]) with (c :: (d :: s) ++ [x]).
    assert (∀ k', grouped_from sep k' (c :: (d :: s) ++ [x]) =
      if ((length ((d :: s) ++ [x]) + k') mod 3 =? 0)%nat then c :: sep :: grouped_from sep k' ((d :: s) ++ [x])
      else c :: grouped_from sep k' ((d :: s) ++ [x])) as Hc1 by done.
    assert (∀ k', grouped_from sep k' (c :: d :: s) =
      if ((length (d :: s) + k') mod 3 =? 0)%nat then c :: sep :: grouped_from sep k' (d :: s)
      else c :: grouped_from sep k' (d :: s)) as Hc2 by done.
    rewrite Hc1, !Hc2, IH, length_app. clear. cbn [length]. destruct (k =? 2)%nat eqn:E.
    + apply Nat.eqb_eq in E as ->. replace (S (length s) + 1 + 2)%nat with (S (length s) + 0 + 1 * 3)%nat by lia.
      rewrite Nat.Div0.mod_add. by case_match.
    + replace (S (length s) + 1 + k)%nat with (S (length s) + S k)%nat by lia. by case_match.
Qed.

Lemma digits_fuel_nonempty fuel radix n : digits_fuel (S fuel) radix n ≠ [].
Proof. cbn [digits_fuel]. case_match; [done|]. by destruct (digits_fuel _ _ _). Qed.

Lemma process_digits_enough `{Environment} fuel : ∀ group radix table n k temp,
  2 ≤ radix → 0 < n < 2 ^ Z.of_nat fuel → (group = true → (k < 3)%nat) →
  Z.of_nat (length temp) + 2 * Z.of_nat fuel ≤ BUFFER_SIZE →
  process_digits fuel group radix table n (Z.of_nat k) temp =
    Some ((if group then grouped_from PhpFormatThousandSeparator k (map (integer_to_char table) (digits_fuel fuel radix n))
           else map (integer_to_char table) (digits_fuel fuel radix n)) ++ temp).
Proof.
  induction fuel as [|fuel IH]; intros group radix table n k temp Hr Hn Hk Ht; [simpl in Hn; lia|].
  assert (n / radix < 2 ^ Z.of_nat fuel) as Hn'.
  { apply Z.div_lt_upper_bound; [lia|]. replace (Z.of_nat (S fuel)) with (1 + Z.of_nat fuel) in Hn by lia.
    rewrite Z.pow_add_r in Hn by lia. assert (0 < 2 ^ Z.of_nat fuel) by (apply Z.pow_pos_nonneg; lia). nia. }
  assert (0 ≤ n / radix) by (apply Z.div_pos; lia).
  cbn [process_digits]. set (c := integer_to_char table (n mod radix)).
  assert (∀ temp' : list Z, (length temp' ≤ 2 + length temp)%nat → (BUFFER_SIZE <? Z.of_nat (length temp')) = false) as Hlen.
  { intros temp' Hl. apply Z.ltb_ge. lia. }
  destruct (Z.eqb_spec (n / radix) 0) as [Hz|Hz]; cbn [negb].
  { rewrite andb_false_r, Hlen by (simpl; lia). cbn [digits_fuel map]. rewrite Hz. cbn [Z.eqb map app grouped_from]. by destruct group. }
  rewrite andb_true_r. destruct fuel as [|fuel']; [simpl in Hn'; lia|]. set (fuel := S fuel') in *.
  assert (map (integer_to_char table) (digits_fuel (S fuel) radix n) =
          map (integer_to_char table) (digits_fuel fuel radix (n / radix)) ++ [c]) as ->.
  { change (digits_fuel (S fuel) radix n) with
      (if n / radix =? 0 then [n mod radix] else digits_fuel fuel radix (n / radix) ++ [n mod radix]).
    rewrite (proj2 (Z.eqb_neq (n / radix) 0)) by done. by rewrite map_app. }
  assert (map (integer_to_char table) (digits_fuel fuel radix (n / radix)) ≠ []) as Hne.
  { pose proof (digits_fuel_nonempty fuel' radix (n / radix)). unfold fuel. by destruct (digits_fuel _ _ _). }
  destruct group; cbn [andb].
  - specialize (Hk eq_refl). rewrite grouped_from_snoc by done. rewrite Hlen by (case_match; simpl; lia).
    destruct (Nat.eqb_spec k 2) as [->|Hk2].
    + change (Z.of_nat 2 + 1 =? 3) with true. cbn iota.
      rewrite (IH true radix table (n / radix) 0%nat) by (try done; try lia; cbn [length]; lia). by rewrite <-app_assoc.
    + rewrite (proj2 (Z.eqb_neq (Z.of_nat k + 1) 3)) by lia. replace (Z.of_nat k + 1) with (Z.of_nat (S k)) by lia.
      rewrite IH by (try done; try lia; cbn [length]; lia). by rewrite <-app_assoc.
  - rewrite Hlen by (simpl; lia). replace (Z.of_nat k + 1) with (Z.of_nat (S k)) by lia.
    rewrite IH by (try done; try lia; cbn [length]; lia). by rewrite <-app_assoc.
Qed.

Lemma radix_of_range `{Environment} f : 2 ≤ radix_of f ≤ 69.
Proof. unfold radix_of. destruct (has _ _ && _ && _) eqn:E; [|lia]. rewrite !andb_true_iff, !Z.leb_le in E. lia. Qed.

Lemma integer_text_reference `{Environment} f n :
  0 ≤ n < 2 ^ 64 → integer_text f n = Some (integer_reference f n).
Proof.
  intros Hn. unfold integer_text. fold (radix_of f). fold (table_of f). pose proof (radix_of_range f).
  destruct (Z.eqb_spec n 0) as [->|Hz]; cbn [negb].
  - unfold integer_reference, digits. cbn [digits_fuel]. rewrite Z.div_0_l, Zmod_0_l by lia. cbn [Z.eqb map].
    unfold table_of, group_if. by repeat case_match.
  - rewrite (process_digits_enough 64 _ _ _ n 0%nat []) by (try lia; done). rewrite app_nil_r. unfold integer_reference, group_if.
    by case_match.
Qed.

(** The digits are digits, they denote the number, and the first one is not zero. *)
Definition value (radix : Z) (ds : list Z) : Z := foldl (λ a d, a * radix + d) 0 ds.

Lemma digits_fuel_value fuel : ∀ radix n, 2 ≤ radix → 0 ≤ n < 2 ^ Z.of_nat fuel →
  value radix (digits_fuel fuel radix n) = n ∧ Forall (λ d, 0 ≤ d < radix) (digits_fuel fuel radix n) ∧
  (0 < n → ∃ d ds, digits_fuel fuel radix n = d :: ds ∧ d ≠ 0).
Proof.
  induction fuel as [|fuel IH]; intros radix n Hr Hn; [assert (n = 0) as -> by (simpl in Hn; lia); split_and!; [done|constructor|lia]|].
  assert (n / radix < 2 ^ Z.of_nat fuel) as Hn'.
  { apply Z.div_lt_upper_bound; [lia|]. replace (Z.of_nat (S fuel)) with (1 + Z.of_nat fuel) in Hn by lia.
    rewrite Z.pow_add_r in Hn by lia. assert (0 < 2 ^ Z.of_nat fuel) by (apply Z.pow_pos_nonneg; lia). nia. }
  assert (0 ≤ n / radix) by (apply Z.div_pos; lia). pose proof (Z.mod_pos_bound n radix ltac:(lia)) as Hm.
  pose proof (Z.div_mod n radix ltac:(lia)) as Hd. cbn [digits_fuel]. destruct (Z.eqb_spec (n / radix) 0) as [Hz|Hz].
  - rewrite Hz in Hd. split_and!; [unfold value; cbn; lia|by constructor|]. intros. eexists _, _. split; [done|]. lia.
  - destruct (IH radix (n / radix) Hr ltac:(lia)) as (Hv & Hf & Hh). split_and!.
    + unfold value in *. rewrite foldl_app, Hv. cbn [foldl]. lia.
    + apply Forall_app. split; [done|]. by constructor.
    + intros _. destruct (Hh ltac:(lia)) as (d & ds & -> & Hd0). by eexists _, _.
Qed.

(** ** Sizes *)

Lemma round_double_range x : 0 ≤ x < 2 ^ 64 → 0 ≤ round_double x ≤ 2 ^ 64.
Proof.
  intros Hx. unfold round_double. destruct (Z.leb_spec (Z.log2 x - 52) 0) as [Hk|Hk]; [lia|].
  assert (0 < x) by (destruct (Z.eq_dec x 0) as [->|]; [done|lia]). set (k := Z.log2 x - 52) in *.
  assert (Z.log2 x < 64) by (apply Z.log2_lt_pow2; lia).
  assert (0 < 2 ^ k) by (apply Z.pow_pos_nonneg; lia). assert (0 ≤ x / 2 ^ k) by (apply Z.div_pos; lia).
  assert (x / 2 ^ k < 2 ^ 53) as Hq.
  { apply Z.div_lt_upper_bound; [done|]. rewrite <-Z.pow_add_r by lia. replace (k + 53) with (Z.succ (Z.log2 x)) by lia.
    by apply Z.log2_spec. }
  assert ((x / 2 ^ k + 1) * 2 ^ k ≤ 2 ^ 64) as Hle.
  { transitivity (2 ^ 53 * 2 ^ k); [|rewrite <-Z.pow_add_r by lia; apply Z.pow_le_mono_r; lia].
    generalize dependent (x / 2 ^ k). intros q _ Hq. apply Z.mul_le_mono_nonneg_r; lia. }
  generalize dependent (x / 2 ^ k). intros q Hq0 Hq Hle. case_match; nia.
Qed.

Lemma size_unit_range fuel : ∀ m max i, 0 ≤ m ≤ 2 ^ 64 → 0 ≤ i ≤ 6 → 0 ≤ size_unit fuel m max i ≤ 6.
Proof.
  induction fuel as [|fuel IH]; intros m max i Hm Hi; [done|]. cbn [size_unit].
  destruct ((1000 * 1024 ^ i <=? m) && _ && _) eqn:E; [|done]. apply IH; [done|].
  apply andb_true_iff in E as [E _]. apply andb_true_iff in E as [E _]. apply Z.leb_le in E.
  destruct (Z.eq_dec i 6) as [->|]; [|lia]. assert (2 ^ 64 < 1000 * 1024 ^ 6) by done. lia.
Qed.

(** ** Buffers

    What the engine relies on. [fits n]: the buffer is there and takes [n] units.
    [sound s n]: [n] units have been ensured, and there is room for them if they
    fit. Ensuring more keeps what is in the buffer. *)
Class BufferLaws (B : FormatBuffer) : Type := {
  fits : nat → bool;
  sound : FORMAT_STATE → nat → Prop;
  fits_mono : ∀ n m, (n ≤ m)%nat → fits n = false → fits m = false;
  sound_ok : ∀ s n, sound s n → OK_BUFFER s = fits n;
  sound_room : ∀ s n, sound s n → fits n = true → (n ≤ length (memory s))%nat;
  sound_frame : ∀ s s' n, sound s n → length (memory s') = length (memory s) →
    allocatedLength s' = allocatedLength s → overrun s' = overrun s → sound s' n;
  sound_more : ∀ s n m, sound s n → fits n = false → (n ≤ m)%nat → sound s m;
  ensure_stop : ∀ s x, OK_BUFFER s = false → ENSURE_BUFFER x s = Some (tt, s);
  ensure_law : ∀ s n k, sound s n → fits n = true → buffer s = Z.of_nat n → usedLength s = 2 * Z.of_nat n →
    wp (ENSURE_BUFFER (2 * Z.of_nat k)) (λ _ s', sound s' (n + k) ∧ usedLength s' = usedLength s ∧
      buffer s' = Z.of_nat n ∧ (fits (n + k) = true → take n (memory s') = take n (memory s))) s
}.

Lemma store_ok off us m :
  0 ≤ off → off + Z.of_nat (length us) ≤ Z.of_nat (length m) →
  store off us m = Some (take (Z.to_nat off) m ++ us ++ drop (Z.to_nat off + length us) m).
Proof. intros. unfold store. by rewrite (proj2 (Z.leb_le _ _)), (proj2 (Z.leb_le _ _)) by lia. Qed.

Section Laws.
Context `{Environment} `{!EnvironmentLaws} {B : FormatBuffer} `{!BufferLaws B}.

(** Whether the lengths are known to be right even if the buffer is too small. *)
Context (exact : Prop).

(** Between elements: the text so far is [w]. *)
Definition written (w : list Z) (s : FORMAT_STATE) : Prop :=
  sound s (length w) ∧
  (fits (length w) = true →
    take (length w) (memory s) = w ∧ buffer s = Z.of_nat (length w) ∧ usedLength s = 2 * Z.of_nat (length w)) ∧
  (exact → usedLength s = 2 * Z.of_nat (length w)).

(** Within an element: [n] units are ensured and [v] is the text so far. *)
Definition writing (n : nat) (v : list Z) (x : Z) (s : FORMAT_STATE) : Prop :=
  sound s n ∧ usedLength s = x ∧
  (fits n = true → take (length v) (memory s) = v ∧ buffer s = Z.of_nat (length v)).

Lemma wp_ensure w k (Q : unit → FORMAT_STATE → Prop) s x :
  x = Z.of_nat k * 2 → written w s →
  (∀ s', writing (length w + k) w (usedLength s) s' → Q tt s') → wp (ENSURE_BUFFER x) Q s.
Proof using Type*.
  intros -> (Hs & Hw & _) HQ. destruct (fits (length w)) eqn:Hf.
  - destruct (Hw eq_refl) as (Ht & Hb & Hu). rewrite Z.mul_comm.
    eapply wp_mono; [by eapply (ensure_law s (length w) k)|]. cbn beta. intros [] s' (Hs' & Hu' & Hb' & Hm).
    apply HQ. split_and!; [done|done|]. intros Hk. by rewrite Hm.
  - exists tt, s. split; [apply ensure_stop; by rewrite (sound_ok s _ Hs)|]. apply HQ. split_and!; [|done|].
    + apply (sound_more s (length w)); [done|done|lia].
    + intros Hk. by rewrite (fits_mono (length w)) in Hk by (done || lia).
Qed.

Lemma wp_when_ok m n v x (Q : unit → FORMAT_STATE → Prop) s :
  writing n v x s → (fits n = true → wp m Q s) → (fits n = false → Q tt s) → wp (when_ok m) Q s.
Proof using Type*.
  intros (Hs & _) Hm HQ. unfold when_ok. enter_bind. apply wp_get. rewrite (sound_ok s n Hs).
  destruct (fits n); [by apply Hm|]. by apply wp_ret, HQ.
Qed.

(** A write through the buffer pointer. *)
Lemma written_store us n v x s :
  writing n v x s → fits n = true → (length v + length us ≤ n)%nat →
  ∃ m, store (buffer s) us (memory s) = Some m ∧ take (length (v ++ us)) m = v ++ us ∧ length m = length (memory s).
Proof using Type*.
  intros (Hs & _ & Hw) Hf Hlen. destruct (Hw Hf) as [Ht Hb]. pose proof (sound_room s n Hs Hf) as Hr.
  rewrite Hb, store_ok by lia. eexists. split; [done|]. rewrite !Nat2Z.id. split.
  - rewrite app_assoc, take_app_le by (rewrite !length_app, length_take; lia).
    rewrite Ht, take_ge; [done|]. by rewrite !length_app.
  - rewrite !length_app, length_take, length_drop. lia.
Qed.

Lemma wp_write us n v x (Q : unit → FORMAT_STATE → Prop) s :
  writing n v x s → fits n = true → (length v + length us ≤ n)%nat →
  (∀ s', writing n (v ++ us) x s' → Q tt s') → wp (put us) Q s.
Proof using Type*.
  intros Hw Hf Hlen HQ. destruct (written_store us n v x s Hw Hf Hlen) as (m & Hst & Ht & Hl).
  destruct Hw as (Hs & Hu & Hv). destruct (Hv Hf) as [_ Hb]. unfold put. eexists tt, _. rewrite Hst. split; [done|].
  apply HQ. split_and!; [by eapply sound_frame|done|]. intros _. cbn. rewrite Ht, length_app. split; [done|lia].
Qed.

(** A write that leaves the pointer, which is then moved past it. *)
Lemma wp_poke us n v x (Q : unit → FORMAT_STATE → Prop) s :
  writing n v x s → fits n = true → (length v + length us ≤ n)%nat →
  (∀ s', sound s' n → usedLength s' = x → take (length (v ++ us)) (memory s') = v ++ us →
    buffer s' = Z.of_nat (length v) → Q tt s') → wp (poke us) Q s.
Proof using Type*.
  intros Hw Hf Hlen HQ. destruct (written_store us n v x s Hw Hf Hlen) as (m & Hst & Ht & Hl).
  destruct Hw as (Hs & Hu & Hv). destruct (Hv Hf) as [_ Hb]. unfold poke. eexists tt, _. rewrite Hst. split; [done|].
  apply HQ; cbn; [by eapply sound_frame|done|done|done].
Qed.

Lemma wp_add_used k n v x (Q : unit → FORMAT_STATE → Prop) s :
  writing n v x s → (∀ s', writing n v (x + k) s' → Q tt s') → wp (add_used k) Q s.
Proof using Type*.
  intros (Hs & Hu & Hv) HQ. eexists tt, _. split; [done|]. apply HQ. split_and!; cbn; [by eapply sound_frame|lia|done].
Qed.

(** An element is complete when all that was ensured is written. *)
Lemma writing_done w n x s :
  writing n w x s → n = length w → x = 2 * Z.of_nat (length w) → written w s.
Proof using Type*.
  intros (Hs & Hu & Hv) -> ->. split_and!; [done| |done]. intros Hf. by destruct (Hv Hf) as [? ?].
Qed.

Lemma writing_cut n v w x s : writing n v x s → fits n = false → writing n w x s.
Proof using Type*. intros (Hs & Hu & Hv) Hf. split_and!; [done|done|]. by rewrite Hf. Qed.

Lemma div_2 n : n * 2 / 2 = n.
Proof using Type. by rewrite Z.div_mul. Qed.

(** ** The engine *)

Lemma wp_emit us w s : written w s → wp (emit us) (λ _, written (w ++ us)) s.
Proof using Type*.
  intros Hw. unfold emit. enter_bind. apply (wp_ensure w (length us)); [done|done|]. intros s1 H1. enter_bind.
  eapply wp_when_ok; [done| |].
  - intros Hf. eapply wp_poke; [done|done|lia|]. intros s2 Hs Hu Ht Hb. eexists tt, _. split; [reflexivity|].
    unfold written. cbn. rewrite length_app. rewrite length_app in Ht. rewrite div_2.
    split_and!; [by eapply sound_frame| |].
    + intros _. rewrite Hu, Hb. destruct Hw as (_ & Hw & _).
      assert (fits (length w) = true) as Hfw.
      { destruct (fits (length w)) eqn:E; [done|]. by rewrite (fits_mono (length w)) in Hf by (done || lia). }
      destruct (Hw Hfw) as (_ & _ & ->). split_and!; [done|lia|lia].
    + intros He. destruct Hw as (_ & _ & Hx). rewrite Hu, (Hx He). lia.
  - intros Hf. eexists tt, _. split; [reflexivity|]. destruct H1 as (Hs & Hu & _). unfold written. cbn. rewrite length_app.
    split_and!; [by eapply sound_frame|by rewrite Hf|]. intros He. destruct Hw as (_ & _ & Hx). rewrite Hu, (Hx He). lia.
Qed.

Lemma wp_emit_multi_byte bs w s :
  written w s →
  wp (emit_multi_byte bs) (λ _, written (w ++ match RtlMultiByteToUnicodeN bs with Some us => us | None => [] end)) s.
Proof using Type*.
  intros Hw. unfold emit_multi_byte. rewrite multi_byte_size. destruct (RtlMultiByteToUnicodeN bs) as [us|]; cbn [fmap option_fmap option_map].
  2:{ apply wp_ret. by rewrite app_nil_r. }
  pose proof (wp_emit us w s Hw) as He. unfold emit in He. destruct He as (r & s' & He & HQ). exists r, s'. split; [|done].
  revert He. unfold when_ok, mbind, ST_bind, get_st. destruct (ENSURE_BUFFER _ s) as [[[] s1]|]; [|done].
  by destruct (OK_BUFFER s1).
Qed.

(** The sign and the zeros before a number. *)
Definition sign_of (f : PH_FORMAT) (negative : bool) : list Z :=
  if negative then [MINUS] else if has (Type_ f) FormatPrefixSign then [PLUS] else [].

Definition zeros_of (f : PH_FORMAT) (pad : bool) (n : nat) : list Z :=
  if pad then replicate (Z.to_nat (Width f) - n) ZERO else [].

Lemma with_sign_eq f negative pad t :
  with_sign f negative pad t = sign_of f negative ++ zeros_of f pad (length (sign_of f negative) + length t) ++ t.
Proof using Type. unfold with_sign. fold (sign_of f negative). unfold zeros_of. by rewrite Nat.sub_add_distr. Qed.

Lemma zeros_eq f pad (n : nat) c : c = Z.of_nat n →
  (if pad && (c <? Width f) then replicate (Z.to_nat (Width f - c)) ZERO else []) = zeros_of f pad n.
Proof using Type.
  intros ->. unfold zeros_of. destruct pad; [|done]. cbn [andb]. destruct (Z.ltb_spec (Z.of_nat n) (Width f)).
  - f_equal. lia.
  - by replace (Z.to_nat (Width f) - n)%nat with 0%nat by lia.
Qed.

Lemma zeros_length f pad (n : nat) c : c = Z.of_nat n →
  (if pad && (c <? Width f) then Width f - c else 0) = Z.of_nat (length (zeros_of f pad n)).
Proof using Type.
  intros Hc. rewrite <-(zeros_eq f pad n c Hc). destruct (pad && (c <? Width f)) eqn:E; [|done].
  apply andb_true_iff in E as [_ E%Z.ltb_lt]. rewrite length_replicate. lia.
Qed.

Lemma wp_put_sign f negative positive n v x (Q : unit → FORMAT_STATE → Prop) s :
  (negative = false → positive = has (Type_ f) FormatPrefixSign) →
  writing n v x s → fits n = true → (length v + length (sign_of f negative) ≤ n)%nat →
  (∀ s', writing n (v ++ sign_of f negative) x s' → Q tt s') → wp (put_sign negative positive) Q s.
Proof using Type*.
  intros Hp Hw Hf Hl HQ. unfold put_sign, sign_of in *. destruct negative; [by eapply wp_write|]. rewrite <-Hp in HQ, Hl by done.
  destruct positive; [by eapply wp_write|]. apply wp_ret, HQ. by rewrite app_nil_r.
Qed.

Lemma wp_put_zeros f (pad : bool) (k : nat) c n v x (Q : unit → FORMAT_STATE → Prop) s :
  c = Z.of_nat k →
  writing n v x s → fits n = true → (length v + length (zeros_of f pad k) ≤ n)%nat →
  (∀ s', writing n (v ++ zeros_of f pad k) x s' → Q tt s') →
  wp (if pad && (c <? Width f) then put (replicate (Z.to_nat (if pad && (c <? Width f) then Width f - c else 0)) ZERO) else mret tt) Q s.
Proof using Type*.
  intros Hc Hw Hf Hl HQ. rewrite <-(zeros_eq f pad k c Hc) in HQ, Hl. destruct (pad && (c <? Width f)).
  - by eapply wp_write.
  - apply wp_ret, HQ. by rewrite app_nil_r.
Qed.

Lemma sign_length (f : PH_FORMAT) (negative : bool) :
  (if negative then 1 else if has (Type_ f) FormatPrefixSign then 1 else 0) = Z.of_nat (length (sign_of f negative)).
Proof using Type. unfold sign_of. by repeat case_match. Qed.

(** A fact about a state, with its counter written differently. *)
Ltac same_used H :=
  match type of H with
  | writing _ _ ?a _ => match goal with |- writing _ _ ?b _ => replace b with a by (rewrite ?length_app; lia); exact H end
  end.

(** All that was ensured is written, if it fits, and counted. *)
Lemma written_intro w t x s :
  writing (length w + length t) (w ++ t) (usedLength x + Z.of_nat (length t) * 2) s → written w x → written (w ++ t) s.
Proof using Type*.
  intros (Hs & Hu & Hv) (_ & Hw & He). unfold written. rewrite length_app. split_and!; [done| |].
  - intros Hf. assert (fits (length w) = true) as Hfw.
    { destruct (fits (length w)) eqn:E; [done|]. by rewrite (fits_mono (length w)) in Hf by (done || lia). }
    destruct (Hw Hfw) as (_ & _ & Hx). destruct (Hv Hf) as [Ht Hb]. rewrite length_app in Ht, Hb.
    split_and!; [done|done|]. rewrite Hu, Hx. lia.
  - intros Hx%He. rewrite Hu, Hx. lia.
Qed.

Lemma wp_common_integer f negative n w s :
  0 ≤ n < 2 ^ 64 → written w s →
  wp (COMMON_INTEGER_FORMAT negative n f) (λ _, written (w ++
    with_sign f negative (has (Type_ f) FormatPadZeros && negb (has (Type_ f) FormatGroupDigits)) (integer_reference f n))) s.
Proof using Type*.
  intros Hn Hw. unfold COMMON_INTEGER_FORMAT. rewrite integer_text_reference by done. cbv zeta.
  generalize (integer_reference f n). intros temp.
  set (pad := has (Type_ f) FormatPadZeros && _). rewrite sign_length, with_sign_eq.
  set (sign := sign_of f negative). set (c := Z.of_nat (length sign) + Z.of_nat (length temp)).
  assert (c = Z.of_nat (length sign + length temp)) as Hc by lia.
  set (zeros := zeros_of f pad (length sign + length temp)).
  assert ((if pad && (c <? Width f) then Width f - c else 0) = Z.of_nat (length zeros)) as Hz by (by apply zeros_length).
  enter_bind. apply (wp_ensure w (length (sign ++ zeros ++ temp))); [rewrite Hz, !length_app; lia|done|].
  intros s1 H1. enter_bind.
  assert (∀ s', writing (length w + length (sign ++ zeros ++ temp)) (w ++ sign ++ zeros ++ temp) (usedLength s) s' →
    wp (add_used ((Z.of_nat (length sign) + (if pad && (c <? Width f) then Width f - c else 0) + Z.of_nat (length temp)) * 2))
       (λ _, written (w ++ sign ++ zeros ++ temp)) s') as Hend.
  { intros s' H'. eapply wp_add_used; [done|]. intros s2 H2. eapply written_intro; [|done].
    rewrite Hz in H2. by same_used H2. }
  eapply wp_when_ok; [done| |].
  - intros Hf. enter_bind. eapply (wp_put_sign f); [done|done|done|fold sign; rewrite !length_app; lia|]. intros s2 H2. fold sign in H2.
    enter_bind. eapply wp_put_zeros; [done|done|done|fold zeros; rewrite !length_app; lia|]. intros s3 H3. fold zeros in H3.
    eapply wp_write; [done|done|rewrite !length_app; lia|]. intros s4 H4. rewrite <-!app_assoc in H4. by apply Hend.
  - intros Hf. apply Hend. by eapply writing_cut.
Qed.

Lemma grouped_from_cons sep c t :
  grouped sep (c :: t) = if ((length t) mod 3 =? 0)%nat && negb (length t =? 0)%nat then c :: sep :: grouped sep t else c :: grouped sep t.
Proof using Type.
  unfold grouped. destruct t as [|d t]; [done|].
  change (grouped_from sep 0 (c :: d :: t)) with
    (if ((length (d :: t) + 0) mod 3 =? 0)%nat then c :: sep :: grouped_from sep 0 (d :: t) else c :: grouped_from sep 0 (d :: t)).
  rewrite Nat.add_0_r. cbn [length Nat.eqb negb]. by rewrite andb_true_r.
Qed.

Lemma length_grouped sep t :
  Z.of_nat (length (grouped sep t)) =
    Z.of_nat (length t) + (if negb (Z.of_nat (length t) =? 0) then (Z.of_nat (length t) + 2) / 3 - 1 else 0).
Proof using Type.
  induction t as [|c t IH]; [done|]. rewrite grouped_from_cons.
  assert (((length t mod 3 =? 0)%nat && negb (length t =? 0)%nat) = (Z.of_nat (length t) mod 3 =? 0) && negb (Z.of_nat (length t) =? 0)) as ->.
  { f_equal; [|f_equal]; apply eq_bool_prop_intro; rewrite !Is_true_true, Nat.eqb_eq, Z.eqb_eq;
      [rewrite <-(Nat2Z.inj_mod _ 3)|]; lia. }
  cbn [length]. rewrite (proj2 (Z.eqb_neq (Z.of_nat (S (length t))) 0)) by lia. cbn [negb].
  destruct (Z.eqb_spec (Z.of_nat (length t) mod 3) 0), (Z.eqb_spec (Z.of_nat (length t)) 0); cbn [andb negb length] in *;
    rewrite ?Nat2Z.inj_succ, ?IH; Z.to_euclidean_division_equations; lia.
Qed.

Lemma wp_put_grouped t : ∀ n v x (Q : unit → FORMAT_STATE → Prop) s,
  writing n v x s → fits n = true → (length v + length (grouped PhpFormatThousandSeparator t) ≤ n)%nat →
  (∀ s', writing n (v ++ grouped PhpFormatThousandSeparator t) x s' → Q tt s') →
  wp (put_grouped t ((Z.of_nat (length t) + 2) mod 3)) Q s.
Proof using Type*.
  induction t as [|c t IH]; intros n v x Q s Hw Hf Hl HQ.
  { apply wp_ret, HQ. by rewrite app_nil_r. }
  rewrite grouped_from_cons in Hl, HQ. cbn [put_grouped]. cbn [length]. enter_bind.
  assert (((Z.of_nat (S (length t)) + 2) mod 3 =? 0) = (length t mod 3 =? 0)%nat) as ->.
  { apply eq_bool_prop_intro. rewrite !Is_true_true, Nat.eqb_eq, Z.eqb_eq.
    rewrite <-(Nat2Z.inj_iff (_ mod _)), Nat2Z.inj_mod. Z.to_euclidean_division_equations; lia. }
  assert ((Z.of_nat (length t) =? 0) = (length t =? 0)%nat) as ->.
  { apply eq_bool_prop_intro. rewrite !Is_true_true, Nat.eqb_eq, Z.eqb_eq. lia. }
  destruct ((length t mod 3 =? 0)%nat && negb (length t =? 0)%nat) eqn:E; cbn [length] in Hl.
  - eapply wp_write; [done|done|simpl; lia|]. intros s1 H1. enter_bind. eapply wp_write; [done|done|rewrite length_app; simpl; lia|].
    intros s2 H2. rewrite <-app_assoc in H2. apply andb_true_iff in E as [E%Nat.eqb_eq _].
    replace 2 with ((Z.of_nat (length t) + 2) mod 3).
    + eapply IH; [done|done|rewrite length_app; simpl in *; lia|]. intros s3 H3. apply HQ. by rewrite <-app_assoc in H3.
    + apply (f_equal Z.of_nat) in E. rewrite Nat2Z.inj_mod in E. Z.to_euclidean_division_equations; lia.
  - eapply wp_write; [done|done|simpl; lia|]. intros s1 H1. destruct t as [|d t]; [by apply wp_ret, HQ|].
    assert (length (d :: t) mod 3 ≠ 0)%nat as Hm.
    { intros Hm. apply Nat.eqb_eq in Hm. rewrite Hm in E. done. }
    replace (u32 _) with ((Z.of_nat (length (d :: t)) + 2) mod 3).
    + eapply IH; [done|done|rewrite length_app; simpl in *; lia|]. intros s3 H3. apply HQ. by rewrite <-app_assoc in H3.
    + rewrite <-(Nat2Z.inj_iff (_ mod _)), Nat2Z.inj_mod in Hm. rewrite u32_small; Z.to_euclidean_division_equations; lia.
Qed.

Lemma wp_finish v us n x s :
  writing n v x s → fits n = true → n = (length v + length us)%nat → x = 2 * Z.of_nat (length v) →
  wp (poke us ;; ADVANCE_BUFFER (Z.of_nat (length us) * 2)) (λ _, written (v ++ us)) s.
Proof using Type*.
  intros Hw Hf Hn Hx. enter_bind. eapply wp_poke; [done|done|lia|]. intros s' Hs Hu Ht Hb. eexists tt, _. split; [done|].
  subst n. unfold written. cbn. rewrite div_2. rewrite length_app in *. split_and!; [by eapply sound_frame| |]; intros _.
  - split_and!; [done|lia|lia].
  - lia.
Qed.

Lemma written_lost w n v x s : writing n v x s → fits n = false → n = length w → ¬ exact → written w s.
Proof using Type*. intros (Hs & _) Hf -> He. split_and!; [done|by rewrite Hf|done]. Qed.

Lemma written_used w k s : written w s → fits (length w + k) = true → usedLength s = 2 * Z.of_nat (length w).
Proof using Type*.
  intros (_ & Hw & _) Hf. apply Hw. destruct (fits (length w)) eqn:E; [done|].
  by rewrite (fits_mono (length w)) in Hf by (done || lia).
Qed.

Lemma positive_sign f negative : negative = false → (negb negative && has (Type_ f) FormatPrefixSign) = has (Type_ f) FormatPrefixSign.
Proof using Type. by intros ->. Qed.

(** Numbers whose rest is only counted when it is written. *)
Lemma wp_number f negative (pad : list Z) (m : fmt unit) rest w s (ensured counted : Z) :
  ¬ exact → written w s →
  ensured = Z.of_nat (length (sign_of f negative ++ pad ++ rest)) * 2 →
  counted = Z.of_nat (length (sign_of f negative ++ pad)) * 2 →
  (∀ n v x (Q : unit → FORMAT_STATE → Prop) s', writing n v x s' → fits n = true → (length v + length pad ≤ n)%nat →
    (∀ s2, writing n (v ++ pad) x s2 → Q tt s2) → wp m Q s') →
  wp (ENSURE_BUFFER ensured ;;
      when_ok (put_sign negative (negb negative && has (Type_ f) FormatPrefixSign) ;; m) ;;
      add_used counted ;;
      when_ok (poke rest ;; ADVANCE_BUFFER (Z.of_nat (length rest) * 2)))
     (λ _, written (w ++ sign_of f negative ++ pad ++ rest)) s.
Proof using Type*.
  intros He Hw -> -> Hm. set (sign := sign_of f negative). enter_bind.
  eapply (wp_ensure w (length (sign ++ pad ++ rest))); [done|done|]. intros s1 H1. enter_bind. eapply wp_when_ok; [done| |].
  - intros Hf. enter_bind. eapply (wp_put_sign f); [apply positive_sign|done|done|fold sign; rewrite !length_app; lia|].
    intros s2 H2. fold sign in H2. eapply Hm; [done|done|rewrite !length_app; lia|]. intros s3 H3. enter_bind.
    eapply wp_add_used; [done|]. intros s4 H4. eapply wp_when_ok; [done| |intros Hf'; congruence]. intros _.
    eapply wp_mono; [eapply wp_finish; [done|done|rewrite !length_app; lia|]|].
    + rewrite (written_used w _ s Hw Hf), !length_app. lia.
    + cbn beta. intros [] s5. by rewrite <-!app_assoc.
  - intros Hf. enter_bind. eapply wp_add_used; [done|]. intros s2 H2. eapply wp_when_ok; [done|intros Hf'; congruence|]. intros _.
    eapply written_lost; [done|done|by rewrite (length_app w)|done].
Qed.

Lemma span_until_app stop t a b : span_until stop t = (a, b) → t = a ++ b.
Proof using Type.
  revert a b. induction t as [|c t IH]; intros a b; cbn [span_until]; [by intros [= <- <-]|].
  destruct (stop c); [by intros [= <- <-]|]. destruct (span_until stop t) as [a' b']. intros [= <- <-].
  by rewrite (IH a' b').
Qed.

Lemma signed_length f negative :
  (if negative || (negb negative && has (Type_ f) FormatPrefixSign) then 1 else 0) = Z.of_nat (length (sign_of f negative)).
Proof using Type. unfold sign_of. destruct negative; [done|]. by destruct (has (Type_ f) FormatPrefixSign). Qed.

Lemma signed_size f negative :
  (if negative || (negb negative && has (Type_ f) FormatPrefixSign) then 2 else 0) = Z.of_nat (length (sign_of f negative)) * 2.
Proof using Type. rewrite <-(signed_length f negative). by case_match. Qed.

Lemma wp_common_double to_chars f w s :
  ¬ exact → written w s → wp (COMMON_DOUBLE_FORMAT to_chars f) (λ _, written (w ++ double_part to_chars f)) s.
Proof using Type*.
  intros He Hw. unfold COMMON_DOUBLE_FORMAT, double_part. cbv zeta. set (temp := double_text to_chars f).
  set (negative := match temp with c :: _ => c =? MINUS | [] => false end).
  generalize (if negative then tail temp else temp). intros t. pose proof (signed_length f negative) as Hsl.
  destruct (has (Type_ f) FormatGroupDigits && _).
  - destruct (span_until _ t) as [whole rest] eqn:Hsp. apply span_until_app in Hsp as ->.
    rewrite with_sign_eq. unfold zeros_of. rewrite app_nil_l.
    pose proof (length_grouped PhpFormatThousandSeparator whole) as Hg.
    rewrite length_app, Nat2Z.inj_add.
    replace (Z.of_nat (length whole) + Z.of_nat (length rest) - Z.of_nat (length whole)) with (Z.of_nat (length rest)) by lia.
    rewrite signed_size. apply wp_number; [done|done|rewrite !length_app; lia|rewrite length_app; lia|].
    intros. by eapply wp_put_grouped.
  - rewrite with_sign_eq, Hsl.
    assert (Z.of_nat (length (sign_of f negative)) + Z.of_nat (length t) = Z.of_nat (length (sign_of f negative) + length t)) as Hc by lia.
    pose proof (zeros_length f (has (Type_ f) FormatPadZeros) _ _ Hc) as Hz.
    apply wp_number; [done|done|rewrite Hz, !length_app; lia|rewrite Hz, length_app; lia|].
    intros. by eapply wp_put_zeros.
Qed.

Lemma wp_format_size f x w s :
  ¬ exact → 0 ≤ x < 2 ^ 64 → written w s → wp (format_size f x) (λ _, written (w ++ size_part f x)) s.
Proof using Type*.
  intros He Hx Hw. unfold format_size, size_part. destruct (x =? 0); [by apply wp_emit|]. cbv zeta.
  set (m := round_double x). set (max := if has (Type_ f) FormatUseRadix then Radix f else PhMaxSizeUnit).
  assert (0 ≤ size_unit 8 m max 0 ≤ 6) as Hi by (apply size_unit_range; [by apply round_double_range|lia]).
  set (i := size_unit 8 m max 0) in *. enter_bind. eapply wp_mono; [by apply wp_common_double|]. cbn beta. intros [] s1 H1.
  rewrite (list_lookup_lookup_total_lt size_unit_names) by (change (length size_unit_names) with 7%nat; lia).
  rewrite app_assoc. replace (nth (Z.to_nat i) size_unit_names []) with (size_unit_names !!! Z.to_nat i).
  - by apply wp_emit.
  - by rewrite nth_lookup, (list_lookup_lookup_total_lt size_unit_names) by (change (length size_unit_names) with 7%nat; lia).
Qed.

(** Integers of both signs, and of one, at any width up to 64 bits. *)
Lemma wp_signed f x y w s :
  - 2 ^ 63 ≤ x < 2 ^ 63 → (x < 0 → y = - x) → written w s →
  wp (if x <? 0 then COMMON_INTEGER_FORMAT true y f else COMMON_INTEGER_FORMAT false x f) (λ _, written (w ++ integer_part f x)) s.
Proof using Type*.
  intros Hx Hy Hw. unfold integer_part. destruct (Z.ltb_spec x 0).
  - rewrite Hy, Z.abs_neq by lia. apply wp_common_integer; [lia|done].
  - rewrite Z.abs_eq by lia. apply wp_common_integer; [lia|done].
Qed.

Lemma wp_unsigned f x w s :
  0 ≤ x < 2 ^ 64 → written w s → wp (COMMON_INTEGER_FORMAT false x f) (λ _, written (w ++ integer_part f x)) s.
Proof using Type*.
  intros Hx Hw. unfold integer_part. rewrite (proj2 (Z.ltb_ge x 0)), Z.abs_eq by lia. by apply wp_common_integer.
Qed.

Lemma wp_format_element f w s :
  valid f → (floating f → ¬ exact) → written w s → wp (format_element f) (λ _, written (w ++ element_text f)) s.
Proof using Type*.
  intros [_ Hv] He Hw. unfold format_element, element_text, floating in *. cbv zeta.
  destruct (u f) as [c|t|t|t|t|x|x|x|x|x] eqn:Hu.
  - rewrite Hv. by apply wp_emit.
  - rewrite Hv. by apply wp_emit.
  - rewrite Hv. by apply wp_emit.
  - rewrite Hv. by apply wp_emit_multi_byte.
  - assert (Type_ f ≠ MultiByteStringFormatType) as Hne by (intros E; by rewrite E in Hv).
    rewrite Hv, (proj2 (Z.eqb_neq _ _) Hne). by apply wp_emit_multi_byte.
  - destruct Hv as [[Ht Hx]|[Ht Hx]]; rewrite Ht.
    + apply (wp_signed f x (u32 (- x))); [lia|intros; apply u32_small; lia|done].
    + pose proof (wp_unsigned f x w s ltac:(lia) Hw) as Hgoal. by rewrite <-(u32_small x) in Hgoal at 1 by done.
  - destruct Hv as [[Ht Hx]|[Ht Hx]].
    + pose proof (wp_signed f x (u64 (- x)) w s Hx ltac:(intros; apply Z.mod_small; lia) Hw) as Hgoal.
      by destruct Ht as [Ht|Ht]; rewrite Ht.
    + pose proof (wp_unsigned f x w s Hx Hw) as Hgoal. rewrite <-(Z.mod_small x (2 ^ 64)) in Hgoal at 1 by done.
      by destruct Ht as [Ht|Ht]; rewrite Ht.
  - rewrite Hv. apply wp_common_double; auto.
  - rewrite Hv. apply wp_common_double; auto.
  - destruct Hv as [Ht Hx]. rewrite Ht. apply wp_format_size; auto.
Qed.

Lemma has_lor x a b : has x (Z.lor a b) = has x a || has x b.
Proof using Type.
  unfold has. rewrite Z.land_lor_distr_r. apply eq_bool_prop_intro.
  rewrite !Is_true_true, orb_true_iff, !negb_true_iff, !Z.eqb_neq. split.
  - intros Hne. destruct (Z.eq_dec (Z.land x a) 0) as [E|]; [|by left]. right. intros E'. apply Hne. by rewrite E, E'.
  - intros Hor [??]%Z.lor_eq_0_iff. by destruct Hor.
Qed.

(** Moving the last [length t] units of the text up, and filling the gap. *)
Lemma wp_shift w t pad (Q : unit → FORMAT_STATE → Prop) x s :
  writing (length w + length t + length pad) (w ++ t) x s → fits (length w + length t + length pad) = true →
  (∀ s', sound s' (length w + length t + length pad) → usedLength s' = x → buffer s' = Z.of_nat (length w + length t) →
    take (length w + length t + length pad) (memory s') = w ++ pad ++ t → Q tt s') →
  wp (move (Z.of_nat (length w) + Z.of_nat (length pad)) (Z.of_nat (length w)) (Z.of_nat (length t)) ;;
      fill (Z.of_nat (length w)) pad) Q s.
Proof using Type*.
  intros (Hs & Hu & Hv) Hf HQ. destruct (Hv Hf) as [Ht Hb]. pose proof (sound_room s _ Hs Hf) as Hr.
  rewrite length_app in Ht, Hb. enter_bind.
  assert (take (length t) (drop (length w) (memory s)) = t) as Htake.
  { rewrite <-(take_drop (length w + length t) (memory s)), Ht, <-app_assoc, drop_app_length.
    by rewrite take_app_length. }
  assert (take (length w) (memory s) = w) as Hw.
  { rewrite <-(take_drop (length w + length t) (memory s)), Ht, <-app_assoc. by rewrite take_app_length. }
  unfold move. eexists tt, _. rewrite (proj2 (Z.leb_le _ _)), (proj2 (Z.leb_le _ _)), !Nat2Z.id, Htake by lia. cbn [andb].
  rewrite store_ok by lia. split; [done|]. unfold fill. eexists tt, _. cbn. rewrite store_ok; cycle 1.
  { lia. }
  { rewrite !length_app, length_take, length_drop. lia. }
  split; [done|]. apply HQ; cbn.
  - eapply sound_frame; [done| |done|done]. cbn.
    repeat rewrite ?length_app, ?length_take, ?length_drop. lia.
  - done.
  - by rewrite Hb, Nat2Z.inj_add.
  - set (k := Z.to_nat (Z.of_nat (length w) + Z.of_nat (length pad))). assert (k = length w + length pad)%nat as -> by lia.
    rewrite !Nat2Z.id. rewrite (take_app_le _ _ (length w)) by (rewrite length_take; lia).
    rewrite take_take, Nat.min_l, Hw by lia.
    rewrite drop_app_ge by (rewrite length_take; lia). rewrite length_take, Nat.min_l by lia.
    replace (length w + length pad - (length w + length pad))%nat with 0%nat by lia. rewrite drop_0.
    rewrite !app_assoc. rewrite take_app_le by (rewrite !length_app; lia). rewrite take_ge by (rewrite !length_app; lia).
    by rewrite <-app_assoc.
Qed.

Lemma written_advance w t k x s s' :
  written w s' → sound s (length w + length t) → usedLength s = usedLength s' → k = Z.of_nat (length t) * 2 → x = k / 2 →
  (fits (length w + length t) = true →
    take (length (w ++ t)) (memory s) = w ++ t ∧ buffer s = Z.of_nat (length w)) →
  written (w ++ t) (FormatState (memory s) (allocatedLength s) (overrun s) (buffer s + x) (usedLength s + k)).
Proof using Type*.
  intros Hw Hs Hu -> -> Hv. rewrite div_2. apply (written_intro w t s'); [|done]. split_and!; cbn; [by eapply sound_frame|lia|].
  intros Hf. destruct (Hv Hf) as [Ht Hb]. split; [done|]. rewrite length_app. lia.
Qed.

Lemma aligned_short f t : (Z.to_nat (Width f) ≤ length t)%nat → aligned f t = t.
Proof using Type.
  intros Hl. unfold aligned. replace (Z.to_nat (Width f) - length t)%nat with 0%nat by lia. rewrite app_nil_r. by repeat case_match.
Qed.

(** Padding on either side, once the room for it is ensured. *)
Lemma wp_pad (left : bool) w t pad x s s0 :
  writing (length (w ++ t) + length pad) (w ++ t) x s → x = usedLength s0 → written (w ++ t) s0 →
  wp (when_ok (if left then poke pad
               else s ← get_st;
                    let start := buffer s - Z.of_nat (length t) * 2 / 2 in
                    move (start + Z.of_nat (length pad)) start (Z.of_nat (length t) * 2 / 2) ;;
                    fill start pad) ;;
      ADVANCE_BUFFER (Z.of_nat (length pad) * 2))
     (λ _, written (w ++ if left then t ++ pad else pad ++ t)) s.
Proof using Type*.
  intros H1 -> Hw. enter_bind. rewrite !div_2. eapply wp_when_ok; [done| |].
  - intros Hf. destruct left.
    + eapply wp_poke; [done|done|lia|]. intros s2 Hs2 Hu2 Ht2 Hb2. eexists tt, _. split; [reflexivity|].
      rewrite app_assoc. rewrite div_2. eapply written_advance; [done|done|done|done|by rewrite div_2|done].
    + enter_bind. apply wp_get.
      assert (buffer s = Z.of_nat (length (w ++ t))) as -> by (by apply H1).
      cbv zeta. rewrite length_app, Nat2Z.inj_add in *.
      replace (Z.of_nat (length w) + Z.of_nat (length t) - Z.of_nat (length t)) with (Z.of_nat (length w)) by lia.
      apply (wp_shift w t pad _ (usedLength s0)); [done|done|]. intros s2 Hs2 Hu2 Hb2 Ht2. eexists tt, _. split; [reflexivity|].
      destruct Hw as (_ & Hw & Hx). unfold written. cbn. rewrite !length_app in *.
      replace (length w + (length pad + length t))%nat with (length w + length t + length pad)%nat by lia.
      rewrite div_2. split_and!; [by eapply sound_frame| |].
      * intros _. assert (fits (length w + length t) = true) as Hfw.
        { destruct (fits (length w + length t)) eqn:E; [done|].
          by rewrite (fits_mono (length w + length t)) in Hf by (done || lia). }
        destruct (Hw Hfw) as (_ & _ & Hu). split_and!; [done|lia|lia].
      * intros Hex. rewrite Hu2, (Hx Hex). lia.
  - intros Hf. eexists tt, _. split; [reflexivity|]. destruct H1 as (Hs1 & Hu1 & _). destruct Hw as (_ & _ & Hx).
    assert (length (w ++ if left then t ++ pad else pad ++ t) = length (w ++ t) + length pad)%nat as Hl.
    { destruct left; rewrite !length_app; lia. }
    unfold written. cbn. rewrite Hl. split_and!; [by eapply sound_frame|by rewrite Hf|].
    intros Hex. rewrite Hu1, (Hx Hex). lia.
Qed.

Lemma wp_format_align f p w t s :
  written (w ++ t) s → 0 ≤ Width f → (fits (length (w ++ t)) = true → p = Z.of_nat (length t) * 2) →
  (exact → p = Z.of_nat (length t) * 2) →
  wp (format_align f p) (λ _, written (w ++ aligned f t)) s.
Proof using Type*.
  intros Hw HW Hp He. unfold format_align. rewrite has_lor.
  destruct (has (Type_ f) FormatLeftAlign || has (Type_ f) FormatRightAlign) eqn:Ha.
  2:{ apply wp_ret. unfold aligned. apply orb_false_iff in Ha as [-> ->]. done. }
  cbv zeta. destruct (decide (p = Z.of_nat (length t) * 2)) as [->|Hne].
  - destruct (Z.ltb_spec (Z.of_nat (length t) * 2) (Width f * 2)) as [Hlt|Hge].
    2:{ apply wp_ret. by rewrite aligned_short by lia. }
    set (n := (Z.to_nat (Width f) - length t)%nat).
    set (c := if has (Type_ f) FormatUsePad then Pad f else SPACE).
    assert (aligned f t = if has (Type_ f) FormatLeftAlign then t ++ replicate n c else replicate n c ++ t) as ->.
    { unfold aligned. fold n c. destruct (has (Type_ f) FormatLeftAlign); [done|]. by cbn [orb] in Ha; rewrite Ha. }
    replace (Width f * 2 - Z.of_nat (length t) * 2) with (Z.of_nat (length (replicate n c)) * 2) by (rewrite length_replicate; lia).
    rewrite div_2, Nat2Z.id, length_replicate. pose proof (length_replicate n c) as Hpad.
    generalize dependent (replicate n c). clearbody n. intros pad <-.
    enter_bind. apply (wp_ensure (w ++ t) (length pad)); [done|done|]. intros s1 H1.
    by eapply wp_pad.
  - assert (fits (length (w ++ t)) = false) as Hf by (destruct (fits (length (w ++ t))); auto; by destruct Hne; auto).
    assert (¬ exact) as Hex by auto. destruct Hw as (Hs & _ & _).
    assert (sound s (length (w ++ aligned f t)) ∧ fits (length (w ++ aligned f t)) = false) as [Hs' Hf'].
    { assert (length (w ++ t) ≤ length (w ++ aligned f t))%nat.
      { rewrite !length_app. unfold aligned. repeat case_match; rewrite ?length_app; lia. }
      split; [by eapply sound_more|by eapply fits_mono]. }
    assert (OK_BUFFER s = false) as Hok by (by rewrite (sound_ok s _ Hs)).
    destruct (p <? Width f * 2); [|apply wp_ret; split_and!; [done|by rewrite Hf'|done]].
    enter_bind. eexists tt, s. split; [by apply ensure_stop|]. enter_bind. unfold when_ok. enter_bind. apply wp_get. rewrite Hok.
    apply wp_ret. eexists tt, _. split; [reflexivity|]. split_and!; cbn; [by eapply sound_frame|by rewrite Hf'|done].
Qed.

Lemma wp_format_part f w s :
  valid f → (floating f → ¬ exact) → written w s → wp (format_part f) (λ _, written (w ++ part_text f)) s.
Proof using Type*.
  intros Hv He Hw. unfold format_part. enter_bind. apply wp_get. cbv zeta. enter_bind.
  eapply wp_mono; [by apply wp_format_element|]. cbn beta. intros [] s1 H1. enter_bind. apply wp_get.
  apply wp_format_align; [done|by apply Hv| |].
  - intros Hf. destruct H1 as (_ & H1 & _). destruct (H1 Hf) as (_ & _ & ->).
    rewrite length_app in Hf. rewrite (written_used w _ s Hw Hf), length_app. lia.
  - intros Hex. destruct H1 as (_ & _ & H1), Hw as (_ & _ & Hx). rewrite H1, Hx, length_app by done. lia.
Qed.

Lemma wp_format_parts fs : ∀ w s,
  Forall valid fs → (exact → Forall (λ f, ¬ floating f) fs) → written w s →
  wp (format_parts fs) (λ _, written (w ++ text_of fs)) s.
Proof using Type*.
  induction fs as [|f fs IH]; intros w s Hv He Hw.
  { apply wp_ret. unfold text_of. cbn. by rewrite app_nil_r. }
  apply Forall_cons in Hv as [Hv Hvs]. cbn [format_parts]. enter_bind.
  eapply wp_mono; [apply wp_format_part; [done| |done]|].
  { intros Hfl Hex. specialize (He Hex). by apply Forall_cons in He as [? _]. }
  cbn beta. intros [] s1 H1. change (text_of (f :: fs)) with (part_text f ++ text_of fs). rewrite app_assoc.
  apply IH; [done| |done]. intros Hex. specialize (He Hex). by apply Forall_cons in He as [_ ?].
Qed.
End Laws.
