(* ===== verification/FormatTheorems.v ===== *)
(** The theorems about formatted strings and about integers and bytes as text:
    the two buffers satisfy the engine's interface, so both functions produce the
    reference text; reading undoes writing. *)

From S2P Require Import Prelude IntegerText IntegerTextTheorems Format FormatFacts.

(** ** The two buffers *)

(** A string that grows: everything fits. *)
#[export] Instance string_laws `{Environment} : BufferLaws string_buffer.
Proof.
  refine {|
    fits := λ _, true;
    sound := λ s n, length (memory s) = (Z.to_nat (allocatedLength s / 2) + 1)%nat ∧ 2 * Z.of_nat n ≤ allocatedLength s
  |}.
  - done.
  - done.
  - intros s n [-> Hn] _. Z.to_euclidean_division_equations; lia.
  - intros s s' n [Hl Hn] -> -> _. done.
  - done.
  - done.
  - intros s n k [Hl Hn] _ Hb Hu. cbn [ENSURE_BUFFER string_buffer]. enter_bind. apply wp_get.
    destruct (Z.ltb_spec (allocatedLength s) (usedLength s + 2 * Z.of_nat k)).
    2:{ apply wp_ret. split_and!; [done|lia|done|done|done]. }
    assert (usedLength s / 2 = Z.of_nat n) as Hd by (rewrite Hu, Z.mul_comm; by apply Z.div_mul).
    unfold PhpResizeFormatBuffer. eexists tt, _. cbv beta zeta. rewrite Hd, Nat2Z.id, (proj2 (Z.leb_le _ _)) by (rewrite Hl; Z.to_euclidean_division_equations; lia).
    set (a := Z.max _ _). assert (2 * Z.of_nat (n + k) ≤ a) by lia.
    assert (n ≤ length (memory s))%nat by (rewrite Hl; Z.to_euclidean_division_equations; lia).
    assert (length (new_string a) = Z.to_nat (a / 2) + 1)%nat as Hnew by (unfold new_string; by rewrite length_replicate).
    assert (n + k ≤ length (new_string a))%nat.
    { rewrite Hnew. Z.to_euclidean_division_equations; lia. }
    rewrite store_ok by (rewrite ?length_take; lia). split; [done|]. change (Z.to_nat 0) with 0%nat. rewrite take_0, app_nil_l.
    cbn [memory allocatedLength usedLength buffer]. split_and!.
    + rewrite length_app, length_drop, length_take. fold a. rewrite Hnew. lia.
    + lia.
    + done.
    + done.
    + intros _. rewrite take_app_le by (rewrite length_take; lia). by rewrite take_take, Nat.min_id.
Defined.

(** The caller's buffer of [L] bytes, or NULL. *)
#[export] Instance fixed_laws (null : bool) (L : Z) : BufferLaws fixed_buffer.
Proof.
  refine {|
    fits := λ n, negb null && (2 * Z.of_nat n <=? L);
    sound := λ s n, overrun s = negb (negb null && (2 * Z.of_nat n <=? L)) ∧ allocatedLength s = L ∧
      (null = false → length (memory s) = Z.to_nat (L / 2))
  |}.
  - intros n m Hnm. destruct null; [done|]. cbn [negb andb]. rewrite !Z.leb_gt. lia.
  - intros s n (Ho & _). cbn. by rewrite Ho, negb_involutive.
  - intros s n (_ & _ & Hl) [Hn Hf]%andb_true_iff. destruct null; [done|]. rewrite Hl by done. apply Z.leb_le in Hf.
    Z.to_euclidean_division_equations; lia.
  - intros s s' n (Ho & Ha & Hl) -> -> ->. done.
  - intros s n m (Ho & Ha & Hl) Hf Hnm. split_and!; [|done|done]. rewrite Ho. f_equal. rewrite Hf.
    destruct null; [done|]. cbn [negb andb] in *. symmetry. apply Z.leb_gt in Hf. apply Z.leb_gt. lia.
  - intros s x Hok. cbn in *. apply negb_false_iff in Hok. destruct s as [m a o b u]. cbn in *. by rewrite Hok.
  - intros s n k (Ho & Ha & Hl) Hf Hb Hu. eexists tt, _. split; [reflexivity|]. cbn. split_and!; try done.
    rewrite Ho, Hf. cbn [negb orb]. apply andb_true_iff in Hf as [Hn _]. rewrite Hn, Ha, Hu. cbn [andb].
    rewrite <-Z.ltb_antisym. apply eq_bool_prop_intro. rewrite !Is_true_true, !Z.ltb_lt. lia.
Defined.

(** ** Strings *)

Lemma format_string `{Environment} `{!EnvironmentLaws} SMALL_BUFFER_LENGTH fs InitialCapacity :
  0 ≤ SMALL_BUFFER_LENGTH → Forall valid fs → PhFormat SMALL_BUFFER_LENGTH fs InitialCapacity = Some (text_of fs).
Proof.
  intros Hs Hv. unfold PhFormat. set (c := Z.max _ _).
  destruct (wp_format_parts (B := string_buffer) False fs [] (FormatState (new_string c) c false 0 0) Hv) as (r & s & -> & Hsound & Hw & _).
  - done.
  - split_and!; [|done|done]. cbn. unfold new_string. rewrite length_replicate. split; [done|lia].
  - cbn [app] in *. destruct Hsound as [Hl Hn]. destruct (Hw eq_refl) as (Ht & Hb & Hu).
    assert (usedLength s / 2 = Z.of_nat (length (text_of fs))) as -> by (rewrite Hu, Z.mul_comm; by apply Z.div_mul).
    rewrite store_ok by (cbn [length]; Z.to_euclidean_division_equations; lia). rewrite Nat2Z.id.
    by rewrite Ht, take_app_length.
Qed.

(** The result, the buffer and the length that [PhFormatToBuffer] gives. *)
Definition formatted `{Environment} (fs : list PH_FORMAT) (L : Z) (null : bool) (r : bool * list Z * Z) : Prop :=
  let t := text_of fs in
  let '(b, m, n) := r in
  b = negb null && (2 * Z.of_nat (length t) + 2 <=? L) ∧
  (null = false → length m = Z.to_nat (L / 2)) ∧
  (b = true → take (length t + 1) m = t ++ [0]) ∧
  (b = false → null = false → 0 < L → head m = Some 0) ∧
  (b = true ∨ Forall (λ f, ¬ floating f) fs → n = 2 * Z.of_nat (length t) + 2).

Lemma format_to_buffer `{Environment} `{!EnvironmentLaws} fs Buffer L :
  Forall valid fs → match Buffer with Some m => length m = Z.to_nat (L / 2) | None => True end → 0 ≤ L → L ≠ 1 →
  ∃ r, PhFormatToBuffer fs Buffer L = Some r ∧ formatted fs L (match Buffer with Some _ => false | None => true end) r.
Proof.
  intros Hv Hm HL HL1. unfold PhFormatToBuffer. set (null := match Buffer with Some _ => false | None => true end).
  set (m := match Buffer with Some m => m | None => [] end). set (exact := Forall (λ f, ¬ floating f) fs).
  pose (laws := fixed_laws null L).
  destruct (wp_format_parts (B := fixed_buffer) exact fs [] (FormatState m L null 0 0) Hv) as (? & s & Hr & Hw).
  - done.
  - split_and!.
    + cbn [sound laws fixed_laws overrun allocatedLength memory length]. change (2 * Z.of_nat 0) with 0.
      rewrite (proj2 (Z.leb_le 0 L)) by done. rewrite andb_true_r, negb_involutive. split_and!; [done|done|].
      unfold null, m. by destruct Buffer.
    + done.
    + done.
  - cbn [app] in Hw. unfold mbind, ST_bind. rewrite Hr.
    destruct (wp_ensure (B := fixed_buffer) exact (text_of fs) 1 (λ _ s', writing (B := fixed_buffer) (length (text_of fs) + 1) (text_of fs) (usedLength s) s') s 2)
      as ([] & s' & -> & Hs & Hu & Hb); [done|done|done|].
    destruct Hs as (Ho & Ha & Hl). rewrite Ho, negb_involutive.
    replace (2 * Z.of_nat (length (text_of fs) + 1)) with (2 * Z.of_nat (length (text_of fs)) + 2) in * by lia.
    cbn [fits laws fixed_laws] in Hb. replace (2 * Z.of_nat (length (text_of fs) + 1)) with (2 * Z.of_nat (length (text_of fs)) + 2) in Hb by lia.
    destruct (negb null && (2 * Z.of_nat (length (text_of fs)) + 2 <=? L)) eqn:Hf.
    + destruct (Hb eq_refl) as [Ht Hbuf]. apply andb_true_iff in Hf as Hf'. destruct Hf' as [Hn Hle%Z.leb_le].
      apply negb_true_iff in Hn. pose proof (Hl Hn) as Hlen.
      assert (length (text_of fs) + 1 ≤ length (memory s'))%nat by (rewrite Hlen; Z.to_euclidean_division_equations; lia).
      rewrite Hbuf, store_ok by (cbn [length]; lia). rewrite Nat2Z.id, Ht. eexists. split; [done|]. unfold formatted. rewrite Hf.
      split_and!; [done| | |done|].
      * intros _. rewrite length_app. cbn [length app]. rewrite length_drop. lia.
      * intros _. rewrite (cons_middle 0), app_assoc. rewrite take_app_le by (rewrite length_app; cbn; lia).
        rewrite take_ge; [done|]. rewrite length_app. cbn. lia.
      * intros _. rewrite Hu. pose proof (written_used (B := fixed_buffer) exact (text_of fs) 0 s Hw) as Hused.
        rewrite Hused; [lia|]. cbn. rewrite Nat.add_0_r, Hn. apply Z.leb_le. lia.
    + assert (∀ n, (false = true ∨ exact → n = usedLength s' + 2 → n = 2 * Z.of_nat (length (text_of fs)) + 2)) as Hlast.
      { intros n [?|He] ->; [done|]. destruct Hw as (_ & _ & Hx). rewrite Hu, (Hx He). lia. }
      destruct (negb null && negb (L =? 0)) eqn:Hn.
      * apply andb_true_iff in Hn as [Hn%negb_true_iff HL0%negb_true_iff%Z.eqb_neq]. pose proof (Hl Hn) as Hlen.
        assert (1 ≤ length (memory s'))%nat by (rewrite Hlen; Z.to_euclidean_division_equations; lia).
        rewrite store_ok by (cbn [length]; lia). eexists. split; [done|]. unfold formatted. rewrite Hf. split_and!; try done.
        -- intros _. rewrite !length_app, length_take, length_drop. cbn [length]. lia.
        -- intros He. by apply Hlast.
      * eexists. split; [done|]. unfold formatted. rewrite Hf. split_and!; try done.
        -- intros _ Hnull HL0. rewrite Hnull in Hn. cbn in Hn. apply negb_false_iff, Z.eqb_eq in Hn. lia.
        -- intros He. by apply Hlast.
Qed.

(** ** Integers *)

Definition base_of (Base : Z) : Z := if Base =? 0 then 10 else Base.

Lemma integer_to_string `{Environment} `{!EnvironmentLaws} SMALL_BUFFER_LENGTH Integer Base Signed :
  0 ≤ SMALL_BUFFER_LENGTH → 0 ≤ Base ≤ 69 → Base ≠ 1 → - 2 ^ 63 ≤ Integer < 2 ^ 63 →
  let v := if Signed : bool then Integer else u64 Integer in
  PhIntegerToString64 SMALL_BUFFER_LENGTH Integer Base Signed =
    Some (Some ((if v <? 0 then [MINUS] else []) ++ map (integer_to_char PhIntegerToChar) (digits (base_of Base) (Z.abs v)))).
Proof.
  intros Hs HB HB1 Hx v. unfold PhIntegerToString64. rewrite (proj2 (Z.eqb_neq Base 1)) by done.
  rewrite Z.gtb_ltb, (proj2 (Z.ltb_ge 69 Base)) by lia. cbn [orb]. cbv zeta.
  set (f := if negb (Base =? 0) then _ else _).
  assert (∃ t r, f = Format t 0 0 0 r (Int64 v) ∧
    (t = Int64FormatType ∧ Signed = true ∧ Base = 0 ∨ t = UInt64FormatType ∧ Signed = false ∧ Base = 0 ∨
     t = Z.lor Int64FormatType FormatUseRadix ∧ Signed = true ∧ Base ≠ 0 ∧ r = Base ∨
     t = Z.lor UInt64FormatType FormatUseRadix ∧ Signed = false ∧ Base ≠ 0 ∧ r = Base)) as (t & r & Hf & Ht).
  { unfold f, v. destruct (Z.eqb_spec Base 0), Signed; eexists _, _; (split; [reflexivity|]); naive_solver. }
  rewrite Hf. clearbody f. rewrite format_string; [|done|]; cycle 1.
  { constructor; [|constructor]. unfold valid. cbn [Width u Type_]. split; [done|]. unfold v in *.
    assert (0 ≤ u64 Integer < 2 ^ 64) by (apply Z.mod_pos_bound; lia).
    destruct Ht as [(-> & -> & _)|[(-> & -> & _)|[(-> & -> & _)|(-> & -> & _)]]]; (left + right; split; [by left|lia]). }
  do 2 f_equal. unfold text_of. cbn [map concat]. rewrite app_nil_r. unfold part_text, element_text. cbn [u].
  unfold aligned, integer_part, with_sign, integer_reference, group_if, table_of. cbn [Type_ Width].
  assert (radix_of (Format t 0 0 0 r (Int64 v)) = base_of Base) as ->.
  { unfold radix_of, base_of. cbn [Type_ Radix].
    destruct Ht as [(-> & _ & ->)|[(-> & _ & ->)|[(-> & _ & HB0 & ->)|(-> & _ & HB0 & ->)]]]; try done;
      rewrite (proj2 (Z.eqb_neq Base 0)) by done; change (has _ FormatUseRadix) with true;
      rewrite (proj2 (Z.leb_le 2 Base)), (proj2 (Z.leb_le Base 69)) by lia; done. }
  by destruct Ht as [(-> & _)|[(-> & _)|[(-> & _)|(-> & _)]]].
Qed.

Lemma digits_spec radix n : 2 ≤ radix → 0 ≤ n < 2 ^ 64 →
  value_from radix 0 (digits radix n) = n ∧ Forall (λ d, 0 ≤ d < radix) (digits radix n) ∧
  (0 < n → ∃ d ds, digits radix n = d :: ds ∧ d ≠ 0).
Proof. intros Hr Hn. by apply (digits_fuel_value 64). Qed.

Lemma read_digits radix ds : radix ≤ 69 → Forall (λ d, 0 ≤ d < radix) ds →
  PhpStringToInteger64 (map (integer_to_char PhIntegerToChar) ds) radix = (true, u64 (value_from radix 0 ds)).
Proof.
  intros Hr Hds. rewrite string_to_integer_eq.
  assert (map char_to_integer (map (integer_to_char PhIntegerToChar) ds) = ds) as Hm.
  { rewrite map_map. rewrite <-(map_id ds) at 2. apply map_ext_in. intros d Hd%list_elem_of_In.
    rewrite Forall_forall in Hds. apply char_of_digit. specialize (Hds d Hd). cbn in Hds. lia. }
  rewrite Hm, filter_all by (intros d Hd; rewrite Forall_forall in Hds; specialize (Hds d Hd); cbn in Hds; lia).
  f_equal. apply forallb_forall. intros c Hc. rewrite <-list_elem_of_In in Hc. apply Z.ltb_lt.
  apply list_elem_of_fmap in Hc as (d & -> & Hd). rewrite Forall_forall in Hds. specialize (Hds d Hd). cbn in Hds.
  rewrite (proj1 (char_of_digit d ltac:(lia))). lia.
Qed.

(** Below 47, the digits are no signs; the first two digits are no prefix. *)
Lemma digit_no_sign d : 0 ≤ d < 47 → integer_to_char PhIntegerToChar d ≠ MINUS ∧ integer_to_char PhIntegerToChar d ≠ PLUS.
Proof.
  intros Hd. rewrite <-!Z.eqb_neq, <-!negb_true_iff, <-andb_true_iff.
  apply (all_from_spec (λ d, negb (integer_to_char PhIntegerToChar d =? MINUS) && negb (integer_to_char PhIntegerToChar d =? PLUS)) 47 0);
    [by vm_compute|lia].
Qed.

Lemma decimal_no_prefix d : 0 ≤ d < 10 → prefix_base (integer_to_char PhIntegerToChar d) = 10.
Proof.
  intros Hd. apply Z.eqb_eq.
  apply (all_from_spec (λ d, prefix_base (integer_to_char PhIntegerToChar d) =? 10) 10 0); [by vm_compute|lia].
Qed.

Lemma skip_prefix_digits Base ds : 0 ≤ Base → Forall (λ d, 0 ≤ d < base_of Base) ds →
  skip_prefix Base (map (integer_to_char PhIntegerToChar) ds) = (base_of Base, map (integer_to_char PhIntegerToChar) ds).
Proof.
  intros HB Hds. unfold skip_prefix, base_of in *. destruct (Z.eqb_spec Base 0) as [->|]; [|done]. cbn [negb].
  destruct ds as [|d0 [|d1 ds]]; [done..|]. cbn [map].
  apply Forall_cons in Hds as [_ Hds]. apply Forall_cons in Hds as [H1 _].
  rewrite decimal_no_prefix by done. by destruct (_ =? 48).
Qed.

Lemma skip_sign_digits ds k : k ≤ 47 → Forall (λ d, 0 ≤ d < k) ds →
  skip_sign (map (integer_to_char PhIntegerToChar) ds) = (false, map (integer_to_char PhIntegerToChar) ds).
Proof.
  intros Hk Hds. destruct ds as [|d ds]; [done|]. apply Forall_cons in Hds as [Hd _]. cbn [map skip_sign].
  destruct (digit_no_sign d ltac:(lia)) as [H1 H2]. unfold MINUS, PLUS in *. by rewrite (proj2 (Z.eqb_neq _ _) H1), (proj2 (Z.eqb_neq _ _) H2).
Qed.

Lemma i64_small x : - 2 ^ 63 ≤ x < 2 ^ 63 → i64 x = x.
Proof. intros. unfold i64. rewrite Z.mod_small; lia. Qed.

Lemma i64_neg_mod x : 0 < x ≤ 2 ^ 63 → i64 (- i64 x) = - x.
Proof.
  intros Hx. destruct (Z.eq_dec x (2 ^ 63)) as [->|]; [done|]. rewrite (i64_small x) by lia. apply i64_small. lia.
Qed.

(** The inputs of the witnesses need an environment: texts of rational numbers,
    rounded down, and byte strings widened to UTF-16. *)
Definition rational_text (x : Z * Z) (_ : chars_format) (Precision : Z) : list Z :=
  let '(m, d) := x in
  map (integer_to_char PhIntegerToChar) (digits 10 (m / d)) ++
  if Precision =? 0 then []
  else
    let s := map (integer_to_char PhIntegerToChar) (digits 10 ((m mod d) * 10 ^ Precision / d)) in
    DOT :: replicate (Z.to_nat Precision - length s) ZERO ++ s.

Definition rationals : Environment := {|
  FLOAT := Z * Z;
  DOUBLE := Z * Z;
  size_double m i := (m, 1024 ^ i);
  to_chars_single := rational_text;
  to_chars_double := rational_text;
  RtlMultiByteToUnicodeSize s := Some (Z.of_nat (length s) * 2);
  RtlMultiByteToUnicodeN s := Some s;
  PhpFormatDecimalSeparator := DOT;
  PhpFormatThousandSeparator := 44;
  PhpFormatUserLocale := false;
  PhMaxSizeUnit := ULONG_MAX;
  uninitialized := 0xcccc
|}.

Lemma rationals_laws : EnvironmentLaws (H := rationals).
Proof. done. Qed.

(** ** Properties *)

(** C8. [PhFormat] never writes outside its string, whatever the initial capacity
    and however often it grows, and returns the texts of the elements one after
    the other: characters and strings as they are; integers with sign, padding and
    separators; numbers and sizes as [std::to_chars] gives them, cropped, grouped
    and padded; each aligned to its width. *)
Theorem format_returns_text `{Environment} `{!EnvironmentLaws} (SMALL_BUFFER_LENGTH : Z) (fs : list PH_FORMAT) (InitialCapacity : Z) :
  0 ≤ SMALL_BUFFER_LENGTH → Forall valid fs → PhFormat SMALL_BUFFER_LENGTH fs InitialCapacity = Some (text_of fs).
Proof. apply format_string. Qed.

(** The elements "total: ", -1234567 with separators in a field of 12, "," and
    1.5 MB. *)
Definition sample_elements : list (PH_FORMAT (H := rationals)) := [
  Format StringFormatType 0 0 0 0 (String_ [116; 111; 116; 97; 108; 58; 32]);
  Format (Z.lor Int64FormatType (Z.lor FormatGroupDigits FormatRightAlign)) 0 12 0 0 (Int64 (-1234567));
  Format CharFormatType 0 0 0 0 (Char 44);
  Format SizeFormatType 0 0 0 0 (Size 1572864)
].

Lemma sample_elements_valid : Forall (valid (H := rationals)) sample_elements.
Proof.
  unfold sample_elements. repeat (apply Forall_cons; split); [..|by constructor]; (split; [cbn; lia|]); cbn [u]; try done.
  - left. split; [by left|lia].
Qed.

Lemma format_returns_text_witness :
  PhFormat (H := rationals) 100 sample_elements 0 =
    Some ([116; 111; 116; 97; 108; 58; 32] ++ [32; 32; 45; 49; 44; 50; 51; 52; 44; 53; 54; 55] ++ [44] ++ [49; 46; 53; 32; 77; 66]).
Proof.
  pose proof (format_returns_text (H := rationals) (H0 := rationals_laws) 100 sample_elements 0) as Hf.
  rewrite Hf; [by vm_compute|lia|exact sample_elements_valid].
Defined.

Lemma format_one_byte `{Environment} `{!EnvironmentLaws} (fs : list PH_FORMAT) : Forall valid fs → PhFormatToBuffer fs (Some []) 1 = None.
Proof.
  intros Hv. unfold PhFormatToBuffer. pose (laws := fixed_laws false 1).
  destruct (wp_format_parts (B := fixed_buffer) False fs [] (FormatState [] 1 false 0 0) Hv) as (? & s' & Hr & (Ho & Ha & Hl) & Hw & _).
  - done.
  - split_and!; done.
  - specialize (Hl eq_refl). apply nil_length_inv in Hl. cbn [app] in *. unfold mbind, ST_bind. rewrite Hr.
    cbn [ENSURE_BUFFER fixed_buffer overrun memory buffer usedLength]. rewrite Hl.
    assert (overrun s' || (allocatedLength s' <? usedLength s' + 2) = true) as ->; [|done].
    rewrite Ha, Ho. cbn [negb andb]. destruct (Z.leb_spec (2 * Z.of_nat (length (text_of fs))) 1) as [Hle|]; [|done].
    destruct Hw as (_ & _ & ->); [apply Z.leb_le in Hle; exact Hle|]. cbn [negb orb]. apply Z.ltb_lt. lia.
Qed.

(** C9. [PhFormatToBuffer] with no buffer, or with a buffer of any length in bytes but
    1: it does not write outside the buffer; it returns TRUE exactly when there is a
    buffer and the text and its terminator fit, and then they are at the start of the
    buffer; otherwise the buffer starts with a terminator, if there is room for one. The
    length it reports is exact when it returns TRUE, and when it returns FALSE as long
    as no element is a floating-point number or a size, whose lengths are not all counted
    then. A buffer of one byte is always written past its end: the terminator has two. *)
Theorem format_to_buffer_bounded `{Environment} `{!EnvironmentLaws} (fs : list PH_FORMAT) (Buffer : option (list Z)) (BufferLength : Z) :
  Forall valid fs → match Buffer with Some m => length m = Z.to_nat (BufferLength / 2) | None => True end →
  0 ≤ BufferLength →
  (BufferLength ≠ 1 → ∃ r, PhFormatToBuffer fs Buffer BufferLength = Some r ∧
     formatted fs BufferLength (match Buffer with Some _ => false | None => true end) r) ∧
  (BufferLength = 1 → Buffer ≠ None → PhFormatToBuffer fs Buffer BufferLength = None).
Proof.
  intros Hv Hm Hn. split; [intros; by apply format_to_buffer|]. intros -> Hb. destruct Buffer as [m|]; [|done].
  apply nil_length_inv in Hm as ->. by apply format_one_byte.
Qed.

Lemma format_to_buffer_bounded_witness :
  (∃ r, PhFormatToBuffer (H := rationals) sample_elements (Some (replicate 30 7)) 60 = Some r ∧
    formatted (H := rationals) sample_elements 60 false r) ∧
  (∃ r, PhFormatToBuffer (H := rationals) sample_elements (Some (replicate 10 7)) 20 = Some r ∧
    formatted (H := rationals) sample_elements 20 false r) ∧
  PhFormatToBuffer (H := rationals) sample_elements (Some []) 1 = None.
Proof.
  split_and!.
  - apply (format_to_buffer_bounded (H := rationals) (H0 := rationals_laws) sample_elements (Some (replicate 30 7)) 60);
      [exact sample_elements_valid|reflexivity|lia|lia].
  - apply (format_to_buffer_bounded (H := rationals) (H0 := rationals_laws) sample_elements (Some (replicate 10 7)) 20);
      [exact sample_elements_valid|reflexivity|lia|lia].
  - apply (format_to_buffer_bounded (H := rationals) (H0 := rationals_laws) sample_elements (Some []) 1);
      [exact sample_elements_valid|reflexivity|lia|done|done].
Defined.

(** The digits of an integer: the loop that produces them backwards, with the
    separators, stays within its temporary buffer and ends within 64 turns; they
    denote the integer in the base of the element, without a leading zero, with
    a separator before each group of three from the right if asked for. *)
Theorem integer_text_digits `{Environment} (f : PH_FORMAT) (n : Z) :
  0 ≤ n < 2 ^ 64 →
  ∃ ds, integer_text f n = Some (group_if (has (Type_ f) FormatGroupDigits) (map (integer_to_char (table_of f)) ds)) ∧
    value_from (radix_of f) 0 ds = n ∧ Forall (λ d, 0 ≤ d < radix_of f) ds ∧
    (0 < n → ∃ d ds', ds = d :: ds' ∧ d ≠ 0).
Proof.
  intros Hn. exists (digits (radix_of f) n). split; [by apply integer_text_reference|].
  apply digits_spec; [|done]. pose proof (radix_of_range f). lia.
Qed.

Lemma integer_text_digits_witness :
  ∃ ds, integer_text (H := rationals) (Format (Z.lor UInt64FormatType FormatGroupDigits) 0 0 0 0 (Int64 1234567)) 1234567 =
      Some (group_if (H := rationals) true (map (integer_to_char PhIntegerToChar) ds)) ∧
    value_from 10 0 ds = 1234567 ∧ Forall (λ d, 0 ≤ d < 10) ds ∧ (0 < 1234567 → ∃ d ds', ds = d :: ds' ∧ d ≠ 0).
Proof.
  exact (integer_text_digits (H := rationals) (Format (Z.lor UInt64FormatType FormatGroupDigits) 0 0 0 0 (Int64 1234567)) 1234567
    (conj (Zle_bool_imp_le 0 1234567 eq_refl) (proj1 (Z.ltb_lt 1234567 (2 ^ 64)) eq_refl))).
Defined.

(** Reading an integer undoes writing it, in every base up to 47 and for every
    64-bit integer, signed or not. From base 48 on the digit 47 is the plus sign
    and is read as one, so that the number 47 comes back as 0. *)
Theorem integer_roundtrip `{Environment} `{!EnvironmentLaws} (SMALL_BUFFER_LENGTH Integer Base : Z) :
  0 ≤ SMALL_BUFFER_LENGTH → - 2 ^ 63 ≤ Integer < 2 ^ 63 →
  (0 ≤ Base ≤ 47 → Base ≠ 1 →
    (∃ s, PhIntegerToString64 SMALL_BUFFER_LENGTH Integer Base true = Some (Some s) ∧
      PhStringToInteger64 s Base = Some (true, Integer)) ∧
    (∃ s, PhIntegerToString64 SMALL_BUFFER_LENGTH Integer Base false = Some (Some s) ∧
      PhStringToUInt64 s Base = Some (true, u64 Integer))) ∧
  (48 ≤ Base ≤ 69 →
    ∃ s, PhIntegerToString64 SMALL_BUFFER_LENGTH 47 Base true = Some (Some s) ∧ PhStringToInteger64 s Base = Some (true, 0)).
Proof.
  intros Hs Hx. split.
  - intros HB HB1. assert (2 ≤ base_of Base ≤ 47) as Hb by (unfold base_of; destruct (Z.eqb_spec Base 0); lia).
    assert (0 ≤ u64 Integer < 2 ^ 64) as Hu by (apply Z.mod_pos_bound; lia).
    split; (eexists; split; [apply integer_to_string; (done || lia)|]); unfold PhStringToInteger64, PhStringToUInt64;
      rewrite Z.gtb_ltb, (proj2 (Z.ltb_ge 69 Base)) by lia.
    + destruct (digits_spec (base_of Base) (Z.abs Integer)) as (Hv & Hf & _); [lia|lia|]. destruct (Z.ltb_spec Integer 0).
      * cbn [app skip_sign MINUS Z.eqb Pos.eqb orb]. rewrite skip_prefix_digits, read_digits, Hv by (lia || done).
        rewrite Z.abs_neq by lia. unfold u64. rewrite Z.mod_small, i64_neg_mod by lia. do 2 f_equal. lia.
      * rewrite app_nil_l, (skip_sign_digits _ (base_of Base)), skip_prefix_digits, read_digits, Hv by (lia || done).
        rewrite Z.abs_eq by lia. unfold u64. by rewrite Z.mod_small, i64_small by lia.
    + destruct (digits_spec (base_of Base) (Z.abs (u64 Integer))) as (Hv & Hf & _); [lia|lia|].
      rewrite (proj2 (Z.ltb_ge (u64 Integer) 0)) by lia.
      rewrite app_nil_l, (skip_sign_digits _ (base_of Base)), skip_prefix_digits, read_digits, Hv by (lia || done).
      rewrite Z.abs_eq by lia. unfold u64. by rewrite Zmod_mod.
  - intros HB. eexists. split; [apply integer_to_string; (done || lia)|]. unfold base_of. rewrite (proj2 (Z.eqb_neq Base 0)) by lia.
    change (Z.abs 47) with 47. unfold digits. cbn [digits_fuel]. rewrite Z.div_small, Z.mod_small by lia. cbn [Z.eqb Z.ltb Z.compare map app].
    change (integer_to_char PhIntegerToChar 47) with PLUS. unfold PhStringToInteger64. rewrite Z.gtb_ltb, (proj2 (Z.ltb_ge 69 Base)) by lia.
    unfold skip_sign, skip_prefix. rewrite (proj2 (Z.eqb_neq Base 0)) by lia. reflexivity.
Qed.

Lemma integer_roundtrip_witness :
  (∃ s, PhIntegerToString64 (H := rationals) 100 (- 2 ^ 63) 16 true = Some (Some s) ∧ PhStringToInteger64 s 16 = Some (true, - 2 ^ 63)) ∧
  (∃ s, PhIntegerToString64 (H := rationals) 100 47 69 true = Some (Some s) ∧ PhStringToInteger64 s 69 = Some (true, 0)).
Proof.
  pose proof (integer_roundtrip (H := rationals) (H0 := rationals_laws) 100 (- 2 ^ 63) 16) as H1.
  pose proof (integer_roundtrip (H := rationals) (H0 := rationals_laws) 100 (- 2 ^ 63) 69) as H2.
  split; [apply H1; lia|apply H2; lia].
Defined.

(** Three limits of the engine. An aligned multibyte string is taken for a
    null-terminated one, and its length for a pointer. The length of a
    floating-point number is not counted when there is no buffer: at most its sign
    is. And a buffer of one byte is written past its end by a terminator of two. *)
Theorem format_limits `{Environment} `{!EnvironmentLaws} (SMALL_BUFFER_LENGTH : Z) (f : PH_FORMAT) (s : list Z) (x : DOUBLE)
    (Precision : Z) (fs : list PH_FORMAT) (InitialCapacity : Z) :
  (u f = MultiByteString s → Z.land (Type_ f) FormatTypeMask = MultiByteStringFormatType → Type_ f ≠ MultiByteStringFormatType →
    PhFormat SMALL_BUFFER_LENGTH (f :: fs) InitialCapacity = None) ∧
  (∃ n, n ≤ 4 ∧ PhFormatToBuffer [Format (Z.lor DoubleFormatType FormatUsePrecision) Precision 0 0 0 (Double x)] None 0 = Some (false, [], n)) ∧
  (Forall valid fs → PhFormatToBuffer fs (Some []) 1 = None).
Proof.
  split_and!.
  - intros Hu Ht Hne. unfold PhFormat. cbn [format_parts]. unfold format_part, format_element. cbv zeta. rewrite Ht, Hu.
    by rewrite (proj2 (Z.eqb_neq _ _) Hne).
  - unfold PhFormatToBuffer. cbn [format_parts]. unfold format_part, format_element, COMMON_DOUBLE_FORMAT. cbv zeta.
    cbn [Type_ u]. set (temp := double_text _ _). set (negative := match temp with c :: _ => c =? MINUS | [] => false end).
    exists (if negative then 4 else 2). split; [by case_match|].
    change (Z.land (Z.lor DoubleFormatType FormatUsePrecision) FormatTypeMask) with DoubleFormatType.
    cbn. by destruct negative.
  - apply format_one_byte.
Qed.

Lemma format_limits_witness :
  PhFormat (H := rationals) 100 [Format (Z.lor MultiByteStringFormatType FormatLeftAlign) 0 4 0 0 (MultiByteString [65])] 0 = None ∧
  (∃ n, n ≤ 4 ∧ PhFormatToBuffer (H := rationals)
     [Format (Z.lor DoubleFormatType FormatUsePrecision) 2 0 0 0 (Double (H := rationals) (size_double (Environment := rationals) 1536 1))]
     None 0 = Some (false, [], n)) ∧
  PhFormatToBuffer (H := rationals) sample_elements (Some []) 1 = None.
Proof.
  destruct (format_limits (H := rationals) (H0 := rationals_laws) 100
    (Format (H := rationals) (Z.lor MultiByteStringFormatType FormatLeftAlign) 0 4 0 0 (MultiByteString [65])) [65]
    (size_double (Environment := rationals) 1536 1) 2 [] 0) as (H1 & H2 & _).
  destruct (format_limits (H := rationals) (H0 := rationals_laws) 100
    (Format (H := rationals) 0 0 4 0 0 (MultiByteString [65])) [65]
    (size_double (Environment := rationals) 1536 1) 2 sample_elements 0) as (_ & _ & H3).
  split_and!; [by apply H1|exact H2|exact (H3 sample_elements_valid)].
Defined.

(** ** Time spans *)

(** A number with leading zeros up to a width. *)
Definition field (width : nat) (n : Z) : list Z :=
  let s := map (integer_to_char PhIntegerToChar) (digits 10 n) in replicate (width - length s) ZERO ++ s.

Lemma digits_fuel_short fuel : ∀ radix n k, 2 ≤ radix → 0 ≤ n < radix ^ Z.of_nat k → (1 ≤ k)%nat →
  (length (digits_fuel fuel radix n) ≤ k)%nat.
Proof.
  induction fuel as [|fuel IH]; intros radix n k Hr Hn Hk; cbn [digits_fuel length]; [lia|].
  destruct (Z.eqb_spec (n / radix) 0) as [|Hz]; [done|]. rewrite length_app. cbn [length].
  destruct k as [|k]; [lia|]. rewrite Nat2Z.inj_succ, Z.pow_succ_r in Hn by lia.
  destruct k as [|k]; [rewrite Z.pow_0_r in Hn; rewrite Z.div_small in Hz; lia|].
  assert (length (digits_fuel fuel radix (n / radix)) ≤ S k)%nat; [|lia]. apply IH; [done| |lia].
  split; [apply Z.div_pos; lia|]. apply Z.div_lt_upper_bound; lia.
Qed.

Lemma length_field width n : (1 ≤ width)%nat → 0 ≤ n < 10 ^ Z.of_nat width → length (field width n) = width.
Proof.
  intros Hw Hn. unfold field. rewrite length_app, length_replicate, length_map.
  pose proof (digits_fuel_short 64 10 n width ltac:(lia) Hn Hw). unfold digits. lia.
Qed.

Lemma part_text_field `{Environment} n width : 0 ≤ n < 2 ^ 64 → 0 ≤ width →
  part_text (PhInitFormatI64UWithWidth n width) = field (Z.to_nat width) n ∧
  valid (PhInitFormatI64UWithWidth n width) ∧ ¬ floating (PhInitFormatI64UWithWidth n width).
Proof.
  intros Hn Hw. split_and!; [|split; [done|right; split; [by left|done]]|by intros []].
  unfold part_text, element_text, integer_part. cbn [u PhInitFormatI64UWithWidth format_int].
  rewrite (proj2 (Z.ltb_ge n 0)), Z.abs_eq by lia. unfold field. change (with_sign _ false _ ?s) with (with_sign (PhInitFormatI64UWithWidth n width) false true s).
  unfold with_sign. change (has (Type_ (PhInitFormatI64UWithWidth n width)) FormatPrefixSign) with false. cbn [length app Width PhInitFormatI64UWithWidth format_int].
  by rewrite Nat.sub_0_r.
Qed.

Lemma part_text_number `{Environment} n : 0 ≤ n < 2 ^ 64 →
  part_text (PhInitFormatI64U n) = field 1 n ∧ valid (PhInitFormatI64U n) ∧ ¬ floating (PhInitFormatI64U n).
Proof.
  intros Hn. split_and!; [|split; [done|right; split; [by left|done]]|by intros []].
  unfold part_text, element_text, integer_part. cbn [u PhInitFormatI64U format_int]. rewrite (proj2 (Z.ltb_ge n 0)), Z.abs_eq by lia.
  unfold field. rewrite length_map. pose proof (digits_fuel_nonempty 63 10 n). unfold digits.
  destruct (digits_fuel 64 10 n) as [|d ds] eqn:E; [done|]. cbn [length Nat.sub replicate app].
  rewrite <-E. done.
Qed.

Lemma length_field_1 n k : (1 ≤ k)%nat → 0 ≤ n < 10 ^ Z.of_nat k → (length (field 1 n) ≤ k)%nat.
Proof.
  intros Hk Hn. unfold field. rewrite length_app, length_replicate, length_map.
  pose proof (digits_fuel_short 64 10 n k ltac:(lia) Hn Hk). unfold digits. lia.
Qed.

Definition time_text (Mode d h m s ms : Z) : list Z :=
  if Mode =? PH_TIMESPAN_HMSM then field 2 h ++ [COLON] ++ field 2 m ++ [COLON] ++ field 2 s ++ [DOT] ++ field 3 ms
  else if Mode =? PH_TIMESPAN_DHMS then field 1 d ++ [COLON] ++ field 2 h ++ [COLON] ++ field 2 m ++ [COLON] ++ field 2 s
  else if Mode =? PH_TIMESPAN_DHMSM then
    field 1 d ++ [COLON] ++ field 2 h ++ [COLON] ++ field 2 m ++ [COLON] ++ field 2 s ++ [COLON] ++ field 3 ms
  else field 2 h ++ [COLON] ++ field 2 m ++ [DOT] ++ field 2 s.

Lemma time_parts Ticks : 0 ≤ Ticks < 2 ^ 64 →
  let d := PH_TICKS_PARTIAL_DAYS Ticks in let h := PH_TICKS_PARTIAL_HOURS Ticks in let m := PH_TICKS_PARTIAL_MIN Ticks in
  let s := PH_TICKS_PARTIAL_SEC Ticks in let ms := PH_TICKS_PARTIAL_MS Ticks in
  0 ≤ d < 10 ^ 8 ∧ 0 ≤ h < 24 ∧ 0 ≤ m < 60 ∧ 0 ≤ s < 60 ∧ 0 ≤ ms < 1000 ∧
  Ticks / PH_TICKS_PER_MS = (((d * 24 + h) * 60 + m) * 60 + s) * 1000 + ms.
Proof.
  intros HT. unfold PH_TICKS_PARTIAL_DAYS, PH_TICKS_PARTIAL_HOURS, PH_TICKS_PARTIAL_MIN, PH_TICKS_PARTIAL_SEC, PH_TICKS_PARTIAL_MS,
    PH_TICKS_PER_DAY, PH_TICKS_PER_HOUR, PH_TICKS_PER_MIN, PH_TICKS_PER_SEC, PH_TICKS_PER_MS.
  cbn [Z.mul Pos.mul]. Z.to_euclidean_division_equations. lia.
Qed.

Lemma text_of_cons `{Environment} f fs : text_of (f :: fs) = part_text f ++ text_of fs.
Proof. done. Qed.

Lemma part_text_char `{Environment} c : part_text (PhInitFormatC c) = [c].
Proof. done. Qed.

Lemma time_span_format_text `{Environment} Ticks Mode : 0 ≤ Ticks < 2 ^ 64 →
  text_of (time_span_format Ticks Mode) =
    time_text Mode (PH_TICKS_PARTIAL_DAYS Ticks) (PH_TICKS_PARTIAL_HOURS Ticks) (PH_TICKS_PARTIAL_MIN Ticks)
      (PH_TICKS_PARTIAL_SEC Ticks) (PH_TICKS_PARTIAL_MS Ticks) ∧
  Forall valid (time_span_format Ticks Mode).
Proof.
  intros HT. destruct (time_parts Ticks HT) as (Hd & Hh & Hm & Hs & Hms & _). cbv zeta in *.
  assert (∀ c, valid (PhInitFormatC c)) as Hc by done.
  destruct (part_text_number (PH_TICKS_PARTIAL_DAYS Ticks) ltac:(lia)) as (Td & Vd & _).
  destruct (part_text_field (PH_TICKS_PARTIAL_HOURS Ticks) 2 ltac:(lia) ltac:(lia)) as (Th & Vh & _).
  destruct (part_text_field (PH_TICKS_PARTIAL_MIN Ticks) 2 ltac:(lia) ltac:(lia)) as (Tm & Vm & _).
  destruct (part_text_field (PH_TICKS_PARTIAL_SEC Ticks) 2 ltac:(lia) ltac:(lia)) as (Ts & Vs & _).
  destruct (part_text_field (PH_TICKS_PARTIAL_MS Ticks) 3 ltac:(lia) ltac:(lia)) as (Tms & Vms & _).
  unfold time_span_format, time_text.
  repeat case_match; (split; [|repeat (apply Forall_cons_2; [by auto|]); apply Forall_nil_2]);
    rewrite !text_of_cons, !part_text_char, ?Td, ?Th, ?Tm, ?Ts, ?Tms; change (text_of []) with (@nil Z); rewrite app_nil_r; done.
Qed.

(** A time span is printed as its days, hours, minutes, seconds and milliseconds,
    as many as the mode asks for, each in its range and padded to its width; the
    destination of 31 characters is long enough for any time span. *)
Theorem time_span_text `{Environment} `{!EnvironmentLaws} (Destination : list Z) (Ticks Mode : Z) :
  0 ≤ Ticks < 2 ^ 64 → Z.of_nat (length Destination) = PH_TIMESPAN_STR_LEN_1 →
  ∃ d h m s ms out,
    Ticks / PH_TICKS_PER_MS = (((d * 24 + h) * 60 + m) * 60 + s) * 1000 + ms ∧
    0 ≤ d ∧ 0 ≤ h < 24 ∧ 0 ≤ m < 60 ∧ 0 ≤ s < 60 ∧ 0 ≤ ms < 1000 ∧
    PhPrintTimeSpan Destination Ticks Mode = Some out ∧
    take (length (time_text Mode d h m s ms) + 1) out = time_text Mode d h m s ms ++ [0].
Proof.
  intros HT HD. destruct (time_parts Ticks HT) as (Hd & Hh & Hm & Hs & Hms & Heq). cbv zeta in *.
  destruct (time_span_format_text Ticks Mode HT) as [Htext Hvalid].
  destruct (format_to_buffer (time_span_format Ticks Mode) (Some Destination) (PH_TIMESPAN_STR_LEN_1 * 2)) as ([[b out] n] & Hr & Hf);
    [done|unfold PH_TIMESPAN_STR_LEN_1 in *; change (31 * 2 / 2) with 31; lia|done|done|].
  destruct Hf as (Hb & _ & Ht & _). rewrite Htext in *.
  do 5 eexists. exists out. split_and!; [exact Heq|lia|lia|lia|lia|lia|lia|lia|lia|lia| |].
  - unfold PhPrintTimeSpan, PhPrintTimeSpanToBuffer. by rewrite Hr.
  - apply Ht. rewrite Hb. cbn [negb andb]. apply Z.leb_le.
    pose proof (length_field_1 _ 8 ltac:(lia) Hd).
    pose proof (length_field 2 (PH_TICKS_PARTIAL_HOURS Ticks)). pose proof (length_field 2 (PH_TICKS_PARTIAL_MIN Ticks)).
    pose proof (length_field 2 (PH_TICKS_PARTIAL_SEC Ticks)). pose proof (length_field 3 (PH_TICKS_PARTIAL_MS Ticks)).
    unfold time_text, PH_TIMESPAN_STR_LEN_1. repeat case_match; rewrite !length_app; cbn [length]; lia.
Qed.

Lemma time_span_text_witness :
  ∃ d h m s ms out,
    937865432100 / PH_TICKS_PER_MS = (((d * 24 + h) * 60 + m) * 60 + s) * 1000 + ms ∧
    0 ≤ d ∧ 0 ≤ h < 24 ∧ 0 ≤ m < 60 ∧ 0 ≤ s < 60 ∧ 0 ≤ ms < 1000 ∧
    PhPrintTimeSpan (H := rationals) (replicate 31 0) 937865432100 PH_TIMESPAN_DHMSM = Some out ∧
    take (length (time_text PH_TIMESPAN_DHMSM d h m s ms) + 1) out = time_text PH_TIMESPAN_DHMSM d h m s ms ++ [0].
Proof.
  apply (time_span_text (H := rationals) (H0 := rationals_laws) (replicate 31 0) 937865432100 PH_TIMESPAN_DHMSM);
    [lia|reflexivity].
Defined.
