(* ===== verification/Concurrency.v ===== *)
(** Threads that share a state: the step relation of a system of threads, the
    executions of a schedule, sums over the threads, and the rule that a state
    can always be drained.

    A component of phlib that several threads use at once is modelled by the
    type of its shared state and by the type of what a thread is doing (a point
    of a function together with the local variables that are live there). The
    component gives, for one thread, the list of what it can do next: each
    element of the list is one atomic access to the shared state. *)

From S2P Require Import Prelude.

(** What a point of a function leads to: a further point, or the end of the
    function. *)
Inductive outcome (P : Type) : Type :=
  | Continue (p : P)
  | Return (result : bool).
Arguments Continue {P} p.
Arguments Return {P} result.

Section Threads.
Context {S T : Type} (next : S → T → list (S * T)).

(** The shared state, and what each thread is doing. *)
Record system := System { shared : S; threads : list T }.

(** One thread makes one step. *)
Inductive step : system → system → Prop :=
  | thread_step (i : nat) (σ : S) (ts : list T) (t : T) (σ' : S) (t' : T) :
      ts !! i = Some t →
      (σ', t') ∈ next σ t →
      step (System σ ts) (System σ' (<[i := t']> ts)).

(** What a system started in a state can become, whatever the order in which
    the threads run. *)
Definition reachable (start s : system) : Prop := rtc step start s.

(** *** Executions of a schedule *)

(** Thread [i] takes the [k]-th of its possible steps. *)
Definition step_of (i k : nat) (s : system) : option system :=
  t ← threads s !! i;
  '(σ', t') ← next (shared s) t !! k;
  Some (System σ' (<[i := t']> (threads s))).

Fixpoint run (schedule : list (nat * nat)) (s : system) : option system :=
  match schedule with
  | [] => Some s
  | (i, k) :: schedule => s' ← step_of i k s; run schedule s'
  end.

Lemma step_of_step i k s s' : step_of i k s = Some s' → step s s'.
Proof.
  unfold step_of. destruct s as [σ ts]. cbn [threads shared].
  destruct (ts !! i) as [t|] eqn:Ht; [|done]. cbn [mbind option_bind].
  destruct (next σ t !! k) as [[σ' t']|] eqn:Hk; [|done]. cbn [mbind option_bind]. intros [= <-].
  econstructor; [done|]. by eapply list_elem_of_lookup_2.
Qed.

Lemma run_steps schedule s s' : run schedule s = Some s' → rtc step s s'.
Proof.
  revert s. induction schedule as [|[i k] schedule IH]; intros s; cbn [run]; [intros [= <-]; constructor|].
  destruct (step_of i k s) as [s1|] eqn:H1; [|done]. cbn [mbind option_bind]. intros H.
  eapply rtc_l; [by eapply step_of_step|by apply IH].
Qed.

(** *** Invariants *)

Lemma steps_invariant (I : system → Prop) s s' :
  (∀ s s', I s → step s s' → I s') → rtc step s s' → I s → I s'.
Proof. intros Hstep. induction 1; eauto. Qed.

Lemma reachable_invariant (I : system → Prop) start :
  I start → (∀ s s', I s → step s s' → I s') → ∀ s, reachable start s → I s.
Proof. intros H0 Hstep s Hs. by eapply steps_invariant. Qed.

Lemma step_threads_length s s' : step s s' → length (threads s') = length (threads s).
Proof. destruct 1; cbn [threads]. by rewrite length_insert. Qed.

(** *** Draining

    When every state of an invariant that is not final can be brought, by some
    steps, to a smaller one, a final state is always in reach. *)
Lemma drain (I final : system → Prop) `{!∀ s, Decision (final s)} (size : system → nat) :
  (∀ s, I s → ¬ final s → ∃ s', rtc step s s' ∧ I s' ∧ (size s' < size s)%nat) →
  ∀ s, I s → ∃ s', rtc step s s' ∧ I s' ∧ final s'.
Proof.
  intros Hsmaller s. remember (size s) as n eqn:Hn. revert s Hn.
  induction n as [n IH] using lt_wf_ind. intros s -> HI.
  destruct (decide (final s)) as [Hf|Hf]; [exists s; auto using rtc_refl|].
  destruct (Hsmaller s HI Hf) as (s1 & H1 & HI1 & Hlt).
  destruct (IH _ Hlt s1 eq_refl HI1) as (s2 & H2 & HI2 & Hf2). exists s2. split; [by etrans|done].
Qed.

(** One thread makes one step, the others none. *)
Lemma step_alone σ ts i t σ' t' :
  ts !! i = Some t → (σ', t') ∈ next σ t → rtc step (System σ ts) (System σ' (<[i := t']> ts)).
Proof. intros Ht Hn. by apply rtc_once, thread_step with t. Qed.

(** The steps of a thread that runs alone: what it is doing and the shared state. *)
Inductive alone : S → T → S → T → Prop :=
  | alone_refl σ t : alone σ t σ t
  | alone_step σ t σ1 t1 σ' t' : (σ1, t1) ∈ next σ t → alone σ1 t1 σ' t' → alone σ t σ' t'.

Lemma run_alone i ts σ t σ' t' :
  ts !! i = Some t → alone σ t σ' t' → rtc step (System σ ts) (System σ' (<[i := t']> ts)).
Proof.
  intros Ht Ha. revert ts Ht. induction Ha as [σ t|σ t σ1 t1 σ' t' Hn _ IH]; intros ts Ht.
  - rewrite list_insert_id by done. constructor.
  - etrans; [by eapply step_alone|].
    rewrite <-(list_insert_insert_eq ts i t' t1). apply IH. apply list_lookup_insert_eq. by eapply lookup_lt_Some.
Qed.

(** Alone, a thread reaches a state in which it is doing what [Q] says. *)
Definition reaches (σ : S) (t : T) (Q : S → T → Prop) : Prop := ∃ σ' t', alone σ t σ' t' ∧ Q σ' t'.

Lemma reaches_here σ t (Q : S → T → Prop) : Q σ t → reaches σ t Q.
Proof. intros HQ. exists σ, t. split; [constructor|done]. Qed.

Lemma reaches_mono σ t (P Q : S → T → Prop) : reaches σ t P → (∀ σ' t', P σ' t' → Q σ' t') → reaches σ t Q.
Proof. intros (σ' & t' & Hg & HP) HPQ. exists σ', t'. auto. Qed.

Lemma reaches_step σ t σ1 t1 Q : (σ1, t1) ∈ next σ t → reaches σ1 t1 Q → reaches σ t Q.
Proof. intros Hn (σ' & t' & Hg & HQ). exists σ', t'. split; [by eapply alone_step|done]. Qed.

Lemma reaches_trans σ t (P Q : S → T → Prop) :
  reaches σ t P → (∀ σ' t', P σ' t' → reaches σ' t' Q) → reaches σ t Q.
Proof.
  intros (σ1 & t1 & Ha & HP) HPQ. specialize (HPQ _ _ HP). clear HP.
  induction Ha as [|σ t σ1 t1 σ2 t2 Hn Ha IH]; [done|]. eapply reaches_step; eauto.
Qed.

(** By the first of the steps that the thread can take. *)
Lemma reaches_next σ t Q :
  match next σ t with (σ1, t1) :: _ => reaches σ1 t1 Q | [] => False end → reaches σ t Q.
Proof.
  destruct (next σ t) as [|[σ1 t1] l] eqn:Hn; [done|]. apply reaches_step. rewrite Hn. apply list_elem_of_here.
Qed.

End Threads.

Arguments System {S T} shared threads.
Arguments shared {S T} s.
Arguments threads {S T} s.


(** A step that is in a list of steps written out. *)
Ltac in_list H :=
  repeat lazymatch type of H with
  | _ ∈ [] => by apply elem_of_nil in H
  | _ ∈ _ :: _ => apply elem_of_cons in H as [H|H]
  end.

(** ** Sums over the threads *)

Section Sums.
Context {T : Type}.

Definition total (weight : T → Z) (ts : list T) : Z := foldr (λ t z, weight t + z) 0 ts.

Lemma total_cons weight t ts : total weight (t :: ts) = weight t + total weight ts.
Proof. done. Qed.

Lemma total_insert weight ts i t t' :
  ts !! i = Some t → total weight (<[i := t']> ts) = total weight ts - weight t + weight t'.
Proof.
  revert i. induction ts as [|t1 ts IH]; intros [|i] H; [done..| |].
  - injection H as ->. change (<[0%nat := t']> (t :: ts)) with (t' :: ts). rewrite !total_cons. lia.
  - change (<[Datatypes.S i := t']> (t1 :: ts)) with (t1 :: <[i := t']> ts). rewrite !total_cons, (IH i H). lia.
Qed.

Lemma total_nonneg weight ts : (∀ t, 0 ≤ weight t) → 0 ≤ total weight ts.
Proof. intros Hw. induction ts as [|t ts IH]; [done|]. rewrite total_cons. pose proof (Hw t). lia. Qed.

Lemma total_elem weight ts i t : (∀ t, 0 ≤ weight t) → ts !! i = Some t → weight t ≤ total weight ts.
Proof.
  intros Hw. revert i. induction ts as [|t1 ts IH]; intros [|i] H; [done..| |]; rewrite total_cons.
  - injection H as ->. pose proof (total_nonneg weight ts Hw). lia.
  - pose proof (IH i H). pose proof (Hw t1). lia.
Qed.

(** A sum that is not zero has a thread that contributes to it. *)
Lemma total_pos weight ts : 0 < total weight ts → ∃ i t, ts !! i = Some t ∧ 0 < weight t.
Proof.
  induction ts as [|t ts IH]; [done|]. rewrite total_cons. intros H. destruct (decide (0 < weight t)) as [Hp|Hp].
  - by exists O, t.
  - destruct IH as (i & t' & Hi & Hw); [lia|]. by exists (Datatypes.S i), t'.
Qed.

(** Two threads contribute to a sum separately. *)
Lemma total_two weight ts i j t u :
  (∀ t, 0 ≤ weight t) → i ≠ j → ts !! i = Some t → ts !! j = Some u → weight t + weight u ≤ total weight ts.
Proof.
  intros Hw. revert i j. induction ts as [|t1 ts IH]; intros [|i] [|j] Hij Hi Hj; try done; rewrite total_cons.
  - injection Hi as ->. pose proof (total_elem weight ts j u Hw Hj). lia.
  - injection Hj as ->. pose proof (total_elem weight ts i t Hw Hi). lia.
  - pose proof (IH i j ltac:(congruence) Hi Hj). pose proof (Hw t1). lia.
Qed.

Lemma total_le v w ts : (∀ t, v t ≤ w t) → total v ts ≤ total w ts.
Proof. intros Hle. induction ts as [|t ts IH]; [done|]. rewrite !total_cons. pose proof (Hle t). lia. Qed.

Lemma total_length weight ts : (∀ t, weight t ≤ 1) → total weight ts ≤ Z.of_nat (length ts).
Proof. intros Hw. induction ts as [|t ts IH]; [done|]. rewrite total_cons. pose proof (Hw t). cbn [length]. lia. Qed.

(** The other threads. *)
Lemma total_others weight ts i t :
  (∀ t, 0 ≤ weight t ≤ 1) → ts !! i = Some t → 0 ≤ total weight ts - weight t ≤ Z.of_nat (length ts) - 1.
Proof.
  intros Hw. revert i. induction ts as [|t1 ts IH]; intros [|i] H; [done..| |]; rewrite total_cons; cbn [length].
  - injection H as ->. pose proof (total_length weight ts ltac:(apply Hw)).
    pose proof (total_nonneg weight ts ltac:(apply Hw)). lia.
  - pose proof (IH i H). pose proof (Hw t1). lia.
Qed.

Lemma total_add v w ts : total (λ t, v t + w t) ts = total v ts + total w ts.
Proof. induction ts as [|t ts IH]; [done|]. rewrite !total_cons. lia. Qed.

Lemma total_replicate weight n t : total weight (replicate n t) = Z.of_nat n * weight t.
Proof. induction n as [|n IH]; [done|]. cbn [replicate]. rewrite total_cons. lia. Qed.

End Sums.
