(* ===== verification/RwLock.v ===== *)
(** What a reader-writer lock promises, for the two locks that implement one: the
    access that each thread has, and how it may change. *)

From S2P Require Import Prelude Concurrency.

(** ** Abstract specification: a reader-writer lock

    The access each thread has. *)

Inductive access := NoAccess | SharedAccess | ExclusiveAccess.

#[global] Instance access_eq_dec : EqDecision access.
Proof. solve_decision. Defined.

Inductive rw_step : list access → list access → Prop :=
  | rw_skip a : rw_step a a
  | rw_shared a i :
      a !! i = Some NoAccess → ExclusiveAccess ∉ a → rw_step a (<[i := SharedAccess]> a)
  | rw_exclusive a i :
      a !! i = Some NoAccess → ExclusiveAccess ∉ a → SharedAccess ∉ a → rw_step a (<[i := ExclusiveAccess]> a)
  | rw_release a i x :
      a !! i = Some x → x ≠ NoAccess → rw_step a (<[i := NoAccess]> a).

Section Access.
Context {T : Type} (access_of : T → access).

(** An access that a weight of the threads counts. *)
Lemma access_total weight a ts :
  (∀ t, 0 ≤ weight t ≤ 1) → (∀ t, access_of t = a ↔ weight t = 1) →
  0 < total weight ts ↔ a ∈ access_of <$> ts.
Proof.
  intros Hw Ha. rewrite list_elem_of_fmap. split.
  - intros (i & t & Ht & Hp)%total_pos. exists t. split; [|by eapply list_elem_of_lookup_2].
    symmetry. apply Ha. specialize (Hw t). lia.
  - intros (t & -> & [i Ht]%list_elem_of_lookup_1). assert (weight t = 1) as H1 by (by apply Ha).
    enough (weight t ≤ total weight ts) by lia. eapply total_elem; [apply Hw|done].
Qed.

(** One thread's access changes, and what is then known of the other threads. *)
Lemma rw_step_insert ts i t t' :
  ts !! i = Some t →
  access_of t' = access_of t ∨ access_of t = NoAccess ∨ access_of t' = NoAccess →
  (access_of t' = SharedAccess → ∀ j u, j ≠ i → ts !! j = Some u → access_of u ≠ ExclusiveAccess) →
  (access_of t' = ExclusiveAccess → ∀ j u, j ≠ i → ts !! j = Some u → access_of u = NoAccess) →
  rw_step (access_of <$> ts) (access_of <$> <[i := t']> ts).
Proof.
  intros Ht Hc Hs Hx. assert ((access_of <$> ts) !! i = Some (access_of t)) as Ha by (by rewrite list_lookup_fmap, Ht).
  rewrite list_fmap_insert. destruct (decide (access_of t' = access_of t)) as [->|Hne].
  - rewrite list_insert_id by done. constructor.
  - assert (access_of t = NoAccess → ∀ x, x ≠ NoAccess → x ∈ access_of <$> ts → ∃ j u, j ≠ i ∧ ts !! j = Some u ∧ access_of u = x) as Hother.
    { intros H0 x Hxn (u & -> & [j Hj]%list_elem_of_lookup_1)%list_elem_of_fmap. exists j, u. split; [|done]. intros ->. congruence. }
    destruct (access_of t') eqn:E'.
    + eapply rw_release; [done|]. destruct Hc as [?|[?|?]]; congruence.
    + destruct Hc as [?|[Hc|?]]; [congruence| |done]. rewrite Hc in Ha. apply rw_shared; [done|].
      intros (j & u & Hj & Hu & Hux)%Hother; [|done..]. by apply (Hs eq_refl j u).
    + destruct Hc as [?|[Hc|?]]; [congruence| |done]. rewrite Hc in Ha. apply rw_exclusive; [done|..].
      * intros (j & u & Hj & Hu & Hux)%Hother; [|done..]. by rewrite (Hx eq_refl j u) in Hux.
      * intros (j & u & Hj & Hu & Hux)%Hother; [|done..]. by rewrite (Hx eq_refl j u) in Hux.
Qed.

End Access.
