(* ===== verification/FastLock.v ===== *)
(** The fast lock (src/phlib/fastlock.c): a reader-writer lock in one word,
    with a semaphore for the threads that wait for exclusive access and one for
    those that wait for shared access.

    A function that threads run concurrently is an [Inductive] of its points
    just before an access to the shared lock, with the local variables that are
    live there, and a definition that gives the next point: [Continue], the
    function's result, or the exception it raises. *)

From S2P Require Import Prelude Concurrency.

Definition PH_LOCK_OWNED : Z := 0x1.
Definition PH_LOCK_EXCLUSIVE_WAKING : Z := 0x2.
Definition PH_LOCK_SHARED_OWNERS_SHIFT : Z := 2.
Definition PH_LOCK_SHARED_OWNERS_MASK : Z := 0x3ff.
Definition PH_LOCK_SHARED_OWNERS_INC : Z := 0x4.
Definition PH_LOCK_SHARED_WAITERS_SHIFT : Z := 12.
Definition PH_LOCK_SHARED_WAITERS_MASK : Z := 0x3ff.
Definition PH_LOCK_SHARED_WAITERS_INC : Z := 0x1000.
Definition PH_LOCK_EXCLUSIVE_WAITERS_SHIFT : Z := 22.
Definition PH_LOCK_EXCLUSIVE_WAITERS_MASK : Z := 0x3ff.
Definition PH_LOCK_EXCLUSIVE_WAITERS_INC : Z := 0x400000.
Definition PH_LOCK_EXCLUSIVE_MASK : Z :=
  Z.lor PH_LOCK_EXCLUSIVE_WAKING (Z.shiftl PH_LOCK_EXCLUSIVE_WAITERS_MASK PH_LOCK_EXCLUSIVE_WAITERS_SHIFT).

(** A handle to a semaphore is [NULL] or leads to the semaphore's count. *)
Definition HANDLE : Type := option Z.

Record PH_FAST_LOCK := {
  Value : Z;
  ExclusiveWakeEvent : HANDLE;
  SharedWakeEvent : HANDLE;
}.

Definition PhInitializeFastLock : PH_FAST_LOCK :=
  {| Value := 0; ExclusiveWakeEvent := None; SharedWakeEvent := None |}.

Definition PhDeleteFastLock (FastLock : PH_FAST_LOCK) : PH_FAST_LOCK :=
  {| Value := Value FastLock; ExclusiveWakeEvent := None; SharedWakeEvent := None |}.

Definition with_value (FastLock : PH_FAST_LOCK) (value : Z) : PH_FAST_LOCK :=
  {| Value := value; ExclusiveWakeEvent := ExclusiveWakeEvent FastLock; SharedWakeEvent := SharedWakeEvent FastLock |}.
Definition with_exclusive (FastLock : PH_FAST_LOCK) (h : HANDLE) : PH_FAST_LOCK :=
  {| Value := Value FastLock; ExclusiveWakeEvent := h; SharedWakeEvent := SharedWakeEvent FastLock |}.
Definition with_shared (FastLock : PH_FAST_LOCK) (h : HANDLE) : PH_FAST_LOCK :=
  {| Value := Value FastLock; ExclusiveWakeEvent := ExclusiveWakeEvent FastLock; SharedWakeEvent := h |}.

(** ** Atomic operations of the system *)

(** [_InterlockedCompareExchange]: the lock afterwards, and whether the value was
    the expected one. [new] is computed in [ULONG]s. *)
Definition InterlockedCompareExchange (FastLock : PH_FAST_LOCK) (new old : Z) : PH_FAST_LOCK * bool :=
  if Value FastLock =? old then (with_value FastLock (u32 new), true) else (FastLock, false).

Definition MAXLONG : Z := 2 ^ 31 - 1.

(** [NtReleaseSemaphore]: fails, without an effect, when there is no semaphore
    or when the count would pass its limit. *)
Definition NtReleaseSemaphore (h : HANDLE) (n : Z) : HANDLE :=
  match h with
  | Some c => if c + n <=? MAXLONG then Some (c + n) else Some c
  | None => None
  end.

(** [NtWaitForSingleObject] without a timeout: the handle afterwards, and
    whether the status is [STATUS_WAIT_0]. It blocks, with no next state, on a
    count of zero; it fails on a handle that is not one, and, where [faults]
    says so, for reasons of the system's own. *)
Definition NtWaitForSingleObject (faults : bool) (h : HANDLE) : list (HANDLE * bool) :=
  match h with
  | Some c => (if 0 <? c then [(Some (c - 1), true)] else []) ++ (if faults then [(h, false)] else [])
  | None => [(None, false)]
  end.

(** What a point of a function leads to. *)
Inductive outcome (P : Type) : Type :=
  | Continue (p : P)
  | Return (result : bool)
  | Raise.
Arguments Continue {P} p.
Arguments Return {P} result.
Arguments Raise {P}.

(** ** The functions *)

(** Before the handle is read; before the new semaphore is installed. *)
Inductive ensure := ensure_read | ensure_install.

(** The semaphore a thread creates and then finds unnecessary is its own until
    it closes it. [None] is the return of the function. *)
Definition PhpEnsureEventCreated (Handle : HANDLE) (p : ensure) : HANDLE * option ensure :=
  match p, Handle with
  | ensure_read, Some _ => (Handle, None)
  | ensure_read, None => (Handle, Some ensure_install)
  | ensure_install, None => (Some 0, None)
  | ensure_install, Some _ => (Handle, None)
  end.

Definition PhpGetSpinCount (NumberOfProcessors : Z) : Z :=
  if 1 <? NumberOfProcessors then 4000 else 0.

Section Functions.
Context (NumberOfProcessors : Z) (faults : bool).

Inductive acquire_exclusive :=
  | ax_read (i : Z)
  | ax_cas_owned (i value : Z)
  | ax_ensure (i value : Z) (p : ensure)
  | ax_cas_waiter (i value : Z)
  | ax_wait
  | ax_read_woken
  | ax_cas_woken (value : Z).

Definition PhfAcquireFastLockExclusive (FastLock : PH_FAST_LOCK) (p : acquire_exclusive) :
    list (PH_FAST_LOCK * outcome acquire_exclusive) :=
  let spinCount := PhpGetSpinCount NumberOfProcessors in
  match p with
  | ax_read i =>
      let value := Value FastLock in
      if Z.land value (Z.lor PH_LOCK_OWNED PH_LOCK_EXCLUSIVE_WAKING) =? 0 then
        [(FastLock, Continue (ax_cas_owned i value))]
      else if spinCount <=? i then
        [(FastLock, Continue (ax_ensure i value ensure_read))]
      else
        [(FastLock, Continue (ax_read (u32 (i + 1))))]
  | ax_cas_owned i value =>
      let '(FastLock, ok) := InterlockedCompareExchange FastLock (value + PH_LOCK_OWNED) value in
      if ok then [(FastLock, Return true)] else [(FastLock, Continue (ax_read (u32 (i + 1))))]
  | ax_ensure i value p =>
      let '(h, p) := PhpEnsureEventCreated (ExclusiveWakeEvent FastLock) p in
      match p with
      | Some p => [(with_exclusive FastLock h, Continue (ax_ensure i value p))]
      | None => [(with_exclusive FastLock h, Continue (ax_cas_waiter i value))]
      end
  | ax_cas_waiter i value =>
      let '(FastLock, ok) :=
        InterlockedCompareExchange FastLock (value + PH_LOCK_EXCLUSIVE_WAITERS_INC) value in
      if ok then [(FastLock, Continue ax_wait)] else [(FastLock, Continue (ax_read (u32 (i + 1))))]
  | ax_wait =>
      '(h, ok) ← NtWaitForSingleObject faults (ExclusiveWakeEvent FastLock);
      if ok : bool then [(with_exclusive FastLock h, Continue ax_read_woken)] else [(with_exclusive FastLock h, Raise)]
  | ax_read_woken => [(FastLock, Continue (ax_cas_woken (Value FastLock)))]
  | ax_cas_woken value =>
      let '(FastLock, ok) :=
        InterlockedCompareExchange FastLock (value + PH_LOCK_OWNED - PH_LOCK_EXCLUSIVE_WAKING) value in
      if ok then [(FastLock, Return true)] else [(FastLock, Continue ax_read_woken)]
  end.

Inductive acquire_shared :=
  | as_read (i : Z)
  | as_cas_owned (i value : Z)
  | as_cas_shared (i value : Z)
  | as_ensure (i value : Z) (p : ensure)
  | as_cas_waiter (i value : Z)
  | as_wait (i : Z).

Definition PhfAcquireFastLockShared (FastLock : PH_FAST_LOCK) (p : acquire_shared) :
    list (PH_FAST_LOCK * outcome acquire_shared) :=
  let spinCount := PhpGetSpinCount NumberOfProcessors in
  match p with
  | as_read i =>
      let value := Value FastLock in
      if Z.land value (Z.lor (Z.lor PH_LOCK_OWNED
           (Z.shiftl PH_LOCK_SHARED_OWNERS_MASK PH_LOCK_SHARED_OWNERS_SHIFT)) PH_LOCK_EXCLUSIVE_MASK) =? 0 then
        [(FastLock, Continue (as_cas_owned i value))]
      else if negb (Z.land value PH_LOCK_OWNED =? 0) &&
              (0 <? Z.land (Z.shiftr value PH_LOCK_SHARED_OWNERS_SHIFT) PH_LOCK_SHARED_OWNERS_MASK) &&
              (Z.land value PH_LOCK_EXCLUSIVE_MASK =? 0) then
        [(FastLock, Continue (as_cas_shared i value))]
      else if spinCount <=? i then
        [(FastLock, Continue (as_ensure i value ensure_read))]
      else
        [(FastLock, Continue (as_read (u32 (i + 1))))]
  | as_cas_owned i value =>
      let '(FastLock, ok) :=
        InterlockedCompareExchange FastLock (value + PH_LOCK_OWNED + PH_LOCK_SHARED_OWNERS_INC) value in
      if ok then [(FastLock, Return true)] else [(FastLock, Continue (as_read (u32 (i + 1))))]
  | as_cas_shared i value =>
      let '(FastLock, ok) := InterlockedCompareExchange FastLock (value + PH_LOCK_SHARED_OWNERS_INC) value in
      if ok then [(FastLock, Return true)] else [(FastLock, Continue (as_read (u32 (i + 1))))]
  | as_ensure i value p =>
      let '(h, p) := PhpEnsureEventCreated (SharedWakeEvent FastLock) p in
      match p with
      | Some p => [(with_shared FastLock h, Continue (as_ensure i value p))]
      | None => [(with_shared FastLock h, Continue (as_cas_waiter i value))]
      end
  | as_cas_waiter i value =>
      let '(FastLock, ok) := InterlockedCompareExchange FastLock (value + PH_LOCK_SHARED_WAITERS_INC) value in
      if ok then [(FastLock, Continue (as_wait i))] else [(FastLock, Continue (as_read (u32 (i + 1))))]
  | as_wait i =>
      '(h, ok) ← NtWaitForSingleObject faults (SharedWakeEvent FastLock);
      if ok : bool then [(with_shared FastLock h, Continue (as_read i))] else [(with_shared FastLock h, Raise)]
  end.

Inductive release_exclusive :=
  | rx_read
  | rx_cas_hand_over (value : Z)
  | rx_release_exclusive
  | rx_cas_free (value : Z)
  | rx_release_shared (sharedWaiters : Z).

Definition PhfReleaseFastLockExclusive (FastLock : PH_FAST_LOCK) (p : release_exclusive) :
    list (PH_FAST_LOCK * outcome release_exclusive) :=
  match p with
  | rx_read =>
      let value := Value FastLock in
      if Z.land (Z.shiftr value PH_LOCK_EXCLUSIVE_WAITERS_SHIFT) PH_LOCK_EXCLUSIVE_WAITERS_MASK =? 0 then
        [(FastLock, Continue (rx_cas_free value))]
      else
        [(FastLock, Continue (rx_cas_hand_over value))]
  | rx_cas_hand_over value =>
      let '(FastLock, ok) :=
        InterlockedCompareExchange FastLock
          (value - PH_LOCK_OWNED + PH_LOCK_EXCLUSIVE_WAKING - PH_LOCK_EXCLUSIVE_WAITERS_INC) value in
      if ok then [(FastLock, Continue rx_release_exclusive)] else [(FastLock, Continue rx_read)]
  | rx_release_exclusive =>
      [(with_exclusive FastLock (NtReleaseSemaphore (ExclusiveWakeEvent FastLock) 1), Return true)]
  | rx_cas_free value =>
      let sharedWaiters := Z.land (Z.shiftr value PH_LOCK_SHARED_WAITERS_SHIFT) PH_LOCK_SHARED_WAITERS_MASK in
      let '(FastLock, ok) :=
        InterlockedCompareExchange FastLock
          (Z.ldiff value (Z.lor PH_LOCK_OWNED (Z.shiftl PH_LOCK_SHARED_WAITERS_MASK PH_LOCK_SHARED_WAITERS_SHIFT)))
          value in
      if ok then
        if sharedWaiters =? 0 then [(FastLock, Return true)]
        else [(FastLock, Continue (rx_release_shared sharedWaiters))]
      else [(FastLock, Continue rx_read)]
  | rx_release_shared sharedWaiters =>
      [(with_shared FastLock (NtReleaseSemaphore (SharedWakeEvent FastLock) sharedWaiters), Return true)]
  end.

Inductive release_shared :=
  | rs_read
  | rs_cas_one_less (value : Z)
  | rs_cas_hand_over (value : Z)
  | rs_release_exclusive
  | rs_cas_free (value : Z).

Definition PhfReleaseFastLockShared (FastLock : PH_FAST_LOCK) (p : release_shared) :
    list (PH_FAST_LOCK * outcome release_shared) :=
  match p with
  | rs_read =>
      let value := Value FastLock in
      if 1 <? Z.land (Z.shiftr value PH_LOCK_SHARED_OWNERS_SHIFT) PH_LOCK_SHARED_OWNERS_MASK then
        [(FastLock, Continue (rs_cas_one_less value))]
      else if Z.land (Z.shiftr value PH_LOCK_EXCLUSIVE_WAITERS_SHIFT) PH_LOCK_EXCLUSIVE_WAITERS_MASK =? 0 then
        [(FastLock, Continue (rs_cas_free value))]
      else
        [(FastLock, Continue (rs_cas_hand_over value))]
  | rs_cas_one_less value =>
      let '(FastLock, ok) := InterlockedCompareExchange FastLock (value - PH_LOCK_SHARED_OWNERS_INC) value in
      if ok then [(FastLock, Return true)] else [(FastLock, Continue rs_read)]
  | rs_cas_hand_over value =>
      let '(FastLock, ok) :=
        InterlockedCompareExchange FastLock
          (value - PH_LOCK_OWNED + PH_LOCK_EXCLUSIVE_WAKING - PH_LOCK_SHARED_OWNERS_INC -
           PH_LOCK_EXCLUSIVE_WAITERS_INC) value in
      if ok then [(FastLock, Continue rs_release_exclusive)] else [(FastLock, Continue rs_read)]
  | rs_release_exclusive =>
      [(with_exclusive FastLock (NtReleaseSemaphore (ExclusiveWakeEvent FastLock) 1), Return true)]
  | rs_cas_free value =>
      let '(FastLock, ok) :=
        InterlockedCompareExchange FastLock (value - PH_LOCK_OWNED - PH_LOCK_SHARED_OWNERS_INC) value in
      if ok then [(FastLock, Return true)] else [(FastLock, Continue rs_read)]
  end.

Inductive try_exclusive :=
  | tx_read
  | tx_cas (value : Z).

Definition PhfTryAcquireFastLockExclusive (FastLock : PH_FAST_LOCK) (p : try_exclusive) :
    list (PH_FAST_LOCK * outcome try_exclusive) :=
  match p with
  | tx_read =>
      let value := Value FastLock in
      if Z.land value (Z.lor PH_LOCK_OWNED PH_LOCK_EXCLUSIVE_WAKING) =? 0 then
        [(FastLock, Continue (tx_cas value))]
      else
        [(FastLock, Return false)]
  | tx_cas value =>
      let '(FastLock, ok) := InterlockedCompareExchange FastLock (value + PH_LOCK_OWNED) value in
      [(FastLock, Return ok)]
  end.

Inductive try_shared :=
  | ts_read
  | ts_cas_owned (value : Z)
  | ts_cas_shared (value : Z).

Definition PhfTryAcquireFastLockShared (FastLock : PH_FAST_LOCK) (p : try_shared) :
    list (PH_FAST_LOCK * outcome try_shared) :=
  match p with
  | ts_read =>
      let value := Value FastLock in
      if negb (Z.land value PH_LOCK_EXCLUSIVE_MASK =? 0) then
        [(FastLock, Return false)]
      else if Z.land value PH_LOCK_OWNED =? 0 then
        [(FastLock, Continue (ts_cas_owned value))]
      else if negb (Z.land (Z.shiftr value PH_LOCK_SHARED_OWNERS_SHIFT) PH_LOCK_SHARED_OWNERS_MASK =? 0) then
        [(FastLock, Continue (ts_cas_shared value))]
      else
        [(FastLock, Return false)]
  | ts_cas_owned value =>
      let '(FastLock, ok) :=
        InterlockedCompareExchange FastLock (value + PH_LOCK_OWNED + PH_LOCK_SHARED_OWNERS_INC) value in
      [(FastLock, Return ok)]
  | ts_cas_shared value =>
      let '(FastLock, ok) := InterlockedCompareExchange FastLock (value + PH_LOCK_SHARED_OWNERS_INC) value in
      [(FastLock, Return ok)]
  end.

(** ** Threads *)

(** What a thread is doing with the lock: nothing, holding it, or running one of
    its functions. A thread that a failed wait made raise is over. *)
Inductive thread :=
  | Idle
  | OwnsExclusive
  | OwnsShared
  | AcquiringExclusive (p : acquire_exclusive)
  | AcquiringShared (p : acquire_shared)
  | ReleasingExclusive (p : release_exclusive)
  | ReleasingShared (p : release_shared)
  | TryingExclusive (p : try_exclusive)
  | TryingShared (p : try_shared)
  | RaisedExclusive
  | RaisedShared.

(** The thread after a point of a function. *)
Definition after {P} (calling : P → thread) (returned : bool → thread) (raised : thread)
    (r : PH_FAST_LOCK * outcome P) : PH_FAST_LOCK * thread :=
  (r.1, match r.2 with
        | Continue p => calling p
        | Return result => returned result
        | Raise => raised
        end).

(** What a thread can do: an idle thread may call any of the functions that
    acquire, a thread that holds the lock may release it. *)
Definition next (FastLock : PH_FAST_LOCK) (t : thread) : list (PH_FAST_LOCK * thread) :=
  match t with
  | Idle =>
      [(FastLock, AcquiringExclusive (ax_read 0)); (FastLock, AcquiringShared (as_read 0));
       (FastLock, TryingExclusive tx_read); (FastLock, TryingShared ts_read)]
  | OwnsExclusive => [(FastLock, ReleasingExclusive rx_read)]
  | OwnsShared => [(FastLock, ReleasingShared rs_read)]
  | AcquiringExclusive p =>
      after AcquiringExclusive (λ _, OwnsExclusive) RaisedExclusive <$> PhfAcquireFastLockExclusive FastLock p
  | AcquiringShared p =>
      after AcquiringShared (λ _, OwnsShared) RaisedShared <$> PhfAcquireFastLockShared FastLock p
  | ReleasingExclusive p =>
      after ReleasingExclusive (λ _, Idle) Idle <$> PhfReleaseFastLockExclusive FastLock p
  | ReleasingShared p =>
      after ReleasingShared (λ _, Idle) Idle <$> PhfReleaseFastLockShared FastLock p
  | TryingExclusive p =>
      after TryingExclusive (λ result : bool, if result then OwnsExclusive else Idle) Idle <$>
      PhfTryAcquireFastLockExclusive FastLock p
  | TryingShared p =>
      after TryingShared (λ result : bool, if result then OwnsShared else Idle) Idle <$>
      PhfTryAcquireFastLockShared FastLock p
  | RaisedExclusive | RaisedShared => []
  end.

End Functions.
