(* ===== verification/FastLockFacts.v ===== *)
(** The fast lock: the fields of its word, the invariant that ties them to what
    the threads are doing, and how a thread that runs alone gets on. *)

From S2P Require Import Prelude Concurrency FastLock.

(** ** The word *)

Definition owned (v : Z) : Z := v mod 2.
Definition waking (v : Z) : Z := v / 2 mod 2.
Definition shared_owners (v : Z) : Z := v / 4 mod 1024.
Definition shared_waiters (v : Z) : Z := v / 4096 mod 1024.
Definition exclusive_waiters (v : Z) : Z := v / 4194304 mod 1024.

Definition pack (o w so sw ew : Z) : Z := o + 2 * w + 4 * so + 4096 * sw + 4194304 * ew.

Definition fields (o w so sw ew : Z) : Prop :=
  0 ≤ o ≤ 1 ∧ 0 ≤ w ≤ 1 ∧ 0 ≤ so ≤ 1023 ∧ 0 ≤ sw ≤ 1023 ∧ 0 ≤ ew ≤ 1023.

Lemma pack_fields o w so sw ew : fields o w so sw ew →
  owned (pack o w so sw ew) = o ∧ waking (pack o w so sw ew) = w ∧
  shared_owners (pack o w so sw ew) = so ∧ shared_waiters (pack o w so sw ew) = sw ∧
  exclusive_waiters (pack o w so sw ew) = ew.
Proof.
  unfold fields, owned, waking, shared_owners, shared_waiters, exclusive_waiters, pack. intros H.
  split_and!; Z.to_euclidean_division_equations; lia.
Qed.

Lemma pack_range o w so sw ew : fields o w so sw ew → 0 ≤ pack o w so sw ew < 2 ^ 32.
Proof. unfold fields, pack. lia. Qed.

(** The code's tests of the word, for any word. *)

Lemma land_lor_zero v a b : Z.land v (Z.lor a b) = 0 ↔ Z.land v a = 0 ∧ Z.land v b = 0.
Proof. by rewrite Z.land_lor_distr_r, Z.lor_eq_0_iff. Qed.

Lemma land_shiftl v m k : 0 ≤ k → Z.land v (Z.shiftl m k) = Z.shiftl (Z.land (Z.shiftr v k) m) k.
Proof.
  intros Hk. apply Z.bits_inj'. intros j Hj. rewrite Z.land_spec, !Z.shiftl_spec, Z.land_spec by done.
  destruct (Z.le_gt_cases k j) as [Hle|Hgt].
  - rewrite Z.shiftr_spec by lia. by replace (j - k + k) with j by lia.
  - by rewrite !(Z.testbit_neg_r _ (j - k)), andb_false_r by lia.
Qed.

Lemma land_field v k n : 0 ≤ k → 0 ≤ n → Z.land v (Z.shiftl (2 ^ n - 1) k) = (v / 2 ^ k) mod 2 ^ n * 2 ^ k.
Proof. intros Hk Hn. by rewrite land_shiftl, land_pow2, Z.shiftl_mul_pow2, Z.shiftr_div_pow2. Qed.

Lemma field_of v k n : 0 ≤ k → 0 ≤ n → Z.land (Z.shiftr v k) (2 ^ n - 1) = (v / 2 ^ k) mod 2 ^ n.
Proof. intros Hk Hn. by rewrite land_pow2, Z.shiftr_div_pow2. Qed.

Lemma owned_of v : Z.land v PH_LOCK_OWNED = owned v.
Proof. exact (land_pow2 v 1 ltac:(done)). Qed.

Lemma waking_of v : Z.land v PH_LOCK_EXCLUSIVE_WAKING = waking v * 2.
Proof. exact (land_field v 1 1 ltac:(done) ltac:(done)). Qed.

Lemma shared_owners_of v :
  Z.land (Z.shiftr v PH_LOCK_SHARED_OWNERS_SHIFT) PH_LOCK_SHARED_OWNERS_MASK = shared_owners v.
Proof. exact (field_of v 2 10 ltac:(done) ltac:(done)). Qed.

Lemma shared_waiters_of v :
  Z.land (Z.shiftr v PH_LOCK_SHARED_WAITERS_SHIFT) PH_LOCK_SHARED_WAITERS_MASK = shared_waiters v.
Proof. exact (field_of v 12 10 ltac:(done) ltac:(done)). Qed.

Lemma exclusive_waiters_of v :
  Z.land (Z.shiftr v PH_LOCK_EXCLUSIVE_WAITERS_SHIFT) PH_LOCK_EXCLUSIVE_WAITERS_MASK = exclusive_waiters v.
Proof. exact (field_of v 22 10 ltac:(done) ltac:(done)). Qed.

Lemma shared_owners_field v :
  Z.land v (Z.shiftl PH_LOCK_SHARED_OWNERS_MASK PH_LOCK_SHARED_OWNERS_SHIFT) = shared_owners v * 4.
Proof. exact (land_field v 2 10 ltac:(done) ltac:(done)). Qed.

Lemma shared_waiters_field v :
  Z.land v (Z.shiftl PH_LOCK_SHARED_WAITERS_MASK PH_LOCK_SHARED_WAITERS_SHIFT) = shared_waiters v * 4096.
Proof. exact (land_field v 12 10 ltac:(done) ltac:(done)). Qed.

Lemma exclusive_waiters_field v :
  Z.land v (Z.shiftl PH_LOCK_EXCLUSIVE_WAITERS_MASK PH_LOCK_EXCLUSIVE_WAITERS_SHIFT) =
  exclusive_waiters v * 4194304.
Proof. exact (land_field v 22 10 ltac:(done) ltac:(done)). Qed.

Lemma exclusive_busy v :
  Z.land v (Z.lor PH_LOCK_OWNED PH_LOCK_EXCLUSIVE_WAKING) = 0 ↔ owned v = 0 ∧ waking v = 0.
Proof. rewrite land_lor_zero, owned_of, waking_of. lia. Qed.

Lemma exclusive_mask v : Z.land v PH_LOCK_EXCLUSIVE_MASK = 0 ↔ waking v = 0 ∧ exclusive_waiters v = 0.
Proof.
  unfold PH_LOCK_EXCLUSIVE_MASK. rewrite land_lor_zero, waking_of, exclusive_waiters_field. lia.
Qed.

Lemma shared_busy v :
  Z.land v (Z.lor (Z.lor PH_LOCK_OWNED (Z.shiftl PH_LOCK_SHARED_OWNERS_MASK PH_LOCK_SHARED_OWNERS_SHIFT))
     PH_LOCK_EXCLUSIVE_MASK) = 0 ↔
  owned v = 0 ∧ shared_owners v = 0 ∧ waking v = 0 ∧ exclusive_waiters v = 0.
Proof.
  rewrite !land_lor_zero, exclusive_mask, owned_of, shared_owners_field. lia.
Qed.

(** Clearing the owner bit and the count of shared waiters. *)
Lemma free_word o w so sw ew : fields o w so sw ew →
  Z.ldiff (pack o w so sw ew)
    (Z.lor PH_LOCK_OWNED (Z.shiftl PH_LOCK_SHARED_WAITERS_MASK PH_LOCK_SHARED_WAITERS_SHIFT)) = pack 0 w so 0 ew.
Proof.
  intros Hf. destruct (pack_fields _ _ _ _ _ Hf) as (Ho & _ & _ & Hsw & _). set (v := pack o w so sw ew) in *.
  rewrite <-Z.ldiff_ldiff_l.
  assert (∀ m a, Z.ldiff a m = a - Z.land a m) as Hsub.
  { intros m a. rewrite Z.sub_nocarry_ldiff.
    - apply Z.bits_inj'. intros j Hj. rewrite !Z.ldiff_spec, Z.land_spec.
      by destruct (Z.testbit a j), (Z.testbit m j).
    - apply Z.bits_inj'. intros j Hj. rewrite Z.ldiff_spec, Z.land_spec, Z.bits_0.
      by destruct (Z.testbit a j), (Z.testbit m j). }
  rewrite (Hsub _ v), owned_of, Ho, Hsub, shared_waiters_field.
  assert (shared_waiters (v - o) = sw) as ->.
  { replace (v - o) with (pack 0 w so sw ew) by (unfold v, pack; lia). apply pack_fields. unfold fields in *. lia. }
  unfold v, pack. lia.
Qed.

(** ** What the threads contribute *)

(** Threads that have exclusive access: until the word says otherwise. *)
Definition has_exclusive (t : thread) : Z :=
  match t with
  | OwnsExclusive | ReleasingExclusive (rx_read | rx_cas_hand_over _ | rx_cas_free _) => 1
  | _ => 0
  end.

Definition has_shared (t : thread) : Z :=
  match t with
  | OwnsShared | ReleasingShared (rs_read | rs_cas_one_less _ | rs_cas_hand_over _ | rs_cas_free _) => 1
  | _ => 0
  end.

(** Threads that the exclusive semaphore let go and that have not taken over yet. *)
Definition woken (t : thread) : Z :=
  match t with AcquiringExclusive (ax_read_woken | ax_cas_woken _) => 1 | _ => 0 end.

(** Threads counted by the word, or promised a unit of a semaphore, as waiters;
    a thread whose wait failed stays counted. *)
Definition awaits_exclusive (t : thread) : Z :=
  match t with AcquiringExclusive ax_wait | RaisedExclusive => 1 | _ => 0 end.
Definition awaits_shared (t : thread) : Z :=
  match t with AcquiringShared (as_wait _) | RaisedShared => 1 | _ => 0 end.

(** Units that a thread is about to add to a semaphore. *)
Definition signals_exclusive (t : thread) : Z :=
  match t with ReleasingExclusive rx_release_exclusive | ReleasingShared rs_release_exclusive => 1 | _ => 0 end.
Definition signals_shared (t : thread) : Z :=
  match t with ReleasingExclusive (rx_release_shared n) => Z.max 0 n | _ => 0 end.

(** What a thread knows of the value it has read, and of the semaphores. *)
Definition free_for_exclusive (v : Z) : Prop := owned v = 0 ∧ waking v = 0.
Definition free_for_shared (v : Z) : Prop :=
  owned v = 0 ∧ shared_owners v = 0 ∧ waking v = 0 ∧ exclusive_waiters v = 0.
Definition open_to_shared (v : Z) : Prop :=
  owned v ≠ 0 ∧ 0 < shared_owners v ∧ waking v = 0 ∧ exclusive_waiters v = 0.

Definition thread_ok (L : PH_FAST_LOCK) (t : thread) : Prop :=
  match t with
  | AcquiringExclusive p =>
      match p with
      | ax_cas_owned _ v => free_for_exclusive v
      | ax_ensure _ v _ => ¬ free_for_exclusive v
      | ax_cas_waiter _ v => ¬ free_for_exclusive v ∧ ExclusiveWakeEvent L ≠ None
      | _ => True
      end
  | AcquiringShared p =>
      match p with
      | as_cas_owned _ v => free_for_shared v
      | as_cas_shared _ v => open_to_shared v
      | as_ensure _ v _ => ¬ free_for_shared v ∧ ¬ open_to_shared v
      | as_cas_waiter _ v => (¬ free_for_shared v ∧ ¬ open_to_shared v) ∧ SharedWakeEvent L ≠ None
      | _ => True
      end
  | ReleasingExclusive p =>
      match p with
      | rx_cas_hand_over v => exclusive_waiters v ≠ 0
      | rx_cas_free v => exclusive_waiters v = 0
      | rx_release_shared n => 0 < n ≤ 1023
      | _ => True
      end
  | ReleasingShared p =>
      match p with
      | rs_cas_one_less v => 1 < shared_owners v
      | rs_cas_hand_over v => shared_owners v ≤ 1 ∧ exclusive_waiters v ≠ 0
      | rs_cas_free v => shared_owners v ≤ 1 ∧ exclusive_waiters v = 0
      | _ => True
      end
  | TryingExclusive (tx_cas v) => free_for_exclusive v
  | TryingShared (ts_cas_owned v) => owned v = 0 ∧ waking v = 0 ∧ exclusive_waiters v = 0
  | TryingShared (ts_cas_shared v) => open_to_shared v
  | _ => True
  end.

(** How the fields, the counts of the semaphores and the threads go together. *)
Record balanced (o w so sw ew cx cs X S W AX AS GX GS : Z) : Prop := {
  bal_exclusive : 0 ≤ X ≤ 1;
  bal_shared : S = so;
  bal_one : X = 1 → so = 0;
  bal_owned : o = 1 ↔ 0 < X + S;
  bal_waking : w = GX + W + cx;
  bal_not_both : o + w ≤ 1;
  bal_exclusive_waiters : ew + cx + GX = AX;
  bal_shared_waiters : sw + cs + GS = AS;
  bal_exclusive_pending : 0 < ew → o + w = 1;
  bal_shared_pending : 0 < sw → X = 1 ∨ w = 1 ∨ 0 < ew;
}.

(** At most as many threads as a count of the word can hold. *)
Definition MAX_THREADS : nat := 1023.

Definition count (h : HANDLE) : Z := default 0 h.
#[global] Arguments count : simpl never.

Record invariant (s : system) : Prop := {
  inv_threads : (length (threads s) ≤ MAX_THREADS)%nat;
  inv_local : ∀ i t, threads s !! i = Some t → thread_ok (shared s) t;
  inv_counts : 0 ≤ count (ExclusiveWakeEvent (shared s)) ∧ 0 ≤ count (SharedWakeEvent (shared s));
  inv_exclusive_event : 0 < total awaits_exclusive (threads s) → ExclusiveWakeEvent (shared s) ≠ None;
  inv_shared_event : 0 < total awaits_shared (threads s) → SharedWakeEvent (shared s) ≠ None;
  inv_word : ∃ o w so sw ew, fields o w so sw ew ∧ Value (shared s) = pack o w so sw ew ∧
    balanced o w so sw ew
      (count (ExclusiveWakeEvent (shared s))) (count (SharedWakeEvent (shared s)))
      (total has_exclusive (threads s)) (total has_shared (threads s)) (total woken (threads s))
      (total awaits_exclusive (threads s)) (total awaits_shared (threads s))
      (total signals_exclusive (threads s)) (total signals_shared (threads s));
}.

(** ** The invariant is kept *)

Ltac case_thread t := destruct t as [| | |p|p|p|p|p|p| |]; try destruct p.

Lemma weight_bounds t :
  0 ≤ has_exclusive t ≤ 1 ∧ 0 ≤ has_shared t ≤ 1 ∧ 0 ≤ woken t ≤ 1 ∧ 0 ≤ awaits_exclusive t ≤ 1 ∧
  0 ≤ awaits_shared t ≤ 1 ∧ 0 ≤ signals_exclusive t ≤ 1 ∧ 0 ≤ signals_shared t.
Proof. case_thread t; cbn; lia. Qed.

(** The totals after one thread went from [t] to [t']. *)
Definition moved (weight : thread → Z) (ts : list thread) (t t' : thread) : Z :=
  total weight ts - weight t + weight t'.

Definition word_moves (L : PH_FAST_LOCK) (ts : list thread) (t : thread) (L' : PH_FAST_LOCK) (t' : thread) : Prop :=
  ∀ o w so sw ew,
  fields o w so sw ew → Value L = pack o w so sw ew →
  balanced o w so sw ew (count (ExclusiveWakeEvent L)) (count (SharedWakeEvent L))
    (total has_exclusive ts) (total has_shared ts) (total woken ts) (total awaits_exclusive ts)
    (total awaits_shared ts) (total signals_exclusive ts) (total signals_shared ts) →
  has_exclusive t ≤ total has_exclusive ts → has_shared t ≤ total has_shared ts →
  woken t ≤ total woken ts → signals_exclusive t ≤ total signals_exclusive ts →
  signals_shared t ≤ total signals_shared ts →
  awaits_exclusive t ≤ total awaits_exclusive ts → awaits_shared t ≤ total awaits_shared ts →
  moved has_shared ts t t' ≤ 1023 → moved awaits_exclusive ts t t' ≤ 1023 → moved awaits_shared ts t t' ≤ 1023 →
  ∃ o' w' so' sw' ew', fields o' w' so' sw' ew' ∧ Value L' = pack o' w' so' sw' ew' ∧
    balanced o' w' so' sw' ew' (count (ExclusiveWakeEvent L')) (count (SharedWakeEvent L'))
      (moved has_exclusive ts t t') (moved has_shared ts t t') (moved woken ts t t')
      (moved awaits_exclusive ts t t') (moved awaits_shared ts t t') (moved signals_exclusive ts t t')
      (moved signals_shared ts t t') ∧
    0 ≤ count (ExclusiveWakeEvent L') ∧ 0 ≤ count (SharedWakeEvent L').

Lemma invariant_move L ts i t L' t' :
  invariant (System L ts) → ts !! i = Some t →
  thread_ok L' t' →
  (ExclusiveWakeEvent L ≠ None → ExclusiveWakeEvent L' ≠ None) →
  (SharedWakeEvent L ≠ None → SharedWakeEvent L' ≠ None) →
  (awaits_exclusive t < awaits_exclusive t' → ExclusiveWakeEvent L' ≠ None) →
  (awaits_shared t < awaits_shared t' → SharedWakeEvent L' ≠ None) →
  word_moves L ts t L' t' →
  invariant (System L' (<[i := t']> ts)).
Proof.
  intros [Hn Hloc Hcounts Hxe Hse (o & w & so & sw & ew & Hf & Hv & Hb)] Ht Hok Hmx Hms Hxt Hst Hword.
  cbn [shared threads] in *.
  assert (∀ f, (∀ t, 0 ≤ f t ≤ 1) → moved f ts t t' ≤ 1023) as Hmax.
  { intros f Hf1. unfold moved. rewrite <-(total_insert f ts i t t') by done.
    etrans; [apply total_length; intros u; apply Hf1|]. rewrite length_insert. unfold MAX_THREADS in Hn. lia. }
  pose proof weight_bounds as Hw.
  assert (∀ f, (∀ t, 0 ≤ f t) → f t ≤ total f ts) as Hmin by (intros; by eapply total_elem).
  edestruct (Hword o w so sw ew) as (o' & w' & so' & sw' & ew' & Hf' & Hv' & Hb' & Hc1 & Hc2);
    [done..|apply Hmin; intros u; apply Hw|apply Hmin; intros u; apply Hw|apply Hmin; intros u; apply Hw
    |apply Hmin; intros u; apply Hw|apply Hmin; intros u; apply Hw|apply Hmin; intros u; apply Hw
    |apply Hmin; intros u; apply Hw|apply Hmax; intros u; apply Hw|apply Hmax; intros u; apply Hw
    |apply Hmax; intros u; apply Hw|].
  split; cbn [shared threads].
  - by rewrite length_insert.
  - intros j u. destruct (decide (j = i)) as [->|Hji].
    + rewrite list_lookup_insert_eq by (by eapply lookup_lt_Some). by intros [= <-].
    + rewrite list_lookup_insert_ne by done. intros Hu. specialize (Hloc j u Hu). clear -Hloc Hmx Hms.
      case_thread u; cbn in *; tauto.
  - done.
  - rewrite (total_insert _ _ _ _ _ Ht). intros Hpos.
    destruct (Z.lt_decidable (awaits_exclusive t) (awaits_exclusive t')) as [H|H]; [by apply Hxt|].
    apply Hmx, Hxe. lia.
  - rewrite (total_insert _ _ _ _ _ Ht). intros Hpos.
    destruct (Z.lt_decidable (awaits_shared t) (awaits_shared t')) as [H|H]; [by apply Hst|].
    apply Hms, Hse. lia.
  - exists o', w', so', sw', ew'. split_and!; [done|done|]. rewrite !(total_insert _ _ _ _ _ Ht). exact Hb'.
Qed.

(** A step that leaves the word and the counts as they are. *)
Lemma word_still L ts t L' t' :
  Value L' = Value L →
  count (ExclusiveWakeEvent L') = count (ExclusiveWakeEvent L) →
  count (SharedWakeEvent L') = count (SharedWakeEvent L) →
  0 ≤ count (ExclusiveWakeEvent L) ∧ 0 ≤ count (SharedWakeEvent L) →
  (has_exclusive t = has_exclusive t' ∧ has_shared t = has_shared t' ∧ woken t = woken t' ∧
   signals_exclusive t = signals_exclusive t' ∧ signals_shared t = signals_shared t' ∧
   awaits_exclusive t = awaits_exclusive t' ∧ awaits_shared t = awaits_shared t') →
  word_moves L ts t L' t'.
Proof.
  intros Hv Hx Hs Hc Heq o w so sw ew Hf Hv0 Hb. intros. exists o, w, so, sw, ew. rewrite Hv, Hx, Hs.
  split_and!; [done|done| |lia..]. unfold moved.
  destruct Heq as (-> & -> & -> & -> & -> & -> & ->). by rewrite !Z.sub_add.
Qed.

(** Everything [invariant_move] asks of a step. *)
Record good_move (L : PH_FAST_LOCK) (ts : list thread) (t : thread) (L' : PH_FAST_LOCK) (t' : thread) : Prop := {
  move_local : thread_ok L' t';
  move_exclusive_event : ExclusiveWakeEvent L ≠ None → ExclusiveWakeEvent L' ≠ None;
  move_shared_event : SharedWakeEvent L ≠ None → SharedWakeEvent L' ≠ None;
  move_exclusive_await : awaits_exclusive t < awaits_exclusive t' → ExclusiveWakeEvent L' ≠ None;
  move_shared_await : awaits_shared t < awaits_shared t' → SharedWakeEvent L' ≠ None;
  move_word : word_moves L ts t L' t';
}.

(** What the operations of the system do to the counts. *)

Lemma ensure_created h p h' p' : PhpEnsureEventCreated h p = (h', p') →
  count h' = count h ∧ (h ≠ None → h' ≠ None) ∧ (p' = None → h' ≠ None).
Proof. destruct p, h; intros [= <- <-]; cbn; naive_solver. Qed.

Lemma wait_counts faults h h' (ok : bool) : (h', ok) ∈ NtWaitForSingleObject faults h → 0 ≤ count h →
  (h ≠ None → h' ≠ None) ∧
  (if ok then 0 < count h ∧ count h' = count h - 1 else h' = h).
Proof.
  destruct h as [c|]; cbn; [|rewrite list_elem_of_singleton; by intros [= -> ->]].
  rewrite elem_of_app. intros [Hin|Hin]; case_match; in_list Hin; simplify_eq; (split; [done|unfold count; cbn in *; done || lia]).
Qed.

Lemma release_counts h n : h ≠ None → count h + n ≤ MAXLONG →
  count (NtReleaseSemaphore h n) = count h + n ∧ NtReleaseSemaphore h n ≠ None.
Proof. destruct h as [c|]; [|done]. unfold count. cbn. intros _ Hle. case_match; [done|lia]. Qed.

(** A successful exchange: the new fields. *)
Lemma cas_counts L new old L' (ok : bool) : InterlockedCompareExchange L new old = (L', ok) →
  ExclusiveWakeEvent L' = ExclusiveWakeEvent L ∧ SharedWakeEvent L' = SharedWakeEvent L ∧
  (if ok then Value L = old ∧ Value L' = u32 new else Value L' = Value L).
Proof. unfold InterlockedCompareExchange. destruct (Z.eqb_spec (Value L) old); by intros [= <- <-]. Qed.

Lemma exclusive_free v : (Z.land v (Z.lor PH_LOCK_OWNED PH_LOCK_EXCLUSIVE_WAKING) =? 0) = true ↔ free_for_exclusive v.
Proof. by rewrite Z.eqb_eq, exclusive_busy. Qed.

Lemma shared_free v :
  (Z.land v (Z.lor (Z.lor PH_LOCK_OWNED (Z.shiftl PH_LOCK_SHARED_OWNERS_MASK PH_LOCK_SHARED_OWNERS_SHIFT))
     PH_LOCK_EXCLUSIVE_MASK) =? 0) = true ↔ free_for_shared v.
Proof. by rewrite Z.eqb_eq, shared_busy. Qed.

Lemma shared_open v :
  negb (Z.land v PH_LOCK_OWNED =? 0) &&
  (0 <? Z.land (Z.shiftr v PH_LOCK_SHARED_OWNERS_SHIFT) PH_LOCK_SHARED_OWNERS_MASK) &&
  (Z.land v PH_LOCK_EXCLUSIVE_MASK =? 0) = true ↔ open_to_shared v.
Proof.
  unfold open_to_shared. rewrite !andb_true_iff, negb_true_iff, Z.ltb_lt, Z.eqb_neq, Z.eqb_eq.
  rewrite exclusive_mask, owned_of, shared_owners_of. tauto.
Qed.

(** Settle the fields of a new word from the balance of the old one. *)
Ltac settle :=
  intros;
  match goal with Hb : balanced _ _ _ _ _ _ _ _ _ _ _ _ _ _ |- _ => destruct Hb end;
  unfold fields, pack, moved, free_for_exclusive, free_for_shared, open_to_shared, PH_LOCK_OWNED, PH_LOCK_EXCLUSIVE_WAKING,
    PH_LOCK_SHARED_OWNERS_INC, PH_LOCK_SHARED_WAITERS_INC, PH_LOCK_EXCLUSIVE_WAITERS_INC in *;
  cbn [has_exclusive has_shared woken awaits_exclusive awaits_shared signals_exclusive signals_shared] in *;
  split_and!; lazymatch goal with
    | |- balanced _ _ _ _ _ _ _ _ _ _ _ _ _ _ => split; lia
    | |- u32 _ = _ => rewrite u32_small; lia
    | |- _ => lia
    end.

Section Moves.
Context (NumberOfProcessors : Z) (faults : bool) (L : PH_FAST_LOCK) (ts : list thread).
Context (HI : invariant (System L ts)).

Let Hcounts : 0 ≤ count (ExclusiveWakeEvent L) ∧ 0 ≤ count (SharedWakeEvent L) := inv_counts _ HI.

Lemma thread_weights i t : ts !! i = Some t →
  thread_ok L t ∧
  has_exclusive t ≤ total has_exclusive ts ∧ has_shared t ≤ total has_shared ts ∧ woken t ≤ total woken ts ∧
  awaits_exclusive t ≤ total awaits_exclusive ts ∧ awaits_shared t ≤ total awaits_shared ts ∧
  signals_exclusive t ≤ total signals_exclusive ts ∧ signals_shared t ≤ total signals_shared ts.
Proof.
  intros Ht. split; [by apply (inv_local _ HI i)|]. pose proof weight_bounds as Hw.
  split_and!; (eapply total_elem; [intros u; apply Hw|done]).
Qed.

Lemma exclusive_event_of i t : ts !! i = Some t → 0 < awaits_exclusive t + signals_exclusive t →
  ExclusiveWakeEvent L ≠ None ∧ 0 ≤ count (ExclusiveWakeEvent L) ≤ 1.
Proof.
  intros Ht Hpos. pose proof weight_bounds as Hw.
  destruct (thread_weights i t Ht) as (_ & ? & ? & ? & ? & ? & ? & ?).
  destruct (inv_word _ HI) as (o & w & so & sw & ew & Hf & _ & []). cbn [shared threads] in *. unfold fields in Hf.
  assert (0 ≤ total woken ts) by (apply total_nonneg; intros u; apply Hw).
  assert (0 ≤ total signals_exclusive ts) by (apply total_nonneg; intros u; apply Hw).
  pose proof (Hw t). split; [apply (inv_exclusive_event _ HI); cbn [threads]; lia|lia].
Qed.

Lemma shared_event_of i t : ts !! i = Some t → 0 < awaits_shared t + signals_shared t →
  SharedWakeEvent L ≠ None ∧ 0 ≤ count (SharedWakeEvent L) ∧
  count (SharedWakeEvent L) + total signals_shared ts ≤ 1023.
Proof.
  intros Ht Hpos. pose proof weight_bounds as Hw.
  destruct (thread_weights i t Ht) as (_ & ? & ? & ? & ? & ? & ? & ?).
  destruct (inv_word _ HI) as (o & w & so & sw & ew & Hf & _ & []). cbn [shared threads] in *. unfold fields in Hf.
  assert (total awaits_shared ts ≤ 1023).
  { etrans; [apply total_length; intros u; apply Hw|]. pose proof (inv_threads _ HI) as Hn. unfold MAX_THREADS in Hn. cbn [threads] in Hn. lia. }
  pose proof (Hw t). split; [apply (inv_shared_event _ HI); cbn [threads]; lia|lia].
Qed.

Lemma still_move t L' t' :
  thread_ok L' t' → Value L' = Value L →
  count (ExclusiveWakeEvent L') = count (ExclusiveWakeEvent L) →
  count (SharedWakeEvent L') = count (SharedWakeEvent L) →
  (ExclusiveWakeEvent L ≠ None → ExclusiveWakeEvent L' ≠ None) →
  (SharedWakeEvent L ≠ None → SharedWakeEvent L' ≠ None) →
  (has_exclusive t = has_exclusive t' ∧ has_shared t = has_shared t' ∧ woken t = woken t' ∧
   signals_exclusive t = signals_exclusive t' ∧ signals_shared t = signals_shared t' ∧
   awaits_exclusive t = awaits_exclusive t' ∧ awaits_shared t = awaits_shared t') →
  good_move L ts t L' t'.
Proof. intros. split; [done|done|done|lia|lia|by apply word_still]. Qed.

Lemma exchange_move t t' new old :
  Value L = old →
  thread_ok (with_value L (u32 new)) t' →
  (awaits_exclusive t < awaits_exclusive t' → ExclusiveWakeEvent L ≠ None) →
  (awaits_shared t < awaits_shared t' → SharedWakeEvent L ≠ None) →
  (∀ o w so sw ew, fields o w so sw ew → old = pack o w so sw ew →
    owned old = o → waking old = w → shared_owners old = so → shared_waiters old = sw → exclusive_waiters old = ew →
    balanced o w so sw ew (count (ExclusiveWakeEvent L)) (count (SharedWakeEvent L))
      (total has_exclusive ts) (total has_shared ts) (total woken ts) (total awaits_exclusive ts)
      (total awaits_shared ts) (total signals_exclusive ts) (total signals_shared ts) →
    has_exclusive t ≤ total has_exclusive ts → has_shared t ≤ total has_shared ts →
    woken t ≤ total woken ts → signals_exclusive t ≤ total signals_exclusive ts →
    0 ≤ count (ExclusiveWakeEvent L) → 0 ≤ count (SharedWakeEvent L) → 0 ≤ total signals_shared ts →
    moved has_shared ts t t' ≤ 1023 → moved awaits_exclusive ts t t' ≤ 1023 → moved awaits_shared ts t t' ≤ 1023 →
    ∃ o' w' so' sw' ew', fields o' w' so' sw' ew' ∧ u32 new = pack o' w' so' sw' ew' ∧
      balanced o' w' so' sw' ew' (count (ExclusiveWakeEvent L)) (count (SharedWakeEvent L))
        (moved has_exclusive ts t t') (moved has_shared ts t t') (moved woken ts t t')
        (moved awaits_exclusive ts t t') (moved awaits_shared ts t t') (moved signals_exclusive ts t t')
        (moved signals_shared ts t t')) →
  good_move L ts t (with_value L (u32 new)) t'.
Proof.
  intros <- Hok Hx Hs Hw. split; [done..|].
  intros o w so sw ew Hf Hv Hb. intros. destruct (pack_fields _ _ _ _ _ Hf) as (? & ? & ? & ? & ?).
  destruct (Hw o w so sw ew) as (o' & w' & so' & sw' & ew' & ? & ? & ?); rewrite ?Hv; try done; try lia.
  { pose proof (weight_bounds t). lia. }
  exists o', w', so', sw', ew'. by cbn.
Qed.

Lemma acquire_exclusive_move i p L' r :
  ts !! i = Some (AcquiringExclusive p) →
  (L', r) ∈ PhfAcquireFastLockExclusive NumberOfProcessors faults L p →
  good_move L ts (AcquiringExclusive p) L' (after AcquiringExclusive (λ _, OwnsExclusive) RaisedExclusive (L', r)).2.
Proof.
  intros Ht Hin. destruct (thread_weights _ _ Ht) as [Hok _]. pose proof (exclusive_event_of _ _ Ht) as Hevent. destruct p as [k|k v|k v p|k v| | |v]; cbn [PhfAcquireFastLockExclusive] in Hin; cbn in Hok, Hevent;
    unfold InterlockedCompareExchange in Hin.
  - destruct (exclusive_free (Value L)).
    case_match; [|case_match]; in_list Hin; simplify_eq; apply still_move; try done; cbn; naive_solver.
  - destruct (Z.eqb_spec (Value L) v); in_list Hin; simplify_eq; [|by apply still_move].
    eapply exchange_move; cbn; [done|done|lia|lia|]. intros o w so sw ew. exists 1, w, so, sw, ew. settle.
  - destruct (PhpEnsureEventCreated _ p) as [h p'] eqn:He. apply ensure_created in He as (? & ? & ?).
    destruct p'; in_list Hin; simplify_eq; apply still_move; cbn; naive_solver.
  - destruct (Z.eqb_spec (Value L) v); in_list Hin; simplify_eq; [|by apply still_move].
    eapply exchange_move; cbn; [done|done|naive_solver|lia|]. destruct Hok as [Hok _]. intros o w so sw ew. exists o, w, so, sw, (ew + 1). settle.
  - apply list_elem_of_bind in Hin as ([h ok] & Hin & Hw). apply wait_counts in Hw as [Hh Hok']; [|lia].
    destruct ok; cbn in Hok'; in_list Hin; simplify_eq; cbn.
    + split; cbn; [done|done|done|lia|lia|].
      intros o w so sw ew. intros. cbn. exists o, w, so, sw, ew. settle.
    + by apply still_move; cbn; rewrite ?Hok'.
  - in_list Hin; simplify_eq. by apply still_move.
  - destruct (Z.eqb_spec (Value L) v); in_list Hin; simplify_eq; [|by apply still_move].
    eapply exchange_move; cbn; [done|done|lia|lia|]. intros o w so sw ew. exists 1, 0, so, sw, ew. settle.
Qed.

Lemma acquire_shared_move i p L' r :
  ts !! i = Some (AcquiringShared p) →
  (L', r) ∈ PhfAcquireFastLockShared NumberOfProcessors faults L p →
  good_move L ts (AcquiringShared p) L' (after AcquiringShared (λ _, OwnsShared) RaisedShared (L', r)).2.
Proof.
  intros Ht Hin. destruct (thread_weights _ _ Ht) as [Hok _]. pose proof (shared_event_of _ _ Ht) as Hevent. destruct p as [k|k v|k v|k v p|k v|k]; cbn [PhfAcquireFastLockShared] in Hin; cbn in Hok, Hevent;
    unfold InterlockedCompareExchange in Hin.
  - destruct (shared_free (Value L)), (shared_open (Value L)).
    case_match; [|case_match; [|case_match]]; in_list Hin; simplify_eq; apply still_move; try done; cbn; naive_solver.
  - destruct (Z.eqb_spec (Value L) v); in_list Hin; simplify_eq; [|by apply still_move].
    eapply exchange_move; cbn; [done|done|lia|lia|]. intros o w so sw ew. exists 1, w, 1, sw, ew. settle.
  - destruct (Z.eqb_spec (Value L) v); in_list Hin; simplify_eq; [|by apply still_move].
    eapply exchange_move; cbn; [done|done|lia|lia|]. intros o w so sw ew. exists o, w, (so + 1), sw, ew. settle.
  - destruct (PhpEnsureEventCreated _ p) as [h p'] eqn:He. apply ensure_created in He as (? & ? & ?).
    destruct p'; in_list Hin; simplify_eq; apply still_move; cbn; naive_solver.
  - destruct (Z.eqb_spec (Value L) v); in_list Hin; simplify_eq; [|by apply still_move].
    eapply exchange_move; cbn; [done|done|lia|naive_solver|]. destruct Hok as [Hok _].
    intros o w so sw ew. exists o, w, so, (sw + 1), ew. settle.
  - apply list_elem_of_bind in Hin as ([h ok] & Hin & Hw). apply wait_counts in Hw as [Hh Hok']; [|lia].
    destruct ok; in_list Hin; simplify_eq; cbn.
    + split; cbn; [done|done|done|lia|lia|].
      intros o w so sw ew. intros. cbn. exists o, w, so, sw, ew. settle.
    + by apply still_move; cbn; rewrite ?Hok'.
Qed.

Lemma signal_exclusive_move i t : ts !! i = Some t →
  t = ReleasingExclusive rx_release_exclusive ∨ t = ReleasingShared rs_release_exclusive →
  good_move L ts t (with_exclusive L (NtReleaseSemaphore (ExclusiveWakeEvent L) 1)) Idle.
Proof.
  intros Ht Hwhich. destruct (exclusive_event_of _ _ Ht) as [He Hc]; [by destruct Hwhich as [-> | ->]|].
  destruct (release_counts _ 1 He) as [Hn Hne]; [unfold MAXLONG; lia|].
  split; cbn; [done|done|done|pose proof (weight_bounds t); lia|pose proof (weight_bounds t); lia|].
  intros o w so sw ew. intros. exists o, w, so, sw, ew. cbn. rewrite Hn. destruct Hwhich as [-> | ->]; settle.
Qed.

Lemma release_exclusive_move i p L' r :
  ts !! i = Some (ReleasingExclusive p) →
  (L', r) ∈ PhfReleaseFastLockExclusive L p →
  good_move L ts (ReleasingExclusive p) L' (after ReleasingExclusive (λ _, Idle) Idle (L', r)).2.
Proof.
  intros Ht Hin. destruct (thread_weights _ _ Ht) as [Hok _]. destruct p as [|v| |v|n]; cbn [PhfReleaseFastLockExclusive] in Hin; cbn in Hok;
    unfold InterlockedCompareExchange in Hin.
  - rewrite exclusive_waiters_of in Hin. case_match; in_list Hin; simplify_eq; apply still_move; try done; cbn; lia.
  - destruct (Z.eqb_spec (Value L) v); in_list Hin; simplify_eq; [|by apply still_move].
    eapply exchange_move; cbn; [done|done|lia|lia|]. intros o w so sw ew. exists 0, 1, so, sw, (ew - 1). settle.
  - in_list Hin; simplify_eq. apply (signal_exclusive_move i); auto.
  - destruct (Z.eqb_spec (Value L) v); [|in_list Hin; simplify_eq; by apply still_move].
    rewrite shared_waiters_of in Hin. assert (Hrange : 0 ≤ shared_waiters v < 1024) by (by apply Z.mod_pos_bound).
    destruct (Z.eqb_spec (shared_waiters v) 0); in_list Hin; simplify_eq;
      (apply (exchange_move _ _ _ (Value L)); cbn; [reflexivity|lia|lia|lia|]; intros o w so sw ew ? Hv;
       pose proof (free_word o w so sw ew ltac:(done)) as Hfree; rewrite <-Hv in Hfree; rewrite Hfree;
       exists 0, w, so, 0, ew; settle).
  - in_list Hin; simplify_eq.
    destruct (shared_event_of _ _ Ht) as (He & Hc & Hsum); [cbn; lia|].
    destruct (thread_weights _ _ Ht) as (_ & _ & _ & _ & _ & _ & _ & Hw). cbn in Hw.
    destruct (release_counts _ n He) as [Hn Hne]; [unfold MAXLONG; lia|].
    split; cbn; [done|done|done|lia|lia|].
    intros o w so sw ew. intros. exists o, w, so, sw, ew. cbn. rewrite Hn. settle.
Qed.
Lemma release_shared_move i p L' r :
  ts !! i = Some (ReleasingShared p) →
  (L', r) ∈ PhfReleaseFastLockShared L p →
  good_move L ts (ReleasingShared p) L' (after ReleasingShared (λ _, Idle) Idle (L', r)).2.
Proof.
  intros Ht Hin. destruct (thread_weights _ _ Ht) as [Hok _]. destruct p as [|v|v| |v];
    cbn [PhfReleaseFastLockShared] in Hin; cbn in Hok; unfold InterlockedCompareExchange in Hin.
  - rewrite shared_owners_of, exclusive_waiters_of in Hin.
    case_match; [|case_match]; in_list Hin; simplify_eq; apply still_move; try done; cbn; lia.
  - destruct (Z.eqb_spec (Value L) v); in_list Hin; simplify_eq; [|by apply still_move].
    eapply exchange_move; cbn; [done|done|lia|lia|]. intros o w so sw ew. exists o, w, (so - 1), sw, ew. settle.
  - destruct (Z.eqb_spec (Value L) v); in_list Hin; simplify_eq; [|by apply still_move].
    eapply exchange_move; cbn; [done|done|lia|lia|]. intros o w so sw ew. exists 0, 1, 0, sw, (ew - 1). settle.
  - in_list Hin; simplify_eq. apply (signal_exclusive_move i); auto.
  - destruct (Z.eqb_spec (Value L) v); in_list Hin; simplify_eq; [|by apply still_move].
    eapply exchange_move; cbn; [done|done|lia|lia|]. intros o w so sw ew. exists 0, w, 0, sw, ew. settle.
Qed.

Lemma try_exclusive_move i p L' r :
  ts !! i = Some (TryingExclusive p) →
  (L', r) ∈ PhfTryAcquireFastLockExclusive L p →
  good_move L ts (TryingExclusive p) L'
    (after TryingExclusive (λ result : bool, if result then OwnsExclusive else Idle) Idle (L', r)).2.
Proof.
  intros Ht Hin. destruct (thread_weights _ _ Ht) as [Hok _]. destruct p as [|v];
    cbn [PhfTryAcquireFastLockExclusive] in Hin; cbn in Hok; unfold InterlockedCompareExchange in Hin.
  - destruct (exclusive_free (Value L)). case_match; in_list Hin; simplify_eq; apply still_move; try done; cbn; naive_solver.
  - destruct (Z.eqb_spec (Value L) v); in_list Hin; simplify_eq; [|by apply still_move].
    eapply exchange_move; cbn; [done|done|lia|lia|]. intros o w so sw ew. exists 1, w, so, sw, ew. settle.
Qed.

Lemma try_shared_move i p L' r :
  ts !! i = Some (TryingShared p) →
  (L', r) ∈ PhfTryAcquireFastLockShared L p →
  good_move L ts (TryingShared p) L'
    (after TryingShared (λ result : bool, if result then OwnsShared else Idle) Idle (L', r)).2.
Proof.
  intros Ht Hin. destruct (thread_weights _ _ Ht) as [Hok _]. destruct p as [|v|v];
    cbn [PhfTryAcquireFastLockShared] in Hin; cbn in Hok; unfold InterlockedCompareExchange in Hin.
  - destruct (exclusive_mask (Value L)). rewrite owned_of, shared_owners_of in Hin.
    assert (0 ≤ shared_owners (Value L) < 1024) by (by apply Z.mod_pos_bound).
    unfold negb in Hin. repeat case_match; in_list Hin; simplify_eq; apply still_move; try done; cbn; unfold open_to_shared; lia.
  - destruct (Z.eqb_spec (Value L) v); in_list Hin; simplify_eq; [|by apply still_move].
    eapply exchange_move; cbn; [done|done|lia|lia|]. intros o w so sw ew. exists 1, w, 1, sw, ew. settle.
  - destruct (Z.eqb_spec (Value L) v); in_list Hin; simplify_eq; [|by apply still_move].
    eapply exchange_move; cbn; [done|done|lia|lia|]. intros o w so sw ew. exists o, w, (so + 1), sw, ew. settle.
Qed.

(** A call, and the start of a release. *)
Lemma next_move i t L' t' :
  ts !! i = Some t → (L', t') ∈ next NumberOfProcessors faults L t → good_move L ts t L' t'.
Proof.
  intros Ht Hin. destruct t; cbn [next] in Hin;
    try (apply list_elem_of_fmap in Hin as ([L1 r] & [= -> ->] & Hin));
    try (by apply elem_of_nil in Hin).
  1-3: in_list Hin; simplify_eq; by apply still_move.
  - by eapply acquire_exclusive_move.
  - by eapply acquire_shared_move.
  - by eapply release_exclusive_move.
  - by eapply release_shared_move.
  - by eapply try_exclusive_move.
  - by eapply try_shared_move.
Qed.
End Moves.

Lemma invariant_step NumberOfProcessors faults s s' :
  invariant s → step (next NumberOfProcessors faults) s s' → invariant s'.
Proof.
  intros HI Hs. destruct Hs as [i L ts t L' t' Ht Hin].
  destruct (next_move _ _ _ _ HI _ _ _ _ Ht Hin). by eapply invariant_move.
Qed.

(** *** The start *)

Definition start (n : nat) : system := System PhInitializeFastLock (replicate n Idle).

Lemma invariant_start n : (n ≤ MAX_THREADS)%nat → invariant (start n).
Proof.
  intros Hn. split; cbn [shared threads start].
  - by rewrite length_replicate.
  - by intros i t [-> _]%lookup_replicate.
  - done.
  - rewrite total_replicate. cbn. lia.
  - rewrite total_replicate. cbn. lia.
  - exists 0, 0, 0, 0, 0. rewrite !total_replicate. cbn [has_exclusive has_shared woken awaits_exclusive awaits_shared signals_exclusive signals_shared].
    split_and!; [done|done|]. split; unfold count; cbn; lia.
Qed.

Lemma invariant_reachable NumberOfProcessors faults n s :
  (n ≤ MAX_THREADS)%nat → reachable (next NumberOfProcessors faults) (start n) s → invariant s.
Proof. intros Hn. apply reachable_invariant; [by apply invariant_start|]. intros. by eapply invariant_step. Qed.
