(* ===== verification/FastLockTheorems.v ===== *)
(** The fast lock: what holds in every state that threads using the lock can
    reach, whatever the order in which they run. *)

From S2P Require Import Prelude Concurrency RwLock FastLock FastLockFacts.

(** A thread has access from the exchange that acquires the lock up to the
    exchange that releases it. *)
Definition access_of (t : thread) : access :=
  if has_exclusive t =? 1 then ExclusiveAccess
  else if has_shared t =? 1 then SharedAccess
  else NoAccess.

Definition accesses (s : @system PH_FAST_LOCK thread) : list access := access_of <$> threads s.

(** ** What the word says of the accesses *)

Lemma access_of_exclusive t : access_of t = ExclusiveAccess ↔ has_exclusive t = 1.
Proof. unfold access_of. repeat case_match; split; (done || lia). Qed.

Lemma access_of_shared t : access_of t = SharedAccess ↔ has_shared t = 1.
Proof. case_thread t; cbn; done. Qed.

Lemma exclusive_total ts : 0 < total has_exclusive ts ↔ ExclusiveAccess ∈ access_of <$> ts.
Proof. apply access_total; [apply weight_bounds|apply access_of_exclusive]. Qed.

Lemma shared_total ts : 0 < total has_shared ts ↔ SharedAccess ∈ access_of <$> ts.
Proof. apply access_total; [apply weight_bounds|apply access_of_shared]. Qed.

(** What an exchange that succeeds knows of the others. *)
Lemma free_accesses s : invariant s → owned (Value (shared s)) = 0 →
  ExclusiveAccess ∉ accesses s ∧ SharedAccess ∉ accesses s.
Proof.
  intros HI Ho. destruct (inv_word _ HI) as (o & w & so & sw & ew & Hf & Hv & []).
  destruct (pack_fields _ _ _ _ _ Hf) as (Ho' & _). rewrite <-Hv in Ho'. unfold accesses, fields in *.
  rewrite <-exclusive_total, <-shared_total. lia.
Qed.

Lemma open_accesses s : invariant s → 0 < shared_owners (Value (shared s)) → ExclusiveAccess ∉ accesses s.
Proof.
  intros HI Ho. destruct (inv_word _ HI) as (o & w & so & sw & ew & Hf & Hv & []).
  destruct (pack_fields _ _ _ _ _ Hf) as (_ & _ & Ho' & _). rewrite <-Hv in Ho'. unfold accesses, fields in *.
  rewrite <-exclusive_total. lia.
Qed.

Lemma woken_accesses s i t : invariant s → threads s !! i = Some t → woken t = 1 → owned (Value (shared s)) = 0.
Proof.
  intros HI Ht Hw1. destruct (inv_word _ HI) as (o & w & so & sw & ew & Hf & Hv & []).
  destruct (pack_fields _ _ _ _ _ Hf) as (Ho' & _). rewrite <-Hv in Ho'. pose proof weight_bounds as Hw.
  destruct (inv_counts _ HI) as [Hc _]. unfold fields in Hf.
  assert (woken t ≤ total woken (threads s)) by (eapply total_elem; [intros u; apply Hw|done]).
  assert (0 ≤ total signals_exclusive (threads s)) by (apply total_nonneg; intros u; apply Hw). lia.
Qed.

(** A step that gives a thread access, by what it finds in the word. *)
Lemma next_access NumberOfProcessors faults L ts i t L' t' :
  invariant (System L ts) → ts !! i = Some t → (L', t') ∈ next NumberOfProcessors faults L t →
  access_of t' = access_of t ∨
  access_of t = NoAccess ∧ access_of t' = ExclusiveAccess ∧ owned (Value L) = 0 ∨
  access_of t = NoAccess ∧ access_of t' = SharedAccess ∧ (owned (Value L) = 0 ∨ 0 < shared_owners (Value L)) ∨
  access_of t ≠ NoAccess ∧ access_of t' = NoAccess.
Proof.
  intros HI Ht Hin. pose proof (inv_local _ HI i t Ht) as Hok. cbn [shared] in Hok.
  pose proof (woken_accesses _ i t HI Ht) as Hwoken. cbn [shared] in Hwoken. clear HI Ht.
  destruct t as [| | |p|p|p|p|p|p| |]; cbn [next] in Hin;
    try (apply list_elem_of_fmap in Hin as ([L1 r] & [= -> ->] & Hin));
    try (by apply elem_of_nil in Hin); try destruct p; cbn in Hin, Hok, Hwoken;
    try (apply list_elem_of_bind in Hin as ([? []] & Hin & _)).
  all: unfold InterlockedCompareExchange, free_for_exclusive, free_for_shared, open_to_shared in *.
  all: repeat case_match; in_list Hin; simplify_eq; cbn; try (by left);
    try match goal with H : (Value ?L =? ?v) = true |- _ => apply Z.eqb_eq in H; subst v end; naive_solver.
Qed.

Lemma access_next NumberOfProcessors faults s s' :
  invariant s → step (next NumberOfProcessors faults) s s' → rw_step (accesses s) (accesses s').
Proof.
  intros HI Hs. destruct Hs as [i L ts t L' t' Ht Hin].
  pose proof (free_accesses _ HI) as Hfree. pose proof (open_accesses _ HI) as Hopen.
  assert (Ha : accesses (System L ts) !! i = Some (access_of t)) by (unfold accesses; cbn; by rewrite list_lookup_fmap, Ht).
  unfold accesses in *. cbn [shared threads] in *. rewrite list_fmap_insert.
  destruct (next_access _ _ _ _ _ _ _ _ HI Ht Hin) as [-> | [(H1 & -> & Ho) | [(H1 & -> & Ho) | (H1 & ->)]]].
  - rewrite list_insert_id by done. constructor.
  - apply rw_exclusive; [by rewrite <-H1|by apply Hfree..].
  - apply rw_shared; [by rewrite <-H1|]. destruct Ho; [by apply Hfree|by apply Hopen].
  - by apply (rw_release _ _ (access_of t)).
Qed.

(** ** Draining *)

Definition raised (t : thread) : bool :=
  match t with RaisedExclusive | RaisedShared => true | _ => false end.

(** How far a thread is from being idle, when the threads run in a favourable order. *)
Definition distance (t : thread) : nat :=
  match t with
  | Idle => 0
  | ReleasingExclusive _ | ReleasingShared _ => 1
  | OwnsExclusive | OwnsShared => 2
  | _ => 3
  end.

Section Alone.
Context (NumberOfProcessors : Z).

Local Abbreviation reaches := (reaches (next NumberOfProcessors false)).

Lemma exchange_succeeds L new old : Value L = old →
  InterlockedCompareExchange L new old = (with_value L (u32 new), true).
Proof. unfold InterlockedCompareExchange. by intros ->%Z.eqb_eq. Qed.

Lemma exchange_fails L new old : Value L ≠ old → InterlockedCompareExchange L new old = (L, false).
Proof. unfold InterlockedCompareExchange. by intros ->%Z.eqb_neq. Qed.

Ltac next_point := apply reaches_next; unfold next, fmap, list_fmap; cbn -[Z.land Z.lor Z.shiftl Z.shiftr].

(** An exchange either succeeds or finds the value changed. *)
Ltac exchange :=
  match goal with
  | |- context [InterlockedCompareExchange ?L ?new ?old] =>
      first [rewrite (exchange_succeeds L new old) by done
            | rewrite (exchange_fails L new old) by done
            | destruct (decide (Value L = old)); [rewrite (exchange_succeeds L new old) by done|rewrite (exchange_fails L new old) by done]]
  end; cbn.

(** Follow both branches of a test. *)
Ltac branch := match goal with |- context [if ?b then _ else _] => destruct b eqn:? end; cbn -[Z.land Z.lor Z.shiftl Z.shiftr].

Definition becomes (t : thread) : PH_FAST_LOCK → thread → Prop := λ _ t', t' = t.

#[local] Hint Extern 0 (becomes _ _ _) => reflexivity : core.

Lemma release_exclusive_alone L p : reaches L (ReleasingExclusive p) (becomes Idle).
Proof.
  assert (∀ L, reaches L (ReleasingExclusive rx_release_exclusive) (becomes Idle)) as Hx.
  { intros L0. next_point. by apply reaches_here. }
  assert (∀ L n, reaches L (ReleasingExclusive (rx_release_shared n)) (becomes Idle)) as Hs.
  { intros L0 n. next_point. by apply reaches_here. }
  assert (∀ L, reaches L (ReleasingExclusive rx_read) (becomes Idle)) as Hread.
  { intros L0. next_point. branch; next_point; exchange; try branch; auto using reaches_here. }
  destruct p; try done; next_point; exchange; try branch; auto using reaches_here.
Qed.

Lemma release_shared_alone L p : reaches L (ReleasingShared p) (becomes Idle).
Proof.
  assert (∀ L, reaches L (ReleasingShared rs_release_exclusive) (becomes Idle)) as Hx.
  { intros L0. next_point. by apply reaches_here. }
  assert (∀ L, reaches L (ReleasingShared rs_read) (becomes Idle)) as Hread.
  { intros L0. next_point. branch; [|branch]; next_point; exchange; auto using reaches_here. }
  destruct p; try done; next_point; exchange; auto using reaches_here.
Qed.

Lemma woken_alone L t : woken t = 1 → reaches L t (becomes OwnsExclusive).
Proof.
  assert (∀ L, reaches L (AcquiringExclusive ax_read_woken) (becomes OwnsExclusive)) as Hread.
  { intros L0. next_point. next_point. exchange. auto using reaches_here. }
  case_thread t; cbn; try done. intros _. next_point; exchange; auto using reaches_here.
Qed.

(** On a free word a thread that acquires gets there, and a thread that tries
    gets there or gives up. *)
Definition closer (t : thread) : PH_FAST_LOCK → thread → Prop :=
  λ _ t', raised t' = false ∧ (distance t' < distance t)%nat.

Ltac nearer := unfold closer; (split; [done|cbn; lia]).
Ltac arrive := apply reaches_here; nearer.

Lemma acquire_exclusive_alone L p :
  Value L = 0 → thread_ok L (AcquiringExclusive p) → p ≠ ax_wait →
  reaches L (AcquiringExclusive p) (closer (AcquiringExclusive p)).
Proof.
  intros HL. assert (∀ L i, Value L = 0 → reaches L (AcquiringExclusive (ax_read i)) (closer (AcquiringExclusive p))) as Hread.
  { intros L0 i H0. next_point. rewrite H0. cbn. next_point. exchange. arrive. }
  assert (∀ L i v, Value L = 0 → ¬ free_for_exclusive v →
     reaches L (AcquiringExclusive (ax_cas_waiter i v)) (closer (AcquiringExclusive p))) as Hwaiter.
  { intros L0 i v H0 Hv. next_point. assert (Value L0 ≠ v) by (rewrite H0; intros <-; by apply Hv). exchange. auto. }
  assert (∀ L i v e, Value L = 0 → ¬ free_for_exclusive v →
     reaches L (AcquiringExclusive (ax_ensure i v e)) (closer (AcquiringExclusive p))) as Hensure.
  { intros L0 i v e H0 Hv. destruct L0 as [v0 [c|] hs], e; next_point; try (by apply Hwaiter).
    next_point. by apply Hwaiter. }
  intros Hok Hp. destruct p as [i|i v|i v p|i v| | |v]; cbn in Hok.
  - auto.
  - next_point; exchange; [arrive|auto].
  - auto.
  - apply Hwaiter; tauto.
  - done.
  - next_point. next_point. exchange. arrive.
  - next_point. exchange; [arrive|]. next_point. next_point. exchange. arrive.
Qed.

Lemma acquire_shared_alone L p :
  Value L = 0 → thread_ok L (AcquiringShared p) →
  match p with as_wait _ => 0 < count (SharedWakeEvent L) | _ => True end →
  reaches L (AcquiringShared p) (closer (AcquiringShared p)).
Proof.
  intros HL. assert (∀ L i, Value L = 0 → reaches L (AcquiringShared (as_read i)) (closer (AcquiringShared p))) as Hread.
  { intros L0 i H0. next_point. rewrite H0. cbn. next_point. exchange. arrive. }
  assert (∀ L i v, Value L = 0 → ¬ free_for_shared v →
     reaches L (AcquiringShared (as_cas_waiter i v)) (closer (AcquiringShared p))) as Hwaiter.
  { intros L0 i v H0 Hv. next_point. assert (Value L0 ≠ v) by (rewrite H0; intros <-; by apply Hv). exchange. auto. }
  assert (∀ L i v e, Value L = 0 → ¬ free_for_shared v →
     reaches L (AcquiringShared (as_ensure i v e)) (closer (AcquiringShared p))) as Hensure.
  { intros L0 i v e H0 Hv. destruct L0 as [v0 hx [c|]], e; next_point; try (by apply Hwaiter).
    next_point. by apply Hwaiter. }
  intros Hok Hp. destruct p as [i|i v|i v|i v p|i v|i]; cbn in Hok.
  - auto.
  - next_point; exchange; [arrive|auto].
  - next_point; exchange; [arrive|auto].
  - apply Hensure; tauto.
  - apply Hwaiter; tauto.
  - destruct (SharedWakeEvent L) as [c|] eqn:He; [|done]. unfold count in Hp. cbn in Hp. next_point. rewrite He. unfold mbind, list_bind. cbn.
    destruct (Z.ltb_spec 0 c); [cbn|lia]. by apply Hread.
Qed.

Lemma try_alone L t : Value L = 0 →
  match t with TryingExclusive _ | TryingShared _ => True | _ => False end → reaches L t (closer t).
Proof.
  intros HL Ht. destruct t as [| | |p|p|p|p|[|v]|[|v|v]| |]; try done; try (next_point; exchange; arrive).
  - next_point. rewrite HL. cbn. next_point. exchange. arrive.
  - next_point. rewrite HL. cbn. next_point. exchange. arrive.
Qed.

Definition quiet (s : @system PH_FAST_LOCK thread) : Prop := ∀ i t, threads s !! i = Some t → raised t = false.

Lemma total_zero {T} (weight : T → Z) ts : (∀ t, t ∈ ts → weight t = 0) → total weight ts = 0.
Proof.
  induction ts as [|t ts IH]; [done|]. intros Hz. rewrite total_cons, (Hz t) by set_solver.
  rewrite IH; [done|]. intros u Hu. apply Hz. set_solver.
Qed.

(** The word when no thread holds or releases the lock. *)
Lemma released_word s : invariant s → (∀ t, t ∈ threads s → distance t ≠ 1%nat ∧ distance t ≠ 2%nat) →
  0 < total woken (threads s) ∨
  0 < count (ExclusiveWakeEvent (shared s)) ∧ 0 < total awaits_exclusive (threads s) ∨
  Value (shared s) = 0 ∧ total awaits_exclusive (threads s) = 0 ∧ total woken (threads s) = 0 ∧
  total awaits_shared (threads s) = count (SharedWakeEvent (shared s)).
Proof.
  intros HI Hfar. destruct (inv_word _ HI) as (o & w & so & sw & ew & Hf & Hv & []).
  assert (total has_exclusive (threads s) = 0) by (apply total_zero; intros t Ht; specialize (Hfar t Ht); case_thread t; cbn in *; done || lia).
  assert (total has_shared (threads s) = 0) by (apply total_zero; intros t Ht; specialize (Hfar t Ht); case_thread t; cbn in *; done || lia).
  assert (total signals_exclusive (threads s) = 0) by (apply total_zero; intros t Ht; specialize (Hfar t Ht); case_thread t; cbn in *; done || lia).
  assert (total signals_shared (threads s) = 0) by (apply total_zero; intros t Ht; specialize (Hfar t Ht); case_thread t; cbn in *; done || lia).
  pose proof weight_bounds as Hw. destruct (inv_counts _ HI).
  assert (0 ≤ total woken (threads s)) by (apply total_nonneg; intros u; apply Hw).
  unfold fields, pack in *. lia.
Qed.

(** Either some thread is so far, or none is. *)
Lemma some_or_none (P : thread → Prop) `{!∀ t, Decision (P t)} (ts : list thread) :
  (∃ (i : nat) t, ts !! i = Some t ∧ P t) ∨ (∀ t, t ∈ ts → ¬ P t).
Proof.
  destruct (decide (Exists P ts)) as [(t & [i Ht]%list_elem_of_lookup_1 & HP)%Exists_exists|Hn%not_Exists_Forall]; [left; eauto| |done].
  right. by apply Forall_forall.
Qed.

(** Some thread can get closer to being idle, running alone. *)
Lemma some_closer s i t : invariant s → quiet s → threads s !! i = Some t → t ≠ Idle →
  ∃ i t, threads s !! i = Some t ∧ reaches (shared s) t (closer t).
Proof.
  intros HI Hquiet Ht Hbusy.
  destruct (some_or_none (λ t, distance t = 1%nat) (threads s)) as [(j & u & Hu & Hd)|Hd1].
  { exists j, u. split; [done|]. destruct u; try done;
      (eapply reaches_mono; [apply release_exclusive_alone || apply release_shared_alone|]); intros L' t' ->; nearer. }
  destruct (some_or_none (λ t, distance t = 2%nat) (threads s)) as [(j & u & Hu & Hd)|Hd2].
  { exists j, u. split; [done|]. destruct u; try done; next_point; arrive. }
  destruct (released_word s HI) as [Hw | [[Hc Hw] | (Hv & Hax & Hw & Has)]]; [by auto|..].
  - apply total_pos in Hw as (j & u & Hu & Hw). exists j, u. split; [done|].
    pose proof (weight_bounds u). eapply reaches_mono; [apply woken_alone; lia|]. intros L' t' ->.
    case_thread u; cbn in Hw; try lia; nearer.
  - apply total_pos in Hw as (j & u & Hu & Hw). exists j, u. split; [done|]. specialize (Hquiet j u Hu).
    case_thread u; cbn in Hw; try lia; try done. destruct s as [[v hx hs] ts]; cbn in Hc |- *.
    destruct hx as [c|]; [|done]. unfold count in Hc. cbn in Hc. next_point. unfold mbind, list_bind. cbn.
    destruct (Z.ltb_spec 0 c); [cbn|lia]. eapply reaches_mono; [by apply woken_alone|]. intros L' t' ->. nearer.
  - exists i, t. split; [done|]. specialize (Hquiet i t Ht). pose proof (inv_local _ HI i t Ht) as Hok.
    assert (awaits_exclusive t ≤ 0) by (rewrite <-Hax; eapply total_elem; [intros u; apply weight_bounds|done]).
    assert (awaits_shared t ≤ count (SharedWakeEvent (shared s))) by (rewrite <-Has; eapply total_elem; [intros u; apply weight_bounds|done]).
    assert (distance t ≠ 1%nat ∧ distance t ≠ 2%nat) as [? ?] by (split; [apply Hd1|apply Hd2]; by eapply list_elem_of_lookup_2).
    destruct t as [| | |p|p|p|p|p|p| |]; try done.
    + apply acquire_exclusive_alone; [done|done|]. by intros ->.
    + apply acquire_shared_alone; [done|done|]. destruct p; try done. cbn in *. lia.
    + by apply try_alone.
    + by apply try_alone.
Qed.

End Alone.

Definition all_idle (s : @system PH_FAST_LOCK thread) : Prop := Forall (λ t, t = Idle) (threads s).

#[global] Instance idle_dec t : Decision (t = Idle).
Proof. destruct t; first [by left|by right]. Defined.

(** Without faults no wait fails: the semaphore a thread waits for exists. *)
Lemma quiet_step NumberOfProcessors s s' :
  invariant s → quiet s → step (next NumberOfProcessors false) s s' → quiet s'.
Proof.
  intros HI Hq Hs. destruct Hs as [i L ts t L' t' Ht Hin]. intros j u. cbn [threads].
  destruct (decide (j = i)) as [->|Hji]; [|rewrite list_lookup_insert_ne by done; apply Hq].
  rewrite list_lookup_insert_eq by (by eapply lookup_lt_Some). intros [= <-]. specialize (Hq i t Ht).
  pose proof (exclusive_event_of _ _ HI i t Ht) as Hx. pose proof (shared_event_of _ _ HI i t Ht) as Hs. clear HI Ht.
  destruct t as [| | |p|p|p|p|p|p| |]; cbn [next] in Hin;
    try (apply list_elem_of_fmap in Hin as ([L1 r] & [= -> ->] & Hin));
    try (by apply elem_of_nil in Hin); try destruct p; cbn in Hin, Hx, Hs;
    try (apply list_elem_of_bind in Hin as ([h ok] & Hin & Hw); destruct L as [v [c|] [d|]]; cbn in Hw, Hx, Hs;
         try (by destruct Hx); try (by destruct Hs); rewrite app_nil_r in Hw; case_match; in_list Hw; simplify_eq).
  all: unfold InterlockedCompareExchange in Hin; repeat case_match; in_list Hin; simplify_eq; done.
Qed.

Lemma idle_word s : invariant s → all_idle s → PhDeleteFastLock (shared s) = PhInitializeFastLock.
Proof.
  intros HI Hidle. destruct (released_word s HI) as [Hw | [[Hc Hw] | (Hv & _)]].
  - intros t Ht. unfold all_idle in Hidle. rewrite Forall_forall in Hidle. by rewrite (Hidle t Ht).
  - rewrite total_zero in Hw; [lia|]. intros t Ht. unfold all_idle in Hidle. rewrite Forall_forall in Hidle. by rewrite (Hidle t Ht).
  - rewrite total_zero in Hw; [lia|]. intros t Ht. unfold all_idle in Hidle. rewrite Forall_forall in Hidle. by rewrite (Hidle t Ht).
  - unfold PhDeleteFastLock. by rewrite Hv.
Qed.

Lemma shared_count ts : total has_shared ts = Z.of_nat (length (filter (λ t, access_of t = SharedAccess) ts)).
Proof.
  induction ts as [|t ts IH]; [done|]. rewrite total_cons, filter_cons. pose proof (weight_bounds t). pose proof (access_of_shared t).
  case_decide; cbn [length]; [assert (has_shared t = 1) by tauto|assert (has_shared t ≠ 1) by tauto]; lia.
Qed.

Lemma some_access ts : (∃ t, t ∈ ts ∧ access_of t ≠ NoAccess) ↔ 0 < total has_exclusive ts + total has_shared ts.
Proof.
  assert (0 ≤ total has_exclusive ts ∧ 0 ≤ total has_shared ts) as [? ?]
    by (split; apply total_nonneg; intros u; apply weight_bounds).
  pose proof (exclusive_total ts) as Hx. pose proof (shared_total ts) as Hs. rewrite !list_elem_of_fmap in Hx, Hs. split.
  - intros (t & Ht & Ha). destruct (access_of t) eqn:Hat; [done|..]; [enough (0 < total has_shared ts) by lia; apply Hs|
      enough (0 < total has_exclusive ts) by lia; apply Hx]; by exists t.
  - intros Hpos. destruct (Z.lt_ge_cases 0 (total has_exclusive ts)) as [H1|H1].
    + apply Hx in H1 as (t & Ha & Ht). exists t. split; [done|by rewrite <-Ha].
    + assert (0 < total has_shared ts) as H2 by lia. apply Hs in H2 as (t & Ha & Ht). exists t. split; [done|by rewrite <-Ha].
Qed.

Lemma exclusion s i j t u : invariant s → i ≠ j → threads s !! i = Some t → threads s !! j = Some u →
  access_of t = ExclusiveAccess → access_of u = NoAccess.
Proof.
  intros HI Hij Ht Hu Ha. destruct (inv_word _ HI) as (o & w & so & sw & ew & Hf & Hv & []).
  apply access_of_exclusive in Ha. pose proof weight_bounds as Hw.
  pose proof (total_two has_exclusive _ i j t u ltac:(intros v; apply Hw) Hij Ht Hu).
  pose proof (total_elem has_shared _ j u ltac:(intros v; apply Hw) Hu). pose proof (Hw u).
  unfold access_of. repeat case_match; done || lia.
Qed.

(** ** Properties *)

(** Access follows the rules of a reader-writer lock. For up to 1023
    threads, however many processors, and whether or not waits fail: in every state that calls
    of the lock's functions can lead to, each further atomic step leaves the accesses of
    the threads alone, lets a thread without access in for shared access when
    no thread has exclusive access, lets one in for exclusive access when no
    thread has any, or ends one thread's access. *)
Theorem fast_lock_refines_rw_lock NumberOfProcessors faults n s s' :
  (n ≤ MAX_THREADS)%nat →
  reachable (next NumberOfProcessors faults) (start n) s →
  step (next NumberOfProcessors faults) s s' →
  rw_step (accesses s) (accesses s').
Proof. intros Hn Hs. apply access_next. by eapply invariant_reachable. Qed.

(** C10. Mutual exclusion and the meaning of the word: in every reachable state, if a
    thread has exclusive access no other has any; the lowest bit of the word is set
    exactly when some thread has access; the field of shared owners is the number
    of threads with shared access, so that it never overflows; and no thread
    waits for a semaphore that was not created. *)
Theorem fast_lock_exclusion NumberOfProcessors faults n s :
  (n ≤ MAX_THREADS)%nat →
  reachable (next NumberOfProcessors faults) (start n) s →
  (∀ i j t u, i ≠ j → threads s !! i = Some t → threads s !! j = Some u →
     access_of t = ExclusiveAccess → access_of u = NoAccess) ∧
  (owned (Value (shared s)) = 1 ↔ ∃ t, t ∈ threads s ∧ access_of t ≠ NoAccess) ∧
  shared_owners (Value (shared s)) = Z.of_nat (length (filter (λ t, access_of t = SharedAccess) (threads s))) ∧
  (∀ i, threads s !! i = Some (AcquiringExclusive ax_wait) → ExclusiveWakeEvent (shared s) ≠ None) ∧
  (∀ i k, threads s !! i = Some (AcquiringShared (as_wait k)) → SharedWakeEvent (shared s) ≠ None).
Proof.
  intros Hn Hs. assert (HI : invariant s) by (by eapply invariant_reachable).
  destruct (inv_word _ HI) as (o & w & so & sw & ew & Hf & Hv & []).
  destruct (pack_fields _ _ _ _ _ Hf) as (Ho & _ & Hso & _). rewrite <-Hv in Ho, Hso. split_and!.
  - intros. by eapply exclusion.
  - by rewrite some_access, Ho.
  - by rewrite <-shared_count, Hso.
  - intros i Hi. destruct s. by apply (exclusive_event_of _ _ HI i _ Hi).
  - intros i k Hi. destruct s. by apply (shared_event_of _ _ HI i _ Hi).
Qed.

(** C11. No wakeup is lost and no execution is stuck: from every state that
    threads can reach when waits do not fail, some continuation brings all threads
    out of the functions of the lock with the lock as it was initialized, apart from
    its semaphores, which [PhDeleteFastLock] closes. *)
Theorem fast_lock_drains NumberOfProcessors n s :
  (n ≤ MAX_THREADS)%nat →
  reachable (next NumberOfProcessors false) (start n) s →
  ∃ s', rtc (step (next NumberOfProcessors false)) s s' ∧ all_idle s' ∧
    PhDeleteFastLock (shared s') = PhInitializeFastLock.
Proof.
  intros Hn Hs.
  assert (invariant s ∧ quiet s) as HI.
  { revert s Hs. apply reachable_invariant.
    - split; [by apply invariant_start|]. by intros i t [-> _]%lookup_replicate.
    - intros s1 s2 [H1 H2] H12. split; [by eapply invariant_step|by eapply quiet_step]. }
  destruct (drain (next NumberOfProcessors false) (λ s, invariant s ∧ quiet s) all_idle
    (λ s, Z.to_nat (total (λ t, Z.of_nat (distance t)) (threads s)))) with (s := s) as (s' & Hsteps & [HI' _] & Hidle).
  - intros s1 [HI1 Hq1] Hbusy. 
    apply not_Forall_Exists in Hbusy as (t0 & [i0 Ht0]%list_elem_of_lookup_1 & Hne)%Exists_exists; [|apply _].
    destruct (some_closer NumberOfProcessors s1 i0 t0) as (i & t & Ht & L' & t' & Hg & Hr & Hd); [done..|].
    destruct s1 as [L ts]. pose proof (run_alone _ i ts _ _ _ _ Ht Hg) as Hrun. cbn [shared threads] in *.
    eexists. split; [exact Hrun|]. split_and!.
    + eapply steps_invariant; [|exact Hrun|exact HI1]. intros. by eapply invariant_step.
    + intros j u. cbn [threads]. destruct (decide (j = i)) as [->|Hji].
      * rewrite list_lookup_insert_eq by (by eapply lookup_lt_Some). by intros [= <-].
      * rewrite list_lookup_insert_ne by done. apply Hq1.
    + cbn [threads]. rewrite (total_insert _ _ _ _ _ Ht).
      pose proof (total_elem (λ t, Z.of_nat (distance t)) ts i t ltac:(intros; cbn beta; lia) Ht). cbn beta in *. lia.
  - done.
  - exists s'. split_and!; [done|done|by apply idle_word].
Qed.

(** ** Witnesses

    One processor; the first thread takes the lock for exclusive access, the
    second waits for the semaphore, the third for the other. *)

Definition contention : list (nat * nat) :=
  replicate 3 (0, 0)%nat ++ replicate 5 (1, 0)%nat ++ (2, 1)%nat :: replicate 4 (2, 0)%nat.

Lemma contention_reachable : ∃ s, reachable (next 1 false) (start 3) s ∧
  threads s = [OwnsExclusive; AcquiringExclusive ax_wait; AcquiringShared (as_wait 0)] ∧
  Value (shared s) = 1 + PH_LOCK_SHARED_WAITERS_INC + PH_LOCK_EXCLUSIVE_WAITERS_INC.
Proof.
  destruct (run (next 1 false) contention (start 3)) as [s|] eqn:Hs; [|by vm_compute in Hs].
  exists s. split; [by eapply run_steps|]. vm_compute in Hs. by injection Hs as <-.
Qed.

Lemma fast_lock_refines_rw_lock_witness : ∃ s s', threads s !! 0%nat = Some OwnsExclusive ∧
  step (next 1 false) s s' ∧ rw_step (accesses s) (accesses s').
Proof.
  destruct contention_reachable as (s & Hs & Ht & _). destruct s as [L ts]. cbn in Ht. subst ts.
  assert (step (next 1 false) (System L [OwnsExclusive; AcquiringExclusive ax_wait; AcquiringShared (as_wait 0)])
    (System L (<[0%nat := ReleasingExclusive rx_read]> [OwnsExclusive; AcquiringExclusive ax_wait; AcquiringShared (as_wait 0)]))) as Hstep.
  { econstructor; [reflexivity|apply list_elem_of_here]. }
  eexists _, _. split; [|split; [exact Hstep|]]; [reflexivity|].
  exact (fast_lock_refines_rw_lock 1 false 3 _ _ ltac:(unfold MAX_THREADS; lia) Hs Hstep).
Defined.

Lemma fast_lock_exclusion_witness : ∃ s, threads s !! 0%nat = Some OwnsExclusive ∧ owned (Value (shared s)) = 1 ∧
  access_of (AcquiringShared (as_wait 0)) = NoAccess.
Proof.
  destruct contention_reachable as (s & Hs & Ht & _). exists s.
  destruct (fast_lock_exclusion 1 false 3 s ltac:(unfold MAX_THREADS; lia) Hs) as (Hx & Ho & _). rewrite Ht in Hx |- *. split; [done|]. split.
  - apply Ho. exists OwnsExclusive. split; [rewrite Ht; apply list_elem_of_here|done].
  - by apply (Hx 0%nat 2%nat OwnsExclusive).
Defined.

Lemma fast_lock_drains_witness : ∃ s s', threads s = [OwnsExclusive; AcquiringExclusive ax_wait; AcquiringShared (as_wait 0)] ∧
  rtc (step (next 1 false)) s s' ∧ all_idle s'.
Proof.
  destruct contention_reachable as (s & Hs & Ht & _).
  destruct (fast_lock_drains 1 3 s ltac:(unfold MAX_THREADS; lia) Hs) as (s' & Hsteps & Hidle & _).
  by exists s, s'.
Defined.
