(* ===== verification/QueuedLock.v ===== *)
(** The queued lock (src/phlib/queuedlock.c, src/phlib/include/queuedlock.h): a
    reader-writer lock in one word. Threads that have to wait push a wait block,
    which is on their stack, onto a list that starts in the word; a releaser takes
    blocks off the list and wakes their threads through a keyed event.

    The points of a function are those just before an access to shared memory. The
    stores into a thread's own block before it is pushed are one step with the
    exchange that pushes it: until then no other thread knows the block. *)

From S2P Require Import Prelude Concurrency.

Definition PH_QUEUED_LOCK_OWNED : Z := 0x1.
Definition PH_QUEUED_LOCK_OWNED_SHIFT : Z := 0.
Definition PH_QUEUED_LOCK_WAITERS : Z := 0x2.
Definition PH_QUEUED_LOCK_SHARED_INC : Z := 0x4.
Definition PH_QUEUED_LOCK_SHARED_SHIFT : Z := 2.
Definition PH_QUEUED_LOCK_TRAVERSING : Z := 0x4.
Definition PH_QUEUED_LOCK_MULTIPLE_SHARED : Z := 0x8.
Definition PH_QUEUED_LOCK_FLAGS : Z := 0xf.

Definition PhGetQueuedLockSharedOwners (Value : Z) : Z := Z.shiftr Value PH_QUEUED_LOCK_SHARED_SHIFT.
Definition PhGetQueuedLockWaitBlock (Value : Z) : Z := Z.ldiff Value PH_QUEUED_LOCK_FLAGS.

(** Whether some of the bits of a mask are set. *)
Definition is_set (value mask : Z) : bool := negb (Z.land value mask =? 0).

Definition PH_QUEUED_WAITER_EXCLUSIVE : Z := 0x1.
Definition PH_QUEUED_WAITER_SPINNING : Z := 0x2.
Definition PH_QUEUED_WAITER_SPINNING_SHIFT : Z := 1.

(** Pointers are addresses, [NULL] is 0. *)
Definition NULL : Z := 0.

Record PH_QUEUED_WAIT_BLOCK := WaitBlock {
  Next : Z;
  Previous : Z;
  Last : Z;
  SharedOwners : Z;
  Flags : Z;
}.

Definition with_Previous (b : PH_QUEUED_WAIT_BLOCK) v := WaitBlock (Next b) v (Last b) (SharedOwners b) (Flags b).
Definition with_Last (b : PH_QUEUED_WAIT_BLOCK) v := WaitBlock (Next b) (Previous b) v (SharedOwners b) (Flags b).
Definition with_SharedOwners (b : PH_QUEUED_WAIT_BLOCK) v := WaitBlock (Next b) (Previous b) (Last b) v (Flags b).
Definition with_Flags (b : PH_QUEUED_WAIT_BLOCK) v := WaitBlock (Next b) (Previous b) (Last b) (SharedOwners b) v.

(** The state that the threads share: the word, the wait blocks in use by their
    addresses, and the keys of the keyed event that threads wait for. A block is in
    use from the exchange that pushes it until the wait of its thread is over. *)
Record state := State {
  Value : Z;
  Blocks : gmap Z PH_QUEUED_WAIT_BLOCK;
  KeyedEvent : gset Z;
}.

Definition with_Value (σ : state) v := State v (Blocks σ) (KeyedEvent σ).
Definition with_Blocks (σ : state) v := State (Value σ) v (KeyedEvent σ).
Definition with_KeyedEvent (σ : state) v := State (Value σ) (Blocks σ) v.

Definition PhInitializeQueuedLock : state := State 0 ∅ ∅.

(** What a point of a function leads to; [Fault] is an access to a block that is not
    in use, or an assertion that does not hold. *)
Inductive outcome (P : Type) : Type :=
  | Continue (p : P)
  | Return (result : bool)
  | Fault.
Arguments Continue {P} p.
Arguments Return {P} result.
Arguments Fault {P}.

Definition map_outcome {P Q} (f : P → Q) (done : bool → outcome Q) (o : outcome P) : outcome Q :=
  match o with
  | Continue p => Continue (f p)
  | Return result => done result
  | Fault => Fault
  end.

(** An access to the block at an address. *)
Definition read {P} (σ : state) (wb : Z) (k : PH_QUEUED_WAIT_BLOCK → outcome P) : list (state * outcome P) :=
  match Blocks σ !! wb with
  | Some b => [(σ, k b)]
  | None => [(σ, Fault)]
  end.

Definition write {P} (σ : state) (wb : Z) (f : PH_QUEUED_WAIT_BLOCK → PH_QUEUED_WAIT_BLOCK)
    (k : PH_QUEUED_WAIT_BLOCK → outcome P) : list (state * outcome P) :=
  match Blocks σ !! wb with
  | Some b => [(with_Blocks σ (<[wb := f b]> (Blocks σ)), k b)]
  | None => [(σ, Fault)]
  end.

(** [_InterlockedCompareExchangePointer] on the word; [k] gets the old value if it
    was not the expected one. *)
Definition exchange {P} (σ : state) (new old : Z) (ok : outcome P) (k : Z → outcome P) : list (state * outcome P) :=
  if Value σ =? old then [(with_Value σ (u64 new), ok)] else [(σ, k (Value σ))].

(** [_interlockedbittestandreset] on the spinning flag of a block. *)
Definition reset_spinning (b : PH_QUEUED_WAIT_BLOCK) : PH_QUEUED_WAIT_BLOCK :=
  with_Flags b (Z.ldiff (Flags b) (Z.shiftl 1 PH_QUEUED_WAITER_SPINNING_SHIFT)).
Definition spinning (b : PH_QUEUED_WAIT_BLOCK) : bool := Z.testbit (Flags b) PH_QUEUED_WAITER_SPINNING_SHIFT.

(** ** Pushing a wait block

    The block that [PhpPushQueuedWaitBlock] fills in and the value it gives to the
    lock; whether to optimize the list. *)
Definition push_block (value : Z) (Exclusive : bool) (WaitBlock_ : Z) : PH_QUEUED_WAIT_BLOCK :=
  let flags :=
    if Exclusive then Z.lor PH_QUEUED_WAITER_EXCLUSIVE PH_QUEUED_WAITER_SPINNING else PH_QUEUED_WAITER_SPINNING in
  if is_set value PH_QUEUED_LOCK_WAITERS then
    WaitBlock (PhGetQueuedLockWaitBlock value) NULL NULL 0 flags
  else
    WaitBlock NULL NULL WaitBlock_ (if Exclusive then u32 (PhGetQueuedLockSharedOwners value) else 0) flags.

Definition push_value (value : Z) (Exclusive : bool) (WaitBlock_ : Z) : Z :=
  if is_set value PH_QUEUED_LOCK_WAITERS then
    Z.lor (Z.lor WaitBlock_ (Z.land value PH_QUEUED_LOCK_FLAGS)) PH_QUEUED_LOCK_TRAVERSING
  else if Exclusive && (1 <? u32 (PhGetQueuedLockSharedOwners value)) then
    Z.lor (Z.lor (Z.lor WaitBlock_ PH_QUEUED_LOCK_OWNED) PH_QUEUED_LOCK_WAITERS) PH_QUEUED_LOCK_MULTIPLE_SHARED
  else
    Z.lor (Z.lor WaitBlock_ PH_QUEUED_LOCK_OWNED) PH_QUEUED_LOCK_WAITERS.

Definition push_optimize (value : Z) : bool :=
  is_set value PH_QUEUED_LOCK_WAITERS && negb (is_set value PH_QUEUED_LOCK_TRAVERSING).

(** The exchange: [ok] gets whether to optimize and the new value, [k] the value
    that another thread has put there. *)
Definition PhpPushQueuedWaitBlock {P} (σ : state) (value : Z) (Exclusive : bool) (wb : Z)
    (ok : bool → Z → outcome P) (k : Z → outcome P) : list (state * outcome P) :=
  if Value σ =? value then
    let new := push_value value Exclusive wb in
    [(State new (<[wb := push_block value Exclusive wb]> (Blocks σ)) (KeyedEvent σ), ok (push_optimize value) new)]
  else [(σ, k (Value σ))].

(** ** Blocking and unblocking *)

Definition PhQueuedLockInitialization (NumberOfProcessors : Z) : Z := if 1 <? NumberOfProcessors then 4000 else 0.

Inductive block :=
  | block_spin (i : Z)
  | block_reset
  | block_arrive
  | block_wait.

Definition block_start (PhQueuedLockSpinCount : Z) (Spin : bool) : block :=
  if Spin && negb (PhQueuedLockSpinCount =? 0) then block_spin PhQueuedLockSpinCount else block_reset.

(** [NtWaitForKeyedEvent] is the arrival at the key and the wait for a release. *)
Definition PhpBlockOnQueuedWaitBlock (σ : state) (wb : Z) (p : block) : list (state * outcome block) :=
  match p with
  | block_spin i =>
      read σ wb (λ b,
        if negb (is_set (Flags b) PH_QUEUED_WAITER_SPINNING) then Return true
        else if u32 (i - 1) =? 0 then Continue block_reset
        else Continue (block_spin (u32 (i - 1))))
  | block_reset =>
      write σ wb reset_spinning (λ b, if spinning b then Continue block_arrive else Return true)
  | block_arrive => [(with_KeyedEvent σ ({[wb]} ∪ KeyedEvent σ), Continue block_wait)]
  | block_wait => if decide (wb ∈ KeyedEvent σ) then [] else [(σ, Return true)]
  end.

(** A thread that waits for [wb] lets go of [NtReleaseKeyedEvent]. *)
Definition NtReleaseKeyedEvent {P} (σ : state) (wb : Z) (k : outcome P) : list (state * outcome P) :=
  if decide (wb ∈ KeyedEvent σ) then [(with_KeyedEvent σ (KeyedEvent σ ∖ {[wb]}), k)] else [].

(** ** Optimizing the list and waking threads

    [PhpOptimizeQueuedLockListEx] ends by waking threads if it finds the lock
    released, so the points of both and of the loop that wakes are one type. *)

Inductive walk_for := Optimizing | Waking.

Inductive traverse :=
  | walk_last (k : walk_for) (value waitBlock : Z)
  | walk_next (k : walk_for) (value waitBlock : Z)
  | walk_previous (k : walk_for) (value waitBlock next : Z)
  | optimize_last (value lastWaitBlock : Z)
  | optimize_exchange (value : Z)
  | prepare_clear (value : Z)
  | prepare_flags (value waitBlock : Z)
  | prepare_previous (value waitBlock : Z)
  | prepare_last (value waitBlock previousWaitBlock : Z)
  | prepare_unlink (waitBlock : Z)
  | prepare_finish (waitBlock : Z)
  | prepare_exchange (value waitBlock : Z)
  | wake_previous (waitBlock : Z)
  | wake_reset (waitBlock previousWaitBlock : Z)
  | wake_release (waitBlock previousWaitBlock : Z).

Section Traverse.
Context (IgnoreOwned WakeAll : bool).

(** The loop of [PhpfWakeQueuedLockEx]. *)
Definition wake_loop (waitBlock : Z) : outcome traverse :=
  if waitBlock =? NULL then Return true else Continue (wake_previous waitBlock).

(** The inner loop of [PhpPrepareToWakeQueuedLock], then the walk. *)
Definition prepare_owned (value : Z) : outcome traverse :=
  if negb IgnoreOwned && is_set value PH_QUEUED_LOCK_OWNED then Continue (prepare_clear value)
  else Continue (walk_last Waking value (PhGetQueuedLockWaitBlock value)).

Definition prepare_loop (value : Z) : outcome traverse :=
  if is_set value PH_QUEUED_LOCK_MULTIPLE_SHARED || negb (IgnoreOwned || is_set value PH_QUEUED_LOCK_TRAVERSING) then Fault
  else prepare_owned value.

Definition optimize_loop (value : Z) : outcome traverse :=
  if negb (is_set value PH_QUEUED_LOCK_TRAVERSING) then Fault
  else if negb IgnoreOwned && negb (is_set value PH_QUEUED_LOCK_OWNED) then prepare_loop value
  else Continue (walk_last Optimizing value (PhGetQueuedLockWaitBlock value)).

Definition traverse_step (σ : state) (p : traverse) : list (state * outcome traverse) :=
  match p with
  | walk_last k value waitBlock =>
      read σ waitBlock (λ b,
        if Last b =? NULL then Continue (walk_next k value waitBlock)
        else match k with
             | Optimizing => Continue (optimize_last value (Last b))
             | Waking =>
                 if WakeAll then Continue (prepare_exchange value (Last b))
                 else Continue (prepare_flags value (Last b))
             end)
  | walk_next k value waitBlock => read σ waitBlock (λ b, Continue (walk_previous k value waitBlock (Next b)))
  | walk_previous k value previousWaitBlock waitBlock =>
      write σ waitBlock (λ b, with_Previous b previousWaitBlock) (λ _, Continue (walk_last k value waitBlock))
  | optimize_last value lastWaitBlock =>
      write σ (PhGetQueuedLockWaitBlock value) (λ b, with_Last b lastWaitBlock) (λ _, Continue (optimize_exchange value))
  | optimize_exchange value => exchange σ (value - PH_QUEUED_LOCK_TRAVERSING) value (Return true) optimize_loop
  | prepare_clear value => exchange σ (value - PH_QUEUED_LOCK_TRAVERSING) value (Return true) prepare_owned
  | prepare_flags value waitBlock =>
      read σ waitBlock (λ b,
        if is_set (Flags b) PH_QUEUED_WAITER_EXCLUSIVE then Continue (prepare_previous value waitBlock)
        else Continue (prepare_exchange value waitBlock))
  | prepare_previous value waitBlock =>
      read σ waitBlock (λ b,
        if Previous b =? NULL then Continue (prepare_exchange value waitBlock)
        else Continue (prepare_last value waitBlock (Previous b)))
  | prepare_last value waitBlock previousWaitBlock =>
      write σ (PhGetQueuedLockWaitBlock value) (λ b, with_Last b previousWaitBlock) (λ _, Continue (prepare_unlink waitBlock))
  | prepare_unlink waitBlock =>
      write σ waitBlock (λ b, with_Previous b NULL)
        (λ _, if IgnoreOwned then wake_loop waitBlock else Continue (prepare_finish waitBlock))
  | prepare_finish waitBlock =>
      [(with_Value σ (u64 (Value σ - PH_QUEUED_LOCK_TRAVERSING)), wake_loop waitBlock)]
  | prepare_exchange value waitBlock => exchange σ 0 value (wake_loop waitBlock) prepare_loop
  | wake_previous waitBlock => read σ waitBlock (λ b, Continue (wake_reset waitBlock (Previous b)))
  | wake_reset waitBlock previousWaitBlock =>
      write σ waitBlock reset_spinning
        (λ b, if spinning b then wake_loop previousWaitBlock else Continue (wake_release waitBlock previousWaitBlock))
  | wake_release waitBlock previousWaitBlock => NtReleaseKeyedEvent σ waitBlock (wake_loop previousWaitBlock)
  end.

End Traverse.

(** [PhpfOptimizeQueuedLockList] and [PhpfWakeQueuedLock]. *)
Definition PhpfOptimizeQueuedLockList (Value : Z) : outcome traverse := optimize_loop false Value.
Definition PhpfWakeQueuedLock (Value : Z) : outcome traverse := prepare_loop false Value.
Definition lock_traverse : state → traverse → list (state * outcome traverse) := traverse_step false false.

(** ** Acquiring *)

Section Functions.
Context (PhQueuedLockSpinCount : Z).

(** A call of one of the functions above: go on there, or go on after it. *)
Definition then_block {P} (next : block → P) : outcome P := Continue (next (block_start PhQueuedLockSpinCount true)).

(** [acquire_try] has the local [value] and decides by it; [acquire_optimize] and
    [acquire_block] keep it for the next turn. *)
Inductive acquire :=
  | acquire_fast
  | acquire_read
  | acquire_try (value : Z)
  | acquire_optimize (value : Z) (p : traverse)
  | acquire_block (value : Z) (p : block).

(** The part that follows a push, and the two functions it calls. *)
Definition acquire_pushed (value : Z) (optimize : bool) (currentValue : Z) : outcome acquire :=
  if optimize then
    map_outcome (acquire_optimize value) (λ _, then_block (acquire_block value)) (PhpfOptimizeQueuedLockList currentValue)
  else then_block (acquire_block value).

Definition acquire_optimizing (σ : state) (value : Z) (p : traverse) : list (state * outcome acquire) :=
  prod_map id (map_outcome (acquire_optimize value) (λ _, then_block (acquire_block value))) <$> lock_traverse σ p.

(** When the wait is over the block is no longer in use. *)
Definition acquire_blocking (σ : state) (wb value : Z) (p : block) : list (state * outcome acquire) :=
  '(σ, o) ← PhpBlockOnQueuedWaitBlock σ wb p;
  match o with
  | Return _ => [(with_Blocks σ (delete wb (Blocks σ)), Continue (acquire_try value))]
  | o => [(σ, map_outcome (acquire_block value) Return o)]
  end.

(** [PhAcquireQueuedLockExclusive], inline, and [PhfAcquireQueuedLockExclusive]. *)
Definition PhfAcquireQueuedLockExclusive (σ : state) (wb : Z) (p : acquire) : list (state * outcome acquire) :=
  match p with
  | acquire_fast =>
      if is_set (Value σ) PH_QUEUED_LOCK_OWNED then [(σ, Continue acquire_read)]
      else [(with_Value σ (Z.setbit (Value σ) PH_QUEUED_LOCK_OWNED_SHIFT), Return true)]
  | acquire_read => [(σ, Continue (acquire_try (Value σ)))]
  | acquire_try value =>
      if negb (is_set value PH_QUEUED_LOCK_OWNED) then
        exchange σ (value + PH_QUEUED_LOCK_OWNED) value (Return true) (λ newValue, Continue (acquire_try newValue))
      else
        PhpPushQueuedWaitBlock σ value true wb (acquire_pushed value) (λ newValue, Continue (acquire_try newValue))
  | acquire_optimize value p => acquire_optimizing σ value p
  | acquire_block value p => acquire_blocking σ wb value p
  end.

(** [PhAcquireQueuedLockShared], inline, and [PhfAcquireQueuedLockShared]. *)
Definition PhfAcquireQueuedLockShared (σ : state) (wb : Z) (p : acquire) : list (state * outcome acquire) :=
  match p with
  | acquire_fast =>
      exchange σ (Z.lor PH_QUEUED_LOCK_OWNED PH_QUEUED_LOCK_SHARED_INC) 0 (Return true) (λ _, Continue acquire_read)
  | acquire_read => [(σ, Continue (acquire_try (Value σ)))]
  | acquire_try value =>
      if negb (is_set value PH_QUEUED_LOCK_WAITERS) &&
         (negb (is_set value PH_QUEUED_LOCK_OWNED) || (0 <? PhGetQueuedLockSharedOwners value)) then
        exchange σ (Z.lor (u64 (value + PH_QUEUED_LOCK_SHARED_INC)) PH_QUEUED_LOCK_OWNED) value (Return true)
          (λ newValue, Continue (acquire_try newValue))
      else
        PhpPushQueuedWaitBlock σ value false wb (acquire_pushed value) (λ newValue, Continue (acquire_try newValue))
  | acquire_optimize value p => acquire_optimizing σ value p
  | acquire_block value p => acquire_blocking σ wb value p
  end.

Definition PhTryAcquireQueuedLockExclusive (σ : state) : list (state * outcome unit) :=
  if is_set (Value σ) PH_QUEUED_LOCK_OWNED then [(σ, Return false)]
  else [(with_Value σ (Z.setbit (Value σ) PH_QUEUED_LOCK_OWNED_SHIFT), Return true)].

(** ** Releasing *)

Definition releasing {P} (p : traverse → P) : outcome traverse → outcome P := map_outcome p Return.

Inductive release_exclusive :=
  | release_add
  | release_wake (value : Z)
  | release_waking (p : traverse).

(** [PhReleaseQueuedLockExclusive], inline, and [PhfWakeForReleaseQueuedLock]. *)
Definition PhReleaseQueuedLockExclusive (σ : state) (p : release_exclusive) : list (state * outcome release_exclusive) :=
  match p with
  | release_add =>
      let value := Value σ in
      let σ := with_Value σ (u64 (value - PH_QUEUED_LOCK_OWNED)) in
      if Z.land value (Z.lor PH_QUEUED_LOCK_WAITERS PH_QUEUED_LOCK_TRAVERSING) =? PH_QUEUED_LOCK_WAITERS then
        [(σ, Continue (release_wake (u64 (value - PH_QUEUED_LOCK_OWNED))))]
      else [(σ, Return true)]
  | release_wake Value =>
      let newValue := u64 (Value + PH_QUEUED_LOCK_TRAVERSING) in
      exchange σ newValue Value (releasing release_waking (PhpfWakeQueuedLock newValue)) (λ _, Return true)
  | release_waking p => prod_map id (releasing release_waking) <$> lock_traverse σ p
  end.

Inductive releasef_exclusive :=
  | releasef_read
  | releasef_exchange (value : Z)
  | releasef_waking (p : traverse).

(** The head of the loop, with its assertions. *)
Definition releasef_loop (value : Z) : outcome releasef_exclusive :=
  if is_set value PH_QUEUED_LOCK_OWNED &&
     (is_set value PH_QUEUED_LOCK_WAITERS || (PhGetQueuedLockSharedOwners value =? 0))
  then Continue (releasef_exchange value) else Fault.

Definition PhfReleaseQueuedLockExclusive (σ : state) (p : releasef_exclusive) : list (state * outcome releasef_exclusive) :=
  match p with
  | releasef_read => [(σ, releasef_loop (Value σ))]
  | releasef_exchange value =>
      if negb (Z.land value (Z.lor PH_QUEUED_LOCK_WAITERS PH_QUEUED_LOCK_TRAVERSING) =? PH_QUEUED_LOCK_WAITERS) then
        exchange σ (value - PH_QUEUED_LOCK_OWNED) value (Return true) releasef_loop
      else
        let newValue := u64 (value - PH_QUEUED_LOCK_OWNED + PH_QUEUED_LOCK_TRAVERSING) in
        exchange σ newValue value (releasing releasef_waking (PhpfWakeQueuedLock newValue)) releasef_loop
  | releasef_waking p => prod_map id (releasing releasef_waking) <$> lock_traverse σ p
  end.

Inductive release_shared :=
  | shared_fast
  | shared_read
  | shared_exchange (value : Z)
  | shared_find (value waitBlock : Z)
  | shared_next (value waitBlock : Z)
  | shared_decrement (value waitBlock : Z)
  | shared_clear (value : Z)
  | shared_waking (p : traverse).

(** The head of the first loop, with its assertions, and what follows it. *)
Definition shared_loop (value : Z) : outcome release_shared :=
  if negb (is_set value PH_QUEUED_LOCK_WAITERS) then
    if is_set value PH_QUEUED_LOCK_OWNED &&
       (is_set value PH_QUEUED_LOCK_WAITERS || (0 <? PhGetQueuedLockSharedOwners value))
    then Continue (shared_exchange value) else Fault
  else if is_set value PH_QUEUED_LOCK_MULTIPLE_SHARED then
    Continue (shared_find value (PhGetQueuedLockWaitBlock value))
  else Continue (shared_clear value).

(** [shared_find] and [shared_next] are the loop of [PhpFindLastQueuedWaitBlock]. *)
Definition PhfReleaseQueuedLockShared (σ : state) (p : release_shared) : list (state * outcome release_shared) :=
  match p with
  | shared_fast =>
      exchange σ 0 (Z.lor PH_QUEUED_LOCK_OWNED PH_QUEUED_LOCK_SHARED_INC) (Return true) (λ _, Continue shared_read)
  | shared_read => [(σ, shared_loop (Value σ))]
  | shared_exchange value =>
      let newValue := if 1 <? PhGetQueuedLockSharedOwners value then value - PH_QUEUED_LOCK_SHARED_INC else 0 in
      exchange σ newValue value (Return true) shared_loop
  | shared_find value waitBlock =>
      read σ waitBlock (λ b,
        if negb (Last b =? NULL) then Continue (shared_decrement value (Last b)) else Continue (shared_next value waitBlock))
  | shared_next value waitBlock => read σ waitBlock (λ b, Continue (shared_find value (Next b)))
  | shared_decrement value waitBlock =>
      write σ waitBlock (λ b, with_SharedOwners b (u32 (SharedOwners b - 1)))
        (λ b, if 0 <? u32 (SharedOwners b - 1) then Return true else Continue (shared_clear value))
  | shared_clear value =>
      let released := Z.ldiff value (Z.lor PH_QUEUED_LOCK_OWNED PH_QUEUED_LOCK_MULTIPLE_SHARED) in
      if is_set value PH_QUEUED_LOCK_TRAVERSING then
        exchange σ released value (Return true) (λ newValue, Continue (shared_clear newValue))
      else
        let newValue := Z.lor released PH_QUEUED_LOCK_TRAVERSING in
        exchange σ newValue value (releasing shared_waking (PhpfWakeQueuedLock newValue))
          (λ newValue, Continue (shared_clear newValue))
  | shared_waking p => prod_map id (releasing shared_waking) <$> lock_traverse σ p
  end.

(** ** Threads

    What a thread is doing with the lock. [Faulted] is the end of a thread that
    accessed a block that is not in use, or whose assertion failed. *)
Inductive activity :=
  | Idle
  | OwnsExclusive
  | OwnsShared
  | AcquiringExclusive (p : acquire)
  | AcquiringShared (p : acquire)
  | TryingExclusive
  | ReleasingExclusive (p : release_exclusive)
  | ReleasingfExclusive (p : releasef_exclusive)
  | ReleasingShared (p : release_shared)
  | Faulted.

(** A thread has an address for its wait block. *)
Record thread := Thread { Address : Z; Doing : activity }.

Definition after {P} (calling : P → activity) (returned : bool → activity) (o : outcome P) : activity :=
  match o with
  | Continue p => calling p
  | Return result => returned result
  | Fault => Faulted
  end.

(** An idle thread may call any of the functions that acquire, a thread that holds
    the lock may release it. *)
Definition act (σ : state) (wb : Z) (d : activity) : list (state * activity) :=
  match d with
  | Idle => [(σ, AcquiringExclusive acquire_fast); (σ, AcquiringShared acquire_fast); (σ, TryingExclusive)]
  | OwnsExclusive => [(σ, ReleasingExclusive release_add); (σ, ReleasingfExclusive releasef_read)]
  | OwnsShared => [(σ, ReleasingShared shared_fast)]
  | AcquiringExclusive p => prod_map id (after AcquiringExclusive (λ _, OwnsExclusive)) <$> PhfAcquireQueuedLockExclusive σ wb p
  | AcquiringShared p => prod_map id (after AcquiringShared (λ _, OwnsShared)) <$> PhfAcquireQueuedLockShared σ wb p
  | TryingExclusive =>
      prod_map id (after (λ _, TryingExclusive) (λ result : bool, if result then OwnsExclusive else Idle)) <$>
      PhTryAcquireQueuedLockExclusive σ
  | ReleasingExclusive p => prod_map id (after ReleasingExclusive (λ _, Idle)) <$> PhReleaseQueuedLockExclusive σ p
  | ReleasingfExclusive p => prod_map id (after ReleasingfExclusive (λ _, Idle)) <$> PhfReleaseQueuedLockExclusive σ p
  | ReleasingShared p => prod_map id (after ReleasingShared (λ _, Idle)) <$> PhfReleaseQueuedLockShared σ p
  | Faulted => []
  end.

Definition next (σ : state) (t : thread) : list (state * thread) :=
  prod_map id (Thread (Address t)) <$> act σ (Address t) (Doing t).

End Functions.
