(* ===== verification/QueuedLockFacts.v ===== *)
(** The queued lock: its word, the list of wait blocks in memory, what each point
    of a thread knows, and the invariant of a system of threads. *)

From S2P Require Import Prelude Concurrency QueuedLock.

(** ** The word *)

(** A word with waiters: the address of the newest wait block and the flags. *)
Definition word (a : Z) (o w t m : bool) : Z := a + Z.b2z o + 2 * Z.b2z w + 4 * Z.b2z t + 8 * Z.b2z m.

(** An address of a wait block. *)
Definition good (a : Z) : Prop := a mod 16 = 0 ∧ 0 < a < 2 ^ 64 - 16.

Lemma good_shift a : good a → ∃ q, a = Z.shiftl q 4.
Proof. intros [Ha _]. exists (a / 16). rewrite Z.shiftl_mul_pow2 by done. change (2 ^ 4) with 16. pose proof (Z.div_mod a 16). lia. Qed.

(** Adding flags to an address sets the bits. *)
Lemma lor_flags a f : a mod 16 = 0 → 0 ≤ f < 16 → Z.lor a f = a + f.
Proof.
  intros Ha Hf. rewrite <-Z.add_lor_land. enough (Z.land a f = 0) by lia.
  apply Z.bits_inj'. intros n Hn. rewrite Z.land_spec, Z.bits_0.
  destruct (Z.le_gt_cases 4 n) as [H4|H4].
  - assert (Z.testbit f n = false) as ->; [|by rewrite andb_false_r].
    destruct (decide (f = 0)) as [->|Hf0]; [by rewrite Z.bits_0|]. apply Z.bits_above_log2; [lia|].
    apply Z.log2_lt_pow2; [lia|]. pose proof (Z.pow_le_mono_r 2 4 n ltac:(lia) H4). lia.
  - rewrite <-(Z.mod_pow2_bits_low a 4) by lia. change (2 ^ 4) with 16. by rewrite Ha, Z.bits_0.
Qed.

Lemma land_flags a f k : a mod 16 = 0 → 0 ≤ f < 16 → 0 ≤ k < 16 → Z.land (a + f) k = Z.land f k.
Proof.
  intros Ha Hf Hk. rewrite <-lor_flags, Z.land_lor_distr_l by done. enough (Z.land a k = 0) as -> by done.
  pose proof (Z.add_lor_land a k). rewrite lor_flags in H by done. lia.
Qed.

Lemma flags_bound o w t m : 0 ≤ Z.b2z o + 2 * Z.b2z w + 4 * Z.b2z t + 8 * Z.b2z m < 16.
Proof. by destruct o, w, t, m. Qed.

Lemma word_flags a o w t m : word a o w t m = a + (Z.b2z o + 2 * Z.b2z w + 4 * Z.b2z t + 8 * Z.b2z m).
Proof. unfold word. lia. Qed.

Section Word.
Context (a : Z) (Ha : good a).

Lemma word_is_set o w t m k : 0 ≤ k < 16 → is_set (word a o w t m) k = is_set (word 0 o w t m) k.
Proof.
  intros Hk. unfold is_set. f_equal. rewrite !word_flags, !land_flags by (done || apply Ha || apply flags_bound). done.
Qed.

Lemma word_owned o w t m : is_set (word a o w t m) PH_QUEUED_LOCK_OWNED = o.
Proof. rewrite word_is_set by done. by destruct o, w, t, m. Qed.
Lemma word_waiters o w t m : is_set (word a o w t m) PH_QUEUED_LOCK_WAITERS = w.
Proof. rewrite word_is_set by done. by destruct o, w, t, m. Qed.
Lemma word_traversing o w t m : is_set (word a o w t m) PH_QUEUED_LOCK_TRAVERSING = t.
Proof. rewrite word_is_set by done. by destruct o, w, t, m. Qed.
Lemma word_multiple o w t m : is_set (word a o w t m) PH_QUEUED_LOCK_MULTIPLE_SHARED = m.
Proof. rewrite word_is_set by done. by destruct o, w, t, m. Qed.

Lemma word_block o w t m : PhGetQueuedLockWaitBlock (word a o w t m) = a.
Proof.
  destruct Ha as [Hm _]. unfold PhGetQueuedLockWaitBlock. change PH_QUEUED_LOCK_FLAGS with (Z.ones 4).
  rewrite Z.ldiff_ones_r by done. rewrite word_flags, Z.shiftr_div_pow2, Z.shiftl_mul_pow2 by done. change (2 ^ 4) with 16.
  pose proof (flags_bound o w t m). pose proof (Z.div_mod a 16). rewrite <-(Z.div_unique (a + _) 16 (a / 16) (Z.b2z o + 2 * Z.b2z w + 4 * Z.b2z t + 8 * Z.b2z m)); lia.
Qed.

Lemma queued_word_range o w t m : 0 < word a o w t m < 2 ^ 64.
Proof. destruct Ha as [_ ?]. rewrite word_flags. pose proof (flags_bound o w t m). lia. Qed.

(** The exclusive release tells whether there are waiters and nobody traverses. *)
Lemma word_land_waiters_traversing o w t m :
  (Z.land (word a o w t m) (Z.lor PH_QUEUED_LOCK_WAITERS PH_QUEUED_LOCK_TRAVERSING) =? PH_QUEUED_LOCK_WAITERS) = w && negb t.
Proof. destruct Ha as [Hm _]. rewrite word_flags, land_flags by (done || apply flags_bound). by destruct o, w, t, m. Qed.

Lemma word_setbit w t m : Z.setbit (word a false w t m) PH_QUEUED_LOCK_OWNED_SHIFT = word a true w t m.
Proof.
  destruct Ha as [Hm _]. unfold PH_QUEUED_LOCK_OWNED_SHIFT. rewrite Z.setbit_spec'. change (2 ^ 0) with 1.
  rewrite !word_flags, <-!(lor_flags a) by (done || apply flags_bound). rewrite <-Z.lor_assoc. by destruct w, t, m.
Qed.

Lemma word_release_shared w t m :
  Z.ldiff (word a true w t m) (Z.lor PH_QUEUED_LOCK_OWNED PH_QUEUED_LOCK_MULTIPLE_SHARED) = word a false w t false.
Proof.
  destruct Ha as [Hm _]. rewrite !word_flags, <-!(lor_flags a) by (done || apply flags_bound).
  set (k := Z.lor PH_QUEUED_LOCK_OWNED _). assert (Z.ldiff a k = a) as Hk.
  { pose proof (Z.lor_ldiff_and a k) as E. enough (Z.land a k = 0) as E0 by (rewrite E0, Z.lor_0_r in E; done).
    pose proof (Z.add_lor_land a k) as E1. change k with 9 in *. rewrite (lor_flags a 9 Hm) in E1 by lia. lia. }
  rewrite <-Hk at 2. apply Z.bits_inj'. intros n Hn. rewrite Z.ldiff_spec, !Z.lor_spec, Z.ldiff_spec.
  assert (Z.testbit (Z.b2z true + 2 * Z.b2z w + 4 * Z.b2z t + 8 * Z.b2z m) n && negb (Z.testbit k n) =
    Z.testbit (Z.b2z false + 2 * Z.b2z w + 4 * Z.b2z t + 8 * Z.b2z false) n) as <- by (rewrite <-Z.ldiff_spec; by destruct w, t, m).
  by rewrite andb_orb_distrib_l.
Qed.

Lemma word_lor_traversing o w m : Z.lor (word a o w false m) PH_QUEUED_LOCK_TRAVERSING = word a o w true m.
Proof.
  destruct Ha as [Hm _]. rewrite !word_flags, <-!(lor_flags a) by (done || apply flags_bound). rewrite <-Z.lor_assoc. by destruct o, w, m.
Qed.

(** Pushing onto a list. *)
Lemma push_value_waiters b e o t m : good b → push_value (word b o true t m) e a = word a o true true m.
Proof.
  intros [Hb Hr]. unfold push_value. rewrite (word_is_set o true t m) || idtac.
  assert (is_set (word b o true t m) PH_QUEUED_LOCK_WAITERS = true) as ->.
  { unfold is_set. rewrite word_flags, land_flags by (done || apply flags_bound). by destruct o, t, m. }
  rewrite word_flags, (land_flags b) by (done || apply flags_bound). rewrite <-Z.lor_assoc, word_flags.
  destruct Ha as [Hm _]. rewrite <-(lor_flags a) by (done || apply flags_bound). by destruct o, t, m.
Qed.

End Word.

(** A word without waiters: whether it is owned, and the number of shared owners. *)
Definition free_word (o : bool) (n : Z) : Z := Z.b2z o + 4 * n.

Lemma free_testbit o n k : 0 ≤ n → 0 ≤ k < 2 → Z.testbit (free_word o n) k = (if k =? 0 then o else false).
Proof.
  intros Hn Hk. unfold free_word. assert (k = 0 ∨ k = 1) as [->| ->] by lia.
  - rewrite Z.bit0_odd. replace (Z.b2z o + 4 * n) with (Z.b2z o + 2 * (2 * n)) by lia. rewrite Z.odd_add_mul_2. by destruct o.
  - rewrite Z.testbit_spec' || idtac. rewrite (Z.testbit_false _ 1) by lia. change (2 ^ 1) with 2. cbn [Z.eqb].
    replace ((Z.b2z o + 4 * n) / 2) with (2 * n) by (destruct o; cbn [Z.b2z]; Z.to_euclidean_division_equations; lia).
    rewrite Z.mul_comm. apply Z.mod_mul. lia.
Qed.

Lemma land_bit v k : 0 ≤ k → Z.land v (2 ^ k) = if Z.testbit v k then 2 ^ k else 0.
Proof.
  intros Hk. apply Z.bits_inj'. intros n Hn. rewrite Z.land_spec, Z.pow2_bits_eqb by done.
  destruct (Z.eqb_spec k n) as [->|Hne].
  - rewrite andb_true_r. destruct (Z.testbit v n) eqn:E; [by rewrite Z.pow2_bits_true|by rewrite Z.bits_0].
  - rewrite andb_false_r. destruct (Z.testbit v k); [by rewrite Z.pow2_bits_false by done|by rewrite Z.bits_0].
Qed.

Lemma free_owned o n : 0 ≤ n → is_set (free_word o n) PH_QUEUED_LOCK_OWNED = o.
Proof.
  intros Hn. unfold is_set. change PH_QUEUED_LOCK_OWNED with (2 ^ 0). rewrite land_bit, free_testbit by lia. by destruct o.
Qed.

Lemma free_waiters o n : 0 ≤ n → is_set (free_word o n) PH_QUEUED_LOCK_WAITERS = false.
Proof.
  intros Hn. unfold is_set. change PH_QUEUED_LOCK_WAITERS with (2 ^ 1). by rewrite land_bit, free_testbit by lia.
Qed.

Lemma free_owners o n : 0 ≤ n → PhGetQueuedLockSharedOwners (free_word o n) = n.
Proof.
  intros Hn. unfold PhGetQueuedLockSharedOwners, free_word. rewrite Z.shiftr_div_pow2 by done. change (2 ^ PH_QUEUED_LOCK_SHARED_SHIFT) with 4.
  destruct o; cbn [Z.b2z]; Z.to_euclidean_division_equations; lia.
Qed.

Lemma free_setbit n : 0 ≤ n → Z.setbit (free_word false n) PH_QUEUED_LOCK_OWNED_SHIFT = free_word true n.
Proof.
  intros Hn. unfold PH_QUEUED_LOCK_OWNED_SHIFT. rewrite Z.setbit_spec'.
  pose proof (Z.add_lor_land (free_word false n) (2 ^ 0)) as E. rewrite land_bit, free_testbit in E by lia.
  change (if if 0 =? 0 then false else false then 2 ^ 0 else 0) with 0 in E. rewrite Z.add_0_r in E. rewrite E. unfold free_word. cbn [Z.b2z]. lia.
Qed.

Lemma push_value_free a e o n : good a → 0 ≤ n < 2 ^ 32 →
  push_value (free_word o n) e a = word a true true false (e && (1 <? n)).
Proof.
  intros [Ha _] Hn. unfold push_value. rewrite free_waiters, free_owners, u32_small by lia.
  destruct (e && (1 <? n)); rewrite <-!Z.lor_assoc, word_flags, lor_flags by done; done.
Qed.

(** ** What the threads are doing

    Whether a point of a traversal has the traversing bit, and whether it is one of
    those that are going to wake threads. *)
Definition holding (p : traverse) : bool :=
  match p with wake_previous _ | wake_reset _ _ | wake_release _ _ => false | _ => true end.
Definition preparing (p : traverse) : bool :=
  match p with
  | walk_last Waking _ _ | walk_next Waking _ _ | walk_previous Waking _ _ _
  | prepare_clear _ | prepare_flags _ _ | prepare_previous _ _ | prepare_last _ _ _
  | prepare_unlink _ | prepare_finish _ | prepare_exchange _ _ => true
  | _ => false
  end.

Definition traversing (d : activity) : option traverse :=
  match d with
  | AcquiringExclusive (acquire_optimize _ p) | AcquiringShared (acquire_optimize _ p)
  | ReleasingExclusive (release_waking p) | ReleasingfExclusive (releasef_waking p)
  | ReleasingShared (shared_waking p) => Some p
  | _ => None
  end.

(** The wait of a thread: before it has reset its spinning flag, before it arrives at
    the keyed event, and after that. *)
Inductive phase := Early | Arriving | Blocked.

Definition block_phase (p : block) : phase :=
  match p with block_spin _ | block_reset => Early | block_arrive => Arriving | block_wait => Blocked end.

Definition acquire_phase (p : acquire) : option phase :=
  match p with
  | acquire_optimize _ _ => Some Early
  | acquire_block _ p => Some (block_phase p)
  | _ => None
  end.

(** What a thread is to the others: whether it has exclusive access, has shared
    access and is counted as a shared owner, has given up its count but not the lock,
    or is acquiring the lock; and how it waits. *)
Record role := Role { r_exclusive : bool; r_shared : bool; r_clearing : bool; r_acquiring : bool; r_phase : option phase }.

Definition no_role : role := Role false false false false None.

Definition role_of (d : activity) : role :=
  match d with
  | OwnsExclusive | ReleasingExclusive release_add
  | ReleasingfExclusive releasef_read | ReleasingfExclusive (releasef_exchange _) => Role true false false false None
  | OwnsShared => Role false true false false None
  | ReleasingShared p =>
      match p with
      | shared_clear _ => Role false false true false None
      | shared_waking _ => no_role
      | _ => Role false true false false None
      end
  | AcquiringExclusive p | AcquiringShared p => Role false false false true (acquire_phase p)
  | _ => no_role
  end.

Definition exclusive (t : thread) : Z := Z.b2z (r_exclusive (role_of (Doing t))).
Definition sharing (t : thread) : Z := Z.b2z (r_shared (role_of (Doing t))).
Definition clearing (t : thread) : Z := Z.b2z (r_clearing (role_of (Doing t))).
Definition holds (t : thread) : Z := Z.b2z (from_option holding false (traversing (Doing t))).
Definition prepares (t : thread) : Z := Z.b2z (from_option preparing false (traversing (Doing t))).

(** ** What the word says

    [r] is the list of wait blocks, the oldest first; the word has the address of the
    newest. [E], [C] and [L] count the threads with exclusive access, those counted as
    shared owners and those that clear the lock, [H] and [P] the threads that
    traverse and those that are going to wake others. *)
Record lock_word (r : list Z) (v : Z) (o t m : bool) (E C L H P : Z) : Prop := {
  lw_value : v = match last r with None => free_word o C | Some a => word a o true t m end;
  lw_empty : r = [] → t = false ∧ m = false ∧ L = 0;
  lw_owned : o = true ↔ 0 < E + C + L;
  lw_exclusive : E ≤ 1 ∧ (E = 1 → C = 0 ∧ L = 0);
  lw_clearing : L ≤ 1 ∧ (L = 1 → C = 0);
  lw_single : r ≠ [] → m = false → C ≤ 1;
  lw_multiple : m = true → E = 0 ∧ o = true;
  lw_holds : H = Z.b2z t;
  lw_prepares : m = true → P = 0;
}.

(** ** The list in memory

    From the block at [F] on, which has a pointer to the oldest block, the pointers to
    newer blocks are set; the blocks that are newer than it have no such pointer. *)
Record chain (B : gmap Z PH_QUEUED_WAIT_BLOCK) (r : list Z) (F : nat) : Prop := {
  chain_next k x y : r !! k = Some x → r !! S k = Some y → Next <$> B !! y = Some x;
  chain_previous k x y : (k < F)%nat → r !! k = Some x → r !! S k = Some y → Previous <$> B !! x = Some y;
  chain_last x y : r !! F = Some x → r !! O = Some y → Last <$> B !! x = Some y;
  chain_new k x : (F < k)%nat → r !! k = Some x → Last <$> B !! x = Some NULL;
  chain_bound : r ≠ [] → (F < length r)%nat;
  chain_head x : last r = Some x → Previous <$> B !! x = Some NULL;
}.

(** With several shared owners the oldest block counts them, and no block has been
    taken off the list. *)
Record multiple (B : gmap Z PH_QUEUED_WAIT_BLOCK) (r : list Z) (C : Z) : Prop := {
  multiple_last x y : x ∈ r → r !! O = Some y → Last <$> B !! x = Some NULL ∨ Last <$> B !! x = Some y;
  multiple_first y : r !! O = Some y → Last <$> B !! y = Some y;
  multiple_count y : r !! O = Some y → SharedOwners <$> B !! y = Some C;
}.

(** ** What a thread knows *)

(** Its own block: it is [listed], on the list or in the hands of a thread that
    wakes it, until it has been unblocked. *)
Definition wait_ok (B : gmap Z PH_QUEUED_WAIT_BLOCK) (K : gset Z) (listed : list Z) (a : Z) (w : option phase) : Prop :=
  match w with
  | None => B !! a = None ∧ a ∉ listed ∧ a ∉ K
  | Some Early => ∃ b, B !! a = Some b ∧ (spinning b = true ↔ a ∈ listed) ∧ a ∉ K
  | Some Arriving => ∃ b, B !! a = Some b ∧ spinning b = false ∧ a ∈ listed ∧ a ∉ K
  | Some Blocked => ∃ b, B !! a = Some b ∧ spinning b = false ∧ (a ∈ listed ↔ a ∈ K)
  end.

(** A walk that started at the block at [h], which the value holds, and has come to
    the one at [p]. *)
Record walking (B : gmap Z PH_QUEUED_WAIT_BLOCK) (r : list Z) (F : nat) (v : Z) (h p : nat) : Prop := {
  walking_head : r !! h = Some (PhGetQueuedLockWaitBlock v);
  walking_order : (F ≤ p ≤ h)%nat;
  walking_visited k x y : (p ≤ k < h)%nat → r !! k = Some x → r !! S k = Some y → Previous <$> B !! x = Some y;
  walking_above k x : (h ≤ k)%nat → r !! k = Some x → Previous <$> B !! x = Some NULL;
}.

(** The blocks that a thread has taken off the list and wakes, in this order. *)
Fixpoint linked (B : gmap Z PH_QUEUED_WAIT_BLOCK) (hand : list Z) : Prop :=
  match hand with
  | [] => True
  | x :: hand => Previous <$> B !! x = Some (default NULL (head hand)) ∧ linked B hand
  end.

(** A walk that optimizes was begun with the lock owned, one that wakes with the lock
    released. *)
Definition begun (k : walk_for) (v : Z) : Prop :=
  is_set v PH_QUEUED_LOCK_OWNED = match k with Optimizing => true | Waking => false end.

Definition traverse_ok (B : gmap Z PH_QUEUED_WAIT_BLOCK) (r : list Z) (F : nat) (hand : list Z) (p : traverse) : Prop :=
  match p with
  | walk_last k v x => hand = [] ∧ ∃ h p, walking B r F v h p ∧ r !! p = Some x ∧ begun k v
  | walk_next k v x => hand = [] ∧ ∃ h p, walking B r F v h p ∧ r !! p = Some x ∧ (F < p)%nat ∧ begun k v
  | walk_previous k v y x =>
      hand = [] ∧ ∃ h p, walking B r F v h (S p) ∧ r !! S p = Some y ∧ r !! p = Some x ∧ (F ≤ p)%nat ∧ begun k v
  | optimize_last v x => hand = [] ∧ ∃ h, walking B r F v h F ∧ r !! O = Some x ∧ begun Optimizing v
  | optimize_exchange v | prepare_clear v => hand = [] ∧ is_set v PH_QUEUED_LOCK_OWNED = true
  | prepare_flags v x | prepare_previous v x | prepare_exchange v x =>
      hand = [] ∧ ∃ h, walking B r F v h F ∧ r !! O = Some x ∧ begun Waking v
  | prepare_last v x y => hand = [] ∧ ∃ h, walking B r F v (S h) F ∧ r !! O = Some x ∧ r !! 1%nat = Some y
  | prepare_unlink x => hand = [x]
  | prepare_finish x => hand = [x] ∧ Previous <$> B !! x = Some NULL
  | wake_previous x => ∃ rest, hand = x :: rest ∧ linked B hand
  | wake_reset x y => ∃ rest, hand = x :: rest ∧ y = default NULL (head rest) ∧ linked B rest
  | wake_release x y =>
      ∃ rest, hand = x :: rest ∧ y = default NULL (head rest) ∧ linked B rest ∧ spinning <$> B !! x = Some false
  end.

Definition hand_ok (B : gmap Z PH_QUEUED_WAIT_BLOCK) (r : list Z) (F : nat) (hand : list Z) (p : option traverse) : Prop :=
  match p with
  | Some p => traverse_ok B r F hand p
  | None => hand = []
  end.

(** What a releaser remembers of the word, and a shared owner that looks for the
    oldest block. *)
Definition share_ok (r : list Z) (m : bool) (d : activity) : Prop :=
  match d with
  | ReleasingExclusive (release_wake v) =>
      is_set v PH_QUEUED_LOCK_OWNED = false ∧ is_set v PH_QUEUED_LOCK_WAITERS = true ∧ is_set v PH_QUEUED_LOCK_TRAVERSING = false
  | ReleasingShared (shared_exchange v) => is_set v PH_QUEUED_LOCK_WAITERS = false
  | ReleasingShared (shared_find _ x) => m = true ∧ x ∈ r
  | ReleasingShared (shared_next _ x) => m = true ∧ ∃ k, r !! S k = Some x
  | ReleasingShared (shared_decrement _ x) => m = true ∧ r !! O = Some x
  | Faulted => False
  | _ => True
  end.

Record thread_ok (B : gmap Z PH_QUEUED_WAIT_BLOCK) (K : gset Z) (r : list Z) (F : nat) (m : bool) (listed hand : list Z) (t : thread) : Prop := {
  ok_wait : wait_ok B K listed (Address t) (r_phase (role_of (Doing t)));
  ok_hand : hand_ok B r F hand (traversing (Doing t));
  ok_share : share_ok r m (Doing t);
}.

(** ** The invariant

    If there are waiters and nobody has the lock or traverses the list, then a thread
    that does not wait on the list is acquiring the lock, or the last releaser is about to wake the waiters. *)
Definition will_wake (v : Z) (r : list Z) (t : thread) : Prop :=
  (r_acquiring (role_of (Doing t)) = true ∧ Address t ∉ r) ∨ Doing t = ReleasingExclusive (release_wake v).

Definition MAX_THREADS : Z := 2 ^ 32 - 1.

Record inv (s : @system state thread) (r : list Z) (F : nat) (hands : list (list Z)) (o t m : bool) : Prop := {
  inv_addresses : NoDup (Address <$> threads s);
  inv_good : Forall good (Address <$> threads s);
  inv_threads_bound : Z.of_nat (length (threads s)) ≤ MAX_THREADS;
  inv_word : lock_word r (Value (shared s)) o t m (total exclusive (threads s)) (total sharing (threads s))
    (total clearing (threads s)) (total holds (threads s)) (total prepares (threads s));
  inv_chain : chain (Blocks (shared s)) r F;
  inv_multiple : m = true → multiple (Blocks (shared s)) r (total sharing (threads s));
  inv_listed : NoDup (r ++ concat hands);
  inv_hands : length hands = length (threads s);
  inv_owner a : is_Some (Blocks (shared s) !! a) ∨ a ∈ KeyedEvent (shared s) ∨ a ∈ r ++ concat hands →
    ∃ i u, threads s !! i = Some u ∧ Address u = a;
  inv_threads i u hand : threads s !! i = Some u → hands !! i = Some hand →
    thread_ok (Blocks (shared s)) (KeyedEvent (shared s)) r F m (r ++ concat hands) hand u;
  inv_wake : r ≠ [] → o = false → t = false → ∃ i u, threads s !! i = Some u ∧ will_wake (Value (shared s)) r u;
}.

Definition invariant (s : @system state thread) : Prop := ∃ r F hands o t m, inv s r F hands o t m.

(** *** Lists of lists *)

Lemma concat_hand {A} (hands : list (list A)) i hand : hands !! i = Some hand →
  ∃ others, concat hands ≡ₚ hand ++ others ∧ (∀ hand', concat (<[i := hand']> hands) ≡ₚ hand' ++ others) ∧
    ∀ j hand', j ≠ i → hands !! j = Some hand' → ∀ x, x ∈ hand' → x ∈ others.
Proof.
  revert i. induction hands as [|h hands IH]; intros [|i] Hi; [done..| |].
  - injection Hi as ->. exists (concat hands). split_and!; [done|done|]. intros [|j] hand' Hj H x Hx; [done|].
    apply list_elem_of_In, in_concat. exists hand'. rewrite <-!list_elem_of_In. split; [by eapply list_elem_of_lookup_2|done].
  - destruct (IH i Hi) as (others & H1 & H2 & H3). exists (h ++ others). cbn [concat]. split_and!.
    + rewrite H1. solve_Permutation.
    + intros hand'. change (concat (<[S i := hand']> (h :: hands))) with (h ++ concat (<[i := hand']> hands)). rewrite H2. solve_Permutation.
    + intros [|j] hand' Hj H x Hx; [injection H as ->; apply elem_of_app; by left|].
      apply elem_of_app. right. apply (H3 j hand'); [lia|done|done].
Qed.

(** ** Frames: what a thread knows survives what others do *)

(** Two memories agree on what a thread reads of the blocks of others. *)
Definition agree (B B' : gmap Z PH_QUEUED_WAIT_BLOCK) (x : Z) : Prop :=
  Previous <$> B' !! x = Previous <$> B !! x ∧
  (spinning <$> B !! x = Some false → spinning <$> B' !! x = Some false).

Lemma agree_refl B x : agree B B x.
Proof. done. Qed.

Lemma wait_frame B K listed B' K' listed' a w :
  wait_ok B K listed a w → spinning <$> B' !! a = spinning <$> B !! a → (a ∈ listed' ↔ a ∈ listed) → (a ∈ K' ↔ a ∈ K) →
  wait_ok B' K' listed' a w.
Proof.
  intros Hw Hs Hl HK. destruct w as [[]|]; cbn [wait_ok] in *.
  1-3: destruct Hw as (b & Hb & Hw); rewrite Hb in Hs; destruct (B' !! a) as [b'|] eqn:Hb'; [|done];
    apply (inj Some) in Hs; exists b'; rewrite Hs, ?Hl, ?HK; by destruct Hw.
  destruct Hw as (Hb & Hn & Hk). rewrite Hb in Hs. apply fmap_None in Hs. by rewrite Hl, HK.
Qed.

Lemma linked_frame B B' hand : (∀ x, x ∈ hand → agree B B' x) → linked B hand → linked B' hand.
Proof.
  induction hand as [|x hand IH]; [done|]. intros Ha [Hx Hh]. split.
  - destruct (Ha x) as [-> _]; [by left|done].
  - apply IH; [|done]. intros y Hy. apply Ha. by right.
Qed.

(** A list that only gets newer blocks. *)
Definition extends (B B' : gmap Z PH_QUEUED_WAIT_BLOCK) (r r' : list Z) : Prop :=
  ∃ newer, r' = r ++ newer ∧ (∀ x, x ∈ r → agree B B' x) ∧ (∀ x, x ∈ newer → Previous <$> B' !! x = Some NULL).

Lemma extends_same B B' r : (∀ x, x ∈ r → agree B B' x) → extends B B' r r.
Proof. intros Ha. exists []. rewrite app_nil_r. split_and!; [done|done|]. by intros x ?%elem_of_nil. Qed.

Lemma extends_lookup B B' r r' k x : extends B B' r r' → r !! k = Some x → r' !! k = Some x.
Proof. intros (newer & -> & _) Hx. by apply lookup_app_l_Some. Qed.

Lemma walking_frame B B' r r' F v h p : extends B B' r r' → walking B r F v h p → walking B' r' F v h p.
Proof.
  intros He [Hh Ho Hv Ha]. assert (h < length r)%nat as Hlen by (by eapply lookup_lt_Some).
  destruct He as (newer & -> & Hsame & Hnew). constructor.
  - by apply lookup_app_l_Some.
  - done.
  - intros k x y Hk Hx Hy. rewrite lookup_app_l in Hx, Hy by lia.
    destruct (Hsame x) as [-> _]; [by eapply list_elem_of_lookup_2|]. by apply (Hv k).
  - intros k x Hk [Hx|[_ Hx]]%lookup_app_Some; [|by eapply Hnew, list_elem_of_lookup_2].
    destruct (Hsame x) as [-> _]; [by eapply list_elem_of_lookup_2|]. by apply (Ha k).
Qed.

Lemma traverse_frame B B' r r' F F' hand p :
  traverse_ok B r F hand p → (∀ x, x ∈ hand → agree B B' x) →
  (holding p = true → F' = F ∧ extends B B' r r') → traverse_ok B' r' F' hand p.
Proof.
  intros Hok Hhand Hlist.
  assert (∀ k x, extends B B' r r' → r !! k = Some x → r' !! k = Some x) as Hlk by (intros; by eapply extends_lookup).
  destruct p; cbn [holding traverse_ok] in *; try (destruct (Hlist eq_refl) as [-> He]);
    repeat match goal with H : _ ∧ _ |- _ => destruct H | H : ∃ _, _ |- _ => destruct H end; subst; try done.
  1-7,9: split; [done|]; match goal with He : extends _ _ _ _, H : walking _ _ _ _ _ _ |- _ => pose proof (walking_frame _ _ _ _ _ _ _ _ He H) end;
    do 2 try eexists; eauto 10.
  - split; [done|]. destruct (Hhand waitBlock) as [-> _]; [by left|done].
  - eexists. split; [done|]. by eapply linked_frame.
  - eexists. split_and!; [done..|]. eapply linked_frame; [|done]. intros y Hy. apply Hhand. by right.
  - eexists. split_and!; [done..| |].
    + eapply linked_frame; [|done]. intros y Hy. apply Hhand. by right.
    + destruct (Hhand waitBlock) as [_ Hs]; [by left|by apply Hs].
Qed.

Lemma share_frame r r' m m' d :
  share_ok r m d → (r_shared (role_of d) = true → m = true → m' = true ∧ ∃ newer, r' = r ++ newer) → share_ok r' m' d.
Proof.
  intros Hok Hf. destruct d as [| | | | | | | |[]|]; try done; cbn in *.
  - destruct Hok as [Hm Hx]. destruct (Hf eq_refl Hm) as (-> & newer & ->). split; [done|]. apply elem_of_app. by left.
  - destruct Hok as (Hm & k & Hx). destruct (Hf eq_refl Hm) as (-> & newer & ->). split; [done|]. exists k. by apply lookup_app_l_Some.
  - destruct Hok as [Hm Hx]. destruct (Hf eq_refl Hm) as (-> & newer & ->). split; [done|]. by apply lookup_app_l_Some.
Qed.

Lemma thread_frame B K r F m listed hand u B' K' r' F' m' listed' :
  thread_ok B K r F m listed hand u →
  (spinning <$> B' !! Address u = spinning <$> B !! Address u ∧
   (Address u ∈ listed' ↔ Address u ∈ listed) ∧ (Address u ∈ K' ↔ Address u ∈ K)) →
  (∀ x, x ∈ hand → agree B B' x) →
  (holds u = 1 → F' = F ∧ extends B B' r r') →
  (sharing u = 1 → m = true → m' = true ∧ ∃ newer, r' = r ++ newer) →
  thread_ok B' K' r' F' m' listed' hand u.
Proof.
  intros [Hw Hh Hs] (H1 & H2 & H3) Hhand Hlist Hshare. constructor.
  - by eapply wait_frame.
  - unfold holds in Hlist. destruct (traversing (Doing u)) as [p|]; [|done]. eapply traverse_frame; [done|done|].
    intros Hp. apply Hlist. cbn. by rewrite Hp.
  - eapply share_frame; [done|]. intros Hr. apply Hshare. unfold sharing. by rewrite Hr.
Qed.

(** ** One step of one thread *)

Section Moves.
Context (σ : state) (ts : list thread) (r : list Z) (F : nat) (hands : list (list Z)) (o t m : bool).
Hypothesis (HI : inv (System σ ts) r F hands o t m).
Context (i : nat) (a : Z) (d : activity) (hand : list Z).
Hypothesis (Hi : ts !! i = Some (Thread a d)) (Hhand : hands !! i = Some hand).

Local Abbreviation listed := (r ++ concat hands).

Lemma this_ok : thread_ok (Blocks σ) (KeyedEvent σ) r F m listed hand (Thread a d).
Proof. exact (inv_threads _ _ _ _ _ _ _ HI i _ _ Hi Hhand). Qed.

Lemma other_address j u : j ≠ i → ts !! j = Some u → Address u ≠ a.
Proof.
  intros Hj Hu Ha. apply Hj. eapply (proj1 (NoDup_alt _) (inv_addresses _ _ _ _ _ _ _ HI) j i a).
  - cbn [threads]. rewrite list_lookup_fmap, Hu. cbn. by rewrite Ha.
  - cbn [threads]. by rewrite list_lookup_fmap, Hi.
Qed.

Lemma address_good x : is_Some (Blocks σ !! x) ∨ x ∈ KeyedEvent σ ∨ x ∈ listed → good x.
Proof.
  intros (j & u & Hj & <-)%(inv_owner _ _ _ _ _ _ _ HI). pose proof (inv_good _ _ _ _ _ _ _ HI) as Hg.
  rewrite Forall_forall in Hg. apply Hg, list_elem_of_fmap. exists u. split; [done|]. by eapply list_elem_of_lookup_2.
Qed.

Lemma this_good : good a.
Proof.
  pose proof (inv_good _ _ _ _ _ _ _ HI) as Hg. rewrite Forall_forall in Hg. apply Hg, list_elem_of_fmap.
  exists (Thread a d). split; [done|]. by eapply list_elem_of_lookup_2.
Qed.

(** Blocks on the list, in this hand, and in the other hands are all different. *)
Lemma listed_apart :
  (∀ x, x ∈ r → x ∉ hand) ∧ NoDup r ∧ NoDup hand ∧
  ∀ j h x, j ≠ i → hands !! j = Some h → x ∈ h → x ∉ r ∧ x ∉ hand ∧ x ∈ listed.
Proof.
  pose proof (inv_listed _ _ _ _ _ _ _ HI) as HN. destruct (concat_hand _ _ _ Hhand) as (others & HP & _ & Ho).
  assert (NoDup (r ++ hand ++ others)) as HN' by (by rewrite <-HP).
  apply NoDup_app in HN' as (H1 & H2 & (H3 & H4 & H5)%NoDup_app). split_and!; [|done|done|].
  - intros x Hx Hh. apply (H2 x Hx), elem_of_app. by left.
  - intros j h x Hj Hh Hx. specialize (Ho j h Hj Hh x Hx). split_and!.
    + intros Hr. apply (H2 x Hr), elem_of_app. by right.
    + intros Hr. by apply (H4 x Hr).
    + apply elem_of_app. right. rewrite HP. apply elem_of_app. by right.
Qed.

(** A block that is listed is in use by a thread that waits. *)
Lemma listed_waiting x : x ∈ listed → ∃ j u b, ts !! j = Some u ∧ Address u = x ∧ Blocks σ !! x = Some b ∧
  match r_phase (role_of (Doing u)) with
  | Some Early => spinning b = true ∧ x ∉ KeyedEvent σ
  | Some Arriving => spinning b = false ∧ x ∉ KeyedEvent σ
  | Some Blocked => spinning b = false ∧ x ∈ KeyedEvent σ
  | None => False
  end.
Proof.
  intros Hx. destruct (inv_owner _ _ _ _ _ _ _ HI x) as (j & u & Hj & Ha); [by right; right|]. cbn [threads] in Hj.
  assert (is_Some (hands !! j)) as [h Hh].
  { apply lookup_lt_is_Some_2. rewrite (inv_hands _ _ _ _ _ _ _ HI). by eapply lookup_lt_Some. }
  pose proof (ok_wait _ _ _ _ _ _ _ _ (inv_threads _ _ _ _ _ _ _ HI j u h Hj Hh)) as Hw. cbn [shared] in Hw. rewrite Ha in Hw.
  destruct (r_phase (role_of (Doing u))) as [[]|] eqn:Hph; cbn [wait_ok] in Hw; [..|by destruct Hw as (_ & ? & _)];
    destruct Hw as (b & Hb & Hw); exists j, u, b; rewrite Hph; (split; [done|split; [done|split; [done|tauto]]]).
Qed.

Lemma inv_update σ' d' r' F' hand' o' t' m' :
  let ts' := <[i := Thread a d']> ts in
  let listed' := r' ++ concat (<[i := hand']> hands) in
  lock_word r' (Value σ') o' t' m' (total exclusive ts') (total sharing ts') (total clearing ts') (total holds ts') (total prepares ts') →
  chain (Blocks σ') r' F' →
  (m' = true → multiple (Blocks σ') r' (total sharing ts')) →
  NoDup listed' →
  (∀ x, is_Some (Blocks σ' !! x) ∨ x ∈ KeyedEvent σ' ∨ x ∈ listed' → x = a ∨ is_Some (Blocks σ !! x) ∨ x ∈ KeyedEvent σ ∨ x ∈ listed) →
  (∀ j u h, j ≠ i → ts !! j = Some u → hands !! j = Some h → thread_ok (Blocks σ) (KeyedEvent σ) r F m listed h u →
    thread_ok (Blocks σ') (KeyedEvent σ') r' F' m' listed' h u) →
  thread_ok (Blocks σ') (KeyedEvent σ') r' F' m' listed' hand' (Thread a d') →
  (r' ≠ [] → o' = false → t' = false → ∃ j u, ts' !! j = Some u ∧ will_wake (Value σ') r' u) →
  inv (System σ' ts') r' F' (<[i := hand']> hands) o' t' m'.
Proof.
  intros ts' listed' Hword Hchain Hmulti HN Hown Hothers Hthis Hwake.
  assert (Address <$> ts' = Address <$> ts) as Haddr.
  { unfold ts'. rewrite list_fmap_insert. apply list_insert_id. by rewrite list_lookup_fmap, Hi. }
  assert (length ts' = length ts) as Hlen by apply length_insert.
  destruct HI as [H1 H2 H3 _ _ _ _ H4 H5 H6 _]. cbn [threads shared] in *. constructor; cbn [threads shared].
  - by rewrite Haddr.
  - by rewrite Haddr.
  - by rewrite Hlen.
  - done.
  - done.
  - done.
  - done.
  - by rewrite length_insert, Hlen.
  - intros x Hx. destruct (Hown x Hx) as [->|Hx'].
    + exists i, (Thread a d'). split; [|done]. apply list_lookup_insert_eq. by eapply lookup_lt_Some.
    + destruct (H5 x Hx') as (j & u & Hj & <-). destruct (decide (j = i)) as [->|Hji].
      * exists i, (Thread a d'). rewrite Hi in Hj. injection Hj as <-. split; [|done]. apply list_lookup_insert_eq. by eapply lookup_lt_Some.
      * exists j, u. split; [|done]. unfold ts'. by rewrite list_lookup_insert_ne.
  - intros j u h Hu Hh. unfold ts' in Hu. destruct (decide (j = i)) as [->|Hji].
    + rewrite list_lookup_insert_eq in Hu by (by eapply lookup_lt_Some). rewrite list_lookup_insert_eq in Hh by (by eapply lookup_lt_Some).
      by simplify_eq.
    + rewrite list_lookup_insert_ne in Hu by done. rewrite list_lookup_insert_ne in Hh by done. apply (Hothers j u h Hji Hu Hh). by apply (H6 j).
  - done.
Qed.

(** Only one thread holds the traversing bit. *)
Lemma holder_alone : holds (Thread a d) = 1 → t = true ∧ ∀ j u, j ≠ i → ts !! j = Some u → holds u = 0.
Proof.
  intros H1. pose proof (lw_holds _ _ _ _ _ _ _ _ _ _ (inv_word _ _ _ _ _ _ _ HI)) as Ht. cbn [threads] in Ht.
  assert (∀ u : thread, 0 ≤ holds u) as Hpos by (intros u; unfold holds; destruct (from_option _ _ _); cbn; lia).
  pose proof (total_elem holds ts i _ Hpos Hi). split; [destruct t; cbn in Ht; [done|lia]|].
  intros j u Hj Hu. pose proof (total_two holds ts j i u _ Hpos Hj Hu Hi). specialize (Hpos u). destruct t; cbn in Ht; lia.
Qed.

Lemma preparer_single : prepares (Thread a d) = 1 → m = false.
Proof.
  intros H1. pose proof (lw_prepares _ _ _ _ _ _ _ _ _ _ (inv_word _ _ _ _ _ _ _ HI)) as Hp. cbn [threads] in Hp.
  assert (∀ u : thread, 0 ≤ prepares u) as Hpos by (intros u; unfold prepares; destruct (from_option _ _ _); cbn; lia).
  pose proof (total_elem prepares ts i _ Hpos Hi). destruct m; [|done]. specialize (Hp eq_refl). lia.
Qed.

Lemma total_this weight d' :
  total weight (<[i := Thread a d']> ts) = total weight ts - weight (Thread a d) + weight (Thread a d').
Proof. by apply total_insert. Qed.

(** The counts of threads depend on their roles. *)
Lemma same_totals d' : role_of d' = role_of d →
  total exclusive (<[i := Thread a d']> ts) = total exclusive ts ∧ total sharing (<[i := Thread a d']> ts) = total sharing ts ∧
  total clearing (<[i := Thread a d']> ts) = total clearing ts.
Proof. intros Hr. rewrite !total_this. unfold exclusive, sharing, clearing. cbn [Doing]. rewrite Hr. lia. Qed.

Lemma prepares_total d' : prepares (Thread a d') = 0 → m = true → total prepares (<[i := Thread a d']> ts) = 0.
Proof.
  intros H0 Hm. rewrite total_this, H0. pose proof (lw_prepares _ _ _ _ _ _ _ _ _ _ (inv_word _ _ _ _ _ _ _ HI) Hm) as Hp. cbn [threads] in Hp.
  assert (∀ u : thread, 0 ≤ prepares u) as Hpos by (intros u; unfold prepares; destruct (from_option _ _ _); cbn; lia).
  pose proof (total_elem prepares ts i _ Hpos Hi). pose proof (Hpos (Thread a d)). lia.
Qed.

Lemma keep_wake d' :
  (r_acquiring (role_of d) = true → r_acquiring (role_of d') = true) → d ≠ ReleasingExclusive (release_wake (Value σ)) →
  r ≠ [] → o = false → t = false → ∃ j u, <[i := Thread a d']> ts !! j = Some u ∧ will_wake (Value σ) r u.
Proof.
  intros Ha Hd Hr Ho Ht. destruct (inv_wake _ _ _ _ _ _ _ HI Hr Ho Ht) as (j & u & Hj & Hu). cbn [threads shared] in *.
  destruct (decide (j = i)) as [->|Hji]; [|exists j, u; by rewrite list_lookup_insert_ne].
  exists i, (Thread a d'). rewrite list_lookup_insert_eq by (by eapply lookup_lt_Some). split; [done|].
  rewrite Hi in Hj. injection Hj as <-. destruct Hu as [[Hu1 Hu2]|Hu]; [|done]. left. split; [by apply Ha|done].
Qed.

(** The thread moves and nothing changes for the others, but that it may begin to
    acquire the lock. *)
Lemma move_call d' b :
  role_of d' = Role (r_exclusive (role_of d)) (r_shared (role_of d)) (r_clearing (role_of d)) b (r_phase (role_of d)) →
  (r_acquiring (role_of d) = true → b = true) → holds (Thread a d') = holds (Thread a d) → (m = true → prepares (Thread a d') = 0) →
  d ≠ ReleasingExclusive (release_wake (Value σ)) →
  hand_ok (Blocks σ) r F hand (traversing d') → share_ok r m d' →
  inv (System σ (<[i := Thread a d']> ts)) r F hands o t m.
Proof.
  intros Hrole Hacq Hholds Hprep Hd Hh Hs. rewrite <-(list_insert_id hands i hand Hhand).
  assert (total exclusive (<[i := Thread a d']> ts) = total exclusive ts ∧ total sharing (<[i := Thread a d']> ts) = total sharing ts ∧
    total clearing (<[i := Thread a d']> ts) = total clearing ts) as (E1 & E2 & E3).
  { rewrite !total_this. unfold exclusive, sharing, clearing. cbn [Doing]. rewrite Hrole. cbn [r_exclusive r_shared r_clearing]. lia. }
  destruct this_ok as [Hw _ _]. cbn [Address Doing] in Hw.
  assert (length hands = length ts) as Hlen by apply (inv_hands _ _ _ _ _ _ _ HI).
  apply (inv_update σ d' r F hand o t m); rewrite ?(list_insert_id hands i hand Hhand).
  - rewrite E1, E2, E3. rewrite (total_this holds), Hholds. destruct (inv_word _ _ _ _ _ _ _ HI) as [? ? ? ? ? ? ? Hh' Hp].
    constructor; try done; [cbn [threads] in Hh'; lia|]. intros Hm. apply prepares_total; auto.
  - apply (inv_chain _ _ _ _ _ _ _ HI).
  - rewrite E2. apply (inv_multiple _ _ _ _ _ _ _ HI).
  - apply (inv_listed _ _ _ _ _ _ _ HI).
  - by right.
  - done.
  - constructor; cbn [Address Doing]; [by rewrite Hrole|done|done].
  - apply keep_wake; [by rewrite Hrole|done].
Qed.

Lemma move_still d' :
  role_of d' = role_of d → holds (Thread a d') = holds (Thread a d) → (m = true → prepares (Thread a d') = 0) →
  d ≠ ReleasingExclusive (release_wake (Value σ)) →
  hand_ok (Blocks σ) r F hand (traversing d') → share_ok r m d' →
  inv (System σ (<[i := Thread a d']> ts)) r F hands o t m.
Proof. intros Hrole. apply (move_call d' (r_acquiring (role_of d))); [|done]. rewrite Hrole. by destruct (role_of d). Qed.

(** The thread that traverses the list writes a block. *)
Lemma move_write x b f d' r' F' hand' :
  Blocks σ !! x = Some b → spinning (f b) = spinning b → x ∈ r ++ hand →
  role_of d' = role_of d → holds (Thread a d) = 1 → holds (Thread a d') = 1 → (m = true → prepares (Thread a d') = 0) →
  r' ++ hand' ≡ₚ r ++ hand → last r' = last r → (m = true → r' = r) →
  let B' := <[x := f b]> (Blocks σ) in
  chain B' r' F' → (m = true → multiple B' r (total sharing ts)) →
  hand_ok B' r' F' hand' (traversing d') → share_ok r' m d' →
  inv (System (with_Blocks σ B') (<[i := Thread a d']> ts)) r' F' (<[i := hand']> hands) o t m.
Proof.
  intros Hb Hspin Hx Hrole Hh1 Hh2 Hprep HP Hlast Hrr B' Hchain Hmulti Hh Hs.
  destruct (same_totals d' Hrole) as (E1 & E2 & E3). destruct this_ok as [Hw _ _]. cbn [Address Doing] in Hw.
  destruct (holder_alone Hh1) as [Ht Halone]. destruct listed_apart as (_ & _ & _ & Hapart).
  assert (r' ++ concat (<[i := hand']> hands) ≡ₚ listed) as HPl.
  { destruct (concat_hand _ _ _ Hhand) as (others & HP1 & HP2 & _). rewrite HP1, HP2, !app_assoc, HP. done. }
  assert (∀ y, spinning <$> B' !! y = spinning <$> Blocks σ !! y) as Hsp.
  { intros y. unfold B'. destruct (decide (y = x)) as [->|]; [rewrite lookup_insert_eq, Hb; by apply (f_equal Some)|by rewrite lookup_insert_ne]. }
  assert (r' = [] ↔ r = []) as Hnil by (by rewrite <-!last_None, Hlast).
  apply inv_update; cbn [Blocks Value KeyedEvent with_Blocks].
  - rewrite E1, E2, E3, (total_this holds), Hh1, Hh2. destruct (inv_word _ _ _ _ _ _ _ HI) as [? ? ? ? ? Hsingle ? Hh' Hp]. cbn [threads shared] in *.
    constructor; rewrite ?Hlast; try done; [by rewrite Hnil|by rewrite Hnil|lia|]. intros Hm. apply prepares_total; auto.
  - done.
  - rewrite E2. intros Hm. rewrite (Hrr Hm). by apply Hmulti.
  - rewrite HPl. apply (inv_listed _ _ _ _ _ _ _ HI).
  - intros y. rewrite HPl. destruct (decide (y = x)) as [->|Hne].
    + intros _. right. left. by exists b.
    + unfold B'. rewrite lookup_insert_ne by done. by right.
  - intros j u h Hj Hu Hjh Hok. eapply thread_frame; [done|split_and!; [apply Hsp|by rewrite HPl|done]| | |].
    + intros y Hy. destruct (Hapart j h y Hj Hjh Hy) as (Hy1 & Hy2 & _). split; [|by rewrite Hsp]. unfold B'. rewrite lookup_insert_ne; [done|].
      intros <-. apply elem_of_app in Hx as [?|?]; done.
    + rewrite (Halone j u Hj Hu). done.
    + intros _ Hm. split; [done|]. exists []. by rewrite app_nil_r, Hrr.
  - constructor; cbn [Address Doing]; [|done|done]. rewrite Hrole. eapply wait_frame; [done|apply Hsp|by rewrite HPl|done].
  - by rewrite Ht.
Qed.

(** The thread changes the word. *)
Lemma move_value v' d' o' t' m' hand' :
  let ts' := <[i := Thread a d']> ts in
  hand' = hand →
  lock_word r v' o' t' m' (total exclusive ts') (total sharing ts') (total clearing ts') (total holds ts') (total prepares ts') →
  r_phase (role_of d') = r_phase (role_of d) →
  (m = true → m' = false → ∀ j u, j ≠ i → ts !! j = Some u → sharing u = 0) →
  (m' = true → multiple (Blocks σ) r (total sharing ts')) →
  hand_ok (Blocks σ) r F hand (traversing d') → share_ok r m' d' →
  (r ≠ [] → o' = false → t' = false → ∃ j u, ts' !! j = Some u ∧ will_wake v' r u) →
  inv (System (with_Value σ v') ts') r F hands o' t' m'.
Proof.
  intros ts' -> Hword Hphase Hm Hmulti Hh Hs Hwake. rewrite <-(list_insert_id hands i hand Hhand).
  destruct this_ok as [Hw _ _]. cbn [Address Doing] in Hw.
  apply inv_update; rewrite ?(list_insert_id hands i hand Hhand); cbn [Blocks Value KeyedEvent with_Value].
  - done.
  - apply (inv_chain _ _ _ _ _ _ _ HI).
  - done.
  - apply (inv_listed _ _ _ _ _ _ _ HI).
  - by right.
  - intros j u h Hj Hu Hjh Hok. eapply thread_frame; [done|done|intros; apply agree_refl|intros _; split; [done|]|].
    + apply extends_same. intros. apply agree_refl.
    + intros H1 Hmt. split; [|exists []; by rewrite app_nil_r].
      destruct m'; [done|]. by rewrite (Hm Hmt eq_refl j u Hj Hu) in H1.
  - constructor; cbn [Address Doing]; [by rewrite Hphase|done|done].
  - done.
Qed.

(** All waiters are taken off the list: nobody has the lock. *)
Lemma move_take d' x :
  o = false → m = false → r !! O = Some x →
  role_of d' = role_of d → holds (Thread a d) = 1 → hand = [] →
  traversing d' = Some (wake_previous x) → share_ok [] m d' → linked (Blocks σ) r →
  inv (System (with_Value σ 0) (<[i := Thread a d']> ts)) [] O (<[i := r]> hands) false false false.
Proof.
  intros Ho Hm Hx Hrole Hh1 Hh0 Htrav Hs Hlinked.
  destruct (same_totals d' Hrole) as (E1 & E2 & E3). destruct this_ok as [Hw _ _]. cbn [Address Doing] in Hw.
  destruct (holder_alone Hh1) as [Ht Halone].
  assert ([] ++ concat (<[i := r]> hands) ≡ₚ listed) as HPl.
  { destruct (concat_hand _ _ _ Hhand) as (others & HP1 & HP2 & _). by rewrite HP1, HP2, Hh0. }
  assert (holds (Thread a d') = 0) as Hh2 by (unfold holds; cbn [Doing]; by rewrite Htrav).
  assert (prepares (Thread a d') = 0) as Hp2 by (unfold prepares; cbn [Doing]; by rewrite Htrav).
  apply inv_update; cbn [Blocks Value KeyedEvent with_Value].
  - rewrite E1, E2, E3, (total_this holds), Hh1, Hh2. destruct (inv_word _ _ _ _ _ _ _ HI) as [_ _ Howned Hex Hcl _ _ Hh' _]. cbn [threads shared] in *.
    assert (∀ w : thread → bool, 0 ≤ total (λ u, Z.b2z (w u)) ts) as Hpos by (intros w; apply total_nonneg; intros u; by destruct (w u)).
    pose proof (Hpos (λ u, r_exclusive (role_of (Doing u)))) as P1. pose proof (Hpos (λ u, r_shared (role_of (Doing u)))) as P2.
    pose proof (Hpos (λ u, r_clearing (role_of (Doing u)))) as P3.
    change (0 ≤ total exclusive ts) in P1. change (0 ≤ total sharing ts) in P2. change (0 ≤ total clearing ts) in P3.
    assert (total exclusive ts = 0 ∧ total sharing ts = 0 ∧ total clearing ts = 0) as (-> & -> & ->).
    { destruct (decide (0 < total exclusive ts + total sharing ts + total clearing ts)) as [H0%Howned|]; [by rewrite Ho in H0|lia]. }
    constructor; cbn [last]; try done; [rewrite Hh', Ht; done].
  - constructor; try done.
  - done.
  - rewrite HPl. apply (inv_listed _ _ _ _ _ _ _ HI).
  - intros y. rewrite HPl. by right.
  - intros j u h Hj Hu Hjh Hok. eapply thread_frame; [done|split_and!; [done|by rewrite HPl|done]|intros; apply agree_refl| |].
    + by rewrite (Halone j u Hj Hu).
    + rewrite Hm. done.
  - constructor; cbn [Address Doing].
    + rewrite Hrole. eapply wait_frame; [done|done|by rewrite HPl|done].
    + rewrite Htrav. destruct r as [|y rest]; [done|]. injection Hx as ->. by exists rest.
    + by rewrite <-Hm.
  - done.
Qed.

End Moves.

(** *** Unblocking *)

Lemma reset_spinning_off b : spinning (reset_spinning b) = false.
Proof. unfold spinning, reset_spinning. cbn [Flags with_Flags]. rewrite Z.ldiff_spec. apply andb_false_r. Qed.

Lemma reset_spinning_id b : spinning b = false → reset_spinning b = b.
Proof.
  unfold spinning, reset_spinning. destruct b as [? ? ? ? f]. cbn [Flags with_Flags]. intros Hs. f_equal.
  apply Z.bits_inj'. intros n Hn. rewrite Z.ldiff_spec. change (Z.shiftl 1 PH_QUEUED_WAITER_SPINNING_SHIFT) with (2 ^ 1).
  rewrite Z.pow2_bits_eqb by done. destruct (Z.eqb_spec 1 n) as [<-|]; [change 1 with PH_QUEUED_WAITER_SPINNING_SHIFT at 1 2; by rewrite Hs|by rewrite andb_true_r].
Qed.

Lemma wait_unblock B K listed listed' x b y w :
  wait_ok B K listed y w → B !! x = Some b → spinning b = true → listed ≡ₚ x :: listed' → x ∉ listed' →
  wait_ok (<[x := reset_spinning b]> B) K listed' y w.
Proof.
  intros Hw Hb Hs HP Hx. destruct (decide (y = x)) as [->|Hne].
  - destruct w as [[]|]; cbn [wait_ok] in *.
    + destruct Hw as (b' & Hb' & Hw & HK). exists (reset_spinning b). rewrite lookup_insert_eq, reset_spinning_off. naive_solver.
    + destruct Hw as (b' & Hb' & Hw & HK). congruence.
    + destruct Hw as (b' & Hb' & Hw & HK). congruence.
    + destruct Hw as (Hw & _). congruence.
  - eapply wait_frame; [done|by rewrite lookup_insert_ne| |done]. rewrite HP, elem_of_cons. naive_solver.
Qed.

Lemma wait_released B K listed listed' x y w :
  wait_ok B K listed y w → x ∈ K → listed ≡ₚ x :: listed' → x ∉ listed' → wait_ok B (K ∖ {[x]}) listed' y w.
Proof.
  intros Hw HK HP Hx. destruct (decide (y = x)) as [->|Hne].
  - destruct w as [[]|]; cbn [wait_ok] in *.
    + destruct Hw as (b' & Hb' & Hw & HK'). done.
    + destruct Hw as (b' & Hb' & Hs & Hl & HK'). done.
    + destruct Hw as (b' & Hb' & Hs & Hl). exists b'. split_and!; [done|done|]. rewrite elem_of_difference, elem_of_singleton. naive_solver.
    + naive_solver.
  - eapply wait_frame; [done|done| |]; [rewrite HP, elem_of_cons; naive_solver|]. rewrite elem_of_difference, elem_of_singleton. naive_solver.
Qed.

Definition next_point (oc : QueuedLock.outcome traverse) : option traverse :=
  match oc with Continue p => Some p | _ => None end.

Lemma wake_loop_ok B r F rest :
  linked B rest → Forall good rest →
  let oc := wake_loop (default NULL (head rest)) in
  oc ≠ Fault ∧ hand_ok B r F rest (next_point oc) ∧ from_option holding false (next_point oc) = false ∧
  from_option preparing false (next_point oc) = false.
Proof.
  intros Hl Hg. destruct rest as [|x rest]; [by split_and!|]. apply Forall_cons in Hg as [[_ Hg] _]. unfold wake_loop. change (default NULL (head (x :: rest))) with x. cbv zeta.
  destruct (Z.eqb_spec x NULL) as [->|_]; [unfold NULL in Hg; lia|]. cbn. split_and!; [discriminate| |reflexivity|reflexivity]. by exists rest.
Qed.

Section Wakes.
Context (σ : state) (ts : list thread) (r : list Z) (F : nat) (hands : list (list Z)) (o t m : bool).
Hypothesis (HI : inv (System σ ts) r F hands o t m).
Context (i : nat) (a : Z) (d : activity) (x : Z) (rest : list Z).
Hypothesis (Hi : ts !! i = Some (Thread a d)) (Hhand : hands !! i = Some (x :: rest)).

Local Abbreviation listed := (r ++ concat hands).

(** The first block of the hand leaves it; [B'] and [K'] are what unblocks it. *)
Lemma move_wake B' K' d' :
  role_of d' = role_of d → holds (Thread a d) = 0 → holds (Thread a d') = 0 → (m = true → prepares (Thread a d') = 0) →
  d ≠ ReleasingExclusive (release_wake (Value σ)) →
  (∀ y, y ≠ x → B' !! y = Blocks σ !! y) → (∀ y, Last <$> B' !! y = Last <$> Blocks σ !! y) →
  (∀ y, is_Some (B' !! y) → is_Some (Blocks σ !! y)) → (∀ y, y ∈ K' → y ∈ KeyedEvent σ) →
  (∀ y w listed', wait_ok (Blocks σ) (KeyedEvent σ) listed y w → listed ≡ₚ x :: listed' → x ∉ listed' → wait_ok B' K' listed' y w) →
  hand_ok B' r F rest (traversing d') → share_ok r m d' →
  inv (System (State (Value σ) B' K') (<[i := Thread a d']> ts)) r F (<[i := rest]> hands) o t m.
Proof.
  intros Hrole Hh1 Hh2 Hprep Hd HB HBlast Hdom HK Hwait Hh Hs.
  destruct (same_totals ts i a d Hi d' Hrole) as (E1 & E2 & E3).
  destruct (this_ok _ _ _ _ _ _ _ _ HI i a d _ Hi Hhand) as [Hw _ _]. cbn [Address Doing] in Hw.
  destruct (listed_apart _ _ _ _ _ _ _ _ HI i _ Hhand) as (Hr & _ & Hnd & Hapart).
  destruct (concat_hand _ _ _ Hhand) as (others & HP1 & HP2 & _).
  pose proof (inv_listed _ _ _ _ _ _ _ HI) as HN.
  set (listed' := r ++ concat (<[i := rest]> hands)).
  assert (listed ≡ₚ x :: listed') as HP by (unfold listed'; rewrite HP1, HP2; solve_Permutation).
  assert (x ∉ listed' ∧ NoDup listed') as [Hx HN'] by (rewrite HP in HN; by apply NoDup_cons in HN).
  assert (∀ y, y ∈ r → Blocks σ !! y = B' !! y) as Hlist.
  { intros y Hy. symmetry. apply HB. intros ->. apply (Hr x Hy). by left. }
  apply inv_update with (1 := HI) (d := d) (hand := x :: rest); cbn [Blocks Value KeyedEvent]; try done.
  - rewrite E1, E2, E3, (total_this _ _ _ _ Hi holds), Hh1, Hh2. destruct (inv_word _ _ _ _ _ _ _ HI) as [? ? ? ? ? Hsingle ? Hh' Hp]. cbn [threads shared] in *.
    constructor; try done; [lia|]. intros Hm. eapply prepares_total; eauto.
  - destruct (inv_chain _ _ _ _ _ _ _ HI) as [C1 C2 C3 C4 C5 C6]. cbn [shared] in *. constructor; try done.
    + intros k y z Hy Hz. rewrite <-Hlist by (by eapply list_elem_of_lookup_2). by apply (C1 k).
    + intros k y z Hk Hy Hz. rewrite <-Hlist by (by eapply list_elem_of_lookup_2). by apply (C2 k).
    + intros y z Hy Hz. rewrite HBlast. by apply C3.
    + intros k y Hk Hy. rewrite HBlast. by apply (C4 k).
    + intros y Hy. rewrite <-Hlist by (by apply last_Some_elem_of). by apply C6.
  - rewrite E2. intros Hm. destruct (inv_multiple _ _ _ _ _ _ _ HI Hm) as [M1 M2 M3]. cbn [shared] in *. constructor.
    + intros y z Hy Hz. rewrite HBlast. by apply M1.
    + intros y Hy. rewrite HBlast. by apply M2.
    + intros y Hy. rewrite <-Hlist by (by eapply list_elem_of_lookup_2). by apply M3.
  - intros y [Hy|[Hy|Hy]]; right; [left; by apply Hdom|right; left; by apply HK|right; right]. rewrite HP. by right.
  - intros j u h Hj Hu Hjh Hok. destruct Hok as [Hok1 Hok2 Hok3]. constructor.
    + by apply (Hwait _ _ listed').
    + assert (∀ y, y ∈ h → agree (Blocks σ) B' y) as Hag.
      { intros y Hy. unfold agree. rewrite HB; [done|]. intros ->. destruct (Hapart j h x Hj Hjh Hy) as (_ & Hno & _). apply Hno. by left. }
      destruct (traversing (Doing u)) as [p|]; [|done]. eapply traverse_frame; [done|done|]. intros _. split; [done|].
      apply extends_same. intros y Hy. unfold agree. by rewrite <-Hlist.
    + done.
  - constructor; cbn [Address Doing]; [|done|done]. rewrite Hrole. by apply (Hwait _ _ listed').
  - intros H1 H2 H3. eapply keep_wake; eauto. by rewrite Hrole.
Qed.

End Wakes.

(** ** Traversing the list

    The decisions at the heads of the loops. *)

Definition started (B : gmap Z PH_QUEUED_WAIT_BLOCK) (r : list Z) (F : nat) (m : bool) (oc : QueuedLock.outcome traverse) : Prop :=
  ∃ p, oc = Continue p ∧ traverse_ok B r F [] p ∧ holding p = true ∧ (m = true → preparing p = false).

Lemma walking_start B r F v y :
  chain B r F → last r = Some y → PhGetQueuedLockWaitBlock v = y → ∃ h, walking B r F v h h ∧ r !! h = Some y.
Proof.
  intros HC Hy Hv. assert (r ≠ []) as Hr by (by intros ->). pose proof (chain_bound _ _ _ HC Hr). exists (pred (length r)).
  rewrite last_lookup in Hy. split; [|done]. constructor.
  - by rewrite Hv.
  - lia.
  - lia.
  - intros k x Hk Hx. apply (chain_head _ _ _ HC). rewrite last_lookup. assert (k < length r)%nat by (by eapply lookup_lt_Some).
    by replace (pred (length r)) with k by lia.
Qed.

Section Loops.
Context (B : gmap Z PH_QUEUED_WAIT_BLOCK) (r : list Z) (F : nat) (y : Z) (o m : bool).
Hypothesis (HC : chain B r F) (Hy : last r = Some y) (Hg : good y).

Lemma prepare_owned_ok t : m = false → started B r F m (prepare_owned false (word y o true t m)).
Proof.
  intros Hm. unfold prepare_owned. rewrite word_owned by done. cbn [negb andb]. destruct o eqn:Ho.
  - eexists. split; [done|]. split_and!; [|done|by rewrite Hm]. cbn. by rewrite word_owned.
  - eexists. split; [done|]. split_and!; [|done|by rewrite Hm]. cbn [traverse_ok]. split; [done|].
    destruct (walking_start B r F (word y false true t m) y HC Hy) as (h & Hw & Hh); [by apply word_block|].
    exists h, h. rewrite word_block by done. split_and!; [done|done|]. unfold begun. by rewrite word_owned.
Qed.

Lemma prepare_loop_ok : m = false → started B r F m (prepare_loop false (word y o true true m)).
Proof.
  intros Hm. unfold prepare_loop. rewrite word_multiple, word_traversing, Hm by done. cbn [orb negb].
  pose proof (prepare_owned_ok true Hm) as E. by rewrite Hm in E.
Qed.

Lemma optimize_loop_ok : (o = false → m = false) → started B r F m (optimize_loop false (word y o true true m)).
Proof.
  intros Hom. unfold optimize_loop. rewrite word_traversing, word_owned by done. cbn [negb andb]. destruct o eqn:Ho; cbn [negb].
  - eexists. split; [done|]. split_and!; [|done|done]. cbn [traverse_ok]. split; [done|].
    destruct (walking_start B r F (word y true true true m) y HC Hy) as (h & Hw & Hh); [by apply word_block|].
    exists h, h. rewrite word_block by done. split_and!; [done|done|]. unfold begun. by rewrite word_owned.
  - pose proof (prepare_loop_ok (Hom eq_refl)) as E. by rewrite Ho in E.
Qed.

End Loops.

(** The walk at the newest block with a pointer to the oldest. *)
Lemma walk_found B r F v h p x b :
  chain B r F → walking B r F v h p → r !! p = Some x → B !! x = Some b → (∀ y, y ∈ r → y ≠ NULL) → Last b ≠ NULL →
  p = F ∧ r !! O = Some (Last b).
Proof.
  intros HC Hw Hx Hb Hr Hl. destruct (walking_order _ _ _ _ _ _ Hw).
  assert (p = F) as ->.
  { destruct (decide (p = F)) as [|Hne]; [done|]. exfalso. apply Hl.
    pose proof (chain_new _ _ _ HC p x ltac:(lia) Hx) as E. rewrite Hb in E. cbn in E. congruence. }
  split; [done|]. destruct r as [|y r]; [done|]. pose proof (chain_last _ _ _ HC x y Hx eq_refl) as E. rewrite Hb in E. cbn in E |- *. congruence.
Qed.

Lemma walk_not_found B r F v h p x b :
  chain B r F → walking B r F v h p → r !! p = Some x → B !! x = Some b → (∀ y, y ∈ r → y ≠ NULL) → Last b = NULL → (F < p)%nat.
Proof.
  intros HC Hw Hx Hb Hr Hl. destruct (walking_order _ _ _ _ _ _ Hw) as [Hle _]. destruct (decide (p = F)) as [->|]; [|lia].
  exfalso. destruct r as [|y r]; [done|]. pose proof (chain_last _ _ _ HC x y Hx eq_refl) as E. rewrite Hb in E. cbn in E.
  apply (Hr y); [by left|]. congruence.
Qed.

(** Writing the pointer to the newer block. *)
Lemma walking_write B r F v h p x y b :
  NoDup r → walking B r F v h (S p) → (F ≤ p)%nat → r !! p = Some x → r !! S p = Some y → B !! x = Some b →
  walking (<[x := with_Previous b y]> B) r F v h p.
Proof.
  intros HN [W1 W2 W3 W4] HF Hx Hy Hb.
  assert (∀ k z, k ≠ p → r !! k = Some z → z ≠ x) as Hne by (intros k z Hk Hz ->; apply Hk; by eapply NoDup_lookup).
  constructor.
  - done.
  - lia.
  - intros k z w Hk Hz Hw. destruct (decide (k = p)) as [->|Hkp].
    + rewrite Hx in Hz. injection Hz as <-. rewrite Hy in Hw. injection Hw as <-. by rewrite lookup_insert_eq.
    + rewrite lookup_insert_ne by (symmetry; by apply (Hne k)). apply (W3 k); [lia|done|done].
  - intros k z Hk Hz. rewrite lookup_insert_ne by (symmetry; apply (Hne k); [lia|done]). by apply (W4 k).
Qed.

(** What a write of [Previous] at or above [F] leaves of the list, if it does not
    touch the newest block. *)
Lemma chain_write_previous B r F p x y b :
  NoDup r → chain B r F → (F ≤ p)%nat → r !! p = Some x → r !! S p = Some y → B !! x = Some b →
  chain (<[x := with_Previous b y]> B) r F.
Proof.
  intros HN [C1 C2 C3 C4 C5 C6] HF Hx Hy Hb.
  assert (∀ (A : Type) (f : PH_QUEUED_WAIT_BLOCK → A) z, f (with_Previous b y) = f b → f <$> <[x := with_Previous b y]> B !! z = f <$> B !! z) as Hsame.
  { intros A f z Hf. destruct (decide (z = x)) as [->|]; [rewrite lookup_insert_eq, Hb; by apply (f_equal Some)|by rewrite lookup_insert_ne]. }
  assert (∀ k z, k ≠ p → r !! k = Some z → z ≠ x) as Hne by (intros k z Hk Hz ->; apply Hk; by eapply NoDup_lookup).
  constructor.
  - intros k z w Hz Hw. rewrite (Hsame _ Next) by done. by apply (C1 k).
  - intros k z w Hk Hz Hw. rewrite lookup_insert_ne by (symmetry; apply (Hne k); [lia|done]). by apply (C2 k).
  - intros z w Hz Hw. rewrite (Hsame _ Last) by done. by apply C3.
  - intros k z Hk Hz. rewrite (Hsame _ Last) by done. by apply (C4 k).
  - done.
  - intros z Hz. assert (z ≠ x); [|rewrite lookup_insert_ne by done; by apply C6].
    rewrite last_lookup in Hz. apply (Hne (pred (length r))); [|done]. assert (S p < length r)%nat by (by eapply lookup_lt_Some). lia.
Qed.

Lemma multiple_write B r C x b f :
  multiple B r C → B !! x = Some b → Last (f b) = Last b ∨ r !! O = Some (Last (f b)) → SharedOwners (f b) = SharedOwners b →
  multiple (<[x := f b]> B) r C.
Proof.
  intros [M1 M2 M3] Hb Hl Hs. constructor.
  - intros z w Hz Hw. destruct (decide (z = x)) as [->|]; [|rewrite lookup_insert_ne by done; by apply M1].
    rewrite lookup_insert_eq. destruct Hl as [Hl|Hl].
    + specialize (M1 x w Hz Hw). rewrite Hb in M1. cbn in M1 |- *. by rewrite Hl.
    + right. rewrite Hw in Hl. injection Hl as ->. done.
  - intros z Hz. destruct (decide (z = x)) as [->|]; [|rewrite lookup_insert_ne by done; by apply M2].
    rewrite lookup_insert_eq. destruct Hl as [Hl|Hl].
    + specialize (M2 x Hz). rewrite Hb in M2. cbn in M2 |- *. by rewrite Hl.
    + rewrite Hz in Hl. injection Hl as ->. done.
  - intros z Hz. destruct (decide (z = x)) as [->|]; [|rewrite lookup_insert_ne by done; by apply M3].
    rewrite lookup_insert_eq. specialize (M3 x Hz). rewrite Hb in M3. cbn in M3 |- *. by rewrite Hs.
Qed.

Section Traversal.
Context (σ : state) (ts : list thread) (r : list Z) (F : nat) (hands : list (list Z)) (o t m : bool).
Hypothesis (HI : inv (System σ ts) r F hands o t m).
Context (i : nat) (a : Z) (d : activity) (hand : list Z).
Hypothesis (Hi : ts !! i = Some (Thread a d)) (Hhand : hands !! i = Some hand).
Context (p : traverse).
Hypothesis (Hp : traversing d = Some p).

(** The step does not fault, and whatever the thread does next with what it is to
    the others unchanged, the invariant holds. *)
Definition moves (σ' : state) (oc : QueuedLock.outcome traverse) : Prop :=
  oc ≠ Fault ∧
  ∀ d', role_of d' = role_of d → traversing d' = next_point oc → (∀ r m, share_ok r m d') →
    invariant (System σ' (<[i := Thread a d']> ts)).

Lemma this_traverse : traverse_ok (Blocks σ) r F hand p.
Proof. pose proof (ok_hand _ _ _ _ _ _ _ _ (this_ok _ _ _ _ _ _ _ _ HI i a d _ Hi Hhand)) as H. cbn [Doing] in H. by rewrite Hp in H. Qed.

Lemma this_holds : holds (Thread a d) = Z.b2z (holding p).
Proof. unfold holds. cbn [Doing]. by rewrite Hp. Qed.

Lemma next_holds d' oc : traversing d' = next_point oc → holds (Thread a d') = Z.b2z (from_option holding false (next_point oc)).
Proof. intros E. unfold holds. cbn [Doing]. by rewrite E. Qed.

Lemma next_prepares d' oc : traversing d' = next_point oc →
  prepares (Thread a d') = Z.b2z (from_option preparing false (next_point oc)).
Proof. intros E. unfold prepares. cbn [Doing]. by rewrite E. Qed.

Lemma preparing_single : preparing p = true → m = false.
Proof. intros H. eapply (preparer_single _ _ _ _ _ _ _ _ HI i a d Hi). unfold prepares. cbn [Doing]. rewrite Hp. cbn. by rewrite H. Qed.

Lemma not_releasing : d ≠ ReleasingExclusive (release_wake (Value σ)).
Proof. intros E. by rewrite E in Hp. Qed.

Lemma listed_nonnull x : x ∈ r ++ concat hands → x ≠ NULL.
Proof. intros Hx ->. destruct (address_good _ _ _ _ _ _ _ _ HI NULL) as [_ H]; [by right; right|]. unfold NULL in H. lia. Qed.

Lemma list_nonnull x : x ∈ r → x ≠ NULL.
Proof. intros Hx. apply listed_nonnull, elem_of_app. by left. Qed.

Lemma listed_block x : x ∈ r ++ concat hands → ∃ b, Blocks σ !! x = Some b.
Proof. intros Hx. destruct (listed_waiting _ _ _ _ _ _ _ _ HI x Hx) as (_ & _ & b & _ & _ & Hb & _). by exists b. Qed.

Lemma list_block k x : r !! k = Some x → ∃ b, Blocks σ !! x = Some b.
Proof. intros Hx. apply listed_block, elem_of_app. left. by eapply list_elem_of_lookup_2. Qed.

Lemma hand_listed x : x ∈ hand → x ∈ r ++ concat hands.
Proof.
  intros Hx. apply elem_of_app. right. apply list_elem_of_In, in_concat. exists hand. rewrite <-!list_elem_of_In.
  split; [by eapply list_elem_of_lookup_2|done].
Qed.

(** The list is not empty while it is traversed. *)
Lemma held_word : holding p = true → t = true ∧ ∃ y, last r = Some y ∧ good y ∧ Value σ = word y o true true m.
Proof.
  intros H. destruct (holder_alone _ _ _ _ _ _ _ _ HI i a d Hi) as [Ht _]; [by rewrite this_holds, H|]. split; [done|].
  pose proof (inv_word _ _ _ _ _ _ _ HI) as [Hv He _ _ _ _ _ _ _]. cbn [shared] in Hv. destruct (last r) as [y|] eqn:Hy.
  - exists y. split; [done|]. split; [|by rewrite Hv, Ht]. apply (address_good _ _ _ _ _ _ _ _ HI). right. right. apply elem_of_app. left.
    by apply last_Some_elem_of.
  - apply last_None in Hy. destruct (He Hy) as [? _]. congruence.
Qed.

Lemma owned_multiple : o = false → m = false.
Proof.
  intros Ho. destruct m eqn:Hm; [|done]. destruct (lw_multiple _ _ _ _ _ _ _ _ _ _ (inv_word _ _ _ _ _ _ _ HI) eq_refl) as [_ ?]. congruence.
Qed.

Lemma moves_still oc :
  oc ≠ Fault → hand_ok (Blocks σ) r F hand (next_point oc) → from_option holding false (next_point oc) = holding p →
  (m = true → from_option preparing false (next_point oc) = false) → moves σ oc.
Proof.
  intros Hf Hh Hho Hpr. split; [done|]. intros d' Hrole Htrav Hs. exists r, F, hands, o, t, m.
  eapply (move_still _ _ _ _ _ _ _ _ HI i a d hand); [done|done|done| | |by apply not_releasing|by rewrite Htrav|done].
  - by rewrite this_holds, (next_holds _ _ Htrav), Hho.
  - intros Hm. by rewrite (next_prepares _ _ Htrav), Hpr.
Qed.

(** A loop begins again with the value it has found. *)
Lemma moves_restart oc : holding p = true → hand = [] → started (Blocks σ) r F m oc → moves σ oc.
Proof.
  intros Hho Hh (p' & -> & Hok & Hho' & Hpr). apply moves_still; cbn [next_point from_option hand_ok]; [done|by rewrite Hh|congruence|done].
Qed.

Lemma moves_read x b (k : PH_QUEUED_WAIT_BLOCK → QueuedLock.outcome traverse) σ' oc :
  (σ', oc) ∈ read σ x k → Blocks σ !! x = Some b → moves σ (k b) → moves σ' oc.
Proof. intros Hin Hb Hm. unfold read in Hin. rewrite Hb in Hin. in_list Hin. by injection Hin as -> ->. Qed.

Lemma moves_write x b f (k : PH_QUEUED_WAIT_BLOCK → QueuedLock.outcome traverse) σ' oc :
  (σ', oc) ∈ write σ x f k → Blocks σ !! x = Some b → moves (with_Blocks σ (<[x := f b]> (Blocks σ))) (k b) → moves σ' oc.
Proof. intros Hin Hb Hm. unfold write in Hin. rewrite Hb in Hin. in_list Hin. by injection Hin as -> ->. Qed.

Lemma moves_exchange new old ok k σ' oc :
  (σ', oc) ∈ exchange σ new old ok k →
  (Value σ = old → moves (with_Value σ (u64 new)) ok) → moves σ (k (Value σ)) → moves σ' oc.
Proof.
  intros Hin Hok Hk. unfold exchange in Hin. destruct (Z.eqb_spec (Value σ) old) as [E|E]; in_list Hin; injection Hin as -> ->; auto.
Qed.

(** The thread with the traversing bit writes a block of the list. *)
Lemma moves_write_list x b f oc r' F' hand' :
  holding p = true → Blocks σ !! x = Some b → spinning (f b) = spinning b → x ∈ r ++ hand →
  r' ++ hand' ≡ₚ r ++ hand → last r' = last r → (m = true → r' = r) →
  let B' := <[x := f b]> (Blocks σ) in
  chain B' r' F' → (m = true → multiple B' r (total sharing ts)) →
  oc ≠ Fault → hand_ok B' r' F' hand' (next_point oc) → from_option holding false (next_point oc) = true →
  (m = true → from_option preparing false (next_point oc) = false) →
  moves (with_Blocks σ B') oc.
Proof.
  intros Hho Hb Hs Hx HP Hl Hm B' HC HM Hf Hh Hho' Hpr. split; [done|]. intros d' Hrole Htrav Hsh.
  exists r', F', (<[i := hand']> hands), o, t, m.
  eapply (move_write _ _ _ _ _ _ _ _ HI i a d hand); try done.
  - by rewrite this_holds, Hho.
  - by rewrite (next_holds _ _ Htrav), Hho'.
  - intros Hm'. by rewrite (next_prepares _ _ Htrav), Hpr.
  - by rewrite Htrav.
Qed.

(** The traversing bit is given back. *)
Lemma moves_give_back oc :
  holding p = true → o = true ∨ (∃ x, x ∈ hand) →
  oc ≠ Fault → hand_ok (Blocks σ) r F hand (next_point oc) →
  from_option holding false (next_point oc) = false → from_option preparing false (next_point oc) = false →
  moves (with_Value σ (u64 (Value σ - PH_QUEUED_LOCK_TRAVERSING))) oc.
Proof.
  intros Hho Hwake Hf Hh Hho' Hpr. split; [done|]. intros d' Hrole Htrav Hsh. exists r, F, hands, o, false, m.
  destruct (held_word Hho) as (Ht & y & Hy & Hg & Hv). destruct (same_totals ts i a d Hi d' Hrole) as (E1 & E2 & E3).
  assert (u64 (Value σ - PH_QUEUED_LOCK_TRAVERSING) = word y o true false m) as Hv'.
  { rewrite Hv. replace (word y o true true m - PH_QUEUED_LOCK_TRAVERSING) with (word y o true false m)
      by (unfold word, PH_QUEUED_LOCK_TRAVERSING; cbn [Z.b2z]; lia).
    apply Z.mod_small. pose proof (queued_word_range y Hg o true false m). lia. }
  eapply (move_value _ _ _ _ _ _ _ _ HI i a d hand); [done|done|done| |by rewrite Hrole|congruence| |by rewrite Htrav|done|].
  - rewrite E1, E2, E3, (total_this _ _ _ _ Hi holds), this_holds, (next_holds _ _ Htrav), Hho, Hho', Hv'.
    destruct (inv_word _ _ _ _ _ _ _ HI) as [_ He ? ? ? ? ? Hh' _]. cbn [threads shared] in *. constructor; try done.
    + by rewrite Hy.
    + intros Hr. destruct (He Hr) as (_ & ? & ?). done.
    + rewrite Hh', Ht. done.
    + intros Hm. eapply (prepares_total _ _ _ _ _ _ _ _ HI i a d Hi); [|done]. by rewrite (next_prepares _ _ Htrav), Hpr.
  - rewrite E2. apply (inv_multiple _ _ _ _ _ _ _ HI).
  - intros _ Ho _. destruct Hwake as [?|[x Hx]]; [congruence|].
    destruct (listed_waiting _ _ _ _ _ _ _ _ HI x (hand_listed x Hx)) as (j & u & b & Hj & Ha & _ & Hph).
    destruct (listed_apart _ _ _ _ _ _ _ _ HI i _ Hhand) as (Hapart & _).
    assert (r_acquiring (role_of (Doing u)) = true) as Hacq by (destruct (Doing u) as [| | | | | | | |[]|]; cbn in Hph |- *; try done; destruct p0; done).
    destruct (decide (j = i)) as [->|Hji].
    + exists i, (Thread a d'). rewrite list_lookup_insert_eq by (by eapply lookup_lt_Some). split; [done|]. left. cbn [Doing Address].
      rewrite Hi in Hj. injection Hj as <-. cbn [Doing Address] in *. subst x. rewrite Hrole. split; [done|]. intros Hin. by apply (Hapart _ Hin).
    + exists j, u. rewrite list_lookup_insert_ne by done. split; [done|]. left. split; [done|]. rewrite Ha. intros Hin. by apply (Hapart _ Hin).
Qed.

(** Each point in turn. *)

Lemma walk_last_moves k v x σ' oc : p = walk_last k v x → (σ', oc) ∈ lock_traverse σ p → moves σ' oc.
Proof.
  intros E Hin. pose proof this_traverse as Hok. pose proof preparing_single as Hsingle. rewrite E in Hin, Hok, Hsingle.
  destruct Hok as (Hh & h & q & Hw & Hq & Hb). destruct (list_block q x Hq) as [b Hbx].
  pose proof (inv_chain _ _ _ _ _ _ _ HI) as HC. cbn [shared] in HC.
  refine (moves_read x b _ _ _ Hin Hbx _). destruct (Z.eqb_spec (Last b) NULL) as [Hl|Hl].
  - pose proof (walk_not_found _ _ _ _ _ _ _ _ HC Hw Hq Hbx list_nonnull Hl) as HF.
    apply moves_still; [done| |by rewrite E|by destruct k; [|rewrite (Hsingle eq_refl)]].
    cbn. split; [done|]. by exists h, q.
  - destruct (walk_found _ _ _ _ _ _ _ _ HC Hw Hq Hbx list_nonnull Hl) as [-> Hl0]. destruct k.
    + apply moves_still; [done| |by rewrite E|done]. cbn. split; [done|]. by exists h.
    + apply moves_still; [done| |by rewrite E|by rewrite (Hsingle eq_refl)]. cbn. split; [done|]. by exists h.
Qed.

Lemma walk_next_moves k v x σ' oc : p = walk_next k v x → (σ', oc) ∈ lock_traverse σ p → moves σ' oc.
Proof.
  intros E Hin. pose proof this_traverse as Hok. pose proof preparing_single as Hsingle. rewrite E in Hin, Hok, Hsingle.
  destruct Hok as (Hh & h & q & Hw & Hq & HF & Hb). destruct (list_block q x Hq) as [b Hbx].
  refine (moves_read x b _ _ _ Hin Hbx _). apply moves_still; [done| |by rewrite E|by destruct k; [|rewrite (Hsingle eq_refl)]].
  cbn. split; [done|]. destruct q as [|q]; [lia|].
  assert (is_Some (r !! q)) as [y Hy] by (apply lookup_lt_is_Some; apply lookup_lt_Some in Hq; lia).
  exists h, q. pose proof (chain_next _ _ _ (inv_chain _ _ _ _ _ _ _ HI) q y x Hy Hq) as Hn. cbn [shared] in Hn. rewrite Hbx in Hn.
  injection Hn as ->. split_and!; try done. lia.
Qed.

Lemma walk_previous_moves k v y x σ' oc : p = walk_previous k v y x → (σ', oc) ∈ lock_traverse σ p → moves σ' oc.
Proof.
  intros E Hin. pose proof this_traverse as Hok. pose proof preparing_single as Hsingle. rewrite E in Hin, Hok, Hsingle.
  destruct Hok as (Hh & h & q & Hw & Hy & Hx & HF & Hb). destruct (list_block q x Hx) as [b Hbx].
  destruct (listed_apart _ _ _ _ _ _ _ _ HI i _ Hhand) as (_ & HN & _).
  refine (moves_write x b _ _ _ _ Hin Hbx _). eapply (moves_write_list x b (λ b, with_Previous b y)); try done.
  - by rewrite E.
  - apply elem_of_app. left. by eapply list_elem_of_lookup_2.
  - eapply chain_write_previous; [done|apply (inv_chain _ _ _ _ _ _ _ HI)|done..].
  - intros Hm. eapply (multiple_write _ _ _ _ _ (λ b, with_Previous b y)); [by apply (inv_multiple _ _ _ _ _ _ _ HI)|done|by left|done].
  - cbn. split; [done|]. exists h, q. split_and!; [|done|done]. by eapply walking_write.
  - by destruct k; [|rewrite (Hsingle eq_refl)].
Qed.

(** When the walk is over all the pointers below the newest block it has seen are set. *)
Lemma walk_over v h : walking (Blocks σ) r F v h F →
  ∀ k x y, (k < h)%nat → r !! k = Some x → r !! S k = Some y → Previous <$> Blocks σ !! x = Some y.
Proof.
  intros Hw k x y Hk Hx Hy. destruct (Nat.lt_ge_cases k F) as [HF|HF].
  - by eapply (chain_previous _ _ _ (inv_chain _ _ _ _ _ _ _ HI)).
  - by eapply (walking_visited _ _ _ _ _ _ Hw).
Qed.

(** The pointer to the oldest block is written into the newest block that the walk
    has seen. *)
Lemma chain_optimized v h x b : walking (Blocks σ) r F v h F → r !! O = Some x → Blocks σ !! PhGetQueuedLockWaitBlock v = Some b →
  chain (<[PhGetQueuedLockWaitBlock v := with_Last b x]> (Blocks σ)) r h.
Proof.
  intros Hw Hx Hb. pose proof (walk_over v h Hw) as Hprev. destruct Hw as [W1 W2 _ _].
  destruct (inv_chain _ _ _ _ _ _ _ HI) as [C1 _ C3 C4 C5 C6]. cbn [shared] in *.
  destruct (listed_apart _ _ _ _ _ _ _ _ HI i _ Hhand) as (_ & HN & _). set (z := PhGetQueuedLockWaitBlock v) in *.
  assert (∀ (A : Type) (f : PH_QUEUED_WAIT_BLOCK → A) w, f (with_Last b x) = f b → f <$> <[z := with_Last b x]> (Blocks σ) !! w = f <$> Blocks σ !! w) as Hsame.
  { intros A f w Hf. destruct (decide (w = z)) as [->|]; [rewrite lookup_insert_eq, Hb; by apply (f_equal Some)|by rewrite lookup_insert_ne]. }
  constructor.
  - intros k y w Hy Hw. rewrite (Hsame _ Next) by done. by apply (C1 k).
  - intros k y w Hk Hy Hw. rewrite (Hsame _ Previous) by done. by apply (Hprev k).
  - intros y w Hy Hw'. rewrite W1 in Hy. injection Hy as <-. rewrite Hx in Hw'. injection Hw' as <-. by rewrite lookup_insert_eq.
  - intros k y Hk Hy. rewrite lookup_insert_ne; [apply (C4 k); [lia|done]|]. intros ->. assert (k = h) by (by eapply NoDup_lookup). lia.
  - intros _. by eapply lookup_lt_Some.
  - intros y Hy. rewrite (Hsame _ Previous) by done. by apply C6.
Qed.

Lemma optimize_last_moves v x σ' oc : p = optimize_last v x → (σ', oc) ∈ lock_traverse σ p → moves σ' oc.
Proof.
  intros E Hin. pose proof this_traverse as Hok. rewrite E in Hin, Hok.
  destruct Hok as (Hh & h & Hw & Hx & Hb). pose proof (walking_head _ _ _ _ _ _ Hw) as Hz. destruct (list_block h _ Hz) as [b Hbz].
  refine (moves_write _ b _ _ _ _ Hin Hbz _).
  eapply (moves_write_list _ b (λ b, with_Last b x) _ r h []); [by rewrite E|done|done| |by rewrite Hh|done|done| | |done|done|done|done].
  - apply elem_of_app. left. by eapply list_elem_of_lookup_2.
  - by apply chain_optimized.
  - intros Hm. eapply (multiple_write _ _ _ _ _ (λ b, with_Last b x)); [by apply (inv_multiple _ _ _ _ _ _ _ HI)|done|by right|done].
Qed.

(** The value is the word again: the bit is given back, or the loop starts again. *)
Lemma optimize_exchange_moves v σ' oc : p = optimize_exchange v → (σ', oc) ∈ lock_traverse σ p → moves σ' oc.
Proof.
  intros E Hin. pose proof this_traverse as Hok. rewrite E in Hin, Hok. destruct Hok as [Hh Ho].
  destruct held_word as (Ht & y & Hy & Hg & Hv); [by rewrite E|].
  refine (moves_exchange _ _ _ _ _ _ Hin _ _).
  - intros <-. rewrite Hv, word_owned in Ho by done.
    apply moves_give_back; [by rewrite E|by left|done|by rewrite Hh|done|done].
  - rewrite Hv. apply moves_restart; [by rewrite E|done|]. apply optimize_loop_ok; [apply (inv_chain _ _ _ _ _ _ _ HI)|done|done|apply owned_multiple].
Qed.

Lemma prepare_clear_moves v σ' oc : p = prepare_clear v → (σ', oc) ∈ lock_traverse σ p → moves σ' oc.
Proof.
  intros E Hin. pose proof this_traverse as Hok. pose proof preparing_single as Hsingle. rewrite E in Hin, Hok, Hsingle. destruct Hok as [Hh Ho].
  destruct held_word as (Ht & y & Hy & Hg & Hv); [by rewrite E|].
  refine (moves_exchange _ _ _ _ _ _ Hin _ _).
  - intros <-. rewrite Hv, word_owned in Ho by done.
    apply moves_give_back; [by rewrite E|by left|done|by rewrite Hh|done|done].
  - rewrite Hv. apply moves_restart; [by rewrite E|done|]. apply prepare_owned_ok; [apply (inv_chain _ _ _ _ _ _ _ HI)|done|done|by apply Hsingle].
Qed.

Lemma prepare_flags_moves v x σ' oc : p = prepare_flags v x → (σ', oc) ∈ lock_traverse σ p → moves σ' oc.
Proof.
  intros E Hin. pose proof this_traverse as Hok. pose proof preparing_single as Hsingle. rewrite E in Hin, Hok, Hsingle.
  pose proof Hok as (Hh & h & Hw & Hx & Hb). destruct (list_block _ _ Hx) as [b Hbx].
  refine (moves_read x b _ _ _ Hin Hbx _). destruct (is_set (Flags b) PH_QUEUED_WAITER_EXCLUSIVE);
    (apply moves_still; [done|done|by rewrite E|by rewrite Hsingle]).
Qed.

Lemma prepare_previous_moves v x σ' oc : p = prepare_previous v x → (σ', oc) ∈ lock_traverse σ p → moves σ' oc.
Proof.
  intros E Hin. pose proof this_traverse as Hok. pose proof preparing_single as Hsingle. rewrite E in Hin, Hok, Hsingle.
  pose proof Hok as (Hh & h & Hw & Hx & Hb). destruct (list_block _ _ Hx) as [b Hbx].
  refine (moves_read x b _ _ _ Hin Hbx _). destruct (Z.eqb_spec (Previous b) NULL) as [Hn|Hn].
  - apply moves_still; [done|done|by rewrite E|by rewrite Hsingle].
  - apply moves_still; [done| |by rewrite E|by rewrite Hsingle]. cbn. split; [done|]. destruct h as [|h].
    + pose proof (walking_above _ _ _ _ _ _ Hw 0%nat x (Nat.le_refl 0) Hx) as Hz. rewrite Hbx in Hz. cbn in Hz. congruence.
    + exists h. split_and!; [done|done|]. pose proof (walking_head _ _ _ _ _ _ Hw) as Hhd.
      assert (is_Some (r !! 1%nat)) as [y Hy] by (apply lookup_lt_is_Some; apply lookup_lt_Some in Hhd; lia).
      pose proof (walk_over v (S h) Hw 0%nat x y (Nat.lt_0_succ h) Hx Hy) as Hz. rewrite Hbx in Hz. cbn in Hz. congruence.
Qed.

(** The oldest block is taken off the list. *)
Lemma prepare_last_moves v x y σ' oc : p = prepare_last v x y → (σ', oc) ∈ lock_traverse σ p → moves σ' oc.
Proof.
  intros E Hin. pose proof this_traverse as Hok. pose proof preparing_single as Hsingle. rewrite E in Hin, Hok, Hsingle. specialize (Hsingle eq_refl).
  destruct Hok as (Hh & h & Hw & Hx & Hy). pose proof (walking_head _ _ _ _ _ _ Hw) as Hz. destruct (list_block _ _ Hz) as [b Hbz].
  refine (moves_write _ b _ _ _ _ Hin Hbz _). set (z := PhGetQueuedLockWaitBlock v) in *.
  pose proof (walk_over v _ Hw) as Hprev. destruct Hw as [_ W2 _ _].
  destruct (inv_chain _ _ _ _ _ _ _ HI) as [C1 _ _ C4 _ C6]. cbn [shared] in *.
  destruct (listed_apart _ _ _ _ _ _ _ _ HI i _ Hhand) as (_ & HN & _).
  assert (∃ r2, r = x :: y :: r2) as [r2 Er] by (clear -Hx Hy; destruct r as [|x' [|y' r2]]; [done|done|]; exists r2; by simplify_eq/=).
  assert (∀ (A : Type) (f : PH_QUEUED_WAIT_BLOCK → A) w, f (with_Last b y) = f b → f <$> <[z := with_Last b y]> (Blocks σ) !! w = f <$> Blocks σ !! w) as Hsame.
  { intros A f w Hf. destruct (decide (w = z)) as [->|]; [rewrite lookup_insert_eq, Hbz; by apply (f_equal Some)|by rewrite lookup_insert_ne]. }
  eapply (moves_write_list z b (λ b, with_Last b y) _ (y :: r2) h [x]); [by rewrite E|done|done| | |by rewrite Er|by rewrite Hsingle| |by rewrite Hsingle|done|done|done|by rewrite Hsingle].
  - apply elem_of_app. left. by eapply list_elem_of_lookup_2.
  - rewrite Hh, Er. solve_Permutation.
  - rewrite Er in *. constructor.
    + intros k u w Hu Hw'. rewrite (Hsame _ Next) by done. by apply (C1 (S k)).
    + intros k u w Hk Hu Hw'. rewrite (Hsame _ Previous) by done. apply (Hprev (S k)); [lia|done|done].
    + intros u w Hu Hw'. change ((x :: y :: r2) !! S h = Some u) in Hu. rewrite Hz in Hu. injection Hu as <-. injection Hw' as <-. by rewrite lookup_insert_eq.
    + intros k u Hk Hu. change ((x :: y :: r2) !! S k = Some u) in Hu. rewrite lookup_insert_ne; [apply (C4 (S k)); [lia|done]|].
      intros ->. assert (S k = S h) by (by eapply NoDup_lookup). lia.
    + intros _. apply lookup_lt_Some in Hz. cbn [length] in *. lia.
    + intros u Hu. rewrite (Hsame _ Previous) by done. by apply C6.
Qed.

Lemma chain_write_apart x b (f : PH_QUEUED_WAIT_BLOCK → PH_QUEUED_WAIT_BLOCK) : x ∉ r → chain (<[x := f b]> (Blocks σ)) r F.
Proof.
  intros Hx. destruct (inv_chain _ _ _ _ _ _ _ HI) as [C1 C2 C3 C4 C5 C6]. cbn [shared] in *.
  assert (∀ y, y ∈ r → <[x := f b]> (Blocks σ) !! y = Blocks σ !! y) as Hsame by (intros y Hy; apply lookup_insert_ne; by intros ->).
  constructor.
  - intros k y z Hy Hz. rewrite Hsame by (by eapply list_elem_of_lookup_2). by apply (C1 k).
  - intros k y z Hk Hy Hz. rewrite Hsame by (by eapply list_elem_of_lookup_2). by apply (C2 k).
  - intros y z Hy Hz. rewrite Hsame by (by eapply list_elem_of_lookup_2). by apply C3.
  - intros k y Hk Hy. rewrite Hsame by (by eapply list_elem_of_lookup_2). by apply (C4 k).
  - done.
  - intros y Hy. rewrite Hsame by (by apply last_Some_elem_of). by apply C6.
Qed.

Lemma prepare_unlink_moves x σ' oc : p = prepare_unlink x → (σ', oc) ∈ lock_traverse σ p → moves σ' oc.
Proof.
  intros E Hin. pose proof this_traverse as Hok. pose proof preparing_single as Hsingle. rewrite E in Hin, Hok, Hsingle. specialize (Hsingle eq_refl).
  cbn in Hok. destruct (listed_apart _ _ _ _ _ _ _ _ HI i _ Hhand) as (Hapart & _).
  assert (x ∈ hand) as Hxh by (rewrite Hok; by left). destruct (listed_block x (hand_listed x Hxh)) as [b Hbx].
  refine (moves_write x b _ _ _ _ Hin Hbx _).
  eapply (moves_write_list x b (λ b, with_Previous b NULL) _ r F hand); [by rewrite E|done|done| |done|done|done| |by rewrite Hsingle|done| |done|by rewrite Hsingle].
  - apply elem_of_app. by right.
  - apply (chain_write_apart x b (λ b, with_Previous b NULL)). intros Hx. by apply (Hapart x Hx).
  - cbn. split; [done|]. by rewrite lookup_insert_eq.
Qed.

Lemma prepare_finish_moves x σ' oc : p = prepare_finish x → (σ', oc) ∈ lock_traverse σ p → moves σ' oc.
Proof.
  intros E Hin. pose proof this_traverse as Hok. rewrite E in Hin, Hok. destruct Hok as [Hh Hprev].
  assert (x ∈ hand) as Hxh by (rewrite Hh; by left).
  cbn in Hin. in_list Hin. injection Hin as -> ->. unfold wake_loop.
  destruct (Z.eqb_spec x NULL) as [->|_]; [by destruct (listed_nonnull NULL (hand_listed _ Hxh))|].
  apply moves_give_back; [by rewrite E|right; by exists x|done| |done|done]. exists []. rewrite Hh. done.
Qed.

(** All blocks are taken off the list, and are linked in the order in which they are woken. *)
Lemma linked_list v h : walking (Blocks σ) r F v h F → S h = length r → linked (Blocks σ) r.
Proof.
  intros Hw Hlen. pose proof (walk_over v h Hw) as Hprev. pose proof (walking_above _ _ _ _ _ _ Hw) as Habove.
  enough (∀ l k, drop k r = l → linked (Blocks σ) l) as H by (by apply (H r 0%nat)).
  induction l as [|x l IH]; intros k Hl; [done|].
  assert (r !! k = Some x) as Hx by (rewrite <-(Nat.add_0_r k), <-lookup_drop, Hl; done).
  assert (drop (S k) r = l) as Hl' by (replace (S k) with (k + 1)%nat by lia; by rewrite <-drop_drop, Hl).
  split; [|by apply (IH (S k))]. destruct l as [|y l].
  - apply (Habove k); [|done]. apply (f_equal length) in Hl'. rewrite length_drop in Hl'. cbn in Hl'. lia.
  - assert (r !! S k = Some y) as Hy by (rewrite <-(Nat.add_0_r (S k)), <-lookup_drop, Hl'; done).
    apply (Hprev k); [|done|done]. apply lookup_lt_Some in Hy. lia.
Qed.

Lemma prepare_exchange_moves v x σ' oc : p = prepare_exchange v x → (σ', oc) ∈ lock_traverse σ p → moves σ' oc.
Proof.
  intros E Hin. pose proof this_traverse as Hok. pose proof preparing_single as Hsingle. rewrite E in Hin, Hok, Hsingle. specialize (Hsingle eq_refl).
  destruct Hok as (Hh & h & Hw & Hx & Hb). destruct held_word as (Ht & y & Hy & Hg & Hv); [by rewrite E|].
  refine (moves_exchange _ _ _ _ _ _ Hin _ _).
  - intros <-. unfold begun in Hb. rewrite Hv, word_owned in Hb by done. unfold wake_loop.
    destruct (Z.eqb_spec x NULL) as [->|_]; [by destruct (list_nonnull NULL); [eapply list_elem_of_lookup_2|]|].
    destruct (listed_apart _ _ _ _ _ _ _ _ HI i _ Hhand) as (_ & HN & _).
    assert (S h = length r) as Hlen.
    { pose proof (walking_head _ _ _ _ _ _ Hw) as Hz. rewrite Hv, word_block in Hz by done. rewrite last_lookup in Hy.
      assert (h = pred (length r)) as -> by (by eapply NoDup_lookup). apply lookup_lt_Some in Hz. lia. }
    split; [done|]. intros d' Hrole Htrav Hsh. exists [], O, (<[i := r]> hands), false, false, false.
    eapply (move_take _ _ _ _ _ _ _ _ HI i a d hand); try done; [by rewrite this_holds, E|by eapply linked_list].
  - rewrite Hv. apply moves_restart; [by rewrite E|done|]. apply prepare_loop_ok; [apply (inv_chain _ _ _ _ _ _ _ HI)|done|done|done].
Qed.

Lemma wake_previous_moves x σ' oc : p = wake_previous x → (σ', oc) ∈ lock_traverse σ p → moves σ' oc.
Proof.
  intros E Hin. pose proof this_traverse as Hok. rewrite E in Hin, Hok. destruct Hok as (rest & Hh & Hl). rewrite Hh in Hl. destruct Hl as [Hx Hl].
  assert (x ∈ hand) as Hxh by (rewrite Hh; by left). destruct (listed_block x (hand_listed x Hxh)) as [b Hbx].
  refine (moves_read x b _ _ _ Hin Hbx _). apply moves_still; [done| |by rewrite E|done]. exists rest. rewrite Hbx in Hx. injection Hx as ->. done.
Qed.

(** The block leaves the hand of the thread. *)
Lemma moves_wake x rest B' K' :
  holding p = false → hand = x :: rest →
  (∀ y, y ≠ x → B' !! y = Blocks σ !! y) → (∀ y, Last <$> B' !! y = Last <$> Blocks σ !! y) →
  (∀ y, is_Some (B' !! y) → is_Some (Blocks σ !! y)) → (∀ y, y ∈ K' → y ∈ KeyedEvent σ) →
  (∀ y w listed', wait_ok (Blocks σ) (KeyedEvent σ) (r ++ concat hands) y w → r ++ concat hands ≡ₚ x :: listed' → x ∉ listed' →
    wait_ok B' K' listed' y w) →
  linked B' rest →
  moves (State (Value σ) B' K') (wake_loop (default NULL (head rest))).
Proof.
  intros Hho Hh HB HL Hdom HK Hwait Hl.
  assert (Forall good rest) as Hgood.
  { apply Forall_forall. intros y Hy. apply (address_good _ _ _ _ _ _ _ _ HI). right. right. apply hand_listed. rewrite Hh. by right. }
  destruct (wake_loop_ok B' r F rest Hl Hgood) as (Hf & Hok & Hho' & Hpr). split; [done|].
  intros d' Hrole Htrav Hsh. exists r, F, (<[i := rest]> hands), o, t, m.
  eapply (move_wake _ _ _ _ _ _ _ _ HI i a d x rest); try done; [by rewrite <-Hh|by rewrite this_holds, Hho| | |by apply not_releasing|by rewrite Htrav].
  - by rewrite (next_holds _ _ Htrav), Hho'.
  - by rewrite (next_prepares _ _ Htrav), Hpr.
Qed.

Lemma hand_apart x rest : hand = x :: rest → x ∉ rest.
Proof. intros Hh. destruct (listed_apart _ _ _ _ _ _ _ _ HI i _ Hhand) as (_ & _ & HN & _). rewrite Hh in HN. by apply NoDup_cons in HN as [? _]. Qed.

Lemma wake_reset_moves x y σ' oc : p = wake_reset x y → (σ', oc) ∈ lock_traverse σ p → moves σ' oc.
Proof.
  intros E Hin. pose proof this_traverse as Hok. rewrite E in Hin, Hok. destruct Hok as (rest & Hh & -> & Hl).
  assert (x ∈ hand) as Hxh by (rewrite Hh; by left). destruct (listed_block x (hand_listed x Hxh)) as [b Hbx].
  refine (moves_write x b _ _ _ _ Hin Hbx _). destruct (spinning b) eqn:Hs.
  - eapply (moves_wake x rest (<[x := reset_spinning b]> (Blocks σ)) (KeyedEvent σ)); try done; [by rewrite E|intros y Hy; by rewrite lookup_insert_ne|..].
    + intros y. destruct (decide (y = x)) as [->|]; [by rewrite lookup_insert_eq, Hbx|by rewrite lookup_insert_ne].
    + intros y. destruct (decide (y = x)) as [->|]; [by rewrite Hbx|by rewrite lookup_insert_ne].
    + intros y w listed' Hw HP Hx. by eapply wait_unblock.
    + eapply linked_frame; [|done]. intros y Hy. unfold agree. rewrite lookup_insert_ne; [done|]. intros ->. by eapply hand_apart.
  - rewrite reset_spinning_id, insert_id by done. assert (with_Blocks σ (Blocks σ) = σ) as -> by (by destruct σ). apply moves_still; [done| |by rewrite E|done].
    exists rest. split_and!; [done|done|done|]. rewrite Hbx. by apply (f_equal Some).
Qed.

Lemma wake_release_moves x y σ' oc : p = wake_release x y → (σ', oc) ∈ lock_traverse σ p → moves σ' oc.
Proof.
  intros E Hin. pose proof this_traverse as Hok. rewrite E in Hin, Hok. destruct Hok as (rest & Hh & -> & Hl & _).
  cbn in Hin. unfold NtReleaseKeyedEvent in Hin. destruct (decide (x ∈ KeyedEvent σ)) as [HK|]; in_list Hin. injection Hin as -> ->.
  eapply (moves_wake x rest (Blocks σ) (KeyedEvent σ ∖ {[x]})); try done; [by rewrite E| |].
  - intros z. rewrite elem_of_difference. tauto.
  - intros z w listed' Hw HP Hx. by eapply wait_released.
Qed.

Lemma traverse_moves σ' oc : (σ', oc) ∈ lock_traverse σ p → moves σ' oc.
Proof.
  intros Hin. assert (∃ q, p = q) as [q E] by eauto. destruct q; [..|by eapply wake_release_moves];
    (first [by eapply walk_last_moves|by eapply walk_next_moves|by eapply walk_previous_moves|by eapply optimize_last_moves
     |by eapply optimize_exchange_moves|by eapply prepare_clear_moves|by eapply prepare_flags_moves|by eapply prepare_previous_moves
     |by eapply prepare_last_moves|by eapply prepare_unlink_moves|by eapply prepare_finish_moves|by eapply prepare_exchange_moves
     |by eapply wake_previous_moves|by eapply wake_reset_moves]).
Qed.

End Traversal.
