(* ===== verification/QueuedLockSteps.v ===== *)
(** The queued lock: every step of every function keeps the invariant, and no step
    faults. *)

From S2P Require Import Prelude Concurrency QueuedLock QueuedLockFacts.

Section Steps.
Context (σ : state) (ts : list thread) (r : list Z) (F : nat) (hands : list (list Z)) (o t m : bool).
Hypothesis (HI : inv (System σ ts) r F hands o t m).
Context (i : nat) (a : Z) (d : activity) (hand : list Z).
Hypothesis (Hi : ts !! i = Some (Thread a d)) (Hhand : hands !! i = Some hand).

Local Abbreviation listed := (r ++ concat hands).
Local Abbreviation E := (total exclusive ts).
Local Abbreviation C := (total sharing ts).
Local Abbreviation L := (total clearing ts).

(** *** What the word says *)

Lemma counts : 0 ≤ E ∧ 0 ≤ C ≤ MAX_THREADS ∧ 0 ≤ L.
Proof.
  assert (∀ w : thread → bool, 0 ≤ total (λ u, Z.b2z (w u)) ts ≤ Z.of_nat (length ts)) as Hpos.
  { intros w. split; [apply total_nonneg; intros u; by destruct (w u)|apply total_length; intros u; by destruct (w u)]. }
  pose proof (Hpos (λ u, r_exclusive (role_of (Doing u)))) as P1. pose proof (Hpos (λ u, r_shared (role_of (Doing u)))) as P2.
  pose proof (Hpos (λ u, r_clearing (role_of (Doing u)))) as P3. pose proof (inv_threads_bound _ _ _ _ _ _ _ HI) as Hb. cbn [threads] in Hb.
  change (0 ≤ E ≤ Z.of_nat (length ts)) in P1. change (0 ≤ C ≤ Z.of_nat (length ts)) in P2.
  change (0 ≤ L ≤ Z.of_nat (length ts)) in P3. lia.
Qed.

Lemma this_counts : exclusive (Thread a d) ≤ E ∧ sharing (Thread a d) ≤ C ∧ clearing (Thread a d) ≤ L.
Proof.
  split_and!; eapply total_elem; try exact Hi; intros u; [unfold exclusive|unfold sharing|unfold clearing]; by destruct (role_of (Doing u)) as [[] [] [] ? ?].
Qed.

Lemma word_cases :
  (r = [] ∧ t = false ∧ m = false ∧ L = 0 ∧ Value σ = free_word o C) ∨
  (r ≠ [] ∧ ∃ y, last r = Some y ∧ good y ∧ Value σ = word y o true t m).
Proof.
  destruct (inv_word _ _ _ _ _ _ _ HI) as [Hv He _ _ _ _ _ _ _]. cbn [shared threads] in *. destruct (last r) as [y|] eqn:Hy.
  - right. split; [by intros ->|]. exists y. split; [done|]. split; [|done]. eapply (address_good _ _ _ _ _ _ _ _ HI). right. right.
    apply elem_of_app. left. by apply last_Some_elem_of.
  - left. apply last_None in Hy. destruct (He Hy) as (? & ? & ?). done.
Qed.

Lemma value_owned : is_set (Value σ) PH_QUEUED_LOCK_OWNED = o.
Proof.
  pose proof counts. destruct word_cases as [(_ & _ & _ & _ & ->)|(_ & y & _ & Hg & ->)]; [apply free_owned; lia|by apply word_owned].
Qed.

Lemma value_waiters : is_set (Value σ) PH_QUEUED_LOCK_WAITERS = true ↔ r ≠ [].
Proof.
  pose proof counts. destruct word_cases as [(-> & _ & _ & _ & ->)|(Hr & y & _ & Hg & ->)].
  - rewrite free_waiters by lia. done.
  - rewrite word_waiters by done. done.
Qed.

Lemma value_range : 0 ≤ Value σ < 2 ^ 64.
Proof.
  pose proof counts as (_ & Hc & _). unfold MAX_THREADS in Hc.
  destruct word_cases as [(_ & _ & _ & _ & ->)|(_ & y & _ & Hg & ->)]; [unfold free_word; destruct o; cbn; lia|].
  pose proof (queued_word_range y Hg o true t m). lia.
Qed.

Lemma free_counts : o = false → E = 0 ∧ C = 0 ∧ L = 0.
Proof.
  intros Ho. pose proof counts. destruct (inv_word _ _ _ _ _ _ _ HI) as [_ _ Howned _ _ _ _ _ _]. cbn [threads] in Howned.
  destruct (decide (0 < E + C + L)) as [H0%Howned|]; [congruence|lia].
Qed.

Lemma not_holding : traversing d = None → hand = [] ∧ holds (Thread a d) = 0 ∧ prepares (Thread a d) = 0.
Proof.
  intros Hn. pose proof (ok_hand _ _ _ _ _ _ _ _ (this_ok _ _ _ _ _ _ _ _ HI i a d _ Hi Hhand)) as H. cbn [Doing] in H.
  unfold holds, prepares. cbn [Doing]. by rewrite Hn in *.
Qed.

(** The thread's step does not fault and leads to the invariant. *)
Definition keeps (σ' : state) (d' : activity) : Prop := invariant (System σ' (<[i := Thread a d']> ts)).

(** A step that changes nothing for the others. *)
Lemma keeps_still d' :
  traversing d = None → traversing d' = None → role_of d' = role_of d → share_ok r m d' →
  d ≠ ReleasingExclusive (release_wake (Value σ)) → keeps σ d'.
Proof.
  intros Ht Ht' Hrole Hs Hd. destruct (not_holding Ht) as (Hh & Hh1 & Hp1). exists r, F, hands, o, t, m.
  eapply (move_still _ _ _ _ _ _ _ _ HI i a d hand); try done.
  - rewrite Hh1. unfold holds. cbn [Doing]. by rewrite Ht'.
  - intros _. unfold prepares. cbn [Doing]. by rewrite Ht'.
  - by rewrite Ht'.
Qed.

(** A change of the word by which the thread's role changes. [t'] and [m'] are new
    only if the thread starts to traverse the list, or was the last shared owner. *)
Lemma keeps_value v' d' o' t' m' :
  traversing d = None → hand_ok (Blocks σ) r F [] (traversing d') → share_ok r m' d' →
  r_phase (role_of d') = r_phase (role_of d) →
  let E' := E - exclusive (Thread a d) + exclusive (Thread a d') in
  let C' := C - sharing (Thread a d) + sharing (Thread a d') in
  let L' := L - clearing (Thread a d) + clearing (Thread a d') in
  v' = match last r with None => free_word o' C' | Some y => word y o' true t' m' end →
  (r = [] → t' = t ∧ L' = 0) → Z.b2z t' = Z.b2z t + holds (Thread a d') →
  (m' = true → prepares (Thread a d') = 0) →
  m' = m ∨ m' = false ∧ C' = sharing (Thread a d') →
  (m' = true → C' = C) →
  (o' = true ↔ 0 < E' + C' + L') → (E' ≤ 1 ∧ (E' = 1 → C' = 0 ∧ L' = 0)) → (L' ≤ 1 ∧ (L' = 1 → C' = 0)) →
  (r ≠ [] → m' = false → C' ≤ 1) → (m' = true → E' = 0 ∧ o' = true) →
  (r ≠ [] → o' = false → t' = false → r_acquiring (role_of d') = false ∧ d' = ReleasingExclusive (release_wake v')) →
  keeps (with_Value σ v') d'.
Proof.
  intros Htrav Hh Hs Hphase E' C' L' Hv He Ht Hp Hm HmC Howned Hex Hcl Hsingle Hmult Hwake. destruct (not_holding Htrav) as (Hh0 & Hh1 & Hp1).
  exists r, F, hands, o', t', m'.
  assert (total exclusive (<[i := Thread a d']> ts) = E' ∧ total sharing (<[i := Thread a d']> ts) = C' ∧ total clearing (<[i := Thread a d']> ts) = L') as (T1 & T2 & T3)
    by (by rewrite !(total_this _ _ _ _ Hi)).
  eapply (move_value _ _ _ _ _ _ _ _ HI i a d hand); try done; rewrite ?T1, ?T2, ?T3; [|..|by rewrite Hh0|].
  - pose proof (inv_word _ _ _ _ _ _ _ HI) as [_ He0 _ _ _ _ _ HH _]. cbn [threads] in *. constructor; try done.
    + intros Hr. destruct (He Hr) as [-> ?]. destruct (He0 Hr) as (? & ? & _). split_and!; [done| |done]. destruct Hm as [->|[? _]]; done.
    + rewrite (total_this _ _ _ _ Hi holds), Hh1. lia.
    + intros Hm'. eapply (prepares_total _ _ _ _ _ _ _ _ HI i a d Hi); [by apply Hp|]. destruct Hm as [<-|[? _]]; congruence.
  - intros Hmt Hmf j u Hj Hu. destruct Hm as [?|[_ HC]]; [congruence|].
    assert (∀ u : thread, 0 ≤ sharing u) as Hpos by (intros w; unfold sharing; by destruct (r_shared _)).
    pose proof (total_two sharing ts j i u _ Hpos Hj Hu Hi). specialize (Hpos u). unfold C' in HC. lia.
  - intros Hm'. destruct Hm as [->|[? _]]; [|congruence]. rewrite (HmC Hm'). by apply (inv_multiple _ _ _ _ _ _ _ HI).
  - intros Hr Ho' Ht'. destruct (Hwake Hr Ho' Ht') as [_ Hd]. exists i, (Thread a d').
    rewrite list_lookup_insert_eq by (by eapply lookup_lt_Some). split; [done|]. by right.
Qed.

Ltac role_counts Hrole :=
  repeat match goal with
  | |- context [exclusive (Thread ?a ?d)] => change (exclusive (Thread a d)) with (Z.b2z (r_exclusive (role_of d)))
  | |- context [sharing (Thread ?a ?d)] => change (sharing (Thread a d)) with (Z.b2z (r_shared (role_of d)))
  | |- context [clearing (Thread ?a ?d)] => change (clearing (Thread a d)) with (Z.b2z (r_clearing (role_of d)))
  | |- context [holds (Thread ?a ?d)] => change (holds (Thread a d)) with (Z.b2z (from_option holding false (traversing d)))
  | |- context [prepares (Thread ?a ?d)] => change (prepares (Thread a d)) with (Z.b2z (from_option preparing false (traversing d)))
  end; rewrite ?Hrole;
  cbn [role_of traversing r_exclusive r_shared r_clearing r_acquiring r_phase from_option no_role Z.b2z].

(** *** Acquiring and releasing *)

Lemma take_exclusive :
  o = false → traversing d = None → (∃ b, role_of d = Role false false false b None) →
  keeps (with_Value σ (Value σ + PH_QUEUED_LOCK_OWNED)) OwnsExclusive.
Proof.
  intros Ho Htrav [b Hrole]. destruct (free_counts Ho) as (E0 & C0 & L0).
  eapply (keeps_value _ OwnsExclusive true t m); try done; role_counts Hrole; rewrite ?E0, ?C0, ?L0; try done.
  { destruct word_cases as [(-> & _ & _ & _ & ->)|(_ & y & -> & _ & ->)]; cbn [last]; rewrite Ho, ?C0; unfold free_word, word, PH_QUEUED_LOCK_OWNED; cbn [Z.b2z]; lia. }
  all: first [by left|lia|idtac].
  intros Hm. pose proof (owned_multiple _ _ _ _ _ _ _ _ HI Ho). congruence.
Qed.

Lemma take_shared :
  r = [] → E = 0 → traversing d = None → (∃ b, role_of d = Role false false false b None) → C + 1 ≤ MAX_THREADS →
  keeps (with_Value σ (free_word true (C + 1))) OwnsShared.
Proof.
  intros Hr E0 Htrav [b Hrole] Hb. destruct (lw_empty _ _ _ _ _ _ _ _ _ _ (inv_word _ _ _ _ _ _ _ HI) Hr) as (Ht & Hm & HL). cbn [threads] in HL.
  pose proof counts as (_ & HC & _).
  eapply (keeps_value _ OwnsShared true t m); try done; role_counts Hrole; rewrite ?E0, ?HL, ?Hr; try done.
  all: first [by left|congruence|lia|split; lia|idtac].
  cbn [last]. by rewrite Z.sub_0_r.
Qed.

Lemma exclusive_word : r_exclusive (role_of d) = true → o = true ∧ m = false ∧ E = 1 ∧ C = 0 ∧ L = 0.
Proof.
  intros Hrole. pose proof this_counts as (H1 & _). change (exclusive (Thread a d)) with (Z.b2z (r_exclusive (role_of d))) in H1.
  rewrite Hrole in H1. cbn [Z.b2z] in H1. pose proof counts as (_ & HC & HL).
  destruct (inv_word _ _ _ _ _ _ _ HI) as [_ _ Howned [Hex1 Hex2] _ _ Hm _ _]. cbn [threads] in *.
  assert (E = 1) as HE by lia. destruct (Hex2 HE) as [HC0 HL0]. split_and!; [apply Howned; lia| |done..].
  destruct m; [|done]. destruct (Hm eq_refl). lia.
Qed.

(** The word without the owned bit. *)
Lemma release_word : o = true → m = false → C = 0 →
  u64 (Value σ - PH_QUEUED_LOCK_OWNED) = match last r with None => free_word false 0 | Some y => word y false true t false end.
Proof.
  intros Ho Hm HC. unfold u64. rewrite Z.mod_small.
  - destruct word_cases as [(-> & _ & _ & _ & ->)|(_ & y & -> & _ & ->)]; cbn [last]; rewrite Ho, ?Hm, ?HC; unfold word, free_word, PH_QUEUED_LOCK_OWNED; cbn [Z.b2z]; lia.
  - pose proof value_range. pose proof value_owned as Hv. rewrite Ho in Hv. unfold PH_QUEUED_LOCK_OWNED in *.
    destruct (Z.eqb_spec (Value σ) 0) as [E0|]; [by rewrite E0 in Hv|lia].
Qed.

Lemma drop_exclusive : role_of d = Role true false false false None → traversing d = None → r = [] ∨ t = true →
  keeps (with_Value σ (u64 (Value σ - PH_QUEUED_LOCK_OWNED))) Idle.
Proof.
  intros Hrole Htrav Hrt. destruct exclusive_word as (Ho & Hm & HE & HC & HL); [by rewrite Hrole|].
  eapply (keeps_value _ Idle false t false); try done; role_counts Hrole; rewrite ?HE, ?HC, ?HL; try done; try lia.
  all: first [by apply release_word|by left|idtac]. by destruct Hrt as [?| ->].
Qed.

Lemma drop_for_wake : role_of d = Role true false false false None → traversing d = None → r ≠ [] → t = false →
  let v := u64 (Value σ - PH_QUEUED_LOCK_OWNED) in
  keeps (with_Value σ v) (ReleasingExclusive (release_wake v)).
Proof.
  intros Hrole Htrav Hr Ht v. destruct exclusive_word as (Ho & Hm & HE & HC & HL); [by rewrite Hrole|].
  assert (v = match last r with None => free_word false 0 | Some y => word y false true t false end) as Hv by by apply release_word.
  destruct word_cases as [(? & _)|(_ & y & Hy & Hg & _)]; [done|]. rewrite Hy in Hv.
  eapply (keeps_value _ _ false t false); try done; role_counts Hrole; rewrite ?HE, ?HC, ?HL; try done; try lia.
  all: first [by rewrite Hy|by left|idtac]. cbn [share_ok]. by rewrite Hv, word_owned, word_waiters, word_traversing by done.
Qed.

(** Waking begins with the lock released. *)
Lemma waking_begins y : last r = Some y → good y →
  ∃ p, PhpfWakeQueuedLock (word y false true true false) = Continue p ∧ traverse_ok (Blocks σ) r F [] p ∧ holding p = true.
Proof.
  intros Hy Hg. destruct (prepare_loop_ok (Blocks σ) r F y false false (inv_chain _ _ _ _ _ _ _ HI) Hy Hg eq_refl) as (p & Hp & Hok & Hho & _).
  by exists p.
Qed.

Lemma drop_and_wake (f : traverse → activity) :
  role_of d = Role true false false false None → traversing d = None → r ≠ [] → t = false →
  (∀ p, traversing (f p) = Some p) → (∀ p, role_of (f p) = no_role) → (∀ p r m, share_ok r m (f p)) →
  let v := u64 (Value σ - PH_QUEUED_LOCK_OWNED + PH_QUEUED_LOCK_TRAVERSING) in
  ∃ p, PhpfWakeQueuedLock v = Continue p ∧ keeps (with_Value σ v) (f p).
Proof.
  intros Hrole Htrav Hr Ht Hf1 Hf2 Hf3 v. destruct exclusive_word as (Ho & Hm & HE & HC & HL); [by rewrite Hrole|].
  destruct word_cases as [(? & _)|(_ & y & Hy & Hg & Hv)]; [done|].
  assert (v = word y false true true false) as Hv'.
  { unfold v. rewrite Hv, Ho, Hm, Ht. replace (word y true true false false - _ + _) with (word y false true true false)
      by (unfold word, PH_QUEUED_LOCK_OWNED, PH_QUEUED_LOCK_TRAVERSING; cbn [Z.b2z]; lia).
    apply Z.mod_small. pose proof (queued_word_range y Hg false true true false). lia. }
  rewrite Hv'. destruct (waking_begins y Hy Hg) as (p & Hp & Hok & Hho). exists p. split; [done|].
  eapply (keeps_value _ _ false true false); try done; role_counts Hrole; rewrite ?Hf1, ?Hf2, ?HE, ?HC, ?HL; cbn [from_option]; rewrite ?Hho, ?Ht;
    cbn [no_role r_exclusive r_shared r_clearing r_acquiring r_phase Z.b2z]; try done; try lia.
  all: first [by rewrite Hy|by left].
Qed.

Lemma wake_waiters (f : traverse → activity) v :
  d = ReleasingExclusive (release_wake v) → Value σ = v →
  (∀ p, traversing (f p) = Some p) → (∀ p, role_of (f p) = no_role) → (∀ p r m, share_ok r m (f p)) →
  let v' := u64 (v + PH_QUEUED_LOCK_TRAVERSING) in
  ∃ p, PhpfWakeQueuedLock v' = Continue p ∧ keeps (with_Value σ v') (f p).
Proof.
  intros Hd Hv Hf1 Hf2 Hf3 v'. pose proof (ok_share _ _ _ _ _ _ _ _ (this_ok _ _ _ _ _ _ _ _ HI i a d _ Hi Hhand)) as Hs.
  cbn [Doing] in Hs. rewrite Hd in Hs. destruct Hs as (Ho & Hw & Ht). rewrite <-Hv in Ho, Hw, Ht. rewrite value_owned in Ho.
  apply value_waiters in Hw. destruct word_cases as [(? & _)|(_ & y & Hy & Hg & Hval)]; [done|].
  rewrite Hval, word_traversing in Ht by done. pose proof (owned_multiple _ _ _ _ _ _ _ _ HI Ho) as Hm.
  destruct (free_counts Ho) as (HE & HC & HL).
  assert (v' = word y false true true false) as Hv'.
  { unfold v'. rewrite <-Hv, Hval, Ho, Hm, Ht. replace (word y false true false false + _) with (word y false true true false)
      by (unfold word, PH_QUEUED_LOCK_TRAVERSING; cbn [Z.b2z]; lia).
    apply Z.mod_small. pose proof (queued_word_range y Hg false true true false). lia. }
  rewrite Hv'. destruct (waking_begins y Hy Hg) as (p & Hp & Hok & Hho). exists p. split; [done|].
  assert (role_of d = no_role) as Hrole by (by rewrite Hd).
  eapply (keeps_value _ _ false true false); try done; role_counts Hrole; rewrite ?Hf1, ?Hf2, ?HE, ?HC, ?HL; cbn [from_option]; rewrite ?Hho, ?Ht;
    cbn [no_role r_exclusive r_shared r_clearing r_acquiring r_phase Z.b2z]; try done; try lia.
  all: first [by rewrite Hy|by left|by rewrite Hd].
Qed.

Lemma shared_word : r_shared (role_of d) = true → o = true ∧ E = 0 ∧ L = 0 ∧ 1 ≤ C.
Proof.
  intros Hrole. pose proof this_counts as (_ & H1 & _). change (sharing (Thread a d)) with (Z.b2z (r_shared (role_of d))) in H1.
  rewrite Hrole in H1. cbn [Z.b2z] in H1. pose proof counts as (HE & HC & HL).
  destruct (inv_word _ _ _ _ _ _ _ HI) as [_ _ Howned [Hex1 Hex2] [Hcl1 Hcl2] _ _ _ _]. cbn [threads] in *.
  split_and!; [apply Howned; lia|lia..].
Qed.

(** Without waiters the count in the word goes down. *)
Lemma drop_shared : role_of d = Role false true false false None → traversing d = None → r = [] →
  let v := if 1 <? PhGetQueuedLockSharedOwners (Value σ) then Value σ - PH_QUEUED_LOCK_SHARED_INC else 0 in
  keeps (with_Value σ (u64 v)) Idle.
Proof.
  intros Hrole Htrav Hr v. destruct shared_word as (Ho & HE & HL & HC); [by rewrite Hrole|]. pose proof counts as (_ & HC' & _).
  destruct word_cases as [(_ & Ht & Hm & _ & Hv)|(? & _)]; [|done].
  assert (u64 v = free_word (1 <? C) (C - 1)) as Hv'.
  { pose proof value_range as Hrange. unfold v. rewrite Hv, free_owners, Ho in * by lia. unfold free_word, PH_QUEUED_LOCK_SHARED_INC, u64 in *. cbn [Z.b2z] in *.
    destruct (Z.ltb_spec 1 C); cbn [Z.b2z]; [rewrite Z.mod_small by lia; lia|]. assert (C = 1) as -> by lia. done. }
  rewrite Hv'. eapply (keeps_value _ Idle (1 <? C) t m); try done; role_counts Hrole; rewrite ?HE, ?HL, ?Hr, ?Ht, ?Hm; try done; try lia.
  all: first [by left|idtac]. cbn [last]. f_equal. lia.
Qed.

(** The first look at the word of a shared releaser, or a later one. *)
Lemma shared_loop_keeps : role_of d = Role false true false false None → traversing d = None →
  ∃ p, shared_loop (Value σ) = Continue p ∧ keeps σ (ReleasingShared p).
Proof.
  intros Hrole Htrav. destruct shared_word as (Ho & HE & HL & HC); [by rewrite Hrole|]. pose proof counts as (_ & HC' & _).
  assert (d ≠ ReleasingExclusive (release_wake (Value σ))) as Hd by (intros ->; done). unfold shared_loop.
  destruct word_cases as [(Hr & Ht & Hm & _ & Hv)|(Hr & y & Hy & Hg & Hv)].
  - rewrite Hv, free_waiters, free_owned, free_owners by lia. cbn [negb orb]. assert ((0 <? C) = true) as -> by lia. rewrite Ho. cbn [andb].
    eexists. split; [done|]. apply keeps_still; [done|done|by rewrite Hrole| |done]. cbn [share_ok]. by rewrite free_waiters by lia.
  - rewrite Hv, word_waiters, word_multiple by done. cbn [negb].
    assert (m = true ∨ m = false) as [Hm|Hm] by (destruct m; auto); rewrite Hm.
    + eexists. split; [done|]. apply keeps_still; [done|done|by rewrite Hrole| |done]. cbn [share_ok]. rewrite <-Hm, word_block by done.
      split; [done|]. by apply last_Some_elem_of.
    + eexists. split; [done|]. assert (C = 1) as HC1.
      { pose proof (lw_single _ _ _ _ _ _ _ _ _ _ (inv_word _ _ _ _ _ _ _ HI) Hr Hm) as H1. cbn [threads] in H1. lia. }
      assert (with_Value σ (Value σ) = σ) as Hσ by (by destruct σ). unfold keeps. rewrite <-Hσ at 1.
      eapply (keeps_value _ _ true t m); try done; role_counts Hrole; rewrite ?HE, ?HL, ?HC1, ?Hm; try done; try lia.
      all: first [by left|idtac]. by rewrite Hy, Hv, Ho, Hm.
Qed.

(** A shared owner that is not the last gives up its count in the oldest block. *)
Lemma decrement_keeps x b d' :
  role_of d = Role false true false false None → traversing d = None → m = true → r !! O = Some x → Blocks σ !! x = Some b →
  role_of d' = (if 1 <? C then no_role else Role false false true false None) → traversing d' = None → share_ok r m d' →
  keeps (with_Blocks σ (<[x := with_SharedOwners b (u32 (SharedOwners b - 1))]> (Blocks σ))) d'.
Proof.
  intros Hrole Htrav Hm Hx Hb Hrole' Htrav' Hs. destruct shared_word as (Ho & HE & HL & HC); [by rewrite Hrole|]. pose proof counts as (_ & HC' & _).
  destruct (not_holding Htrav) as (Hh0 & Hh1 & Hp1). set (b' := with_SharedOwners b (u32 (SharedOwners b - 1))).
  destruct (inv_multiple _ _ _ _ _ _ _ HI Hm) as [M1 M2 M3]. cbn [shared threads] in *.
  assert (SharedOwners b = C) as Hcount by (specialize (M3 x Hx); rewrite Hb in M3; by injection M3).
  assert (∀ (A : Type) (f : PH_QUEUED_WAIT_BLOCK → A) w, f b' = f b → f <$> <[x := b']> (Blocks σ) !! w = f <$> Blocks σ !! w) as Hsame.
  { intros A f w Hf. destruct (decide (w = x)) as [->|]; [rewrite lookup_insert_eq, Hb; by apply (f_equal Some)|by rewrite lookup_insert_ne]. }
  assert (total sharing (<[i := Thread a d']> ts) = C - 1) as T2.
  { rewrite (total_this _ _ _ _ Hi). role_counts Hrole. rewrite Hrole'. destruct (1 <? C); cbn; lia. }
  assert (total exclusive (<[i := Thread a d']> ts) = 0) as T1.
  { rewrite (total_this _ _ _ _ Hi). role_counts Hrole. rewrite Hrole', HE. by destruct (1 <? C). }
  assert (total clearing (<[i := Thread a d']> ts) = if 1 <? C then 0 else 1) as T3.
  { rewrite (total_this _ _ _ _ Hi). role_counts Hrole. rewrite Hrole', HL. by destruct (1 <? C). }
  assert (holds (Thread a d') = 0 ∧ prepares (Thread a d') = 0) as [Hh2 Hp2] by (unfold holds, prepares; cbn [Doing]; by rewrite Htrav').
  exists r, F, hands, o, t, m. rewrite <-(list_insert_id hands i hand Hhand).
  apply (inv_update _ _ _ _ _ _ _ _ HI i a d hand Hi Hhand); rewrite ?(list_insert_id hands i hand Hhand), ?T1, ?T2, ?T3; cbn [Blocks Value KeyedEvent with_Blocks].
  - pose proof (inv_word _ _ _ _ _ _ _ HI) as [Hv He Howned _ _ Hsingle _ Hholds Hprep]. cbn [shared threads] in *. constructor.
    + rewrite Hv. destruct (last r) eqn:Hl; [done|]. apply last_None in Hl. by rewrite Hl in Hx.
    + intros ->. done.
    + rewrite Ho. destruct (Z.ltb_spec 1 C); split; (done || lia).
    + lia.
    + destruct (Z.ltb_spec 1 C); lia.
    + congruence.
    + done.
    + rewrite (total_this _ _ _ _ Hi holds), Hh1, Hh2. lia.
    + intros _. eapply (prepares_total _ _ _ _ _ _ _ _ HI i a d Hi); done.
  - destruct (inv_chain _ _ _ _ _ _ _ HI) as [C1 C2 C3 C4 C5 C6]. cbn [shared] in *. constructor; try done.
    + intros k y z. rewrite (Hsame _ Next) by done. apply C1.
    + intros k y z. rewrite (Hsame _ Previous) by done. apply C2.
    + intros y z. rewrite (Hsame _ Last) by done. apply C3.
    + intros k y. rewrite (Hsame _ Last) by done. apply C4.
    + intros y. rewrite (Hsame _ Previous) by done. apply C6.
  - intros _. constructor.
    + intros y z. rewrite (Hsame _ Last) by done. apply M1.
    + intros y. rewrite (Hsame _ Last) by done. apply M2.
    + intros y Hy. rewrite Hx in Hy. injection Hy as <-. rewrite lookup_insert_eq. cbn. rewrite Hcount, u32_small; [done|]. unfold MAX_THREADS in HC'. lia.
  - apply (inv_listed _ _ _ _ _ _ _ HI).
  - intros y Hy. destruct (decide (y = x)) as [->|]; [right; left; by exists b|]. rewrite lookup_insert_ne in Hy by done. by right.
  - intros j u h Hj Hu Hjh Hok. eapply thread_frame; [done|split_and!; [by apply (Hsame _ spinning)|done|done]| | |].
    + intros y _. split; [by apply (Hsame _ Previous)|]. by rewrite (Hsame _ spinning).
    + intros _. split; [done|]. apply extends_same. intros y _. split; [by apply (Hsame _ Previous)|]. by rewrite (Hsame _ spinning).
    + intros _ _. split; [done|]. exists []. by rewrite app_nil_r.
  - constructor; cbn [Address Doing]; [|by rewrite Htrav', Hh0|done].
    pose proof (ok_wait _ _ _ _ _ _ _ _ (this_ok _ _ _ _ _ _ _ _ HI i a d _ Hi Hhand)) as Hw. cbn [Address Doing] in Hw. rewrite Hrole in Hw.
    replace (r_phase (role_of d')) with (@None phase) by (rewrite Hrole'; by destruct (1 <? C)).
    eapply wait_frame; [done|by apply (Hsame _ spinning)|done|done].
  - intros _ Ho'. congruence.
Qed.

(** The last shared owner releases the lock. *)
Lemma clear_shared :
  role_of d = Role false false true false None → traversing d = None →
  ∃ y, last r = Some y ∧ good y ∧ Value σ = word y true true t m ∧
    (t = true → keeps (with_Value σ (word y false true true false)) Idle) ∧
    (t = false → ∀ f : traverse → activity,
      (∀ p, traversing (f p) = Some p) → (∀ p, role_of (f p) = no_role) → (∀ p r m, share_ok r m (f p)) →
      ∃ p, PhpfWakeQueuedLock (word y false true true false) = Continue p ∧
        keeps (with_Value σ (word y false true true false)) (f p)).
Proof.
  intros Hrole Htrav. pose proof this_counts as (_ & _ & H1). change (clearing (Thread a d)) with (Z.b2z (r_clearing (role_of d))) in H1.
  rewrite Hrole in H1. cbn [r_clearing Z.b2z] in H1. pose proof counts as (HE & HC & HL).
  destruct (inv_word _ _ _ _ _ _ _ HI) as [_ _ Howned [Hex1 Hex2] [Hcl1 Hcl2] _ _ _ _]. cbn [threads] in *.
  assert (L = 1 ∧ C = 0 ∧ E = 0) as (L1 & C0 & E0) by lia. assert (o = true) as Ho by (apply Howned; lia).
  destruct word_cases as [(_ & _ & _ & ? & _)|(Hr & y & Hy & Hg & Hv)]; [lia|]. rewrite Ho in Hv. exists y. split; [done|]. split; [done|]. split; [done|]. split.
  - intros Ht. eapply (keeps_value _ Idle false true false); try done; role_counts Hrole; rewrite ?E0, ?C0, ?L1, ?Ht; try done; try lia.
    all: first [by rewrite Hy|by right].
  - intros Ht f Hf1 Hf2 Hf3. destruct (waking_begins y Hy Hg) as (p & Hp & Hok & Hho). exists p. split; [done|].
    eapply (keeps_value _ _ false true false); try done; role_counts Hrole; rewrite ?Hf1, ?Hf2, ?E0, ?C0, ?L1; cbn [from_option]; rewrite ?Hho, ?Ht;
      cbn [no_role r_exclusive r_shared r_clearing r_acquiring r_phase Z.b2z]; try done; try lia.
    all: first [by rewrite Hy|by right].
Qed.

(** *** Pushing a wait block *)

Lemma push_spinning v e : spinning (push_block v e a) = true.
Proof. unfold push_block. destruct (is_set v PH_QUEUED_LOCK_WAITERS), e; reflexivity. Qed.

Lemma push_previous v e : Previous (push_block v e a) = NULL.
Proof. unfold push_block. destruct (is_set v PH_QUEUED_LOCK_WAITERS), e; reflexivity. Qed.

(** The list with the new block, for any threads' counts. *)
Lemma push_chain e : a ∉ r → let b := push_block (Value σ) e a in
  chain (<[a := b]> (Blocks σ)) (r ++ [a]) (if decide (r = []) then O else F).
Proof.
  intros Ha b. pose proof counts as (_ & HC & _).
  assert (∀ y, y ∈ r → <[a := b]> (Blocks σ) !! y = Blocks σ !! y) as Hsame by (intros y Hy; apply lookup_insert_ne; by intros <-).
  assert (∀ k y, r !! k = Some y → <[a := b]> (Blocks σ) !! y = Blocks σ !! y) as Hsame' by (intros k y Hy; by eapply Hsame, list_elem_of_lookup_2).
  destruct word_cases as [(-> & _ & _ & _ & Hv)|(Hr & z & Hz & Hg & Hv)].
  - destruct (decide ([] = [])) as [_|]; [|done]. constructor.
    + intros [|k] y z Hy Hz; done.
    + lia.
    + intros y z [= <-] [= <-]. rewrite lookup_insert_eq. cbn. unfold b, push_block. rewrite Hv, free_waiters by lia. done.
    + intros [|k] y Hk Hy; [lia|done].
    + cbn. lia.
    + intros y [= <-]. rewrite lookup_insert_eq. apply (f_equal Some), push_previous.
  - destruct (decide (r = [])) as [|_]; [done|]. destruct (inv_chain _ _ _ _ _ _ _ HI) as [C1 C2 C3 C4 C5 C6]. cbn [shared] in *. specialize (C5 Hr).
    rewrite last_lookup in Hz. assert (Next b = z ∧ Last b = NULL) as [Hn Hl].
    { unfold b, push_block. rewrite Hv, word_waiters by done. cbn [Next Last]. by rewrite word_block. }
    constructor.
    + intros k x y Hx [Hy|[Hk Hy]]%lookup_app_Some.
      * rewrite (Hsame' (S k)) by done. apply (C1 k); [|done]. rewrite lookup_app_l in Hx; [done|]. apply lookup_lt_Some in Hy. lia.
      * destruct (S k - length r)%nat eqn:Hk'; [|done]. injection Hy as <-. rewrite lookup_insert_eq. cbn. f_equal. rewrite Hn.
        rewrite lookup_app_l in Hx by lia. replace (pred (length r)) with k in Hz by lia. congruence.
    + intros k x y Hk Hx Hy. rewrite lookup_app_l in Hx, Hy by lia. rewrite (Hsame' k) by done. by apply (C2 k).
    + intros x y Hx Hy. rewrite lookup_app_l in Hx, Hy by lia. rewrite (Hsame' F) by done. by apply C3.
    + intros k x Hk [Hx|[Hk' Hx]]%lookup_app_Some; [rewrite (Hsame' k) by done; by apply (C4 k)|].
      destruct (k - length r)%nat eqn:Hk''; [|done]. injection Hx as <-. rewrite lookup_insert_eq. cbn. by rewrite Hl.
    + intros _. rewrite length_app. lia.
    + intros x. rewrite last_snoc. intros [= <-]. rewrite lookup_insert_eq. apply (f_equal Some), push_previous.
Qed.

Lemma push_multiple e : a ∉ r → let b := push_block (Value σ) e a in
  (r = [] → e = true) → (r ≠ [] → m = true) → multiple (<[a := b]> (Blocks σ)) (r ++ [a]) C.
Proof.
  intros Ha b He Hm. pose proof counts as (_ & HC & _). unfold MAX_THREADS in HC.
  assert (∀ y, y ∈ r → <[a := b]> (Blocks σ) !! y = Blocks σ !! y) as Hsame by (intros y Hy; apply lookup_insert_ne; by intros <-).
  destruct word_cases as [(Hr & _ & _ & _ & Hv)|(Hr & z & Hz & Hg & Hv)].
  - assert (b = WaitBlock NULL NULL a C (Z.lor PH_QUEUED_WAITER_EXCLUSIVE PH_QUEUED_WAITER_SPINNING)) as Hb.
    { unfold b, push_block. rewrite Hv, free_waiters, free_owners, u32_small, (He Hr) by lia. done. }
    rewrite Hr. constructor.
    + intros y z Hy [= <-]. apply list_elem_of_singleton in Hy as ->. right. rewrite lookup_insert_eq, Hb. done.
    + intros z [= <-]. rewrite lookup_insert_eq, Hb. done.
    + intros z [= <-]. rewrite lookup_insert_eq, Hb. done.
  - destruct (inv_multiple _ _ _ _ _ _ _ HI (Hm Hr)) as [M1 M2 M3]. cbn [shared threads] in *.
    assert (∀ y, (r ++ [a]) !! O = Some y → r !! O = Some y) as Hfirst by (clear -Hr; destruct r; [done|by intros y Hy]).
    constructor.
    + intros x y [Hx|Hx]%elem_of_app Hy%Hfirst.
      * rewrite Hsame by done. by apply M1.
      * apply list_elem_of_singleton in Hx as ->. left. rewrite lookup_insert_eq. unfold b, push_block. by rewrite Hv, word_waiters.
    + intros y Hy%Hfirst. rewrite Hsame by (by eapply list_elem_of_lookup_2). by apply M2.
    + intros y Hy%Hfirst. rewrite Hsame by (by eapply list_elem_of_lookup_2). by apply M3.
Qed.

Lemma this_unlisted : r_phase (role_of d) = None → Blocks σ !! a = None ∧ a ∉ listed ∧ a ∉ KeyedEvent σ ∧ a ∉ r.
Proof.
  intros Hph. pose proof (ok_wait _ _ _ _ _ _ _ _ (this_ok _ _ _ _ _ _ _ _ HI i a d _ Hi Hhand)) as Hw. cbn [Address Doing] in Hw. rewrite Hph in Hw.
  destruct Hw as (H1 & H2 & H3). split_and!; [done..|]. intros Hr. apply H2, elem_of_app. by left.
Qed.

Lemma push_keeps e d' :
  let B' := <[a := push_block (Value σ) e a]> (Blocks σ) in
  let F' := if decide (r = []) then O else F in
  (r = [] → o = true ∧ (e = false → C = 0)) →
  role_of d = Role false false false true None → traversing d = None →
  role_of d' = Role false false false true (Some Early) → share_ok (r ++ [a]) m d' →
  hand_ok B' (r ++ [a]) F' [] (traversing d') →
  holds (Thread a d') = Z.b2z (negb (bool_decide (r = [])) && negb t) → (m = true → prepares (Thread a d') = 0) →
  keeps (State (push_value (Value σ) e a) B' (KeyedEvent σ)) d'.
Proof.
  intros B' F' Hempty Hrole Htrav Hrole' Hs Hh Hh2 Hp2. destruct this_unlisted as (Hb & Hl & HK & Hr); [by rewrite Hrole|].
  destruct (not_holding Htrav) as (Hh0 & Hh1 & Hp1). pose proof counts as (HE & HC & HL). unfold MAX_THREADS in HC.
  pose proof (this_good _ _ _ _ _ _ _ _ HI i a d Hi) as Hga.
  set (t' := negb (bool_decide (r = []))). set (m' := if decide (r = []) then e && (1 <? C) else m).
  assert (total exclusive (<[i := Thread a d']> ts) = E ∧ total sharing (<[i := Thread a d']> ts) = C ∧ total clearing (<[i := Thread a d']> ts) = L) as (T1 & T2 & T3)
    by (rewrite !(total_this _ _ _ _ Hi); role_counts Hrole; rewrite Hrole'; cbn; lia).
  assert (∀ x, x ≠ a → B' !! x = Blocks σ !! x) as Hsame by (intros x Hx; by apply lookup_insert_ne).
  assert (∀ x, x ∈ (r ++ [a]) ++ concat hands ↔ x = a ∨ x ∈ listed) as Hlisted.
  { intros x. rewrite !elem_of_app, list_elem_of_singleton. tauto. }
  assert (r = [] → t = false ∧ m = false ∧ L = 0) as He0 by apply (lw_empty _ _ _ _ _ _ _ _ _ _ (inv_word _ _ _ _ _ _ _ HI)).
  exists (r ++ [a]), F', hands, o, t', m'. rewrite <-(list_insert_id hands i hand Hhand).
  apply (inv_update _ _ _ _ _ _ _ _ HI i a d hand Hi Hhand); rewrite ?(list_insert_id hands i hand Hhand), ?T1, ?T2, ?T3; cbn [Blocks Value KeyedEvent].
  - destruct (inv_word _ _ _ _ _ _ _ HI) as [Hv _ Howned Hex Hcl Hsingle Hmult Hholds Hprep]. cbn [shared threads] in *. constructor; try done.
    + rewrite last_snoc. unfold t', m'. destruct word_cases as [(-> & _ & _ & _ & ->)|(Hne & y & Hy & Hg & ->)].
      * destruct (Hempty eq_refl) as [-> _]. rewrite push_value_free by (done || lia). by rewrite bool_decide_true, decide_True.
      * rewrite push_value_waiters by done. by rewrite bool_decide_false, decide_False.
    + by intros [_ [=]]%app_eq_nil.
    + intros _. unfold m'. destruct (decide (r = [])) as [E0|]; [|by apply Hsingle]. intros Hm'. destruct (Hempty E0) as [_ HC0].
      destruct e; [cbn in Hm'; lia|]. rewrite HC0; done.
    + unfold m'. destruct (decide (r = [])) as [E0|]; [|done]. intros [_ H1]%andb_true_iff. destruct (Hempty E0) as [-> _]. split; [|done]. lia.
    + rewrite (total_this _ _ _ _ Hi holds), Hh1, Hh2, Hholds. unfold t'. case_bool_decide as E0; [by destruct (He0 E0) as (-> & _)|by destruct t].
    + unfold m'. destruct (decide (r = [])) as [E0|].
      * intros _. rewrite (total_this _ _ _ _ Hi prepares), Hp1. destruct (He0 E0) as (Ht & _ & _). rewrite Ht in Hholds. cbn in Hholds.
        assert (0 ≤ total prepares ts ≤ total holds ts) as Hle.
        { split; [apply total_nonneg; intros u; unfold prepares; by destruct (from_option _ _ _)|]. apply total_le. intros u. unfold prepares, holds.
          destruct (traversing (Doing u)) as [[]|]; cbn; try done; by destruct k. }
        rewrite bool_decide_true in Hh2 by done. unfold prepares, holds in *. cbn [Doing negb andb Z.b2z] in *.
        destruct (traversing d') as [[]|]; cbn in Hh2 |- *; (done || lia).
      * intros Hm. by eapply (prepares_total _ _ _ _ _ _ _ _ HI i a d Hi), Hm; apply Hp2.
  - by apply push_chain.
  - intros Hm'. apply push_multiple; [done| |].
    + intros E0. unfold m' in Hm'. rewrite decide_True in Hm' by done. by apply andb_true_iff in Hm' as [? _].
    + intros Hne. unfold m' in Hm'. by rewrite decide_False in Hm'.
  - assert ((r ++ [a]) ++ concat hands ≡ₚ a :: listed) as -> by solve_Permutation. constructor; [done|apply (inv_listed _ _ _ _ _ _ _ HI)].
  - intros x. rewrite Hlisted. destruct (decide (x = a)) as [->|Hne]; [by left|]. rewrite Hsame by done. tauto.
  - intros j u h Hj Hu Hjh Hok. pose proof (other_address _ _ _ _ _ _ _ _ HI i a d Hi j u Hj Hu) as Hua. eapply thread_frame; [done| | | |].
    + rewrite Hsame by done. split_and!; [done| |done]. rewrite Hlisted. tauto.
    + intros x Hx. unfold agree. rewrite Hsame; [done|]. intros ->. apply Hl.
      by destruct (listed_apart _ _ _ _ _ _ _ _ HI i _ Hhand) as (_ & _ & _ & Hap); apply (Hap j h a).
    + intros H1. unfold F'. destruct (decide (r = [])) as [E0|].
      * exfalso. destruct (holder_alone _ _ _ _ _ _ _ _ HI j (Address u) (Doing u)) as [Ht _]; [by destruct u|by destruct u|].
        destruct (He0 E0). congruence.
      * split; [done|]. exists [a]. split_and!; [done| |].
        -- intros x Hx. unfold agree. rewrite Hsame; [done|]. by intros ->.
        -- intros x ->%list_elem_of_singleton. unfold B'. rewrite lookup_insert_eq. apply (f_equal Some), push_previous.
    + intros _ Hm. unfold m'. destruct (decide (r = [])) as [E0|]; [destruct (He0 E0) as (_ & ? & _); congruence|]. split; [done|]. by exists [a].
  - constructor; cbn [Address Doing].
    + rewrite Hrole'. cbn [r_phase wait_ok]. eexists. split; [apply lookup_insert_eq|]. rewrite push_spinning, Hlisted. split_and!; [tauto|done].
    + by rewrite Hh0.
    + eapply share_frame; [done|]. by rewrite Hrole'.
  - intros _ Ho' Ht'. unfold t' in Ht'. case_bool_decide as E0; [|done]. destruct (Hempty E0). congruence.
Qed.

(** *** Waiting *)

(** The thread changes its own block, the keyed event, and how far it has got. *)
Lemma wait_keeps B' K' w w' d' :
  role_of d = Role false false false true (Some w) → traversing d = None →
  role_of d' = Role false false false true w' → traversing d' = None → (∀ r m, share_ok r m d') →
  (∀ x, x ≠ a → B' !! x = Blocks σ !! x) → (∀ x, x ≠ a → x ∈ K' ↔ x ∈ KeyedEvent σ) →
  (a ∈ listed → ∃ b f, Blocks σ !! a = Some b ∧ B' !! a = Some (with_Flags b f) ∧ (spinning b = false → spinning (with_Flags b f) = false)) →
  wait_ok B' K' listed a w' →
  keeps (State (Value σ) B' K') d'.
Proof.
  intros Hrole Htrav Hrole' Htrav' Hs HB HK Hown Hw'. destruct (not_holding Htrav) as (Hh0 & Hh1 & Hp1).
  assert (total exclusive (<[i := Thread a d']> ts) = E ∧ total sharing (<[i := Thread a d']> ts) = C ∧ total clearing (<[i := Thread a d']> ts) = L) as (T1 & T2 & T3)
    by (rewrite !(total_this _ _ _ _ Hi); role_counts Hrole; rewrite Hrole'; cbn; lia).
  assert (holds (Thread a d') = 0 ∧ prepares (Thread a d') = 0) as [Hh2 Hp2] by (unfold holds, prepares; cbn [Doing]; by rewrite Htrav').
  assert (∀ (A : Type) (f : PH_QUEUED_WAIT_BLOCK → A) x, (∀ b g, f (with_Flags b g) = f b) → x ∈ listed → f <$> B' !! x = f <$> Blocks σ !! x) as Hsame.
  { intros A f x Hf Hx. destruct (decide (x = a)) as [->|]; [|by rewrite HB]. destruct (Hown Hx) as (b & g & -> & -> & _). apply (f_equal Some), Hf. }
  assert (∀ x, x ∈ listed → agree (Blocks σ) B' x) as Hagree.
  { intros x Hx. split; [by apply (Hsame _ Previous)|]. destruct (decide (x = a)) as [->|]; [|by rewrite HB].
    destruct (Hown Hx) as (b & g & -> & -> & Hsp). intros [= Hb]. apply (f_equal Some). by apply Hsp. }
  assert (∀ x, x ∈ r → x ∈ listed) as Hr by (intros x Hx; apply elem_of_app; by left).
  assert (∀ k x, r !! k = Some x → x ∈ listed) as Hr' by (intros k x Hx; by eapply Hr, list_elem_of_lookup_2).
  exists r, F, hands, o, t, m. rewrite <-(list_insert_id hands i hand Hhand).
  apply (inv_update _ _ _ _ _ _ _ _ HI i a d hand Hi Hhand); rewrite ?(list_insert_id hands i hand Hhand), ?T1, ?T2, ?T3; cbn [Blocks Value KeyedEvent].
  - destruct (inv_word _ _ _ _ _ _ _ HI) as [? ? ? ? ? ? ? Hholds Hprep]. cbn [shared threads] in *. constructor; try done.
    + rewrite (total_this _ _ _ _ Hi holds), Hh1, Hh2. lia.
    + intros Hm. by eapply (prepares_total _ _ _ _ _ _ _ _ HI i a d Hi), Hm.
  - destruct (inv_chain _ _ _ _ _ _ _ HI) as [C1 C2 C3 C4 C5 C6]. cbn [shared] in *. constructor; try done.
    + intros k y z Hy Hz. rewrite (Hsame _ Next) by (done || by eapply Hr'). by apply (C1 k).
    + intros k y z Hk Hy Hz. rewrite (Hsame _ Previous) by (done || by eapply Hr'). by apply (C2 k).
    + intros y z Hy Hz. rewrite (Hsame _ Last) by (done || by eapply Hr'). by apply C3.
    + intros k y Hk Hy. rewrite (Hsame _ Last) by (done || by eapply Hr'). by apply (C4 k).
    + intros y Hy. rewrite (Hsame _ Previous) by (done || by apply Hr, last_Some_elem_of). by apply C6.
  - intros Hm. destruct (inv_multiple _ _ _ _ _ _ _ HI Hm) as [M1 M2 M3]. cbn [shared threads] in *. constructor.
    + intros y z Hy Hz. rewrite (Hsame _ Last) by (done || by apply Hr). by apply M1.
    + intros y Hy. rewrite (Hsame _ Last) by (done || by eapply Hr'). by apply M2.
    + intros y Hy. rewrite (Hsame _ SharedOwners) by (done || by eapply Hr'). by apply M3.
  - apply (inv_listed _ _ _ _ _ _ _ HI).
  - intros x Hx. destruct (decide (x = a)) as [->|Hne]; [by left|]. rewrite HB, HK in Hx by done. by right.
  - intros j u h Hj Hu Hjh Hok. pose proof (other_address _ _ _ _ _ _ _ _ HI i a d Hi j u Hj Hu) as Hua. eapply thread_frame; [done| | | |].
    + rewrite HB by done. split_and!; [done|done|by apply HK].
    + intros x Hx. apply Hagree. by destruct (listed_apart _ _ _ _ _ _ _ _ HI i _ Hhand) as (_ & _ & _ & Hap); apply (Hap j h x).
    + intros _. split; [done|]. apply extends_same. intros x Hx. by apply Hagree, Hr.
    + intros _ Hm. split; [done|]. exists []. by rewrite app_nil_r.
  - constructor; cbn [Address Doing]; [by rewrite Hrole'|by rewrite Htrav', Hh0|done].
  - apply (keep_wake _ _ _ _ _ _ _ _ HI i a d Hi); [by rewrite Hrole'|]. intros E0. by rewrite E0 in Hrole.
Qed.

(** *** The functions *)

Section Acquiring.
Context (PhQueuedLockSpinCount : Z) (A : acquire → activity) (owns : activity).
Hypothesis (HA : A = AcquiringExclusive ∨ A = AcquiringShared).

Local Abbreviation ends := (after A (λ _, owns)).

Lemma acquiring_role p : role_of (A p) = Role false false false true (acquire_phase p).
Proof. by destruct HA as [->| ->]. Qed.
Lemma acquiring_traversing p : traversing (A p) = match p with acquire_optimize _ q => Some q | _ => None end.
Proof. by destruct HA as [->| ->]; destruct p. Qed.
Lemma acquiring_share l n p : share_ok l n (A p).
Proof. by destruct HA as [->| ->]; destruct p. Qed.
Lemma acquiring_not p v : A p ≠ ReleasingExclusive (release_wake v).
Proof. by destruct HA as [->| ->]. Qed.

Lemma block_start_early n b : block_phase (block_start n b) = Early.
Proof. unfold block_start. by destruct (_ && _). Qed.

(** After the list is optimized, or if it need not be, the thread blocks. *)
Lemma acquire_optimizing_keeps v p σ' oc :
  d = A (acquire_optimize v p) → (σ', oc) ∈ acquire_optimizing PhQueuedLockSpinCount σ v p → keeps σ' (ends oc).
Proof.
  intros Hd Hin. unfold acquire_optimizing in Hin. apply list_elem_of_fmap in Hin as ([σ1 oc1] & [= -> ->] & Hin).
  assert (traversing d = Some p) as Htrav by (by rewrite Hd, acquiring_traversing).
  destruct (traverse_moves _ _ _ _ _ _ _ _ HI i a d hand Hi Hhand p Htrav _ _ Hin) as [Hf Hk].
  destruct oc1 as [q|b|]; [| |done]; cbn [map_outcome then_block after]; apply Hk; intros; rewrite ?Hd, ?acquiring_role, ?acquiring_traversing; try apply acquiring_share; try done.
  cbn [acquire_phase]. by rewrite block_start_early.
Qed.

(** The wait is over: the block is no longer used. *)
Lemma acquire_done v w : d = A (acquire_block v w) → a ∉ listed → a ∉ KeyedEvent σ →
  keeps (with_Blocks σ (delete a (Blocks σ))) (A (acquire_try v)).
Proof.
  intros Hd Hl HK. eapply (wait_keeps _ _ (block_phase w) None); rewrite ?Hd, ?acquiring_role, ?acquiring_traversing; try done.
  - intros. apply acquiring_share.
  - intros x Hx. by apply lookup_delete_ne.
  - cbn. split_and!; [apply lookup_delete_eq|done|done].
Qed.

Lemma spinning_flag f : is_set f PH_QUEUED_WAITER_SPINNING = Z.testbit f PH_QUEUED_WAITER_SPINNING_SHIFT.
Proof. unfold is_set. change PH_QUEUED_WAITER_SPINNING with (2 ^ 1). change PH_QUEUED_WAITER_SPINNING_SHIFT with 1. rewrite land_bit by done. by destruct (Z.testbit f 1). Qed.

Lemma acquire_blocking_keeps v w σ' oc :
  d = A (acquire_block v w) → (σ', oc) ∈ acquire_blocking σ a v w → keeps σ' (ends oc).
Proof.
  intros Hd Hin. unfold acquire_blocking in Hin. apply list_elem_of_bind in Hin as ([σ1 oc1] & Hin & Hin1).
  pose proof (ok_wait _ _ _ _ _ _ _ _ (this_ok _ _ _ _ _ _ _ _ HI i a d _ Hi Hhand)) as Hw. cbn [Address Doing] in Hw. rewrite Hd, acquiring_role in Hw. cbn [r_phase acquire_phase] in Hw.
  destruct w as [n| | |]; cbn [block_phase wait_ok PhpBlockOnQueuedWaitBlock] in Hw, Hin1.
  - destruct Hw as (b & Hb & Hs & HK). unfold read in Hin1. rewrite Hb in Hin1. in_list Hin1. injection Hin1 as -> ->.
    rewrite spinning_flag in Hin. fold (spinning b) in Hin. destruct (spinning b) eqn:Hsp; cbn [negb] in Hin.
    + assert (∃ w', oc = Continue (acquire_block v w') ∧ σ' = σ ∧ block_phase w' = Early) as (w' & -> & -> & Hw') by
        (destruct (_ =? 0); in_list Hin; injection Hin as -> ->; by eexists).
      cbn [after]; apply keeps_still; rewrite ?Hd, ?acquiring_role, ?acquiring_traversing; try done; [cbn [acquire_phase]; by rewrite Hw'|apply acquiring_share|apply acquiring_not].
    + in_list Hin. injection Hin as -> ->. apply (acquire_done v (block_spin n)); [done| |done]. intros Hl. by apply Hs in Hl.
  - destruct Hw as (b & Hb & Hs & HK). unfold write in Hin1. rewrite Hb in Hin1. in_list Hin1. injection Hin1 as -> ->.
    destruct (spinning b) eqn:Hsp; in_list Hin; injection Hin as -> ->.
    + cbn [after map_outcome]. eapply (wait_keeps _ (KeyedEvent σ) Early (Some Arriving)); rewrite ?Hd, ?acquiring_role, ?acquiring_traversing; try done.
      * intros. apply acquiring_share.
      * intros x Hx. by apply lookup_insert_ne.
      * intros _. exists b, (Flags (reset_spinning b)). split_and!; [done|rewrite lookup_insert_eq; by destruct b|]. intros _. apply (reset_spinning_off b).
      * exists (reset_spinning b). rewrite lookup_insert_eq. split_and!; [done|apply reset_spinning_off|by apply Hs|done].
    + rewrite reset_spinning_id, insert_id by done. assert (with_Blocks σ (Blocks σ) = σ) as -> by (by destruct σ).
      apply (acquire_done v block_reset); [done| |done]. intros Hl. by apply Hs in Hl.
  - destruct Hw as (b & Hb & Hs & Hl & HK). in_list Hin1. injection Hin1 as -> ->. in_list Hin. injection Hin as -> ->.
    cbn [after map_outcome]. eapply (wait_keeps (Blocks σ) _ Arriving (Some Blocked)); rewrite ?Hd, ?acquiring_role, ?acquiring_traversing; try done.
    + intros. apply acquiring_share.
    + intros x Hx. rewrite elem_of_union, elem_of_singleton. naive_solver.
    + intros _. exists b, (Flags b). split_and!; [done|by destruct b|by destruct b].
    + exists b. split_and!; [done|done|]. rewrite elem_of_union, elem_of_singleton. tauto.
  - destruct Hw as (b & Hb & Hs & Hl). destruct (decide (a ∈ KeyedEvent σ)) as [|HK]; [by in_list Hin1|]. in_list Hin1. injection Hin1 as -> ->.
    in_list Hin. injection Hin as -> ->. apply (acquire_done v block_wait); [done|by rewrite Hl|done].
Qed.

(** The push, with what follows it. *)
Lemma acquire_push_keeps v e σ' oc :
  d = A (acquire_try v) → (e = true → is_set v PH_QUEUED_LOCK_OWNED = true) →
  (e = false → is_set v PH_QUEUED_LOCK_WAITERS = true ∨ is_set v PH_QUEUED_LOCK_OWNED = true ∧ PhGetQueuedLockSharedOwners v ≤ 0) →
  (σ', oc) ∈ PhpPushQueuedWaitBlock σ v e a (acquire_pushed PhQueuedLockSpinCount v) (λ newValue, Continue (acquire_try newValue)) →
  keeps σ' (ends oc).
Proof.
  intros Hd He1 He2 Hin. unfold PhpPushQueuedWaitBlock in Hin. destruct (Z.eqb_spec (Value σ) v) as [<-|Hne]; in_list Hin; injection Hin as -> ->.
  2:{ cbn [after]. apply keeps_still; rewrite ?Hd, ?acquiring_role, ?acquiring_traversing; try done; [apply acquiring_share|apply acquiring_not]. }
  rewrite value_owned in He1, He2. pose proof counts as (_ & HC & _). destruct this_unlisted as (_ & _ & _ & Ha); [by rewrite Hd, acquiring_role|].
  assert (r = [] → o = true ∧ (e = false → C = 0)) as Hempty.
  { intros Hr. destruct word_cases as [(_ & _ & _ & _ & Hv)|(? & _)]; [|done]. rewrite Hv, free_waiters, free_owners in He2 by lia.
    destruct e; [split; [by apply He1|done]|]. destruct (He2 eq_refl) as [?|[? ?]]; [done|]. split; [done|lia]. }
  unfold push_optimize, acquire_pushed. destruct word_cases as [(Hr & Ht & Hm & _ & Hv)|(Hr & y & Hy & Hg & Hv)].
  - assert (is_set (Value σ) PH_QUEUED_LOCK_WAITERS = false) as -> by (rewrite Hv; apply free_waiters; lia). cbn [andb then_block after].
    apply push_keeps; rewrite ?Hd, ?acquiring_role, ?acquiring_traversing; try done.
    + cbn [acquire_phase]. by rewrite block_start_early.
    + apply acquiring_share.
    + unfold holds. cbn [Doing]. rewrite acquiring_traversing, bool_decide_true by done. done.
    + congruence.
  - assert (is_set (Value σ) PH_QUEUED_LOCK_WAITERS = true) as -> by (rewrite Hv; by apply word_waiters).
    assert (is_set (Value σ) PH_QUEUED_LOCK_TRAVERSING = t) as -> by (rewrite Hv; by apply word_traversing).
    assert (t = true ∨ t = false) as [Ht|Ht] by (destruct t; auto); rewrite Ht; cbn [negb andb].
    + cbn [then_block after]. apply push_keeps; rewrite ?Hd, ?acquiring_role, ?acquiring_traversing; try done.
      * cbn [acquire_phase]. by rewrite block_start_early.
      * apply acquiring_share.
      * unfold holds. cbn [Doing]. rewrite acquiring_traversing, Ht, andb_false_r. done.
      * intros _. unfold prepares. cbn [Doing]. by rewrite acquiring_traversing.
    + pose proof (this_good _ _ _ _ _ _ _ _ HI i a d Hi) as Hga. pose proof (push_chain e Ha) as HC'. cbv zeta in HC'. rewrite decide_False in HC' by done.
      assert (push_value (Value σ) e a = word a o true true m) as -> by (rewrite Hv; by apply push_value_waiters).
      destruct (optimize_loop_ok _ (r ++ [a]) F a o m HC' (last_snoc _ _) Hga) as (p & Hp & Hok & Hho & Hpr); [apply (owned_multiple _ _ _ _ _ _ _ _ HI)|].
      unfold PhpfOptimizeQueuedLockList. rewrite Hp. cbn [map_outcome after].
      assert (word a o true true m = push_value (Value σ) e a) as -> by (rewrite Hv; symmetry; by apply push_value_waiters).
      apply push_keeps; rewrite ?Hd, ?acquiring_role, ?acquiring_traversing; try done.
      * apply acquiring_share.
      * by rewrite decide_False by done.
      * unfold holds. cbn [Doing]. rewrite acquiring_traversing, Ht, bool_decide_false by done. cbn. by rewrite Hho.
      * intros Hm. unfold prepares. cbn [Doing]. rewrite acquiring_traversing. cbn. by rewrite Hpr.
Qed.

End Acquiring.

Lemma exchange_keeps {P} new old ok k (f : QueuedLock.outcome P → activity) σ' oc :
  (σ', oc) ∈ exchange σ new old ok k →
  (Value σ = old → keeps (with_Value σ (u64 new)) (f ok)) → (Value σ ≠ old → keeps σ (f (k (Value σ)))) → keeps σ' (f oc).
Proof.
  intros Hin Hok Hk. unfold exchange in Hin. destruct (Z.eqb_spec (Value σ) old) as [E0|E0]; in_list Hin; injection Hin as -> ->; auto.
Qed.

(** The value with the owned bit. *)
Lemma owned_value : o = false →
  Z.setbit (Value σ) PH_QUEUED_LOCK_OWNED_SHIFT = Value σ + PH_QUEUED_LOCK_OWNED ∧ u64 (Value σ + PH_QUEUED_LOCK_OWNED) = Value σ + PH_QUEUED_LOCK_OWNED.
Proof.
  intros Ho. unfold PH_QUEUED_LOCK_OWNED. pose proof counts as (_ & HC & _). unfold MAX_THREADS in HC.
  destruct word_cases as [(_ & _ & _ & _ & ->)|(_ & y & _ & Hg & ->)]; rewrite Ho.
  - rewrite free_setbit by lia. unfold free_word, u64. cbn [Z.b2z]. split; [lia|]. apply Z.mod_small. lia.
  - rewrite word_setbit by done. pose proof (queued_word_range y Hg true true t m) as Hr. unfold word, u64 in *. cbn [Z.b2z] in *. split; [lia|]. apply Z.mod_small. lia.
Qed.

Lemma acquire_exclusive_keeps n p σ' oc :
  d = AcquiringExclusive p → (σ', oc) ∈ PhfAcquireQueuedLockExclusive n σ a p →
  keeps σ' (after AcquiringExclusive (λ _, OwnsExclusive) oc).
Proof.
  intros Hd Hin. assert (traversing d = None ∧ role_of d = Role false false false true None → o = false → keeps (with_Value σ (Value σ + PH_QUEUED_LOCK_OWNED)) OwnsExclusive) as Htake.
  { intros [Ht Hr] Ho. apply take_exclusive; [done|done|by eexists]. }
  destruct p as [| |v|v q|v w]; cbn [PhfAcquireQueuedLockExclusive] in Hin.
  - rewrite value_owned in Hin. assert (o = true ∨ o = false) as [Ho|Ho] by (destruct o; auto); rewrite Ho in Hin; in_list Hin; injection Hin as -> ->.
    + by apply keeps_still; rewrite ?Hd.
    + rewrite (proj1 (owned_value Ho)). apply Htake; [by rewrite Hd|done].
  - in_list Hin. injection Hin as -> ->. by apply keeps_still; rewrite ?Hd.
  - destruct (is_set v PH_QUEUED_LOCK_OWNED) eqn:Ho; cbn [negb] in Hin.
    + eapply (acquire_push_keeps n AcquiringExclusive _ (or_introl eq_refl) v true); try done.
    + refine (exchange_keeps _ _ _ _ (after AcquiringExclusive (λ _, OwnsExclusive)) _ _ Hin _ _).
      * intros <-. rewrite value_owned in Ho. rewrite (proj2 (owned_value Ho)). apply Htake; [by rewrite Hd|done].
      * intros _. by apply keeps_still; rewrite ?Hd.
  - by eapply (acquire_optimizing_keeps n AcquiringExclusive _ (or_introl eq_refl)).
  - by eapply (acquire_blocking_keeps AcquiringExclusive _ (or_introl eq_refl)).
Qed.

Lemma acquire_shared_keeps n p σ' oc :
  d = AcquiringShared p → (σ', oc) ∈ PhfAcquireQueuedLockShared n σ a p →
  keeps σ' (after AcquiringShared (λ _, OwnsShared) oc).
Proof.
  intros Hd Hin. pose proof counts as (HE & HC & HL).
  assert (traversing d = None ∧ role_of d = Role false false false true None → r = [] → E = 0 → keeps (with_Value σ (free_word true (C + 1))) OwnsShared) as Htake.
  { intros [Ht Hr] Hre E0. apply take_shared; [done..|by eexists|].
    pose proof (total_others sharing ts i _ ltac:(intros u; unfold sharing; by destruct (r_shared _)) Hi) as Ho.
    change (sharing (Thread a d)) with (Z.b2z (r_shared (role_of d))) in Ho. rewrite Hr in Ho. cbn [r_shared Z.b2z] in Ho.
    pose proof (inv_threads_bound _ _ _ _ _ _ _ HI) as Hb. cbn [threads] in Hb. lia. }
  destruct p as [| |v|v q|v w]; cbn [PhfAcquireQueuedLockShared] in Hin.
  - refine (exchange_keeps _ _ _ _ (after AcquiringShared (λ _, OwnsShared)) _ _ Hin _ _); [|intros _; by apply keeps_still; rewrite ?Hd].
    intros Hv0. destruct word_cases as [(Hr & _ & _ & _ & Hv)|(_ & y & _ & Hg & Hv)]; [|pose proof (queued_word_range y Hg o true t m); lia].
    assert (C = 0 ∧ o = false) as [C0 Ho] by (rewrite Hv0 in Hv; unfold free_word in Hv; destruct o; cbn [Z.b2z] in Hv; split; (done || lia)).
    destruct (free_counts Ho) as (E0 & _ & _). cbn [after]. change (u64 _) with (free_word true (0 + 1)). rewrite <-C0. apply Htake; [by rewrite Hd|done|done].
  - in_list Hin. injection Hin as -> ->. by apply keeps_still; rewrite ?Hd.
  - destruct (negb (is_set v PH_QUEUED_LOCK_WAITERS) && (negb (is_set v PH_QUEUED_LOCK_OWNED) || (0 <? PhGetQueuedLockSharedOwners v))) eqn:Hc.
    + refine (exchange_keeps _ _ _ _ (after AcquiringShared (λ _, OwnsShared)) _ _ Hin _ _); [|intros _; by apply keeps_still; rewrite ?Hd].
      intros <-. apply andb_true_iff in Hc as [Hw Ho]. apply negb_true_iff, not_true_iff_false in Hw. rewrite value_waiters in Hw.
      destruct word_cases as [(Hr & _ & _ & _ & Hv)|(? & _)]; [|done]. rewrite value_owned, Hv, free_owners in Ho by lia.
      assert (E = 0) as E0.
      { apply orb_true_iff in Ho as [Ho|Ho]; [by apply negb_true_iff, free_counts in Ho as (? & _)|].
        destruct (lw_exclusive _ _ _ _ _ _ _ _ _ _ (inv_word _ _ _ _ _ _ _ HI)) as [H1 H2]. cbn [threads] in *. lia. }
      assert (o = true ∨ o = false ∧ C = 0) as Hoc by (assert (o = true ∨ o = false) as [Ho'|Ho'] by (destruct o; auto); [by left|right; split; [done|by apply free_counts]]).
      assert (u64 (Z.lor (u64 (Value σ + PH_QUEUED_LOCK_SHARED_INC)) PH_QUEUED_LOCK_OWNED) = free_word true (C + 1)) as ->.
      { rewrite Hv. unfold MAX_THREADS in HC.
        assert (u64 (free_word o C + PH_QUEUED_LOCK_SHARED_INC) = free_word o (C + 1)) as ->
          by (unfold u64, free_word, PH_QUEUED_LOCK_SHARED_INC; rewrite Z.mod_small; destruct o; cbn [Z.b2z]; lia).
        assert (Z.lor (free_word o (C + 1)) PH_QUEUED_LOCK_OWNED = free_word true (C + 1)) as ->.
        { destruct Hoc as [->|[-> _]]; [|by rewrite <-free_setbit by lia; unfold PH_QUEUED_LOCK_OWNED_SHIFT; rewrite Z.setbit_spec'].
          rewrite <-free_setbit by lia. unfold PH_QUEUED_LOCK_OWNED_SHIFT. rewrite Z.setbit_spec'. change (2 ^ 0) with PH_QUEUED_LOCK_OWNED. by rewrite <-Z.lor_assoc, Z.lor_diag. }
        unfold u64, free_word. cbn [Z.b2z]. apply Z.mod_small. lia. }
      apply Htake; [by rewrite Hd|done|done].
    + eapply (acquire_push_keeps n AcquiringShared _ (or_intror eq_refl) v false); try done. intros _.
      apply andb_false_iff in Hc as [Hc|Hc]; [left; by apply negb_false_iff|right]. apply orb_false_iff in Hc as [Hc1 Hc2].
      split; [by apply negb_false_iff|by apply Z.ltb_ge].
  - by eapply (acquire_optimizing_keeps n AcquiringShared _ (or_intror eq_refl)).
  - by eapply (acquire_blocking_keeps AcquiringShared _ (or_intror eq_refl)).
Qed.

(** A releaser that wakes threads. *)
Lemma waking_keeps {P} (f : traverse → P) (A : P → activity) p σ' oc :
  (∀ p, traversing (A (f p)) = Some p) → (∀ p, role_of (A (f p)) = no_role) → (∀ p r m, share_ok r m (A (f p))) →
  d = A (f p) → (σ', oc) ∈ prod_map id (releasing f) <$> lock_traverse σ p → keeps σ' (after A (λ _, Idle) oc).
Proof.
  intros H1 H2 H3 Hd Hin. apply list_elem_of_fmap in Hin as ([σ1 oc1] & [= -> ->] & Hin).
  assert (traversing d = Some p) as Htrav by (by rewrite Hd).
  destruct (traverse_moves _ _ _ _ _ _ _ _ HI i a d hand Hi Hhand p Htrav _ _ Hin) as [Hf Hk].
  destruct oc1 as [q|b|]; [| |done]; apply Hk; cbn [releasing map_outcome after]; rewrite ?Hd, ?H1, ?H2; done.
Qed.

Lemma release_waiters :
  (Z.land (Value σ) (Z.lor PH_QUEUED_LOCK_WAITERS PH_QUEUED_LOCK_TRAVERSING) =? PH_QUEUED_LOCK_WAITERS) = true ↔
  r ≠ [] ∧ t = false.
Proof.
  pose proof counts as (_ & HC & _). destruct word_cases as [(Hr & Ht & Hm & _ & ->)|(Hr & y & Hy & Hg & ->)].
  - split; [|by intros [? _]]. intros H. exfalso.
    assert (is_set (free_word o C) PH_QUEUED_LOCK_WAITERS = false) as Hw by (apply free_waiters; lia).
    apply Z.eqb_eq in H. unfold is_set in Hw. apply negb_false_iff, Z.eqb_eq in Hw.
    assert (Z.land (Z.land (free_word o C) (Z.lor PH_QUEUED_LOCK_WAITERS PH_QUEUED_LOCK_TRAVERSING)) PH_QUEUED_LOCK_WAITERS = 0) as H0.
    { rewrite <-Z.land_assoc. exact Hw. }
    rewrite H in H0. done.
  - rewrite word_land_waiters_traversing by done. cbn [andb]. split; [intros H; split; [done|by apply negb_true_iff]|by intros [_ ->]].
Qed.

Lemma release_exclusive_keeps p σ' oc :
  d = ReleasingExclusive p → (σ', oc) ∈ PhReleaseQueuedLockExclusive σ p → keeps σ' (after ReleasingExclusive (λ _, Idle) oc).
Proof.
  intros Hd Hin. destruct p as [|v|p]; cbn [PhReleaseQueuedLockExclusive] in Hin.
  - destruct (_ =? PH_QUEUED_LOCK_WAITERS) eqn:Hw in Hin; in_list Hin; injection Hin as -> ->.
    + apply release_waiters in Hw as [Hr Ht]. apply drop_for_wake; rewrite ?Hd; done.
    + apply drop_exclusive; rewrite ?Hd; try done. apply not_true_iff_false in Hw. rewrite release_waiters in Hw.
      destruct (decide (r = [])) as [?|Hr]; [by left|right]. assert (t = true ∨ t = false) as [?|?] by (destruct t; auto); [done|]. by destruct Hw.
  - refine (exchange_keeps _ _ _ _ (after ReleasingExclusive (λ _, Idle)) _ _ Hin _ _).
    + intros Hv. destruct (wake_waiters (λ p, ReleasingExclusive (release_waking p)) v Hd Hv) as (p & Hp & Hk); [done..|].
      rewrite Hp. cbn [releasing map_outcome after]. assert (u64 (u64 (v + PH_QUEUED_LOCK_TRAVERSING)) = u64 (v + PH_QUEUED_LOCK_TRAVERSING)) as -> by (apply Z.mod_mod; lia). done.
    + intros Hv. apply keeps_still; rewrite ?Hd; try done. congruence.
  - by eapply (waking_keeps release_waking ReleasingExclusive).
Qed.

Lemma releasef_loop_keeps : role_of d = Role true false false false None → traversing d = None →
  releasef_loop (Value σ) = Continue (releasef_exchange (Value σ)) ∧ keeps σ (ReleasingfExclusive (releasef_exchange (Value σ))).
Proof.
  intros Hrole Htrav. destruct exclusive_word as (Ho & Hm & HE & HC & HL); [by rewrite Hrole|]. split.
  - unfold releasef_loop. rewrite value_owned, Ho. cbn [andb].
    destruct word_cases as [(Hr & Ht & _ & _ & ->)|(Hr & y & Hy & Hg & ->)]; [|by rewrite word_waiters].
    rewrite HC, free_owners by done. by rewrite orb_true_r.
  - apply keeps_still; try done. intros E0. by rewrite E0 in Hrole.
Qed.

Lemma releasef_exclusive_keeps p σ' oc :
  d = ReleasingfExclusive p → (σ', oc) ∈ PhfReleaseQueuedLockExclusive σ p → keeps σ' (after ReleasingfExclusive (λ _, Idle) oc).
Proof.
  intros Hd Hin. destruct p as [|v|p]; cbn [PhfReleaseQueuedLockExclusive] in Hin.
  - in_list Hin. injection Hin as -> ->. destruct releasef_loop_keeps as [-> Hk]; [by rewrite Hd..|]. done.
  - destruct (Z.land v _ =? _) eqn:Hw; cbn [negb] in Hin; refine (exchange_keeps _ _ _ _ (after ReleasingfExclusive (λ _, Idle)) _ _ Hin _ _).
    + intros <-. apply release_waiters in Hw as [Hr Ht].
      destruct (drop_and_wake (λ p, ReleasingfExclusive (releasef_waking p))) as (p & Hp & Hk); try done; [by rewrite Hd..|].
      rewrite Hp. cbn [releasing map_outcome after]. unfold u64 at 1. unfold u64 at 1. rewrite Z.mod_mod by lia. exact Hk.
    + intros _. destruct releasef_loop_keeps as [-> Hk]; [by rewrite Hd..|]. done.
    + intros <-. apply drop_exclusive; rewrite ?Hd; try done. apply not_true_iff_false in Hw. rewrite release_waiters in Hw.
      destruct (decide (r = [])) as [?|Hr]; [by left|right]. assert (t = true ∨ t = false) as [?|?] by (destruct t; auto); [done|]. by destruct Hw.
    + intros _. destruct releasef_loop_keeps as [-> Hk]; [by rewrite Hd..|]. done.
  - by eapply (waking_keeps releasef_waking ReleasingfExclusive).
Qed.

Lemma this_share : share_ok r m d.
Proof. exact (ok_share _ _ _ _ _ _ _ _ (this_ok _ _ _ _ _ _ _ _ HI i a d _ Hi Hhand)). Qed.

Lemma list_in_use k x : r !! k = Some x → ∃ b, Blocks σ !! x = Some b.
Proof.
  intros Hx. destruct (listed_waiting _ _ _ _ _ _ _ _ HI x) as (_ & _ & b & _ & _ & Hb & _); [|by exists b].
  apply elem_of_app. left. by eapply list_elem_of_lookup_2.
Qed.

Lemma list_not_null x : x ∈ r → x ≠ NULL.
Proof.
  intros Hx ->. destruct (address_good _ _ _ _ _ _ _ _ HI NULL) as [_ H]; [right; right; apply elem_of_app; by left|]. unfold NULL in H. lia.
Qed.

Lemma release_shared_keeps p σ' oc :
  d = ReleasingShared p → (σ', oc) ∈ PhfReleaseQueuedLockShared σ p → keeps σ' (after ReleasingShared (λ _, Idle) oc).
Proof.
  intros Hd Hin. pose proof this_share as Hs. rewrite Hd in Hs. pose proof counts as (HE & HC & HL). unfold MAX_THREADS in HC.
  destruct p as [| |v|v x|v x|v x|v|p]; cbn [PhfReleaseQueuedLockShared share_ok] in Hin, Hs.
  - refine (exchange_keeps _ _ _ _ (after ReleasingShared (λ _, Idle)) _ _ Hin _ _); [|intros _; by apply keeps_still; rewrite ?Hd].
    intros Hv. assert (r = [] ∧ C = 1) as [Hr C1].
    { destruct word_cases as [(Hr & _ & _ & _ & Hval)|(_ & y & _ & Hg & Hval)]; rewrite Hv in Hval; change (Z.lor _ _) with 5 in Hval.
      - split; [done|]. unfold free_word in Hval. destruct o; cbn [Z.b2z] in Hval; lia.
      - destruct Hg as [Hg1 Hg2]. rewrite word_flags in Hval. pose proof (flags_bound o true t m). pose proof (Z.div_mod y 16 ltac:(lia)). lia. }
    pose proof (drop_shared ltac:(by rewrite Hd) ltac:(by rewrite Hd) Hr) as Hk. cbv zeta in Hk. rewrite Hv in Hk. exact Hk.
  - in_list Hin. injection Hin as -> ->. destruct shared_loop_keeps as (p & -> & Hk); [by rewrite Hd..|]. done.
  - refine (exchange_keeps _ _ _ _ (after ReleasingShared (λ _, Idle)) _ _ Hin _ _).
    + intros <-. apply drop_shared; rewrite ?Hd; try done. apply not_true_iff_false in Hs. rewrite value_waiters in Hs. by destruct (decide (r = [])).
    + intros _. destruct shared_loop_keeps as (p & -> & Hk); [by rewrite Hd..|]. done.
  - destruct Hs as [Hm Hx]. destruct (list_elem_of_lookup_1 _ _ Hx) as [k Hk]. destruct (list_in_use k x Hk) as [b Hb].
    unfold read in Hin. rewrite Hb in Hin. in_list Hin. injection Hin as -> ->.
    destruct (inv_multiple _ _ _ _ _ _ _ HI Hm) as [M1 M2 _]. cbn [shared] in *.
    assert (is_Some (r !! O)) as [y Hy] by (apply lookup_lt_is_Some; apply lookup_lt_Some in Hk; lia).
    specialize (M1 x y Hx Hy). rewrite Hb in M1. destruct (Z.eqb_spec (Last b) NULL) as [Hl|Hl]; cbn [negb after].
    + apply keeps_still; rewrite ?Hd; try done. cbn [share_ok]. split; [done|]. destruct k as [|k]; [|by exists k].
      specialize (M2 x Hk). rewrite Hb in M2. injection M2 as M2. exfalso. apply (list_not_null x Hx). congruence.
    + apply keeps_still; rewrite ?Hd; try done. cbn [share_ok]. split; [done|]. destruct M1 as [[=]|[= ->]]; done.
  - destruct Hs as (Hm & k & Hk). destruct (list_in_use (S k) x Hk) as [b Hb].
    unfold read in Hin. rewrite Hb in Hin. in_list Hin. injection Hin as -> ->.
    assert (is_Some (r !! k)) as [y Hy] by (apply lookup_lt_is_Some; apply lookup_lt_Some in Hk; lia).
    pose proof (chain_next _ _ _ (inv_chain _ _ _ _ _ _ _ HI) k y x Hy Hk) as Hn. cbn [shared] in Hn. rewrite Hb in Hn. injection Hn as Hn.
    cbn [after]. apply keeps_still; rewrite ?Hd; try done. cbn [share_ok]. split; [done|]. rewrite Hn. by eapply list_elem_of_lookup_2.
  - destruct Hs as [Hm Hx]. destruct (list_in_use 0%nat x Hx) as [b Hb].
    unfold write in Hin. rewrite Hb in Hin. in_list Hin. injection Hin as -> ->.
    destruct (inv_multiple _ _ _ _ _ _ _ HI Hm) as [_ _ M3]. cbn [shared threads] in *. specialize (M3 x Hx). rewrite Hb in M3. injection M3 as M3.
    destruct shared_word as (_ & _ & _ & HC1); [by rewrite Hd|]. rewrite M3. assert (u32 (C - 1) = C - 1) as -> by (apply u32_small; lia).
    assert ((0 <? C - 1) = (1 <? C)) as -> by lia. pose proof (decrement_keeps x b) as Hdec. rewrite M3 in Hdec.
    assert (u32 (C - 1) = C - 1) as E1 by (apply u32_small; lia). rewrite E1 in Hdec.
    destruct (Z.ltb_spec 1 C); cbn [after]; apply Hdec; rewrite ?Hd; done.
  - destruct clear_shared as (y & Hy & Hg & Hval & Hk1 & Hk2); [by rewrite Hd..|].
    assert (∀ z, z = word y false true true false → u64 z = z) as Hu by (intros z ->; apply Z.mod_small; pose proof (queued_word_range y Hg false true true false); lia).
    assert (t = true ∨ t = false) as [Ht|Ht] by (destruct t; auto).
    + destruct (is_set v PH_QUEUED_LOCK_TRAVERSING) eqn:Hv; refine (exchange_keeps _ _ _ _ (after ReleasingShared (λ _, Idle)) _ _ Hin _ _);
        try (intros _; by apply keeps_still; rewrite ?Hd); intros <-; rewrite Hval, Ht in *; rewrite word_traversing in Hv by done; [|done].
      rewrite word_release_shared by done. rewrite Hu by done. apply Hk1. done.
    + destruct (is_set v PH_QUEUED_LOCK_TRAVERSING) eqn:Hv; refine (exchange_keeps _ _ _ _ (after ReleasingShared (λ _, Idle)) _ _ Hin _ _);
        try (intros _; by apply keeps_still; rewrite ?Hd); intros <-; rewrite Hval, Ht in *; rewrite word_traversing in Hv by done; [done|].
      rewrite word_release_shared, word_lor_traversing by done. rewrite Hu by done.
      destruct (Hk2 eq_refl (λ p, ReleasingShared (shared_waking p))) as (p & -> & Hk); done.
  - by eapply (waking_keeps shared_waking ReleasingShared).
Qed.

(** A call of a function that acquires. *)
Lemma keeps_call d' : d = Idle → role_of d' = Role false false false true None → traversing d' = None → (∀ l n, share_ok l n d') → keeps σ d'.
Proof.
  intros Hd Hrole Ht Hs. destruct not_holding as (Hh & Hh1 & Hp1); [by rewrite Hd|]. exists r, F, hands, o, t, m.
  eapply (move_call _ _ _ _ _ _ _ _ HI i a d hand Hi Hhand _ true); rewrite ?Hd; try done.
  - rewrite Hd in Hh1. rewrite Hh1. unfold holds. cbn [Doing]. by rewrite Ht.
  - intros _. unfold prepares. cbn [Doing]. by rewrite Ht.
  - by rewrite Ht.
Qed.

Lemma try_exclusive_keeps σ' oc :
  d = TryingExclusive → (σ', oc) ∈ PhTryAcquireQueuedLockExclusive σ →
  keeps σ' (after (λ _, TryingExclusive) (λ result : bool, if result then OwnsExclusive else Idle) oc).
Proof.
  intros Hd Hin. unfold PhTryAcquireQueuedLockExclusive in Hin. rewrite value_owned in Hin.
  assert (o = true ∨ o = false) as [Ho|Ho] by (destruct o; auto); rewrite Ho in Hin; in_list Hin; injection Hin as -> ->; cbn [after].
  - by apply keeps_still; rewrite ?Hd.
  - rewrite (proj1 (owned_value Ho)). apply take_exclusive; [done|by rewrite Hd|exists false; by rewrite Hd].
Qed.

Lemma act_keeps n σ' d' : (σ', d') ∈ act n σ a d → keeps σ' d'.
Proof.
  intros Hin. assert (∀ e, d = e → (σ', d') ∈ act n σ a e → keeps σ' d') as H; [|by eapply H]. clear Hin.
  intros e Hd Hin. destruct e as [| | |p|p| |p|p|p|]; cbn [act] in Hin;
    try (apply list_elem_of_fmap in Hin as ([σ1 oc] & [= -> ->] & Hin)).
  - in_list Hin; injection Hin as -> ->; [by eapply keeps_call; rewrite ?Hd..|by apply keeps_still; rewrite ?Hd].
  - in_list Hin; injection Hin as -> ->; by apply keeps_still; rewrite ?Hd.
  - in_list Hin; injection Hin as -> ->; by apply keeps_still; rewrite ?Hd.
  - by eapply acquire_exclusive_keeps.
  - by eapply acquire_shared_keeps.
  - by apply try_exclusive_keeps.
  - by eapply release_exclusive_keeps.
  - by eapply releasef_exclusive_keeps.
  - by eapply release_shared_keeps.
  - by apply elem_of_nil in Hin.
Qed.

End Steps.

Lemma queued_invariant_step n s s' : invariant s → step (next n) s s' → invariant s'.
Proof.
  intros (r & F & hands & o & t & m & HI) Hs. destruct Hs as [i σ ts [a d] σ' t' Hi Hin].
  unfold next in Hin. apply list_elem_of_fmap in Hin as ([σ1 d'] & [= -> ->] & Hin). cbn [Address Doing] in Hin.
  assert (is_Some (hands !! i)) as [hand Hhand] by (apply lookup_lt_is_Some; rewrite (inv_hands _ _ _ _ _ _ _ HI); by eapply lookup_lt_Some).
  by eapply (act_keeps _ _ _ _ _ _ _ _ HI i a d hand Hi Hhand).
Qed.

(** ** The start: threads that do nothing, each with an address for a block *)

Class Addresses (n : nat) (address : nat → Z) : Prop := {
  address_inj i j : (i < n)%nat → (j < n)%nat → address i = address j → i = j;
  address_aligned i : (i < n)%nat → good (address i);
}.

Definition start (address : nat → Z) (n : nat) : system :=
  System PhInitializeQueuedLock ((λ i, Thread (address i) Idle) <$> seq 0 n).

Lemma start_lookup address n i u : threads (start address n) !! i = Some u → u = Thread (address i) Idle ∧ (i < n)%nat.
Proof. cbn. rewrite list_lookup_fmap. intros (k & Hk & ->)%fmap_Some. apply lookup_seq in Hk as [-> ?]. done. Qed.

Lemma start_total address n weight : (∀ a, weight (Thread a Idle) = 0) → total weight (threads (start address n)) = 0.
Proof.
  intros Hw. cbn [start threads]. generalize 0%nat. induction n as [|n IH]; intros k; [done|]. cbn [seq]. rewrite fmap_cons, total_cons, Hw. by rewrite IH.
Qed.

Lemma queued_invariant_start n address `{!Addresses n address} : Z.of_nat n ≤ MAX_THREADS → invariant (start address n).
Proof.
  intros Hn. exists [], 0%nat, (replicate n []), false, false, false.
  assert (concat (replicate n (@nil Z)) = []) as Hc by (generalize n as k; induction k; [done|by cbn]).
  assert (Address <$> threads (start address n) = address <$> seq 0 n) as Ha by (cbn; by rewrite <-list_fmap_compose).
  constructor.
  - rewrite Ha. apply NoDup_fmap_2_strong; [|apply NoDup_seq]. intros i j Hi Hj Heq. rewrite elem_of_seq in Hi, Hj. apply (address_inj (n := n)); [lia|lia|done].
  - rewrite Ha. apply Forall_fmap, Forall_forall. intros i Hi. rewrite elem_of_seq in Hi. apply (address_aligned (n := n)). lia.
  - cbn. by rewrite length_fmap, length_seq.
  - rewrite !(start_total address n) by done. by constructor.
  - constructor; try done.
  - done.
  - cbn [app]. rewrite Hc. constructor.
  - cbn. by rewrite length_replicate, length_fmap, length_seq.
  - intros a [Hx|[Hx|Hx]]; cbn in Hx; [by rewrite lookup_empty in Hx; destruct Hx|by apply elem_of_empty in Hx|].
    rewrite Hc in Hx. by apply elem_of_nil in Hx.
  - intros i u hand [-> _]%start_lookup [-> _]%lookup_replicate. cbn [app]. rewrite Hc. constructor; [|done|done].
    cbn. split_and!; [apply lookup_empty|by intros ?%elem_of_nil|apply not_elem_of_empty].
  - done.
Qed.

Lemma queued_invariant_reachable spins n address `{!Addresses n address} s :
  Z.of_nat n ≤ MAX_THREADS → reachable (next spins) (start address n) s → invariant s.
Proof.
  intros Hn. apply reachable_invariant; [by apply queued_invariant_start|]. intros. by eapply queued_invariant_step.
Qed.
