(* ===== verification/QueuedLockTheorems.v ===== *)
(** The queued lock: what holds in every state that threads using the lock can
    reach, whatever the order in which they run. *)

From S2P Require Import Prelude Concurrency RwLock QueuedLock QueuedLockFacts QueuedLockSteps.

(** A thread has access from the step that acquires the lock, or the release that
    hands it over, up to the one that releases it; a last shared owner that clears
    the word is still one. *)
Definition access_of (t : thread) : access :=
  let r := role_of (Doing t) in
  if r_exclusive r then ExclusiveAccess else if r_shared r || r_clearing r then SharedAccess else NoAccess.

Definition accesses (s : @system state thread) : list access := access_of <$> threads s.

(** ** What the invariant says of the accesses *)

Lemma queued_access_of_exclusive t : access_of t = ExclusiveAccess ↔ exclusive t = 1.
Proof. unfold access_of, exclusive. by destruct (role_of (Doing t)) as [[] [] [] ? ?]. Qed.

Lemma role_single d : role_of d = no_role ∨ r_acquiring (role_of d) = true ∧ r_exclusive (role_of d) = false ∧
    r_shared (role_of d) = false ∧ r_clearing (role_of d) = false ∨
  role_of d = Role true false false false None ∨ role_of d = Role false true false false None ∨ role_of d = Role false false true false None.
Proof. destruct d as [| | | | | |[]|[]|[]|]; cbn; auto 6. Qed.

Lemma queued_access_of_shared t : access_of t = SharedAccess ↔ sharing t + clearing t = 1.
Proof.
  unfold access_of, sharing, clearing. cbv zeta. destruct (role_single (Doing t)) as [->|[(_ & E1 & E2 & E3)|[->|[->| ->]]]]; rewrite ?E1, ?E2, ?E3; by cbn.
Qed.

Lemma queued_exclusive_total ts : 0 < total exclusive ts ↔ ExclusiveAccess ∈ access_of <$> ts.
Proof.
  apply access_total; [|apply queued_access_of_exclusive]. intros t. unfold exclusive. by destruct (r_exclusive _).
Qed.

Lemma queued_shared_total ts : 0 < total sharing ts + total clearing ts ↔ SharedAccess ∈ access_of <$> ts.
Proof.
  rewrite <-total_add. apply access_total; [|apply queued_access_of_shared]. intros t. unfold sharing, clearing.
  destruct (role_single (Doing t)) as [->|[(_ & E1 & E2 & E3)|[->|[->| ->]]]]; rewrite ?E1, ?E2, ?E3; by cbn.
Qed.

Section Reached.
Context (σ : state) (ts : list thread) (r : list Z) (F : nat) (hands : list (list Z)) (o t m : bool).
Hypothesis (HI : inv (System σ ts) r F hands o t m).

Lemma queued_exclusion i j u v : i ≠ j → ts !! i = Some u → ts !! j = Some v → access_of u = ExclusiveAccess → access_of v = NoAccess.
Proof.
  intros Hij Hu Hv Ha. pose proof Ha as Ha'. apply queued_access_of_exclusive in Ha.
  pose proof (lw_exclusive _ _ _ _ _ _ _ _ _ _ (inv_word _ _ _ _ _ _ _ HI)) as [H1 H2]. cbn [threads] in *.
  assert (∀ w, 0 ≤ exclusive w) as Hx by (intros w; unfold exclusive; by destruct (r_exclusive _)).
  pose proof (total_two exclusive ts i j u v Hx Hij Hu Hv) as H3. pose proof (Hx v).
  destruct (access_of v) eqn:Hav; [done| |].
  - assert (SharedAccess ∈ access_of <$> ts) as Hs by (apply list_elem_of_fmap; exists v; split; [done|by eapply list_elem_of_lookup_2]).
    apply queued_shared_total in Hs. lia.
  - apply queued_access_of_exclusive in Hav. lia.
Qed.

Lemma queued_some_access : o = true ↔ ∃ u, u ∈ ts ∧ access_of u ≠ NoAccess.
Proof.
  pose proof (lw_owned _ _ _ _ _ _ _ _ _ _ (inv_word _ _ _ _ _ _ _ HI)) as Ho. cbn [threads] in Ho. rewrite Ho.
  pose proof (counts _ _ _ _ _ _ _ _ HI). pose proof (queued_exclusive_total ts) as Hx. pose proof (queued_shared_total ts) as Hs.
  rewrite !list_elem_of_fmap in Hx, Hs. split.
  - intros Hpos. destruct (decide (0 < total exclusive ts)) as [(u & Hu & ?)%Hx|?]; [exists u; by rewrite <-Hu|].
    assert (0 < total sharing ts + total clearing ts) as (u & Hu & ?)%Hs by lia. exists u. by rewrite <-Hu.
  - intros (u & Hu & Ha). destruct (access_of u) eqn:E; [done|..].
    + assert (0 < total sharing ts + total clearing ts) by (apply Hs; eauto). lia.
    + assert (0 < total exclusive ts) by (apply Hx; eauto). lia.
Qed.

(** ** Progress

    A thread that cannot make a step waits for the release of its key, or for the
    arrival of the thread that it wakes. *)
Definition stuck (u : thread) : Prop :=
  (∃ v, Doing u = AcquiringExclusive (acquire_block v block_wait) ∨ Doing u = AcquiringShared (acquire_block v block_wait)) ∧
  Address u ∈ KeyedEvent σ ∨
  ∃ x y, traversing (Doing u) = Some (wake_release x y) ∧ x ∉ KeyedEvent σ.

Lemma read_some {P} x (k : PH_QUEUED_WAIT_BLOCK → QueuedLock.outcome P) : read σ x k ≠ [].
Proof. unfold read. by case_match. Qed.

Lemma write_some {P} x f (k : PH_QUEUED_WAIT_BLOCK → QueuedLock.outcome P) : write σ x f k ≠ [].
Proof. unfold write. by case_match. Qed.

Lemma exchange_some {P} new old ok (k : Z → QueuedLock.outcome P) : exchange σ new old ok k ≠ [].
Proof. unfold exchange. by case_match. Qed.

Lemma traverse_some p : lock_traverse σ p = [] → ∃ x y, p = wake_release x y ∧ x ∉ KeyedEvent σ.
Proof.
  destruct p; cbn [lock_traverse traverse_step]; try (by intros ?%read_some || by intros ?%write_some || by intros ?%exchange_some || done).
  unfold NtReleaseKeyedEvent. intros H. case_decide; [done|eauto].
Qed.

Lemma block_some a p : PhpBlockOnQueuedWaitBlock σ a p = [] → p = block_wait ∧ a ∈ KeyedEvent σ.
Proof.
  destruct p; cbn [PhpBlockOnQueuedWaitBlock]; try (by intros ?%read_some || by intros ?%write_some || done).
  by case_decide.
Qed.

Lemma blocking_some a v p : acquire_blocking σ a v p = [] → PhpBlockOnQueuedWaitBlock σ a p = [].
Proof.
  unfold acquire_blocking. destruct (PhpBlockOnQueuedWaitBlock σ a p) as [|[σ1 oc] l]; [done|]. cbn. by destruct oc.
Qed.

Lemma queued_stuck_next n u : Doing u ≠ Faulted → next n σ u = [] → stuck u.
Proof.
  destruct u as [a d]. cbn [Doing]. intros Hf H. apply fmap_nil_inv in H. cbn [Address Doing] in H. unfold stuck. cbn [Doing Address].
  destruct d as [| | |p|p| |p|p|p|]; try done; cbn [act] in H; apply fmap_nil_inv in H.
  - destruct p as [| | |v p|v p]; cbn in H.
    + by case_match.
    + done.
    + case_match; [by apply exchange_some in H|]. unfold PhpPushQueuedWaitBlock in H. by case_match.
    + apply fmap_nil_inv, traverse_some in H as (x & y & -> & Hx). right. by exists x, y.
    + apply blocking_some, block_some in H as [-> Ha]. left. eauto.
  - destruct p as [| | |v p|v p]; cbn in H.
    + by apply exchange_some in H.
    + done.
    + case_match; [by apply exchange_some in H|]. unfold PhpPushQueuedWaitBlock in H. by case_match.
    + apply fmap_nil_inv, traverse_some in H as (x & y & -> & Hx). right. by exists x, y.
    + apply blocking_some, block_some in H as [-> Ha]. left. eauto.
  - unfold PhTryAcquireQueuedLockExclusive in H. by case_match.
  - destruct p as [|v|p]; cbn in H; [by case_match|by apply exchange_some in H|].
    apply fmap_nil_inv, traverse_some in H as (x & y & -> & Hx). right. by exists x, y.
  - destruct p as [|v|p]; cbn in H; [done|case_match; by apply exchange_some in H|].
    apply fmap_nil_inv, traverse_some in H as (x & y & -> & Hx). right. by exists x, y.
  - destruct p; cbn in H; try (by apply exchange_some in H || by apply read_some in H || by apply write_some in H || done).
    + case_match; by apply exchange_some in H.
    + apply fmap_nil_inv, traverse_some in H as (x & y & -> & Hx). right. by exists x, y.
Qed.

End Reached.

#[global] Instance queued_idle_dec d : Decision (d = Idle).
Proof. destruct d; first [by left|by right]. Defined.

Lemma not_faulted s i u : invariant s → threads s !! i = Some u → Doing u ≠ Faulted.
Proof.
  intros (r & F & hands & o & t & m & HI) Hu Hd. assert (is_Some (hands !! i)) as [h Hh].
  { apply lookup_lt_is_Some. rewrite (inv_hands _ _ _ _ _ _ _ HI). by eapply lookup_lt_Some. }
  pose proof (ok_share _ _ _ _ _ _ _ _ (inv_threads _ _ _ _ _ _ _ HI i u h Hu Hh)) as Hs. by rewrite Hd in Hs.
Qed.

(** If no thread that does something can make a step, all of them wait for the
    release of their keys. *)
Section Stuck.
Context (σ : state) (ts : list thread) (r : list Z) (F : nat) (hands : list (list Z)) (o t m : bool).
Hypothesis (HI : inv (System σ ts) r F hands o t m).
Hypothesis (Hstuck : ∀ i u, ts !! i = Some u → Doing u = Idle ∨ stuck σ u).

Lemma hand_of i u : ts !! i = Some u → ∃ h, hands !! i = Some h ∧
  thread_ok (Blocks σ) (KeyedEvent σ) r F m (r ++ concat hands) h u.
Proof.
  intros Hu. assert (is_Some (hands !! i)) as [h Hh].
  { apply lookup_lt_is_Some. rewrite (inv_hands _ _ _ _ _ _ _ HI). by eapply lookup_lt_Some. }
  exists h. split; [done|]. exact (inv_threads _ _ _ _ _ _ _ HI i u h Hu Hh).
Qed.

(** The thread that a stuck thread wakes would not be stuck. *)
Lemma stuck_waits i u : ts !! i = Some u → Doing u ≠ Idle →
  (∃ v, Doing u = AcquiringExclusive (acquire_block v block_wait) ∨ Doing u = AcquiringShared (acquire_block v block_wait)) ∧
  Address u ∈ KeyedEvent σ.
Proof.
  intros Hu Hd. destruct (Hstuck i u Hu) as [?|[?|(x & y & Htr & Hx)]]; [done|done|exfalso].
  destruct (hand_of i u Hu) as (h & Hh & Hok). pose proof (ok_hand _ _ _ _ _ _ _ _ Hok) as Hhand. rewrite Htr in Hhand.
  destruct Hhand as (rest & -> & _ & _ & Hsp).
  assert (x ∈ r ++ concat hands) as Hl.
  { apply elem_of_app. right. apply list_elem_of_In, in_concat. exists (x :: rest).
    rewrite <-!list_elem_of_In. split; [by eapply list_elem_of_lookup_2|by left]. }
  destruct (listed_waiting _ _ _ _ _ _ _ _ HI x Hl) as (j & w & b & Hw & Ha & Hb & Hph). rewrite Hb in Hsp. injection Hsp as Hsp.
  destruct (r_phase (role_of (Doing w))) as [[]|] eqn:E; [destruct Hph; congruence|..|done].
  - destruct (Hstuck j w Hw) as [Hdw|[[[v [Hdw|Hdw]] _]|(x' & y' & Htw & _)]]; try (by rewrite Hdw in E).
    destruct (Doing w) as [| | |[]|[]| |[]|[]|[]|]; done.
  - by destruct Hph.
Qed.

Lemma stuck_idle : ∀ i u, ts !! i = Some u → Doing u = Idle.
Proof.
  assert (∀ i u, ts !! i = Some u → Doing u = Idle ∨
    r_phase (role_of (Doing u)) = Some Blocked ∧ traversing (Doing u) = None ∧ Address u ∈ KeyedEvent σ) as Hwait.
  { intros i u Hu. destruct (decide (Doing u = Idle)) as [?|Hd]; [by left|right].
    destruct (stuck_waits i u Hu Hd) as [[v [-> | ->]] HK]; done. }
  assert (∀ w : thread → Z, (∀ u, Doing u = Idle ∨ r_phase (role_of (Doing u)) = Some Blocked ∧ traversing (Doing u) = None → w u = 0) →
    total w ts = 0) as Hzero.
  { intros w Hw. assert (∀ u, u ∈ ts → w u = 0) as H0.
    { intros u [i Hu]%list_elem_of_lookup_1. apply Hw. destruct (Hwait i u Hu) as [?|(? & ? & _)]; auto. }
    clear -H0. induction ts as [|u l IH]; [done|]. rewrite total_cons, H0 by apply list_elem_of_here.
    rewrite IH; [done|]. intros v Hv. apply H0. by right. }
  assert (concat hands = []) as Hc.
  { destruct (concat hands) as [|x l] eqn:E; [done|exfalso]. assert (x ∈ concat hands) as Hx by (rewrite E; by left).
    apply list_elem_of_In, in_concat in Hx as (h & Hh & Hx). apply list_elem_of_In, list_elem_of_lookup in Hh as [j Hj].
    assert (is_Some (ts !! j)) as [u Hu].
    { apply lookup_lt_is_Some. pose proof (inv_hands _ _ _ _ _ _ _ HI) as Hl. cbn [threads] in Hl. rewrite <-Hl. by eapply lookup_lt_Some. }
    pose proof (ok_hand _ _ _ _ _ _ _ _ (inv_threads _ _ _ _ _ _ _ HI j u h Hu Hj)) as Hok.
    assert (traversing (Doing u) = None) as Htr by (destruct (Hwait j u Hu) as [->|(_ & ? & _)]; done).
    rewrite Htr in Hok. cbn in Hok. by subst h. }
  destruct (inv_word _ _ _ _ _ _ _ HI) as [_ _ Hown _ _ _ _ Hh _]. cbn [threads shared] in *.
  rewrite (Hzero exclusive), (Hzero sharing), (Hzero clearing) in Hown
    by (intros u [Hd|[Hd _]]; unfold exclusive, sharing, clearing; [by rewrite Hd|by destruct (Doing u) as [| | |[]|[]| |[]|[]|[]|]]).
  rewrite (Hzero holds) in Hh by (intros u [Hd|[_ Hd]]; unfold holds; by rewrite Hd).
  intros i u Hu. destruct (Hwait i u Hu) as [?|(Hp & _ & HK)]; [done|exfalso].
  destruct (hand_of i u Hu) as (h & Hhu & Hok). pose proof (ok_wait _ _ _ _ _ _ _ _ Hok) as Hw. rewrite Hp in Hw.
  destruct Hw as (b & _ & _ & [_ Hl]). specialize (Hl HK). rewrite Hc, app_nil_r in Hl.
  destruct (inv_wake _ _ _ _ _ _ _ HI) as (j & w & Hj & [[Hacq Hn]|Hrel]).
  - intros ->. by apply elem_of_nil in Hl.
  - assert (o = true ∨ o = false) as [Ho|Ho] by (destruct o; auto); [|done]. apply Hown in Ho. lia.
  - assert (t = true ∨ t = false) as [Ht|Ht] by (destruct t; auto); [|done]. by rewrite Ht in Hh.
  - cbn [threads] in Hj. destruct (Hwait j w Hj) as [Hd|(Hpw & _ & HKw)]; [by rewrite Hd in Hacq|].
    destruct (hand_of j w Hj) as (hw & _ & Hokw). pose proof (ok_wait _ _ _ _ _ _ _ _ Hokw) as Hww. rewrite Hpw in Hww.
    destruct Hww as (bw & _ & _ & [_ Hlw]). specialize (Hlw HKw). by rewrite Hc, app_nil_r in Hlw.
  - cbn [threads] in Hj. destruct (Hwait j w Hj) as [Hd|(Hpw & _ & _)]; rewrite Hrel in *; done.
Qed.

End Stuck.

Lemma progress n s i u : invariant s → threads s !! i = Some u → Doing u ≠ Idle →
  ∃ j w, threads s !! j = Some w ∧ Doing w ≠ Idle ∧ next n (shared s) w ≠ [].
Proof.
  intros HI Hu Hd. destruct s as [σ ts]. cbn [shared threads] in *.
  destruct (decide (Exists (λ w, Doing w ≠ Idle ∧ next n σ w ≠ []) ts)) as [(w & [j Hj]%list_elem_of_lookup_1 & Hw)%Exists_exists|Hn].
  { exists j, w. by destruct Hw. }
  exfalso. apply Hd. pose proof HI as (r & F & hands & o & t & m & HI').
  eapply (stuck_idle _ _ _ _ _ _ _ _ HI'); [|done]. intros j w Hj. destruct (decide (Doing w = Idle)) as [?|Hdw]; [by left|right].
  eapply (queued_stuck_next _ n); [by eapply (not_faulted (System σ ts))|]. destruct (next n σ w) eqn:E; [done|].
  destruct Hn. apply Exists_exists. exists w. split; [by eapply list_elem_of_lookup_2|]. by rewrite E.
Qed.

(** ** Steps of a reader-writer lock *)

Lemma act_access n σ a d σ' d' : (σ', d') ∈ act n σ a d →
  access_of (Thread a d') = access_of (Thread a d) ∨ access_of (Thread a d) = NoAccess ∨ access_of (Thread a d') = NoAccess.
Proof.
  intros Hin. destruct d as [| | |p|p| |p|p|p|]; try (by right; left); cbn [act] in Hin;
    try (apply list_elem_of_fmap in Hin as ([σ1 oc] & [= -> ->] & Hin)).
  - in_list Hin; injection Hin as -> ->; by left.
  - in_list Hin; injection Hin as -> ->; by left.
  - destruct p; try (by right; left). destruct oc as [[]| |]; cbn; auto.
  - destruct oc as [[]| |]; cbn; auto; destruct p; auto; try (by right; left).
  - destruct p; try (by right; left); destruct oc as [[]| |]; cbn; auto.
Qed.

(** ** Properties *)

(** Addresses in a row, one every sixteen bytes. *)
Definition row (i : nat) : Z := 16 * (Z.of_nat i + 1).

#[global] Instance row_addresses n : Z.of_nat n ≤ MAX_THREADS → Addresses n row.
Proof.
  unfold MAX_THREADS, row. intros Hn. split; [lia|]. intros i Hi. split; [|lia]. rewrite Z.mul_comm. apply Z.mod_mul. lia.
Qed.

(** C12. The queued lock excludes. For up to 2^32 - 1 threads with wait blocks at any
    addresses aligned to 16 bytes, whatever the number of spins, in every state that
    calls of the lock's functions can lead to: no thread accesses a wait block that is
    not in use, although the blocks are on the stacks of threads that return, and no
    assertion of the code fails; if a thread has exclusive access no other thread has
    any; and the owned bit is set exactly when some thread has access. *)
Theorem queued_lock_exclusion spins n address s :
  Z.of_nat n ≤ MAX_THREADS → Addresses n address →
  reachable (next spins) (start address n) s →
  (∀ i u, threads s !! i = Some u → Doing u ≠ Faulted) ∧
  (∀ i j u v, i ≠ j → threads s !! i = Some u → threads s !! j = Some v →
     access_of u = ExclusiveAccess → access_of v = NoAccess) ∧
  (is_set (Value (shared s)) PH_QUEUED_LOCK_OWNED = true ↔ ∃ u, u ∈ threads s ∧ access_of u ≠ NoAccess).
Proof.
  intros Hn Ha Hs. apply queued_invariant_reachable in Hs as HI; [|done..]. split; [intros i u; by apply not_faulted|].
  destruct s as [σ ts]. destruct HI as (r & F & hands & o & t & m & HI). cbn [shared threads]. split; [by eapply queued_exclusion|].
  rewrite (value_owned _ _ _ _ _ _ _ _ HI). by eapply queued_some_access.
Qed.

(** Two threads that share, one that waits for exclusive access, and one that has
    to wait to share and walks the list of wait blocks. *)
Definition sharing_schedule : list (nat * nat) :=
  [(0, 1); (0, 0); (1, 1); (1, 0); (1, 0); (1, 0); (2, 0); (2, 0); (2, 0); (2, 0); (2, 0); (3, 1); (3, 0); (3, 0); (3, 0)]%nat.

Lemma queued_lock_exclusion_witness : ∃ s, run (next 4000) sharing_schedule (start row 4) = Some s ∧
  (is_set (Value (shared s)) PH_QUEUED_LOCK_OWNED = true ↔ ∃ u, u ∈ threads s ∧ access_of u ≠ NoAccess).
Proof.
  destruct (run (next 4000) sharing_schedule (start row 4)) as [s|] eqn:E; [|by vm_compute in E].
  exists s. split; [done|]. apply (queued_lock_exclusion 4000 4 row s); [by vm_compute|by apply row_addresses|].
  by eapply run_steps.
Defined.

(** C14. The queued lock implements a reader-writer lock: from every reachable state,
    each further atomic step leaves the accesses of the threads alone, lets a thread in
    for shared access when no thread has exclusive access, lets one in for exclusive
    access when no thread has any, or ends one thread's access. *)
Theorem queued_lock_refines_rw_lock spins n address s s' :
  Z.of_nat n ≤ MAX_THREADS → Addresses n address →
  reachable (next spins) (start address n) s → step (next spins) s s' →
  rw_step (accesses s) (accesses s').
Proof.
  intros Hn Ha Hr Hs. apply queued_invariant_reachable in Hr as HI; [|done..]. apply queued_invariant_step in Hs as HI'; [|done].
  destruct HI as (r & F & hands & o & t & m & HI), HI' as (r' & F' & hands' & o' & t' & m' & HI').
  destruct Hs as [i σ ts [a d] σ' t1 Hi Hin]. unfold next in Hin. apply list_elem_of_fmap in Hin as ([σ1 d'] & [= -> ->] & Hin).
  cbn [Address Doing] in *. unfold accesses. cbn [threads].
  assert (<[i := Thread a d']> ts !! i = Some (Thread a d')) as Hi' by (apply list_lookup_insert_eq; by eapply lookup_lt_Some).
  assert (∀ j u, j ≠ i → ts !! j = Some u → <[i := Thread a d']> ts !! j = Some u) as Hother by (intros; by rewrite list_lookup_insert_ne).
  apply rw_step_insert with (t := Thread a d); [done|by eapply act_access|..].
  - intros Hsh j u Hj Hu Hux. pose proof (queued_exclusion _ _ _ _ _ _ _ _ HI' j i u _ Hj (Hother j u Hj Hu) Hi' Hux). congruence.
  - intros Hx j u Hj Hu. by eapply (queued_exclusion _ _ _ _ _ _ _ _ HI' i j); eauto.
Qed.

Lemma queued_lock_refines_rw_lock_witness : ∃ s s', run (next 0) [(0, 0)]%nat (start row 2) = Some s ∧
  run (next 0) [(0, 0); (0, 0)]%nat (start row 2) = Some s' ∧ rw_step (accesses s) (accesses s') ∧
  accesses s' = [ExclusiveAccess; NoAccess].
Proof.
  eexists _, _. split_and!; [by vm_compute|by vm_compute| |by vm_compute].
  apply (queued_lock_refines_rw_lock 0 2 row); [by vm_compute|by apply row_addresses|..].
  - by apply (run_steps _ [(0, 0)]%nat).
  - by apply (step_of_step _ 0%nat 0%nat).
Defined.

(** C13. No wakeup is lost and there is no deadlock: from every reachable state in
    which some thread is acquiring, holding or releasing the lock, some such thread
    can make a step. So it cannot happen that all of them wait for a release of the
    keyed event that nobody is going to make, or for the arrival of a thread at it. *)
Theorem queued_lock_progress spins n address s i u :
  Z.of_nat n ≤ MAX_THREADS → Addresses n address →
  reachable (next spins) (start address n) s →
  threads s !! i = Some u → Doing u ≠ Idle →
  ∃ j w, threads s !! j = Some w ∧ Doing w ≠ Idle ∧ next spins (shared s) w ≠ [].
Proof. intros Hn Ha Hs. apply progress. by eapply queued_invariant_reachable. Qed.

(** A thread has exclusive access and another waits for it at the keyed event. *)
Definition waiting_schedule : list (nat * nat) :=
  [(0, 0); (0, 0); (1, 0); (1, 0); (1, 0); (1, 0); (1, 0); (1, 0)]%nat.

Lemma queued_lock_progress_witness : ∃ s, run (next 0) waiting_schedule (start row 2) = Some s ∧
  Doing <$> threads s !! 1%nat = Some (AcquiringExclusive (acquire_block 1 block_wait)) ∧ Value (shared s) = 16 + 16 + 3 ∧
  (∃ j w, threads s !! j = Some w ∧ Doing w ≠ Idle ∧ next 0 (shared s) w ≠ []).
Proof.
  destruct (run (next 0) waiting_schedule (start row 2)) as [s|] eqn:E; [|by vm_compute in E].
  exists s. split; [done|]. vm_compute in E. injection E as <-. split_and!; [done..|].
  eapply (queued_lock_progress 0 2 row _ 1); [by vm_compute|by apply row_addresses| |done|done].
  by apply (run_steps _ waiting_schedule).
Defined.
