(* ===== verification/WakeEvent.v ===== *)
(** Wake events (src/phlib/queuedlock.c): a thread queues a wait block to an event,
    then waits for it or cancels the wait; setting the event unblocks all queued
    blocks. The word, the wait blocks and the keyed event are those of the queued
    lock; this file has the operations. *)

From S2P Require Import Prelude Concurrency QueuedLock.

Definition with_Next (b : PH_QUEUED_WAIT_BLOCK) v := WaitBlock v (Previous b) (Last b) (SharedOwners b) (Flags b).

Definition PhInitializeWakeEvent : state := PhInitializeQueuedLock.

(** ** The operations *)

Section Functions.
Context (PhQueuedLockSpinCount : Z).

(** What a wait block holds before it is queued: the functions set two of its fields. *)
Context (uninitialized : PH_QUEUED_WAIT_BLOCK).

Inductive queue := queue_read | queue_exchange (value : Z).

Definition PhfQueueWakeEvent (σ : state) (wb : Z) (p : queue) : list (state * outcome queue) :=
  match p with
  | queue_read => [(σ, Continue (queue_exchange (Value σ)))]
  | queue_exchange value =>
      if Value σ =? value then
        [(State wb (<[wb := with_Next (with_Flags uninitialized PH_QUEUED_WAITER_SPINNING) value]> (Blocks σ)) (KeyedEvent σ), Return true)]
      else [(σ, Continue (queue_exchange (Value σ)))]
  end.

(** [PhpBlockOnQueuedWaitBlock] when a wait may have a timeout: a thread that has
    arrived at its key may go away, which is not a success. *)
Definition PhpBlockOnQueuedWaitBlock_timeout (Timeout : bool) (σ : state) (wb : Z) (p : block) : list (state * outcome block) :=
  PhpBlockOnQueuedWaitBlock σ wb p ++
  match p with
  | block_wait =>
      if Timeout && bool_decide (wb ∈ KeyedEvent σ) then [(with_KeyedEvent σ (KeyedEvent σ ∖ {[wb]}), Return false)] else []
  | _ => []
  end.

(** [PhSetWakeEvent], inline, and [PhfSetWakeEvent]. *)
Inductive set :=
  | set_check
  | set_exchange
  | set_next (waitBlock : Z)
  | set_reset (waitBlock nextWaitBlock : Z)
  | set_release (waitBlock nextWaitBlock : Z)
  | set_test
  | set_block (p : block).

(** The head of the loop that unblocks, and what follows it; [WaitBlock] is NULL or
    the block of a wait that is cancelled. *)
Definition set_loop (WaitBlock waitBlock : Z) : outcome set :=
  if negb (waitBlock =? NULL) then Continue (set_next waitBlock)
  else if negb (WaitBlock =? NULL) then Continue set_test
  else Return true.

Definition PhSetWakeEvent (σ : state) (WaitBlock : Z) (p : set) : list (state * outcome set) :=
  match p with
  | set_check =>
      if negb (Value σ =? NULL) || negb (WaitBlock =? NULL) then [(σ, Continue set_exchange)] else [(σ, Return true)]
  | set_exchange => [(with_Value σ NULL, set_loop WaitBlock (Value σ))]
  | set_next waitBlock => read σ waitBlock (λ b, Continue (set_reset waitBlock (Next b)))
  | set_reset waitBlock nextWaitBlock =>
      write σ waitBlock reset_spinning
        (λ b, if spinning b then set_loop WaitBlock nextWaitBlock else Continue (set_release waitBlock nextWaitBlock))
  | set_release waitBlock nextWaitBlock => NtReleaseKeyedEvent σ waitBlock (set_loop WaitBlock nextWaitBlock)
  | set_test =>
      read σ WaitBlock (λ b,
        if is_set (Flags b) PH_QUEUED_WAITER_SPINNING then Continue (set_block (block_start PhQueuedLockSpinCount false))
        else Return true)
  | set_block p => prod_map id (map_outcome set_block Return) <$> PhpBlockOnQueuedWaitBlock σ WaitBlock p
  end.

Inductive wait := wait_block (p : block) | wait_set (p : set).

Definition PhfWaitForWakeEvent (Timeout : bool) (σ : state) (wb : Z) (p : wait) : list (state * outcome wait) :=
  match p with
  | wait_block p =>
      prod_map id (map_outcome wait_block (λ success : bool, if success then Return true else Continue (wait_set set_check))) <$>
      PhpBlockOnQueuedWaitBlock_timeout Timeout σ wb p
  | wait_set p => prod_map id (map_outcome wait_set (λ _, Return false)) <$> PhSetWakeEvent σ wb p
  end.

(** ** Threads

    A thread that has queued its block waits for the event or cancels the wait; then
    its block is no longer in use. Any thread that does nothing may set the event. *)
Inductive activity :=
  | Idle
  | Queueing (p : queue)
  | Queued
  | Waiting (Timeout : bool) (p : wait)
  | Cancelling (p : set)
  | Setting (p : set)
  | Faulted.

Record thread := Thread { Address : Z; Doing : activity }.

(** Whether waits may have timeouts. *)
Context (timeouts : bool).

(** The outcome of a call; [leaves] is whether the block goes out of use with it. *)
Definition call {P} (wb : Z) (leaves : bool) (calling : P → activity) (returned : activity) (r : state * outcome P) : state * activity :=
  match r with
  | (σ, Continue p) => (σ, calling p)
  | (σ, Return _) => (if leaves then with_Blocks σ (delete wb (Blocks σ)) else σ, returned)
  | (σ, Fault) => (σ, Faulted)
  end.

Definition act (σ : state) (wb : Z) (d : activity) : list (state * activity) :=
  match d with
  | Idle => [(σ, Queueing queue_read); (σ, Setting set_check)]
  | Queueing p => call wb false Queueing Queued <$> PhfQueueWakeEvent σ wb p
  | Queued =>
      [(σ, Waiting false (wait_block (block_start PhQueuedLockSpinCount false)));
       (σ, Waiting false (wait_block (block_start PhQueuedLockSpinCount true)));
       (σ, Cancelling set_check)] ++
      (if timeouts then [(σ, Waiting true (wait_block (block_start PhQueuedLockSpinCount false)));
                         (σ, Waiting true (wait_block (block_start PhQueuedLockSpinCount true)))] else [])
  | Waiting Timeout p => call wb true (Waiting Timeout) Idle <$> PhfWaitForWakeEvent Timeout σ wb p
  | Cancelling p => call wb true Cancelling Idle <$> PhSetWakeEvent σ wb p
  | Setting p => call wb false Setting Idle <$> PhSetWakeEvent σ NULL p
  | Faulted => []
  end.

Definition next (σ : state) (t : thread) : list (state * thread) :=
  prod_map id (Thread (Address t)) <$> act σ (Address t) (Doing t).

End Functions.
