(* ===== verification/WakeEventTheorems.v ===== *)
(** Wake events: the list of queued blocks in memory, the invariant of a system of
    threads, and what it says of the waits. *)

From S2P Require Import Prelude Concurrency RwLock QueuedLock QueuedLockFacts QueuedLockSteps QueuedLockTheorems WakeEvent.

(** ** The list in memory

    Blocks that follow one another through their pointers, the newest first. *)
Fixpoint nlinked (B : gmap Z PH_QUEUED_WAIT_BLOCK) (l : list Z) : Prop :=
  match l with
  | [] => True
  | x :: l => Next <$> B !! x = Some (default NULL (head l)) ∧ nlinked B l
  end.

(** What the others must not change about a block that is on a list. *)
Definition nagree (B B' : gmap Z PH_QUEUED_WAIT_BLOCK) (x : Z) : Prop :=
  Next <$> B' !! x = Next <$> B !! x ∧ (spinning <$> B !! x = Some false → spinning <$> B' !! x = Some false).

Lemma nagree_same B B' x : B' !! x = B !! x → nagree B B' x.
Proof. intros E. unfold nagree. by rewrite E. Qed.

Lemma nagree_reset B x b : B !! x = Some b → ∀ y, nagree B (<[x := reset_spinning b]> B) y.
Proof.
  intros Hb y. destruct (decide (y = x)) as [->|]; [|apply nagree_same; by rewrite lookup_insert_ne].
  unfold nagree. rewrite lookup_insert_eq, Hb. split; [done|]. intros _. apply (f_equal Some), reset_spinning_off.
Qed.

Lemma nlinked_frame B B' l : (∀ x, x ∈ l → nagree B B' x) → nlinked B l → nlinked B' l.
Proof.
  induction l as [|x l IH]; [done|]. intros Ha [Hx Hl]. split.
  - destruct (Ha x) as [-> _]; [by left|done].
  - apply IH; [|done]. intros y Hy. apply Ha. by right.
Qed.

(** ** What a thread knows *)

Definition set_phase (p : set) : phase := match p with set_block p => block_phase p | _ => Early end.

(** How its block waits, if it is in use. *)
Definition phase_of (d : activity) : option phase :=
  match d with
  | Queued => Some Early
  | Waiting _ (wait_block p) => Some (block_phase p)
  | Cancelling p => Some (set_phase p)
  | _ => None
  end.

Definition setting (d : activity) : option set :=
  match d with Cancelling p | Setting p => Some p | _ => None end.

(** The blocks that it has taken off the event and unblocks. *)
Definition hand_ok (B : gmap Z PH_QUEUED_WAIT_BLOCK) (hand : list Z) (p : option set) : Prop :=
  match p with
  | Some (set_next x) => ∃ rest, hand = x :: rest ∧ nlinked B hand
  | Some (set_reset x y) => ∃ rest, hand = x :: rest ∧ y = default NULL (head rest) ∧ nlinked B rest
  | Some (set_release x y) =>
      ∃ rest, hand = x :: rest ∧ y = default NULL (head rest) ∧ nlinked B rest ∧ spinning <$> B !! x = Some false
  | _ => hand = []
  end.

(** Without timeouts. *)
Definition plain (d : activity) : Prop :=
  match d with
  | Waiting Timeout p => Timeout = false ∧ ∃ q, p = wait_block q
  | Setting set_test | Setting (set_block _) | Faulted => False
  | _ => True
  end.

Record thread_ok (B : gmap Z PH_QUEUED_WAIT_BLOCK) (K : gset Z) (listed hand : list Z) (t : thread) : Prop := {
  ok_wait : wait_ok B K listed (Address t) (phase_of (Doing t));
  ok_hand : hand_ok B hand (setting (Doing t));
  ok_plain : plain (Doing t);
}.

Lemma hand_frame B B' hand p : (∀ x, x ∈ hand → nagree B B' x) → hand_ok B hand p → hand_ok B' hand p.
Proof.
  intros Ha Hh. destruct p as [[]|]; cbn in *; try done.
  - destruct Hh as (rest & -> & Hl). exists rest. split; [done|]. eapply (nlinked_frame B); [done|done].
  - destruct Hh as (rest & -> & Hy & Hl). exists rest. split_and!; [done..|]. eapply nlinked_frame; [|done]. intros z Hz. apply Ha. by right.
  - destruct Hh as (rest & -> & Hy & Hl & Hs). exists rest. split_and!; [done..| |].
    + eapply nlinked_frame; [|done]. intros z Hz. apply Ha. by right.
    + apply Ha; [by left|done].
Qed.

(** ** The invariant *)

Record inv (s : @system state thread) (l : list Z) (hands : list (list Z)) : Prop := {
  inv_addresses : NoDup (Address <$> threads s);
  inv_good : Forall good (Address <$> threads s);
  inv_value : Value (shared s) = default NULL (head l);
  inv_list : nlinked (Blocks (shared s)) l;
  inv_listed : NoDup (l ++ concat hands);
  inv_hands : length hands = length (threads s);
  inv_owner a : is_Some (Blocks (shared s) !! a) ∨ a ∈ KeyedEvent (shared s) ∨ a ∈ l ++ concat hands →
    ∃ i u, threads s !! i = Some u ∧ Address u = a;
  inv_threads i u hand : threads s !! i = Some u → hands !! i = Some hand →
    thread_ok (Blocks (shared s)) (KeyedEvent (shared s)) (l ++ concat hands) hand u;
}.

Definition invariant (s : @system state thread) : Prop := ∃ l hands, inv s l hands.

Lemma state_eta σ : σ = State (Value σ) (Blocks σ) (KeyedEvent σ).
Proof. by destruct σ. Qed.

Section Moves.
Context (σ : state) (ts : list thread) (l : list Z) (hands : list (list Z)).
Hypothesis (HI : inv (System σ ts) l hands).
Context (i : nat) (a : Z) (d : activity) (hand : list Z).
Hypothesis (Hi : ts !! i = Some (Thread a d)) (Hhand : hands !! i = Some hand).

Local Abbreviation listed := (l ++ concat hands).

Lemma wake_this_ok : thread_ok (Blocks σ) (KeyedEvent σ) listed hand (Thread a d).
Proof. exact (inv_threads _ _ _ HI i _ _ Hi Hhand). Qed.

Lemma wake_other_address j u : j ≠ i → ts !! j = Some u → Address u ≠ a.
Proof.
  intros Hj Hu Ha. apply Hj. eapply (proj1 (NoDup_alt _) (inv_addresses _ _ _ HI) j i a).
  - cbn [threads]. rewrite list_lookup_fmap, Hu. cbn. by rewrite Ha.
  - cbn [threads]. by rewrite list_lookup_fmap, Hi.
Qed.

Lemma wake_address_good x : x = a ∨ x ∈ listed → good x.
Proof.
  intros Hx. assert (∃ j u, ts !! j = Some u ∧ Address u = x) as (j & u & Hj & <-).
  { destruct Hx as [->|Hx]; [by exists i, (Thread a d)|]. apply (inv_owner _ _ _ HI). auto. }
  pose proof (inv_good _ _ _ HI) as Hg. rewrite Forall_forall in Hg. apply Hg, list_elem_of_fmap. exists u.
  split; [done|]. by eapply list_elem_of_lookup_2.
Qed.

Lemma not_null x : x = a ∨ x ∈ listed → x ≠ NULL.
Proof. intros [_ Hg]%wake_address_good. unfold NULL. lia. Qed.

(** A block that is listed is in use by a thread that waits. *)
Lemma wake_listed_waiting x : x ∈ listed → ∃ j u b, ts !! j = Some u ∧ Address u = x ∧ Blocks σ !! x = Some b ∧
  match phase_of (Doing u) with
  | Some Early => spinning b = true ∧ x ∉ KeyedEvent σ
  | Some Arriving => spinning b = false ∧ x ∉ KeyedEvent σ
  | Some Blocked => spinning b = false ∧ x ∈ KeyedEvent σ
  | None => False
  end.
Proof.
  intros Hx. destruct (inv_owner _ _ _ HI x) as (j & u & Hj & Ha); [by right; right|]. cbn [threads] in Hj.
  assert (is_Some (hands !! j)) as [h Hh] by (apply lookup_lt_is_Some_2; rewrite (inv_hands _ _ _ HI); by eapply lookup_lt_Some).
  pose proof (ok_wait _ _ _ _ _ (inv_threads _ _ _ HI j u h Hj Hh)) as Hw. cbn [shared] in Hw. rewrite Ha in Hw.
  destruct (phase_of (Doing u)) as [[]|] eqn:Hph; cbn [wait_ok] in Hw; [..|by destruct Hw as (_ & ? & _)];
    destruct Hw as (b & Hb & Hw); exists j, u, b; rewrite Hph; (split; [done|split; [done|split; [done|tauto]]]).
Qed.

Lemma wake_hand_listed x : x ∈ hand → x ∈ listed.
Proof.
  intros Hx. apply elem_of_app. right. apply list_elem_of_In, in_concat. exists hand. rewrite <-!list_elem_of_In.
  split; [by eapply list_elem_of_lookup_2|done].
Qed.

(** The thread's step leads to the invariant. *)
Definition keeps (σ' : state) (d' : activity) : Prop := invariant (System σ' (<[i := Thread a d']> ts)).

Lemma keeps_move v' B' K' d' l' hand' :
  let listed' := l' ++ concat (<[i := hand']> hands) in
  v' = default NULL (head l') → nlinked B' l' → NoDup listed' →
  (∀ x, x ∈ listed' → x = a ∨ x ∈ listed) → (∀ x, is_Some (B' !! x) → x = a ∨ is_Some (Blocks σ !! x)) →
  (∀ x, x ∈ K' → x = a ∨ x ∈ KeyedEvent σ) →
  (∀ y w, y ≠ a → wait_ok (Blocks σ) (KeyedEvent σ) listed y w → wait_ok B' K' listed' y w) →
  (∀ x, x ∈ listed → nagree (Blocks σ) B' x) →
  thread_ok B' K' listed' hand' (Thread a d') →
  keeps (State v' B' K') d'.
Proof.
  intros listed' Hv Hl HN HL HB HK Hw Ha Hok. exists l', (<[i := hand']> hands).
  assert (Address <$> <[i := Thread a d']> ts = Address <$> ts) as Haddr.
  { rewrite list_fmap_insert. apply list_insert_id. by rewrite list_lookup_fmap, Hi. }
  destruct HI as [H1 H2 _ _ _ H4 H5 H6]. cbn [threads shared] in *. constructor; cbn [threads shared Value Blocks KeyedEvent]; try done.
  - by rewrite Haddr.
  - by rewrite Haddr.
  - by rewrite !length_insert.
  - intros x Hx. assert (x = a ∨ is_Some (Blocks σ !! x) ∨ x ∈ KeyedEvent σ ∨ x ∈ listed) as [->|Hx'].
    { destruct Hx as [Hx|[Hx|Hx]]; [apply HB in Hx|apply HK in Hx|apply HL in Hx]; tauto. }
    + exists i, (Thread a d'). split; [|done]. apply list_lookup_insert_eq. by eapply lookup_lt_Some.
    + destruct (H5 x Hx') as (j & u & Hu & Hux). destruct (decide (j = i)) as [->|Hj].
      * exists i, (Thread a d'). split; [apply list_lookup_insert_eq; by eapply lookup_lt_Some|]. rewrite Hi in Hu. by injection Hu as <-.
      * exists j, u. by rewrite list_lookup_insert_ne.
  - intros j u h. destruct (decide (j = i)) as [->|Hj].
    + rewrite !list_lookup_insert_eq by (by eapply lookup_lt_Some). by intros [= <-] [= <-].
    + rewrite !list_lookup_insert_ne by done. intros Hu Hh. pose proof (H6 j u h Hu Hh) as [W1 W2 W3]. constructor; [|eapply hand_frame; [|done]|done].
      * apply Hw; [by eapply wake_other_address|done].
      * intros x Hx. apply Ha, elem_of_app. right. apply list_elem_of_In, in_concat. exists h. rewrite <-!list_elem_of_In.
        split; [by eapply list_elem_of_lookup_2|done].
Qed.

(** A step that changes nothing for the others. *)
Lemma wake_keeps_still d' hand' : concat (<[i := hand']> hands) ≡ₚ concat hands →
  thread_ok (Blocks σ) (KeyedEvent σ) listed hand' (Thread a d') → keeps σ d'.
Proof.
  intros HP [H1 H2 H3]. assert (l ++ concat (<[i := hand']> hands) ≡ₚ listed) as HP' by (by rewrite HP).
  assert (∀ y w, wait_ok (Blocks σ) (KeyedEvent σ) listed y w → wait_ok (Blocks σ) (KeyedEvent σ) (l ++ concat (<[i := hand']> hands)) y w) as Hw.
  { intros y w Hy. eapply wait_frame; [done|done|by rewrite HP'|done]. }
  replace (keeps σ d') with (keeps (State (Value σ) (Blocks σ) (KeyedEvent σ)) d') by (unfold keeps; by rewrite <-state_eta).
  apply keeps_move with (l' := l) (hand' := hand'); try (by auto).
  - apply (inv_value _ _ _ HI).
  - apply (inv_list _ _ _ HI).
  - rewrite HP'. apply (inv_listed _ _ _ HI).
  - intros x. rewrite HP'. auto.
  - constructor; [by apply Hw|done|done].
Qed.

(** A step that touches the thread's own block and key only. *)
Lemma keeps_own B' K' d' :
  (∀ x, x ≠ a → B' !! x = Blocks σ !! x) → (∀ x, x ≠ a → x ∈ K' ↔ x ∈ KeyedEvent σ) →
  (a ∈ listed → nagree (Blocks σ) B' a) →
  thread_ok B' K' listed hand (Thread a d') → keeps (State (Value σ) B' K') d'.
Proof.
  intros HB HK Ha Hok. assert (∀ x, x ∈ listed → nagree (Blocks σ) B' x) as Hag.
  { intros x Hx. destruct (decide (x = a)) as [->|]; [by apply Ha|apply nagree_same; by apply HB]. }
  apply keeps_move with (l' := l) (hand' := hand); rewrite ?(list_insert_id hands i hand Hhand); try done.
  - apply (inv_value _ _ _ HI).
  - eapply nlinked_frame; [|apply (inv_list _ _ _ HI)]. intros x Hx. apply Hag, elem_of_app. by left.
  - apply (inv_listed _ _ _ HI).
  - auto.
  - intros x Hx. destruct (decide (x = a)) as [->|]; [by left|right]. by rewrite <-HB.
  - intros x Hx. destruct (decide (x = a)) as [->|]; [by left|right]. by apply HK.
  - intros y w Hy Hw. eapply wait_frame; [done|by rewrite HB|done|by apply HK].
Qed.

(** The thread's block goes out of use. *)
Lemma keeps_leave : a ∉ listed → a ∉ KeyedEvent σ → hand = [] →
  keeps (with_Blocks σ (delete a (Blocks σ))) Idle.
Proof.
  intros Hl HK Hh. apply keeps_own; [intros x Hx; by rewrite lookup_delete_ne|done|done|].
  constructor; [|by rewrite Hh|done]. cbn. split_and!; [apply lookup_delete_eq|done|done].
Qed.

Definition blocked_at (d : activity) (p : block) : Prop := phase_of d = Some (block_phase p) ∧ hand = [].

Lemma block_keeps p σ' oc : blocked_at d p → (σ', oc) ∈ PhpBlockOnQueuedWaitBlock σ a p →
  match oc with
  | Continue p' => ∀ d', phase_of d' = Some (block_phase p') → hand_ok (Blocks σ') [] (setting d') → plain d' → keeps σ' d'
  | Return r => r = true ∧ keeps (with_Blocks σ' (delete a (Blocks σ'))) Idle
  | Fault => False
  end.
Proof.
  intros [Hp Hh] Hin. pose proof (ok_wait _ _ _ _ _ wake_this_ok) as Hw. cbn [Address Doing] in Hw. rewrite Hp in Hw.
  assert (concat (<[i := []]> hands) ≡ₚ concat hands) as Hc by (by rewrite <-Hh, (list_insert_id hands i hand Hhand)).
  assert (∀ d', phase_of d' = phase_of d → hand_ok (Blocks σ) [] (setting d') → plain d' → keeps σ d') as Hstill.
  { intros d' H1 H2 H3. eapply wake_keeps_still; [done|]. constructor; [|done|done]. cbn [Address Doing]. rewrite H1. apply (ok_wait _ _ _ _ _ wake_this_ok). }
  destruct p as [n| | |]; cbn [PhpBlockOnQueuedWaitBlock block_phase] in *.
  - cbn [wait_ok] in Hw. destruct Hw as (b & Hb & Hs & HK). unfold read in Hin. rewrite Hb in Hin. in_list Hin. injection Hin as -> ->.
    assert (is_set (Flags b) PH_QUEUED_WAITER_SPINNING = spinning b) as -> by apply spinning_flag.
    destruct (spinning b) eqn:Es; cbn [negb].
    + destruct (u32 (n - 1) =? 0); intros d' H1 H2 H3; apply Hstill; try done; by rewrite Hp.
    + split; [done|]. apply keeps_leave; [|done|done]. intros Hl. apply Hs in Hl. congruence.
  - cbn [wait_ok] in Hw. destruct Hw as (b & Hb & Hs & HK). unfold write in Hin. rewrite Hb in Hin. in_list Hin. injection Hin as -> ->.
    destruct (spinning b) eqn:Es.
    + intros d' H1 H2 H3. apply keeps_own; [intros x Hx; by rewrite lookup_insert_ne|done|intros _; by apply nagree_reset|].
      constructor; [|by rewrite Hh|done]. cbn [Address Doing]. rewrite H1. cbn [block_phase wait_ok]. exists (reset_spinning b).
      rewrite lookup_insert_eq, reset_spinning_off. split_and!; [done|done|by apply Hs|done].
    + rewrite reset_spinning_id, insert_id by done. split; [done|]. cbn [Blocks with_Blocks]. apply keeps_leave; [|done|done].
      intros Hl. apply Hs in Hl. congruence.
  - cbn [wait_ok] in Hw. destruct Hw as (b & Hb & Hs & Hl & HK). in_list Hin. injection Hin as -> ->. intros d' H1 H2 H3.
    apply keeps_own; [done|intros x Hx; rewrite elem_of_union, elem_of_singleton; naive_solver|done|].
    constructor; [|by rewrite Hh|done]. cbn [Address Doing]. rewrite H1. cbn [block_phase wait_ok]. exists b. split_and!; [done|done|].
    rewrite elem_of_union, elem_of_singleton. tauto.
  - cbn [wait_ok] in Hw. destruct Hw as (b & Hb & Hs & Hl). case_decide as HK; in_list Hin. injection Hin as -> ->. split; [done|].
    apply keeps_leave; [tauto|done|done].
Qed.

(** Unblocking the first block of the hand: [B'] and [K'] are what it does. *)
Lemma unblock_keeps x rest B' K' d' :
  hand = x :: rest → (∀ y, nagree (Blocks σ) B' y) → (∀ y, is_Some (B' !! y) → is_Some (Blocks σ !! y)) → (∀ y, y ∈ K' → y ∈ KeyedEvent σ) →
  (∀ y w listed', wait_ok (Blocks σ) (KeyedEvent σ) listed y w → listed ≡ₚ x :: listed' → x ∉ listed' → wait_ok B' K' listed' y w) →
  phase_of d' = phase_of d → hand_ok B' rest (setting d') → plain d' →
  keeps (State (Value σ) B' K') d'.
Proof.
  intros Hh Ha HB HK Hw Hp Hok Hpl. pose proof (inv_listed _ _ _ HI) as HN.
  destruct (concat_hand _ _ _ Hhand) as (others & HP1 & HP2 & _). rewrite Hh in HP1.
  assert (listed ≡ₚ x :: (l ++ concat (<[i := rest]> hands))) as HP by (rewrite HP1, HP2; solve_Permutation).
  pose proof HN as HN'. rewrite HP in HN'. apply NoDup_cons in HN' as [Hx HN'].
  apply keeps_move with (l' := l) (hand' := rest); try done.
  - apply (inv_value _ _ _ HI).
  - eapply nlinked_frame; [|apply (inv_list _ _ _ HI)]. intros y Hy. apply Ha.
  - intros y Hy. right. rewrite HP. by right.
  - intros y. right. by apply HB.
  - intros y. right. by apply HK.
  - intros y w _ Hy. by eapply Hw.
  - constructor; [|done|done]. cbn [Address Doing]. rewrite Hp. eapply Hw; [|done|done]. apply (ok_wait _ _ _ _ _ wake_this_ok).
Qed.

End Moves.

(** ** Every step keeps the invariant *)

Section Steps.
Context (σ : state) (ts : list thread) (l : list Z) (hands : list (list Z)).
Hypothesis (HI : inv (System σ ts) l hands).
Context (i : nat) (a : Z) (d : activity) (hand : list Z).
Hypothesis (Hi : ts !! i = Some (Thread a d)) (Hhand : hands !! i = Some hand).

Local Abbreviation listed := (l ++ concat hands).
Local Abbreviation keeps := (keeps ts i a).

(** Setting the event, or doing so to cancel a wait. *)
Section Setting.
Context (n W : Z) (leaves : bool) (S : set → activity) (p : set).
Hypothesis (HS : S = Setting ∧ W = NULL ∧ leaves = false ∨ S = Cancelling ∧ W = a ∧ leaves = true).
Hypothesis (Hd : d = S p).

Definition called (r : state * outcome set) : Prop := let '(σ', d') := call a leaves S Idle r in keeps σ' d'.

Lemma set_hand : hand_ok (Blocks σ) hand (Some p).
Proof.
  pose proof (ok_hand _ _ _ _ _ (wake_this_ok _ _ _ _ HI i a d hand Hi Hhand)) as Hh. cbn [Doing] in Hh. rewrite Hd in Hh.
  by destruct HS as [(HS1 & _)|(HS1 & _)]; rewrite HS1 in Hh.
Qed.

Lemma set_waits q : match p, q with set_block _, _ | _, set_block _ => False | _, _ => True end → phase_of (S q) = phase_of d.
Proof. rewrite Hd. destruct HS as [(-> & _)|(-> & _)]; [done|]. by destruct p, q. Qed.

Lemma set_setting q : setting (S q) = Some q.
Proof. by destruct HS as [(-> & _)|(-> & _)]. Qed.

Lemma set_plain q : match q with set_test | set_block _ => False | _ => True end → plain (S q).
Proof. by destruct HS as [(-> & _)|(-> & _)]. Qed.

(** The loop goes on with the rest of the hand. *)
Lemma set_loop_keeps B' K' v' rest :
  match p with set_block _ => False | _ => True end →
  Forall good rest → nlinked B' rest →
  (∀ d', phase_of d' = phase_of d → hand_ok B' rest (setting d') → plain d' → keeps (State v' B' K') d') →
  called (State v' B' K', set_loop W (default NULL (head rest))).
Proof.
  intros Hpb Hg Hl Hk. assert (∀ q, match q with set_block _ => False | _ => True end → phase_of (S q) = phase_of d) as Hph.
  { intros q Hq. apply set_waits. by destruct p, q. }
  unfold set_loop, called. destruct rest as [|x rest].
  - cbn [head default]. rewrite Z.eqb_refl. cbn [negb]. destruct HS as [(HS1 & -> & ->)|(HS1 & -> & ->)].
    + rewrite Z.eqb_refl. cbn [negb call]. apply Hk; [|done|done]. specialize (Hph set_check I). by rewrite HS1 in Hph.
    + assert (a ≠ NULL) as Ha by (eapply not_null; eauto). rewrite (proj2 (Z.eqb_neq a NULL)) by done. cbn [negb call].
      apply Hk; [by apply Hph|by rewrite HS1|by rewrite HS1].
  - apply Forall_cons in Hg as [[_ Hx] _]. change (default NULL (head (x :: rest))) with x.
    rewrite (proj2 (Z.eqb_neq x NULL)) by (unfold NULL; lia). cbn [negb call].
    apply Hk; [by apply Hph|rewrite set_setting; by exists rest|by apply set_plain].
Qed.

Lemma set_keeps σ' oc : plain d → (σ', oc) ∈ PhSetWakeEvent n σ W p → called (σ', oc).
Proof.
  intros Hpl Hin. pose proof set_hand as Hh.
  pose proof (ok_wait _ _ _ _ _ (wake_this_ok _ _ _ _ HI i a d hand Hi Hhand)) as Hw. cbn [Address Doing] in Hw.
  assert (concat (<[i := hand]> hands) ≡ₚ concat hands) as Hc by (by rewrite (list_insert_id hands i hand Hhand)).
  assert (∀ q, match p, q with set_block _, _ | _, set_block _ => False | _, _ => True end → plain (S q) →
    hand_ok (Blocks σ) hand (Some q) → keeps σ (S q)) as Hstill.
  { intros q H1 H2 H3. eapply wake_keeps_still; [done..|]. constructor; cbn [Address Doing]; [|by rewrite set_setting|done].
    by rewrite set_waits. }
  assert (∀ x rest, hand = x :: rest → Forall good rest) as Hgood.
  { intros x rest E. apply Forall_forall. intros y Hy. eapply wake_address_good; [done..|]. right. eapply wake_hand_listed; [done..|]. rewrite E. by right. }
  assert (∀ x, x ∈ hand → ∃ b, Blocks σ !! x = Some b) as Hblock.
  { intros x Hx. destruct (wake_listed_waiting _ _ _ _ HI x) as (_ & _ & b & _ & _ & Hb & _); [by eapply wake_hand_listed|]. eauto. }
  assert (p = p) as Ep by done. revert Hin Ep. generalize p at 1 3. intros q Hin Ep. destruct q as [| |x|x y|x y| |q]; cbn [PhSetWakeEvent] in Hin; rewrite Ep in Hh; cbn [hand_ok] in Hh.
  - case_match; in_list Hin; injection Hin as -> ->; unfold called; cbn [call].
    + apply Hstill; [by rewrite Ep|by apply set_plain|done].
    + destruct HS as [(HS1 & HW & ->)|(HS1 & HW & ->)].
      * eapply wake_keeps_still; [done..|]. constructor; [|by rewrite Hh|done]. cbn [Address Doing]. by rewrite Hd, HS1 in Hw.
      * assert (a ≠ NULL) as Ha by (eapply not_null; eauto). rewrite HW, (proj2 (Z.eqb_neq a NULL)) in * by done.
        by rewrite orb_true_r in *.
  - in_list Hin. injection Hin as -> ->. pose proof (inv_value _ _ _ HI) as Hv. cbn [shared] in Hv. rewrite Hv.
    destruct (concat_hand _ _ _ Hhand) as (others & HP1 & HP2 & _). rewrite Hh in HP1.
    assert (listed ≡ₚ concat (<[i := l]> hands)) as HP by (rewrite HP1, HP2; solve_Permutation).
    apply set_loop_keeps; [by rewrite Ep| |apply (inv_list _ _ _ HI)|].
    + apply Forall_forall. intros y Hy. eapply wake_address_good; [done..|]. right. apply elem_of_app. by left.
    + intros d' H1 H2 H3. eapply keeps_move with (l' := []) (hand' := l); cbn [app]; rewrite <-?HP; try done; try apply (inv_listed _ _ _ HI); auto.
      * intros x. rewrite <-HP. auto.
      * intros y w _ Hy. eapply wait_frame; [done|done|by rewrite <-HP|done].
      * constructor; [|done|done]. cbn [Address Doing]. rewrite H1. eapply wait_frame; [done|done|by rewrite <-HP|done].
  - destruct Hh as (rest & Hr & Hl). destruct (Hblock x) as [b Hb]; [rewrite Hr; by left|].
    unfold read in Hin. rewrite Hb in Hin. in_list Hin. injection Hin as -> ->. unfold called. cbn [call].
    apply Hstill; [by rewrite Ep|by apply set_plain|]. exists rest. rewrite Hr in Hl. destruct Hl as [Hn Hl]. rewrite Hb in Hn.
    injection Hn as Hn. done.
  - destruct Hh as (rest & Hr & -> & Hl). assert (x ∈ hand) as Hx by (rewrite Hr; by left). destruct (Hblock x Hx) as [b Hb].
    unfold write in Hin. rewrite Hb in Hin. in_list Hin. injection Hin as -> ->. destruct (spinning b) eqn:Es.
    + apply set_loop_keeps; [by rewrite Ep|by eapply Hgood|by eapply nlinked_frame; [intros; by apply nagree_reset|]|].
      intros d' H1 H2 H3. eapply unblock_keeps; try done; [by apply nagree_reset| |].
      * intros y. destruct (decide (y = x)) as [->|]; [by rewrite Hb|by rewrite lookup_insert_ne].
      * intros y w listed' Hy HP Hx'. by eapply wait_unblock.
    + rewrite reset_spinning_id, insert_id by done. assert (with_Blocks σ (Blocks σ) = σ) as -> by (by destruct σ).
      unfold called. cbn [call]. apply Hstill; [by rewrite Ep|by apply set_plain|]. exists rest. split_and!; [done..|].
      rewrite Hb. by apply (f_equal Some).
  - destruct Hh as (rest & Hr & -> & Hl & Hs). unfold NtReleaseKeyedEvent in Hin. case_decide as HK; in_list Hin. injection Hin as -> ->.
    apply set_loop_keeps; [by rewrite Ep|by eapply Hgood|done|]. intros d' H1 H2 H3. eapply unblock_keeps; try done.
    + intros y. rewrite elem_of_difference. tauto.
    + intros y w listed' Hy HP Hx. by eapply wait_released.
  - destruct HS as [(HS1 & _)|(HS1 & HW & HL)]; [by rewrite Hd, HS1, Ep in Hpl|]. rewrite Hd, HS1, Ep in Hw. cbn [phase_of set_phase wait_ok] in Hw.
    destruct Hw as (b & Hb & Hs & HK). unfold read in Hin. rewrite HW, Hb in Hin. in_list Hin. injection Hin as -> ->. unfold called.
    rewrite spinning_flag. fold (spinning b). destruct (spinning b) eqn:Es; cbn [call].
    + eapply wake_keeps_still; [done..|]. constructor; cbn [Address Doing]; [|by rewrite set_setting|by rewrite HS1].
      rewrite HS1. exists b. rewrite Es. done.
    + rewrite HL. eapply keeps_leave; [done..| |done|done]. intros Hl. apply Hs in Hl. congruence.
  - destruct HS as [(HS1 & _)|(HS1 & HW & HL)]; [by rewrite Hd, HS1, Ep in Hpl|]. apply list_elem_of_fmap in Hin as ([σ1 o1] & [= -> ->] & Hin).
    rewrite HW in Hin. assert (blocked_at hand d q) as Hb by (split; [by rewrite Hd, HS1, Ep|done]).
    pose proof (block_keeps _ _ _ _ HI i a d hand Hi Hhand q σ1 o1 Hb Hin) as Hk. unfold called. cbn [prod_map].
    destruct o1 as [p'|r|]; cbn [map_outcome call]; [|rewrite HL; by destruct Hk|done].
    apply Hk; [by rewrite HS1|by rewrite set_setting|by rewrite HS1].
Qed.

End Setting.

Lemma queue_keeps u p σ' oc : d = Queueing p → (σ', oc) ∈ PhfQueueWakeEvent u σ a p →
  let '(σ', d') := call a false Queueing Queued (σ', oc) in keeps σ' d'.
Proof.
  intros Hd Hin. destruct (wake_this_ok _ _ _ _ HI i a d hand Hi Hhand) as [Hw Hh _]. cbn [Address Doing] in *. rewrite Hd in Hw, Hh. cbn in Hh.
  assert (∀ q, keeps σ (Queueing q)) as Hstill.
  { intros q. eapply wake_keeps_still; [done..|by rewrite (list_insert_id hands i hand Hhand)|]. by constructor. }
  destruct p as [|v]; cbn [PhfQueueWakeEvent] in Hin; [in_list Hin; injection Hin as -> ->; apply Hstill|].
  destruct (Z.eqb_spec (Value σ) v) as [<-|]; in_list Hin; injection Hin as -> ->; [|apply Hstill]. cbn [call].
  destruct Hw as (Hb & Hl & HK). pose proof (inv_value _ _ _ HI) as Hv. cbn [shared] in Hv.
  assert (∀ x, x ∈ listed → nagree (Blocks σ) (<[a := with_Next (with_Flags u PH_QUEUED_WAITER_SPINNING) (Value σ)]> (Blocks σ)) x) as Hag.
  { intros x Hx. apply nagree_same. rewrite lookup_insert_ne; [done|]. congruence. }
  assert (a :: l ++ concat hands ≡ₚ (a :: l) ++ concat (<[i := hand]> hands)) as HP by (by rewrite (list_insert_id hands i hand Hhand)).
  eapply keeps_move with (l' := a :: l) (hand' := hand); try done; rewrite ?(list_insert_id hands i hand Hhand).
  - split; [by rewrite lookup_insert_eq, Hv|]. eapply nlinked_frame; [|apply (inv_list _ _ _ HI)]. intros x Hx. apply Hag, elem_of_app. by left.
  - cbn [app]. constructor; [done|apply (inv_listed _ _ _ HI)].
  - intros x [->|Hx]%elem_of_cons; auto.
  - intros x. destruct (decide (x = a)) as [->|]; [auto|rewrite lookup_insert_ne; auto].
  - auto.
  - intros y w Hy Hw. eapply wait_frame; [done|by rewrite lookup_insert_ne| |done]. cbn [app]. rewrite elem_of_cons. naive_solver.
  - constructor; cbn [Address Doing]; [|done|done]. exists (with_Next (with_Flags u PH_QUEUED_WAITER_SPINNING) (Value σ)).
    rewrite lookup_insert_eq. split_and!; [done| |done]. split; [intros _; by left|done].
Qed.

Lemma wake_wait_keeps p σ' oc n : d = Waiting false (wait_block p) → (σ', oc) ∈ PhfWaitForWakeEvent n false σ a (wait_block p) →
  let '(σ', d') := call a true (Waiting false) Idle (σ', oc) in keeps σ' d'.
Proof.
  intros Hd Hin. destruct (wake_this_ok _ _ _ _ HI i a d hand Hi Hhand) as [_ Hh _]. cbn [Doing] in Hh. rewrite Hd in Hh. cbn in Hh.
  cbn [PhfWaitForWakeEvent] in Hin. apply list_elem_of_fmap in Hin as ([σ1 o1] & [= -> ->] & Hin).
  assert ((σ1, o1) ∈ PhpBlockOnQueuedWaitBlock σ a p) as Hin1.
  { unfold PhpBlockOnQueuedWaitBlock_timeout in Hin. apply elem_of_app in Hin as [?|Hin]; [done|]. destruct p; by apply elem_of_nil in Hin. }
  assert (blocked_at hand d p) as Hb by (split; [by rewrite Hd|done]).
  pose proof (block_keeps _ _ _ _ HI i a d hand Hi Hhand p σ1 o1 Hb Hin1) as Hk. cbn [prod_map].
  destruct o1 as [p'|r|]; cbn [map_outcome call]; [|by destruct Hk as [-> ?]|done].
  apply Hk; [done|done|]. split; [done|]. by exists p'.
Qed.

Lemma wake_act_keeps n u σ' d' : (σ', d') ∈ act n u false σ a d → keeps σ' d'.
Proof.
  intros Hin. pose proof (ok_plain _ _ _ _ _ (wake_this_ok _ _ _ _ HI i a d hand Hi Hhand)) as Hp. cbn [Doing] in Hp.
  assert (∀ d', phase_of d' = phase_of d → setting d' = None ∨ setting d' = Some set_check → setting d = None → plain d' → keeps σ d') as Hstill.
  { intros e H1 H2 H3 H4. destruct (wake_this_ok _ _ _ _ HI i a d hand Hi Hhand) as [Hw Hh _]. cbn [Address Doing] in *.
    eapply wake_keeps_still; [done..|by rewrite (list_insert_id hands i hand Hhand)|]. constructor; cbn [Address Doing]; [by rewrite H1| |done].
    rewrite H3 in Hh. by destruct H2 as [-> | ->]. }
  pose proof Hp as Hp'. assert (∃ e, d = e) as [e Hd] by eauto. destruct e as [|p| |T p|p|p|]; rewrite Hd in Hin, Hp; cbn [act app] in Hin; [| | | | | |done].
  - in_list Hin; injection Hin as -> ->; apply Hstill; rewrite ?Hd; auto.
  - apply list_elem_of_fmap in Hin as ([σ1 o1] & E & Hin). pose proof (queue_keeps u p σ1 o1 Hd Hin) as Hk. by rewrite <-E in Hk.
  - in_list Hin; injection Hin as -> ->; apply Hstill; rewrite ?Hd; cbn [phase_of setting plain]; rewrite ?block_start_early; eauto.
  - destruct Hp as [-> [q ->]]. apply list_elem_of_fmap in Hin as ([σ1 o1] & E & Hin).
    pose proof (wake_wait_keeps q σ1 o1 n Hd Hin) as Hk. by rewrite <-E in Hk.
  - apply list_elem_of_fmap in Hin as ([σ1 o1] & E & Hin).
    pose proof (set_keeps n a true Cancelling p (or_intror (conj eq_refl (conj eq_refl eq_refl))) Hd σ1 o1 Hp' Hin) as Hk.
    unfold called in Hk. by rewrite <-E in Hk.
  - apply list_elem_of_fmap in Hin as ([σ1 o1] & E & Hin).
    pose proof (set_keeps n NULL false Setting p (or_introl (conj eq_refl (conj eq_refl eq_refl))) Hd σ1 o1 Hp' Hin) as Hk.
    unfold called in Hk. by rewrite <-E in Hk.
Qed.

End Steps.

Lemma wake_invariant_step n u s s' : invariant s → step (next n u false) s s' → invariant s'.
Proof.
  intros (l & hands & HI) Hs. destruct Hs as [i σ ts [a d] σ' t' Hi Hin].
  unfold next in Hin. apply list_elem_of_fmap in Hin as ([σ1 d'] & [= -> ->] & Hin). cbn [Address Doing] in Hin.
  assert (is_Some (hands !! i)) as [hand Hhand] by (apply lookup_lt_is_Some; rewrite (inv_hands _ _ _ HI); by eapply lookup_lt_Some).
  by eapply (wake_act_keeps _ _ _ _ HI i a d hand Hi Hhand).
Qed.

Definition start (address : nat → Z) (n : nat) : system :=
  System PhInitializeWakeEvent ((λ i, Thread (address i) Idle) <$> seq 0 n).

Lemma wake_invariant_start n address `{!Addresses n address} : invariant (start address n).
Proof.
  exists [], (replicate n []).
  assert (concat (replicate n (@nil Z)) = []) as Hc by (generalize n as k; induction k; [done|by cbn]).
  assert (Address <$> threads (start address n) = address <$> seq 0 n) as Ha by (cbn; by rewrite <-list_fmap_compose).
  constructor; rewrite ?Ha; try done.
  - apply NoDup_fmap_2_strong; [|apply NoDup_seq]. intros i j Hi Hj Heq. rewrite elem_of_seq in Hi, Hj. apply (address_inj (n := n)); [lia|lia|done].
  - apply Forall_fmap, Forall_forall. intros i Hi. rewrite elem_of_seq in Hi. apply (address_aligned (n := n)). lia.
  - cbn [app]. rewrite Hc. constructor.
  - cbn. by rewrite length_replicate, length_fmap, length_seq.
  - intros a [Hx|[Hx|Hx]]; cbn in Hx; [by rewrite lookup_empty in Hx; destruct Hx|by apply elem_of_empty in Hx|].
    rewrite Hc in Hx. by apply elem_of_nil in Hx.
  - cbn [start threads shared app]. intros i u hand Hu [-> _]%lookup_replicate. rewrite Hc.
    rewrite list_lookup_fmap in Hu. apply fmap_Some in Hu as (k & _ & ->). constructor; [|done|done].
    cbn. split_and!; [apply lookup_empty|by intros ?%elem_of_nil|apply not_elem_of_empty].
Qed.

Lemma wake_invariant_reachable n u k address `{!Addresses k address} s :
  reachable (next n u false) (start address k) s → invariant s.
Proof. apply reachable_invariant; [by apply wake_invariant_start|]. intros. by eapply wake_invariant_step. Qed.

(** ** Threads that cannot make a step *)

(** The blocks on the event, by following the pointers. *)
Inductive on_event (σ : state) : Z → Prop :=
  | on_event_first : Value σ ≠ NULL → on_event σ (Value σ)
  | on_event_next wb b : on_event σ wb → Blocks σ !! wb = Some b → Next b ≠ NULL → on_event σ (Next b).

Lemma on_event_list σ x : Value σ = x → x ≠ NULL → on_event σ x.
Proof. intros <- ?. by constructor. Qed.

Lemma list_on_event σ l : nlinked (Blocks σ) l → (∀ x, x ∈ l → x ≠ NULL) → (∀ x, head l = Some x → on_event σ x) → ∀ x, x ∈ l → on_event σ x.
Proof.
  induction l as [|y l IH]; [by intros _ _ _ x ?%elem_of_nil|]. intros [Hn Hl] Hz Hy x [->|Hx]%elem_of_cons; [by apply Hy|].
  apply IH; [done|intros z Hz'; apply Hz; by right| |done]. intros z Hh. destruct l as [|z' l]; [done|]. injection Hh as ->.
  destruct (Blocks σ !! y) as [b|] eqn:Hb; [|done]. injection Hn as Hn. change (default NULL (head (z :: l))) with z in Hn. rewrite <-Hn.
  apply (on_event_next _ y); [by apply Hy|done|]. rewrite Hn. apply Hz. right. by left.
Qed.

#[global] Instance activity_idle_dec (d : activity) : Decision (d = Idle).
Proof. destruct d; first [by left|by right]. Defined.

(** What a thread that waits without a step is doing. *)
Definition sleeps (u : thread) : Prop :=
  Doing u = Waiting false (wait_block block_wait) ∨ Doing u = Cancelling (set_block block_wait).

Lemma block_stuck σ a p : PhpBlockOnQueuedWaitBlock σ a p = [] → p = block_wait ∧ a ∈ KeyedEvent σ.
Proof. apply block_some. Qed.

Lemma set_stuck n σ W p : PhSetWakeEvent n σ W p = [] →
  (∃ x y, p = set_release x y ∧ x ∉ KeyedEvent σ) ∨ p = set_block block_wait ∧ W ∈ KeyedEvent σ.
Proof.
  destruct p; cbn [PhSetWakeEvent]; try (by intros ?%read_some || by intros ?%write_some || done).
  - by case_match.
  - unfold NtReleaseKeyedEvent. case_decide; [done|]. left. eauto.
  - intros [-> ?]%fmap_nil_inv%block_stuck. by right.
Qed.

Lemma inv_hands_lookup s l hands j w : inv s l hands → threads s !! j = Some w →
  ∃ h, hands !! j = Some h ∧ thread_ok (Blocks (shared s)) (KeyedEvent (shared s)) (l ++ concat hands) h w.
Proof.
  intros HI Hj. assert (is_Some (hands !! j)) as [h Hh] by (apply lookup_lt_is_Some_2; rewrite (inv_hands _ _ _ HI); by eapply lookup_lt_Some).
  exists h. split; [done|]. exact (inv_threads _ _ _ HI j w h Hj Hh).
Qed.

Lemma stuck_sleeps s n v i u :
  invariant s → (∀ j w, threads s !! j = Some w → Doing w ≠ Idle → next n v false (shared s) w = []) →
  threads s !! i = Some u → Doing u ≠ Idle → sleeps u ∧ on_event (shared s) (Address u).
Proof.
  intros (l & hands & HI) Hstuck. destruct s as [σ ts]. cbn [shared threads] in *.
  assert (∀ j w, ts !! j = Some w → ∃ h, hands !! j = Some h ∧ thread_ok (Blocks σ) (KeyedEvent σ) (l ++ concat hands) h w) as Hok.
  { intros j w Hj. by eapply (inv_hands_lookup _ _ _ j w HI). }
  assert (∀ j w, ts !! j = Some w → Doing w ≠ Idle → sleeps w ∧ Address w ∈ KeyedEvent σ ∨
    ∃ x y, setting (Doing w) = Some (set_release x y) ∧ x ∉ KeyedEvent σ) as Hwait.
  { intros j [a d] Hj Hd. pose proof (Hstuck j _ Hj Hd) as Hn. unfold next in Hn. apply fmap_nil_inv in Hn. cbn [Address Doing] in *.
    destruct (Hok j _ Hj) as (h & _ & [_ _ Hp]). cbn [Doing] in Hp. unfold sleeps. cbn [Address Doing].
    destruct d as [|p| |T p|p|p|]; try done; cbn [act] in Hn.
    - apply fmap_nil_inv in Hn. destruct p; cbn [PhfQueueWakeEvent] in Hn; [done|by case_match].
    - destruct Hp as [-> [q ->]]. apply fmap_nil_inv in Hn. cbn [PhfWaitForWakeEvent] in Hn. apply fmap_nil_inv in Hn.
      apply app_eq_nil in Hn as [[-> HK]%block_stuck _]. auto.
    - apply fmap_nil_inv, set_stuck in Hn as [(x & y & -> & Hx)|[-> HK]]; [right; eauto|auto].
    - apply fmap_nil_inv, set_stuck in Hn as [(x & y & -> & Hx)|[-> HK]]; [right; eauto|done]. }
  assert (∀ j w, ts !! j = Some w → Doing w ≠ Idle → sleeps w ∧ Address w ∈ KeyedEvent σ) as Hsleep.
  { intros j w Hj Hd. destruct (Hwait j w Hj Hd) as [?|(x & y & Hset & Hx)]; [done|exfalso].
    destruct (Hok j w Hj) as (h & Hh & [_ Hhand _]). rewrite Hset in Hhand. destruct Hhand as (rest & -> & _ & _ & Hs).
    destruct (wake_listed_waiting _ _ _ _ HI x) as (k & w' & b & Hk & Ha & Hb & Hp).
    { apply elem_of_app. right. apply list_elem_of_In, in_concat. exists (x :: rest). rewrite <-!list_elem_of_In.
      split; [by eapply list_elem_of_lookup_2|by left]. }
    rewrite Hb in Hs. injection Hs as Hs.
    assert (phase_of (Doing w') = Some Arriving ∨ phase_of (Doing w') ≠ Some Arriving) as [E|E]
      by (destruct (phase_of (Doing w')) as [[]|]; auto).
    - destruct (Hwait k w' Hk) as [[[Hd'|Hd'] _]|(x' & y' & Hset' & _)]; try (by rewrite Hd' in E); [by intros Hd'; rewrite Hd' in E|].
      destruct (Doing w') as [| | |? []|[]|[]|]; done.
    - destruct (phase_of (Doing w')) as [[]|]; try done; destruct Hp; congruence. }
  assert (concat hands = []) as Hc.
  { destruct (concat hands) as [|x rest] eqn:E; [done|exfalso]. assert (x ∈ concat hands) as Hx by (rewrite E; by left).
    apply list_elem_of_In, in_concat in Hx as (h & Hh & Hx). apply list_elem_of_In, list_elem_of_lookup in Hh as [j Hj].
    assert (is_Some (ts !! j)) as [w Hw].
    { apply lookup_lt_is_Some. pose proof (inv_hands _ _ _ HI) as Hlen. cbn [threads] in Hlen. rewrite <-Hlen. by eapply lookup_lt_Some. }
    destruct (Hok j w Hw) as (h' & Hh' & [_ Hhand _]). rewrite Hj in Hh'. injection Hh' as <-.
    enough (h = []) as -> by done. destruct (decide (Doing w = Idle)) as [E0|E0]; [by rewrite E0 in Hhand|].
    destruct (Hsleep j w Hw E0) as [[E1|E1] _]; by rewrite E1 in Hhand. }
  intros Hu Hd. destruct (Hsleep i u Hu Hd) as [Hs HK]. split; [done|].
  destruct (Hok i u Hu) as (h & _ & [Hw _ _]). rewrite Hc, app_nil_r in Hw.
  assert (phase_of (Doing u) = Some Blocked) as E by (by destruct Hs as [-> | ->]). rewrite E in Hw. destruct Hw as (b & _ & _ & [_ Hl]).
  eapply list_on_event; [apply (inv_list _ _ _ HI)| | |by apply Hl].
  - intros x Hx. assert (good x) as [_ Hg]; [|unfold NULL; lia].
    destruct (inv_owner _ _ _ HI x) as (j & w & Hj & <-); [right; right; apply elem_of_app; by left|].
    pose proof (inv_good _ _ _ HI) as Hg. rewrite Forall_forall in Hg. apply Hg, list_elem_of_fmap. exists w. split; [done|]. by eapply list_elem_of_lookup_2.
  - intros x Hx. pose proof (inv_value _ _ _ HI) as Hv. cbn [shared] in Hv. rewrite Hx in Hv. apply on_event_list; [done|].
    destruct (inv_owner _ _ _ HI x) as (j & w & Hj & <-); [right; right; apply elem_of_app; left; by apply head_Some_elem_of|].
    pose proof (inv_good _ _ _ HI) as Hg. rewrite Forall_forall in Hg. assert (good (Address w)) as [_ Hgw]; [|unfold NULL; lia].
    apply Hg, list_elem_of_fmap. exists w. split; [done|]. by eapply list_elem_of_lookup_2.
Qed.

(** A step of a thread lets go of keys, and makes the thread arrive at its own. *)
Lemma block_keys T σ a p σ' oc x : (σ', oc) ∈ PhpBlockOnQueuedWaitBlock_timeout T σ a p → x ∈ KeyedEvent σ' → x = a ∨ x ∈ KeyedEvent σ.
Proof.
  unfold PhpBlockOnQueuedWaitBlock_timeout. intros [Hin|Hin]%elem_of_app Hx.
  - destruct p; cbn [PhpBlockOnQueuedWaitBlock] in Hin; unfold read, write in Hin; repeat case_match; in_list Hin; injection Hin as -> ->; auto.
    cbn [KeyedEvent with_KeyedEvent] in Hx. apply elem_of_union in Hx as [->%elem_of_singleton|?]; auto.
  - destruct p; try (by apply elem_of_nil in Hin). case_match; in_list Hin. injection Hin as -> ->.
    cbn [KeyedEvent with_KeyedEvent] in Hx. apply elem_of_difference in Hx as [? _]. auto.
Qed.

Lemma set_keys n σ a W p σ' oc x : W = a ∨ W = NULL ∧ (∀ q, p ≠ set_block q) →
  (σ', oc) ∈ PhSetWakeEvent n σ W p → x ∈ KeyedEvent σ' → x = a ∨ x ∈ KeyedEvent σ.
Proof.
  intros HW Hin Hx. destruct p as [| |y|y z|y z| |q]; cbn [PhSetWakeEvent] in Hin; unfold read, write, NtReleaseKeyedEvent in Hin;
    try (repeat case_match; in_list Hin; injection Hin as -> ->; cbn in Hx; auto; rewrite ?elem_of_difference in Hx; tauto).
  apply list_elem_of_fmap in Hin as ([σ1 o1] & [= -> ->] & Hin). destruct HW as [->|[_ HW]]; [|by destruct (HW q)].
  eapply (block_keys false); [|done]. apply elem_of_app. by left.
Qed.

(** A thread that sets the event never waits in doing so. *)
Definition plain_setting (d : activity) : Prop := ∀ q, d ≠ Setting (set_block q) ∧ d ≠ Setting set_test.

Lemma next_keys n u T σ t σ' t' : (σ', t') ∈ next n u T σ t → plain_setting (Doing t) →
  Address t' = Address t ∧ plain_setting (Doing t') ∧ ∀ x, x ∈ KeyedEvent σ' → x = Address t ∨ x ∈ KeyedEvent σ.
Proof.
  destruct t as [a d]. intros Hin Hp. apply list_elem_of_fmap in Hin as ([σ1 d'] & [= -> ->] & Hin). cbn [Address Doing] in *. split; [done|].
  destruct d as [|p| |U p|p|p|]; cbn [act] in Hin.
  - in_list Hin; injection Hin as -> ->; split; try (by intros q); auto.
  - apply list_elem_of_fmap in Hin as ([σ2 oc] & E & Hin). destruct p as [|v]; cbn [PhfQueueWakeEvent] in Hin; [|case_match]; in_list Hin;
      injection Hin as -> ->; injection E as -> ->; split; try (by intros q); auto.
  - apply elem_of_app in Hin as [Hin|Hin]; [|destruct T]; in_list Hin; injection Hin as -> ->; split; try (by intros q); auto.
  - apply list_elem_of_fmap in Hin as ([σ2 oc] & E & Hin).
    assert (plain_setting d' ∧ KeyedEvent σ1 = KeyedEvent σ2) as [Hd' ->] by (destruct oc; by injection E as -> ->). split; [done|]. intros x Hx.
    destruct p as [q|q]; cbn [PhfWaitForWakeEvent] in Hin; apply list_elem_of_fmap in Hin as ([σ3 o3] & [= -> _] & Hin);
      [by eapply block_keys|eapply set_keys; [|done|done]; by left].
  - apply list_elem_of_fmap in Hin as ([σ2 oc] & E & Hin).
    assert (plain_setting d' ∧ KeyedEvent σ1 = KeyedEvent σ2) as [Hd' ->] by (destruct oc; by injection E as -> ->). split; [done|]. intros x Hx.
    eapply set_keys; [|done|done]. by left.
  - apply list_elem_of_fmap in Hin as ([σ2 oc] & E & Hin).
    assert (∀ q, p ≠ set_block q) as Hq by (intros q ->; by destruct (Hp q)).
    assert (KeyedEvent σ1 = KeyedEvent σ2) as -> by (destruct oc; by injection E as -> ->). split.
    + assert (p ≠ set_test) as Ht by (intros ->; by destruct (Hp block_reset)).
      assert (∀ z, plain_setting (snd (call a false Setting Idle (σ2, set_loop NULL z)))) as Hl by (intros z; unfold set_loop; repeat case_match; try done; by cbn).
      destruct p as [| |y|y z|y z| |q]; cbn [PhSetWakeEvent] in Hin; unfold read, write, NtReleaseKeyedEvent in Hin; try done; [..|by destruct (Hq q)];
        repeat case_match; in_list Hin; injection Hin as -> ->; try (injection E as -> ->); try done; apply (f_equal snd) in E; cbn [snd] in E; rewrite E; apply Hl.
    + intros x Hx. eapply set_keys; [|done|done]. right. auto.
  - by apply elem_of_nil in Hin.
Qed.

(** ** Properties *)

(** C15. Wake events without timeouts are safe and lose no wakeup. For any number of
    threads with wait blocks at addresses aligned to 16 bytes, in every state that
    calls can lead to: no thread accesses a block that is not in use, although a
    thread's block goes out of use as soon as its wait or cancelled wait returns; and if
    no thread that is doing something can make a step, all such threads wait at their
    keys with their blocks on the event, so that it has not been set since they
    queued them. *)
Theorem wake_event_safe spins uninitialized n address s :
  Addresses n address →
  reachable (next spins uninitialized false) (start address n) s →
  (∀ i u, threads s !! i = Some u → Doing u ≠ Faulted) ∧
  ((∀ i u, threads s !! i = Some u → Doing u ≠ Idle → next spins uninitialized false (shared s) u = []) →
   ∀ i u, threads s !! i = Some u → Doing u ≠ Idle → sleeps u ∧ on_event (shared s) (Address u)).
Proof.
  intros Ha Hs. apply wake_invariant_reachable in Hs as HI; [|done]. split; [|by intros; eapply stuck_sleeps].
  intros i u Hu Hd. destruct HI as (l & hands & HI). destruct (inv_hands_lookup _ _ _ i u HI Hu) as (h & _ & Hok).
  pose proof (ok_plain _ _ _ _ _ Hok) as Hp. by rewrite Hd in Hp.
Qed.

(** Two threads that wait, one of them cancelling its wait at the same time. *)
Definition wake_schedule : list (nat * nat) :=
  [(0, 0); (0, 0); (0, 0); (1, 0); (1, 0); (1, 0); (0, 0); (0, 0); (0, 0); (1, 2); (1, 0); (1, 0); (1, 0); (1, 0)]%nat.

Definition no_block : PH_QUEUED_WAIT_BLOCK := WaitBlock 7 7 7 7 7.

Lemma wake_event_safe_witness : ∃ s, run (next 0 no_block false) wake_schedule (start row 2) = Some s ∧
  Doing <$> threads s = [Waiting false (wait_block block_wait); Cancelling (set_next 16)] ∧
  (∀ i u, threads s !! i = Some u → Doing u ≠ Faulted).
Proof.
  eexists. split; [by vm_compute|]. split; [by vm_compute|].
  eapply (wake_event_safe 0 no_block 2 row); [by apply row_addresses|].
  by apply (run_steps _ wake_schedule).
Defined.

(** A wait whose timeout passes never ends. A thread queues its block and waits
    for the event with a timeout, which passes before anyone sets the event; then
    [PhfWaitForWakeEvent] sets the event to take its block off, finds in its own block
    the spinning flag that it cleared when it blocked, and waits for itself to arrive at
    its key. Whatever the other thread does from then on, it stays there. *)
Theorem wake_event_timeout spins uninitialized :
  ∃ s, run (next spins uninitialized true) [(0, 0); (0, 0); (0, 0); (0, 3); (0, 0); (0, 0); (0, 0); (0, 0); (0, 0); (0, 0); (0, 0)]%nat
         (start row 2) = Some s ∧
  Doing <$> threads s !! 0%nat = Some (Waiting true (wait_set (set_release (row 0) NULL))) ∧
  ∀ s', rtc (step (next spins uninitialized true)) s s' → threads s' !! 0%nat = threads s !! 0%nat.
Proof.
  eexists. split; [by vm_compute|]. split; [by vm_compute|]. set (s := System _ _). intros s' Hs.
  assert (∃ u, threads s' = [Thread (row 0) (Waiting true (wait_set (set_release (row 0) NULL))); u] ∧ plain_setting (Doing u) ∧
    Address u = row 1 ∧ row 0 ∉ KeyedEvent (shared s')) as (u & -> & _); [|done].
  eapply (steps_invariant _ (λ s, ∃ u, threads s = [_; u] ∧ plain_setting (Doing u) ∧ Address u = row 1 ∧ row 0 ∉ KeyedEvent (shared s))); [|exact Hs|].
  - intros s1 s2 (u & Hu & Hp & Ha & HK) Hstep. destruct Hstep as [i σ ts t σ' t' Hi Hin]. cbn [threads shared] in *. subst ts.
    destruct i as [|[|i]]; [| |by destruct i].
    + injection Hi as <-. exfalso. unfold next in Hin. apply list_elem_of_fmap in Hin as (? & _ & Hin). cbn [Address Doing act] in Hin.
      apply list_elem_of_fmap in Hin as (? & _ & Hin). cbn [PhfWaitForWakeEvent PhSetWakeEvent] in Hin.
      apply list_elem_of_fmap in Hin as (? & _ & Hin). unfold NtReleaseKeyedEvent in Hin. case_decide; [done|]. by apply elem_of_nil in Hin.
    + injection Hi as <-. exists t'. destruct (next_keys _ _ _ _ _ _ _ Hin Hp) as (Ha' & Hp' & HK'). split; [done|].
      split; [done|]. split; [congruence|]. intros Hr. apply HK' in Hr as [Hr|Hr]; [by rewrite Ha in Hr|done].
  - exists (Thread (row 1) Idle). by split_and!.
Qed.
