(* ===== verification/Condition.v ===== *)
(** Condition variables (src/phlib/queuedlock.c): queues of wait blocks that are used
    while a lock is held, with the same list of blocks as the queued lock's. The calls
    of one thread are followed from one point to the next; while it holds the lock
    no other thread uses the list. *)

From S2P Require Import Prelude Concurrency QueuedLock QueuedLockFacts.

Definition PhInitializeCondition : state := PhInitializeQueuedLock.

(** ** The operations *)

(** [PhfPulseCondition] and [PhfPulseAllCondition]: whether there are waiters, the
    value that is passed, and the function that wakes. *)
Inductive pulse :=
  | pulse_check
  | pulse_value
  | pulse_waking (p : traverse).

Definition pulse_step (WakeAll : bool) (Condition : state) (p : pulse) : list (state * outcome pulse) :=
  match p with
  | pulse_check =>
      if is_set (Value Condition) PH_QUEUED_LOCK_WAITERS then [(Condition, Continue pulse_value)] else [(Condition, Return true)]
  | pulse_value => [(Condition, map_outcome pulse_waking Return (prepare_loop true (Value Condition)))]
  | pulse_waking p => prod_map id (map_outcome pulse_waking Return) <$> traverse_step true WakeAll Condition p
  end.

Definition PhfPulseCondition : state → pulse → list (state * outcome pulse) := pulse_step false.
Definition PhfPulseAllCondition : state → pulse → list (state * outcome pulse) := pulse_step true.

(** [PhfWaitForCondition], over the condition and its lock. *)
Inductive wait :=
  | wait_read
  | wait_push (value : Z)
  | wait_optimize (p : traverse)
  | wait_release (p : release_exclusive)
  | wait_block (p : block)
  | wait_acquire (p : acquire).

Section Functions.
Context (PhQueuedLockSpinCount : Z).

(** [waitBlock] is the block for the condition, [lockBlock] the one that the lock's
    function has. When the wait is over the first is no longer in use. *)
Definition PhfWaitForCondition (s : state * state) (waitBlock lockBlock : Z) (p : wait) : list ((state * state) * outcome wait) :=
  let '(Condition, Lock) := s in
  match p with
  | wait_read => [(s, Continue (wait_push (Value Condition)))]
  | wait_push value =>
      prod_map (λ c, (c, Lock)) id <$>
      PhpPushQueuedWaitBlock Condition value true waitBlock
        (λ (optimize : bool) currentValue,
           if optimize then map_outcome wait_optimize (λ _, Continue (wait_release release_add)) (optimize_loop true currentValue)
           else Continue (wait_release release_add))
        (λ value, Continue (wait_push value))
  | wait_optimize p =>
      prod_map (λ c, (c, Lock)) (map_outcome wait_optimize (λ _, Continue (wait_release release_add))) <$>
      traverse_step true false Condition p
  | wait_release p =>
      prod_map (pair Condition) (map_outcome wait_release (λ _, Continue (wait_block (block_start PhQueuedLockSpinCount false)))) <$>
      PhReleaseQueuedLockExclusive Lock p
  | wait_block p =>
      '(c, o) ← PhpBlockOnQueuedWaitBlock Condition waitBlock p;
      match o with
      | Return _ => [((with_Blocks c (delete waitBlock (Blocks c)), Lock), Continue (wait_acquire acquire_read))]
      | o => [((c, Lock), map_outcome wait_block Return o)]
      end
  | wait_acquire p =>
      prod_map (pair Condition) (map_outcome wait_acquire Return) <$> PhfAcquireQueuedLockExclusive PhQueuedLockSpinCount Lock lockBlock p
  end.

End Functions.

(** One call, step by step, until it has returned. *)
Definition going {S P} (step : S → P → list (S * outcome P)) (s : S) (o : outcome P) : list (S * outcome P) :=
  match o with Continue p => step s p | _ => [] end.

(** ** The queue that a condition stands for

    The blocks from the oldest on. *)
Definition exclusive_flag (b : PH_QUEUED_WAIT_BLOCK) : bool := is_set (Flags b) PH_QUEUED_WAITER_EXCLUSIVE.

Record queue (σ : state) (r : list Z) : Prop := {
  queue_value : Value σ = match last r with None => 0 | Some a => word a true true false false end;
  queue_nodup : NoDup r;
  queue_good : Forall good r;
  queue_previous k x y : r !! k = Some x → r !! S k = Some y → Previous <$> Blocks σ !! x = Some y;
  queue_newest x : last r = Some x → Previous <$> Blocks σ !! x = Some NULL;
  queue_last x z : head r = Some x → last r = Some z → Last <$> Blocks σ !! z = Some x;
  queue_exclusive x : x ∈ r → exclusive_flag <$> Blocks σ !! x = Some true;
}.

(** A thread that waits has either not blocked yet, or it has arrived at its key. *)
Definition sleeping (σ : state) (x : Z) : Prop :=
  spinning <$> Blocks σ !! x = Some true ∧ x ∉ KeyedEvent σ ∨ spinning <$> Blocks σ !! x = Some false ∧ x ∈ KeyedEvent σ.

(** It has been let go: it is not going to block, or no longer blocks. *)
Definition let_go (σ : state) (x : Z) : Prop := spinning <$> Blocks σ !! x = Some false ∧ x ∉ KeyedEvent σ.

(** ** Following a call *)

Lemma fmap_head {A B} (f : A → B) (x : A) (l : list A) : f <$> (x :: l) = f x :: (f <$> l).
Proof. done. Qed.

Section Waits.
Context (n : Z) (L : state) (a lockBlock : Z).

Local Abbreviation reaches := (reaches (going (λ s, PhfWaitForCondition n s a lockBlock))).

(** A step of the part that optimizes the list. *)
Lemma reaches_optimize c c' p oc Q :
  traverse_step true false c p = [(c', oc)] →
  reaches (c', L) (map_outcome wait_optimize (λ _, Continue (wait_release release_add)) oc) Q →
  reaches (c, L) (Continue (wait_optimize p)) Q.
Proof. intros E HQ. apply reaches_next. cbn [going PhfWaitForCondition]. by rewrite E. Qed.

End Waits.

Lemma read_block {P} σ x b (k : PH_QUEUED_WAIT_BLOCK → outcome P) : Blocks σ !! x = Some b → read σ x k = [(σ, k b)].
Proof. unfold read. by intros ->. Qed.

Lemma write_block {P} σ x b f (k : PH_QUEUED_WAIT_BLOCK → outcome P) :
  Blocks σ !! x = Some b → write σ x f k = [(with_Blocks σ (<[x := f b]> (Blocks σ)), k b)].
Proof. unfold write. by intros ->. Qed.

Lemma exchange_word {P} σ new old ok (k : Z → outcome P) : Value σ = old → exchange σ new old ok k = [(with_Value σ (u64 new), ok)].
Proof. unfold exchange. intros ->. by rewrite Z.eqb_refl. Qed.

Lemma word_u64 a o w t m : good a → u64 (word a o w t m) = word a o w t m.
Proof. intros Ha. apply Z.mod_small. pose proof (queued_word_range a Ha o w t m). lia. Qed.

(** The word when the traversing bit goes. *)
Lemma word_traversed a o w m : word a o w true m - PH_QUEUED_LOCK_TRAVERSING = word a o w false m.
Proof. unfold word, PH_QUEUED_LOCK_TRAVERSING. cbn [Z.b2z]. lia. Qed.

Lemma queue_block σ r x : queue σ r → x ∈ r → ∃ b, Blocks σ !! x = Some b ∧ exclusive_flag b = true.
Proof.
  intros HQ Hx. pose proof (queue_exclusive _ _ HQ x Hx) as H. destruct (Blocks σ !! x) as [b|]; [|done]. injection H as H. eauto.
Qed.

Lemma queue_nonnull σ r x : queue σ r → x ∈ r → good x ∧ x ≠ NULL.
Proof. intros HQ Hx. pose proof (queue_good _ _ HQ) as Hg. rewrite Forall_forall in Hg. specialize (Hg x Hx) as [? ?]. unfold NULL. split; [done|lia]. Qed.

(** The queue with one more block: [b] is the block that was pushed with its pointers
    set, [h] the one that was the newest. *)
Lemma queue_push σ r a b : queue σ r → good a → a ∉ r →
  Previous b = NULL → exclusive_flag b = true → Last b = default a (head r) →
  ∀ B', B' !! a = Some b →
    (∀ x, x ∈ r → ∃ y, Blocks σ !! x = Some y ∧ B' !! x = Some (if decide (last r = Some x) then with_Previous y a else y)) →
  ∀ v K, v = word a true true false false → queue (State v B' K) (r ++ [a]).
Proof.
  intros HQ Ha Har Hp He Hl B' Hb Hr v K ->. constructor; cbn [Value Blocks].
  - by rewrite last_snoc.
  - apply NoDup_app. split; [apply (queue_nodup _ _ HQ)|]. split; [|apply NoDup_singleton]. intros x Hx ->%list_elem_of_singleton. done.
  - apply Forall_app. split; [apply (queue_good _ _ HQ)|]. by apply Forall_singleton.
  - intros k x y Hx Hy. apply lookup_lt_Some in Hy as Hlen. rewrite length_app in Hlen. cbn [length] in Hlen.
    rewrite lookup_app_l in Hx by lia. destruct (Hr x) as (z & Hz & ->); [by eapply list_elem_of_lookup_2|].
    destruct (decide (S k = length r)) as [E|E].
    + rewrite lookup_app_r in Hy by lia. rewrite E, Nat.sub_diag in Hy. injection Hy as <-.
      rewrite decide_True by (rewrite last_lookup, <-E; done). done.
    + rewrite lookup_app_l in Hy by lia. pose proof (queue_previous _ _ HQ k x y Hx Hy) as Hpr. rewrite Hz in Hpr.
      rewrite decide_False; [done|]. rewrite last_lookup. intros Hx'.
      pose proof (NoDup_lookup _ _ _ _ (queue_nodup _ _ HQ) Hx Hx'). lia.
  - intros x. rewrite last_snoc. intros [= <-]. rewrite Hb. cbn. by rewrite Hp.
  - intros x z Hh. rewrite last_snoc. intros [= <-]. rewrite Hb. cbn. rewrite Hl. destruct r; by injection Hh as ->.
  - intros x [Hx| ->%list_elem_of_singleton]%elem_of_app; [|rewrite Hb; cbn; by rewrite He].
    destruct (Hr x Hx) as (y & Hy & ->). pose proof (queue_exclusive _ _ HQ x Hx) as H. rewrite Hy in H. by case_decide.
Qed.

(** What waiting does before it releases the lock, and what it leaves alone. *)
Definition enqueued (c : state) (L : state) (r : list Z) (a : Z) (s : state * state) (o : outcome wait) : Prop :=
  o = Continue (wait_release release_add) ∧ s.2 = L ∧ queue s.1 (r ++ [a]) ∧ KeyedEvent s.1 = KeyedEvent c ∧
  spinning <$> Blocks s.1 !! a = Some true ∧
  ∀ x, x ≠ a → spinning <$> Blocks s.1 !! x = spinning <$> Blocks c !! x.

Lemma enqueue_alone n L lockBlock c r a : queue c r → good a → a ∉ r →
  reaches (going (λ s, PhfWaitForCondition n s a lockBlock)) (c, L) (Continue wait_read) (enqueued c L r a).
Proof.
  intros HQ Ha Har. pose proof (queue_value _ _ HQ) as Hv.
  apply reaches_next. cbn [going PhfWaitForCondition]. apply reaches_next. cbn [going PhfWaitForCondition].
  unfold PhpPushQueuedWaitBlock. rewrite Z.eqb_refl, !fmap_head. cbn [prod_map fst snd]. destruct (last r) as [h|] eqn:Hh.
  - assert (h ∈ r) as Hhr by (by apply last_Some_elem_of). destruct (queue_nonnull _ _ _ HQ Hhr) as [Hg Hhn].
    destruct (queue_block _ _ _ HQ Hhr) as (bh & Hbh & Heh). assert (h ≠ a) as Hha by congruence.
    assert (∃ x, head r = Some x) as [x Hx] by (destruct r; [done|eauto]).
    assert (x ∈ r) as Hxr by (by apply head_Some_elem_of). destruct (queue_nonnull _ _ _ HQ Hxr) as [_ Hxn].
    pose proof (queue_last _ _ HQ x h Hx Hh) as Hl. rewrite Hbh in Hl. injection Hl as Hl.
    rewrite Hv. unfold push_optimize. rewrite word_waiters, word_traversing by done. cbn [andb negb].
    rewrite push_value_waiters by done. unfold optimize_loop at 1. rewrite word_traversing by done. cbn [negb andb map_outcome]. rewrite word_block by done.
    set (b := push_block (word h true true false false) true a).
    assert (b = WaitBlock h NULL NULL 0 (Z.lor PH_QUEUED_WAITER_EXCLUSIVE PH_QUEUED_WAITER_SPINNING)) as Hb
      by (unfold b, push_block; by rewrite word_waiters, word_block).
    set (B1 := <[a := b]> (Blocks c)). set (v := word a true true true false).
    assert (B1 !! a = Some b) as Ha1 by apply lookup_insert_eq.
    assert (B1 !! h = Some bh) as Hh1 by (unfold B1; by rewrite lookup_insert_ne).
    eapply reaches_optimize; [cbn [traverse_step]; by rewrite (read_block _ _ b)|]. rewrite Hb at 1. cbn [Last]. rewrite Z.eqb_refl. cbn [map_outcome].
    eapply reaches_optimize; [cbn [traverse_step]; by rewrite (read_block _ _ b)|]. rewrite Hb at 1. cbn [Next map_outcome].
    eapply reaches_optimize; [cbn [traverse_step]; by rewrite (write_block _ _ bh)|]. cbn [map_outcome with_Blocks Value Blocks KeyedEvent].
    set (B2 := <[h := with_Previous bh a]> B1).
    assert (B2 !! h = Some (with_Previous bh a)) as Hh2 by apply lookup_insert_eq.
    assert (B2 !! a = Some b) as Ha2 by (unfold B2; by rewrite lookup_insert_ne).
    eapply reaches_optimize; [cbn [traverse_step]; by rewrite (read_block _ _ (with_Previous bh a))|].
    change (Last (with_Previous bh a)) with (Last bh). rewrite Hl, (proj2 (Z.eqb_neq x NULL)) by done. cbn [map_outcome].
    eapply reaches_optimize; [cbn [traverse_step]; unfold v at 2; rewrite word_block by done; by rewrite (write_block _ _ b)|].
    cbn [map_outcome with_Blocks Value Blocks KeyedEvent].
    eapply reaches_optimize; [cbn [traverse_step]; by rewrite exchange_word|]. cbn [map_outcome with_Value Blocks KeyedEvent].
    apply reaches_here. unfold v. rewrite word_traversed, word_u64 by done.
    split_and!; cbn [fst snd]; try done.
    + eapply (queue_push c r a (with_Last b x)); [done|done|done|by rewrite Hb|by rewrite Hb|by rewrite Hx|by apply lookup_insert_eq| |done].
      intros y Hy. assert (y ≠ a) by congruence. destruct (queue_block _ _ _ HQ Hy) as (by' & Hby & _). exists by'. split; [done|].
      cbn [Blocks with_Blocks with_Value]. rewrite lookup_insert_ne by done. unfold B2, B1. case_decide as E.
      * rewrite Hh in E. injection E as <-. rewrite lookup_insert_eq. congruence.
      * rewrite lookup_insert_ne by congruence. by rewrite lookup_insert_ne.
    + cbn [Blocks with_Blocks with_Value]. rewrite lookup_insert_eq. by rewrite Hb.
    + intros y Hy. cbn [Blocks with_Blocks with_Value]. rewrite lookup_insert_ne by done. unfold B2. destruct (decide (y = h)) as [->|Hyh].
      * rewrite lookup_insert_eq, Hbh. done.
      * rewrite lookup_insert_ne by done. unfold B1. by rewrite lookup_insert_ne.
  - apply last_None in Hh. subst r. rewrite Hv. change 0 with (free_word false 0). unfold push_optimize.
    rewrite push_value_free by done. rewrite free_waiters by done. cbn [andb negb Z.ltb Z.compare].
    apply reaches_here. split_and!; cbn [fst snd]; try done.
    + eapply (queue_push c [] a (push_block (free_word false 0) true a)); [done..|by apply lookup_insert_eq|by intros x ?%elem_of_nil|done].
    + cbn [Blocks]. by rewrite lookup_insert_eq.
    + intros y Hy. cbn [Blocks]. by rewrite lookup_insert_ne.
Qed.

(** *** Waking *)

Section Pulses.
Context (WakeAll : bool).

Local Abbreviation reaches := (reaches (going (pulse_step WakeAll))).
Local Abbreviation waking := (map_outcome pulse_waking Return).

Lemma reaches_pulse σ σ' p oc Q :
  traverse_step true WakeAll σ p = [(σ', oc)] → reaches σ' (waking oc) Q → reaches σ (Continue (pulse_waking p)) Q.
Proof. intros E HQ. apply reaches_next. cbn [going pulse_step]. by rewrite E. Qed.

(** The threads of [hand] are let go, and no other block and no other key is
    touched. *)
Definition woken (σ : state) (hand : list Z) (σ' : state) (o : outcome pulse) : Prop :=
  o = Return true ∧ Value σ' = Value σ ∧ Forall (let_go σ') hand ∧
  ∀ y, y ∉ hand → Blocks σ' !! y = Blocks σ !! y ∧ (y ∈ KeyedEvent σ' ↔ y ∈ KeyedEvent σ).

Lemma wake_alone hand σ :
  linked (Blocks σ) hand → NoDup hand → Forall (λ x, x ≠ NULL) hand → Forall (sleeping σ) hand →
  reaches σ (waking (wake_loop (default NULL (head hand)))) (woken σ hand).
Proof.
  revert σ. induction hand as [|x hand IH]; intros σ Hl HN Hz Hs.
  - apply reaches_here. by split_and!.
  - destruct Hl as [Hp Hl]. apply NoDup_cons in HN as [Hx HN]. apply Forall_cons in Hz as [Hxz Hz]. apply Forall_cons in Hs as [Hsx Hs].
    change (default NULL (head (x :: hand))) with x. unfold wake_loop at 1. rewrite (proj2 (Z.eqb_neq x NULL)) by done. cbn [map_outcome].
    assert (∃ b, Blocks σ !! x = Some b) as [b Hb] by (destruct (Blocks σ !! x); [eauto|done]). rewrite Hb in Hp. injection Hp as Hp.
    eapply reaches_pulse; [cbn [traverse_step]; by rewrite (read_block _ _ b)|]. cbn [map_outcome].
    eapply reaches_pulse; [cbn [traverse_step]; by rewrite (write_block _ _ b)|]. rewrite Hp.
    assert (∀ v K, (∀ y, y ≠ x → y ∈ K ↔ y ∈ KeyedEvent σ) → x ∉ K → v = Value σ →
      reaches (State v (<[x := reset_spinning b]> (Blocks σ)) K) (waking (wake_loop (default NULL (head hand)))) (woken σ (x :: hand))) as Hrest.
    { intros v K HK HxK ->. assert (∀ y, y ∈ hand → <[x := reset_spinning b]> (Blocks σ) !! y = Blocks σ !! y) as Hsame
        by (intros y Hy; rewrite lookup_insert_ne; [done|congruence]).
      eapply reaches_mono; [apply IH; cbn [Blocks]|].
      - eapply linked_frame; [|done]. intros y Hy. unfold agree. by rewrite Hsame.
      - done.
      - done.
      - rewrite Forall_forall in Hs |- *. intros y Hy. specialize (Hs y Hy). revert Hs. unfold sleeping. cbn [Blocks KeyedEvent]. rewrite (Hsame y Hy), HK; [done|congruence].
      - intros σ' o (-> & Hv & Hf & Ho). cbn [Blocks KeyedEvent Value] in *. split_and!; [done|done|constructor; [|done]|].
        + destruct (Ho x Hx) as [HB HK']. unfold let_go. rewrite HB, HK', lookup_insert_eq. split; [apply (f_equal Some), reset_spinning_off|done].
        + intros y [Hyx Hy]%not_elem_of_cons. destruct (Ho y Hy) as [HB HK']. rewrite HB, HK', lookup_insert_ne by done. split; [done|by apply HK]. }
    unfold sleeping in Hsx. rewrite Hb in Hsx. destruct Hsx as [[[= Hsp] HxK]|[[= Hsp] HxK]].
    + rewrite Hsp. by apply Hrest.
    + rewrite Hsp, reset_spinning_id, insert_id by done. cbn [map_outcome].
      eapply reaches_pulse; [cbn [traverse_step]; unfold NtReleaseKeyedEvent; by rewrite decide_True by done|].
      rewrite reset_spinning_id, insert_id in Hrest by done. cbn [with_KeyedEvent with_Blocks Value Blocks KeyedEvent].
      apply Hrest; [|set_solver|done]. intros y Hy. set_solver.
Qed.

Lemma queue_word σ r x : queue σ r → x ∈ r → ∃ h, last r = Some h ∧ good h ∧ h ∈ r ∧ Value σ = word h true true false false.
Proof.
  intros HQ Hx. destruct (last r) as [h|] eqn:Hh; [|apply last_None in Hh; subst; by apply elem_of_nil in Hx].
  assert (h ∈ r) as Hhr by (by apply last_Some_elem_of). exists h. destruct (queue_nonnull _ _ _ HQ Hhr) as [Hg _].
  pose proof (queue_value _ _ HQ) as Hv. rewrite Hh in Hv. done.
Qed.

(** The walk finds the oldest block at once. *)
Lemma pulse_start σ x r Q :
  queue σ (x :: r) →
  reaches σ (waking (if WakeAll then Continue (prepare_exchange (Value σ) x) else Continue (prepare_flags (Value σ) x))) Q →
  reaches σ (Continue pulse_check) Q.
Proof.
  intros HQ Hreach. destruct (queue_word _ _ x HQ) as (h & Hh & Hg & Hhr & Hv); [by left|].
  destruct (queue_block _ _ _ HQ Hhr) as (b & Hb & _). pose proof (queue_last _ _ HQ x h eq_refl Hh) as Hl. rewrite Hb in Hl. injection Hl as Hl.
  destruct (queue_nonnull _ _ x HQ) as [_ Hx]; [by left|].
  apply reaches_next. cbn [going pulse_step]. rewrite Hv, word_waiters by done.
  apply reaches_next. cbn [going pulse_step]. rewrite Hv. unfold prepare_loop, prepare_owned. rewrite word_multiple by done.
  cbn [negb orb andb map_outcome]. rewrite word_block by done.
  eapply reaches_pulse; [cbn [traverse_step]; by rewrite (read_block _ _ b)|]. rewrite Hl, (proj2 (Z.eqb_neq x NULL)) by done. by rewrite <-Hv.
Qed.

(** A call without waiters. *)
Lemma pulse_nothing σ : queue σ [] → reaches σ (Continue pulse_check) (λ σ' o, o = Return true ∧ σ' = σ).
Proof.
  intros HQ. pose proof (queue_value _ _ HQ) as Hv. cbn in Hv. apply reaches_next. cbn [going pulse_step]. rewrite Hv.
  by apply reaches_here.
Qed.

(** The exchange that empties the list. *)
Lemma pulse_exchange σ x r Q :
  queue σ (x :: r) → reaches (with_Value σ 0) (waking (wake_loop x)) Q →
  reaches σ (Continue (pulse_waking (prepare_exchange (Value σ) x))) Q.
Proof. intros HQ HR. eapply reaches_pulse; [cbn [traverse_step]; by rewrite exchange_word|done]. Qed.

End Pulses.

Lemma queue_linked σ r : queue σ r → linked (Blocks σ) r.
Proof.
  intros HQ. assert (∀ l k, drop k r = l → linked (Blocks σ) l) as H; [|by apply (H r 0%nat)].
  induction l as [|x l IH]; [done|]. intros k Hk. assert (r !! k = Some x) as Hx.
  { pose proof (lookup_drop r k 0) as H. rewrite Hk, Nat.add_0_r in H. by symmetry. }
  assert (drop (S k) r = l) as Hl by (rewrite (drop_S r x k Hx) in Hk; by injection Hk).
  split; [|by apply (IH (S k))]. destruct l as [|y l].
  - apply (queue_newest _ _ HQ). rewrite last_lookup. assert (length (drop (S k) r) = 0%nat) as Hlen by (by rewrite Hl).
    rewrite length_drop in Hlen. pose proof (lookup_lt_Some _ _ _ Hx) as Hlt. by assert (length r = S k) as -> by lia.
  - apply (queue_previous _ _ HQ k); [done|]. pose proof (lookup_drop r (S k) 0) as H. rewrite Hl, Nat.add_0_r in H. by symmetry.
Qed.

(** Other blocks and keys are as before, but for the pointers of the list. *)
Definition others_same (σ σ' : state) (hand : list Z) : Prop :=
  ∀ y, y ∉ hand → spinning <$> Blocks σ' !! y = spinning <$> Blocks σ !! y ∧ (y ∈ KeyedEvent σ' ↔ y ∈ KeyedEvent σ).

Lemma empty_queue σ : Value σ = 0 → queue σ [].
Proof.
  intros Hv. constructor; try done; [constructor|by intros x ?%elem_of_nil].
Qed.

Lemma pulse_all_alone σ r : queue σ r → Forall (sleeping σ) r →
  reaches (going PhfPulseAllCondition) σ (Continue pulse_check)
    (λ σ' o, o = Return true ∧ queue σ' [] ∧ Forall (let_go σ') r ∧ others_same σ σ' r).
Proof.
  intros HQ Hs. destruct r as [|x r].
  - eapply reaches_mono; [by apply pulse_nothing|]. intros σ' o [-> ->]. split_and!; [done|done|done|by intros y _].
  - eapply pulse_start; [done|]. cbn [map_outcome]. eapply pulse_exchange; [done|].
    change (wake_loop x) with (wake_loop (default NULL (head (x :: r)))). eapply reaches_mono.
    + apply (wake_alone true (x :: r)); [by apply (queue_linked σ)|apply (queue_nodup _ _ HQ)| |done].
      apply Forall_forall. intros y Hy. by destruct (queue_nonnull _ _ _ HQ Hy).
    + intros σ' o (-> & Hv & Hl & Ho). split_and!; [done|by apply empty_queue|done|].
      intros y Hy. destruct (Ho y Hy) as [-> HK]. done.
Qed.

(** What is left when the oldest block is taken off the list. *)
Lemma queue_pop σ x y r h bh v K B' :
  queue σ (x :: y :: r) → last (y :: r) = Some h → Blocks σ !! h = Some bh →
  (∀ z, z ∈ y :: r → B' !! z = if decide (z = h) then Some (with_Last bh y) else Blocks σ !! z) →
  v = Value σ → queue (State v B' K) (y :: r).
Proof.
  intros HQ Hh Hbh HB ->. pose proof (queue_nodup _ _ HQ) as HN. constructor; cbn [Value Blocks].
  - rewrite (queue_value _ _ HQ). by rewrite last_cons_cons.
  - by apply NoDup_cons in HN as [_ ?].
  - by apply (Forall_cons good x), (queue_good _ _ HQ).
  - intros k z w Hz Hw. rewrite HB by (by eapply list_elem_of_lookup_2). pose proof (queue_previous _ _ HQ (S k) z w Hz Hw) as Hp.
    case_decide as E; [subst z; by rewrite Hbh in Hp|done].
  - intros z Hz. rewrite HB by (by apply last_Some_elem_of). pose proof (queue_newest _ _ HQ z) as Hp. rewrite last_cons_cons in Hp.
    specialize (Hp Hz). case_decide as E; [subst z; by rewrite Hbh in Hp|done].
  - intros z w [= <-] Hw. rewrite Hh in Hw. injection Hw as <-. rewrite HB by (by apply last_Some_elem_of). by rewrite decide_True.
  - intros z Hz. rewrite HB by done. pose proof (queue_exclusive _ _ HQ z) as Hp. specialize (Hp ltac:(by right)).
    case_decide as E; [subst z; by rewrite Hbh in Hp|done].
Qed.

Lemma pulse_alone σ x r : queue σ (x :: r) → sleeping σ x →
  reaches (going PhfPulseCondition) σ (Continue pulse_check)
    (λ σ' o, o = Return true ∧ queue σ' r ∧ let_go σ' x ∧ others_same σ σ' [x]).
Proof.
  intros HQ Hs. eapply pulse_start; [done|]. cbn [map_outcome].
  destruct (queue_block _ _ x HQ) as (b & Hb & Heb); [by left|]. destruct (queue_nonnull _ _ x HQ) as [_ Hxn]; [by left|].
  eapply reaches_pulse; [cbn [traverse_step]; by rewrite (read_block _ _ b)|]. fold (exclusive_flag b). rewrite Heb. cbn [map_outcome].
  eapply reaches_pulse; [cbn [traverse_step]; by rewrite (read_block _ _ b)|].
  destruct r as [|y r].
  - pose proof (queue_newest _ _ HQ x eq_refl) as Hp. rewrite Hb in Hp. injection Hp as Hp. rewrite Hp, Z.eqb_refl. cbn [map_outcome].
    eapply pulse_exchange; [done|]. change (wake_loop x) with (wake_loop (default NULL (head [x]))). eapply reaches_mono.
    + apply (wake_alone false [x]); [by apply (queue_linked σ)|apply NoDup_singleton|apply Forall_singleton; exact Hxn|by apply Forall_singleton].
    + intros σ' o (-> & Hv & [Hl _]%Forall_cons & Ho). split; [done|]. split; [by apply empty_queue|]. split; [exact Hl|].
      intros z Hz. destruct (Ho z Hz) as [-> HK]. done.
  - pose proof (queue_previous _ _ HQ 0 x y eq_refl eq_refl) as Hp. rewrite Hb in Hp. injection Hp as Hp.
    destruct (queue_nonnull _ _ y HQ) as [_ Hyn]; [right; by left|]. rewrite Hp, (proj2 (Z.eqb_neq y NULL)) by done. cbn [map_outcome].
    destruct (queue_word _ _ x HQ) as (h & Hh & Hg & Hhr & Hv); [by left|]. rewrite last_cons_cons in Hh.
    destruct (queue_block _ _ _ HQ Hhr) as (bh & Hbh & _).
    assert (h ≠ x) as Hhx. { intros ->. pose proof (queue_nodup _ _ HQ) as [Hx _]%NoDup_cons. by apply Hx, last_Some_elem_of. }
    eapply reaches_pulse; [cbn [traverse_step]; rewrite Hv, word_block by done; by rewrite (write_block _ _ bh)|]. cbn [map_outcome].
    eapply reaches_pulse; [cbn [traverse_step]; rewrite (write_block _ _ b); [done|by cbn [Blocks with_Blocks]; rewrite lookup_insert_ne]|].
    set (B1 := <[x := _]> _). match goal with |- context [with_Blocks ?s B1] => change (with_Blocks s B1) with (State (Value σ) B1 (KeyedEvent σ)) end.
    change (wake_loop x) with (wake_loop (default NULL (head [x]))).
    assert (B1 !! x = Some (with_Previous b NULL)) as Hx1 by apply lookup_insert_eq.
    assert (∀ z, z ≠ x → B1 !! z = if decide (z = h) then Some (with_Last bh y) else Blocks σ !! z) as HB1.
    { intros z Hz. unfold B1. rewrite lookup_insert_ne by done. cbn [Blocks with_Blocks]. case_decide as E; [subst z; apply lookup_insert_eq|by rewrite lookup_insert_ne]. }
    eapply reaches_mono.
    + apply (wake_alone false [x]); [split; [change (Previous <$> B1 !! x = Some NULL); by rewrite Hx1|done]|apply NoDup_singleton|apply Forall_singleton; exact Hxn|].
      apply Forall_singleton. unfold sleeping in *. cbn [Blocks KeyedEvent]. rewrite Hx1. by rewrite Hb in Hs.
    + intros [v' B' K'] o (-> & Hv' & [Hl _]%Forall_cons & Ho). cbn [Value Blocks KeyedEvent] in *.
      split; [done|]. split; [|split; [done|]].
      * eapply queue_pop; [done|done|done| |done]. intros z Hz.
        assert (z ≠ x) by (intros ->; by pose proof (queue_nodup _ _ HQ) as [Hx _]%NoDup_cons).
        destruct (Ho z) as [-> _]; [by rewrite list_elem_of_singleton|]. by apply HB1.
      * intros z Hz. destruct (Ho z Hz) as [HB HK]. cbn [Blocks KeyedEvent]. split; [|done]. rewrite list_elem_of_singleton in Hz.
        rewrite HB, HB1 by done. case_decide as E; [subst z; by rewrite Hbh|done].
Qed.

(** ** Property *)

(** C16. A condition variable is a queue that is served in order. Let the blocks of the
    condition be a queue, as they are at first. A thread that waits is at the end of the
    queue when it releases the lock. A pulse wakes the thread at the front, which either
    finds its spinning flag cleared and does not block, or is released from its key, and
    leaves the others in their order; it does nothing if there is none. A pulse of all
    wakes all, and leaves the queue empty. No call accesses a block that is not in use or
    fails an assertion, and none touches a thread that it does not wake. *)
Theorem condition_fifo spins Lock lockBlock σ r :
  queue σ r →
  (∀ a, good a → a ∉ r →
     reaches (going (λ s, PhfWaitForCondition spins s a lockBlock)) (σ, Lock) (Continue wait_read) (enqueued σ Lock r a)) ∧
  (∀ x r', r = x :: r' → sleeping σ x →
     reaches (going PhfPulseCondition) σ (Continue pulse_check)
       (λ σ' o, o = Return true ∧ queue σ' r' ∧ let_go σ' x ∧ others_same σ σ' [x])) ∧
  (r = [] → reaches (going PhfPulseCondition) σ (Continue pulse_check) (λ σ' o, o = Return true ∧ σ' = σ)) ∧
  (Forall (sleeping σ) r →
     reaches (going PhfPulseAllCondition) σ (Continue pulse_check)
       (λ σ' o, o = Return true ∧ queue σ' [] ∧ Forall (let_go σ') r ∧ others_same σ σ' r)).
Proof.
  intros HQ. split_and!.
  - intros a. by apply enqueue_alone.
  - intros x r' ->. by apply pulse_alone.
  - intros ->. by apply pulse_nothing.
  - by apply pulse_all_alone.
Qed.

Lemma condition_fifo_witness : queue PhInitializeCondition [] ∧
  reaches (going (λ s, PhfWaitForCondition 0 s 16 32)) (PhInitializeCondition, PhInitializeQueuedLock) (Continue wait_read)
    (λ s _, queue s.1 [16]).
Proof.
  split; [by apply empty_queue|]. eapply reaches_mono.
  - apply (condition_fifo 0 PhInitializeQueuedLock 32 PhInitializeCondition []); [by apply empty_queue|done|by apply not_elem_of_nil].
  - intros s o (_ & _ & HQ & _). exact HQ.
Defined.
