(* ===== verification/Event.v ===== *)
(** The event object (src/phlib/sync.c, src/phlib/include/phbasesup.h): a word
    with a bit that says that the event is set and a reference count, and a
    kernel event that is created when a thread has to block and closed by the
    thread that drops the last reference. *)

From S2P Require Import Prelude Concurrency.

Definition PH_EVENT_SET : Z := 0x1.
Definition PH_EVENT_SET_SHIFT : Z := 0.
Definition PH_EVENT_REFCOUNT_SHIFT : Z := 1.
Definition PH_EVENT_REFCOUNT_INC : Z := 0x2.
Definition PH_EVENT_REFCOUNT_MASK : Z := Z.shiftl 1 15 - 1.

(** ** Kernel events

    The kernel events that were created, by handle: [None] is a closed one,
    otherwise whether it is signalled. [InvalidCloses] counts the calls of
    [NtClose] with a handle that is closed already. *)
Record kernel := { objects : list (option bool); InvalidCloses : Z }.

Definition HANDLE : Type := option nat.

Record PH_EVENT := { Value : Z; EventHandle : HANDLE }.

(** An event and the kernel. *)
Record state := { Event : PH_EVENT; Kernel : kernel }.

Definition with_value (σ : state) (v : Z) : state :=
  {| Event := {| Value := v; EventHandle := EventHandle (Event σ) |}; Kernel := Kernel σ |}.
Definition with_handle (σ : state) (h : HANDLE) : state :=
  {| Event := {| Value := Value (Event σ); EventHandle := h |}; Kernel := Kernel σ |}.
Definition with_objects (σ : state) (l : list (option bool)) : state :=
  {| Event := Event σ; Kernel := {| objects := l; InvalidCloses := InvalidCloses (Kernel σ) |} |}.

Definition NtClose (h : nat) (σ : state) : state :=
  match objects (Kernel σ) !! h with
  | Some (Some _) => with_objects σ (<[h := None]> (objects (Kernel σ)))
  | _ => {| Event := Event σ;
            Kernel := {| objects := objects (Kernel σ); InvalidCloses := InvalidCloses (Kernel σ) + 1 |} |}
  end.

Definition NtSetEvent (h : nat) (σ : state) : state :=
  match objects (Kernel σ) !! h with
  | Some (Some _) => with_objects σ (<[h := Some true]> (objects (Kernel σ)))
  | _ => σ
  end.

(** The results of [NtWaitForSingleObject], [true] for [STATUS_WAIT_0]: none
    while the wait blocks; failure for what is no handle; the expiry of a time
    limit whenever there is one. *)
Definition NtWaitForSingleObject (h : HANDLE) (limited : bool) (σ : state) : list bool :=
  match h with
  | Some h =>
      match objects (Kernel σ) !! h with
      | Some (Some signalled) => (if signalled : bool then [true] else []) ++ (if limited then [false] else [])
      | _ => [false]
      end
  | None => [false]
  end.

(** ** The functions *)

Definition PhInitializeEvent : PH_EVENT := {| Value := PH_EVENT_REFCOUNT_INC; EventHandle := None |}.

(** [_InterlockedExchangeAddPointer]: the value before. *)
Definition InterlockedExchangeAdd (σ : state) (n : Z) : state * Z :=
  (with_value σ (u64 (Value (Event σ) + n)), Value (Event σ)).

Definition PhpReferenceEvent (σ : state) : state := (InterlockedExchangeAdd σ PH_EVENT_REFCOUNT_INC).1.

Inductive dereference :=
  | deref_add (h : HANDLE)
  | deref_close (h : nat)
  | deref_clear.

(** [None] is the return of the function. *)
Definition PhpDereferenceEvent (σ : state) (p : dereference) : state * option dereference :=
  match p with
  | deref_add h =>
      let '(σ, value) := InterlockedExchangeAdd σ (- PH_EVENT_REFCOUNT_INC) in
      if Z.land (Z.shiftr value PH_EVENT_REFCOUNT_SHIFT) PH_EVENT_REFCOUNT_MASK - 1 =? 0 then
        match h with
        | Some h => (σ, Some (deref_close h))
        | None => (σ, None)
        end
      else (σ, None)
  | deref_close h => (NtClose h σ, Some deref_clear)
  | deref_clear => (with_handle σ None, None)
  end.

Inductive set_event :=
  | set_bit
  | set_read_handle
  | set_signal (h : nat)
  | set_dereference (p : dereference).

Definition PhfSetEvent (σ : state) (p : set_event) : list (state * outcome set_event) :=
  match p with
  | set_bit =>
      let value := Value (Event σ) in
      let σ := with_value σ (Z.lor value (Z.shiftl 1 PH_EVENT_SET_SHIFT)) in
      if Z.testbit value PH_EVENT_SET_SHIFT then [(σ, Return true)] else [(σ, Continue set_read_handle)]
  | set_read_handle =>
      match EventHandle (Event σ) with
      | Some h => [(σ, Continue (set_signal h))]
      | None => [(σ, Continue (set_dereference (deref_add None)))]
      end
  | set_signal h => [(NtSetEvent h σ, Continue (set_dereference (deref_add (Some h))))]
  | set_dereference p =>
      match PhpDereferenceEvent σ p with
      | (σ, Some p) => [(σ, Continue (set_dereference p))]
      | (σ, None) => [(σ, Return true)]
      end
  end.

(** A time limit: none, zero, or a time. *)
Inductive timeout := Infinite | Zero | Limited.

Inductive wait_event :=
  | wait_fast
  | wait_read
  | wait_reference
  | wait_read_handle
  | wait_install
  | wait_reread_handle
  | wait_check (h : HANDLE)
  | wait_block (h : HANDLE)
  | wait_dereference (result : bool) (p : dereference).

(** The kernel event that a thread creates is its own until it is installed in
    the event, or closed because another was: creating and installing it are
    one step. [wait_fast] is the test of the inline [PhWaitForEvent]. *)
Definition PhfWaitForEvent (Timeout : timeout) (σ : state) (p : wait_event) : list (state * outcome wait_event) :=
  match p with
  | wait_fast =>
      if Z.testbit (Value (Event σ)) 0 then [(σ, Return true)] else [(σ, Continue wait_read)]
  | wait_read =>
      if negb (Z.land (Value (Event σ)) PH_EVENT_SET =? 0) then [(σ, Return true)]
      else match Timeout with
           | Zero => [(σ, Return false)]
           | _ => [(σ, Continue wait_reference)]
           end
  | wait_reference => [(PhpReferenceEvent σ, Continue wait_read_handle)]
  | wait_read_handle =>
      match EventHandle (Event σ) with
      | Some h => [(σ, Continue (wait_check (Some h)))]
      | None => [(σ, Continue wait_install)]
      end
  | wait_install =>
      match EventHandle (Event σ) with
      | None =>
          let h := length (objects (Kernel σ)) in
          [(with_handle (with_objects σ (objects (Kernel σ) ++ [Some false])) (Some h),
            Continue (wait_check (Some h)))]
      | Some _ =>
          [(with_objects σ (objects (Kernel σ) ++ [None]), Continue wait_reread_handle)]
      end
  | wait_reread_handle => [(σ, Continue (wait_check (EventHandle (Event σ))))]
  | wait_check h =>
      if Z.land (Value (Event σ)) PH_EVENT_SET =? 0 then [(σ, Continue (wait_block h))]
      else [(σ, Continue (wait_dereference true (deref_add h)))]
  | wait_block h =>
      result ← NtWaitForSingleObject h (match Timeout with Limited => true | _ => false end) σ;
      [(σ, Continue (wait_dereference result (deref_add h)))]
  | wait_dereference result p =>
      match PhpDereferenceEvent σ p with
      | (σ, Some p) => [(σ, Continue (wait_dereference result p))]
      | (σ, None) => [(σ, Return result)]
      end
  end.

Definition PhTestEvent (σ : state) : bool := Z.testbit (Value (Event σ)) 0.

(** The event may be reset only when no other thread uses it. *)
Definition PhfResetEvent (σ : state) : state :=
  if PhTestEvent σ then with_value σ PH_EVENT_REFCOUNT_INC else σ.

(** ** Threads *)

Inductive thread :=
  | Idle
  | Setting (p : set_event)
  | Waiting (Timeout : timeout) (p : wait_event)
  | Waited (Timeout : timeout) (result : bool).

Definition next (σ : state) (t : thread) : list (state * thread) :=
  match t with
  | Idle => [(σ, Setting set_bit); (σ, Waiting Infinite wait_fast); (σ, Waiting Zero wait_fast); (σ, Waiting Limited wait_fast)]
  | Setting p =>
      (λ r, (r.1, match r.2 with Continue p => Setting p | Return _ => Idle end)) <$> PhfSetEvent σ p
  | Waiting limit p =>
      (λ r, (r.1, match r.2 with Continue p => Waiting limit p | Return result => Waited limit result end)) <$>
      PhfWaitForEvent limit σ p
  | Waited _ _ => [(σ, Idle)]
  end.

Definition start (n : nat) : system :=
  System {| Event := PhInitializeEvent; Kernel := {| objects := []; InvalidCloses := 0 |} |} (replicate n Idle).

(** ** One-time initialization *)

Definition PH_INITONCE_SHIFT : Z := 31.

Inductive begin_init_once :=
  | begin_test
  | begin_bit
  | begin_wait (p : wait_event).

(** [PhBeginInitOnce] with its inline test: [true] for the thread that is to
    initialize. *)
Definition PhfBeginInitOnce (σ : state) (p : begin_init_once) : list (state * outcome begin_init_once) :=
  match p with
  | begin_test =>
      if Z.testbit (Value (Event σ)) 0 then [(σ, Return false)] else [(σ, Continue begin_bit)]
  | begin_bit =>
      let value := Value (Event σ) in
      let σ := with_value σ (Z.lor value (Z.shiftl 1 PH_INITONCE_SHIFT)) in
      if Z.testbit value PH_INITONCE_SHIFT then [(σ, Continue (begin_wait wait_fast))] else [(σ, Return true)]
  | begin_wait p =>
      (λ r, (r.1, match r.2 with Continue p => Continue (begin_wait p) | Return _ => Return false end)) <$>
      PhfWaitForEvent Infinite σ p
  end.

(** What a thread is doing with a one-time initialization: it has not begun, it
    is in one of the functions, it initializes, or it knows that the
    initialization is over. *)
Inductive once_thread :=
  | Outside
  | Beginning (p : begin_init_once)
  | Initializing
  | Ending (p : set_event)
  | Finished (initialized : bool).

(** [PhfEndInitOnce] is [PhSetEvent]. *)
Definition once_next (σ : state) (t : once_thread) : list (state * once_thread) :=
  match t with
  | Outside => [(σ, Beginning begin_test)]
  | Beginning p =>
      (λ r, (r.1, match r.2 with
                  | Continue p => Beginning p
                  | Return true => Initializing
                  | Return false => Finished false
                  end)) <$> PhfBeginInitOnce σ p
  | Initializing => [(σ, Ending set_bit)]
  | Ending p =>
      (λ r, (r.1, match r.2 with Continue p => Ending p | Return _ => Finished true end)) <$> PhfSetEvent σ p
  | Finished _ => []
  end.

Definition once_start (n : nat) : system :=
  System {| Event := PhInitializeEvent; Kernel := {| objects := []; InvalidCloses := 0 |} |} (replicate n Outside).
