(* ===== verification/EventFacts.v ===== *)
(** The event object: the invariant that ties the reference count, the handle
    and the kernel event to what the threads are doing, for any client of the
    event. *)

From S2P Require Import Prelude Concurrency Event.

(** ** The part of a thread that uses the event

    A client's threads are seen through what they are doing with the event. *)
Inductive part :=
  | Out
  | Sets (p : set_event)
  | Waits (p : wait_event).

Definition sets_after (r : outcome set_event) : part :=
  match r with Continue p => Sets p | Return _ => Out end.
Definition waits_after (r : outcome wait_event) : part :=
  match r with Continue p => Waits p | Return _ => Out end.

(** What a client may do: call a function, run a point of one, or use the bit
    of the word that is free for its own use. *)
Inductive part_step (σ : state) : part → state → part → Prop :=
  | part_out : part_step σ Out σ Out
  | part_set : part_step σ Out σ (Sets set_bit)
  | part_wait : part_step σ Out σ (Waits wait_fast)
  | part_setting p σ' r : (σ', r) ∈ PhfSetEvent σ p → part_step σ (Sets p) σ' (sets_after r)
  | part_waiting limit p σ' r : (σ', r) ∈ PhfWaitForEvent limit σ p → part_step σ (Waits p) σ' (waits_after r)
  | part_bit :
      part_step σ Out (with_value σ (Z.lor (Value (Event σ)) (Z.shiftl 1 PH_INITONCE_SHIFT))) Out.

(** ** The word *)

Definition word (s r b : Z) : Z := s + 2 * r + 2 ^ 31 * b.

Definition fields (s r b : Z) : Prop := 0 ≤ s ≤ 1 ∧ 0 ≤ r < 2 ^ 15 ∧ 0 ≤ b ≤ 1.

Lemma word_set s r b : fields s r b → Z.testbit (word s r b) 0 = (s =? 1).
Proof.
  unfold fields, word. intros Hf. rewrite Z.testbit_eqb by done. f_equal. Z.to_euclidean_division_equations. lia.
Qed.

Lemma word_land_set s r b : fields s r b → Z.land (word s r b) PH_EVENT_SET = s.
Proof.
  unfold fields, word. intros Hf. change PH_EVENT_SET with (2 ^ 1 - 1). rewrite land_pow2 by done.
  Z.to_euclidean_division_equations. lia.
Qed.

Lemma word_init s r b : fields s r b → Z.testbit (word s r b) PH_INITONCE_SHIFT = (b =? 1).
Proof.
  unfold fields, word, PH_INITONCE_SHIFT. intros Hf. rewrite Z.testbit_eqb by done. f_equal.
  Z.to_euclidean_division_equations. lia.
Qed.

Lemma word_references s r b : fields s r b →
  Z.land (Z.shiftr (word s r b) PH_EVENT_REFCOUNT_SHIFT) PH_EVENT_REFCOUNT_MASK = r.
Proof.
  unfold fields, word. intros Hf. change PH_EVENT_REFCOUNT_MASK with (2 ^ 15 - 1).
  rewrite land_pow2, Z.shiftr_div_pow2 by done. unfold PH_EVENT_REFCOUNT_SHIFT.
  Z.to_euclidean_division_equations. lia.
Qed.

Lemma lor_bit v k : 0 ≤ k → Z.lor v (Z.shiftl 1 k) = if Z.testbit v k then v else v + 2 ^ k.
Proof.
  intros Hk. rewrite Z.shiftl_1_l. destruct (Z.testbit v k) eqn:Hv.
  - apply Z.bits_inj'. intros j Hj. rewrite Z.lor_spec, Z.pow2_bits_eqb by done.
    destruct (Z.eqb_spec k j) as [->|]; [by rewrite Hv|by rewrite orb_false_r].
  - symmetry. apply Z.add_nocarry_lor. apply Z.bits_inj'. intros j Hj.
    rewrite Z.land_spec, Z.pow2_bits_eqb, Z.bits_0 by done.
    destruct (Z.eqb_spec k j) as [->|]; [by rewrite Hv|by rewrite andb_false_r].
Qed.

Lemma word_lor_set s r b : fields s r b → Z.lor (word s r b) (Z.shiftl 1 PH_EVENT_SET_SHIFT) = word 1 r b.
Proof.
  intros Hf. unfold PH_EVENT_SET_SHIFT. rewrite lor_bit, (word_set s r b) by done. unfold fields, word in *.
  destruct (Z.eqb_spec s 1); lia.
Qed.

Lemma word_lor_init s r b : fields s r b → Z.lor (word s r b) (Z.shiftl 1 PH_INITONCE_SHIFT) = word s r 1.
Proof.
  intros Hf. rewrite lor_bit, (word_init s r b) by done. unfold fields, word, PH_INITONCE_SHIFT in *.
  destruct (Z.eqb_spec b 1); lia.
Qed.

Lemma word_range s r b : fields s r b → 0 ≤ word s r b < 2 ^ 64.
Proof. unfold fields, word. lia. Qed.

(** ** What the threads contribute *)

(** A thread that has to drop a reference. *)
Definition holds (t : part) : Z :=
  match t with
  | Sets (set_read_handle | set_signal _ | set_dereference (deref_add _)) => 1
  | Waits (wait_read_handle | wait_install | wait_reread_handle | wait_check _ | wait_block _ |
           wait_dereference _ (deref_add _)) => 1
  | _ => 0
  end.

(** A thread that dropped the last reference and has not finished closing. *)
Definition closes (t : part) : Z :=
  match t with
  | Sets (set_dereference (deref_close _ | deref_clear)) => 1
  | Waits (wait_dereference _ (deref_close _ | deref_clear)) => 1
  | _ => 0
  end.

(** A thread that relies on the kernel event: it waits for it, or is going to
    signal it. *)
Definition relies (t : part) : Z :=
  match t with Sets (set_read_handle | set_signal _) | Waits (wait_block _) => 1 | _ => 0 end.

(** A thread that is going to signal the kernel event. *)
Definition signals (t : part) : Z :=
  match t with Sets (set_read_handle | set_signal _) => 1 | _ => 0 end.

Definition part_ok (σ : state) (s : Z) (t : part) : Prop :=
  match t with
  | Waits (wait_check h) => s = 0 → h = EventHandle (Event σ) ∧ h ≠ None
  | Waits wait_reread_handle => s = 0 → EventHandle (Event σ) ≠ None
  | Waits (wait_block h) => h = EventHandle (Event σ) ∧ h ≠ None
  | Waits (wait_dereference true _) => s = 1
  | Sets (set_signal h) => EventHandle (Event σ) = Some h ∧ s = 1
  | Sets (set_read_handle | set_dereference _) => s = 1
  | _ => True
  end.

(** At most as many threads as the reference count has room for. *)
Definition MAX_THREADS : Z := 32766.

Definition open_object (σ : state) (h : nat) : Prop := ∃ signalled, objects (Kernel σ) !! h = Some (Some signalled).

(** What is known before a step, and what is to be shown after it, apart from
    what is known of each thread. *)
Record balanced (σ : state) (s b H C R G : Z) : Prop := {
  bal_fields : fields s (1 - s + H) b;
  bal_value : Value (Event σ) = word s (1 - s + H) b;
  bal_closes : s = 0 ∨ 0 < R → C = 0;
  bal_handle : ∀ h, EventHandle (Event σ) = Some h → (h < length (objects (Kernel σ)))%nat;
  bal_open : ∀ h, EventHandle (Event σ) = Some h → s = 0 ∨ 0 < R → open_object σ h;
  bal_quiet : s = 0 → ∀ h, objects (Kernel σ) !! h ≠ Some (Some true);
  bal_none : EventHandle (Event σ) = None → R = G;
  bal_signal : ∀ h, EventHandle (Event σ) = Some h → s = 1 → 0 < R → 0 < G ∨ objects (Kernel σ) !! h = Some (Some true);
}.

Record invariant (σ : state) (ps : list part) : Prop := {
  inv_threads : Z.of_nat (length ps) ≤ MAX_THREADS;
  inv_state : ∃ s b,
    balanced σ s b (total holds ps) (total closes ps) (total relies ps) (total signals ps) ∧
    ∀ i t, ps !! i = Some t → part_ok σ s t;
}.

(** ** The invariant is kept *)

Lemma part_ok_stable σ s σ' s' u :
  part_ok σ s u → 0 ≤ s ≤ 1 → s' = s ∨ s' = 1 →
  EventHandle (Event σ') = EventHandle (Event σ) ∨ EventHandle (Event σ) = None ∨ s' = 1 ∧ relies u = 0 →
  part_ok σ' s' u.
Proof.
  intros Hok Hs Hs' Hh. destruct u as [|[]|[]]; cbn in *; try done;
    repeat case_match; try lia; naive_solver (lia || congruence).
Qed.

(** The totals after one thread went from [t] to [t']. *)
Definition moved (weight : part → Z) (ps : list part) (t t' : part) : Z := total weight ps - weight t + weight t'.

Lemma part_weight_bounds t : 0 ≤ holds t ≤ 1 ∧ 0 ≤ closes t ≤ 1 ∧ 0 ≤ signals t ∧ signals t ≤ relies t ≤ 1 ∧ relies t ≤ holds t.
Proof. destruct t as [|[| | |[]]|[| | | | | | | |? []]]; cbn; lia. Qed.

(** Before a step of thread [i]: what is known, and what makes the step keep the
    invariant. *)
Lemma event_invariant_move σ ps i t : invariant σ ps → ps !! i = Some t →
  ∃ s b,
    balanced σ s b (total holds ps) (total closes ps) (total relies ps) (total signals ps) ∧
    part_ok σ s t ∧ 0 ≤ s ≤ 1 ∧
    0 ≤ total holds ps - holds t ≤ 32765 ∧ 0 ≤ total closes ps - closes t ∧
    0 ≤ total signals ps - signals t ≤ total relies ps - relies t ∧ 0 ≤ total relies ps - relies t ≤ total holds ps - holds t ∧
    ∀ σ' t' s' b',
      balanced σ' s' b' (moved holds ps t t') (moved closes ps t t') (moved relies ps t t') (moved signals ps t t') →
      part_ok σ' s' t' → s' = s ∨ s' = 1 →
      EventHandle (Event σ') = EventHandle (Event σ) ∨ EventHandle (Event σ) = None ∨ s' = 1 ∧ total relies ps = 0 →
      invariant σ' (<[i := t']> ps).
Proof.
  intros [Hn (s & b & Hb & Hok)] Ht. pose proof part_weight_bounds as Hw. unfold MAX_THREADS in Hn.
  assert (0 ≤ s ≤ 1) as Hs by (destruct Hb as [Hf]; unfold fields in Hf; lia).
  exists s, b. split; [done|]. split; [by eapply Hok|]. split; [done|].
  assert (∀ weight, (∀ u, 0 ≤ weight u ≤ 1) → 0 ≤ total weight ps - weight t ≤ 32765) as Hothers.
  { intros weight Hw1. pose proof (total_others weight ps i t Hw1 Ht). lia. }
  assert (total relies ps - relies t ≤ total holds ps - holds t) as Hle.
  { pose proof (total_insert holds ps i t Out Ht) as H1. pose proof (total_insert relies ps i t Out Ht) as H2.
    cbn [holds relies] in H1, H2.
    pose proof (total_le relies holds (<[i := Out]> ps) ltac:(intros u; specialize (Hw u); lia)). lia. }
  assert (total signals ps - signals t ≤ total relies ps - relies t) as Hle2.
  { pose proof (total_insert signals ps i t Out Ht) as H1. pose proof (total_insert relies ps i t Out Ht) as H2.
    cbn [signals relies] in H1, H2.
    pose proof (total_le signals relies (<[i := Out]> ps) ltac:(intros u; specialize (Hw u); lia)). lia. }
  split_and!; try (apply Hothers; intros u; specialize (Hw u); lia); [done|done|].
  intros σ' t' s' b' Hb' Ht' Hs' Hh. split; [by rewrite length_insert|].
  exists s', b'. rewrite !(total_insert _ _ _ _ _ Ht). split; [done|].
  intros j u. destruct (decide (j = i)) as [->|Hji].
  - rewrite list_lookup_insert_eq by (by eapply lookup_lt_Some). by intros [= <-].
  - rewrite list_lookup_insert_ne by done. intros Hu. eapply part_ok_stable; [by eapply Hok|done|done|].
    destruct Hh as [?|[?|[? H0]]]; auto. right. right. split; [done|].
    pose proof (total_elem relies ps j u ltac:(intros v; specialize (Hw v); lia) Hu). specialize (Hw u). lia.
Qed.

Lemma add_value σ n s r b r' : Value (Event σ) = word s r b → fields s r' b → r' = r + n →
  (InterlockedExchangeAdd σ (2 * n)).1 = with_value σ (word s r' b).
Proof.
  intros Hv Hf ->. unfold InterlockedExchangeAdd. cbn. rewrite Hv. f_equal. apply word_range in Hf.
  unfold u64. replace (word s r b + 2 * n) with (word s (r + n) b) by (unfold word; lia). by apply Z.mod_small.
Qed.

(** A step that leaves the handle, the kernel and the bits alone. *)
Lemma balanced_same σ s b H C R G σ' H' C' R' G' :
  balanced σ s b H C R G →
  EventHandle (Event σ') = EventHandle (Event σ) → Kernel σ' = Kernel σ →
  fields s (1 - s + H') b → Value (Event σ') = word s (1 - s + H') b →
  (C = 0 → s = 0 ∨ 0 < R' → C' = 0) → (s = 1 → 0 < R' → 0 < R ∧ (0 < G → 0 < G')) →
  (EventHandle (Event σ) = None → R = G → R' = G') →
  0 ≤ s ≤ 1 → balanced σ' s b H' C' R' G'.
Proof.
  intros [Hf Hv Hc Hh Ho Hq Hnone Hsig] Hhandle Hkernel Hf' Hv' HC HR HN Hs.
  assert (s = 0 ∨ 0 < R' → s = 0 ∨ 0 < R) as Hor.
  { intros [->|HR']; [by left|]. destruct (Z.eq_dec s 0); [by left|]. right. apply HR; [lia|done]. }
  split; unfold open_object in *; rewrite ?Hhandle, ?Hkernel; try done; [auto|intros h Hh0 Hor'; auto|auto|].
  intros h Hh0 H1 HR'. destruct (HR H1 HR') as [HR0 HG]. destruct (Hsig h Hh0 H1 HR0); [left|right]; auto.
Qed.

(** When the event is set and no thread relies on the kernel event, anything may
    happen to it. *)
Lemma balanced_over σ b H C R G σ' H' C' R' G' :
  balanced σ 1 b H C R G → H' = H → R' = 0 → G' = 0 → Value (Event σ') = Value (Event σ) →
  (∀ h, EventHandle (Event σ') = Some h → (h < length (objects (Kernel σ')))%nat) →
  balanced σ' 1 b H' C' R' G'.
Proof. intros [Hf Hv Hc Hh Ho Hq Hnone Hsig] -> -> -> Hv' Hh'. split; try done; try congruence; (lia || by intros ?? [|]; lia). Qed.

Lemma NtClose_same h σ : Event (NtClose h σ) = Event σ ∧
  length (objects (Kernel (NtClose h σ))) = length (objects (Kernel σ)).
Proof. unfold NtClose. repeat case_match; cbn; by rewrite ?length_insert. Qed.

Definition derefs (mk : dereference → part) : Prop :=
  mk = (λ p, Sets (set_dereference p)) ∨ ∃ result, mk = λ p, Waits (wait_dereference result p).

Definition deref_after (mk : dereference → part) (p : option dereference) : part :=
  match p with Some p => mk p | None => Out end.

Lemma dereference_move σ ps i mk p :
  invariant σ ps → derefs mk → ps !! i = Some (mk p) →
  let '(σ', p') := PhpDereferenceEvent σ p in invariant σ' (<[i := deref_after mk p']> ps).
Proof.
  intros HI Hmk Ht. destruct (event_invariant_move _ _ _ _ HI Ht) as (s & b & Hb & Hok & Hs & HH & HC & HG & HR & Hmove).
  assert (holds (mk p) = match p with deref_add _ => 1 | _ => 0 end ∧
          closes (mk p) = match p with deref_add _ => 0 | _ => 1 end ∧ relies (mk p) = 0 ∧ signals (mk p) = 0 ∧
          holds Out = 0 ∧ closes Out = 0 ∧ relies Out = 0 ∧ signals Out = 0) as (E1 & E2 & E3 & E4 & E5 & E6 & E7 & E8).
  { destruct Hmk as [->|[r ->]]; by destruct p. }
  rewrite E1, E2, E3, E4 in *.
  destruct p as [h|h|]; cbn [PhpDereferenceEvent].
  - rewrite (surjective_pairing (InterlockedExchangeAdd _ _)).
    pose proof (bal_fields _ _ _ _ _ _ _ Hb) as Hf. pose proof (bal_value _ _ _ _ _ _ _ Hb) as Hv.
    assert (fields s (1 - s + (total holds ps - 1)) b) as Hf' by (unfold fields in *; lia).
    change (- PH_EVENT_REFCOUNT_INC) with (2 * -1). rewrite (add_value σ (-1) s _ b _ Hv Hf') by lia.
    cbn [snd InterlockedExchangeAdd]. rewrite Hv, word_references by done.
    assert (∀ t', holds t' = 0 → relies t' = 0 → signals t' = 0 → closes t' = 0 ∨ 1 - s + total holds ps = 1 →
      part_ok (with_value σ (word s (1 - s + (total holds ps - 1)) b)) s t' →
      invariant (with_value σ (word s (1 - s + (total holds ps - 1)) b)) (<[i := t']> ps)) as Hdrop.
    { intros t' Z1 Z2 Z3 Z4 Hok'. apply (Hmove _ _ s b); [|done|by left|by left].
      unfold moved. rewrite E1, E2, E3, E4, Z1, Z2, Z3. eapply balanced_same; [exact Hb|done|done| | | |lia|lia|done].
      - unfold fields in *. lia.
      - cbn. f_equal. lia.
      - destruct Z4 as [->|]; lia. }
    destruct (Z.eqb_spec (1 - s + total holds ps - 1) 0); [destruct h as [h|]|].
    + apply Hdrop; destruct Hmk as [->|[r ->]]; cbn in *; done || lia.
    + apply Hdrop; cbn; auto.
    + apply Hdrop; cbn; auto.
  - assert (s = 1 ∧ total relies ps = 0) as [-> HR0].
    { pose proof (bal_closes _ _ _ _ _ _ _ Hb). lia. }
    destruct (NtClose_same h σ) as [He Hl].
    apply (Hmove _ _ 1 b); unfold moved; rewrite ?E1, ?E2, ?E3, ?E4, ?He; [|destruct Hmk as [->|[r ->]]; cbn in *; done|by left|by left].
    eapply balanced_over; [exact Hb| | | |by rewrite He|rewrite He, Hl; apply Hb]; destruct Hmk as [->|[r ->]]; cbn; lia.
  - assert (s = 1 ∧ total relies ps = 0) as [-> HR0].
    { pose proof (bal_closes _ _ _ _ _ _ _ Hb). lia. }
    apply (Hmove _ _ 1 b); unfold moved; rewrite ?E1, ?E2, ?E3, ?E4; [|done|by left|by auto].
    eapply balanced_over; [exact Hb| | | |done|done]; cbn; lia.
Qed.

Lemma same_value σ s b H C R G : balanced σ s b H C R G → fields s (1 - s + H) b ∧ Value (Event σ) = word s (1 - s + H) b.
Proof. intros Hb. split; apply Hb. Qed.

Lemma set_move σ ps i p σ' r :
  invariant σ ps → ps !! i = Some (Sets p) → (σ', r) ∈ PhfSetEvent σ p → invariant σ' (<[i := sets_after r]> ps).
Proof.
  intros HI Ht Hin. destruct p as [| |h|p]; cbn [PhfSetEvent] in Hin.
  4: { pose proof (dereference_move σ ps i (λ p, Sets (set_dereference p)) p HI (or_introl eq_refl) Ht) as Hd.
       destruct (PhpDereferenceEvent σ p) as [σ1 [p'|]]; in_list Hin; by simplify_eq. }
  all: destruct (event_invariant_move _ _ _ _ HI Ht) as (s & b & Hb & Hok & Hs & HH & HC & HG & HR & Hmove).
  all: destruct (same_value _ _ _ _ _ _ _ Hb) as [Hf Hv].
  all: unfold moved in Hmove; cbn [holds closes relies signals part_ok] in *; rewrite ?Z.sub_0_r in *.
  - rewrite Hv, word_lor_set, word_set in Hin by done. destruct (Z.eqb_spec s 1) as [->|Hs1]; in_list Hin; simplify_eq.
    + apply (Hmove _ _ 1 b); [|done|by left|by left]. cbn. rewrite !Z.add_0_r.
      by eapply balanced_same; [exact Hb|..].
    + assert (s = 0) as -> by lia. apply (Hmove _ _ 1 b); [|done|by right|by left]. cbn.
      destruct Hb as [_ _ Hc Hh Ho Hq Hnone Hsig]. replace (1 - 0 + total holds ps) with (1 - 1 + (total holds ps + 1)) in * by lia.
      split; try done; [unfold fields in *; lia|intros _; rewrite Z.add_0_r; auto|intros h Hh0 _; apply (Ho h Hh0); auto|intros Hn; rewrite (Hnone Hn); lia|intros h Hh0 _ _; left; lia].
  - assert (total closes ps = 0) as HC0 by (pose proof (bal_closes _ _ _ _ _ _ _ Hb); lia).
    destruct (EventHandle (Event σ)) as [h|] eqn:He; in_list Hin; simplify_eq.
    + apply (Hmove _ _ 1 b); [|done|by left|by left]. cbn. rewrite !Z.sub_add, Z.add_0_r.
      by eapply balanced_same; [exact Hb|..].
    + apply (Hmove _ _ 1 b); [|done|by left|by auto]. cbn. rewrite !Z.sub_add.
      destruct Hb as [_ _ Hc Hh Ho Hq Hnone Hsig]. split; rewrite ?He; try done; [by rewrite HC0|]. intros _. rewrite (Hnone He). lia.
  - destruct Hok as [He ->]. assert (total closes ps = 0) as HC0 by (pose proof (bal_closes _ _ _ _ _ _ _ Hb); lia).
    destruct (bal_open _ _ _ _ _ _ _ Hb h He) as [x Hx]; [lia|]. in_list Hin; simplify_eq.
    unfold NtSetEvent. rewrite Hx.
    apply (Hmove _ _ 1 b); [|done|by left|by left]. cbn. rewrite !Z.sub_add, !Z.add_0_r.
    destruct Hb as [_ _ Hc Hh Ho Hq Hnone Hsig]. unfold open_object. split; cbn; rewrite ?length_insert; try done; try (by rewrite He).
    + intros h' Hh'. rewrite He in Hh'. injection Hh' as <-. intros _. exists true. apply list_lookup_insert_eq. auto.
    + intros h' Hh'. rewrite He in Hh'. injection Hh' as <-. right. apply list_lookup_insert_eq. auto.
Qed.

Lemma wait_move limit σ ps i p σ' r :
  invariant σ ps → ps !! i = Some (Waits p) → (σ', r) ∈ PhfWaitForEvent limit σ p →
  invariant σ' (<[i := waits_after r]> ps).
Proof.
  intros HI Ht Hin. destruct p as [| | | | | |h|h|result p]; cbn [PhfWaitForEvent] in Hin.
  9: { pose proof (dereference_move σ ps i (λ p, Waits (wait_dereference result p)) p HI ltac:(right; by eexists) Ht) as Hd.
       destruct (PhpDereferenceEvent σ p) as [σ1 [p'|]]; in_list Hin; by simplify_eq. }
  all: destruct (event_invariant_move _ _ _ _ HI Ht) as (s & b & Hb & Hok & Hs & HH & HC & HG & HR & Hmove).
  all: destruct (same_value _ _ _ _ _ _ _ Hb) as [Hf Hv].
  all: unfold moved in Hmove; cbn [holds closes relies signals part_ok] in *; rewrite ?Z.sub_0_r in *.
  - case_match; in_list Hin; simplify_eq; (apply (Hmove _ _ s b); [|done|by left|by left]); cbn; by rewrite !Z.add_0_r.
  - repeat case_match; in_list Hin; simplify_eq; (apply (Hmove _ _ s b); [|done|by left|by left]); cbn; by rewrite !Z.add_0_r.
  - in_list Hin; simplify_eq. unfold PhpReferenceEvent. change PH_EVENT_REFCOUNT_INC with (2 * 1).
    assert (fields s (1 - s + (total holds ps + 1)) b) as Hf' by (unfold fields in *; lia).
    rewrite (add_value _ _ s _ b _ Hv Hf') by lia.
    apply (Hmove _ _ s b); [|done|by left|by left]. cbn. rewrite !Z.add_0_r. by eapply balanced_same; [exact Hb|..].
  - destruct (EventHandle (Event σ)) as [h|] eqn:He; in_list Hin; simplify_eq;
      (apply (Hmove _ _ s b); [|cbn; by rewrite ?He|by left|by left]); cbn; by rewrite !Z.sub_add, !Z.add_0_r.
  - destruct (EventHandle (Event σ)) as [h|] eqn:He; in_list Hin; simplify_eq;
      (apply (Hmove _ _ s b); [|cbn; rewrite ?He; done|by left|by auto]); cbn; rewrite !Z.sub_add, !Z.add_0_r;
      destruct Hb as [_ _ Hc Hh Ho Hq Hnone Hsig]; unfold open_object; split; cbn; try done; try (by rewrite He).
    + intros h' Hh'. rewrite length_app. cbn. specialize (Hh h' Hh'). lia.
    + intros h' Hh' Hor. destruct (Ho h' Hh' Hor) as [x Hx]. exists x. cbn. by apply lookup_app_l_Some.
    + intros H0 h' Hh'. apply lookup_app_Some in Hh' as [?|[_ H1]]; [by eapply Hq|].
      by apply list_lookup_singleton_Some in H1 as [_ ?].
    + intros h' Hh' H1 HR0. destruct (Hsig h' Hh' H1 HR0); [by left|right]. by apply lookup_app_l_Some.
    + intros h' [= <-]. rewrite length_app. cbn. lia.
    + intros h' [= <-] _. exists false. cbn. by rewrite lookup_app_r, Nat.sub_diag by lia.
    + intros H0 h' Hh'. apply lookup_app_Some in Hh' as [?|[_ H1]]; [by eapply Hq|].
      by apply list_lookup_singleton_Some in H1 as [_ ?].
    + intros h' [= <-] H1 HR0. left. rewrite <-(Hnone He). lia.
  - in_list Hin; simplify_eq. apply (Hmove _ _ s b); [|cbn; auto|by left|by left]. cbn. by rewrite !Z.sub_add, !Z.add_0_r.
  - rewrite Hv, word_land_set in Hin by done. destruct (Z.eqb_spec s 0) as [->|Hs0]; in_list Hin; simplify_eq.
    + destruct (Hok eq_refl) as [-> Hne]. apply (Hmove _ _ 0 b); [|done|by left|by left]. cbn. rewrite !Z.sub_add, !Z.add_0_r.
      eapply balanced_same; [exact Hb|..]; done.
    + assert (s = 1) as -> by lia. apply (Hmove _ _ 1 b); [|done|by left|by left]. cbn. by rewrite !Z.sub_add, !Z.add_0_r.
  - apply list_elem_of_bind in Hin as (x & Hin & Hx). in_list Hin; simplify_eq. destruct Hok as [-> Hne].
    destruct (EventHandle (Event σ)) as [h|] eqn:He; [|done].
    destruct (bal_open _ _ _ _ _ _ _ Hb h He) as [y Hy]; [lia|]. cbn in Hx. rewrite Hy in Hx.
    apply (Hmove _ _ s b); [|cbn|by left|by left].
    + cbn. rewrite !Z.sub_add, Z.add_0_r. eapply balanced_same; [exact Hb|..]; try done; lia.
    + destruct x; [|done]. destruct y; [|by destruct limit; cbn in Hx; in_list Hx].
      destruct (Z.eq_dec s 0) as [->|]; [|lia]. by destruct (bal_quiet _ _ _ _ _ _ _ Hb eq_refl h).
Qed.

Lemma bit_move σ ps i :
  invariant σ ps → ps !! i = Some Out →
  invariant (with_value σ (Z.lor (Value (Event σ)) (Z.shiftl 1 PH_INITONCE_SHIFT))) (<[i := Out]> ps).
Proof.
  intros HI Ht. destruct (event_invariant_move _ _ _ _ HI Ht) as (s & b & Hb & Hok & Hs & HH & HC & HG & HR & Hmove).
  destruct (same_value _ _ _ _ _ _ _ Hb) as [Hf Hv]. rewrite Hv, word_lor_init by done.
  apply (Hmove _ _ s 1); [|done|by left|by left]. unfold moved. cbn. rewrite !Z.sub_0_r, !Z.add_0_r.
  destruct Hb as [_ _ Hc Hh Ho Hq Hnone Hsig]. split; try done. unfold fields in *. lia.
Qed.

Lemma part_move σ ps i t σ' t' :
  invariant σ ps → ps !! i = Some t → part_step σ t σ' t' → invariant σ' (<[i := t']> ps).
Proof.
  intros HI Ht Hstep. destruct Hstep as [| | |p σ' r Hin|limit p σ' r Hin|].
  - by rewrite list_insert_id.
  - destruct (event_invariant_move _ _ _ _ HI Ht) as (s & b & Hb & _ & Hs & _ & _ & _ & _ & Hmove).
    apply (Hmove _ _ s b); [|done|by left|by left]. unfold moved. cbn. by rewrite !Z.sub_0_r, !Z.add_0_r.
  - destruct (event_invariant_move _ _ _ _ HI Ht) as (s & b & Hb & _ & Hs & _ & _ & _ & _ & Hmove).
    apply (Hmove _ _ s b); [|done|by left|by left]. unfold moved. cbn. by rewrite !Z.sub_0_r, !Z.add_0_r.
  - by eapply set_move.
  - by eapply wait_move.
  - by apply bit_move.
Qed.

Definition initial : state := {| Event := PhInitializeEvent; Kernel := {| objects := []; InvalidCloses := 0 |} |}.

(** A new event that no thread uses, whatever the kernel holds. *)
Lemma event_invariant_start k ps :
  Z.of_nat (length ps) ≤ MAX_THREADS → (∀ t, t ∈ ps → t = Out) → (∀ h, objects k !! h ≠ Some (Some true)) →
  invariant {| Event := PhInitializeEvent; Kernel := k |} ps.
Proof.
  intros Hn Hout Hk. split; [done|]. exists 0, 0.
  assert (∀ weight, weight Out = 0 → total weight ps = 0) as Hz.
  { intros weight Hw. clear -Hout Hw. induction ps as [|t ps IH]; [done|]. rewrite total_cons, IH by set_solver.
    rewrite (Hout t) by set_solver. lia. }
  rewrite !Hz by done. split.
  - split; cbn; try done; try lia.
  - intros i t Ht%list_elem_of_lookup_2. by rewrite (Hout t Ht).
Qed.
