(* ===== verification/EventTheorems.v ===== *)
(** The event object and one-time initialization: what holds in every state that
    threads using them can reach. *)

From S2P Require Import Prelude Concurrency Event EventFacts.

(** ** The event's own threads *)

Definition part_of (t : thread) : part :=
  match t with
  | Setting p => Sets p
  | Waiting _ p => Waits p
  | Idle | Waited _ _ => Out
  end.

Lemma next_part σ t σ' t' : (σ', t') ∈ next σ t → part_step σ (part_of t) σ' (part_of t').
Proof.
  destruct t as [|p|limit p|limit result]; cbn [next]; intros Hin.
  - in_list Hin; simplify_eq; constructor.
  - apply list_elem_of_fmap in Hin as ([σ1 r] & [= -> ->] & Hin). destruct r; by apply (part_setting _ _ _ _ Hin).
  - apply list_elem_of_fmap in Hin as ([σ1 r] & [= -> ->] & Hin). destruct r; by apply (part_waiting _ _ _ _ _ Hin).
  - in_list Hin; simplify_eq; constructor.
Qed.

(** *** The bits of the word *)

Lemma add_keeps_set σ n : Z.testbit (Value (Event (InterlockedExchangeAdd σ (2 * n)).1)) 0 = Z.testbit (Value (Event σ)) 0.
Proof. unfold InterlockedExchangeAdd. cbn [fst with_value Event Value]. unfold u64. rewrite Z.mod_pow2_bits_low by lia. by rewrite !Z.bit0_odd, Z.odd_add_mul_2. Qed.

Lemma dereference_keeps_set σ p : Z.testbit (Value (Event (PhpDereferenceEvent σ p).1)) 0 = Z.testbit (Value (Event σ)) 0.
Proof.
  destruct p as [h|h|]; [|by rewrite <-(proj1 (NtClose_same h σ))|done].
  cbn [PhpDereferenceEvent]. rewrite (surjective_pairing (InterlockedExchangeAdd _ _)).
  rewrite <-(add_keeps_set σ (-1)). repeat case_match; done.
Qed.

Lemma NtSetEvent_same h σ : Event (NtSetEvent h σ) = Event σ.
Proof. unfold NtSetEvent. by repeat case_match. Qed.

Lemma setting_set σ p σ' r : (σ', r) ∈ PhfSetEvent σ p →
  PhTestEvent σ' = match p with set_bit => true | _ => PhTestEvent σ end.
Proof.
  unfold PhTestEvent. intros Hin. destruct p as [| |h|p]; cbn [PhfSetEvent] in Hin.
  - case_match; in_list Hin; simplify_eq; cbn [with_value Event Value]; by rewrite Z.lor_spec, orb_true_r.
  - case_match; in_list Hin; by simplify_eq.
  - in_list Hin; simplify_eq. by rewrite NtSetEvent_same.
  - rewrite <-(dereference_keeps_set σ p). destruct (PhpDereferenceEvent σ p) as [σ1 [p'|]]; in_list Hin; by simplify_eq.
Qed.

Lemma waiting_set limit σ p σ' r : (σ', r) ∈ PhfWaitForEvent limit σ p → PhTestEvent σ' = PhTestEvent σ.
Proof.
  unfold PhTestEvent. intros Hin. destruct p as [| | | | | |h|h|result p]; cbn [PhfWaitForEvent] in Hin.
  9: { rewrite <-(dereference_keeps_set σ p).
       destruct (PhpDereferenceEvent σ p) as [σ1 [p'|]]; in_list Hin; by simplify_eq. }
  8: { apply list_elem_of_bind in Hin as (x & Hin & _). in_list Hin; by simplify_eq. }
  3: { in_list Hin; simplify_eq. by rewrite <-(add_keeps_set σ 1). }
  all: repeat case_match; in_list Hin; by simplify_eq.
Qed.

(** The event stays set. *)
Lemma set_kept σ t σ' t' : part_step σ t σ' t' → PhTestEvent σ = true → PhTestEvent σ' = true.
Proof.
  intros Hstep Hset. destruct Hstep as [| | |p σ' r Hin|limit p σ' r Hin|]; try done.
  - rewrite (setting_set _ _ _ _ Hin). by destruct p.
  - by rewrite (waiting_set _ _ _ _ _ Hin).
  - unfold PhTestEvent in *. cbn [with_value Event Value]. by rewrite Z.lor_spec, Hset.
Qed.

(** *** Every reachable state *)

(** What a thread's result says of the event. *)
Definition result_ok (σ : state) (t : thread) : Prop :=
  match t with
  | Waited Infinite false | Waiting Infinite (wait_dereference false _) => False
  | Waited _ true => PhTestEvent σ = true
  | _ => True
  end.

Definition event_invariant (s : system) : Prop :=
  invariant (shared s) (part_of <$> threads s) ∧ ∀ i t, threads s !! i = Some t → result_ok (shared s) t.

Lemma wait_results limit σ ps i p σ' r :
  invariant σ ps → ps !! i = Some (Waits p) → (σ', r) ∈ PhfWaitForEvent limit σ p →
  result_ok σ (Waiting limit p) →
  result_ok σ' (match r with Continue p => Waiting limit p | Return result => Waited limit result end).
Proof.
  intros HI Ht Hin Hok. destruct (event_invariant_move _ _ _ _ HI Ht) as (s & b & Hb & Hpart & Hs & _).
  destruct (same_value _ _ _ _ _ _ _ Hb) as [Hf Hv].
  assert (Hset : PhTestEvent σ = (s =? 1)) by (unfold PhTestEvent; by rewrite Hv, (word_set _ _ _ Hf)).
  destruct p as [| | | | | |h|h|result p]; cbn [PhfWaitForEvent] in Hin.
  - fold (PhTestEvent σ) in Hin. case_match; in_list Hin; simplify_eq; [by destruct limit|done].
  - rewrite Hv, word_land_set in Hin by done. destruct (Z.eqb_spec s 0); cbn in Hin.
    + destruct limit; in_list Hin; by simplify_eq.
    + in_list Hin; simplify_eq. assert (s = 1) as -> by lia. by destruct limit.
  - in_list Hin; by simplify_eq.
  - case_match; in_list Hin; by simplify_eq.
  - case_match; in_list Hin; by simplify_eq.
  - in_list Hin; by simplify_eq.
  - case_match; in_list Hin; simplify_eq; [done|by destruct limit].
  - apply list_elem_of_bind in Hin as (x & Hin & Hx). in_list Hin; simplify_eq. destruct x; [by destruct limit|].
    destruct limit; try done. destruct Hpart as [-> Hne]. destruct (EventHandle (Event σ)) as [h|] eqn:He; [|done].
    destruct (bal_open _ _ _ _ _ _ _ Hb h He) as [y Hy].
    { right. pose proof (total_elem relies ps i _ ltac:(intros u; pose proof (part_weight_bounds u); lia) Ht). cbn in *. lia. }
    cbn in Hx. rewrite Hy in Hx. destruct y; cbn in Hx; in_list Hx; done.
  - pose proof (dereference_keeps_set σ p) as Hkeep.
    destruct (PhpDereferenceEvent σ p) as [σ1 [p'|]]; in_list Hin; simplify_eq; cbn in *; [by destruct limit, result|].
    unfold PhTestEvent in *. destruct limit, result; try done; cbn in *; rewrite Hkeep, Hset; by subst s.
Qed.

Lemma event_step s s' : event_invariant s → step next s s' → event_invariant s'.
Proof.
  intros [HI Hres] Hs. destruct Hs as [i σ ts t σ' t' Ht Hin]. cbn [shared threads] in *.
  pose proof (next_part _ _ _ _ Hin) as Hpart.
  assert (Hp : (part_of <$> ts) !! i = Some (part_of t)) by (by rewrite list_lookup_fmap, Ht).
  split; cbn [shared threads].
  { rewrite list_fmap_insert. by eapply part_move. }
  intros j u. destruct (decide (j = i)) as [->|Hji].
  - rewrite list_lookup_insert_eq by (by eapply lookup_lt_Some). intros [= <-]. specialize (Hres i t Ht).
    destruct t as [|p|limit p|limit result]; cbn [next] in Hin.
    + in_list Hin; by simplify_eq.
    + apply list_elem_of_fmap in Hin as ([σ1 r] & [= -> ->] & Hin). by destruct r.
    + apply list_elem_of_fmap in Hin as ([σ1 r] & [= -> ->] & Hin). by eapply wait_results.
    + in_list Hin; by simplify_eq.
  - rewrite list_lookup_insert_ne by done. intros Hu. specialize (Hres j u Hu). pose proof (set_kept _ _ _ _ Hpart) as Hkept.
    destruct u as [|p|limit p|limit result]; try done. destruct limit, result; cbn in *; auto.
Qed.

Lemma event_start n : Z.of_nat n ≤ MAX_THREADS → event_invariant (start n).
Proof.
  intros Hn. split; cbn [shared threads start].
  - apply event_invariant_start; [by rewrite length_fmap, length_replicate| |done].
    intros t (u & -> & [-> _]%elem_of_replicate)%list_elem_of_fmap. done.
  - by intros i t [-> _]%lookup_replicate.
Qed.

Lemma event_reachable n s : Z.of_nat n ≤ MAX_THREADS → reachable next (start n) s → event_invariant s.
Proof. intros Hn. apply reachable_invariant; [by apply event_start|]. apply event_step. Qed.

(** *** Draining a set event *)

#[global] Instance idle_dec t : Decision (t = Idle).
Proof. destruct t; first [by left|by right]. Defined.

Definition all_idle (s : @system state thread) : Prop := Forall (λ t, t = Idle) (threads s).

(** The kernel event that a thread waits for does not let it go yet. *)
Definition stuck (σ : state) (t : thread) : Prop :=
  match t with
  | Waiting _ (wait_block (Some h)) => objects (Kernel σ) !! h ≠ Some (Some true)
  | Waiting _ (wait_block None) => True
  | _ => False
  end.

Definition gets_idle (σ : state) (t : thread) : Prop := ∃ σ', alone next σ t σ' Idle.

Lemma goes σ t σ1 t1 : (σ1, t1) ∈ next σ t → gets_idle σ1 t1 → gets_idle σ t.
Proof. intros Hn (σ' & Ha). exists σ'. by eapply alone_step. Qed.

Lemma calls {P} (F : list (state * outcome P)) (f : state * outcome P → state * thread) σ1 r σ2 t2 :
  (σ1, r) ∈ F → f (σ1, r) = (σ2, t2) → (σ2, t2) ∈ f <$> F.
Proof. intros Hin <-. by apply list_elem_of_fmap_2. Qed.

Ltac go := eapply goes; [cbn [next]; eapply calls; [|reflexivity]|].

Lemma dereference_gets_idle σ (mk : dereference → thread) (done : thread) p :
  (∀ σ p, (∀ σ' p', PhpDereferenceEvent σ p = (σ', Some p') → gets_idle σ' (mk p')) →
          (∀ σ', PhpDereferenceEvent σ p = (σ', None) → gets_idle σ' done) → gets_idle σ (mk p)) →
  (∀ σ, gets_idle σ done) → gets_idle σ (mk p).
Proof.
  intros Hstep Hdone.
  assert (∀ σ, gets_idle σ (mk deref_clear)) as H3.
  { intros σ1. apply Hstep; [by intros|intros σ2 _; apply Hdone]. }
  assert (∀ σ h, gets_idle σ (mk (deref_close h))) as H2.
  { intros σ1 h. apply Hstep; [intros σ2 p' [= <- <-]; apply H3|by intros]. }
  destruct p as [h|h|]; [|apply H2|apply H3].
  apply Hstep; [|intros σ2 _; apply Hdone]. intros σ2 p'. cbn [PhpDereferenceEvent].
  rewrite (surjective_pairing (InterlockedExchangeAdd _ _)). repeat case_match; intros [= <- <-]; apply H2.
Qed.

Lemma idle_gets_idle σ : gets_idle σ Idle.
Proof. exists σ. constructor. Qed.

Lemma waited_gets_idle σ limit result : gets_idle σ (Waited limit result).
Proof. eapply goes; [apply list_elem_of_here|apply idle_gets_idle]. Qed.

Lemma setting_gets_idle σ p : gets_idle σ (Setting p).
Proof.
  assert (∀ σ p, gets_idle σ (Setting (set_dereference p))) as Hd.
  { intros σ1 p1. apply (dereference_gets_idle σ1 (λ p, Setting (set_dereference p)) Idle); [|apply idle_gets_idle].
    intros σ2 p2 H1 H2. destruct (PhpDereferenceEvent σ2 p2) as [σ3 [p3|]] eqn:He.
    - go; [cbn; rewrite He; apply list_elem_of_here|]. by apply H1.
    - go; [cbn; rewrite He; apply list_elem_of_here|]. by apply H2. }
  assert (∀ σ h, gets_idle σ (Setting (set_signal h))) as Hs.
  { intros σ1 h. go; [apply list_elem_of_here|]. apply Hd. }
  assert (∀ σ, gets_idle σ (Setting set_read_handle)) as Hr.
  { intros σ1. destruct (EventHandle (Event σ1)) eqn:He;
      (go; [cbn; rewrite He; apply list_elem_of_here|]); [apply Hs|apply Hd]. }
  destruct p; auto.
  destruct (Z.testbit (Value (Event σ)) PH_EVENT_SET_SHIFT) eqn:He;
    (go; [cbn [PhfSetEvent]; rewrite He; apply list_elem_of_here|]); [apply idle_gets_idle|apply Hr].
Qed.

(** On a set event a thread only waits for a kernel event that was not
    signalled. *)
Lemma waiting_gets_idle σ limit p :
  PhTestEvent σ = true → ¬ stuck σ (Waiting limit p) → gets_idle σ (Waiting limit p).
Proof.
  assert (∀ σ result p, gets_idle σ (Waiting limit (wait_dereference result p))) as Hd.
  { intros σ1 result p1. apply (dereference_gets_idle σ1 (λ p, Waiting limit (wait_dereference result p)) (Waited limit result));
      [|intros; apply waited_gets_idle].
    intros σ2 p2 H1 H2. destruct (PhpDereferenceEvent σ2 p2) as [σ3 [p3|]] eqn:He.
    - go; [cbn; rewrite He; apply list_elem_of_here|]. by apply H1.
    - go; [cbn; rewrite He; apply list_elem_of_here|]. by apply H2. }
  assert (∀ σ h, PhTestEvent σ = true → gets_idle σ (Waiting limit (wait_check h))) as Hc.
  { intros σ1 h Hset. 
    assert (Z.land (Value (Event σ1)) PH_EVENT_SET =? 0 = false) as Hs.
    { apply Z.eqb_neq. intros H0. apply (f_equal (λ v, Z.testbit v 0)) in H0. unfold PhTestEvent in Hset. by rewrite Z.land_spec, Hset in H0. }
    go; [cbn [PhfWaitForEvent]; rewrite Hs; apply list_elem_of_here|]. apply Hd. }
  assert (∀ σ, PhTestEvent σ = true → gets_idle σ (Waiting limit wait_reread_handle)) as Hr.
  { intros σ1 Hset. go; [apply list_elem_of_here|]. by apply Hc. }
  assert (∀ σ, PhTestEvent σ = true → gets_idle σ (Waiting limit wait_install)) as Hi.
  { intros σ1 Hset. destruct (EventHandle (Event σ1)) eqn:He;
      (go; [cbn [PhfWaitForEvent]; rewrite He; apply list_elem_of_here|]); [by apply Hr|by apply Hc]. }
  assert (∀ σ, PhTestEvent σ = true → gets_idle σ (Waiting limit wait_read_handle)) as Hrh.
  { intros σ1 Hset. destruct (EventHandle (Event σ1)) eqn:He;
      (go; [cbn [PhfWaitForEvent]; rewrite He; apply list_elem_of_here|]); [by apply Hc|by apply Hi]. }
  intros Hset Hstuck. destruct p as [| | | | | |h|h|result p]; auto.
  - unfold PhTestEvent in Hset. go; [cbn [PhfWaitForEvent]; rewrite Hset; apply list_elem_of_here|]. apply waited_gets_idle.
  - assert (negb (Z.land (Value (Event σ)) PH_EVENT_SET =? 0) = true) as Hs.
    { apply negb_true_iff, Z.eqb_neq. intros H0. apply (f_equal (λ v, Z.testbit v 0)) in H0. unfold PhTestEvent in Hset. by rewrite Z.land_spec, Hset in H0. }
    go; [cbn [PhfWaitForEvent]; rewrite Hs; apply list_elem_of_here|]. apply waited_gets_idle.
  - go; [apply list_elem_of_here|]. apply Hrh. unfold PhTestEvent, PhpReferenceEvent in *. by rewrite <-Hset, <-(add_keeps_set σ 1).
  - destruct h as [h|]; [|by destruct Hstuck]. cbn in Hstuck.
    destruct (decide (objects (Kernel σ) !! h = Some (Some true))) as [Ho|]; [|done].
    eapply (goes _ _ σ (Waiting limit (wait_dereference true (deref_add (Some h))))); [|apply Hd]. cbn [next].
    apply (calls _ _ σ (Continue (wait_dereference true (deref_add (Some h))))); [|done].
    cbn. rewrite Ho. cbn. apply list_elem_of_here.
Qed.

(** On a set event, a thread that is stuck has a thread that is going to signal
    the kernel event. *)
Lemma stuck_signals s i t :
  event_invariant s → PhTestEvent (shared s) = true → threads s !! i = Some t → stuck (shared s) t →
  ∃ (j : nat) p, threads s !! j = Some (Setting p) ∧
    (p = set_read_handle ∨ ∃ h, EventHandle (Event (shared s)) = Some h ∧ p = set_signal h).
Proof.
  intros [HI _] Hset Ht Hstuck. assert (Hp : (part_of <$> threads s) !! i = Some (part_of t)) by (by rewrite list_lookup_fmap, Ht).
  destruct (event_invariant_move _ _ _ _ HI Hp) as (v & b & Hb & Hok & Hv & _).
  destruct (same_value _ _ _ _ _ _ _ Hb) as [Hf Hval].
  assert (v = 1) as ->. { unfold PhTestEvent in Hset. rewrite Hval, (word_set _ _ _ Hf) in Hset. lia. }
  destruct t as [| |limit [| | | | | |h0|h|]|]; try done. destruct Hok as [-> Hne].
  destruct (EventHandle (Event (shared s))) as [h|] eqn:He; [|done].
  destruct (bal_signal _ _ _ _ _ _ _ Hb h He) as [Hs|Hs]; [done| | |done].
  { pose proof (total_elem relies _ i _ ltac:(intros u; pose proof (part_weight_bounds u); lia) Hp). cbn in *. lia. }
  apply total_pos in Hs as (j & u & Hu & Hw). rewrite list_lookup_fmap in Hu.
  destruct (threads s !! j) as [w|] eqn:Hj; [|done]. injection Hu as <-. exists j.
  destruct w as [|p| |]; try done. exists p. split; [done|]. destruct p as [| |h'|]; try done; [by left|right].
  destruct HI as [_ (s1 & b1 & _ & Hok)]. specialize (Hok j (Sets (set_signal h'))).
  rewrite list_lookup_fmap, Hj in Hok. destruct (Hok eq_refl) as [H1 _]. exists h'. split; [congruence|done].
Qed.

Lemma some_gets_idle s i t :
  event_invariant s → PhTestEvent (shared s) = true → threads s !! i = Some t → t ≠ Idle →
  ∃ j u, threads s !! j = Some u ∧ u ≠ Idle ∧ gets_idle (shared s) u.
Proof.
  intros HI Hset Ht Hne.
  assert (stuck (shared s) t ∨ ¬ stuck (shared s) t) as [Hstuck|Hfree].
  { destruct t as [| |limit [| | | | | |h0|[h|]|]|]; cbn; try tauto.
    destruct (decide (objects (Kernel (shared s)) !! h = Some (Some true))); auto. }
  - destruct (stuck_signals s i t HI Hset Ht Hstuck) as (j & p & Hj & _). exists j, (Setting p).
    split_and!; [done|done|apply setting_gets_idle].
  - exists i, t. split_and!; [done|done|]. destruct t; [done|apply setting_gets_idle|by apply waiting_gets_idle|apply waited_gets_idle].
Qed.

Lemma set_step s s' : PhTestEvent (shared s) = true → step next s s' → PhTestEvent (shared s') = true.
Proof. intros H1 Hs. destruct Hs as [i σ ts t σ' t' Ht Hin]. eapply set_kept; [by apply next_part|done]. Qed.

(** ** Properties of the event *)

(** C17. The event keeps its promises. For up to 32766 threads that set it and wait for it
    in any order: a wait that succeeds does so after the event was set, and a wait without a
    time limit never fails; a thread only waits for, and only signals, a kernel
    event that is open; and when the event is set, a thread that its kernel event
    does not let go yet has another thread that is about to signal that kernel event. *)
Theorem event_safe n s :
  Z.of_nat n ≤ MAX_THREADS →
  reachable next (start n) s →
  (∀ i limit, threads s !! i = Some (Waited limit true) → PhTestEvent (shared s) = true) ∧
  (∀ i, threads s !! i ≠ Some (Waited Infinite false)) ∧
  (∀ i limit h, threads s !! i = Some (Waiting limit (wait_block h)) →
     ∃ h0, h = Some h0 ∧ open_object (shared s) h0 ∧
       (PhTestEvent (shared s) = true →
          objects (Kernel (shared s)) !! h0 = Some (Some true) ∨
          ∃ j p, threads s !! j = Some (Setting p) ∧ (p = set_read_handle ∨ p = set_signal h0))) ∧
  (∀ i h, threads s !! i = Some (Setting (set_signal h)) → open_object (shared s) h).
Proof.
  intros Hn Hs. pose proof (event_reachable n s Hn Hs) as HI. destruct HI as [Hinv Hres] eqn:E; clear E. split_and!.
  - intros i limit Hi. specialize (Hres i _ Hi). by destruct limit.
  - intros i Hi. by specialize (Hres i _ Hi).
  - intros i limit h Hi.
    assert (Hp : (part_of <$> threads s) !! i = Some (Waits (wait_block h))) by (by rewrite list_lookup_fmap, Hi).
    destruct (event_invariant_move _ _ _ _ Hinv Hp) as (v & b & Hb & [Hh Hne] & Hv & _).
    destruct (EventHandle (Event (shared s))) as [h0|] eqn:He; [|by destruct Hne]. exists h0. split; [done|]. split.
    + apply (bal_open _ _ _ _ _ _ _ Hb h0 He). right.
      pose proof (total_elem relies _ i _ ltac:(intros u; pose proof (part_weight_bounds u); lia) Hp). cbn in *. lia.
    + intros Hset. destruct (decide (objects (Kernel (shared s)) !! h0 = Some (Some true))) as [|Ho]; [by left|right].
      destruct (stuck_signals s i _ HI Hset Hi) as (j & p & Hj & Hp'); [by rewrite Hh|].
      exists j, p. split; [done|]. destruct Hp' as [|(h1 & H1 & ->)]; [by left|right; congruence].
  - intros i h Hi.
    assert (Hp : (part_of <$> threads s) !! i = Some (Sets (set_signal h))) by (by rewrite list_lookup_fmap, Hi).
    destruct (event_invariant_move _ _ _ _ Hinv Hp) as (v & b & Hb & [He ->] & Hv & _).
    apply (bal_open _ _ _ _ _ _ _ Hb h He). right.
    pose proof (total_elem relies _ i _ ltac:(intros u; pose proof (part_weight_bounds u); lia) Hp). cbn in *. lia.
Qed.

(** Once the event is set nothing stays blocked: from every reachable state in
    which it is set, some continuation brings all threads out of the event's functions. *)
Theorem event_drains n s :
  Z.of_nat n ≤ MAX_THREADS →
  reachable next (start n) s →
  PhTestEvent (shared s) = true →
  ∃ s', rtc (step next) s s' ∧ all_idle s'.
Proof.
  intros Hn Hs Hset. pose proof (event_reachable n s Hn Hs) as HI.
  destruct (drain next (λ s, event_invariant s ∧ PhTestEvent (shared s) = true) all_idle
    (λ s, Z.to_nat (total (λ t, if decide (t = Idle) then 0 else 1) (threads s)))) with (s := s) as (s' & Hsteps & _ & Hidle).
  - intros s1 [HI1 Hset1] Hbusy.
    apply not_Forall_Exists in Hbusy as (t0 & [i0 Ht0]%list_elem_of_lookup_1 & Hne)%Exists_exists; [|apply _].
    destruct (some_gets_idle s1 i0 t0) as (i & t & Ht & Htne & σ' & Hg); [done..|].
    destruct s1 as [σ ts]. pose proof (run_alone _ i ts _ _ _ _ Ht Hg) as Hrun. cbn [shared threads] in *.
    eexists. split; [exact Hrun|]. split; [split|].
    + eapply steps_invariant; [|exact Hrun|exact HI1]. apply event_step.
    + exact (steps_invariant next (λ s, PhTestEvent (shared s) = true) _ _ set_step Hrun Hset1).
    + cbn [threads]. rewrite (total_insert _ _ _ _ _ Ht).
      pose proof (total_elem (λ t, if decide (t = Idle) then 0 else 1) ts i t ltac:(intros u; cbn beta; case_decide; lia) Ht) as Hle.
      cbn beta in *. rewrite (decide_False (P := t = Idle)) in Hle |- * by done. rewrite decide_True by done. lia.
  - done.
  - exists s'. done.
Qed.

(** A closed handle can be closed again: a thread that drops the last reference closes
    the kernel event before it clears the handle, and a thread that began to wait
    before the event was set can take its reference, read the handle and drop the
    last reference in between. *)
Theorem event_closes_twice : ∃ s, reachable next (start 3) s ∧ InvalidCloses (Kernel (shared s)) = 1.
Proof.
  set (schedule := ((0, 1) :: replicate 6 (0, 0) ++ (2, 1) :: replicate 2 (2, 0) ++ replicate 5 (1, 0) ++
    replicate 2 (0, 0) ++ replicate 5 (2, 0) ++ [(0, 0)])%nat).
  destruct (run next schedule (start 3)) as [s|] eqn:Hs; [|by vm_compute in Hs].
  exists s. split; [by eapply run_steps|]. vm_compute in Hs. by injection Hs as <-.
Qed.

(** ** Witnesses *)

(** The first thread is about to block, the second has set the event and is about
    to signal the kernel event. *)
Definition signalling : list (nat * nat) := ((0, 1) :: replicate 6 (0, 0) ++ replicate 3 (1, 0))%nat.

Lemma signalling_reachable : ∃ s, reachable next (start 2) s ∧
  threads s = [Waiting Infinite (wait_block (Some 0%nat)); Setting (set_signal 0)] ∧ PhTestEvent (shared s) = true.
Proof.
  destruct (run next signalling (start 2)) as [s|] eqn:Hs; [|by vm_compute in Hs].
  exists s. split; [by eapply run_steps|]. vm_compute in Hs. by injection Hs as <-.
Qed.

Lemma event_safe_witness : ∃ s, reachable next (start 2) s ∧ PhTestEvent (shared s) = true ∧ open_object (shared s) 0.
Proof.
  destruct signalling_reachable as (s & Hs & Ht & Hset). exists s. split; [done|]. split; [done|].
  destruct (event_safe 2 s ltac:(unfold MAX_THREADS; lia) Hs) as (_ & _ & _ & H). apply (H 1%nat). by rewrite Ht.
Defined.

Lemma event_drains_witness : ∃ s s', threads s = [Waiting Infinite (wait_block (Some 0%nat)); Setting (set_signal 0)] ∧
  rtc (step next) s s' ∧ all_idle s'.
Proof.
  destruct signalling_reachable as (s & Hs & Ht & Hset).
  destruct (event_drains 2 s ltac:(unfold MAX_THREADS; lia) Hs Hset) as (s' & Hsteps & Hidle). by exists s, s'.
Defined.

(** ** One-time initialization *)

Definition once_part (t : once_thread) : part :=
  match t with
  | Beginning (begin_wait p) => Waits p
  | Ending p => Sets p
  | _ => Out
  end.

(** *** The bit that says that a thread initializes *)

Definition init_bit (σ : state) : bool := Z.testbit (Value (Event σ)) PH_INITONCE_SHIFT.

Lemma dereference_keeps_init σ ps i mk p :
  invariant σ ps → derefs mk → ps !! i = Some (mk p) → init_bit (PhpDereferenceEvent σ p).1 = init_bit σ.
Proof.
  intros HI Hmk Ht. unfold init_bit. destruct p as [h|h|]; [|by rewrite <-(proj1 (NtClose_same h σ))|done].
  destruct (event_invariant_move _ _ _ _ HI Ht) as (s & b & Hb & _ & Hs & HH & _).
  assert (holds (mk (deref_add h)) = 1) as E1 by (by destruct Hmk as [->|[r ->]]). rewrite E1 in HH.
  destruct (same_value _ _ _ _ _ _ _ Hb) as [Hf Hv].
  assert (fields s (1 - s + (total holds ps - 1)) b) as Hf' by (unfold fields in *; lia).
  cbn [PhpDereferenceEvent]. rewrite (surjective_pairing (InterlockedExchangeAdd _ _)).
  change (- PH_EVENT_REFCOUNT_INC) with (2 * -1). rewrite (add_value σ (-1) s _ b _ Hv Hf') by lia.
  rewrite Hv, (word_init _ _ _ Hf), <-(word_init _ _ _ Hf'). repeat case_match; done.
Qed.

Lemma setting_keeps_init σ ps i p σ' r :
  invariant σ ps → ps !! i = Some (Sets p) → (σ', r) ∈ PhfSetEvent σ p → init_bit σ' = init_bit σ.
Proof.
  intros HI Ht Hin. destruct p as [| |h|p]; cbn [PhfSetEvent] in Hin.
  - case_match; in_list Hin; simplify_eq; unfold init_bit; cbn [with_value Event Value]; by rewrite Z.lor_spec, orb_false_r.
  - case_match; in_list Hin; by simplify_eq.
  - in_list Hin; simplify_eq. unfold init_bit. by rewrite NtSetEvent_same.
  - rewrite <-(dereference_keeps_init σ ps i (λ p, Sets (set_dereference p)) p HI (or_introl eq_refl) Ht).
    destruct (PhpDereferenceEvent σ p) as [σ1 [p'|]]; in_list Hin; by simplify_eq.
Qed.

Lemma waiting_keeps_init limit σ ps i p σ' r :
  invariant σ ps → ps !! i = Some (Waits p) → (σ', r) ∈ PhfWaitForEvent limit σ p → init_bit σ' = init_bit σ.
Proof.
  intros HI Ht Hin. destruct p as [| | | | | |h|h|result p]; cbn [PhfWaitForEvent] in Hin.
  9: { rewrite <-(dereference_keeps_init σ ps i (λ p, Waits (wait_dereference result p)) p HI ltac:(right; by eexists) Ht).
       destruct (PhpDereferenceEvent σ p) as [σ1 [p'|]]; in_list Hin; by simplify_eq. }
  8: { apply list_elem_of_bind in Hin as (x & Hin & _). in_list Hin; by simplify_eq. }
  3: { in_list Hin; simplify_eq. destruct (event_invariant_move _ _ _ _ HI Ht) as (s & b & Hb & _ & Hs & HH & _). cbn in HH.
       destruct (same_value _ _ _ _ _ _ _ Hb) as [Hf Hv].
       assert (fields s (1 - s + (total holds ps + 1)) b) as Hf' by (unfold fields in *; lia).
       unfold init_bit, PhpReferenceEvent. change PH_EVENT_REFCOUNT_INC with (2 * 1).
       rewrite (add_value σ 1 s _ b _ Hv Hf') by lia. cbn [with_value Event Value].
       by rewrite Hv, (word_init _ _ _ Hf), (word_init _ _ _ Hf'). }
  all: repeat case_match; in_list Hin; by simplify_eq.
Qed.

(** *** The invariant *)

(** The thread that initializes, did, or is about to say so. *)
Definition initializer (t : once_thread) : Z :=
  match t with Initializing | Ending _ | Finished true => 1 | _ => 0 end.

(** The initialization is not over. *)
Definition unfinished (t : once_thread) : Z :=
  match t with Initializing | Ending set_bit => 1 | _ => 0 end.

Definition once_ok (σ : state) (t : once_thread) : Prop :=
  match t with
  | Beginning (begin_wait p) => result_ok σ (Waiting Infinite p)
  | Finished false => PhTestEvent σ = true
  | _ => True
  end.

Record once_invariant (s : system) : Prop := {
  once_event : invariant (shared s) (once_part <$> threads s);
  once_local : ∀ i t, threads s !! i = Some t → once_ok (shared s) t;
  once_initializer : total initializer (threads s) = Z.b2z (init_bit (shared s));
  once_unfinished : total unfinished (threads s) + Z.b2z (PhTestEvent (shared s)) = Z.b2z (init_bit (shared s));
}.

(** A step of a thread: what it does to the event, to the bits and to the counts. *)
Lemma once_move σ ts i t σ' t' :
  once_invariant (System σ ts) → ts !! i = Some t →
  part_step σ (once_part t) σ' (once_part t') →
  once_ok σ' t' →
  initializer t' - initializer t = Z.b2z (init_bit σ') - Z.b2z (init_bit σ) →
  unfinished t' - unfinished t + (Z.b2z (PhTestEvent σ') - Z.b2z (PhTestEvent σ)) =
    Z.b2z (init_bit σ') - Z.b2z (init_bit σ) →
  once_invariant (System σ' (<[i := t']> ts)).
Proof.
  intros [HI Hok Hi Hu] Ht Hpart Hok' Hinit Hunf. cbn [shared threads] in *. split; cbn [shared threads].
  - rewrite list_fmap_insert. apply (part_move σ _ i (once_part t)); [done|by rewrite list_lookup_fmap, Ht|done].
  - intros j u. destruct (decide (j = i)) as [->|Hji].
    + rewrite list_lookup_insert_eq by (by eapply lookup_lt_Some). by intros [= <-].
    + rewrite list_lookup_insert_ne by done. intros Hj. specialize (Hok j u Hj). pose proof (set_kept _ _ _ _ Hpart) as Hkept.
      destruct u as [|[| |p]| | |[]]; try done; cbn in *; auto.
  - rewrite (total_insert _ _ _ _ _ Ht). lia.
  - rewrite (total_insert _ _ _ _ _ Ht). lia.
Qed.

Lemma once_step s s' : once_invariant s → step once_next s s' → once_invariant s'.
Proof.
  intros HO Hs. destruct Hs as [i σ ts t σ' t' Ht Hin]. pose proof HO as [HI Hok Hi Hu]. cbn [shared threads] in *.
  specialize (Hok i t Ht).
  assert (Hp : (once_part <$> ts) !! i = Some (once_part t)) by (by rewrite list_lookup_fmap, Ht).
  assert (∀ t, 0 ≤ initializer t ≤ 1 ∧ 0 ≤ unfinished t ≤ 1) as Hw.
  { intros u. by destruct u as [|[]| |[]|[]]. }
  assert (unfinished t ≤ total unfinished ts) by (eapply total_elem; [intros u; apply Hw|done]).
  assert (initializer t ≤ total initializer ts) by (eapply total_elem; [intros u; apply Hw|done]).
  destruct t as [|[| |p]| |p|]; cbn [once_next] in Hin; try (by apply elem_of_nil in Hin).
  - in_list Hin; simplify_eq. apply (once_move _ _ _ _ _ _ HO Ht); [constructor|done|cbn; lia..].
  - apply list_elem_of_fmap in Hin as ([σ1 r] & [= -> ->] & Hin). cbn [PhfBeginInitOnce] in Hin. fold (PhTestEvent σ) in Hin.
    destruct (PhTestEvent σ) eqn:Hset; in_list Hin; simplify_eq; (apply (once_move _ _ _ _ _ _ HO Ht); [constructor|done|cbn; lia..]).
  - apply list_elem_of_fmap in Hin as ([σ1 r] & [= -> ->] & Hin). cbn [PhfBeginInitOnce] in Hin. fold (init_bit σ) in Hin.
    assert (PhTestEvent (with_value σ (Z.lor (Value (Event σ)) (Z.shiftl 1 PH_INITONCE_SHIFT))) = PhTestEvent σ) as Hset.
    { unfold PhTestEvent. cbn [with_value Event Value]. by rewrite Z.lor_spec, orb_false_r. }
    destruct (init_bit σ) eqn:Hinit; in_list Hin; simplify_eq; cbn [fst snd].
    + assert (with_value σ (Z.lor (Value (Event σ)) (Z.shiftl 1 PH_INITONCE_SHIFT)) = σ) as ->.
      { unfold init_bit in Hinit. rewrite lor_bit, Hinit by done. by destruct σ as [[] []]. }
      apply (once_move _ _ _ _ _ _ HO Ht); [constructor|done|cbn; lia..].
    + assert (init_bit (with_value σ (Z.lor (Value (Event σ)) (Z.shiftl 1 PH_INITONCE_SHIFT))) = true) as Hinit'.
      { unfold init_bit. cbn [with_value Event Value]. rewrite Z.lor_spec. by rewrite orb_true_r. }
      apply (once_move _ _ _ _ _ _ HO Ht); [constructor|done|rewrite Hinit', Hinit; cbn; lia|rewrite Hset, Hinit', Hinit; cbn; lia].
  - apply list_elem_of_fmap in Hin as ([σ1 r] & [= -> ->] & Hin). cbn [PhfBeginInitOnce] in Hin.
    apply list_elem_of_fmap in Hin as ([σ2 r2] & [= -> ->] & Hin). cbn [fst snd].
    pose proof (wait_results _ _ _ _ _ _ _ HI Hp Hin Hok) as Hres. pose proof (waiting_keeps_init _ _ _ _ _ _ _ HI Hp Hin) as Hinit.
    pose proof (waiting_set _ _ _ _ _ Hin) as Hset. apply (once_move _ _ _ _ _ _ HO Ht).
    + destruct r2 as [p'|[]]; apply (part_waiting _ _ _ _ _ Hin).
    + destruct r2 as [p'|[]]; done.
    + rewrite Hinit. destruct r2 as [p'|[]]; cbn in *; done || lia.
    + rewrite Hinit, Hset. destruct r2 as [p'|[]]; cbn in *; done || lia.
  - in_list Hin; simplify_eq. apply (once_move _ _ _ _ _ _ HO Ht); [constructor|done|cbn; lia..].
  - apply list_elem_of_fmap in Hin as ([σ1 r] & [= -> ->] & Hin). cbn [fst snd].
    pose proof (setting_keeps_init _ _ _ _ _ _ HI Hp Hin) as Hinit. pose proof (setting_set _ _ _ _ Hin) as Hset.
    apply (once_move _ _ _ _ _ _ HO Ht).
    + destruct r; apply (part_setting _ _ _ _ Hin).
    + by destruct r.
    + rewrite Hinit. destruct r; cbn; lia.
    + rewrite Hinit, Hset.
      assert (unfinished match r with Continue p => Ending p | Return _ => Finished true end = 0) as ->.
      { destruct p; cbn [PhfSetEvent] in Hin; repeat case_match; in_list Hin; by simplify_eq. }
      destruct p; cbn [unfinished] in *; try lia. destruct (PhTestEvent σ), (init_bit σ); cbn [Z.b2z] in *; lia.
Qed.

Lemma once_reachable n s : Z.of_nat n ≤ MAX_THREADS → reachable once_next (once_start n) s → once_invariant s.
Proof.
  intros Hn. apply reachable_invariant; [|apply once_step]. split; cbn [shared threads once_start].
  - apply event_invariant_start; [by rewrite length_fmap, length_replicate| |done].
    intros t (u & -> & [-> _]%elem_of_replicate)%list_elem_of_fmap. done.
  - by intros i t [-> _]%lookup_replicate.
  - by rewrite total_replicate, Z.mul_0_r.
  - by rewrite total_replicate, Z.mul_0_r.
Qed.

(** C18. One-time initialization happens once: for up to 32766 threads that begin the
    initialization in any order, at most one is told to initialize; a thread is told that
    the initialization is over only after the one that initializes has said so,
    and only if there is one. *)
Theorem init_once_safe n s :
  Z.of_nat n ≤ MAX_THREADS →
  reachable once_next (once_start n) s →
  (∀ i j t u, i ≠ j → threads s !! i = Some t → threads s !! j = Some u →
     t = Initializing ∨ (∃ p, t = Ending p) ∨ t = Finished true →
     u ≠ Initializing ∧ (∀ p, u ≠ Ending p) ∧ u ≠ Finished true) ∧
  (∀ i, threads s !! i = Some (Finished false) →
     (∀ j, threads s !! j ≠ Some Initializing ∧ threads s !! j ≠ Some (Ending set_bit)) ∧
     ∃ j t, threads s !! j = Some t ∧ ((∃ p, t = Ending p) ∨ t = Finished true)).
Proof.
  intros Hn Hs. destruct (once_reachable n s Hn Hs) as [HI Hok Hi Hu].
  assert (∀ t, 0 ≤ initializer t ≤ 1 ∧ 0 ≤ unfinished t ≤ 1) as Hw by (intros u; by destruct u as [|[]| |[]|[]]).
  split.
  - intros i j t u Hij Ht Hj Hinit. pose proof (total_two initializer _ i j t u ltac:(intros v; apply Hw) Hij Ht Hj) as H2.
    assert (initializer t = 1) as H1 by (destruct Hinit as [->|[[p ->]| ->]]; done).
    pose proof (Hw u). destruct (init_bit (shared s)); cbn [Z.b2z] in Hi; [|lia].
    assert (initializer u = 0) as H3 by lia. split_and!; [by intros ->|by intros p ->|by intros ->].
  - intros i Ht. assert (PhTestEvent (shared s) = true) as Hset by exact (Hok i _ Ht). rewrite Hset in Hu. cbn [Z.b2z] in Hu.
    assert (0 ≤ total unfinished (threads s)) by (apply total_nonneg; intros v; apply Hw).
    destruct (init_bit (shared s)); cbn [Z.b2z] in *; [|lia]. split.
    + intros j. split; intros Hj;
        pose proof (total_elem unfinished _ j _ ltac:(intros v; apply Hw) Hj) as H1; cbn [unfinished] in H1; lia.
    + destruct (total_pos initializer (threads s)) as (j & t & Hj & Hpos); [lia|]. exists j, t. split; [done|].
      destruct t as [|p| |p|[]]; cbn in Hpos; try lia; [|by eauto|by auto].
      pose proof (total_elem unfinished _ j _ ltac:(intros v; apply Hw) Hj) as H1. cbn [unfinished] in H1. lia.
Qed.

(** The first thread has initialized, the second waited for it. *)
Lemma init_once_safe_witness : ∃ s, reachable once_next (once_start 2) s ∧
  threads s !! 0%nat = Some (Finished true) ∧ threads s !! 1%nat = Some (Finished false) ∧
  (∃ j t, threads s !! j = Some t ∧ ((∃ p, t = Ending p) ∨ t = Finished true)).
Proof.
  destruct (run once_next (replicate 3 (0, 0) ++ replicate 9 (1, 0) ++ replicate 5 (0, 0) ++ replicate 4 (1, 0))%nat (once_start 2))
    as [s|] eqn:Hs; [|by vm_compute in Hs].
  pose proof (run_steps _ _ _ _ Hs) as Hr. exists s. vm_compute in Hs. injection Hs as Hs.
  assert (H1 : threads s !! 1%nat = Some (Finished false)) by (by subst s).
  split; [exact Hr|]. split; [by subst s|]. split; [done|].
  exact (proj2 (proj2 (init_once_safe 2 s ltac:(unfold MAX_THREADS; lia) Hr) 1%nat H1)).
Defined.
