(* ===== verification/Rundown.v ===== *)
(** Rundown protection (src/phlib/sync.c, src/phlib/include/phbasesup.h): threads
    acquire and release protection; one thread waits until all of them have
    released it, after which it can no longer be acquired. While the protection
    is in use its word is the number of references, doubled; the waiting
    thread replaces it by the address of a wait block, which takes over the
    count and has an event (Event.v) for the last release to set. *)

From S2P Require Import Prelude Concurrency Event.

Definition PH_RUNDOWN_ACTIVE : Z := 0x1.
Definition PH_RUNDOWN_REF_SHIFT : Z := 1.
Definition PH_RUNDOWN_REF_INC : Z := 0x2.

(** The protection, and the wait block of the thread that waits: its count, and its
    event together with the kernel. *)
Record state := {
  Value : Z;
  Count : Z;
  WakeEvent : Event.state;
}.

Definition with_value (σ : state) (v : Z) : state :=
  {| Value := v; Count := Count σ; WakeEvent := WakeEvent σ |}.
Definition with_event (σ : state) (e : Event.state) : state :=
  {| Value := Value σ; Count := Count σ; WakeEvent := e |}.

Definition InterlockedCompareExchange (σ : state) (new old : Z) : state * bool :=
  if Value σ =? old then (with_value σ (u64 new), true) else (σ, false).

(** [value & ~PH_RUNDOWN_ACTIVE] *)
Definition inactive (value : Z) : Z := Z.ldiff value PH_RUNDOWN_ACTIVE.

Section Functions.
(** The address of the wait block, on the stack of the waiting thread. *)
Context (waitBlock : Z).

(** [acquire_inline_read] and [acquire_inline_exchange] are the fast path of the inline
    [PhAcquireRundownProtection]. *)
Inductive acquire :=
  | acquire_inline_read
  | acquire_inline_exchange (value : Z)
  | acquire_read
  | acquire_exchange (value : Z).

Definition PhfAcquireRundownProtection (σ : state) (p : acquire) : list (state * outcome acquire) :=
  match p with
  | acquire_inline_read => [(σ, Continue (acquire_inline_exchange (inactive (Value σ))))]
  | acquire_inline_exchange value =>
      let '(σ, ok) := InterlockedCompareExchange σ (value + PH_RUNDOWN_REF_INC) value in
      if ok then [(σ, Return true)] else [(σ, Continue acquire_read)]
  | acquire_read =>
      let value := Value σ in
      if negb (Z.land value PH_RUNDOWN_ACTIVE =? 0) then [(σ, Return false)]
      else [(σ, Continue (acquire_exchange value))]
  | acquire_exchange value =>
      let '(σ, ok) := InterlockedCompareExchange σ (value + PH_RUNDOWN_REF_INC) value in
      if ok then [(σ, Return true)] else [(σ, Continue acquire_read)]
  end.

Inductive release :=
  | release_inline_read
  | release_inline_exchange (value : Z)
  | release_read
  | release_exchange (value : Z)
  | release_decrement (block : Z)
  | release_set_event (p : set_event).

(** There is nothing to go on with at an address where there is no wait block. *)
Definition PhfReleaseRundownProtection (σ : state) (p : release) : list (state * outcome release) :=
  match p with
  | release_inline_read => [(σ, Continue (release_inline_exchange (inactive (Value σ))))]
  | release_inline_exchange value =>
      let '(σ, ok) := InterlockedCompareExchange σ (value - PH_RUNDOWN_REF_INC) value in
      if ok then [(σ, Return true)] else [(σ, Continue release_read)]
  | release_read =>
      let value := Value σ in
      if negb (Z.land value PH_RUNDOWN_ACTIVE =? 0) then [(σ, Continue (release_decrement (inactive value)))]
      else [(σ, Continue (release_exchange value))]
  | release_exchange value =>
      let '(σ, ok) := InterlockedCompareExchange σ (value - PH_RUNDOWN_REF_INC) value in
      if ok then [(σ, Return true)] else [(σ, Continue release_read)]
  | release_decrement block =>
      if block =? waitBlock then
        let count := u64 (Count σ - 1) in
        let σ := {| Value := Value σ; Count := count; WakeEvent := WakeEvent σ |} in
        if count =? 0 then [(σ, Continue (release_set_event set_bit))] else [(σ, Return true)]
      else []
  | release_set_event p =>
      (λ r, (with_event σ r.1, match r.2 with Continue p => Continue (release_set_event p) | Return b => Return b end)) <$>
      PhfSetEvent (WakeEvent σ) p
  end.

Inductive wait :=
  | wait_inline_exchange
  | wait_exchange_zero
  | wait_prepare (waitBlockInitialized : bool)
  | wait_exchange (waitBlockInitialized : bool) (value count : Z)
  | wait_for_event (p : wait_event).

(** The wait block is the waiting thread's own until its address is in the
    word: reading the word and filling in the block are one step. *)
Definition PhfWaitForRundownProtection (σ : state) (p : wait) : list (state * outcome wait) :=
  match p with
  | wait_inline_exchange =>
      let value := Value σ in
      let '(σ, _) := InterlockedCompareExchange σ PH_RUNDOWN_ACTIVE 0 in
      if negb (value =? 0) && negb (value =? PH_RUNDOWN_ACTIVE) then [(σ, Continue wait_exchange_zero)]
      else [(σ, Return true)]
  | wait_exchange_zero =>
      let value := Value σ in
      let '(σ, _) := InterlockedCompareExchange σ PH_RUNDOWN_ACTIVE 0 in
      if (value =? 0) || (value =? PH_RUNDOWN_ACTIVE) then [(σ, Return true)]
      else [(σ, Continue (wait_prepare false))]
  | wait_prepare waitBlockInitialized =>
      let value := Value σ in
      let count := Z.shiftr value PH_RUNDOWN_REF_SHIFT in
      let initialize := negb (count =? 0) && negb waitBlockInitialized in
      let e := if initialize then {| Event := PhInitializeEvent; Kernel := Kernel (WakeEvent σ) |} else WakeEvent σ in
      [({| Value := value; Count := count; WakeEvent := e |},
        Continue (wait_exchange (waitBlockInitialized || initialize) value count))]
  | wait_exchange waitBlockInitialized value count =>
      let '(σ, ok) := InterlockedCompareExchange σ (Z.lor waitBlock PH_RUNDOWN_ACTIVE) value in
      if ok then
        if negb (count =? 0) then [(σ, Continue (wait_for_event wait_fast))] else [(σ, Return true)]
      else [(σ, Continue (wait_prepare waitBlockInitialized))]
  | wait_for_event p =>
      (λ r, (with_event σ r.1, match r.2 with Continue p => Continue (wait_for_event p) | Return b => Return b end)) <$>
      PhfWaitForEvent Infinite (WakeEvent σ) p
  end.

(** ** Threads *)

(** A thread that uses the protection, and the one that waits for it to be run
    down. *)
Inductive thread :=
  | Idle
  | Holding
  | Acquiring (p : acquire)
  | Releasing (p : release)
  | WaiterIdle
  | WaiterWaiting (p : wait)
  | WaiterDone.

Definition next (σ : state) (t : thread) : list (state * thread) :=
  match t with
  | Idle => [(σ, Acquiring acquire_inline_read)]
  | Holding => [(σ, Releasing release_inline_read)]
  | Acquiring p =>
      (λ r, (r.1, match r.2 with
                  | Continue p => Acquiring p
                  | Return true => Holding
                  | Return false => Idle
                  end)) <$> PhfAcquireRundownProtection σ p
  | Releasing p =>
      (λ r, (r.1, match r.2 with Continue p => Releasing p | Return _ => Idle end)) <$> PhfReleaseRundownProtection σ p
  | WaiterIdle => [(σ, WaiterWaiting wait_inline_exchange)]
  | WaiterWaiting p =>
      (λ r, (r.1, match r.2 with Continue p => WaiterWaiting p | Return _ => WaiterDone end)) <$>
      PhfWaitForRundownProtection σ p
  | WaiterDone => []
  end.

End Functions.

(** The wait block is uninitialized memory at first. *)
Definition PhInitializeRundownProtection (garbage : Z) (e : PH_EVENT) : state :=
  {| Value := 0; Count := garbage; WakeEvent := {| Event := e; Kernel := {| objects := []; InvalidCloses := 0 |} |} |}.

Definition start (garbage : Z) (e : PH_EVENT) (n : nat) : system :=
  System (PhInitializeRundownProtection garbage e) (WaiterIdle :: replicate n Idle).
