(* ===== verification/RundownFacts.v ===== *)
(** Rundown protection: the invariant, and that every step keeps it. *)

From S2P Require Import Prelude Concurrency Event EventFacts EventTheorems Rundown.

(** ** Words *)

Lemma active_bit v : Z.land v PH_RUNDOWN_ACTIVE = v mod 2.
Proof. exact (land_pow2 v 1 ltac:(done)). Qed.

Lemma inactive_value v : inactive v = 2 * (v / 2).
Proof.
  unfold inactive. change PH_RUNDOWN_ACTIVE with (Z.ones 1). rewrite Z.ldiff_ones_r by done.
  rewrite Z.shiftr_div_pow2, Z.shiftl_mul_pow2 by done. change (2 ^ 1) with 2. lia.
Qed.

Lemma lor_active v : v mod 2 = 0 → Z.lor v PH_RUNDOWN_ACTIVE = v + 1.
Proof.
  intros Hv. change PH_RUNDOWN_ACTIVE with (Z.shiftl 1 0). rewrite lor_bit, Z.testbit_eqb by done.
  change (2 ^ 0) with 1. rewrite Z.div_1_r, Hv. done.
Qed.

Lemma even_mod v : (2 * v) mod 2 = 0.
Proof. rewrite Z.mul_comm. apply Z.mod_mul. done. Qed.

Lemma odd_mod v : v mod 2 = 0 → (v + 1) mod 2 = 1.
Proof. intros Hv. rewrite Z.add_mod, Hv by done. done. Qed.

(** ** Threads *)

(** A thread that has protection: from the exchange that acquires it to the
    exchange or the decrement that releases it. *)
Definition holds (t : thread) : Z :=
  match t with
  | Holding => 1
  | Releasing (release_set_event _) => 0
  | Releasing _ => 1
  | _ => 0
  end.

(** What a thread does with the event of the wait block. *)
Definition part_of (t : thread) : part :=
  match t with
  | Releasing (release_set_event p) => Sets p
  | WaiterWaiting (wait_for_event p) => Waits p
  | _ => Out
  end.

Definition is_user (t : thread) : Prop :=
  match t with Idle | Holding | Acquiring _ | Releasing _ => True | _ => False end.

Section Invariant.
Context (waitBlock : Z).

(** The address of a wait block: an even number that fits a word and is not
    zero. *)
Definition address : Prop := 0 < waitBlock < 2 ^ 64 ∧ waitBlock mod 2 = 0.

(** The word leads to the wait block. *)
Definition published (σ : state) : Prop := Value σ = waitBlock + 1.

Definition user_ok (σ : state) (H : Z) (t : thread) : Prop :=
  match t with
  | Acquiring (acquire_inline_exchange v | acquire_exchange v) => v mod 2 = 0
  | Releasing (release_inline_exchange v | release_exchange v) => v mod 2 = 0
  | Releasing (release_decrement block) => block = waitBlock ∧ published σ
  | Releasing (release_set_event _) => published σ ∧ H = 0
  | _ => True
  end.

(** How the waiting thread [w], the word, the number of references [H] and what
    the other threads do with the event go together. *)
Inductive phase (σ : state) (w : thread) (ps : list part) (H : Z) : Prop :=
  | in_use :
      Value σ = 2 * H →
      match w with
      | WaiterIdle | WaiterWaiting (wait_inline_exchange | wait_exchange_zero | wait_prepare false) =>
          objects (Kernel (WakeEvent σ)) = []
      | WaiterWaiting (wait_prepare true) =>
          EventFacts.invariant (WakeEvent σ) (Out :: ps) ∧ PhTestEvent (WakeEvent σ) = false
      | WaiterWaiting (wait_exchange b v count) =>
          Count σ = count ∧ v mod 2 = 0 ∧ count = v / 2 ∧
          if b then EventFacts.invariant (WakeEvent σ) (Out :: ps) ∧ PhTestEvent (WakeEvent σ) = false
          else count = 0 ∧ objects (Kernel (WakeEvent σ)) = []
      | _ => False
      end → phase σ w ps H
  | unused : Value σ = 1 → H = 0 → w = WaiterDone → phase σ w ps H
  | running_down p :
      published σ → Count σ = H → w = WaiterWaiting (wait_for_event p) →
      result_ok (WakeEvent σ) (Waiting Infinite p) →
      (PhTestEvent (WakeEvent σ) = true → H = 0) →
      (H = 0 → PhTestEvent (WakeEvent σ) = true ∨ Sets set_bit ∈ ps) →
      EventFacts.invariant (WakeEvent σ) (Waits p :: ps) →
      phase σ w ps H
  | run_down :
      published σ → H = 0 → w = WaiterDone →
      (∀ p, p ∈ ps → p = Out) ∨ EventFacts.invariant (WakeEvent σ) (Out :: ps) →
      phase σ w ps H.

Record invariant (s : system) : Prop := {
  inv_length : Z.of_nat (length (threads s)) ≤ MAX_THREADS;
  inv_threads : ∃ w us, threads s = w :: us ∧ Forall is_user us ∧
    (∀ j u, us !! j = Some u → user_ok (shared s) (total holds us) u) ∧
    phase (shared s) w (part_of <$> us) (total holds us);
}.

(** ** Steps of the threads that use the protection *)

Lemma holds_bounds t : 0 ≤ holds t ≤ 1.
Proof. destruct t as [| | |[]| | |]; cbn; lia. Qed.

Lemma user_ok_stable σ H σ' H' u :
  user_ok σ H u → (published σ → published σ' ∧ (H = 0 → H' = 0)) → user_ok σ' H' u.
Proof. intros Hok Hp. destruct u as [| |[]|[]| | |]; cbn in *; naive_solver. Qed.

(** In use, no thread has anything to do with the event of the wait block. *)
Lemma not_published σ H : address → Value σ = 2 * H → ¬ published σ.
Proof.
  intros [_ Ha] Hv Hp. unfold published in Hp. pose proof (odd_mod _ Ha) as Hodd.
  rewrite <-Hp, Hv, even_mod in Hodd. done.
Qed.

(** What a step of a user has to bring about. *)
Definition user_moves (σ : state) (w : thread) (us : list thread) (j : nat) (σ' : state) (u' : thread) : Prop :=
  is_user u' ∧
  user_ok σ' (total holds (<[j := u']> us)) u' ∧
  (published σ → published σ' ∧ (total holds us = 0 → total holds (<[j := u']> us) = 0)) ∧
  phase σ' w (<[j := part_of u']> (part_of <$> us)) (total holds (<[j := u']> us)).

(** A step that changes nothing that is shared. *)
Lemma quiet_move σ w us j u u' :
  us !! j = Some u → phase σ w (part_of <$> us) (total holds us) →
  is_user u' → user_ok σ (total holds us) u' → holds u' = holds u → part_of u' = part_of u →
  user_moves σ w us j σ u'.
Proof.
  intros Hu Hphase Huser Hok Hh Hp.
  assert (total holds (<[j := u']> us) = total holds us) as Htot by (rewrite (total_insert _ _ _ _ _ Hu); lia).
  assert (<[j := part_of u']> (part_of <$> us) = part_of <$> us) as Hps.
  { rewrite Hp. apply list_insert_id. by rewrite list_lookup_fmap, Hu. }
  unfold user_moves. rewrite Htot, Hps. auto.
Qed.

(** An exchange of the word of a protection that is in use. *)
Lemma word_exchange_move σ w us j u u' n :
  address → us !! j = Some u → phase σ w (part_of <$> us) (total holds us) →
  Value σ mod 2 = 0 → 0 ≤ total holds us + n < 2 ^ 63 → holds u' = holds u + n →
  part_of u = Out → part_of u' = Out → is_user u' → (∀ σ H, user_ok σ H u') →
  user_moves σ w us j (with_value σ (u64 (Value σ + 2 * n))) u'.
Proof.
  intros Haddr Hu Hphase Heven Hrange Hh Hp Hp' Huser Hok.
  assert (total holds (<[j := u']> us) = total holds us + n) as Htot by (rewrite (total_insert _ _ _ _ _ Hu); lia).
  assert (<[j := part_of u']> (part_of <$> us) = part_of <$> us) as Hps.
  { rewrite Hp', <-Hp. apply list_insert_id. by rewrite list_lookup_fmap, Hu. }
  destruct Hphase as [Hv Hw|Hv _ _|p Hpub|Hpub].
  - unfold user_moves. rewrite Htot, Hps. split; [done|]. split; [apply Hok|]. split; [by intros Hpub; destruct (not_published σ (total holds us) Haddr Hv Hpub)|].
    apply in_use; [|exact Hw]. cbn. rewrite Hv. unfold u64. rewrite Z.mod_small; lia.
  - rewrite Hv in Heven. done.
  - rewrite Hpub, odd_mod in Heven; [done|apply Haddr].
  - rewrite Hpub, odd_mod in Heven; [done|apply Haddr].
Qed.
End Invariant.

Section Steps.
Context (waitBlock : Z) (Haddr : address waitBlock).

Lemma set_bit_or (ps : list part) (j : nat) p q :
  ps !! j = Some (Sets p) → Sets set_bit ∈ ps → p = set_bit ∨ Sets set_bit ∈ <[j := q]> ps.
Proof.
  intros Hj [k Hk]%list_elem_of_lookup_1. destruct (decide (k = j)) as [->|Hkj]; [left; congruence|right].
  apply list_elem_of_lookup_2 with k. by rewrite list_lookup_insert_ne.
Qed.

Lemma user_step σ w us j u σ' u' :
  us !! j = Some u → Z.of_nat (length us) ≤ MAX_THREADS → is_user u →
  user_ok waitBlock σ (total holds us) u → phase waitBlock σ w (part_of <$> us) (total holds us) →
  (σ', u') ∈ next waitBlock σ u →
  user_moves waitBlock σ w us j σ' u'.
Proof.
  intros Hu Hn Huser Hok Hphase Hin. unfold MAX_THREADS in Hn.
  pose proof (total_others holds us j u holds_bounds Hu) as Hothers. pose proof (holds_bounds u) as Hb.
  assert (Hp : (part_of <$> us) !! j = Some (part_of u)) by (by rewrite list_lookup_fmap, Hu).
  destruct u as [| |[|v| |v]|[|v| |v|block|p]| | |]; try done; cbn [next] in Hin;
    try (apply list_elem_of_fmap in Hin as ([σ1 r] & [= -> ->] & Hin)); cbn [fst snd].
  - in_list Hin; simplify_eq. by eapply quiet_move.
  - in_list Hin; simplify_eq. by eapply quiet_move.
  - cbn in Hin. in_list Hin; simplify_eq. eapply quiet_move; try done. cbn. by rewrite inactive_value, even_mod.
  - cbn in Hin. unfold InterlockedCompareExchange in Hin. destruct (Z.eqb_spec (Value σ) v) as [<-|]; in_list Hin; simplify_eq.
    + change PH_RUNDOWN_REF_INC with (2 * 1). eapply word_exchange_move; try done. cbn in *. lia.
    + by eapply quiet_move.
  - cbn in Hin. rewrite active_bit in Hin. destruct (Z.eqb_spec (Value σ mod 2) 0); cbn in Hin; in_list Hin; simplify_eq; by eapply quiet_move.
  - cbn in Hin. unfold InterlockedCompareExchange in Hin. destruct (Z.eqb_spec (Value σ) v) as [<-|]; in_list Hin; simplify_eq.
    + change PH_RUNDOWN_REF_INC with (2 * 1). eapply word_exchange_move; try done. cbn in *. lia.
    + by eapply quiet_move.
  - cbn in Hin. in_list Hin; simplify_eq. eapply quiet_move; try done. cbn. by rewrite inactive_value, even_mod.
  - cbn in Hin. unfold InterlockedCompareExchange in Hin. destruct (Z.eqb_spec (Value σ) v) as [<-|]; in_list Hin; simplify_eq.
    + change (Value σ - PH_RUNDOWN_REF_INC) with (Value σ + 2 * -1). eapply word_exchange_move; try done. cbn in *. lia.
    + by eapply quiet_move.
  - cbn in Hin. rewrite active_bit in Hin. destruct (Z.eqb_spec (Value σ mod 2) 0); cbn in Hin; in_list Hin; simplify_eq;
      [by eapply quiet_move|].
    assert (published waitBlock σ) as Hpub.
    { destruct Hphase as [Hv _|Hv H0 _|p Hpub|Hpub]; try done; [by rewrite Hv, even_mod in *|cbn in *; lia]. }
    eapply quiet_move; try done. cbn. split; [|done]. rewrite inactive_value, Hpub.
    destruct Haddr as [_ Hev]. Z.to_euclidean_division_equations. lia.
  - cbn in Hin. unfold InterlockedCompareExchange in Hin. destruct (Z.eqb_spec (Value σ) v) as [<-|]; in_list Hin; simplify_eq.
    + change (Value σ - PH_RUNDOWN_REF_INC) with (Value σ + 2 * -1). eapply word_exchange_move; try done. cbn in *. lia.
    + by eapply quiet_move.
  - cbn in Hin, Hok. destruct Hok as [-> Hpub]. rewrite Z.eqb_refl in Hin. cbn in Hothers.
    destruct Hphase as [Hv _|Hv H0 _|p _ Hc Hw Hres Hset Hsets HI|_ H0].
    1: by destruct (not_published waitBlock σ (total holds us)).
    1, 3: lia.
    rewrite Hc in Hin. unfold u64 in Hin. rewrite Z.mod_small in Hin by lia.
    assert (PhTestEvent (WakeEvent σ) = false) as Hunset by (destruct (PhTestEvent (WakeEvent σ)); [specialize (Hset eq_refl); lia|done]).
    assert (∀ u', holds u' = 0 → total holds (<[j := u']> us) = total holds us - 1) as Htot.
    { intros u' Hu'. rewrite (total_insert _ _ _ _ _ Hu). cbn. lia. }
    destruct (Z.eqb_spec (total holds us - 1) 0) as [H0|H0]; in_list Hin; simplify_eq; cbn [fst snd].
    + split; [done|]. rewrite Htot by done. split; [done|]. split; [by intros; split; [|lia]|].
      eapply running_down; cbn; try done; try congruence.
      * intros _. right. apply list_elem_of_lookup_2 with j. apply list_lookup_insert_eq. by eapply lookup_lt_Some.
      * by apply (part_move _ (Waits p :: (part_of <$> us)) (S j) Out _ (Sets set_bit) HI); [|constructor].
    + split; [done|]. rewrite Htot by done. split; [done|]. split; [by intros; split; [|lia]|].
      rewrite list_insert_id by done. eapply running_down; try done; cbn [WakeEvent Count]; by rewrite Hunset.
  - cbn in Hin, Hok. destruct Hok as [Hpub H0].
    apply list_elem_of_fmap in Hin as ([σ2 r2] & [= -> ->] & Hin). cbn [fst snd].
    assert (holds (match match r2 with Continue p0 => Continue (release_set_event p0) | Return b => Return b end with
                   | Continue p0 => Releasing p0 | Return _ => Idle end) = 0 ∧
            part_of (match match r2 with Continue p0 => Continue (release_set_event p0) | Return b => Return b end with
                   | Continue p0 => Releasing p0 | Return _ => Idle end) = sets_after r2) as [Hh Hpart] by (by destruct r2).
    assert (Htot : total holds (<[j := match match r2 with Continue p0 => Continue (release_set_event p0) | Return b => Return b end with
                   | Continue p0 => Releasing p0 | Return _ => Idle end]> us) = 0).
    { rewrite (total_insert _ _ _ _ _ Hu), Hh, H0. cbn. lia. }
    unfold user_moves. rewrite Htot, Hpart.
    split; [by destruct r2|]. split; [by destruct r2|]. split; [done|]. pose proof (setting_set _ _ _ _ Hin) as Hset'.
    pose proof (part_setting _ _ _ _ Hin) as Hstep.
    destruct Hphase as [Hv _|Hv _ _|p1 _ Hc Hw Hres Hset Hsets HI|_ _ Hw HI].
    + by destruct (not_published waitBlock σ (total holds us)).
    + unfold published in Hpub. destruct Haddr. lia.
    + eapply running_down; try done; cbn [WakeEvent with_event Count]; [congruence| |].
      * intros _. rewrite Hset'. destruct (Hsets H0) as [->|Hin']; [left; by destruct p|].
        destruct (set_bit_or _ _ _ (sets_after r2) Hp Hin') as [->|]; auto.
      * by apply (part_move _ (Waits p1 :: (part_of <$> us)) (S j) _ _ _ HI Hp).
    + apply run_down; [done|done|done|]. right. destruct HI as [Hout|HI].
      * specialize (Hout (Sets p)). exfalso. enough (Sets p = Out) by done. apply Hout. by eapply list_elem_of_lookup_2.
      * by apply (part_move _ (Out :: (part_of <$> us)) (S j) _ _ _ HI Hp).
Qed.

(** ** Steps of the thread that waits *)

Lemma users_out σ (us : list thread) H : Value σ = 2 * H →
  (∀ (j : nat) u, us !! j = Some u → user_ok waitBlock σ H u) → ∀ p, p ∈ part_of <$> us → p = Out ∨ ∃ q, p = Waits q.
Proof.
  intros Hv Hok p (u & -> & [j Hj]%list_elem_of_lookup_1)%list_elem_of_fmap. specialize (Hok j u Hj).
  destruct u as [| | |[| | | | |q]| |[| | | |q]|]; cbn in *; eauto.
  destruct Hok as [Hpub _]. by destruct (not_published waitBlock σ H).
Qed.

Lemma waiter_step σ w (us : list thread) σ' w' :
  Z.of_nat (length (w :: us)) ≤ MAX_THREADS → Forall is_user us →
  (∀ (j : nat) u, us !! j = Some u → user_ok waitBlock σ (total holds us) u) →
  phase waitBlock σ w (part_of <$> us) (total holds us) →
  (σ', w') ∈ next waitBlock σ w →
  phase waitBlock σ' w' (part_of <$> us) (total holds us) ∧ (published waitBlock σ → published waitBlock σ').
Proof.
  intros Hn Husers Hok Hphase Hin. 
  assert (0 ≤ total holds us < 2 ^ 63) as HH.
  { split; [apply total_nonneg; apply holds_bounds|]. pose proof (total_length holds us ltac:(apply holds_bounds)).
    unfold MAX_THREADS in Hn. cbn [length] in Hn. lia. }
  assert (Value σ = 2 * total holds us → ∀ p, p ∈ part_of <$> us → p = Out) as Hout.
  { intros Hv p Hp. destruct (users_out σ us _ Hv Hok p Hp) as [|[q ->]]; [done|].
    apply list_elem_of_fmap in Hp as (u & Hq & Hu). rewrite Forall_forall in Husers. specialize (Husers u Hu).
    by destruct u as [| | |[]| | |]. }
  destruct Hphase as [Hv Hw|Hv H0 ->|p Hpub Hc -> Hres Hset Hsets HI|Hpub H0 -> HI]; [|by apply elem_of_nil in Hin| |by apply elem_of_nil in Hin].
  - split; [|by intros Hpub; destruct (not_published waitBlock σ (total holds us))].
    destruct w as [| | | | |[| |b|b v count|p]|]; try done; cbn [next] in Hin;
      try (apply list_elem_of_fmap in Hin as ([σ1 r] & [= -> ->] & Hin)); cbn [fst snd].
    + in_list Hin; simplify_eq. by apply in_use.
    + cbn in Hin. unfold InterlockedCompareExchange in Hin. destruct (Z.eqb_spec (Value σ) 0) as [Hv0|Hv0]; cbn in Hin.
      * in_list Hin; simplify_eq. apply unused; [done|lia|done].
      * destruct (Z.eqb_spec (Value σ) PH_RUNDOWN_ACTIVE) as [Hv1|]; cbn in Hin; in_list Hin; simplify_eq.
        -- unfold PH_RUNDOWN_ACTIVE in Hv1. lia.
        -- by apply in_use.
    + cbn in Hin. unfold InterlockedCompareExchange in Hin. destruct (Z.eqb_spec (Value σ) 0) as [Hv0|Hv0]; cbn in Hin.
      * in_list Hin; simplify_eq. apply unused; [done|lia|done].
      * destruct (Z.eqb_spec (Value σ) PH_RUNDOWN_ACTIVE) as [Hv1|]; cbn in Hin; in_list Hin; simplify_eq.
        -- unfold PH_RUNDOWN_ACTIVE in Hv1. lia.
        -- by apply in_use.
    + cbn [PhfWaitForRundownProtection] in Hin. in_list Hin; simplify_eq. apply in_use; [done|]. cbn [Count WakeEvent].
      rewrite Hv, even_mod, Z.shiftr_div_pow2 by done. change (2 ^ PH_RUNDOWN_REF_SHIFT) with 2.
      split_and!; [done|done|done|].
      destruct b; cbn; [by rewrite andb_false_r|].
      replace (2 * total holds us / 2) with (total holds us) by (rewrite Z.mul_comm, Z.div_mul; done).
      destruct (Z.eqb_spec (total holds us) 0) as [H0|H0]; cbn [negb andb]; [done|]. split; [|done].
      apply event_invariant_start; [|intros t [->|Ht]%elem_of_cons; [done|by apply Hout]|].
      { cbn [length] in Hn |- *. by rewrite length_fmap. }
      intros h. by rewrite Hw.
    + cbn in Hin. unfold InterlockedCompareExchange in Hin. destruct Hw as (Hcount & Hvv & Hdiv & Hb).
      destruct (Z.eqb_spec (Value σ) v) as [<-|]; cbn in Hin.
      * rewrite lor_active in Hin by apply Haddr.
        assert (Hpub : published waitBlock (with_value σ (u64 (waitBlock + 1)))).
        { unfold published. cbn. unfold u64. destruct Haddr as [Hr He]. apply Z.mod_small.
          split; [lia|]. destruct (Z.eq_dec waitBlock (2 ^ 64 - 1)) as [Heq|]; [by rewrite Heq in He|lia]. }
        rewrite Hv, Z.mul_comm, Z.div_mul in Hdiv by done. rewrite Hdiv in Hin, Hb, Hcount. clear Hdiv.
        destruct (Z.eqb_spec (total holds us) 0) as [H0|H0]; cbn in Hin; in_list Hin; simplify_eq.
        -- apply run_down; [done|done|done|left; auto].
        -- destruct b; [|by destruct Hb]. destruct Hb as [HI Hset].
           eapply running_down; try done; cbn [WakeEvent with_value]; [by rewrite Hset|].
           exact (part_move _ (Out :: (part_of <$> us)) 0 Out _ _ HI eq_refl (part_wait _)).
      * in_list Hin; simplify_eq. apply in_use; [done|]. destruct b; [done|by destruct Hb].
  - cbn [next] in Hin. apply list_elem_of_fmap in Hin as ([σ1 r] & [= -> ->] & Hin). cbn [PhfWaitForRundownProtection] in Hin.
    apply list_elem_of_fmap in Hin as ([σ2 r2] & [= -> ->] & Hin). cbn [fst snd]. split; [|done].
    pose proof (wait_results _ _ (Waits p :: (part_of <$> us)) 0 p _ _ HI eq_refl Hin Hres) as Hres'.
    pose proof (wait_move _ _ (Waits p :: (part_of <$> us)) 0 p _ _ HI eq_refl Hin) as HI'.
    pose proof (waiting_set _ _ _ _ _ Hin) as Hset'.
    destruct r2 as [p'|result].
    + eapply running_down; try done; cbn [WakeEvent with_event]; by rewrite Hset'.
    + apply run_down; [done| |done|by right]. destruct result; [|done]. apply Hset. by rewrite <-Hset'.
Qed.

Lemma rundown_invariant_step s s' : invariant waitBlock s → step (next waitBlock) s s' → invariant waitBlock s'.
Proof.
  intros [Hn (w & us & Hs & Husers & Hok & Hphase)] Hstep. destruct Hstep as [i σ ts t σ' t' Ht Hin]. cbn [shared threads] in *. subst ts.
  split; [cbn [threads]; by rewrite length_insert|]. destruct i as [|j]; cbn [threads shared].
  - injection Ht as ->. destruct (waiter_step σ t us σ' t' Hn Husers Hok Hphase Hin) as [Hphase' Hpub].
    exists t', us. split_and!; [done|done| |done]. intros j u Hu. eapply user_ok_stable; [by eapply Hok|auto].
  - change (us !! j = Some t) in Ht. rewrite Forall_lookup in Husers.
    destruct (user_step σ w us j t σ' t') as (Huser & Hok' & Hpub & Hphase'); [done| |by eapply Husers|by eapply Hok|done|done|].
    { cbn [length] in Hn. lia. }
    exists w, (<[j := t']> us). split_and!; [done| | |by rewrite list_fmap_insert].
    + apply Forall_insert; [by apply Forall_lookup|done].
    + intros k u. destruct (decide (k = j)) as [->|Hkj].
      * rewrite list_lookup_insert_eq by (by eapply lookup_lt_Some). by intros [= <-].
      * rewrite list_lookup_insert_ne by done. intros Hu. eapply user_ok_stable; [by eapply Hok|done].
Qed.

Lemma rundown_invariant_start garbage e n : Z.of_nat n < MAX_THREADS → invariant waitBlock (start garbage e n).
Proof.
  intros Hn. split; cbn [threads shared start length]; [rewrite length_replicate; lia|].
  exists WaiterIdle, (replicate n Idle). rewrite total_replicate, Z.mul_0_r. split_and!; [done| | |by apply in_use].
  - apply Forall_replicate. done.
  - by intros j u [-> _]%lookup_replicate.
Qed.

Lemma rundown_invariant_reachable garbage e n s :
  Z.of_nat n < MAX_THREADS → reachable (next waitBlock) (start garbage e n) s → invariant waitBlock s.
Proof. intros Hn. apply reachable_invariant; [by apply rundown_invariant_start|apply rundown_invariant_step]. Qed.
End Steps.
