(* ===== verification/RundownTheorems.v ===== *)
(** Rundown protection: what holds in every state that the threads can reach. *)

From S2P Require Import Prelude Concurrency Event EventFacts EventTheorems Rundown RundownFacts.

Section Drain.
Context (waitBlock : Z) (Haddr : address waitBlock).

Local Abbreviation reaches := (reaches (next waitBlock)).

(** ** The event, run by a thread of the protection *)

Definition of_event (t : Event.thread) : thread :=
  match t with
  | Setting p => Releasing (release_set_event p)
  | Waiting _ p => WaiterWaiting (wait_for_event p)
  | Waited _ _ => WaiterDone
  | Event.Idle => Idle
  end.

(** What a thread does alone with the event, the thread of the protection that
    is in the same function can do. *)
Lemma setting_alone e p e' t' : alone Event.next e (Setting p) e' t' → t' = Event.Idle →
  ∀ σ, ∃ e'', alone (next waitBlock) (with_event σ e) (Releasing (release_set_event p)) (with_event σ e'') Idle.
Proof.
  intros Ha. remember (Setting p) as t eqn:Ht. revert p Ht.
  induction Ha as [|e t e1 t1 e' t' Hn Ha IH]; intros p -> Hidle; [done|]. intros σ.
  cbn [Event.next] in Hn. apply list_elem_of_fmap in Hn as ([e2 r] & [= -> ->] & Hin). cbn [fst snd] in *.
  destruct r as [p'|b].
  - destruct (IH p' eq_refl Hidle σ) as (e'' & Ha''). exists e''. eapply alone_step; [|exact Ha'']. cbn [next].
    apply list_elem_of_fmap. eexists (_, Continue (release_set_event p')). split; [reflexivity|].
    cbn [PhfReleaseRundownProtection]. apply list_elem_of_fmap. by exists (e2, Continue p').
  - exists e2. eapply alone_step; [|constructor]. cbn [next].
    apply list_elem_of_fmap. eexists (_, Return b). split; [reflexivity|].
    cbn [PhfReleaseRundownProtection]. apply list_elem_of_fmap. by exists (e2, Return b).
Qed.

Lemma waiting_alone e p e' t' : alone Event.next e (Waiting Infinite p) e' t' → t' = Event.Idle →
  ∀ σ, ∃ e'', alone (next waitBlock) (with_event σ e) (WaiterWaiting (wait_for_event p)) (with_event σ e'') WaiterDone.
Proof.
  intros Ha. remember (Waiting Infinite p) as t eqn:Ht. revert p Ht.
  induction Ha as [|e t e1 t1 e' t' Hn Ha IH]; intros p -> Hidle; [done|]. intros σ.
  cbn [Event.next] in Hn. apply list_elem_of_fmap in Hn as ([e2 r] & [= -> ->] & Hin). cbn [fst snd] in *.
  destruct r as [p'|b].
  - destruct (IH p' eq_refl Hidle σ) as (e'' & Ha''). exists e''. eapply alone_step; [|exact Ha'']. cbn [next].
    apply list_elem_of_fmap. eexists (_, Continue (wait_for_event p')). split; [reflexivity|].
    cbn [PhfWaitForRundownProtection]. apply list_elem_of_fmap. by exists (e2, Continue p').
  - exists e2. eapply alone_step; [|constructor]. cbn [next].
    apply list_elem_of_fmap. eexists (_, Return b). split; [reflexivity|].
    cbn [PhfWaitForRundownProtection]. apply list_elem_of_fmap. by exists (e2, Return b).
Qed.

Definition becomes (t : thread) : state → thread → Prop := λ _ t', t' = t.

Lemma set_event_alone σ p : reaches σ (Releasing (release_set_event p)) (becomes Idle).
Proof.
  destruct (setting_gets_idle (WakeEvent σ) p) as (e' & Ha).
  destruct (setting_alone _ _ _ _ Ha eq_refl σ) as (e'' & Ha''). destruct σ. by eexists _, _.
Qed.

Lemma wait_event_alone σ p :
  PhTestEvent (WakeEvent σ) = true → ¬ stuck (WakeEvent σ) (Waiting Infinite p) →
  reaches σ (WaiterWaiting (wait_for_event p)) (becomes WaiterDone).
Proof.
  intros Hset Hstuck. destruct (waiting_gets_idle (WakeEvent σ) Infinite p Hset Hstuck) as (e' & Ha).
  destruct (waiting_alone _ _ _ _ Ha eq_refl σ) as (e'' & Ha''). destruct σ. by eexists _, _.
Qed.

(** ** Threads that run alone *)

Ltac next_point := apply reaches_next; unfold next, fmap, list_fmap; cbn -[Z.land Z.lor Z.ldiff inactive u64 Z.shiftr].
Ltac branch := match goal with |- context [if ?b then _ else _] => destruct b eqn:? end; cbn -[Z.land Z.lor Z.ldiff inactive u64].

(** A word that is not even is the address of the wait block. *)
Definition odd_published (σ : state) : Prop := Value σ mod 2 ≠ 0 → published waitBlock σ.

Lemma inactive_published σ : published waitBlock σ → inactive (Value σ) = waitBlock.
Proof. intros Hp. rewrite inactive_value, Hp. destruct Haddr as [_ He]. Z.to_euclidean_division_equations. lia. Qed.

Lemma release_alone σ p : odd_published σ →
  match p with release_decrement block => block = waitBlock | _ => True end →
  reaches σ (Releasing p) (becomes Idle).
Proof.
  assert (∀ σ, reaches σ (Releasing (release_decrement waitBlock)) (becomes Idle)) as Hd.
  { intros σ1. next_point. rewrite Z.eqb_refl. branch; [apply set_event_alone|by apply reaches_here]. }
  assert (∀ σ, odd_published σ → reaches σ (Releasing release_read) (becomes Idle)) as Hr.
  { intros σ1 Hodd. next_point. rewrite active_bit. unfold odd_published in Hodd. destruct (Z.eqb_spec (Value σ1 mod 2) 0); cbn -[inactive].
    - next_point. unfold InterlockedCompareExchange. rewrite Z.eqb_refl. by apply reaches_here.
    - rewrite inactive_published by auto. apply Hd. }
  assert (∀ σ v, odd_published σ → reaches σ (Releasing (release_inline_exchange v)) (becomes Idle)) as Hi.
  { intros σ1 v Hodd. next_point. unfold InterlockedCompareExchange. branch; [by apply reaches_here|by apply Hr]. }
  intros Hodd Hp. destruct p as [|v| |v|block|p]; auto using set_event_alone.
  - next_point. by apply Hi.
  - next_point. unfold InterlockedCompareExchange. branch; [by apply reaches_here|by apply Hr].
  - rewrite Hp. apply Hd.
Qed.

Lemma acquire_alone σ p : reaches σ (Acquiring p) (λ _ t', t' = Holding ∨ t' = Idle).
Proof.
  assert (∀ σ, reaches σ (Acquiring acquire_read) (λ _ t', t' = Holding ∨ t' = Idle)) as Hr.
  { intros σ1. next_point. rewrite active_bit. destruct (Z.eqb_spec (Value σ1 mod 2) 0); cbn -[inactive].
    - next_point. unfold InterlockedCompareExchange. rewrite Z.eqb_refl. apply reaches_here. by left.
    - apply reaches_here. by right. }
  assert (∀ σ v, reaches σ (Acquiring (acquire_inline_exchange v)) (λ _ t', t' = Holding ∨ t' = Idle)) as Hi.
  { intros σ1 v. next_point. unfold InterlockedCompareExchange. branch; [apply reaches_here; by left|apply Hr]. }
  destruct p as [|v| |v]; auto.
  - next_point. apply Hi.
  - next_point. unfold InterlockedCompareExchange. branch; [apply reaches_here; by left|apply Hr].
Qed.

(** The waiting thread on a protection without references. *)
Lemma wait_alone σ p : Value σ = 0 →
  match p with wait_exchange _ v count => count = v / 2 | wait_for_event _ => False | _ => True end →
  reaches σ (WaiterWaiting p) (becomes WaiterDone).
Proof.
  assert (∀ σ b, Value σ = 0 → reaches σ (WaiterWaiting (wait_prepare b)) (becomes WaiterDone)) as Hp.
  { intros σ1 b Hv. next_point. rewrite Hv. next_point. unfold InterlockedCompareExchange. cbn. by apply reaches_here. }
  intros Hv Hok. destruct p as [| |b|b v count|p]; [| |by apply Hp| |done].
  - next_point. unfold InterlockedCompareExchange. rewrite Hv. by apply reaches_here.
  - next_point. unfold InterlockedCompareExchange. rewrite Hv. by apply reaches_here.
  - next_point. unfold InterlockedCompareExchange. rewrite Hv. destruct (Z.eqb_spec 0 v) as [<-|]; cbn.
    + cbn in Hok. rewrite Hok. by apply reaches_here.
    + by apply Hp.
Qed.

(** ** Getting all threads out *)

Definition distance (t : thread) : nat :=
  match t with
  | Idle | WaiterDone => 0
  | Releasing _ => 1
  | Holding => 2
  | Acquiring _ => 3
  | WaiterIdle | WaiterWaiting _ => 1
  end.

Definition closer (t : thread) : state → thread → Prop := λ _ t', (distance t' < distance t)%nat.

Lemma user_closer σ w us j u :
  phase waitBlock σ w (part_of <$> us) (total holds us) → user_ok waitBlock σ (total holds us) u →
  us !! j = Some u → is_user u → distance u ≠ 0%nat → reaches σ u (closer u).
Proof.
  intros Hphase Hok Hu Huser Hd. destruct u as [| |p|p| | |]; try done.
  - next_point. apply reaches_here. unfold closer. cbn. lia.
  - eapply reaches_mono; [apply acquire_alone|]. intros σ' t' [->| ->]; unfold closer; cbn; lia.
  - apply (reaches_mono _ _ _ (becomes Idle)); [|intros σ' t' ->; unfold closer; cbn; lia].
    apply release_alone; [|destruct p; cbn in Hok; try done; by destruct Hok].
    intros Hodd. pose proof (total_elem holds us j _ ltac:(intros v; apply holds_bounds) Hu) as Hle.
    destruct Hphase as [Hv|Hv H0|q Hpub|Hpub]; try done; [by rewrite Hv, even_mod in Hodd|].
    destruct p; cbn in Hle, Hok; try lia. by destruct Hok.
Qed.

Lemma waiter_closer σ w us :
  phase waitBlock σ w (part_of <$> us) (total holds us) → (∀ u, u ∈ us → u = Idle) →
  distance w ≠ 0%nat → reaches σ w (closer w).
Proof.
  intros Hphase Hidle Hd.
  assert (total holds us = 0) as H0.
  { clear -Hidle. induction us as [|u us IH]; [done|]. rewrite total_cons, (Hidle u), IH by set_solver. done. }
  rewrite H0 in Hphase. destruct Hphase as [Hv Hw|_ _ ->|p Hpub _ -> Hres _ Hset HI|_ _ ->]; [|done| |done].
  - destruct w as [| | | | |p|]; try done.
    + next_point. eapply reaches_mono; [by apply wait_alone|]. intros σ' t' ->. unfold closer. cbn. lia.
    + apply (reaches_mono _ _ _ (becomes WaiterDone)); [|intros σ' t' ->; unfold closer; cbn; lia]. apply wait_alone; [lia|].
      destruct p; try done. by destruct Hw as (_ & _ & -> & _).
  - assert (part_of <$> us = EventTheorems.part_of <$> replicate (length us) Event.Idle) as Hps.
    { clear -Hidle. induction us as [|u us IH]; [done|]. cbn. rewrite (Hidle u), IH by set_solver. done. }
    assert (PhTestEvent (WakeEvent σ) = true) as Hset'.
    { destruct (Hset eq_refl) as [|Hin]; [done|]. rewrite Hps in Hin.
      apply list_elem_of_fmap in Hin as (u & Hu & [-> _]%elem_of_replicate). done. }
    apply (reaches_mono _ _ _ (becomes WaiterDone)); [|intros σ' t' ->; unfold closer; cbn; lia]. apply wait_event_alone; [done|]. intros Hstuck.
    set (s := System (WakeEvent σ) (Waiting Infinite p :: replicate (length us) Event.Idle)).
    assert (event_invariant s) as HE.
    { split; cbn [shared threads s]; [cbn; by rewrite <-Hps|].
      intros [|i] t Ht; [injection Ht as <-; exact Hres|]. by apply lookup_replicate in Ht as [-> _]. }
    destruct (stuck_signals s 0 (Waiting Infinite p) HE Hset' eq_refl Hstuck) as ([|j] & q & Hj & _); [done|].
    by apply lookup_replicate in Hj as [? _].
Qed.

Definition settled (s : @system state thread) : Prop := Forall (λ t, distance t = 0%nat) (threads s).

Lemma some_thread_closer s : invariant waitBlock s → ¬ settled s →
  ∃ i t, threads s !! i = Some t ∧ reaches (shared s) t (closer t).
Proof.
  intros [_ (w & us & Hs & Husers & Hok & Hphase)] Hbusy. unfold settled in Hbusy. rewrite Hs in *.
  destruct (decide (Exists (λ u, distance u ≠ 0%nat) us)) as [Hex|Hnone].
  - apply Exists_exists in Hex as (u & [j Hj]%list_elem_of_lookup_1 & Hd). exists (S j), u. split; [done|].
    rewrite Forall_lookup in Husers. eapply user_closer; [exact Hphase|by eapply Hok|done|by eapply Husers|done].
  - exists 0%nat, w. split; [done|].
    assert (∀ u, u ∈ us → u = Idle) as Hidle.
    { intros u Hu. assert (¬ distance u ≠ 0%nat) as Hd by (intros Hd; apply Hnone, Exists_exists; eauto).
      rewrite Forall_forall in Husers. specialize (Husers u Hu). destruct u; cbn in Hd; done || lia. }
    apply (waiter_closer _ _ us); [done|done|]. intros Hw. apply Hbusy. constructor; [done|].
    apply Forall_forall. intros u Hu. by rewrite (Hidle u Hu).
Qed.
End Drain.

(** ** Properties *)

Lemma done_closed waitBlock σ w us H : phase waitBlock σ w us H → w = WaiterDone → H = 0 ∧ (Value σ = 1 ∨ published waitBlock σ).
Proof. intros Hphase ->. destruct Hphase as [Hv Hw| | |]; naive_solver. Qed.

(** C19. Rundown protection keeps its promise. For any number of threads up to 32765
    that acquire and release protection in any order and one that waits for it
    to be run down, in every reachable state: while the word is even it is twice
    the number of threads that have protection; once the wait has returned no
    thread has protection, and no call that tries to acquire it
    returns TRUE any more. *)
Theorem rundown_safe waitBlock garbage e n s :
  address waitBlock → Z.of_nat n < MAX_THREADS →
  reachable (next waitBlock) (start garbage e n) s →
  (Value (shared s) mod 2 = 0 → Value (shared s) = 2 * total holds (threads s)) ∧
  (threads s !! 0%nat = Some WaiterDone →
   (∀ j t, threads s !! j = Some t → holds t = 0) ∧
   (∀ j p σ' r, threads s !! j = Some (Acquiring p) → (σ', r) ∈ PhfAcquireRundownProtection (shared s) p →
      r ≠ Return true)).
Proof.
  intros Haddr Hn Hs. destruct (rundown_invariant_reachable _ Haddr _ _ _ _ Hn Hs) as [_ (w & us & Hts & Husers & Hok & Hphase)].
  rewrite Hts. split.
  - intros Heven. rewrite total_cons. destruct Hphase as [Hv Hw|Hv|p Hpub|Hpub].
    + assert (holds w = 0) as ->; [|lia]. by destruct w as [| | | | |[]|].
    + by rewrite Hv in Heven.
    + by rewrite Hpub, odd_mod in Heven by apply Haddr.
    + by rewrite Hpub, odd_mod in Heven by apply Haddr.
  - intros [= ->]. destruct (done_closed _ _ _ _ _ Hphase eq_refl) as [H0 Hclosed].
    assert (Value (shared s) mod 2 = 1) as Hodd.
    { destruct Hclosed as [->|Hpub]; [done|]. rewrite Hpub. apply odd_mod, Haddr. }
    split.
    + intros [|j] t Ht; [by injection Ht as <-|].
      pose proof (total_elem holds us j t ltac:(intros v; apply holds_bounds) Ht). pose proof (holds_bounds t). lia.
    + intros [|j] p σ' r Ht Hin; [done|]. specialize (Hok j _ Ht). destruct p as [|v| |v]; cbn in Hin, Hok.
      * in_list Hin; by simplify_eq.
      * unfold InterlockedCompareExchange in Hin. destruct (Z.eqb_spec (Value (shared s)) v) as [<-|]; [lia|]. in_list Hin; by simplify_eq.
      * rewrite active_bit, Hodd in Hin. cbn in Hin. in_list Hin; by simplify_eq.
      * unfold InterlockedCompareExchange in Hin. destruct (Z.eqb_spec (Value (shared s)) v) as [<-|]; [lia|]. in_list Hin; by simplify_eq.
Qed.

(** Nothing is stuck and the wait can always return: from every reachable state
    some continuation brings the waiting thread out of its wait and all other
    threads out of the functions of the protection. *)
Theorem rundown_drains waitBlock garbage e n s :
  address waitBlock → Z.of_nat n < MAX_THREADS →
  reachable (next waitBlock) (start garbage e n) s →
  ∃ s', rtc (step (next waitBlock)) s s' ∧ threads s' = WaiterDone :: replicate n Idle.
Proof.
  intros Haddr Hn Hs.
  assert (invariant waitBlock s ∧ length (threads s) = S n) as HI.
  { revert s Hs. apply reachable_invariant.
    - split; [by apply rundown_invariant_start|]. cbn. by rewrite length_replicate.
    - intros s1 s2 [H1 H2] H12. split; [by eapply rundown_invariant_step|]. by rewrite (step_threads_length _ _ _ H12). }
  destruct (drain (next waitBlock) (λ s, invariant waitBlock s ∧ length (threads s) = S n) settled
    (λ s, Z.to_nat (total (λ t, Z.of_nat (distance t)) (threads s)))) with (s := s) as (s' & Hsteps & [HI' Hlen] & Hsettled).
  - intros s1 [HI1 Hlen1] Hbusy. destruct (some_thread_closer waitBlock Haddr s1 HI1 Hbusy) as (i & t & Ht & σ' & t' & Hg & Hd).
    destruct s1 as [σ ts]. pose proof (run_alone _ i ts _ _ _ _ Ht Hg) as Hrun. cbn [shared threads] in *.
    eexists. split; [exact Hrun|]. split; [split|].
    + eapply steps_invariant; [|exact Hrun|exact HI1]. by apply rundown_invariant_step.
    + cbn [threads]. by rewrite length_insert.
    + cbn [threads]. rewrite (total_insert _ _ _ _ _ Ht). unfold closer in Hd.
      pose proof (total_elem (λ t, Z.of_nat (distance t)) ts i t ltac:(intros; cbn beta; lia) Ht). cbn beta in *. lia.
  - done.
  - exists s'. split; [done|]. destruct HI' as [_ (w & us & Hts & Husers & _ & Hphase)]. unfold settled in Hsettled.
    rewrite Hts in *. injection Hlen as Hlen. inversion Hsettled as [|? ? Hw Hus]; subst. f_equal.
    + destruct Hphase as [_ Hwait|_ _ ->|p _ _ ->|_ _ ->]; try done. by destruct w.
    + apply list_eq. intros k. destruct (us !! k) as [u|] eqn:Hu.
      * rewrite Forall_lookup in Husers, Hus. specialize (Husers k u Hu). specialize (Hus k u Hu).
        symmetry. apply lookup_replicate. split; [by destruct u|by eapply lookup_lt_Some].
      * symmetry. apply lookup_ge_None_2. rewrite length_replicate. by apply lookup_ge_None_1 in Hu.
Qed.

(** A wait that found one thread with protection; the word leads to its wait block
    for ever. *)
Definition run_down_once : state :=
  {| Value := 4097; Count := 0;
     WakeEvent := {| Event := {| Event.Value := 1; EventHandle := None |}; Kernel := {| objects := []; InvalidCloses := 0 |} |} |}.

Lemma run_down_once_reachable : reachable (next 4096) (start 0 PhInitializeEvent 1) (System run_down_once [WaiterDone; Idle]).
Proof.
  apply run_steps with (replicate 3 (1, 0) ++ replicate 5 (0, 0) ++ replicate 6 (1, 0) ++ [(0, 0)] ++ replicate 2 (1, 0))%nat.
  by vm_compute.
Qed.

(** A second thread that waits, whose wait block is elsewhere. *)
Definition waiting_again : state :=
  {| Value := 8193; Count := 2048;
     WakeEvent := {| Event := {| Event.Value := 4; EventHandle := Some 0%nat |};
                     Kernel := {| objects := [Some false]; InvalidCloses := 0 |} |} |}.

Lemma waiting_again_reachable : reachable (next 8192) (System run_down_once [WaiterIdle])
  (System waiting_again [WaiterWaiting (wait_for_event (wait_block (Some 0%nat)))]).
Proof. apply run_steps with (replicate 11 (0, 0))%nat. by vm_compute. Qed.

(** Two limits of rundown protection. The last release can still be at work on the
    wait block after the wait has returned: the waiting thread sees the event
    set, and returns from the function whose stack holds the block, before the
    other thread has read the handle of the event and dropped its reference. And
    a second wait, after a rundown that needed a wait block, does not return: the thread
    takes the address of the old wait block for a count of references, and
    blocks although no thread has protection. *)
Theorem rundown_limits :
  (∃ s, reachable (next 4096) (start 0 PhInitializeEvent 1) s ∧
     threads s = [WaiterDone; Releasing (release_set_event set_read_handle)]) ∧
  (∃ s s', reachable (next 4096) (start 0 PhInitializeEvent 1) s ∧ threads s = [WaiterDone; Idle] ∧
     reachable (next 8192) (System (shared s) [WaiterIdle]) s' ∧
     threads s' = [WaiterWaiting (wait_for_event (wait_block (Some 0%nat)))] ∧
     next 8192 (shared s') (WaiterWaiting (wait_for_event (wait_block (Some 0%nat)))) = []).
Proof.
  split.
  - destruct (run (next 4096) (replicate 3 (1, 0) ++ replicate 5 (0, 0) ++ replicate 6 (1, 0) ++ [(0, 0)])%nat
      (start 0 PhInitializeEvent 1)) as [s|] eqn:Hs; [|by vm_compute in Hs].
    exists s. split; [by eapply run_steps|]. vm_compute in Hs. by injection Hs as <-.
  - exists (System run_down_once [WaiterDone; Idle]), (System waiting_again [WaiterWaiting (wait_for_event (wait_block (Some 0%nat)))]).
    split_and!; [apply run_down_once_reachable|done|apply waiting_again_reachable|done|done].
Qed.

(** ** Witnesses *)

(** Protection was acquired; the waiting thread waits for it, and then has returned,
    while another thread tries to acquire. *)
Lemma waiting_reachable : ∃ s, reachable (next 4096) (start 0 PhInitializeEvent 2) s ∧
  threads s = [WaiterWaiting (wait_for_event wait_fast); Holding; Acquiring acquire_read].
Proof.
  destruct (run (next 4096) (replicate 3 (1, 0) ++ replicate 2 (2, 0) ++ replicate 5 (0, 0) ++ [(2, 0)])%nat (start 0 PhInitializeEvent 2))
    as [s|] eqn:Hs; [|by vm_compute in Hs].
  exists s. split; [by eapply run_steps|]. vm_compute in Hs. by injection Hs as <-.
Qed.

Lemma returned_reachable : ∃ s, reachable (next 4096) (start 0 PhInitializeEvent 2) s ∧
  threads s = [WaiterDone; Idle; Acquiring acquire_read].
Proof.
  destruct (run (next 4096) (replicate 3 (1, 0) ++ replicate 2 (2, 0) ++ replicate 5 (0, 0) ++ [(2, 0)] ++
      replicate 8 (1, 0) ++ [(0, 0)])%nat (start 0 PhInitializeEvent 2))
    as [s|] eqn:Hs; [|by vm_compute in Hs].
  exists s. split; [by eapply run_steps|]. vm_compute in Hs. by injection Hs as <-.
Qed.

Lemma rundown_safe_witness : ∃ s, reachable (next 4096) (start 0 PhInitializeEvent 2) s ∧
  threads s = [WaiterDone; Idle; Acquiring acquire_read] ∧
  (∀ σ' r, (σ', r) ∈ PhfAcquireRundownProtection (shared s) acquire_read → r ≠ Return true).
Proof.
  destruct returned_reachable as (s & Hs & Ht). exists s. split; [done|]. split; [done|].
  destruct (rundown_safe 4096 0 PhInitializeEvent 2 s ltac:(done) ltac:(unfold MAX_THREADS; lia) Hs) as [_ Hdone].
  destruct (Hdone ltac:(by rewrite Ht)) as [_ Hrefused]. intros σ' r. apply (Hrefused 2%nat). by rewrite Ht.
Defined.

Lemma rundown_drains_witness : ∃ s s', threads s = [WaiterWaiting (wait_for_event wait_fast); Holding; Acquiring acquire_read] ∧
  rtc (step (next 4096)) s s' ∧ threads s' = [WaiterDone; Idle; Idle].
Proof.
  destruct waiting_reachable as (s & Hs & Ht).
  destruct (rundown_drains 4096 0 PhInitializeEvent 2 s ltac:(done) ltac:(unfold MAX_THREADS; lia) Hs) as (s' & Hsteps & Hidle).
  by exists s, s'.
Defined.
