(* ===== verification/HandleTable.v ===== *)
(** The handle tables of [phlib/handle.c] and [handlep.h]: handles, the tables of
    one to three levels that hold their entries, the two free lists, and the
    operations on handles, for one thread at a time. *)

From S2P Require Import Prelude.

(** ** Constants ([handlep.h], [handle.h]) *)

Definition PH_HANDLE_TABLE_ENTRY_TYPE : Z := 0x1.
Definition PH_HANDLE_TABLE_ENTRY_IN_USE : Z := 0x0.
Definition PH_HANDLE_TABLE_ENTRY_FREE : Z := 0x1.
Definition PH_HANDLE_TABLE_ENTRY_LOCKED : Z := 0x2.
Definition PH_HANDLE_TABLE_ENTRY_LOCKED_SHIFT : Z := 1.
Definition PH_HANDLE_TABLE_LEVEL_ENTRIES : Z := 256.
Definition PH_HANDLE_TABLE_LEVEL_MASK : Z := 0x3.
Definition PH_HANDLE_TABLE_LOCKS : Z := 8.
Definition PH_HANDLE_TABLE_FREE_COUNT : Z := 64.
Definition PH_HANDLE_TABLE_STRICT_FIFO : Z := 0x1.
Definition PH_HANDLE_TABLE_VALID_FLAGS : Z := 0x1.
Definition PH_HANDLE_VALUE_INVALID : Z := ULONG_MAX.
Definition PH_HANDLE_VALUE_SHIFT : Z := 2.
Definition PH_HANDLE_VALUE_BIAS : Z := 4.

Definition PH_HANDLE_TABLE_LOCK_INDEX (HandleValue : Z) : Z := HandleValue mod PH_HANDLE_TABLE_LOCKS.

Definition PH_HANDLE_VALUE_LEVEL0 (HandleValue : Z) : Z := Z.land HandleValue 0xff.
Definition PH_HANDLE_VALUE_LEVEL1_U (HandleValue : Z) : Z := Z.shiftr HandleValue 8.
Definition PH_HANDLE_VALUE_LEVEL1 (HandleValue : Z) : Z := Z.land (PH_HANDLE_VALUE_LEVEL1_U HandleValue) 0xff.
Definition PH_HANDLE_VALUE_LEVEL2_U (HandleValue : Z) : Z := Z.shiftr HandleValue 16.

(** [UlongToHandle] extends with zeros, [HandleToUlong] truncates. *)
Definition PhpEncodeHandle (HandleValue : Z) : Z :=
  u32 (u32 (Z.shiftl HandleValue PH_HANDLE_VALUE_SHIFT) + PH_HANDLE_VALUE_BIAS).
Definition PhpDecodeHandle (Handle : Z) : Z :=
  Z.shiftr (u32 (u32 Handle - PH_HANDLE_VALUE_BIAS)) PH_HANDLE_VALUE_SHIFT.

(** ** Data *)

(** The two unions of an entry, as the 64-bit words [Value] and [Value2]. *)
Record PH_HANDLE_TABLE_ENTRY : Type := HandleTableEntry { Value : Z; Value2 : Z }.

(** The bit fields of [TypeAndValue], from bit 0 on: [Type : 1], [Locked : 1],
    [Value : 62]. *)
Definition TypeAndValue_Type (e : PH_HANDLE_TABLE_ENTRY) : Z := Value e mod 2.
Definition TypeAndValue_Value (e : PH_HANDLE_TABLE_ENTRY) : Z := Value e / 4.
Definition with_Type (e : PH_HANDLE_TABLE_ENTRY) (v : Z) : PH_HANDLE_TABLE_ENTRY :=
  HandleTableEntry (Value e - Value e mod 2 + v mod 2) (Value2 e).
Definition with_TypeAndValue_Value (e : PH_HANDLE_TABLE_ENTRY) (v : Z) : PH_HANDLE_TABLE_ENTRY :=
  HandleTableEntry (v mod 2 ^ 62 * 4 + Value e mod 4) (Value2 e).

(** [NextFreeValue] is the low half of [Value2]. *)
Definition NextFreeValue (e : PH_HANDLE_TABLE_ENTRY) : Z := u32 (Value2 e).
Definition with_NextFreeValue (e : PH_HANDLE_TABLE_ENTRY) (v : Z) : PH_HANDLE_TABLE_ENTRY :=
  HandleTableEntry (Value e) (Value2 e - u32 (Value2 e) + v).
Definition with_Value (e : PH_HANDLE_TABLE_ENTRY) (v : Z) : PH_HANDLE_TABLE_ENTRY := HandleTableEntry v (Value2 e).
Definition with_Value2 (e : PH_HANDLE_TABLE_ENTRY) (v : Z) : PH_HANDLE_TABLE_ENTRY := HandleTableEntry (Value e) v.

(** [Lock] says whether the thread holds the lock of the table, [Locks] how often
    it holds each of the others as shared. [HandleWakeEvent] has no waiters when
    one thread runs, and waking none changes nothing. *)
Record PH_HANDLE_TABLE : Type := HandleTable {
  Lock : bool;
  Count : Z;
  TableValue : Z;
  FreeValue : Z;
  NextValue : Z;
  FreeValueAlt : Z;
  Flags : Z;
  Locks : list nat
}.

Definition with_Lock (t : PH_HANDLE_TABLE) v := HandleTable v (Count t) (TableValue t) (FreeValue t) (NextValue t) (FreeValueAlt t) (Flags t) (Locks t).
Definition with_Count (t : PH_HANDLE_TABLE) v := HandleTable (Lock t) v (TableValue t) (FreeValue t) (NextValue t) (FreeValueAlt t) (Flags t) (Locks t).
Definition with_TableValue (t : PH_HANDLE_TABLE) v := HandleTable (Lock t) (Count t) v (FreeValue t) (NextValue t) (FreeValueAlt t) (Flags t) (Locks t).
Definition with_FreeValue (t : PH_HANDLE_TABLE) v := HandleTable (Lock t) (Count t) (TableValue t) v (NextValue t) (FreeValueAlt t) (Flags t) (Locks t).
Definition with_NextValue (t : PH_HANDLE_TABLE) v := HandleTable (Lock t) (Count t) (TableValue t) (FreeValue t) v (FreeValueAlt t) (Flags t) (Locks t).
Definition with_FreeValueAlt (t : PH_HANDLE_TABLE) v := HandleTable (Lock t) (Count t) (TableValue t) (FreeValue t) (NextValue t) v (Flags t) (Locks t).
Definition with_Flags (t : PH_HANDLE_TABLE) v := HandleTable (Lock t) (Count t) (TableValue t) (FreeValue t) (NextValue t) (FreeValueAlt t) v (Locks t).
Definition with_Locks (t : PH_HANDLE_TABLE) v := HandleTable (Lock t) (Count t) (TableValue t) (FreeValue t) (NextValue t) (FreeValueAlt t) (Flags t) v.

(** The blocks that are allocated, by address: of the entries, of the pointers to
    those, and of the pointers to these. *)
Record memory : Type := Memory {
  level0 : gmap Z (list PH_HANDLE_TABLE_ENTRY);
  level1 : gmap Z (list Z);
  level2 : gmap Z (list Z)
}.

(** [Table] is [None] where there is no handle table, because none was created
    or because it was destroyed; [attempts] counts the allocations attempted. *)
Record ht_state : Type := HtState {
  Table : option PH_HANDLE_TABLE;
  Mem : memory;
  attempts : nat
}.

(** A pointer to an entry: the block and the index in it. *)
Definition entry_ptr : Type := Z * Z.
#[global] Instance entry_ptr_eq_dec : EqDecision entry_ptr := _.

(** What is allocated: [KindTable] is the handle table itself. *)
Inductive kind : Type := KindTable | KindLevel0 | KindLevel1 | KindLevel2.

(** ** Access to the state *)

Definition get_table : ST ht_state PH_HANDLE_TABLE := λ s,
  match Table s with Some t => Some (t, s) | None => None end.
Definition put_table (t : PH_HANDLE_TABLE) : ST ht_state unit := λ s,
  match Table s with Some _ => Some (tt, HtState (Some t) (Mem s) (attempts s)) | None => None end.
Definition update_table (f : PH_HANDLE_TABLE → PH_HANDLE_TABLE) : ST ht_state unit :=
  t ← get_table; put_table (f t).

Definition set_level0 (m : gmap Z (list PH_HANDLE_TABLE_ENTRY)) (s : ht_state) : ht_state :=
  HtState (Table s) (Memory m (level1 (Mem s)) (level2 (Mem s))) (attempts s).
Definition set_level1 (m : gmap Z (list Z)) (s : ht_state) : ht_state :=
  HtState (Table s) (Memory (level0 (Mem s)) m (level2 (Mem s))) (attempts s).
Definition set_level2 (m : gmap Z (list Z)) (s : ht_state) : ht_state :=
  HtState (Table s) (Memory (level0 (Mem s)) (level1 (Mem s)) m) (attempts s).

(** Access to an entry faults outside an allocated block. *)
Definition get_entry (p : entry_ptr) : ST ht_state PH_HANDLE_TABLE_ENTRY := λ s,
  match level0 (Mem s) !! p.1 with
  | Some l =>
      if decide (0 ≤ p.2) then
        match l !! Z.to_nat p.2 with Some e => Some (e, s) | None => None end
      else None
  | None => None
  end.
Definition put_entry (p : entry_ptr) (e : PH_HANDLE_TABLE_ENTRY) : ST ht_state unit := λ s,
  match level0 (Mem s) !! p.1 with
  | Some l =>
      if decide (0 ≤ p.2 < Z.of_nat (length l)) then
        Some (tt, set_level0 (<[p.1 := <[Z.to_nat p.2 := e]> l]> (level0 (Mem s))) s)
      else None
  | None => None
  end.
Definition update_entry (p : entry_ptr) (f : PH_HANDLE_TABLE_ENTRY → PH_HANDLE_TABLE_ENTRY) : ST ht_state unit :=
  e ← get_entry p; put_entry p (f e).

(** Element [i] of an array of pointers. *)
Definition read_slot (l : list Z) (i : Z) : option Z := if decide (0 ≤ i) then l !! Z.to_nat i else None.
Definition get_level1 (table1 i : Z) : ST ht_state Z := λ s,
  match level1 (Mem s) !! table1 ≫= λ l, read_slot l i with Some v => Some (v, s) | None => None end.
Definition get_level2 (table2 i : Z) : ST ht_state Z := λ s,
  match level2 (Mem s) !! table2 ≫= λ l, read_slot l i with Some v => Some (v, s) | None => None end.
Definition put_level1 (table1 i v : Z) : ST ht_state unit := λ s,
  match level1 (Mem s) !! table1 with
  | Some l =>
      if decide (0 ≤ i < Z.of_nat (length l)) then
        Some (tt, set_level1 (<[table1 := <[Z.to_nat i := v]> l]> (level1 (Mem s))) s)
      else None
  | None => None
  end.
Definition put_level2 (table2 i v : Z) : ST ht_state unit := λ s,
  match level2 (Mem s) !! table2 with
  | Some l =>
      if decide (0 ≤ i < Z.of_nat (length l)) then
        Some (tt, set_level2 (<[table2 := <[Z.to_nat i := v]> l]> (level2 (Mem s))) s)
      else None
  | None => None
  end.

(** ** Locks

    The lock of the table is not recursive: acquiring it again would never
    return. *)

Definition PhAcquireQueuedLockExclusive : ST ht_state unit :=
  t ← get_table; if Lock t then fault else put_table (with_Lock t true).
Definition PhReleaseQueuedLockExclusive : ST ht_state unit :=
  t ← get_table; if Lock t then put_table (with_Lock t false) else fault.

Definition PhpLockHandleTableShared (Index : Z) : ST ht_state unit :=
  t ← get_table;
  match Locks t !! Z.to_nat Index with
  | Some n => put_table (with_Locks t (<[Z.to_nat Index := S n]> (Locks t)))
  | None => fault
  end.
Definition PhpUnlockHandleTableShared (Index : Z) : ST ht_state unit :=
  t ← get_table;
  match Locks t !! Z.to_nat Index with
  | Some (S n) => put_table (with_Locks t (<[Z.to_nat Index := n]> (Locks t)))
  | _ => fault
  end.

(** Acquiring a lock as exclusive and releasing it again: the thread must not hold
    it itself. *)
Definition PhAcquireReleaseQueuedLockExclusive (Index : Z) : ST ht_state unit :=
  t ← get_table;
  match Locks t !! Z.to_nat Index with
  | Some O => mret tt
  | _ => fault
  end.
Fixpoint acquire_release_all (n : nat) (i : Z) : ST ht_state unit :=
  match n with
  | O => mret tt
  | S n => PhAcquireReleaseQueuedLockExclusive i ;; acquire_release_all n (i + 1)
  end.

(** [_InterlockedCompareExchange] on a field of the table. *)
Definition InterlockedCompareExchange (field : PH_HANDLE_TABLE → Z) (with_field : PH_HANDLE_TABLE → Z → PH_HANDLE_TABLE)
    (exchange comperand : Z) : ST ht_state Z :=
  t ← get_table;
  (if field t =? comperand then put_table (with_field t exchange) else mret tt) ;;
  mret (field t).

(** [while (TRUE)] around a body that returns when it breaks. *)
Fixpoint repeat_until {A} (fuel : nat) (body : ST ht_state (option A)) : ST ht_state A :=
  match fuel with
  | O => fault
  | S fuel =>
      r ← body;
      match r with
      | Some a => mret a
      | None => repeat_until fuel body
      end
  end.

Section Operations.
(** What the allocator answers, by kind of block, number of the attempt and
    allocated memory; what is in a new block of entries and in a new table; and
    whether another thread holds a lock of the table. *)
Context (allocate : kind → nat → memory → option Z).
Context (garbage : nat → list PH_HANDLE_TABLE_ENTRY) (uninitialized : PH_HANDLE_TABLE).
Context (held_by_others : ht_state → Z → bool).

Definition try_allocate (k : kind) : ST ht_state (option Z) := λ s,
  Some (allocate k (attempts s) (Mem s), HtState (Table s) (Mem s) (S (attempts s))).

(** ** Blocks *)

(** The loop of [PhpCreateHandleTableLevel0]. *)
Fixpoint initialize_level0 (fuel : nat) (limit i : Z) (entry : entry_ptr) : ST ht_state entry_ptr :=
  match fuel with
  | O => fault
  | S fuel =>
      if i <? limit then
        update_entry entry (λ e, with_Value e PH_HANDLE_TABLE_ENTRY_FREE) ;;
        update_entry entry (λ e, with_NextFreeValue e i) ;;
        initialize_level0 fuel limit (u32 (i + 1)) (entry.1, entry.2 + 1)
      else mret entry
  end.

(** A null pointer is [0]. *)
Definition PhpCreateHandleTableLevel0 (Initialize : bool) : ST ht_state Z :=
  r ← try_allocate KindLevel0;
  match r with
  | None => mret 0
  | Some table =>
      s ← get_st;
      put_st (set_level0 (<[table := garbage (attempts s)]> (level0 (Mem s))) s) ;;
      (if Initialize then
         t ← get_table;
         let baseValue := NextValue t in
         entry ← initialize_level0 256 (u32 (baseValue + PH_HANDLE_TABLE_LEVEL_ENTRIES)) (u32 (baseValue + 1)) (table, 0);
         update_entry entry (λ e, with_Value e PH_HANDLE_TABLE_ENTRY_FREE) ;;
         update_entry entry (λ e, with_NextFreeValue e PH_HANDLE_VALUE_INVALID)
       else mret tt) ;;
      mret table
  end.

(** [memset] clears the pointers. *)
Definition null_pointers : list Z := replicate (Z.to_nat PH_HANDLE_TABLE_LEVEL_ENTRIES) 0.

Definition PhpCreateHandleTableLevel1 : ST ht_state Z :=
  r ← try_allocate KindLevel1;
  match r with
  | None => mret 0
  | Some table => s ← get_st; put_st (set_level1 (<[table := null_pointers]> (level1 (Mem s))) s) ;; mret table
  end.
Definition PhpCreateHandleTableLevel2 : ST ht_state Z :=
  r ← try_allocate KindLevel2;
  match r with
  | None => mret 0
  | Some table => s ← get_st; put_st (set_level2 (<[table := null_pointers]> (level2 (Mem s))) s) ;; mret table
  end.

(** Freeing what is not allocated is a fault. *)
Definition PhpFreeHandleTableLevel0 (Table : Z) : ST ht_state unit := λ s,
  match level0 (Mem s) !! Table with
  | Some _ => Some (tt, set_level0 (delete Table (level0 (Mem s))) s)
  | None => None
  end.
Definition PhpFreeHandleTableLevel1 (Table : Z) : ST ht_state unit := λ s,
  match level1 (Mem s) !! Table with
  | Some _ => Some (tt, set_level1 (delete Table (level1 (Mem s))) s)
  | None => None
  end.
Definition PhpFreeHandleTableLevel2 (Table : Z) : ST ht_state unit := λ s,
  match level2 (Mem s) !! Table with
  | Some _ => Some (tt, set_level2 (delete Table (level2 (Mem s))) s)
  | None => None
  end.

(** [PhFree(HandleTable)]. *)
Definition free_table : ST ht_state unit :=
  _ ← get_table; s ← get_st; put_st (HtState None (Mem s) (attempts s)).

(** ** Creating and destroying a table *)

(** Whether a table was created; the global free lists of blocks are part of the
    allocator. *)
Definition PhCreateHandleTable : ST ht_state bool :=
  r ← try_allocate KindTable;
  match r with
  | None => mret false
  | Some _ =>
      s ← get_st;
      put_st (HtState (Some uninitialized) (Mem s) (attempts s)) ;;
      update_table (λ t, with_Lock t false) ;;
      update_table (λ t, with_NextValue t 0) ;;
      update_table (λ t, with_Count t 0) ;;
      table0 ← PhpCreateHandleTableLevel0 true;
      update_table (λ t, with_TableValue t table0) ;;
      t ← get_table;
      if TableValue t =? 0 then
        free_table ;;
        mret false
      else
        update_table (λ t, with_FreeValue t 0) ;;
        update_table (λ t, with_NextValue t PH_HANDLE_TABLE_LEVEL_ENTRIES) ;;
        update_table (λ t, with_FreeValueAlt t PH_HANDLE_VALUE_INVALID) ;;
        update_table (λ t, with_Flags t 0) ;;
        update_table (λ t, with_Locks t (replicate (Z.to_nat PH_HANDLE_TABLE_LOCKS) O)) ;;
        mret true
  end.

(** The level in the low bits of [TableValue], and the address that is left. *)
Definition table_level (t : PH_HANDLE_TABLE) : Z := Z.land (TableValue t) PH_HANDLE_TABLE_LEVEL_MASK.
Definition table_address (t : PH_HANDLE_TABLE) : Z := TableValue t - table_level t.

(** The loops over the pointers of a block, which end at the first null pointer;
    [n] elements are left. *)
Fixpoint free_level0_tables (n : nat) (i table1 : Z) : ST ht_state unit :=
  match n with
  | O => mret tt
  | S n =>
      table0 ← get_level1 table1 i;
      if table0 =? 0 then mret tt
      else PhpFreeHandleTableLevel0 table0 ;; free_level0_tables n (i + 1) table1
  end.
Fixpoint free_level1_tables (n : nat) (i table2 : Z) : ST ht_state unit :=
  match n with
  | O => mret tt
  | S n =>
      table1 ← get_level2 table2 i;
      if table1 =? 0 then mret tt
      else
        free_level0_tables (Z.to_nat PH_HANDLE_TABLE_LEVEL_ENTRIES) 0 table1 ;;
        PhpFreeHandleTableLevel1 table1 ;;
        free_level1_tables n (i + 1) table2
  end.

Definition PhDestroyHandleTable : ST ht_state unit :=
  t ← get_table;
  let tableValue := table_address t in
  (if table_level t =? 0 then PhpFreeHandleTableLevel0 tableValue
   else if table_level t =? 1 then
     free_level0_tables (Z.to_nat PH_HANDLE_TABLE_LEVEL_ENTRIES) 0 tableValue ;;
     PhpFreeHandleTableLevel1 tableValue
   else if table_level t =? 2 then
     free_level1_tables (Z.to_nat PH_HANDLE_TABLE_LEVEL_ENTRIES) 0 tableValue ;;
     PhpFreeHandleTableLevel2 tableValue
   else fault) ;;
  free_table.

(** ** Entries *)

Definition PhpLookupHandleTableEntry (HandleValue : Z) : ST ht_state (option entry_ptr) :=
  t ← get_table;
  if NextValue t <=? HandleValue then mret None
  else
    let tableValue := table_address t in
    if table_level t =? 0 then mret (Some (tableValue, HandleValue))
    else if table_level t =? 1 then
      table0 ← get_level1 tableValue (PH_HANDLE_VALUE_LEVEL1_U HandleValue);
      mret (Some (table0, PH_HANDLE_VALUE_LEVEL0 HandleValue))
    else if table_level t =? 2 then
      table1 ← get_level2 tableValue (PH_HANDLE_VALUE_LEVEL2_U HandleValue);
      table0 ← get_level1 table1 (PH_HANDLE_VALUE_LEVEL1 HandleValue);
      mret (Some (table0, PH_HANDLE_VALUE_LEVEL0 HandleValue))
    else fault.

(** Dereferencing what a search returned; [NULL] faults. *)
Definition deref (p : option entry_ptr) : ST ht_state entry_ptr :=
  match p with Some p => mret p | None => fault end.

(** ** Growing the table *)

(** The three cases, by level: the new block of entries, or [None] where the
    function returns [FALSE]. *)
Definition more_at_level0 (Initialize : bool) (tableValue : Z) : ST ht_state (option Z) :=
  table1 ← PhpCreateHandleTableLevel1;
  if table1 =? 0 then mret None
  else
    table0 ← PhpCreateHandleTableLevel0 Initialize;
    if table0 =? 0 then PhpFreeHandleTableLevel1 table1 ;; mret None
    else
      put_level1 table1 0 tableValue ;;
      put_level1 table1 1 table0 ;;
      update_table (λ t, with_TableValue t (Z.lor table1 1)) ;;
      mret (Some table0).

(** Replacing a full level 1 table by a level 2 table. *)
Definition make_level2 (Initialize : bool) (tableValue : Z) : ST ht_state (option Z) :=
  table2 ← PhpCreateHandleTableLevel2;
  if table2 =? 0 then mret None
  else
    table1 ← PhpCreateHandleTableLevel1;
    if table1 =? 0 then PhpFreeHandleTableLevel2 table2 ;; mret None
    else
      table0 ← PhpCreateHandleTableLevel0 Initialize;
      if table0 =? 0 then
        PhpFreeHandleTableLevel1 table1 ;;
        PhpFreeHandleTableLevel2 table2 ;;
        mret None
      else
        put_level1 table1 0 table0 ;;
        put_level2 table2 0 tableValue ;;
        put_level2 table2 1 table1 ;;
        update_table (λ t, with_TableValue t (Z.lor table2 2)) ;;
        mret (Some table0).

Definition more_at_level1 (Initialize : bool) (tableValue : Z) : ST ht_state (option Z) :=
  t ← get_table;
  let i := NextValue t / PH_HANDLE_TABLE_LEVEL_ENTRIES in
  if i <? PH_HANDLE_TABLE_LEVEL_ENTRIES then
    table0 ← PhpCreateHandleTableLevel0 true;
    if table0 =? 0 then mret None
    else put_level1 tableValue i table0 ;; mret (Some table0)
  else make_level2 Initialize tableValue.

(** Entry [i] of the level 2 table points to a level 1 table that has room. *)
Definition more_in_level1 (Initialize : bool) (tableValue i : Z) : ST ht_state (option Z) :=
  table0 ← PhpCreateHandleTableLevel0 Initialize;
  if table0 =? 0 then mret None
  else
    t ← get_table;
    let j := u32 (NextValue t - u32 (i * (PH_HANDLE_TABLE_LEVEL_ENTRIES * PH_HANDLE_TABLE_LEVEL_ENTRIES))) in
    let j := j / PH_HANDLE_TABLE_LEVEL_ENTRIES in
    table1 ← get_level2 tableValue i;
    put_level1 table1 j table0 ;;
    mret (Some table0).

(** Entry [i] of the level 2 table is null. *)
Definition make_level1 (tableValue i : Z) : ST ht_state (option Z) :=
  table1 ← PhpCreateHandleTableLevel1;
  if table1 =? 0 then mret None
  else
    table0 ← PhpCreateHandleTableLevel0 true;
    if table0 =? 0 then PhpFreeHandleTableLevel1 table1 ;; mret None
    else
      put_level1 table1 0 table0 ;;
      put_level2 tableValue i table1 ;;
      mret (Some table0).

Definition more_at_level2 (Initialize : bool) (tableValue : Z) : ST ht_state (option Z) :=
  t ← get_table;
  let i := NextValue t / (PH_HANDLE_TABLE_LEVEL_ENTRIES * PH_HANDLE_TABLE_LEVEL_ENTRIES) in
  if PH_HANDLE_TABLE_LEVEL_ENTRIES <=? i then mret None
  else
    table1 ← get_level2 tableValue i;
    if negb (table1 =? 0) then more_in_level1 Initialize tableValue i else make_level1 tableValue i.

Definition PhpAllocateMoreHandleTableEntries (Initialize : bool) : ST ht_state bool :=
  t ← get_table;
  let tableValue := table_address t in
  r ← (if table_level t =? 0 then more_at_level0 Initialize tableValue
       else if table_level t =? 1 then more_at_level1 Initialize tableValue
       else if table_level t =? 2 then more_at_level2 Initialize tableValue
       else fault);
  match r with
  | None => mret false
  | Some table0 =>
      t ← get_table;
      let oldNextValue := NextValue t in
      put_table (with_NextValue t (u32 (oldNextValue + PH_HANDLE_TABLE_LEVEL_ENTRIES))) ;;
      (if Initialize then
         repeat_until 1
           (t ← get_table;
            let freeValue := FreeValue t in
            update_entry (table0, PH_HANDLE_TABLE_LEVEL_ENTRIES - 1) (λ e, with_NextFreeValue e freeValue) ;;
            old ← InterlockedCompareExchange FreeValue with_FreeValue oldNextValue freeValue;
            mret (if old =? freeValue then Some tt else None))
       else mret tt) ;;
      mret true
  end.

(** ** The free lists *)

(** The loop that reverses the chain from [index] on; it returns the last entry
    of the reversed chain, [index] and [count]. *)
Fixpoint reverse_chain (fuel : nat) (index lastIndex count : Z) (firstEntry : option entry_ptr) :
    ST ht_state (option entry_ptr * Z * Z) :=
  match fuel with
  | O => fault
  | S fuel =>
      p ← PhpLookupHandleTableEntry index;
      let count := u32 (count + 1) in
      let firstEntry := if lastIndex =? PH_HANDLE_VALUE_INVALID then p else firstEntry in
      entry ← deref p;
      e ← get_entry entry;
      let nextIndex := NextFreeValue e in
      update_entry entry (λ e, with_NextFreeValue e lastIndex) ;;
      if nextIndex =? PH_HANDLE_VALUE_INVALID then mret (firstEntry, index, count)
      else reverse_chain fuel nextIndex index count firstEntry
  end.

(** Reversing the chain and pushing it onto the free list. The fuel is more than the
    number of entries, and so of free entries. *)
Definition reverse_and_push (flags freeValueAlt : Z) : ST ht_state Z :=
  t ← get_table;
  '(firstEntry, index, count) ←
    reverse_chain (S (Z.to_nat (NextValue t))) freeValueAlt PH_HANDLE_VALUE_INVALID 0 None;
  repeat_until 1
    (t ← get_table;
     let freeValue := FreeValue t in
     entry ← deref firstEntry;
     update_entry entry (λ e, with_NextFreeValue e freeValue) ;;
     old ← InterlockedCompareExchange FreeValue with_FreeValue index freeValue;
     mret (if old =? freeValue then Some tt else None)) ;;
  if negb (Z.land flags PH_HANDLE_TABLE_STRICT_FIFO =? 0) && (count <? PH_HANDLE_TABLE_FREE_COUNT)
  then mret PH_HANDLE_VALUE_INVALID
  else mret index.

Definition PhpMoveFreeHandleTableEntries : ST ht_state Z :=
  t ← get_table;
  let freeValueAlt := FreeValueAlt t in
  put_table (with_FreeValueAlt t PH_HANDLE_VALUE_INVALID) ;;
  if freeValueAlt =? PH_HANDLE_VALUE_INVALID then mret PH_HANDLE_VALUE_INVALID
  else
    acquire_release_all (Z.to_nat PH_HANDLE_TABLE_LOCKS) 0 ;;
    t ← get_table;
    let flags := Flags t in
    shortcut ←
      (if Z.land flags PH_HANDLE_TABLE_STRICT_FIFO =? 0 then
         old ← InterlockedCompareExchange FreeValue with_FreeValue freeValueAlt PH_HANDLE_VALUE_INVALID;
         mret (old =? PH_HANDLE_VALUE_INVALID)
       else mret false);
    if shortcut : bool then mret freeValueAlt
    else
      reverse_and_push flags freeValueAlt.

(** The inner loop of [PhpAllocateHandleTableEntry], for as long as there is no
    free handle: the free handle, or [None] where the function returns [NULL]. *)
Fixpoint find_free_value (fuel : nat) (freeValue : Z) : ST ht_state (option Z) :=
  match fuel with
  | O => fault
  | S fuel =>
      if negb (freeValue =? PH_HANDLE_VALUE_INVALID) then mret (Some freeValue)
      else
        PhAcquireQueuedLockExclusive ;;
        t ← get_table;
        let freeValue := FreeValue t in
        if negb (freeValue =? PH_HANDLE_VALUE_INVALID) then
          PhReleaseQueuedLockExclusive ;;
          mret (Some freeValue)
        else
          freeValue ← PhpMoveFreeHandleTableEntries;
          if negb (freeValue =? PH_HANDLE_VALUE_INVALID) then
            PhReleaseQueuedLockExclusive ;;
            mret (Some freeValue)
          else
            result ← PhpAllocateMoreHandleTableEntries true;
            PhReleaseQueuedLockExclusive ;;
            t ← get_table;
            let freeValue := FreeValue t in
            if negb result && (freeValue =? PH_HANDLE_VALUE_INVALID) then mret None
            else find_free_value fuel freeValue
  end.

(** The entry and its handle value, or [None] for [NULL]. *)
Definition PhpAllocateHandleTableEntry : ST ht_state (option (entry_ptr * Z)) :=
  r ← repeat_until 1
    (t ← get_table;
     freeValue ← find_free_value 2 (FreeValue t);
     match freeValue with
     | None => mret (Some None)
     | Some freeValue =>
         p ← PhpLookupHandleTableEntry freeValue;
         let lockIndex := PH_HANDLE_TABLE_LOCK_INDEX freeValue in
         PhpLockHandleTableShared lockIndex ;;
         t ← get_table;
         if negb (FreeValue t =? freeValue) then
           PhpUnlockHandleTableShared lockIndex ;;
           mret None
         else
           entry ← deref p;
           e ← get_entry entry;
           let nextFreeValue := NextFreeValue e in
           oldFreeValue ← InterlockedCompareExchange FreeValue with_FreeValue nextFreeValue freeValue;
           PhpUnlockHandleTableShared lockIndex ;;
           mret (if oldFreeValue =? freeValue then Some (Some (entry, freeValue)) else None)
     end);
  match r with
  | None => mret None
  | Some (entry, freeValue) =>
      update_table (λ t, with_Count t (u32 (Count t + 1))) ;;
      mret (Some (entry, freeValue))
  end.

Definition PhTryAcquireReleaseQueuedLockExclusive (Index : Z) : ST ht_state bool :=
  t ← get_table;
  s ← get_st;
  match Locks t !! Z.to_nat Index with
  | Some n => mret (Nat.eqb n 0 && negb (held_by_others s Index))
  | None => fault
  end.

(** Pushing an entry onto one of the two free lists. *)
Definition push_free (field : PH_HANDLE_TABLE → Z) (with_field : PH_HANDLE_TABLE → Z → PH_HANDLE_TABLE)
    (HandleValue : Z) (entry : entry_ptr) : ST ht_state unit :=
  repeat_until 1
    (t ← get_table;
     let oldValue := field t in
     update_entry entry (λ e, with_NextFreeValue e oldValue) ;;
     old ← InterlockedCompareExchange field with_field HandleValue oldValue;
     mret (if old =? oldValue then Some tt else None)).

Definition PhpFreeHandleTableEntry (HandleValue : Z) (HandleTableEntry : entry_ptr) : ST ht_state unit :=
  update_table (λ t, with_Count t (u32 (Count t - 1))) ;;
  t ← get_table;
  let flags := Flags t in
  main ←
    (if Z.land flags PH_HANDLE_TABLE_STRICT_FIFO =? 0 then
       PhTryAcquireReleaseQueuedLockExclusive (PH_HANDLE_TABLE_LOCK_INDEX HandleValue)
     else mret false);
  if main : bool then push_free FreeValue with_FreeValue HandleValue HandleTableEntry
  else push_free FreeValueAlt with_FreeValueAlt HandleValue HandleTableEntry.

(** ** Handles *)

(** The thread would wait for another to unlock the entry; there is none. *)
Definition PhpBlockOnLockedHandleTableEntry (HandleTableEntry : entry_ptr) : ST ht_state unit :=
  e ← get_entry HandleTableEntry;
  if negb (Z.land (Value e) PH_HANDLE_TABLE_ENTRY_TYPE =? PH_HANDLE_TABLE_ENTRY_IN_USE)
     || negb (Z.land (Value e) PH_HANDLE_TABLE_ENTRY_LOCKED =? 0)
  then mret tt
  else fault.

Definition PhLockHandleTableEntry (HandleTableEntry : entry_ptr) : ST ht_state bool :=
  repeat_until 1
    (e ← get_entry HandleTableEntry;
     let value := Value e in
     if negb (Z.land value PH_HANDLE_TABLE_ENTRY_TYPE =? PH_HANDLE_TABLE_ENTRY_IN_USE) then mret (Some false)
     else
       exchanged ←
         (if negb (Z.land value PH_HANDLE_TABLE_ENTRY_LOCKED =? 0) then
            e ← get_entry HandleTableEntry;
            if Value e =? value then
              put_entry HandleTableEntry (with_Value e (value - PH_HANDLE_TABLE_ENTRY_LOCKED)) ;;
              mret true
            else mret false
          else mret false);
       if exchanged : bool then mret (Some true)
       else PhpBlockOnLockedHandleTableEntry HandleTableEntry ;; mret None).

Definition PhUnlockHandleTableEntry (HandleTableEntry : entry_ptr) : ST ht_state unit :=
  update_entry HandleTableEntry (λ e, with_Value e (Z.setbit (Value e) PH_HANDLE_TABLE_ENTRY_LOCKED_SHIFT)).

(** [NULL] is [0]. *)
Definition PhCreateHandle (HandleTableEntry : PH_HANDLE_TABLE_ENTRY) : ST ht_state Z :=
  r ← PhpAllocateHandleTableEntry;
  match r with
  | None => mret 0
  | Some (entry, handleValue) =>
      update_entry entry (λ e, with_Type e PH_HANDLE_TABLE_ENTRY_IN_USE) ;;
      update_entry entry (λ e, with_TypeAndValue_Value e (TypeAndValue_Value HandleTableEntry)) ;;
      update_entry entry (λ e, with_Value2 e (Value2 HandleTableEntry)) ;;
      PhUnlockHandleTableEntry entry ;;
      mret (PhpEncodeHandle handleValue)
  end.

Definition PhDestroyHandle (Handle : Z) (HandleTableEntry : option entry_ptr) : ST ht_state bool :=
  let handleValue := PhpDecodeHandle Handle in
  found ←
    (match HandleTableEntry with
     | Some entry => mret (Some entry)
     | None =>
         p ← PhpLookupHandleTableEntry handleValue;
         match p with
         | None => mret None
         | Some entry =>
             locked ← PhLockHandleTableEntry entry;
             mret (if locked : bool then Some entry else None)
         end
     end);
  match found with
  | None => mret false
  | Some entry =>
      update_entry entry (λ e, with_Value e PH_HANDLE_TABLE_ENTRY_FREE) ;;
      PhpFreeHandleTableEntry handleValue entry ;;
      mret true
  end.

Definition PhLookupHandleTableEntry (Handle : Z) : ST ht_state (option entry_ptr) :=
  p ← PhpLookupHandleTableEntry (PhpDecodeHandle Handle);
  match p with
  | None => mret None
  | Some entry =>
      locked ← PhLockHandleTableEntry entry;
      mret (if locked : bool then Some entry else None)
  end.

(** ** Enumeration

    A callback gets the handle and the entry, updates its context and says whether
    to go on; it leaves the table as it is. *)

Fixpoint enum_handles {C} (fuel : nat) (Callback : C → Z → PH_HANDLE_TABLE_ENTRY → bool * C) (Context_ : C) (handleValue : Z) :
    ST ht_state C :=
  match fuel with
  | O => fault
  | S fuel =>
      p ← PhpLookupHandleTableEntry handleValue;
      match p with
      | None => mret Context_
      | Some entry =>
          locked ← PhLockHandleTableEntry entry;
          if locked : bool then
            e ← get_entry entry;
            let '(cont, Context_) := Callback Context_ (PhpEncodeHandle handleValue) e in
            PhUnlockHandleTableEntry entry ;;
            if negb cont then mret Context_ else enum_handles fuel Callback Context_ (u32 (handleValue + 1))
          else enum_handles fuel Callback Context_ (u32 (handleValue + 1))
      end
  end.
Definition PhEnumHandleTable {C} (Callback : C → Z → PH_HANDLE_TABLE_ENTRY → bool * C) (Context_ : C) : ST ht_state C :=
  t ← get_table; enum_handles (S (Z.to_nat (NextValue t))) Callback Context_ 0.

Fixpoint sweep_handles {C} (fuel : nat) (Callback : C → Z → PH_HANDLE_TABLE_ENTRY → bool * C) (Context_ : C) (handleValue : Z) :
    ST ht_state C :=
  match fuel with
  | O => fault
  | S fuel =>
      p ← PhpLookupHandleTableEntry handleValue;
      match p with
      | None => mret Context_
      | Some entry =>
          e ← get_entry entry;
          if TypeAndValue_Type e =? PH_HANDLE_TABLE_ENTRY_IN_USE then
            let '(cont, Context_) := Callback Context_ (PhpEncodeHandle handleValue) e in
            if negb cont then mret Context_ else sweep_handles fuel Callback Context_ (u32 (handleValue + 1))
          else sweep_handles fuel Callback Context_ (u32 (handleValue + 1))
      end
  end.
Definition PhSweepHandleTable {C} (Callback : C → Z → PH_HANDLE_TABLE_ENTRY → bool * C) (Context_ : C) : ST ht_state C :=
  t ← get_table; sweep_handles (S (Z.to_nat (NextValue t))) Callback Context_ 0.

(** ** Information about a table *)

Inductive NTSTATUS : Type :=
  STATUS_SUCCESS | STATUS_INFO_LENGTH_MISMATCH | STATUS_INVALID_INFO_CLASS | STATUS_INVALID_PARAMETER.

(** The classes of [PH_HANDLE_TABLE_INFORMATION_CLASS], and what a query writes to
    the buffer: the structures [PH_HANDLE_TABLE_BASIC_INFORMATION] (12 bytes) and
    [PH_HANDLE_TABLE_FLAGS_INFORMATION] (4 bytes). *)
Definition HandleTableBasicInformation : Z := 0.
Definition HandleTableFlagsInformation : Z := 1.
Inductive information : Type :=
  | BasicInformation (Count Flags TableLevel : Z)
  | FlagsInformation (Flags : Z).

(** The status, the length returned, and what is written. *)
Definition PhQueryInformationHandleTable (InformationClass BufferLength : Z) :
    ST ht_state (NTSTATUS * Z * option information) :=
  t ← get_table;
  mret
    (if InformationClass =? HandleTableBasicInformation then
       if BufferLength =? 12
       then (STATUS_SUCCESS, 12, Some (BasicInformation (Count t) (Flags t) (Z.land (TableValue t) PH_HANDLE_TABLE_LEVEL_MASK)))
       else (STATUS_INFO_LENGTH_MISMATCH, 12, None)
     else if InformationClass =? HandleTableFlagsInformation then
       if BufferLength =? 4 then (STATUS_SUCCESS, 4, Some (FlagsInformation (Flags t)))
       else (STATUS_INFO_LENGTH_MISMATCH, 4, None)
     else (STATUS_INVALID_INFO_CLASS, 0, None)).

(** [flags] is what the buffer holds. *)
Definition PhSetInformationHandleTable (InformationClass flags BufferLength : Z) : ST ht_state NTSTATUS :=
  if InformationClass =? HandleTableFlagsInformation then
    if BufferLength =? 4 then
      if Z.land flags PH_HANDLE_TABLE_VALID_FLAGS =? flags then
        update_table (λ t, with_Flags t flags) ;;
        mret STATUS_SUCCESS
      else mret STATUS_INVALID_PARAMETER
    else mret STATUS_INFO_LENGTH_MISMATCH
  else mret STATUS_INVALID_INFO_CLASS.

End Operations.
