(* ===== verification/HandleTableFacts.v ===== *)
(** Handle tables: the tables of one to three levels hold a flat array of entries.
    [layout] relates the blocks in memory to the array; every access through the
    levels is shown to be an access to the array, and growing the table to
    extend it. *)

From S2P Require Import Prelude HandleTable.

(** ** Bit operations as arithmetic *)

Lemma level_bits x : Z.land x PH_HANDLE_TABLE_LEVEL_MASK = x mod 4.
Proof. apply (land_pow2 x 2). lia. Qed.

Lemma byte_bits x : Z.land x 0xff = x mod 256.
Proof. apply (land_pow2 x 8). lia. Qed.

Lemma lor_level a k : a mod 4 = 0 → 0 ≤ k < 4 → Z.lor a k = a + k.
Proof.
  intros Ha Hk. assert (Z.land a k = 0) as Hand.
  { rewrite <-(Z.mod_small k 4) by done. change 4 with (2 ^ 2).
    rewrite <-!Z.land_ones by done. rewrite (Z.land_comm k), Z.land_assoc, Z.land_ones by done.
    change (2 ^ 2) with 4. by rewrite Ha. }
  pose proof (Z.add_lor_land a k). lia.
Qed.

(** ** Chunks: the part of a list that one block holds *)

Definition chunk {A} (i : nat) (l : list A) : list A := take 256 (drop (256 * i) l).

Lemma chunk_lookup {A} i j (l : list A) : (j < 256)%nat → chunk i l !! j = l !! (256 * i + j)%nat.
Proof. intros Hj. unfold chunk. by rewrite lookup_take_lt, lookup_drop by lia. Qed.

Lemma chunk_length {A} i (l : list A) : length (chunk i l) = (256 `min` (length l - 256 * i))%nat.
Proof. unfold chunk. by rewrite length_take, length_drop. Qed.

Lemma chunk_snoc_old {A} i (l : list A) x : (256 * S i ≤ length l)%nat → chunk i (l ++ [x]) = chunk i l.
Proof.
  intros Hi. unfold chunk. rewrite drop_app_le, take_app_le; [done|rewrite length_drop; lia|lia].
Qed.

Lemma chunk_snoc_last {A} i (l : list A) x : (256 * i ≤ length l < 256 * S i)%nat → chunk i (l ++ [x]) = chunk i l ++ [x].
Proof.
  intros Hi. unfold chunk. rewrite drop_app_le by lia.
  rewrite !take_ge; [done|..]; rewrite ?length_app, length_drop; simpl; lia.
Qed.

Lemma chunk_nil {A} i (l : list A) : (length l ≤ 256 * i)%nat → chunk i l = [].
Proof. intros Hi. unfold chunk. by rewrite drop_ge, take_nil. Qed.

Lemma chunk_all {A} (l : list A) : (length l ≤ 256)%nat → chunk 0 l = l.
Proof. intros Hl. unfold chunk. by rewrite drop_0, take_ge. Qed.

(** ** Blocks of pointers, filled up with null pointers *)

Definition pad (l : list Z) : list Z := l ++ replicate (256 - length l) 0.

Lemma pad_nil : pad [] = null_pointers.
Proof. done. Qed.

Lemma pad_length l : (length l ≤ 256)%nat → length (pad l) = 256%nat.
Proof. intros Hl. unfold pad. rewrite length_app, length_replicate. lia. Qed.

Lemma pad_lookup l i : (i < length l)%nat → pad l !! i = l !! i.
Proof. intros Hi. unfold pad. by rewrite lookup_app_l. Qed.

Lemma pad_lookup_null l i : (length l ≤ i < 256)%nat → pad l !! i = Some 0.
Proof.
  intros Hi. unfold pad. rewrite lookup_app_r by lia. apply lookup_replicate. lia.
Qed.

Lemma pad_snoc l x : (length l < 256)%nat → <[length l := x]> (pad l) = pad (l ++ [x]).
Proof.
  intros Hl. unfold pad. rewrite length_app. simpl.
  replace (256 - length l)%nat with (S (256 - (length l + 1)))%nat by lia. simpl.
  rewrite insert_app_r_alt, Nat.sub_diag by lia. simpl. by rewrite <-app_assoc.
Qed.

(** ** The layout *)

(** The pointers to the blocks [bs] are in the blocks [ps], 256 to a block. *)
Record pointers (m : gmap Z (list Z)) (ps bs : list Z) : Prop := Pointers {
  pointers_nodup : NoDup ps;
  pointers_nonnull : 0 ∉ ps;
  pointers_dom : dom m = list_to_set ps;
  pointers_count : (256 * (length ps - 1) < length bs ≤ 256 * length ps)%nat;
  pointers_block : ∀ i q, ps !! i = Some q → m !! q = Some (pad (chunk i bs))
}.

(** What [TableValue] points to, by level. *)
Inductive levels (m : memory) (bs : list Z) : Z → Prop :=
  | levels0 b : bs = [b] → level1 m = ∅ → level2 m = ∅ → levels m bs b
  | levels1 p :
      (2 ≤ length bs)%nat → p mod 4 = 0 → pointers (level1 m) [p] bs → level2 m = ∅ → levels m bs (p + 1)
  | levels2 p ps :
      (2 ≤ length ps ≤ 256)%nat → p mod 4 = 0 → p ≠ 0 → pointers (level1 m) ps bs →
      level2 m = {[p := pad ps]} → levels m bs (p + 2).

(** Entry [v] of the array is entry [v mod 256] of block [v / 256]. *)
Record layout (m : memory) (tv : Z) (bs : list Z) (es : gmap Z PH_HANDLE_TABLE_ENTRY) : Prop := Layout {
  layout_levels : levels m bs tv;
  layout_nodup : NoDup bs;
  layout_address : ∀ b, b ∈ bs → b ≠ 0 ∧ b mod 4 = 0;
  layout_dom : dom (level0 m) = list_to_set bs;
  layout_block : ∀ i b, bs !! i = Some b → ∃ l, level0 m !! b = Some l ∧ length l = 256%nat ∧
    ∀ j, (j < 256)%nat → l !! j = es !! (256 * Z.of_nat i + Z.of_nat j);
  layout_entries : ∀ v, is_Some (es !! v) ↔ 0 ≤ v < 256 * Z.of_nat (length bs)
}.

Lemma levels_bound m bs tv : levels m bs tv → 1 ≤ Z.of_nat (length bs) ≤ 65536.
Proof.
  intros [b -> _ _ | p H2 _ Hp _ | p ps Hps _ _ Hp _]; [simpl; lia| |];
    pose proof (pointers_count _ _ _ Hp); simpl in *; lia.
Qed.

(** The pointer to entry [v]. *)
Definition ptr (bs : list Z) (v : Z) : entry_ptr := (bs !!! Z.to_nat (v / 256), v mod 256).

(** A table and its array of entries. *)
Record rep (s : ht_state) (t : PH_HANDLE_TABLE) (bs : list Z) (es : gmap Z PH_HANDLE_TABLE_ENTRY) : Prop := Rep {
  rep_table : Table s = Some t;
  rep_layout : layout (Mem s) (TableValue t) bs es;
  rep_next : NextValue t = 256 * Z.of_nat (length bs)
}.

Lemma rep_bound s t bs es : rep s t bs es → 256 ≤ NextValue t ≤ 2 ^ 24.
Proof. intros [_ Hl ->]. pose proof (levels_bound _ _ _ (layout_levels _ _ _ _ Hl)). lia. Qed.

Lemma rep_entries s t bs es v : rep s t bs es → is_Some (es !! v) ↔ 0 ≤ v < NextValue t.
Proof. intros [_ Hl ->]. apply (layout_entries _ _ _ _ Hl). Qed.

Lemma rep_entry_bound s t bs es v e : rep s t bs es → es !! v = Some e → 0 ≤ v < NextValue t.
Proof. intros Hrep Hv. by apply (rep_entries _ _ _ _ v Hrep). Qed.

(** The block of an entry. *)
Lemma layout_lookup m tv bs es v e :
  layout m tv bs es → es !! v = Some e →
  ∃ b l, bs !! Z.to_nat (v / 256) = Some b ∧ level0 m !! b = Some l ∧ length l = 256%nat ∧
    l !! Z.to_nat (v mod 256) = Some e.
Proof.
  intros Hl Hv. assert (0 ≤ v < 256 * Z.of_nat (length bs)) as Hr by (apply (layout_entries _ _ _ _ Hl); by eexists).
  assert (0 ≤ v / 256 < Z.of_nat (length bs) ∧ 0 ≤ v mod 256 < 256 ∧ v = 256 * (v / 256) + v mod 256) as (Hi & Hj & Heq)
    by (Z.to_euclidean_division_equations; lia).
  destruct (lookup_lt_is_Some_2 bs (Z.to_nat (v / 256))) as [b Hb]; [lia|].
  destruct (layout_block _ _ _ _ Hl _ _ Hb) as (l & Hm & Hlen & Hent).
  exists b, l. split_and!; [done..|]. rewrite Hent by lia. rewrite <-Hv. f_equal. lia.
Qed.

(** ** Access through the levels *)

Lemma wp_get_table s t Q : Table s = Some t → Q t s → wp get_table Q s.
Proof. intros Ht HQ. exists t, s. unfold get_table. by rewrite Ht. Qed.

Lemma wp_get_level1 s p i l v Q :
  level1 (Mem s) !! p = Some l → 0 ≤ i → l !! Z.to_nat i = Some v → Q v s → wp (get_level1 p i) Q s.
Proof.
  intros Hp Hi Hv HQ. exists v, s. unfold get_level1, read_slot. rewrite Hp. simpl.
  by rewrite decide_True, Hv.
Qed.

Lemma wp_get_level2 s p i l v Q :
  level2 (Mem s) !! p = Some l → 0 ≤ i → l !! Z.to_nat i = Some v → Q v s → wp (get_level2 p i) Q s.
Proof.
  intros Hp Hi Hv HQ. exists v, s. unfold get_level2, read_slot. rewrite Hp. simpl.
  by rewrite decide_True, Hv.
Qed.

(** The pointer to block [i], read from the block of pointers that holds it. *)
Lemma pointers_lookup m ps bs i b q :
  pointers m ps bs → bs !! i = Some b → ps !! (i / 256)%nat = Some q →
  ∃ l, m !! q = Some l ∧ l !! (i mod 256)%nat = Some b.
Proof.
  intros Hp Hb Hq. exists (pad (chunk (i / 256) bs)). split; [by apply (pointers_block _ _ _ Hp)|].
  pose proof (Nat.div_mod_eq i 256). pose proof (Nat.mod_upper_bound i 256 ltac:(done)).
  pose proof (lookup_lt_Some _ _ _ Hb).
  rewrite pad_lookup by (rewrite chunk_length; lia). rewrite chunk_lookup by lia. rewrite <-Hb. f_equal. lia.
Qed.

Lemma pointers_covered m ps bs i : pointers m ps bs → (i < length bs)%nat → ∃ q, ps !! (i / 256)%nat = Some q.
Proof.
  intros Hp Hi. apply lookup_lt_is_Some_2. pose proof (pointers_count _ _ _ Hp).
  pose proof (Nat.div_mod_eq i 256). pose proof (Nat.mod_upper_bound i 256 ltac:(done)). lia.
Qed.

Lemma level_of p k : p mod 4 = 0 → 0 ≤ k < 4 → Z.land (p + k) PH_HANDLE_TABLE_LEVEL_MASK = k.
Proof. intros Hp Hk. rewrite level_bits. Z.to_euclidean_division_equations. lia. Qed.

Lemma table_parts t k p :
  TableValue t = p + k → p mod 4 = 0 → 0 ≤ k < 4 → table_level t = k ∧ table_address t = p.
Proof. intros Ht Hp Hk. unfold table_address, table_level. rewrite Ht, level_of by done. lia. Qed.

(** A handle value taken apart as the levels do. *)
Lemma value_parts v :
  0 ≤ v < 2 ^ 24 →
  PH_HANDLE_VALUE_LEVEL0 v = v mod 256 ∧ PH_HANDLE_VALUE_LEVEL1_U v = v / 256 ∧
  PH_HANDLE_VALUE_LEVEL1 v = Z.of_nat (Z.to_nat (v / 256) mod 256) ∧
  PH_HANDLE_VALUE_LEVEL2_U v = Z.of_nat (Z.to_nat (v / 256) / 256).
Proof.
  intros Hv. unfold PH_HANDLE_VALUE_LEVEL1, PH_HANDLE_VALUE_LEVEL0, PH_HANDLE_VALUE_LEVEL1_U, PH_HANDLE_VALUE_LEVEL2_U.
  rewrite !byte_bits, !Z.shiftr_div_pow2 by lia. change (2 ^ 8) with 256. change (2 ^ 16) with (256 * 256).
  rewrite <-Z.div_div by lia. assert (0 ≤ v / 256) by (apply Z.div_pos; lia).
  split_and!; [done|done|..].
  - rewrite Nat2Z.inj_mod. by rewrite Z2Nat.id by lia.
  - rewrite Nat2Z.inj_div. by rewrite Z2Nat.id by lia.
Qed.

Lemma wp_lookup s t bs es v e Q :
  rep s t bs es → es !! v = Some e → Q (Some (ptr bs v)) s → wp (PhpLookupHandleTableEntry v) Q s.
Proof.
  intros Hrep Hv HQ. pose proof (rep_entry_bound _ _ _ _ _ _ Hrep Hv) as Hb. pose proof (rep_bound _ _ _ _ Hrep) as Hn.
  destruct Hrep as [Ht Hlay Hnext].
  destruct (layout_lookup _ _ _ _ _ _ Hlay Hv) as (b & l & Hbs & _).
  destruct (value_parts v) as (E0 & E1U & E1 & E2); [lia|].
  assert (bs !!! Z.to_nat (v / 256) = b) as Hptr by (by apply list_lookup_total_correct).
  assert (0 ≤ v / 256) by (apply Z.div_pos; lia).
  pose proof (lookup_lt_Some _ _ _ Hbs) as Hlt.
  apply wp_bind, (wp_get_table _ t); [done|]. rewrite (proj2 (Z.leb_gt _ _)) by lia.
  unfold ptr in HQ. rewrite Hptr in HQ.
  pose proof (layout_levels _ _ _ _ Hlay) as Hlev. remember (TableValue t) as tv eqn:Htv.
  destruct Hlev as [b0 Hbs0 Hm1 Hm2 | p H2 Hp Hps Hm2 | p ps Hlen Hp Hp0 Hps Hm2]; symmetry in Htv.
  - subst bs. apply list_lookup_singleton_Some in Hbs as [Hi <-].
    destruct (table_parts t 0 b0) as [-> ->]; [lia|apply (layout_address _ _ _ _ Hlay); set_solver|lia|].
    apply wp_ret. replace v with (v mod 256) at 1; [done|]. Z.to_euclidean_division_equations. lia.
  - destruct (table_parts t 1 p) as [-> ->]; [done..|].
    assert (length bs ≤ 256)%nat by (pose proof (pointers_count _ _ _ Hps); simpl in *; lia).
    destruct (pointers_lookup _ _ _ _ _ p Hps Hbs) as (k & Hk & Hkb).
    { by rewrite Nat.div_small by lia. }
    rewrite Nat.mod_small in Hkb by lia. rewrite E0, E1U.
    apply wp_bind, (wp_get_level1 _ _ _ k b); [done..|]. by apply wp_ret.
  - destruct (table_parts t 2 p) as [-> ->]; [done..|].
    destruct (pointers_covered _ _ _ _ Hps Hlt) as (q & Hq).
    destruct (pointers_lookup _ _ _ _ _ q Hps Hbs Hq) as (k & Hk & Hkb).
    rewrite E0, E1, E2.
    apply wp_bind, (wp_get_level2 _ _ _ (pad ps) q); [by rewrite Hm2, lookup_singleton_eq|lia|..].
    { rewrite Nat2Z.id, pad_lookup; [done|]. by eapply lookup_lt_Some. }
    apply wp_bind, (wp_get_level1 _ _ _ k b); [done|lia|by rewrite Nat2Z.id|]. by apply wp_ret.
Qed.

Lemma wp_lookup_none s t bs es v Q :
  rep s t bs es → NextValue t ≤ v → Q None s → wp (PhpLookupHandleTableEntry v) Q s.
Proof.
  intros [Ht _ _] Hv HQ. apply wp_bind, (wp_get_table _ t); [done|].
  rewrite (proj2 (Z.leb_le _ _)) by done. by apply wp_ret.
Qed.

(** ** Access to entries and to the table *)

Lemma wp_get_handle_entry s t bs es v e Q :
  rep s t bs es → es !! v = Some e → Q e s → wp (get_entry (ptr bs v)) Q s.
Proof.
  intros [_ Hlay _] Hv HQ. destruct (layout_lookup _ _ _ _ _ _ Hlay Hv) as (b & l & Hbs & Hl & _ & He).
  exists e, s. unfold get_entry, ptr. cbn [fst snd]. rewrite (list_lookup_total_correct _ _ _ Hbs), Hl.
  rewrite decide_True by (apply Z.mod_pos_bound; lia). by rewrite He.
Qed.

Lemma layout_insert m tv bs es v e e' b l :
  layout m tv bs es → es !! v = Some e → bs !! Z.to_nat (v / 256) = Some b → level0 m !! b = Some l →
  layout (Memory (<[b := <[Z.to_nat (v mod 256) := e']> l]> (level0 m)) (level1 m) (level2 m)) tv bs (<[v := e']> es).
Proof.
  intros Hlay Hv Hb Hl.
  assert (0 ≤ v < 256 * Z.of_nat (length bs)) as Hr by (apply (layout_entries _ _ _ _ Hlay); by eexists).
  assert (0 ≤ v / 256 ∧ 0 ≤ v mod 256 < 256 ∧ v = 256 * (v / 256) + v mod 256) as (Hi & Hj & Heq)
    by (Z.to_euclidean_division_equations; lia).
  destruct Hlay as [Hlev Hnd Hadr Hdom Hblk Hent]. split; [|done|done|..].
  - destruct Hlev; [by eapply levels0|by eapply levels1|by eapply levels2].
  - cbn [level0]. rewrite dom_insert_L, Hdom. apply list_elem_of_lookup_2 in Hb. set_solver.
  - cbn [level0]. intros i c Hc. destruct (decide (c = b)) as [->|Hne].
    + assert (i = Z.to_nat (v / 256)) as -> by (by eapply NoDup_lookup).
      destruct (Hblk _ _ Hc) as (l' & Hl' & Hlen & Hlk). simplify_eq.
      eexists. rewrite lookup_insert_eq, length_insert. split_and!; [done..|]. intros j Hjj.
      destruct (decide (j = Z.to_nat (v mod 256))) as [->|Hnj].
      * rewrite list_lookup_insert_eq by lia. rewrite !Z2Nat.id by lia. by rewrite <-Heq, lookup_insert_eq.
      * rewrite list_lookup_insert_ne by done. rewrite lookup_insert_ne by lia. by apply Hlk.
    + destruct (Hblk _ _ Hc) as (l' & Hl' & Hlen & Hlk).
      exists l'. rewrite lookup_insert_ne by done. split_and!; [done..|]. intros j Hjj.
      rewrite lookup_insert_ne; [by apply Hlk|]. intros Hv'. apply Hne.
      assert (i = Z.to_nat (v / 256)) as -> by (rewrite Hv'; Z.to_euclidean_division_equations; lia). naive_solver.
  - intros w. destruct (decide (v = w)) as [->|Hne].
    + rewrite lookup_insert_eq. split; [done|by eexists].
    + by rewrite lookup_insert_ne.
Qed.

Lemma wp_put_handle_entry s t bs es v e e' Q :
  rep s t bs es → es !! v = Some e → (∀ s', rep s' t bs (<[v := e']> es) → Q tt s') →
  wp (put_entry (ptr bs v) e') Q s.
Proof.
  intros Hrep Hv HQ. pose proof Hrep as [Ht Hlay Hn].
  destruct (layout_lookup _ _ _ _ _ _ Hlay Hv) as (b & l & Hbs & Hl & Hlen & He).
  pose proof (Z.mod_pos_bound v 256). eexists tt, _. unfold put_entry, ptr. cbn [fst snd].
  rewrite (list_lookup_total_correct _ _ _ Hbs), Hl. rewrite decide_True by lia. split; [done|].
  apply HQ. split; [done|by eapply layout_insert|done].
Qed.

Lemma wp_update_entry s t bs es v e (f : PH_HANDLE_TABLE_ENTRY → PH_HANDLE_TABLE_ENTRY) Q :
  rep s t bs es → es !! v = Some e → (∀ s', rep s' t bs (<[v := f e]> es) → Q tt s') →
  wp (update_entry (ptr bs v) f) Q s.
Proof.
  intros Hrep Hv HQ. apply wp_bind, (wp_get_handle_entry _ t _ es _ e); [done..|]. by eapply wp_put_handle_entry.
Qed.

(** Writing fields of the table other than the pointer and the size. *)
Lemma wp_put_table s t t' bs es Q :
  rep s t bs es → TableValue t' = TableValue t → NextValue t' = NextValue t →
  (∀ s', rep s' t' bs es → Q tt s') → wp (put_table t') Q s.
Proof.
  intros [Ht Hlay Hn] E1 E2 HQ. eexists tt, _. unfold put_table. rewrite Ht. split; [done|].
  apply HQ. split; [done|by rewrite E1|by rewrite E2].
Qed.

Lemma wp_update_table s t bs es (f : PH_HANDLE_TABLE → PH_HANDLE_TABLE) Q :
  rep s t bs es → TableValue (f t) = TableValue t → NextValue (f t) = NextValue t →
  (∀ s', rep s' (f t) bs es → Q tt s') → wp (update_table f) Q s.
Proof.
  intros Hrep E1 E2 HQ. apply wp_bind, (wp_get_table _ t); [apply Hrep|]. by eapply wp_put_table.
Qed.

Lemma wp_exchange s t bs es (field : PH_HANDLE_TABLE → Z) with_field x c Q :
  rep s t bs es → (∀ t y, TableValue (with_field t y) = TableValue t ∧ NextValue (with_field t y) = NextValue t) →
  (∀ s', rep s' (if field t =? c then with_field t x else t) bs es → Q (field t) s') →
  wp (InterlockedCompareExchange field with_field x c) Q s.
Proof.
  intros Hrep Hf HQ. apply wp_bind, (wp_get_table _ t); [apply Hrep|]. apply wp_bind.
  destruct (field t =? c).
  - eapply wp_put_table; [done|apply Hf..|]. intros s' Hs'. apply wp_ret. by apply HQ.
  - apply wp_ret, wp_ret. by apply HQ.
Qed.

(** ** New blocks *)

Definition after_attempt (s : ht_state) : ht_state := HtState (Table s) (Mem s) (S (attempts s)).

(** A new block: free entries, each of which points to the next. *)
Definition fresh_block (base : Z) (l : list PH_HANDLE_TABLE_ENTRY) : Prop :=
  length l = 256%nat ∧
  ∀ k, (k < 256)%nat → ∃ e, l !! k = Some e ∧ Value e = PH_HANDLE_TABLE_ENTRY_FREE ∧
    NextFreeValue e = if decide (k = 255%nat) then PH_HANDLE_VALUE_INVALID else base + Z.of_nat k + 1.

Lemma next_free_value_eq e v : 0 ≤ v < 2 ^ 32 → NextFreeValue (with_NextFreeValue e v) = v.
Proof. intros Hv. unfold NextFreeValue, with_NextFreeValue, u32. cbn [Value2]. Z.to_euclidean_division_equations. lia. Qed.

Lemma wp_block_update s b l j e (f : PH_HANDLE_TABLE_ENTRY → PH_HANDLE_TABLE_ENTRY) Q :
  level0 (Mem s) !! b = Some l → 0 ≤ j → l !! Z.to_nat j = Some e →
  Q tt (set_level0 (<[b := <[Z.to_nat j := f e]> l]> (level0 (Mem s))) s) → wp (update_entry (b, j) f) Q s.
Proof.
  intros Hl Hj He HQ. pose proof (lookup_lt_Some _ _ _ He). apply wp_bind. exists e, s. split.
  - unfold get_entry. cbn [fst snd]. by rewrite Hl, decide_True, He.
  - exists tt. eexists. split; [|done]. unfold put_entry. cbn [fst snd]. by rewrite Hl, decide_True by lia.
Qed.

Lemma set_level0_twice s b l1 l2 :
  set_level0 (<[b := l2]> (level0 (Mem (set_level0 (<[b := l1]> (level0 (Mem s))) s)))) (set_level0 (<[b := l1]> (level0 (Mem s))) s) =
  set_level0 (<[b := l2]> (level0 (Mem s))) s.
Proof. unfold set_level0. cbn [Mem Table attempts level0 level1 level2]. by rewrite insert_insert_eq. Qed.

(** Writing a free entry: two assignments. *)
Lemma wp_block_free {A} s b l j v (m : ST ht_state A) Q :
  level0 (Mem s) !! b = Some l → 0 ≤ j < Z.of_nat (length l) → 0 ≤ v < 2 ^ 32 →
  (∀ e, Value e = PH_HANDLE_TABLE_ENTRY_FREE → NextFreeValue e = v →
     wp m Q (set_level0 (<[b := <[Z.to_nat j := e]> l]> (level0 (Mem s))) s)) →
  wp (update_entry (b, j) (λ e, with_Value e PH_HANDLE_TABLE_ENTRY_FREE) ;;
      update_entry (b, j) (λ e, with_NextFreeValue e v) ;; m) Q s.
Proof.
  intros Hl Hj Hv Hm. destruct (lookup_lt_is_Some_2 l (Z.to_nat j)) as [e He]; [lia|].
  apply wp_bind. eapply wp_block_update; [done|lia|done|]. cbv beta.
  apply wp_bind. eapply wp_block_update; [by cbn [set_level0 Mem level0]; rewrite lookup_insert_eq|lia| |].
  { rewrite list_lookup_insert_eq; [done|lia]. }
  rewrite list_insert_insert_eq, set_level0_twice. apply Hm; [done|by apply next_free_value_eq].
Qed.

Lemma wp_initialize_level0 fuel : ∀ s b l j base,
  level0 (Mem s) !! b = Some l → length l = 256%nat → 0 ≤ base ≤ 2 ^ 24 → (j ≤ 255)%nat → (255 - j < fuel)%nat →
  wp (initialize_level0 fuel (u32 (base + PH_HANDLE_TABLE_LEVEL_ENTRIES)) (base + 1 + Z.of_nat j) (b, Z.of_nat j))
    (λ p s', p = (b, 255) ∧ ∃ l', s' = set_level0 (<[b := l']> (level0 (Mem s))) s ∧ length l' = 256%nat ∧
      (∀ k, (k < j)%nat → l' !! k = l !! k) ∧
      ∀ k, (j ≤ k < 255)%nat → ∃ e, l' !! k = Some e ∧ Value e = PH_HANDLE_TABLE_ENTRY_FREE ∧ NextFreeValue e = base + Z.of_nat k + 1) s.
Proof.
  induction fuel as [|fuel IH]; intros s b l j base Hl Hlen Hb Hj Hf; [lia|]. cbn [initialize_level0].
  rewrite u32_small by (change PH_HANDLE_TABLE_LEVEL_ENTRIES with 256; lia).
  change PH_HANDLE_TABLE_LEVEL_ENTRIES with 256.
  destruct (Z.ltb_spec (base + 1 + Z.of_nat j) (base + 256)) as [Hlt|Hge].
  - apply (wp_block_free s b l); [done|lia..|]. intros e Hve Hne. rewrite Nat2Z.id. cbn [fst snd].
    rewrite u32_small by lia.
    replace (base + 1 + Z.of_nat j + 1) with (base + 1 + Z.of_nat (S j)) by lia.
    replace (Z.of_nat j + 1) with (Z.of_nat (S j)) by lia.
    eapply wp_mono.
    { replace (base + 256) with (u32 (base + PH_HANDLE_TABLE_LEVEL_ENTRIES))
        by (rewrite u32_small; change PH_HANDLE_TABLE_LEVEL_ENTRIES with 256; lia).
      apply (IH _ b (<[j:=e]> l)); [|by rewrite length_insert|lia..].
      cbn [set_level0 Mem level0]. by rewrite lookup_insert_eq. }
    intros p s' [-> (l' & -> & Hlen' & Hold & Hnew)]. split; [done|]. exists l'. rewrite set_level0_twice.
    split_and!; [done..| |].
    + intros k Hk. rewrite Hold by lia. by rewrite list_lookup_insert_ne by lia.
    + intros k Hk. destruct (decide (k = j)) as [->|]; [|apply Hnew; lia].
      exists e. rewrite Hold by lia. rewrite list_lookup_insert_eq by lia. split_and!; [done..|lia].
  - apply wp_ret. assert (j = 255%nat) as -> by lia. split; [done|]. exists l. split_and!; [|done..|intros; lia].
    unfold set_level0. rewrite insert_id by done. by destruct s as [? [] ?].
Qed.

(** *** A further block in the layout *)

Lemma pointers_snoc_old m ps bs b q :
  pointers m ps bs → ps !! (length bs / 256)%nat = Some q →
  pointers (<[q := pad (chunk (length bs / 256) bs ++ [b])]> m) ps (bs ++ [b]).
Proof.
  intros [Hnd H0 Hdom Hc Hblk] Hq. pose proof (lookup_lt_Some _ _ _ Hq) as Hlt.
  pose proof (Nat.div_mod_eq (length bs) 256) as Hdiv. pose proof (Nat.mod_upper_bound (length bs) 256 ltac:(done)).
  split; [done|done|..].
  - rewrite dom_insert_L, Hdom. apply list_elem_of_lookup_2 in Hq. apply subseteq_union_1_L.
    by apply singleton_subseteq_l, elem_of_list_to_set.
  - rewrite length_app. simpl. lia.
  - intros i r Hr. pose proof (lookup_lt_Some _ _ _ Hr). destruct (decide (i = (length bs / 256)%nat)) as [->|Hne].
    + simplify_eq. rewrite lookup_insert_eq. by rewrite chunk_snoc_last by lia.
    + rewrite lookup_insert_ne by (intros ->; by apply Hne; eapply NoDup_lookup).
      rewrite chunk_snoc_old by lia. by apply Hblk.
Qed.

Lemma pointers_snoc_new m ps bs b q :
  pointers m ps bs → length bs = (256 * length ps)%nat → q ≠ 0 → m !! q = None →
  pointers (<[q := pad [b]]> m) (ps ++ [q]) (bs ++ [b]).
Proof.
  intros [Hnd H0 Hdom Hc Hblk] Hlen Hq0 Hq.
  assert (q ∉ ps) as Hqps by (apply not_elem_of_dom in Hq; set_solver).
  split.
  - apply NoDup_app. split_and!; [done|set_solver|apply NoDup_singleton].
  - set_solver.
  - rewrite dom_insert_L, Hdom. set_solver.
  - rewrite !length_app. simpl. lia.
  - intros i r [Hr|[Hi Hr]]%lookup_app_Some.
    + pose proof (lookup_lt_Some _ _ _ Hr). apply list_elem_of_lookup_2 in Hr as Hin.
      rewrite lookup_insert_ne by set_solver. rewrite chunk_snoc_old by lia. by apply Hblk.
    + apply list_lookup_singleton_Some in Hr as [Hi0 <-]. assert (i = length ps) as -> by lia.
      rewrite lookup_insert_eq. rewrite chunk_snoc_last by lia. by rewrite chunk_nil by lia.
Qed.

Lemma pointers_room m ps bs i :
  pointers m ps bs → i = (length bs / 256)%nat →
  (is_Some (ps !! i) ∧ (length bs < 256 * length ps)%nat) ∨ (i = length ps ∧ length bs = (256 * length ps)%nat).
Proof.
  intros [_ _ _ Hc _] ->. pose proof (Nat.div_mod_eq (length bs) 256). pose proof (Nat.mod_upper_bound (length bs) 256 ltac:(done)).
  destruct (decide (length bs = (256 * length ps)%nat)); [right; lia|left].
  split; [apply lookup_lt_is_Some_2|]; lia.
Qed.

Lemma layout_snoc m m' tv tv' bs es b l :
  layout m tv bs es → b ≠ 0 → b mod 4 = 0 → level0 m !! b = None → length l = 256%nat →
  level0 m' = <[b := l]> (level0 m) → levels m' (bs ++ [b]) tv' →
  layout m' tv' (bs ++ [b]) (es ∪ map_seqZ (256 * Z.of_nat (length bs)) l).
Proof.
  intros [_ Hnd Hadr Hdom Hblk Hent] Hb0 Hb4 Hb Hlen Hm' Hlev.
  assert (b ∉ bs) as Hbbs by (apply not_elem_of_dom in Hb; set_solver).
  split; [done|..].
  - apply NoDup_app. split_and!; [done|set_solver|apply NoDup_singleton].
  - intros c [Hc| ->%list_elem_of_singleton]%elem_of_app; [by apply Hadr|done].
  - rewrite Hm', dom_insert_L, Hdom. set_solver.
  - intros i c [Hc|[Hi Hc]]%lookup_app_Some.
    + destruct (Hblk _ _ Hc) as (k & Hk & Hkl & Hke). exists k. rewrite Hm'.
      apply list_elem_of_lookup_2 in Hc as Hin. rewrite lookup_insert_ne by set_solver. split_and!; [done..|].
      intros j Hj. rewrite Hke by done. pose proof (lookup_lt_Some _ _ _ Hc).
      destruct (Hent (256 * Z.of_nat i + Z.of_nat j)) as [_ [e He]]; [lia|].
      rewrite He. symmetry. by apply lookup_union_Some_l.
    + apply list_lookup_singleton_Some in Hc as [Hi0 <-]. assert (i = length bs) as -> by lia.
      exists l. rewrite Hm', lookup_insert_eq. split_and!; [done..|]. intros j Hj.
      rewrite lookup_union_r.
      * rewrite lookup_map_seqZ. rewrite option_guard_True by lia. f_equal. lia.
      * apply eq_None_not_Some. rewrite Hent. lia.
  - intros v. rewrite length_app. simpl. rewrite lookup_union_is_Some, Hent, lookup_map_seqZ_is_Some. lia.
Qed.

Lemma wp_put_level1 s p i v l Q :
  level1 (Mem s) !! p = Some l → 0 ≤ i < Z.of_nat (length l) →
  Q tt (set_level1 (<[p := <[Z.to_nat i := v]> l]> (level1 (Mem s))) s) → wp (put_level1 p i v) Q s.
Proof. intros Hp Hi HQ. eexists _, _. unfold put_level1. by rewrite Hp, decide_True. Qed.

Lemma wp_put_level2 s p i v l Q :
  level2 (Mem s) !! p = Some l → 0 ≤ i < Z.of_nat (length l) →
  Q tt (set_level2 (<[p := <[Z.to_nat i := v]> l]> (level2 (Mem s))) s) → wp (put_level2 p i v) Q s.
Proof. intros Hp Hi HQ. eexists _, _. unfold put_level2. by rewrite Hp, decide_True. Qed.

Lemma wp_free_level1 s p l Q :
  level1 (Mem s) !! p = Some l → Q tt (set_level1 (delete p (level1 (Mem s))) s) → wp (PhpFreeHandleTableLevel1 p) Q s.
Proof. intros Hp HQ. eexists _, _. unfold PhpFreeHandleTableLevel1. by rewrite Hp. Qed.

Lemma wp_free_level2 s p l Q :
  level2 (Mem s) !! p = Some l → Q tt (set_level2 (delete p (level2 (Mem s))) s) → wp (PhpFreeHandleTableLevel2 p) Q s.
Proof. intros Hp HQ. eexists _, _. unfold PhpFreeHandleTableLevel2. by rewrite Hp. Qed.

Lemma wp_set_table_value s t f Q :
  Table s = Some t → Q tt (HtState (Some (f t)) (Mem s) (attempts s)) → wp (update_table f) Q s.
Proof.
  intros Ht HQ. apply wp_bind, (wp_get_table _ t); [done|]. eexists _, _. unfold put_table. by rewrite Ht.
Qed.

Ltac state_simpl := cbn [Table Mem attempts level0 level1 level2 set_level0 set_level1 set_level2 after_attempt].
Ltac state_unfold := unfold set_level0, set_level1, set_level2, after_attempt; state_simpl.

Section Growth.
Context (allocate : kind → nat → memory → option Z).
Context (garbage : nat → list PH_HANDLE_TABLE_ENTRY).

(** What the allocator promises: a block that is not allocated, aligned. *)
Definition allocator_ok : Prop := ∀ k n m a,
  allocate k n m = Some a →
  a ≠ 0 ∧ a mod 4 = 0 ∧ level0 m !! a = None ∧ level1 m !! a = None ∧ level2 m !! a = None.
Definition garbage_ok : Prop := ∀ n, length (garbage n) = 256%nat.
(** At some time the allocator refuses. *)
Definition refused : Prop := ∃ k n m, allocate k n m = None.

Context (Hallocate : allocator_ok) (Hgarbage : garbage_ok).

Lemma wp_create_level0 s t Q :
  Table s = Some t → 0 ≤ NextValue t ≤ 2 ^ 24 →
  (refused → Q 0 (after_attempt s)) →
  (∀ b l, b ≠ 0 → b mod 4 = 0 → level0 (Mem s) !! b = None → fresh_block (NextValue t) l →
     Q b (set_level0 (<[b := l]> (level0 (Mem s))) (after_attempt s))) →
  wp (PhpCreateHandleTableLevel0 allocate garbage true) Q s.
Proof using Hallocate Hgarbage.
  intros Ht Hn Hno Hyes. apply wp_bind.
  eexists _, _. split; [done|]. destruct (allocate _ _ _) as [b|] eqn:Ha; [|apply wp_ret, Hno; by eexists _, _, _].
  destruct (Hallocate _ _ _ _ Ha) as (Hb0 & Hb4 & Hl0 & _ & _).
  apply wp_bind, wp_get. apply wp_bind, wp_put. apply wp_bind. apply wp_bind, (wp_get_table _ t); [done|]. cbv zeta.
  apply wp_bind. eapply wp_mono.
  { rewrite (u32_small (NextValue t + 1)) by lia. rewrite <-(Z.add_0_r (NextValue t + 1)).
    apply (wp_initialize_level0 256 _ b (garbage (S (attempts s))) 0).
    - cbn [set_level0 Mem level0]. by rewrite lookup_insert_eq.
    - apply Hgarbage.
    - done.
    - lia.
    - lia. }
  intros p s' (-> & l & -> & Hlen & _ & Hnew).
  rewrite set_level0_twice.
  destruct (lookup_lt_is_Some_2 l 255) as [e He]; [lia|].
  apply wp_bind. eapply (wp_block_update _ b l 255 e); [cbn [set_level0 Mem level0]; by rewrite lookup_insert_eq|done..|].
  eapply (wp_block_update _ b _ 255); [by cbn [set_level0 Mem level0]; rewrite lookup_insert_eq|done| |].
  { apply list_lookup_insert_eq. change (Z.to_nat 255) with 255%nat. lia. }
  rewrite list_insert_insert_eq, !set_level0_twice. apply wp_ret. apply Hyes; [done..|].
  split; [by rewrite length_insert|]. intros k Hk. change (Z.to_nat 255) with 255%nat.
  destruct (decide (k = 255%nat)) as [->|Hne].
  - eexists. rewrite list_lookup_insert_eq by lia. split_and!; [done..|by apply next_free_value_eq].
  - rewrite list_lookup_insert_ne by done. apply Hnew. lia.
Qed.

Lemma wp_create_level1 s Q :
  (refused → Q 0 (after_attempt s)) →
  (∀ p, p ≠ 0 → p mod 4 = 0 → level1 (Mem s) !! p = None →
     Q p (set_level1 (<[p := pad []]> (level1 (Mem s))) (after_attempt s))) →
  wp (PhpCreateHandleTableLevel1 allocate) Q s.
Proof using Hallocate.
  intros Hno Hyes. apply wp_bind. eexists _, _. split; [done|].
  destruct (allocate _ _ _) as [b|] eqn:Ha; [|apply wp_ret, Hno; by eexists _, _, _].
  destruct (Hallocate _ _ _ _ Ha) as (Hb0 & Hb4 & _ & Hl1 & _).
  apply wp_bind, wp_get. apply wp_bind, wp_put, wp_ret. rewrite <-pad_nil. by apply Hyes.
Qed.

Lemma wp_create_level2 s Q :
  (refused → Q 0 (after_attempt s)) →
  (∀ p, p ≠ 0 → p mod 4 = 0 → level2 (Mem s) !! p = None →
     Q p (set_level2 (<[p := pad []]> (level2 (Mem s))) (after_attempt s))) →
  wp (PhpCreateHandleTableLevel2 allocate) Q s.
Proof using Hallocate.
  intros Hno Hyes. apply wp_bind. eexists _, _. split; [done|].
  destruct (allocate _ _ _) as [b|] eqn:Ha; [|apply wp_ret, Hno; by eexists _, _, _].
  destruct (Hallocate _ _ _ _ Ha) as (Hb0 & Hb4 & _ & _ & Hl2).
  apply wp_bind, wp_get. apply wp_bind, wp_put, wp_ret. rewrite <-pad_nil. by apply Hyes.
Qed.

(** The result of growing the table by a block: the pointer to it, or nothing. *)
Definition grown (t : PH_HANDLE_TABLE) (m : memory) (bs : list Z) (es : gmap Z PH_HANDLE_TABLE_ENTRY)
    (r : option Z) (s' : ht_state) : Prop :=
  match r with
  | None => Mem s' = m ∧ Table s' = Some t ∧ (refused ∨ NextValue t = 2 ^ 24)
  | Some b =>
      ∃ l tv', fresh_block (NextValue t) l ∧ Table s' = Some (with_TableValue t tv') ∧
        layout (Mem s') tv' (bs ++ [b]) (es ∪ map_seqZ (NextValue t) l)
  end.

(** *** The three cases *)

Lemma fresh_block_length base l : fresh_block base l → length l = 256%nat.
Proof using Type. by intros []. Qed.

Lemma grown_some s t bs es b l tv' m' n :
  rep s t bs es → b ≠ 0 → b mod 4 = 0 → level0 (Mem s) !! b = None → fresh_block (NextValue t) l →
  level0 m' = <[b := l]> (level0 (Mem s)) → levels m' (bs ++ [b]) tv' →
  grown t (Mem s) bs es (Some b) (HtState (Some (with_TableValue t tv')) m' n).
Proof using Type.
  intros [Ht Hlay Hn] Hb0 Hb4 Hb Hl Hm' Hlev. exists l, tv'. split_and!; [done|done|].
  rewrite Hn. eapply layout_snoc; eauto using fresh_block_length.
Qed.

Lemma wp_more_at_level0 s t bs es b0 :
  rep s t bs es → bs = [b0] → TableValue t = b0 → level1 (Mem s) = ∅ → level2 (Mem s) = ∅ →
  wp (more_at_level0 allocate garbage true b0) (grown t (Mem s) bs es) s.
Proof using Hallocate Hgarbage.
  intros Hrep Hbs Htv Hm1 Hm2. pose proof (rep_bound _ _ _ _ Hrep) as Hnb. pose proof Hrep as [Ht Hlay Hn].
  apply wp_bind. apply wp_create_level1.
  { intros Href. apply wp_ret. simpl. auto. }
  intros p Hp0 Hp4 Hp. rewrite (proj2 (Z.eqb_neq p 0)) by done.
  apply wp_bind, (wp_create_level0 _ t); [done|lia|..].
  { intros Href. apply wp_bind. eapply wp_free_level1; [state_simpl; by rewrite lookup_insert_eq|].
    apply wp_ret. state_simpl. rewrite delete_insert_id by done. destruct s as [? [] ?]. simpl in *. auto. }
  intros b l Hb0 Hb4 Hb Hfresh. rewrite (proj2 (Z.eqb_neq b 0)) by done.
  apply wp_bind. eapply wp_put_level1; [state_simpl; by rewrite lookup_insert_eq|rewrite pad_length; simpl; lia|].
  state_simpl. rewrite insert_insert_eq. change (Z.to_nat 0) with (length (@nil Z)). rewrite pad_snoc by (simpl; lia).
  apply wp_bind. eapply wp_put_level1; [state_simpl; by rewrite lookup_insert_eq|rewrite pad_length; simpl; lia|].
  state_simpl. rewrite insert_insert_eq. change (Z.to_nat 1) with (length ([] ++ [b0])). rewrite pad_snoc by (simpl; lia).
  apply wp_bind. apply (wp_set_table_value _ t); [done|]. apply wp_ret.
  rewrite lor_level by (done || lia). apply (grown_some _ _ _ _ _ l); [done..|]. state_simpl.
  apply (levels1 _ _ p); [by subst bs|done| |done].
  state_simpl. rewrite Hm1. subst bs. split; [apply NoDup_singleton|set_solver|rewrite dom_insert_L, dom_empty_L; set_solver|simpl; lia|].
  intros i q [-> <-]%list_lookup_singleton_Some. by rewrite lookup_insert_eq.
Qed.

(** A new block of entries with a new block of pointers to it. *)
Lemma levels2_new m p ps bs b q :
  (1 ≤ length ps < 256)%nat → p mod 4 = 0 → p ≠ 0 → pointers (level1 m) ps bs → length bs = (256 * length ps)%nat →
  q ≠ 0 → level1 m !! q = None →
  levels (Memory (level0 m) (<[q := pad [b]]> (level1 m)) {[p := pad (ps ++ [q])]}) (bs ++ [b]) (p + 2).
Proof using Type.
  intros Hlen Hp4 Hp0 Hps Hbs Hq0 Hq. apply (levels2 _ _ _ (ps ++ [q])); [rewrite length_app; simpl; lia|done..| |done].
  by apply pointers_snoc_new.
Qed.

Lemma levels_ext m m' bs tv : level1 m' = level1 m → level2 m' = level2 m → levels m bs tv → levels m' bs tv.
Proof using Type.
  intros E1 E2 [b Hb H1 H2|p H2 Hp4 Hp Hm2|p ps Hl Hp4 Hp0 Hp Hm2].
  - by eapply levels0; rewrite ?E1, ?E2.
  - by eapply levels1; rewrite ?E1, ?E2.
  - by eapply levels2; rewrite ?E1, ?E2.
Qed.

Lemma wp_make_level2 s t bs es p :
  rep s t bs es → TableValue t = p + 1 → p ≠ 0 → length bs = 256%nat →
  pointers (level1 (Mem s)) [p] bs → level2 (Mem s) = ∅ →
  wp (make_level2 allocate garbage true p) (grown t (Mem s) bs es) s.
Proof using Hallocate Hgarbage.
  intros Hrep Htv Hp0 Hlen Hps Hm2. pose proof (rep_bound _ _ _ _ Hrep) as Hnb. pose proof Hrep as [Ht Hlay Hn].
  apply wp_bind, wp_create_level2.
  { intros Href. apply wp_ret. simpl. auto. }
  intros r Hr0 Hr4 Hr. rewrite (proj2 (Z.eqb_neq r 0)) by done.
  apply wp_bind, wp_create_level1.
  { intros Href. apply wp_bind. eapply wp_free_level2; [state_simpl; by rewrite lookup_insert_eq|].
    apply wp_ret. state_simpl. rewrite delete_insert_id by done. destruct s as [? [] ?]. simpl in *. auto. }
  intros q Hq0 Hq4 Hq. rewrite (proj2 (Z.eqb_neq q 0)) by done. state_simpl.
  apply wp_bind, (wp_create_level0 _ t); [done|lia|..].
  { intros Href. apply wp_bind. eapply wp_free_level1; [state_simpl; by rewrite lookup_insert_eq|].
    apply wp_bind. eapply wp_free_level2; [state_simpl; by rewrite lookup_insert_eq|].
    apply wp_ret. state_simpl. rewrite !delete_insert_id by done. destruct s as [? [] ?]. simpl in *. auto. }
  intros b l Hb0 Hb4 Hb Hfresh. rewrite (proj2 (Z.eqb_neq b 0)) by done.
  apply wp_bind. eapply wp_put_level1; [state_simpl; by rewrite lookup_insert_eq|rewrite pad_length; simpl; lia|].
  state_simpl. rewrite insert_insert_eq. change (Z.to_nat 0) with (length (@nil Z)). rewrite pad_snoc by (simpl; lia).
  apply wp_bind. eapply wp_put_level2; [state_simpl; by rewrite lookup_insert_eq|rewrite pad_length; simpl; lia|].
  state_simpl. rewrite insert_insert_eq. change (Z.to_nat 0) with (length (@nil Z)). rewrite pad_snoc by (simpl; lia).
  apply wp_bind. eapply wp_put_level2; [state_simpl; by rewrite lookup_insert_eq|rewrite pad_length; simpl; lia|].
  state_simpl. rewrite insert_insert_eq. change (Z.to_nat 1) with (length ([] ++ [p])). rewrite pad_snoc by (simpl; lia).
  apply wp_bind. apply (wp_set_table_value _ t); [done|]. apply wp_ret.
  rewrite lor_level by (done || lia). apply (grown_some _ _ _ _ _ l); [done..|]. state_simpl. rewrite Hm2.
  eapply levels_ext; [| |apply (levels2_new (Mem s) r [p] bs b q); [simpl; lia|done|done|done|simpl; lia|done|done]]; done.
Qed.

Lemma wp_more_at_level1 s t bs es p :
  rep s t bs es → TableValue t = p + 1 → p mod 4 = 0 → (2 ≤ length bs)%nat →
  pointers (level1 (Mem s)) [p] bs → level2 (Mem s) = ∅ →
  wp (more_at_level1 allocate garbage true p) (grown t (Mem s) bs es) s.
Proof using Hallocate Hgarbage.
  intros Hrep Htv Hp4 Hlen Hps Hm2. pose proof (rep_bound _ _ _ _ Hrep) as Hnb. pose proof Hrep as [Ht Hlay Hn].
  assert (p ≠ 0) as Hp0 by (intros ->; apply (pointers_nonnull _ _ _ Hps); set_solver).
  pose proof (pointers_count _ _ _ Hps) as Hcount. simpl in Hcount.
  assert (level1 (Mem s) !! p = Some (pad bs)) as Hpp.
  { rewrite (pointers_block _ _ _ Hps 0 p) by done. by rewrite chunk_all by lia. }
  apply wp_bind, (wp_get_table _ t); [done|]. cbv zeta. change PH_HANDLE_TABLE_LEVEL_ENTRIES with 256.
  rewrite Hn. rewrite (Z.mul_comm 256), Z.div_mul by lia.
  destruct (Z.ltb_spec (Z.of_nat (length bs)) 256) as [Hlt|Hge].
  - apply wp_bind, (wp_create_level0 _ t); [done|lia|..].
    { intros Href. apply wp_ret. simpl. auto. }
    intros b l Hb0 Hb4 Hb Hfresh. rewrite (proj2 (Z.eqb_neq b 0)) by done.
    apply wp_bind. eapply wp_put_level1; [done|rewrite pad_length; lia|]. apply wp_ret.
    rewrite Nat2Z.id, pad_snoc by lia. state_unfold. rewrite Ht.
    replace (Some t) with (Some (with_TableValue t (p + 1))) by (rewrite <-Htv; by destruct t).
    apply (grown_some _ _ _ _ _ l); [done..|].
    apply levels1; [rewrite length_app; lia|done| |done]. state_simpl.
    pose proof (pointers_snoc_old _ _ _ b p Hps) as Hold.
    rewrite Nat.div_small, chunk_all in Hold by lia. by apply Hold.
  - apply (wp_make_level2 _ t); [done..|lia|done|done].
Qed.

Lemma wp_more_in_level1 s t bs es p ps q :
  rep s t bs es → TableValue t = p + 2 → p mod 4 = 0 → p ≠ 0 → (2 ≤ length ps ≤ 256)%nat →
  pointers (level1 (Mem s)) ps bs → level2 (Mem s) = {[p := pad ps]} →
  ps !! (length bs / 256)%nat = Some q → (length bs < 256 * length ps)%nat →
  wp (more_in_level1 allocate garbage true p (Z.of_nat (length bs / 256))) (grown t (Mem s) bs es) s.
Proof using Hallocate Hgarbage.
  intros Hrep Htv Hp4 Hp0 Hlen Hps Hm2 Hq Hroom. pose proof (rep_bound _ _ _ _ Hrep) as Hnb. pose proof Hrep as [Ht Hlay Hn].
  pose proof (pointers_count _ _ _ Hps) as Hcount. pose proof (lookup_lt_Some _ _ _ Hq).
  pose proof (Nat.div_mod_eq (length bs) 256) as Hdiv. pose proof (Nat.mod_upper_bound (length bs) 256 ltac:(done)) as Hmod.
  set (i := (length bs / 256)%nat) in *.
  apply wp_bind, (wp_create_level0 _ t); [done|lia|..].
  { intros Href. apply wp_ret. simpl. auto. }
  intros b l Hb0 Hb4 Hb Hfresh. rewrite (proj2 (Z.eqb_neq b 0)) by done.
  apply wp_bind, (wp_get_table _ t); [done|]. cbv zeta. change PH_HANDLE_TABLE_LEVEL_ENTRIES with 256.
  apply wp_bind. apply (wp_get_level2 _ _ _ (pad ps) q); [state_simpl; by rewrite Hm2, lookup_singleton_eq|lia|by rewrite Nat2Z.id, pad_lookup|].
  assert (u32 (NextValue t - u32 (Z.of_nat i * (256 * 256))) / 256 = Z.of_nat (length (chunk i bs))) as ->.
  { rewrite chunk_length, (u32_small (Z.of_nat i * _)), u32_small by lia. Z.to_euclidean_division_equations. lia. }
  assert (length (chunk i bs) < 256)%nat by (rewrite chunk_length; lia).
  apply wp_bind. eapply wp_put_level1; [state_simpl; by apply (pointers_block _ _ _ Hps)|rewrite pad_length; lia|].
  apply wp_ret. rewrite Nat2Z.id, pad_snoc by done. state_unfold. rewrite Ht.
  replace (Some t) with (Some (with_TableValue t (p + 2))) by (rewrite <-Htv; by destruct t).
  apply (grown_some _ _ _ _ _ l); [done..|].
  apply (levels2 _ _ _ ps); [done..| |done]. state_simpl. by apply pointers_snoc_old.
Qed.

Lemma wp_make_level1 s t bs es p ps :
  rep s t bs es → TableValue t = p + 2 → p mod 4 = 0 → p ≠ 0 → (2 ≤ length ps < 256)%nat →
  pointers (level1 (Mem s)) ps bs → level2 (Mem s) = {[p := pad ps]} → length bs = (256 * length ps)%nat →
  wp (make_level1 allocate garbage p (Z.of_nat (length ps))) (grown t (Mem s) bs es) s.
Proof using Hallocate Hgarbage.
  intros Hrep Htv Hp4 Hp0 Hlen Hps Hm2 Hfull. pose proof (rep_bound _ _ _ _ Hrep) as Hnb. pose proof Hrep as [Ht Hlay Hn].
  apply wp_bind, wp_create_level1.
  { intros Href. apply wp_ret. simpl. auto. }
  intros q Hq0 Hq4 Hq. rewrite (proj2 (Z.eqb_neq q 0)) by done.
  apply wp_bind, (wp_create_level0 _ t); [done|lia|..].
  { intros Href. apply wp_bind. eapply wp_free_level1; [state_simpl; by rewrite lookup_insert_eq|].
    apply wp_ret. state_simpl. rewrite delete_insert_id by done. destruct s as [? [] ?]. simpl in *. auto. }
  intros b l Hb0 Hb4 Hb Hfresh. rewrite (proj2 (Z.eqb_neq b 0)) by done.
  apply wp_bind. eapply wp_put_level1; [state_simpl; by rewrite lookup_insert_eq|rewrite pad_length; simpl; lia|].
  state_simpl. rewrite insert_insert_eq. change (Z.to_nat 0) with (length (@nil Z)). rewrite pad_snoc by (simpl; lia).
  apply wp_bind. eapply wp_put_level2; [state_simpl; by rewrite Hm2, lookup_singleton_eq|rewrite pad_length; lia|].
  apply wp_ret. state_unfold. rewrite Hm2, insert_singleton_eq, Nat2Z.id, pad_snoc by lia. rewrite Ht.
  replace (Some t) with (Some (with_TableValue t (p + 2))) by (rewrite <-Htv; by destruct t).
  apply (grown_some _ _ _ _ _ l); [done..|]. eapply levels_ext; [| |apply (levels2_new (Mem s) p ps bs b q); [lia|done..]]; done.
Qed.

Lemma wp_more_at_level2 s t bs es p ps :
  rep s t bs es → TableValue t = p + 2 → p mod 4 = 0 → p ≠ 0 → (2 ≤ length ps ≤ 256)%nat →
  pointers (level1 (Mem s)) ps bs → level2 (Mem s) = {[p := pad ps]} →
  wp (more_at_level2 allocate garbage true p) (grown t (Mem s) bs es) s.
Proof using Hallocate Hgarbage.
  intros Hrep Htv Hp4 Hp0 Hlen Hps Hm2. pose proof (rep_bound _ _ _ _ Hrep) as Hnb. pose proof Hrep as [Ht Hlay Hn].
  pose proof (pointers_count _ _ _ Hps) as Hcount.
  pose proof (Nat.div_mod_eq (length bs) 256) as Hdiv. pose proof (Nat.mod_upper_bound (length bs) 256 ltac:(done)) as Hmod.
  apply wp_bind, (wp_get_table _ t); [done|]. cbv zeta. change PH_HANDLE_TABLE_LEVEL_ENTRIES with 256.
  assert (NextValue t / (256 * 256) = Z.of_nat (length bs / 256)) as ->.
  { rewrite Hn, Nat2Z.inj_div. Z.to_euclidean_division_equations. lia. }
  set (i := (length bs / 256)%nat) in *.
  destruct (Z.leb_spec 256 (Z.of_nat i)) as [Hge|Hlt].
  { apply wp_ret. simpl. split_and!; [done|done|]. right. lia. }
  destruct (pointers_room _ _ _ i Hps eq_refl) as [[[q Hq] Hroom]|[Hi Hfull]].
  - assert (q ≠ 0) as Hq0 by (intros ->; apply (pointers_nonnull _ _ _ Hps); by eapply list_elem_of_lookup_2).
    pose proof (lookup_lt_Some _ _ _ Hq).
    apply wp_bind. apply (wp_get_level2 _ _ _ (pad ps) q); [by rewrite Hm2, lookup_singleton_eq|lia|by rewrite Nat2Z.id, pad_lookup|].
    rewrite (proj2 (Z.eqb_neq q 0)) by done. cbn [negb].
    by apply (wp_more_in_level1 _ t _ _ _ ps q).
  - apply wp_bind. apply (wp_get_level2 _ _ _ (pad ps) 0); [by rewrite Hm2, lookup_singleton_eq|lia|rewrite Nat2Z.id, pad_lookup_null; [done|lia]|].
    cbn [negb Z.eqb]. rewrite Hi. apply (wp_make_level1 _ t); [done..|lia|done|done|done].
Qed.

(** *** The function *)

(** [es'] has 256 entries more than [es], free and chained, the last of them to
    [last]. *)
Definition extended (n last : Z) (es es' : gmap Z PH_HANDLE_TABLE_ENTRY) : Prop :=
  (∀ v, v < n → es' !! v = es !! v) ∧
  ∀ v, n ≤ v < n + 256 → ∃ e, es' !! v = Some e ∧ Value e = PH_HANDLE_TABLE_ENTRY_FREE ∧
    NextFreeValue e = if decide (v = n + 255) then last else v + 1.

Lemma extended_block n last es l e :
  0 ≤ n → (∀ v, is_Some (es !! v) → v < n) → fresh_block n l → 0 ≤ last < 2 ^ 32 →
  (es ∪ map_seqZ n l) !! (n + 255) = Some e →
  extended n last es (<[n + 255 := with_NextFreeValue e last]> (es ∪ map_seqZ n l)).
Proof using Type.
  intros Hn Hes [Hlen Hl] Hlast He.
  assert (∀ v, n ≤ v < n + 256 → (es ∪ map_seqZ n l) !! v = l !! Z.to_nat (v - n)) as Hnew.
  { intros v Hv. rewrite lookup_union_r by (apply eq_None_not_Some; intros ?%Hes; lia).
    by rewrite lookup_map_seqZ, option_guard_True by lia. }
  split.
  - intros v Hv. rewrite lookup_insert_ne by lia. destruct (es !! v) as [d|] eqn:Hd.
    + by apply lookup_union_Some_l.
    + apply lookup_union_None. split; [done|]. rewrite lookup_map_seqZ. by rewrite option_guard_False by lia.
  - intros v Hv. destruct (Hl (Z.to_nat (v - n))) as (d & Hd & Hvd & Hnd); [lia|].
    destruct (decide (v = n + 255)) as [->|Hne].
    + eexists. rewrite lookup_insert_eq. split_and!; [done| |by apply next_free_value_eq].
      rewrite Hnew in He by lia. cbn [with_NextFreeValue Value]. naive_solver.
    + exists d. rewrite lookup_insert_ne, Hnew by lia. split_and!; [done..|].
      rewrite Hnd, decide_False by lia. lia.
Qed.

Lemma wp_more_by_level s t bs es :
  rep s t bs es →
  wp (if table_level t =? 0 then more_at_level0 allocate garbage true (table_address t)
      else if table_level t =? 1 then more_at_level1 allocate garbage true (table_address t)
      else if table_level t =? 2 then more_at_level2 allocate garbage true (table_address t)
      else fault) (grown t (Mem s) bs es) s.
Proof using Hallocate Hgarbage.
  intros Hrep. pose proof (layout_levels _ _ _ _ (rep_layout _ _ _ _ Hrep)) as Hlev.
  remember (TableValue t) as tv eqn:Htv.
  destruct Hlev as [b0 Hbs0 Hm1 Hm2 | p H2 Hp Hps Hm2 | p ps Hlen Hp Hp0 Hps Hm2]; symmetry in Htv.
  - destruct (table_parts t 0 b0) as [-> ->]; [lia| |lia|by eapply wp_more_at_level0].
    apply (layout_address _ _ _ _ (rep_layout _ _ _ _ Hrep)). set_solver.
  - destruct (table_parts t 1 p) as [-> ->]; [done..|]. by apply wp_more_at_level1.
  - destruct (table_parts t 2 p) as [-> ->]; [done..|]. by eapply wp_more_at_level2.
Qed.

Lemma wp_allocate_more s t bs es Q :
  rep s t bs es → 0 ≤ FreeValue t < 2 ^ 32 →
  (∀ s', rep s' t bs es → refused ∨ NextValue t = 2 ^ 24 → Q false s') →
  (∀ s' b tv es', 
     rep s' (HandleTable (Lock t) (Count t) tv (NextValue t) (NextValue t + 256) (FreeValueAlt t) (Flags t) (Locks t)) (bs ++ [b]) es' →
     extended (NextValue t) (FreeValue t) es es' → Q true s') →
  wp (PhpAllocateMoreHandleTableEntries allocate garbage true) Q s.
Proof using Hallocate Hgarbage.
  intros Hrep Hfree Hno Hyes. pose proof (rep_bound _ _ _ _ Hrep) as Hnb. pose proof Hrep as [Ht Hlay Hn].
  apply wp_bind, (wp_get_table _ t); [done|]. apply wp_bind. eapply wp_mono; [by apply wp_more_by_level|].
  intros [b|] s1; cbn [grown].
  2:{ intros (Hm & Ht1 & Hwhy). apply wp_ret. apply Hno; [|done]. split; [done| |done]. by rewrite Hm. }
  intros (l & tv & Hfresh & Ht1 & Hlay1). pose proof (levels_bound _ _ _ (layout_levels _ _ _ _ Hlay1)) as Hb1.
  rewrite length_app in Hb1. simpl in Hb1.
  apply wp_bind, (wp_get_table _ (with_TableValue t tv)); [done|]. cbv zeta. cbn [NextValue with_TableValue].
  change PH_HANDLE_TABLE_LEVEL_ENTRIES with 256. rewrite (u32_small (NextValue t + 256)) by lia.
  set (t2 := with_NextValue (with_TableValue t tv) (NextValue t + 256)).
  set (es2 := es ∪ map_seqZ (NextValue t) l) in *.
  assert (∀ n, rep (HtState (Some t2) (Mem s1) n) t2 (bs ++ [b]) es2) as Hrep2.
  { intros n. split; [done|done|]. cbn [t2 NextValue with_NextValue]. rewrite length_app. simpl. lia. }
  apply wp_bind. eexists tt, (HtState (Some t2) (Mem s1) (attempts s1)). split; [unfold put_table; by rewrite Ht1|].
  apply wp_bind. cbn [repeat_until]. apply wp_bind, wp_bind, (wp_get_table _ t2); [done|]. cbv zeta.
  destruct (proj2 (rep_entries _ _ _ _ (NextValue t + 255) (Hrep2 (attempts s1)))) as [e He].
  { cbn [t2 NextValue with_NextValue]. lia. }
  assert ((b, 256 - 1) = ptr (bs ++ [b]) (NextValue t + 255)) as ->.
  { unfold ptr. rewrite Hn.
    replace (Z.to_nat ((256 * Z.of_nat (length bs) + 255) / 256)) with (length bs) by (Z.to_euclidean_division_equations; lia).
    rewrite (list_lookup_total_correct _ _ b) by (rewrite lookup_app_r, Nat.sub_diag by lia; done).
    f_equal. Z.to_euclidean_division_equations. lia. }
  apply wp_bind. eapply wp_update_entry; [apply Hrep2|done|]. intros s3 Hrep3.
  apply wp_bind. eapply wp_exchange; [done|done|]. rewrite Z.eqb_refl. intros s4 Hrep4.
  apply wp_ret. cbv beta. apply wp_ret, wp_ret. eapply Hyes; [exact Hrep4|].
  apply extended_block; [lia| |done|done|done].
  intros v Hv%(rep_entries _ _ _ _ _ Hrep). lia.
Qed.

End Growth.
