(* ===== verification/HandleTableLists.v ===== *)
(** Handle tables: the free lists. [good] is the invariant of a table, and each
    internal function is shown to keep it and to do what it should to the free
    lists. *)

From S2P Require Import Prelude HandleTable HandleTableFacts.

(** ** Chains of free entries *)

(** The entries [l] are chained by [NextFreeValue], from [a] to [b]. *)
Fixpoint seg (es : gmap Z PH_HANDLE_TABLE_ENTRY) (a : Z) (l : list Z) (b : Z) : Prop :=
  match l with
  | [] => a = b
  | v :: l => a = v ∧ ∃ e, es !! v = Some e ∧ seg es (NextFreeValue e) l b
  end.

Lemma seg_app es a l1 l2 b : seg es a (l1 ++ l2) b ↔ ∃ c, seg es a l1 c ∧ seg es c l2 b.
Proof.
  revert a. induction l1 as [|v l1 IH]; intros a; simpl; [naive_solver|]. setoid_rewrite IH. naive_solver.
Qed.

Lemma seg_ext es es' a l b : (∀ v, v ∈ l → es' !! v = es !! v) → seg es a l b → seg es' a l b.
Proof.
  revert a. induction l as [|v l IH]; intros a Hes; simpl; [done|]. intros [-> (e & He & Hl)].
  split; [done|]. exists e. split; [by rewrite Hes by apply list_elem_of_here|].
  apply IH; [|done]. intros w Hw. apply Hes. by apply list_elem_of_further.
Qed.

Lemma seg_insert es a l b v e : v ∉ l → seg es a l b → seg (<[v := e]> es) a l b.
Proof. intros Hv. apply seg_ext. intros w Hw. apply lookup_insert_ne. by intros ->. Qed.

Lemma seg_elem es a l b v : seg es a l b → v ∈ l → is_Some (es !! v).
Proof.
  revert a. induction l as [|w l IH]; intros a; simpl; [by intros _ ?%elem_of_nil|].
  intros [-> (e & He & Hl)] [->|Hv]%elem_of_cons; [by eexists|by eapply IH].
Qed.

(** Consecutive entries. *)
Lemma seg_seqZ es n (k : nat) b :
  (∀ v, n ≤ v < n + Z.of_nat k → ∃ e, es !! v = Some e ∧ NextFreeValue e = if decide (v = n + Z.of_nat k - 1) then b else v + 1) →
  seg es (if decide (k = O) then b else n) (seqZ n (Z.of_nat k)) b.
Proof.
  revert n. induction k as [|k IH]; intros n Hes; [done|].
  rewrite seqZ_cons by lia. replace (Z.pred (Z.of_nat (S k))) with (Z.of_nat k) by lia.
  rewrite decide_False by lia. split; [done|].
  destruct (Hes n) as (e & He & Hne); [lia|]. exists e. split; [done|]. rewrite Hne.
  assert ((if decide (n = n + Z.of_nat (S k) - 1) then b else n + 1) = if decide (k = O) then b else Z.succ n) as ->
    by (repeat case_decide; lia).
  apply IH. intros v Hv. destruct (Hes v) as (d & Hd & Hnd); [lia|]. exists d. split; [done|]. rewrite Hnd.
  repeat case_decide; lia.
Qed.

(** ** Free entries and handles *)

Definition is_handle (e : PH_HANDLE_TABLE_ENTRY) : Prop := Value e mod 2 = 0.
#[global] Instance is_handle_dec e : Decision (is_handle e).
Proof. unfold is_handle. apply _. Defined.

(** The entries in use. *)
Definition handles (es : gmap Z PH_HANDLE_TABLE_ENTRY) : gmap Z PH_HANDLE_TABLE_ENTRY := filter (λ p, is_handle p.2) es.

Lemma handles_lookup es v e : handles es !! v = Some e ↔ es !! v = Some e ∧ is_handle e.
Proof. unfold handles. by rewrite map_lookup_filter_Some. Qed.

Definition is_free (e : PH_HANDLE_TABLE_ENTRY) : Prop := Value e = PH_HANDLE_TABLE_ENTRY_FREE.

Lemma free_not_handle e : is_free e → ¬ is_handle e.
Proof. unfold is_free, is_handle. by intros ->. Qed.

(** [l] lists the free entries. *)
Record accounted (es : gmap Z PH_HANDLE_TABLE_ENTRY) (l : list Z) : Prop := Accounted {
  acc_nodup : NoDup l;
  acc_free : ∀ v, v ∈ l ↔ ∃ e, es !! v = Some e ∧ is_free e;
  acc_kind : ∀ v e, es !! v = Some e → is_free e ∨ is_handle e
}.

Lemma accounted_perm es l l' : l ≡ₚ l' → accounted es l → accounted es l'.
Proof. intros Hp [Hnd Hf Hk]. split; [by rewrite <-Hp| |done]. intros v. by rewrite <-Hp. Qed.

(** [es'] differs from [es] in free entries only, and these are still free. *)
Definition free_writes (es es' : gmap Z PH_HANDLE_TABLE_ENTRY) : Prop := ∀ v,
  es' !! v = es !! v ∨ ∃ e e', es !! v = Some e ∧ es' !! v = Some e' ∧ is_free e ∧ is_free e'.

#[global] Instance free_writes_preorder : PreOrder free_writes.
Proof.
  split; [by left|]. intros es1 es2 es3 H12 H23 v. destruct (H12 v) as [<-|(e1 & e2 & E1 & E2 & F1 & F2)]; [apply H23|].
  right. destruct (H23 v) as [E3|(e2' & e3 & E2' & E3 & F2' & F3)]; [exists e1, e2; by rewrite E3|by exists e1, e3].
Qed.

Lemma free_writes_insert es v e e' : es !! v = Some e → is_free e → is_free e' → free_writes es (<[v := e']> es).
Proof.
  intros He Hf Hf' w. destruct (decide (v = w)) as [->|].
  - right. exists e, e'. by rewrite lookup_insert_eq.
  - left. by rewrite lookup_insert_ne.
Qed.

Lemma free_writes_handles es es' : free_writes es es' → handles es' = handles es.
Proof.
  intros Hw. apply map_eq. intros v. apply option_eq. intros e. rewrite !handles_lookup.
  destruct (Hw v) as [->|(e1 & e2 & -> & -> & F1%free_not_handle & F2%free_not_handle)]; [done|naive_solver].
Qed.

Lemma free_writes_accounted es es' l : free_writes es es' → accounted es l → accounted es' l.
Proof.
  intros Hw [Hnd Hf Hk]. split; [done|..].
  - intros v. rewrite Hf. destruct (Hw v) as [->|(e1 & e2 & -> & -> & ? & ?)]; naive_solver.
  - intros v e He. destruct (Hw v) as [E|(e1 & e2 & E1 & E2 & F1 & F2)]; [rewrite E in He; by eapply Hk|naive_solver].
Qed.

(** Growing the table: the new entries are free. *)
Lemma extended_handles n last es es' :
  (∀ v, is_Some (es !! v) → v < n) → (∀ v, is_Some (es' !! v) → v < n + 256) → extended n last es es' → handles es' = handles es.
Proof.
  intros Hes Hes' [Hold Hnew]. apply map_eq. intros v. apply option_eq. intros e. rewrite !handles_lookup.
  destruct (decide (v < n)) as [Hv|Hv]; [by rewrite Hold|].
  assert (es !! v = None) as -> by (apply eq_None_not_Some; intros ?%Hes; done).
  split; [|naive_solver]. intros [He Hh]. destruct (Hnew v) as (d & Hd & Hf & _).
  { split; [lia|]. by apply Hes'. }
  exfalso. simplify_eq. by apply (free_not_handle e).
Qed.

Lemma extended_accounted n last es es' l :
  (∀ v, is_Some (es !! v) → v < n) → (∀ v, is_Some (es' !! v) → v < n + 256) → extended n last es es' →
  accounted es l → accounted es' (l ++ seqZ n 256).
Proof.
  intros Hes Hes' [Hold Hnew] [Hnd Hf Hk].
  assert (∀ v, v ∈ l → v < n) as Hl by (intros v (e & He & _)%Hf; apply Hes; by eexists).
  split.
  - apply NoDup_app. split_and!; [done| |apply NoDup_seqZ].
    intros v Hv%Hl. rewrite elem_of_seqZ. lia.
  - intros v. rewrite elem_of_app, elem_of_seqZ. destruct (decide (v < n)) as [Hv|Hv].
    + rewrite Hold, <-Hf by done. split; [intros [?|?]; [done|lia]|by left].
    + split.
      * intros [?%Hl|Hr]; [done|]. destruct (Hnew v) as (d & Hd & Hfd & _); [lia|]. by exists d.
      * intros (e & He & _). right. split; [lia|]. apply Hes'. by eexists.
  - intros v e He. destruct (decide (v < n)) as [Hv|Hv].
    + rewrite Hold in He by done. by eapply Hk.
    + left. destruct (Hnew v) as (d & Hd & Hfd & _); [split; [lia|]; apply Hes'; by eexists|]. naive_solver.
Qed.

(** ** The invariant

    [held] are free entries that are on no list because an operation is at work on
    them; [main] and [alt] are the two free lists; [lk] says whether the thread
    holds the lock of the table. *)
Record good (lk : bool) (s : ht_state) (t : PH_HANDLE_TABLE) (bs : list Z) (es : gmap Z PH_HANDLE_TABLE_ENTRY)
    (held main alt : list Z) : Prop := Good {
  good_rep : rep s t bs es;
  good_main : seg es (FreeValue t) main PH_HANDLE_VALUE_INVALID;
  good_alt : seg es (FreeValueAlt t) alt PH_HANDLE_VALUE_INVALID;
  good_acc : accounted es (held ++ main ++ alt);
  good_count : Count t = Z.of_nat (size (handles es)) + Z.of_nat (length held);
  good_lock : Lock t = lk;
  good_locks : Locks t = replicate 8 0%nat
}.

Definition strict (t : PH_HANDLE_TABLE) : bool := negb (Z.land (Flags t) PH_HANDLE_TABLE_STRICT_FIFO =? 0).

Section Facts.
Context (lk : bool) (s : ht_state) (t : PH_HANDLE_TABLE) (bs : list Z) (es : gmap Z PH_HANDLE_TABLE_ENTRY).
Context (held main alt : list Z) (Hgood : good lk s t bs es held main alt).

Lemma good_elem v : v ∈ held ++ main ++ alt → ∃ e, es !! v = Some e ∧ is_free e.
Proof using Hgood. apply (acc_free _ _ (good_acc _ _ _ _ _ _ _ _ Hgood)). Qed.

Lemma good_elem_bound v : v ∈ held ++ main ++ alt → 0 ≤ v < 2 ^ 24.
Proof using Hgood.
  intros (e & He & _)%good_elem. pose proof (rep_bound _ _ _ _ (good_rep _ _ _ _ _ _ _ _ Hgood)).
  pose proof (rep_entry_bound _ _ _ _ _ _ (good_rep _ _ _ _ _ _ _ _ Hgood) He). lia.
Qed.

(** The head of a list is what its field holds. *)
Lemma good_head l a : seg es a l PH_HANDLE_VALUE_INVALID → (∀ v, v ∈ l → v ∈ held ++ main ++ alt) →
  0 ≤ a < 2 ^ 32 ∧ (a = PH_HANDLE_VALUE_INVALID ↔ l = []).
Proof using Hgood.
  destruct l as [|v l]; simpl; [by intros -> _|]. intros [-> _] Hl.
  assert (0 ≤ v < 2 ^ 24) by (apply good_elem_bound, Hl, list_elem_of_here).
  split; [lia|]. split; [|done]. unfold PH_HANDLE_VALUE_INVALID, ULONG_MAX. lia.
Qed.

Lemma good_main_head : 0 ≤ FreeValue t < 2 ^ 32 ∧ (FreeValue t = PH_HANDLE_VALUE_INVALID ↔ main = []).
Proof using Hgood. apply (good_head main); [apply Hgood|]. intros v Hv. rewrite !elem_of_app. auto. Qed.

Lemma good_alt_head : 0 ≤ FreeValueAlt t < 2 ^ 32 ∧ (FreeValueAlt t = PH_HANDLE_VALUE_INVALID ↔ alt = []).
Proof using Hgood. apply (good_head alt); [apply Hgood|]. intros v Hv. rewrite !elem_of_app. auto. Qed.

Lemma good_handles_bound : Z.of_nat (size (handles es)) + Z.of_nat (length (held ++ main ++ alt)) = NextValue t.
Proof using Hgood.
  destruct Hgood as [Hrep _ _ [Hnd Hf Hk] _ _ _].
  assert (size (dom es) = Z.to_nat (NextValue t)) as Hsize.
  { replace (dom es) with (list_to_set (seqZ 0 (NextValue t)) : gset Z).
    - rewrite size_list_to_set by apply NoDup_seqZ. by rewrite length_seqZ.
    - apply set_eq. intros v. rewrite elem_of_list_to_set, elem_of_seqZ, elem_of_dom, (rep_entries _ _ _ _ _ Hrep). lia. }
  assert (dom es = dom (handles es) ∪ list_to_set (held ++ main ++ alt)) as Hdom.
  { apply set_eq. intros v. rewrite elem_of_union, elem_of_list_to_set, Hf, !elem_of_dom. split.
    - intros [e He]. destruct (Hk _ _ He) as [?|?]; [right; eauto|left]. exists e. by apply handles_lookup.
    - intros [[e [He _]%handles_lookup]|(e & He & _)]; by eexists. }
  rewrite Hdom, size_union, size_dom, size_list_to_set in Hsize by
    (done || (intros v [e [He Hh]%handles_lookup]%elem_of_dom (e' & He' & Hfr)%elem_of_list_to_set%Hf;
      simplify_eq; by apply (free_not_handle e))).
  pose proof (rep_bound _ _ _ _ Hrep). lia.
Qed.

Lemma good_new_count k : 0 ≤ k ≤ 1 → u32 (Count t + k) = Count t + k.
Proof using Hgood.
  intros Hk. pose proof good_handles_bound as Hb. rewrite (good_count _ _ _ _ _ _ _ _ Hgood).
  rewrite length_app in Hb. pose proof (rep_bound _ _ _ _ (good_rep _ _ _ _ _ _ _ _ Hgood)). apply u32_small. lia.
Qed.

End Facts.

(** ** Reversing a chain *)

Lemma wp_reverse fuel : ∀ s t bs es rest index lastIndex count first acc,
  rep s t bs es → seg es index (index :: rest) PH_HANDLE_VALUE_INVALID → seg es lastIndex acc PH_HANDLE_VALUE_INVALID →
  NoDup ((index :: rest) ++ acc) → (∀ v, v ∈ index :: rest → ∃ e, es !! v = Some e ∧ is_free e) →
  0 ≤ lastIndex < 2 ^ 32 → (lastIndex = PH_HANDLE_VALUE_INVALID ↔ acc = []) →
  (∀ v, last acc = Some v → first = Some (ptr bs v)) →
  (length rest < fuel)%nat → 0 ≤ count → count + Z.of_nat (length (index :: rest)) < 2 ^ 32 →
  wp (reverse_chain fuel index lastIndex count first)
    (λ r s', ∃ es' v, rep s' t bs es' ∧ free_writes es es' ∧ (∀ w, w ∉ index :: rest → es' !! w = es !! w) ∧
       seg es' r.1.2 (reverse (index :: rest) ++ acc) PH_HANDLE_VALUE_INVALID ∧
       last (reverse (index :: rest) ++ acc) = Some v ∧ r.1.1 = Some (ptr bs v) ∧
       r.2 = count + Z.of_nat (length (index :: rest))) s.
Proof.
  induction fuel as [|fuel IH]; intros s t bs es rest index lastIndex count first acc
    Hrep Hseg Hacc Hnd Hfree Hlast Hlast0 Hfirst Hfuel Hc0 Hc; [lia|].
  destruct (Hfree index) as (e & He & Hfe); [apply list_elem_of_here|].
  pose proof (rep_entry_bound _ _ _ _ _ _ Hrep He) as Hb. pose proof (rep_bound _ _ _ _ Hrep) as Hnb.
  destruct Hseg as [_ (e' & He' & Hrest)]. assert (e' = e) as -> by congruence. clear He'.
  cbn [reverse_chain]. apply wp_bind. eapply wp_lookup; [done..|]. cbv zeta.
  apply wp_bind, wp_ret. apply wp_bind. eapply wp_get_handle_entry; [done..|]. cbv zeta.
  apply wp_bind. eapply wp_update_entry; [done..|]. intros s1 Hrep1. simpl in Hc.
  rewrite u32_small by lia. simpl in Hnd. apply NoDup_cons in Hnd as [Hni Hnd].
  set (es1 := <[index := with_NextFreeValue e lastIndex]> es) in *.
  assert (seg es1 index (index :: acc) PH_HANDLE_VALUE_INVALID) as Hacc1.
  { split; [done|]. eexists. unfold es1. rewrite lookup_insert_eq. split; [done|].
    rewrite next_free_value_eq by done. apply seg_insert; [set_solver|done]. }
  assert (∀ v, last (index :: acc) = Some v →
    (if lastIndex =? PH_HANDLE_VALUE_INVALID then Some (ptr bs index) else first) = Some (ptr bs v)) as Hfirst1.
  { intros v. destruct acc as [|w acc]; simpl.
    - intros [= <-]. by rewrite (proj2 Hlast0), Z.eqb_refl.
    - intros Hv. rewrite (proj2 (Z.eqb_neq _ _)) by (intros ?%Hlast0; done). by apply Hfirst. }
  assert (free_writes es es1) as Hw1 by (by eapply free_writes_insert).
  destruct rest as [|w rest].
  - simpl in Hrest. rewrite Hrest, Z.eqb_refl. apply wp_ret. rewrite reverse_singleton. cbn [app fst snd].
    destruct (last (index :: acc)) as [v|] eqn:Hv; [|by apply last_None in Hv].
    exists es1, v. split_and!; [done|done| |done|done|by apply Hfirst1|simpl; lia].
    intros w Hw. apply lookup_insert_ne. set_solver.
  - pose proof Hrest as [Hnw _]. rewrite Hnw in Hrest |- *.
    assert (is_Some (es !! w)) as (ew & Hew) by (eapply seg_elem; [exact Hrest|apply list_elem_of_here]).
    pose proof (rep_entry_bound _ _ _ _ _ _ Hrep Hew).
    rewrite (proj2 (Z.eqb_neq w _)) by (unfold PH_HANDLE_VALUE_INVALID, ULONG_MAX; lia).
    eapply wp_mono.
    { eapply (IH _ _ _ _ rest _ _ _ _ (index :: acc)); [exact Hrep1| |exact Hacc1| | |lia|split; [|done]; unfold PH_HANDLE_VALUE_INVALID, ULONG_MAX; lia|exact Hfirst1|simpl in *; lia..].
      - apply seg_insert; [set_solver|done].
      - apply NoDup_app in Hnd as (Hn1 & Hn2 & Hn3). apply NoDup_app. split_and!; [done| |by constructor; [set_solver|]].
        intros v Hv [->|Hva]%elem_of_cons; [set_solver|by apply (Hn2 v)].
      - intros v Hv. unfold es1. rewrite lookup_insert_ne by set_solver. apply Hfree. by apply list_elem_of_further. }
    intros r s' (es' & v & Hr' & Hw' & Hsame & Hs' & Hl' & Hf' & Hc').
    exists es', v. rewrite (reverse_cons (w :: rest) index), <-app_assoc. cbn [app] in *. split_and!; [done|by etransitivity| |done|done|done|].
    + intros u Hu. rewrite Hsame by set_solver. apply lookup_insert_ne. set_solver.
    + rewrite Hc'. simpl. lia.
Qed.

(** ** Moving the alternative list to the main list *)

Lemma wp_acquire_release_all s t n i Q :
  Table s = Some t → Locks t = replicate 8 0%nat → 0 ≤ i → i + Z.of_nat n ≤ 8 → Q tt s → wp (acquire_release_all n i) Q s.
Proof.
  intros Ht Hl. revert i. induction n as [|n IH]; intros i Hi Hn HQ; [by apply wp_ret|].
  cbn [acquire_release_all]. apply wp_bind. apply wp_bind, (wp_get_table _ t); [done|].
  rewrite Hl, lookup_replicate_2 by lia. apply wp_ret. apply IH; [lia..|done].
Qed.

(** The main list after the move, and what the function returns. *)
Definition moved_main (b : bool) (main alt : list Z) : list Z :=
  if negb b && bool_decide (main = []) then alt else reverse alt ++ main.
Definition moved_result (b : bool) (main alt : list Z) : Z :=
  if bool_decide (alt = []) || (b && (Z.of_nat (length alt) <? PH_HANDLE_TABLE_FREE_COUNT))
  then PH_HANDLE_VALUE_INVALID
  else default PH_HANDLE_VALUE_INVALID (head (moved_main b main alt)).

Lemma accounted_move es held main alt b :
  accounted es (held ++ main ++ alt) → accounted es (held ++ moved_main b main alt ++ []).
Proof.
  apply accounted_perm. f_equiv. rewrite app_nil_r. unfold moved_main.
  destruct (negb b && bool_decide (main = [])) eqn:Hm.
  - apply andb_true_iff in Hm as [_ Hm%bool_decide_eq_true]. by subst main.
  - rewrite reverse_Permutation. apply Permutation_app_comm.
Qed.

Lemma good_head_eq es a l : l ≠ [] → seg es a l PH_HANDLE_VALUE_INVALID → head l = Some a.
Proof. destruct l as [|v l]; simpl; [done|]. by intros _ [-> _]. Qed.

(** Linking the end of one chain to the next. *)
Lemma seg_link es a l v b c k e :
  seg es a l c → last l = Some v → es !! v = Some e → NoDup l → v ∉ k → (∀ w, w ∈ l → w ∉ k) →
  0 ≤ b < 2 ^ 32 → seg es b k PH_HANDLE_VALUE_INVALID →
  seg (<[v := with_NextFreeValue e b]> es) a (l ++ k) PH_HANDLE_VALUE_INVALID.
Proof.
  intros Hl Hlast He Hnd Hvk Hlk Hb Hk. apply last_Some in Hlast as [l' ->].
  apply NoDup_app in Hnd as (_ & Hnd & _).
  apply seg_app in Hl as (d & Hl' & [-> _]).
  apply seg_app. exists b. split; [|by apply seg_insert].
  apply seg_app. exists v. split.
  - apply seg_insert; [|done]. intros Hin. apply (Hnd v Hin). apply list_elem_of_here.
  - split; [done|]. eexists. rewrite lookup_insert_eq. split; [done|]. simpl. by apply next_free_value_eq.
Qed.

Lemma wp_reverse_and_push s0 s t bs es held main alt Q :
  good true s0 t bs es held main alt → rep s (with_FreeValueAlt t PH_HANDLE_VALUE_INVALID) bs es → alt ≠ [] →
  moved_main (strict t) main alt = reverse alt ++ main →
  (∀ s' t' es', good true s' t' bs es' held (moved_main (strict t) main alt) [] → free_writes es es' →
     NextValue t' = NextValue t → Flags t' = Flags t → Q (moved_result (strict t) main alt) s') →
  wp (reverse_and_push (Flags t) (FreeValueAlt t)) Q s.
Proof.
  intros Hgood Hrep Hane Hmoved HQ. pose proof Hgood as [_ Hmain Halt Hacc Hcount Hlock Hlocks].
  destruct (good_main_head _ _ _ _ _ _ _ _ Hgood) as [Hmb _].
  pose proof (good_handles_bound _ _ _ _ _ _ _ _ Hgood) as Hbound. pose proof (rep_bound _ _ _ _ Hrep) as Hnb.
  rewrite !length_app in Hbound. cbn [NextValue with_FreeValueAlt] in *.
  set (t1 := with_FreeValueAlt t PH_HANDLE_VALUE_INVALID) in *.
  pose proof (acc_nodup _ _ Hacc) as Hnd. rewrite NoDup_app in Hnd. destruct Hnd as (_ & _ & Hnd).
  apply NoDup_app in Hnd as (_ & Hdisj & Hnda).
  destruct alt as [|a alt]; [done|]. pose proof Halt as [Ha _].
  apply wp_bind, (wp_get_table _ t1); [apply Hrep|]. cbn [NextValue t1 with_FreeValueAlt].
  apply wp_bind. eapply wp_mono.
  { rewrite Ha. eapply (wp_reverse _ s t1 bs es alt a _ _ _ []); [done|by rewrite <-Ha at 1|done|by rewrite app_nil_r| |done|done|done|simpl in *; lia..].
    intros v Hv. apply (good_elem _ _ _ _ _ _ _ _ Hgood). rewrite !elem_of_app. auto. }
  intros [[first index] count] s1 (es1 & v & Hrep1 & Hw1 & Hsame & Hseg & Hlast & Hf & Hc). cbn [fst snd] in *. subst first count. rewrite app_nil_r in *.
  apply wp_bind. cbn [repeat_until]. apply wp_bind, wp_bind, (wp_get_table _ t1); [apply Hrep1|]. cbv zeta.
  apply wp_bind, wp_ret.
  assert (v ∈ a :: alt) as Hv.
  { apply elem_of_reverse. apply last_Some in Hlast as [l' ->]. apply elem_of_app. right. apply list_elem_of_here. }
  destruct (acc_free _ _ (free_writes_accounted _ _ _ Hw1 Hacc) v) as [(e & He & Hfe) _]; [rewrite !elem_of_app; auto|].
  apply wp_bind. eapply wp_update_entry; [done..|]. intros s2 Hrep2.
  apply wp_bind. eapply wp_exchange; [done|done|]. rewrite Z.eqb_refl. intros s3 Hrep3.
  apply wp_ret. cbv beta. apply wp_ret. cbn [FreeValue t1 with_FreeValueAlt] in *.
  set (es2 := <[v:=with_NextFreeValue e (FreeValue t)]> es1) in *.
  assert (good true s3 (with_FreeValue t1 index) bs es2 held (reverse (a :: alt) ++ main) []) as Hg.
  { assert (free_writes es es2) as Hw2 by (etransitivity; [done|by eapply free_writes_insert]).
    split; [done| |done| | |done|done].
    - apply (seg_link _ _ _ _ _ PH_HANDLE_VALUE_INVALID); [done..|by rewrite reverse_Permutation| | |done|].
      + intros Hvm. by apply (Hdisj v).
      + intros w Hw Hwm. rewrite reverse_Permutation in Hw. by apply (Hdisj w).
      + eapply seg_ext; [|done]. intros w Hw. apply Hsame. intros Hwa. by apply (Hdisj w).
    - rewrite <-Hmoved. apply accounted_move. by eapply free_writes_accounted.
    - by rewrite (free_writes_handles _ _ Hw2). }
  change (negb (Z.land (Flags t) PH_HANDLE_TABLE_STRICT_FIFO =? 0)) with (strict t).
  assert (free_writes es es2) by (etransitivity; [done|by eapply free_writes_insert]).
  rewrite <-Hmoved in Hg. specialize (HQ s3 (with_FreeValue t1 index) es2 Hg ltac:(done) eq_refl eq_refl).
  unfold moved_result in HQ. rewrite bool_decide_false in HQ by done. cbn [orb] in HQ. rewrite Z.add_0_l.
  destruct (strict t && _); [by apply wp_ret|]. apply wp_ret.
  rewrite Hmoved, (good_head_eq es2 index) in HQ; [exact HQ| |by rewrite <-Hmoved; apply Hg].
  intros Hnil%app_nil. destruct Hnil as [Hnil%(f_equal reverse) _]. by rewrite reverse_involutive in Hnil.
Qed.

Lemma wp_move s t bs es held main alt Q :
  good true s t bs es held main alt →
  (∀ s' t' es', good true s' t' bs es' held (moved_main (strict t) main alt) [] → free_writes es es' →
     NextValue t' = NextValue t → Flags t' = Flags t → Q (moved_result (strict t) main alt) s') →
  wp PhpMoveFreeHandleTableEntries Q s.
Proof.
  intros Hgood HQ. pose proof Hgood as [Hrep Hmain Halt Hacc Hcount Hlock Hlocks].
  destruct (good_main_head _ _ _ _ _ _ _ _ Hgood) as [Hmb Hm0].
  destruct (good_alt_head _ _ _ _ _ _ _ _ Hgood) as [Hab Ha0].
  pose proof (good_handles_bound _ _ _ _ _ _ _ _ Hgood) as Hbound. pose proof (rep_bound _ _ _ _ Hrep) as Hnb.
  rewrite !length_app in Hbound.
  apply wp_bind, (wp_get_table _ t); [apply Hrep|]. cbv zeta.
  set (t1 := with_FreeValueAlt t PH_HANDLE_VALUE_INVALID).
  apply wp_bind. apply (wp_put_table _ t t1 bs es); [done..|]. intros s1 Hrep1.
  destruct (Z.eqb_spec (FreeValueAlt t) PH_HANDLE_VALUE_INVALID) as [HA|HA].
  { apply Ha0 in HA. subst alt. apply wp_ret.
    replace PH_HANDLE_VALUE_INVALID with (moved_result (strict t) main []) by done.
    apply (HQ s1 t1 es); [|done..]. split; [done| |done| |done..]; [|by apply accounted_move].
    unfold moved_main. case_match eqn:E; [|done]. apply andb_true_iff in E as [_ E%bool_decide_eq_true]. by subst main. }
  assert (alt ≠ []) as Hane by (by intros ?%Ha0).
  apply wp_bind. eapply wp_acquire_release_all; [apply Hrep1|done|done|done|].
  apply wp_bind, (wp_get_table _ t1); [apply Hrep1|]. cbv zeta. cbn [Flags t1 with_FreeValueAlt].
  apply wp_bind.
  eapply (wp_mono _ (λ sc s2, if sc : bool then strict t = false ∧ main = [] ∧ rep s2 (with_FreeValue t1 (FreeValueAlt t)) bs es
    else (strict t = true ∨ main ≠ []) ∧ rep s2 t1 bs es)).
  { unfold strict. destruct (Z.land (Flags t) _ =? 0); [|apply wp_ret; by split; [left|]].
    apply wp_bind. eapply wp_exchange; [done|done|]. intros s2 Hrep2. apply wp_ret. cbn [FreeValue t1 with_FreeValueAlt] in *.
    destruct (Z.eqb_spec (FreeValue t) PH_HANDLE_VALUE_INVALID) as [HM|HM].
    - split_and!; [done|by apply Hm0|done].
    - split; [|done]. right. by intros ?%Hm0. }
  intros [] s2.
  - intros (Hst & -> & Hrep2). apply wp_ret.
    replace (FreeValueAlt t) with (moved_result (strict t) [] alt).
    + apply (HQ s2 (with_FreeValue t1 (FreeValueAlt t)) es); [|done..]. rewrite Hst. split; [exact Hrep2|done|done|by apply (accounted_move _ _ _ _ false)|done..].
    + unfold moved_result. rewrite Hst, bool_decide_false by done. cbn [orb andb moved_main].
      change (moved_main false [] alt) with alt. by rewrite (good_head_eq es (FreeValueAlt t)).
  - intros [Hcase Hrep2]. eapply (wp_reverse_and_push s s2); [done|done|done| |].
    + unfold moved_main. destruct Hcase as [->|Hcase]; [done|]. by rewrite bool_decide_false, andb_false_r.
    + intros s' t' es' Hg' Hw' Hn' Hf'. by apply (HQ s' t' es').
Qed.

(** ** Locks *)

Lemma wp_acquire s t bs es held main alt Q :
  good false s t bs es held main alt → (∀ s', good true s' (with_Lock t true) bs es held main alt → Q tt s') →
  wp PhAcquireQueuedLockExclusive Q s.
Proof.
  intros [Hrep Hmain Halt Hacc Hcount Hlock Hlocks] HQ. apply wp_bind, (wp_get_table _ t); [apply Hrep|]. rewrite Hlock.
  eapply wp_put_table; [done..|]. intros s' Hs'. by apply HQ.
Qed.

Lemma wp_release s t bs es held main alt Q :
  good true s t bs es held main alt → (∀ s', good false s' (with_Lock t false) bs es held main alt → Q tt s') →
  wp PhReleaseQueuedLockExclusive Q s.
Proof.
  intros [Hrep Hmain Halt Hacc Hcount Hlock Hlocks] HQ. apply wp_bind, (wp_get_table _ t); [apply Hrep|]. rewrite Hlock.
  eapply wp_put_table; [done..|]. intros s' Hs'. by apply HQ.
Qed.

Lemma lock_index_bound v : 0 ≤ PH_HANDLE_TABLE_LOCK_INDEX v < 8.
Proof. apply Z.mod_pos_bound. done. Qed.

Section Allocation.
Context (allocate : kind → nat → memory → option Z) (garbage : nat → list PH_HANDLE_TABLE_ENTRY).
Context (Hallocate : allocator_ok allocate) (Hgarbage : garbage_ok garbage).

(** ** Finding a free entry *)

(** How the free lists are refilled when the main list is empty: with the
    alternative list, with 256 new entries, or with both, the new ones first. *)
Inductive refill (b : bool) (n : Z) (main alt : list Z) : list Z → list Z → Z → Prop :=
  | refill_none : main ≠ [] → refill b n main alt main alt n
  | refill_move : main = [] → alt ≠ [] → b = false ∨ PH_HANDLE_TABLE_FREE_COUNT ≤ Z.of_nat (length alt) →
      refill b n main alt (moved_main b [] alt) [] n
  | refill_grow : main = [] → alt = [] ∨ b = true ∧ Z.of_nat (length alt) < PH_HANDLE_TABLE_FREE_COUNT →
      refill b n main alt (seqZ n 256 ++ moved_main b [] alt) [] (n + 256)
  | refill_few : main = [] → alt ≠ [] → b = true → Z.of_nat (length alt) < PH_HANDLE_TABLE_FREE_COUNT →
      refused allocate ∨ n = 2 ^ 24 → refill b n main alt (moved_main b [] alt) [] n.

Lemma moved_result_invalid lk s t bs es held alt :
  good lk s t bs es held (moved_main (strict t) [] alt) [] →
  (moved_result (strict t) [] alt = PH_HANDLE_VALUE_INVALID ∧
     (alt = [] ∨ strict t = true ∧ Z.of_nat (length alt) < PH_HANDLE_TABLE_FREE_COUNT)) ∨
  (alt ≠ [] ∧ (strict t = false ∨ PH_HANDLE_TABLE_FREE_COUNT ≤ Z.of_nat (length alt)) ∧
     moved_result (strict t) [] alt = FreeValue t ∧ FreeValue t ≠ PH_HANDLE_VALUE_INVALID).
Proof using Type.
  intros Hg. unfold moved_result. destruct (decide (alt = [])) as [->|Hne]; [left; auto|].
  rewrite bool_decide_false by done. cbn [orb].
  assert (moved_main (strict t) [] alt ≠ []) as Hmne.
  { unfold moved_main. case_match; [done|]. rewrite app_nil_r. intros Hr%(f_equal reverse). by rewrite reverse_involutive in Hr. }
  destruct (strict t && (Z.of_nat (length alt) <? PH_HANDLE_TABLE_FREE_COUNT)) eqn:E.
  - apply andb_true_iff in E as [-> E%Z.ltb_lt]. left. auto.
  - right. split; [done|]. split.
    + apply andb_false_iff in E as [->|E%Z.ltb_ge]; [by left|by right].
    + rewrite (good_head_eq es (FreeValue t)) by (done || apply Hg). split; [done|].
      by intros ?%(good_main_head _ _ _ _ _ _ _ _ Hg).
Qed.

(** Growing, within the lock. *)
Lemma wp_grow s t bs es held main Q :
  good true s t bs es held main [] →
  (∀ s', good true s' t bs es held main [] → refused allocate ∨ NextValue t = 2 ^ 24 → Q false s') →
  (∀ s' t' b es', good true s' t' (bs ++ [b]) es' held (seqZ (NextValue t) 256 ++ main) [] →
     NextValue t' = NextValue t + 256 → Flags t' = Flags t → handles es' = handles es → Q true s') →
  wp (PhpAllocateMoreHandleTableEntries allocate garbage true) Q s.
Proof using Hallocate Hgarbage.
  intros Hgood Hno Hyes. pose proof Hgood as [Hrep Hmain Halt Hacc Hcount Hlock Hlocks].
  destruct (good_main_head _ _ _ _ _ _ _ _ Hgood) as [Hmb Hm0].
  eapply wp_allocate_more; [done..| |].
  { intros s' Hrep' Hwhy. by apply Hno. }
  intros s' b tv es' Hrep' Hext. set (t' := HandleTable _ _ _ _ _ _ _ _) in *.
  assert (∀ v, is_Some (es !! v) → v < NextValue t) as Hes by (intros v ?%(rep_entries _ _ _ _ _ Hrep); lia).
  assert (∀ v, is_Some (es' !! v) → v < NextValue t + 256) as Hes'.
  { intros v Hv%(rep_entries _ _ _ _ _ Hrep'). simpl in Hv. lia. }
  pose proof (extended_handles _ _ _ _ Hes Hes' Hext) as Hh.
  apply (Hyes s' t' b es'); [|done..].
  split; [done| |done| | |done|done].
  - apply seg_app. exists (FreeValue t). split.
    + apply (seg_seqZ es' (NextValue t) 256). intros v Hv. change (Z.of_nat 256) with 256 in *. destruct (proj2 Hext v) as (e & He & _ & Hne); [lia|].
      exists e. split; [done|]. rewrite Hne. repeat case_decide; lia.
    + eapply seg_ext; [|done]. intros v Hv. apply (proj1 Hext).
      destruct (good_elem _ _ _ _ _ _ _ _ Hgood v) as (e & He & _); [rewrite !elem_of_app; by auto|]. apply Hes. by exists e.
  - eapply accounted_perm; [|exact (extended_accounted _ _ _ _ _ Hes Hes' Hext Hacc)]. rewrite !app_nil_r, <-app_assoc.
    f_equiv. apply Permutation_app_comm.
  - cbn [t' Count]. by rewrite Hh.
Qed.

(** The outcome of a search: [None] only if no entry is free and none can be
    added. *)
Definition found (b : bool) (n : Z) (bs : list Z) (es : gmap Z PH_HANDLE_TABLE_ENTRY) (held main alt : list Z) (flags : Z)
    (r : option Z) (s' : ht_state) : Prop :=
  ∃ t' bs' es', bs `prefix_of` bs' ∧ handles es' = handles es ∧ Flags t' = flags ∧
    match r with
    | None => main = [] ∧ alt = [] ∧ (refused allocate ∨ n = 2 ^ 24) ∧ NextValue t' = n ∧ good false s' t' bs' es' held [] []
    | Some v => ∃ main' alt', refill b n main alt (v :: main') alt' (NextValue t') ∧ good false s' t' bs' es' held (v :: main') alt'
    end.

Lemma wp_find_head n v Q s :
  v ≠ PH_HANDLE_VALUE_INVALID → Q (Some v) s → wp (find_free_value allocate garbage (S n) v) Q s.
Proof using Type. intros Hv HQ. cbn [find_free_value]. rewrite (proj2 (Z.eqb_neq _ _)) by done. by apply wp_ret. Qed.

(** The free entry found is the head of the main list. *)
Lemma found_head s t bs bs' es es' held main alt main' alt' b n flags :
  good false s t bs' es' held main' alt' → refill b n main alt main' alt' (NextValue t) → main' ≠ [] →
  bs `prefix_of` bs' → handles es' = handles es → Flags t = flags →
  found b n bs es held main alt flags (Some (FreeValue t)) s.
Proof using Type.
  intros Hg Hr Hne Hbs Hh Hf. exists t, bs', es'. split_and!; [done..|].
  pose proof (good_main _ _ _ _ _ _ _ _ Hg) as Hm. destruct main' as [|v main']; [done|]. destruct Hm as [-> _].
  by exists main', alt'.
Qed.

Lemma moved_main_nil b alt : moved_main b [] alt = [] → alt = [].
Proof using Type.
  unfold moved_main. case_match; [done|]. rewrite app_nil_r. intros Hr%(f_equal reverse). by rewrite reverse_involutive in Hr.
Qed.

Lemma wp_find_free_value s t bs es held main alt :
  good false s t bs es held main alt →
  wp (find_free_value allocate garbage 2 (FreeValue t)) (found (strict t) (NextValue t) bs es held main alt (Flags t)) s.
Proof using Hallocate Hgarbage.
  intros Hgood. destruct (good_main_head _ _ _ _ _ _ _ _ Hgood) as [Hmb Hm0].
  destruct (decide (main = [])) as [->|Hmain].
  2:{ apply wp_find_head; [by intros ?%Hm0|]. eapply found_head; [done|by constructor|done..]. }
  remember 1%nat as k eqn:Hk. cbn [find_free_value].
  rewrite (proj2 Hm0), Z.eqb_refl by done. cbn [negb].
  apply wp_bind. eapply wp_acquire; [done|]. intros s1 Hg1. apply wp_bind, (wp_get_table _ (with_Lock t true)); [apply Hg1|].
  cbv zeta. cbn [FreeValue with_Lock]. rewrite (proj2 Hm0), Z.eqb_refl by done. cbn [negb].
  apply wp_bind. eapply wp_move; [exact Hg1|]. intros s2 t2 es2 Hg2 Hw2 Hn2 Hf2.
  change (strict (with_Lock t true)) with (strict t) in *. cbn [NextValue Flags with_Lock] in *.
  assert (strict t2 = strict t) as Hst by (unfold strict; by rewrite Hf2).
  apply free_writes_handles in Hw2. rewrite <-Hst in Hg2 |- *. rewrite <-Hn2.
  destruct (moved_result_invalid _ _ _ _ _ _ _ Hg2) as [[-> Hfew]|(Hne & Hmany & -> & Hv)].
  2:{ rewrite (proj2 (Z.eqb_neq _ _)) by done. apply wp_bind. eapply wp_release; [exact Hg2|]. intros s3 Hg3. apply wp_ret.
      eapply (found_head _ (with_Lock t2 false)); [exact Hg3|by constructor| |done..]. by intros ?%moved_main_nil. }
  rewrite Z.eqb_refl. cbn [negb]. apply wp_bind. eapply wp_grow; [exact Hg2|..].
  - intros s3 Hg3 Hwhy. apply wp_bind. eapply wp_release; [exact Hg3|]. intros s4 Hg4.
    apply wp_bind, (wp_get_table _ (with_Lock t2 false)); [apply Hg4|]. cbv zeta. cbn [negb FreeValue with_Lock andb].
    destruct (good_main_head _ _ _ _ _ _ _ _ Hg2) as [_ Hi].
    destruct (Z.eqb_spec (FreeValue t2) PH_HANDLE_VALUE_INVALID) as [E|E].
    + apply wp_ret. apply Hi in E. rewrite E in Hg4. apply moved_main_nil in E as ->.
      exists (with_Lock t2 false), bs, es2. by split_and!.
    + rewrite Hk. apply wp_find_head; [done|].
      assert (alt ≠ []) as Hne by (intros ->; apply E, Hi; by destruct (strict t2)).
      destruct Hfew as [?|[Hs Hfew]]; [done|].
      eapply (found_head _ (with_Lock t2 false)); [exact Hg4|by apply refill_few| |done..]. by intros ?%moved_main_nil.
  - intros s3 t3 b es3 Hg3 Hn3 Hf3 Hh3. apply wp_bind. eapply wp_release; [exact Hg3|]. intros s4 Hg4.
    apply wp_bind, (wp_get_table _ (with_Lock t3 false)); [apply Hg4|]. cbv zeta. cbn [negb FreeValue with_Lock andb].
    assert (seqZ (NextValue t2) 256 ++ moved_main (strict t2) [] alt ≠ []) as Hne by (by rewrite seqZ_cons by lia).
    rewrite Hk. apply wp_find_head; [by intros ?%(good_main_head _ _ _ _ _ _ _ _ Hg3)|].
    eapply (found_head _ (with_Lock t3 false)); [exact Hg4| |done|by apply prefix_app_r| |].
    + cbn [NextValue with_Lock]. rewrite Hn3. by apply refill_grow.
    + by rewrite Hh3.
    + cbn [Flags with_Lock]. by rewrite Hf3.
Qed.

(** ** Taking an entry *)

Lemma wp_lock_shared s t bs es i Q :
  rep s t bs es → Locks t = replicate 8 0%nat → 0 ≤ i < 8 →
  (∀ s', rep s' (with_Locks t (<[Z.to_nat i := 1%nat]> (replicate 8 0%nat))) bs es → Q tt s') →
  wp (PhpLockHandleTableShared i) Q s.
Proof using Type.
  intros Hrep Hl Hi HQ. apply wp_bind, (wp_get_table _ t); [apply Hrep|]. rewrite Hl, lookup_replicate_2 by lia.
  eapply wp_put_table; [done..|]. done.
Qed.

Lemma wp_unlock_shared s t bs es i Q :
  rep s t bs es → Locks t = <[Z.to_nat i := 1%nat]> (replicate 8 0%nat) → 0 ≤ i < 8 →
  (∀ s', rep s' (with_Locks t (replicate 8 0%nat)) bs es → Q tt s') →
  wp (PhpUnlockHandleTableShared i) Q s.
Proof using Type.
  intros Hrep Hl Hi HQ. apply wp_bind, (wp_get_table _ t); [apply Hrep|].
  rewrite Hl, list_lookup_insert_eq by (rewrite length_replicate; lia).
  rewrite list_insert_insert_eq, list_insert_id by (rewrite lookup_replicate_2 by lia; done).
  eapply wp_put_table; [done..|]. done.
Qed.

(** The outcome of taking an entry, which is on no list then. *)
Definition taken (b : bool) (n : Z) (bs : list Z) (es : gmap Z PH_HANDLE_TABLE_ENTRY) (main alt : list Z) (flags : Z)
    (r : option (entry_ptr * Z)) (s' : ht_state) : Prop :=
  ∃ t' bs' es', bs `prefix_of` bs' ∧ handles es' = handles es ∧ Flags t' = flags ∧
    match r with
    | None => main = [] ∧ alt = [] ∧ (refused allocate ∨ n = 2 ^ 24) ∧ NextValue t' = n ∧ good false s' t' bs' es' [] [] []
    | Some (p, v) => p = ptr bs' v ∧ ∃ main' alt',
        refill b n main alt (v :: main') alt' (NextValue t') ∧ good false s' t' bs' es' [v] main' alt'
    end.

Lemma wp_allocate_entry s t bs es main alt :
  good false s t bs es [] main alt →
  wp (PhpAllocateHandleTableEntry allocate garbage) (taken (strict t) (NextValue t) bs es main alt (Flags t)) s.
Proof using Hallocate Hgarbage.
  intros Hgood. apply wp_bind. cbn [repeat_until]. apply wp_bind, wp_bind, (wp_get_table _ t); [apply Hgood|].
  apply wp_bind. eapply wp_mono; [by apply wp_find_free_value|].
  intros [v|] s1 (t1 & bs1 & es1 & Hbs1 & Hh1 & Hf1 & Hr1).
  2:{ destruct Hr1 as (Hm & Ha & Hwhy & Hn & Hg). apply wp_ret. cbv beta. apply wp_ret, wp_ret.
      exists t1, bs1, es1. by split_and!. }
  destruct Hr1 as (main1 & alt1 & Href & Hg1). pose proof Hg1 as [Hrep1 Hmain1 Halt1 Hacc1 Hcount1 Hlock1 Hlocks1].
  destruct Hmain1 as [Hfv (e & He & Hnext)].
  assert (is_free e) as Hfe.
  { destruct (good_elem _ _ _ _ _ _ _ _ Hg1 v) as (e' & He' & ?); [rewrite !elem_of_app; by right; left; left|]. by simplify_eq. }
  apply wp_bind. eapply wp_lookup; [done..|]. cbv zeta. pose proof (lock_index_bound v) as Hi.
  apply wp_bind. eapply wp_lock_shared; [done..|]. intros s2 Hrep2.
  apply wp_bind. eapply wp_get_table; [apply Hrep2|]. cbn [FreeValue with_Locks]. rewrite Hfv, Z.eqb_refl. cbn [negb].
  apply wp_bind, wp_ret. apply wp_bind. eapply wp_get_handle_entry; [done..|]. cbv zeta.
  apply wp_bind. eapply wp_exchange; [exact Hrep2|done|]. cbn [FreeValue with_Locks]. rewrite Hfv, Z.eqb_refl. intros s3 Hrep3.
  apply wp_bind. eapply wp_unlock_shared; [exact Hrep3|done|done|]. intros s4 Hrep4.
  apply wp_ret. cbv beta. apply wp_ret. cbv beta iota.
  apply wp_bind. eapply wp_update_table; [exact Hrep4|done|done|]. intros s5 Hrep5. apply wp_ret.
  cbn [Count with_Locks with_FreeValue] in Hrep5. rewrite (good_new_count _ _ _ _ _ _ _ _ Hg1) in Hrep5 by lia.
  match type of Hrep5 with rep _ ?t' _ _ => exists t', bs1, es1 end.
  split_and!; [done..|]. exists main1, alt1. split; [done|].
  split; [done|done|done| | |done|done].
  - eapply accounted_perm; [|done]. done.
  - cbn [Count with_Count with_Locks with_FreeValue length]. rewrite Hcount1. simpl. lia.
Qed.

(** ** Giving an entry back *)

Context (held_by_others : ht_state → Z → bool).

Lemma wp_push s t bs es v e (field : PH_HANDLE_TABLE → Z) with_field Q :
  rep s t bs es → es !! v = Some e →
  (∀ t y, TableValue (with_field t y) = TableValue t ∧ NextValue (with_field t y) = NextValue t) →
  (∀ s', rep s' (with_field t v) bs (<[v := with_NextFreeValue e (field t)]> es) → Q tt s') →
  wp (push_free field with_field v (ptr bs v)) Q s.
Proof using Type.
  intros Hrep He Hf HQ. unfold push_free. cbn [repeat_until]. apply wp_bind, wp_bind, (wp_get_table _ t); [apply Hrep|].
  cbv zeta. apply wp_bind. eapply wp_update_entry; [done..|]. intros s1 Hrep1.
  apply wp_bind. eapply wp_exchange; [done|done|]. rewrite Z.eqb_refl. intros s2 Hrep2.
  apply wp_ret. cbv beta. apply wp_ret. by apply HQ.
Qed.

(** Pushed to one of the two lists; to the alternative one if the order is
    strict. *)
Lemma wp_free_entry s t bs es v main alt Q :
  good false s t bs es [v] main alt →
  (∀ s' t' es' main' alt', good false s' t' bs es' [] main' alt' → handles es' = handles es →
     NextValue t' = NextValue t → Flags t' = Flags t →
     (main' = main ∧ alt' = v :: alt) ∨ (strict t = false ∧ main' = v :: main ∧ alt' = alt) → Q tt s') →
  wp (PhpFreeHandleTableEntry held_by_others v (ptr bs v)) Q s.
Proof using Type.
  intros Hgood HQ. pose proof Hgood as [Hrep Hmain Halt Hacc Hcount Hlock Hlocks].
  destruct (good_elem _ _ _ _ _ _ _ _ Hgood v) as (e & He & Hfe); [apply list_elem_of_here|].
  destruct (good_main_head _ _ _ _ _ _ _ _ Hgood) as [Hmb _]. destruct (good_alt_head _ _ _ _ _ _ _ _ Hgood) as [Hab _].
  pose proof (acc_nodup _ _ Hacc) as Hnd. simpl in Hnd. apply NoDup_cons in Hnd as [Hv _]. rewrite not_elem_of_app in Hv.
  apply wp_bind. eapply wp_update_table; [done|done|done|]. intros s1 Hrep1.
  assert (u32 (Count t - 1) = Z.of_nat (size (handles es))) as Hc.
  { rewrite Hcount. simpl. pose proof (good_handles_bound _ _ _ _ _ _ _ _ Hgood). pose proof (rep_bound _ _ _ _ Hrep).
    rewrite u32_small; lia. }
  rewrite Hc in Hrep1. set (t1 := with_Count t (Z.of_nat (size (handles es)))) in *.
  apply wp_bind, (wp_get_table _ t1); [apply Hrep1|]. cbv zeta.
  apply wp_bind. eapply (wp_mono _ (λ m s2, rep s2 t1 bs es ∧ (m = true → strict t = false))).
  { change (Flags t1) with (Flags t). unfold strict. destruct (Z.land (Flags t) _ =? 0); [|by apply wp_ret].
    apply wp_bind, (wp_get_table _ t1); [apply Hrep1|]. apply wp_bind, wp_get.
    pose proof (lock_index_bound v). change (Locks t1) with (Locks t). rewrite Hlocks, lookup_replicate_2 by lia. by apply wp_ret. }
  intros m s2 [Hrep2 Hm].
  assert (∀ b, free_writes es (<[v := with_NextFreeValue e b]> es)) as Hw by (intros b; by eapply free_writes_insert).
  assert (∀ a l, seg es a l PH_HANDLE_VALUE_INVALID → v ∉ l → 0 ≤ a < 2 ^ 32 →
    seg (<[v := with_NextFreeValue e a]> es) v (v :: l) PH_HANDLE_VALUE_INVALID) as Hseg.
  { intros a l Hl Hvl Ha. split; [done|]. eexists. rewrite lookup_insert_eq. split; [done|].
    rewrite next_free_value_eq by done. by apply seg_insert. }
  destruct m; (eapply wp_push; [done|done|done|]); intros s3 Hrep3.
  - eapply (HQ s3 (with_FreeValue t1 v) (<[v := with_NextFreeValue e (FreeValue t)]> es) (v :: main) alt); [|by rewrite (free_writes_handles _ _ (Hw (FreeValue t)))|done|done|right; auto].
    split; [exact Hrep3|apply (Hseg (FreeValue t)); tauto|apply seg_insert; tauto| | |done|done].
    + exact (free_writes_accounted _ _ _ (Hw (FreeValue t)) Hacc).
    + rewrite (free_writes_handles _ _ (Hw (FreeValue t))). cbn [Count with_FreeValue t1 with_Count length]. lia.
  - eapply (HQ s3 (with_FreeValueAlt t1 v) (<[v := with_NextFreeValue e (FreeValueAlt t)]> es) main (v :: alt)); [|by rewrite (free_writes_handles _ _ (Hw (FreeValueAlt t)))|done|done|left; auto].
    split; [exact Hrep3|apply seg_insert; tauto|apply (Hseg (FreeValueAlt t)); tauto| | |done|done].
    + apply (free_writes_accounted _ _ _ (Hw (FreeValueAlt t))). eapply accounted_perm; [|exact Hacc]. simpl.  apply Permutation_middle.
    + rewrite (free_writes_handles _ _ (Hw (FreeValueAlt t))). cbn [Count with_FreeValueAlt t1 with_Count length]. lia.
Qed.

End Allocation.
