(* ===== verification/HandleTableOps.v ===== *)
(** Handle tables: the operations on handles. The open handles are a finite map
    from handle values to entries; each operation is an operation on the map. *)

From S2P Require Import Prelude HandleTable HandleTableFacts HandleTableLists.

(** ** Handles *)

Lemma encode_value v : 0 ≤ v < 2 ^ 24 → PhpEncodeHandle v = 4 * v + 4.
Proof.
  intros Hv. unfold PhpEncodeHandle, PH_HANDLE_VALUE_SHIFT, PH_HANDLE_VALUE_BIAS.
  rewrite Z.shiftl_mul_pow2 by lia. rewrite (u32_small (v * 2 ^ 2)), u32_small by lia. lia.
Qed.

Lemma decode_encode v : 0 ≤ v < 2 ^ 24 → PhpDecodeHandle (PhpEncodeHandle v) = v.
Proof.
  intros Hv. rewrite encode_value by done. unfold PhpDecodeHandle, PH_HANDLE_VALUE_SHIFT, PH_HANDLE_VALUE_BIAS.
  rewrite Z.shiftr_div_pow2 by lia. rewrite (u32_small (4 * v + 4)), u32_small by lia. Z.to_euclidean_division_equations. lia.
Qed.

Lemma decode_nonneg h : 0 ≤ PhpDecodeHandle h.
Proof. apply Z.shiftr_nonneg, u32_range. Qed.

(** ** The lock bit *)

Definition is_unlocked (e : PH_HANDLE_TABLE_ENTRY) : Prop := Value e mod 4 = 2.
#[global] Instance is_unlocked_dec e : Decision (is_unlocked e).
Proof. unfold is_unlocked. apply _. Defined.
Definition is_locked (e : PH_HANDLE_TABLE_ENTRY) : Prop := Value e mod 4 = 0.

Lemma land_low_bits v k : 0 ≤ k < 4 → Z.land v k = Z.land (v mod 4) k.
Proof.
  intros Hk. rewrite <-(level_bits v), <-Z.land_assoc. f_equal.
  rewrite Z.land_comm, level_bits. by rewrite Z.mod_small.
Qed.

Lemma handle_type e : is_handle e ↔ Z.land (Value e) PH_HANDLE_TABLE_ENTRY_TYPE = PH_HANDLE_TABLE_ENTRY_IN_USE.
Proof. unfold is_handle. by rewrite (land_pow2 _ 1 ltac:(done) : Z.land _ PH_HANDLE_TABLE_ENTRY_TYPE = _). Qed.

Lemma unlocked_handle e : is_unlocked e → is_handle e.
Proof. unfold is_unlocked, is_handle. Z.to_euclidean_division_equations. lia. Qed.

Lemma locked_handle e : is_locked e → is_handle e.
Proof. unfold is_locked, is_handle. Z.to_euclidean_division_equations. lia. Qed.

Lemma handle_locked_or_not e : is_handle e → is_unlocked e ∨ is_locked e.
Proof. unfold is_unlocked, is_locked, is_handle. Z.to_euclidean_division_equations. lia. Qed.

Lemma unlocked_bit e : is_unlocked e → Z.land (Value e) PH_HANDLE_TABLE_ENTRY_LOCKED = 2.
Proof. intros He. rewrite land_low_bits by done. by rewrite He. Qed.

Lemma locked_bit e : is_locked e → Z.land (Value e) PH_HANDLE_TABLE_ENTRY_LOCKED = 0.
Proof. intros He. rewrite land_low_bits by done. by rewrite He. Qed.

Definition lock_entry (e : PH_HANDLE_TABLE_ENTRY) : PH_HANDLE_TABLE_ENTRY := with_Value e (Value e - PH_HANDLE_TABLE_ENTRY_LOCKED).
Definition unlock_entry (e : PH_HANDLE_TABLE_ENTRY) : PH_HANDLE_TABLE_ENTRY :=
  with_Value e (Z.setbit (Value e) PH_HANDLE_TABLE_ENTRY_LOCKED_SHIFT).

Lemma lock_entry_locked e : is_unlocked e → is_locked (lock_entry e).
Proof. unfold is_unlocked, is_locked, lock_entry, with_Value, PH_HANDLE_TABLE_ENTRY_LOCKED. cbn [Value]. intros. Z.to_euclidean_division_equations. lia. Qed.

Lemma unlock_value e : is_locked e → Value (unlock_entry e) = Value e + 2.
Proof. intros He. simpl. unfold Z.setbit. by apply lor_level. Qed.

Lemma unlock_entry_unlocked e : is_locked e → is_unlocked (unlock_entry e).
Proof. intros He. unfold is_unlocked. rewrite unlock_value by done. unfold is_locked in He. Z.to_euclidean_division_equations. lia. Qed.

Lemma unlock_lock e : is_unlocked e → unlock_entry (lock_entry e) = e.
Proof.
  intros He. destruct e as [x y]. pose proof (unlock_value _ (lock_entry_locked _ He)) as Hv.
  unfold unlock_entry, lock_entry, with_Value in *. cbn [Value Value2] in *. rewrite Hv. f_equal. unfold PH_HANDLE_TABLE_ENTRY_LOCKED. lia.
Qed.

(** The entry that [PhCreateHandle] stores. *)
Definition created_entry (e : PH_HANDLE_TABLE_ENTRY) : PH_HANDLE_TABLE_ENTRY :=
  HandleTableEntry (TypeAndValue_Value e mod 2 ^ 62 * 4 + 2) (Value2 e).

Lemma created_unlocked e : is_unlocked (created_entry e).
Proof. unfold is_unlocked, created_entry. cbn [Value]. rewrite Z.add_comm, Z.mod_add; done. Qed.

Lemma store_created e g :
  is_free e →
  unlock_entry (with_Value2 (with_TypeAndValue_Value (with_Type e PH_HANDLE_TABLE_ENTRY_IN_USE) (TypeAndValue_Value g)) (Value2 g)) =
  created_entry g.
Proof.
  unfold is_free. intros He. destruct e as [x y]. cbn [Value] in He. subst x.
  unfold unlock_entry, with_Value2, with_TypeAndValue_Value, with_Type, with_Value, created_entry. cbn [Value Value2].
  f_equal. change ((PH_HANDLE_TABLE_ENTRY_FREE - PH_HANDLE_TABLE_ENTRY_FREE mod 2 + PH_HANDLE_TABLE_ENTRY_IN_USE mod 2) mod 4) with 0.
  rewrite Z.add_0_r. unfold Z.setbit. apply lor_level; [|done]. by rewrite Z.mod_mul.
Qed.

(** ** Changes of an entry in use *)

Lemma handles_insert es v e : is_handle e → handles (<[v := e]> es) = <[v := e]> (handles es).
Proof. intros He. unfold handles. by apply map_filter_insert_True. Qed.

Lemma handles_free es v e e' : es !! v = Some e → is_free e' → handles (<[v := e']> es) = delete v (handles es).
Proof.
  intros He Hf%free_not_handle. unfold handles. by rewrite map_filter_insert_False, map_filter_delete.
Qed.

Lemma good_write lk s s' t bs es held main alt v e e' :
  good lk s t bs es held main alt → es !! v = Some e → is_handle e → is_handle e' → rep s' t bs (<[v := e']> es) →
  good lk s' t bs (<[v := e']> es) held main alt ∧ handles (<[v := e']> es) = <[v := e']> (handles es).
Proof.
  intros Hgood He Hh Hh' Hrep'. pose proof Hgood as [Hrep Hmain Halt [Hnd Hf Hk] Hcount Hlock Hlocks].
  assert (v ∉ held ++ main ++ alt) as Hv by (intros (d & Hd & Hfd%free_not_handle)%Hf; by simplify_eq).
  rewrite !not_elem_of_app in Hv. destruct Hv as (Hv1 & Hv2 & Hv3).
  pose proof (handles_insert es v e' Hh') as Hhe. split; [|done].
  split; [done|by apply seg_insert|by apply seg_insert| | |done|done].
  - split; [done|..].
    + intros w. rewrite Hf. destruct (decide (v = w)) as [<-|Hne].
      * rewrite lookup_insert_eq. split; intros (d & Hd & Hfd%free_not_handle); by simplify_eq.
      * by rewrite lookup_insert_ne.
    + intros w d. destruct (decide (v = w)) as [<-|Hne]; [rewrite lookup_insert_eq; naive_solver|].
      rewrite lookup_insert_ne by done. apply Hk.
  - rewrite Hhe, map_size_insert_Some; [done|]. exists e. by apply handles_lookup.
Qed.

(** An entry that is on no list is put to use. *)
Lemma good_use lk s s' t bs es main alt v e' :
  good lk s t bs es [v] main alt → is_handle e' → rep s' t bs (<[v := e']> es) →
  good lk s' t bs (<[v := e']> es) [] main alt ∧ handles (<[v := e']> es) = <[v := e']> (handles es) ∧ handles es !! v = None.
Proof.
  intros Hgood Hh' Hrep'. pose proof Hgood as [Hrep Hmain Halt [Hnd Hf Hk] Hcount Hlock Hlocks].
  cbn [app] in *. apply NoDup_cons in Hnd as [Hv Hnd]. rewrite not_elem_of_app in Hv. destruct Hv as (Hv2 & Hv3).
  destruct (proj1 (Hf v)) as (e & He & Hfe); [apply list_elem_of_here|].
  assert (handles es !! v = None) as Hn.
  { apply eq_None_not_Some. intros [d [Hd Hhd]%handles_lookup]. assert (d = e) as -> by congruence. by apply (free_not_handle e). }
  pose proof (handles_insert es v e' Hh') as Hhe. split_and!; [|done..].
  split; [done|by apply seg_insert|by apply seg_insert| | |done|done]; cbn [app].
  - split; [done|..].
    + intros w. destruct (decide (v = w)) as [<-|Hne].
      * rewrite lookup_insert_eq. split.
        -- rewrite elem_of_app. tauto.
        -- intros (d & Hd & Hfd%free_not_handle). by simplify_eq.
      * rewrite lookup_insert_ne, <-Hf by done. rewrite elem_of_cons. split; [by right|]. by intros [->|?].
    + intros w d. destruct (decide (v = w)) as [<-|Hne]; [rewrite lookup_insert_eq; naive_solver|].
      rewrite lookup_insert_ne by done. apply Hk.
  - rewrite Hhe, map_size_insert_None by done. rewrite Hcount. cbn [length]. lia.
Qed.

(** An entry is freed. *)
Lemma good_unuse lk s s' t bs es main alt v e e' :
  good lk s t bs es [] main alt → es !! v = Some e → is_handle e → is_free e' → rep s' t bs (<[v := e']> es) →
  good lk s' t bs (<[v := e']> es) [v] main alt ∧ handles (<[v := e']> es) = delete v (handles es).
Proof.
  intros Hgood He Hh Hf' Hrep'. pose proof Hgood as [Hrep Hmain Halt [Hnd Hf Hk] Hcount Hlock Hlocks]. cbn [app] in *.
  assert (v ∉ main ++ alt) as Hv by (intros (d & Hd & Hfd%free_not_handle)%Hf; by simplify_eq).
  pose proof Hv as Hv'. rewrite not_elem_of_app in Hv'. destruct Hv' as (Hv2 & Hv3).
  pose proof (handles_free es v e e' He Hf') as Hhe. split; [|done].
  split; [done|by apply seg_insert|by apply seg_insert| | |done|done]; cbn [app].
  - split; [by constructor|..].
    + intros w. rewrite elem_of_cons. destruct (decide (v = w)) as [<-|Hne].
      * rewrite lookup_insert_eq. split; [intros _; by exists e'|by left].
      * rewrite lookup_insert_ne, <-Hf by done. split; [by intros [->|?]|by right].
    + intros w d. destruct (decide (v = w)) as [<-|Hne]; [rewrite lookup_insert_eq; naive_solver|].
      rewrite lookup_insert_ne by done. apply Hk.
  - assert (is_Some (handles es !! v)) by (exists e; by apply handles_lookup).
    rewrite Hhe, map_size_delete_Some, Hcount by done. cbn [length].
    assert (size (handles es) ≠ 0%nat); [|lia]. intros Hz%map_size_empty_inv. rewrite Hz, lookup_empty in *. by destruct H.
Qed.

(** ** Locking and unlocking *)

Lemma wp_lock_free s t bs es v e Q :
  rep s t bs es → es !! v = Some e → is_free e → Q false s → wp (PhLockHandleTableEntry (ptr bs v)) Q s.
Proof.
  intros Hrep He Hf HQ. apply wp_bind. apply wp_bind. eapply wp_get_handle_entry; [done..|]. cbv zeta.
  rewrite (proj2 (Z.eqb_neq _ _)) by (by intros Hh%handle_type; apply (free_not_handle e)). by apply wp_ret, wp_ret.
Qed.

Lemma wp_lock_unlocked s t bs es v e Q :
  rep s t bs es → es !! v = Some e → is_unlocked e → (∀ s', rep s' t bs (<[v := lock_entry e]> es) → Q true s') →
  wp (PhLockHandleTableEntry (ptr bs v)) Q s.
Proof.
  intros Hrep He Hu HQ. apply wp_bind. apply wp_bind. eapply wp_get_handle_entry; [done..|]. cbv zeta.
  rewrite (proj1 (handle_type e)), Z.eqb_refl, unlocked_bit by (done || by apply unlocked_handle). cbn [negb Z.eqb].
  apply wp_bind, wp_bind. eapply wp_get_handle_entry; [done..|]. rewrite Z.eqb_refl.
  apply wp_bind. eapply wp_put_handle_entry; [done..|]. intros s' Hrep'. apply wp_ret. cbv beta iota. apply wp_ret, wp_ret. by apply HQ.
Qed.

(** What [m] computes on [s] is that it blocks. *)
Lemma get_entry_eq s t bs es v e : rep s t bs es → es !! v = Some e → get_entry (ptr bs v) s = Some (e, s).
Proof. intros Hrep He. apply wp_eq. by eapply wp_get_handle_entry. Qed.

Lemma lock_blocks s t bs es v e :
  rep s t bs es → es !! v = Some e → is_locked e → PhLockHandleTableEntry (ptr bs v) s = None.
Proof.
  intros Hrep He Hl. pose proof (get_entry_eq _ _ _ _ _ _ Hrep He) as Hget.
  pose proof (locked_bit e Hl) as Hbit. pose proof (proj1 (handle_type e) (locked_handle e Hl)) as Htype.
  unfold PhLockHandleTableEntry, repeat_until, PhpBlockOnLockedHandleTableEntry, mbind, ST_bind, mret, ST_ret.
  rewrite Hget, Htype, Z.eqb_refl, Hbit. cbn [negb Z.eqb]. rewrite Hget, Htype, Z.eqb_refl, Hbit. done.
Qed.

Lemma wp_unlock s t bs es v e Q :
  rep s t bs es → es !! v = Some e → (∀ s', rep s' t bs (<[v := unlock_entry e]> es) → Q tt s') →
  wp (PhUnlockHandleTableEntry (ptr bs v)) Q s.
Proof. intros Hrep He HQ. by eapply wp_update_entry. Qed.

(** ** The operations *)

(** The entry that a handle stands for. *)
Lemma wp_lookup_value lk s t bs es held main alt v Q :
  good lk s t bs es held main alt → 0 ≤ v →
  (es !! v = None → Q None s) → (∀ e, es !! v = Some e → Q (Some (ptr bs v)) s) → wp (PhpLookupHandleTableEntry v) Q s.
Proof.
  intros Hgood Hv Hno Hyes. pose proof (good_rep _ _ _ _ _ _ _ _ Hgood) as Hrep. destruct (es !! v) as [e|] eqn:He.
  - eapply wp_lookup; [done..|]. by eapply Hyes.
  - eapply wp_lookup_none; [done| |by apply Hno]. apply Z.nlt_ge. intros Hlt.
    assert (is_Some (es !! v)) as [d Hd] by (by apply (rep_entries _ _ _ _ _ Hrep)). by simplify_eq.
Qed.

Section Operations.
Context (allocate : kind → nat → memory → option Z) (garbage : nat → list PH_HANDLE_TABLE_ENTRY).
Context (held_by_others : ht_state → Z → bool).
Context (Hallocate : allocator_ok allocate) (Hgarbage : garbage_ok garbage).

Lemma wp_create_handle s t bs es main alt g Q :
  good false s t bs es [] main alt →
  (∀ s' t' bs' es', main = [] → alt = [] → refused allocate ∨ NextValue t = 2 ^ 24 → good false s' t' bs' es' [] [] [] →
     handles es' = handles es → NextValue t' = NextValue t → Flags t' = Flags t → Q 0 s') →
  (∀ s' t' bs' es' v main' alt', refill allocate (strict t) (NextValue t) main alt (v :: main') alt' (NextValue t') →
     good false s' t' bs' es' [] main' alt' → 0 ≤ v < 2 ^ 24 → handles es !! v = None →
     handles es' = <[v := created_entry g]> (handles es) → Flags t' = Flags t → Q (PhpEncodeHandle v) s') →
  wp (PhCreateHandle allocate garbage g) Q s.
Proof using Hallocate Hgarbage.
  intros Hgood Hno Hyes. apply wp_bind. eapply wp_mono; [by apply wp_allocate_entry|].
  intros [[p v]|] s1 (t1 & bs1 & es1 & Hbs & Hh & Hf & Hr).
  2:{ destruct Hr as (-> & -> & Hwhy & Hn & Hg1). apply wp_ret. by eapply Hno. }
  destruct Hr as (-> & main1 & alt1 & Href & Hg1). pose proof (good_rep _ _ _ _ _ _ _ _ Hg1) as Hrep1.
  destruct (good_elem _ _ _ _ _ _ _ _ Hg1 v) as (e & He & Hfe); [apply list_elem_of_here|].
  apply wp_bind. eapply wp_update_entry; [done..|]. intros s2 Hrep2.
  apply wp_bind. eapply wp_update_entry; [exact Hrep2|by rewrite lookup_insert_eq|]. rewrite insert_insert_eq. intros s3 Hrep3.
  apply wp_bind. eapply wp_update_entry; [exact Hrep3|by rewrite lookup_insert_eq|]. rewrite insert_insert_eq. intros s4 Hrep4.
  apply wp_bind. eapply wp_unlock; [exact Hrep4|by rewrite lookup_insert_eq|]. rewrite insert_insert_eq. intros s5 Hrep5.
  rewrite store_created in Hrep5 by done. apply wp_ret.
  destruct (good_use _ _ _ _ _ _ _ _ _ _ Hg1 (unlocked_handle _ (created_unlocked g)) Hrep5) as (Hg5 & Hh5 & Hn5).
  rewrite Hh in Hh5, Hn5. eapply Hyes; [exact Href|exact Hg5| |done|done|done].
  apply (good_elem_bound _ _ _ _ _ _ _ _ Hg1). apply list_elem_of_here.
Qed.

(** Freeing the entry of a handle that the thread has locked. *)
Lemma wp_destroy_locked s t bs es main alt h e Q :
  good false s t bs es [] main alt → es !! PhpDecodeHandle h = Some e → is_handle e →
  (∀ s' t' es' main' alt', good false s' t' bs es' [] main' alt' → handles es' = delete (PhpDecodeHandle h) (handles es) →
     NextValue t' = NextValue t → Flags t' = Flags t →
     (main' = main ∧ alt' = PhpDecodeHandle h :: alt) ∨ (strict t = false ∧ main' = PhpDecodeHandle h :: main ∧ alt' = alt) →
     Q true s') →
  wp (PhDestroyHandle held_by_others h (Some (ptr bs (PhpDecodeHandle h)))) Q s.
Proof using Type.
  intros Hgood He Hh HQ. pose proof (good_rep _ _ _ _ _ _ _ _ Hgood) as Hrep. apply wp_bind, wp_ret.
  apply wp_bind. eapply wp_update_entry; [done..|]. intros s1 Hrep1.
  assert (is_free (with_Value e PH_HANDLE_TABLE_ENTRY_FREE)) as Hfree by done.
  destruct (good_unuse _ _ _ _ _ _ _ _ _ _ _ Hgood He Hh Hfree Hrep1) as (Hg1 & Hh1).
  apply wp_bind. eapply wp_free_entry; [exact Hg1|]. intros s2 t2 es2 main2 alt2 Hg2 Hh2 Hn2 Hf2 Hl2.
  apply wp_ret. eapply HQ; [exact Hg2|by rewrite Hh2|done..].
Qed.

Lemma handles_none es v e : es !! v = Some e → handles es !! v = None → ¬ is_handle e.
Proof using Type. intros He Hn Hh. assert (handles es !! v = Some e) by (by apply handles_lookup). congruence. Qed.

Lemma handles_entry lk s t bs es held main alt v e :
  good lk s t bs es held main alt → es !! v = Some e → handles es !! v = None → is_free e.
Proof using Type.
  intros Hgood He Hn. destruct (acc_kind _ _ (good_acc _ _ _ _ _ _ _ _ Hgood) _ _ He); [done|]. by destruct (handles_none es v e).
Qed.

Lemma wp_lookup_handle s t bs es main alt h Q :
  good false s t bs es [] main alt →
  (handles es !! PhpDecodeHandle h = None → Q None s) →
  (∀ e, handles es !! PhpDecodeHandle h = Some e → is_unlocked e ∧
     ∀ s', good false s' t bs (<[PhpDecodeHandle h := lock_entry e]> es) [] main alt →
       handles (<[PhpDecodeHandle h := lock_entry e]> es) = <[PhpDecodeHandle h := lock_entry e]> (handles es) →
       Q (Some (ptr bs (PhpDecodeHandle h))) s') →
  wp (PhLookupHandleTableEntry h) Q s.
Proof using Type.
  intros Hgood Hno Hyes. pose proof (good_rep _ _ _ _ _ _ _ _ Hgood) as Hrep.
  apply wp_bind. eapply wp_lookup_value; [done|apply decode_nonneg|..].
  { intros Hn. apply wp_ret. apply Hno. apply eq_None_not_Some. intros [d [Hd _]%handles_lookup]. congruence. }
  intros e He. apply wp_bind. destruct (handles es !! PhpDecodeHandle h) as [d|] eqn:Hd.
  - destruct (Hyes d) as [Hu HQ]; [done|]. apply handles_lookup in Hd as [Hd Hhd]. assert (d = e) as -> by congruence.
    eapply wp_lock_unlocked; [done..|]. intros s' Hrep'. apply wp_ret.
    destruct (good_write _ _ s' _ _ _ _ _ _ _ e _ Hgood He Hhd (locked_handle _ (lock_entry_locked _ Hu)) Hrep') as [Hg' Hh'].
    by apply HQ.
  - eapply wp_lock_free; [done..|by eapply handles_entry|]. apply wp_ret. by apply Hno.
Qed.

Lemma wp_destroy_handle s t bs es main alt h Q :
  good false s t bs es [] main alt →
  (handles es !! PhpDecodeHandle h = None → Q false s) →
  (∀ e, handles es !! PhpDecodeHandle h = Some e → is_unlocked e ∧
     ∀ s' t' es' main' alt', good false s' t' bs es' [] main' alt' → handles es' = delete (PhpDecodeHandle h) (handles es) →
       NextValue t' = NextValue t → Flags t' = Flags t →
       (main' = main ∧ alt' = PhpDecodeHandle h :: alt) ∨ (strict t = false ∧ main' = PhpDecodeHandle h :: main ∧ alt' = alt) →
       Q true s') →
  wp (PhDestroyHandle held_by_others h None) Q s.
Proof using Type.
  intros Hgood Hno Hyes.
  assert (wp (PhLookupHandleTableEntry h ≫= λ p, match p with None => mret false | Some p => PhDestroyHandle held_by_others h (Some p) end) Q s) as Hwp.
  { apply wp_bind. eapply wp_lookup_handle; [done|intros Hn; by apply wp_ret, Hno|].
    intros e He. destruct (Hyes e He) as [Hu HQ]. split; [done|]. intros s' Hg' Hh'.
    eapply wp_destroy_locked; [exact Hg'|by rewrite lookup_insert_eq|by apply locked_handle, lock_entry_locked|].
    intros s2 t2 es2 main2 alt2 Hg2 Hh2 Hn2 Hf2 Hl2. eapply HQ; [exact Hg2| |done..].
    by rewrite Hh2, Hh', delete_insert_eq. }
  destruct Hwp as (r & s' & Hwp & HQ). exists r, s'. split; [|done]. rewrite <-Hwp.
  unfold PhDestroyHandle, PhLookupHandleTableEntry, mbind, ST_bind, mret, ST_ret.
  destruct (PhpLookupHandleTableEntry (PhpDecodeHandle h) s) as [[[p|] s1]|]; [|done..].
  by destruct (PhLockHandleTableEntry p s1) as [[[] s2]|].
Qed.

End Operations.

(** ** Creating a table *)

Lemma free_handles_empty es : (∀ v e, es !! v = Some e → is_free e) → handles es = ∅.
Proof.
  intros Hf. apply map_eq. intros v. rewrite lookup_empty. apply eq_None_not_Some.
  intros [e [He Hh]%handles_lookup]. by apply (free_not_handle e); [eapply Hf|].
Qed.

(** The first block. *)
Lemma good_initial s b l t :
  b ≠ 0 → b mod 4 = 0 → fresh_block 0 l → Table s = Some t → Mem s = Memory {[b := l]} ∅ ∅ →
  Lock t = false → Count t = 0 → TableValue t = b → FreeValue t = 0 → NextValue t = 256 →
  FreeValueAlt t = PH_HANDLE_VALUE_INVALID → Locks t = replicate 8 0%nat →
  good false s t [b] (map_seqZ 0 l) [] (seqZ 0 256) [] ∧ handles (map_seqZ 0 l) = ∅.
Proof.
  intros Hb0 Hb4 [Hlen Hl] Ht Hm Hlock Hcount Htv Hfv Hnv Hfa Hlocks.
  set (es := map_seqZ 0 l : gmap Z PH_HANDLE_TABLE_ENTRY).
  assert (∀ v, 0 ≤ v < 256 → es !! v = l !! Z.to_nat v) as Hes.
  { intros v Hv. unfold es. rewrite lookup_map_seqZ, option_guard_True by lia. f_equal. lia. }
  assert (∀ v, is_Some (es !! v) ↔ 0 ≤ v < 256) as Hsome by (intros v; unfold es; rewrite lookup_map_seqZ_is_Some; lia).
  assert (∀ v e, es !! v = Some e → is_free e) as Hfree.
  { intros v e He. assert (0 ≤ v < 256) as Hv by (apply Hsome; by eexists). rewrite Hes in He by done.
    destruct (Hl (Z.to_nat v)) as (d & Hd & Hfd & _); [lia|]. by simplify_eq. }
  pose proof (free_handles_empty es Hfree) as Hh. split; [|done]. split.
  - split; [done| |by rewrite Hnv].
    rewrite Hm, Htv. split; cbn [level0 level1 level2].
    + by apply levels0.
    + apply NoDup_singleton.
    + by intros c ->%list_elem_of_singleton.
    + rewrite dom_singleton_L. set_solver.
    + intros i c [-> <-]%list_lookup_singleton_Some. exists l. rewrite lookup_singleton_eq. split_and!; [done..|].
      intros j Hj. rewrite Hes by lia. f_equal. lia.
    + intros v. rewrite Hsome. simpl. lia.
  - rewrite Hfv. apply (seg_seqZ es 0 256). change (Z.of_nat 256) with 256. intros v Hv.
    destruct (Hl (Z.to_nat v)) as (d & Hd & _ & Hnd); [lia|]. exists d. rewrite Hes by done. split; [done|].
    rewrite Hnd. repeat case_decide; lia.
  - done.
  - cbn [app]. rewrite app_nil_r. split; [apply NoDup_seqZ| |by eauto].
    intros v. rewrite elem_of_seqZ. split.
    + intros Hv. destruct (proj2 (Hsome v)) as [e He]; [lia|]. eauto.
    + intros (e & He & _). apply Hsome. by eexists.
  - by rewrite Hh, map_size_empty.
  - done.
  - done.
Qed.

Section Lifetime.
Context (allocate : kind → nat → memory → option Z) (garbage : nat → list PH_HANDLE_TABLE_ENTRY).
Context (uninitialized : PH_HANDLE_TABLE).
Context (Hallocate : allocator_ok allocate) (Hgarbage : garbage_ok garbage).

Lemma wp_create_table s Q :
  Table s = None → Mem s = Memory ∅ ∅ ∅ →
  (∀ s', refused allocate → Table s' = None → Mem s' = Memory ∅ ∅ ∅ → Q false s') →
  (∀ s' t b es, good false s' t [b] es [] (seqZ 0 256) [] → handles es = ∅ → Flags t = 0 → NextValue t = 256 → Q true s') →
  wp (PhCreateHandleTable allocate garbage uninitialized) Q s.
Proof using Hallocate Hgarbage.
  intros Ht Hm Hno Hyes. apply wp_bind. eexists _, _. split; [done|].
  destruct (allocate _ _ _) as [a|] eqn:Ha; [|apply wp_ret, Hno; [by eexists _, _, _|done..]].
  apply wp_bind, wp_get. apply wp_bind, wp_put. cbn [Table Mem attempts].
  apply wp_bind. eapply wp_set_table_value; [done|]. cbn [Table Mem attempts].
  apply wp_bind. eapply wp_set_table_value; [done|]. cbn [Table Mem attempts].
  apply wp_bind. eapply wp_set_table_value; [done|]. cbn [Table Mem attempts].
  apply wp_bind. eapply wp_create_level0; [done..|cbn; lia| |].
  - intros Href. apply wp_bind. eapply wp_set_table_value; [done|]. apply wp_bind. eapply wp_get_table; [done|].
    cbn [TableValue with_TableValue Z.eqb]. apply wp_bind. apply wp_bind. eapply wp_get_table; [done|].
    apply wp_bind, wp_get. apply wp_put. apply wp_ret. by apply Hno.
  - intros b l Hb0 Hb4 Hb Hfresh. cbn [NextValue with_Count with_NextValue] in Hfresh.
    unfold set_level0, after_attempt in *. cbn [Table Mem attempts] in *. rewrite Hm. cbn [level0 level1 level2].
    apply wp_bind. eapply wp_set_table_value; [done|]. cbn [Table Mem attempts].
    apply wp_bind. eapply wp_get_table; [done|].
    cbn [TableValue with_TableValue]. rewrite (proj2 (Z.eqb_neq b 0)) by done.
    do 5 (apply wp_bind; eapply wp_set_table_value; [done|]; cbn [Table Mem attempts]).
    apply wp_ret. eapply Hyes; [eapply good_initial; [exact Hb0|exact Hb4|exact Hfresh|done..]|apply free_handles_empty|done|done].
    + intros v e [_ He]%lookup_map_seqZ_Some. destruct Hfresh as [Hlen Hl]. pose proof (lookup_lt_Some _ _ _ He).
      destruct (Hl (Z.to_nat (v - 0))) as (d & Hd & Hfd & _); [lia|]. by simplify_eq.
Qed.

End Lifetime.

(** ** Destroying it *)

(** All blocks from [i] on in a block of pointers [pad c] are freed. *)
Lemma wp_free_level0_tables n : ∀ s i p c Q,
  level1 (Mem s) !! p = Some (pad c) → (length c ≤ 256)%nat → n = (256 - i)%nat → 0 ∉ c → NoDup c →
  (∀ b, b ∈ drop i c → b ∈ dom (level0 (Mem s))) →
  (∀ m0, dom m0 = dom (level0 (Mem s)) ∖ list_to_set (drop i c) → Q tt (set_level0 m0 s)) →
  wp (free_level0_tables n (Z.of_nat i) p) Q s.
Proof.
  induction n as [|n IH]; intros s i p c Q Hp Hlen Hn H0 Hnd Hin HQ; cbn [free_level0_tables].
  - apply wp_ret. specialize (HQ (level0 (Mem s))). rewrite drop_ge in HQ by lia.
    destruct s as [? [] ?]. apply HQ. set_solver.
  - destruct (decide (i < length c)%nat) as [Hi|Hi].
    + destruct (lookup_lt_is_Some_2 c i Hi) as [b Hb]. pose proof (drop_S _ _ _ Hb) as Hd.
      assert (b ≠ 0) as Hb0 by (intros ->; by apply H0; eapply list_elem_of_lookup_2).
      apply wp_bind. eapply wp_get_level1; [exact Hp|lia|by rewrite Nat2Z.id, pad_lookup|].
      rewrite (proj2 (Z.eqb_neq b 0)) by done.
      destruct (proj1 (elem_of_dom (level0 (Mem s)) b)) as [l Hl]; [apply Hin; rewrite Hd; apply list_elem_of_here|].
      apply wp_bind. eexists _, _. split; [unfold PhpFreeHandleTableLevel0; by rewrite Hl|].
      replace (Z.of_nat i + 1) with (Z.of_nat (S i)) by lia.
      assert (b ∉ drop (S i) c) as Hbd.
      { assert (NoDup (drop i c)) as Hnd' by (rewrite <-(take_drop i c) in Hnd; by apply NoDup_app in Hnd as (_ & _ & ?)). rewrite Hd in Hnd'. by apply NoDup_cons in Hnd' as [? _]. }
      apply (IH _ _ _ c); [done|done|lia|done|done| |].
      * intros b' Hb'. cbn [set_level0 Mem level0]. rewrite dom_delete_L, elem_of_difference, elem_of_singleton.
        split; [apply Hin; rewrite Hd; by right|]. by intros ->.
      * intros m0 Hm0. apply HQ. rewrite Hm0. cbn [set_level0 Mem level0]. rewrite dom_delete_L, Hd. cbn [list_to_set].
        by rewrite difference_difference_l_L.
    + apply wp_bind. eapply wp_get_level1; [exact Hp|lia|rewrite Nat2Z.id, pad_lookup_null; [done|lia]|].
      cbn [Z.eqb]. apply wp_ret. specialize (HQ (level0 (Mem s))). rewrite drop_ge in HQ by lia.
      destruct s as [? [] ?]. apply HQ. set_solver.
Qed.

Lemma chunk_drop {A} i (l : list A) : chunk i l ++ drop (256 * S i) l = drop (256 * i) l.
Proof. unfold chunk. replace (256 * S i)%nat with (256 * i + 256)%nat by lia. rewrite <-drop_drop. apply take_drop. Qed.

Lemma wp_free_level1_tables n : ∀ s i p ps bs Q,
  level2 (Mem s) !! p = Some (pad ps) → (length ps ≤ 256)%nat → n = (256 - i)%nat → 0 ∉ ps → NoDup ps → 0 ∉ bs → NoDup bs →
  (length bs ≤ 256 * length ps)%nat →
  (∀ j q, ps !! j = Some q → (i ≤ j)%nat → level1 (Mem s) !! q = Some (pad (chunk j bs))) →
  (∀ b, b ∈ drop (256 * i) bs → b ∈ dom (level0 (Mem s))) →
  (∀ m0 m1, dom m0 = dom (level0 (Mem s)) ∖ list_to_set (drop (256 * i) bs) →
     dom m1 = dom (level1 (Mem s)) ∖ list_to_set (drop i ps) → Q tt (set_level1 m1 (set_level0 m0 s))) →
  wp (free_level1_tables n (Z.of_nat i) p) Q s.
Proof.
  assert (∀ s i ps bs (Q : unit → ht_state → Prop), (length ps ≤ i)%nat → (length bs ≤ 256 * length ps)%nat →
    (∀ m0 m1, dom m0 = dom (level0 (Mem s)) ∖ list_to_set (drop (256 * i) bs) →
       dom m1 = dom (level1 (Mem s)) ∖ list_to_set (drop i ps) → Q tt (set_level1 m1 (set_level0 m0 s))) → Q tt s) as Hend.
  { intros s i ps bs Q Hi Hbs HQ. specialize (HQ (level0 (Mem s)) (level1 (Mem s))). rewrite !drop_ge in HQ by lia.
    destruct s as [? [] ?]. apply HQ; set_solver. }
  induction n as [|n IH]; intros s i p ps bs Q Hp Hlen Hn H0 Hnd H0b Hndb Hbs Hblk Hin HQ; cbn [free_level1_tables].
  { apply wp_ret. apply (Hend s i ps bs); [lia|done|done]. }
  destruct (decide (i < length ps)%nat) as [Hi|Hi].
  2:{ apply wp_bind. eapply wp_get_level2; [exact Hp|lia|rewrite Nat2Z.id, pad_lookup_null; [done|lia]|].
      cbn [Z.eqb]. apply wp_ret. apply (Hend s i ps bs); [lia|done|done]. }
  destruct (lookup_lt_is_Some_2 ps i Hi) as [q Hq]. pose proof (drop_S _ _ _ Hq) as Hd.
  assert (q ≠ 0) as Hq0 by (intros ->; by apply H0; eapply list_elem_of_lookup_2).
  assert (q ∉ drop (S i) ps) as Hqd.
  { rewrite <-(take_drop i ps), Hd in Hnd. apply NoDup_app in Hnd as (_ & _ & Hnd). by apply NoDup_cons in Hnd as [? _]. }
  pose proof (chunk_drop i bs) as Hcd.
  assert (∀ b, b ∈ chunk i bs → b ∈ bs) as Hcb by (intros b Hb; unfold chunk in Hb; rewrite <-(take_drop (256 * i) bs), elem_of_app; right; rewrite <-(take_drop 256 (drop (256 * i) bs)), elem_of_app; by left).
  assert (NoDup (chunk i bs ++ drop (256 * S i) bs)) as Hnd2.
  { rewrite Hcd. rewrite <-(take_drop (256 * i) bs) in Hndb. by apply NoDup_app in Hndb as (_ & _ & ?). }
  apply NoDup_app in Hnd2 as (Hndc & Hdisj & _).
  apply wp_bind. eapply wp_get_level2; [exact Hp|lia|by rewrite Nat2Z.id, pad_lookup|].
  rewrite (proj2 (Z.eqb_neq q 0)) by done.
  apply wp_bind. change 0 with (Z.of_nat 0).
  apply (wp_free_level0_tables _ _ _ _ (chunk i bs)); [by apply Hblk|rewrite chunk_length; lia|done|by intros ?%Hcb|done|..].
  { intros b Hb. rewrite drop_0 in Hb. apply Hin. rewrite <-Hcd, elem_of_app. by left. }
  intros m0 Hm0. rewrite drop_0 in Hm0.
  apply wp_bind. eapply wp_free_level1; [by apply Hblk|].
  replace (Z.of_nat i + 1) with (Z.of_nat (S i)) by lia.
  apply (IH _ _ _ ps bs); [done|done|lia|done..| | |]; cbn [set_level1 set_level0 Mem level0 level1].
  - intros j r Hr Hj. rewrite lookup_delete_ne; [by apply Hblk; [|lia]|].
    intros ->. apply Hqd. apply list_elem_of_lookup. exists (j - S i)%nat. rewrite lookup_drop. rewrite <-Hr. f_equal. lia.
  - intros b Hb. rewrite Hm0, elem_of_difference, elem_of_list_to_set. split; [|intros Hc; by apply (Hdisj b)].
    apply Hin. rewrite <-Hcd, elem_of_app. by right.
  - intros m0' m1' Hm0' Hm1'. apply (HQ m0' m1').
    + rewrite Hm0', Hm0, <-Hcd, list_to_set_app_L, difference_difference_l_L. done.
    + rewrite Hm1', dom_delete_L, Hd. cbn [list_to_set]. by rewrite difference_difference_l_L.
Qed.

Lemma wp_free_table s t Q :
  Table s = Some t → Q tt (HtState None (Mem s) (attempts s)) → wp free_table Q s.
Proof. intros Ht HQ. apply wp_bind, (wp_get_table _ t); [done|]. apply wp_bind, wp_get. by apply wp_put. Qed.

(** Every block is freed, and freed once. *)
Lemma wp_destroy_table s t bs es Q :
  rep s t bs es → (∀ s', Table s' = None → Mem s' = Memory ∅ ∅ ∅ → Q tt s') → wp PhDestroyHandleTable Q s.
Proof.
  intros Hrep HQ. pose proof Hrep as [Ht Hlay Hn]. pose proof Hlay as [Hlev Hnd Hadr Hdom Hblk Hent].
  assert (0 ∉ bs) as H0 by (by intros [? _]%Hadr).
  apply wp_bind, (wp_get_table _ t); [done|]. apply wp_bind.
  remember (TableValue t) as tv eqn:Htv.
  destruct Hlev as [b0 Hbs0 Hm1 Hm2 | p H2 Hp Hps Hm2 | p ps Hlen Hp Hp0 Hps Hm2]; symmetry in Htv.
  - destruct (table_parts t 0 b0) as [-> ->]; [lia|apply Hadr; set_solver|lia|].
    destruct (Hblk 0%nat b0) as (l & Hl & _); [by subst bs|]. cbn [Z.eqb].
    eexists tt, _. split; [unfold PhpFreeHandleTableLevel0; by rewrite Hl|].
    eapply wp_free_table; [done|]. apply HQ; [done|]. unfold set_level0. cbn [Mem level0 level1 level2].
    rewrite Hm1, Hm2. f_equal. apply dom_empty_iff_L. rewrite dom_delete_L, Hdom. set_solver.
  - destruct (table_parts t 1 p) as [-> ->]; [done..|]. cbn [Z.eqb].
    pose proof (pointers_count _ _ _ Hps) as Hc. simpl in Hc.
    pose proof (pointers_block _ _ _ Hps 0 p eq_refl) as Hpb. rewrite chunk_all in Hpb by lia.
    apply wp_bind. change 0 with (Z.of_nat 0). eapply wp_free_level0_tables; [exact Hpb|lia|done|done|done|..].
    { intros b Hb. rewrite drop_0 in Hb. by rewrite Hdom, elem_of_list_to_set. }
    intros m0 Hm0. rewrite drop_0, Hdom, difference_diag_L in Hm0.
    eapply wp_free_level1; [exact Hpb|]. eapply wp_free_table; [done|]. apply HQ; [done|].
    unfold set_level0, set_level1. cbn [Mem level0 level1 level2]. rewrite Hm2. f_equal; [by apply dom_empty_iff_L|].
    apply dom_empty_iff_L. rewrite dom_delete_L, (pointers_dom _ _ _ Hps). set_solver.
  - destruct (table_parts t 2 p) as [-> ->]; [done..|]. cbn [Z.eqb].
    pose proof (pointers_count _ _ _ Hps) as Hc.
    assert (level2 (Mem s) !! p = Some (pad ps)) as Hpp by (by rewrite Hm2, lookup_singleton_eq).
    apply wp_bind. change 0 with (Z.of_nat 0).
    eapply wp_free_level1_tables; [exact Hpp|lia|done|apply Hps|apply Hps|done|done|lia|..].
    { intros j q Hq _. by apply (pointers_block _ _ _ Hps). }
    { intros b Hb. rewrite Nat.mul_0_r, drop_0 in Hb. by rewrite Hdom, elem_of_list_to_set. }
    intros m0 m1 Hm0 Hm1. rewrite Nat.mul_0_r, drop_0, Hdom, difference_diag_L in Hm0.
    rewrite drop_0, (pointers_dom _ _ _ Hps), difference_diag_L in Hm1.
    eapply wp_free_level2; [exact Hpp|]. eapply wp_free_table; [done|]. apply HQ; [done|].
    unfold set_level0, set_level1, set_level2. cbn [Mem level0 level1 level2].
    f_equal; [by apply dom_empty_iff_L|by apply dom_empty_iff_L|]. rewrite Hm2. apply delete_singleton_eq.
Qed.

(** ** Enumeration *)

(** Calling the callback on a list until it says to stop. *)
Fixpoint visit {C} (Callback : C → Z → PH_HANDLE_TABLE_ENTRY → bool * C) (c : C) (l : list (Z * PH_HANDLE_TABLE_ENTRY)) : C :=
  match l with
  | [] => c
  | (h, e) :: l => let '(cont, c) := Callback c h e in if cont : bool then visit Callback c l else c
  end.

(** The handles among [l], in the order of [l]. *)
Definition open_among (m : gmap Z PH_HANDLE_TABLE_ENTRY) (f : PH_HANDLE_TABLE_ENTRY → PH_HANDLE_TABLE_ENTRY) (l : list Z) :
    list (Z * PH_HANDLE_TABLE_ENTRY) :=
  omap (λ v, (λ e, (PhpEncodeHandle v, f e)) <$> m !! v) l.

Lemma open_among_cons m f v l :
  open_among m f (v :: l) =
  match m !! v with Some e => (PhpEncodeHandle v, f e) :: open_among m f l | None => open_among m f l end.
Proof. unfold open_among. cbn [omap list_omap]. by destruct (m !! v). Qed.

Section Enumeration.
Context {C : Type} (Callback : C → Z → PH_HANDLE_TABLE_ENTRY → bool * C).
Context (lk : bool) (t : PH_HANDLE_TABLE) (bs : list Z) (es : gmap Z PH_HANDLE_TABLE_ENTRY) (held main alt : list Z).

Lemma wp_enum_handles fuel : ∀ s v c,
  good lk s t bs es held main alt → (∀ w e, handles es !! w = Some e → is_unlocked e) → 0 ≤ v ≤ NextValue t →
  (Z.to_nat (NextValue t - v) < fuel)%nat →
  wp (enum_handles fuel Callback c v)
    (λ c' s', c' = visit Callback c (open_among (handles es) lock_entry (seqZ v (NextValue t - v))) ∧
       good lk s' t bs es held main alt) s.
Proof using Type.
  induction fuel as [|fuel IH]; intros s v c Hgood Hun Hv Hf; [lia|]. cbn [enum_handles].
  pose proof (good_rep _ _ _ _ _ _ _ _ Hgood) as Hrep. pose proof (rep_bound _ _ _ _ Hrep) as Hnb.
  apply wp_bind. eapply wp_lookup_value; [done|lia|..].
  { intros Hn. assert (¬ (v < NextValue t)) as Hge.
    { intros Hlt. destruct (proj2 (rep_entries _ _ _ _ v Hrep)) as [d Hd]; [lia|]. congruence. }
    apply wp_ret. by replace (NextValue t - v) with 0 by lia. }
  intros e He. pose proof (rep_entry_bound _ _ _ _ _ _ Hrep He) as Hb.
  rewrite (seqZ_cons v) by lia. rewrite open_among_cons. rewrite u32_small by lia.
  replace (Z.pred (NextValue t - v)) with (NextValue t - (v + 1)) by lia. change (Z.succ v) with (v + 1).
  apply wp_bind. destruct (handles es !! v) as [d|] eqn:Hd.
  - pose proof (Hun _ _ Hd) as Hu. pose proof Hd as [Hd' Hhd]%handles_lookup. assert (d = e) as -> by congruence.
    eapply wp_lock_unlocked; [done..|]. intros s1 Hrep1.
    destruct (good_write _ _ s1 _ _ _ _ _ _ _ e _ Hgood He Hhd (locked_handle _ (lock_entry_locked _ Hu)) Hrep1) as [Hg1 _].
    apply wp_bind. eapply wp_get_handle_entry; [done|by rewrite lookup_insert_eq|]. cbn [visit].
    destruct (Callback c _ _) as [cont c1]. apply wp_bind. eapply wp_unlock; [done|by rewrite lookup_insert_eq|].
    rewrite insert_insert_eq, unlock_lock, insert_id by done. intros s2 Hrep2.
    assert (good lk s2 t bs es held main alt) as Hg2 by (destruct Hgood; by split).
    destruct cont; [apply IH; [done|done|lia|lia]|by apply wp_ret].
  - eapply wp_lock_free; [done..|by eapply handles_entry|]. apply IH; [done|done|lia|lia].
Qed.

Lemma wp_sweep_handles fuel : ∀ s v c,
  good lk s t bs es held main alt → 0 ≤ v ≤ NextValue t → (Z.to_nat (NextValue t - v) < fuel)%nat →
  wp (sweep_handles fuel Callback c v)
    (λ c' s', c' = visit Callback c (open_among (handles es) id (seqZ v (NextValue t - v))) ∧
       good lk s' t bs es held main alt) s.
Proof using Type.
  induction fuel as [|fuel IH]; intros s v c Hgood Hv Hf; [lia|]. cbn [sweep_handles].
  pose proof (good_rep _ _ _ _ _ _ _ _ Hgood) as Hrep. pose proof (rep_bound _ _ _ _ Hrep) as Hnb.
  apply wp_bind. eapply wp_lookup_value; [done|lia|..].
  { intros Hn. assert (¬ (v < NextValue t)) as Hge.
    { intros Hlt. destruct (proj2 (rep_entries _ _ _ _ v Hrep)) as [d Hd]; [lia|]. congruence. }
    apply wp_ret. by replace (NextValue t - v) with 0 by lia. }
  intros e He. pose proof (rep_entry_bound _ _ _ _ _ _ Hrep He) as Hb.
  rewrite (seqZ_cons v) by lia. rewrite open_among_cons. rewrite u32_small by lia.
  replace (Z.pred (NextValue t - v)) with (NextValue t - (v + 1)) by lia. change (Z.succ v) with (v + 1).
  apply wp_bind. eapply wp_get_handle_entry; [done..|].
  change (TypeAndValue_Type e =? PH_HANDLE_TABLE_ENTRY_IN_USE) with (Value e mod 2 =? 0).
  destruct (handles es !! v) as [d|] eqn:Hd.
  - pose proof Hd as [Hd' Hhd]%handles_lookup. assert (d = e) as -> by congruence. rewrite Hhd. cbn [visit Z.eqb id].
    destruct (Callback c _ _) as [cont c1]. destruct cont; [apply IH; [done|lia|lia]|by apply wp_ret].
  - rewrite (proj2 (Z.eqb_neq _ _)); [apply IH; [done|lia|lia]|].
    intros Hh. by apply (handles_none es v e).
Qed.

End Enumeration.

(** The handles in increasing order. *)
Lemma open_among_all m n (f : PH_HANDLE_TABLE_ENTRY → PH_HANDLE_TABLE_ENTRY) :
  (∀ v, is_Some (m !! v) → 0 ≤ v < n) →
  open_among m f (seqZ 0 n) ≡ₚ (λ '(v, e), (PhpEncodeHandle v, f e)) <$> map_to_list m.
Proof.
  intros Hm.
  assert (∀ l, NoDup l → (∀ v, is_Some (m !! v) → v ∈ l) →
    omap (λ v, (v,.) <$> m !! v) l ≡ₚ map_to_list m) as Hperm.
  { intros l Hl Hin. apply NoDup_Permutation.
    - clear Hin. induction Hl as [|v l Hv Hl IH]; [constructor|]. cbn [omap list_omap].
      destruct (m !! v) as [e|]; [|done]. cbn [fmap option_fmap option_map]. constructor; [|done].
      rewrite list_elem_of_omap. intros (w & Hw & Hwe). destruct (m !! w); simplify_eq/=. done.
    - apply NoDup_map_to_list.
    - intros [v e]. rewrite list_elem_of_omap, elem_of_map_to_list. split.
      + intros (w & _ & Hw). destruct (m !! w) eqn:E; simplify_eq/=. done.
      + intros He. exists v. split; [apply Hin; by eexists|]. by rewrite He. }
  rewrite <-(Hperm (seqZ 0 n)).
  - unfold open_among. induction (seqZ 0 n) as [|v l IH]; [done|]. cbn [omap list_omap].
    destruct (m !! v); cbn [fmap option_fmap option_map list_fmap]; [by f_equiv|done].
  - apply NoDup_seqZ.
  - intros v Hv%Hm. apply elem_of_seqZ. lia.
Qed.
