(* ===== verification/HandleTableTheorems.v ===== *)
(** Handle tables: the properties. Any sequence of calls agrees with a finite map
    and ends without a leak; the order in which handles are reused; how many there
    can be; and when a call blocks. *)

From S2P Require Import Prelude HandleTable HandleTableFacts HandleTableLists HandleTableOps.

(** ** Sequences of calls *)

Inductive handle_op : Type :=
  | OpCreate (e : PH_HANDLE_TABLE_ENTRY)
  | OpLookup (h : Z)
  | OpDestroy (h : Z)
  | OpLookupDestroy (h : Z)
  | OpSetFlags (flags length : Z)
  | OpQuery
  | OpEnum
  | OpSweep.

Inductive handle_result : Type :=
  | ResultHandle (h : Z)
  | ResultEntry (e : option PH_HANDLE_TABLE_ENTRY)
  | ResultBool (b : bool)
  | ResultStatus (status : NTSTATUS)
  | ResultInformation (i : NTSTATUS * Z * option information)
  | ResultList (l : list (Z * PH_HANDLE_TABLE_ENTRY)).

(** A callback that collects what it is called on. *)
Definition collect (l : list (Z * PH_HANDLE_TABLE_ENTRY)) (h : Z) (e : PH_HANDLE_TABLE_ENTRY) :
  bool * list (Z * PH_HANDLE_TABLE_ENTRY) := (true, l ++ [(h, e)]).

Section Scripts.
Context (allocate : kind → nat → memory → option Z) (garbage : nat → list PH_HANDLE_TABLE_ENTRY).
Context (uninitialized : PH_HANDLE_TABLE) (held_by_others : ht_state → Z → bool).

(** [OpLookup] reads the entry it has locked and unlocks it; [OpLookupDestroy]
    passes it to [PhDestroyHandle]. *)
Definition run_handle_op (op : handle_op) : ST ht_state handle_result :=
  match op with
  | OpCreate e => h ← PhCreateHandle allocate garbage e; mret (ResultHandle h)
  | OpLookup h =>
      p ← PhLookupHandleTableEntry h;
      match p with
      | None => mret (ResultEntry None)
      | Some p => e ← get_entry p; PhUnlockHandleTableEntry p ;; mret (ResultEntry (Some e))
      end
  | OpDestroy h => b ← PhDestroyHandle held_by_others h None; mret (ResultBool b)
  | OpLookupDestroy h =>
      p ← PhLookupHandleTableEntry h;
      match p with
      | None => mret (ResultBool false)
      | Some p => b ← PhDestroyHandle held_by_others h (Some p); mret (ResultBool b)
      end
  | OpSetFlags flags length => st ← PhSetInformationHandleTable HandleTableFlagsInformation flags length; mret (ResultStatus st)
  | OpQuery => i ← PhQueryInformationHandleTable HandleTableBasicInformation 12; mret (ResultInformation i)
  | OpEnum => l ← PhEnumHandleTable collect []; mret (ResultList l)
  | OpSweep => l ← PhSweepHandleTable collect []; mret (ResultList l)
  end.

(** The calls between creating a table and destroying it; [None] if no table could
    be created. *)
Definition run_handle_script (ops : list handle_op) : ST ht_state (option (list handle_result)) :=
  created ← PhCreateHandleTable allocate garbage uninitialized;
  if created : bool then
    rs ← mapM run_handle_op ops;
    PhDestroyHandleTable ;;
    mret (Some rs)
  else mret None.

End Scripts.

(** ** The specification: a finite map from handle values to entries, and flags *)

Definition handle_map : Type := gmap Z PH_HANDLE_TABLE_ENTRY * Z.

Definition by_handle (p q : Z * PH_HANDLE_TABLE_ENTRY) : Prop := p.1 < q.1.

(** Everything open, in the order of the handles; [f] is how an entry is seen. *)
Definition lists_handles (f : PH_HANDLE_TABLE_ENTRY → PH_HANDLE_TABLE_ENTRY) (m : gmap Z PH_HANDLE_TABLE_ENTRY)
    (l : list (Z * PH_HANDLE_TABLE_ENTRY)) : Prop :=
  l ≡ₚ (λ '(v, e), (PhpEncodeHandle v, f e)) <$> map_to_list m ∧ StronglySorted by_handle l.

(** [full m]: a handle may be refused. *)
Inductive handle_step (full : gmap Z PH_HANDLE_TABLE_ENTRY → Prop) : handle_map → handle_op → handle_result → handle_map → Prop :=
  | step_create m fl e v :
      m !! v = None → 0 ≤ v < 2 ^ 24 →
      handle_step full (m, fl) (OpCreate e) (ResultHandle (PhpEncodeHandle v)) (<[v := created_entry e]> m, fl)
  | step_create_fails m fl e : full m → handle_step full (m, fl) (OpCreate e) (ResultHandle 0) (m, fl)
  | step_lookup m fl h :
      handle_step full (m, fl) (OpLookup h) (ResultEntry (lock_entry <$> m !! PhpDecodeHandle h)) (m, fl)
  | step_destroy m fl h op :
      op = OpDestroy h ∨ op = OpLookupDestroy h →
      handle_step full (m, fl) op (ResultBool (bool_decide (is_Some (m !! PhpDecodeHandle h)))) (delete (PhpDecodeHandle h) m, fl)
  | step_set_flags m fl fl' :
      fl' = 0 ∨ fl' = PH_HANDLE_TABLE_STRICT_FIFO →
      handle_step full (m, fl) (OpSetFlags fl' 4) (ResultStatus STATUS_SUCCESS) (m, fl')
  | step_set_flags_invalid m fl fl' :
      fl' ≠ 0 → fl' ≠ PH_HANDLE_TABLE_STRICT_FIFO →
      handle_step full (m, fl) (OpSetFlags fl' 4) (ResultStatus STATUS_INVALID_PARAMETER) (m, fl)
  | step_set_flags_length m fl fl' n :
      n ≠ 4 → handle_step full (m, fl) (OpSetFlags fl' n) (ResultStatus STATUS_INFO_LENGTH_MISMATCH) (m, fl)
  | step_query m fl level :
      0 ≤ level ≤ 2 → Z.of_nat (size m) ≤ 256 ^ (level + 1) →
      handle_step full (m, fl) OpQuery
        (ResultInformation (STATUS_SUCCESS, 12, Some (BasicInformation (Z.of_nat (size m)) fl level))) (m, fl)
  | step_enum m fl l : lists_handles lock_entry m l → handle_step full (m, fl) OpEnum (ResultList l) (m, fl)
  | step_sweep m fl l : lists_handles id m l → handle_step full (m, fl) OpSweep (ResultList l) (m, fl).

Inductive handle_steps (full : gmap Z PH_HANDLE_TABLE_ENTRY → Prop) : handle_map → list handle_op → list handle_result → handle_map → Prop :=
  | handle_steps_nil m : handle_steps full m [] [] m
  | handle_steps_cons m op r m' ops rs m'' :
      handle_step full m op r m' → handle_steps full m' ops rs m'' → handle_steps full m (op :: ops) (r :: rs) m''.

(** The table that a state holds. *)
Definition table_holds (s : ht_state) (m : handle_map) : Prop :=
  ∃ t bs es main alt, good false s t bs es [] main alt ∧ handles es = m.1 ∧ Flags t = m.2.

Definition all_unlocked (m : gmap Z PH_HANDLE_TABLE_ENTRY) : Prop := ∀ v e, m !! v = Some e → is_unlocked e.

(** When [PhCreateHandle] may return [NULL]. *)
Definition no_room (allocate : kind → nat → memory → option Z) (m : gmap Z PH_HANDLE_TABLE_ENTRY) : Prop :=
  refused allocate ∨ Z.of_nat (size m) = 2 ^ 24.

(** ** One call *)

Lemma unlocked_insert m v e : all_unlocked m → is_unlocked e → all_unlocked (<[v := e]> m).
Proof.
  intros Hm He w d. destruct (decide (v = w)) as [->|Hne]; [rewrite lookup_insert_eq; naive_solver|].
  rewrite lookup_insert_ne by done. apply Hm.
Qed.

Lemma unlocked_delete m v : all_unlocked m → all_unlocked (delete v m).
Proof. intros Hm w d [_ Hd]%lookup_delete_Some. by eapply Hm. Qed.

Lemma full_size s t bs es : good false s t bs es [] [] [] → NextValue t = 2 ^ 24 → Z.of_nat (size (handles es)) = 2 ^ 24.
Proof. intros Hg Hn. pose proof (good_handles_bound _ _ _ _ _ _ _ _ Hg) as Hb. simpl in Hb. lia. Qed.

(** The level of the table bounds its size. *)
Lemma level_bound lk s t bs es held main alt :
  good lk s t bs es held main alt →
  0 ≤ Z.land (TableValue t) PH_HANDLE_TABLE_LEVEL_MASK ≤ 2 ∧
  Z.of_nat (size (handles es)) ≤ 256 ^ (Z.land (TableValue t) PH_HANDLE_TABLE_LEVEL_MASK + 1).
Proof.
  intros Hg. pose proof (good_handles_bound _ _ _ _ _ _ _ _ Hg) as Hb.
  destruct (good_rep _ _ _ _ _ _ _ _ Hg) as [_ Hlay Hn].
  destruct Hlay as [Hlev Hnd Hadr Hdom Hblk Hent]. remember (TableValue t) as tv eqn:Htv.
  destruct Hlev as [b0 Hbs0 Hm1 Hm2 | p H2 Hp Hps Hm2 | p ps Hlen Hp Hp0 Hps Hm2]; symmetry in Htv.
  - replace b0 with (b0 + 0) by lia. rewrite level_of; [|apply Hadr; set_solver|lia].
    subst bs. simpl in Hn. split; [lia|]. change (256 ^ (0 + 1)) with 256. lia.
  - rewrite level_of by done. pose proof (pointers_count _ _ _ Hps) as Hc. simpl in Hc.
    split; [lia|]. change (256 ^ (1 + 1)) with 65536. lia.
  - rewrite level_of by done. pose proof (rep_bound _ _ _ _ (good_rep _ _ _ _ _ _ _ _ Hg)).
    split; [lia|]. change (256 ^ (2 + 1)) with (2 ^ 24). lia.
Qed.

Lemma visit_collect l c : visit collect c l = c ++ l.
Proof.
  revert c. induction l as [|[h e] l IH]; intros c; cbn [visit collect]; [by rewrite app_nil_r|].
  by rewrite IH, <-app_assoc.
Qed.

(** The list that an enumeration collects. *)
Lemma open_among_lists lk s t bs es held main alt f :
  good lk s t bs es held main alt → lists_handles f (handles es) (open_among (handles es) f (seqZ 0 (NextValue t))).
Proof.
  intros Hg. pose proof (good_rep _ _ _ _ _ _ _ _ Hg) as Hrep. pose proof (rep_bound _ _ _ _ Hrep) as Hnb. split.
  - apply open_among_all. intros v [e [He _]%handles_lookup]. by eapply rep_entry_bound.
  - assert (∀ n a, 0 ≤ a → a + Z.of_nat n ≤ 2 ^ 24 → StronglySorted by_handle (open_among (handles es) f (seqZ a (Z.of_nat n))) ∧
      Forall (λ p, PhpEncodeHandle a ≤ p.1) (open_among (handles es) f (seqZ a (Z.of_nat n)))) as Hs.
    { induction n as [|n IH]; intros a Ha Hn; [split; constructor|].
      rewrite seqZ_cons by lia. replace (Z.pred (Z.of_nat (S n))) with (Z.of_nat n) by lia. change (Z.succ a) with (a + 1).
      destruct (IH (a + 1)) as [IH1 IH2]; [lia..|].
      assert (Forall (λ p, PhpEncodeHandle a < p.1) (open_among (handles es) f (seqZ (a + 1) (Z.of_nat n)))) as Hlt.
      { destruct n as [|n]; [constructor|]. eapply Forall_impl; [exact IH2|]. intros p Hp. cbv beta in *.
        rewrite !encode_value in * by lia. lia. }
      rewrite open_among_cons. destruct (handles es !! a) as [e|].
      - split; [by constructor|]. constructor; [done|]. eapply Forall_impl; [exact Hlt|]. intros p Hp. cbv beta in *. lia.
      - split; [done|]. eapply Forall_impl; [exact Hlt|]. intros p Hp. cbv beta in *. lia. }
    destruct (Hs (Z.to_nat (NextValue t)) 0) as [Hs' _]; [lia..|]. by rewrite Z2Nat.id in Hs' by lia.
Qed.

Lemma flags_valid fl : Z.land fl PH_HANDLE_TABLE_VALID_FLAGS = fl ↔ fl = 0 ∨ fl = PH_HANDLE_TABLE_STRICT_FIFO.
Proof.
  rewrite (land_pow2 fl 1 ltac:(done) : Z.land fl PH_HANDLE_TABLE_VALID_FLAGS = _).
  unfold PH_HANDLE_TABLE_STRICT_FIFO. split; [Z.to_euclidean_division_equations; lia|by intros [->| ->]].
Qed.

Section Calls.
Context (allocate : kind → nat → memory → option Z) (garbage : nat → list PH_HANDLE_TABLE_ENTRY).
Context (uninitialized : PH_HANDLE_TABLE) (held_by_others : ht_state → Z → bool).
Context (Hallocate : allocator_ok allocate) (Hgarbage : garbage_ok garbage).

(** A call does what the specification says. *)
Definition meets (m : handle_map) (op : handle_op) (s : ht_state) : Prop :=
  wp (run_handle_op allocate garbage held_by_others op)
    (λ r s', ∃ m', handle_step (no_room allocate) m op r m' ∧ table_holds s' m' ∧ all_unlocked m'.1) s.

Lemma meets_create m fl e s : table_holds s (m, fl) → all_unlocked m → meets (m, fl) (OpCreate e) s.
Proof using Hallocate Hgarbage.
  intros (t & bs & es & main & alt & Hg & Hm & Hfl) Hun. cbn [fst snd] in Hm, Hfl. subst m fl. apply wp_bind. eapply wp_create_handle; [done..| |].
  - intros s' t' bs' es' -> -> Hwhy Hg' Hh Hn Hf. apply wp_ret. exists (handles es, Flags t). split; [|split; [|done]].
    + apply step_create_fails. destruct Hwhy as [?|Hfull]; [by left|right]. rewrite <-Hh.
      eapply full_size; [exact Hg'|]. by rewrite Hn.
    + by exists t', bs', es', [], [].
  - intros s' t' bs' es' v main' alt' _ Hg' Hv Hnone Hh Hf. apply wp_ret. exists (<[v := created_entry e]> (handles es), Flags t).
    split_and!; [by apply step_create| |by apply unlocked_insert, created_unlocked]. by exists t', bs', es', main', alt'.
Qed.

Lemma meets_lookup m fl h s : table_holds s (m, fl) → all_unlocked m → meets (m, fl) (OpLookup h) s.
Proof using Type.
  intros (t & bs & es & main & alt & Hg & Hm & Hfl) Hun. cbn [fst snd] in Hm, Hfl. subst m fl. apply wp_bind. eapply wp_lookup_handle; [done|..].
  - intros Hn. apply wp_ret. exists (handles es, Flags t). split; [|split; [|done]].
    + pose proof (step_lookup (no_room allocate) (handles es) (Flags t) h) as Hs. by rewrite Hn in Hs.
    + by exists t, bs, es, main, alt.
  - intros e He. pose proof (Hun _ _ He) as Hu. split; [done|]. intros s' Hg' Hh'.
    pose proof (good_rep _ _ _ _ _ _ _ _ Hg') as Hrep'.
    apply wp_bind. eapply wp_get_handle_entry; [done|by rewrite lookup_insert_eq|].
    apply wp_bind. eapply wp_unlock; [done|by rewrite lookup_insert_eq|].
    pose proof He as [He' _]%handles_lookup. rewrite insert_insert_eq, unlock_lock, insert_id by done. intros s2 Hrep2.
    apply wp_ret. exists (handles es, Flags t). split; [|split; [|done]].
    + pose proof (step_lookup (no_room allocate) (handles es) (Flags t) h) as Hs. by rewrite He in Hs.
    + exists t, bs, es, main, alt. split_and!; [|done..]. destruct Hg. by split.
Qed.

Lemma meets_destroy m fl h s : table_holds s (m, fl) → all_unlocked m → meets (m, fl) (OpDestroy h) s.
Proof using Type.
  intros (t & bs & es & main & alt & Hg & Hm & Hfl) Hun. cbn [fst snd] in Hm, Hfl. subst m fl.
  pose proof (step_destroy (no_room allocate) (handles es) (Flags t) h (OpDestroy h) ltac:(by left)) as Hs.
  apply wp_bind. eapply wp_destroy_handle; [done|..].
  - intros Hn. apply wp_ret. exists (handles es, Flags t). rewrite Hn, delete_id in Hs by done.
    split; [done|]. split; [|done]. by exists t, bs, es, main, alt.
  - intros e He. pose proof (Hun _ _ He) as Hu. split; [done|]. intros s' t' es' main' alt' Hg' Hh' _ Hf' _. apply wp_ret.
    rewrite He in Hs. eexists. split; [exact Hs|]. split; [|by apply unlocked_delete]. by exists t', bs, es', main', alt'.
Qed.

Lemma meets_lookup_destroy m fl h s : table_holds s (m, fl) → all_unlocked m → meets (m, fl) (OpLookupDestroy h) s.
Proof using Type.
  intros (t & bs & es & main & alt & Hg & Hm & Hfl) Hun. cbn [fst snd] in Hm, Hfl. subst m fl.
  pose proof (step_destroy (no_room allocate) (handles es) (Flags t) h (OpLookupDestroy h) ltac:(by right)) as Hs.
  apply wp_bind. eapply wp_lookup_handle; [done|..].
  - intros Hn. apply wp_ret. exists (handles es, Flags t). rewrite Hn, delete_id in Hs by done.
    split; [done|]. split; [|done]. by exists t, bs, es, main, alt.
  - intros e He. pose proof (Hun _ _ He) as Hu. split; [done|]. intros s1 Hg1 Hh1.
    apply wp_bind. eapply wp_destroy_locked; [exact Hg1|by rewrite lookup_insert_eq|by apply locked_handle, lock_entry_locked|].
    intros s' t' es' main' alt' Hg' Hh' _ Hf' _. apply wp_ret. rewrite Hh1, delete_insert_eq in Hh'.
    rewrite He in Hs. eexists. split; [exact Hs|]. split; [|by apply unlocked_delete]. by exists t', bs, es', main', alt'.
Qed.

Lemma meets_set_flags m fl fl' n s : table_holds s (m, fl) → all_unlocked m → meets (m, fl) (OpSetFlags fl' n) s.
Proof using Type.
  intros (t & bs & es & main & alt & Hg & Hm & Hfl) Hun. cbn [fst snd] in Hm, Hfl. subst m fl. pose proof Hg as [Hrep Hmain Halt Hacc Hcount Hlock Hlocks].
  assert (∀ s', good false s' t bs es [] main alt → table_holds s' (handles es, Flags t)) as Hsame
    by (intros; by exists t, bs, es, main, alt).
  unfold meets. cbn [run_handle_op]. unfold PhSetInformationHandleTable. rewrite Z.eqb_refl. apply wp_bind.
  destruct (Z.eqb_spec n 4) as [->|Hn].
  2:{ apply wp_ret, wp_ret. exists (handles es, Flags t). by split_and!; [apply step_set_flags_length|apply Hsame|]. }
  destruct (Z.eqb_spec (Z.land fl' PH_HANDLE_TABLE_VALID_FLAGS) fl') as [Hv|Hv].
  - apply wp_bind. eapply wp_update_table; [done..|]. intros s' Hrep'. apply wp_ret, wp_ret.
    exists (handles es, fl'). split_and!; [by apply step_set_flags, flags_valid| |done].
    exists (with_Flags t fl'), bs, es, main, alt. by split_and!.
  - apply wp_ret, wp_ret. exists (handles es, Flags t). split_and!; [|by apply Hsame|done].
    apply step_set_flags_invalid; intros ->; apply Hv; by apply flags_valid; auto.
Qed.

Lemma meets_query m fl s : table_holds s (m, fl) → all_unlocked m → meets (m, fl) OpQuery s.
Proof using Type.
  intros (t & bs & es & main & alt & Hg & Hm & Hfl) Hun. cbn [fst snd] in Hm, Hfl. subst m fl. apply wp_bind. apply wp_bind. eapply wp_get_table; [apply Hg|].
  apply wp_ret, wp_ret. cbn [Z.eqb HandleTableBasicInformation]. pose proof (level_bound _ _ _ _ _ _ _ _ Hg) as [Hl1 Hl2].
  rewrite (good_count _ _ _ _ _ _ _ _ Hg). cbn [length]. rewrite Z.add_0_r.
  exists (handles es, Flags t). split_and!; [by apply step_query| |done]. by exists t, bs, es, main, alt.
Qed.

Lemma meets_enum m fl s : table_holds s (m, fl) → all_unlocked m → meets (m, fl) OpEnum s.
Proof using Type.
  intros (t & bs & es & main & alt & Hg & Hm & Hfl) Hun. cbn [fst snd] in Hm, Hfl. subst m fl. apply wp_bind. apply wp_bind. eapply wp_get_table; [apply Hg|].
  pose proof (rep_bound _ _ _ _ (good_rep _ _ _ _ _ _ _ _ Hg)) as Hnb.
  eapply wp_mono; [by eapply wp_enum_handles; [done|done|lia|lia]|]. intros l s' [-> Hg']. rewrite visit_collect, Z.sub_0_r.
  apply wp_ret. exists (handles es, Flags t). split_and!; [by apply step_enum; eapply open_among_lists| |done].
  by exists t, bs, es, main, alt.
Qed.

Lemma meets_sweep m fl s : table_holds s (m, fl) → all_unlocked m → meets (m, fl) OpSweep s.
Proof using Type.
  intros (t & bs & es & main & alt & Hg & Hm & Hfl) Hun. cbn [fst snd] in Hm, Hfl. subst m fl. apply wp_bind. apply wp_bind. eapply wp_get_table; [apply Hg|].
  pose proof (rep_bound _ _ _ _ (good_rep _ _ _ _ _ _ _ _ Hg)) as Hnb.
  eapply wp_mono; [by eapply wp_sweep_handles; [done|lia|lia]|]. intros l s' [-> Hg']. rewrite visit_collect, Z.sub_0_r.
  apply wp_ret. exists (handles es, Flags t). split_and!; [by apply step_sweep; eapply open_among_lists| |done].
  by exists t, bs, es, main, alt.
Qed.

Lemma meets_all m fl op s : table_holds s (m, fl) → all_unlocked m → meets (m, fl) op s.
Proof using Hallocate Hgarbage.
  destruct op; [apply meets_create|apply meets_lookup|apply meets_destroy|apply meets_lookup_destroy|
    apply meets_set_flags|apply meets_query|apply meets_enum|apply meets_sweep].
Qed.

Lemma wp_run_ops ops : ∀ s m,
  table_holds s m → all_unlocked m.1 →
  wp (mapM (run_handle_op allocate garbage held_by_others) ops)
    (λ rs s', ∃ m', handle_steps (no_room allocate) m ops rs m' ∧ table_holds s' m') s.
Proof using Hallocate Hgarbage.
  induction ops as [|op ops IH]; intros s m Hs Hun; cbn [mapM].
  - apply wp_ret. exists m. split; [constructor|done].
  - apply wp_bind. destruct m as [m fl]. eapply wp_mono; [by apply meets_all|].
    intros r s1 (m1 & Hstep & Hs1 & Hun1). apply wp_bind. eapply wp_mono; [by apply IH|].
    intros rs s2 (m2 & Hsteps & Hs2). apply wp_ret. exists m2. split; [by econstructor|done].
Qed.

Lemma wp_run_script ops s :
  Table s = None → Mem s = Memory ∅ ∅ ∅ →
  wp (run_handle_script allocate garbage uninitialized held_by_others ops)
    (λ r s', Table s' = None ∧ Mem s' = Memory ∅ ∅ ∅ ∧
       match r with
       | None => refused allocate
       | Some rs => ∃ m, handle_steps (no_room allocate) (∅, 0) ops rs m
       end) s.
Proof using Hallocate Hgarbage.
  intros Ht Hm. apply wp_bind. eapply wp_create_table; [done..|intros; by apply wp_ret|].
  intros s1 t b es Hg Hh Hf Hn. apply wp_bind. eapply wp_mono.
  { eapply (wp_run_ops ops s1 (∅, 0)); [by exists t, [b], es, (seqZ 0 256), []|intros v e Hv; cbn [fst] in Hv; by rewrite lookup_empty in Hv]. }
  intros rs s2 (m & Hsteps & (t2 & bs2 & es2 & main2 & alt2 & Hg2 & _)).
  apply wp_bind. eapply wp_destroy_table; [apply Hg2|]. intros s3 Ht3 Hm3. apply wp_ret. eauto.
Qed.

End Calls.

(** ** Reuse of handles in strict order *)

(** The state of the specification: the open handles, the number of entries, and
    the free entries in the order in which they will be used. *)
Definition fifo_state : Type := gmap Z PH_HANDLE_TABLE_ENTRY * Z * list Z.

Inductive fifo_step (full : gmap Z PH_HANDLE_TABLE_ENTRY → Prop) : fifo_state → handle_op → handle_result → fifo_state → Prop :=
  | fifo_create m n v q e :
      fifo_step full (m, n, v :: q) (OpCreate e) (ResultHandle (PhpEncodeHandle v)) (<[v := created_entry e]> m, n, q)
  | fifo_create_grow m n q e :
      Z.of_nat (length q) < PH_HANDLE_TABLE_FREE_COUNT →
      fifo_step full (m, n, q) (OpCreate e) (ResultHandle (PhpEncodeHandle n))
        (<[n := created_entry e]> m, n + 256, seqZ (n + 1) 255 ++ q)
  | fifo_create_fails m n e : full m → fifo_step full (m, n, []) (OpCreate e) (ResultHandle 0) (m, n, [])
  | fifo_destroy m n q h :
      is_Some (m !! PhpDecodeHandle h) →
      fifo_step full (m, n, q) (OpDestroy h) (ResultBool true) (delete (PhpDecodeHandle h) m, n, q ++ [PhpDecodeHandle h])
  | fifo_destroy_fails m n q h :
      m !! PhpDecodeHandle h = None → fifo_step full (m, n, q) (OpDestroy h) (ResultBool false) (m, n, q).

Inductive fifo_steps (full : gmap Z PH_HANDLE_TABLE_ENTRY → Prop) : fifo_state → list handle_op → list handle_result → fifo_state → Prop :=
  | fifo_steps_nil x : fifo_steps full x [] [] x
  | fifo_steps_cons x op r x' ops rs x'' :
      fifo_step full x op r x' → fifo_steps full x' ops rs x'' → fifo_steps full x (op :: ops) (r :: rs) x''.

Definition creates_or_destroys (op : handle_op) : bool :=
  match op with OpCreate _ | OpDestroy _ => true | _ => false end.

(** The queue of a state: the main list, then the alternative list from its end. *)
Definition table_queues (s : ht_state) (x : fifo_state) : Prop :=
  ∃ t bs es main alt, good false s t bs es [] main alt ∧ handles es = x.1.1 ∧ NextValue t = x.1.2 ∧
    x.2 = main ++ reverse alt ∧ strict t = true.

Lemma refill_queue allocate n main alt v main' alt' n' :
  refill allocate true n main alt (v :: main') alt' n' →
  (main ++ reverse alt = v :: main' ++ reverse alt' ∧ n' = n) ∨
  (Z.of_nat (length (main ++ reverse alt)) < PH_HANDLE_TABLE_FREE_COUNT ∧ v = n ∧ n' = n + 256 ∧
   main' ++ reverse alt' = seqZ (n + 1) 255 ++ main ++ reverse alt).
Proof.
  assert (moved_main true [] alt = reverse alt) as Hmoved by (unfold moved_main; cbn [negb andb]; by rewrite app_nil_r).
  remember (v :: main') as l eqn:Hl. intros Hr.
  destruct Hr as [Hne| -> Hne Hmany| -> Hfew| -> Hne _ Hfew Hwhy]; rewrite ?Hmoved in *.
  - left. rewrite Hl. done.
  - left. rewrite Hl. cbn [app]. by rewrite reverse_nil, app_nil_r.
  - right. rewrite seqZ_cons in Hl by lia. cbn [app] in Hl. injection Hl as -> Hm'.
    rewrite length_app, length_reverse, reverse_nil, app_nil_r. cbn [length app]. split_and!; [|done|done|by rewrite <-Hm'].
    destruct Hfew as [->|[_ Hfew]]; [done|lia].
  - left. rewrite Hl. cbn [app]. by rewrite reverse_nil, app_nil_r.
Qed.

Section Fifo.
Context (allocate : kind → nat → memory → option Z) (garbage : nat → list PH_HANDLE_TABLE_ENTRY).
Context (uninitialized : PH_HANDLE_TABLE) (held_by_others : ht_state → Z → bool).
Context (Hallocate : allocator_ok allocate) (Hgarbage : garbage_ok garbage).

Lemma wp_fifo_op x op s :
  table_queues s x → all_unlocked x.1.1 → creates_or_destroys op = true →
  wp (run_handle_op allocate garbage held_by_others op)
    (λ r s', ∃ x', fifo_step (no_room allocate) x op r x' ∧ table_queues s' x' ∧ all_unlocked x'.1.1) s.
Proof using Hallocate Hgarbage.
  destruct x as [[m n] q]. intros (t & bs & es & main & alt & Hg & Hm & Hn & Hq & Hst) Hun Hop.
  cbn [fst snd] in *. subst m n q. destruct op as [e| |h| | | | |]; try done; clear Hop; cbn [run_handle_op]; apply wp_bind.
  - eapply wp_create_handle; [done..| |]; rewrite ?Hst.
    + intros s' t' bs' es' -> -> Hwhy Hg' Hh Hn Hf. apply wp_ret. exists (handles es, NextValue t, []). split; [|split; [|done]].
      * apply fifo_create_fails. destruct Hwhy as [?|Hfull]; [by left|right]. rewrite <-Hh.
        eapply full_size; [exact Hg'|]. by rewrite Hn.
      * exists t', bs', es', [], []. split_and!; [done..|]. unfold strict. rewrite Hf. exact Hst.
    + intros s' t' bs' es' v main' alt' Hr Hg' Hv Hnone Hh Hf. apply wp_ret.
      assert (strict t' = true) by (unfold strict; rewrite Hf; exact Hst).
      destruct (refill_queue _ _ _ _ _ _ _ _ Hr) as [[Hq Hn]|(Hfew & -> & Hn & Hq)].
      * rewrite Hq. eexists. split; [apply fifo_create|]. split; [|by apply unlocked_insert, created_unlocked].
        by exists t', bs', es', main', alt'.
      * eexists. split; [by apply fifo_create_grow|]. split; [|by apply unlocked_insert, created_unlocked].
        by exists t', bs', es', main', alt'.
  - eapply wp_destroy_handle; [done|..].
    + intros Hn. apply wp_ret. eexists. split; [by apply fifo_destroy_fails|]. split; [|done]. by exists t, bs, es, main, alt.
    + intros e He. split; [by eapply Hun|]. intros s' t' es' main' alt' Hg' Hh' Hn' Hf' Hl. apply wp_ret.
      eexists. split; [apply fifo_destroy; by eexists|]. split; [|by apply unlocked_delete].
      exists t', bs, es', main', alt'. destruct Hl as [[-> ->]|[Hns _]]; [|by rewrite Hst in Hns].
      split_and!; [done..| |unfold strict; rewrite Hf'; exact Hst]. cbn [snd]. by rewrite reverse_cons, app_assoc.
Qed.

Lemma wp_fifo_ops ops : ∀ s x,
  table_queues s x → all_unlocked x.1.1 → forallb creates_or_destroys ops = true →
  wp (mapM (run_handle_op allocate garbage held_by_others) ops)
    (λ rs s', ∃ x', fifo_steps (no_room allocate) x ops rs x') s.
Proof using Hallocate Hgarbage.
  induction ops as [|op ops IH]; intros s x Hs Hun Hops; cbn [mapM].
  - apply wp_ret. exists x. constructor.
  - cbn [forallb] in Hops. apply andb_true_iff in Hops as [Hop Hops].
    apply wp_bind. eapply wp_mono; [by apply wp_fifo_op|].
    intros r s1 (x1 & Hstep & Hs1 & Hun1). apply wp_bind. eapply wp_mono; [by apply IH|].
    intros rs s2 (x2 & Hsteps). apply wp_ret. exists x2. by econstructor.
Qed.

(** A table with strict order, and the calls on it. *)
Definition run_fifo_script (ops : list handle_op) : ST ht_state (option (list handle_result)) :=
  created ← PhCreateHandleTable allocate garbage uninitialized;
  if created : bool then
    PhSetInformationHandleTable HandleTableFlagsInformation PH_HANDLE_TABLE_STRICT_FIFO 4 ;;
    rs ← mapM (run_handle_op allocate garbage held_by_others) ops;
    mret (Some rs)
  else mret None.

End Fifo.

(** ** How many handles there can be *)

Definition in_range (m : gmap Z PH_HANDLE_TABLE_ENTRY) : Prop := ∀ v, is_Some (m !! v) → 0 ≤ v < 2 ^ 24.

Lemma in_range_size m v : in_range m → m !! v = None → 0 ≤ v < 2 ^ 24 → Z.of_nat (size m) < 2 ^ 24.
Proof.
  intros Hm Hv Hr. rewrite <-size_dom.
  assert (size (dom m ∪ {[v]}) ≤ size (list_to_set (seqZ 0 (2 ^ 24)) : gset Z))%nat as Hle.
  { apply subseteq_size. intros w. rewrite elem_of_union, elem_of_singleton, elem_of_dom, elem_of_list_to_set, elem_of_seqZ.
    intros [Hw%Hm| ->]; lia. }
  rewrite size_union, size_singleton, size_list_to_set, length_seqZ in Hle.
  - lia.
  - apply NoDup_seqZ.
  - apply disjoint_singleton_r. by rewrite not_elem_of_dom.
Qed.

(** Creating [k] handles: as many as there is room for, all different. *)
Lemma create_many full fl g k : ∀ m rs m',
  (∀ m, full m → Z.of_nat (size m) = 2 ^ 24) → in_range m →
  handle_steps full (m, fl) (replicate k (OpCreate g)) rs m' →
  (∀ i r, rs !! i = Some r → ∃ h, r = ResultHandle h ∧
     (h = 0 ↔ 2 ^ 24 ≤ Z.of_nat (size m) + Z.of_nat i) ∧
     (h ≠ 0 → ∃ v, h = PhpEncodeHandle v ∧ 0 ≤ v < 2 ^ 24 ∧ m !! v = None)) ∧
  (∀ i j h, rs !! i = Some (ResultHandle h) → rs !! j = Some (ResultHandle h) → h ≠ 0 → i = j).
Proof.
  induction k as [|k IH]; intros m rs m' Hfull Hm Hsteps; cbn [replicate] in Hsteps.
  { inversion Hsteps; subst. split; [intros i r; by rewrite lookup_nil|intros i j h; by rewrite lookup_nil]. }
  inversion Hsteps as [|? ? r [m1 fl1] ? rs' ? Hstep Hrest]; subst. clear Hsteps.
  inversion Hstep as [? ? ? v Hnone Hv|? ? ? Hf| |? ? ? ? [?|?]| | | | | |]; subst; [..|done|done].
  - assert (in_range (<[v := created_entry g]> m)) as Hm1.
    { intros w. rewrite lookup_insert_is_Some. intros [<-|[_ Hw]]; [done|by apply Hm]. }
    destruct (IH _ _ _ Hfull Hm1 Hrest) as [IH1 IH2]. pose proof (in_range_size _ _ Hm Hnone Hv) as Hsize.
    rewrite map_size_insert_None in IH1 by done. split.
    + intros [|i] r Hr; cbn in Hr.
      * injection Hr as <-. exists (PhpEncodeHandle v). split; [done|]. rewrite encode_value by done.
        split; [lia|]. intros _. exists v. split; [by rewrite encode_value|done].
      * destruct (IH1 i r Hr) as (h & -> & Hz & Hnz). exists h. split; [done|]. split; [rewrite Hz; lia|].
        intros Hh. destruct (Hnz Hh) as (w & -> & Hw & Hwn). exists w.
        apply lookup_insert_None in Hwn as [Hwn _]. by eauto.
    + assert (∀ j h, rs' !! j = Some (ResultHandle h) → h ≠ 0 → h ≠ PhpEncodeHandle v) as Hdiff.
      { intros j h Hj Hh ->. destruct (IH1 j _ Hj) as (h' & [= <-] & _ & Hnz). destruct (Hnz Hh) as (w & Hw & Hwr & Hwn).
        apply (f_equal PhpDecodeHandle) in Hw. rewrite !decode_encode in Hw by done. subst w.
        by rewrite lookup_insert_eq in Hwn. }
      intros [|i] [|j] h; cbn; intros Hi Hj Hh; [done|..].
      * injection Hi as <-. by destruct (Hdiff j _ Hj Hh).
      * injection Hj as <-. by destruct (Hdiff i _ Hi Hh).
      * f_equal. by eapply IH2.
  - apply Hfull in Hf. destruct (IH _ _ _ Hfull Hm Hrest) as [IH1 IH2]. split.
    + intros [|i] r Hr; cbn in Hr.
      * injection Hr as <-. exists 0. split; [done|]. split; [lia|done].
      * destruct (IH1 i r Hr) as (h & -> & Hz & Hnz). exists h. split; [done|]. split; [rewrite Hz; lia|done].
    + intros [|i] [|j] h; cbn; intros Hi Hj Hh; [done|congruence|congruence|]. f_equal. by eapply IH2.
Qed.

(** ** The properties *)

Section Properties.
Context (allocate : kind → nat → memory → option Z) (garbage : nat → list PH_HANDLE_TABLE_ENTRY).
Context (uninitialized : PH_HANDLE_TABLE) (held_by_others : ht_state → Z → bool).

(** C20. Whatever the allocator answers, a sequence of calls on a new handle table
    never faults or blocks, and each call does what it does to a finite map:
    a created handle is new and stands for the entry given, a search finds the
    entry of an open handle and of no other, a destroyed handle is gone, and an
    enumeration lists the open handles in increasing order; creation fails only
    if an allocation does or [2^24] handles are open. Destroying the table then
    frees every block, and none twice. *)
Theorem handle_table_refines (ops : list handle_op) (s : ht_state) :
  allocator_ok allocate → garbage_ok garbage → Table s = None → Mem s = Memory ∅ ∅ ∅ →
  wp (run_handle_script allocate garbage uninitialized held_by_others ops)
    (λ r s', Table s' = None ∧ Mem s' = Memory ∅ ∅ ∅ ∧
       match r with
       | None => refused allocate
       | Some rs => ∃ m, handle_steps (no_room allocate) (∅, 0) ops rs m
       end) s.
Proof using Type. intros. by apply wp_run_script. Qed.

(** With [PH_HANDLE_TABLE_STRICT_FIFO] a destroyed handle goes to the end of a
    queue and a created one is taken from its front, over any sequence of
    creations and destructions; only when fewer than 64 free entries are left do
    256 new ones go before them. *)
Theorem handle_table_fifo (ops : list handle_op) (s : ht_state) :
  allocator_ok allocate → garbage_ok garbage → Table s = None → Mem s = Memory ∅ ∅ ∅ →
  forallb creates_or_destroys ops = true →
  wp (run_fifo_script allocate garbage uninitialized held_by_others ops)
    (λ r s', match r with
       | None => refused allocate
       | Some rs => ∃ x, fifo_steps (no_room allocate) (∅, 256, seqZ 0 256) ops rs x
       end) s.
Proof using Type.
  intros Ha Hg Ht Hm Hops. apply wp_bind. eapply wp_create_table; [done..|intros; by apply wp_ret|].
  intros s1 t b es Hg1 Hh Hf Hn. apply wp_bind. unfold PhSetInformationHandleTable. cbn [Z.eqb HandleTableFlagsInformation].
  change (Z.land PH_HANDLE_TABLE_STRICT_FIFO PH_HANDLE_TABLE_VALID_FLAGS =? PH_HANDLE_TABLE_STRICT_FIFO) with true.
  cbv iota. apply wp_bind. eapply wp_update_table; [apply Hg1|done|done|]. intros s2 Hrep2. apply wp_ret.
  apply wp_bind. eapply wp_mono.
  { eapply (wp_fifo_ops _ _ _ Ha Hg ops s2 (∅, 256, seqZ 0 256)).
    - eexists (with_Flags t _), [b], es, (seqZ 0 256), []. split_and!; [|done|done| |].
      + destruct Hg1. by split.
      + by rewrite reverse_nil, app_nil_r.
      + done.
    - intros v e Hv. cbn [fst] in Hv. by rewrite lookup_empty in Hv.
    - done. }
  intros rs s3 Hx. by apply wp_ret.
Qed.

(** If no allocation fails, [2^24] handles can be created in a row, all
    different, and every further creation returns [NULL]. *)
Theorem handle_table_capacity (g : PH_HANDLE_TABLE_ENTRY) (k : nat) (s : ht_state) :
  allocator_ok allocate → garbage_ok garbage → ¬ refused allocate → Table s = None → Mem s = Memory ∅ ∅ ∅ →
  wp (run_handle_script allocate garbage uninitialized held_by_others (replicate k (OpCreate g)))
    (λ r _, ∃ rs, r = Some rs ∧ length rs = k ∧
       (∀ i x, rs !! i = Some x → ∃ h, x = ResultHandle h ∧ (h = 0 ↔ 2 ^ 24 ≤ Z.of_nat i) ∧ 0 ≤ h ≤ 2 ^ 26 ∧ h mod 4 = 0) ∧
       (∀ i j h, rs !! i = Some (ResultHandle h) → rs !! j = Some (ResultHandle h) → h ≠ 0 → i = j)) s.
Proof using Type.
  intros Ha Hg Hr Ht Hm. eapply wp_mono; [by apply wp_run_script|].
  intros [rs|] s' (_ & _ & Hres); [|done]. destruct Hres as [m Hsteps]. exists rs. split; [done|].
  assert (∀ m, no_room allocate m → Z.of_nat (size m) = 2 ^ 24) as Hfull by (by intros m' [?|?]).
  assert (in_range ∅) as Hrange by (intros v; by rewrite lookup_empty, is_Some_alt).
  destruct (create_many _ _ _ _ _ _ _ Hfull Hrange Hsteps) as [H1 H2]. split_and!; [|clear H2|exact H2].
  - clear -Hsteps. revert Hsteps. generalize (∅ : gmap Z PH_HANDLE_TABLE_ENTRY, 0). revert rs.
    induction k as [|k IH]; intros rs x Hs; cbn [replicate] in Hs; inversion Hs; subst; [done|]. cbn [length]. f_equal. by eapply IH.
  - intros i x Hx. destruct (H1 i x Hx) as (h & -> & Hz & Hnz). rewrite map_size_empty, Z.add_0_l in Hz.
    exists h. split; [done|]. split; [done|]. split_and!; destruct (decide (h = 0)) as [->|Hne]; try done;
      destruct (Hnz Hne) as (v & -> & Hv & _); rewrite encode_value by done; [lia|lia|].
    replace (4 * v + 4) with ((v + 1) * 4) by lia. by apply Z.mod_mul.
Qed.

(** While an entry is locked, a thread that searches for its handle, or
    destroys it without passing the entry, waits for the entry: the thread that
    holds the lock itself waits for ever. Unlocking makes the handle available
    again, with the entry unchanged. *)
Theorem handle_lock_blocks (s : ht_state) (m : handle_map) (h : Z) (e : PH_HANDLE_TABLE_ENTRY) :
  table_holds s m → m.1 !! PhpDecodeHandle h = Some e → is_unlocked e →
  wp (PhLookupHandleTableEntry h)
    (λ p s', ∃ q, p = Some q ∧
       PhLookupHandleTableEntry h s' = None ∧ PhDestroyHandle held_by_others h None s' = None ∧
       wp (PhUnlockHandleTableEntry q) (λ _ s'', table_holds s'' m) s') s.
Proof using Type.
  destruct m as [m fl]. intros (t & bs & es & main & alt & Hg & Hm & Hfl) He Hu. cbn [fst snd] in *. subst m fl.
  eapply wp_lookup_handle; [done|intros; congruence|]. intros e' He'. assert (e' = e) as -> by congruence.
  split; [done|]. intros s' Hg' Hh'. pose proof (good_rep _ _ _ _ _ _ _ _ Hg') as Hrep'.
  exists (ptr bs (PhpDecodeHandle h)). split; [done|].
  assert (PhpLookupHandleTableEntry (PhpDecodeHandle h) s' = Some (Some (ptr bs (PhpDecodeHandle h)), s')) as Hfind.
  { apply wp_eq. by eapply wp_lookup; [done|rewrite lookup_insert_eq|]. }
  assert (PhLockHandleTableEntry (ptr bs (PhpDecodeHandle h)) s' = None) as Hblock.
  { eapply lock_blocks; [done|by rewrite lookup_insert_eq|by apply lock_entry_locked]. }
  split_and!.
  - unfold PhLookupHandleTableEntry, mbind, ST_bind. by rewrite Hfind, Hblock.
  - unfold PhDestroyHandle, mbind, ST_bind. by rewrite Hfind, Hblock.
  - eapply wp_unlock; [done|by rewrite lookup_insert_eq|].
    pose proof He as [He2 _]%handles_lookup. rewrite insert_insert_eq, unlock_lock, insert_id by done. intros s2 Hrep2.
    exists t, bs, es, main, alt. split_and!; [|done..]. destruct Hg. by split.
Qed.

End Properties.

(** ** The properties at concrete inputs *)

(** An allocator that never refuses: an address above all others. *)
Definition max_key {A} (m : gmap Z A) : Z := map_fold (λ k _ a, Z.max k a) 0 m.

Lemma max_key_bound {A} (m : gmap Z A) k x : m !! k = Some x → k ≤ max_key m.
Proof.
  revert k x. unfold max_key. apply (map_fold_weak_ind (λ a m, ∀ k x, m !! k = Some x → k ≤ a)).
  - intros k x. by rewrite lookup_empty.
  - intros i y m' a _ IH k x. destruct (decide (i = k)) as [->|Hne]; [lia|]. rewrite lookup_insert_ne by done.
    intros Hk%IH. lia.
Qed.

Lemma max_key_nonneg {A} (m : gmap Z A) : 0 ≤ max_key m.
Proof. unfold max_key. apply (map_fold_weak_ind (λ a _, 0 ≤ a)); [done|]. intros. lia. Qed.

Definition next_address (k : kind) (n : nat) (m : memory) : option Z :=
  Some (4 * (max_key (level0 m) + max_key (level1 m) + max_key (level2 m) + 1)).

Lemma next_address_ok : allocator_ok next_address.
Proof.
  intros k n m a [= <-].
  pose proof (max_key_nonneg (level0 m)). pose proof (max_key_nonneg (level1 m)). pose proof (max_key_nonneg (level2 m)).
  split_and!; [lia|by rewrite Z.mul_comm, Z.mod_mul|..]; apply eq_None_not_Some; intros [x Hx%max_key_bound]; lia.
Qed.

Lemma next_address_never_refuses : ¬ refused next_address.
Proof. by intros (k & n & m & Hn). Qed.

Definition dirty_block (n : nat) : list PH_HANDLE_TABLE_ENTRY := replicate 256 (HandleTableEntry 77 ULONG_MAX).
Definition dirty_table : PH_HANDLE_TABLE := HandleTable true 1 2 3 4 5 6 [].
Definition no_state : ht_state := HtState None (Memory ∅ ∅ ∅) 0.
Definition sometimes (s : ht_state) (i : Z) : bool := Z.odd i.

Lemma dirty_block_ok : garbage_ok dirty_block.
Proof. intros n. apply length_replicate. Qed.

Lemma handle_table_refines_witness :
  wp (run_handle_script next_address dirty_block dirty_table sometimes
        [OpCreate (HandleTableEntry 400 5); OpCreate (HandleTableEntry 800 6); OpLookup 8; OpDestroy 4; OpLookup 4; OpEnum; OpQuery])
    (λ r s', Table s' = None ∧ Mem s' = Memory ∅ ∅ ∅ ∧
       match r with
       | None => refused next_address
       | Some rs => ∃ m, handle_steps (no_room next_address) (∅, 0)
          [OpCreate (HandleTableEntry 400 5); OpCreate (HandleTableEntry 800 6); OpLookup 8; OpDestroy 4; OpLookup 4; OpEnum; OpQuery] rs m
       end) no_state.
Proof. apply (handle_table_refines next_address dirty_block); [apply next_address_ok|apply dirty_block_ok|done..]. Defined.

Lemma handle_table_fifo_witness :
  wp (run_fifo_script next_address dirty_block dirty_table sometimes
        [OpCreate (HandleTableEntry 400 5); OpCreate (HandleTableEntry 800 6); OpDestroy 4; OpCreate (HandleTableEntry 4 4)])
    (λ r s', match r with
       | None => refused next_address
       | Some rs => ∃ x, fifo_steps (no_room next_address) (∅, 256, seqZ 0 256)
           [OpCreate (HandleTableEntry 400 5); OpCreate (HandleTableEntry 800 6); OpDestroy 4; OpCreate (HandleTableEntry 4 4)] rs x
       end) no_state.
Proof. apply (handle_table_fifo next_address dirty_block); [apply next_address_ok|apply dirty_block_ok|done..]. Defined.

Lemma handle_table_capacity_witness :
  wp (run_handle_script next_address dirty_block dirty_table sometimes (replicate 1000 (OpCreate (HandleTableEntry 400 5))))
    (λ r _, ∃ rs, r = Some rs ∧ length rs = 1000%nat ∧
       (∀ i x, rs !! i = Some x → ∃ h, x = ResultHandle h ∧ (h = 0 ↔ 2 ^ 24 ≤ Z.of_nat i) ∧ 0 ≤ h ≤ 2 ^ 26 ∧ h mod 4 = 0) ∧
       (∀ i j h, rs !! i = Some (ResultHandle h) → rs !! j = Some (ResultHandle h) → h ≠ 0 → i = j)) no_state.
Proof.
  apply (handle_table_capacity next_address dirty_block);
    [apply next_address_ok|apply dirty_block_ok|apply next_address_never_refuses|done..].
Defined.

(** A table with one handle. *)
Lemma handle_lock_blocks_witness :
  wp (created ← PhCreateHandleTable next_address dirty_block dirty_table;
      h ← PhCreateHandle next_address dirty_block (HandleTableEntry 400 5);
      mret (created, h))
    (λ r s, r.1 = true ∧ wp (PhLookupHandleTableEntry r.2)
       (λ p s', ∃ q, p = Some q ∧
          PhLookupHandleTableEntry r.2 s' = None ∧ PhDestroyHandle sometimes r.2 None s' = None ∧
          wp (PhUnlockHandleTableEntry q)
            (λ _ s'', table_holds s'' ({[PhpDecodeHandle r.2 := created_entry (HandleTableEntry 400 5)]}, 0)) s') s) no_state.
Proof.
  apply wp_bind. eapply wp_create_table; [apply next_address_ok|apply dirty_block_ok|done|done|..].
  { intros s Href. by destruct next_address_never_refuses. }
  intros s t b es Hg Hh Hf Hn. apply wp_bind. eapply wp_create_handle; [apply next_address_ok|apply dirty_block_ok|exact Hg|..].
  { intros s' t' bs' es' Hnil. by rewrite seqZ_cons in Hnil by lia. }
  intros s' t' bs' es' v main' alt' _ Hg' Hv _ Hh' Hf'. apply wp_ret. split; [done|]. cbn [snd].
  apply (handle_lock_blocks sometimes s' _ _ (created_entry (HandleTableEntry 400 5))).
  - exists t', bs', es', main', alt'. split_and!; [done| |by rewrite Hf', Hf]. by rewrite Hh', Hh, decode_encode.
  - cbn [fst]. by rewrite lookup_singleton_eq.
  - apply created_unlocked.
Defined.
