(* ===== verification/Object.v ===== *)
(** Reference-counted objects (src/phlib/ref.c, src/phlib/include/refp.h): their
    headers, and threads that create, reference and dereference objects and
    delete them, at once or through the list of objects to be deleted by a work
    item. As the comment on [PhReferenceObjectSafe] has it, objects can also be
    found in a table that holds no references: a mutex protects it, and the
    delete procedure takes the object out of it. *)

From S2P Require Import Prelude Concurrency.

Definition PH_OBJECT_SMALL_OBJECT_SIZE : Z := 48.
Definition PH_OBJECT_FROM_SMALL_FREE_LIST : Z := 0x1.
Definition PH_OBJECT_FROM_TYPE_FREE_LIST : Z := 0x2.
Definition PH_OBJECT_TYPE_USE_FREE_LIST : Z := 0x1.

(** The header of an object. [RefCount] is a [LONG]; [Allocated] says whether the
    storage of the object is still its own, and [Origin] keeps the type and the
    flags it was created with, for the statements. *)
Record PH_OBJECT_HEADER := Header {
  TypeIndex : Z;
  Flags : Z;
  RefCount : Z;
  Allocated : bool;
  Origin : Z * Z;
}.

(** What the object manager uses of a type: its flags, and whether it has a delete
    procedure. *)
Record PH_OBJECT_TYPE := ObjectType { TypeFlags : Z; HasDeleteProcedure : bool }.

(** The word [RefCount] is shared with the bit fields [SavedTypeIndex : 16],
    [SavedFlags : 8], [Reserved : 7] and [DeferDelete : 1]. *)
Definition SavedTypeIndex (w : Z) : Z := u32 w mod 2 ^ 16.
Definition SavedFlags (w : Z) : Z := u32 w / 2 ^ 16 mod 2 ^ 8.
Definition with_SavedTypeIndex (w v : Z) : Z := i32 (u32 w - SavedTypeIndex w + v mod 2 ^ 16).
Definition with_SavedFlags (w v : Z) : Z := i32 (u32 w - SavedFlags w * 2 ^ 16 + v mod 2 ^ 8 * 2 ^ 16).
Definition with_DeferDelete (w : Z) : Z := i32 (u32 w mod 2 ^ 31 + 2 ^ 31).

(** The state that the threads share. [Objects] has the headers of all objects
    ever created; an object is named by its place in it. [Frees] lists the
    storage that was freed, with the flags that say where to. [InvalidAccesses]
    counts accesses to freed storage, and reference counts that get negative. *)
Record state := State {
  Objects : list PH_OBJECT_HEADER;
  NumberOfObjects : gmap Z Z;
  DeferDeleteList : list nat;
  WorkItems : nat;
  Mutex : bool;
  Table : list nat;
  Frees : list (nat * Z);
  InvalidAccesses : nat;
}.

Definition with_Objects (σ : state) v := State v (NumberOfObjects σ) (DeferDeleteList σ) (WorkItems σ) (Mutex σ) (Table σ) (Frees σ) (InvalidAccesses σ).
Definition with_NumberOfObjects (σ : state) v := State (Objects σ) v (DeferDeleteList σ) (WorkItems σ) (Mutex σ) (Table σ) (Frees σ) (InvalidAccesses σ).
Definition with_DeferDeleteList (σ : state) v := State (Objects σ) (NumberOfObjects σ) v (WorkItems σ) (Mutex σ) (Table σ) (Frees σ) (InvalidAccesses σ).
Definition with_WorkItems (σ : state) v := State (Objects σ) (NumberOfObjects σ) (DeferDeleteList σ) v (Mutex σ) (Table σ) (Frees σ) (InvalidAccesses σ).
Definition with_Mutex (σ : state) v := State (Objects σ) (NumberOfObjects σ) (DeferDeleteList σ) (WorkItems σ) v (Table σ) (Frees σ) (InvalidAccesses σ).
Definition with_Table (σ : state) v := State (Objects σ) (NumberOfObjects σ) (DeferDeleteList σ) (WorkItems σ) (Mutex σ) v (Frees σ) (InvalidAccesses σ).
Definition with_Frees (σ : state) v := State (Objects σ) (NumberOfObjects σ) (DeferDeleteList σ) (WorkItems σ) (Mutex σ) (Table σ) v (InvalidAccesses σ).
Definition invalid (σ : state) := State (Objects σ) (NumberOfObjects σ) (DeferDeleteList σ) (WorkItems σ) (Mutex σ) (Table σ) (Frees σ) (S (InvalidAccesses σ)).

Definition with_RefCount (h : PH_OBJECT_HEADER) v := Header (TypeIndex h) (Flags h) v (Allocated h) (Origin h).
Definition with_TypeAndFlags (h : PH_OBJECT_HEADER) t f := Header t f (RefCount h) (Allocated h) (Origin h).
Definition not_allocated (h : PH_OBJECT_HEADER) := Header (TypeIndex h) (Flags h) (RefCount h) false (Origin h).

(** The header of an object whose storage was not freed. *)
Definition get_header (σ : state) (o : nat) : option PH_OBJECT_HEADER :=
  match Objects σ !! o with
  | Some h => if Allocated h then Some h else None
  | None => None
  end.
Definition put_header (σ : state) (o : nat) (h : PH_OBJECT_HEADER) : state := with_Objects σ (<[o := h]> (Objects σ)).

(** A statistic of a type, counted up or down. *)
Definition add_NumberOfObjects (σ : state) (ty n : Z) : state :=
  with_NumberOfObjects σ (<[ty := u32 (default 0 (NumberOfObjects σ !! ty) + n)]> (NumberOfObjects σ)).

Section Functions.
(** The types, and the addresses of the headers. *)
Context (types : gmap Z PH_OBJECT_TYPE) (address : nat → Z).

Definition type_flags (ty : Z) : Z := from_option TypeFlags 0 (types !! ty).
Definition has_delete_procedure (ty : Z) : bool := from_option HasDeleteProcedure false (types !! ty).

(** ** Creating an object

    The flags that [PhpAllocateObject] gives it. *)
Definition PhpAllocateObject (ty ObjectSize : Z) : Z :=
  if negb (Z.land (type_flags ty) PH_OBJECT_TYPE_USE_FREE_LIST =? 0) then PH_OBJECT_FROM_TYPE_FREE_LIST
  else if ObjectSize <=? PH_OBJECT_SMALL_OBJECT_SIZE then PH_OBJECT_FROM_SMALL_FREE_LIST
  else 0.

(** [Objects] gets the object when its header is filled in. *)
Inductive create :=
  | create_allocate (ty ObjectSize : Z)
  | create_count (ty flags : Z)
  | create_header (ty flags : Z).

Definition PhCreateObject (σ : state) (p : create) : list (state * outcome create) :=
  match p with
  | create_allocate ty ObjectSize => [(σ, Continue (create_count ty (PhpAllocateObject ty ObjectSize)))]
  | create_count ty flags => [(add_NumberOfObjects σ ty 1, Continue (create_header ty flags))]
  | create_header ty flags => [(with_Objects σ (Objects σ ++ [Header ty flags 1 true (ty, flags)]), Return true)]
  end.

(** ** References *)

Definition PhReferenceObjectEx (σ : state) (o : nat) (n : Z) : state :=
  match get_header σ o with
  | Some h => put_header σ o (with_RefCount h (i32 (RefCount h + n)))
  | None => invalid σ
  end.

Definition PhReferenceObject (σ : state) (o : nat) : state := PhReferenceObjectEx σ o 1.

(** [PhpInterlockedIncrementSafe], which reads the count and exchanges it for as
    long as it is positive. *)
Inductive increment :=
  | increment_read
  | increment_exchange (value : Z).

Definition PhReferenceObjectSafe (σ : state) (o : nat) (p : increment) : list (state * outcome increment) :=
  match get_header σ o with
  | Some h =>
      match p with
      | increment_read =>
          let value := RefCount h in
          if value <=? 0 then [(σ, Return false)] else [(σ, Continue (increment_exchange value))]
      | increment_exchange value =>
          if RefCount h =? value then [(put_header σ o (with_RefCount h (i32 (value + 1))), Return true)]
          else if RefCount h <=? 0 then [(σ, Return false)] else [(σ, Continue (increment_exchange (RefCount h)))]
      end
  | None => [(invalid σ, Return false)]
  end.

(** What is to be done after a reference was given up. *)
Inductive after_dereference := KeepObject | FreeObject | DeferObject.

Definition PhDereferenceObjectEx (σ : state) (o : nat) (n : Z) (DeferDelete : bool) : state * after_dereference :=
  match get_header σ o with
  | Some h =>
      let oldRefCount := RefCount h in
      let newRefCount := i32 (oldRefCount - n) in
      let σ := put_header σ o (with_RefCount h (i32 (RefCount h - n))) in
      if newRefCount =? 0 then (σ, if DeferDelete then DeferObject else FreeObject)
      else if newRefCount <? 0 then (invalid σ, KeepObject)
      else (σ, KeepObject)
  | None => (invalid σ, KeepObject)
  end.

Definition PhDereferenceObject (σ : state) (o : nat) : state * after_dereference :=
  match get_header σ o with
  | Some h =>
      let newRefCount := i32 (RefCount h - 1) in
      let σ := put_header σ o (with_RefCount h newRefCount) in
      if newRefCount =? 0 then (σ, FreeObject)
      else if newRefCount <? 0 then (invalid σ, KeepObject)
      else (σ, KeepObject)
  | None => (invalid σ, KeepObject)
  end.

Definition PhDereferenceObjectDeferDelete (σ : state) (o : nat) : state * after_dereference :=
  PhDereferenceObjectEx σ o 1 true.

(** ** Freeing an object

    The delete procedure is [free_lock] to [free_unlock]: it waits for the mutex,
    takes the object out of the table and lets the mutex go. *)
Inductive free := free_count | free_lock | free_remove | free_unlock | free_storage.

Definition PhpFreeObject (σ : state) (o : nat) (p : free) : list (state * outcome free) :=
  match get_header σ o with
  | Some h =>
      match p with
      | free_count =>
          [(add_NumberOfObjects σ (TypeIndex h) (-1),
            Continue (if has_delete_procedure (TypeIndex h) then free_lock else free_storage))]
      | free_lock => if Mutex σ then [] else [(with_Mutex σ true, Continue free_remove)]
      | free_remove => [(with_Table σ (filter (λ x, x ≠ o) (Table σ)), Continue free_unlock)]
      | free_unlock => [(with_Mutex σ false, Continue free_storage)]
      | free_storage => [(with_Frees (put_header σ o (not_allocated h)) ((o, Flags h) :: Frees σ), Return true)]
      end
  | None => [(invalid σ, Return false)]
  end.

(** ** Deferred deletion *)

(** Pushing the header on the list overwrites its first eight bytes, which hold
    [TypeIndex] and [Flags], with the address of the next entry. *)
Definition overwrite (h : PH_OBJECT_HEADER) (next : Z) : PH_OBJECT_HEADER :=
  with_TypeAndFlags h (next mod 2 ^ 16) (next / 2 ^ 16 mod 2 ^ 8).

Definition next_address (l : list nat) : Z := match l with [] => 0 | o :: _ => address o end.

Inductive defer :=
  | defer_mark | defer_save_type | defer_save_flags
  | defer_first | defer_push (oldFirstEntry : option nat) | defer_queue.

Definition PhpDeferDeleteObject (σ : state) (o : nat) (p : defer) : list (state * outcome defer) :=
  match p with
  | defer_queue => [(with_WorkItems σ (S (WorkItems σ)), Return true)]
  | _ =>
      match get_header σ o with
      | Some h =>
          match p with
          | defer_mark => [(put_header σ o (with_RefCount h (with_DeferDelete (RefCount h))), Continue defer_save_type)]
          | defer_save_type =>
              [(put_header σ o (with_RefCount h (with_SavedTypeIndex (RefCount h) (TypeIndex h))), Continue defer_save_flags)]
          | defer_save_flags =>
              [(put_header σ o (with_RefCount h (with_SavedFlags (RefCount h) (Flags h))), Continue defer_first)]
          | defer_first => [(σ, Continue (defer_push (head (DeferDeleteList σ))))]
          | defer_push oldFirstEntry =>
              let σ' := with_DeferDeleteList (put_header σ o (overwrite h (next_address (DeferDeleteList σ)))) (o :: DeferDeleteList σ) in
              [(σ', match oldFirstEntry with Some _ => Return true | None => Continue defer_queue end)]
          | defer_queue => []
          end
      | None => [(invalid σ, Return false)]
      end
  end.

(** The work item: the entries it has taken off the list and not freed yet. *)
Inductive work :=
  | work_flush
  | work_entry (entries : list nat)
  | work_free (o : nat) (p : free) (entries : list nat).

Definition PhpDeferDeleteObjectRoutine (σ : state) (p : work) : list (state * outcome work) :=
  match p with
  | work_flush => [(with_DeferDeleteList σ [], Continue (work_entry (DeferDeleteList σ)))]
  | work_entry [] => [(σ, Return true)]
  | work_entry (o :: entries) =>
      match get_header σ o with
      | Some h =>
          [(put_header σ o (with_TypeAndFlags h (SavedTypeIndex (RefCount h)) (SavedFlags (RefCount h))),
            Continue (work_free o free_count entries))]
      | None => [(invalid σ, Return false)]
      end
  | work_free o p entries =>
      (λ r, (r.1, Continue (match r.2 with Continue p => work_free o p entries | Return _ => work_entry entries end))) <$>
      PhpFreeObject σ o p
  end.

(** ** Threads *)

(** What a thread does: nothing, or a point of one of the functions. A thread that
    looks an object up or enters it in the table holds the mutex until
    [Unlocking] is done. *)
Inductive activity :=
  | Idle
  | Creating (p : create)
  | LookingUp (o : nat) (p : increment)
  | Publishing (o : nat)
  | Unlocking
  | Freeing (o : nat) (p : free)
  | Deferring (o : nat) (p : defer)
  | Working (p : work).

(** A thread and the references it holds. *)
Record thread := Thread { held : list nat; doing : activity }.

(** How often an object is in a list, and the list without [n] of its elements that
    are the object. *)
Definition occurrences (o : nat) (l : list nat) : Z := total (λ x, if decide (x = o) then 1 else 0) l.
Fixpoint drop_held (o n : nat) (l : list nat) : list nat :=
  match n, l with
  | S n', x :: l => if decide (x = o) then drop_held o n' l else x :: drop_held o n l
  | _, _ => l
  end.

(** What a thread may do next when it does nothing: create an object as one of
    [requests] asks; take [n] references more to an object of which it holds
    one, up to [limit] in all; give up [n] of its references; enter an object it
    holds in the table, or look one up; take a work item. *)
Context (limit : nat) (requests : list (Z * Z)).

Definition after (o : nat) (r : state * after_dereference) (l : list nat) : state * thread :=
  (r.1, Thread l (match r.2 with
                  | KeepObject => Idle
                  | FreeObject => Freeing o free_count
                  | DeferObject => Deferring o defer_mark
                  end)).

Definition start_creating (σ : state) (l : list nat) : list (state * thread) :=
  if Nat.ltb (length l) limit then (λ r, (σ, Thread l (Creating (create_allocate r.1 r.2)))) <$> requests else [].

Definition start_referencing (σ : state) (l : list nat) : list (state * thread) :=
  o ← l;
  (if Nat.ltb (length l) limit then [(PhReferenceObject σ o, Thread (o :: l) Idle)] else []) ++
  ((λ n, (PhReferenceObjectEx σ o (Z.of_nat n), Thread (replicate n o ++ l) Idle)) <$> seq 1 (limit - length l)).

Definition start_dereferencing (σ : state) (l : list nat) : list (state * thread) :=
  o ← l;
  [after o (PhDereferenceObject σ o) (drop_held o 1 l); after o (PhDereferenceObjectDeferDelete σ o) (drop_held o 1 l)] ++
  (n ← seq 1 (Z.to_nat (occurrences o l));
   (λ b, after o (PhDereferenceObjectEx σ o (Z.of_nat n) b) (drop_held o n l)) <$> [false; true]).

(** Only an object whose type has the delete procedure is entered in the table. *)
Definition start_locking (σ : state) (l : list nat) : list (state * thread) :=
  if Mutex σ then []
  else
    (if Nat.ltb (length l) limit then
       (λ o, (with_Mutex σ true, Thread l (LookingUp o increment_read))) <$> Table σ
     else []) ++
    (o ← l;
     if from_option (λ h, has_delete_procedure (TypeIndex h)) false (get_header σ o)
     then [(with_Mutex σ true, Thread l (Publishing o))] else []).

Definition start_working (σ : state) (l : list nat) : list (state * thread) :=
  match WorkItems σ with
  | O => []
  | S n => [(with_WorkItems σ n, Thread l (Working work_flush))]
  end.

Definition continue {P} (f : P → activity) (last : bool → activity) (l : list nat) (r : state * outcome P) : state * thread :=
  (r.1, Thread l (match r.2 with Continue p => f p | Return b => last b end)).

Definition next (σ : state) (t : thread) : list (state * thread) :=
  let l := held t in
  match doing t with
  | Idle =>
      start_creating σ l ++ start_referencing σ l ++ start_dereferencing σ l ++ start_locking σ l ++ start_working σ l
  | Creating p =>
      (λ r, (r.1, match r.2 with
                  | Continue p => Thread l (Creating p)
                  | Return _ => Thread (length (Objects σ) :: l) Idle
                  end)) <$> PhCreateObject σ p
  | LookingUp o p =>
      (λ r, (r.1, match r.2 with
                  | Continue p => Thread l (LookingUp o p)
                  | Return true => Thread (o :: l) Unlocking
                  | Return false => Thread l Unlocking
                  end)) <$> PhReferenceObjectSafe σ o p
  | Publishing o => [(with_Table σ (o :: filter (λ x, x ≠ o) (Table σ)), Thread l Unlocking)]
  | Unlocking => [(with_Mutex σ false, Thread l Idle)]
  | Freeing o p => continue (Freeing o) (λ _, Idle) l <$> PhpFreeObject σ o p
  | Deferring o p => continue (Deferring o) (λ _, Idle) l <$> PhpDeferDeleteObject σ o p
  | Working p => continue Working (λ _, Idle) l <$> PhpDeferDeleteObjectRoutine σ p
  end.

End Functions.

Definition start (n : nat) : system :=
  System (State [] ∅ [] 0 false [] [] 0) (replicate n (Thread [] Idle)).
