(* ===== verification/ObjectFacts.v ===== *)
(** Reference-counted objects: the invariant of the headers, and how it changes
    with the counts, the table and the deletions that are under way. *)

From S2P Require Import Prelude Concurrency Object.

(** ** Occurrences *)

Lemma occurrences_cons o x l : occurrences o (x :: l) = (if decide (x = o) then 1 else 0) + occurrences o l.
Proof. done. Qed.

Lemma occurrences_nonneg o l : 0 ≤ occurrences o l.
Proof. apply total_nonneg. intros x. case_decide; lia. Qed.

Lemma occurrences_length o l : occurrences o l ≤ Z.of_nat (length l).
Proof. apply total_length. intros x. case_decide; lia. Qed.

Lemma occurrences_elem o l : o ∈ l → 0 < occurrences o l.
Proof.
  induction l as [|x l IH]; [by intros ?%elem_of_nil|]. rewrite occurrences_cons. pose proof (occurrences_nonneg o l).
  intros [->|Hin]%elem_of_cons; [rewrite decide_True by done; lia|]. specialize (IH Hin). case_decide; lia.
Qed.

Lemma occurrences_app o l k : occurrences o (l ++ k) = occurrences o l + occurrences o k.
Proof. induction l as [|x l IH]; [done|]. cbn [app]. rewrite !occurrences_cons, IH. lia. Qed.

Lemma occurrences_replicate o x n : occurrences o (replicate n x) = if decide (x = o) then Z.of_nat n else 0.
Proof. unfold occurrences. rewrite total_replicate. case_decide; lia. Qed.

Lemma drop_held_occurrences o x n l :
  Z.of_nat n ≤ occurrences x l → occurrences o (drop_held x n l) = occurrences o l - (if decide (x = o) then Z.of_nat n else 0).
Proof.
  revert n. induction l as [|y l IH]; intros [|n] Hn; cbn [drop_held]; try (case_decide; lia).
  - cbn in Hn. lia.
  - rewrite occurrences_cons in Hn. rewrite occurrences_cons. destruct (decide (y = x)) as [->|Hne].
    + rewrite IH by lia. repeat case_decide; lia.
    + rewrite occurrences_cons, IH by lia. repeat case_decide; subst; try done; lia.
Qed.

Lemma drop_held_length x n l : (length (drop_held x n l) ≤ length l)%nat.
Proof.
  revert n. induction l as [|y l IH]; intros [|n]; cbn [drop_held length]; try lia.
  case_decide; cbn [length]; [specialize (IH n)|specialize (IH (S n))]; lia.
Qed.

(** ** The word of a deferred object *)

Definition saved (ty flags : Z) : Z := with_SavedFlags (with_SavedTypeIndex (with_DeferDelete 0) ty) flags.

Lemma u32_i32 x : u32 (i32 x) = u32 x.
Proof. unfold u32, i32. Z.to_euclidean_division_equations. lia. Qed.

Lemma saved_word ty flags :
  0 ≤ ty < 2 ^ 16 → 0 ≤ flags < 2 ^ 8 → u32 (saved ty flags) = 2 ^ 31 + flags * 2 ^ 16 + ty.
Proof.
  intros Hty Hfl. unfold saved, with_SavedFlags, with_SavedTypeIndex, with_DeferDelete, SavedFlags, SavedTypeIndex.
  rewrite !u32_i32. change (u32 (u32 0 mod 2 ^ 31 + 2 ^ 31)) with (2 ^ 31).
  rewrite (Z.mod_small ty), (Z.mod_small flags) by done. change (2 ^ 31 mod 2 ^ 16) with 0.
  rewrite (u32_small (2 ^ 31 - 0 + ty)) by lia.
  replace (2 ^ 31 - 0 + ty) with (2 ^ 31 + ty) by lia.
  replace ((2 ^ 31 + ty) / 2 ^ 16 mod 2 ^ 8) with 0 by (Z.to_euclidean_division_equations; lia).
  rewrite u32_small by lia. lia.
Qed.

Lemma saved_negative ty flags : 0 ≤ ty < 2 ^ 16 → 0 ≤ flags < 2 ^ 8 → saved ty flags < 0.
Proof.
  intros Hty Hfl. pose proof (saved_word ty flags Hty Hfl) as Hw. unfold saved in *. unfold with_SavedFlags in *.
  set (x := u32 _ - _ + _) in *. rewrite u32_i32 in Hw. unfold u32, i32 in *. clearbody x. Z.to_euclidean_division_equations. lia.
Qed.

Lemma saved_type_negative ty : 0 ≤ ty < 2 ^ 16 → with_SavedTypeIndex (with_DeferDelete 0) ty < 0.
Proof.
  intros Hty. unfold with_SavedTypeIndex, with_DeferDelete, SavedTypeIndex. rewrite u32_i32.
  change (u32 (u32 0 mod 2 ^ 31 + 2 ^ 31)) with (2 ^ 31). change (2 ^ 31 mod 2 ^ 16) with 0.
  rewrite (Z.mod_small ty) by done. unfold i32. Z.to_euclidean_division_equations. lia.
Qed.

Lemma saved_type ty flags : 0 ≤ ty < 2 ^ 16 → 0 ≤ flags < 2 ^ 8 → SavedTypeIndex (saved ty flags) = ty.
Proof. intros Hty Hfl. unfold SavedTypeIndex. rewrite saved_word by done. Z.to_euclidean_division_equations. lia. Qed.

Lemma saved_flags ty flags : 0 ≤ ty < 2 ^ 16 → 0 ≤ flags < 2 ^ 8 → SavedFlags (saved ty flags) = flags.
Proof. intros Hty Hfl. unfold SavedFlags. rewrite saved_word by done. Z.to_euclidean_division_equations. lia. Qed.

(** ** Deletions that are under way *)

(** How far the deletion of an object has got. *)
Inductive stage := DFree (p : free) | DDefer (p : defer) | DListed.

(** What the header looks like then. *)
Definition stage_ok (table : list nat) (o : nat) (h : PH_OBJECT_HEADER) (d : stage) : Prop :=
  let '(ty, flags) := Origin h in
  match d with
  | DFree p =>
      TypeIndex h = ty ∧ Flags h = flags ∧ RefCount h ≤ 0 ∧
      match p with free_unlock | free_storage => o ∉ table | _ => True end
  | DDefer p =>
      TypeIndex h = ty ∧ Flags h = flags ∧
      RefCount h = match p with
                   | defer_mark => 0
                   | defer_save_type => with_DeferDelete 0
                   | defer_save_flags => with_SavedTypeIndex (with_DeferDelete 0) ty
                   | _ => saved ty flags
                   end
  | DListed => RefCount h = saved ty flags
  end.

Section Invariant.
Context (types : gmap Z PH_OBJECT_TYPE).

(** The headers, given the number of references to each object and the list of the
    deletions. *)
Record objects_ok (σ : state) (refs : nat → Z) (D : list (nat * stage)) : Prop := {
  ok_nodup : NoDup D.*1;
  ok_deleted : ∀ o d, (o, d) ∈ D → ∃ h, get_header σ o = Some h ∧ refs o = 0 ∧ stage_ok (Table σ) o h d;
  ok_alive : ∀ o h, get_header σ o = Some h → o ∉ D.*1 →
    0 < refs o ∧ RefCount h = refs o ∧ (TypeIndex h, Flags h) = Origin h;
  ok_none : ∀ o, get_header σ o = None → refs o = 0 ∧ o ∉ Table σ;
  ok_table : ∀ o h, o ∈ Table σ → get_header σ o = Some h → has_delete_procedure types (Origin h).1 = true;
  ok_origin : ∀ o h, Objects σ !! o = Some h → 0 ≤ (Origin h).1 < 2 ^ 16 ∧ 0 ≤ (Origin h).2 < 2 ^ 8;
  ok_frees : NoDup (Frees σ).*1 ∧ ∀ o f, (o, f) ∈ Frees σ ↔ ∃ h, Objects σ !! o = Some h ∧ Allocated h = false ∧ (Origin h).2 = f;
  ok_valid : InvalidAccesses σ = 0%nat;
}.

(** Neither the mutex nor the work items nor the statistics matter. *)
Lemma ok_same σ σ' refs refs' D D' :
  objects_ok σ refs D → D ≡ₚ D' → (∀ o, refs' o = refs o) →
  Objects σ' = Objects σ → Table σ' = Table σ → Frees σ' = Frees σ → InvalidAccesses σ' = InvalidAccesses σ →
  objects_ok σ' refs' D'.
Proof.
  intros [H1 H2 H3 H4 H5 H6 H7 H8] HD Hr E1 E2 E3 E4.
  assert (∀ o, get_header σ' o = get_header σ o) as Hg by (intros o; unfold get_header; by rewrite E1).
  split.
  - by rewrite <-HD.
  - intros o d Hin. rewrite Hg, Hr, E2. apply H2. by rewrite HD.
  - intros o h. rewrite Hg, Hr. intros Hh Hn. apply H3; [done|]. by rewrite HD.
  - intros o. rewrite Hg, Hr, E2. apply H4.
  - intros o h. rewrite Hg, E2. apply H5.
  - rewrite E1. apply H6.
  - rewrite E1, E3. apply H7.
  - by rewrite E4.
Qed.

Lemma get_header_Some σ o h : get_header σ o = Some h ↔ Objects σ !! o = Some h ∧ Allocated h = true.
Proof.
  unfold get_header. destruct (Objects σ !! o) as [h'|]; [|split; [done|by intros [? _]]].
  destruct (Allocated h') eqn:Ha; split; [intros [= ->]|intros [[= ->] _]|done|intros [[= ->] ?]]; [done..|congruence].
Qed.

Lemma get_put_eq σ o h h' : Objects σ !! o = Some h → Allocated h' = true → get_header (put_header σ o h') o = Some h'.
Proof.
  intros Ho Ha. apply get_header_Some. cbn [put_header with_Objects Objects]. split; [|done].
  apply list_lookup_insert_eq. by eapply lookup_lt_Some.
Qed.

Lemma get_put_ne σ o x h : o ≠ x → get_header (put_header σ o h) x = get_header σ x.
Proof. intros Hne. unfold get_header. cbn [put_header with_Objects Objects]. by rewrite list_lookup_insert_ne. Qed.

(** The header of one object changes, and stays in use. *)
Lemma ok_put σ refs refs' D D' o h h' :
  objects_ok σ refs D → get_header σ o = Some h → Allocated h' = true → Origin h' = Origin h →
  (∀ x, x ≠ o → refs' x = refs x) → NoDup D'.*1 → (∀ x d, x ≠ o → (x, d) ∈ D' ↔ (x, d) ∈ D) →
  (∀ d, (o, d) ∈ D' → refs' o = 0 ∧ stage_ok (Table σ) o h' d) →
  (o ∉ D'.*1 → 0 < refs' o ∧ RefCount h' = refs' o ∧ (TypeIndex h', Flags h') = Origin h') →
  objects_ok (put_header σ o h') refs' D'.
Proof.
  intros [H1 H2 H3 H4 H5 H6 H7 H8] Hh Ha Horig Hrefs Hnd HD Hdel Halive.
  pose proof Hh as [Ho Hha]%get_header_Some.
  assert (get_header (put_header σ o h') o = Some h') as Heq by (by eapply get_put_eq).
  assert (∀ x, x ≠ o → x ∈ D'.*1 ↔ x ∈ D.*1) as HD1.
  { intros x Hx. split; intros ([y d] & Hy & Hin)%list_elem_of_fmap; cbn in Hy; subst y; apply list_elem_of_fmap; exists (x, d);
      (split; [done|]); by apply HD. }
  split.
  - done.
  - intros x d Hin. destruct (decide (x = o)) as [->|Hx].
    + exists h'. split; [done|]. by apply Hdel.
    + rewrite get_put_ne, Hrefs by done. apply H2. by apply HD.
  - intros x g Hg Hn. destruct (decide (x = o)) as [->|Hx].
    + assert (g = h') as -> by congruence. by apply Halive.
    + rewrite get_put_ne in Hg by done. rewrite Hrefs by done. apply H3; [done|]. by rewrite <-HD1.
  - intros x Hg. destruct (decide (x = o)) as [->|Hx]; [congruence|]. rewrite get_put_ne in Hg by done. rewrite Hrefs by done. by apply H4.
  - intros x g Hin Hg. destruct (decide (x = o)) as [->|Hx].
    + assert (g = h') as -> by congruence. rewrite Horig. by eapply H5.
    + rewrite get_put_ne in Hg by done. by eapply H5.
  - intros x g. cbn [put_header with_Objects Objects]. intros [(-> & -> & _)|[_ Hg]]%list_lookup_insert_Some; [|by eapply H6].
    rewrite Horig. by eapply H6.
  - destruct H7 as [H7 H7']. split; [done|]. intros x f. cbn [put_header with_Objects Objects Frees]. rewrite H7'.
    destruct (decide (x = o)) as [->|Hx].
    + rewrite list_lookup_insert_eq by (by eapply lookup_lt_Some). split; intros (g & Hg & Hgf & _); congruence.
    + by rewrite list_lookup_insert_ne.
  - done.
Qed.

(** *** Counting *)

(** References taken or given up, of which some remain. *)
Lemma ok_count σ refs refs' D o h v :
  objects_ok σ refs D → get_header σ o = Some h → o ∉ D.*1 → v = refs' o → 0 < v →
  (∀ x, x ≠ o → refs' x = refs x) →
  objects_ok (put_header σ o (with_RefCount h v)) refs' D.
Proof.
  intros Hok Hh Hn Hv Hpos Hrefs. destruct (ok_alive _ _ _ Hok o h Hh Hn) as (_ & _ & Hf).
  pose proof Hh as [_ Hha]%get_header_Some.
  eapply ok_put; [done|done|done|done|done|apply Hok|done| |].
  - intros d Hd. exfalso. apply Hn. apply list_elem_of_fmap. by exists (o, d).
  - intros _. cbn. split_and!; [lia|done|done].
Qed.

(** The last reference is given up. *)
Lemma ok_last σ refs refs' D o h d :
  objects_ok σ refs D → get_header σ o = Some h → o ∉ D.*1 → refs' o = 0 → (∀ x, x ≠ o → refs' x = refs x) →
  d = DFree free_count ∨ d = DDefer defer_mark →
  objects_ok (put_header σ o (with_RefCount h 0)) refs' ((o, d) :: D).
Proof.
  intros Hok Hh Hn Hz Hrefs Hd. destruct (ok_alive _ _ _ Hok o h Hh Hn) as (_ & _ & Hf).
  pose proof Hh as [_ Hha]%get_header_Some.
  eapply ok_put; [done|done|done|done|done| | | |].
  - cbn. constructor; [done|apply Hok].
  - intros x e Hx. rewrite elem_of_cons. split; [by intros [[= -> ->]|?]|by right].
  - intros e [[= ->]|Hin]%elem_of_cons.
    + split; [done|]. unfold stage_ok. cbn. rewrite <-Hf. by destruct Hd as [->| ->].
    + exfalso. apply Hn. apply list_elem_of_fmap. by exists (o, e).
  - intros Hno. exfalso. apply Hno. cbn. by left.
Qed.

(** ** Deletions that go on *)

Lemma ok_deleting σ refs D o d :
  objects_ok σ refs ((o, d) :: D) → ∃ h, get_header σ o = Some h ∧ refs o = 0 ∧ stage_ok (Table σ) o h d ∧ o ∉ D.*1.
Proof.
  intros Hok. destruct (ok_deleted _ _ _ Hok o d) as (h & Hh & Hr & Hs); [apply list_elem_of_here|].
  pose proof (ok_nodup _ _ _ Hok) as Hnd. cbn in Hnd. apply NoDup_cons in Hnd as [Hn _]. eauto.
Qed.

Lemma ok_stage σ refs D o d d' h h' :
  objects_ok σ refs ((o, d) :: D) → get_header σ o = Some h → Allocated h' = true → Origin h' = Origin h →
  stage_ok (Table σ) o h' d' → objects_ok (put_header σ o h') refs ((o, d') :: D).
Proof.
  intros Hok Hh Ha Horig Hs. destruct (ok_deleting _ _ _ _ _ Hok) as (h0 & _ & Hr & _ & Hn).
  eapply ok_put; [done|done|done|done|done|apply Hok| | |].
  - intros x e Hx. rewrite !elem_of_cons. split; (intros [[= -> ->]|?]; [done|by right]).
  - intros e [[= ->]|Hin]%elem_of_cons; [done|]. exfalso. apply Hn. apply list_elem_of_fmap. by exists (o, e).
  - intros Hno. exfalso. apply Hno. cbn. by left.
Qed.

Lemma put_same σ o h : get_header σ o = Some h → Objects (put_header σ o h) = Objects σ.
Proof. intros [Ho _]%get_header_Some. cbn. by apply list_insert_id. Qed.

(** Only the stage changes. *)
Lemma ok_stage_only σ refs D o d d' :
  objects_ok σ refs ((o, d) :: D) →
  (∀ h, get_header σ o = Some h → stage_ok (Table σ) o h d → stage_ok (Table σ) o h d') → objects_ok σ refs ((o, d') :: D).
Proof.
  intros Hok Hd. destruct (ok_deleting _ _ _ _ _ Hok) as (h & Hh & Hr & Hs & Hn). pose proof Hh as [Ho Ha]%get_header_Some.
  eapply ok_same; [eapply (ok_stage _ _ _ _ _ d' _ h Hok Hh Ha eq_refl); by apply Hd|done|done|..]; try done.
  symmetry. by apply put_same.
Qed.

(** The count of an object whose deletion is under way is not positive. *)
Lemma ok_not_positive σ refs D o h : objects_ok σ refs D → get_header σ o = Some h → o ∈ D.*1 → RefCount h ≤ 0.
Proof.
  intros Hok Hh ([x d] & Hx & HD)%list_elem_of_fmap. cbn in Hx. subst x.
  destruct (ok_deleted _ _ _ Hok _ _ HD) as (g & Hg & _ & Hs). assert (g = h) as -> by congruence.
  destruct (ok_origin _ _ _ Hok o h) as [Hty Hfl]; [by apply get_header_Some in Hh as [? _]|].
  unfold stage_ok in Hs. destruct (Origin h) as [ty fl]. cbn [fst snd] in Hty, Hfl.
  pose proof (saved_negative ty fl Hty Hfl). pose proof (saved_type_negative ty Hty).
  assert (with_DeferDelete 0 < 0) by done.
  destruct d as [q|q|]; [by destruct Hs as (_ & _ & ? & _)| |lia]. destruct Hs as (_ & _ & Hs). destruct q; lia.
Qed.

(** ** The table *)

Lemma ok_table_add σ refs D o h :
  objects_ok σ refs D → get_header σ o = Some h → 0 < refs o → has_delete_procedure types (Origin h).1 = true →
  objects_ok (with_Table σ (o :: filter (λ x, x ≠ o) (Table σ))) refs D.
Proof.
  intros [H1 H2 H3 H4 H5 H6 H7 H8] Hh Hr Hd. split; try done.
  - intros x d Hin. destruct (H2 x d Hin) as (g & Hg & Hrx & Hs). exists g. split; [done|]. split; [done|].
    cbn [Table with_Table]. unfold stage_ok in *. destruct (Origin g). destruct d as [p| |]; [|done..].
    destruct Hs as (? & ? & ? & Hp). split_and!; [done..|].
    assert (x ≠ o) as Hxo by (intros ->; lia).
    destruct p; try done; (intros [?|[_ ?]%list_elem_of_filter]%elem_of_cons; [done|by apply Hp]).
  - intros x Hg. destruct (H4 x Hg) as [? Hx]. split; [done|]. cbn [Table with_Table].
    intros [->|[_ ?]%list_elem_of_filter]%elem_of_cons; [|done]. unfold get_header in Hg, Hh. cbn [Objects with_Table] in Hg. congruence.
  - intros x g. cbn [Table with_Table]. change (get_header (with_Table σ _) x) with (get_header σ x).
    intros [->|[_ ?]%list_elem_of_filter]%elem_of_cons Hg; [congruence|by eapply H5].
Qed.

Lemma ok_table_remove σ refs D o :
  objects_ok σ refs ((o, DFree free_remove) :: D) →
  objects_ok (with_Table σ (filter (λ x, x ≠ o) (Table σ))) refs ((o, DFree free_unlock) :: D).
Proof.
  intros Hok. destruct (ok_deleting _ _ _ _ _ Hok) as (h & Hh & Hr & Hs & Hn).
  assert (objects_ok (with_Table σ (filter (λ x, x ≠ o) (Table σ))) refs ((o, DFree free_remove) :: D)) as Hok'.
  { destruct Hok as [H1 H2 H3 H4 H5 H6 H7 H8]. split; try done.
    - intros x d Hin. destruct (H2 x d Hin) as (g & Hg & Hrx & Hs'). exists g. split; [done|]. split; [done|].
      cbn [Table with_Table]. unfold stage_ok in *. destruct (Origin g). destruct d as [p| |]; [|done..].
      destruct Hs' as (? & ? & ? & Hp). split_and!; [done..|].
      destruct p; try done; (intros [_ ?]%list_elem_of_filter; by apply Hp).
    - intros x Hg. destruct (H4 x Hg) as [? Hx]. split; [done|]. cbn [Table with_Table]. by intros [_ ?]%list_elem_of_filter.
    - intros x g. cbn [Table with_Table]. change (get_header (with_Table σ _) x) with (get_header σ x).
      intros [_ ?]%list_elem_of_filter Hg. by eapply H5. }
  eapply ok_stage_only; [done|]. intros g _. unfold stage_ok. destruct (Origin g). intros (? & ? & ? & _).
  split_and!; [done..|]. cbn. by intros [? _]%list_elem_of_filter.
Qed.

(** ** New objects and freed storage *)

Lemma ok_new σ refs refs' D ty flags :
  objects_ok σ refs D → 0 ≤ ty < 2 ^ 16 → 0 ≤ flags < 2 ^ 8 →
  refs' (length (Objects σ)) = 1 → (∀ x, x ≠ length (Objects σ) → refs' x = refs x) →
  objects_ok (with_Objects σ (Objects σ ++ [Header ty flags 1 true (ty, flags)])) refs' D.
Proof.
  intros [H1 H2 H3 H4 H5 H6 H7 H8] Hty Hfl Hr Hrefs. set (n := length (Objects σ)) in *. set (h := Header _ _ _ _ _).
  assert (get_header σ n = None) as Hnone by (unfold get_header; by rewrite lookup_ge_None_2).
  assert (∀ x, x ≠ n → get_header (with_Objects σ (Objects σ ++ [h])) x = get_header σ x) as Hne.
  { intros x Hx. unfold get_header. cbn [Objects with_Objects]. destruct (decide (x < n)%nat).
    - by rewrite lookup_app_l.
    - rewrite !(lookup_ge_None_2 _ x); [done|lia|]. rewrite length_app. cbn. lia. }
  assert (get_header (with_Objects σ (Objects σ ++ [h])) n = Some h) as Heq.
  { apply get_header_Some. cbn [Objects with_Objects]. by rewrite lookup_app_r, Nat.sub_diag by lia. }
  assert (∀ d, (n, d) ∉ D) as HnD by (intros d Hin; destruct (H2 n d Hin) as (g & Hg & _); congruence).
  split.
  - done.
  - intros x d Hin. assert (x ≠ n) as Hx by (intros ->; by apply (HnD d)). rewrite Hne, Hrefs by done. by apply H2.
  - intros x g Hg Hx. destruct (decide (x = n)) as [->|Hxn].
    + assert (g = h) as -> by congruence. rewrite Hr. done.
    + rewrite Hne in Hg by done. rewrite Hrefs by done. by apply H3.
  - intros x Hg. destruct (decide (x = n)) as [->|Hxn]; [congruence|]. rewrite Hne in Hg by done. rewrite Hrefs by done. by apply H4.
  - intros x g Hin Hg. destruct (decide (x = n)) as [->|Hxn]; [by destruct (H4 n Hnone)|]. rewrite Hne in Hg by done. by eapply H5.
  - intros x g. cbn [Objects with_Objects]. intros [Hg|[_ [_ <-]%list_lookup_singleton_Some]]%lookup_app_Some; [by eapply H6|done].
  - destruct H7 as [H7 H7']. split; [done|]. intros x f. cbn [Objects with_Objects Frees]. rewrite H7'. split.
    + intros (g & Hg & Hr'). exists g. split; [by apply lookup_app_l_Some|done].
    + intros (g & [Hg|[_ [_ <-]%list_lookup_singleton_Some]]%lookup_app_Some & Ha & Hf); [by exists g|done].
  - done.
Qed.

Lemma ok_storage σ refs D o h :
  objects_ok σ refs ((o, DFree free_storage) :: D) → get_header σ o = Some h →
  objects_ok (with_Frees (put_header σ o (not_allocated h)) ((o, Flags h) :: Frees σ)) refs D.
Proof.
  intros Hok Hh. destruct (ok_deleting _ _ _ _ _ Hok) as (h' & Hh' & Hr & Hs & Hn). assert (h' = h) as -> by congruence.
  destruct Hok as [H1 H2 H3 H4 H5 H6 [H7 H7'] H8]. pose proof Hh as [Ho Ha]%get_header_Some.
  set (σ' := with_Frees _ _).
  assert (∀ x, x ≠ o → get_header σ' x = get_header σ x) as Hne.
  { intros x Hx. unfold get_header. cbn [σ' Objects with_Frees put_header with_Objects]. by rewrite list_lookup_insert_ne. }
  assert (get_header σ' o = None) as Heq.
  { unfold get_header. cbn [σ' Objects with_Frees put_header with_Objects]. rewrite list_lookup_insert_eq; [done|by eapply lookup_lt_Some]. }
  assert (o ∉ Table σ) as Ht by (unfold stage_ok in Hs; destruct (Origin h); naive_solver).
  split.
  - cbn in H1. by apply NoDup_cons in H1 as [_ ?].
  - intros x d Hin. assert (x ≠ o) as Hx by (intros ->; apply Hn, list_elem_of_fmap; by exists (o, d)).
    rewrite Hne by done. apply H2. by right.
  - intros x g Hg Hx. destruct (decide (x = o)) as [->|Hxn]; [congruence|]. rewrite Hne in Hg by done. apply H3; [done|].
    cbn. rewrite elem_of_cons. naive_solver.
  - intros x Hg. destruct (decide (x = o)) as [->|Hxn]; [done|]. rewrite Hne in Hg by done. by apply H4.
  - intros x g Hin Hg. destruct (decide (x = o)) as [->|Hxn]; [congruence|]. rewrite Hne in Hg by done. by eapply H5.
  - intros x g. cbn [σ' Objects with_Frees put_header with_Objects].
    intros [(-> & <- & _)|[_ Hg]]%list_lookup_insert_Some; [exact (H6 _ h Ho)|by eapply H6].
  - assert (Flags h = (Origin h).2) as Hfl by (unfold stage_ok in Hs; destruct (Origin h); naive_solver).
    cbn [σ' Frees with_Frees Objects put_header with_Objects]. split.
    + cbn. constructor; [|done]. intros ([x f] & Hx & Hin)%list_elem_of_fmap. cbn in Hx. subst x.
      apply H7' in Hin as (g & Hg & Hga & _). congruence.
    + intros x f. rewrite elem_of_cons, H7'. destruct (decide (x = o)) as [->|Hxn].
      * rewrite list_lookup_insert_eq by (by eapply lookup_lt_Some). split.
        -- intros [[= ->]|(g & Hg & Hga & _)]; [by exists (not_allocated h)|congruence].
        -- intros (g & [= <-] & _ & <-). left. by rewrite Hfl.
      * rewrite list_lookup_insert_ne by done. split; [by intros [[= ? ?]|?]|by right].
  - done.
Qed.

End Invariant.
