(* ===== verification/ObjectSteps.v ===== *)
(** Reference-counted objects: what one step of a thread does to the invariant, as
    that thread sees it, and the invariant of the whole system. *)

From S2P Require Import Prelude Concurrency Object ObjectFacts.

(** ** Threads *)

(** The references a thread has to an object. *)
Definition holds (o : nat) (t : thread) : Z := occurrences o (held t).

(** The deletions a thread is at work on. *)
Definition listed (l : list nat) : list (nat * stage) := (., DListed) <$> l.
Definition stages_of (t : thread) : list (nat * stage) :=
  match doing t with
  | Freeing o p => [(o, DFree p)]
  | Deferring o defer_queue => []
  | Deferring o p => [(o, DDefer p)]
  | Working (work_entry l) => listed l
  | Working (work_free o p l) => (o, DFree p) :: listed l
  | _ => []
  end.

(** Whether a thread has the mutex. *)
Definition free_mutex (p : free) : Z := match p with free_remove | free_unlock => 1 | _ => 0 end.
Definition has_mutex (t : thread) : Z :=
  match doing t with
  | LookingUp _ _ | Publishing _ | Unlocking => 1
  | Freeing _ p | Working (work_free _ p _) => free_mutex p
  | _ => 0
  end.

Lemma holds_nonneg o t : 0 ≤ holds o t.
Proof. apply occurrences_nonneg. Qed.

Lemma has_mutex_bounds t : 0 ≤ has_mutex t ≤ 1.
Proof. unfold has_mutex, free_mutex. destruct (doing t) as [|[]| | | |? []|? []|[| |? []]]; lia. Qed.

Lemma put_header_id σ o h : Objects σ !! o = Some h → put_header σ o h = σ.
Proof. intros Ho. unfold put_header, with_Objects. rewrite list_insert_id by done. by destruct σ. Qed.

Section Steps.
Context (types : gmap Z PH_OBJECT_TYPE) (address : nat → Z) (limit : nat) (requests : list (Z * Z)).
Context (Hrequests : ∀ r, r ∈ requests → 0 ≤ r.1 < 2 ^ 16).

Definition thread_ok (σ : state) (t : thread) : Prop :=
  (length (held t) ≤ limit)%nat ∧
  match doing t with
  | Creating p =>
      (length (held t) < limit)%nat ∧
      match p with
      | create_allocate ty _ => 0 ≤ ty < 2 ^ 16
      | create_count ty flags | create_header ty flags => 0 ≤ ty < 2 ^ 16 ∧ 0 ≤ flags < 2 ^ 8
      end
  | LookingUp o p =>
      (length (held t) < limit)%nat ∧ o ∈ Table σ ∧ match p with increment_exchange v => 0 < v | _ => True end
  | Publishing o => o ∈ held t ∧ ∃ h, Objects σ !! o = Some h ∧ has_delete_procedure types (Origin h).1 = true
  | _ => True
  end.

(** The invariant as one thread sees it: [R], [E] and [L] are the references, the
    deletions and the mutex of the others. *)
Record local (R : nat → Z) (E : list (nat * stage)) (L : Z) (σ : state) (t : thread) : Prop := {
  local_thread : thread_ok σ t;
  local_mutex : has_mutex t + L = if Mutex σ then 1 else 0;
  local_objects : objects_ok types σ (λ o, R o + holds o t) (stages_of t ++ E ++ listed (DeferDeleteList σ));
}.

(** What the other threads rely on. *)
Definition keeps (σ σ' : state) : Prop := ∀ o h, Objects σ !! o = Some h → ∃ h', Objects σ' !! o = Some h' ∧ Origin h' = Origin h.

Lemma keeps_same σ σ' : Objects σ' = Objects σ → keeps σ σ'.
Proof. intros E o h Ho. exists h. by rewrite E. Qed.

Lemma keeps_put σ o h h' : get_header σ o = Some h → Origin h' = Origin h → keeps σ (put_header σ o h').
Proof.
  intros [Ho _]%get_header_Some Hor x g Hx. cbn [put_header with_Objects Objects]. destruct (decide (x = o)) as [->|Hne].
  - exists h'. rewrite list_lookup_insert_eq by (by eapply lookup_lt_Some). split; [done|congruence].
  - exists g. by rewrite list_lookup_insert_ne.
Qed.

Context (R : nat → Z) (E : list (nat * stage)) (L : Z).
Context (HR : ∀ o, 0 ≤ R o ∧ R o + Z.of_nat limit < 2 ^ 31) (HL : 0 ≤ L).

Definition good_step (σ σ' : state) (t' : thread) : Prop :=
  local R E L σ' t' ∧ keeps σ σ' ∧ (0 < L → ∀ o, o ∈ Table σ → o ∈ Table σ').

(** An object that a thread holds is alive. *)
Lemma held_alive σ t o :
  local R E L σ t → 0 < holds o t →
  ∃ h, get_header σ o = Some h ∧ RefCount h = R o + holds o t ∧ (TypeIndex h, Flags h) = Origin h ∧
    o ∉ (stages_of t ++ E ++ listed (DeferDeleteList σ)).*1.
Proof using HR.
  intros [_ _ Hok] Hh. pose proof (HR o) as [HR0 _]. destruct (get_header σ o) as [h|] eqn:Hg.
  - exists h. assert (o ∉ (stages_of t ++ E ++ listed (DeferDeleteList σ)).*1) as Hn.
    { intros ([x d] & Hx & Hin)%list_elem_of_fmap. cbn in Hx. subst x.
      destruct (ok_deleted _ _ _ _ Hok _ _ Hin) as (_ & _ & Hz & _). cbv beta in Hz. lia. }
    by destruct (ok_alive _ _ _ _ Hok o h Hg Hn) as (_ & ? & ?).
  - destruct (ok_none _ _ _ _ Hok o Hg) as [Hz _]. cbv beta in Hz. lia.
Qed.

(** A step that changes nothing but the mutex, the work items or a statistic. *)
Lemma object_quiet_step σ t σ' t' :
  local R E L σ t → Objects σ' = Objects σ → Table σ' = Table σ → Frees σ' = Frees σ → InvalidAccesses σ' = InvalidAccesses σ →
  DeferDeleteList σ' = DeferDeleteList σ → (∀ o, holds o t' = holds o t) → stages_of t' = stages_of t →
  thread_ok σ' t' → has_mutex t' + L = (if Mutex σ' then 1 else 0) → good_step σ σ' t'.
Proof using Type.
  intros [Ht Hm Hok] E1 E2 E3 E4 E5 Hh Hs Ht' Hm'. split; [|split; [by apply keeps_same|by rewrite E2]].
  split; [done|done|]. eapply ok_same; [done|by rewrite Hs, E5| |done..]. intros o. by rewrite Hh.
Qed.

Lemma references_step σ l o n :
  local R E L σ (Thread l Idle) → o ∈ l → (n + length l ≤ limit)%nat → (0 < n)%nat →
  good_step σ (PhReferenceObjectEx σ o (Z.of_nat n)) (Thread (replicate n o ++ l) Idle).
Proof using HR.
  intros Hloc Ho Hn Hpos. pose proof (HR o) as [HR0 HR1]. pose proof (occurrences_elem o l Ho) as Hocc.
  pose proof (occurrences_length o l) as Hlen.
  destruct (held_alive σ _ o Hloc) as (h & Hh & Hr & Hf & Hnd); [unfold holds; cbn [held doing]; lia|].
  unfold holds in Hr. cbn [held doing] in Hr. unfold PhReferenceObjectEx. rewrite Hh. rewrite i32_small by lia.
  destruct Hloc as [[Ht _] Hm Hok]. split; [|split; [by eapply keeps_put|done]].
  split; [split; [cbn [held] in *; rewrite length_app, length_replicate; lia|done]|exact Hm|].
  eapply ok_count; [exact Hok|exact Hh|exact Hnd| |lia|].
  - unfold holds. cbn [held doing]. rewrite occurrences_app, occurrences_replicate, decide_True by done. lia.
  - intros x Hx. unfold holds. cbn [held doing]. rewrite occurrences_app, occurrences_replicate, decide_False by done. lia.
Qed.

Lemma dereference_step σ l o n (r : state * after_dereference) :
  local R E L σ (Thread l Idle) → (0 < n)%nat → Z.of_nat n ≤ occurrences o l →
  r = PhDereferenceObject σ o ∧ n = 1%nat ∨ (∃ b, r = PhDereferenceObjectEx σ o (Z.of_nat n) b) →
  good_step σ (after o r (drop_held o n l)).1 (after o r (drop_held o n l)).2.
Proof using HR.
  intros Hloc Hpos Hn Hr. pose proof (HR o) as [HR0 HR1]. pose proof (occurrences_length o l) as Hlen.
  destruct (held_alive σ _ o Hloc) as (h & Hh & Hc & Hf & Hnd); [unfold holds; cbn [held doing]; lia|].
  unfold holds in Hc. cbn [held doing] in Hc. destruct Hloc as [[Ht _] Hm Hok]. cbn [held] in Ht.
  set (v := R o + occurrences o l - Z.of_nat n).
  assert (i32 (RefCount h - Z.of_nat n) = v) as Hv by (rewrite i32_small by lia; lia).
  assert (r = if v =? 0 then (put_header σ o (with_RefCount h 0), r.2) else (put_header σ o (with_RefCount h v), KeepObject)) as Hr'.
  { destruct Hr as [[-> ->]|[b ->]].
    - unfold PhDereferenceObject. rewrite Hh. change (Z.of_nat 1) with 1 in *. rewrite Hv.
      destruct (Z.eqb_spec v 0) as [->|]; [done|]. rewrite (proj2 (Z.ltb_ge v 0)) by lia. done.
    - unfold PhDereferenceObjectEx. rewrite Hh, Hv.
      destruct (Z.eqb_spec v 0) as [->|]; [done|]. rewrite (proj2 (Z.ltb_ge v 0)) by lia. done. }
  assert (v = 0 → r.2 = FreeObject ∨ r.2 = DeferObject) as Hr2.
  { intros Hz. destruct Hr as [[-> ->]|[b ->]]; [left|destruct b; [right|left]].
    all: unfold PhDereferenceObject, PhDereferenceObjectEx; rewrite Hh; change (Z.of_nat 1) with 1 in *; rewrite Hv, Hz; done. }
  pose proof (drop_held_length o n l) as Hdl.
  rewrite Hr'. destruct (Z.eqb_spec v 0) as [Hz|Hz]; unfold after; cbn [fst snd].
  - split; [|split; [by eapply keeps_put|done]].
    assert (objects_ok types (put_header σ o (with_RefCount h 0))
      (λ x, R x + occurrences x (drop_held o n l))
      ((match r.2 with DeferObject => (o, DDefer defer_mark) | _ => (o, DFree free_count) end) :: E ++ listed (DeferDeleteList σ))) as Hok'.
    { assert (∀ x, x ≠ o → R x + occurrences x (drop_held o n l) = R x + holds x (Thread l Idle)) as Hx.
      { intros x Hx. rewrite drop_held_occurrences, decide_False by done. unfold holds. cbn [held doing]. lia. }
      assert (R o + occurrences o (drop_held o n l) = 0) as Ho by (rewrite drop_held_occurrences, decide_True by done; lia).
      destruct (Hr2 Hz) as [-> | ->]; (eapply ok_last; [exact Hok|exact Hh|exact Hnd|exact Ho|exact Hx|auto]). }
    destruct (Hr2 Hz) as [Hr3|Hr3]; rewrite Hr3 in Hok' |- *; split; try (split; [cbn [held]; lia|done]); try exact Hm;
      (eapply ok_same; [exact Hok'|done| |done..]); intros x; unfold holds; cbn [held doing]; lia.
  - split; [|split; [by eapply keeps_put|done]]. split; [split; [cbn [held]; lia|done]|exact Hm|].
    eapply ok_count; [exact Hok|exact Hh|exact Hnd| |lia|].
    + unfold holds. cbn [held doing]. rewrite drop_held_occurrences, decide_True by done. lia.
    + intros x Hx. unfold holds. cbn [held doing]. rewrite drop_held_occurrences, decide_False by done. lia.
Qed.

Lemma allocate_flags ty size : 0 ≤ PhpAllocateObject types ty size < 2 ^ 8.
Proof using Type.
  unfold PhpAllocateObject, PH_OBJECT_FROM_TYPE_FREE_LIST, PH_OBJECT_FROM_SMALL_FREE_LIST. repeat case_match; lia.
Qed.

Lemma create_step σ l p r :
  local R E L σ (Thread l (Creating p)) →
  r ∈ (λ r, (r.1, match r.2 with
                  | Continue p => Thread l (Creating p)
                  | Return _ => Thread (length (Objects σ) :: l) Idle
                  end)) <$> PhCreateObject types σ p →
  good_step σ r.1 r.2.
Proof using HR.
  intros Hloc Hr. pose proof Hloc as [[Ht [Hl Hp]] Hm Hok]. cbn [held doing] in Ht, Hl.
  apply list_elem_of_fmap in Hr as (s & -> & Hs). pose proof allocate_flags.
  destruct p as [ty size|ty flags|ty flags]; cbn [PhCreateObject] in Hs; apply list_elem_of_singleton in Hs as ->; cbn [fst snd].
  - eapply object_quiet_step; [exact Hloc|done..|exact (conj Ht (conj Hl (conj Hp (allocate_flags ty size))))|exact Hm].
  - eapply object_quiet_step; [exact Hloc|done..|exact (conj Ht (conj Hl Hp))|exact Hm].
  - set (n := length (Objects σ)). destruct Hp as [Hty Hfl].
    destruct (ok_none _ _ _ _ Hok n) as [Hn _]; [unfold get_header; by rewrite lookup_ge_None_2|]. unfold holds in Hn. cbn [held doing] in Hn.
    split; [|split; [|done]].
    + split; [split; cbn [held doing length]; [lia|done]|exact Hm|]. eapply ok_new; [exact Hok|done|done| |].
      * fold n. unfold holds. cbn [held doing]. rewrite occurrences_cons, decide_True by done. lia.
      * intros x Hx. unfold holds. cbn [held doing]. rewrite occurrences_cons, decide_False by done. lia.
    + intros x h Hx. exists h. split; [by apply lookup_app_l_Some|done].
Qed.

Lemma lookup_step σ l o p r :
  local R E L σ (Thread l (LookingUp o p)) →
  r ∈ (λ r, (r.1, match r.2 with
                  | Continue p => Thread l (LookingUp o p)
                  | Return true => Thread (o :: l) Unlocking
                  | Return false => Thread l Unlocking
                  end)) <$> PhReferenceObjectSafe σ o p →
  good_step σ r.1 r.2.
Proof using HR.
  intros Hloc Hr. pose proof (HR o) as [HR0 HR1]. pose proof Hloc as [[Ht (Hl & Hin & Hp)] Hm Hok]. cbn [held doing] in Ht, Hl.
  pose proof (occurrences_length o l) as Hlen.
  apply list_elem_of_fmap in Hr as (s & -> & Hs). unfold PhReferenceObjectSafe in Hs.
  destruct (get_header σ o) as [h|] eqn:Hh; [|by destruct (ok_none _ _ _ _ Hok o Hh)].
  assert (∀ q, match q with increment_exchange v => 0 < v | _ => True end → good_step σ σ (Thread l (LookingUp o q))) as Hagain.
  { intros q Hq. eapply object_quiet_step; [exact Hloc|done..|by split|exact Hm]. }
  assert (good_step σ σ (Thread l Unlocking)) as Hfail.
  { eapply object_quiet_step; [exact Hloc|done..|by split|exact Hm]. }
  destruct p as [|v].
  - destruct (Z.leb_spec (RefCount h) 0); apply list_elem_of_singleton in Hs as ->; [exact Hfail|by apply Hagain].
  - destruct (Z.eqb_spec (RefCount h) v) as [Hv|Hv].
    + apply list_elem_of_singleton in Hs as ->. cbn [fst snd]. destruct (decide (o ∈ (stages_of (Thread l (LookingUp o (increment_exchange v))) ++ E ++ listed (DeferDeleteList σ)).*1)) as [HD|HD].
      * pose proof (ok_not_positive _ _ _ _ _ _ Hok Hh HD). lia.
      * destruct (ok_alive _ _ _ _ Hok o h Hh HD) as (Hpos & Hc & _). unfold holds in Hpos, Hc. cbn [held doing] in Hpos, Hc.
        rewrite i32_small by lia. split; [|split; [by eapply keeps_put|done]].
        split; [split; cbn [held doing length]; [lia|done]|exact Hm|].
        eapply ok_count; [exact Hok|exact Hh|exact HD| |lia|].
        -- unfold holds. cbn [held doing]. rewrite occurrences_cons, decide_True by done. lia.
        -- intros x Hx. unfold holds. cbn [held doing]. rewrite occurrences_cons, decide_False by done. lia.
    + destruct (Z.leb_spec (RefCount h) 0); apply list_elem_of_singleton in Hs as ->; [exact Hfail|]. by apply Hagain.
Qed.

(** A deletion makes a step, the other deletions [D] being as they are. *)
Lemma free_steps σ refs D o p r :
  objects_ok types σ refs ((o, DFree p) :: D) → free_mutex p + L = (if Mutex σ then 1 else 0) →
  r ∈ PhpFreeObject types σ o p →
  objects_ok types r.1 refs (match r.2 with Continue p' => (o, DFree p') :: D | Return _ => D end) ∧
  match r.2 with Continue p' => free_mutex p' | Return _ => 0 end + L = (if Mutex r.1 then 1 else 0) ∧
  keeps σ r.1 ∧ (0 < L → Table r.1 = Table σ) ∧ DeferDeleteList r.1 = DeferDeleteList σ.
Proof using All.
  intros Hok Hm Hr. destruct (ok_deleting _ _ _ _ _ _ Hok) as (h & Hh & Hz & Hs & Hn).
  unfold PhpFreeObject in Hr. rewrite Hh in Hr.
  destruct p; [|destruct (Mutex σ) eqn:HM; [by apply elem_of_nil in Hr|]|..]; apply list_elem_of_singleton in Hr as ->; cbn [fst snd].
  - split_and!; [|destruct (has_delete_procedure _ _); exact Hm|by apply keeps_same|done|done].
    assert (objects_ok types (add_NumberOfObjects σ (TypeIndex h) (-1)) refs ((o, DFree free_count) :: D)) as Hok' by (by eapply ok_same).
    eapply ok_stage_only; [exact Hok'|]. intros g Hg Hs'. assert (g = h) as -> by (unfold get_header in *; cbn in *; congruence).
    unfold stage_ok in *. cbn [Table add_NumberOfObjects with_NumberOfObjects] in *.
    destruct (has_delete_procedure types (TypeIndex h)) eqn:Hd; [done|].
    assert (o ∉ Table σ) as Ht.
    { intros Ht. pose proof (ok_table _ _ _ _ Hok o h Ht Hh) as Hd'. destruct (Origin h) as [ty fl]. destruct Hs as (E1 & _). cbn in Hd'. congruence. }
    destruct (Origin h). naive_solver.
  - split_and!; [|cbn [free_mutex Mutex with_Mutex] in *; lia|by apply keeps_same|done|done].
    eapply ok_stage_only; [eapply ok_same; [exact Hok|done..]|]. intros g _. by unfold stage_ok.
  - split_and!; [by apply ok_table_remove|exact Hm|by apply keeps_same| |done]. cbn [free_mutex] in Hm. intros. destruct (Mutex σ); lia.
  - split_and!; [|cbn [free_mutex Mutex with_Mutex] in *; destruct (Mutex σ); lia|by apply keeps_same|done|done].
    eapply ok_stage_only; [eapply ok_same; [exact Hok|done..]|]. intros g _. by unfold stage_ok.
  - split_and!; [by apply ok_storage|exact Hm|by apply keeps_put with h|done|done].
Qed.

Lemma freeing_step σ l o p r :
  local R E L σ (Thread l (Freeing o p)) → r ∈ continue (Freeing o) (λ _, Idle) l <$> PhpFreeObject types σ o p → good_step σ r.1 r.2.
Proof using All.
  intros [[Ht _] Hm Hok] Hr. apply list_elem_of_fmap in Hr as (s & -> & Hs).
  destruct (free_steps _ _ _ _ _ _ Hok Hm Hs) as (Hok' & Hm' & Hk & Htab & Hdl).
  split; [|split; [exact Hk|intros HL0 x; cbn [continue fst]; by rewrite (Htab HL0)]].
  unfold continue. cbn [fst snd] in *. split; [split; [exact Ht|by destruct s.2]|destruct s.2; exact Hm'|].
  rewrite Hdl. destruct s.2; exact Hok'.
Qed.

Lemma deferring_step σ l o p r :
  local R E L σ (Thread l (Deferring o p)) →
  r ∈ continue (Deferring o) (λ _, Idle) l <$> PhpDeferDeleteObject address σ o p → good_step σ r.1 r.2.
Proof using Type.
  intros Hloc Hr. pose proof Hloc as [[Ht _] Hm Hok]. apply list_elem_of_fmap in Hr as (s & -> & Hs).
  assert (p = defer_queue ∨ p ≠ defer_queue) as [->|Hp] by (destruct p; auto; by right).
  { cbn [PhpDeferDeleteObject] in Hs. apply list_elem_of_singleton in Hs as ->.
    eapply object_quiet_step; [exact Hloc|done..|by split|exact Hm]. }
  assert (stages_of (Thread l (Deferring o p)) = [(o, DDefer p)]) as Es by (by destruct p).
  rewrite Es in Hok. destruct (ok_deleting _ _ _ _ _ _ Hok) as (h & Hh & Hz & Hst & Hn). pose proof Hh as [Ho Ha]%get_header_Some.
  assert (∀ h' p', p' ≠ defer_queue → Allocated h' = true → Origin h' = Origin h → stage_ok (Table σ) o h' (DDefer p') →
    good_step σ (put_header σ o h') (Thread l (Deferring o p'))) as Hgo.
  { intros h' p' Hq Ha' Hor Hs'. split; [|split; [by eapply keeps_put|done]]. split; [by split|exact Hm|].
    replace (stages_of _) with [(o, DDefer p')] by (by destruct p'). eapply ok_stage; [exact Hok|exact Hh|done..|exact Hs']. }
  unfold PhpDeferDeleteObject in Hs. rewrite Hh in Hs. unfold stage_ok in Hst, Hgo.
  destruct p; try done; apply list_elem_of_singleton in Hs as ->; cbn [continue fst snd].
  - apply Hgo; [done..|]. cbn [TypeIndex Flags RefCount with_RefCount Origin]. destruct (Origin h), Hst as (-> & -> & ->). done.
  - apply Hgo; [done..|]. cbn [TypeIndex Flags RefCount with_RefCount Origin]. destruct (Origin h), Hst as (-> & -> & ->). done.
  - apply Hgo; [done..|]. cbn [TypeIndex Flags RefCount with_RefCount Origin]. destruct (Origin h), Hst as (-> & -> & ->). done.
  - pose proof (Hgo h (defer_push (head (DeferDeleteList σ)))) as Hgo1. rewrite (put_header_id σ o h Ho) in Hgo1. apply Hgo1; [done..|]. destruct (Origin h), Hst as (-> & -> & ->). done.
  - assert (objects_ok types (with_DeferDeleteList (put_header σ o (overwrite h (next_address address (DeferDeleteList σ)))) (o :: DeferDeleteList σ))
      (λ x, R x + holds x (Thread l Idle)) (E ++ listed (o :: DeferDeleteList σ))) as Hok'.
    { eapply ok_same; [eapply (ok_stage _ _ _ _ _ _ DListed _ (overwrite h (next_address address (DeferDeleteList σ))) Hok Hh)|..]; try done.
      - unfold stage_ok. cbn. destruct (Origin h), Hst as (_ & _ & ->). done.
      - cbn [listed fmap list_fmap]. by rewrite Permutation_middle. }
    assert (∀ d, d = Idle ∨ d = Deferring o defer_queue →
      good_step σ (with_DeferDeleteList (put_header σ o (overwrite h (next_address address (DeferDeleteList σ)))) (o :: DeferDeleteList σ)) (Thread l d)) as Hpush.
    { intros d Hd. split; [|split; [by eapply (keeps_put σ o h)|done]].
      destruct Hd as [-> | ->]; (split; [by split|exact Hm|exact Hok']). }
    destruct oldFirstEntry; apply Hpush; auto.
Qed.

Lemma working_step σ l p r :
  local R E L σ (Thread l (Working p)) →
  r ∈ continue Working (λ _, Idle) l <$> PhpDeferDeleteObjectRoutine types σ p → good_step σ r.1 r.2.
Proof using All.
  intros Hloc Hr. pose proof Hloc as [[Ht _] Hm Hok]. apply list_elem_of_fmap in Hr as (s & -> & Hs).
  unfold continue. cbn [fst snd]. destruct p as [|[|o k]|o p k]; cbn [PhpDeferDeleteObjectRoutine] in Hs.
  - apply list_elem_of_singleton in Hs as ->. cbn [fst snd]. split; [|split; [by apply keeps_same|done]].
    split; [by split|exact Hm|]. eapply ok_same; [exact Hok| |done..].
    change (E ++ listed (DeferDeleteList σ) ≡ₚ listed (DeferDeleteList σ) ++ E ++ []). rewrite app_nil_r. apply Permutation_app_comm.
  - apply list_elem_of_singleton in Hs as ->. eapply object_quiet_step; [exact Hloc|done..|by split|exact Hm].
  - destruct (ok_deleting _ _ _ _ _ _ Hok) as (h & Hh & Hz & Hst & Hn). pose proof Hh as [Ho Ha]%get_header_Some.
    rewrite Hh in Hs. apply list_elem_of_singleton in Hs as ->. cbn [fst snd].
    destruct (ok_origin _ _ _ _ Hok o h Ho) as [Hty Hfl]. unfold stage_ok in Hst.
    split; [|split; [by eapply keeps_put|done]]. split; [by split|exact Hm|].
    eapply (ok_stage _ _ _ _ _ _ (DFree free_count)); [exact Hok|exact Hh|exact Ha|done|].
    unfold stage_ok. cbn [Origin with_TypeAndFlags TypeIndex Flags RefCount]. destruct (Origin h) as [ty fl]. cbn [fst snd] in Hty, Hfl.
    rewrite Hst, saved_type, saved_flags by done. pose proof (saved_negative ty fl Hty Hfl). split_and!; [done..|lia|done].
  - apply list_elem_of_fmap in Hs as (q & -> & Hq).
    destruct (free_steps _ _ _ _ _ _ Hok Hm Hq) as (Hok' & Hm' & Hk & Htab & Hdl). cbn [fst snd].
    split; [|split; [exact Hk|intros HL0 x; by rewrite (Htab HL0)]].
    split; [split; [exact Ht|by destruct q.2]|destruct q.2; exact Hm'|]. rewrite Hdl. destruct q.2; exact Hok'.
Qed.

Lemma publishing_step σ l o :
  local R E L σ (Thread l (Publishing o)) → good_step σ (with_Table σ (o :: filter (λ x, x ≠ o) (Table σ))) (Thread l Unlocking).
Proof using HR.
  intros Hloc. pose proof (HR o) as [HR0 _]. pose proof Hloc as [[Ht (Hin & h & Ho & Hd)] Hm Hok]. cbn [held] in Hin.
  pose proof (occurrences_elem o l Hin) as Hocc.
  destruct (held_alive σ _ o Hloc) as (g & Hg & _); [unfold holds; cbn [held doing]; lia|].
  assert (g = h) as -> by (apply get_header_Some in Hg as [? _]; congruence).
  split; [|split; [by apply keeps_same|]].
  - split; [by split|exact Hm|]. eapply ok_table_add; [exact Hok|exact Hg| |exact Hd]. unfold holds. cbn [held doing]. lia.
  - intros _ x Hx. cbn [Table with_Table]. destruct (decide (x = o)) as [->|Hne]; [by left|right]. by apply list_elem_of_filter.
Qed.

Lemma unlocking_step σ l : local R E L σ (Thread l Unlocking) → good_step σ (with_Mutex σ false) (Thread l Idle).
Proof using HL.
  intros Hloc. pose proof Hloc as [[Ht _] Hm Hok]. eapply object_quiet_step; [exact Hloc|done..|].
  change (1 + L = if Mutex σ then 1 else 0) in Hm. cbn. destruct (Mutex σ); lia.
Qed.

Lemma idle_step σ l r :
  local R E L σ (Thread l Idle) → r ∈ next types address limit requests σ (Thread l Idle) → good_step σ r.1 r.2.
Proof using All.
  intros Hloc Hr. pose proof Hloc as [[Ht _] Hm Hok]. cbn [held] in Ht.
  unfold next in Hr. cbn [doing held] in Hr. rewrite !elem_of_app in Hr. destruct Hr as [Hr|[Hr|[Hr|[Hr|Hr]]]].
  - unfold start_creating in Hr. destruct (Nat.ltb_spec (length l) limit) as [Hl|]; [|by apply elem_of_nil in Hr].
    apply list_elem_of_fmap in Hr as ([ty size] & -> & Hin). cbn [fst snd].
    eapply object_quiet_step; [exact Hloc|done..| |exact Hm]. split; [done|]. split; [done|]. by apply (Hrequests (ty, size)).
  - unfold start_referencing in Hr. apply list_elem_of_bind in Hr as (o & Hr & Ho). apply elem_of_app in Hr as [Hr|Hr].
    + destruct (Nat.ltb_spec (length l) limit) as [Hl|]; [|by apply elem_of_nil in Hr].
      apply list_elem_of_singleton in Hr as ->. apply (references_step σ l o 1); [done|done|lia|lia].
    + apply list_elem_of_fmap in Hr as (n & -> & Hn%elem_of_seq). apply references_step; [done|done|lia|lia].
  - unfold start_dereferencing in Hr. apply list_elem_of_bind in Hr as (o & Hr & Ho). pose proof (occurrences_elem o l Ho) as Hocc.
    apply elem_of_app in Hr as [Hr|Hr].
    + in_list Hr; subst r; (eapply dereference_step; [done|lia|lia|]); [by left|right; by exists true].
    + apply list_elem_of_bind in Hr as (n & Hr & Hn%elem_of_seq). apply list_elem_of_fmap in Hr as (b & -> & _).
      eapply dereference_step; [done|lia|lia|]. right. by exists b.
  - unfold start_locking in Hr. destruct (Mutex σ) eqn:HM; [by apply elem_of_nil in Hr|]. apply elem_of_app in Hr as [Hr|Hr].
    + destruct (Nat.ltb_spec (length l) limit) as [Hl|]; [|by apply elem_of_nil in Hr].
      apply list_elem_of_fmap in Hr as (o & -> & Ho). cbn [fst snd].
      eapply object_quiet_step; [exact Hloc|done..|by split|]. change (0 + L = 0) in Hm. cbn. lia.
    + apply list_elem_of_bind in Hr as (o & Hr & Ho). pose proof (occurrences_elem o l Ho) as Hocc. pose proof (HR o) as [HR0 _].
      destruct (held_alive σ _ o Hloc) as (h & Hh & _ & Hf & _); [unfold holds; cbn [held doing]; lia|].
      rewrite Hh in Hr. cbn [from_option] in Hr. destruct (has_delete_procedure types (TypeIndex h)) eqn:Hd; [|by apply elem_of_nil in Hr].
      apply list_elem_of_singleton in Hr as ->. cbn [fst snd]. eapply object_quiet_step; [exact Hloc|done..| |change (0 + L = 0) in Hm; cbn; lia].
      split; [done|]. split; [done|]. exists h. apply get_header_Some in Hh as [? _]. rewrite <-Hf. done.
  - unfold start_working in Hr. destruct (WorkItems σ); [by apply elem_of_nil in Hr|]. apply list_elem_of_singleton in Hr as ->.
    eapply object_quiet_step; [exact Hloc|done..|by split|exact Hm].
Qed.

(** Every step of a thread. *)
Lemma local_step σ t r : local R E L σ t → r ∈ next types address limit requests σ t → good_step σ r.1 r.2.
Proof using All.
  destruct t as [l [|p|o p|o| |o p|o p|p]]; intros Hloc Hr.
  - by eapply idle_step.
  - by eapply create_step.
  - by eapply lookup_step.
  - unfold next in Hr. cbn [doing held] in Hr. apply list_elem_of_singleton in Hr as ->. by apply publishing_step.
  - unfold next in Hr. cbn [doing held] in Hr. apply list_elem_of_singleton in Hr as ->. by apply unlocking_step.
  - by eapply freeing_step.
  - by eapply deferring_step.
  - by eapply working_step.
Qed.

End Steps.

(** ** The system *)

Lemma holds_bound σ limit types o t : thread_ok types limit σ t → holds o t ≤ Z.of_nat limit.
Proof.
  intros [Hl _]. unfold holds. pose proof (occurrences_length o (held t)). lia.
Qed.

Section System.
Context (types : gmap Z PH_OBJECT_TYPE) (address : nat → Z) (limit : nat) (requests : list (Z * Z)).
Context (Hrequests : ∀ r, r ∈ requests → 0 ≤ r.1 < 2 ^ 16).

(** There is room in [RefCount] for the references of all threads. *)
Record system_ok (s : system) : Prop := {
  sys_threads : ∀ t, t ∈ threads s → thread_ok types limit (shared s) t;
  sys_mutex : total has_mutex (threads s) = if Mutex (shared s) then 1 else 0;
  sys_objects : objects_ok types (shared s) (λ o, total (holds o) (threads s)) ((threads s ≫= stages_of) ++ listed (DeferDeleteList (shared s)));
  sys_room : Z.of_nat (length (threads s)) * Z.of_nat limit < 2 ^ 31;
}.

Lemma total_app {T} (w : T → Z) l k : total w (l ++ k) = total w l + total w k.
Proof using Type. induction l as [|t l IH]; [done|]. cbn [app]. rewrite !total_cons, IH. lia. Qed.

Lemma total_holds_bound σ o ts : (∀ t, t ∈ ts → thread_ok types limit σ t) → total (holds o) ts ≤ Z.of_nat (length ts) * Z.of_nat limit.
Proof using Type.
  intros Hts. induction ts as [|t ts IH]; [done|]. rewrite total_cons. cbn [length].
  pose proof (holds_bound σ limit types o t (Hts t ltac:(left))).
  pose proof (IH (λ t Ht, Hts t (list_elem_of_further _ _ _ Ht))). lia.
Qed.

(** A thread and the others. *)
Lemma system_local σ l t k :
  system_ok (System σ (l ++ t :: k)) →
  local types limit (λ o, total (holds o) (l ++ k)) ((l ++ k) ≫= stages_of) (total has_mutex (l ++ k)) σ t.
Proof using Type.
  intros [Hts Hm Hok Hroom]. cbn [shared threads] in *. split.
  - apply Hts. apply elem_of_app. right. left.
  - rewrite <-Hm, !total_app, total_cons. lia.
  - eapply ok_same; [exact Hok| |intros o; rewrite !total_app, total_cons; lia|done..].
    rewrite !bind_app, bind_cons. solve_Permutation.
Qed.

Lemma local_system σ σ' l t k t' :
  system_ok (System σ (l ++ t :: k)) →
  good_step types limit (λ o, total (holds o) (l ++ k)) ((l ++ k) ≫= stages_of) (total has_mutex (l ++ k)) σ σ' t' →
  system_ok (System σ' (l ++ t' :: k)).
Proof using Type.
  intros [Hts Hm Hok Hroom] ([Ht' Hm' Hok'] & Hk & Htab). cbn [shared threads] in *. split; cbn [shared threads].
  - assert (∀ u, u ∈ l ++ k → thread_ok types limit σ' u) as Hothers.
    { intros u Hu. assert (thread_ok types limit σ u) as [Hu1 Hu2]
        by (apply Hts; apply elem_of_app; apply elem_of_app in Hu as [?|?]; [by left|right; by right]).
      split; [done|]. apply list_elem_of_lookup in Hu as [i Hi].
      pose proof (total_elem has_mutex (l ++ k) i u (λ t, proj1 (has_mutex_bounds t)) Hi) as HL.
      destruct (doing u) as [|p|o p|o| | | |] eqn:Hdo; try done.
      - assert (has_mutex u = 1) by (unfold has_mutex; by rewrite Hdo). destruct Hu2 as (? & ? & ?). split_and!; [done|apply Htab; [lia|done]|done].
      - destruct Hu2 as (? & h & Ho & Hd). split; [done|]. destruct (Hk o h Ho) as (h' & Ho' & Hor). exists h'. by rewrite Hor. }
    intros u Hu. apply elem_of_app in Hu as [Hu|[->|Hu]%elem_of_cons]; [apply Hothers, elem_of_app; by left|done|apply Hothers, elem_of_app; by right].
  - rewrite <-Hm', !total_app, total_cons. lia.
  - eapply ok_same; [exact Hok'| |intros o; rewrite !total_app, total_cons; lia|done..].
    rewrite !bind_app, bind_cons. solve_Permutation.
  - rewrite length_app in *. exact Hroom.
Qed.

Lemma system_step s s' : system_ok s → step (next types address limit requests) s s' → system_ok s'.
Proof using Hrequests.
  intros Hs Hstep. destruct Hstep as [i σ ts t σ' t' Hi Hn].
  pose proof (take_drop_middle ts i t Hi) as Hmid. assert (i < length ts)%nat as Hlt by (by eapply lookup_lt_Some).
  rewrite insert_take_drop by done. rewrite <-Hmid in Hs. eapply local_system; [exact Hs|].
  pose proof (system_local _ _ _ _ Hs) as Hloc. destruct Hs as [Hts _ _ Hroom]. cbn [shared threads] in *.
  eapply (local_step types address limit requests Hrequests _ _ _ _ _ σ t (σ', t')); [exact Hloc|exact Hn].
  Unshelve.
  - intros o. split; [apply total_nonneg; intros; apply holds_nonneg|].
    assert (∀ t, t ∈ take i ts ++ drop (S i) ts → thread_ok types limit σ t) as Hts'.
    { intros u Hu. apply Hts. apply elem_of_app. apply elem_of_app in Hu as [?|?]; [by left|right; by right]. }
    pose proof (total_holds_bound σ o _ Hts'). rewrite length_app in *. cbn [length] in Hroom. nia.
  - apply total_nonneg. intros u. apply has_mutex_bounds.
Qed.

Lemma system_start n : Z.of_nat n * Z.of_nat limit < 2 ^ 31 → system_ok (start n).
Proof using Type.
  intros Hn. unfold start. split; cbn [shared threads].
  - intros t [-> _]%elem_of_replicate. split; [cbn; lia|done].
  - rewrite total_replicate. apply Z.mul_0_r.
  - assert (replicate n (Thread [] Idle) ≫= stages_of = []) as -> by (induction n; [done|]; cbn; apply IHn; lia).
    assert (∀ o, get_header (State [] ∅ [] 0 false [] [] 0) o = None) as Hnone by done.
    split; try done.
    + apply NoDup_nil_2.
    + by intros o d ?%elem_of_nil.
    + intros o _. split; [|by intros ?%elem_of_nil]. rewrite total_replicate. apply Z.mul_0_r.
    + split; [apply NoDup_nil_2|]. intros o f. split; [by intros ?%elem_of_nil|]. by intros (h & Hh & _).
  - by rewrite length_replicate.
Qed.

Lemma system_reachable n s :
  Z.of_nat n * Z.of_nat limit < 2 ^ 31 → reachable (next types address limit requests) (start n) s → system_ok s.
Proof using Hrequests. intros Hn. apply (reachable_invariant _ system_ok); [by apply system_start|]. intros ? ?. apply system_step. Qed.

End System.

Lemma held_holds o t : o ∈ held t → 0 < holds o t.
Proof. apply occurrences_elem. Qed.

Lemma idle_stages (ts : list thread) : (∀ t, t ∈ ts → doing t = Idle) → ts ≫= stages_of = [].
Proof.
  induction ts as [|t ts IH]; [done|]. intros Hts. rewrite bind_cons, IH by (intros u Hu; apply Hts; by right).
  unfold stages_of. by rewrite (Hts t) by left.
Qed.
