(* ===== verification/ObjectTheorems.v ===== *)
(** Reference-counted objects: no reference leads to freed storage and no object is
    freed twice, and objects that deferred deletion loses. *)

From S2P Require Import Prelude Concurrency Object ObjectFacts ObjectSteps.

(** C21. [PhCreateObject], [PhReferenceObject(Ex|Safe)],
    [PhDereferenceObject(Ex|DeferDelete)], [PhpFreeObject] and the two halves of
    deferred deletion keep objects safe for any number of threads that use them at
    once, if all references fit [RefCount]: no thread touches freed storage and no
    count gets negative; an object of which a thread holds references is there and
    its count is the number of all references to it; no object is freed twice, and
    one that is freed has no references, is not in the table and goes back to where
    it was allocated from. When all threads are idle, an object without references
    is freed or on the list of objects to be deleted. *)
Theorem ref_safe types address limit requests n s :
  (∀ r, r ∈ requests → 0 ≤ r.1 < 2 ^ 16) → Z.of_nat n * Z.of_nat limit < 2 ^ 31 →
  reachable (next types address limit requests) (start n) s →
  let σ := shared s in
  InvalidAccesses σ = 0%nat ∧
  (∀ t o, t ∈ threads s → o ∈ held t → ∃ h, get_header σ o = Some h ∧ RefCount h = total (holds o) (threads s)) ∧
  NoDup (Frees σ).*1 ∧
  (∀ o f, (o, f) ∈ Frees σ → total (holds o) (threads s) = 0 ∧ o ∉ Table σ ∧ ∃ h, Objects σ !! o = Some h ∧ f = (Origin h).2) ∧
  ((∀ t, t ∈ threads s → doing t = Idle) →
   ∀ o h, get_header σ o = Some h → 0 < total (holds o) (threads s) ∨ o ∈ DeferDeleteList σ).
Proof.
  intros Hreq Hn Hreach σ. destruct (system_reachable _ _ _ _ Hreq n s Hn Hreach) as [_ _ Hok _]. fold σ in Hok.
  split_and!.
  - apply Hok.
  - intros t o Ht Ho. apply list_elem_of_lookup in Ht as [i Hi].
    pose proof (total_elem (holds o) (threads s) i t (holds_nonneg o) Hi) as Hle. pose proof (held_holds o t Ho) as Hpos.
    destruct (get_header σ o) as [h|] eqn:Hh; [|destruct (ok_none _ _ _ _ Hok o Hh) as [Hz _]; cbv beta in Hz; lia].
    exists h. split; [done|]. apply (ok_alive _ _ _ _ Hok o h Hh).
    intros ([x d] & Hx & Hin)%list_elem_of_fmap. cbn in Hx. subst x.
    destruct (ok_deleted _ _ _ _ Hok o d Hin) as (_ & _ & Hz & _). cbv beta in Hz. lia.
  - apply Hok.
  - intros o f (h & Ho & Ha & Hf)%(proj2 (ok_frees _ _ _ _ Hok)).
    destruct (ok_none _ _ _ _ Hok o) as [Hz Ht]; [unfold get_header; by rewrite Ho, Ha|]. eauto.
  - intros Hidle o h Hh. destruct (decide (o ∈ DeferDeleteList σ)) as [|Hno]; [by right|left].
    apply (ok_alive _ _ _ _ Hok o h Hh). rewrite idle_stages by done. intros ([x d] & Hx & Hin)%list_elem_of_fmap.
    cbn in Hx. subst x. apply list_elem_of_fmap in Hin as (y & [= <- _] & Hin). done.
Qed.

(** *** Deferred deletion loses objects *)

(** Nobody is going to queue a work item or to take the list. *)
Definition stuck_thread (t : thread) : bool :=
  match doing t with
  | Deferring _ (defer_push None | defer_queue) | Working work_flush => false
  | _ => true
  end.
Definition stuck (o : nat) (s : system) : Prop :=
  o ∈ DeferDeleteList (shared s) ∧ WorkItems (shared s) = 0%nat ∧ ∀ t, t ∈ threads s → stuck_thread t = true.

(** Only deferring and the work item deal with the list and the work items. *)
Definition same_list (σ σ' : state) : Prop := DeferDeleteList σ' = DeferDeleteList σ ∧ WorkItems σ' = WorkItems σ.

Lemma free_same_list types σ o p r : r ∈ PhpFreeObject types σ o p → same_list σ r.1.
Proof. unfold PhpFreeObject. intros Hr. repeat case_match; in_list Hr; by subst r. Qed.

Lemma safe_same_list σ o p r : r ∈ PhReferenceObjectSafe σ o p → same_list σ r.1.
Proof. unfold PhReferenceObjectSafe. intros Hr. repeat case_match; in_list Hr; by subst r. Qed.

Lemma create_same_list types σ p r : r ∈ PhCreateObject types σ p → same_list σ r.1.
Proof. unfold PhCreateObject. intros Hr. by destruct p; in_list Hr; subst r. Qed.

Lemma reference_same_list σ o n : same_list σ (PhReferenceObjectEx σ o n).
Proof. unfold PhReferenceObjectEx. by case_match. Qed.

Lemma dereference_same_list σ o n b : same_list σ (PhDereferenceObjectEx σ o n b).1 ∧ same_list σ (PhDereferenceObject σ o).1.
Proof. unfold PhDereferenceObjectEx, PhDereferenceObject. repeat case_match; done. Qed.

Lemma idle_stuck types address limit requests σ l r :
  WorkItems σ = 0%nat → r ∈ next types address limit requests σ (Thread l Idle) → same_list σ r.1 ∧ stuck_thread r.2 = true.
Proof.
  intros Hw Hr. unfold next in Hr. cbn [doing held] in Hr. rewrite !elem_of_app in Hr. destruct Hr as [Hr|[Hr|[Hr|[Hr|Hr]]]].
  - unfold start_creating in Hr. case_match; [|by apply elem_of_nil in Hr]. by apply list_elem_of_fmap in Hr as (q & -> & _).
  - unfold start_referencing in Hr. apply list_elem_of_bind in Hr as (o & Hr & _). apply elem_of_app in Hr as [Hr|Hr].
    + case_match; in_list Hr. subst r. split; [apply reference_same_list|done].
    + apply list_elem_of_fmap in Hr as (n & -> & _). split; [apply reference_same_list|done].
  - unfold start_dereferencing in Hr. apply list_elem_of_bind in Hr as (o & Hr & _).
    assert (∀ q k, same_list σ (after o q k).1 = same_list σ q.1 ∧ stuck_thread (after o q k).2 = true) as Hafter
      by (intros [? []] k; done).
    apply elem_of_app in Hr as [Hr|Hr].
    + in_list Hr; subst r; rewrite !(proj1 (Hafter _ _)); (split; [|apply Hafter]); [apply (dereference_same_list _ _ 0 true)|apply dereference_same_list].
    + apply list_elem_of_bind in Hr as (n & Hr & _). apply list_elem_of_fmap in Hr as (b & -> & _).
      rewrite !(proj1 (Hafter _ _)). split; [|apply Hafter]. apply dereference_same_list.
  - unfold start_locking in Hr. case_match; [by apply elem_of_nil in Hr|]. apply elem_of_app in Hr as [Hr|Hr].
    + case_match; [|by apply elem_of_nil in Hr]. by apply list_elem_of_fmap in Hr as (o & -> & _).
    + apply list_elem_of_bind in Hr as (o & Hr & _). case_match; in_list Hr. by subst r.
  - unfold start_working in Hr. rewrite Hw in Hr. by apply elem_of_nil in Hr.
Qed.

(** What a thread that is stuck does to the list: it adds to it. *)
Lemma stuck_next types address limit requests σ t r :
  DeferDeleteList σ ≠ [] → WorkItems σ = 0%nat → stuck_thread t = true → r ∈ next types address limit requests σ t →
  DeferDeleteList σ ⊆ DeferDeleteList r.1 ∧ WorkItems r.1 = 0%nat ∧ stuck_thread r.2 = true.
Proof.
  intros Hne Hw Ht Hr.
  assert (same_list σ r.1 → stuck_thread r.2 = true → DeferDeleteList σ ⊆ DeferDeleteList r.1 ∧ WorkItems r.1 = 0%nat ∧ stuck_thread r.2 = true) as Hsame
    by (intros [-> ->] ?; done).
  destruct t as [l d]. destruct d as [|p|o p|o| |o p|o p|p].
  - destruct (idle_stuck _ _ _ _ _ _ _ Hw Hr) as [? ?]. by apply Hsame.
  - apply list_elem_of_fmap in Hr as (q & -> & Hq%create_same_list). apply Hsame; [done|]. by destruct q.2.
  - apply list_elem_of_fmap in Hr as (q & -> & Hq%safe_same_list). apply Hsame; [done|]. by destruct q.2 as [|[]].
  - unfold next in Hr. cbn [doing held] in Hr. in_list Hr. subst r. by apply Hsame.
  - unfold next in Hr. cbn [doing held] in Hr. in_list Hr. subst r. by apply Hsame.
  - apply list_elem_of_fmap in Hr as (q & -> & Hq%free_same_list). apply Hsame; [done|]. cbn. by destruct q.2.
  - apply list_elem_of_fmap in Hr as (q & -> & Hq). unfold PhpDeferDeleteObject in Hq.
    destruct (DeferDeleteList σ) as [|x k] eqn:Hl; [done|].
    destruct p as [| | | |[y|]|]; try done; (destruct (get_header σ o); in_list Hq; subst q; cbn; rewrite ?Hl; split_and!; try done).
    by intros ? ?; right.
  - apply list_elem_of_fmap in Hr as (q & -> & Hq). destruct p as [|[|o k]|o p k]; [done|..]; cbn [PhpDeferDeleteObjectRoutine] in Hq.
    + in_list Hq. subst q. by apply Hsame.
    + case_match; in_list Hq; subst q; by apply Hsame.
    + apply list_elem_of_fmap in Hq as (q' & -> & Hq%free_same_list). apply Hsame; [done|]. cbn. by destruct q'.2.
Qed.

Lemma stuck_step types address limit requests o s s' : stuck o s → step (next types address limit requests) s s' → stuck o s'.
Proof.
  intros (Hin & Hw & Hts) Hstep. destruct Hstep as [i σ ts t σ' t' Hi Hn]. cbn [shared threads] in *.
  destruct (stuck_next types address limit requests σ t (σ', t')) as (Hsub & Hw' & Ht'); [by intros E; rewrite E in Hin; apply elem_of_nil in Hin|done|..|exact Hn|].
  { apply Hts. by eapply list_elem_of_lookup_2. }
  split; [by apply Hsub|]. split; [done|]. intros u [j Hj]%list_elem_of_lookup.
  apply list_lookup_insert_Some in Hj as [(_ & <- & _)|[_ Hj]]; [done|]. apply Hts. by eapply list_elem_of_lookup_2.
Qed.

(** Two threads defer the deletion of their objects 0 and 1. The second finds object
    0 on the list; the first queues the work item and executes it, and only then
    the second pushes object 1. *)
Definition lost_address (o : nat) : Z := 0x1000 + 64 * Z.of_nat o.
Definition lost_next := next ∅ lost_address 1 [(0, 64)].
Definition lost_schedule : list (nat * nat) :=
  [(0,0); (0,0); (0,0); (0,0); (1,0); (1,0); (1,0); (1,0);
   (0,1); (0,0); (0,0); (0,0); (0,0); (0,0);
   (1,1); (1,0); (1,0); (1,0); (1,0);
   (0,0); (0,1); (0,0); (0,0); (0,0); (0,0); (0,0);
   (1,0)]%nat.

(** [PhpDeferDeleteObject] looks at the first entry of the list before it pushes
    its object, instead of using the entry that the push replaced, so a work item
    may empty the list in between. Then the list has an object and no work item
    will ever be queued: two idle threads, object 1 on the list, and whatever the
    threads do from there, the object stays on the list, its storage is never
    freed, and the same holds of all objects deferred later. *)
Theorem defer_delete_lost :
  ∃ s, reachable lost_next (start 2) s ∧
    (∀ t, t ∈ threads s → t = Thread [] Idle) ∧ DeferDeleteList (shared s) = [1%nat] ∧ WorkItems (shared s) = 0%nat ∧
    ∀ s', rtc (step lost_next) s s' →
      1%nat ∈ DeferDeleteList (shared s') ∧ WorkItems (shared s') = 0%nat ∧ 1%nat ∉ (Frees (shared s')).*1 ∧
      ∀ o, o ∈ DeferDeleteList (shared s') → ∀ s'', rtc (step lost_next) s' s'' → o ∈ DeferDeleteList (shared s'').
Proof.
  destruct (run lost_next lost_schedule (start 2)) as [s|] eqn:Hrun; [|by vm_compute in Hrun]. exists s.
  pose proof (run_steps _ _ _ _ Hrun) as Hreach. vm_compute in Hrun. injection Hrun as <-.
  split; [exact Hreach|]. split; [intros t Ht; cbn [threads] in Ht; by in_list Ht|]. split; [done|]. split; [done|]. intros s' Hs.
  assert (∀ s1 s2 o, stuck o s1 → rtc (step lost_next) s1 s2 → stuck o s2) as Hstuck.
  { intros s1 s2 o H1 H2. revert H1. apply (steps_invariant lost_next (stuck o)); [|done]. intros ? ?. apply stuck_step. }
  assert (stuck 1 s') as (Hin & Hw & Hts).
  { eapply Hstuck; [|exact Hs]. split; [by left|]. split; [done|]. intros t Ht. cbn [threads] in Ht. in_list Ht; by subst t. }
  split; [done|]. split; [done|]. split.
  - destruct (system_reachable ∅ lost_address 1 [(0, 64)] ltac:(intros r Hr; in_list Hr; by subst r) 2 s' ltac:(done)) as [_ _ Hok _];
      [by (unfold reachable; etrans; [exact Hreach|exact Hs])|]. intros ([o f] & Ho & Hf)%list_elem_of_fmap. cbn in Ho. subst o.
    destruct (ok_deleted _ _ _ _ Hok 1 DListed) as (h & Hh & _); [apply elem_of_app; right; apply list_elem_of_fmap; by exists 1%nat|].
    apply (ok_frees _ _ _ _ Hok) in Hf as (g & Hg & Ha & _). apply get_header_Some in Hh as [? ?]. congruence.
  - intros o Ho s'' Hs''. by apply (Hstuck s' s'' o (conj Ho (conj Hw Hts)) Hs'').
Qed.

(** A type with a delete procedure; a thread creates an object of it, enters it in
    the table, and gives it up while the other one looks it up. *)
Definition sample_types : gmap Z PH_OBJECT_TYPE := {[5 := ObjectType 0 true]}.
Definition sample_schedule : list (nat * nat) :=
  [(0,0); (0,0); (0,0); (0,0); (0,9); (0,0); (0,0); (1,1); (1,0); (1,0); (1,0); (0,5); (1,5); (1,0); (1,0); (1,0); (1,0); (1,0)]%nat.
Definition sample_next := next sample_types lost_address 4 [(5, 16)].

Example ref_safe_witness :
  ∃ s, run sample_next sample_schedule (start 2) = Some s ∧ Frees (shared s) = [(0%nat, PH_OBJECT_FROM_SMALL_FREE_LIST)] ∧
    InvalidAccesses (shared s) = 0%nat ∧ NoDup (Frees (shared s)).*1.
Proof.
  assert (∀ r, r ∈ [(5, 16)] → 0 ≤ r.1 < 2 ^ 16) as Hreq by (intros r Hr; in_list Hr; by subst r).
  assert (Z.of_nat 2 * Z.of_nat 4 < 2 ^ 31) as Hroom by done.
  destruct (run sample_next sample_schedule (start 2)) as [s|] eqn:Hrun; [|by vm_compute in Hrun]. exists s.
  destruct (ref_safe sample_types lost_address 4 [(5, 16)] 2 s Hreq Hroom (run_steps _ _ _ _ Hrun)) as (? & _ & ? & _).
  split; [reflexivity|]. split; [|by split]. clear -Hrun. vm_compute in Hrun. injection Hrun as <-. reflexivity.
Defined.
