(* ===== verification/Wildcards.v ===== *)
(** Wildcard patterns ([PhMatchWildcards] of src/phlib/util.c): the matcher, which
    goes back to the last asterisk only, and the patterns' meaning. A
    null-terminated string is the list of its units, and a pointer into it is the
    rest of the list. *)

From S2P Require Import Prelude.

Definition QUESTION : Z := 0x3f.
Definition ASTERISK : Z := 0x2a.

Section Matcher.
(** What [RtlUpcaseUnicodeChar] returns. *)
Context (PhUpcaseUnicodeChar : Z → Z).

(** Whether two units are taken for the same. *)
Definition same_char (IgnoreCase : bool) (c d : Z) : bool :=
  if IgnoreCase then PhUpcaseUnicodeChar c =? PhUpcaseUnicodeChar d else c =? d.

Fixpoint skip_asterisks (p : list Z) : list Z :=
  match p with
  | c :: p' => if c =? ASTERISK then skip_asterisks p' else p
  | [] => []
  end.

(** The loop. At the end of the pattern [*p] is the null terminator; if that were
    taken for the character of the string, the code would read past it. *)
Fixpoint match_loop (fuel : nat) (IgnoreCase : bool) (String Pattern : list Z) (star : bool) (s p : list Z) : option bool :=
  match fuel with
  | O => None
  | S fuel =>
      match s with
      | [] => Some (match skip_asterisks p with [] => true | _ => false end)
      | c :: s' =>
          let StarCheck :=
            if star then match_loop fuel IgnoreCase (tail String) Pattern star (tail String) Pattern
            else Some false in
          match p with
          | [] => if same_char IgnoreCase c 0 then None else StarCheck
          | d :: p' =>
              if d =? QUESTION then match_loop fuel IgnoreCase String Pattern star s' p'
              else if d =? ASTERISK then
                match skip_asterisks p with
                | [] => Some true
                | Pattern => match_loop fuel IgnoreCase s Pattern true s Pattern
                end
              else if same_char IgnoreCase c d then match_loop fuel IgnoreCase String Pattern star s' p'
              else StarCheck
          end
      end
  end.

(** The fuel: how often the loop can start again, times how long it can run. *)
Definition match_fuel (Pattern String : list Z) : nat :=
  S ((length String + length Pattern) * S (length String) + length String).

Definition PhpMatchWildcards (Pattern String : list Z) (IgnoreCase : bool) : option bool :=
  match_loop (match_fuel Pattern String) IgnoreCase String Pattern false String Pattern.

Definition PhMatchWildcards (Pattern String : list Z) (IgnoreCase : bool) : option bool :=
  if IgnoreCase then PhpMatchWildcards Pattern String true else PhpMatchWildcards Pattern String false.

(** ** What a pattern means *)

Inductive matches (IgnoreCase : bool) : list Z → list Z → Prop :=
  | matches_end : matches IgnoreCase [] []
  | matches_any c p s : matches IgnoreCase p s → matches IgnoreCase (QUESTION :: p) (c :: s)
  | matches_some p s1 s2 : matches IgnoreCase p s2 → matches IgnoreCase (ASTERISK :: p) (s1 ++ s2)
  | matches_char c d p s :
      d ≠ QUESTION → d ≠ ASTERISK → same_char IgnoreCase c d = true →
      matches IgnoreCase p s → matches IgnoreCase (d :: p) (c :: s).

Context (IgnoreCase : bool).
Local Abbreviation fit := (matches IgnoreCase).

(** One unit of the pattern that is not an asterisk, and one of the string. *)
Definition fits (d c : Z) : Prop := d ≠ ASTERISK ∧ (d = QUESTION ∨ same_char IgnoreCase c d = true).

Lemma matches_cons d c p s : d ≠ ASTERISK → fit (d :: p) (c :: s) ↔ fits d c ∧ fit p s.
Proof.
  intros Hd. split.
  - inversion 1; subst; [split; [split; auto|done]|done|split; [split; auto|done]].
  - intros [[_ [->|Hs]] Hm]; [by constructor|]. destruct (decide (d = QUESTION)) as [->|]; by constructor.
Qed.

Lemma matches_cons_nil d p : d ≠ ASTERISK → ¬ fit (d :: p) [].
Proof. intros Hd. by inversion 1. Qed.

Lemma matches_asterisk p s : fit (ASTERISK :: p) s ↔ ∃ s1 s2, s = s1 ++ s2 ∧ fit p s2.
Proof.
  split.
  - inversion 1; subst; [eauto|done].
  - intros (s1 & s2 & -> & Hm). by constructor.
Qed.

Lemma matches_nil s : fit [] s ↔ s = [].
Proof. split; [by inversion 1|intros ->; constructor]. Qed.

(** Several asterisks are one. *)
Lemma matches_asterisks p s :
  fit (ASTERISK :: p) s ↔ ∃ s1 s2, s = s1 ++ s2 ∧ fit (skip_asterisks p) s2.
Proof.
  revert s. induction p as [|d p IH]; intros s; [apply matches_asterisk|].
  cbn [skip_asterisks]. destruct (Z.eqb_spec d ASTERISK) as [->|Hd]; [|apply matches_asterisk].
  rewrite matches_asterisk. split.
  - intros (s1 & s2 & -> & (s3 & s4 & -> & Hm)%IH). exists (s1 ++ s3), s4. by rewrite <-app_assoc.
  - intros (s1 & s2 & -> & Hm). exists [], (s1 ++ s2). split; [done|]. apply IH. eauto.
Qed.

Lemma matches_at_end p : fit p [] ↔ skip_asterisks p = [].
Proof.
  induction p as [|d p IH]; [by rewrite matches_nil|]. cbn [skip_asterisks].
  destruct (Z.eqb_spec d ASTERISK) as [->|Hd].
  - rewrite <-IH, matches_asterisk. split; [|by exists [], []]. by intros (s1 & s2 & [-> ->]%eq_sym%app_eq_nil & ?).
  - split; [intros ?%matches_cons_nil; done|done].
Qed.

Lemma skip_length p : (length (skip_asterisks p) ≤ length p)%nat.
Proof. induction p as [|d p IH]; [done|]. cbn [skip_asterisks]. case_match; cbn; lia. Qed.

(** *** Since the last asterisk

    The loop has got from [P] and [S] to [p] and [s] without an asterisk. *)
Inductive since : list Z → list Z → list Z → list Z → Prop :=
  | since_here p s : since p s p s
  | since_step P S d c p s : since P S (d :: p) (c :: s) → fits d c → since P S p s.

Lemma since_matches P S p s : since P S p s → fit P S ↔ fit p s.
Proof. induction 1 as [|P S d c p s _ IH Hf]; [done|]. rewrite IH, matches_cons by apply Hf. tauto. Qed.

Lemma since_suffix P S p s :
  since P S p s →
  ∃ k, s = drop k S ∧ (k ≤ length S)%nat ∧ (length p ≤ length P)%nat ∧
    ∀ S', fit P S' → (k ≤ length S')%nat ∧ fit p (drop k S').
Proof.
  induction 1 as [|P S d c p s _ (k & Hk & Hkl & Hp & Hm) Hf].
  - exists 0%nat. split_and!; [done|lia|done|]. intros S' Hm. split; [lia|done].
  - exists (Datatypes.S k). cbn [length] in Hp. split_and!; [|apply (f_equal length) in Hk; rewrite length_drop in Hk; cbn in Hk; lia|lia|].
    + rewrite <-Nat.add_1_r, <-drop_drop, <-Hk. done.
    + intros S' (HkS & HS)%Hm. destruct (drop k S') as [|x l] eqn:Hd; [by apply matches_cons_nil in HS; [|apply Hf]|].
      apply matches_cons in HS as [_ HS]; [|apply Hf].
      split; [apply (f_equal length) in Hd; rewrite length_drop in Hd; cbn in Hd; lia|].
      by rewrite <-Nat.add_1_r, <-drop_drop, Hd.
Qed.

(** What the loop is to find out: whether the pattern matches the string, or, after
    an asterisk, some end of it. *)
Definition goal (star : bool) (P S : list Z) : Prop := if star then ∃ j, fit P (drop j S) else fit P S.

(** The string is at its end. *)
Lemma goal_end star P S p : since P S p [] → goal star P S ↔ skip_asterisks p = [].
Proof.
  intros Hs. rewrite <-matches_at_end, <-(since_matches _ _ _ _ Hs). destruct star; [|done]. cbn. split; [|by exists 0%nat].
  intros (j & Hm). destruct (since_suffix _ _ _ _ Hs) as (k & Hk & Hkl & _ & Hfit). destruct (Hfit _ Hm) as [Hj _].
  rewrite length_drop in Hj. apply (f_equal length) in Hk. rewrite length_drop in Hk. cbn in Hk.
  destruct (decide (j = 0%nat)) as [->|]; [done|]. destruct S; cbn in *; [by rewrite drop_nil in Hm|lia].
Qed.

(** The pattern is at an asterisk. *)
Lemma goal_asterisk star P S p s :
  since P S (ASTERISK :: p) s → goal star P S ↔ goal true (skip_asterisks p) s.
Proof.
  intros Hs. assert (fit (ASTERISK :: p) s ↔ goal true (skip_asterisks p) s) as Hp.
  { rewrite matches_asterisks. cbn. split.
    - intros (s1 & s2 & -> & Hm). exists (length s1). by rewrite drop_app_length.
    - intros (j & Hm). exists (take j s), (drop j s). by rewrite take_drop. }
  destruct star; [|by rewrite <-Hp, <-(since_matches _ _ _ _ Hs)]. split.
  - intros (j & Hm). destruct (since_suffix _ _ _ _ Hs) as (k & Hk & _ & _ & Hfit). destruct (Hfit _ Hm) as [_ Hm'].
    apply matches_asterisks in Hm' as (s1 & s2 & Hd & Hm').
    assert (s2 = drop (length s1) (drop k (drop j S))) as -> by (by rewrite Hd, drop_app_length).
    exists (j + length s1)%nat. rewrite Hk. rewrite !drop_drop in *.
    match type of Hm' with fit _ (drop ?x _) => by replace (k + (j + length s1))%nat with x by lia end.
  - intros Hg. exists 0%nat. by apply (since_matches _ _ _ _ Hs), Hp.
Qed.

(** The pattern does not fit here. *)
Lemma goal_misfit P S p s :
  since P S p s → s ≠ [] → ¬ fit p s → goal true P S ↔ goal true P (tail S).
Proof.
  intros Hs Hne Hmis. destruct (since_suffix _ _ _ _ Hs) as (k & Hk & _). cbn. split.
  - intros ([|j] & Hm); [by rewrite (since_matches _ _ _ _ Hs) in Hm|]. exists j. by destruct S; [rewrite !drop_nil in *|].
  - intros (j & Hm). exists (Datatypes.S j). destruct S; [by rewrite drop_nil in Hk|done].
Qed.

(** [r] decides [G]. *)
Definition decides (r : option bool) (G : Prop) : Prop := ∃ b, r = Some b ∧ (b = true ↔ G).

Lemma decides_iff r G G' : (G ↔ G') → decides r G' → decides r G.
Proof. intros HG (b & Hb & Hd). exists b. by rewrite HG. Qed.

(** *** The loop

    Its fuel lasts: each time it starts again, the string or the pattern is
    shorter. *)
Context (Hzero : ∀ c, c ≠ 0 → same_char IgnoreCase c 0 = false).

Lemma match_loop_ok n fuel star P S s p :
  since P S p s → (∀ c, c ∈ S → c ≠ 0) → (length S ≤ n)%nat →
  ((length S + length P) * Datatypes.S n + length s < fuel)%nat →
  decides (match_loop fuel IgnoreCase S P star s p) (goal star P S).
Proof using Hzero.
  revert star P S s p. induction fuel as [|fuel IH]; intros star P S s p Hs HS Hn Hf; [lia|].
  destruct (since_suffix _ _ _ _ Hs) as (k & Hk & Hkl & Hp & _). cbn [match_loop].
  destruct s as [|c s'].
  { eexists. split; [done|]. rewrite (goal_end _ _ _ _ Hs). by destruct (skip_asterisks p). }
  assert (c ∈ S) as Hc by (apply (elem_of_subseteq (drop k S)); [apply subseteq_drop|rewrite <-Hk; by left]).
  assert (¬ fit p (c :: s') →
    decides (if star then match_loop fuel IgnoreCase (tail S) P star (tail S) P else Some false) (goal star P S)) as Hcheck.
  { intros Hmis. destruct star.
    - eapply decides_iff; [by eapply goal_misfit|]. destruct S as [|x S]; [by apply elem_of_nil in Hc|]. cbn [tail length] in *.
      apply IH; [constructor|intros ? ?; apply HS; by right|lia|lia].
    - exists false. split; [done|]. cbn. by rewrite (since_matches _ _ _ _ Hs). }
  assert (∀ d p', p = d :: p' → fits d c →
    decides (match_loop fuel IgnoreCase S P star s' p') (goal star P S)) as Hgo.
  { intros d p' -> Hd. apply IH; [by econstructor|done|done|cbn in Hf; lia]. }
  destruct p as [|d p'].
  - rewrite Hzero by (by apply HS). apply Hcheck. by inversion 1.
  - destruct (Z.eqb_spec d QUESTION) as [->|Hq]; [apply (Hgo _ _ eq_refl); by split; [|left]|].
    destruct (Z.eqb_spec d ASTERISK) as [->|Ha].
    + pose proof (goal_asterisk star _ _ _ _ Hs) as Hg. pose proof (skip_length p') as Hlen. cbn [length] in Hp.
      change (skip_asterisks (ASTERISK :: p')) with (skip_asterisks p').
      destruct (skip_asterisks p') as [|e p''] eqn:He.
      * exists true. split; [done|]. rewrite Hg. split; [intros _|done]. exists (length (c :: s')). rewrite drop_all. constructor.
      * eapply decides_iff; [exact Hg|]. assert (length (c :: s') ≤ length S)%nat by (rewrite Hk, length_drop; lia).
        apply IH; [constructor| |lia|].
        -- intros x Hx. apply HS. apply (elem_of_subseteq (drop k S)); [apply subseteq_drop|by rewrite <-Hk].
        -- remember (length (c :: s')) as a. remember (length (e :: p'')) as b. nia.
    + destruct (same_char IgnoreCase c d) eqn:Hsame; [apply (Hgo _ _ eq_refl); by split; [|right]|].
      apply Hcheck. rewrite matches_cons by done. intros [[_ [?|?]] _]; congruence.
Qed.

End Matcher.

(** C22. [PhMatchWildcards] always returns and decides whether the pattern matches the
    whole string: an asterisk stands for any units, a question mark for one, and
    every other unit for itself or, ignoring case, for a unit with the same
    upper case. Strings are null-terminated, so they have no null units, and no
    other unit may have the null unit as its upper case. *)
Theorem wildcards_match upcase Pattern String IgnoreCase :
  (∀ c, c ∈ String → c ≠ 0) → (∀ c, c ≠ 0 → upcase c ≠ upcase 0) →
  ∃ b, PhMatchWildcards upcase Pattern String IgnoreCase = Some b ∧ (b = true ↔ matches upcase IgnoreCase Pattern String).
Proof.
  intros Hs Hup.
  assert (∀ ic c, c ≠ 0 → same_char upcase ic c 0 = false) as Hzero by (intros [] c Hc; apply Z.eqb_neq; auto).
  assert (∀ ic, decides (PhpMatchWildcards upcase Pattern String ic) (matches upcase ic Pattern String)) as Hall.
  { intros ic. apply (match_loop_ok upcase ic (Hzero ic) (length String)); [constructor|done|done|unfold match_fuel; lia]. }
  unfold PhMatchWildcards. destruct IgnoreCase; apply Hall.
Qed.

(** Upper case of the letters a to z, for the examples. *)
Definition ascii_upcase (c : Z) : Z := if (97 <=? c) && (c <=? 122) then c - 32 else c.

(** [a*b?c] and [AxxbabyC]. *)
Example wildcards_match_witness :
  matches ascii_upcase true [97; 42; 98; 63; 99] [65; 120; 98; 97; 98; 121; 67].
Proof.
  destruct (wildcards_match ascii_upcase [97; 42; 98; 63; 99] [65; 120; 98; 97; 98; 121; 67] true) as (b & Hb & Hm).
  - intros c Hc ->. by repeat (apply elem_of_cons in Hc as [Hc|Hc]); [..|apply elem_of_nil in Hc].
  - intros c Hc. unfold ascii_upcase. repeat case_match; lia.
  - apply Hm. vm_compute in Hb. congruence.
Defined.
