(* ===== verification/NaturalCompare.v ===== *)
(** Comparing strings in natural order ([PhCompareStringZNatural] of
    src/phlib/basesup.c): numbers in the strings are compared as numbers, or, with
    leading zeros, as fractions, and spaces are skipped. The comparison is shown to
    be a total order of keys, so that sorting by it makes sense. *)

From S2P Require Import Prelude Wildcards.

Definition ZERO : Z := 0x30.
Definition SPACE : Z := 0x20.
Definition PhIsDigitCharacter (c : Z) : bool := u16 (c - ZERO) <? 10.

(** What a pointer points at; strings end with a null unit. *)
Definition deref (A : list Z) : Z := hd 0 A.

Section Compare.
(** What [RtlUpcaseUnicodeChar] returns. *)
Context (PhUpcaseUnicodeChar : Z → Z).

Fixpoint PhpCompareRightNatural (A B : list Z) (bias : Z) : Z :=
  if negb (PhIsDigitCharacter (deref A)) && negb (PhIsDigitCharacter (deref B)) then bias
  else if negb (PhIsDigitCharacter (deref A)) then -1
  else if negb (PhIsDigitCharacter (deref B)) then 1
  else
    let bias' :=
      if deref A <? deref B then (if bias =? 0 then -1 else bias)
      else if deref B <? deref A then (if bias =? 0 then 1 else bias)
      else bias in
    match A with [] => bias | _ :: A' => PhpCompareRightNatural A' (tail B) bias' end.

Fixpoint PhpCompareLeftNatural (A B : list Z) : Z :=
  if negb (PhIsDigitCharacter (deref A)) && negb (PhIsDigitCharacter (deref B)) then 0
  else if negb (PhIsDigitCharacter (deref A)) then -1
  else if negb (PhIsDigitCharacter (deref B)) then 1
  else if deref A <? deref B then -1
  else if deref B <? deref A then 1
  else match A with [] => 0 | _ :: A' => PhpCompareLeftNatural A' (tail B) end.

Fixpoint skip_spaces (A : list Z) : list Z :=
  match A with
  | c :: A' => if c =? SPACE then skip_spaces A' else A
  | [] => []
  end.

(** If the null unit were taken for a character, the code would read past the end
    of a string. *)
Fixpoint compare_loop (fuel : nat) (A B : list Z) (IgnoreCase : bool) : option Z :=
  match fuel with
  | O => None
  | S fuel =>
      let A := skip_spaces A in
      let B := skip_spaces B in
      let ca := deref A in
      let cb := deref B in
      let result :=
        if PhIsDigitCharacter ca && PhIsDigitCharacter cb then
          let fractional := (ca =? ZERO) || (cb =? ZERO) in
          if fractional then PhpCompareLeftNatural A B else PhpCompareRightNatural A B 0
        else 0 in
      if negb (result =? 0) then Some result
      else if (ca =? 0) && (cb =? 0) then Some 0
      else
        let ca := if IgnoreCase then PhUpcaseUnicodeChar ca else ca in
        let cb := if IgnoreCase then PhUpcaseUnicodeChar cb else cb in
        if ca <? cb then Some (-1)
        else if cb <? ca then Some 1
        else
          match A, B with
          | _ :: A, _ :: B => compare_loop fuel A B IgnoreCase
          | _, _ => None
          end
  end.

(** The fuel: the loop gets on in both strings. *)
Definition PhpCompareStringZNatural (A B : list Z) (IgnoreCase : bool) : option Z :=
  compare_loop (S (length A)) A B IgnoreCase.

Definition PhCompareStringZNatural (A B : list Z) (IgnoreCase : bool) : option Z :=
  if negb IgnoreCase then PhpCompareStringZNatural A B false else PhpCompareStringZNatural A B true.

End Compare.

(** ** Orders

    A comparison that is negative, zero or positive as its first argument is
    smaller than, the same as or greater than its second. *)
Class Ordering {T} (cmp : T → T → Z) : Prop := {
  ordering_eq x y : cmp x y = 0 ↔ x = y;
  ordering_opp x y : cmp y x = - cmp x y;
  ordering_lt x y z : cmp x y < 0 → cmp y z < 0 → cmp x z < 0;
}.

Definition compare_Z (x y : Z) : Z := Z.sgn (x - y).

(** The first difference decides; a list comes before the lists it begins. *)
Fixpoint lexicographic {T} (cmp : T → T → Z) (l k : list T) : Z :=
  match l, k with
  | [], [] => 0
  | [], _ :: _ => -1
  | _ :: _, [] => 1
  | x :: l, y :: k => if cmp x y =? 0 then lexicographic cmp l k else cmp x y
  end.

#[export] Instance compare_Z_ordering : Ordering compare_Z.
Proof. split; unfold compare_Z; intros; lia. Qed.

#[export] Instance lexicographic_ordering {T} (cmp : T → T → Z) `{!Ordering cmp} : Ordering (lexicographic cmp).
Proof.
  split.
  - intros l. induction l as [|x l IH]; intros [|y k]; cbn [lexicographic]; [done..|].
    pose proof (ordering_eq x y) as He. destruct (Z.eqb_spec (cmp x y) 0) as [H0|H0].
    + apply He in H0 as ->. rewrite IH. split; [by intros ->|by intros [= ->]].
    + split; [lia|]. intros [= -> ->]. by destruct H0; apply He.
  - intros l. induction l as [|x l IH]; intros [|y k]; cbn [lexicographic]; [done..|].
    rewrite (ordering_opp x y), IH. destruct (Z.eqb_spec (cmp x y) 0), (Z.eqb_spec (- cmp x y) 0); lia.
  - intros l. induction l as [|x l IH]; intros [|y k] [|z m]; cbn [lexicographic]; try lia.
    pose proof (ordering_eq x y) as Hxy. pose proof (ordering_eq y z) as Hyz. pose proof (ordering_eq x z) as Hxz.
    destruct (Z.eqb_spec (cmp x y) 0) as [H1|H1], (Z.eqb_spec (cmp y z) 0) as [H2|H2].
    + apply Hxy in H1 as ->. rewrite (proj2 (Z.eqb_eq _ _) H2). apply IH.
    + apply Hxy in H1 as ->. intros _ ?. by rewrite (proj2 (Z.eqb_neq _ _) H2).
    + apply Hyz in H2 as ->. intros ? _. by rewrite (proj2 (Z.eqb_neq _ _) H1).
    + intros Hl Hk. pose proof (ordering_lt x y z Hl Hk). destruct (Z.eqb_spec (cmp x z) 0); lia.
Qed.

(** ** Keys

    What the comparison sees at a unit of a string: the number that begins there,
    or the unit itself. A number without leading zeros is compared by its number of
    digits first. *)
Fixpoint digits (A : list Z) : list Z :=
  match A with
  | c :: A' => if PhIsDigitCharacter c then c :: digits A' else []
  | [] => []
  end.

Definition number_key (ds : list Z) : list Z :=
  if deref ds =? ZERO then ZERO :: ds else 0x31 :: Z.of_nat (length ds) :: ds.

Section Keys.
Context (upcase : Z → Z).

Definition unit_key (A : list Z) : list Z :=
  if PhIsDigitCharacter (deref A) then number_key (digits A) else [upcase (deref A)].

Fixpoint natural_key (A : list Z) : list (list Z) :=
  match A with
  | [] => []
  | c :: A' => if c =? SPACE then natural_key A' else unit_key A :: natural_key A'
  end.

End Keys.

Definition is_unit (c : Z) : Prop := 0 < c < 2 ^ 16.

Lemma digit_spec c : 0 ≤ c < 2 ^ 16 → PhIsDigitCharacter c = true ↔ 0x30 ≤ c ≤ 0x39.
Proof. intros Hc. unfold PhIsDigitCharacter, ZERO, u16. rewrite Z.ltb_lt. Z.to_euclidean_division_equations. lia. Qed.

Lemma deref_range A : Forall is_unit A → 0 ≤ deref A < 2 ^ 16.
Proof. unfold is_unit. destruct 1; cbn; lia. Qed.

Lemma tail_units A : Forall is_unit A → Forall is_unit (tail A).
Proof. by destruct 1. Qed.

Lemma digits_deref A : digits A = if PhIsDigitCharacter (deref A) then deref A :: digits (tail A) else [].
Proof. by destruct A. Qed.

Lemma digit_nonempty A : PhIsDigitCharacter (deref A) = true → A = deref A :: tail A.
Proof. by destruct A. Qed.

Lemma compare_Z_lt x y : x < y → compare_Z x y = -1.
Proof. unfold compare_Z. lia. Qed.

Lemma compare_Z_gt x y : y < x → compare_Z x y = 1.
Proof. unfold compare_Z. lia. Qed.

Lemma compare_Z_refl x : compare_Z x x = 0.
Proof. unfold compare_Z. lia. Qed.

(** *** Runs of digits *)

Lemma compare_left A B : PhpCompareLeftNatural A B = lexicographic compare_Z (digits A) (digits B).
Proof.
  revert B. induction A as [|c A IH]; intros B; rewrite (digits_deref B).
  - cbn. by destruct (PhIsDigitCharacter (deref B)).
  - rewrite (digits_deref (c :: A)). cbn [PhpCompareLeftNatural deref hd tail].
    destruct (PhIsDigitCharacter c), (PhIsDigitCharacter (deref B)); [|done..]. cbn [negb andb lexicographic].
    fold (deref B). destruct (Z.ltb_spec c (deref B)); [by rewrite compare_Z_lt|].
    destruct (Z.ltb_spec (deref B) c); [by rewrite compare_Z_gt|].
    assert (c = deref B) as -> by lia. rewrite compare_Z_refl. apply IH.
Qed.

(** The longer number is greater; of two numbers as long, the first difference
    decides, which [bias] remembers. *)
Lemma compare_right A B bias :
  PhpCompareRightNatural A B bias =
    let length_order := compare_Z (Z.of_nat (length (digits A))) (Z.of_nat (length (digits B))) in
    if negb (length_order =? 0) then length_order
    else if negb (bias =? 0) then bias else lexicographic compare_Z (digits A) (digits B).
Proof.
  revert B bias. induction A as [|c A IH]; intros B bias; rewrite (digits_deref B).
  - cbn [PhpCompareRightNatural deref hd]. change (PhIsDigitCharacter 0) with false. fold (deref B).
    destruct (PhIsDigitCharacter (deref B)); cbn [negb andb].
    + rewrite compare_Z_lt by (cbn [length digits]; lia). done.
    + rewrite compare_Z_refl. cbn. by destruct (Z.eqb_spec bias 0) as [->|].
  - rewrite (digits_deref (c :: A)). cbn [PhpCompareRightNatural deref hd tail].
    destruct (PhIsDigitCharacter c), (PhIsDigitCharacter (deref B)); cbn [negb andb].
    + fold (deref B). rewrite IH. cbv zeta.
      assert (∀ n m, compare_Z (Z.of_nat (S n)) (Z.of_nat (S m)) = compare_Z (Z.of_nat n) (Z.of_nat m)) as Hlen
        by (intros n m; unfold compare_Z; f_equal; lia).
      cbn [length]. rewrite Hlen. destruct (negb (compare_Z (Z.of_nat (length (digits A))) _ =? 0)); [done|].
      cbn [lexicographic].
      destruct (Z.ltb_spec c (deref B)); [|destruct (Z.ltb_spec (deref B) c)].
      * rewrite compare_Z_lt by done. by destruct (Z.eqb_spec bias 0) as [->|]; cbn; [|rewrite (proj2 (Z.eqb_neq bias 0))].
      * rewrite compare_Z_gt by done. by destruct (Z.eqb_spec bias 0) as [->|]; cbn; [|rewrite (proj2 (Z.eqb_neq bias 0))].
      * assert (c = deref B) as -> by lia. by rewrite compare_Z_refl.
    + rewrite compare_Z_gt by (cbn [length]; lia). done.
    + rewrite compare_Z_lt by (cbn [length]; lia). done.
    + rewrite compare_Z_refl. cbn. by destruct (Z.eqb_spec bias 0) as [->|].
Qed.

(** Two numbers compare as their keys do. *)
Lemma compare_numbers A B :
  Forall is_unit A → Forall is_unit B → PhIsDigitCharacter (deref A) = true → PhIsDigitCharacter (deref B) = true →
  (if (deref A =? ZERO) || (deref B =? ZERO) then PhpCompareLeftNatural A B else PhpCompareRightNatural A B 0) =
  lexicographic compare_Z (number_key (digits A)) (number_key (digits B)).
Proof.
  intros HA HB Ha Hb. rewrite compare_left, compare_right. cbv zeta. unfold number_key.
  rewrite (digits_deref A), (digits_deref B), Ha, Hb. cbn [deref hd]. fold (deref A) (deref B).
  apply digit_spec in Ha, Hb; try by apply deref_range. unfold ZERO in *.
  destruct (Z.eqb_spec (deref A) 0x30) as [Ea|Ea], (Z.eqb_spec (deref B) 0x30) as [Eb|Eb]; cbn [orb].
  - change (lexicographic compare_Z (48 :: ?l) (48 :: ?k)) with (lexicographic compare_Z l k). done.
  - rewrite Ea. cbn [lexicographic]. rewrite !compare_Z_lt by lia. done.
  - rewrite Eb. cbn [lexicographic]. rewrite !compare_Z_gt by lia. done.
  - set (la := deref A :: _). set (lb := deref B :: _). cbn [lexicographic]. rewrite compare_Z_refl. cbn [Z.eqb].
    by destruct (compare_Z (Z.of_nat (length la)) (Z.of_nat (length lb)) =? 0).
Qed.

(** What the comparison needs of the upper case: it leaves digits and the null unit
    alone and makes no other unit one of them. *)
Class Upcase (upcase : Z → Z) : Prop := {
  upcase_null : upcase 0 = 0;
  upcase_unit c : is_unit c → is_unit (upcase c);
  upcase_digit c : is_unit c → PhIsDigitCharacter c = true → upcase c = c;
  upcase_other c : is_unit c → PhIsDigitCharacter c = false → PhIsDigitCharacter (upcase c) = false;
}.

Arguments upcase_null upcase {_}.
Arguments upcase_unit upcase {_} c _.
Arguments upcase_digit upcase {_} c _ _.
Arguments upcase_other upcase {_} c _ _.

#[export] Instance upcase_none : Upcase (λ c, c).
Proof. by split. Qed.

Section Loop.
Context (upcase : Z → Z) `{!Upcase upcase}.

Lemma skip_spaces_key A : natural_key upcase (skip_spaces A) = natural_key upcase A.
Proof using Type. induction A as [|c A IH]; [done|]. cbn [skip_spaces]. by destruct (Z.eqb_spec c SPACE) as [->|]. Qed.

Lemma skip_spaces_units A : Forall is_unit A → Forall is_unit (skip_spaces A) ∧ (length (skip_spaces A) ≤ length A)%nat.
Proof using Type.
  induction 1 as [|c A Hc HA [IH IHl]]; [done|]. cbn. destruct (c =? SPACE); split; [done|lia|by constructor|cbn; lia].
Qed.

Lemma skip_spaces_head A : skip_spaces A = [] ∨ ∃ c A', skip_spaces A = c :: A' ∧ c ≠ SPACE.
Proof using Type. induction A as [|c A IH]; [by left|]. cbn. destruct (Z.eqb_spec c SPACE); [done|]. right. eauto. Qed.

(** A number compares with another unit as any digit does. *)
Lemma number_key_head A c :
  0 ≤ deref A < 2 ^ 16 → 0 ≤ c < 2 ^ 16 → PhIsDigitCharacter (deref A) = true → PhIsDigitCharacter c = false →
  lexicographic compare_Z (number_key (digits A)) [c] = compare_Z (deref A) c ∧
  lexicographic compare_Z [c] (number_key (digits A)) = compare_Z c (deref A).
Proof using Type.
  intros Ra Rc Ha Hc. assert (∃ h t, number_key (digits A) = h :: t ∧ 0x30 ≤ h ≤ 0x39) as (h & t & -> & Hh).
  { unfold number_key. destruct (_ =? ZERO); eexists _, _; (split; [done|unfold ZERO; lia]). }
  apply digit_spec in Ha; [|done]. assert (¬ (0x30 ≤ c ≤ 0x39)) by (rewrite <-digit_spec by done; by rewrite Hc).
  cbn [lexicographic]. destruct (Z.lt_ge_cases c 0x30).
  - rewrite !(compare_Z_gt _ c), !(compare_Z_lt c) by lia. done.
  - rewrite !(compare_Z_lt _ c), !(compare_Z_gt c) by lia. done.
Qed.

(** What is compared after numbers that are the same: if these are numbers their
    keys are equal, and otherwise the units decide. *)
Lemma unit_compare A B :
  Forall is_unit A → Forall is_unit B → A ≠ [] → B ≠ [] →
  let ca := deref A in let cb := deref B in
  let order := lexicographic compare_Z (unit_key upcase A) (unit_key upcase B) in
  let result := if PhIsDigitCharacter ca && PhIsDigitCharacter cb then order else 0 in
  if negb (result =? 0) then result = order else order = compare_Z (upcase ca) (upcase cb).
Proof using Upcase0.
  intros HA HB HneA HneB. cbv zeta.
  assert (is_unit (deref A) ∧ is_unit (deref B)) as [Ua Ub] by (destruct HA, HB; done).
  destruct (PhIsDigitCharacter (deref A)) eqn:Ha, (PhIsDigitCharacter (deref B)) eqn:Hb; cbn [andb].
  - destruct (Z.eqb_spec (lexicographic compare_Z (unit_key upcase A) (unit_key upcase B)) 0) as [H0|H0]; [|done]. cbn [negb].
    rewrite H0. apply (ordering_eq (cmp := lexicographic compare_Z)) in H0. unfold unit_key, number_key in H0. rewrite Ha, Hb in H0.
    rewrite (digits_deref A), (digits_deref B), Ha, Hb in H0. cbn [deref hd] in H0. fold (deref A) (deref B) in H0. unfold ZERO in H0.
    rewrite !(upcase_digit upcase) by done.
    assert (deref A = deref B) as -> by (destruct (deref A =? 48), (deref B =? 48); congruence). by rewrite compare_Z_refl.
  - unfold unit_key. rewrite Ha, Hb, (upcase_digit upcase (deref A)) by done. cbn [Z.eqb negb]. pose proof (upcase_unit upcase _ Ub). unfold is_unit in *.
    apply number_key_head; [lia|lia|done|by apply (upcase_other upcase); unfold is_unit].
  - unfold unit_key. rewrite Ha, Hb, (upcase_digit upcase (deref B)) by done. cbn [Z.eqb negb]. pose proof (upcase_unit upcase _ Ua). unfold is_unit in *.
    apply number_key_head; [lia|lia|done|by apply (upcase_other upcase); unfold is_unit].
  - unfold unit_key. rewrite Ha, Hb. cbn [lexicographic Z.eqb negb].
    by destruct (Z.eqb_spec (compare_Z (upcase (deref A)) (upcase (deref B))) 0) as [->|].
Qed.

Context (PhUpcaseUnicodeChar : Z → Z) (IgnoreCase : bool).
Context (Hcase : ∀ c, upcase c = if IgnoreCase then PhUpcaseUnicodeChar c else c).

Lemma compare_loop_ok fuel A B :
  Forall is_unit A → Forall is_unit B → (length A < fuel)%nat →
  compare_loop PhUpcaseUnicodeChar fuel A B IgnoreCase =
  Some (lexicographic (lexicographic compare_Z) (natural_key upcase A) (natural_key upcase B)).
Proof using Upcase0 Hcase.
  revert A B. induction fuel as [|fuel IH]; intros A B HA HB Hf; [lia|]. cbn [compare_loop].
  rewrite <-(skip_spaces_key A), <-(skip_spaces_key B).
  destruct (skip_spaces_units A HA) as [HA' HlA]. destruct (skip_spaces_units B HB) as [HB' _].
  pose proof (skip_spaces_head A) as HsA. pose proof (skip_spaces_head B) as HsB.
  set (a := skip_spaces A) in *. set (b := skip_spaces B) in *. assert (length a < S fuel)%nat as Hfa by lia. clearbody a b. clear A B HA HB Hf HlA. rename Hfa into Hf. rewrite <-!Hcase.
  destruct HsA as [->|(ca & A & -> & HcA)], HsB as [->|(cb & B & -> & HcB)].
  - done.
  - cbn [deref hd]. change (PhIsDigitCharacter 0) with false. cbn [andb negb Z.eqb]. apply Forall_cons in HB' as [Hb HB].
    rewrite (upcase_null upcase). pose proof (upcase_unit upcase cb Hb) as Hu. unfold is_unit in *. rewrite (proj2 (Z.eqb_neq cb 0)) by lia.
    rewrite (proj2 (Z.ltb_lt _ _)) by lia. cbn [natural_key]. by rewrite (proj2 (Z.eqb_neq cb SPACE)).
  - cbn [deref hd]. change (PhIsDigitCharacter 0) with false. rewrite andb_false_r. cbn [negb Z.eqb]. apply Forall_cons in HA' as [Ha HA].
    rewrite (upcase_null upcase). pose proof (upcase_unit upcase ca Ha) as Hu. unfold is_unit in *. rewrite (proj2 (Z.eqb_neq ca 0)) by lia.
    cbn [andb]. rewrite (proj2 (Z.ltb_ge _ _)), (proj2 (Z.ltb_lt _ _)) by lia. cbn [natural_key]. by rewrite (proj2 (Z.eqb_neq ca SPACE)).
  - pose proof (unit_compare (ca :: A) (cb :: B) HA' HB' ltac:(done) ltac:(done)) as Hu. cbv zeta in Hu.
    replace (if PhIsDigitCharacter (deref (ca :: A)) && PhIsDigitCharacter (deref (cb :: B)) then
        if (deref (ca :: A) =? ZERO) || (deref (cb :: B) =? ZERO) then PhpCompareLeftNatural (ca :: A) (cb :: B)
        else PhpCompareRightNatural (ca :: A) (cb :: B) 0 else 0)
      with (if PhIsDigitCharacter (deref (ca :: A)) && PhIsDigitCharacter (deref (cb :: B))
        then lexicographic compare_Z (unit_key upcase (ca :: A)) (unit_key upcase (cb :: B)) else 0).
    2:{ destruct (PhIsDigitCharacter (deref (ca :: A))) eqn:Ha, (PhIsDigitCharacter (deref (cb :: B))) eqn:Hb; [|done..]. cbn [andb].
        rewrite compare_numbers by done. unfold unit_key. by rewrite Ha, Hb. }
    cbn [natural_key]. rewrite (proj2 (Z.eqb_neq ca SPACE)), (proj2 (Z.eqb_neq cb SPACE)) by done. cbn [lexicographic].
    apply Forall_cons in HA' as [Ua HA]. apply Forall_cons in HB' as [Ub HB].
    set (order := lexicographic compare_Z _ _) in *. set (result := if _ && _ then order else 0) in *. clearbody order.
    destruct (Z.eqb_spec result 0) as [Hr|Hr]; cbn [negb] in Hu |- *.
    + cbn [deref hd] in *. unfold is_unit in Ua, Ub. rewrite (proj2 (Z.eqb_neq ca 0)) by lia. cbn [andb].
      destruct (Z.ltb_spec (upcase ca) (upcase cb)); [rewrite Hu, compare_Z_lt by done; done|].
      destruct (Z.ltb_spec (upcase cb) (upcase ca)); [rewrite Hu, compare_Z_gt by done; done|].
      assert (order = 0) as -> by (rewrite Hu; unfold compare_Z; lia). cbn [Z.eqb]. apply IH; [done..|cbn in *; lia].
    + rewrite Hu in Hr |- *. by rewrite (proj2 (Z.eqb_neq order 0)).
Qed.

End Loop.

(** [PhCompareStringZNatural] always returns, and its result is the order of the
    keys of the two strings: units by their upper case, numbers by their value, or
    as fractions if one has a leading zero, and spaces nowhere. So it is a total
    order up to that: it agrees with itself when its arguments are exchanged, it is
    transitive, and it is zero exactly for strings with the same key, which a sort
    relies on. *)
Theorem natural_compare_order (upcase : Z → Z) `{!Upcase upcase} (IgnoreCase : bool) (A B C : list Z) :
  Forall is_unit A → Forall is_unit B → Forall is_unit C →
  let key := natural_key (if IgnoreCase then upcase else λ c, c) in
  ∃ ab ba bc ac,
    PhCompareStringZNatural upcase A B IgnoreCase = Some ab ∧ PhCompareStringZNatural upcase B A IgnoreCase = Some ba ∧
    PhCompareStringZNatural upcase B C IgnoreCase = Some bc ∧ PhCompareStringZNatural upcase A C IgnoreCase = Some ac ∧
    ab = lexicographic (lexicographic compare_Z) (key A) (key B) ∧
    ba = - ab ∧ (ab = 0 ↔ key A = key B) ∧ (ab ≤ 0 → bc ≤ 0 → ac ≤ 0) ∧ (ab < 0 → bc ≤ 0 → ac < 0).
Proof.
  intros HA HB HC key. set (order := lexicographic (lexicographic compare_Z)).
  assert (∀ X Y, Forall is_unit X → Forall is_unit Y → PhCompareStringZNatural upcase X Y IgnoreCase = Some (order (key X) (key Y))) as Hcmp.
  { intros X Y HX HY. unfold PhCompareStringZNatural, PhpCompareStringZNatural, key, order.
    destruct IgnoreCase; cbn [negb]; (eapply compare_loop_ok; [apply _|done|done|done|lia]). }
  exists (order (key A) (key B)), (order (key B) (key A)), (order (key B) (key C)), (order (key A) (key C)).
  pose proof (ordering_eq (cmp := order) (key A) (key B)) as Hab. pose proof (ordering_eq (cmp := order) (key B) (key C)) as Hbc.
  pose proof (ordering_lt (cmp := order) (key A) (key B) (key C)) as Hlt.
  split_and!; [by apply Hcmp..|done|apply (ordering_opp (cmp := order))|done| |].
  - intros H1 H2. destruct (decide (order (key A) (key B) = 0)) as [->%Hab|]; [done|].
    destruct (decide (order (key B) (key C) = 0)) as [E%Hbc|]; [rewrite <-E; lia|]. pose proof (Hlt ltac:(lia) ltac:(lia)). lia.
  - intros H1 H2. destruct (decide (order (key B) (key C) = 0)) as [E%Hbc|]; [by rewrite <-E|]. apply Hlt; lia.
Qed.

#[export] Instance ascii_upcase_ok : Upcase ascii_upcase.
Proof.
  split; unfold ascii_upcase, is_unit; intros; try done; repeat case_match; try lia; try done.
  - apply andb_true_iff in H1 as [?%Z.leb_le ?%Z.leb_le]. apply digit_spec in H0; lia.
  - apply andb_true_iff in H1 as [?%Z.leb_le ?%Z.leb_le]. apply not_true_iff_false. rewrite digit_spec; lia.
Qed.

(** [img 9.PNG], [IMG10.png] and [img010.png]. *)
Example natural_compare_order_witness :
  ∃ ab ba bc ac,
    PhCompareStringZNatural ascii_upcase [105; 109; 103; 32; 57; 46; 80; 78; 71] [73; 77; 71; 49; 48; 46; 112; 110; 103] true = Some ab ∧
    ab = -1 ∧ ba = 1 ∧ bc = 1 ∧ ac = 1.
Proof.
  set (A := [105; 109; 103; 32; 57; 46; 80; 78; 71]). set (B := [73; 77; 71; 49; 48; 46; 112; 110; 103]).
  set (C := [105; 109; 103; 48; 49; 48; 46; 112; 110; 103]).
  assert (Forall is_unit A) as HA by (repeat constructor). assert (Forall is_unit B) as HB by (repeat constructor).
  assert (Forall is_unit C) as HC by (repeat constructor).
  destruct (natural_compare_order ascii_upcase true A B C HA HB HC) as (ab & ba & bc & ac & Hab & Hba & Hbc & Hac & _).
  exists ab, ba, bc, ac. split; [exact Hab|]. clear HA HB HC. vm_compute in Hab, Hba, Hbc, Hac.
  injection Hab as <-. injection Hba as <-. injection Hbc as <-. injection Hac as <-. done.
Defined.
