(* ===== verification/Strings.v ===== *)
(** String references ([PH_STRINGREF]) and the functions of src/phlib/basesup.c that
    compare, search, split, trim and copy strings, with the code's tables, blocks of
    sixteen bytes and special cases. *)

From S2P Require Import Prelude.

Definition SIZE_MAX : Z := 2 ^ 64 - 1.

(** A reference has its length in bytes and a pointer, which stands for the units in
    memory from there on; [None] is NULL. *)
Record PH_STRINGREF := StringRef { Length : Z; Buffer : option (list Z) }.

Definition memory_at (s : PH_STRINGREF) : list Z := default [] (Buffer s).
Definition count (s : PH_STRINGREF) : Z := Length s / 2.
Definition text (s : PH_STRINGREF) : list Z := take (Z.to_nat (count s)) (memory_at s).
Definition add_offset (b : option (list Z)) (bytes : Z) : option (list Z) := drop (Z.to_nat (bytes / 2)) <$> b.

Section Strings.
(** What [RtlUpcaseUnicodeChar] returns, and whether the processor has SSE2. *)
Context (PhUpcaseUnicodeChar : Z → Z) (PhHasIntrinsics : bool).

(** ** Comparing *)

Fixpoint compare_units (IgnoreCase : bool) (n : nat) (s1 s2 : list Z) : option Z :=
  match n with
  | O => None
  | S n =>
      let c1 := hd 0 s1 in
      let c2 := hd 0 s2 in
      if negb (c1 =? c2) then
        if negb IgnoreCase then Some (c1 - c2)
        else
          let c1 := PhUpcaseUnicodeChar c1 in
          let c2 := PhUpcaseUnicodeChar c2 in
          if negb (c1 =? c2) then Some (c1 - c2) else compare_units IgnoreCase n (tail s1) (tail s2)
      else compare_units IgnoreCase n (tail s1) (tail s2)
  end.

Definition PhCompareStringRef (String1 String2 : PH_STRINGREF) (IgnoreCase : bool) : Z :=
  let l1 := Length String1 in
  let l2 := Length String2 in
  let n := Z.to_nat ((if l1 <=? l2 then l1 else l2) / 2) in
  match compare_units IgnoreCase n (memory_at String1) (memory_at String2) with
  | Some r => r
  | None => i32 (l1 - l2)
  end.

Fixpoint equal_units (IgnoreCase : bool) (n : nat) (s1 s2 : list Z) : bool :=
  match n with
  | O => true
  | S n =>
      let c1 := hd 0 s1 in
      let c2 := hd 0 s2 in
      if negb (c1 =? c2) then
        if negb IgnoreCase then false
        else if negb (PhUpcaseUnicodeChar c1 =? PhUpcaseUnicodeChar c2) then false
        else equal_units IgnoreCase n (tail s1) (tail s2)
      else equal_units IgnoreCase n (tail s1) (tail s2)
  end.

(** The blocks that are compared at once: 16 bytes, or a [ULONG_PTR]. [l1] is the
    length in bytes. *)
Definition block_size : Z := if PhHasIntrinsics then 16 else 8.
Definition block_units : nat := Z.to_nat (block_size / 2).

Fixpoint equal_blocks (IgnoreCase : bool) (l1 : Z) (length : nat) (s1 s2 : list Z) : bool :=
  match length with
  | O => equal_units IgnoreCase (Z.to_nat (Z.land l1 (block_size - 1) / 2)) s1 s2
  | S length' =>
      if bool_decide (take block_units s1 = take block_units s2) then
        equal_blocks IgnoreCase l1 length' (drop block_units s1) (drop block_units s2)
      else if negb IgnoreCase then false
      else
        let l1 := Z.of_nat length * block_size + Z.land l1 (block_size - 1) in
        equal_units IgnoreCase (Z.to_nat (l1 / 2)) s1 s2
  end.

Definition PhEqualStringRef (String1 String2 : PH_STRINGREF) (IgnoreCase : bool) : bool :=
  let l1 := Length String1 in
  if negb (l1 =? Length String2) then false
  else equal_blocks IgnoreCase l1 (Z.to_nat (l1 / block_size)) (memory_at String1) (memory_at String2).

Definition PhStartsWithStringRef (String Prefix : PH_STRINGREF) (IgnoreCase : bool) : bool :=
  if Length String <? Length Prefix then false
  else PhEqualStringRef (StringRef (Length Prefix) (Buffer String)) Prefix IgnoreCase.

Definition PhEndsWithStringRef (String Suffix : PH_STRINGREF) (IgnoreCase : bool) : bool :=
  if Length String <? Length Suffix then false
  else
    PhEqualStringRef (StringRef (Length Suffix) (add_offset (Buffer String) (Length String - Length Suffix))) Suffix IgnoreCase.

(** ** Searching *)

(** The lowest and the highest bit of the mask of a comparison of eight units. *)
Fixpoint scan_forward (found : Z → bool) (block : list Z) : option nat :=
  match block with
  | [] => None
  | c :: block => if found c then Some 0%nat else S <$> scan_forward found block
  end.
Definition scan_reverse (found : Z → bool) (block : list Z) : option nat :=
  (λ i, length block - 1 - i)%nat <$> scan_forward found (reverse block).

(** The remaining units, one by one. *)
Fixpoint find_units (found : Z → bool) (total length : Z) (n : nat) (buffer : list Z) : Z :=
  match n with
  | O => SIZE_MAX
  | S n => if found (hd 0 buffer) then total - length else find_units found total (length - 1) n (tail buffer)
  end.

Fixpoint find_blocks (Character : Z) (Length_ length : Z) (length16 : nat) (buffer : list Z) : Z :=
  match length16 with
  | O => find_units (λ c, c =? Character) (Length_ / 2) length (Z.to_nat length) buffer
  | S length16' =>
      match scan_forward (λ c, c =? Character) (take 8 buffer) with
      | Some index => (Length_ - Z.of_nat length16 * 16) / 2 - length + Z.of_nat index
      | None => find_blocks Character Length_ length length16' (drop 8 buffer)
      end
  end.

(** [wcschr], which stops at a null unit. *)
Fixpoint wcschr (buffer : list Z) (Character : Z) : option nat :=
  match buffer with
  | [] => None
  | c :: buffer => if c =? Character then Some 0%nat else if c =? 0 then None else S <$> wcschr buffer Character
  end.

Definition PhFindCharInStringRef (String : PH_STRINGREF) (Character : Z) (IgnoreCase : bool) : Z :=
  let length := Length String / 2 in
  if negb IgnoreCase then
    if PhHasIntrinsics then
      find_blocks Character (Length String) (Z.land length 7) (Z.to_nat (Length String / 16)) (memory_at String)
    else
      match Buffer String with
      | Some buffer => match wcschr buffer Character with Some offset => Z.of_nat offset | None => SIZE_MAX end
      | None => find_units (λ c, c =? Character) length length (Z.to_nat length) []
      end
  else
    let c := PhUpcaseUnicodeChar Character in
    find_units (λ d, PhUpcaseUnicodeChar d =? c) length length (Z.to_nat length) (memory_at String).

(** Searching backwards. [before] are the units before [buffer], the last one
    first. *)
Fixpoint find_last_units (found : Z → bool) (length : Z) (n : nat) (before : list Z) : Z :=
  match n with
  | O => SIZE_MAX
  | S n => if found (hd 0 before) then length - 1 else find_last_units found (length - 1) n (tail before)
  end.

Fixpoint find_last_blocks (Character length : Z) (length16 : nat) (before : list Z) : Z :=
  match length16 with
  | O => find_last_units (λ c, c =? Character) length (Z.to_nat length) before
  | S length16' =>
      match scan_reverse (λ c, c =? Character) (reverse (take 8 before)) with
      | Some index => (Z.of_nat length16 - 1) * 16 / 2 + length + Z.of_nat index
      | None => find_last_blocks Character length length16' (drop 8 before)
      end
  end.

(** [wcsrchr]. *)
Fixpoint wcsrchr (buffer : list Z) (Character : Z) : option nat :=
  match buffer with
  | [] => None
  | c :: buffer' =>
      match (if c =? 0 then None else wcsrchr buffer' Character) with
      | Some i => Some (S i)
      | None => if c =? Character then Some 0%nat else None
      end
  end.

Definition PhFindLastCharInStringRef (String : PH_STRINGREF) (Character : Z) (IgnoreCase : bool) : Z :=
  let before := reverse (text String) in
  let length := Length String / 2 in
  if negb IgnoreCase then
    if PhHasIntrinsics then find_last_blocks Character (Z.land length 7) (Z.to_nat (Length String / 16)) before
    else
      match Buffer String with
      | Some buffer => match wcsrchr buffer Character with Some offset => Z.of_nat offset | None => SIZE_MAX end
      | None => find_last_units (λ c, c =? Character) length (Z.to_nat length) before
      end
  else
    let c := PhUpcaseUnicodeChar Character in
    find_last_units (λ d, PhUpcaseUnicodeChar d =? c) length (Z.to_nat length) before.

(** [i] is the number of places left to look at, [buffer] what is after the first
    unit looked at, and [index] its distance from the start of the string. *)
Fixpoint find_string (IgnoreCase : bool) (sr2 : PH_STRINGREF) (c index : Z) (i : nat) (buffer : list Z) : Z :=
  match i with
  | O => SIZE_MAX
  | S i =>
      let d := hd 0 buffer in
      let sr1 := StringRef (Length sr2) (Some (tail buffer)) in
      if ((if IgnoreCase then PhUpcaseUnicodeChar d else d) =? c) && PhEqualStringRef sr1 sr2 IgnoreCase then index + 1 - 1
      else find_string IgnoreCase sr2 c (index + 1) i (tail buffer)
  end.

Definition PhFindStringInStringRef (String SubString : PH_STRINGREF) (IgnoreCase : bool) : Z :=
  let length1 := Length String / 2 in
  let length2 := Length SubString / 2 in
  if length1 <? length2 then SIZE_MAX
  else if length2 =? 0 then 0
  else
    let first := hd 0 (memory_at SubString) in
    let sr2 := StringRef (Length SubString - 2) (tail <$> Buffer SubString) in
    find_string IgnoreCase sr2 (if IgnoreCase then PhUpcaseUnicodeChar first else first) 0
      (Z.to_nat (length1 - length2 + 1)) (memory_at String).

(** ** Splitting

    The results: whether the separator was found, and the parts. [index] is in
    units, the length of the separator in bytes. *)
Record split := Split { Found : bool; FirstPart : PH_STRINGREF; SecondPart : PH_STRINGREF; SeparatorPart : PH_STRINGREF }.

Definition null_string : PH_STRINGREF := StringRef 0 None.

Definition separator_not_found (input : PH_STRINGREF) : split := Split false input null_string null_string.

Definition separator_found (input : PH_STRINGREF) (index separatorLength : Z) : split :=
  Split true
    (StringRef (index * 2) (Buffer input))
    (StringRef (u64 (Length input - index * 2 - separatorLength)) (add_offset (Buffer input) (index * 2 + separatorLength)))
    (StringRef separatorLength (add_offset (Buffer input) (index * 2))).

Definition split_at (input : PH_STRINGREF) (index separatorLength : Z) : split :=
  if index =? SIZE_MAX then separator_not_found input else separator_found input index separatorLength.

Definition PhSplitStringRefAtChar (Input : PH_STRINGREF) (Separator : Z) : split :=
  split_at Input (PhFindCharInStringRef Input Separator false) 2.

Definition PhSplitStringRefAtLastChar (Input : PH_STRINGREF) (Separator : Z) : split :=
  split_at Input (PhFindLastCharInStringRef Input Separator false) 2.

Definition PhSplitStringRefAtString (Input Separator : PH_STRINGREF) (IgnoreCase : bool) : split :=
  split_at Input (PhFindStringInStringRef Input Separator IgnoreCase) (Length Separator).

Definition PH_SPLIT_AT_STRING : Z := 0x1.
Definition PH_SPLIT_AT_RANGE : Z := 0x2.
Definition PH_SPLIT_CASE_INSENSITIVE : Z := 0x1000.
Definition PH_SPLIT_COMPLEMENT_CHAR_SET : Z := 0x2000.
Definition PH_SPLIT_START_AT_END : Z := 0x4000.
Definition PH_SPLIT_CHAR_SET_IS_UPPERCASE : Z := 0x8000.
Definition has (Flags flag : Z) : bool := negb (Z.land Flags flag =? 0).

(** The table of the low bytes of the units in the set, and whether it says all
    there is to say. *)
Fixpoint char_set_table (upcase : Z → Z) (charSet : list Z) (charSetTable : list bool) (complete : bool) : list bool * bool :=
  match charSet with
  | [] => (charSetTable, complete)
  | c :: charSet =>
      let c := upcase c in
      char_set_table upcase charSet (<[Z.to_nat (Z.land c 0xff) := true]> charSetTable) (if 256 <=? c then false else complete)
  end.

Definition in_table (charSetTable : list bool) (c : Z) : bool := nth (Z.to_nat c) charSetTable false.

(** Whether a unit, in upper case already if case is ignored, is a separator. *)
Definition is_separator (Flags : Z) (charSet : list Z) (charSetTable : list bool) (complete : bool) (c : Z) : bool :=
  let listed :=
    if negb (has Flags PH_SPLIT_CASE_INSENSITIVE) || has Flags PH_SPLIT_CHAR_SET_IS_UPPERCASE
    then existsb (λ d, d =? c) charSet
    else existsb (λ d, PhUpcaseUnicodeChar d =? c) charSet in
  if (c <? 256) && complete then
    if negb (has Flags PH_SPLIT_COMPLEMENT_CHAR_SET) then in_table charSetTable c else negb (in_table charSetTable c)
  else if negb (has Flags PH_SPLIT_COMPLEMENT_CHAR_SET) then in_table charSetTable (Z.land c 0xff) && listed
  else if in_table charSetTable (Z.land c 0xff) then negb listed
  else true.

(** The search, from position [i] in the direction given; [s] is what is left in
    that direction. *)
Fixpoint search (found : Z → bool) (direction i : Z) (s : list Z) : Z :=
  match s with
  | [] => SIZE_MAX
  | c :: s => if found c then i else search found direction (i + direction) s
  end.

Definition search_char_set (input Separator : PH_STRINGREF) (Flags : Z) : Z :=
  let upcase := if has Flags PH_SPLIT_CASE_INSENSITIVE then PhUpcaseUnicodeChar else λ c, c in
  let charSet := text Separator in
  let '(charSetTable, complete) := char_set_table upcase charSet (replicate 256 false) true in
  let found c := is_separator Flags charSet charSetTable complete (upcase c) in
  if negb (has Flags PH_SPLIT_START_AT_END) then search found 1 0 (text input)
  else search found (-1) (Length input / 2 - 1) (reverse (text input)).

(** [Range] is what [Separator] holds if the flags say that it is a range: the
    position in [Buffer], and the length. *)
Definition PhSplitStringRefEx (Input Separator : PH_STRINGREF) (Range : Z * Z) (Flags : Z) : split :=
  if has Flags PH_SPLIT_AT_RANGE then split_at Input Range.1 Range.2
  else if has Flags PH_SPLIT_AT_STRING then
    if has Flags PH_SPLIT_START_AT_END then separator_not_found Input
    else split_at Input (PhFindStringInStringRef Input Separator (has Flags PH_SPLIT_CASE_INSENSITIVE)) (Length Separator)
  else if negb (has Flags PH_SPLIT_COMPLEMENT_CHAR_SET) && (Length Separator =? 2) then
    let c := hd 0 (memory_at Separator) in
    split_at Input
      (if negb (has Flags PH_SPLIT_START_AT_END) then PhFindCharInStringRef Input c (has Flags PH_SPLIT_CASE_INSENSITIVE)
       else PhFindLastCharInStringRef Input c (has Flags PH_SPLIT_CASE_INSENSITIVE)) 2
  else if Length Input =? 0 then separator_not_found Input
  else split_at Input (search_char_set Input Separator Flags) 2.

(** ** Trimming *)

Definition PH_TRIM_START_ONLY : Z := 0x1.
Definition PH_TRIM_END_ONLY : Z := 0x2.

Definition PhSkipStringRef (String : PH_STRINGREF) (bytes : Z) : PH_STRINGREF :=
  StringRef (Length String - bytes) (add_offset (Buffer String) bytes).

Fixpoint trim_count (trim : Z → bool) (s : list Z) : Z :=
  match s with
  | [] => 0
  | c :: s => if trim c then 1 + trim_count trim s else 0
  end.

Definition trim_start (trim : Z → bool) (Flags : Z) (String : PH_STRINGREF) : PH_STRINGREF :=
  if has Flags PH_TRIM_END_ONLY then String else PhSkipStringRef String (trim_count trim (text String) * 2).

Definition trim_end (trim : Z → bool) (Flags : Z) (String : PH_STRINGREF) : PH_STRINGREF :=
  if has Flags PH_TRIM_START_ONLY then String
  else StringRef (Length String - trim_count trim (reverse (text String)) * 2) (Buffer String).

(** Whether a unit is trimmed. *)
Definition in_char_set (charSet : list Z) (charSetTable : list bool) (complete : bool) (c : Z) : bool :=
  if negb (in_table charSetTable (Z.land c 0xff)) then false
  else if negb complete then existsb (λ d, d =? c) charSet
  else true.

Definition PhTrimStringRef (String CharSet : PH_STRINGREF) (Flags : Z) : PH_STRINGREF :=
  match Buffer String with
  | None => String
  | Some _ =>
      if (Length String =? 0) || (Length CharSet =? 0) then String
      else if Length CharSet =? 2 then
        let c := hd 0 (memory_at CharSet) in
        trim_end (λ d, d =? c) Flags (trim_start (λ d, d =? c) Flags String)
      else
        let charSet := text CharSet in
        let '(charSetTable, complete) := char_set_table (λ c, c) charSet (replicate 256 false) true in
        let trim := in_char_set charSet charSetTable complete in
        trim_end trim Flags (trim_start trim Flags String)
  end.

End Strings.

(** ** Copying

    [size] is [sizeof] of the null character, by which the code counts the room for
    it: one for bytes, two for units. The input is what is in memory from the
    pointer on, [OutputBuffer] the elements of the output buffer. A result of
    [None] is an access outside of them. *)
Section Copying.
Context (size : Z).

(** The length of the input: at most [n], which is [None] for -1. *)
Fixpoint input_length (n : option nat) (s : list Z) : option nat :=
  match n with
  | Some O => Some 0%nat
  | _ =>
      match s with
      | [] => None
      | c :: s => if c =? 0 then Some 0%nat else S <$> input_length (pred <$> n) s
      end
  end.

(** The result, what is in the output buffer afterwards, and the count returned. *)
Definition copy_string (InputBuffer : list Z) (InputCount : option nat) (OutputBuffer : option (list Z)) (OutputCount : Z) :
    option (bool * option (list Z) * Z) :=
  i ← input_length InputCount InputBuffer;
  let ReturnCount := Z.of_nat i + size in
  match OutputBuffer with
  | Some cells =>
      if Z.of_nat i + size <=? OutputCount then
        if Nat.ltb i (length cells) then Some (true, Some (take i InputBuffer ++ 0 :: drop (S i) cells), ReturnCount)
        else None
      else Some (false, OutputBuffer, ReturnCount)
  | None => Some (false, None, ReturnCount)
  end.
End Copying.

Definition PhCopyBytesZ := copy_string 1.
Definition PhCopyStringZ := copy_string 2.
