(* ===== verification/StringsTheorems.v ===== *)
(** String references: comparing is the order of the texts, searching finds the
    first or the last place, splitting and trimming cut the text where the
    separators are; and where the functions do less than that. *)

From S2P Require Import Prelude Wildcards NaturalCompare Strings.

(** A reference that can be read. *)
Definition valid (s : PH_STRINGREF) : Prop :=
  ∃ n, Length s = 2 * Z.of_nat n ∧ (n ≤ length (memory_at s))%nat ∧ Length s < 2 ^ 63.

Lemma valid_text s : valid s → Length s = 2 * Z.of_nat (length (text s)) ∧ count s = Z.of_nat (length (text s)) ∧ Length s < 2 ^ 63.
Proof.
  intros (n & Hl & Hn & Hb). unfold text, count. rewrite length_take, Hl.
  assert (2 * Z.of_nat n / 2 = Z.of_nat n) as -> by (Z.to_euclidean_division_equations; lia). lia.
Qed.

Lemma text_memory s : valid s → ∃ rest, memory_at s = text s ++ rest.
Proof. intros _. exists (drop (Z.to_nat (count s)) (memory_at s)). unfold text. by rewrite take_drop. Qed.

(** A unit, in upper case if case is ignored. *)
Definition fold_case (upcase : Z → Z) (IgnoreCase : bool) (c : Z) : Z := if IgnoreCase then upcase c else c.

(** ** Comparing *)

Lemma lexicographic_prefix l k r :
  lexicographic compare_Z (l ++ k) (l ++ r) = lexicographic compare_Z k r.
Proof using Type. induction l as [|x l IH]; [done|]. cbn [app lexicographic]. by rewrite compare_Z_refl. Qed.

Lemma lexicographic_differ l1 l2 k1 k2 :
  length l1 = length l2 → lexicographic compare_Z l1 l2 ≠ 0 → lexicographic compare_Z (l1 ++ k1) (l2 ++ k2) = lexicographic compare_Z l1 l2.
Proof using Type.
  revert l2. induction l1 as [|x l1 IH]; intros [|y l2] Hl Hd; try done. cbn [app lexicographic] in *.
  destruct (Z.eqb_spec (compare_Z x y) 0); [|done]. apply IH; [by injection Hl|done].
Qed.

Section Comparing.
Context (upcase : Z → Z) (intrinsics : bool).
Local Abbreviation folded ic l := (fold_case upcase ic <$> l).

Lemma compare_units_ok ic s1 s2 r1 r2 :
  length s1 = length s2 →
  match compare_units upcase ic (length s1) (s1 ++ r1) (s2 ++ r2) with
  | Some r => Z.sgn r = lexicographic compare_Z (folded ic s1) (folded ic s2) ∧ r ≠ 0
  | None => folded ic s1 = folded ic s2
  end.
Proof using Type.
  revert s2. induction s1 as [|c1 s1 IH]; intros [|c2 s2] Hl; try done. cbn [length compare_units app hd tail].
  injection Hl as Hl. specialize (IH s2 Hl). rewrite !fmap_cons. cbn [lexicographic].
  assert (∀ d1 d2, d1 ≠ d2 → Z.sgn (d1 - d2) = (if compare_Z d1 d2 =? 0 then lexicographic compare_Z (folded ic s1) (folded ic s2) else compare_Z d1 d2) ∧ d1 - d2 ≠ 0) as Hne.
  { intros d1 d2 Hd. unfold compare_Z. destruct (Z.eqb_spec (Z.sgn (d1 - d2)) 0); lia. }
  assert (∀ d, (if compare_Z d d =? 0 then lexicographic compare_Z (folded ic s1) (folded ic s2) else compare_Z d d) =
    lexicographic compare_Z (folded ic s1) (folded ic s2)) as Heq by (intros d; by rewrite compare_Z_refl).
  assert (fold_case upcase ic c1 = fold_case upcase ic c2 →
    match compare_units upcase ic (length s1) (s1 ++ r1) (s2 ++ r2) with
    | Some r => Z.sgn r = (if compare_Z (fold_case upcase ic c1) (fold_case upcase ic c2) =? 0 then lexicographic compare_Z (folded ic s1) (folded ic s2) else compare_Z (fold_case upcase ic c1) (fold_case upcase ic c2)) ∧ r ≠ 0
    | None => fold_case upcase ic c1 :: folded ic s1 = fold_case upcase ic c2 :: folded ic s2
    end) as Hrec.
  { intros Hf. destruct (compare_units _ _ _ _ _); rewrite Hf, ?Heq; [done|by rewrite IH]. }
  destruct (Z.eqb_spec c1 c2) as [->|Hc]; cbn [negb]; [by apply Hrec|].
  destruct ic; cbn [negb fold_case] in *; [|by apply Hne].
  destruct (Z.eqb_spec (upcase c1) (upcase c2)) as [Hu|Hu]; cbn [negb]; [by apply Hrec|by apply Hne].
Qed.

Lemma equal_units_ok ic s1 s2 r1 r2 :
  length s1 = length s2 → equal_units upcase ic (length s1) (s1 ++ r1) (s2 ++ r2) = bool_decide (folded ic s1 = folded ic s2).
Proof using Type.
  revert s2. induction s1 as [|c1 s1 IH]; intros [|c2 s2] Hl; try done. cbn [length equal_units app hd tail].
  injection Hl as Hl. rewrite IH by done. rewrite !fmap_cons.
  assert (fold_case upcase ic c1 ≠ fold_case upcase ic c2 → bool_decide (fold_case upcase ic c1 :: folded ic s1 = fold_case upcase ic c2 :: folded ic s2) = false) as Hne
    by (intros ?; apply bool_decide_eq_false; congruence).
  assert (fold_case upcase ic c1 = fold_case upcase ic c2 →
    bool_decide (folded ic s1 = folded ic s2) = bool_decide (fold_case upcase ic c1 :: folded ic s1 = fold_case upcase ic c2 :: folded ic s2)) as Heq
    by (intros Hf; apply bool_decide_ext; rewrite Hf; split; [by intros ->|congruence]).
  destruct (Z.eqb_spec c1 c2) as [->|Hc]; cbn [negb]; [by apply Heq|].
  destruct ic; cbn [negb fold_case] in *; [|by rewrite Hne].
  destruct (Z.eqb_spec (upcase c1) (upcase c2)); cbn [negb]; [by apply Heq|by rewrite Hne].
Qed.

(** The blocks. *)
Lemma equal_blocks_ok ic n s1 s2 r1 r2 l1 :
  length s1 = length s2 → (n * block_units intrinsics ≤ length s1)%nat →
  Z.of_nat (length s1 - n * block_units intrinsics) = Z.land l1 (block_size intrinsics - 1) / 2 →
  Z.land l1 (block_size intrinsics - 1) mod 2 = 0 →
  equal_blocks upcase intrinsics ic l1 n (s1 ++ r1) (s2 ++ r2) = bool_decide (folded ic s1 = folded ic s2).
Proof using Type.
  set (k := block_units intrinsics). assert (Z.of_nat k * 2 = block_size intrinsics) as Hk by (by unfold k; destruct intrinsics).
  revert s1 s2. induction n as [|n IH]; intros s1 s2 Hl Hn Hrest Heven; cbn [equal_blocks]; fold k.
  - rewrite <-Hrest, Nat2Z.id. replace (length s1 - 0 * k)%nat with (length s1) by lia. by apply equal_units_ok.
  - rewrite !(take_app_le _ r1), !(take_app_le _ r2), !(drop_app_le _ r1), !(drop_app_le _ r2) by lia.
    destruct (decide (take k s1 = take k s2)) as [He|He].
    + rewrite bool_decide_true by done. rewrite IH; [|rewrite !length_drop; lia..|done].
      assert (∀ s, folded ic s = folded ic (take k s) ++ folded ic (drop k s)) as Hsplit by (intros s; by rewrite <-fmap_app, take_drop).
      apply bool_decide_ext. rewrite (Hsplit s1), (Hsplit s2), He. split; [by intros ->|apply app_inv_head].
    + rewrite bool_decide_false by done. destruct ic; cbn [negb].
      * replace (Z.to_nat _) with (length s1); [by apply equal_units_ok|].
        assert (Z.land l1 (block_size intrinsics - 1) = 2 * Z.of_nat (length s1 - S n * k)) as -> by (Z.to_euclidean_division_equations; lia).
        rewrite <-Hk. replace (Z.of_nat (S n) * (Z.of_nat k * 2) + 2 * Z.of_nat (length s1 - S n * k)) with (Z.of_nat (length s1) * 2) by lia.
        rewrite Z.div_mul by done. lia.
      * symmetry. apply bool_decide_eq_false. intros Hf. apply He. assert (s1 = s2) as -> by (by rewrite !list_fmap_id in Hf). done.
Qed.

Lemma equal_ok s1 s2 ic :
  valid s1 → valid s2 → PhEqualStringRef upcase intrinsics s1 s2 ic = bool_decide (folded ic (text s1) = folded ic (text s2)).
Proof using Type.
  intros Hv1 Hv2. destruct (valid_text _ Hv1) as (Hl1 & _ & Hb1). destruct (valid_text _ Hv2) as (Hl2 & _).
  destruct (text_memory _ Hv1) as [r1 Hr1]. destruct (text_memory _ Hv2) as [r2 Hr2]. unfold PhEqualStringRef. rewrite Hr1, Hr2.
  destruct (Z.eqb_spec (Length s1) (Length s2)) as [He|He]; cbn [negb].
  - assert (Z.of_nat (block_units intrinsics) * 2 = block_size intrinsics) as Hk by (by destruct intrinsics).
    assert (block_size intrinsics = 2 ^ (if intrinsics then 4 else 3)) as Hp by (by destruct intrinsics).
    assert (Z.land (Length s1) (block_size intrinsics - 1) = Length s1 mod block_size intrinsics) as Hland
      by (rewrite Hp; apply land_pow2; destruct intrinsics; lia).
    assert (block_size intrinsics = 16 ∨ block_size intrinsics = 8) as Hs by (destruct intrinsics; auto).
    apply equal_blocks_ok; [lia| | |]; rewrite ?Hland; destruct Hs as [Hs|Hs]; rewrite Hs in *; Z.to_euclidean_division_equations; nia.
  - symmetry. apply bool_decide_eq_false. intros Hf%(f_equal length). rewrite !length_fmap in Hf. lia.
Qed.

Lemma compare_ok s1 s2 ic :
  valid s1 → valid s2 → - 2 ^ 31 ≤ Length s1 - Length s2 < 2 ^ 31 →
  Z.sgn (PhCompareStringRef upcase s1 s2 ic) = lexicographic compare_Z (folded ic (text s1)) (folded ic (text s2)).
Proof using Type.
  intros Hv1 Hv2 Hd. destruct (valid_text _ Hv1) as (Hl1 & _ & Hb1). destruct (valid_text _ Hv2) as (Hl2 & _ & Hb2).
  destruct (text_memory _ Hv1) as [r1 Hr1]. destruct (text_memory _ Hv2) as [r2 Hr2]. unfold PhCompareStringRef. rewrite Hr1, Hr2.
  set (t1 := text s1) in *. set (t2 := text s2) in *. set (n := Nat.min (length t1) (length t2)).
  replace (Z.to_nat _) with n by (unfold n; destruct (Z.leb_spec (Length s1) (Length s2)); Z.to_euclidean_division_equations; lia).
  rewrite <-(take_drop n t1), <-(take_drop n t2), <-!app_assoc, !fmap_app.
  assert (length (take n t1) = n ∧ length (take n t2) = n) as [En1 En2] by (rewrite !length_take; lia).
  pose proof (compare_units_ok ic (take n t1) (take n t2) (drop n t1 ++ r1) (drop n t2 ++ r2) ltac:(lia)) as Hc. rewrite En1 in Hc.
  destruct (compare_units _ _ _ _ _) as [r|].
  - destruct Hc as [Hc Hr]. rewrite Hc. symmetry. apply lexicographic_differ; [by rewrite !length_fmap; lia|lia].
  - rewrite Hc, lexicographic_prefix, i32_small by lia.
    assert (length (drop n t1) = (length t1 - n)%nat ∧ length (drop n t2) = (length t2 - n)%nat) as [Ed1 Ed2] by (by rewrite !length_drop).
    destruct (drop n t1), (drop n t2); cbn [length] in Ed1, Ed2; cbn; lia.
Qed.

End Comparing.

(** ** Searching *)

(** The first and the last place with a property, or none. *)
Definition first_of (P : nat → Prop) (r : Z) : Prop :=
  (∃ i, r = Z.of_nat i ∧ P i ∧ ∀ j, (j < i)%nat → ¬ P j) ∨ (r = SIZE_MAX ∧ ∀ j, ¬ P j).
Definition last_of (P : nat → Prop) (r : Z) : Prop :=
  (∃ i, r = Z.of_nat i ∧ P i ∧ ∀ j, (i < j)%nat → ¬ P j) ∨ (r = SIZE_MAX ∧ ∀ j, ¬ P j).

Definition unit_at (found : Z → bool) (t : list Z) (i : nat) : Prop := ∃ c, t !! i = Some c ∧ found c = true.

Lemma scan_forward_spec found l :
  match scan_forward found l with
  | Some i => unit_at found l i ∧ ∀ j, (j < i)%nat → ¬ unit_at found l j
  | None => ∀ j, ¬ unit_at found l j
  end.
Proof.
  induction l as [|c l IH]; cbn [scan_forward]; [by intros j (c & ? & _)|].
  destruct (found c) eqn:Hc.
  - split; [by exists c|lia].
  - assert (¬ unit_at found (c :: l) 0) as H0 by (intros (d & [= <-] & ?); congruence).
    destruct (scan_forward found l) as [i|]; cbn [fmap option_fmap option_map].
    + destruct IH as [Hi Hj]. split; [done|]. intros [|j] Hlt; [done|]. intros Hu. by apply (Hj j); [lia|].
    + intros [|j]; [done|]. apply IH.
Qed.

Lemma scan_forward_app found l k :
  scan_forward found (l ++ k) = match scan_forward found l with Some i => Some i | None => Nat.add (length l) <$> scan_forward found k end.
Proof.
  induction l as [|c l IH]; cbn [app scan_forward length]; [by destruct (scan_forward found k)|].
  destruct (found c); [done|]. rewrite IH. destruct (scan_forward found l), (scan_forward found k); done.
Qed.

Lemma scan_first found l r :
  r = match scan_forward found l with Some i => Z.of_nat i | None => SIZE_MAX end → first_of (unit_at found l) r.
Proof.
  intros ->. pose proof (scan_forward_spec found l) as Hs. destruct (scan_forward found l) as [i|]; [left; eauto|by right].
Qed.

Lemma scan_last found l r :
  r = match scan_forward found (reverse l) with Some i => Z.of_nat (length l - 1 - i) | None => SIZE_MAX end →
  last_of (unit_at found l) r.
Proof.
  intros ->. pose proof (scan_forward_spec found (reverse l)) as Hs.
  assert (∀ j, (j < length l)%nat → unit_at found (reverse l) (length l - 1 - j) ↔ unit_at found l j) as Hrev.
  { intros j Hj. unfold unit_at. rewrite reverse_lookup by lia. by replace (length l - S (length l - 1 - j))%nat with j by lia. }
  assert (∀ j, unit_at found l j → (j < length l)%nat) as Hlt by (intros j (c & Hc & _); by eapply lookup_lt_Some).
  destruct (scan_forward found (reverse l)) as [i|].
  - destruct Hs as [Hi Hj]. assert (i < length l)%nat as Hil by (destruct Hi as (c & Hc%lookup_lt_Some & _); by rewrite length_reverse in Hc).
    left. eexists. split; [done|]. split.
    + apply Hrev; [lia|]. by replace (length l - 1 - (length l - 1 - i))%nat with i by lia.
    + intros j Hlj Hu. pose proof (Hlt j Hu). apply (Hj (length l - 1 - j)%nat); [lia|]. by apply Hrev.
  - right. split; [done|]. intros j Hu. eapply Hs, Hrev; [by apply Hlt|done].
Qed.

Lemma find_units_ok found total len t r :
  len = Z.of_nat (length t) →
  find_units found total len (length t) (t ++ r) = match scan_forward found t with Some i => total - len + Z.of_nat i | None => SIZE_MAX end.
Proof.
  revert len. induction t as [|c t IH]; intros len Hl; [done|]. cbn [length find_units app hd tail scan_forward].
  destruct (found c); [lia|]. rewrite IH by (cbn in Hl; lia). destruct (scan_forward found t); cbn; lia.
Qed.

Lemma find_blocks_ok c Length_ len n t r :
  (length t = 8 * n + Z.to_nat len)%nat → 0 ≤ len →
  find_blocks c Length_ len n (t ++ r) =
    match scan_forward (λ d, d =? c) t with Some i => (Length_ - Z.of_nat n * 16) / 2 - len + Z.of_nat i | None => SIZE_MAX end.
Proof.
  intros Ht Hlen. revert t Ht. induction n as [|n IH]; intros t Ht; cbn [find_blocks].
  - replace (Z.to_nat len) with (length t) by lia. rewrite find_units_ok by lia. change (Z.of_nat 0 * 16) with 0. by rewrite Z.sub_0_r.
  - rewrite take_app_le, drop_app_le by lia.
    pose proof (scan_forward_app (λ d, d =? c) (take 8 t) (drop 8 t)) as Happ. rewrite take_drop in Happ. rewrite Happ.
    destruct (scan_forward _ (take 8 t)) as [i|]; [done|]. rewrite IH by (rewrite length_drop; lia).
    destruct (scan_forward _ (drop 8 t)) as [i|]; cbn [fmap option_fmap option_map]; [|done]. rewrite length_take.
    Z.to_euclidean_division_equations. lia.
Qed.

Lemma find_last_units_ok found len before :
  len = Z.of_nat (length before) →
  find_last_units found len (length before) before = match scan_forward found before with Some i => len - 1 - Z.of_nat i | None => SIZE_MAX end.
Proof.
  revert len. induction before as [|c t IH]; intros len Hl; [done|]. cbn [length find_last_units hd tail scan_forward].
  destruct (found c); [lia|]. rewrite IH by (cbn in Hl; lia). destruct (scan_forward found t); cbn; lia.
Qed.

Lemma find_last_blocks_ok c len n before :
  (length before = 8 * n + Z.to_nat len)%nat → 0 ≤ len →
  find_last_blocks c len n before =
    match scan_forward (λ d, d =? c) before with Some i => Z.of_nat (length before) - 1 - Z.of_nat i | None => SIZE_MAX end.
Proof.
  intros Ht Hlen. revert before Ht. induction n as [|n IH]; intros t Ht; cbn [find_last_blocks].
  - replace (Z.to_nat len) with (length t) by lia. rewrite find_last_units_ok by lia. destruct (scan_forward _ t); lia.
  - pose proof (scan_forward_app (λ d, d =? c) (take 8 t) (drop 8 t)) as Happ. rewrite take_drop in Happ. rewrite Happ. unfold scan_reverse. rewrite reverse_involutive, length_reverse, length_take.
    pose proof (scan_forward_spec (λ d, d =? c) (take 8 t)) as Hs.
    destruct (scan_forward _ (take 8 t)) as [i|]; cbn [fmap option_fmap option_map].
    + destruct Hs as [(d & Hd%lookup_lt_Some & _) _]. rewrite length_take in Hd. Z.to_euclidean_division_equations. lia.
    + rewrite IH by (rewrite length_drop; lia). rewrite length_drop. destruct (scan_forward _ (drop 8 t)); cbn [fmap option_fmap option_map]; [lia|done].
Qed.

Lemma text_length s : valid s → Length s / 2 = Z.of_nat (length (text s)) ∧ Z.to_nat (Length s / 2) = length (text s).
Proof. intros (Hl & _)%valid_text. Z.to_euclidean_division_equations. lia. Qed.

(** The length in blocks of eight units and the rest. *)
Lemma text_blocks s :
  valid s → (length (text s) = 8 * Z.to_nat (Length s / 16) + Z.to_nat (Z.land (Length s / 2) 7))%nat ∧ 0 ≤ Z.land (Length s / 2) 7 ∧
    (Length s - Z.of_nat (Z.to_nat (Length s / 16)) * 16) / 2 - Z.land (Length s / 2) 7 = 0.
Proof.
  intros (Hl & _)%valid_text. change 7 with (2 ^ 3 - 1). rewrite (land_pow2 _ 3) by lia.
  Z.to_euclidean_division_equations. lia.
Qed.

Section Searching.
Context (upcase : Z → Z) (intrinsics : bool).
Local Abbreviation folded ic l := (fold_case upcase ic <$> l).

(** The text occurs at a place of another one. *)
Definition occurs (ic : bool) (t sub : list Z) (i : nat) : Prop :=
  (i + length sub ≤ length t)%nat ∧ folded ic (take (length sub) (drop i t)) = folded ic sub.

(** With SSE2 or ignoring case. *)
Lemma find_char_ok s c ic :
  valid s → intrinsics = true ∨ ic = true →
  first_of (unit_at (λ d, fold_case upcase ic d =? fold_case upcase ic c) (text s)) (PhFindCharInStringRef upcase intrinsics s c ic).
Proof.
  intros Hv Hi. apply scan_first. unfold PhFindCharInStringRef. destruct (text_memory s Hv) as [r Hr]. rewrite Hr.
  destruct (text_length s Hv) as [E1 E2]. destruct ic; cbn [negb fold_case].
  - rewrite E2, find_units_ok by done. destruct (scan_forward _ _); lia.
  - destruct Hi as [->|?]; [|done]. destruct (text_blocks s Hv) as (Ht & H0 & Hz). rewrite find_blocks_ok by done.
    destruct (scan_forward _ _); lia.
Qed.

Lemma find_last_char_ok s c ic :
  valid s → intrinsics = true ∨ ic = true →
  last_of (unit_at (λ d, fold_case upcase ic d =? fold_case upcase ic c) (text s)) (PhFindLastCharInStringRef upcase intrinsics s c ic).
Proof.
  intros Hv Hi. apply scan_last. unfold PhFindLastCharInStringRef. destruct (text_length s Hv) as [E1 E2].
  assert (∀ found i, scan_forward found (reverse (text s)) = Some i → (i < length (text s))%nat) as Hlt.
  { intros found i Hs. pose proof (scan_forward_spec found (reverse (text s))) as Hs'. rewrite Hs in Hs'.
    destruct Hs' as [(d & Hd%lookup_lt_Some & _) _]. by rewrite length_reverse in Hd. }
  destruct ic; cbn [negb fold_case].
  - rewrite E2, E1, <-(length_reverse (text s)), find_last_units_ok by done.
    destruct (scan_forward _ _) as [i|] eqn:Hs; [|done]. apply Hlt in Hs. rewrite length_reverse. lia.
  - destruct Hi as [->|?]; [|done]. destruct (text_blocks s Hv) as (Ht & H0 & Hz).
    rewrite find_last_blocks_ok by (rewrite ?length_reverse; done).
    destruct (scan_forward _ _) as [i|] eqn:Hs; [|done]. apply Hlt in Hs. rewrite length_reverse. lia.
Qed.

Lemma find_string_ok ic sub sr2 c index i t r :
  valid sr2 → sub = c :: text sr2 → (i = 0 ∨ i + length sub = length t + 1)%nat → 0 ≤ index →
  (∃ j, find_string upcase intrinsics ic sr2 (fold_case upcase ic c) index i (t ++ r) = index + Z.of_nat j ∧ occurs ic t sub j ∧ (j < i)%nat ∧
     ∀ k, (k < j)%nat → ¬ occurs ic t sub k) ∨
  (find_string upcase intrinsics ic sr2 (fold_case upcase ic c) index i (t ++ r) = SIZE_MAX ∧ ∀ k, (k < i)%nat → ¬ occurs ic t sub k).
Proof.
  intros Hv Hsub. revert index t. induction i as [|i IH]; intros index t Hi H0; cbn [find_string]; [right; split; [done|lia]|].
  destruct Hi as [?|Hi]; [done|]. assert (length sub = S (length (text sr2))) as Hls by (by rewrite Hsub).
  destruct t as [|d t]; [cbn in Hi; lia|]. cbn [app hd tail].
  destruct (valid_text sr2 Hv) as (Hl2 & _ & Hb2).
  set (sr1 := StringRef (Length sr2) (Some (t ++ r))).
  assert (length (text sr2) ≤ length t)%nat as Hlen by (cbn in Hi; lia).
  assert (text sr1 = take (length (text sr2)) t) as Ht1.
  { unfold text at 1, count. change (memory_at sr1) with (t ++ r). cbn [sr1 Length]. rewrite Hl2.
    replace (Z.to_nat _) with (length (text sr2)) by (Z.to_euclidean_division_equations; lia). by rewrite take_app_le. }
  assert (valid sr1) as Hv1.
  { exists (length (text sr2)). change (memory_at sr1) with (t ++ r). cbn [sr1 Length]. rewrite length_app. split_and!; [done|lia|done]. }
  assert (occurs ic (d :: t) sub 0 ↔ ((if ic then upcase d else d) =? fold_case upcase ic c) && PhEqualStringRef upcase intrinsics sr1 sr2 ic = true) as H.
  { rewrite equal_ok, Ht1, andb_true_iff, bool_decide_eq_true, Z.eqb_eq by done. unfold occurs. rewrite Hls, Hsub.
    cbn [take drop length Nat.add]. rewrite !fmap_cons. change (if ic then upcase d else d) with (fold_case upcase ic d).
    split; [by intros [_ [= -> ->]]|]. intros [-> ->]. split; [lia|done]. }
  destruct (_ && _) eqn:Hb.
  - left. exists 0%nat. split_and!; [lia|by apply H|lia|lia].
  - assert (¬ occurs ic (d :: t) sub 0) as Hn by (intros ?%H; congruence).
    assert (∀ k, occurs ic (d :: t) sub (S k) ↔ occurs ic t sub k) as HS by (intros k; unfold occurs; cbn [length drop Nat.add]; split; intros [? ?]; split; lia || done).
    destruct (IH (index + 1) t) as [(j & Hj & Ho & Hji & Hk)|[Hj Hk]]; [cbn in Hi; lia|lia| |].
    + left. exists (S j). split_and!; [lia|by apply HS|lia|]. intros [|k] Hkj; [done|]. rewrite HS. apply Hk. lia.
    + right. split; [done|]. intros [|k] Hki; [done|]. rewrite HS. apply Hk. lia.
Qed.

Lemma find_string_in_string_ok s sub ic :
  valid s → valid sub → first_of (occurs ic (text s) (text sub)) (PhFindStringInStringRef upcase intrinsics s sub ic).
Proof.
  intros Hv Hvs. unfold PhFindStringInStringRef. destruct (text_length s Hv) as [E1 _]. destruct (text_length sub Hvs) as [E2 _].
  destruct (text_memory s Hv) as [r Hr]. destruct (text_memory sub Hvs) as [r' Hr']. rewrite E1, E2.
  assert (∀ k, occurs ic (text s) (text sub) k → (k + length (text sub) ≤ length (text s))%nat) as Hbound by (by intros k [? _]).
  destruct (Z.ltb_spec (Z.of_nat (length (text s))) (Z.of_nat (length (text sub)))); [right; split; [done|]; intros k ?%Hbound; lia|].
  destruct (Z.eqb_spec (Z.of_nat (length (text sub))) 0) as [H0|H0].
  - left. exists 0%nat. split_and!; [done| |lia]. destruct (text sub); [|done]. split; [cbn; lia|done].
  - destruct (text sub) as [|c rest] eqn:Hsub; [done|]. rewrite Hr'. cbn [app hd].
    set (sr2 := StringRef (Length sub - 2) (tail <$> Buffer sub)).
    destruct (valid_text sub Hvs) as (Hl & _ & Hb). rewrite Hsub in Hl. cbn [length] in Hl.
    assert (memory_at sr2 = rest ++ r') as Hm.
    { unfold memory_at in *. cbn [sr2 Buffer]. destruct (Buffer sub); cbn in *; [by subst|done]. }
    assert (valid sr2) as Hv2 by (exists (length rest); rewrite Hm, length_app; cbn [sr2 Length]; lia).
    assert (text sr2 = rest) as Ht2.
    { unfold text, count. rewrite Hm. cbn [sr2 Length]. replace (Z.to_nat _) with (length rest) by (Z.to_euclidean_division_equations; lia).
      by rewrite take_app_length. }
    rewrite Hr. change (if ic then upcase c else c) with (fold_case upcase ic c). cbn [length] in *.
    destruct (find_string_ok ic (c :: rest) sr2 c 0 (Z.to_nat (Z.of_nat (length (text s)) - Z.of_nat (S (length rest)) + 1)) (text s) r)
      as [(j & Hj & Ho & Hji & Hk)|[Hj Hk]]; [done|by rewrite Ht2|cbn [length]; lia|done| |].
    + left. exists j. split_and!; [lia|done|done].
    + right. split; [done|]. intros k Ho. apply (Hk k); [apply Hbound in Ho; lia|done].
Qed.

End Searching.

(** ** Splitting *)

Lemma char_set_table_ok up cs tbl complete :
  (∀ d, d ∈ cs → 0 ≤ up d) → length tbl = 256%nat →
  let '(tbl', complete') := char_set_table up cs tbl complete in
  (∀ b, 0 ≤ b < 256 → in_table tbl' b = true ↔ in_table tbl b = true ∨ ∃ d, d ∈ cs ∧ up d mod 256 = b) ∧
  (complete' = true ↔ complete = true ∧ ∀ d, d ∈ cs → up d < 256).
Proof.
  revert tbl complete. induction cs as [|c cs IH]; intros tbl complete Hup Hl; cbn [char_set_table].
  - split; [|set_solver]. intros b Hb. split; [by left|intros [?|(d & Hd & _)]; [done|by apply elem_of_nil in Hd]].
  - change 0xff with (2 ^ 8 - 1). rewrite (land_pow2 _ 8) by lia. change (2 ^ 8) with 256.
    assert (0 ≤ up c) as Hc by (apply Hup; by left).
    specialize (IH (<[Z.to_nat (up c mod 256) := true]> tbl) (if 256 <=? up c then false else complete)).
    destruct (char_set_table up cs _ _) as [tbl' complete'].
    destruct IH as [IH1 IH2]; [intros d Hd; apply Hup; by right|by rewrite length_insert|].
    split.
    + intros b Hb. rewrite IH1 by done.
      assert (in_table (<[Z.to_nat (up c mod 256):=true]> tbl) b = true ↔ in_table tbl b = true ∨ up c mod 256 = b) as ->.
      { unfold in_table. rewrite !nth_lookup. destruct (decide (up c mod 256 = b)) as [<-|Hne].
        - rewrite list_lookup_insert_eq by (rewrite Hl; Z.to_euclidean_division_equations; lia). split; [by right|done].
        - rewrite list_lookup_insert_ne by (Z.to_euclidean_division_equations; lia). tauto. }
      split.
      * intros [[?|?]|(d & Hd & ?)]; [by left|right; exists c; split; [by left|done]|right; exists d; split; [by right|done]].
      * intros [?|(d & [->|Hd]%elem_of_cons & ?)]; [by left; left|left; by right|right; eauto].
    + rewrite IH2. destruct (Z.leb_spec 256 (up c)).
      * split; [by intros [? _]|]. intros [_ H']. specialize (H' c ltac:(by left)). lia.
      * split; intros [? H']; (split; [done|]); [|intros d Hd; apply H'; by right].
        intros d [->|Hd]%elem_of_cons; [done|by apply H'].
Qed.

Lemma existsb_spec (P : Z → bool) l : existsb P l = true ↔ ∃ d, d ∈ l ∧ P d = true.
Proof. rewrite existsb_exists. by setoid_rewrite list_elem_of_In. Qed.

Lemma search_ok found direction i s :
  search found direction i s = match scan_forward found s with Some k => i + direction * Z.of_nat k | None => SIZE_MAX end.
Proof.
  revert i. induction s as [|c s IH]; intros i; cbn [search scan_forward]; [done|]. destruct (found c); [lia|].
  rewrite IH. destruct (scan_forward found s); cbn [fmap option_fmap option_map]; [lia|done].
Qed.

Lemma scan_forward_ext found found' l : (∀ c, c ∈ l → found c = found' c) → scan_forward found l = scan_forward found' l.
Proof.
  induction l as [|c l IH]; intros Hf; [done|]. cbn [scan_forward]. rewrite (Hf c) by left. rewrite IH; [done|].
  intros d Hd. apply Hf. by right.
Qed.

(** The text of the references made by splitting and trimming. *)
Lemma sub_text s i n :
  valid s → (i + n ≤ length (text s))%nat →
  text (StringRef (2 * Z.of_nat n) (add_offset (Buffer s) (2 * Z.of_nat i))) = take n (drop i (text s)).
Proof.
  intros Hv Hin. unfold text at 1, count, memory_at, add_offset. cbn [Length Buffer].
  replace (Z.to_nat (2 * Z.of_nat n / 2)) with n by (Z.to_euclidean_division_equations; lia).
  replace (Z.to_nat (2 * Z.of_nat i / 2)) with i by (Z.to_euclidean_division_equations; lia).
  destruct (text_memory s Hv) as [r Hr]. unfold memory_at in Hr. destruct (Buffer s); cbn in Hr |- *.
  - rewrite Hr, drop_app_le, take_app_le; [done|rewrite length_drop; lia|lia].
  - destruct (text s); [by rewrite take_nil, drop_nil, take_nil|done].
Qed.

Lemma sub_text_start s n : valid s → (n ≤ length (text s))%nat → text (StringRef (2 * Z.of_nat n) (Buffer s)) = take n (text s).
Proof.
  intros Hv Hn. pose proof (sub_text s 0 n Hv ltac:(lia)) as H. rewrite drop_0 in H. rewrite <-H.
  unfold text, memory_at, add_offset. cbn [Length Buffer]. by destruct (Buffer s).
Qed.

(** What a split that was successful returns, and one that was not. *)
Record split_parts (s : PH_STRINGREF) (r : split) (i n : nat) : Prop := {
  parts_found : Found r = true;
  parts_first : text (FirstPart r) = take i (text s);
  parts_separator : text (SeparatorPart r) = take n (drop i (text s));
  parts_second : text (SecondPart r) = drop (i + n) (text s);
}.
Record no_parts (s : PH_STRINGREF) (r : split) : Prop := {
  no_parts_found : Found r = false;
  no_parts_first : FirstPart r = s;
  no_parts_second : SecondPart r = null_string ∧ SeparatorPart r = null_string;
}.

Lemma split_at_ok s i n :
  valid s → (i + n ≤ length (text s))%nat → split_parts s (split_at s (Z.of_nat i) (2 * Z.of_nat n)) i n.
Proof.
  intros Hv Hin. destruct (valid_text s Hv) as (Hl & _ & Hb). unfold split_at. rewrite (proj2 (Z.eqb_neq _ _)) by (unfold SIZE_MAX; lia).
  unfold separator_found. rewrite Z.mul_comm. split; cbn [Found FirstPart SecondPart SeparatorPart].
  - done.
  - apply sub_text_start; [done|lia].
  - by apply sub_text.
  - replace (2 * Z.of_nat i + 2 * Z.of_nat n) with (2 * Z.of_nat (i + n)) by lia.
    replace (u64 _) with (2 * Z.of_nat (length (text s) - (i + n))) by (unfold u64; rewrite Z.mod_small; lia).
    rewrite sub_text by (done || lia). rewrite take_ge; [done|]. rewrite length_drop. lia.
Qed.

Lemma split_first P s r n :
  valid s → first_of P r → (∀ i, P i → (i + n ≤ length (text s))%nat) →
  (∃ i, split_parts s (split_at s r (2 * Z.of_nat n)) i n ∧ P i ∧ ∀ j, (j < i)%nat → ¬ P j) ∨
  (no_parts s (split_at s r (2 * Z.of_nat n)) ∧ ∀ j, ¬ P j).
Proof.
  intros Hv [(i & -> & Hi & Hj)|[-> Hj]] Hin; [left; exists i; split_and!; [by apply split_at_ok; [|apply Hin]|done..]|right].
  split; [|done]. by split.
Qed.

Lemma split_last P s r n :
  valid s → last_of P r → (∀ i, P i → (i + n ≤ length (text s))%nat) →
  (∃ i, split_parts s (split_at s r (2 * Z.of_nat n)) i n ∧ P i ∧ ∀ j, (i < j)%nat → ¬ P j) ∨
  (no_parts s (split_at s r (2 * Z.of_nat n)) ∧ ∀ j, ¬ P j).
Proof.
  intros Hv [(i & -> & Hi & Hj)|[-> Hj]] Hin; [left; exists i; split_and!; [by apply split_at_ok; [|apply Hin]|done..]|right].
  split; [|done]. by split.
Qed.

Lemma unit_at_ext found found' t i : (∀ c, c ∈ t → found c = found' c) → unit_at found t i ↔ unit_at found' t i.
Proof.
  intros He. unfold unit_at. split; intros (c & Hc & Hf); exists c; (split; [done|]); [rewrite <-He|rewrite He]; try done; by eapply list_elem_of_lookup_2.
Qed.

Lemma first_of_ext (P Q : nat → Prop) r : (∀ i, P i ↔ Q i) → first_of P r → first_of Q r.
Proof. intros HPQ [(i & -> & Hi & Hj)|[-> Hj]]; [left; exists i; split_and!; [done|by apply HPQ|]|right; split; [done|]]; intros j; rewrite <-HPQ; auto. Qed.

Lemma last_of_ext (P Q : nat → Prop) r : (∀ i, P i ↔ Q i) → last_of P r → last_of Q r.
Proof. intros HPQ [(i & -> & Hi & Hj)|[-> Hj]]; [left; exists i; split_and!; [done|by apply HPQ|]|right; split; [done|]]; intros j; rewrite <-HPQ; auto. Qed.

Lemma unit_at_bound found t i : unit_at found t i → (i + 1 ≤ length t)%nat.
Proof. intros (c & Hc%lookup_lt_Some & _). lia. Qed.

Section Splitting.
Context (upcase : Z → Z) (intrinsics : bool).
Local Abbreviation folded ic l := (fold_case upcase ic <$> l).

(** The units that separate: those of the set, or the others. *)
Definition separates (Flags : Z) (set : list Z) (c : Z) : bool :=
  xorb (has Flags PH_SPLIT_COMPLEMENT_CHAR_SET)
    (bool_decide (fold_case upcase (has Flags PH_SPLIT_CASE_INSENSITIVE) c ∈ folded (has Flags PH_SPLIT_CASE_INSENSITIVE) set)).

(** Units are not negative, and a set that is said to be in upper case is. *)
Record split_ok (Flags : Z) (t set : list Z) : Prop := {
  split_units c : c ∈ t ++ set → 0 ≤ c ∧ 0 ≤ upcase c;
  split_upper : has Flags PH_SPLIT_CASE_INSENSITIVE = true → has Flags PH_SPLIT_CHAR_SET_IS_UPPERCASE = true →
    ∀ d, d ∈ set → upcase d = d;
}.

Lemma is_separator_ok Flags t set c :
  split_ok Flags t set → c ∈ t →
  let ic := has Flags PH_SPLIT_CASE_INSENSITIVE in
  let '(tbl, complete) := char_set_table (if ic then upcase else λ c, c) set (replicate 256 false) true in
  is_separator upcase Flags set tbl complete (fold_case upcase ic c) = separates Flags set c.
Proof.
  intros [Hunits Hupper] Hc ic. set (up := if ic then upcase else λ c, c).
  assert (∀ d, up d = fold_case upcase ic d) as Hup by (intros d; unfold up; by destruct ic).
  assert (∀ d, d ∈ t ++ set → 0 ≤ fold_case upcase ic d) as Hpos by (intros d Hd; destruct (Hunits d Hd); by destruct ic).
  pose proof (char_set_table_ok up set (replicate 256 false) true) as Htab. destruct (char_set_table up set _ true) as [tbl complete].
  destruct Htab as [Htab Hcomp]; [intros d Hd; rewrite Hup; apply Hpos, elem_of_app; by right|done|].
  assert (∀ b, in_table (replicate 256 false) b = false) as Hempty.
  { intros b. unfold in_table. rewrite nth_lookup. destruct (replicate 256 false !! Z.to_nat b) eqn:E; [|done].
    by apply lookup_replicate in E as [-> _]. }
  unfold separates. fold ic. set (x := fold_case upcase ic c). assert (0 ≤ x) as Hx by (apply Hpos, elem_of_app; by left).
  assert (∀ b, 0 ≤ b < 256 → in_table tbl b = true ↔ ∃ d, d ∈ set ∧ fold_case upcase ic d mod 256 = b) as Htab'.
  { intros b Hb. rewrite Htab, Hempty by done. setoid_rewrite Hup. split; [by intros [?|?]|by right]. }
  assert (x ∈ folded ic set ↔ ∃ d, d ∈ set ∧ fold_case upcase ic d = x) as Hmem by (rewrite list_elem_of_fmap; naive_solver).
  assert ((if negb ic || has Flags PH_SPLIT_CHAR_SET_IS_UPPERCASE then existsb (λ d, d =? x) set else existsb (λ d, upcase d =? x) set)
    = bool_decide (x ∈ folded ic set)) as Hlisted.
  { apply eq_bool_prop_intro. rewrite !Is_true_true, bool_decide_eq_true, Hmem.
    destruct ic eqn:Hic; cbn [negb orb]; [destruct (has Flags PH_SPLIT_CHAR_SET_IS_UPPERCASE) eqn:Hu|];
      rewrite existsb_spec; setoid_rewrite Z.eqb_eq; [|done|done].
    split; intros (d & Hd & <-); exists d; (split; [done|]); cbn; by rewrite Hupper. }
  assert (in_table tbl (x mod 256) = false → bool_decide (x ∈ folded ic set) = false) as Hout.
  { intros Hf. apply bool_decide_eq_false. intros (d & Hd & He)%Hmem.
    assert (in_table tbl (x mod 256) = true) by (apply Htab'; [by apply Z.mod_pos_bound|]; exists d; by rewrite He). congruence. }
  unfold is_separator. fold ic. rewrite Hlisted. change 0xff with (2 ^ 8 - 1). rewrite (land_pow2 _ 8) by lia. change (2 ^ 8) with 256.
  destruct ((x <? 256) && complete) eqn:Hlow.
  - apply andb_true_iff in Hlow as [Hlt%Z.ltb_lt Hcm]. apply Hcomp in Hcm as [_ Hall].
    assert (in_table tbl x = bool_decide (x ∈ folded ic set)) as ->.
    { apply eq_bool_prop_intro. rewrite !Is_true_true, bool_decide_eq_true, Hmem, Htab' by lia.
      split; intros (d & Hd & He); exists d; (split; [done|]); [|by rewrite He, Z.mod_small].
      rewrite Z.mod_small in He; [done|]. rewrite <-Hup. split; [rewrite Hup; apply Hpos, elem_of_app; by right|by apply Hall]. }
    by destruct (has Flags PH_SPLIT_COMPLEMENT_CHAR_SET), (bool_decide _).
  - destruct (in_table tbl (x mod 256)); [|rewrite Hout by done]; by destruct (has Flags PH_SPLIT_COMPLEMENT_CHAR_SET), (bool_decide _).
Qed.

(** A set of one unit. *)
Lemma separates_one Flags c d :
  has Flags PH_SPLIT_COMPLEMENT_CHAR_SET = false →
  separates Flags [c] d = (fold_case upcase (has Flags PH_SPLIT_CASE_INSENSITIVE) d =? fold_case upcase (has Flags PH_SPLIT_CASE_INSENSITIVE) c).
Proof.
  intros Hc. unfold separates. rewrite Hc. cbn [xorb]. apply eq_bool_prop_intro. rewrite !Is_true_true, bool_decide_eq_true, Z.eqb_eq.
  cbn. apply list_elem_of_singleton.
Qed.

(** The result of the search for a separator. *)
Lemma search_char_set_ok s set Flags :
  valid s → split_ok Flags (text s) (text set) →
  (has Flags PH_SPLIT_START_AT_END = false → first_of (unit_at (separates Flags (text set)) (text s)) (search_char_set upcase s set Flags)) ∧
  (has Flags PH_SPLIT_START_AT_END = true → last_of (unit_at (separates Flags (text set)) (text s)) (search_char_set upcase s set Flags)).
Proof.
  intros Hv Hok. unfold search_char_set.
  assert (∀ c, c ∈ text s → _) as Hsep by (intros c; apply (is_separator_ok Flags (text s) (text set) c Hok)). cbv zeta in Hsep.
  destruct (char_set_table _ _ _ _) as [tbl complete]. destruct (text_length s Hv) as [E1 _].
  set (found := λ c, _).
  assert (∀ c, c ∈ text s → found c = separates Flags (text set) c) as Hf by (intros c Hc; unfold found; rewrite <-Hsep by done; by destruct (has Flags PH_SPLIT_CASE_INSENSITIVE)).
  split; intros ->; cbn [negb].
  - apply scan_first. rewrite search_ok, (scan_forward_ext _ _ _ Hf). destruct (scan_forward _ _); lia.
  - apply scan_last. rewrite search_ok, (scan_forward_ext _ (separates Flags (text set))); [|intros c Hc; apply Hf; by apply elem_of_reverse].
    pose proof (scan_forward_spec (separates Flags (text set)) (reverse (text s))) as Hs.
    destruct (scan_forward _ _) as [i|]; [|done]. destruct Hs as [(d & Hd%lookup_lt_Some & _) _]. rewrite length_reverse in Hd. lia.
Qed.

Lemma split_char_set_ok s set range Flags :
  intrinsics = true → valid s → valid set → has Flags PH_SPLIT_AT_RANGE = false → has Flags PH_SPLIT_AT_STRING = false →
  split_ok Flags (text s) (text set) →
  ∃ r, PhSplitStringRefEx upcase intrinsics s set range Flags = split_at s r 2 ∧
    (has Flags PH_SPLIT_START_AT_END = false → first_of (unit_at (separates Flags (text set)) (text s)) r) ∧
    (has Flags PH_SPLIT_START_AT_END = true → last_of (unit_at (separates Flags (text set)) (text s)) r).
Proof.
  intros Hi Hv Hvs HR HS Hok. unfold PhSplitStringRefEx. rewrite HR, HS.
  destruct (negb (has Flags PH_SPLIT_COMPLEMENT_CHAR_SET) && (Length set =? 2)) eqn:H1.
  - apply andb_true_iff in H1 as [Hc%negb_true_iff Hl%Z.eqb_eq]. destruct (valid_text set Hvs) as (Hls & _).
    destruct (text set) as [|c [|? ?]] eqn:Hts; cbn [length] in Hls; [lia| |lia].
    destruct (text_memory set Hvs) as [r Hr]. rewrite Hts in Hr. rewrite Hr. cbn [app hd].
    eexists. split; [done|]. split; intros ->; cbn [negb].
    + eapply first_of_ext; [|by apply find_char_ok; [|left]]. intros i. apply unit_at_ext. intros d _. by rewrite separates_one.
    + eapply last_of_ext; [|by apply find_last_char_ok; [|left]]. intros i. apply unit_at_ext. intros d _. by rewrite separates_one.
  - destruct (Z.eqb_spec (Length s) 0) as [H0|H0].
    + exists SIZE_MAX. split; [done|]. destruct (valid_text s Hv) as (Hl & _). assert (text s = []) as -> by (destruct (text s); [done|cbn in Hl; lia]).
      split; intros _; right; (split; [done|]); by intros j (? & ? & _).
    + eexists. split; [done|]. by apply search_char_set_ok.
Qed.

End Splitting.

(** ** Trimming *)

Fixpoint drop_while (P : Z → bool) (l : list Z) : list Z :=
  match l with
  | c :: l' => if P c then drop_while P l' else l
  | [] => []
  end.

(** What is left of a text whose units with the property are trimmed. *)
Definition trimmed (P : Z → bool) (Flags : Z) (l : list Z) : list Z :=
  let l := if has Flags PH_TRIM_END_ONLY then l else drop_while P l in
  if has Flags PH_TRIM_START_ONLY then l else reverse (drop_while P (reverse l)).

Lemma trim_count_ok P l :
  ∃ n, trim_count P l = Z.of_nat n ∧ (n ≤ length l)%nat ∧ drop n l = drop_while P l.
Proof.
  induction l as [|c l (n & Hn & Hl & Hd)]; [by exists 0%nat|]. cbn [trim_count drop_while].
  destruct (P c); [|exists 0%nat; split_and!; [done|lia|done]]. exists (S n). cbn. split_and!; [lia|lia|done].
Qed.

Lemma drop_while_ext P Q l : (∀ c, c ∈ l → P c = Q c) → drop_while P l = drop_while Q l.
Proof.
  induction l as [|c l IH]; intros Hf; [done|]. cbn [drop_while]. rewrite (Hf c) by left. rewrite IH; [done|]. intros d Hd. apply Hf. by right.
Qed.

Lemma drop_while_subset P l c : c ∈ drop_while P l → c ∈ l.
Proof. induction l as [|d l IH]; [done|]. cbn [drop_while]. destruct (P d); [|done]. intros Hc. right. by apply IH. Qed.

Lemma trimmed_ext P Q Flags l : (∀ c, c ∈ l → P c = Q c) → trimmed P Flags l = trimmed Q Flags l.
Proof.
  intros Hf. unfold trimmed. rewrite (drop_while_ext P Q l) by done. destruct (has Flags PH_TRIM_START_ONLY); [done|].
  f_equal. apply drop_while_ext. intros c Hc. rewrite elem_of_reverse in Hc. revert Hc. destruct (has Flags PH_TRIM_END_ONLY); intros Hc; [by apply Hf|].
  apply Hf. by eapply drop_while_subset.
Qed.

Lemma trim_ok P Flags s :
  valid s → text (trim_end P Flags (trim_start P Flags s)) = trimmed P Flags (text s).
Proof.
  intros Hv. unfold trimmed.
  assert (valid (trim_start P Flags s) ∧ text (trim_start P Flags s) = if has Flags PH_TRIM_END_ONLY then text s else drop_while P (text s)) as [Hv' Ht].
  { unfold trim_start. destruct (has Flags PH_TRIM_END_ONLY); [done|]. destruct (trim_count_ok P (text s)) as (n & -> & Hn & <-).
    destruct (valid_text s Hv) as (Hl & _ & Hb). destruct (text_memory s Hv) as [r Hr].
    assert (PhSkipStringRef s (Z.of_nat n * 2) = StringRef (2 * Z.of_nat (length (text s) - n)) (add_offset (Buffer s) (2 * Z.of_nat n))) as ->
      by (unfold PhSkipStringRef; f_equal; [lia|f_equal; lia]).
    split; [|rewrite sub_text by (done || lia); apply take_ge; rewrite length_drop; lia].
    exists (length (text s) - n)%nat. cbn [Length]. split_and!; [done| |lia].
    unfold memory_at, add_offset in *. cbn [Buffer]. replace (Z.to_nat (2 * Z.of_nat n / 2)) with n by (Z.to_euclidean_division_equations; lia).
    destruct (Buffer s); cbn in Hr |- *; [rewrite Hr, length_drop, length_app; lia|].
    destruct (text s); [cbn; lia|done]. }
  rewrite <-Ht. clear Ht. revert Hv'. generalize (trim_start P Flags s). clear s Hv. intros s Hv.
  unfold trim_end. destruct (has Flags PH_TRIM_START_ONLY); [done|].
  destruct (trim_count_ok P (reverse (text s))) as (n & -> & Hn & <-). rewrite length_reverse in Hn.
  destruct (valid_text s Hv) as (Hl & _). replace (Length s - Z.of_nat n * 2) with (2 * Z.of_nat (length (text s) - n)) by lia.
  rewrite sub_text_start by (done || lia). set (k := (length (text s) - n)%nat).
  assert (reverse (text s) = reverse (drop k (text s)) ++ reverse (take k (text s))) as -> by (by rewrite <-reverse_app, take_drop).
  rewrite drop_app_length'; [by rewrite reverse_involutive|]. rewrite length_reverse, length_drop. lia.
Qed.

(** ** The properties *)

(** [PhEqualStringRef] compares blocks of 16 or 8 bytes at once, and the units of
    the first block that differs and of the rest one by one if case is ignored; it
    still says exactly whether the texts are equal, up to case if asked for, for
    both block sizes and any lengths. The sign of [PhCompareStringRef] is the
    lexicographic order of the texts, by upper case if case is ignored, as long as
    the lengths differ by less than 2^31; so it is a total order, and agrees with
    [PhEqualStringRef]. *)
Theorem string_compare upcase intrinsics s1 s2 s3 ic :
  valid s1 → valid s2 → valid s3 → Length s1 < 2 ^ 31 → Length s2 < 2 ^ 31 → Length s3 < 2 ^ 31 →
  let key s := fold_case upcase ic <$> text s in
  let compare s s' := PhCompareStringRef upcase s s' ic in
  PhEqualStringRef upcase intrinsics s1 s2 ic = bool_decide (key s1 = key s2) ∧
  Z.sgn (compare s1 s2) = lexicographic compare_Z (key s1) (key s2) ∧
  (compare s1 s2 = 0 ↔ PhEqualStringRef upcase intrinsics s1 s2 ic = true) ∧
  (compare s1 s2 < 0 ↔ 0 < compare s2 s1) ∧
  (compare s1 s2 < 0 → compare s2 s3 < 0 → compare s1 s3 < 0).
Proof.
  intros Hv1 Hv2 Hv3 H1 H2 H3 key compare.
  assert (∀ s, valid s → 0 ≤ Length s) as Hpos by (intros s (Hl & _)%valid_text; lia).
  pose proof (Hpos s1 Hv1). pose proof (Hpos s2 Hv2). pose proof (Hpos s3 Hv3).
  assert (∀ s s', valid s → valid s' → 0 ≤ Length s < 2 ^ 31 → 0 ≤ Length s' < 2 ^ 31 →
    Z.sgn (compare s s') = lexicographic compare_Z (key s) (key s')) as Hcmp by (intros; apply compare_ok; [done|done|lia]).
  pose proof (Hcmp s1 s2 Hv1 Hv2 ltac:(lia) ltac:(lia)) as C12. pose proof (Hcmp s2 s1 Hv2 Hv1 ltac:(lia) ltac:(lia)) as C21.
  pose proof (Hcmp s2 s3 Hv2 Hv3 ltac:(lia) ltac:(lia)) as C23. pose proof (Hcmp s1 s3 Hv1 Hv3 ltac:(lia) ltac:(lia)) as C13.
  pose proof (ordering_eq (cmp := lexicographic compare_Z) (key s1) (key s2)) as Heq.
  pose proof (ordering_opp (cmp := lexicographic compare_Z) (key s1) (key s2)) as Hopp.
  pose proof (ordering_lt (cmp := lexicographic compare_Z) (key s1) (key s2) (key s3)) as Hlt.
  split_and!; [by apply equal_ok|done| |lia|lia]. rewrite equal_ok, bool_decide_eq_true by done. fold (key s1) (key s2). rewrite <-Heq. lia.
Qed.

(** Searching and splitting. [PhSplitStringRefEx] with a set of characters finds
    the first separator, or the last one if asked to, whatever the flags: a unit
    separates if it is in the set, or, with the flag for the complement, if it is
    not, up to case if asked for; the table of low bytes and the special case for
    one character do not change that. The three parts are the text before the
    separator, the separator, and the text after it, and a text without a separator
    is returned whole. The same holds with a string as the separator. *)
Theorem string_split upcase s sep range Flags :
  valid s → valid sep → has Flags PH_SPLIT_AT_RANGE = false →
  let r := PhSplitStringRefEx upcase true s sep range Flags in
  let set := unit_at (separates upcase Flags (text sep)) (text s) in
  let string := occurs upcase (has Flags PH_SPLIT_CASE_INSENSITIVE) (text s) (text sep) in
  (has Flags PH_SPLIT_AT_STRING = false → split_ok upcase Flags (text s) (text sep) →
   (∃ i, split_parts s r i 1 ∧ set i ∧ ∀ j, (if has Flags PH_SPLIT_START_AT_END then i < j else j < i)%nat → ¬ set j) ∨
   (no_parts s r ∧ ∀ j, ¬ set j)) ∧
  (has Flags PH_SPLIT_AT_STRING = true → has Flags PH_SPLIT_START_AT_END = false →
   (∃ i, split_parts s r i (length (text sep)) ∧ string i ∧ ∀ j, (j < i)%nat → ¬ string j) ∨
   (no_parts s r ∧ ∀ j, ¬ string j)).
Proof.
  intros Hv Hvs HR r set string. split.
  - intros HS Hok. destruct (split_char_set_ok upcase true s sep range Flags eq_refl Hv Hvs HR HS Hok) as (i & Hr & Hfirst & Hlast).
    fold r in Hr. rewrite Hr. change 2 with (2 * Z.of_nat 1).
    destruct (has Flags PH_SPLIT_START_AT_END); [eapply split_last|eapply split_first]; try done; try (intros ?; apply unit_at_bound); auto.
  - intros HS HE. unfold r, PhSplitStringRefEx. rewrite HR, HS, HE. destruct (valid_text sep Hvs) as (-> & _).
    eapply split_first; [exact Hv|by apply find_string_in_string_ok|by intros i [? _]].
Qed.

(** What [PhTrimStringRef] trims: units in the set. But if the set has more than one
    unit and all of them are below 256, it looks at the low byte only. *)
Definition trims (set : list Z) (c : Z) : bool :=
  if (length set =? 1)%nat || existsb (λ d, 256 <=? d) set then bool_decide (c ∈ set) else bool_decide (c mod 256 ∈ set).

(** [PhTrimStringRef] removes, from the ends it is asked to, the units that are
    in the set; with a set of two or more units below 256 it tests only the low byte
    of each unit of the text, so that it also removes other units, such as U+4E09
    (low byte 9) when spaces and tabs are to be trimmed. *)
Theorem string_trim s set Flags :
  valid s → valid set → (∀ c, c ∈ text s ++ text set → 0 ≤ c) →
  text (PhTrimStringRef s set Flags) = trimmed (trims (text set)) Flags (text s) ∧
  (∃ s', text s' = [0x4e09; 0x61] ∧ text (PhTrimStringRef s' (StringRef 4 (Some [0x20; 0x09])) 0) = [0x61]).
Proof.
  intros Hv Hvs Hpos. split; [|by exists (StringRef 4 (Some [0x4e09; 0x61]))].
  destruct (valid_text s Hv) as (Hl & _). destruct (valid_text set Hvs) as (Hls & _).
  assert (∀ l, (∀ c, c ∈ l → trims (text set) c = false) → trimmed (trims (text set)) Flags l = l) as Hnone.
  { assert (∀ l, (∀ c, c ∈ l → trims (text set) c = false) → drop_while (trims (text set)) l = l) as Hd
      by (intros [|c l] Hc; [done|]; cbn [drop_while]; by rewrite (Hc c) by left).
    intros l Hc. unfold trimmed. rewrite Hd by done. assert (drop_while (trims (text set)) (reverse l) = reverse l) as E
      by (apply Hd; intros c Hin; apply Hc; by rewrite elem_of_reverse in Hin).
    destruct (has Flags PH_TRIM_END_ONLY), (has Flags PH_TRIM_START_ONLY); rewrite ?E, ?reverse_involutive; done. }
  unfold PhTrimStringRef. destruct (Buffer s) as [b|] eqn:HB.
  2:{ assert (text s = []) as -> by (unfold text, memory_at; rewrite HB; apply take_nil). by rewrite Hnone by (by intros c ?%elem_of_nil). }
  destruct ((Length s =? 0) || (Length set =? 0)) eqn:H0.
  { rewrite Hnone; [done|]. apply orb_true_iff in H0 as [H0%Z.eqb_eq|H0%Z.eqb_eq].
    - assert (text s = []) as -> by (destruct (text s); [done|cbn in Hl; lia]). by intros c ?%elem_of_nil.
    - assert (text set = []) as -> by (destruct (text set); [done|cbn in Hls; lia]). by intros c _. }
  destruct (Z.eqb_spec (Length set) 2) as [H2|H2].
  - rewrite trim_ok by done. apply trimmed_ext. intros d _. destruct (text set) as [|c [|? ?]] eqn:Hts; cbn [length] in Hls; [lia| |lia].
    destruct (text_memory set Hvs) as [r Hr]. rewrite Hts in Hr. rewrite Hr. unfold trims. cbn [length Nat.eqb orb app hd].
    apply eq_bool_prop_intro. rewrite !Is_true_true, bool_decide_eq_true, Z.eqb_eq. by rewrite list_elem_of_singleton.
  - pose proof (char_set_table_ok (λ c, c) (text set) (replicate 256 false) true) as Htab.
    destruct (char_set_table _ (text set) _ true) as [tbl complete]. rewrite trim_ok by done.
    destruct Htab as [Htab Hcomp]; [intros d Hd; apply Hpos, elem_of_app; by right|done|].
    apply trimmed_ext. intros c Hc. assert (0 ≤ c) by (apply Hpos, elem_of_app; by left).
    unfold in_char_set, trims. change 0xff with (2 ^ 8 - 1). rewrite (land_pow2 _ 8) by lia. change (2 ^ 8) with 256.
    assert (in_table tbl (c mod 256) = true ↔ ∃ d, d ∈ text set ∧ d mod 256 = c mod 256) as Ht.
    { rewrite Htab by (by apply Z.mod_pos_bound). split; [|by right]. intros [Hf|?]; [|done]. exfalso. revert Hf.
      unfold in_table. rewrite nth_lookup. destruct (replicate 256 false !! Z.to_nat (c mod 256)) eqn:E; [|done]. by apply lookup_replicate in E as [-> _]. }
    assert ((length (text set) =? 1)%nat = false) as -> by (apply Nat.eqb_neq; lia). cbn [orb].
    assert (existsb (λ d, 256 <=? d) (text set) = negb complete) as ->.
    { apply eq_bool_prop_intro. rewrite !Is_true_true, existsb_spec, negb_true_iff, <-not_true_iff_false, Hcomp. setoid_rewrite Z.leb_le. split.
      - intros (d & Hd & Hge) [_ Hall]. specialize (Hall d Hd). lia.
      - intros Hn. destruct (existsb (λ d, 256 <=? d) (text set)) eqn:He; [apply existsb_spec in He; by setoid_rewrite Z.leb_le in He|].
        exfalso. apply Hn. split; [done|]. intros d Hd. apply Z.nle_gt. intros Hge. apply not_true_iff_false in He. apply He, existsb_spec.
        exists d. by rewrite Z.leb_le. }
    destruct complete; cbn [negb].
    + destruct (proj1 Hcomp eq_refl) as [_ Hall].
      assert (∀ d, d ∈ text set → d mod 256 = d) as Hmod by (intros d Hd; apply Z.mod_small; split; [apply Hpos, elem_of_app; by right|by apply Hall]).
      apply eq_bool_prop_intro. rewrite !Is_true_true, bool_decide_eq_true. transitivity (in_table tbl (c mod 256) = true); [by destruct (in_table _ _)|].
      rewrite Ht. split; [intros (d & Hd & <-); by rewrite Hmod|]. intros Hin. exists (c mod 256). split; [done|]. by rewrite Hmod.
    + apply eq_bool_prop_intro. rewrite !Is_true_true, bool_decide_eq_true. destruct (in_table tbl (c mod 256)) eqn:Hi; cbn [negb].
      * rewrite existsb_spec. setoid_rewrite Z.eqb_eq. split; [by intros (d & Hd & <-)|by exists c].
      * split; [done|]. intros Hin. exfalso. assert (false = true) as [=]. apply Ht. by exists c.
Qed.

Lemma input_length_ok n s i :
  input_length n s = Some i →
  (i ≤ length s)%nat ∧ 0 ∉ take i s ∧ (n = Some i ∨ s !! i = Some 0) ∧ (∀ k, n = Some k → (i ≤ k)%nat).
Proof.
  revert n i. induction s as [|c s IH]; intros n i.
  - destruct n as [[|n]|]; cbn; intros [= <-]. split_and!; [lia|by intros ?%elem_of_nil|by left|by intros k [= <-]].
  - destruct n as [[|n]|]; cbn [input_length].
    + intros [= <-]. split_and!; [lia|by intros ?%elem_of_nil|by left|by intros k [= <-]].
    + destruct (Z.eqb_spec c 0) as [->|Hc].
      * intros [= <-]. split_and!; [lia|by intros ?%elem_of_nil|by right|intros; lia].
      * intros (j & Hj & ->)%fmap_Some. destruct (IH _ _ Hj) as (Hl & Hn & He & Hk). split_and!.
        -- cbn. lia.
        -- cbn [take]. intros [?|?]%elem_of_cons; [by subst|done].
        -- destruct He as [[= <-]|He]; [by left|by right].
        -- intros k [= <-]. specialize (Hk n eq_refl). lia.
    + destruct (Z.eqb_spec c 0) as [->|Hc].
      * intros [= <-]. split_and!; [lia|by intros ?%elem_of_nil|by right|done].
      * intros (j & Hj & ->)%fmap_Some. destruct (IH _ _ Hj) as (Hl & Hn & He & Hk). split_and!.
        -- cbn. lia.
        -- cbn [take]. intros [?|?]%elem_of_cons; [by subst|done].
        -- destruct He as [?|He]; [done|by right].
        -- done.
Qed.

(** Copying a text into a buffer. [PhCopyBytesZ] and [PhCopyStringZ] copy the text
    up to the null character or the limit, and a null character after it, write
    nothing else, and leave the buffer alone if they fail. For bytes they succeed
    exactly if the text and the null character fit. For units they ask for one unit
    more than that, and report it: into a buffer of exactly the size needed
    [PhCopyStringZ] does not copy. *)
Theorem string_copy input n cells i :
  input_length n input = Some i →
  let OutputCount := Z.of_nat (length cells) in
  let copied cells' := take (S i) cells' = take i input ++ [0] ∧ drop (S i) cells' = drop (S i) cells ∧ length cells' = length cells in
  0 ∉ take i input ∧ (n = Some i ∨ input !! i = Some 0) ∧ (∀ k, n = Some k → (i ≤ k)%nat) ∧
  ((i < length cells)%nat → ∃ cells', PhCopyBytesZ input n (Some cells) OutputCount = Some (true, Some cells', Z.of_nat i + 1) ∧ copied cells') ∧
  ((length cells ≤ i)%nat → PhCopyBytesZ input n (Some cells) OutputCount = Some (false, Some cells, Z.of_nat i + 1)) ∧
  ((S i < length cells)%nat → ∃ cells', PhCopyStringZ input n (Some cells) OutputCount = Some (true, Some cells', Z.of_nat i + 2) ∧ copied cells') ∧
  ((length cells ≤ S i)%nat → PhCopyStringZ input n (Some cells) OutputCount = Some (false, Some cells, Z.of_nat i + 2)).
Proof.
  intros Hi OutputCount copied. destruct (input_length_ok _ _ _ Hi) as (Hl & Hn & He & Hk).
  assert (∀ size, 1 ≤ size → Z.of_nat i + size ≤ OutputCount →
    ∃ cells', copy_string size input n (Some cells) OutputCount = Some (true, Some cells', Z.of_nat i + size) ∧ copied cells') as Hyes.
  { intros size Hs Hle. unfold copy_string, OutputCount in *. rewrite Hi. cbn [mbind option_bind].
    assert ((Z.of_nat i + size <=? Z.of_nat (length cells)) = true) as -> by lia.
    assert ((i <? length cells)%nat = true) as -> by (apply Nat.ltb_lt; lia). eexists. split; [done|]. unfold copied.
    rewrite (cons_middle 0), app_assoc. assert (length (take i input ++ [0]) = S i) as E by (rewrite length_app, length_take; cbn; lia).
    rewrite take_app_length', drop_app_length', length_app, length_drop, E by done. split_and!; [done..|lia]. }
  assert (∀ size, OutputCount < Z.of_nat i + size →
    copy_string size input n (Some cells) OutputCount = Some (false, Some cells, Z.of_nat i + size)) as Hno.
  { intros size Hlt. unfold copy_string, OutputCount in *. rewrite Hi. cbn [mbind option_bind].
    by assert ((Z.of_nat i + size <=? Z.of_nat (length cells)) = false) as -> by lia. }
  split_and!; [done..| | | |]; intros Hc; [apply Hyes|apply Hno|apply Hyes|apply Hno]; unfold OutputCount; lia.
Qed.

Lemma string_copy_witness :
  PhCopyStringZ [0x61; 0x62; 0] None (Some [7; 7; 7]) 3 = Some (false, Some [7; 7; 7], 4).
Proof. refine (proj2 (proj2 (proj2 (proj2 (proj2 (proj2 (string_copy [0x61; 0x62; 0] None [7; 7; 7] 2 eq_refl)))))) _). cbn. lia. Defined.

Lemma string_compare_witness :
  let upcase c := if (0x61 <=? c) && (c <=? 0x7a) then c - 0x20 else c in
  let s t := StringRef (2 * Z.of_nat (length t)) (Some t) in
  PhEqualStringRef upcase true (s [0x61; 0x62; 0x63]) (s [0x41; 0x42; 0x43]) true = true.
Proof.
  intros upcase s.
  assert (∀ t, (length t < 10)%nat → valid (s t)) as Hv
    by (intros t Ht; exists (length t); unfold s, memory_at; cbn [Length Buffer]; change (default _ _) with t; lia).
  assert (∀ t, (length t < 10)%nat → Length (s t) < 2 ^ 31) as Hl by (intros t Ht; cbn [s Length]; lia).
  refine (eq_trans (proj1 (string_compare upcase true (s [0x61; 0x62; 0x63]) (s [0x41; 0x42; 0x43]) (s []) true _ _ _ _ _ _)) _);
    [apply Hv; cbn; lia..|apply Hl; cbn; lia|apply Hl; cbn; lia|apply Hl; cbn; lia|vm_compute; reflexivity].
Defined.

Lemma string_split_witness :
  let s := StringRef 8 (Some [0x61; 0x2e; 0x62; 0x2f]) in
  let sep := StringRef 4 (Some [0x2e; 0x2f]) in
  ∃ i, split_parts s (PhSplitStringRefEx (λ c, c) true s sep (0, 0) PH_SPLIT_START_AT_END) i 1 ∧ (1 < i)%nat.
Proof.
  intros s sep.
  destruct (proj1 (string_split (λ c, c) s sep (0, 0) PH_SPLIT_START_AT_END
    ltac:(exists 4%nat; cbn; lia) ltac:(exists 2%nat; cbn; lia) eq_refl) eq_refl) as [(i & Hp & _ & Hlast)|[_ Hno]].
  - split; [|by vm_compute]. intros c Hc. change (text s ++ text sep) with [0x61; 0x2e; 0x62; 0x2f; 0x2e; 0x2f] in Hc.
    rewrite !elem_of_cons, elem_of_nil in Hc. lia.
  - exists i. split; [done|]. apply Nat.nle_gt. intros Hi. apply (Hlast 3%nat); [vm_compute; lia|]. by exists 0x2f.
  - exfalso. apply (Hno 3%nat). by exists 0x2f.
Defined.

Lemma string_trim_witness :
  text (PhTrimStringRef (StringRef 8 (Some [0x20; 0x61; 0x09; 0x20])) (StringRef 4 (Some [0x20; 0x09])) 0) = [0x61].
Proof.
  refine (eq_trans (proj1 (string_trim (StringRef 8 (Some [0x20; 0x61; 0x09; 0x20])) (StringRef 4 (Some [0x20; 0x09])) 0 _ _ _)) _).
  - exists 4%nat. cbn. lia.
  - exists 2%nat. cbn. lia.
  - intros c Hc. change (c ∈ [0x20; 0x61; 0x09; 0x20; 0x20; 0x09]) in Hc. rewrite !elem_of_cons, elem_of_nil in Hc. lia.
  - vm_compute. reflexivity.
Defined.
