(* ===== verification/Blocks.v ===== *)
(** Blocks of memory for containers that own one: what is allocated, copied and
    moved, with an access outside of the block as a fault. [Containers] and
    [StringBuilder] use them. *)

From S2P Require Import Prelude.

Lemma u64_small x : 0 ≤ x < 2 ^ 64 → u64 x = x.
Proof. intros. by apply Z.mod_small. Qed.

(** What an operation on a container gives: a value, an exception that it raises,
    or an access outside of a block. *)
Inductive result (A : Type) : Type :=
  | Ok (a : A)
  | Raised (status : Z)
  | Fault.
Arguments Ok {A} a.
Arguments Raised {A} status.
Arguments Fault {A}.

#[global] Instance result_ret : MRet result := λ A, Ok.
#[global] Instance result_bind : MBind result := λ A B f m,
  match m with
  | Ok a => f a
  | Raised status => Raised status
  | Fault => Fault
  end.

#[global] Instance result_fmap : FMap result := λ A B f m, m ≫= λ a, Ok (f a).

Definition STATUS_INVALID_PARAMETER_2 : Z := 0xC00000F0.

(** An element that was never written is [None]. *)
Definition block (A : Type) : Type := list (option A).

Section Blocks.
Context {A : Type}.
Implicit Types (b c : block A) (l x : list A).

Definition allocate (n : Z) : block A := replicate (Z.to_nat n) None.

Definition reallocate b (n : Z) : block A := resize (Z.to_nat n) None b.

(** [memcpy] into the block, from the element at [i] on, of elements that another block
    has or of a list. *)
Definition store_cells b (i : Z) c : result (block A) :=
  if decide (0 ≤ i ∧ i + Z.of_nat (length c) ≤ Z.of_nat (length b)) then
    Ok (take (Z.to_nat i) b ++ c ++ drop (Z.to_nat i + length c) b)
  else Fault.

Definition store b (i : Z) x : result (block A) := store_cells b i (Some <$> x).

(** The first [n] elements, for a copy. *)
Definition load_cells b (n : Z) : result (block A) :=
  if decide (0 ≤ n ≤ Z.of_nat (length b)) then Ok (take (Z.to_nat n) b) else Fault.

(** [memmove] of [n] elements within the block. *)
Definition move b (dst src n : Z) : result (block A) :=
  if decide (0 ≤ n ∧ 0 ≤ dst ∧ 0 ≤ src ∧ dst + n ≤ Z.of_nat (length b) ∧ src + n ≤ Z.of_nat (length b)) then
    Ok (take (Z.to_nat dst) b ++ take (Z.to_nat n) (drop (Z.to_nat src) b) ++ drop (Z.to_nat (dst + n)) b)
  else Fault.

(** ** What a block begins with *)

Definition begins b c : Prop := ∃ tail, b = c ++ tail.

Lemma begins_length b c : begins b c → (length c ≤ length b)%nat.
Proof. intros [tail ->]. rewrite length_app. lia. Qed.

Lemma begins_take b c n : begins b c → begins b (take n c).
Proof. intros [tail ->]. exists (drop n c ++ tail). by rewrite app_assoc, take_drop. Qed.

Lemma begins_prefix b c d : begins b (c ++ d) → begins b c.
Proof. intros [tail ->]. exists (d ++ tail). by rewrite app_assoc. Qed.

(** Whatever follows. *)
Lemma begins_extend b c n : begins b c → (length c + n ≤ length b)%nat → ∃ gap, length gap = n ∧ begins b (c ++ gap).
Proof.
  intros [tail ->]. rewrite length_app. intros Hn. exists (take n tail). split; [rewrite length_take; lia|].
  exists (drop n tail). by rewrite <-app_assoc, take_drop.
Qed.

Lemma length_allocate n : length (allocate n) = Z.to_nat n.
Proof. apply length_replicate. Qed.

Lemma length_reallocate b n : length (reallocate b n) = Z.to_nat n.
Proof. apply length_resize. Qed.

Lemma begins_reallocate b c n : begins b c → Z.of_nat (length c) ≤ n → begins (reallocate b n) c.
Proof.
  intros [tail ->] Hn. exists (resize (Z.to_nat n - length c) None tail). unfold reallocate. by rewrite resize_app_ge by lia.
Qed.

(** Writing at the end of it. *)
Lemma store_cells_end b c (x : block A) : begins b c → (length c + length x ≤ length b)%nat →
  ∃ b', store_cells b (Z.of_nat (length c)) x = Ok b' ∧ begins b' (c ++ x) ∧ length b' = length b.
Proof.
  intros [tail ->] Hl. unfold store_cells. rewrite decide_True by lia. rewrite Nat2Z.id. eexists. split; [done|].
  rewrite take_app_length. split.
  - exists (drop (length c + length x) (c ++ tail)). by rewrite app_assoc.
  - rewrite !length_app, length_drop, length_app in *. lia.
Qed.

(** Writing over a part of it. *)
Lemma store_cells_inside b c (x : block A) i : begins b c → (i + length x ≤ length c)%nat →
  ∃ b', store_cells b (Z.of_nat i) x = Ok b' ∧ begins b' (take i c ++ x ++ drop (i + length x) c) ∧ length b' = length b.
Proof.
  intros [tail ->] Hi. unfold store_cells. rewrite decide_True by (rewrite length_app; lia). rewrite Nat2Z.id. eexists. split; [done|].
  rewrite take_app_le, drop_app_le by lia. split.
  - exists tail. by rewrite <-!app_assoc.
  - rewrite !length_app, length_take, length_drop. lia.
Qed.

(** Copying the beginning of another block. *)
Lemma copy_cells b b' c : begins b c → (length c ≤ length b')%nat →
  ∃ b'', load_cells b (Z.of_nat (length c)) = Ok c ∧ store_cells b' 0 c = Ok b'' ∧ begins b'' c ∧ length b'' = length b'.
Proof.
  intros Hb Hl. pose proof (begins_length _ _ Hb). destruct (store_cells_end b' [] c) as (b'' & Hs & Hc & Hl'); [by exists b'|done|].
  exists b''. split_and!; [|done|done|done]. unfold load_cells. rewrite decide_True, Nat2Z.id by lia. f_equal.
  destruct Hb as [tail ->]. apply take_app_length.
Qed.

(** Making room at [i], then writing there. *)
Lemma move_apart b c i n : begins b c → (i ≤ length c)%nat → (length c + n ≤ length b)%nat →
  ∃ b' gap, move b (Z.of_nat (i + n)) (Z.of_nat i) (Z.of_nat (length c - i)) = Ok b' ∧ length gap = n ∧
    begins b' (take i c ++ gap ++ drop i c) ∧ length b' = length b.
Proof.
  intros [tail ->] Hi Hl. rewrite length_app in Hl.
  unfold move. rewrite decide_True by (rewrite length_app; lia). rewrite !Nat2Z.id.
  replace (Z.to_nat (Z.of_nat (i + n) + Z.of_nat (length c - i))) with (length c + n)%nat by lia.
  exists (take (i + n) (c ++ tail) ++ take (length c - i) (drop i (c ++ tail)) ++ drop (length c + n) (c ++ tail)), (take n (drop i (c ++ tail))).
  split; [done|]. assert (take (i + n) (c ++ tail) = take i c ++ take n (drop i (c ++ tail))) as ->.
  { rewrite <-(take_app_le c tail i) by lia. by rewrite take_take_drop. }
  assert (take (length c - i) (drop i (c ++ tail)) = drop i c) as ->.
  { rewrite drop_app_le by lia. rewrite take_app_le by (rewrite length_drop; lia). apply take_ge. rewrite length_drop. lia. }
  split_and!.
  - rewrite length_take, length_drop, length_app. lia.
  - eexists. by rewrite <-!app_assoc.
  - rewrite !length_app, !length_take, !length_drop, !length_app. lia.
Qed.

Lemma insert_cells b c (x : block A) i : begins b c → (i ≤ length c)%nat → (length c + length x ≤ length b)%nat →
  ∃ b' b'', move b (Z.of_nat (i + length x)) (Z.of_nat i) (Z.of_nat (length c - i)) = Ok b' ∧
    store_cells b' (Z.of_nat i) x = Ok b'' ∧ begins b'' (take i c ++ x ++ drop i c) ∧ length b'' = length b.
Proof.
  intros Hb Hi Hl. destruct (move_apart b c i (length x) Hb Hi Hl) as (b' & gap & Hm & Hg & Hb' & Hlen).
  destruct (store_cells_inside b' _ x i Hb') as (b'' & Hs & Hb'' & Hlen'); [rewrite !length_app, length_take, length_drop; lia|].
  exists b', b''. split_and!; [done|done| |by rewrite Hlen'].
  rewrite take_app_le, take_take, Nat.min_id in Hb'' by (rewrite length_take; lia).
  assert (drop (i + length x) (take i c ++ gap ++ drop i c) = drop i c) as Hd
    by (rewrite app_assoc; apply drop_app_length'; rewrite length_app, length_take; lia).
  by rewrite Hd in Hb''.
Qed.

(** Removing [n] elements at [i]. *)
Lemma remove_cells b c i n : begins b c → (i + n ≤ length c)%nat →
  ∃ b', move b (Z.of_nat i) (Z.of_nat (i + n)) (Z.of_nat (length c - i - n)) = Ok b' ∧
    begins b' (take i c ++ drop (i + n) c) ∧ length b' = length b.
Proof.
  intros [tail ->] Hi. unfold move. rewrite decide_True by (rewrite length_app; lia). rewrite !Nat2Z.id.
  eexists. split; [done|]. rewrite take_app_le, drop_app_le by lia.
  rewrite take_app_le by (rewrite length_drop; lia). rewrite (take_ge (drop (i + n) _)) by (rewrite length_drop; lia). split.
  - eexists. by rewrite <-app_assoc.
  - rewrite !length_app, length_drop, length_take, length_drop, length_app. lia.
Qed.

(** ** What a block holds: a list at its beginning *)

Definition holds b l : Prop := begins b (Some <$> l).

Lemma holds_nil b : holds b [].
Proof. by exists b. Qed.

Lemma holds_length b l : holds b l → (length l ≤ length b)%nat.
Proof. intros H%begins_length. by rewrite length_fmap in H. Qed.

Lemma holds_lookup b l (i : nat) (x : A) : holds b l → l !! i = Some x → (b : list (option A)) !! i = Some (Some x).
Proof. intros [tail ->] Hx. apply lookup_app_l_Some. by rewrite list_lookup_fmap, Hx. Qed.

Lemma holds_reallocate b l n : holds b l → Z.of_nat (length l) ≤ n → holds (reallocate b n) l.
Proof. intros. apply begins_reallocate; [done|by rewrite length_fmap]. Qed.

Lemma store_end b l x : holds b l → (length l + length x ≤ length b)%nat →
  ∃ b', store b (Z.of_nat (length l)) x = Ok b' ∧ holds b' (l ++ x) ∧ length b' = length b.
Proof.
  intros Hb Hl. destruct (store_cells_end b _ (Some <$> x) Hb) as (b' & Hs & H & Hlen); [by rewrite !length_fmap|].
  rewrite length_fmap in Hs. exists b'. split; [done|]. unfold holds. by rewrite fmap_app.
Qed.

Lemma store_inside b l x i : holds b l → (i + length x ≤ length l)%nat →
  ∃ b', store b (Z.of_nat i) x = Ok b' ∧ holds b' (take i l ++ x ++ drop (i + length x) l) ∧ length b' = length b.
Proof.
  intros Hb Hl. destruct (store_cells_inside b _ (Some <$> x) i Hb) as (b' & Hs & H & Hlen); [by rewrite !length_fmap|].
  exists b'. split; [done|]. unfold holds. by rewrite !fmap_app, fmap_take, fmap_drop; rewrite length_fmap in H.
Qed.

Lemma store_outside b (i : Z) x : Z.of_nat (length b) < i + Z.of_nat (length x) → store b i x = Fault.
Proof. intros Hi. unfold store, store_cells. rewrite length_fmap, decide_False; [done|lia]. Qed.

Lemma insert_inside b l x i : holds b l → (i ≤ length l)%nat → (length l + length x ≤ length b)%nat →
  ∃ b' b'', move b (Z.of_nat (i + length x)) (Z.of_nat i) (Z.of_nat (length l - i)) = Ok b' ∧
    store b' (Z.of_nat i) x = Ok b'' ∧ holds b'' (take i l ++ x ++ drop i l) ∧ length b'' = length b.
Proof.
  intros Hb Hi Hl. destruct (insert_cells b _ (Some <$> x) i Hb) as (b' & b'' & H); [by rewrite length_fmap|by rewrite !length_fmap|].
  rewrite !length_fmap in H. exists b', b''. unfold holds. by rewrite !fmap_app, fmap_take, fmap_drop.
Qed.

Lemma remove_inside b l i n : holds b l → (i + n ≤ length l)%nat →
  ∃ b', move b (Z.of_nat i) (Z.of_nat (i + n)) (Z.of_nat (length l - i - n)) = Ok b' ∧
    holds b' (take i l ++ drop (i + n) l) ∧ length b' = length b.
Proof.
  intros Hb Hi. destruct (remove_cells b _ i n Hb) as (b' & H); [by rewrite length_fmap|].
  rewrite length_fmap in H. exists b'. unfold holds. by rewrite !fmap_app, fmap_take, fmap_drop.
Qed.

End Blocks.
