(* ===== verification/Containers.v ===== *)
(** Growing arrays of phlib (src/phlib/basesup.c, src/phlib/include/phbasesup.h):
    lists of pointers, arrays of items of any size, and pointer lists. Pointers and
    handles are numbers. Allocating never returns NULL: it raises when memory is
    exhausted, which is not modelled. *)

From S2P Require Import Prelude Blocks.

Definition sizeof_PVOID : Z := 8.

(** The pointers that an allocation of [n * sizeof(PVOID)] bytes holds. *)
Definition pointers (n : Z) : Z := u64 (n * sizeof_PVOID) / sizeof_PVOID.

(** ** Lists *)

Module List.

Record PH_LIST := List { Count : Z; AllocatedCount : Z; Items : block Z }.

Definition PhCreateList (InitialCapacity : Z) : PH_LIST :=
  let InitialCapacity := if InitialCapacity =? 0 then 1 else InitialCapacity in
  List 0 InitialCapacity (allocate (pointers InitialCapacity)).

Definition PhResizeList (l : PH_LIST) (NewCapacity : Z) : result PH_LIST :=
  if NewCapacity <? Count l then Raised STATUS_INVALID_PARAMETER_2
  else Ok (List (Count l) NewCapacity (reallocate (Items l) (pointers NewCapacity))).

Definition PhAddItemList (l : PH_LIST) (Item : Z) : result PH_LIST :=
  let l :=
    if Count l =? AllocatedCount l then
      let n := u32 (AllocatedCount l * 2) in
      List (Count l) n (reallocate (Items l) (pointers n))
    else l in
  items ← store (Items l) (Count l) [Item];
  Ok (List (u32 (Count l + 1)) (AllocatedCount l) items).

(** The growth that adding and inserting several items share. *)
Definition reserve (l : PH_LIST) (n : Z) : PH_LIST :=
  if AllocatedCount l <? u32 (Count l + n) then
    let c := u32 (AllocatedCount l * 2) in
    let c := if c <? u32 (Count l + n) then u32 (Count l + n) else c in
    List (Count l) c (reallocate (Items l) (pointers c))
  else l.

Definition PhAddItemsList (l : PH_LIST) (items : list Z) : result PH_LIST :=
  let n := Z.of_nat (length items) in
  let l := reserve l n in
  cells ← store (Items l) (Count l) items;
  Ok (List (u32 (Count l + n)) (AllocatedCount l) cells).

Definition PhClearList (l : PH_LIST) : PH_LIST := List 0 (AllocatedCount l) (Items l).

(** The loop over the items from [i] on, with [n] items to go. *)
Fixpoint find_loop (n : nat) (i : Z) (l : PH_LIST) (Item : Z) : result Z :=
  match n with
  | O => Ok ULONG_MAX
  | S n =>
      match (Items l : list (option Z)) !! Z.to_nat i with
      | Some (Some x) => if x =? Item then Ok i else find_loop n (i + 1) l Item
      | _ => Fault
      end
  end.

Definition PhFindItemList (l : PH_LIST) (Item : Z) : result Z := find_loop (Z.to_nat (Count l)) 0 l Item.

Definition PhInsertItemsList (l : PH_LIST) (Index : Z) (items : list Z) : result PH_LIST :=
  let n := Z.of_nat (length items) in
  let l := reserve l n in
  cells ← (if Index <? Count l then move (Items l) (u32 (Index + n)) Index (u32 (Count l - Index)) else Ok (Items l));
  cells ← store cells Index items;
  Ok (List (u32 (Count l + n)) (AllocatedCount l) cells).

Definition PhInsertItemList (l : PH_LIST) (Index Item : Z) : result PH_LIST := PhInsertItemsList l Index [Item].

Definition PhRemoveItemsList (l : PH_LIST) (StartIndex n : Z) : result PH_LIST :=
  cells ← move (Items l) StartIndex (u32 (StartIndex + n)) (u32 (u32 (Count l - StartIndex) - n));
  Ok (List (u32 (Count l - n)) (AllocatedCount l) cells).

Definition PhRemoveItemList (l : PH_LIST) (Index : Z) : result PH_LIST := PhRemoveItemsList l Index 1.

End List.

(** ** Arrays

    The items are in a block of bytes. *)
Module Array.

Record PH_ARRAY := Array { Count : Z; AllocatedCount : Z; ItemSize : Z; Items : block Z }.

Definition PhInitializeArray (ItemSize InitialCapacity : Z) : PH_ARRAY :=
  let InitialCapacity := if InitialCapacity =? 0 then 1 else InitialCapacity in
  Array 0 InitialCapacity ItemSize (allocate (u64 (InitialCapacity * ItemSize))).

(** The offset of an item. *)
Definition PhItemArray (a : PH_ARRAY) (Index : Z) : Z := u64 (Index * ItemSize a).

Definition PhResizeArray (a : PH_ARRAY) (NewCapacity : Z) : result PH_ARRAY :=
  if NewCapacity <? Count a then Raised STATUS_INVALID_PARAMETER_2
  else Ok (Array (Count a) NewCapacity (ItemSize a) (reallocate (Items a) (u64 (NewCapacity * ItemSize a)))).

(** [Item] is the bytes at the address that is passed; as many are copied as an item
    has. *)
Definition PhAddItemArray (a : PH_ARRAY) (Item : list Z) : result PH_ARRAY :=
  let a :=
    if Count a =? AllocatedCount a then
      let n := u64 (AllocatedCount a * 2) in
      Array (Count a) n (ItemSize a) (reallocate (Items a) (u64 (n * ItemSize a)))
    else a in
  if Z.of_nat (length Item) <? ItemSize a then Fault
  else
    items ← store (Items a) (PhItemArray a (Count a)) (take (Z.to_nat (ItemSize a)) Item);
    Ok (Array (u64 (Count a + 1)) (AllocatedCount a) (ItemSize a) items).

Definition PhAddItemsArray (a : PH_ARRAY) (items : list Z) (n : Z) : result PH_ARRAY :=
  let a :=
    if AllocatedCount a <? u64 (Count a + n) then
      let c := u64 (AllocatedCount a * 2) in
      let c := if c <? u64 (Count a + n) then u64 (Count a + n) else c in
      Array (Count a) c (ItemSize a) (reallocate (Items a) (u64 (c * ItemSize a)))
    else a in
  let size := u64 (n * ItemSize a) in
  if Z.of_nat (length items) <? size then Fault
  else
    cells ← store (Items a) (PhItemArray a (Count a)) (take (Z.to_nat size) items);
    Ok (Array (u64 (Count a + n)) (AllocatedCount a) (ItemSize a) cells).

Definition PhClearArray (a : PH_ARRAY) : PH_ARRAY := Array 0 (AllocatedCount a) (ItemSize a) (Items a).

Definition PhRemoveItemsArray (a : PH_ARRAY) (StartIndex n : Z) : result PH_ARRAY :=
  cells ← move (Items a) (PhItemArray a StartIndex) (PhItemArray a (u64 (StartIndex + n)))
            (u64 (u64 (u64 (Count a - StartIndex) - n) * ItemSize a));
  Ok (Array (u64 (Count a - n)) (AllocatedCount a) (ItemSize a) cells).

Definition PhRemoveItemArray (a : PH_ARRAY) (Index : Z) : result PH_ARRAY := PhRemoveItemsArray a Index 1.

End Array.

(** ** Pointer lists

    A free entry holds the index of the next one, encoded as an odd number. *)
Module PointerList.

Record PH_POINTER_LIST := PointerList {
  Count : Z;
  AllocatedCount : Z;
  FreeEntry : Z;
  NextEntry : Z;
  Items : block Z;
}.

Definition PH_IS_LIST_POINTER_VALID (Pointer : Z) : bool := Z.land Pointer 1 =? 0.

Definition PhCreatePointerList (InitialCapacity : Z) : PH_POINTER_LIST :=
  let InitialCapacity := if InitialCapacity =? 0 then 1 else InitialCapacity in
  PointerList 0 InitialCapacity ULONG_MAX 0 (allocate (pointers InitialCapacity)).

(** The shift is that of a signed pointer. *)
Definition PhpDecodePointerListIndex (Index : Z) : Z := u32 (Z.shiftr ((Index + 2 ^ 63) mod 2 ^ 64 - 2 ^ 63) 1).
Definition PhpEncodePointerListIndex (Index : Z) : Z := Z.lor (u64 (Z.shiftl Index 1)) 1.
Definition PhpPointerListIndexToHandle (Index : Z) : Z := u32 (Index + 1).
Definition PhpPointerListHandleToIndex (Handle : Z) : Z := u32 (u32 Handle - 1).

Definition load (items : block Z) (i : Z) : result Z :=
  match (items : list (option Z)) !! Z.to_nat i with
  | Some (Some x) => Ok x
  | _ => Fault
  end.

Definition PhAddItemPointerList (p : PH_POINTER_LIST) (Pointer : Z) : result (PH_POINTER_LIST * Z) :=
  if negb (PH_IS_LIST_POINTER_VALID Pointer) then Fault
  else if negb (FreeEntry p =? ULONG_MAX) then
    let index := FreeEntry p in
    oldPointer ← load (Items p) index;
    items ← store (Items p) index [Pointer];
    Ok (PointerList (u32 (Count p + 1)) (AllocatedCount p) (PhpDecodePointerListIndex oldPointer) (NextEntry p) items,
        PhpPointerListIndexToHandle index)
  else
    let p :=
      if NextEntry p =? AllocatedCount p then
        let n := u32 (AllocatedCount p * 2) in
        PointerList (Count p) n (FreeEntry p) (NextEntry p) (reallocate (Items p) (pointers n))
      else p in
    let index := NextEntry p in
    items ← store (Items p) index [Pointer];
    Ok (PointerList (u32 (Count p + 1)) (AllocatedCount p) (FreeEntry p) (u32 (NextEntry p + 1)) items,
        PhpPointerListIndexToHandle index).

(** The loop of the enumeration, with [fuel] turns to go: the key, and the pointer
    with its handle. [PhEnumPointerList] is the same without the handle. *)
Fixpoint enum_loop (fuel : nat) (p : PH_POINTER_LIST) (EnumerationKey : Z) : result (Z * option (Z * Z)) :=
  match fuel with
  | O => Fault
  | S fuel =>
      if EnumerationKey <? NextEntry p then
        pointer ← load (Items p) EnumerationKey;
        if PH_IS_LIST_POINTER_VALID pointer then
          Ok (u32 (EnumerationKey + 1), Some (pointer, PhpPointerListIndexToHandle EnumerationKey))
        else enum_loop fuel p (u32 (EnumerationKey + 1))
      else Ok (EnumerationKey, None)
  end.

Definition PhEnumPointerListEx (p : PH_POINTER_LIST) (EnumerationKey : Z) : result (Z * option (Z * Z)) :=
  enum_loop (S (Z.to_nat (NextEntry p))) p EnumerationKey.

(** The loop of the search, with [n] entries to go. *)
Fixpoint find_entry (n : nat) (i : Z) (p : PH_POINTER_LIST) (Pointer : Z) : result Z :=
  match n with
  | O => Ok 0
  | S n =>
      x ← load (Items p) i;
      if x =? Pointer then Ok (PhpPointerListIndexToHandle i) else find_entry n (i + 1) p Pointer
  end.

Definition PhFindItemPointerList (p : PH_POINTER_LIST) (Pointer : Z) : result Z :=
  if negb (PH_IS_LIST_POINTER_VALID Pointer) then Fault else find_entry (Z.to_nat (NextEntry p)) 0 p Pointer.

Definition PhRemoveItemPointerList (p : PH_POINTER_LIST) (PointerHandle : Z) : result PH_POINTER_LIST :=
  if PointerHandle =? 0 then Fault
  else
    let index := PhpPointerListHandleToIndex PointerHandle in
    items ← store (Items p) index [PhpEncodePointerListIndex (FreeEntry p)];
    Ok (PointerList (u32 (Count p - 1)) (AllocatedCount p) index (NextEntry p) items).

End PointerList.
