(* ===== verification/ContainersTheorems.v ===== *)
(** Lists, arrays and pointer lists: what they stand for, and that the operations
    keep it. *)

From S2P Require Import Prelude Blocks Containers.

Lemma pointers_small n : 0 ≤ n < 2 ^ 32 → pointers n = n.
Proof.
  intros Hn. unfold pointers, u64, sizeof_PVOID. rewrite Z.mod_small by lia. by apply Z.div_mul.
Qed.

(** ** Lists *)

Module ListFacts.
Import List.

(** The list stands for the items [xs]. *)
Record list_ok (l : PH_LIST) (xs : list Z) : Prop := {
  ok_count : Count l = Z.of_nat (length xs);
  ok_allocated : Z.of_nat (length (Items l)) = AllocatedCount l;
  ok_range : 0 ≤ AllocatedCount l < 2 ^ 32;
  ok_items : holds (Items l) xs;
}.

Lemma list_ok_bound l xs : list_ok l xs → Z.of_nat (length xs) ≤ AllocatedCount l.
Proof. intros [_ <- _ H]. apply holds_length in H. lia. Qed.

Lemma list_create_ok n : 0 ≤ n < 2 ^ 32 → list_ok (PhCreateList n) [].
Proof.
  intros Hn. unfold PhCreateList. set (c := if n =? 0 then 1 else n). assert (0 ≤ c < 2 ^ 32) by (unfold c; case_match; lia).
  constructor; cbn [Count AllocatedCount Items]; [done| |done|apply holds_nil].
  rewrite pointers_small, length_allocate by done. lia.
Qed.

(** A block of another size. *)
Lemma list_grow_ok l xs n : list_ok l xs → Z.of_nat (length xs) ≤ n < 2 ^ 32 →
  list_ok (List (Count l) n (reallocate (Items l) (pointers n))) xs.
Proof.
  intros [H1 H2 H3 H4] Hn. constructor; cbn [Count AllocatedCount Items]; [done| |lia|].
  - rewrite pointers_small, length_reallocate by lia. lia.
  - apply holds_reallocate; [done|]. rewrite pointers_small by lia. lia.
Qed.

Lemma reserve_ok l xs n : list_ok l xs → 0 ≤ n → Z.of_nat (length xs) + n < 2 ^ 32 →
  list_ok (reserve l n) xs ∧ Z.of_nat (length xs) + n ≤ AllocatedCount (reserve l n).
Proof.
  intros Hok Hn Hsum. pose proof (list_ok_bound _ _ Hok). unfold reserve. rewrite (ok_count _ _ Hok), (u32_small (_ + _)) by lia.
  destruct (Z.ltb_spec (AllocatedCount l) (Z.of_nat (length xs) + n)); [|done].
  rewrite <-(ok_count _ _ Hok). pose proof (u32_range (AllocatedCount l * 2)).
  destruct (Z.ltb_spec (u32 (AllocatedCount l * 2)) (Count l + n)); rewrite (ok_count _ _ Hok) in *;
    (split; [rewrite <-(ok_count _ _ Hok); apply list_grow_ok; [done|rewrite ?(ok_count _ _ Hok); lia]|cbn [AllocatedCount]; lia]).
Qed.

(** A list after its block was written. *)
Lemma list_written_ok l xs ys cells n : list_ok l xs → holds cells ys → length cells = length (Items l) →
  n = Z.of_nat (length ys) → list_ok (List n (AllocatedCount l) cells) ys.
Proof. intros [H1 H2 H3 H4] Hh Hl ->. constructor; cbn [Count AllocatedCount Items]; [done|by rewrite Hl|done|done]. Qed.

Definition add_faults (l : PH_LIST) : Prop := Count l = AllocatedCount l ∧ (AllocatedCount l = 0 ∨ 2 ^ 31 ≤ AllocatedCount l).

#[export] Instance add_faults_dec l : Decision (add_faults l).
Proof. unfold add_faults. apply _. Defined.

Lemma list_add_ok l xs x : list_ok l xs → ¬ add_faults l → ∃ l', PhAddItemList l x = Ok l' ∧ list_ok l' (xs ++ [x]).
Proof.
  intros Hok Hf. pose proof (list_ok_bound _ _ Hok). pose proof (ok_range _ _ Hok). pose proof (ok_count _ _ Hok) as Hc. unfold PhAddItemList, add_faults in *.
  set (l1 := if Count l =? AllocatedCount l then _ else l). assert (list_ok l1 xs ∧ Count l1 = Count l ∧ Count l < AllocatedCount l1) as (Hok1 & Hc1 & Hr).
  { unfold l1. destruct (Z.eqb_spec (Count l) (AllocatedCount l)) as [E|E].
    - assert (u32 (AllocatedCount l * 2) = AllocatedCount l * 2) as -> by (apply u32_small; lia).
      split_and!; [apply list_grow_ok; [done|lia]|done|cbn [AllocatedCount]; lia].
    - split_and!; [done|done|lia]. }
  rewrite Hc1, Hc. destruct (store_end (Items l1) xs [x]) as (cells & -> & Hh & Hl).
  - apply (ok_items _ _ Hok1).
  - pose proof (ok_allocated _ _ Hok1). cbn [length]. lia.
  - eexists. split; [done|]. eapply list_written_ok; [done|done|done|]. pose proof (ok_range _ _ Hok1). rewrite length_app, u32_small by lia. cbn [length]. lia.
Qed.

Lemma list_add_fault l xs x : list_ok l xs → add_faults l → PhAddItemList l x = Fault.
Proof.
  intros Hok [E Hf]. pose proof (ok_range _ _ Hok). unfold PhAddItemList. rewrite E, Z.eqb_refl. cbn [Items Count]. rewrite store_outside; [done|]. pose proof (u32_range (AllocatedCount l * 2)). rewrite pointers_small, length_reallocate by done. cbn [length].
  enough (u32 (AllocatedCount l * 2) ≤ AllocatedCount l) by lia. unfold u32.
  destruct Hf as [->|Hf]; [done|]. rewrite (Z.mod_eq (AllocatedCount l * 2)) by lia.
  assert (AllocatedCount l * 2 / 2 ^ 32 = 1) as ->; [|lia]. symmetry. apply (Z.div_unique _ _ _ (AllocatedCount l * 2 - 2 ^ 32)); lia.
Qed.

Lemma list_add_items_ok l xs ys : list_ok l xs → Z.of_nat (length xs + length ys) < 2 ^ 32 →
  ∃ l', PhAddItemsList l ys = Ok l' ∧ list_ok l' (xs ++ ys).
Proof.
  intros Hok Hs. unfold PhAddItemsList. destruct (reserve_ok l xs (Z.of_nat (length ys)) Hok) as [Hok1 Hr]; [lia..|].
  rewrite (ok_count _ _ Hok1). destruct (store_end (Items (reserve l (Z.of_nat (length ys)))) xs ys) as (cells & -> & Hh & Hl).
  - apply (ok_items _ _ Hok1).
  - pose proof (ok_allocated _ _ Hok1). lia.
  - eexists. split; [done|]. eapply list_written_ok; [done|done|done|]. rewrite length_app, u32_small by lia. lia.
Qed.

Lemma insert_ok l xs i ys : list_ok l xs → (i ≤ length xs)%nat → Z.of_nat (length xs + length ys) < 2 ^ 32 →
  ∃ l', PhInsertItemsList l (Z.of_nat i) ys = Ok l' ∧ list_ok l' (take i xs ++ ys ++ drop i xs).
Proof.
  intros Hok Hi Hs. unfold PhInsertItemsList. destruct (reserve_ok l xs (Z.of_nat (length ys)) Hok) as [Hok1 Hr]; [lia..|].
  rewrite (ok_count _ _ Hok1). set (l1 := reserve _ _) in *.
  assert (∃ cells cells', (if Z.of_nat i <? Z.of_nat (length xs) then move (Items l1) (u32 (Z.of_nat i + Z.of_nat (length ys))) (Z.of_nat i)
      (u32 (Z.of_nat (length xs) - Z.of_nat i)) else Ok (Items l1)) = Ok cells ∧ store cells (Z.of_nat i) ys = Ok cells' ∧
      holds cells' (take i xs ++ ys ++ drop i xs) ∧ length cells' = length (Items l1)) as (cells & cells' & -> & Hst & Hh & Hl).
  { destruct (Z.ltb_spec (Z.of_nat i) (Z.of_nat (length xs))).
    - rewrite !u32_small by lia. replace (Z.of_nat i + Z.of_nat (length ys)) with (Z.of_nat (i + length ys)) by lia.
      replace (Z.of_nat (length xs) - Z.of_nat i) with (Z.of_nat (length xs - i)) by lia.
      apply insert_inside; [apply (ok_items _ _ Hok1)|done|pose proof (ok_allocated _ _ Hok1); lia].
    - assert (i = length xs) as -> by lia. destruct (store_end (Items l1) xs ys) as (cells & Hc & Hh & Hl).
      + apply (ok_items _ _ Hok1).
      + pose proof (ok_allocated _ _ Hok1). lia.
      + exists (Items l1), cells. rewrite take_ge, drop_ge, app_nil_r by lia. done. }
  cbn [mbind result_bind]. rewrite Hst. eexists. split; [done|]. eapply list_written_ok; [done|done|done|].
  rewrite !length_app, length_take, length_drop, u32_small by lia. lia.
Qed.

Lemma list_remove_ok l xs i n : list_ok l xs → (i + n ≤ length xs)%nat →
  ∃ l', PhRemoveItemsList l (Z.of_nat i) (Z.of_nat n) = Ok l' ∧ list_ok l' (take i xs ++ drop (i + n) xs).
Proof.
  intros Hok Hi. pose proof (list_ok_bound _ _ Hok). pose proof (ok_range _ _ Hok). unfold PhRemoveItemsList. rewrite (ok_count _ _ Hok).
  rewrite !u32_small by (rewrite ?u32_small by lia; lia). replace (Z.of_nat i + Z.of_nat n) with (Z.of_nat (i + n)) by lia.
  replace (Z.of_nat (length xs) - Z.of_nat i - Z.of_nat n) with (Z.of_nat (length xs - i - n)) by lia.
  destruct (remove_inside (Items l) xs i n) as (cells & -> & Hh & Hl); [apply (ok_items _ _ Hok)|done|].
  eexists. split; [done|]. eapply list_written_ok; [done|done|done|]. rewrite length_app, length_take, length_drop. lia.
Qed.

Lemma find_item_ok l xs x : list_ok l xs → ∀ n i, (i + n = length xs)%nat → x ∉ take i xs →
  ∃ r, find_loop n (Z.of_nat i) l x = Ok r ∧
    (r = ULONG_MAX ∧ x ∉ xs ∨ ∃ j : nat, r = Z.of_nat j ∧ xs !! j = Some x ∧ x ∉ take j xs).
Proof.
  intros Hok. induction n as [|n IH]; intros i Hi Hx; cbn [find_loop].
  - eexists. split; [done|]. left. split; [done|]. by rewrite take_ge in Hx by lia.
  - assert (is_Some (xs !! i)) as [y Hy] by (apply lookup_lt_is_Some; lia). rewrite Nat2Z.id, (holds_lookup _ _ _ _ (ok_items _ _ Hok) Hy).
    destruct (Z.eqb_spec y x) as [->|Hne]; [eexists; split; [done|]; right; by exists i|]. replace (Z.of_nat i + 1) with (Z.of_nat (S i)) by lia. apply IH; [lia|].
    rewrite (take_S_r _ _ _ Hy). intros [?|?%list_elem_of_singleton]%elem_of_app; [done|congruence].
Qed.

End ListFacts.

(** ** Arrays *)

Module ArrayFacts.
Import Array.

Lemma length_items {w : nat} (xs : list (list Z)) : Forall (λ x, length x = w) xs → length (concat xs) = (length xs * w)%nat.
Proof. induction 1 as [|x xs Hx _ IH]; [done|]. cbn [concat length]. rewrite length_app, IH, Hx. lia. Qed.

Lemma take_items {w : nat} (xs : list (list Z)) : Forall (λ x, length x = w) xs → ∀ i, take (i * w) (concat xs) = concat (take i xs).
Proof.
  induction 1 as [|x xs Hx _ IH]; intros [|i]; [done|cbn [concat]; by rewrite !take_nil|done|].
  cbn [take concat]. change (S i * w)%nat with (w + i * w)%nat. rewrite <-Hx at 1. by rewrite take_app_add, IH.
Qed.

Lemma drop_items {w : nat} (xs : list (list Z)) : Forall (λ x, length x = w) xs → ∀ i, drop (i * w) (concat xs) = concat (drop i xs).
Proof.
  induction 1 as [|x xs Hx _ IH]; intros [|i]; [done|cbn [concat]; by rewrite !drop_nil|done|].
  cbn [drop concat]. change (S i * w)%nat with (w + i * w)%nat. rewrite <-Hx at 1. by rewrite drop_app_add, IH.
Qed.

(** The array stands for the items [xs], each a list of bytes. *)
Record array_ok (a : PH_ARRAY) (xs : list (list Z)) : Prop := {
  ok_count : Count a = Z.of_nat (length xs);
  ok_sizes : Forall (λ x, length x = Z.to_nat (ItemSize a)) xs;
  ok_size : 0 < ItemSize a;
  ok_allocated : Z.of_nat (length (Items a)) = AllocatedCount a * ItemSize a;
  ok_range : 0 ≤ AllocatedCount a ∧ AllocatedCount a * ItemSize a < 2 ^ 64;
  ok_items : holds (Items a) (concat xs);
}.

Lemma array_bound a xs : array_ok a xs → Z.of_nat (length xs) ≤ AllocatedCount a < 2 ^ 64.
Proof.
  intros [_ H1 H2 H3 [H4 H5] H6]. apply holds_length in H6. rewrite (length_items _ H1) in H6. nia.
Qed.

Lemma array_create_ok w n : 0 < w → 0 ≤ n → (n + 1) * w < 2 ^ 64 → array_ok (PhInitializeArray w n) [].
Proof.
  intros Hw Hn Hs. unfold PhInitializeArray. set (c := if n =? 0 then 1 else n). assert (0 ≤ c ≤ n + 1) by (unfold c; case_match; lia).
  constructor; cbn [Count AllocatedCount ItemSize Items]; [done|constructor|done| |split; [lia|nia]|apply holds_nil].
  rewrite u64_small, length_allocate by nia. nia.
Qed.

Lemma array_grow_ok a xs n : array_ok a xs → Z.of_nat (length xs) ≤ n → n * ItemSize a < 2 ^ 64 →
  array_ok (Array (Count a) n (ItemSize a) (reallocate (Items a) (u64 (n * ItemSize a)))) xs.
Proof.
  intros [H1 H2 H3 H4 H5 H6] Hn Hs. constructor; cbn [Count AllocatedCount ItemSize Items]; [done|done|done| |split; [lia|done]|].
  - rewrite u64_small, length_reallocate by nia. nia.
  - apply holds_reallocate; [done|]. rewrite u64_small, (length_items _ H2) by nia. nia.
Qed.

(** An array after its block was written. *)
Lemma array_written_ok a xs ys cells n : array_ok a xs → holds cells (concat ys) → length cells = length (Items a) →
  Forall (λ x, length x = Z.to_nat (ItemSize a)) ys → n = Z.of_nat (length ys) →
  array_ok (Array n (AllocatedCount a) (ItemSize a) cells) ys.
Proof. intros [H1 H2 H3 H4 H5 H6] Hh Hl HF ->. constructor; cbn [Count AllocatedCount ItemSize Items]; [done|done|done|by rewrite Hl|done|done]. Qed.

Lemma item_offset a xs i : array_ok a xs → (i ≤ length xs)%nat → PhItemArray a (Z.of_nat i) = Z.of_nat (i * Z.to_nat (ItemSize a)).
Proof.
  intros Hok Hi. pose proof (array_bound _ _ Hok). pose proof (ok_size _ _ Hok). destruct (ok_range _ _ Hok). unfold PhItemArray. rewrite u64_small by nia. lia.
Qed.

Lemma array_add_items_ok a xs ys : array_ok a xs → Forall (λ x, length x = Z.to_nat (ItemSize a)) ys →
  Z.max (AllocatedCount a * 2) (Z.of_nat (length xs + length ys)) * ItemSize a < 2 ^ 64 →
  ∃ a', PhAddItemsArray a (concat ys) (Z.of_nat (length ys)) = Ok a' ∧ array_ok a' (xs ++ ys) ∧ ItemSize a' = ItemSize a.
Proof.
  intros Hok Hys Hs. pose proof (array_bound _ _ Hok). pose proof (ok_size _ _ Hok) as Hw. pose proof (ok_count _ _ Hok) as Hc. unfold PhAddItemsArray.
  assert (u64 (Count a + Z.of_nat (length ys)) = Z.of_nat (length xs + length ys)) as -> by (rewrite u64_small; nia).
  assert (u64 (AllocatedCount a * 2) = AllocatedCount a * 2) as -> by (rewrite u64_small; nia).
  set (a1 := if AllocatedCount a <? Z.of_nat (length xs + length ys) then _ else a).
  assert (array_ok a1 xs ∧ Z.of_nat (length xs + length ys) ≤ AllocatedCount a1 ∧ ItemSize a1 = ItemSize a) as (Hok1 & Hr & Hw1).
  { unfold a1. destruct (Z.ltb_spec (AllocatedCount a) (Z.of_nat (length xs + length ys))); [|done].
    destruct (Z.ltb_spec (AllocatedCount a * 2) (Z.of_nat (length xs + length ys))); (split_and!; [apply array_grow_ok; [done|lia|nia]|cbn [AllocatedCount]; lia|done]). }
  rewrite Hw1. assert (u64 (Z.of_nat (length ys) * ItemSize a) = Z.of_nat (length ys * Z.to_nat (ItemSize a))) as -> by (rewrite u64_small; nia).
  rewrite (length_items _ Hys). destruct (Z.ltb_spec (Z.of_nat (length ys * Z.to_nat (ItemSize a))) (Z.of_nat (length ys * Z.to_nat (ItemSize a)))); [lia|].
  rewrite (ok_count _ _ Hok1), (item_offset _ _ _ Hok1) by lia. rewrite Hw1.
  rewrite Nat2Z.id, (take_ge (concat ys)) by (rewrite (length_items _ Hys); lia).
  destruct (store_end (Items a1) (concat xs) (concat ys)) as (cells & Hst & Hh & Hl).
  - apply (ok_items _ _ Hok1).
  - pose proof (ok_allocated _ _ Hok1) as Ha. rewrite Hw1 in Ha. rewrite (length_items _ (ok_sizes _ _ Hok)), (length_items _ Hys). nia.
  - rewrite (length_items _ (ok_sizes _ _ Hok)) in Hst. rewrite Hst. eexists. split; [done|]. cbn [ItemSize]. split; [|done]. rewrite <-Hw1.
    eapply array_written_ok; [done|by rewrite concat_app|done|rewrite Hw1; apply Forall_app; split; [apply (ok_sizes _ _ Hok)|done]|].
    pose proof (array_bound _ _ Hok1). rewrite length_app, u64_small by lia. lia.
Qed.

Definition add_faults (a : PH_ARRAY) : Prop := Count a = AllocatedCount a ∧ AllocatedCount a = 0.

Lemma array_add_ok a xs x : array_ok a xs → ¬ add_faults a → length x = Z.to_nat (ItemSize a) → AllocatedCount a * 2 * ItemSize a < 2 ^ 64 →
  ∃ a', PhAddItemArray a x = Ok a' ∧ array_ok a' (xs ++ [x]) ∧ ItemSize a' = ItemSize a.
Proof.
  intros Hok Hf Hx Hs. pose proof (array_bound _ _ Hok). pose proof (ok_size _ _ Hok) as Hw. pose proof (ok_count _ _ Hok) as Hc.
  unfold PhAddItemArray, add_faults in *. assert (u64 (AllocatedCount a * 2) = AllocatedCount a * 2) as -> by (rewrite u64_small; nia).
  set (a1 := if Count a =? AllocatedCount a then _ else a).
  assert (array_ok a1 xs ∧ Z.of_nat (S (length xs)) ≤ AllocatedCount a1 ∧ ItemSize a1 = ItemSize a) as (Hok1 & Hr & Hw1).
  { unfold a1. destruct (Z.eqb_spec (Count a) (AllocatedCount a)) as [E|E].
    - split_and!; [apply array_grow_ok; [done|lia|nia]|cbn [AllocatedCount]; lia|done].
    - split_and!; [done|lia|done]. }
  rewrite Hw1, Hx. destruct (Z.ltb_spec (Z.of_nat (Z.to_nat (ItemSize a))) (ItemSize a)); [lia|].
  rewrite (ok_count _ _ Hok1), (item_offset _ _ _ Hok1) by lia. rewrite Hw1, (take_ge x) by lia.
  destruct (store_end (Items a1) (concat xs) x) as (cells & Hst & Hh & Hl).
  - apply (ok_items _ _ Hok1).
  - pose proof (ok_allocated _ _ Hok1) as Ha. rewrite Hw1 in Ha. rewrite (length_items _ (ok_sizes _ _ Hok)). nia.
  - rewrite (length_items _ (ok_sizes _ _ Hok)) in Hst. rewrite Hst. eexists. split; [done|]. cbn [ItemSize]. split; [|done]. rewrite <-Hw1.
    eapply array_written_ok; [done|by rewrite concat_app; cbn [concat]; rewrite app_nil_r|done|rewrite Hw1; apply Forall_app; split; [apply (ok_sizes _ _ Hok)|by constructor]|].
    pose proof (array_bound _ _ Hok1). rewrite length_app, u64_small by lia. cbn [length]. lia.
Qed.

Lemma array_add_fault a xs x : array_ok a xs → add_faults a → PhAddItemArray a x = Fault.
Proof.
  intros Hok [E E0]. unfold PhAddItemArray. rewrite E, Z.eqb_refl, E0. cbn [ItemSize Count Items]. case_match; [done|].
  rewrite store_outside; [done|]. rewrite length_reallocate. cbn -[take length]. pose proof (ok_size _ _ Hok).
  apply Z.ltb_ge in H. rewrite length_take. unfold PhItemArray. cbn [ItemSize]. change (u64 (0 * 2)) with 0. rewrite !Z.mul_0_l. change (u64 0) with 0. lia.
Qed.

Lemma array_remove_ok a xs i n : array_ok a xs → (i + n ≤ length xs)%nat →
  ∃ a', PhRemoveItemsArray a (Z.of_nat i) (Z.of_nat n) = Ok a' ∧ array_ok a' (take i xs ++ drop (i + n) xs) ∧ ItemSize a' = ItemSize a.
Proof.
  intros Hok Hi. pose proof (array_bound _ _ Hok). pose proof (ok_size _ _ Hok) as Hw. destruct (ok_range _ _ Hok). unfold PhRemoveItemsArray. rewrite (ok_count _ _ Hok).
  rewrite (u64_small (Z.of_nat i + _)), (u64_small (Z.of_nat (length xs) - Z.of_nat i)), (u64_small (_ - Z.of_nat n)), (u64_small (_ - Z.of_nat n)) by lia.
  replace (Z.of_nat i + Z.of_nat n) with (Z.of_nat (i + n)) by lia. rewrite !(item_offset _ _ _ Hok) by lia. rewrite u64_small by nia.
  pose proof (ok_sizes _ _ Hok) as HF. pose proof (length_items _ HF) as Hlen. set (w := Z.to_nat (ItemSize a)) in *.
  replace ((Z.of_nat (length xs) - Z.of_nat i - Z.of_nat n) * ItemSize a) with (Z.of_nat (length (concat xs) - i * w - n * w)) by nia.
  rewrite Nat.mul_add_distr_r. destruct (remove_inside (Items a) (concat xs) (i * w) (n * w)) as (cells & -> & Hh & Hl); [apply (ok_items _ _ Hok)|nia|].
  eexists. split; [done|]. split; [|done]. eapply array_written_ok; [done| |done| |].
  - rewrite concat_app, <-(take_items _ HF i), <-(drop_items _ HF (i + n)). by rewrite Nat.mul_add_distr_r.
  - apply Forall_app. split; [by apply Forall_take|by apply Forall_drop].
  - rewrite length_app, length_take, length_drop. lia.
Qed.

End ArrayFacts.

(** ** Pointer lists *)

Module PointerListFacts.
Import PointerList.

Lemma encode_index i : 0 ≤ i < 2 ^ 32 → PhpEncodePointerListIndex i = 2 * i + 1.
Proof.
  intros Hi. unfold PhpEncodePointerListIndex, u64. rewrite Z.shiftl_mul_pow2 by done. change (2 ^ 1) with 2. rewrite Z.mod_small by lia.
  pose proof (Z.add_lor_land (i * 2) 1). enough (Z.land (i * 2) 1 = 0) by lia. change 1 with (2 ^ 1 - 1). rewrite land_pow2 by done. apply Z.mod_mul. done.
Qed.

Lemma decode_index i : 0 ≤ i < 2 ^ 32 → PhpDecodePointerListIndex (2 * i + 1) = i.
Proof.
  intros Hi. unfold PhpDecodePointerListIndex. rewrite (Z.mod_small (_ + _)) by lia. replace (2 * i + 1 + 2 ^ 63 - 2 ^ 63) with (1 + i * 2) by lia.
  rewrite Z.shiftr_div_pow2 by done. change (2 ^ 1) with 2. rewrite Z.div_add by done. change (1 / 2) with 0. by apply u32_small.
Qed.

Lemma encoded_invalid i : 0 ≤ i < 2 ^ 32 → PH_IS_LIST_POINTER_VALID (PhpEncodePointerListIndex i) = false.
Proof.
  intros Hi. rewrite encode_index by done. unfold PH_IS_LIST_POINTER_VALID. change 1 with (2 ^ 1 - 1) at 2. rewrite land_pow2 by done.
  change (2 ^ 1) with 2. rewrite Z.add_comm, Z.mul_comm, Z.mod_add by done. done.
Qed.

(** The chain of free entries: [free] is their indices in order. *)
Fixpoint chained (cells : list Z) (first : Z) (free : list nat) : Prop :=
  match free with
  | [] => first = ULONG_MAX
  | i :: free => first = Z.of_nat i ∧ ∃ next, cells !! i = Some (PhpEncodePointerListIndex next) ∧ 0 ≤ next < 2 ^ 32 ∧ chained cells next free
  end.

(** The entries in use, by their handles. Every entry is an aligned pointer in use or
    free, and the chain visits each free one once. *)
Record plist_ok (p : PH_POINTER_LIST) (m : gmap Z Z) (cells : list Z) (free : list nat) : Prop := {
  ok_count : Count p = Z.of_nat (size m);
  ok_size : (size m + length free = length cells)%nat;
  ok_next : NextEntry p = Z.of_nat (length cells);
  ok_allocated : Z.of_nat (length (Items p)) = AllocatedCount p;
  ok_range : 0 < AllocatedCount p < 2 ^ 32;
  ok_cells : holds (Items p) cells;
  ok_chain : chained cells (FreeEntry p) free;
  ok_free : NoDup free;
  ok_used i x : i ∉ free → cells !! i = Some x → PH_IS_LIST_POINTER_VALID x = true ∧ m !! (Z.of_nat i + 1) = Some x;
  ok_map h x : m !! h = Some x → ∃ i, h = Z.of_nat i + 1 ∧ i ∉ free ∧ cells !! i = Some x;
}.

Lemma chained_inside cells first free i : chained cells first free → i ∈ free → ∃ next, 0 ≤ next < 2 ^ 32 ∧ cells !! i = Some (PhpEncodePointerListIndex next).
Proof.
  revert first. induction free as [|j free IH]; intros first; [by intros _ ?%elem_of_nil|].
  intros (_ & next & Hc & Hn & Hch) [->|Hi]%elem_of_cons; [eauto|by eapply IH].
Qed.

(** Writing an entry that is not on the chain. *)
Lemma chained_insert cells first free i x : i ∉ free → chained cells first free → chained (<[i := x]> cells) first free.
Proof.
  revert first. induction free as [|j free IH]; intros first Hi; [done|]. apply not_elem_of_cons in Hi as [Hij Hi].
  intros (-> & next & Hc & Hn & Hch). split; [done|]. exists next. rewrite list_lookup_insert_ne by done. auto.
Qed.

Lemma chained_app cells first free x : chained cells first free → chained (cells ++ [x]) first free.
Proof.
  revert first. induction free as [|j free IH]; intros first; [done|].
  intros (-> & next & Hc & Hn & Hch). split; [done|]. exists next. split_and!; [by apply lookup_app_l_Some|lia|lia|auto].
Qed.

Section Ok.
Context (p : PH_POINTER_LIST) (m : gmap Z Z) (cells : list Z) (free : list nat).
Hypothesis (Hok : plist_ok p m cells free).

Lemma cells_bound : Z.of_nat (length cells) ≤ AllocatedCount p.
Proof. rewrite <-(ok_allocated _ _ _ _ Hok). pose proof (holds_length _ _ (ok_cells _ _ _ _ Hok)). lia. Qed.

Lemma load_cell i x : cells !! i = Some x → load (Items p) (Z.of_nat i) = Ok x.
Proof. intros Hx. unfold load. by rewrite Nat2Z.id, (holds_lookup _ _ _ _ (ok_cells _ _ _ _ Hok) Hx). Qed.

Lemma store_cell i x y : cells !! i = Some y →
  ∃ items, store (Items p) (Z.of_nat i) [x] = Ok items ∧ holds items (<[i := x]> cells) ∧ length items = length (Items p).
Proof.
  intros Hy. apply lookup_lt_Some in Hy as Hi. destruct (store_inside (Items p) cells [x] i) as (items & Hs & Hh & Hl);
    [apply (ok_cells _ _ _ _ Hok)|cbn [length]; lia|]. exists items. split; [done|]. split; [|done].
  rewrite insert_take_drop by lia. cbn [length app] in Hh. by rewrite Nat.add_1_r in Hh.
Qed.

Lemma used_cell h x : m !! h = Some x → ∃ i, h = Z.of_nat i + 1 ∧ i ∉ free ∧ cells !! i = Some x ∧ 0 < h < 2 ^ 32 ∧
  PhpPointerListHandleToIndex h = Z.of_nat i.
Proof.
  intros (i & -> & Hi & Hx)%(ok_map _ _ _ _ Hok). exists i. pose proof (lookup_lt_Some _ _ _ Hx). pose proof cells_bound. pose proof (ok_range _ _ _ _ Hok).
  split_and!; [done|done|done|lia|lia|]. unfold PhpPointerListHandleToIndex. rewrite (u32_small (_ + 1)), u32_small by lia. lia.
Qed.

Lemma unused h : (∀ i, h = Z.of_nat i + 1 → i ∈ free ∨ (length cells ≤ i)%nat) → m !! h = None.
Proof.
  intros Hh. destruct (m !! h) as [x|] eqn:E; [|done]. apply (ok_map _ _ _ _ Hok) in E as (i & -> & Hi & Hx).
  apply lookup_lt_Some in Hx. destruct (Hh i eq_refl) as [?|?]; [done|lia].
Qed.

Definition add_faults : Prop := free = [] ∧ NextEntry p = AllocatedCount p ∧ 2 ^ 31 ≤ AllocatedCount p.

(** Adding takes the first free entry. *)
Lemma add_free x : PH_IS_LIST_POINTER_VALID x = true → free ≠ [] →
  ∃ p' h cells' free', PhAddItemPointerList p x = Ok (p', h) ∧ 0 < h < 2 ^ 32 ∧ m !! h = None ∧ plist_ok p' (<[h := x]> m) cells' free'.
Proof.
  intros Hx Hf. pose proof (ok_chain _ _ _ _ Hok) as Hch. pose proof (ok_free _ _ _ _ Hok) as HN. pose proof (ok_used _ _ _ _ Hok) as Hu. pose proof (ok_map _ _ _ _ Hok) as Hm.
  pose proof unused as Hun. pose proof (ok_size _ _ _ _ Hok) as Hsize. assert (∃ i rest, free = i :: rest) as (i & rest & E) by (destruct free; [done|eauto]). rewrite E in Hch, HN, Hu, Hm, Hun, Hsize.
  destruct Hch as (Hfirst & next & Hi & Hn & Hch). apply NoDup_cons in HN as [Hir HN].
  pose proof (lookup_lt_Some _ _ _ Hi) as Hlt. pose proof cells_bound. pose proof (ok_range _ _ _ _ Hok).
  unfold PhAddItemPointerList. rewrite Hx, Hfirst. cbn [negb]. rewrite (proj2 (Z.eqb_neq (Z.of_nat i) ULONG_MAX)) by (unfold ULONG_MAX; lia). cbn [negb].
  rewrite (load_cell _ _ Hi). cbn [mbind result_bind]. destruct (store_cell i x _ Hi) as (items & Hst & Hh & Hl). rewrite Hst.
  cbn [length] in Hsize. assert (m !! (Z.of_nat i + 1) = None) as Hnone by (apply Hun; intros j Hj; left; assert (j = i) as -> by lia; by left).
  assert (PhpPointerListIndexToHandle (Z.of_nat i) = Z.of_nat i + 1) as -> by (unfold PhpPointerListIndexToHandle; apply u32_small; lia).
  eexists _, _, (<[i := x]> cells), rest. split; [done|]. split; [lia|]. split; [done|].
  constructor; cbn [Count NextEntry AllocatedCount Items FreeEntry].
  - rewrite (ok_count _ _ _ _ Hok), map_size_insert_None by done. rewrite u32_small; lia.
  - rewrite length_insert, map_size_insert_None by done. lia.
  - rewrite length_insert. apply (ok_next _ _ _ _ Hok).
  - rewrite Hl. apply (ok_allocated _ _ _ _ Hok).
  - done.
  - done.
  - rewrite encode_index, decode_index by done. by apply chained_insert.
  - done.
  - intros j y Hj. destruct (decide (j = i)) as [->|Hji].
    + rewrite list_lookup_insert_eq by done. intros [= ->]. by rewrite lookup_insert_eq.
    + rewrite list_lookup_insert_ne by done. intros Hy. rewrite lookup_insert_ne by lia. apply Hu; [|done]. by apply not_elem_of_cons.
  - intros h y. rewrite lookup_insert_Some. intros [[<- <-]|[Hne Hy]].
    + exists i. by rewrite list_lookup_insert_eq.
    + destruct (Hm h y Hy) as (j & -> & Hj & Hyj). apply not_elem_of_cons in Hj as [Hji Hj]. exists j. split_and!; [done|done|]. rewrite list_lookup_insert_ne by done. done.
Qed.

(** Without a free entry adding takes the next one, for which the block may have to
    grow. *)
Lemma add_next x : PH_IS_LIST_POINTER_VALID x = true → free = [] → ¬ add_faults →
  ∃ p' h cells' free', PhAddItemPointerList p x = Ok (p', h) ∧ 0 < h < 2 ^ 32 ∧ m !! h = None ∧ plist_ok p' (<[h := x]> m) cells' free'.
Proof.
  intros Hx Hf Hnf. pose proof (ok_chain _ _ _ _ Hok) as Hch. pose proof (ok_used _ _ _ _ Hok) as Hu. pose proof (ok_map _ _ _ _ Hok) as Hm.
  pose proof (ok_size _ _ _ _ Hok) as Hsize. pose proof (ok_next _ _ _ _ Hok) as Hnext. pose proof cells_bound as Hb. pose proof (ok_range _ _ _ _ Hok) as Hr.
  rewrite Hf in Hch, Hu, Hm, Hsize. cbn [chained length] in Hch, Hsize. unfold add_faults in Hnf.
  unfold PhAddItemPointerList. rewrite Hx, Hch, Z.eqb_refl. cbn [negb].
  set (p1 := if NextEntry p =? AllocatedCount p then _ else p).
  assert (NextEntry p1 = NextEntry p ∧ Count p1 = Count p ∧ FreeEntry p1 = FreeEntry p ∧ Z.of_nat (length (Items p1)) = AllocatedCount p1 ∧
    NextEntry p < AllocatedCount p1 < 2 ^ 32 ∧ holds (Items p1) cells) as (E1 & E2 & E3 & E4 & E5 & E6).
  { unfold p1. destruct (Z.eqb_spec (NextEntry p) (AllocatedCount p)) as [E|E]; cbn [NextEntry Count FreeEntry Items AllocatedCount].
    - assert (u32 (AllocatedCount p * 2) = AllocatedCount p * 2) as -> by (apply u32_small; assert (¬ 2 ^ 31 ≤ AllocatedCount p) by tauto; lia).
      assert (AllocatedCount p < 2 ^ 31) by (assert (¬ 2 ^ 31 ≤ AllocatedCount p) by tauto; lia).
      rewrite pointers_small by lia. split_and!; try done; try lia; [rewrite length_reallocate; lia|].
      apply holds_reallocate; [apply (ok_cells _ _ _ _ Hok)|lia].
    - split_and!; try done; try lia; [apply (ok_allocated _ _ _ _ Hok)|apply (ok_cells _ _ _ _ Hok)]. }
  rewrite E1, E2, E3, Hnext. destruct (store_end (Items p1) cells [x]) as (items & -> & Hh & Hl); [done|cbn [length]; lia|]. cbn [mbind result_bind].
  assert (PhpPointerListIndexToHandle (Z.of_nat (length cells)) = Z.of_nat (length cells) + 1) as -> by (unfold PhpPointerListIndexToHandle; apply u32_small; lia).
  assert (m !! (Z.of_nat (length cells) + 1) = None) as Hnone by (apply unused; intros j Hj; right; lia).
  eexists _, _, (cells ++ [x]), []. split; [done|]. split; [lia|]. split; [done|].
  constructor; cbn [Count NextEntry AllocatedCount Items FreeEntry]; rewrite ?length_app; cbn [length].
  - rewrite (ok_count _ _ _ _ Hok), map_size_insert_None by done. rewrite u32_small; lia.
  - rewrite map_size_insert_None by done. lia.
  - rewrite u32_small by lia. lia.
  - rewrite Hl. done.
  - lia.
  - done.
  - done.
  - constructor.
  - intros j y _ [Hy|[Hj Hy]]%lookup_app_Some.
    + apply lookup_lt_Some in Hy as Hj. rewrite lookup_insert_ne by lia. apply Hu; [apply not_elem_of_nil|done].
    + apply list_lookup_singleton_Some in Hy as [Hj0 <-]. assert (j = length cells) as -> by lia. by rewrite lookup_insert_eq.
  - intros h y. rewrite lookup_insert_Some. intros [[<- <-]|[Hne Hy]].
    + exists (length cells). split_and!; [done|apply not_elem_of_nil|]. by rewrite list_lookup_middle.
    + destruct (Hm h y Hy) as (j & -> & Hj & Hyj). exists j. split_and!; [done|done|]. by apply lookup_app_l_Some.
Qed.

Lemma add_full x : PH_IS_LIST_POINTER_VALID x = true → add_faults → PhAddItemPointerList p x = Fault.
Proof.
  intros Hx (Hf & E & Hr). pose proof (ok_chain _ _ _ _ Hok) as Hch. pose proof (ok_range _ _ _ _ Hok). rewrite Hf in Hch. cbn [chained] in Hch.
  unfold PhAddItemPointerList. rewrite Hx, Hch, E, !Z.eqb_refl. cbn [negb NextEntry Items]. rewrite store_outside; [done|].
  pose proof (u32_range (AllocatedCount p * 2)). rewrite pointers_small, length_reallocate by done. cbn [length].
  enough (u32 (AllocatedCount p * 2) ≤ AllocatedCount p) by lia. unfold u32. rewrite (Z.mod_eq (AllocatedCount p * 2)) by lia.
  assert (AllocatedCount p * 2 / 2 ^ 32 = 1) as ->; [|lia]. symmetry. apply (Z.div_unique _ _ _ (AllocatedCount p * 2 - 2 ^ 32)); lia.
Qed.

Lemma first_range : 0 ≤ FreeEntry p < 2 ^ 32.
Proof.
  pose proof (ok_chain _ _ _ _ Hok) as Hch. pose proof cells_bound. pose proof (ok_range _ _ _ _ Hok). revert Hch.
  clear - H H0. destruct free as [|i rest]; cbn [chained]; [intros ->; unfold ULONG_MAX; lia|].
  intros (-> & next & Hi & _). apply lookup_lt_Some in Hi. lia.
Qed.

Lemma plist_remove_ok h x : m !! h = Some x → ∃ p' cells' free', PhRemoveItemPointerList p h = Ok p' ∧ plist_ok p' (delete h m) cells' free'.
Proof.
  intros Hx. destruct (used_cell h x Hx) as (i & Hh & Hif & Hi & Hr & Hidx). pose proof first_range as Hf.
  pose proof (lookup_lt_Some _ _ _ Hi) as Hlt. pose proof (ok_size _ _ _ _ Hok) as Hsize. pose proof cells_bound. pose proof (ok_range _ _ _ _ Hok).
  assert (size (delete h m) = pred (size m)) as Hd by (apply map_size_delete_Some; by exists x). assert (size m ≠ 0%nat) by (intros ->%map_size_empty_inv; by rewrite lookup_empty in Hx).
  unfold PhRemoveItemPointerList. rewrite (proj2 (Z.eqb_neq h 0)), Hidx by lia.
  destruct (store_cell i (PhpEncodePointerListIndex (FreeEntry p)) x Hi) as (items & -> & Hho & Hl).
  eexists _, (<[i := PhpEncodePointerListIndex (FreeEntry p)]> cells), (i :: free). split; [done|].
  constructor; cbn [Count NextEntry AllocatedCount Items FreeEntry]; rewrite ?length_insert; cbn [length].
  - rewrite (ok_count _ _ _ _ Hok), Hd, u32_small; lia.
  - lia.
  - apply (ok_next _ _ _ _ Hok).
  - rewrite Hl. apply (ok_allocated _ _ _ _ Hok).
  - apply (ok_range _ _ _ _ Hok).
  - done.
  - split; [done|]. exists (FreeEntry p). split; [by rewrite list_lookup_insert_eq|]. split; [done|]. apply chained_insert; [done|apply (ok_chain _ _ _ _ Hok)].
  - constructor; [done|apply (ok_free _ _ _ _ Hok)].
  - intros j y [Hji Hj]%not_elem_of_cons. rewrite list_lookup_insert_ne by done. intros Hy. rewrite lookup_delete_ne by lia.
    by apply (ok_used _ _ _ _ Hok).
  - intros h' y. rewrite lookup_delete_Some. intros [Hne Hy]. apply (ok_map _ _ _ _ Hok) in Hy as (j & -> & Hj & Hyj).
    assert (j ≠ i) by lia. exists j. split_and!; [done|by apply not_elem_of_cons|]. by rewrite list_lookup_insert_ne.
Qed.

(** An entry is in use exactly when it holds an aligned pointer. *)
Lemma valid_cell i x : cells !! i = Some x → if PH_IS_LIST_POINTER_VALID x then m !! (Z.of_nat i + 1) = Some x else m !! (Z.of_nat i + 1) = None.
Proof.
  intros Hx. destruct (decide (i ∈ free)) as [Hi|Hi].
  - destruct (chained_inside _ _ _ i (ok_chain _ _ _ _ Hok) Hi) as (next & Hn & Hc). rewrite Hx in Hc. injection Hc as ->.
    rewrite encoded_invalid by done. apply unused. intros j Hj. left. by assert (j = i) as -> by lia.
  - destruct (ok_used _ _ _ _ Hok i x Hi Hx) as [-> Hm]. done.
Qed.

Lemma enum_ok fuel k : (length cells - k < fuel)%nat →
  ∃ r, enum_loop fuel p (Z.of_nat k) = Ok r ∧
    match r with
    | (k', Some (x, h)) => k' = h ∧ Z.of_nat k < h ∧ m !! h = Some x ∧ ∀ h', Z.of_nat k < h' < h → m !! h' = None
    | (k', None) => ∀ h', Z.of_nat k < h' → m !! h' = None
    end.
Proof.
  pose proof (ok_next _ _ _ _ Hok) as Hnext. pose proof cells_bound. pose proof (ok_range _ _ _ _ Hok).
  revert k. induction fuel as [|fuel IH]; intros k Hk; cbn [enum_loop].
  - lia.
  - rewrite Hnext. destruct (Z.ltb_spec (Z.of_nat k) (Z.of_nat (length cells))) as [Hlt|Hge].
    + assert (is_Some (cells !! k)) as [x Hx] by (apply lookup_lt_is_Some; lia). rewrite (load_cell k x Hx). cbn [mbind result_bind].
      rewrite u32_small by lia. pose proof (valid_cell k x Hx) as Hv. destruct (PH_IS_LIST_POINTER_VALID x).
      * eexists. split; [done|]. cbn. unfold PhpPointerListIndexToHandle. rewrite u32_small by lia. split_and!; [done|lia|done|]. intros h'. lia.
      * replace (Z.of_nat k + 1) with (Z.of_nat (S k)) by lia. destruct (IH (S k)) as ([k' [[y h]|]] & -> & Hr); [lia|..]; eexists; (split; [done|]); cbn.
        -- destruct Hr as (-> & Hlt' & Hy & Hb). split_and!; [done|lia|done|]. intros h' Hh'. destruct (decide (h' = Z.of_nat k + 1)) as [->|]; [done|apply Hb; lia].
        -- intros h' Hh'. destruct (decide (h' = Z.of_nat k + 1)) as [->|]; [done|apply Hr; lia].
    + eexists. split; [done|]. cbn. intros h' Hh'. apply unused. intros j Hj. right. lia.
Qed.

Lemma find_pointer_ok x n k : PH_IS_LIST_POINTER_VALID x = true → (k + n = length cells)%nat → (∀ h, 0 < h ≤ Z.of_nat k → m !! h ≠ Some x) →
  ∃ h, find_entry n (Z.of_nat k) p x = Ok h ∧ (h = 0 ∧ (∀ h', m !! h' ≠ Some x) ∨ 0 < h ∧ m !! h = Some x).
Proof.
  intros Hv. pose proof cells_bound. pose proof (ok_range _ _ _ _ Hok). revert k. induction n as [|n IH]; intros k Hk Hno; cbn [find_entry].
  - eexists. split; [done|]. left. split; [done|]. intros h' Hh'. pose proof Hh' as (i & -> & _ & Hi)%(ok_map _ _ _ _ Hok).
    apply lookup_lt_Some in Hi. apply (Hno (Z.of_nat i + 1)); [lia|done].
  - assert (is_Some (cells !! k)) as [y Hy] by (apply lookup_lt_is_Some; lia). rewrite (load_cell k y Hy). cbn [mbind result_bind].
    pose proof (valid_cell k y Hy) as Hvy. destruct (Z.eqb_spec y x) as [->|Hne].
    + rewrite Hv in Hvy. eexists. split; [done|]. right. unfold PhpPointerListIndexToHandle. rewrite u32_small by lia. split; [lia|done].
    + replace (Z.of_nat k + 1) with (Z.of_nat (S k)) by lia. apply IH; [lia|]. intros h Hh. destruct (decide (h = Z.of_nat k + 1)) as [->|].
      * destruct (PH_IS_LIST_POINTER_VALID y); rewrite Hvy; congruence.
      * apply Hno. lia.
Qed.

End Ok.

Lemma plist_create_ok n : 0 ≤ n < 2 ^ 32 → plist_ok (PhCreatePointerList n) ∅ [] [].
Proof.
  intros Hn. unfold PhCreatePointerList. set (c := if n =? 0 then 1 else n). assert (0 < c < 2 ^ 32) by (unfold c; destruct (Z.eqb_spec n 0); lia).
  constructor; cbn [Count NextEntry AllocatedCount Items FreeEntry]; try done; [|apply holds_nil|constructor].
  rewrite pointers_small, length_allocate by lia. lia.
Qed.

End PointerListFacts.

(** ** Properties *)

(** C23. A list stands for the sequence of its items, fewer than 2^32. Adding one item
    appends it, within the block, but for a list that is full and has a capacity of 0 or
    of 2^31 or more: doubling gives it no room, and the item is written out of the block.
    Adding several items, inserting, removing and clearing do to the sequence what their
    names say, within the block, whatever its capacity; searching gives the first index of
    an item or [ULONG_MAX]; and resizing raises exactly when the new capacity is too
    small. *)
Theorem list_operations l xs :
  ListFacts.list_ok l xs →
  (∀ x, if decide (ListFacts.add_faults l) then List.PhAddItemList l x = Fault
        else ∃ l', List.PhAddItemList l x = Ok l' ∧ ListFacts.list_ok l' (xs ++ [x])) ∧
  (∀ ys, Z.of_nat (length xs + length ys) < 2 ^ 32 →
     (∃ l', List.PhAddItemsList l ys = Ok l' ∧ ListFacts.list_ok l' (xs ++ ys)) ∧
     ∀ i, (i ≤ length xs)%nat →
       ∃ l', List.PhInsertItemsList l (Z.of_nat i) ys = Ok l' ∧ ListFacts.list_ok l' (take i xs ++ ys ++ drop i xs)) ∧
  (∀ i n, (i + n ≤ length xs)%nat →
     ∃ l', List.PhRemoveItemsList l (Z.of_nat i) (Z.of_nat n) = Ok l' ∧ ListFacts.list_ok l' (take i xs ++ drop (i + n) xs)) ∧
  (∀ x, ∃ r, List.PhFindItemList l x = Ok r ∧
     (r = ULONG_MAX ∧ x ∉ xs ∨ ∃ j : nat, r = Z.of_nat j ∧ xs !! j = Some x ∧ x ∉ take j xs)) ∧
  ListFacts.list_ok (List.PhClearList l) [] ∧
  (∀ n, 0 ≤ n < 2 ^ 32 →
     if n <? Z.of_nat (length xs) then List.PhResizeList l n = Raised STATUS_INVALID_PARAMETER_2
     else ∃ l', List.PhResizeList l n = Ok l' ∧ ListFacts.list_ok l' xs).
Proof.
  intros Hok. split_and!.
  - intros x. case_decide; [by eapply ListFacts.list_add_fault|by apply ListFacts.list_add_ok].
  - intros ys Hs. split; [by apply ListFacts.list_add_items_ok|]. intros i Hi. by apply ListFacts.insert_ok.
  - intros i n Hi. by apply ListFacts.list_remove_ok.
  - intros x. unfold List.PhFindItemList. rewrite (ListFacts.ok_count _ _ Hok), Nat2Z.id.
    apply (ListFacts.find_item_ok l xs x Hok (length xs) 0%nat); [lia|]. apply not_elem_of_nil.
  - destruct Hok as [_ H2 H3 H4]. constructor; [done|done|done|apply holds_nil].
  - intros n Hn. unfold List.PhResizeList. rewrite (ListFacts.ok_count _ _ Hok).
    destruct (Z.ltb_spec n (Z.of_nat (length xs))); [done|]. eexists. split; [done|]. rewrite <-(ListFacts.ok_count _ _ Hok). apply ListFacts.list_grow_ok; [done|lia].
Qed.

Lemma list_operations_witness :
  (∃ l, ListFacts.list_ok l [10; 30] ∧
   ∃ l', List.PhInsertItemsList l 1 [20; 21] = Ok l' ∧ ListFacts.list_ok l' [10; 20; 21; 30]) ∧
  (∃ l, List.PhResizeList (List.PhCreateList 0) 0 = Ok l ∧ List.PhAddItemList l 7 = Fault).
Proof.
  destruct (list_operations (List.PhCreateList 0) [] ltac:(apply ListFacts.list_create_ok; lia)) as (_ & Hadd & _ & _ & _ & Hsize). split.
  - destruct (Hadd [10; 30]) as [(l & _ & Hl) _]; [done|]. exists l. split; [exact Hl|].
    destruct (list_operations l [10; 30] Hl) as (_ & Hins & _). destruct (Hins [20; 21]) as [_ H]; [done|]. by apply (H 1%nat); cbn; lia.
  - destruct (Hsize 0 ltac:(lia)) as (l & E & Hl). exists l. split; [exact E|]. injection E as <-.
    exact (proj1 (list_operations _ [] Hl) 7).
Defined.

(** An array stands for the sequence of its items, each of them [ItemSize] bytes of
    its block: adding, removing and clearing do to the sequence what their names say and
    stay within the block, as long as the sizes in bytes stay below 2^64; resizing raises
    exactly when the new capacity is too small. *)
Theorem array_operations a xs :
  ArrayFacts.array_ok a xs →
  (∀ x, ¬ ArrayFacts.add_faults a → length x = Z.to_nat (Array.ItemSize a) → Array.AllocatedCount a * 2 * Array.ItemSize a < 2 ^ 64 →
     ∃ a', Array.PhAddItemArray a x = Ok a' ∧ ArrayFacts.array_ok a' (xs ++ [x]) ∧ Array.ItemSize a' = Array.ItemSize a) ∧
  (∀ ys, Forall (λ x, length x = Z.to_nat (Array.ItemSize a)) ys →
     Z.max (Array.AllocatedCount a * 2) (Z.of_nat (length xs + length ys)) * Array.ItemSize a < 2 ^ 64 →
     ∃ a', Array.PhAddItemsArray a (concat ys) (Z.of_nat (length ys)) = Ok a' ∧ ArrayFacts.array_ok a' (xs ++ ys) ∧
       Array.ItemSize a' = Array.ItemSize a) ∧
  (∀ i n, (i + n ≤ length xs)%nat →
     ∃ a', Array.PhRemoveItemsArray a (Z.of_nat i) (Z.of_nat n) = Ok a' ∧ ArrayFacts.array_ok a' (take i xs ++ drop (i + n) xs) ∧
       Array.ItemSize a' = Array.ItemSize a) ∧
  ArrayFacts.array_ok (Array.PhClearArray a) [] ∧
  (∀ n, 0 ≤ n → n * Array.ItemSize a < 2 ^ 64 →
     if n <? Z.of_nat (length xs) then Array.PhResizeArray a n = Raised STATUS_INVALID_PARAMETER_2
     else ∃ a', Array.PhResizeArray a n = Ok a' ∧ ArrayFacts.array_ok a' xs).
Proof.
  intros Hok. split_and!.
  - intros x Hf Hx Hs. by apply ArrayFacts.array_add_ok.
  - intros ys Hys Hs. by apply ArrayFacts.array_add_items_ok.
  - intros i n Hi. by apply ArrayFacts.array_remove_ok.
  - destruct Hok as [_ H2 H3 H4 H5 H6]. constructor; [done|constructor|done|done|done|apply holds_nil].
  - intros n Hn Hs. unfold Array.PhResizeArray. rewrite (ArrayFacts.ok_count _ _ Hok).
    destruct (Z.ltb_spec n (Z.of_nat (length xs))); [done|]. eexists. split; [done|]. rewrite <-(ArrayFacts.ok_count _ _ Hok). apply ArrayFacts.array_grow_ok; [done|lia|done].
Qed.

Lemma array_operations_witness : ∃ a', Array.PhAddItemArray (Array.PhInitializeArray 3 0) [1; 2; 3] = Ok a' ∧ ArrayFacts.array_ok a' [[1; 2; 3]].
Proof.
  destruct (array_operations (Array.PhInitializeArray 3 0) []) as (Hadd & _); [apply ArrayFacts.array_create_ok; lia|].
  destruct (Hadd [1; 2; 3]) as (a' & H1 & H2 & _); [by intros [? ?]|done|done|]. by exists a'.
Defined.

(** The representation of a pointer list is kept by its operations: every entry up
    to the next unused one is an aligned pointer, or it is free and holds the encoded
    index of the next free entry, and the chain of free entries visits each of them once.
    So a handle stands for a pointer from the addition that returns it until its
    removal: additions give handles that are not in use, searches and enumerations find
    exactly the pointers in use. Only the doubling of a full list of 2^31 entries or
    more goes out of bounds. *)
Theorem pointer_list_operations p m cells free :
  PointerListFacts.plist_ok p m cells free →
  (∀ x, PointerList.PH_IS_LIST_POINTER_VALID x = true →
     if decide (free = [] ∧ PointerList.NextEntry p = PointerList.AllocatedCount p ∧ 2 ^ 31 ≤ PointerList.AllocatedCount p)
     then PointerList.PhAddItemPointerList p x = Fault
     else ∃ p' h cells' free', PointerList.PhAddItemPointerList p x = Ok (p', h) ∧ 0 < h < 2 ^ 32 ∧ m !! h = None ∧
       PointerListFacts.plist_ok p' (<[h := x]> m) cells' free') ∧
  (∀ h x, m !! h = Some x →
     ∃ p' cells' free', PointerList.PhRemoveItemPointerList p h = Ok p' ∧ PointerListFacts.plist_ok p' (delete h m) cells' free') ∧
  (∀ x, PointerList.PH_IS_LIST_POINTER_VALID x = true →
     ∃ h, PointerList.PhFindItemPointerList p x = Ok h ∧ (h = 0 ∧ (∀ h', m !! h' ≠ Some x) ∨ 0 < h ∧ m !! h = Some x)) ∧
  (∀ k : nat, ∃ r, PointerList.PhEnumPointerListEx p (Z.of_nat k) = Ok r ∧
     match r with
     | (k', Some (x, h)) => k' = h ∧ Z.of_nat k < h ∧ m !! h = Some x ∧ ∀ h', Z.of_nat k < h' < h → m !! h' = None
     | (_, None) => ∀ h', Z.of_nat k < h' → m !! h' = None
     end).
Proof.
  intros Hok. pose proof (PointerListFacts.ok_next _ _ _ _ Hok) as Hn. split_and!.
  - intros x Hx. case_decide as Hf; [by eapply PointerListFacts.add_full|].
    destruct (decide (free = [])) as [E|E]; [by eapply PointerListFacts.add_next|by eapply PointerListFacts.add_free].
  - intros h x Hx. by eapply PointerListFacts.plist_remove_ok.
  - intros x Hx. unfold PointerList.PhFindItemPointerList. rewrite Hx, Hn, Nat2Z.id. cbn [negb].
    apply (PointerListFacts.find_pointer_ok p m cells free Hok x (length cells) 0); [done|lia|lia].
  - intros k. unfold PointerList.PhEnumPointerListEx. rewrite Hn, Nat2Z.id.
    destruct (PointerListFacts.enum_ok p m cells free Hok (S (length cells)) k) as (r & Hr & H); [lia|]. exists r. split; [done|].
    by destruct r as [k' [[y h]|]].
Qed.

Lemma pointer_list_operations_witness : ∃ p h cells free, PointerList.PhAddItemPointerList (PointerList.PhCreatePointerList 1) 4096 = Ok (p, h) ∧
  PointerListFacts.plist_ok p {[h := 4096]} cells free.
Proof.
  destruct (pointer_list_operations (PointerList.PhCreatePointerList 1) ∅ [] []) as (Hadd & _); [apply PointerListFacts.plist_create_ok; lia|].
  destruct (Hadd 4096 eq_refl) as (p & h & cells & free & H1 & _ & _ & H2). by exists p, h, cells, free.
Defined.

(** Growing by doubling fails at the ends of the range. Adding an item to a list
    writes outside of its block exactly when the list is full and its capacity is 0, as
    resizing an empty list to 0 makes it, or 2^31 or more, so that the doubled capacity
    wraps; adding an item to an array whose capacity is 0 does as well. *)
Theorem growth_faults l xs a ys :
  ListFacts.list_ok l xs → ArrayFacts.array_ok a ys →
  (∀ x, List.PhAddItemList l x = Fault ↔
     List.Count l = List.AllocatedCount l ∧ (List.AllocatedCount l = 0 ∨ 2 ^ 31 ≤ List.AllocatedCount l)) ∧
  (∀ x, Array.AllocatedCount a = 0 → Array.PhAddItemArray a x = Fault) ∧
  (∀ n x, ∃ l', List.PhResizeList (List.PhCreateList n) 0 = Ok l' ∧ List.PhAddItemList l' x = Fault) ∧
  (∀ n w x, 0 < w → ∃ a', Array.PhResizeArray (Array.PhInitializeArray w n) 0 = Ok a' ∧ Array.PhAddItemArray a' x = Fault).
Proof.
  intros Hl Ha. split_and!.
  - intros x. split; [|by eapply ListFacts.list_add_fault]. intros E.
    destruct (decide (List.Count l = List.AllocatedCount l ∧ (List.AllocatedCount l = 0 ∨ 2 ^ 31 ≤ List.AllocatedCount l))) as [?|Hn]; [done|].
    destruct (ListFacts.list_add_ok l xs x Hl Hn) as (l' & E' & _). congruence.
  - intros x E. eapply ArrayFacts.array_add_fault; [done|]. split; [|done]. pose proof (ArrayFacts.array_bound _ _ Ha). pose proof (ArrayFacts.ok_count _ _ Ha). lia.
  - intros n x. eexists. split; [done|]. unfold List.PhAddItemList. cbn [List.Count List.AllocatedCount List.PhCreateList].
    rewrite Z.eqb_refl. cbn [List.Count List.Items]. rewrite store_outside; [done|]. rewrite length_reallocate.
    change (pointers (u32 (0 * 2))) with 0. cbn. lia.
  - intros n w x Hw. eexists. split; [done|]. unfold Array.PhAddItemArray. cbn [Array.Count Array.AllocatedCount Array.PhInitializeArray].
    rewrite Z.eqb_refl. cbn [Array.ItemSize Array.Count Array.Items]. case_match eqn:E; [done|]. apply Z.ltb_ge in E.
    rewrite store_outside; [done|]. rewrite length_reallocate, length_take. unfold Array.PhItemArray. cbn [Array.ItemSize Array.PhInitializeArray] in *.
    change (u64 (0 * 2)) with 0. rewrite !Z.mul_0_l. change (u64 0) with 0. lia.
Qed.

Lemma growth_faults_witness : List.PhAddItemList (List.PhCreateList 1) 7 ≠ Fault ∧
  ∃ l, List.PhResizeList (List.PhCreateList 1) 0 = Ok l ∧ List.PhAddItemList l 7 = Fault.
Proof.
  destruct (growth_faults (List.PhCreateList 1) [] (Array.PhInitializeArray 3 1) []) as (H1 & _ & H3 & _);
    [apply ListFacts.list_create_ok; lia|apply ArrayFacts.array_create_ok; lia|].
  split; [|apply H3]. rewrite H1. vm_compute. intros [? _]. done.
Defined.
