(* ===== verification/StringBuilder.v ===== *)
(** String builders and byte string builders (src/phlib/basesup.c): strings that grow.
    Lengths are in bytes; the block of a string has characters, that of a byte string
    bytes, with room for a terminator after the capacity. A part of a string that was
    only reserved is not written yet. *)

From S2P Require Import Prelude Blocks.

Definition sizeof_WCHAR : Z := 2.

(** ** String builders *)

Record PH_STRING := String { Length : Z; Buffer : block Z }.

(** The block is allocated with the object; [Length] has to be even. *)
Definition PhCreateStringEx (text : option (list Z)) (Length : Z) : result PH_STRING :=
  let buffer := allocate (u64 (Length + sizeof_WCHAR) / sizeof_WCHAR) in
  if negb (Z.land Length 1 =? 0) then Fault
  else
    buffer ← store buffer (Length / sizeof_WCHAR) [0];
    match text with
    | Some text => buffer ← store buffer 0 (take (Z.to_nat (Length / sizeof_WCHAR)) text); Ok (String Length buffer)
    | None => Ok (String Length buffer)
    end.

Record PH_STRING_BUILDER := StringBuilder { AllocatedLength : Z; String_ : PH_STRING }.

Definition PhInitializeStringBuilder (InitialCapacity : Z) : result PH_STRING_BUILDER :=
  let InitialCapacity := if negb (Z.land InitialCapacity 1 =? 0) then u64 (InitialCapacity + 1) else InitialCapacity in
  string ← PhCreateStringEx None InitialCapacity;
  buffer ← store (Buffer string) 0 [0];
  Ok (StringBuilder InitialCapacity (String 0 buffer)).

Definition PhFinalStringBuilderString (sb : PH_STRING_BUILDER) : PH_STRING := String_ sb.

Definition PhpResizeStringBuilder (sb : PH_STRING_BUILDER) (NewCapacity : Z) : result PH_STRING_BUILDER :=
  let allocated := u64 (AllocatedLength sb * 2) in
  let allocated := if allocated <? NewCapacity then NewCapacity else allocated in
  newString ← PhCreateStringEx None allocated;
  old ← load_cells (Buffer (String_ sb)) (u64 (Length (String_ sb) + sizeof_WCHAR) / sizeof_WCHAR);
  buffer ← store_cells (Buffer newString) 0 old;
  Ok (StringBuilder allocated (String (Length (String_ sb)) buffer)).

(** The string with another length and the terminator after it. *)
Definition PhpWriteNullTerminatorStringBuilder (sb : PH_STRING_BUILDER) (Length : Z) (buffer : block Z) : result PH_STRING_BUILDER :=
  if negb (Z.land Length 1 =? 0) then Fault
  else buffer ← store buffer (Length / sizeof_WCHAR) [0]; Ok (StringBuilder (AllocatedLength sb) (String Length buffer)).

(** The test for room that the operations share. *)
Definition ensure_room (sb : PH_STRING_BUILDER) (n : Z) : result PH_STRING_BUILDER :=
  if AllocatedLength sb <? u64 (Length (String_ sb) + n) then PhpResizeStringBuilder sb (u64 (Length (String_ sb) + n)) else Ok sb.

(** What is written at an offset, if anything. *)
Definition write_text (buffer : block Z) (offset : Z) (text : option (list Z)) (n : Z) : result (block Z) :=
  match text with
  | Some text =>
      if Z.of_nat (length text) <? n / sizeof_WCHAR then Fault
      else store buffer (offset / sizeof_WCHAR) (take (Z.to_nat (n / sizeof_WCHAR)) text)
  | None => Ok buffer
  end.

Definition PhAppendStringBuilderEx (sb : PH_STRING_BUILDER) (text : option (list Z)) (n : Z) : result PH_STRING_BUILDER :=
  if n =? 0 then Ok sb
  else
    sb ← ensure_room sb n;
    buffer ← write_text (Buffer (String_ sb)) (Length (String_ sb)) text n;
    PhpWriteNullTerminatorStringBuilder sb (u64 (Length (String_ sb) + n)) buffer.

Definition PhAppendCharStringBuilder (sb : PH_STRING_BUILDER) (Character : Z) : result PH_STRING_BUILDER :=
  sb ← ensure_room sb sizeof_WCHAR;
  buffer ← store (Buffer (String_ sb)) (Length (String_ sb) / sizeof_WCHAR) [Character];
  PhpWriteNullTerminatorStringBuilder sb (u64 (Length (String_ sb) + sizeof_WCHAR)) buffer.

Definition PhAppendCharStringBuilder2 (sb : PH_STRING_BUILDER) (Character Count : Z) : result PH_STRING_BUILDER :=
  if Count =? 0 then Ok sb
  else
    let n := u64 (Count * sizeof_WCHAR) in
    sb ← ensure_room sb n;
    buffer ← store (Buffer (String_ sb)) (Length (String_ sb) / sizeof_WCHAR) (replicate (Z.to_nat Count) Character);
    PhpWriteNullTerminatorStringBuilder sb (u64 (Length (String_ sb) + n)) buffer.

(** [formatted] is what the C library makes of the format string and its arguments,
    [None] if it fails. *)
Definition PhAppendFormatStringBuilder_V (sb : PH_STRING_BUILDER) (formatted : option (list Z)) : result PH_STRING_BUILDER :=
  match formatted with
  | None | Some [] => Ok sb
  | Some text =>
      let n := u64 (Z.of_nat (length text) * sizeof_WCHAR) in
      sb ← ensure_room sb n;
      buffer ← store (Buffer (String_ sb)) (Length (String_ sb) / sizeof_WCHAR) text;
      PhpWriteNullTerminatorStringBuilder sb (u64 (Length (String_ sb) + n)) buffer
  end.

Definition PhInsertStringBuilderEx (sb : PH_STRING_BUILDER) (Index : Z) (text : option (list Z)) (n : Z) : result PH_STRING_BUILDER :=
  if n =? 0 then Ok sb
  else
    sb ← ensure_room sb n;
    let size := Length (String_ sb) in
    buffer ← (if u64 (Index * sizeof_WCHAR) <? size then
                move (Buffer (String_ sb)) (Index + n / sizeof_WCHAR) Index (u64 (size - Index * sizeof_WCHAR) / sizeof_WCHAR)
              else Ok (Buffer (String_ sb)));
    buffer ← write_text buffer (Index * sizeof_WCHAR) text n;
    PhpWriteNullTerminatorStringBuilder sb (u64 (size + n)) buffer.

Definition PhRemoveStringBuilder (sb : PH_STRING_BUILDER) (StartIndex Count : Z) : result PH_STRING_BUILDER :=
  let size := Length (String_ sb) in
  buffer ← move (Buffer (String_ sb)) StartIndex (StartIndex + Count) (u64 (size - (Count + StartIndex) * sizeof_WCHAR) / sizeof_WCHAR);
  PhpWriteNullTerminatorStringBuilder sb (u64 (size - Count * sizeof_WCHAR)) buffer.

Definition PhRemoveEndStringBuilder (sb : PH_STRING_BUILDER) (Count : Z) : result PH_STRING_BUILDER :=
  PhRemoveStringBuilder sb (u64 (Length (String_ sb) / sizeof_WCHAR - Count)) Count.

(** ** Byte string builders *)

Module Bytes.

Record PH_BYTES := Bytes { Length : Z; Buffer : block Z }.

Definition PhCreateBytesEx (bytes : option (list Z)) (Length : Z) : result PH_BYTES :=
  let buffer := allocate (u64 (Length + 1)) in
  buffer ← store buffer Length [0];
  match bytes with
  | Some bytes => buffer ← store buffer 0 (take (Z.to_nat Length) bytes); Ok (Bytes Length buffer)
  | None => Ok (Bytes Length buffer)
  end.

Record PH_BYTES_BUILDER := BytesBuilder { AllocatedLength : Z; Bytes_ : PH_BYTES }.

Definition PhInitializeBytesBuilder (InitialCapacity : Z) : result PH_BYTES_BUILDER :=
  bytes ← PhCreateBytesEx None InitialCapacity;
  buffer ← store (Buffer bytes) 0 [0];
  Ok (BytesBuilder InitialCapacity (Bytes 0 buffer)).

Definition PhFinalBytesBuilderBytes (bb : PH_BYTES_BUILDER) : PH_BYTES := Bytes_ bb.

Definition PhpResizeBytesBuilder (bb : PH_BYTES_BUILDER) (NewCapacity : Z) : result PH_BYTES_BUILDER :=
  let allocated := u64 (AllocatedLength bb * 2) in
  let allocated := if allocated <? NewCapacity then NewCapacity else allocated in
  newBytes ← PhCreateBytesEx None allocated;
  old ← load_cells (Buffer (Bytes_ bb)) (u64 (Length (Bytes_ bb) + 1));
  buffer ← store_cells (Buffer newBytes) 0 old;
  Ok (BytesBuilder allocated (Bytes (Length (Bytes_ bb)) buffer)).

Definition PhpWriteNullTerminatorBytesBuilder (bb : PH_BYTES_BUILDER) (Length : Z) (buffer : block Z) : result PH_BYTES_BUILDER :=
  buffer ← store buffer Length [0]; Ok (BytesBuilder (AllocatedLength bb) (Bytes Length buffer)).

Definition ALIGN_UP_BY (Address Align : Z) : Z := Z.ldiff (u64 (u64 (Address + Align) - 1)) (Align - 1).

Definition bytes_room (bb : PH_BYTES_BUILDER) (n : Z) : result PH_BYTES_BUILDER :=
  if AllocatedLength bb <? n then PhpResizeBytesBuilder bb n else Ok bb.

(** The offset that is returned is that of the pointer and of [Offset]. *)
Definition PhAppendBytesBuilderEx (bb : PH_BYTES_BUILDER) (bytes : option (list Z)) (n Alignment : Z) : result (PH_BYTES_BUILDER * Z) :=
  let currentLength := Length (Bytes_ bb) in
  if n =? 0 then Ok (bb, currentLength)
  else
    let currentLength := if negb (Alignment =? 0) then ALIGN_UP_BY currentLength Alignment else currentLength in
    bb ← bytes_room bb (u64 (currentLength + n));
    buffer ← match bytes with
             | Some bytes =>
                 if Z.of_nat (length bytes) <? n then Fault else store (Buffer (Bytes_ bb)) currentLength (take (Z.to_nat n) bytes)
             | None => Ok (Buffer (Bytes_ bb))
             end;
    bb ← PhpWriteNullTerminatorBytesBuilder bb (u64 (currentLength + n)) buffer;
    Ok (bb, currentLength).

Definition PhAppendBytesBuilder (bb : PH_BYTES_BUILDER) (bytes : list Z) : result PH_BYTES_BUILDER :=
  fst <$> PhAppendBytesBuilderEx bb (Some bytes) (Z.of_nat (length bytes)) 0.

Definition PhAppendFormatBytesBuilder_V (bb : PH_BYTES_BUILDER) (formatted : option (list Z)) : result PH_BYTES_BUILDER :=
  match formatted with
  | None | Some [] => Ok bb
  | Some text =>
      let n := Z.of_nat (length text) in
      bb ← bytes_room bb (u64 (Length (Bytes_ bb) + n));
      buffer ← store (Buffer (Bytes_ bb)) (Length (Bytes_ bb)) text;
      PhpWriteNullTerminatorBytesBuilder bb (u64 (Length (Bytes_ bb) + n)) buffer
  end.

End Bytes.
