(* ===== verification/StringBuilderTheorems.v ===== *)
(** String builders: the text that a builder stands for, and that the operations keep
    it terminated and within its block. *)

From S2P Require Import Prelude Blocks StringBuilder.

(** ** String builders *)

(** The builder stands for the characters [c], of which those that were only reserved
    are unknown; the terminator follows them. *)
Record builder_ok (sb : PH_STRING_BUILDER) (c : block Z) : Prop := {
  sb_length : Length (String_ sb) = 2 * Z.of_nat (length c);
  sb_block : AllocatedLength sb = 2 * (Z.of_nat (length (Buffer (String_ sb))) - 1);
  sb_text : begins (Buffer (String_ sb)) (c ++ [Some 0]);
}.

Lemma builder_bound sb c : builder_ok sb c → Length (String_ sb) ≤ AllocatedLength sb.
Proof. intros [H1 H2 H3%begins_length]. rewrite length_app in H3. cbn [length] in H3. lia. Qed.

Lemma sb_begins sb c : builder_ok sb c → begins (Buffer (String_ sb)) c.
Proof. intros [_ _ H]. by eapply begins_prefix. Qed.

Lemma even_length n : Z.land (2 * n) 1 = 0.
Proof. change 1 with (2 ^ 1 - 1). rewrite land_pow2 by lia. rewrite Z.mul_comm. by apply Z.mod_mul. Qed.

Lemma half n : 2 * n / 2 = n.
Proof. rewrite Z.mul_comm. by apply Z.div_mul. Qed.

Lemma half_succ n : (2 * n + 2) / 2 = n + 1.
Proof. replace (2 * n + 2) with (2 * (n + 1)) by ring. apply half. Qed.

(** A string of [n] characters, not written yet. *)
Lemma create_string n : 0 ≤ n → 2 * n < 2 ^ 63 →
  ∃ buffer, PhCreateStringEx None (2 * n) = Ok (String (2 * n) buffer) ∧ Z.of_nat (length buffer) = n + 1.
Proof.
  intros Hn Hs. unfold PhCreateStringEx, sizeof_WCHAR. rewrite even_length, u64_small, half, half_succ by lia. cbn [negb Z.eqb].
  set (b := allocate (n + 1)). assert (length b = Z.to_nat (n + 1)) as Hb by apply length_allocate.
  unfold store, store_cells. rewrite decide_True by (cbn; lia). eexists. split; [done|].
  rewrite !length_app, length_take, length_drop, Hb. cbn. lia.
Qed.

Section Builder.
Context (sb : PH_STRING_BUILDER) (c : block Z) (Hok : builder_ok sb c).

(** The terminator after a text that was written to the block. *)
Lemma terminate_ok buffer d n : begins buffer d → length buffer = length (Buffer (String_ sb)) →
  n = 2 * Z.of_nat (length d) → n ≤ AllocatedLength sb →
  ∃ sb', PhpWriteNullTerminatorStringBuilder sb n buffer = Ok sb' ∧ builder_ok sb' d.
Proof.
  intros Hb Hl -> Hn. unfold PhpWriteNullTerminatorStringBuilder, sizeof_WCHAR. rewrite even_length, half. cbn [negb Z.eqb].
  pose proof (sb_block _ _ Hok) as Hblock. destruct (store_cells_end buffer d [Some 0] Hb) as (b & Hs & Hb' & Hl'); [cbn; lia|].
  unfold store. cbn. rewrite Hs. eexists. split; [done|]. constructor; cbn; [done| |done]. by rewrite Hl', Hl.
Qed.

Lemma room_ok n : 0 ≤ n → AllocatedLength sb < 2 ^ 62 → Length (String_ sb) + 2 * n < 2 ^ 63 →
  ∃ sb', ensure_room sb (2 * n) = Ok sb' ∧ builder_ok sb' c ∧ Length (String_ sb') + 2 * n ≤ AllocatedLength sb'.
Proof.
  intros Hn Ha Hs. pose proof (builder_bound _ _ Hok). pose proof (sb_length _ _ Hok) as Hlen. pose proof (sb_block _ _ Hok) as Hblock.
  unfold ensure_room, PhpResizeStringBuilder. rewrite !(u64_small (_ + 2 * n)), (u64_small (_ * 2)) by lia.
  destruct (Z.ltb_spec (AllocatedLength sb) (Length (String_ sb) + 2 * n)); [|by exists sb].
  set (allocated := if _ <? _ then _ else _). assert (∃ m, allocated = 2 * m ∧ Length (String_ sb) + 2 * n ≤ 2 * m ∧ 2 * m < 2 ^ 63) as (m & -> & Hm & Hm').
  { unfold allocated. destruct (Z.ltb_spec (AllocatedLength sb * 2) (Length (String_ sb) + 2 * n)).
    - exists (Z.of_nat (length c) + n). lia.
    - exists (AllocatedLength sb). lia. }
  destruct (create_string m) as (b & -> & Hb); [lia..|]. cbn [mbind result_bind Buffer].
  unfold sizeof_WCHAR. rewrite u64_small, Hlen, half_succ by lia.
  destruct (copy_cells _ b _ (sb_text _ _ Hok)) as (b' & Hload & Hstore & Hb' & Hlb); [rewrite length_app; cbn; lia|].
  rewrite length_app in Hload. cbn [length] in Hload. replace (Z.of_nat (length c) + 1) with (Z.of_nat (length c + 1)) by lia.
  rewrite Hload. cbn [mbind result_bind]. rewrite Hstore. eexists. split; [done|]. split; [constructor|]; cbn; [done|lia|done|lia].
Qed.

End Builder.

(** What an operation may add: half of the range is never reached. *)
Definition fits (sb : PH_STRING_BUILDER) (n : nat) : Prop :=
  AllocatedLength sb < 2 ^ 62 ∧ Length (String_ sb) + 2 * Z.of_nat n < 2 ^ 63.

Lemma append_cells sb c (x : list Z) : builder_ok sb c → fits sb (length x) →
  ∃ sb1, ensure_room sb (2 * Z.of_nat (length x)) = Ok sb1 ∧ ∃ buffer, store (Buffer (String_ sb1)) (Length (String_ sb1) / sizeof_WCHAR) x = Ok buffer ∧
    ∃ sb', PhpWriteNullTerminatorStringBuilder sb1 (u64 (Length (String_ sb1) + 2 * Z.of_nat (length x))) buffer = Ok sb' ∧ builder_ok sb' (c ++ (Some <$> x)).
Proof.
  intros Hok [Ha Hf]. destruct (room_ok sb c Hok (Z.of_nat (length x))) as (sb1 & -> & Hok1 & Hr); [lia..|]. exists sb1. split; [done|].
  pose proof (sb_length _ _ Hok1) as Hlen. pose proof (sb_length _ _ Hok) as Hlen0. pose proof (sb_block _ _ Hok1).
  destruct (store_cells_end (Buffer (String_ sb1)) c (Some <$> x)) as (b & Hs & Hb & Hl); [by apply sb_begins|rewrite length_fmap; lia|].
  exists b. split; [unfold store, sizeof_WCHAR; by rewrite Hlen, half|].
  apply (terminate_ok sb1 c Hok1 b); [done|done| |]; rewrite u64_small; rewrite ?length_app, ?length_fmap; lia.
Qed.

Section Operations.
Context (sb : PH_STRING_BUILDER) (c : block Z) (Hok : builder_ok sb c).

Lemma append_ok x : fits sb (length x) →
  ∃ sb', PhAppendStringBuilderEx sb (Some x) (2 * Z.of_nat (length x)) = Ok sb' ∧ builder_ok sb' (c ++ (Some <$> x)).
Proof.
  intros Hf. unfold PhAppendStringBuilderEx. destruct (Z.eqb_spec (2 * Z.of_nat (length x)) 0) as [E|E].
  - destruct x; [|cbn in E; lia]. exists sb. by rewrite app_nil_r.
  - destruct (append_cells sb c x Hok Hf) as (sb1 & -> & b & Hs & sb' & Ht & H). cbn [mbind result_bind]. unfold write_text.
    unfold sizeof_WCHAR in *. rewrite half, Nat2Z.id, firstn_all. rewrite Z.ltb_irrefl, Hs. cbn [mbind result_bind]. by exists sb'.
Qed.

Lemma append_char_ok x : fits sb 1 → ∃ sb', PhAppendCharStringBuilder sb x = Ok sb' ∧ builder_ok sb' (c ++ [Some x]).
Proof.
  intros Hf. unfold PhAppendCharStringBuilder. destruct (append_cells sb c [x] Hok Hf) as (sb1 & Hr & b & Hs & H).
  change (2 * Z.of_nat (length [x])) with sizeof_WCHAR in *. rewrite Hr. cbn [mbind result_bind]. by rewrite Hs.
Qed.

Lemma append_char2_ok x n : fits sb n →
  ∃ sb', PhAppendCharStringBuilder2 sb x (Z.of_nat n) = Ok sb' ∧ builder_ok sb' (c ++ replicate n (Some x)).
Proof.
  intros Hf. unfold PhAppendCharStringBuilder2. destruct (Z.eqb_spec (Z.of_nat n) 0) as [E|E].
  - assert (n = 0%nat) as -> by lia. exists sb. by rewrite app_nil_r.
  - destruct (append_cells sb c (replicate n x) Hok) as (sb1 & Hr & b & Hs & H); [by rewrite length_replicate|]. rewrite length_replicate in *.
    destruct Hf as [Ha Hf]. pose proof (sb_length _ _ Hok). unfold sizeof_WCHAR in *. rewrite (u64_small (_ * 2)), Z.mul_comm, Nat2Z.id by lia.
    rewrite Hr. cbn [mbind result_bind]. rewrite Hs. by rewrite fmap_replicate in H.
Qed.

Lemma append_format_ok x : fits sb (length x) →
  ∃ sb', PhAppendFormatStringBuilder_V sb (Some x) = Ok sb' ∧ builder_ok sb' (c ++ (Some <$> x)).
Proof.
  intros Hf. unfold PhAppendFormatStringBuilder_V. destruct x as [|y x]; [exists sb; by rewrite app_nil_r|].
  pose proof Hf as [Ha Hf']. pose proof (sb_length _ _ Hok). unfold sizeof_WCHAR. rewrite (u64_small (_ * 2)) by lia. rewrite Z.mul_comm.
  destruct (append_cells sb c (y :: x) Hok Hf) as (sb1 & -> & b & Hs & H'). cbn [mbind result_bind]. unfold sizeof_WCHAR in Hs. by rewrite Hs.
Qed.

(** Room that the caller fills in. *)
Lemma append_room_ok n : fits sb n →
  ∃ sb' gap, PhAppendStringBuilderEx sb None (2 * Z.of_nat n) = Ok sb' ∧ length gap = n ∧ builder_ok sb' (c ++ gap).
Proof.
  intros [Ha Hf]. unfold PhAppendStringBuilderEx. destruct (Z.eqb_spec (2 * Z.of_nat n) 0) as [E|E].
  - assert (n = 0%nat) as -> by lia. exists sb, []. by rewrite app_nil_r.
  - destruct (room_ok sb c Hok (Z.of_nat n)) as (sb1 & -> & Hok1 & Hr); [lia..|]. cbn [mbind result_bind write_text].
    pose proof (sb_length _ _ Hok1) as Hlen. pose proof (sb_length _ _ Hok) as Hlen0. pose proof (sb_block _ _ Hok1).
    destruct (begins_extend (Buffer (String_ sb1)) c n) as (gap & Hg & Hb); [by apply sb_begins|lia|].
    destruct (terminate_ok sb1 c Hok1 _ _ (u64 (Length (String_ sb1) + 2 * Z.of_nat n)) Hb) as (sb' & -> & H');
      [done|rewrite u64_small, length_app by lia; lia|rewrite u64_small by lia; lia|]. by exists sb', gap.
Qed.

Lemma builder_insert_ok x i : (i ≤ length c)%nat → fits sb (length x) →
  ∃ sb', PhInsertStringBuilderEx sb (Z.of_nat i) (Some x) (2 * Z.of_nat (length x)) = Ok sb' ∧
    builder_ok sb' (take i c ++ (Some <$> x) ++ drop i c).
Proof.
  intros Hi Hf. unfold PhInsertStringBuilderEx. destruct (Z.eqb_spec (2 * Z.of_nat (length x)) 0) as [E|E].
  { destruct x; [|cbn in E; lia]. exists sb. cbn. by rewrite take_drop. }
  destruct Hf as [Ha Hf]. destruct (room_ok sb c Hok (Z.of_nat (length x))) as (sb1 & -> & Hok1 & Hr); [lia..|]. cbn [mbind result_bind].
  pose proof (sb_length _ _ Hok1) as Hlen. pose proof (sb_length _ _ Hok) as Hlen0. pose proof (sb_block _ _ Hok1) as Hblock.
  pose proof (sb_begins _ _ Hok1) as Hbeg. unfold sizeof_WCHAR, write_text. rewrite (u64_small (_ * 2)), half by lia. rewrite Z.ltb_irrefl, Nat2Z.id, firstn_all.
  unfold sizeof_WCHAR. rewrite Z.div_mul by done. destruct (Z.ltb_spec (Z.of_nat i * 2) (Length (String_ sb1))) as [Hlt|Hge].
  - destruct (insert_cells _ c (Some <$> x) i Hbeg Hi) as (b & b' & Hm & Hs & Hb & Hl); [rewrite length_fmap; lia|].
    rewrite (u64_small (_ - _)), half by lia. replace ((Length (String_ sb1) - Z.of_nat i * 2) / 2) with (Z.of_nat (length c - i))
      by (rewrite Hlen; symmetry; rewrite <-(half (Z.of_nat (length c - i))); f_equal; lia).
    rewrite length_fmap in Hm. replace (Z.of_nat i + Z.of_nat (length x)) with (Z.of_nat (i + length x)) by lia. rewrite Hm. cbn [mbind result_bind].
    unfold store. rewrite Hs. cbn [mbind result_bind].
    apply (terminate_ok sb1 c Hok1 b'); [done|done| |]; rewrite u64_small; rewrite ?length_app, ?length_fmap, ?length_take, ?length_drop; lia.
  - assert (i = length c) as -> by lia. cbn [mbind result_bind]. rewrite take_ge, drop_ge, app_nil_r by done.
    destruct (store_cells_end _ c (Some <$> x) Hbeg) as (b & Hs & Hb & Hl); [rewrite length_fmap; lia|]. unfold store. rewrite Hs. cbn [mbind result_bind].
    apply (terminate_ok sb1 c Hok1 b); [done|done| |]; rewrite u64_small; rewrite ?length_app, ?length_fmap; lia.
Qed.

Lemma builder_remove_ok i n : (i + n ≤ length c)%nat → AllocatedLength sb < 2 ^ 62 →
  ∃ sb', PhRemoveStringBuilder sb (Z.of_nat i) (Z.of_nat n) = Ok sb' ∧ builder_ok sb' (take i c ++ drop (i + n) c).
Proof.
  intros Hi Ha. unfold PhRemoveStringBuilder, sizeof_WCHAR. pose proof (sb_length _ _ Hok) as Hlen. pose proof (builder_bound _ _ Hok).
  rewrite !u64_small by lia. rewrite Hlen. replace ((2 * Z.of_nat (length c) - (Z.of_nat n + Z.of_nat i) * 2) / 2) with (Z.of_nat (length c - i - n))
    by (symmetry; rewrite <-(half (Z.of_nat (length c - i - n))); f_equal; lia).
  destruct (remove_cells _ c i n (sb_begins _ _ Hok) Hi) as (b & Hm & Hb & Hl). rewrite <-Nat2Z.inj_add, Hm. cbn [mbind result_bind].
  apply (terminate_ok sb c Hok b); [done|done| |]; rewrite ?length_app, ?length_take, ?length_drop; lia.
Qed.

Lemma remove_end_ok n : (n ≤ length c)%nat → AllocatedLength sb < 2 ^ 62 →
  ∃ sb', PhRemoveEndStringBuilder sb (Z.of_nat n) = Ok sb' ∧ builder_ok sb' (take (length c - n) c).
Proof.
  intros Hn Ha. unfold PhRemoveEndStringBuilder, sizeof_WCHAR. pose proof (sb_length _ _ Hok) as Hlen. pose proof (builder_bound _ _ Hok).
  rewrite Hlen, half, u64_small by lia. rewrite <-Nat2Z.inj_sub by lia. destruct (builder_remove_ok (length c - n) n) as (sb' & -> & H'); [lia|done|].
  exists sb'. split; [done|]. by rewrite drop_ge, app_nil_r in H' by lia.
Qed.

End Operations.

Lemma initialize_ok n : 0 ≤ n < 2 ^ 62 → ∃ sb, PhInitializeStringBuilder n = Ok sb ∧ builder_ok sb [] ∧ n ≤ AllocatedLength sb ≤ n + 1.
Proof.
  intros Hn. unfold PhInitializeStringBuilder. set (m := if negb (Z.land n 1 =? 0) then u64 (n + 1) else n). assert (∃ k, m = 2 * k ∧ n ≤ m ≤ n + 1) as (k & -> & Hk).
  { unfold m. assert (Z.land n 1 = n mod 2) as -> by apply (land_pow2 n 1 ltac:(lia)). pose proof (Z.mod_pos_bound n 2 ltac:(lia)). pose proof (Z.div_mod n 2 ltac:(lia)).
    destruct (Z.eqb_spec (n mod 2) 0); cbn [negb]; [exists (n / 2)|exists (n / 2 + 1)]; rewrite ?u64_small; lia. }
  destruct (create_string k) as (b & -> & Hb); [lia..|]. cbn [mbind result_bind Buffer].
  destruct (store_cells_inside b (take 1 b) [Some 0] 0) as (b' & Hs & Hb' & Hl).
  - exists (drop 1 b). by rewrite take_drop.
  - rewrite length_take. cbn [length]. lia.
  - unfold store. change (Some <$> [0]) with [Some 0]. change (Z.of_nat 0) with 0 in Hs. rewrite Hs. eexists. split; [done|]. split; [constructor; cbn; [done|lia|eapply (begins_prefix b' ([] ++ [Some 0])), Hb']|cbn; lia].
Qed.

(** ** Byte string builders *)

Module BytesFacts.
Import Bytes.

Record bytes_ok (bb : PH_BYTES_BUILDER) (c : block Z) : Prop := {
  bb_length : Length (Bytes_ bb) = Z.of_nat (length c);
  bb_block : AllocatedLength bb = Z.of_nat (length (Buffer (Bytes_ bb))) - 1;
  bb_bytes : begins (Buffer (Bytes_ bb)) (c ++ [Some 0]);
}.

Lemma bytes_bound bb c : bytes_ok bb c → Z.of_nat (length c) ≤ AllocatedLength bb.
Proof. intros [H1 H2 H3%begins_length]. rewrite length_app in H3. cbn [length] in H3. lia. Qed.

Lemma bb_begins bb c : bytes_ok bb c → begins (Buffer (Bytes_ bb)) c.
Proof. intros [_ _ H]. by eapply begins_prefix. Qed.

Lemma create_bytes n : 0 ≤ n < 2 ^ 63 →
  ∃ buffer, PhCreateBytesEx None n = Ok (Bytes n buffer) ∧ Z.of_nat (length buffer) = n + 1.
Proof.
  intros Hn. unfold PhCreateBytesEx. rewrite u64_small by lia.
  set (b := allocate (n + 1)). assert (length b = Z.to_nat (n + 1)) as Hb by apply length_allocate.
  unfold store, store_cells. rewrite decide_True by (cbn; lia). eexists. split; [done|].
  rewrite !length_app, length_take, length_drop, Hb. cbn. lia.
Qed.

Lemma initialize_bytes_ok n : 0 ≤ n < 2 ^ 63 → ∃ bb, PhInitializeBytesBuilder n = Ok bb ∧ bytes_ok bb [] ∧ AllocatedLength bb = n.
Proof.
  intros Hn. unfold PhInitializeBytesBuilder. destruct (create_bytes n Hn) as (b & -> & Hb). cbn [mbind result_bind Buffer].
  destruct (store_cells_inside b (take 1 b) [Some 0] 0) as (b' & Hs & Hb' & Hl).
  - exists (drop 1 b). by rewrite take_drop.
  - rewrite length_take. cbn [length]. lia.
  - unfold store. change (Some <$> [0]) with [Some 0]. change (Z.of_nat 0) with 0 in Hs. rewrite Hs. eexists. split; [done|].
    split; [constructor; cbn; [done|lia|eapply (begins_prefix b' ([] ++ [Some 0])), Hb']|done].
Qed.

(** The next offset that a power of two divides. *)
Lemma align_up n k : 0 ≤ k < 62 → 0 ≤ n < 2 ^ 62 →
  n ≤ ALIGN_UP_BY n (2 ^ k) < n + 2 ^ k ∧ ALIGN_UP_BY n (2 ^ k) mod 2 ^ k = 0.
Proof.
  intros Hk Hn. unfold ALIGN_UP_BY. assert (0 < 2 ^ k) by (apply Z.pow_pos_nonneg; lia).
  assert (2 ^ k ≤ 2 ^ 61) by (apply Z.pow_le_mono_r; lia).
  rewrite (u64_small (n + _)), u64_small by lia. assert (2 ^ k - 1 = Z.ones k) as -> by (rewrite Z.ones_equiv; lia).
  rewrite Z.ldiff_ones_r, Z.shiftl_mul_pow2, Z.shiftr_div_pow2 by lia. rewrite Z.mod_mul by lia.
  pose proof (Z.div_mod (n + 2 ^ k - 1) (2 ^ k) ltac:(lia)). pose proof (Z.mod_pos_bound (n + 2 ^ k - 1) (2 ^ k) ltac:(lia)). split; [|done]. lia.
Qed.

Lemma terminate_bytes_ok bb c buffer d n : bytes_ok bb c → begins buffer d → length buffer = length (Buffer (Bytes_ bb)) →
  n = Z.of_nat (length d) → n ≤ AllocatedLength bb →
  ∃ bb', PhpWriteNullTerminatorBytesBuilder bb n buffer = Ok bb' ∧ bytes_ok bb' d.
Proof.
  intros Hok Hb Hl -> Hn. unfold PhpWriteNullTerminatorBytesBuilder. pose proof (bb_block _ _ Hok) as Hblock.
  destruct (store_cells_end buffer d [Some 0] Hb) as (b & Hs & Hb' & Hl'); [cbn; lia|].
  unfold store. change (Some <$> [0]) with [Some 0]. rewrite Hs. eexists. split; [done|]. constructor; cbn; [done| |done]. by rewrite Hl', Hl.
Qed.

Section Builder.
Context (bb : PH_BYTES_BUILDER) (c : block Z) (Hok : bytes_ok bb c).

Lemma bytes_room_ok n : 0 ≤ n < 2 ^ 63 → AllocatedLength bb < 2 ^ 62 →
  ∃ bb', bytes_room bb n = Ok bb' ∧ bytes_ok bb' c ∧ n ≤ AllocatedLength bb'.
Proof.
  intros Hn Ha. pose proof (bytes_bound _ _ Hok). pose proof (bb_length _ _ Hok) as Hlen. pose proof (bb_block _ _ Hok) as Hblock.
  unfold bytes_room, PhpResizeBytesBuilder. destruct (Z.ltb_spec (AllocatedLength bb) n); [|by exists bb]. rewrite (u64_small (_ * 2)) by lia.
  set (m := if _ <? _ then _ else _). assert (n ≤ m < 2 ^ 63 ∧ AllocatedLength bb ≤ m) as [Hm Hm']
    by (unfold m; destruct (Z.ltb_spec (AllocatedLength bb * 2) n); lia).
  destruct (create_bytes m) as (b & -> & Hb); [lia|]. cbn [mbind result_bind Buffer]. rewrite u64_small, Hlen by lia.
  destruct (copy_cells _ b _ (bb_bytes _ _ Hok)) as (b' & Hload & Hstore & Hb' & Hlb); [rewrite length_app; cbn; lia|].
  rewrite length_app in Hload. cbn [length] in Hload. replace (Z.of_nat (length c) + 1) with (Z.of_nat (length c + 1)) by lia.
  rewrite Hload. cbn [mbind result_bind]. rewrite Hstore. eexists. split; [done|]. split; [constructor|]; cbn; [done|lia|done|lia].
Qed.

(** Room from the aligned offset on, then the bytes or nothing. *)
Lemma append_bytes_ok bytes (n : nat) k : 0 ≤ k < 61 → AllocatedLength bb < 2 ^ 61 → Z.of_nat n < 2 ^ 61 → (0 < n)%nat →
  (∀ x, bytes = Some x → length x = n) → ∃ bb' gap x, PhAppendBytesBuilderEx bb bytes (Z.of_nat n) (2 ^ k) = Ok (bb', Z.of_nat (length (c ++ gap))) ∧
    bytes_ok bb' (c ++ gap ++ x) ∧ Z.of_nat (length (c ++ gap)) mod 2 ^ k = 0 ∧ Z.of_nat (length gap) < 2 ^ k ∧
    length x = n ∧ (∀ y, bytes = Some y → x = Some <$> y).
Proof.
  intros Hk Ha Hn Hn0 Hx. pose proof (bytes_bound _ _ Hok). unfold PhAppendBytesBuilderEx. rewrite (bb_length _ _ Hok).
  assert (0 < 2 ^ k) by (apply Z.pow_pos_nonneg; lia). assert (2 ^ k ≤ 2 ^ 60) by (apply Z.pow_le_mono_r; lia).
  destruct (Z.eqb_spec (Z.of_nat n) 0); [lia|]. destruct (Z.eqb_spec (2 ^ k) 0); [lia|]. cbn [negb].
  destruct (align_up (Z.of_nat (length c)) k) as [Hup Hmod]; [lia..|]. revert Hup Hmod. generalize (ALIGN_UP_BY (Z.of_nat (length c)) (2 ^ k)). intros o Hup Hmod.
  rewrite (u64_small (o + _)) by lia. destruct (bytes_room_ok (o + Z.of_nat n)) as (bb1 & -> & Hok1 & Hr); [lia..|]. cbn [mbind result_bind].
  pose proof (bb_block _ _ Hok1) as Hblock. destruct (begins_extend _ c (Z.to_nat o - length c) (bb_begins _ _ Hok1)) as (gap & Hg & Hb); [lia|].
  assert (o = Z.of_nat (length (c ++ gap))) as -> by (rewrite length_app; lia).
  assert (∃ b x, match bytes with
                 | Some bytes => if Z.of_nat (length bytes) <? Z.of_nat n then Fault
                     else store (Buffer (Bytes_ bb1)) (Z.of_nat (length (c ++ gap))) (take (Z.to_nat (Z.of_nat n)) bytes)
                 | None => Ok (Buffer (Bytes_ bb1))
                 end = Ok b ∧ begins b ((c ++ gap) ++ x) ∧ length b = length (Buffer (Bytes_ bb1)) ∧ length x = n ∧
                 ∀ y, bytes = Some y → x = Some <$> y) as (b & x & -> & Hbx & Hlb & Hlx & Hy).
  { destruct bytes as [y|].
    - rewrite (Hx y eq_refl), Z.ltb_irrefl, Nat2Z.id, firstn_all2 by (rewrite (Hx y eq_refl); done).
      destruct (store_cells_end _ _ (Some <$> y) Hb) as (b & Hs & Hby & Hl); [rewrite length_fmap, (Hx y eq_refl); lia|].
      exists b, (Some <$> y). split_and!; [done|done|done|rewrite length_fmap; by apply Hx|by intros ? [= ->]].
    - destruct (begins_extend _ _ n Hb) as (x & Hlx & Hbx); [lia|]. by exists (Buffer (Bytes_ bb1)), x. }
  cbn [mbind result_bind]. destruct (terminate_bytes_ok bb1 c b _ (Z.of_nat (length (c ++ gap)) + Z.of_nat n) Hok1 Hbx Hlb) as (bb' & -> & H');
    [rewrite (length_app (c ++ gap)); lia|lia|]. cbn [mbind result_bind]. exists bb', gap, x. rewrite <-app_assoc in H'. split_and!; [done|done|done| |done|done].
  rewrite length_app in Hup. lia.
Qed.

(** No alignment is the alignment of a byte. *)
Lemma no_alignment bytes n : AllocatedLength bb < 2 ^ 61 → PhAppendBytesBuilderEx bb bytes n 0 = PhAppendBytesBuilderEx bb bytes n (2 ^ 0).
Proof.
  intros Ha. pose proof (bytes_bound _ _ Hok). unfold PhAppendBytesBuilderEx. rewrite (bb_length _ _ Hok). cbn [Z.eqb negb].
  destruct (align_up (Z.of_nat (length c)) 0) as [Hup _]; [lia..|]. change (negb (2 ^ 0 =? 0)) with true. cbn iota.
  by assert (ALIGN_UP_BY (Z.of_nat (length c)) (2 ^ 0) = Z.of_nat (length c)) as -> by lia.
Qed.

Lemma append_plain_ok x : AllocatedLength bb < 2 ^ 61 → Z.of_nat (length x) < 2 ^ 61 →
  ∃ bb', PhAppendBytesBuilder bb x = Ok bb' ∧ bytes_ok bb' (c ++ (Some <$> x)).
Proof.
  intros Ha Hx. unfold PhAppendBytesBuilder. destruct x as [|y x]; [exists bb; by rewrite app_nil_r|].
  rewrite no_alignment by done. destruct (append_bytes_ok (Some (y :: x)) (length (y :: x)) 0) as (bb' & gap & z & -> & H' & _ & Hg & _ & Hz);
    [lia|done|done|cbn; lia|by intros ? [= <-]|]. exists bb'. split; [done|]. rewrite (Hz _ eq_refl) in H'.
  destruct gap; [done|]. cbn in Hg. lia.
Qed.

Lemma append_format_bytes_ok x : AllocatedLength bb < 2 ^ 61 → Z.of_nat (length x) < 2 ^ 61 →
  ∃ bb', PhAppendFormatBytesBuilder_V bb (Some x) = Ok bb' ∧ bytes_ok bb' (c ++ (Some <$> x)).
Proof.
  intros Ha Hx. pose proof (bytes_bound _ _ Hok). unfold PhAppendFormatBytesBuilder_V. destruct x as [|y x]; [exists bb; by rewrite app_nil_r|].
  rewrite (bb_length _ _ Hok), u64_small by lia. destruct (bytes_room_ok (Z.of_nat (length c) + Z.of_nat (length (y :: x)))) as (bb1 & -> & Hok1 & Hr); [lia..|].
  cbn [mbind result_bind]. rewrite (bb_length _ _ Hok1). pose proof (bb_block _ _ Hok1).
  destruct (store_cells_end _ c (Some <$> y :: x) (bb_begins _ _ Hok1)) as (b & Hs & Hb & Hl); [rewrite length_fmap; lia|].
  unfold store. rewrite Hs. cbn [mbind result_bind]. apply (terminate_bytes_ok bb1 c); [done|done|done| |]; rewrite u64_small; rewrite ?length_app, ?length_fmap; lia.
Qed.

End Builder.
End BytesFacts.

(** ** Properties *)

(** C24. A string builder stands for a text, with a terminator after it and within its
    block, whatever its capacity: it starts empty; appending a text, a character, a run
    of characters or a formatted text, inserting at an index and removing from an index
    or from the end do to the text what their names say; and an append without a text
    reserves room whose characters are unknown until they are written. *)
Theorem string_builder_operations sb c :
  builder_ok sb c → AllocatedLength sb < 2 ^ 62 →
  (∀ n, 0 ≤ n < 2 ^ 62 → ∃ sb', PhInitializeStringBuilder n = Ok sb' ∧ builder_ok sb' [] ∧ n ≤ AllocatedLength sb' ≤ n + 1) ∧
  (∀ x, fits sb (length x) →
     (∃ sb', PhAppendStringBuilderEx sb (Some x) (2 * Z.of_nat (length x)) = Ok sb' ∧ builder_ok sb' (c ++ (Some <$> x))) ∧
     (∃ sb', PhAppendFormatStringBuilder_V sb (Some x) = Ok sb' ∧ builder_ok sb' (c ++ (Some <$> x))) ∧
     (∃ sb' gap, PhAppendStringBuilderEx sb None (2 * Z.of_nat (length x)) = Ok sb' ∧ length gap = length x ∧ builder_ok sb' (c ++ gap)) ∧
     (∀ i, (i ≤ length c)%nat → ∃ sb', PhInsertStringBuilderEx sb (Z.of_nat i) (Some x) (2 * Z.of_nat (length x)) = Ok sb' ∧
        builder_ok sb' (take i c ++ (Some <$> x) ++ drop i c))) ∧
  (∀ x, fits sb 1 → ∃ sb', PhAppendCharStringBuilder sb x = Ok sb' ∧ builder_ok sb' (c ++ [Some x])) ∧
  (∀ x n, fits sb n → ∃ sb', PhAppendCharStringBuilder2 sb x (Z.of_nat n) = Ok sb' ∧ builder_ok sb' (c ++ replicate n (Some x))) ∧
  (∀ i n, (i + n ≤ length c)%nat →
     ∃ sb', PhRemoveStringBuilder sb (Z.of_nat i) (Z.of_nat n) = Ok sb' ∧ builder_ok sb' (take i c ++ drop (i + n) c)) ∧
  (∀ n, (n ≤ length c)%nat → ∃ sb', PhRemoveEndStringBuilder sb (Z.of_nat n) = Ok sb' ∧ builder_ok sb' (take (length c - n) c)).
Proof.
  intros Hok Ha. split_and!.
  - apply initialize_ok.
  - intros x Hx. split_and!; [by apply append_ok|by apply append_format_ok|by apply append_room_ok|]. intros i Hi. by apply builder_insert_ok.
  - intros x Hx. by apply append_char_ok.
  - intros x n Hx. by apply append_char2_ok.
  - intros i n Hi. by apply builder_remove_ok.
  - intros n Hn. by apply remove_end_ok.
Qed.

Lemma string_builder_operations_witness : ∃ sb sb', builder_ok sb [Some 97; Some 98] ∧
  PhInsertStringBuilderEx sb 1 (Some [120; 121]) 4 = Ok sb' ∧ builder_ok sb' [Some 97; Some 120; Some 121; Some 98].
Proof.
  set (sb := StringBuilder 4 (String 4 [Some 97; Some 98; Some 0])). assert (builder_ok sb [Some 97; Some 98]) as Hok.
  { constructor; [reflexivity|reflexivity|by exists []]. }
  destruct (string_builder_operations sb [Some 97; Some 98] Hok) as (_ & H & _); [done|].
  destruct (H [120; 121]) as (_ & _ & _ & Hi); [done|]. destruct (Hi 1%nat) as (sb' & H1 & H2); [cbn; lia|]. by exists sb, sb'.
Defined.

(** A byte string builder stands for bytes with a terminator after them: an append
    puts the bytes, or room whose bytes are unknown, at the offset that it returns, the
    first one past the end that the alignment divides, so that fewer unknown bytes than
    the alignment come in between; without alignment nothing does. An append of no bytes
    changes nothing and returns the end as it is, aligned or not. *)
Theorem bytes_builder_operations bb c :
  BytesFacts.bytes_ok bb c → Bytes.AllocatedLength bb < 2 ^ 61 →
  (∀ n, 0 ≤ n < 2 ^ 63 → ∃ bb', Bytes.PhInitializeBytesBuilder n = Ok bb' ∧ BytesFacts.bytes_ok bb' [] ∧ Bytes.AllocatedLength bb' = n) ∧
  (∀ bytes n k, 0 ≤ k < 61 → (0 < n)%nat → Z.of_nat n < 2 ^ 61 → (∀ x, bytes = Some x → length x = n) →
     ∃ bb' gap x, Bytes.PhAppendBytesBuilderEx bb bytes (Z.of_nat n) (2 ^ k) = Ok (bb', Z.of_nat (length (c ++ gap))) ∧
       BytesFacts.bytes_ok bb' (c ++ gap ++ x) ∧ Z.of_nat (length (c ++ gap)) mod 2 ^ k = 0 ∧ Z.of_nat (length gap) < 2 ^ k ∧
       length x = n ∧ (∀ y, bytes = Some y → x = Some <$> y)) ∧
  (∀ bytes al, Bytes.PhAppendBytesBuilderEx bb bytes 0 al = Ok (bb, Z.of_nat (length c))) ∧
  (∀ x, Z.of_nat (length x) < 2 ^ 61 →
     (∃ bb', Bytes.PhAppendBytesBuilder bb x = Ok bb' ∧ BytesFacts.bytes_ok bb' (c ++ (Some <$> x))) ∧
     (∃ bb', Bytes.PhAppendFormatBytesBuilder_V bb (Some x) = Ok bb' ∧ BytesFacts.bytes_ok bb' (c ++ (Some <$> x)))).
Proof.
  intros Hok Ha. split_and!.
  - apply BytesFacts.initialize_bytes_ok.
  - intros bytes n k Hk Hn0 Hn Hx. by apply BytesFacts.append_bytes_ok.
  - intros bytes al. unfold Bytes.PhAppendBytesBuilderEx. by rewrite (BytesFacts.bb_length _ _ Hok).
  - intros x Hx. split; [by apply BytesFacts.append_plain_ok|by apply BytesFacts.append_format_bytes_ok].
Qed.

Lemma bytes_builder_operations_witness : ∃ bb, Bytes.PhAppendBytesBuilderEx (Bytes.BytesBuilder 4 (Bytes.Bytes 1 [Some 7; Some 0; None; None; None])) (Some [8; 9]) 2 4
    = Ok (bb, 4) ∧ Bytes.Length (Bytes.Bytes_ bb) = 6.
Proof.
  destruct (bytes_builder_operations (Bytes.BytesBuilder 4 (Bytes.Bytes 1 [Some 7; Some 0; None; None; None])) [Some 7]) as (_ & H & _);
    [constructor; [done|done|by exists [None; None; None]]|done|].
  destruct (H (Some [8; 9]) 2%nat 2) as (bb & gap & x & H1 & H2 & _ & _ & H3 & _); [lia|lia|done|by intros ? [= <-]|].
  vm_compute in H1. injection H1 as <- _. eexists. split; [reflexivity|]. reflexivity.
Defined.
