(* ===== verification/Callback.v ===== *)
(** Callback objects (src/phlib/basesup.c, src/phlib/include/phbasesup.h): lists of
    registered functions that any thread may invoke, with a reader-writer lock and a
    condition variable. The lock is what [RwLock] says a reader-writer lock is, which the
    queued lock implements; the condition variable is that of [Condition], point by
    point. *)

From S2P Require Import Prelude Concurrency RwLock QueuedLock Condition.

(** ** Data *)

Record PH_CALLBACK_REGISTRATION := Registration {
  Function : Z;
  Context_ : Z;
  Busy : Z;
  Unregistering : bool;
  RegistrationFlags : Z;
}.

Definition with_Busy (r : PH_CALLBACK_REGISTRATION) v := Registration (Function r) (Context_ r) v (Unregistering r) (RegistrationFlags r).
Definition with_Unregistering (r : PH_CALLBACK_REGISTRATION) v := Registration (Function r) (Context_ r) (Busy r) v (RegistrationFlags r).

(** How many threads have shared access, and whether one has exclusive access. *)
Record rw_lock := RwLock { Sharers : Z; Exclusive : bool }.

(** The callback object, with its list as the addresses of the registrations, and the
    registrations whose storage is in use. *)
Record PH_CALLBACK := Callback {
  ListHead : list Z;
  ListLock : rw_lock;
  BusyCondition : QueuedLock.state;
  Registrations : gmap Z PH_CALLBACK_REGISTRATION;
}.

Definition with_ListHead (σ : PH_CALLBACK) v := Callback v (ListLock σ) (BusyCondition σ) (Registrations σ).
Definition with_ListLock (σ : PH_CALLBACK) v := Callback (ListHead σ) v (BusyCondition σ) (Registrations σ).
Definition with_BusyCondition (σ : PH_CALLBACK) v := Callback (ListHead σ) (ListLock σ) v (Registrations σ).
Definition with_Registrations (σ : PH_CALLBACK) v := Callback (ListHead σ) (ListLock σ) (BusyCondition σ) v.

Definition PhInitializeCallback : PH_CALLBACK := Callback [] (RwLock 0 false) PhInitializeCondition ∅.

(** ** The operations *)

(** [PhWaitForCondition] with the list's lock. *)
Inductive condition_wait :=
  | condition_read
  | condition_push (value : Z)
  | condition_optimize (p : traverse)
  | condition_release
  | condition_block (p : block)
  | condition_acquire.

Inductive register := register_acquire | register_insert | register_release.

Inductive unregister :=
  | unregister_mark
  | unregister_acquire
  | unregister_check
  | unregister_wait (p : condition_wait)
  | unregister_remove
  | unregister_release.

(** The entry that the loop is at is a registration; the head of the list ends it. *)
Inductive invoke :=
  | invoke_acquire
  | invoke_first
  | invoke_check (r : Z)
  | invoke_increment (r : Z)
  | invoke_unlock (r : Z)
  | invoke_call (r : Z)
  | invoke_lock (r : Z)
  | invoke_decrement (r : Z)
  | invoke_test (r : Z) (busy : Z)
  | invoke_pulse (r : Z) (p : pulse)
  | invoke_next (r : Z)
  | invoke_release.

(** What a thread is doing; [Faulted] is an access to a registration whose storage is
    not in use, [ConditionFaulted] a fault inside of the condition variable. *)
Inductive activity :=
  | Idle
  | Registering (p : register)
  | UnregisteringCallback (p : unregister)
  | Invoking (p : invoke)
  | Faulted
  | ConditionFaulted (held : access).

Definition acquire_shared (σ : PH_CALLBACK) (d : activity) : list (PH_CALLBACK * activity) :=
  if Exclusive (ListLock σ) then [] else [(with_ListLock σ (RwLock (Sharers (ListLock σ) + 1) false), d)].

Definition acquire_exclusive (σ : PH_CALLBACK) (d : activity) : list (PH_CALLBACK * activity) :=
  if Exclusive (ListLock σ) || (0 <? Sharers (ListLock σ)) then [] else [(with_ListLock σ (RwLock 0 true), d)].

Definition release_shared (σ : PH_CALLBACK) (d : activity) : list (PH_CALLBACK * activity) :=
  [(with_ListLock σ (RwLock (Sharers (ListLock σ) - 1) (Exclusive (ListLock σ))), d)].

Definition release_exclusive (σ : PH_CALLBACK) (d : activity) : list (PH_CALLBACK * activity) :=
  [(with_ListLock σ (RwLock (Sharers (ListLock σ)) false), d)].

(** An access to a registration. *)
Definition read_registration (σ : PH_CALLBACK) (r : Z) (k : PH_CALLBACK_REGISTRATION → activity) : list (PH_CALLBACK * activity) :=
  match Registrations σ !! r with
  | Some x => [(σ, k x)]
  | None => [(σ, Faulted)]
  end.

Definition write_registration (σ : PH_CALLBACK) (r : Z) (f : PH_CALLBACK_REGISTRATION → PH_CALLBACK_REGISTRATION)
    (k : PH_CALLBACK_REGISTRATION → activity) : list (PH_CALLBACK * activity) :=
  match Registrations σ !! r with
  | Some x => [(with_Registrations σ (<[r := f x]> (Registrations σ)), k x)]
  | None => [(σ, Faulted)]
  end.

(** A step of the condition variable, while the thread has [held] access. *)
Definition condition_step {P} (σ : PH_CALLBACK) (held : access) (go : P → activity) (done : activity)
    (l : list (QueuedLock.state * QueuedLock.outcome P)) : list (PH_CALLBACK * activity) :=
  (λ '(c, o), (with_BusyCondition σ c,
     match o with
     | QueuedLock.Continue p => go p
     | QueuedLock.Return _ => done
     | QueuedLock.Fault => ConditionFaulted held
     end)) <$> l.

Definition PhRegisterCallbackEx (σ : PH_CALLBACK) (r : Z) (p : register) : list (PH_CALLBACK * activity) :=
  match p with
  | register_acquire => acquire_exclusive σ (Registering register_insert)
  | register_insert => [(with_ListHead σ (ListHead σ ++ [r]), Registering register_release)]
  | register_release => release_exclusive σ Idle
  end.

(** The fields that are set before the lock is acquired. *)
Definition fill_registration (Function Context_ Flags : Z) : PH_CALLBACK_REGISTRATION := Registration Function Context_ 0 false Flags.

(** The wait, with the thread's wait block [wb]. *)
Definition wait_step (σ : PH_CALLBACK) (wb : Z) (p : condition_wait) : list (PH_CALLBACK * activity) :=
  let waiting p := UnregisteringCallback (unregister_wait p) in
  match p with
  | condition_read => [(σ, waiting (condition_push (Value (BusyCondition σ))))]
  | condition_push value =>
      condition_step σ ExclusiveAccess waiting (waiting condition_release)
        (PhpPushQueuedWaitBlock (BusyCondition σ) value true wb
          (λ (optimize : bool) currentValue,
             if optimize then map_outcome condition_optimize (λ _, QueuedLock.Continue condition_release) (optimize_loop true currentValue)
             else QueuedLock.Continue condition_release)
          (λ value, QueuedLock.Continue (condition_push value)))
  | condition_optimize p =>
      condition_step σ ExclusiveAccess (λ p, waiting (condition_optimize p)) (waiting condition_release)
        (traverse_step true false (BusyCondition σ) p)
  | condition_release => release_exclusive σ (waiting (condition_block (block_start 0 false)))
  | condition_block p =>
      '(c, o) ← PhpBlockOnQueuedWaitBlock (BusyCondition σ) wb p;
      match o with
      | QueuedLock.Return _ => [(with_BusyCondition σ (with_Blocks c (delete wb (Blocks c))), waiting condition_acquire)]
      | QueuedLock.Continue p => [(with_BusyCondition σ c, waiting (condition_block p))]
      | QueuedLock.Fault => [(with_BusyCondition σ c, ConditionFaulted NoAccess)]
      end
  | condition_acquire => acquire_exclusive σ (UnregisteringCallback unregister_check)
  end.

(** When the function returns, the storage of the registration is no longer in use. *)
Definition PhUnregisterCallback (σ : PH_CALLBACK) (r : Z) (p : unregister) : list (PH_CALLBACK * activity) :=
  match p with
  | unregister_mark => write_registration σ r (λ x, with_Unregistering x true) (λ _, UnregisteringCallback unregister_acquire)
  | unregister_acquire => acquire_exclusive σ (UnregisteringCallback unregister_check)
  | unregister_check =>
      read_registration σ r (λ x,
        UnregisteringCallback (if negb (Busy x =? 0) then unregister_wait condition_read else unregister_remove))
  | unregister_wait p => wait_step σ r p
  | unregister_remove => [(with_ListHead σ (filter (.≠ r) (ListHead σ)), UnregisteringCallback unregister_release)]
  | unregister_release =>
      prod_map (λ σ, with_Registrations σ (delete r (Registrations σ))) id <$> release_exclusive σ Idle
  end.

(** The entry after another, if there is one before the head. *)
Fixpoint entry_after (l : list Z) (r : Z) : option Z :=
  match l with
  | [] => None
  | x :: l => if x =? r then head l else entry_after l r
  end.

(** The head of the loop. *)
Definition invoke_loop (entry : option Z) : activity :=
  Invoking (match entry with Some r => invoke_check r | None => invoke_release end).

Definition PhInvokeCallback (σ : PH_CALLBACK) (p : invoke) : list (PH_CALLBACK * activity) :=
  match p with
  | invoke_acquire => acquire_shared σ (Invoking invoke_first)
  | invoke_first => [(σ, invoke_loop (head (ListHead σ)))]
  | invoke_check r => read_registration σ r (λ x, Invoking (if Unregistering x then invoke_next r else invoke_increment r))
  | invoke_increment r => write_registration σ r (λ x, with_Busy x (i32 (Busy x + 1))) (λ _, Invoking (invoke_unlock r))
  | invoke_unlock r => release_shared σ (Invoking (invoke_call r))
  | invoke_call r => read_registration σ r (λ _, Invoking (invoke_lock r))
  | invoke_lock r => acquire_shared σ (Invoking (invoke_decrement r))
  | invoke_decrement r =>
      write_registration σ r (λ x, with_Busy x (i32 (Busy x - 1))) (λ x, Invoking (invoke_test r (i32 (Busy x - 1))))
  | invoke_test r busy =>
      read_registration σ r (λ x, Invoking (if Unregistering x && (busy =? 0) then invoke_pulse r pulse_check else invoke_next r))
  | invoke_pulse r p =>
      condition_step σ SharedAccess (λ p, Invoking (invoke_pulse r p)) (Invoking (invoke_next r))
        (PhfPulseAllCondition (BusyCondition σ) p)
  | invoke_next r => [(σ, if decide (r ∈ ListHead σ) then invoke_loop (entry_after (ListHead σ) r) else Faulted)]
  | invoke_release => release_shared σ Idle
  end.

(** ** Threads

    Every thread has the storage of one registration, which it registers and later
    unregisters, and in between it invokes the callback; the functions that are called
    do not use the callback object themselves. *)

Record thread := Thread { Address : Z; Doing : activity }.

Definition act (σ : PH_CALLBACK) (a : Z) (d : activity) : list (PH_CALLBACK * activity) :=
  match d with
  | Idle =>
      (σ, Invoking invoke_acquire) ::
      match Registrations σ !! a with
      | None => [(with_Registrations σ (<[a := fill_registration a a 0]> (Registrations σ)), Registering register_acquire)]
      | Some _ => [(σ, UnregisteringCallback unregister_mark)]
      end
  | Registering p => PhRegisterCallbackEx σ a p
  | UnregisteringCallback p => PhUnregisterCallback σ a p
  | Invoking p => PhInvokeCallback σ p
  | Faulted | ConditionFaulted _ => []
  end.

Definition next (σ : PH_CALLBACK) (t : thread) : list (PH_CALLBACK * thread) :=
  prod_map id (Thread (Address t)) <$> act σ (Address t) (Doing t).

Definition start (address : nat → Z) (n : nat) : system :=
  System PhInitializeCallback ((λ i, Thread (address i) Idle) <$> seq 0 n).
