(* ===== verification/CallbackTheorems.v ===== *)
(** Callback objects: no function of a registration runs, and no thread touches the
    registration, once it is unregistered; what goes wrong when two threads pulse the
    condition variable at once. *)

From S2P Require Import Prelude Concurrency RwLock QueuedLock QueuedLockSteps QueuedLockTheorems Condition Callback.

(** ** What a thread holds *)

Definition wait_held (p : condition_wait) : access :=
  match p with
  | condition_read | condition_push _ | condition_optimize _ | condition_release => ExclusiveAccess
  | condition_block _ | condition_acquire => NoAccess
  end.

Definition held (d : activity) : access :=
  match d with
  | Idle | Faulted => NoAccess
  | Registering register_acquire => NoAccess
  | Registering _ => ExclusiveAccess
  | UnregisteringCallback (unregister_mark | unregister_acquire) => NoAccess
  | UnregisteringCallback (unregister_wait p) => wait_held p
  | UnregisteringCallback _ => ExclusiveAccess
  | Invoking (invoke_acquire | invoke_call _ | invoke_lock _) => NoAccess
  | Invoking _ => SharedAccess
  | ConditionFaulted h => h
  end.

(** The registration that an invocation is at. *)
Definition pointer (d : activity) : option Z :=
  match d with
  | Invoking (invoke_check r | invoke_increment r | invoke_unlock r | invoke_call r | invoke_lock r | invoke_decrement r
             | invoke_test r _ | invoke_pulse r _ | invoke_next r) => Some r
  | _ => None
  end.

(** The registration that an invocation has marked as busy. *)
Definition busy_with (d : activity) : option Z :=
  match d with
  | Invoking (invoke_unlock r | invoke_call r | invoke_lock r | invoke_decrement r) => Some r
  | _ => None
  end.

(** The function of a registration is in execution, or about to be called. *)
Definition executes (d : activity) (r : Z) : Prop := d = Invoking (invoke_call r) ∨ d = Invoking (invoke_lock r).

Definition weight_of (a : access) (t : thread) : Z := if decide (held (Doing t) = a) then 1 else 0.
Definition busy_weight (r : Z) (t : thread) : Z := if decide (busy_with (Doing t) = Some r) then 1 else 0.

Lemma weight_range a t : 0 ≤ weight_of a t ≤ 1.
Proof. unfold weight_of. case_decide; lia. Qed.

Lemma busy_range r t : 0 ≤ busy_weight r t ≤ 1.
Proof. unfold busy_weight. case_decide; lia. Qed.

(** ** The invariant *)

(** How far a thread's own registration is. *)
Definition own_ok (σ : PH_CALLBACK) (a : Z) (d : activity) : Prop :=
  match d with
  | Registering (register_acquire | register_insert) => a ∈ dom (Registrations σ) ∧ a ∉ ListHead σ
  | Registering register_release => a ∈ ListHead σ
  | UnregisteringCallback unregister_release => a ∈ dom (Registrations σ) ∧ a ∉ ListHead σ
  | UnregisteringCallback _ => a ∈ ListHead σ
  | Idle | Invoking _ | ConditionFaulted _ => a ∈ dom (Registrations σ) → a ∈ ListHead σ
  | Faulted => False
  end.

Record thread_ok (σ : PH_CALLBACK) (t : thread) : Prop := {
  ok_own : own_ok σ (Address t) (Doing t);
  ok_pointer r : pointer (Doing t) = Some r → r ∈ ListHead σ;
}.

Record inv (n : nat) (address : nat → Z) (s : system) : Prop := {
  inv_addresses : Address <$> threads s = address <$> seq 0 n;
  inv_shared : Sharers (ListLock (shared s)) = total (weight_of SharedAccess) (threads s);
  inv_exclusive : total (weight_of ExclusiveAccess) (threads s) = Z.b2z (Exclusive (ListLock (shared s)));
  inv_excluded : Exclusive (ListLock (shared s)) = true → Sharers (ListLock (shared s)) = 0;
  inv_listed r : r ∈ ListHead (shared s) → r ∈ dom (Registrations (shared s));
  inv_nodup : NoDup (ListHead (shared s));
  inv_busy r x : Registrations (shared s) !! r = Some x → Busy x = total (busy_weight r) (threads s);
  inv_removing i t : threads s !! i = Some t → Doing t = UnregisteringCallback unregister_remove →
    total (busy_weight (Address t)) (threads s) = 0;
  inv_threads i t : threads s !! i = Some t → thread_ok (shared s) t;
}.

(** What a step of a thread keeps for the others: nothing that they have or are at goes
    away. *)
Definition others_ok (a : Z) (σ σ' : PH_CALLBACK) (ts : list thread) (i : nat) : Prop :=
  ∀ j u, j ≠ i → ts !! j = Some u → Address u ≠ a → thread_ok σ u → thread_ok σ' u.

(** Changes to the object that leave the list and the set of registrations alone. *)
Lemma others_same_list a σ σ' ts i :
  ListHead σ' = ListHead σ → dom (Registrations σ') = dom (Registrations σ) → others_ok a σ σ' ts i.
Proof.
  intros HL HD j u _ _ _ [Ho Hp]. constructor; [|by rewrite HL].
  unfold own_ok in *. by rewrite HL, HD.
Qed.

(** Changes to what concerns one's own registration. *)
Lemma others_own a σ σ' ts i :
  (∀ r, r ≠ a → (r ∈ ListHead σ' ↔ r ∈ ListHead σ)) →
  (∀ r, r ≠ a → (r ∈ dom (Registrations σ') ↔ r ∈ dom (Registrations σ))) →
  (a ∈ ListHead σ → a ∈ ListHead σ' ∨ ∀ j u, j ≠ i → ts !! j = Some u → pointer (Doing u) ≠ Some a) →
  others_ok a σ σ' ts i.
Proof.
  intros HL HD Ha j u Hj Hu Hua [Ho Hp]. constructor.
  - unfold own_ok in *. repeat case_match; rewrite ?HL, ?HD; done.
  - intros r Hr. destruct (decide (r = a)) as [->|Hra]; [|by apply HL, Hp].
    destruct (Ha (Hp a Hr)) as [?|Hn]; [done|]. by destruct (Hn j u Hj Hu).
Qed.

Section Step.
Context (n : nat) (address : nat → Z) (Haddr : Addresses n address) (Hn : Z.of_nat n < 2 ^ 31).
Context (σ : PH_CALLBACK) (ts : list thread) (i : nat) (t : thread).
Context (HI : inv n address (System σ ts)) (Ht : ts !! i = Some t).

Lemma threads_length : length ts = n.
Proof. pose proof (f_equal length (inv_addresses _ _ _ HI)) as H. rewrite !length_fmap, length_seq in H. done. Qed.

Lemma callback_other_address j u : j ≠ i → ts !! j = Some u → Address u ≠ Address t.
Proof.
  intros Hj Hu E. apply Hj. assert (∀ k v, ts !! k = Some v → Address v = address k ∧ (k < n)%nat) as H.
  { intros k v Hv. pose proof (lookup_lt_Some _ _ _ Hv) as Hlt. rewrite threads_length in Hlt. split; [|done].
    assert ((Address <$> ts) !! k = Some (Address v)) as Hk by (by rewrite list_lookup_fmap, Hv).
    pose proof (inv_addresses _ _ _ HI) as HA. cbn [threads] in HA. rewrite HA in Hk. rewrite list_lookup_fmap, lookup_seq_lt in Hk by done. by injection Hk. }
  destruct (H j u Hu) as [Hj1 Hj2]. destruct (H i t Ht) as [Hi1 Hi2]. apply (address_inj j i Hj2 Hi2). congruence.
Qed.

(** A thread with exclusive access, and the others. *)
Lemma exclusive_alone : held (Doing t) = ExclusiveAccess →
  Exclusive (ListLock σ) = true ∧ ∀ j u, j ≠ i → ts !! j = Some u → held (Doing u) = NoAccess.
Proof.
  intros Hh. assert (weight_of ExclusiveAccess t = 1) as Hw by (unfold weight_of; by rewrite decide_True).
  pose proof (inv_exclusive _ _ _ HI) as Hx. pose proof (inv_shared _ _ _ HI) as Hs. pose proof (inv_excluded _ _ _ HI) as He. cbn [shared threads] in *.
  pose proof (total_elem (weight_of ExclusiveAccess) ts i t ltac:(apply weight_range) Ht) as Ht1.
  assert (Exclusive (ListLock σ) = true) as E by (destruct (Exclusive (ListLock σ)); [done|cbn in Hx; lia]). split; [done|].
  intros j u Hj Hu. rewrite E in Hx. cbn [Z.b2z] in Hx. rewrite (He E) in Hs.
  destruct (held (Doing u)) eqn:Hhu; [done|exfalso..].
  - pose proof (total_elem (weight_of SharedAccess) ts j u ltac:(apply weight_range) Hu) as Hu1.
    unfold weight_of in Hu1 at 1. rewrite decide_True in Hu1 by done. lia.
  - pose proof (total_two (weight_of ExclusiveAccess) ts i j t u ltac:(apply weight_range) ltac:(done) Ht Hu) as Hu1.
    unfold weight_of in Hu1 at 2. rewrite decide_True in Hu1 by done. lia.
Qed.

Lemma shared_no_exclusive : held (Doing t) = SharedAccess → Exclusive (ListLock σ) = false.
Proof.
  intros Hh. pose proof (inv_shared _ _ _ HI) as Hs. pose proof (inv_excluded _ _ _ HI) as He. cbn [shared threads] in *.
  pose proof (total_elem (weight_of SharedAccess) ts i t ltac:(apply weight_range) Ht) as Ht1.
  unfold weight_of in Ht1 at 1. rewrite decide_True in Ht1 by done. destruct (Exclusive (ListLock σ)); [|done]. rewrite (He eq_refl) in Hs. lia.
Qed.

(** The lock after a step that changes what the thread holds. *)
Definition lock_ok (σ' : PH_CALLBACK) (d' : activity) : Prop :=
  let t' := Thread (Address t) d' in
  Sharers (ListLock σ') = Sharers (ListLock σ) - weight_of SharedAccess t + weight_of SharedAccess t' ∧
  Z.b2z (Exclusive (ListLock σ')) = Z.b2z (Exclusive (ListLock σ)) - weight_of ExclusiveAccess t + weight_of ExclusiveAccess t' ∧
  (Exclusive (ListLock σ') = true → Sharers (ListLock σ') = 0).

(** The invariant after a step. *)
Lemma inv_step σ' d' :
  lock_ok σ' d' →
  others_ok (Address t) σ σ' ts i →
  thread_ok σ' (Thread (Address t) d') →
  (∀ r, r ∈ ListHead σ' → r ∈ dom (Registrations σ')) → NoDup (ListHead σ') →
  (∀ r x', Registrations σ' !! r = Some x' →
     Busy x' = total (busy_weight r) ts - busy_weight r t + busy_weight r (Thread (Address t) d')) →
  (∀ r, busy_with d' = Some r → busy_with (Doing t) ≠ Some r → held (Doing t) = SharedAccess) →
  (d' = UnregisteringCallback unregister_remove → total (busy_weight (Address t)) ts = 0) →
  inv n address (System σ' (<[i := Thread (Address t) d']> ts)).
Proof.
  intros (HS & HX & HXS) Ho Hok HL HN HB Hinc Hrem.
  constructor; cbn [shared threads]; try done.
  - rewrite list_fmap_insert. cbn [Address]. rewrite list_insert_id; [apply (inv_addresses _ _ _ HI)|]. by rewrite list_lookup_fmap, Ht.
  - rewrite (total_insert _ _ _ _ _ Ht), HS. pose proof (inv_shared _ _ _ HI) as H. cbn [shared threads] in H. by rewrite <-H.
  - rewrite (total_insert _ _ _ _ _ Ht), HX. pose proof (inv_exclusive _ _ _ HI) as H. cbn [shared threads] in H. by rewrite H.
  - intros r x' Hx'. rewrite (total_insert _ _ _ _ _ Ht). by apply HB.
  - intros j u Hu Hd. rewrite (total_insert _ _ _ _ _ Ht). destruct (decide (j = i)) as [->|Hj].
    + rewrite list_lookup_insert_eq in Hu by (by eapply lookup_lt_Some). injection Hu as <-. cbn [Address Doing] in *. subst d'.
      rewrite (Hrem eq_refl). pose proof (total_elem (busy_weight (Address t)) ts i t ltac:(apply busy_range) Ht). rewrite (Hrem eq_refl) in H.
      pose proof (busy_range (Address t) t). unfold busy_weight at 2. cbn [Doing busy_with]. rewrite decide_False by done. lia.
    + rewrite list_lookup_insert_ne in Hu by done. pose proof (inv_removing _ _ _ HI j u Hu Hd) as H0. cbn [threads] in H0.
      rewrite H0. pose proof (total_elem (busy_weight (Address u)) ts i t ltac:(apply busy_range) Ht) as H1. rewrite H0 in H1.
      pose proof (busy_range (Address u) t). assert (busy_weight (Address u) t = 0) as E by lia. rewrite E.
      unfold busy_weight. cbn [Doing]. case_decide as Hb; [|lia]. exfalso.
      assert (busy_with (Doing t) ≠ Some (Address u)) as Hb' by (intros Hb'; unfold busy_weight in E; by rewrite decide_True in E).
      specialize (Hinc _ Hb Hb').
      assert (held (Doing u) = ExclusiveAccess) as Hx by (by rewrite Hd).
      pose proof (inv_exclusive _ _ _ HI) as Hex. cbn [shared threads] in Hex. rewrite (shared_no_exclusive Hinc) in Hex. cbn [Z.b2z] in Hex.
      pose proof (total_elem (weight_of ExclusiveAccess) ts j u ltac:(apply weight_range) Hu) as Hu1.
      unfold weight_of in Hu1 at 1. rewrite decide_True in Hu1 by done. lia.
  - intros j u Hu. destruct (decide (j = i)) as [->|Hj].
    + rewrite list_lookup_insert_eq in Hu by (by eapply lookup_lt_Some). injection Hu as <-. done.
    + rewrite list_lookup_insert_ne in Hu by done. apply (Ho j u Hj Hu (callback_other_address j u Hj Hu)). by apply (inv_threads _ _ _ HI j).
Qed.

Lemma removing_now : Doing t = UnregisteringCallback unregister_remove → total (busy_weight (Address t)) ts = 0.
Proof. apply (inv_removing _ _ _ HI i t Ht). Qed.

(** ** The lock *)

Lemma lock_same σ' d' : ListLock σ' = ListLock σ → held d' = held (Doing t) → lock_ok σ' d'.
Proof.
  intros HL Hh. unfold lock_ok. rewrite HL. unfold weight_of. cbn [Doing]. rewrite Hh.
  split; [lia|]. split; [lia|]. apply (inv_excluded _ _ _ HI).
Qed.

Lemma lock_acquire_shared σ' d' d : (σ', d') ∈ acquire_shared σ d → held (Doing t) = NoAccess → held d = SharedAccess →
  d' = d ∧ ListHead σ' = ListHead σ ∧ Registrations σ' = Registrations σ ∧ lock_ok σ' d'.
Proof.
  unfold acquire_shared. intros Hin Hh Hd. destruct (Exclusive (ListLock σ)) eqn:E; in_list Hin. injection Hin as -> ->.
  split_and!; [done..|]. unfold lock_ok, weight_of. cbn [Doing ListLock with_ListLock Sharers Exclusive]. rewrite Hh, Hd, E.
  repeat (case_decide; try done). split; [lia|]. split; [cbn; lia|done].
Qed.

Lemma lock_acquire_exclusive σ' d' d : (σ', d') ∈ acquire_exclusive σ d → held (Doing t) = NoAccess → held d = ExclusiveAccess →
  d' = d ∧ ListHead σ' = ListHead σ ∧ Registrations σ' = Registrations σ ∧ lock_ok σ' d'.
Proof.
  unfold acquire_exclusive. intros Hin Hh Hd. destruct (Exclusive (ListLock σ)) eqn:E; cbn [orb] in Hin; [in_list Hin|].
  destruct (Z.ltb_spec 0 (Sharers (ListLock σ))) as [|Hle]; in_list Hin. injection Hin as -> ->.
  split_and!; [done..|]. pose proof (inv_shared _ _ _ HI) as Hs. cbn [shared threads] in Hs.
  pose proof (total_nonneg (weight_of SharedAccess) ts ltac:(apply weight_range)).
  unfold lock_ok, weight_of. cbn [Doing ListLock with_ListLock Sharers Exclusive]. rewrite Hh, Hd, E.
  repeat (case_decide; try done). split; [lia|]. split; [cbn; lia|done].
Qed.

Lemma lock_release_shared σ' d' d : (σ', d') ∈ release_shared σ d → held (Doing t) = SharedAccess → held d = NoAccess →
  d' = d ∧ ListHead σ' = ListHead σ ∧ Registrations σ' = Registrations σ ∧ lock_ok σ' d'.
Proof.
  unfold release_shared. intros Hin Hh Hd. in_list Hin. injection Hin as -> ->. split_and!; [done..|].
  unfold lock_ok, weight_of. cbn [Doing ListLock with_ListLock Sharers Exclusive]. rewrite Hh, Hd, (shared_no_exclusive Hh).
  repeat (case_decide; try done). split; [lia|]. split; [cbn; lia|done].
Qed.

Lemma lock_release_exclusive σ' d' d : (σ', d') ∈ release_exclusive σ d → held (Doing t) = ExclusiveAccess → held d = NoAccess →
  d' = d ∧ ListHead σ' = ListHead σ ∧ Registrations σ' = Registrations σ ∧ lock_ok σ' d'.
Proof.
  unfold release_exclusive. intros Hin Hh Hd. in_list Hin. injection Hin as -> ->. split_and!; [done..|].
  destruct (exclusive_alone Hh) as [E _].
  unfold lock_ok, weight_of. cbn [Doing ListLock with_ListLock Sharers Exclusive]. rewrite Hh, Hd, E.
  repeat (case_decide; try done). cbn [Z.b2z]. split; [lia|]. split; [cbn; lia|done].
Qed.

(** ** The kinds of steps *)

(** The list and the registrations stay. *)
Lemma inv_same σ' d' :
  ListHead σ' = ListHead σ → Registrations σ' = Registrations σ → lock_ok σ' d' → busy_with d' = busy_with (Doing t) →
  own_ok σ (Address t) d' → (∀ r, pointer d' = Some r → r ∈ ListHead σ) →
  (d' = UnregisteringCallback unregister_remove → total (busy_weight (Address t)) ts = 0) →
  inv n address (System σ' (<[i := Thread (Address t) d']> ts)).
Proof.
  intros HL HR Hlock Hb Ho Hp Hrem. apply inv_step; [done| | | | | | |done].
  - by apply others_same_list; rewrite ?HL, ?HR.
  - constructor; cbn [Address Doing]; [|by rewrite HL]. unfold own_ok in *. by rewrite HL, HR.
  - intros r. rewrite HL, HR. apply (inv_listed _ _ _ HI).
  - rewrite HL. apply (inv_nodup _ _ _ HI).
  - intros r x. rewrite HR. intros Hx. rewrite (inv_busy _ _ _ HI r x Hx). cbn [threads].
    assert (busy_weight r (Thread (Address t) d') = busy_weight r t) as -> by (unfold busy_weight; cbn [Doing]; by rewrite Hb). lia.
  - intros r. rewrite Hb. by intros ? [].
Qed.

(** The registration is in the list, and its fields change. *)
Lemma inv_fields σ' d' r f :
  ListHead σ' = ListHead σ → Registrations σ' = alter f r (Registrations σ) → lock_ok σ' d' →
  own_ok σ (Address t) d' → (∀ r, pointer d' = Some r → r ∈ ListHead σ) →
  (∀ r', busy_with d' = Some r' → busy_with (Doing t) ≠ Some r' → held (Doing t) = SharedAccess) →
  d' ≠ UnregisteringCallback unregister_remove →
  (∀ r', r' ≠ r → busy_weight r' (Thread (Address t) d') = busy_weight r' t) →
  (∀ x, Busy x = total (busy_weight r) ts → Busy (f x) = total (busy_weight r) ts - busy_weight r t + busy_weight r (Thread (Address t) d')) →
  inv n address (System σ' (<[i := Thread (Address t) d']> ts)).
Proof.
  intros HL HR Hlock Ho Hp Hinc Hnr Hother Hr. assert (dom (Registrations σ') = dom (Registrations σ)) as HD by (by rewrite HR, dom_alter_L).
  apply inv_step; [done| | | | | |done|done].
  - by apply others_same_list.
  - constructor; cbn [Address Doing]; [|by rewrite HL]. unfold own_ok in *. by rewrite HL, HD.
  - intros r'. rewrite HL, HD. apply (inv_listed _ _ _ HI).
  - rewrite HL. apply (inv_nodup _ _ _ HI).
  - intros r' x. rewrite HR. destruct (decide (r' = r)) as [->|Hne].
    + rewrite lookup_alter_eq, fmap_Some. intros (x0 & Hx0 & ->). apply Hr. apply (inv_busy _ _ _ HI r x0 Hx0).
    + rewrite lookup_alter_ne by done. intros Hx. rewrite (inv_busy _ _ _ HI r' x Hx), Hother by done. cbn [threads]. lia.
Qed.

(** A pointer is held by access or by the busy count. *)
Lemma pointer_held d r : pointer d = Some r → held d = SharedAccess ∨ busy_with d = Some r.
Proof. destruct d as [|[]|[]|[]| |]; cbn; intros [= ->]; auto. Qed.

Lemma busy_pointer d r : busy_with d = Some r → pointer d = Some r.
Proof. destruct d as [|[]|[]|[]| |]; cbn; intros [= ->]; auto. Qed.

Lemma unlisted_not_busy r : r ∉ ListHead σ → total (busy_weight r) ts = 0.
Proof.
  intros Hr. pose proof (total_nonneg (busy_weight r) ts ltac:(apply busy_range)).
  destruct (decide (0 < total (busy_weight r) ts)) as [Hp|]; [|lia]. exfalso. apply total_pos in Hp as (j & u & Hu & Hw).
  unfold busy_weight in Hw. case_decide as Hb; [|lia]. apply Hr. apply (ok_pointer _ _ (inv_threads _ _ _ HI j u Hu)). by apply busy_pointer.
Qed.

(** ** The functions *)

Lemma own_now : own_ok σ (Address t) (Doing t).
Proof. apply (inv_threads _ _ _ HI i t Ht). Qed.

Lemma pointer_now r : pointer (Doing t) = Some r → r ∈ ListHead σ.
Proof. apply (inv_threads _ _ _ HI i t Ht). Qed.

Lemma listed_lookup r : r ∈ ListHead σ → ∃ x, Registrations σ !! r = Some x ∧ Busy x = total (busy_weight r) ts.
Proof. intros [x Hx]%(inv_listed _ _ _ HI)%elem_of_dom. exists x. split; [done|]. by apply (inv_busy _ _ _ HI r x). Qed.

Local Abbreviation kept σ' d' := (inv n address (System σ' (<[i := Thread (Address t) d']> ts))).

(** Steps that leave the lock alone as well. *)
Lemma kept_same σ' d' :
  ListHead σ' = ListHead σ → Registrations σ' = Registrations σ → ListLock σ' = ListLock σ → held d' = held (Doing t) →
  busy_with d' = busy_with (Doing t) → own_ok σ (Address t) d' → (∀ r, pointer d' = Some r → r ∈ ListHead σ) →
  (d' = UnregisteringCallback unregister_remove → total (busy_weight (Address t)) ts = 0) → kept σ' d'.
Proof. intros. apply inv_same; [done..| |done|done|done|done]. by apply lock_same. Qed.

(** A step that calls the lock or the condition and goes on at one place. *)
Lemma kept_after σ' d' d :
  d' = d ∧ ListHead σ' = ListHead σ ∧ Registrations σ' = Registrations σ ∧ lock_ok σ' d' →
  busy_with d = busy_with (Doing t) → own_ok σ (Address t) d → (∀ r, pointer d = Some r → r ∈ ListHead σ) →
  d ≠ UnregisteringCallback unregister_remove → kept σ' d'.
Proof. intros (-> & ? & ? & ?) ????. by apply inv_same. Qed.

Lemma condition_inv {P} h (go : P → activity) done l σ' d' :
  (σ', d') ∈ condition_step σ h go done l →
  ListHead σ' = ListHead σ ∧ Registrations σ' = Registrations σ ∧ ListLock σ' = ListLock σ ∧
  (d' = done ∨ d' = ConditionFaulted h ∨ ∃ c p, (c, QueuedLock.Continue p) ∈ l ∧ d' = go p).
Proof.
  unfold condition_step. intros ([c o] & [= -> ->] & Hin)%list_elem_of_fmap. split_and!; [done..|].
  destruct o; [right; right; by eauto|by left|by right; left].
Qed.

Lemma register_inv p σ' d' : Doing t = Registering p → (σ', d') ∈ PhRegisterCallbackEx σ (Address t) p → kept σ' d'.
Proof.
  intros Hd Hin. pose proof own_now as Ho. rewrite Hd in Ho. destruct p; cbn [PhRegisterCallbackEx] in Hin.
  - apply lock_acquire_exclusive in Hin; [|by rewrite Hd|done]. eapply kept_after; [done|by rewrite Hd|done|done|done].
  - in_list Hin. injection Hin as -> ->. destruct Ho as [HD HL]. apply inv_step; [| | | | | |by rewrite Hd|done].
    + apply lock_same; [done|by rewrite Hd].
    + apply others_own; cbn [ListHead with_ListHead Registrations].
      * intros r Hr. rewrite elem_of_app, list_elem_of_singleton. tauto.
      * done.
      * done.
    + constructor; cbn [Doing Address]; [|done]. cbn. apply elem_of_app. right. by apply list_elem_of_singleton.
    + cbn. intros r [Hr|Hr]%elem_of_app; [by apply (inv_listed _ _ _ HI)|]. by apply list_elem_of_singleton in Hr as ->.
    + cbn. apply NoDup_app. split; [apply (inv_nodup _ _ _ HI)|]. split; [|apply NoDup_singleton].
      intros r Hr Hr'. apply list_elem_of_singleton in Hr' as ->. done.
    + cbn [Registrations with_ListHead]. intros r x Hx. rewrite (inv_busy _ _ _ HI r x Hx). cbn [threads].
      assert (busy_weight r (Thread (Address t) (Registering register_release)) = busy_weight r t) as -> by (unfold busy_weight; by rewrite Hd). lia.
  - apply lock_release_exclusive in Hin; [|by rewrite Hd|done]. eapply kept_after; [done|by rewrite Hd| |done|done]. by intros _.
Qed.

Lemma wait_inv p σ' d' :
  Doing t = UnregisteringCallback (unregister_wait p) → (σ', d') ∈ wait_step σ (Address t) p → kept σ' d'.
Proof.
  intros Hd Hin. pose proof own_now as Ho. rewrite Hd in Ho.
  assert (∀ σ' d', ListHead σ' = ListHead σ → Registrations σ' = Registrations σ → ListLock σ' = ListLock σ → held d' = wait_held p →
    ((∃ q, d' = UnregisteringCallback (unregister_wait q)) ∨ ∃ h, d' = ConditionFaulted h) → kept σ' d') as Hq.
  { intros σ1 d1 ? ? ? Hh [[q ->]|[h ->]]; (apply kept_same; [done|done|done|rewrite Hd; exact Hh|by rewrite Hd|first [exact Ho|intros _; exact Ho]|done|done]). }
  destruct p as [|v|p| |p|]; cbn [wait_step] in Hin.
  - in_list Hin. injection Hin as -> ->. apply Hq; eauto.
  - apply condition_inv in Hin as (HL & HR & HK & [->|[->|(c & p & Hin & ->)]]); [apply Hq; eauto..|].
    assert (held (UnregisteringCallback (unregister_wait p)) = ExclusiveAccess); [|apply Hq; eauto].
    unfold PhpPushQueuedWaitBlock in Hin. destruct (_ =? v); in_list Hin; [|by simplify_eq].
    destruct (push_optimize v); [|by simplify_eq]. destruct (optimize_loop true _); cbn [map_outcome] in Hin; by simplify_eq.
  - apply condition_inv in Hin as (HL & HR & HK & [->|[->|(c & q & Hin & ->)]]); apply Hq; eauto.
  - apply lock_release_exclusive in Hin; [|by rewrite Hd|done]. eapply kept_after; [done|by rewrite Hd|done|done|done].
  - apply list_elem_of_bind in Hin as ([c o] & Hin & _). destruct o; in_list Hin; injection Hin as -> ->; apply Hq; eauto.
  - apply lock_acquire_exclusive in Hin; [|by rewrite Hd|done]. eapply kept_after; [done|by rewrite Hd|done|done|done].
Qed.

(** A write to a registration that is listed. *)
Lemma write_inv r f k σ' d' : r ∈ ListHead σ → (σ', d') ∈ write_registration σ r f k →
  ∃ x, Registrations σ !! r = Some x ∧ d' = k x ∧ ListHead σ' = ListHead σ ∧ ListLock σ' = ListLock σ ∧
    Registrations σ' = alter f r (Registrations σ).
Proof.
  intros (x & Hx & _)%listed_lookup. unfold write_registration. rewrite Hx. intros Hin. in_list Hin. injection Hin as -> ->.
  exists x. split_and!; [done..|]. cbn. apply map_eq. intros r'. destruct (decide (r' = r)) as [->|].
  - by rewrite lookup_insert_eq, lookup_alter_eq, Hx.
  - by rewrite lookup_insert_ne, lookup_alter_ne.
Qed.

Lemma read_inv r k σ' d' : r ∈ ListHead σ → (σ', d') ∈ read_registration σ r k →
  σ' = σ ∧ ∃ x, Busy x = total (busy_weight r) ts ∧ d' = k x.
Proof.
  intros (x & Hx & Hb)%listed_lookup. unfold read_registration. rewrite Hx. intros Hin. in_list Hin. injection Hin as -> ->. eauto.
Qed.

Lemma unregister_inv p σ' d' :
  Doing t = UnregisteringCallback p → (σ', d') ∈ PhUnregisterCallback σ (Address t) p → kept σ' d'.
Proof.
  intros Hd Hin. pose proof own_now as Ho. rewrite Hd in Ho. destruct p as [| | |p| |]; cbn [PhUnregisterCallback] in Hin.
  - apply write_inv in Hin as (x & Hx & -> & HL & HK & HR); [|done]. eapply inv_fields; [done|done| |done|done|done|done| |].
    + apply lock_same; [done|by rewrite Hd].
    + intros r' _. unfold busy_weight. by rewrite Hd.
    + intros y Hy. unfold busy_weight at 2 3. rewrite Hd. cbn. lia.
  - apply lock_acquire_exclusive in Hin; [|by rewrite Hd|done]. eapply kept_after; [done|by rewrite Hd|done|done|done].
  - apply read_inv in Hin as (-> & x & Hx & ->); [|done]. destruct (Z.eqb_spec (Busy x) 0) as [E|E]; cbn [negb];
      (apply kept_same; [done|done|done|by rewrite Hd|by rewrite Hd|done|done|]); [|done]. intros _. by rewrite <-Hx.
  - by eapply wait_inv.
  - in_list Hin. injection Hin as -> ->. pose proof (removing_now Hd) as H0. destruct exclusive_alone as [_ Hothers]; [by rewrite Hd|].
    apply inv_step; cbn [ListHead with_ListHead Registrations]; [| | | | | |done|done].
    + apply lock_same; [done|by rewrite Hd].
    + apply others_own; cbn [ListHead with_ListHead Registrations]; [|done|].
      * intros r Hr. rewrite list_elem_of_filter. tauto.
      * intros _. right. intros j u Hj Hu Hp. destruct (pointer_held _ _ Hp) as [Hh|Hb]; [rewrite (Hothers j u Hj Hu) in Hh; done|].
        pose proof (total_elem (busy_weight (Address t)) ts j u ltac:(apply busy_range) Hu) as Hu1. unfold busy_weight in Hu1 at 1.
        rewrite decide_True in Hu1 by done. lia.
    + constructor; cbn [Doing Address]; [|done]. split; cbn; [by apply (inv_listed _ _ _ HI)|]. rewrite list_elem_of_filter. by intros [? _].
    + intros r [_ Hr]%list_elem_of_filter. by apply (inv_listed _ _ _ HI).
    + apply NoDup_filter, (inv_nodup _ _ _ HI).
    + intros r x Hx. rewrite (inv_busy _ _ _ HI r x Hx). cbn [threads]. unfold busy_weight at 3 4. rewrite Hd. cbn. lia.
  - apply list_elem_of_fmap in Hin as ([σ1 d1] & [= -> ->] & Hin). destruct Ho as [HD HL].
    apply lock_release_exclusive in Hin as (-> & HL1 & HR1 & HK); [|by rewrite Hd|done]. cbn [id].
    apply inv_step; cbn [ListHead with_Registrations Registrations]; [| | | | | |done|done].
    + exact HK.
    + apply others_own; cbn [ListHead with_Registrations Registrations]; rewrite ?HL1, ?HR1; [done| |done].
      intros r Hr. rewrite dom_delete. set_solver.
    + constructor; cbn [Doing Address]; [|done]. cbn. rewrite HR1, dom_delete. set_solver.
    + intros r. rewrite HL1, HR1, dom_delete. intros Hr. pose proof (inv_listed _ _ _ HI r Hr). cbn [shared] in *. set_solver.
    + rewrite HL1. apply (inv_nodup _ _ _ HI).
    + intros r x. rewrite HR1, lookup_delete_Some. intros [_ Hx]. rewrite (inv_busy _ _ _ HI r x Hx). cbn [threads]. unfold busy_weight at 3 4. rewrite Hd. cbn. lia.
Qed.

Lemma busy_bound r : total (busy_weight r) ts - busy_weight r t ≤ Z.of_nat n - 1.
Proof. rewrite <-threads_length. by apply (total_others (busy_weight r) ts i t ltac:(apply busy_range) Ht). Qed.

Lemma busy_nonneg r : 0 ≤ total (busy_weight r) ts - busy_weight r t.
Proof. by apply (total_others (busy_weight r) ts i t ltac:(apply busy_range) Ht). Qed.

(** The entries of the list, as the loop goes to them. *)
Lemma entry_after_listed l r r' : entry_after l r = Some r' → r' ∈ l.
Proof.
  induction l as [|x l IH]; cbn [entry_after]; [done|]. destruct (x =? r); [intros H; right; destruct l as [|y l]; [done|]; injection H as ->; by left|].
  intros H. right. auto.
Qed.

Lemma loop_inv e : (∀ r, e = Some r → r ∈ ListHead σ) → held (Doing t) = SharedAccess → busy_with (Doing t) = None →
  (own_ok σ (Address t) (Invoking invoke_acquire)) → kept σ (invoke_loop e).
Proof.
  intros He Hh Hb Ho. apply kept_same; [done|done|done|by rewrite Hh; destruct e|by rewrite Hb; destruct e|by destruct e| |by destruct e].
  destruct e as [r|]; cbn; [|done]. intros r' [= <-]. by apply He.
Qed.

Lemma invoke_inv p σ' d' : Doing t = Invoking p → (σ', d') ∈ PhInvokeCallback σ p → kept σ' d'.
Proof.
  intros Hd Hin. pose proof own_now as Ho. pose proof pointer_now as Hp. rewrite Hd in Ho, Hp. cbn [own_ok] in Ho.
  destruct p as [| |r|r|r|r|r|r|r busy|r p|r|]; cbn [PhInvokeCallback] in Hin.
  - apply lock_acquire_shared in Hin; [|by rewrite Hd|done]. eapply kept_after; [done|by rewrite Hd|done|done|done].
  - in_list Hin. injection Hin as -> ->. apply loop_inv; [|by rewrite Hd|by rewrite Hd|done]. intros r Hr.
    destruct (ListHead σ); [done|]. injection Hr as ->. by left.
  - apply read_inv in Hin as (-> & x & Hx & ->); [|by apply Hp]. destruct (Unregistering x);
      (apply kept_same; [done|done|done|by rewrite Hd|by rewrite Hd|done|done|done]).
  - apply write_inv in Hin as (x & Hx & -> & HL & HK & HR); [|by apply Hp]. eapply inv_fields; [done|done| |done|done| |done| |].
    + apply lock_same; [done|by rewrite Hd].
    + intros r' _ _. by rewrite Hd.
    + intros r' Hr'. unfold busy_weight. rewrite Hd. cbn. rewrite !decide_False; congruence.
    + intros y Hy. cbn [Busy with_Busy]. pose proof (busy_bound r). pose proof (busy_nonneg r). assert (busy_weight r t = 0) as E0 by (unfold busy_weight; by rewrite Hd).
      rewrite i32_small by lia. unfold busy_weight at 3. cbn. rewrite decide_True by done. lia.
  - apply lock_release_shared in Hin; [|by rewrite Hd|done]. eapply kept_after; [done|by rewrite Hd|done|done|done].
  - apply read_inv in Hin as (-> & x & Hx & ->); [|by apply Hp]. apply kept_same; [done|done|done|by rewrite Hd|by rewrite Hd|done|done|done].
  - apply lock_acquire_shared in Hin; [|by rewrite Hd|done]. eapply kept_after; [done|by rewrite Hd|done|done|done].
  - apply write_inv in Hin as (x & Hx & -> & HL & HK & HR); [|by apply Hp]. eapply inv_fields; [done|done| |done|done|done|done| |].
    + apply lock_same; [done|by rewrite Hd].
    + intros r' Hr'. unfold busy_weight. rewrite Hd. cbn. rewrite !decide_False; congruence.
    + intros y Hy. cbn [Busy with_Busy]. pose proof (busy_bound r). pose proof (busy_nonneg r). assert (busy_weight r t = 1) as E1 by (unfold busy_weight; rewrite Hd; cbn; by rewrite decide_True).
      rewrite i32_small by lia. unfold busy_weight at 3. cbn. rewrite decide_False by done. lia.
  - apply read_inv in Hin as (-> & x & Hx & ->); [|by apply Hp]. destruct (Unregistering x && (busy =? 0));
      (apply kept_same; [done|done|done|by rewrite Hd|by rewrite Hd|done|done|done]).
  - apply condition_inv in Hin as (HL & HR & HK & [->|[->|(c & q & Hin & ->)]]);
      (apply kept_same; [done|done|done|by rewrite Hd|by rewrite Hd|done|done|done]).
  - in_list Hin. injection Hin as -> ->. rewrite decide_True by (by apply Hp).
    apply loop_inv; [apply entry_after_listed|by rewrite Hd|by rewrite Hd|done].
  - apply lock_release_shared in Hin; [|by rewrite Hd|done]. eapply kept_after; [done|by rewrite Hd|done|done|done].
Qed.

Lemma idle_inv σ' d' : Doing t = Idle → (σ', d') ∈ act σ (Address t) Idle → kept σ' d'.
Proof.
  intros Hd Hin. pose proof own_now as Ho. rewrite Hd in Ho. cbn [own_ok act] in *. apply elem_of_cons in Hin as [Hin|Hin].
  - injection Hin as -> ->. apply kept_same; [done|done|done|by rewrite Hd|by rewrite Hd|done|done|done].
  - destruct (Registrations σ !! Address t) as [x|] eqn:Hx; in_list Hin; injection Hin as -> ->.
    + apply kept_same; [done|done|done|by rewrite Hd|by rewrite Hd| |done|done]. apply Ho. by apply elem_of_dom_2 in Hx.
    + apply not_elem_of_dom in Hx. assert (Address t ∉ ListHead σ) as Hnl by (intros Hl; by apply Hx, (inv_listed _ _ _ HI)).
      apply inv_step; cbn [ListHead with_Registrations Registrations]; [| | | | | |done|done].
      * apply lock_same; [done|by rewrite Hd].
      * apply others_own; cbn [ListHead with_Registrations Registrations]; [done| |done]. intros r Hr. rewrite dom_insert. set_solver.
      * constructor; cbn [Doing Address]; [|done]. cbn. split; [|done]. rewrite dom_insert. set_solver.
      * intros r Hr. rewrite dom_insert. pose proof (inv_listed _ _ _ HI r Hr). cbn [shared] in *. set_solver.
      * apply (inv_nodup _ _ _ HI).
      * intros r x. assert (∀ r, busy_weight r t = 0) as E by (intros r'; unfold busy_weight; by rewrite Hd).
        unfold busy_weight at 3. cbn [Doing busy_with]. rewrite decide_False by done. rewrite E.
        rewrite lookup_insert_Some. intros [[<- <-]|[_ Hr]]; [cbn; rewrite unlisted_not_busy by done; lia|].
        rewrite (inv_busy _ _ _ HI r x Hr). cbn [threads]. lia.
Qed.

Lemma next_inv σ' t' : (σ', t') ∈ next σ t → inv n address (System σ' (<[i := t']> ts)).
Proof.
  intros ([σ1 d'] & [= -> ->] & Hin)%list_elem_of_fmap. cbn [id]. pose proof own_now as Ho. destruct (Doing t) as [|p|p|p| |h] eqn:Hd; cbn [act] in Hin.
  - by apply idle_inv.
  - by eapply register_inv.
  - by eapply unregister_inv.
  - by eapply invoke_inv.
  - done.
  - in_list Hin.
Qed.

End Step.

Lemma start_inv n address : inv n address (start address n).
Proof.
  assert (∀ w, (∀ i, w (Thread (address i) Idle) = 0) → total w (threads (start address n)) = 0) as Ht.
  { intros w Hw. cbn [threads start]. induction (seq 0 n) as [|i l IH]; [done|]. rewrite fmap_cons, total_cons, Hw, IH. done. }
  constructor.
  - cbn [threads start]. by rewrite <-list_fmap_compose.
  - by rewrite Ht.
  - by rewrite Ht.
  - done.
  - by intros r ?%elem_of_nil.
  - constructor.
  - done.
  - intros i t Hi Hd. cbn [threads start] in Hi. apply list_lookup_fmap_Some in Hi as (k & -> & _). done.
  - intros i t Hi. cbn [threads start] in Hi. apply list_lookup_fmap_Some in Hi as (k & -> & _). constructor; cbn; [set_solver|done].
Qed.

Lemma callback_invariant n address s : Addresses n address → Z.of_nat n < 2 ^ 31 → reachable next (start address n) s → inv n address s.
Proof.
  intros Ha Hn Hs. eapply reachable_invariant; [apply start_inv| |done]. intros s1 s2 HI Hstep. destruct Hstep as [i σ ts t σ' t' Ht Hin].
  by eapply next_inv.
Qed.

(** ** Properties *)

(** C25. Callbacks keep the promise of [PhUnregisterCallback]. For any number of threads,
    fewer than 2^31, that register, unregister and invoke in any interleaving: no thread
    touches a registration whose storage is not in use; a function that is in execution,
    or that an invocation is about to call, belongs to a registration that is still in
    the list, so that once the removal is done and [PhUnregisterCallback] returns it
    is not in execution; and the busy count of a registration is the number of the
    invocations that have marked it. *)
Theorem callback_safe n address s :
  Addresses n address → Z.of_nat n < 2 ^ 31 → reachable next (start address n) s →
  (∀ i t, threads s !! i = Some t → Doing t ≠ Faulted) ∧
  (∀ i t r, threads s !! i = Some t → executes (Doing t) r →
     r ∈ ListHead (shared s) ∧ is_Some (Registrations (shared s) !! r) ∧
     ∀ j u, threads s !! j = Some u → Address u = r → Doing u ≠ UnregisteringCallback unregister_release) ∧
  (∀ r x, Registrations (shared s) !! r = Some x → Busy x = total (busy_weight r) (threads s)).
Proof.
  intros Ha Hn Hs. pose proof (callback_invariant _ _ _ Ha Hn Hs) as HI. split_and!.
  - intros i t Ht Hd. pose proof (ok_own _ _ (inv_threads _ _ _ HI i t Ht)) as Ho. by rewrite Hd in Ho.
  - intros i t r Ht He. assert (r ∈ ListHead (shared s)) as Hr.
    { apply (ok_pointer _ _ (inv_threads _ _ _ HI i t Ht)). by destruct He as [->| ->]. }
    split; [done|]. split; [by apply elem_of_dom, (inv_listed _ _ _ HI)|]. intros j u Hu <- Hd.
    pose proof (ok_own _ _ (inv_threads _ _ _ HI j u Hu)) as Ho. rewrite Hd in Ho. by destruct Ho as [_ []].
  - intros r x Hx. by apply (inv_busy _ _ _ HI).
Qed.

(** Threads 0 and 1 register; threads 2 and 3 invoke, and each executes one of the two
    functions while threads 0 and 1 unregister and wait; then both invocations pulse. *)
Definition turns (i n : nat) : list (nat * nat) := replicate n (i, 0%nat).

Definition pulse_schedule : list (nat * nat) :=
  ([(0, 1)] ++ turns 0 3 ++ [(1, 1)] ++ turns 1 3 ++ turns 2 6 ++ [(0, 1)] ++ turns 0 8 ++ turns 3 8 ++ [(1, 1)] ++
   turns 1 14 ++ turns 2 4 ++ turns 3 4)%nat.

Lemma callback_safe_witness : ∃ s, run next (take 40 pulse_schedule) (start row 4) = Some s ∧ (∃ t, threads s !! 2%nat = Some t ∧ executes (Doing t) 16) ∧
  (∀ i t, threads s !! i = Some t → Doing t ≠ Faulted).
Proof.
  eexists. split; [by vm_compute|]. split; [eexists; split; [by vm_compute|by left]|].
  eapply (callback_safe 4 row); [by apply row_addresses|done|]. by apply (run_steps _ (take 40 pulse_schedule)).
Defined.

(** A condition variable that is pulsed by threads with shared access only is not
    protected: two invocations whose registrations are being unregistered come to
    [PhPulseAllCondition] at the same time, one of them empties the queue of
    waiters, and the other, whose exchange fails, goes on with the empty word and
    dereferences NULL. *)
Theorem callback_pulse_race :
  ∃ s s', run next pulse_schedule (start row 4) = Some s ∧
    (Doing <$> threads s) = [UnregisteringCallback (unregister_wait (condition_block block_wait));
                             UnregisteringCallback (unregister_wait (condition_block block_wait));
                             Invoking (invoke_pulse 16 pulse_check); Invoking (invoke_pulse 32 pulse_check)] ∧
    run next (turns 2 3 ++ turns 3 3 ++ turns 2 1 ++ turns 3 2)%nat s = Some s' ∧
    Doing <$> threads s' !! 3%nat = Some (ConditionFaulted SharedAccess).
Proof. eexists _, _. split; [by vm_compute|]. split; [done|]. split; [by vm_compute|]. done. Qed.
