(* ===== verification/WorkQueue.v ===== *)
(** Work queues (src/phlib/workqueue.c): items that threads queue and that worker
    threads, created when they are needed, take off the queue and execute.

    A thread is at a point of one of the functions. The two locks are held by one
    thread at a time, as the queued lock ensures; the condition variable is the queue of
    threads that [Condition] shows it is, as it is only used with the lock held; rundown
    protection is its number of references, as [Rundown] shows. Items are identified
    by the order in which they are queued. *)

From S2P Require Import Prelude Concurrency.

Definition MAXLONG : Z := 2 ^ 31 - 1.

(** ** Environments of items *)

Record PH_WORK_QUEUE_ENVIRONMENT := Environment {
  BasePriority : Z;
  IoPriority : Z;
  PagePriority : Z;
  ForceUpdate : bool;
}.

Definition THREAD_PRIORITY_NORMAL : Z := 0.
Definition IoPriorityNormal : Z := 2.
Definition MEMORY_PRIORITY_NORMAL : Z := 5.

Definition PhpGetDefaultWorkQueueEnvironment : PH_WORK_QUEUE_ENVIRONMENT :=
  Environment THREAD_PRIORITY_NORMAL IoPriorityNormal MEMORY_PRIORITY_NORMAL false.

(** The functions that set a priority of the thread say whether they succeeded. *)
Definition PhpUpdateWorkQueueEnvironment (PhSetThreadBasePriority PhSetThreadIoPriority PhSetThreadPagePriority : Z → bool)
    (CurrentEnvironment NewEnvironment : PH_WORK_QUEUE_ENVIRONMENT) : PH_WORK_QUEUE_ENVIRONMENT :=
  let update (set : Z → bool) current new :=
    if (negb (current =? new) || ForceUpdate NewEnvironment) && set new then new else current in
  Environment
    (update PhSetThreadBasePriority (BasePriority CurrentEnvironment) (BasePriority NewEnvironment))
    (update PhSetThreadIoPriority (IoPriority CurrentEnvironment) (IoPriority NewEnvironment))
    (update PhSetThreadPagePriority (PagePriority CurrentEnvironment) (PagePriority NewEnvironment))
    (ForceUpdate CurrentEnvironment).

(** ** State *)

(** The fields of the queue; then the threads that were created and have not begun to
    run, the calls that other threads are in, and what happened: the items in the order
    in which they were queued, taken off the queue, executed and destroyed. *)
Record PH_WORK_QUEUE := WorkQueue {
  RundownProtect : Z;
  Terminating : bool;
  QueueListHead : list Z;
  QueueLock : bool;
  QueueEmptyCondition : list nat;
  StateLock : bool;
  SemaphoreHandle : option Z;
  CurrentThreads : Z;
  BusyCount : Z;
  Starting : Z;
  Calls : Z;
  Queued : list Z;
  Dequeued : list Z;
  Executed : list Z;
  Destroyed : list Z;
}.

Definition with_RundownProtect σ v := WorkQueue v (Terminating σ) (QueueListHead σ) (QueueLock σ) (QueueEmptyCondition σ) (StateLock σ) (SemaphoreHandle σ) (CurrentThreads σ) (BusyCount σ) (Starting σ) (Calls σ) (Queued σ) (Dequeued σ) (Executed σ) (Destroyed σ).
Definition with_Terminating σ v := WorkQueue (RundownProtect σ) v (QueueListHead σ) (QueueLock σ) (QueueEmptyCondition σ) (StateLock σ) (SemaphoreHandle σ) (CurrentThreads σ) (BusyCount σ) (Starting σ) (Calls σ) (Queued σ) (Dequeued σ) (Executed σ) (Destroyed σ).
Definition with_QueueListHead σ v := WorkQueue (RundownProtect σ) (Terminating σ) v (QueueLock σ) (QueueEmptyCondition σ) (StateLock σ) (SemaphoreHandle σ) (CurrentThreads σ) (BusyCount σ) (Starting σ) (Calls σ) (Queued σ) (Dequeued σ) (Executed σ) (Destroyed σ).
Definition with_QueueLock σ v := WorkQueue (RundownProtect σ) (Terminating σ) (QueueListHead σ) v (QueueEmptyCondition σ) (StateLock σ) (SemaphoreHandle σ) (CurrentThreads σ) (BusyCount σ) (Starting σ) (Calls σ) (Queued σ) (Dequeued σ) (Executed σ) (Destroyed σ).
Definition with_QueueEmptyCondition σ v := WorkQueue (RundownProtect σ) (Terminating σ) (QueueListHead σ) (QueueLock σ) v (StateLock σ) (SemaphoreHandle σ) (CurrentThreads σ) (BusyCount σ) (Starting σ) (Calls σ) (Queued σ) (Dequeued σ) (Executed σ) (Destroyed σ).
Definition with_StateLock σ v := WorkQueue (RundownProtect σ) (Terminating σ) (QueueListHead σ) (QueueLock σ) (QueueEmptyCondition σ) v (SemaphoreHandle σ) (CurrentThreads σ) (BusyCount σ) (Starting σ) (Calls σ) (Queued σ) (Dequeued σ) (Executed σ) (Destroyed σ).
Definition with_SemaphoreHandle σ v := WorkQueue (RundownProtect σ) (Terminating σ) (QueueListHead σ) (QueueLock σ) (QueueEmptyCondition σ) (StateLock σ) v (CurrentThreads σ) (BusyCount σ) (Starting σ) (Calls σ) (Queued σ) (Dequeued σ) (Executed σ) (Destroyed σ).
Definition with_CurrentThreads σ v := WorkQueue (RundownProtect σ) (Terminating σ) (QueueListHead σ) (QueueLock σ) (QueueEmptyCondition σ) (StateLock σ) (SemaphoreHandle σ) v (BusyCount σ) (Starting σ) (Calls σ) (Queued σ) (Dequeued σ) (Executed σ) (Destroyed σ).
Definition with_BusyCount σ v := WorkQueue (RundownProtect σ) (Terminating σ) (QueueListHead σ) (QueueLock σ) (QueueEmptyCondition σ) (StateLock σ) (SemaphoreHandle σ) (CurrentThreads σ) v (Starting σ) (Calls σ) (Queued σ) (Dequeued σ) (Executed σ) (Destroyed σ).
Definition with_Starting σ v := WorkQueue (RundownProtect σ) (Terminating σ) (QueueListHead σ) (QueueLock σ) (QueueEmptyCondition σ) (StateLock σ) (SemaphoreHandle σ) (CurrentThreads σ) (BusyCount σ) v (Calls σ) (Queued σ) (Dequeued σ) (Executed σ) (Destroyed σ).
Definition with_Calls σ v := WorkQueue (RundownProtect σ) (Terminating σ) (QueueListHead σ) (QueueLock σ) (QueueEmptyCondition σ) (StateLock σ) (SemaphoreHandle σ) (CurrentThreads σ) (BusyCount σ) (Starting σ) v (Queued σ) (Dequeued σ) (Executed σ) (Destroyed σ).
Definition with_Queued σ v := WorkQueue (RundownProtect σ) (Terminating σ) (QueueListHead σ) (QueueLock σ) (QueueEmptyCondition σ) (StateLock σ) (SemaphoreHandle σ) (CurrentThreads σ) (BusyCount σ) (Starting σ) (Calls σ) v (Dequeued σ) (Executed σ) (Destroyed σ).
Definition with_Dequeued σ v := WorkQueue (RundownProtect σ) (Terminating σ) (QueueListHead σ) (QueueLock σ) (QueueEmptyCondition σ) (StateLock σ) (SemaphoreHandle σ) (CurrentThreads σ) (BusyCount σ) (Starting σ) (Calls σ) (Queued σ) v (Executed σ) (Destroyed σ).
Definition with_Executed σ v := WorkQueue (RundownProtect σ) (Terminating σ) (QueueListHead σ) (QueueLock σ) (QueueEmptyCondition σ) (StateLock σ) (SemaphoreHandle σ) (CurrentThreads σ) (BusyCount σ) (Starting σ) (Calls σ) (Queued σ) (Dequeued σ) v (Destroyed σ).
Definition with_Destroyed σ v := WorkQueue (RundownProtect σ) (Terminating σ) (QueueListHead σ) (QueueLock σ) (QueueEmptyCondition σ) (StateLock σ) (SemaphoreHandle σ) (CurrentThreads σ) (BusyCount σ) (Starting σ) (Calls σ) (Queued σ) (Dequeued σ) (Executed σ) v.

Definition PhInitializeWorkQueue : PH_WORK_QUEUE := WorkQueue 0 false [] false [] false None 0 0 0 0 [] [] [] [].

(** ** The functions *)

Inductive semaphore := semaphore_read | semaphore_exchange.

Inductive create := create_rundown | create_thread | create_count.

Inductive queue_item :=
  | queue_lock
  | queue_insert
  | queue_busy
  | queue_unlock
  | queue_semaphore (p : semaphore)
  | queue_release
  | queue_test
  | queue_test_threads (busy : Z)
  | queue_test_limit
  | queue_state
  | queue_recheck
  | queue_create (p : create)
  | queue_state_release.

Inductive wait_queue := wait_lock | wait_test | wait_blocked | wait_unlock.

Inductive delete_queue := delete_signal | delete_rundown | delete_items.

(** [worker_unlock] has the item that was taken off the queue, if there was one. *)
Inductive worker :=
  | worker_limit
  | worker_limit_state
  | worker_limit_recheck
  | worker_limit_release (terminate : bool)
  | worker_semaphore (p : semaphore)
  | worker_terminating
  | worker_wait
  | worker_woken
  | worker_lock
  | worker_dequeue
  | worker_unlock (entry : option Z)
  | worker_execute (item : Z)
  | worker_decrement (item : Z)
  | worker_destroy (item : Z)
  | worker_idle
  | worker_idle_test
  | worker_idle_release (terminate : bool)
  | worker_exit.

Inductive activity :=
  | Idle
  | Queueing (p : queue_item)
  | WaitingQueue (p : wait_queue)
  | Deleting (p : delete_queue)
  | Working (p : worker)
  | Deleted.

Section Functions.
Context (MinimumThreads MaximumThreads : Z).

Definition acquire_queue (σ : PH_WORK_QUEUE) (d : activity) : list (PH_WORK_QUEUE * activity) :=
  if QueueLock σ then [] else [(with_QueueLock σ true, d)].
Definition acquire_state (σ : PH_WORK_QUEUE) (d : activity) : list (PH_WORK_QUEUE * activity) :=
  if StateLock σ then [] else [(with_StateLock σ true, d)].

(** [PhpGetSemaphoreWorkQueue]; a semaphore that loses the exchange is closed again. *)
Definition PhpGetSemaphoreWorkQueue (σ : PH_WORK_QUEUE) (p : semaphore) (go : semaphore → activity) (done : activity) : list (PH_WORK_QUEUE * activity) :=
  match p with
  | semaphore_read => [(σ, match SemaphoreHandle σ with Some _ => done | None => go semaphore_exchange end)]
  | semaphore_exchange => [(match SemaphoreHandle σ with Some _ => σ | None => with_SemaphoreHandle σ (Some 0) end, done)]
  end.

(** The semaphore has the limit [MAXLONG]: a release beyond it fails. *)
Definition NtReleaseSemaphore (σ : PH_WORK_QUEUE) (ReleaseCount : Z) : PH_WORK_QUEUE :=
  match SemaphoreHandle σ with
  | Some count =>
      if (0 <? ReleaseCount) && (count + ReleaseCount <=? MAXLONG) then with_SemaphoreHandle σ (Some (count + ReleaseCount)) else σ
  | None => σ
  end.

(** [PhpCreateWorkQueueThread]: the new thread is counted after it was created; no
    reference is acquired any more once the queue is being deleted. *)
Definition PhpCreateWorkQueueThread (σ : PH_WORK_QUEUE) (p : create) (go : create → activity) (done : activity) : list (PH_WORK_QUEUE * activity) :=
  match p with
  | create_rundown =>
      if Terminating σ then [(σ, done)] else [(with_RundownProtect σ (RundownProtect σ + 1), go create_thread)]
  | create_thread =>
      [(with_Starting σ (Starting σ + 1), go create_count); (with_RundownProtect σ (RundownProtect σ - 1), done)]
  | create_count => [(with_CurrentThreads σ (u32 (CurrentThreads σ + 1)), done)]
  end.

Definition PhQueueItemWorkQueueEx (σ : PH_WORK_QUEUE) (p : queue_item) : list (PH_WORK_QUEUE * activity) :=
  match p with
  | queue_lock => acquire_queue σ (Queueing queue_insert)
  | queue_insert =>
      let item := Z.of_nat (length (Queued σ)) in
      [(with_Queued (with_QueueListHead σ (QueueListHead σ ++ [item])) (Queued σ ++ [item]), Queueing queue_busy)]
  | queue_busy => [(with_BusyCount σ (u32 (BusyCount σ + 1)), Queueing queue_unlock)]
  | queue_unlock => [(with_QueueLock σ false, Queueing (queue_semaphore semaphore_read))]
  | queue_semaphore p => PhpGetSemaphoreWorkQueue σ p (λ p, Queueing (queue_semaphore p)) (Queueing queue_release)
  | queue_release => [(NtReleaseSemaphore σ 1, Queueing queue_test)]
  | queue_test => [(σ, Queueing (queue_test_threads (BusyCount σ)))]
  | queue_test_threads busy =>
      if CurrentThreads σ <=? busy then [(σ, Queueing queue_test_limit)] else [(with_Calls σ (Calls σ - 1), Idle)]
  | queue_test_limit =>
      if CurrentThreads σ <? MaximumThreads then [(σ, Queueing queue_state)] else [(with_Calls σ (Calls σ - 1), Idle)]
  | queue_state => acquire_state σ (Queueing queue_recheck)
  | queue_recheck =>
      [(σ, Queueing (if CurrentThreads σ <? MaximumThreads then queue_create create_rundown else queue_state_release))]
  | queue_create p => PhpCreateWorkQueueThread σ p (λ p, Queueing (queue_create p)) (Queueing queue_state_release)
  | queue_state_release => [(with_Calls (with_StateLock σ false) (Calls σ - 1), Idle)]
  end.

(** The thread [i] waits for the condition: it is in its queue when the lock is
    released, until a pulse takes it off. *)
Definition PhWaitForWorkQueue (σ : PH_WORK_QUEUE) (i : nat) (p : wait_queue) : list (PH_WORK_QUEUE * activity) :=
  match p with
  | wait_lock => acquire_queue σ (WaitingQueue wait_test)
  | wait_test =>
      match QueueListHead σ with
      | [] => [(σ, WaitingQueue wait_unlock)]
      | _ => [(with_QueueLock (with_QueueEmptyCondition σ (QueueEmptyCondition σ ++ [i])) false, WaitingQueue wait_blocked)]
      end
  | wait_blocked => if decide (i ∈ QueueEmptyCondition σ) then [] else acquire_queue σ (WaitingQueue wait_test)
  | wait_unlock => [(with_Calls (with_QueueLock σ false) (Calls σ - 1), Idle)]
  end.

(** [PhpDestroyWorkQueueItem]. *)
Definition PhpDestroyWorkQueueItem (σ : PH_WORK_QUEUE) (item : Z) : PH_WORK_QUEUE := with_Destroyed σ (Destroyed σ ++ [item]).

(** The loop that destroys the items that were not executed leaves the list as it is. *)
Definition PhDeleteWorkQueue (σ : PH_WORK_QUEUE) (p : delete_queue) : list (PH_WORK_QUEUE * activity) :=
  match p with
  | delete_signal => [(NtReleaseSemaphore σ (CurrentThreads σ), Deleting delete_rundown)]
  | delete_rundown => if RundownProtect σ =? 0 then [(σ, Deleting delete_items)] else []
  | delete_items => [(with_SemaphoreHandle (foldl PhpDestroyWorkQueueItem σ (QueueListHead σ)) None, Deleted)]
  end.

(** The part of [PhpWorkQueueThreadStart] that runs with the state lock: whether the
    thread terminates, by a condition on the number of threads. *)
Definition terminate_if (σ : PH_WORK_QUEUE) (terminate : bool) (release : bool → activity) : list (PH_WORK_QUEUE * activity) :=
  [(if terminate then with_CurrentThreads σ (u32 (CurrentThreads σ - 1)) else σ, release terminate)].

Definition PhpWorkQueueThreadStart (σ : PH_WORK_QUEUE) (p : worker) : list (PH_WORK_QUEUE * activity) :=
  match p with
  | worker_limit => [(σ, Working (if MaximumThreads <? CurrentThreads σ then worker_limit_state else worker_semaphore semaphore_read))]
  | worker_limit_state => acquire_state σ (Working worker_limit_recheck)
  | worker_limit_recheck =>
      terminate_if σ ((MaximumThreads <? CurrentThreads σ) && (MinimumThreads <? CurrentThreads σ)) (λ b, Working (worker_limit_release b))
  | worker_limit_release terminate =>
      [(with_StateLock σ false, Working (if terminate then worker_exit else worker_semaphore semaphore_read))]
  | worker_semaphore p => PhpGetSemaphoreWorkQueue σ p (λ p, Working (worker_semaphore p)) (Working worker_terminating)
  | worker_terminating => [(σ, Working (if Terminating σ then worker_idle else worker_wait))]
  | worker_wait =>
      (σ, Working worker_idle) ::
      match SemaphoreHandle σ with
      | Some count => if 0 <? count then [(with_SemaphoreHandle σ (Some (count - 1)), Working worker_woken)] else []
      | None => []
      end
  | worker_woken => [(σ, Working (if Terminating σ then worker_idle else worker_lock))]
  | worker_lock => acquire_queue σ (Working worker_dequeue)
  | worker_dequeue =>
      let entry := head (QueueListHead σ) in
      let σ := with_Dequeued (with_QueueListHead σ (tail (QueueListHead σ))) (Dequeued σ ++ option_list entry) in
      [(match QueueListHead σ with [] => with_QueueEmptyCondition σ (tail (QueueEmptyCondition σ)) | _ => σ end,
        Working (worker_unlock entry))]
  | worker_unlock entry =>
      [(with_QueueLock σ false, Working (match entry with Some item => worker_execute item | None => worker_limit end))]
  | worker_execute item => [(with_Executed σ (Executed σ ++ [item]), Working (worker_decrement item))]
  | worker_decrement item => [(with_BusyCount σ (u32 (BusyCount σ - 1)), Working (worker_destroy item))]
  | worker_destroy item => [(PhpDestroyWorkQueueItem σ item, Working worker_limit)]
  | worker_idle => acquire_state σ (Working worker_idle_test)
  | worker_idle_test =>
      terminate_if σ (Terminating σ || (MinimumThreads <? CurrentThreads σ)) (λ b, Working (worker_idle_release b))
  | worker_idle_release terminate => [(with_StateLock σ false, Working (if terminate then worker_exit else worker_limit))]
  | worker_exit => [(with_RundownProtect σ (RundownProtect σ - 1), Idle)]
  end.

(** ** Threads

    A thread that does nothing calls a function or becomes one of the threads that
    were created. The queue is deleted when no call is in progress, and none is made
    from then on; the deletion begins with [Terminating]. *)

Record thread := Thread { Index : nat; Doing : activity }.

Definition act (σ : PH_WORK_QUEUE) (i : nat) (d : activity) : list (PH_WORK_QUEUE * activity) :=
  match d with
  | Idle =>
      (if Terminating σ then []
       else [(with_Calls σ (Calls σ + 1), Queueing queue_lock); (with_Calls σ (Calls σ + 1), WaitingQueue wait_lock)]) ++
      (if negb (Terminating σ) && (Calls σ =? 0) then [(with_Terminating σ true, Deleting delete_signal)] else []) ++
      (if 0 <? Starting σ then [(with_Starting σ (Starting σ - 1), Working worker_limit)] else [])
  | Queueing p => PhQueueItemWorkQueueEx σ p
  | WaitingQueue p => PhWaitForWorkQueue σ i p
  | Deleting p => PhDeleteWorkQueue σ p
  | Working p => PhpWorkQueueThreadStart σ p
  | Deleted => []
  end.

Definition next (σ : PH_WORK_QUEUE) (t : thread) : list (PH_WORK_QUEUE * thread) :=
  prod_map id (Thread (Index t)) <$> act σ (Index t) (Doing t).

Definition start (n : nat) : system := System PhInitializeWorkQueue ((λ i, Thread i Idle) <$> seq 0 n).

End Functions.
