(* ===== verification/WorkQueueTheorems.v ===== *)
(** Work queues: the counts that the threads keep, that no item is lost or executed
    twice, and what the comments promise that does not hold. *)

From S2P Require Import Prelude Concurrency WorkQueue.

(** ** Counting threads by what they are doing *)

Definition count (w : activity → Z) (ts : list thread) : Z := total (λ t, w (Doing t)) ts.

Lemma count_insert w ts i k d k' d' :
  ts !! i = Some (Thread k d) → count w (<[i := Thread k' d']> ts) = count w ts - w d + w d'.
Proof. intros Ht. unfold count. by rewrite (total_insert _ _ _ _ _ Ht). Qed.

Lemma count_nonneg w ts : (∀ d, 0 ≤ w d) → 0 ≤ count w ts.
Proof. intros Hw. apply total_nonneg. intros t. apply Hw. Qed.

Lemma count_elem w ts i k d : (∀ d, 0 ≤ w d) → ts !! i = Some (Thread k d) → w d ≤ count w ts.
Proof. intros Hw Ht. apply (total_elem (λ t, w (Doing t)) ts i _ ltac:(intros; apply Hw) Ht). Qed.

Lemma count_le v w ts : (∀ d, v d ≤ w d) → count v ts ≤ count w ts.
Proof. intros H. apply total_le. intros t. apply H. Qed.

Lemma count_split u v w ts : (∀ d, u d = v d + w d) → count u ts = count v ts + count w ts.
Proof.
  intros H. unfold count. rewrite <-total_add. induction ts as [|t ts IH]; [done|]. rewrite !total_cons, IH, H. done.
Qed.

(** The threads that hold the locks. *)
Definition has_queue (d : activity) : Z :=
  match d with
  | Queueing (queue_insert | queue_busy | queue_unlock) | WaitingQueue (wait_test | wait_unlock)
  | Working (worker_dequeue | worker_unlock _) => 1
  | _ => 0
  end.

Definition has_state (d : activity) : Z :=
  match d with
  | Queueing (queue_recheck | queue_create _ | queue_state_release)
  | Working (worker_limit_recheck | worker_limit_release _ | worker_idle_test | worker_idle_release _) => 1
  | _ => 0
  end.

(** The calls in progress, and the deletion. *)
Definition calls (d : activity) : Z := match d with Queueing _ | WaitingQueue _ => 1 | _ => 0 end.
Definition deletes (d : activity) : Z := match d with Deleting _ | Deleted => 1 | _ => 0 end.
Definition finishing (d : activity) : Z := match d with Deleting delete_items | Deleted => 1 | _ => 0 end.
Definition finished (d : activity) : Z := match d with Deleted => 1 | _ => 0 end.

Definition unfinished (d : activity) : Z := match d with Deleting _ => 1 | _ => 0 end.

(** The worker threads, those that are still counted, and the thread that creates one:
    as long as it has room for it, has a reference for it, and has not counted it. *)
Definition works (d : activity) : Z := match d with Working _ => 1 | _ => 0 end.
Definition counted (d : activity) : Z :=
  match d with
  | Working (worker_limit_release true | worker_idle_release true | worker_exit) => 0
  | Working _ => 1
  | _ => 0
  end.
Definition creating (d : activity) : Z := match d with Queueing (queue_create _) => 1 | _ => 0 end.
Definition not_creating (d : activity) : Z :=
  match d with
  | Queueing (queue_recheck | queue_state_release)
  | Working (worker_limit_recheck | worker_limit_release _ | worker_idle_test | worker_idle_release _) => 1
  | _ => 0
  end.
Definition with_reference (d : activity) : Z := match d with Queueing (queue_create create_thread) => 1 | _ => 0 end.
Definition uncounted (d : activity) : Z := match d with Queueing (queue_create create_count) => 1 | _ => 0 end.

(** Items: those that workers have and have not executed, or not destroyed, those not
    counted as busy yet, those whose semaphore count is still to come, and the workers
    that have one and are going to take an item. *)
Definition executing (d : activity) : Z :=
  match d with Working (worker_unlock (Some _) | worker_execute _ | worker_decrement _) => 1 | _ => 0 end.
Definition not_busy (d : activity) : Z := match d with Queueing queue_busy => 1 | _ => 0 end.
Definition unsignalled (d : activity) : Z :=
  match d with Queueing (queue_busy | queue_unlock | queue_semaphore _ | queue_release) => 1 | _ => 0 end.
Definition signals (d : activity) : Z := match d with Queueing queue_release => 1 | _ => 0 end.
Definition woken (d : activity) : Z := match d with Working (worker_woken | worker_lock | worker_dequeue) => 1 | _ => 0 end.
Definition committed (d : activity) : Z := match d with Working (worker_lock | worker_dequeue) => 1 | _ => 0 end.
Definition uncommitted (d : activity) : Z := match d with Working worker_woken => 1 | _ => 0 end.

Definition one (x y : Z) : Z := if decide (x = y) then 1 else 0.
Definition to_execute (x : Z) (d : activity) : Z :=
  match d with Working (worker_unlock (Some y) | worker_execute y) => one x y | _ => 0 end.
Definition to_destroy (x : Z) (d : activity) : Z :=
  match d with Working (worker_unlock (Some y) | worker_execute y | worker_decrement y | worker_destroy y) => one x y | _ => 0 end.

(** How often an item is in a list. *)
Definition occurrences (x : Z) (l : list Z) : Z := total (one x) l.

Lemma occurs_app x l l' : occurrences x (l ++ l') = occurrences x l + occurrences x l'.
Proof. induction l as [|y l IH]; [done|]. cbn [app]. unfold occurrences in *. rewrite !total_cons. lia. Qed.

Lemma destroy_all σ l : foldl PhpDestroyWorkQueueItem σ l = with_Destroyed σ (Destroyed σ ++ l).
Proof.
  revert σ. induction l as [|x l IH]; intros σ; cbn [foldl]; [rewrite app_nil_r; by destruct σ|].
  rewrite IH. unfold PhpDestroyWorkQueueItem. cbn [Destroyed with_Destroyed]. by rewrite <-app_assoc.
Qed.

Lemma occurrences_one x y : occurrences x [y] = one x y.
Proof. unfold occurrences. rewrite total_cons. cbn. lia. Qed.

Lemma one_range x y : 0 ≤ one x y ≤ 1.
Proof. unfold one. case_decide; lia. Qed.

Lemma occurs_nonneg x l : 0 ≤ occurrences x l.
Proof. apply total_nonneg. intros y. apply one_range. Qed.

(** ** The invariant *)

Definition Permits (σ : PH_WORK_QUEUE) : Z := default 0 (SemaphoreHandle σ).
Definition queue_length (σ : PH_WORK_QUEUE) : Z := Z.of_nat (length (QueueListHead σ)).

Section Invariant.
Context (MinimumThreads MaximumThreads : Z) (Hmax : 0 ≤ MaximumThreads < 2 ^ 32).

(** The counts of the threads. *)
Record counts (σ : PH_WORK_QUEUE) (ts : list thread) : Prop := {
  counts_queue : count has_queue ts = Z.b2z (QueueLock σ);
  counts_state : count has_state ts = Z.b2z (StateLock σ);
  counts_calls : count calls ts = Calls σ;
  counts_deletes : count deletes ts = Z.b2z (Terminating σ);
  counts_no_calls : Z.b2z (Terminating σ) = 1 → Calls σ = 0;
  counts_starting : 0 ≤ Starting σ;
  counts_rundown : RundownProtect σ = count works ts + Starting σ + count with_reference ts;
  counts_finishing : 0 < count finishing ts → RundownProtect σ = 0;
  counts_threads : CurrentThreads σ + count uncounted ts = count counted ts + Starting σ;
  counts_limit : 0 ≤ CurrentThreads σ ∧ CurrentThreads σ + count creating ts ≤ MaximumThreads;
}.

(** The items and the semaphore. *)
Record items (σ : PH_WORK_QUEUE) (ts : list thread) : Prop := {
  items_order : Dequeued σ ++ QueueListHead σ = Queued σ;
  items_names : Queued σ = Z.of_nat <$> seq 0 (length (Queued σ));
  items_busy : BusyCount σ = u32 (queue_length σ + count executing ts - count not_busy ts);
  items_permits : 0 ≤ Permits σ;
  items_handle : Terminating σ = false → 0 < count signals ts → SemaphoreHandle σ ≠ None;
  items_signalled : Terminating σ = false → Z.of_nat (length (Queued σ)) ≤ MAXLONG →
    Permits σ + count woken ts + count unsignalled ts = queue_length σ;
  items_committed : Z.of_nat (length (Queued σ)) ≤ MAXLONG → count committed ts ≤ queue_length σ;
  items_executed x : occurrences x (Executed σ) + count (to_execute x) ts = occurrences x (Dequeued σ);
  items_destroyed x : occurrences x (Destroyed σ) + count (to_destroy x) ts =
    occurrences x (Dequeued σ) + count finished ts * occurrences x (QueueListHead σ);
}.

(** One step of one thread. *)
Section Step.
Context (σ : PH_WORK_QUEUE) (ts : list thread) (i k : nat) (d : activity) (Ht : ts !! i = Some (Thread k d)).

(** What is known of the counts: they are not negative, and include the thread itself. *)
Ltac weigh w :=
  pose proof (count_nonneg w ts ltac:(intros [| [] | [] | [] | [] |]; cbn; repeat case_match; lia));
  pose proof (count_elem w ts i k _ ltac:(intros [| [] | [] | [] | [] |]; cbn; repeat case_match; lia) Ht).

Ltac compare v w :=
  assert (count v ts ≤ count w ts) by (apply count_le; intros [| [] | [] | [] | [] |]; cbn; repeat case_match; lia).

(** The cases of a step. *)
Ltac step_cases Hin :=
  unfold acquire_queue, acquire_state, terminate_if, NtReleaseSemaphore in Hin; rewrite ?destroy_all in Hin;
  repeat match type of Hin with
    | _ ∈ _ ++ _ => apply elem_of_app in Hin as [Hin|Hin]
    | _ ∈ _ :: _ => apply elem_of_cons in Hin as [Hin|Hin]
    | context [if ?b then _ else _] => destruct b eqn:?
    | context [match ?x with _ => _ end] => destruct x eqn:?
    end; in_list Hin.

Ltac activity_cases d :=
  destruct d as [|p|p|p|p|];
  [|destruct p as [| | | |[]| | | | | | |[]|]|destruct p|destruct p|destruct p as [| | |[]|[]| | | | | |[]| | | | | |[]| ]|].

Lemma counts_step σ' d' :
  counts σ ts → (σ', d') ∈ act MinimumThreads MaximumThreads σ k d →
  counts σ' (<[i := Thread k d']> ts).
Proof.
  intros [H1 H2 H3 H4 H5 H6 H7 H8 H9 [H10 H11]] Hin.
  weigh has_queue. weigh calls. weigh deletes. weigh finishing. weigh works. weigh counted. weigh creating. weigh with_reference.
  weigh uncounted. weigh not_creating.
  compare uncounted creating. compare with_reference creating. compare finishing deletes. compare counted works.
  assert (count has_state ts = count creating ts + count not_creating ts) by (apply count_split; by intros [| [] | [] | [] | [] |]).
  assert (Z.b2z (QueueLock σ) ≤ 1) by (by destruct (QueueLock σ)). assert (Z.b2z (StateLock σ) ≤ 1) by (by destruct (StateLock σ)).
  assert (0 < CurrentThreads σ → u32 (CurrentThreads σ - 1) = CurrentThreads σ - 1) by (intros; apply u32_small; lia).
  assert (CurrentThreads σ < MaximumThreads → u32 (CurrentThreads σ + 1) = CurrentThreads σ + 1) by (intros; apply u32_small; lia).
  destruct (Terminating σ) eqn:HT; activity_cases d; cbn in Hin; rewrite ?HT in Hin; cbn in Hin; step_cases Hin.
  all: repeat match goal with
       | E : QueueLock σ = _ |- _ => rewrite E in *; clear E
       | E : StateLock σ = _ |- _ => rewrite E in *; clear E
       end.
  all: injection Hin as -> ->; constructor; rewrite ?(count_insert _ _ _ _ _ _ _ Ht); cbn in *; rewrite ?HT; cbn; try lia.
Qed.

Lemma u32_sub a b : u32 (u32 a - b) = u32 (a - b).
Proof. unfold Z.sub. apply u32_add. Qed.

Lemma items_step σ' d' :
  counts σ ts → items σ ts → (σ', d') ∈ act MinimumThreads MaximumThreads σ k d →
  items σ' (<[i := Thread k d']> ts).
Proof.
  intros [_ _ C3 C4 C5 C6 C7 C8 _ _] [I1 I2 I3 I4 I5 I6 I7 I8 I9] Hin.
  weigh calls. weigh deletes. weigh finishing. weigh finished. weigh unfinished. weigh works. weigh with_reference.
  weigh executing. weigh not_busy. weigh unsignalled. weigh signals. weigh woken. weigh committed. weigh uncommitted.
  compare finished finishing.
  assert (count deletes ts = count finished ts + count unfinished ts) by (apply count_split; by intros [| [] | [] | [] | [] |]).
  assert (count woken ts = count committed ts + count uncommitted ts) by (apply count_split; by intros [| [] | [] | [] | [] |]).
  assert (Z.b2z (Terminating σ) ≤ 1) by (by destruct (Terminating σ)).
  assert (∀ x, 0 ≤ occurrences x (QueueListHead σ)) as Hocc by (intros; apply occurs_nonneg).
  assert (length (Dequeued σ) + length (QueueListHead σ) = length (Queued σ))%nat as Hlen by (by rewrite <-I1, length_app).
  assert (0 < count works ts → count finished ts = 0) as Hw by (intros; lia).
  assert (Terminating σ = false → count finished ts = 0) as Hf by (intros E; rewrite E in C4; cbn in C4; lia).
  unfold queue_length, Permits in *.
  destruct (Terminating σ) eqn:HT; [|specialize (Hf eq_refl); specialize (I5 eq_refl); specialize (I6 eq_refl)];
    activity_cases d; cbn in Hin; rewrite ?HT in Hin; cbn in Hin.
  all: lazymatch type of Ht with _ = Some (Thread _ (Working worker_dequeue)) => destruct (QueueListHead σ) as [|y [|z l]] eqn:HQ; cbn in Hin | _ => idtac end.
  all: step_cases Hin.
  all: injection Hin as -> ->; constructor; rewrite ?(count_insert _ _ _ _ _ _ _ Ht).
  all: unfold queue_length, Permits; cbn [Dequeued QueueListHead Queued BusyCount SemaphoreHandle Terminating Executed Destroyed
         with_RundownProtect with_Terminating with_QueueListHead with_QueueLock with_QueueEmptyCondition with_StateLock with_SemaphoreHandle
         with_CurrentThreads with_BusyCount with_Starting with_Calls with_Queued with_Dequeued with_Executed with_Destroyed PhpDestroyWorkQueueItem].
  all: rewrite ?HT; repeat match goal with
       | E : SemaphoreHandle σ = _ |- context [SemaphoreHandle σ] => rewrite E
       | E : QueueListHead σ = _ |- context [QueueListHead σ] => rewrite E
       end; cbn [head tail option_list].
  all: try done.
  all: try (rewrite I3, ?u32_add, ?u32_sub, ?length_app; f_equal; cbn; lia).
  all: try (intros x; specialize (I8 x); specialize (I9 x); specialize (Hocc x); rewrite ?Hf, ?Hw by (cbn in *; lia);
            rewrite ?(count_insert _ _ _ _ _ _ _ Ht), ?occurs_app, ?occurrences_one; cbn in *; lia).
  all: try (intros; rewrite ?length_app in *; cbn in *; lia).
  all: try (intros _ Hs; apply I5; cbn in *; lia).
  all: try (rewrite <-?app_assoc; done).
  - by rewrite app_assoc, I1.
  - rewrite length_app, seq_app, fmap_app, <-I2. done.
  - intros _ _. exfalso. apply I5; [cbn in *; lia|done].
Qed.
End Step.

Definition inv (s : system) : Prop := counts (shared s) (threads s) ∧ items (shared s) (threads s).

Lemma work_queue_invariant n s : reachable (next MinimumThreads MaximumThreads) (start n) s → inv s.
Proof.
  apply reachable_invariant.
  - assert (∀ w, w Idle = 0 → count w (threads (start n)) = 0) as H0.
    { intros w Hw. unfold count. cbn [threads start]. induction (seq 0 n) as [|i l IH]; [done|]. rewrite fmap_cons, total_cons, IH. cbn. by rewrite Hw. }
    split; constructor; try intros x; rewrite ?H0; try done; cbn; try lia.
  - intros s1 s2 [HC HI] Hstep. destruct Hstep as [i σ ts [k d] σ' t' Ht Hin].
    apply list_elem_of_fmap in Hin as ([σ1 d'] & [= -> ->] & Hin). cbn [Index Doing id] in *.
    split; [by eapply counts_step|by eapply items_step].
Qed.
End Invariant.

(** ** Occurrences *)

Lemma occurrences_pos x l : x ∈ l ↔ 0 < occurrences x l.
Proof.
  induction l as [|y l IH]; [split; [by intros ?%elem_of_nil|done]|]. unfold occurrences in *. rewrite elem_of_cons, total_cons, IH.
  pose proof (occurs_nonneg x l). unfold occurrences in *. unfold one at 2. case_decide; [split; [lia|by left]|split; [intros [?|?]; [done|lia]|right; lia]].
Qed.

Lemma occurrences_nodup l : NoDup l ↔ ∀ x, occurrences x l ≤ 1.
Proof.
  induction l as [|y l IH]; [split; [done|constructor]|]. rewrite NoDup_cons, IH. unfold occurrences. split.
  - intros [Hy Hl] x. rewrite total_cons. specialize (Hl x). unfold one at 1. case_decide as E; [subst y|lia].
    rewrite occurrences_pos in Hy. unfold occurrences in Hy. lia.
  - intros H. split.
    + rewrite occurrences_pos. specialize (H y). rewrite total_cons in H. unfold occurrences. unfold one at 1 in H. rewrite decide_True in H by done. lia.
    + intros x. specialize (H x). rewrite total_cons in H. pose proof (one_range x y). lia.
Qed.

Lemma occurrences_permutation l l' : NoDup l' → (∀ x, occurrences x l = occurrences x l') → l ≡ₚ l'.
Proof.
  intros HN H. apply NoDup_Permutation; [|done|].
  - apply occurrences_nodup. intros x. rewrite H. by apply occurrences_nodup.
  - intros x. by rewrite !occurrences_pos, H.
Qed.

(** A thread that a count which is not zero is about. *)
Lemma count_pos w ts : 0 < count w ts → ∃ i t, ts !! i = Some t ∧ 0 < w (Doing t).
Proof. apply total_pos. Qed.

(** Sums of weights that are not negative for any activity. *)
Ltac not_negative := intros [| [] | [] | [] | [] |]; cbn; repeat case_match; try lia; apply one_range.

(** What the invariant says of the items. *)
Section Items.
Context (MaximumThreads : Z) (σ : PH_WORK_QUEUE) (ts : list thread) (HC : counts MaximumThreads σ ts) (HI : items σ ts).

Lemma queued_nodup : NoDup (Queued σ).
Proof. rewrite (items_names _ _ HI). apply NoDup_fmap_2; [apply _|apply NoDup_seq]. Qed.

Lemma queued_once x : occurrences x (Dequeued σ) + occurrences x (QueueListHead σ) ≤ 1.
Proof. rewrite <-occurs_app, (items_order _ _ HI). apply occurrences_nodup, queued_nodup. Qed.

Lemma finished_alone : 0 ≤ count finished ts ≤ 1 ∧ (0 < count finished ts → count works ts = 0).
Proof.
  assert (count finished ts ≤ count finishing ts) by (apply count_le; not_negative).
  assert (count finishing ts ≤ count deletes ts) by (apply count_le; not_negative).
  assert (0 ≤ count finished ts) by (apply count_nonneg; not_negative). assert (0 ≤ count works ts) by (apply count_nonneg; not_negative).
  assert (0 ≤ count with_reference ts) by (apply count_nonneg; not_negative).
  pose proof (counts_deletes _ _ _ HC). assert (Z.b2z (Terminating σ) ≤ 1) by (by destruct (Terminating σ)). split; [lia|].
  intros Hf. pose proof (counts_finishing _ _ _ HC ltac:(lia)). pose proof (counts_rundown _ _ _ HC). pose proof (counts_starting _ _ _ HC). lia.
Qed.

Lemma executed_once : NoDup (Executed σ) ∧ Executed σ ⊆ Dequeued σ.
Proof.
  assert (∀ x, 0 ≤ count (to_execute x) ts) as Hex by (intros x; apply count_nonneg; not_negative).
  split; [apply occurrences_nodup|]; intros x; pose proof (items_executed _ _ HI x) as H1; specialize (Hex x).
  - pose proof (occurs_nonneg x (QueueListHead σ)). pose proof (queued_once x). lia.
  - rewrite !occurrences_pos. lia.
Qed.

Lemma destroyed_once : NoDup (Destroyed σ).
Proof.
  apply occurrences_nodup. intros x. pose proof (items_destroyed _ _ HI x) as H1. pose proof (queued_once x). pose proof (occurs_nonneg x (QueueListHead σ)).
  assert (0 ≤ count (to_destroy x) ts) by (apply count_nonneg; not_negative). pose proof finished_alone. nia.
Qed.

Lemma in_hand x : x ∈ Dequeued σ → x ∉ Executed σ →
  ∃ i t, ts !! i = Some t ∧ (Doing t = Working (worker_unlock (Some x)) ∨ Doing t = Working (worker_execute x)).
Proof.
  rewrite !occurrences_pos. intros H1 H2. pose proof (items_executed _ _ HI x). pose proof (occurs_nonneg x (Executed σ)).
  destruct (count_pos (to_execute x) ts) as (i & [k d] & Ht & Hw); [lia|]. exists i, (Thread k d). split; [done|]. cbn [Doing] in *.
  destruct d as [|p|p|p|p|]; cbn in Hw; try lia. destruct p as [| | | | | | | | | |[y|]|y| | | | | |]; cbn in Hw; try lia;
    unfold one in Hw; case_decide; [|lia| |lia]; subst y; auto.
Qed.

(** After the deletion. *)
Lemma deletion_over i t : ts !! i = Some t → Doing t = Deleted →
  (∀ j u p, ts !! j = Some u → Doing u ≠ Working p) ∧ Destroyed σ ≡ₚ Queued σ.
Proof.
  intros Ht Hd. assert (0 < count finished ts) as Hf.
  { destruct t as [k d]. cbn in Hd. subst d. pose proof (count_elem finished ts i k _ ltac:(not_negative) Ht) as H1. cbn in H1. lia. }
  destruct finished_alone as [Hf1 Hw]. specialize (Hw Hf).
  assert (∀ j u p, ts !! j = Some u → Doing u ≠ Working p) as Hno.
  { intros j [k d] p Hu Hdu. cbn in Hdu. subst d. pose proof (count_elem works ts j k _ ltac:(not_negative) Hu) as H1. cbn in H1. lia. }
  split; [done|]. apply occurrences_permutation; [apply queued_nodup|]. intros x. rewrite <-(items_order _ _ HI), occurs_app.
  pose proof (items_destroyed _ _ HI x) as Hx. replace (count finished ts) with 1 in Hx by lia.
  assert (0 ≤ count (to_destroy x) ts) by (apply count_nonneg; not_negative).
  destruct (decide (0 < count (to_destroy x) ts)) as [Hp|Hp]; [exfalso|lia]. apply count_pos in Hp as (j & [k d] & Hu & Hwd). cbn [Doing] in Hwd.
  destruct d; cbn in Hwd; try lia. by eapply Hno.
Qed.

End Items.

(** ** Properties *)

(** C26. Work queues lose and repeat nothing. For any number of threads, in every state
    that calls in any order and interleaving can lead to: items leave the queue in the
    order in which they entered it; an item is executed at most once and destroyed at
    most once, and one that has left the queue has been executed or is in the hands of a
    worker. There are never more threads than the maximum, and [CurrentThreads] is the
    number of the workers: those that run and have not taken themselves off the count in
    order to terminate, and those that were created and have not started, less those that
    the creating thread is still to count. The busy count is the number, modulo 2^32, of
    the items that are queued or being executed, but for those just queued and not yet
    counted. A worker that the semaphore let through always finds an item; and when the
    deletion is over no worker is left and every item was destroyed once, executed or
    not. *)
Theorem work_queue_safe MinimumThreads MaximumThreads n s :
  0 ≤ MaximumThreads < 2 ^ 32 → reachable (next MinimumThreads MaximumThreads) (start n) s →
  let σ := shared s in
  (Dequeued σ ++ QueueListHead σ = Queued σ ∧ NoDup (Queued σ)) ∧
  (NoDup (Executed σ) ∧ NoDup (Destroyed σ) ∧ Executed σ ⊆ Dequeued σ ∧
   ∀ x, x ∈ Dequeued σ → x ∉ Executed σ →
     ∃ i t, threads s !! i = Some t ∧ (Doing t = Working (worker_unlock (Some x)) ∨ Doing t = Working (worker_execute x))) ∧
  (0 ≤ CurrentThreads σ ≤ MaximumThreads ∧
   CurrentThreads σ = count counted (threads s) + Starting σ - count uncounted (threads s) ∧
   BusyCount σ = u32 (Z.of_nat (length (QueueListHead σ)) + count executing (threads s) - count not_busy (threads s))) ∧
  (Z.of_nat (length (Queued σ)) ≤ MAXLONG →
   ∀ i t, threads s !! i = Some t → Doing t = Working worker_dequeue → QueueListHead σ ≠ []) ∧
  (∀ i t, threads s !! i = Some t → Doing t = Deleted →
     (∀ j u p, threads s !! j = Some u → Doing u ≠ Working p) ∧ Destroyed σ ≡ₚ Queued σ).
Proof.
  intros Hmax Hs σ. destruct (work_queue_invariant _ _ Hmax _ _ Hs) as [HC HI]. fold σ in HC, HI. split_and!.
  - apply (items_order _ _ HI).
  - by apply (queued_nodup σ (threads s)).
  - by apply (executed_once σ (threads s)).
  - by apply (destroyed_once MaximumThreads σ (threads s)).
  - by apply (executed_once σ (threads s)).
  - by apply in_hand.
  - apply (counts_limit _ _ _ HC).
  - pose proof (counts_limit _ _ _ HC). assert (0 ≤ count creating (threads s)) by (apply count_nonneg; not_negative). lia.
  - pose proof (counts_threads _ _ _ HC). lia.
  - apply (items_busy _ _ HI).
  - intros Hlen i [k d] Ht Hdo E. cbn [Doing] in Hdo. subst d. pose proof (items_committed _ _ HI Hlen) as Hcm. unfold queue_length in Hcm. rewrite E in Hcm.
    pose proof (count_elem committed (threads s) i k _ ltac:(not_negative) Ht). cbn in *. lia.
  - intros i t. by apply (deletion_over MaximumThreads).
Qed.

Definition turns (i n : nat) : list (nat * nat) := replicate n (i, 0%nat).

(** Thread 0 queues an item, thread 1 becomes the worker that executes it and waits for
    more until it times out; then thread 0 deletes the queue. *)
Definition delete_schedule : list (nat * nat) :=
  ((0, 0) :: turns 0 16 ++ [(1, 3)] ++ turns 1 3 ++ [(1, 1)] ++ turns 1 11 ++ turns 1 4 ++ [(0, 2)] ++ turns 0 3)%nat.

Lemma work_queue_safe_witness : ∃ s, run (next 0 3) delete_schedule (start 2) = Some s ∧
  Executed (shared s) = [0] ∧ Destroyed (shared s) ≡ₚ Queued (shared s).
Proof.
  eexists. split; [by vm_compute|]. split; [done|]. set (s := System _ _).
  assert (reachable (next 0 3) (start 2) s) as Hs by (by apply (run_steps _ delete_schedule)).
  destruct (work_queue_safe 0 3 2 s ltac:(lia) Hs) as (_ & _ & _ & _ & H). by apply (H 0%nat (Thread 0 Deleted)).
Defined.

(** Two workers execute an item each, wait for more, and time out; before they have
    acquired the lock to terminate, thread 0 queues a third item. *)
Definition lost_schedule : list (nat * nat) :=
  ((0, 0) :: turns 0 16 ++ [(1, 3)] ++ turns 1 3 ++ [(1, 1)] ++ turns 1 4 ++
   (0, 0) :: turns 0 15 ++ [(2, 3)] ++ turns 2 3 ++ [(2, 1)] ++ turns 2 4 ++ turns 1 7 ++ turns 2 7 ++
   (0, 0) :: turns 0 8 ++ turns 1 4 ++ turns 2 4)%nat.

(** An item can be left behind. With the parameters of the global work queue, two
    workers whose waits have timed out terminate without looking at the queue again,
    while the thread that queues an item in the meantime finds fewer busy threads than
    threads and creates none: the item stays in the queue, its semaphore count too, and
    no thread is there or on its way to execute it. *)
Theorem work_queue_lost_item : ∃ s, run (next 0 3) lost_schedule (start 3) = Some s ∧
  (Doing <$> threads s) = [Idle; Idle; Idle] ∧ QueueListHead (shared s) = [2] ∧ SemaphoreHandle (shared s) = Some 1 ∧
  CurrentThreads (shared s) = 0 ∧ Starting (shared s) = 0 ∧ Terminating (shared s) = false.
Proof. eexists. split; [by vm_compute|]. by split_and!. Qed.

(** Thread 0 queues an item, threads 2 and 3 wait for the queue, and thread 1 is the
    worker that takes the item. *)
Definition wait_schedule : list (nat * nat) :=
  ((0, 0) :: turns 0 16 ++ [(2, 1)] ++ turns 2 2 ++ [(3, 1)] ++ turns 3 2 ++ [(1, 2)] ++ turns 1 3 ++ [(1, 1)] ++
   turns 1 4 ++ turns 2 3)%nat.

(** [PhWaitForWorkQueue] does not wait for items to be executed, and can wait
    forever. It returns in thread 2 as soon as the only item has been taken off the queue,
    before the worker executes it; and as the worker pulses the condition once, thread 3,
    which waits as well, is not woken: it stays where it is when the item was executed,
    the queue is empty and all other threads are gone. *)
Theorem work_queue_wait_returns_early : ∃ s s',
  run (next 0 3) wait_schedule (start 4) = Some s ∧
  (Doing <$> threads s) = [Idle; Working (worker_execute 0); Idle; WaitingQueue wait_blocked] ∧
  run (next 0 3) (turns 1 11) s = Some s' ∧
  (Doing <$> threads s') = [Idle; Idle; Idle; WaitingQueue wait_blocked] ∧
  QueueListHead (shared s') = [] ∧ Executed (shared s') = Queued (shared s') ∧
  act 0 3 (shared s') 3 (WaitingQueue wait_blocked) = [].
Proof. eexists _, _. split; [by vm_compute|]. split; [done|]. split; [by vm_compute|]. by split_and!. Qed.
