(* ===== verification/Checksum.v ===== *)
(** Checksums (src/phlib/util.c, src/phlib/data.c): CRC-32 by table and CRC-32C by
    instructions, against the register that shifts bit by bit. *)

From S2P Require Import Prelude.

(** ** The functions *)

(** The polynomial 0xedb88320. *)
Definition PhCrc32Table : list Z := [
   0x00000000; 0x77073096; 0xee0e612c; 0x990951ba; 0x076dc419; 0x706af48f; 0xe963a535; 0x9e6495a3;
   0x0edb8832; 0x79dcb8a4; 0xe0d5e91e; 0x97d2d988; 0x09b64c2b; 0x7eb17cbd; 0xe7b82d07; 0x90bf1d91;
   0x1db71064; 0x6ab020f2; 0xf3b97148; 0x84be41de; 0x1adad47d; 0x6ddde4eb; 0xf4d4b551; 0x83d385c7;
   0x136c9856; 0x646ba8c0; 0xfd62f97a; 0x8a65c9ec; 0x14015c4f; 0x63066cd9; 0xfa0f3d63; 0x8d080df5;
   0x3b6e20c8; 0x4c69105e; 0xd56041e4; 0xa2677172; 0x3c03e4d1; 0x4b04d447; 0xd20d85fd; 0xa50ab56b;
   0x35b5a8fa; 0x42b2986c; 0xdbbbc9d6; 0xacbcf940; 0x32d86ce3; 0x45df5c75; 0xdcd60dcf; 0xabd13d59;
   0x26d930ac; 0x51de003a; 0xc8d75180; 0xbfd06116; 0x21b4f4b5; 0x56b3c423; 0xcfba9599; 0xb8bda50f;
   0x2802b89e; 0x5f058808; 0xc60cd9b2; 0xb10be924; 0x2f6f7c87; 0x58684c11; 0xc1611dab; 0xb6662d3d;
   0x76dc4190; 0x01db7106; 0x98d220bc; 0xefd5102a; 0x71b18589; 0x06b6b51f; 0x9fbfe4a5; 0xe8b8d433;
   0x7807c9a2; 0x0f00f934; 0x9609a88e; 0xe10e9818; 0x7f6a0dbb; 0x086d3d2d; 0x91646c97; 0xe6635c01;
   0x6b6b51f4; 0x1c6c6162; 0x856530d8; 0xf262004e; 0x6c0695ed; 0x1b01a57b; 0x8208f4c1; 0xf50fc457;
   0x65b0d9c6; 0x12b7e950; 0x8bbeb8ea; 0xfcb9887c; 0x62dd1ddf; 0x15da2d49; 0x8cd37cf3; 0xfbd44c65;
   0x4db26158; 0x3ab551ce; 0xa3bc0074; 0xd4bb30e2; 0x4adfa541; 0x3dd895d7; 0xa4d1c46d; 0xd3d6f4fb;
   0x4369e96a; 0x346ed9fc; 0xad678846; 0xda60b8d0; 0x44042d73; 0x33031de5; 0xaa0a4c5f; 0xdd0d7cc9;
   0x5005713c; 0x270241aa; 0xbe0b1010; 0xc90c2086; 0x5768b525; 0x206f85b3; 0xb966d409; 0xce61e49f;
   0x5edef90e; 0x29d9c998; 0xb0d09822; 0xc7d7a8b4; 0x59b33d17; 0x2eb40d81; 0xb7bd5c3b; 0xc0ba6cad;
   0xedb88320; 0x9abfb3b6; 0x03b6e20c; 0x74b1d29a; 0xead54739; 0x9dd277af; 0x04db2615; 0x73dc1683;
   0xe3630b12; 0x94643b84; 0x0d6d6a3e; 0x7a6a5aa8; 0xe40ecf0b; 0x9309ff9d; 0x0a00ae27; 0x7d079eb1;
   0xf00f9344; 0x8708a3d2; 0x1e01f268; 0x6906c2fe; 0xf762575d; 0x806567cb; 0x196c3671; 0x6e6b06e7;
   0xfed41b76; 0x89d32be0; 0x10da7a5a; 0x67dd4acc; 0xf9b9df6f; 0x8ebeeff9; 0x17b7be43; 0x60b08ed5;
   0xd6d6a3e8; 0xa1d1937e; 0x38d8c2c4; 0x4fdff252; 0xd1bb67f1; 0xa6bc5767; 0x3fb506dd; 0x48b2364b;
   0xd80d2bda; 0xaf0a1b4c; 0x36034af6; 0x41047a60; 0xdf60efc3; 0xa867df55; 0x316e8eef; 0x4669be79;
   0xcb61b38c; 0xbc66831a; 0x256fd2a0; 0x5268e236; 0xcc0c7795; 0xbb0b4703; 0x220216b9; 0x5505262f;
   0xc5ba3bbe; 0xb2bd0b28; 0x2bb45a92; 0x5cb36a04; 0xc2d7ffa7; 0xb5d0cf31; 0x2cd99e8b; 0x5bdeae1d;
   0x9b64c2b0; 0xec63f226; 0x756aa39c; 0x026d930a; 0x9c0906a9; 0xeb0e363f; 0x72076785; 0x05005713;
   0x95bf4a82; 0xe2b87a14; 0x7bb12bae; 0x0cb61b38; 0x92d28e9b; 0xe5d5be0d; 0x7cdcefb7; 0x0bdbdf21;
   0x86d3d2d4; 0xf1d4e242; 0x68ddb3f8; 0x1fda836e; 0x81be16cd; 0xf6b9265b; 0x6fb077e1; 0x18b74777;
   0x88085ae6; 0xff0f6a70; 0x66063bca; 0x11010b5c; 0x8f659eff; 0xf862ae69; 0x616bffd3; 0x166ccf45;
   0xa00ae278; 0xd70dd2ee; 0x4e048354; 0x3903b3c2; 0xa7672661; 0xd06016f7; 0x4969474d; 0x3e6e77db;
   0xaed16a4a; 0xd9d65adc; 0x40df0b66; 0x37d83bf0; 0xa9bcae53; 0xdebb9ec5; 0x47b2cf7f; 0x30b5ffe9;
   0xbdbdf21c; 0xcabac28a; 0x53b39330; 0x24b4a3a6; 0xbad03605; 0xcdd70693; 0x54de5729; 0x23d967bf;
   0xb3667a2e; 0xc4614ab8; 0x5d681b02; 0x2a6f2b94; 0xb40bbe37; 0xc30c8ea1; 0x5a05df1b; 0x2d02ef8d].

Definition table_entry (i : Z) : Z := nth (Z.to_nat i) PhCrc32Table 0.

(** [Buffer] is the characters, [Length] their number; a [CHAR] is signed. *)
Definition crc_step (Crc byte : Z) : Z := Z.lxor (Z.shiftr Crc 8) (table_entry (Z.land (Z.lxor Crc byte) 0xff)).

Definition PhCrc32 (Crc : Z) (Buffer : list Z) : Z := Z.lxor (foldl crc_step (Z.lxor Crc 0xffffffff) Buffer) 0xffffffff.

(** The number that bytes in little-endian order make, and the bytes of a number. *)
Fixpoint little_endian (bytes : list Z) : Z :=
  match bytes with
  | [] => 0
  | b :: bytes => b + 2 ^ 8 * little_endian bytes
  end.

Fixpoint bytes_of (n : nat) (v : Z) : list Z :=
  match n with
  | O => []
  | S n => v mod 2 ^ 8 :: bytes_of n (v / 2 ^ 8)
  end.

Section Instructions.
(** The instructions behind [_mm_crc32_u8] to [_mm_crc32_u64], by the number of bytes of
    their operand. *)
Context (_mm_crc32 : nat → Z → Z → Z).

(** A loop of [blocks] turns with operands of [size] bytes. The operand is
    [( *Buffer)++]: what increases is the number at [Buffer], in place. *)
Fixpoint crc_blocks (blocks size : nat) (Crc : Z) (Buffer : list Z) : Z * list Z :=
  match blocks with
  | O => (Crc, Buffer)
  | S blocks =>
      let v := little_endian (take size Buffer) in
      crc_blocks blocks size (u32 (_mm_crc32 size Crc v)) (bytes_of size (v + 1) ++ drop size Buffer)
  end.

(** The checksum and what the buffer contains afterwards, on a 64-bit processor. *)
Definition PhCrc32C (Crc : Z) (Buffer : list Z) : Z * list Z :=
  let Length := length Buffer in
  let u64_blocks := (Length / 8)%nat in
  let u64_remaining := (Length mod 8)%nat in
  let u32_blocks := (u64_remaining / 4)%nat in
  let u32_remaining := (u64_remaining mod 4)%nat in
  let u16_blocks := (u32_remaining / 2)%nat in
  let u8_blocks := (u32_remaining mod 1)%nat in
  let Crc := Z.lxor Crc 0xffffffff in
  let '(Crc, Buffer) := crc_blocks u8_blocks 1 Crc Buffer in
  let '(Crc, Buffer) := crc_blocks u16_blocks 2 Crc Buffer in
  let '(Crc, Buffer) := crc_blocks u32_blocks 4 Crc Buffer in
  let '(Crc, Buffer) := crc_blocks u64_blocks 8 Crc Buffer in
  (Z.lxor Crc 0xffffffff, Buffer).

End Instructions.

Lemma testbit_above c n i : 0 ≤ c < 2 ^ n → n ≤ i → Z.testbit c i = false.
Proof.
  intros Hc Hi. destruct (decide (0 ≤ n)); [|rewrite Z.pow_neg_r in Hc; lia].
  rewrite <-(Z.mod_small c (2 ^ n)) by done. by apply Z.mod_pow2_bits_high.
Qed.

Lemma lxor_range a b n : 0 ≤ n → 0 ≤ a < 2 ^ n → 0 ≤ b < 2 ^ n → 0 ≤ Z.lxor a b < 2 ^ n.
Proof.
  intros Hn Ha Hb. enough (Z.lxor a b = Z.lxor a b mod 2 ^ n) as -> by (apply Z.mod_pos_bound, Z.pow_pos_nonneg; lia).
  apply Z.bits_inj'. intros i Hi. destruct (decide (i < n)); [by rewrite Z.mod_pow2_bits_low|].
  rewrite Z.mod_pow2_bits_high, Z.lxor_spec, (testbit_above a n), (testbit_above b n) by (done || lia). done.
Qed.

Lemma lxor_cancel a b c : Z.lxor a c = Z.lxor b c → a = b.
Proof.
  intros H. rewrite <-(Z.lxor_0_r a), <-(Z.lxor_0_r b), <-(Z.lxor_nilpotent c), <-!Z.lxor_assoc. by rewrite H.
Qed.

Lemma little_endian_range bytes :
  Forall (λ b, 0 ≤ b < 2 ^ 8) bytes → 0 ≤ little_endian bytes < 2 ^ (8 * Z.of_nat (length bytes)).
Proof.
  induction 1 as [|b bytes Hb _ IH]; [cbn; lia|]. cbn [little_endian length].
  replace (8 * Z.of_nat (S (length bytes))) with (8 + 8 * Z.of_nat (length bytes)) by lia.
  rewrite Z.pow_add_r by lia. nia.
Qed.

Lemma little_endian_inj x : ∀ y,
  Forall (λ b, 0 ≤ b < 2 ^ 8) x → Forall (λ b, 0 ≤ b < 2 ^ 8) y → length x = length y →
  little_endian x = little_endian y → x = y.
Proof.
  induction x as [|a x IH]; intros [|b y] Hx Hy Hl He; try done.
  apply Forall_cons in Hx as [Ha Hx]. apply Forall_cons in Hy as [Hb Hy]. cbn [little_endian] in He.
  f_equal; [lia|]. apply IH; auto; lia.
Qed.

(** A checksum of a number and its successors, as operands of a number of bytes. *)
Fixpoint successors (_mm_crc32 : nat → Z → Z → Z) (size k : nat) (Crc v : Z) : Z :=
  match k with
  | O => Crc
  | S k => successors _mm_crc32 size k (u32 (_mm_crc32 size Crc (v mod 2 ^ (8 * Z.of_nat size)))) (v + 1)
  end.

(** ** Reference: the shift register

    One bit is shifted out at a time; the polynomial is subtracted, which is exclusive
    or, when it is set. *)
Section Register.
Context (poly : Z).

Definition shift_bit (c : Z) : Z := if Z.odd c then Z.lxor (Z.shiftr c 1) poly else Z.shiftr c 1.
Definition shift_bits (n : nat) (c : Z) : Z := Nat.iter n shift_bit c.
Definition shift_byte (c byte : Z) : Z := shift_bits 8 (Z.lxor c byte).

(** The checksum of some bytes, going on from the checksum of others. *)
Definition checksum (c : Z) (bytes : list Z) : Z := Z.lxor (foldl shift_byte (Z.lxor c 0xffffffff) bytes) 0xffffffff.

Lemma shift_bit_lxor a b : shift_bit (Z.lxor a b) = Z.lxor (shift_bit a) (shift_bit b).
Proof.
  unfold shift_bit. rewrite <-!Z.bit0_odd, Z.lxor_spec, Z.shiftr_lxor.
  destruct (Z.testbit a 0), (Z.testbit b 0); cbn [xorb];
    apply Z.bits_inj; intros i; rewrite ?Z.lxor_spec;
    destruct (Z.testbit (a ≫ 1) i), (Z.testbit (b ≫ 1) i), (Z.testbit poly i); reflexivity.
Qed.

Lemma shift_bits_S n c : shift_bits (S n) c = shift_bit (shift_bits n c).
Proof. done. Qed.

Lemma shift_bits_lxor n a b : shift_bits n (Z.lxor a b) = Z.lxor (shift_bits n a) (shift_bits n b).
Proof. induction n as [|n IH]; [done|]. by rewrite !shift_bits_S, IH, shift_bit_lxor. Qed.

Lemma shift_bits_add m n c : shift_bits (m + n) c = shift_bits m (shift_bits n c).
Proof. apply Nat.iter_add. Qed.

Lemma shift_bits_high n x : shift_bits n (2 ^ Z.of_nat n * x) = x.
Proof.
  induction n as [|n IH]; [cbn; lia|]. replace (S n) with (n + 1)%nat by lia. rewrite shift_bits_add.
  rewrite <-IH at 2. f_equal. cbn. unfold shift_bit.
  replace (2 ^ Z.of_nat (n + 1) * x) with (2 * (2 ^ Z.of_nat n * x))
    by (rewrite Nat2Z.inj_add, Z.pow_add_r by lia; change (2 ^ Z.of_nat 1) with 2; ring).
  rewrite Z.odd_mul. cbn [Z.odd andb]. rewrite Z.shiftr_div_pow2 by lia. change (2 ^ 1) with 2. rewrite Z.mul_comm. apply Z.div_mul. lia.
Qed.

(** Bytes at once: the register takes up the number that they make. *)
Lemma fold_shift_byte bytes : ∀ c,
  Forall (λ b, 0 ≤ b < 2 ^ 8) bytes →
  foldl shift_byte c bytes = shift_bits (8 * length bytes) (Z.lxor c (little_endian bytes)).
Proof.
  induction bytes as [|b bytes IH]; intros c Hb; [cbn; by rewrite Z.lxor_0_r|].
  apply Forall_cons in Hb as [Hb Hbs]. cbn [foldl little_endian]. rewrite IH by done. unfold shift_byte.
  rewrite <-(shift_bits_high 8 (little_endian bytes)) at 1.
  rewrite <-shift_bits_lxor, <-shift_bits_add.
  cbn [length]. replace (8 * S (length bytes))%nat with (8 * length bytes + 8)%nat by lia. f_equal.
  rewrite Z.lxor_assoc. f_equal. change (2 ^ Z.of_nat 8) with (2 ^ 8). symmetry.
  rewrite Z.add_nocarry_lxor; [done|]. apply Z.bits_inj_0. intros i. rewrite Z.land_spec.
  destruct (decide (i < 8)).
  - rewrite Z.mul_comm, Z.mul_pow2_bits_low by lia. apply andb_false_r.
  - rewrite (Z.testbit_eqb b) by lia. rewrite Z.div_small; [done|]. split; [lia|].
    apply Z.lt_le_trans with (2 ^ 8); [lia|]. apply Z.pow_le_mono_r; lia.
Qed.

(** A register of 32 bits loses nothing when the polynomial has its bit 31. *)
Hypothesis Hpoly : 2 ^ 31 ≤ poly < 2 ^ 32.

Lemma shift_bit_range c : 0 ≤ c < 2 ^ 32 → 0 ≤ shift_bit c < 2 ^ 32.
Proof.
  intros Hc. unfold shift_bit. rewrite Z.shiftr_div_pow2 by lia. change (2 ^ 1) with 2.
  pose proof (Z.div_lt_upper_bound c 2 (2 ^ 31) ltac:(lia) ltac:(lia)). pose proof (Z.div_pos c 2 ltac:(lia) ltac:(lia)).
  destruct (Z.odd c); [|lia]. apply lxor_range; lia.
Qed.

Lemma shift_bit_inj a b : 0 ≤ a < 2 ^ 32 → 0 ≤ b < 2 ^ 32 → shift_bit a = shift_bit b → a = b.
Proof.
  intros Ha Hb. unfold shift_bit.
  assert (∀ c, 0 ≤ c < 2 ^ 32 → Z.testbit (c ≫ 1) 31 = false) as Htop.
  { intros c Hc. rewrite Z.shiftr_spec by lia. by apply (testbit_above c 32). }
  assert (Z.testbit poly 31 = true) as Hbit.
  { rewrite Z.testbit_true by lia. assert (poly / 2 ^ 31 = 1) as -> by (symmetry; apply (Z.div_unique _ _ _ (poly - 2 ^ 31)); lia). done. }
  pose proof (Zdiv2_odd_eqn a) as Ea. pose proof (Zdiv2_odd_eqn b) as Eb. rewrite Z.div2_spec in Ea, Eb.
  destruct (Z.odd a), (Z.odd b); intros H.
  - apply lxor_cancel in H. lia.
  - apply (f_equal (λ c, Z.testbit c 31)) in H. by rewrite Z.lxor_spec, !Htop, Hbit in H.
  - apply (f_equal (λ c, Z.testbit c 31)) in H. by rewrite Z.lxor_spec, !Htop, Hbit in H.
  - lia.
Qed.

Lemma shift_bits_range n c : 0 ≤ c < 2 ^ 32 → 0 ≤ shift_bits n c < 2 ^ 32.
Proof. intros Hc. induction n as [|n IH]; [done|]. rewrite shift_bits_S. by apply shift_bit_range. Qed.

Lemma shift_bits_inj n a b : 0 ≤ a < 2 ^ 32 → 0 ≤ b < 2 ^ 32 → shift_bits n a = shift_bits n b → a = b.
Proof.
  intros Ha Hb. induction n as [|n IH]; [done|]. rewrite !shift_bits_S.
  intros H%shift_bit_inj; auto using shift_bits_range.
Qed.

Lemma fold_shift_byte_range bytes c :
  Forall (λ b, 0 ≤ b < 2 ^ 8) bytes → 0 ≤ c < 2 ^ 32 → 0 ≤ foldl shift_byte c bytes < 2 ^ 32.
Proof.
  intros Hb. revert c. induction Hb as [|b bytes Hb _ IH]; intros c Hc; [done|]. cbn [foldl]. apply IH.
  apply shift_bits_range, lxor_range; lia.
Qed.

Lemma fold_shift_byte_inj bytes a b :
  Forall (λ b, 0 ≤ b < 2 ^ 8) bytes → 0 ≤ a < 2 ^ 32 → 0 ≤ b < 2 ^ 32 →
  foldl shift_byte a bytes = foldl shift_byte b bytes → a = b.
Proof.
  intros Hs. revert a b. induction Hs as [|x bytes Hx _ IH]; intros a b Ha Hb H; [done|]. cbn [foldl] in H.
  apply IH in H; try (apply shift_bits_range, lxor_range; lia).
  apply shift_bits_inj in H; try (apply lxor_range; lia). by apply lxor_cancel in H.
Qed.

(** Changing up to four bytes in a row changes the checksum. *)
Lemma checksum_burst c before x y after :
  0 ≤ c < 2 ^ 32 → Forall (λ b, 0 ≤ b < 2 ^ 8) (before ++ x ++ after) → Forall (λ b, 0 ≤ b < 2 ^ 8) y →
  length x = length y → (length x ≤ 4)%nat → x ≠ y →
  checksum c (before ++ x ++ after) ≠ checksum c (before ++ y ++ after).
Proof.
  intros Hc [Hbefore [Hx Hafter]%Forall_app]%Forall_app Hy Hl H4 Hne H. apply Hne. unfold checksum in H.
  apply lxor_cancel in H. rewrite !foldl_app in H.
  assert (0 ≤ Z.lxor c 0xffffffff < 2 ^ 32) as Hc' by (apply lxor_range; lia).
  pose proof (fold_shift_byte_range before _ Hbefore Hc') as Hs.
  apply fold_shift_byte_inj in H; auto using fold_shift_byte_range.
  revert H Hs. generalize (foldl shift_byte (Z.lxor c 0xffffffff) before). intros d H Hs.
  rewrite !fold_shift_byte, <-Hl in H by done.
  assert (∀ z, Forall (λ b, 0 ≤ b < 2 ^ 8) z → length z = length x → 0 ≤ little_endian z < 2 ^ 32) as Hz.
  { intros z Hz Hlz. pose proof (little_endian_range z Hz). rewrite Hlz in *.
    assert (2 ^ (8 * Z.of_nat (length x)) ≤ 2 ^ 32) by (apply Z.pow_le_mono_r; lia). lia. }
  apply shift_bits_inj in H; try (apply lxor_range; auto; lia).
  rewrite !(Z.lxor_comm d) in H. apply lxor_cancel in H. by apply little_endian_inj.
Qed.

End Register.

(** ** The table *)

Lemma table_entry_shift i : 0 ≤ i < 256 → table_entry i = shift_bits 0xedb88320 8 i.
Proof.
  intros Hi. assert (forallb (λ n, table_entry (Z.of_nat n) =? shift_bits 0xedb88320 8 (Z.of_nat n)) (seq 0 256) = true) as H
    by (vm_compute; reflexivity).
  rewrite forallb_forall in H. specialize (H (Z.to_nat i)). rewrite Z2Nat.id in H by lia.
  apply Z.eqb_eq, H. apply in_seq. lia.
Qed.

(** A step with the table is eight shifts; of a sign-extended character only the low byte counts. *)
Lemma crc_step_shift c b : crc_step c b = shift_byte 0xedb88320 c (u8 b).
Proof.
  unfold crc_step, shift_byte, u8. set (d := Z.lxor c (b mod 2 ^ 8)).
  assert (Z.land (Z.lxor c b) 0xff = d mod 2 ^ 8) as Hlow.
  { change 0xff with (2 ^ 8 - 1). rewrite land_pow2 by lia. apply Z.bits_inj'. intros i Hi.
    destruct (decide (i < 8)); [|by rewrite !Z.mod_pow2_bits_high by lia].
    subst d. rewrite !Z.mod_pow2_bits_low, !Z.lxor_spec, Z.mod_pow2_bits_low by lia. done. }
  assert (c ≫ 8 = d / 2 ^ 8) as Hhigh.
  { rewrite <-Z.shiftr_div_pow2 by lia. apply Z.bits_inj'. intros i Hi. subst d.
    rewrite !Z.shiftr_spec, Z.lxor_spec, Z.mod_pow2_bits_high by lia. by rewrite xorb_false_r. }
  rewrite Hlow, Hhigh, table_entry_shift by (apply Z.mod_pos_bound; lia).
  rewrite <-(shift_bits_high 0xedb88320 8 (d / 2 ^ 8)) at 1. rewrite <-shift_bits_lxor. f_equal.
  change (Z.of_nat 8) with 8. apply Z.bits_inj'. intros i Hi. rewrite Z.lxor_spec, Z.mul_comm.
  destruct (decide (i < 8)).
  - by rewrite Z.mul_pow2_bits_low, Z.mod_pow2_bits_low by lia.
  - rewrite Z.mul_pow2_bits, Z.mod_pow2_bits_high, xorb_false_r, Z.div_pow2_bits by lia. f_equal. lia.
Qed.

(** C27. The CRC-32 by table is that of the shift register with polynomial 0xedb88320, over
    the characters taken as bytes. It can be taken in pieces; and whatever the bytes
    around them, replacing up to four bytes in a row by others changes it. *)
Theorem crc32_correct Crc Buffer :
  PhCrc32 Crc Buffer = checksum 0xedb88320 Crc (u8 <$> Buffer) ∧
  (∀ Rest, PhCrc32 Crc (Buffer ++ Rest) = PhCrc32 (PhCrc32 Crc Buffer) Rest) ∧
  (∀ before x y after,
     0 ≤ Crc < 2 ^ 32 → length x = length y → (length x ≤ 4)%nat → u8 <$> x ≠ u8 <$> y →
     PhCrc32 Crc (before ++ x ++ after) ≠ PhCrc32 Crc (before ++ y ++ after)).
Proof.
  assert (∀ c l, PhCrc32 c l = checksum 0xedb88320 c (u8 <$> l)) as Heq.
  { intros c l. unfold PhCrc32, checksum. f_equal. generalize (Z.lxor c 0xffffffff).
    induction l as [|b l IH]; intros d; [done|]. cbn [fmap list_fmap foldl]. by rewrite IH, crc_step_shift. }
  assert (∀ l, Forall (λ b, 0 ≤ b < 2 ^ 8) (u8 <$> l)) as Hu8.
  { intros l. apply Forall_fmap, Forall_true. intros b. apply Z.mod_pos_bound. lia. }
  repeat split; [apply Heq| |].
  - intros Rest. unfold PhCrc32. by rewrite foldl_app, Z.lxor_assoc, Z.lxor_nilpotent, Z.lxor_0_r.
  - intros before x y after Hc Hl H4 Hne. rewrite !Heq, !fmap_app.
    apply checksum_burst; rewrite ?length_fmap, <-?fmap_app; auto; lia.
Qed.

Lemma crc32_correct_witness :
  PhCrc32 0 [0x31; 0x32; 0x33; 0x34; 0x35; 0x36; 0x37; 0x38; 0x39] = 0xcbf43926 ∧
  PhCrc32 0 ([1] ++ [-1; 2] ++ [3]) ≠ PhCrc32 0 ([1] ++ [2; -1] ++ [3]).
Proof.
  split; [vm_compute; reflexivity|]. destruct (crc32_correct 0 []) as (_ & _ & H).
  apply H; [lia|done|cbn; lia|vm_compute; discriminate].
Defined.

(** ** CRC-32C *)
Section Crc32c.
Context (_mm_crc32 : nat → Z → Z → Z).

Lemma length_bytes_of n : ∀ v, length (bytes_of n v) = n.
Proof. induction n as [|n IH]; intros v; cbn; [done|]. by rewrite IH. Qed.

Lemma little_endian_bytes_of n : ∀ v, little_endian (bytes_of n v) = v mod 2 ^ (8 * Z.of_nat n).
Proof.
  induction n as [|n IH]; intros v; [by rewrite Z.mod_1_r|]. cbn [bytes_of little_endian]. rewrite IH.
  replace (8 * Z.of_nat (S n)) with (8 + 8 * Z.of_nat n) by lia. rewrite Z.pow_add_r by lia.
  rewrite Z.rem_mul_r by (try apply Z.pow_nonzero; lia). lia.
Qed.

Lemma take_bytes_of n v l : take n (bytes_of n v ++ l) = bytes_of n v.
Proof. rewrite <-(length_bytes_of n v) at 1. apply take_app_length. Qed.

Lemma drop_bytes_of n v l : drop n (bytes_of n v ++ l) = l.
Proof. rewrite <-(length_bytes_of n v) at 1. apply drop_app_length. Qed.

Lemma bytes_of_range n : ∀ v, Forall (λ b, 0 ≤ b < 2 ^ 8) (bytes_of n v).
Proof. induction n as [|n IH]; intros v; constructor; [|apply IH]. apply Z.mod_pos_bound. lia. Qed.

Lemma bytes_of_mod n a b : a mod 2 ^ (8 * Z.of_nat n) = b mod 2 ^ (8 * Z.of_nat n) → bytes_of n a = bytes_of n b.
Proof.
  intros H. apply little_endian_inj; auto using bytes_of_range; [by rewrite !length_bytes_of|].
  by rewrite !little_endian_bytes_of.
Qed.

Lemma bytes_of_little_endian l : Forall (λ b, 0 ≤ b < 2 ^ 8) l → bytes_of (length l) (little_endian l) = l.
Proof.
  intros H. apply little_endian_inj; auto using bytes_of_range; [by rewrite length_bytes_of|].
  rewrite little_endian_bytes_of. by apply Z.mod_small, little_endian_range.
Qed.

Lemma crc_blocks_successors size k : ∀ Crc v rest,
  crc_blocks _mm_crc32 k size Crc (bytes_of size v ++ rest) =
  (successors _mm_crc32 size k Crc v, bytes_of size (v + Z.of_nat k) ++ rest).
Proof.
  induction k as [|k IH]; intros Crc v rest; [cbn; by rewrite Z.add_0_r|].
  cbn [crc_blocks]. rewrite take_bytes_of, drop_bytes_of, little_endian_bytes_of.
  rewrite (bytes_of_mod size _ (v + 1)) by (apply Z.add_mod_idemp_l, Z.pow_nonzero; lia).
  rewrite IH. cbn [successors]. do 3 f_equal. lia.
Qed.

(** A loop only looks at the first eight bytes, and does not touch the others. *)
Lemma crc_blocks_local size k : ∀ Crc Buffer Buffer', (size ≤ 8)%nat → take 8 Buffer = take 8 Buffer' →
  (crc_blocks _mm_crc32 k size Crc Buffer).1 = (crc_blocks _mm_crc32 k size Crc Buffer').1 ∧
  take 8 (crc_blocks _mm_crc32 k size Crc Buffer).2 = take 8 (crc_blocks _mm_crc32 k size Crc Buffer').2 ∧
  drop 8 (crc_blocks _mm_crc32 k size Crc Buffer).2 = drop 8 Buffer.
Proof.
  induction k as [|k IH]; intros Crc Buffer Buffer' Hsize Heq; [done|]. cbn [crc_blocks].
  assert (take size Buffer = take size Buffer') as <-.
  { rewrite <-(Nat.min_l size 8) by done. by rewrite <-!take_take, Heq. }
  set (v := little_endian _). edestruct (IH (u32 (_mm_crc32 size Crc v))) as (H1 & H2 & H3); [done| |].
  2: { split; [exact H1|split; [exact H2|]]. rewrite H3, drop_app, drop_ge, length_bytes_of by (rewrite length_bytes_of; lia).
       cbn [app]. rewrite drop_drop. f_equal. lia. }
  rewrite !take_app, !length_bytes_of, !take_drop_commute. replace (size + (8 - size))%nat with 8%nat by lia. by rewrite Heq.
Qed.

(** [PhCrc32C] is not a checksum of its buffer: the increments in its loops apply to the
    numbers at the start of the buffer, not to the pointer. Its result depends on the
    length and the first eight bytes alone, and it changes those bytes. For a length that is
    a multiple of eight it takes up the first number and its successors, and leaves the last
    successor in the buffer; a single byte is not looked at at all. *)
Theorem crc32c_stays_at_start Crc Buffer :
  (∀ Buffer', length Buffer' = length Buffer → take 8 Buffer' = take 8 Buffer →
     (PhCrc32C _mm_crc32 Crc Buffer').1 = (PhCrc32C _mm_crc32 Crc Buffer).1) ∧
  drop 8 (PhCrc32C _mm_crc32 Crc Buffer).2 = drop 8 Buffer ∧
  (∀ v rest k, Buffer = bytes_of 8 v ++ rest → length Buffer = (8 * k)%nat →
     PhCrc32C _mm_crc32 Crc Buffer =
       (Z.lxor (successors _mm_crc32 8 k (Z.lxor Crc 0xffffffff) v) 0xffffffff,
        bytes_of 8 (v + Z.of_nat k) ++ rest)) ∧
  (length Buffer = 1%nat → PhCrc32C _mm_crc32 Crc Buffer = (Crc, Buffer)).
Proof.
  assert (∀ Buffer', length Buffer' = length Buffer → take 8 Buffer' = take 8 Buffer →
    (PhCrc32C _mm_crc32 Crc Buffer').1 = (PhCrc32C _mm_crc32 Crc Buffer).1 ∧
    drop 8 (PhCrc32C _mm_crc32 Crc Buffer').2 = drop 8 Buffer') as Hlocal.
  { intros Buffer' Hl Heq. unfold PhCrc32C. cbv zeta. rewrite Hl, !Nat.mod_1_r.
    generalize (length Buffer mod 8 mod 4 / 2)%nat as n2, (length Buffer mod 8 / 4)%nat as n4, (length Buffer / 8)%nat as n8.
    intros. cbn [crc_blocks]. destruct (crc_blocks_local 2 n2 (Z.lxor Crc 0xffffffff) Buffer' Buffer) as (H1 & H2 & H3); [lia|done|].
    destruct (crc_blocks _ n2 _ _ Buffer') as [c1 b1], (crc_blocks _ n2 _ _ Buffer) as [c2 b2]. cbn in H1, H2, H3. subst c2.
    destruct (crc_blocks_local 4 n4 c1 b1 b2) as (H4 & H5 & H6); [lia|done|].
    destruct (crc_blocks _ n4 _ _ b1) as [c3 b3], (crc_blocks _ n4 _ _ b2) as [c4 b4]. cbn in H4, H5, H6. subst c4.
    destruct (crc_blocks_local 8 n8 c3 b3 b4) as (H7 & H8 & H9); [lia|done|].
    destruct (crc_blocks _ n8 _ _ b3) as [c5 b5], (crc_blocks _ n8 _ _ b4) as [c6 b6]. cbn in H7, H8, H9 |- *. split; congruence. }
  split; [intros Buffer' ??; by apply Hlocal|]. split; [by apply Hlocal|]. split.
  - intros v rest k Hb Hl. unfold PhCrc32C. cbv zeta. rewrite Hl, (Nat.mul_comm 8), Nat.Div0.mod_mul, Nat.div_mul by lia.
    cbn [Nat.modulo Nat.div Nat.divmod fst snd Nat.sub crc_blocks]. rewrite Hb, crc_blocks_successors. done.
  - intros Hl. unfold PhCrc32C. rewrite Hl. cbn. by rewrite Z.lxor_assoc, Z.lxor_nilpotent, Z.lxor_0_r.
Qed.
End Crc32c.

Lemma crc32c_stays_at_start_witness :
  (PhCrc32C (λ _ c v, c + v) 0 (repeat 1 9)).1 = (PhCrc32C (λ _ c v, c + v) 0 (repeat 1 8 ++ [7])).1 ∧
  PhCrc32C (λ _ c v, c + v) 5 [3] = (5, [3]) ∧
  PhCrc32C (λ _ c v, c + v) 0 (bytes_of 8 6 ++ repeat 9 8) = (Z.lxor (successors (λ _ c v, c + v) 8 2 0xffffffff 6) 0xffffffff, [8; 0; 0; 0; 0; 0; 0; 0] ++ repeat 9 8).
Proof.
  split; [|split].
  - destruct (crc32c_stays_at_start (λ _ c v, c + v) 0 (repeat 1 8 ++ [7])) as (H & _). by apply H.
  - destruct (crc32c_stays_at_start (λ _ c v, c + v) 5 [3]) as (_ & _ & _ & H). by apply H.
  - destruct (crc32c_stays_at_start (λ _ c v, c + v) 0 (bytes_of 8 6 ++ repeat 9 8)) as (_ & _ & H & _).
    by rewrite (H 6 (repeat 9 8) 2%nat).
Defined.
