(* ===== verification/CommandLine.v ===== *)
(** Command lines (src/phlib/util.c): parts with quotation marks and backslashes, and the
    options of a command line with their arguments. *)

From S2P Require Import Prelude Blocks Strings StringBuilder.

(** ** Parts

    A command line is the list of its characters, and an index counts characters. *)

Definition backslash : Z := 0x5c.
Definition quote : Z := 0x22.
Definition space : Z := 0x20.
Definition dash : Z := 0x2d.

(** The local variables of the parser of a part. *)
Record part_state := Part { stringBuilder : PH_STRING_BUILDER; numberOfBackslashes : Z; inQuote : bool }.

(** [PhAppendCharStringBuilder2] of the backslashes that wait, if any. *)
Definition flush_backslashes (sb : PH_STRING_BUILDER) (n : Z) : result PH_STRING_BUILDER :=
  if negb (n =? 0) then PhAppendCharStringBuilder2 sb backslash n else Ok sb.

(** A character, and whether the part ends before it. *)
Definition part_char (p : part_state) (c : Z) : result (part_state * bool) :=
  let '(Part sb n inq) := p in
  if c =? backslash then Ok (Part sb (u32 (n + 1)) inq, false)
  else if c =? quote then
    if negb (n =? 0) && negb (Z.land n 1 =? 0) then
      sb ← flush_backslashes sb (n / 2);
      sb ← PhAppendCharStringBuilder sb quote;
      Ok (Part sb 0 inq, false)
    else
      sb ← (if negb (n =? 0) then PhAppendCharStringBuilder2 sb backslash (n / 2) else Ok sb);
      Ok (Part sb 0 (negb inq), false)
  else
    sb ← flush_backslashes sb n;
    if (c =? space) && negb inq then Ok (Part sb 0 inq, true)
    else
      sb ← PhAppendCharStringBuilder sb c;
      Ok (Part sb 0 inq, false).

(** [rest] is what follows the index [i]. *)
Fixpoint part_loop (p : part_state) (i : nat) (rest : list Z) : result (part_state * nat) :=
  match rest with
  | [] => Ok (p, i)
  | c :: rest =>
      r ← part_char p c;
      if r.2 : bool then Ok (r.1, i) else part_loop r.1 (S i) rest
  end.

(** The part and the new index. *)
Definition PhParseCommandLinePart (CommandLine : list Z) (Index : nat) : result (PH_STRING * nat) :=
  sb ← PhInitializeStringBuilder 0x80;
  r ← part_loop (Part sb 0 false) Index (drop Index CommandLine);
  Ok (PhFinalStringBuilderString (stringBuilder r.1), r.2).

Definition backslashAndQuote : list Z := [backslash; quote].

(** A character of the string that is escaped; the backslashes before it are counted. *)
Definition escape_char (sb : PH_STRING_BUILDER) (n : Z) (c : Z) : result (PH_STRING_BUILDER * Z) :=
  if c =? backslash then Ok (sb, u32 (n + 1))
  else if c =? quote then
    sb ← flush_backslashes sb (n * 2);
    sb ← PhAppendStringBuilderEx sb (Some backslashAndQuote) 4;
    Ok (sb, 0)
  else
    sb ← flush_backslashes sb n;
    sb ← PhAppendCharStringBuilder sb c;
    Ok (sb, 0).

Fixpoint escape_loop (sb : PH_STRING_BUILDER) (n : Z) (string : list Z) : result PH_STRING_BUILDER :=
  match string with
  | [] => Ok sb
  | c :: string => r ← escape_char sb n c; escape_loop r.1 r.2 string
  end.

(** The number of characters is counted with 32 bits. *)
Definition PhEscapeCommandLinePart (string : list Z) : result PH_STRING :=
  let Length := Z.of_nat (length string) * sizeof_WCHAR in
  let n := u32 Length / sizeof_WCHAR in
  sb ← PhInitializeStringBuilder (u64 (Length / sizeof_WCHAR * 3));
  sb ← escape_loop sb 0 (take (Z.to_nat n) string);
  Ok (PhFinalStringBuilderString sb).

(** ** Options *)

Inductive PH_COMMAND_LINE_OPTION_TYPE := NoArgumentType | MandatoryArgumentType | OptionalArgumentType.

#[global] Instance option_type_eq_dec : EqDecision PH_COMMAND_LINE_OPTION_TYPE.
Proof. solve_decision. Defined.

Record PH_COMMAND_LINE_OPTION := CommandLineOption { Id : Z; Name : list Z; Type_ : PH_COMMAND_LINE_OPTION_TYPE }.

Definition PH_COMMAND_LINE_IGNORE_UNKNOWN_OPTIONS : Z := 1.
Definition PH_COMMAND_LINE_IGNORE_FIRST_PART : Z := 2.

(** The index of the first character from [i] on that does not satisfy [p]. *)
Fixpoint skip_while (p : Z → bool) (i : nat) (rest : list Z) : nat :=
  match rest with
  | c :: rest => if p c then skip_while p (S i) rest else i
  | [] => i
  end.

Section Parser.
(** The upper case and the processor of [Strings], and [iswalnum] of the C library. *)
Context (PhUpcaseUnicodeChar : Z → Z) (PhHasIntrinsics : bool) (iswalnum : Z → bool).

(** The callback works on its context; it says whether to go on. *)
Context {Context_ : Type} (Callback : option PH_COMMAND_LINE_OPTION → option PH_STRING → Context_ → bool * Context_).
Context (CommandLine : list Z) (Options : list PH_COMMAND_LINE_OPTION) (Flags : Z).

Definition flag (f : Z) : bool := negb (Z.land Flags f =? 0).

Definition is_name_char (c : Z) : bool := iswalnum c || (c =? dash).

Definition equal_name (name : PH_STRINGREF) (o : PH_COMMAND_LINE_OPTION) : bool :=
  PhEqualStringRef PhUpcaseUnicodeChar PhHasIntrinsics name
    (StringRef (2 * Z.of_nat (length (Name o))) (Some (Name o ++ [0]))) false.

Definition find_option (name : PH_STRINGREF) : option PH_COMMAND_LINE_OPTION := List.find (equal_name name) Options.

Definition has_type (option : option PH_COMMAND_LINE_OPTION) (t : PH_COMMAND_LINE_OPTION_TYPE) : bool :=
  match option with
  | Some o => bool_decide (Type_ o = t)
  | None => false
  end.

(** How a turn of the loop ends: in another turn, by a break, or by returning. *)
Inductive turn :=
  | Next (i : nat) (option : option PH_COMMAND_LINE_OPTION) (wasFirst : bool) (context : Context_)
  | Break (cont : bool) (option : option PH_COMMAND_LINE_OPTION) (context : Context_)
  | Return (b : bool) (context : Context_).

(** The argument of an option. *)
Definition argument_turn (i : nat) (option : option PH_COMMAND_LINE_OPTION) (wasFirst : bool) (context : Context_) : result turn :=
  r ← PhParseCommandLinePart CommandLine i;
  let '(cont, context) := Callback option (Some r.1) context in
  Ok (if cont : bool then Next r.2 None wasFirst context else Break false option context).

(** An option: what is pending is called without an argument, then the name is looked up. *)
Definition option_turn (i : nat) (option : option PH_COMMAND_LINE_OPTION) (context : Context_) : turn :=
  let originalIndex := S i in
  let i := skip_while is_name_char originalIndex (drop originalIndex CommandLine) in
  let optionName := StringRef (Z.of_nat (i - originalIndex) * sizeof_WCHAR) (Some (drop originalIndex CommandLine)) in
  let '(cont, context) := if has_type option OptionalArgumentType then Callback option None context else (true, context) in
  if negb cont then Break false option context
  else
    let option := find_option optionName in
    if negb (bool_decide (is_Some option)) && negb (flag PH_COMMAND_LINE_IGNORE_UNKNOWN_OPTIONS) then Return false context
    else if has_type option NoArgumentType then
      let '(cont, context) := Callback option None context in
      if cont : bool then Next i None false context else Break false option context
    else Next i option false context.

(** A part that belongs to no option. *)
Definition value_turn (i : nat) (option : option PH_COMMAND_LINE_OPTION) (wasFirst : bool) (context : Context_) : result turn :=
  r ← PhParseCommandLinePart CommandLine i;
  if flag PH_COMMAND_LINE_IGNORE_FIRST_PART && wasFirst then Ok (Next r.2 option false context)
  else
    let '(cont, context) := Callback None (Some r.1) context in
    Ok (if cont : bool then Next r.2 option false context else Break false option context).

Definition command_turn (i : nat) (option : option PH_COMMAND_LINE_OPTION) (wasFirst : bool) (context : Context_) : result turn :=
  let i := skip_while (λ c, c =? space) i (drop i CommandLine) in
  match CommandLine !! i with
  | None => Ok (Break true option context)
  | Some c =>
      if has_type option MandatoryArgumentType || has_type option OptionalArgumentType && negb (c =? dash) then
        argument_turn i option wasFirst context
      else if c =? dash then Ok (option_turn i option context)
      else value_turn i option wasFirst context
  end.

Fixpoint command_loop (fuel : nat) (i : nat) (option : option PH_COMMAND_LINE_OPTION) (wasFirst : bool) (context : Context_) :
    result (bool * Context_) :=
  match fuel with
  | O => Fault
  | S fuel =>
      t ← command_turn i option wasFirst context;
      match t with
      | Next i option wasFirst context => command_loop fuel i option wasFirst context
      | Break cont option context =>
          Ok (true, if cont && has_type option OptionalArgumentType then (Callback option None context).2 else context)
      | Return b context => Ok (b, context)
      end
  end.

(** Each turn takes a character at least. *)
Definition PhParseCommandLine (context : Context_) : result (bool * Context_) :=
  if (length CommandLine =? 0)%nat then Ok (true, context)
  else command_loop (S (length CommandLine)) 0 None true context.

End Parser.
