(* ===== verification/CommandLineTheorems.v ===== *)
(** Command lines: what the parts stand for, that escaping and parsing are inverse up to
    the backslashes at the end, and the options of a command line. *)

From S2P Require Import Prelude Blocks Strings StringsTheorems StringBuilder StringBuilderTheorems CommandLine.

(** ** The text under construction

    The capacity is at most what the builder began with or twice the text. *)
Definition building (B : Z) (sb : PH_STRING_BUILDER) (t : list Z) : Prop :=
  builder_ok sb (Some <$> t) ∧ AllocatedLength sb ≤ Z.max B (4 * Z.of_nat (length t)).

Lemma room_capacity sb c n sb' : builder_ok sb c → 0 ≤ n → AllocatedLength sb < 2 ^ 62 → Length (String_ sb) + 2 * n < 2 ^ 63 →
  ensure_room sb (2 * n) = Ok sb' → AllocatedLength sb' ≤ Z.max (AllocatedLength sb) (2 * (Length (String_ sb) + 2 * n)).
Proof.
  intros Hok Hn Ha Hs. pose proof (builder_bound _ _ Hok). pose proof (sb_length _ _ Hok).
  unfold ensure_room, PhpResizeStringBuilder. rewrite !(u64_small (_ + 2 * n)), (u64_small (_ * 2)) by lia.
  destruct (Z.ltb_spec (AllocatedLength sb) (Length (String_ sb) + 2 * n)); [|intros [= <-]; lia].
  set (allocated := if _ <? _ then _ else _).
  assert (allocated ≤ 2 * (Length (String_ sb) + 2 * n)).
  { unfold allocated. destruct (Z.ltb_spec (AllocatedLength sb * 2) (Length (String_ sb) + 2 * n)); lia. }
  destruct (PhCreateStringEx None allocated); [|done..]. cbn [mbind result_bind].
  destruct (load_cells _ _); [|done..]. cbn [mbind result_bind]. destruct (store_cells _ _ _); [|done..]. intros [= <-]. cbn. lia.
Qed.

Section Building.
Context (B : Z) (HB : B < 2 ^ 62) (sb : PH_STRING_BUILDER) (t : list Z) (Hb : building B sb t).

Lemma building_fits (n : nat) : Z.of_nat (length t + n) < 2 ^ 60 → fits sb n.
Proof. intros Hn. destruct Hb as [Hok Hc]. pose proof (sb_length _ _ Hok) as Hl. rewrite length_fmap in Hl. unfold fits. lia. Qed.

Lemma building_cells x : Z.of_nat (length t + length x) < 2 ^ 60 →
  ∃ sb1, ensure_room sb (2 * Z.of_nat (length x)) = Ok sb1 ∧ ∃ buffer, store (Buffer (String_ sb1)) (Length (String_ sb1) / sizeof_WCHAR) x = Ok buffer ∧
    ∃ sb', PhpWriteNullTerminatorStringBuilder sb1 (u64 (Length (String_ sb1) + 2 * Z.of_nat (length x))) buffer = Ok sb' ∧ building B sb' (t ++ x).
Proof.
  intros Hn. pose proof (building_fits _ Hn) as Hf. destruct Hb as [Hok Hc].
  destruct (append_cells sb _ x Hok Hf) as (sb1 & Hr & b & Hs & sb' & Ht & Hok'). exists sb1. split; [done|]. exists b. split; [done|].
  exists sb'. split; [done|]. split; [by rewrite fmap_app|].
  destruct Hf as [Ha Hf]. pose proof (sb_length _ _ Hok) as Hl. rewrite length_fmap in Hl.
  apply (room_capacity sb _ _ sb1 Hok) in Hr; [|lia..]. unfold PhpWriteNullTerminatorStringBuilder in Ht.
  destruct (negb _); [done|]. destruct (store b _ _); [|done..]. injection Ht as <-. cbn. rewrite length_app. lia.
Qed.

Lemma building_char x : Z.of_nat (length t + 1) < 2 ^ 60 → ∃ sb', PhAppendCharStringBuilder sb x = Ok sb' ∧ building B sb' (t ++ [x]).
Proof.
  intros Hn. unfold PhAppendCharStringBuilder. destruct (building_cells [x] Hn) as (sb1 & Hr & b & Hs & H).
  change (2 * Z.of_nat (length [x])) with sizeof_WCHAR in *. rewrite Hr. cbn [mbind result_bind]. by rewrite Hs.
Qed.

Lemma building_run x n : Z.of_nat (length t + n) < 2 ^ 60 →
  ∃ sb', PhAppendCharStringBuilder2 sb x (Z.of_nat n) = Ok sb' ∧ building B sb' (t ++ replicate n x).
Proof.
  intros Hn. unfold PhAppendCharStringBuilder2. destruct (Z.eqb_spec (Z.of_nat n) 0) as [E|E].
  - assert (n = 0%nat) as -> by lia. exists sb. by rewrite app_nil_r.
  - destruct (building_cells (replicate n x)) as (sb1 & Hr & b & Hs & H); [by rewrite length_replicate|]. rewrite length_replicate in *.
    unfold sizeof_WCHAR in *. rewrite (u64_small (_ * 2)), Z.mul_comm, Nat2Z.id by lia. rewrite Hr. cbn [mbind result_bind]. by rewrite Hs.
Qed.

Lemma building_text x : Z.of_nat (length t + length x) < 2 ^ 60 →
  ∃ sb', PhAppendStringBuilderEx sb (Some x) (2 * Z.of_nat (length x)) = Ok sb' ∧ building B sb' (t ++ x).
Proof.
  intros Hn. unfold PhAppendStringBuilderEx. destruct (Z.eqb_spec (2 * Z.of_nat (length x)) 0) as [E|E].
  - destruct x; [|cbn in E; lia]. exists sb. by rewrite app_nil_r.
  - destruct (building_cells x Hn) as (sb1 & -> & b & Hs & sb' & Ht & H). cbn [mbind result_bind]. unfold write_text.
    unfold sizeof_WCHAR in *. rewrite half, Nat2Z.id, firstn_all. rewrite Z.ltb_irrefl, Hs. cbn [mbind result_bind]. by exists sb'.
Qed.

Lemma flush_ok n : Z.of_nat (length t + n) < 2 ^ 60 →
  ∃ sb', flush_backslashes sb (Z.of_nat n) = Ok sb' ∧ building B sb' (t ++ replicate n backslash).
Proof.
  intros Hn. unfold flush_backslashes. destruct (Z.eqb_spec (Z.of_nat n) 0) as [E|E]; cbn [negb]; [|by apply building_run].
  assert (n = 0%nat) as -> by lia. exists sb. by rewrite app_nil_r.
Qed.

End Building.

(** What a finished string says. *)
Definition string_text (s : PH_STRING) : list Z := default 0 <$> take (Z.to_nat (Length s / 2)) (Buffer s).

Lemma building_string B sb t : building B sb t → string_text (PhFinalStringBuilderString sb) = t.
Proof.
  intros [Hok _]. pose proof (sb_length _ _ Hok) as Hl. pose proof (sb_begins _ _ Hok) as [tail Ht].
  unfold string_text, PhFinalStringBuilderString. rewrite Hl, half, Nat2Z.id, Ht, take_app_length, <-list_fmap_compose. apply list_fmap_id.
Qed.

(** ** Parts *)

(** The text of a part after [n] backslashes, inside or outside of quotation marks, and
    what follows the part. *)
Fixpoint part_text (n : nat) (inq : bool) (l : list Z) : list Z :=
  match l with
  | [] => []
  | c :: l =>
      if c =? backslash then part_text (S n) inq l
      else if c =? quote then
        replicate (n / 2) backslash ++ (if Nat.odd n then quote :: part_text 0 inq l else part_text 0 (negb inq) l)
      else replicate n backslash ++ (if (c =? space) && negb inq then [] else c :: part_text 0 inq l)
  end.

Fixpoint part_rest (n : nat) (inq : bool) (l : list Z) : list Z :=
  match l with
  | [] => []
  | c :: l' =>
      if c =? backslash then part_rest (S n) inq l'
      else if c =? quote then part_rest 0 (if Nat.odd n then inq else negb inq) l'
      else if (c =? space) && negb inq then l else part_rest 0 inq l'
  end.

Lemma land_odd n : negb (Z.land (Z.of_nat n) 1 =? 0) = Nat.odd n.
Proof.
  assert (∀ x, Z.land x 1 = x mod 2) as -> by (intros x; apply (land_pow2 x 1); lia).
  destruct (Nat.Even_or_Odd n) as [[m ->]|[m ->]].
  - rewrite Nat.odd_even. replace (Z.of_nat (2 * m)) with (Z.of_nat m * 2) by lia. by rewrite Z.mod_mul.
  - rewrite Nat.odd_odd. replace (Z.of_nat (2 * m + 1)) with (1 + Z.of_nat m * 2) by lia. by rewrite Z.mod_add.
Qed.

Lemma half_nat n : Z.of_nat n / 2 = Z.of_nat (n / 2).
Proof. by rewrite Nat2Z.inj_div. Qed.

Lemma part_rest_length l : ∀ n inq, (length (part_rest n inq l) ≤ length l)%nat.
Proof.
  induction l as [|c l IH]; intros n inq; cbn; [done|].
  destruct (c =? backslash); [apply le_S, IH|]. destruct (c =? quote); [apply le_S, IH|].
  destruct ((c =? space) && negb inq); [done|apply le_S, IH].
Qed.

Lemma part_loop_ok B l : ∀ sb t n inq i,
  B < 2 ^ 62 → building B sb t → Z.of_nat (length t + n + length l) < 2 ^ 32 →
  ∃ p, part_loop (Part sb (Z.of_nat n) inq) i l = Ok (p, (i + (length l - length (part_rest n inq l)))%nat) ∧
    building B (stringBuilder p) (t ++ part_text n inq l).
Proof.
  induction l as [|c l IH]; intros sb t n inq i HB Hb Hn; cbn [part_loop part_text part_rest length] in *.
  { exists (Part sb (Z.of_nat n) inq). cbn. by rewrite app_nil_r, Nat.add_0_r. }
  assert (∀ sb' t' n' inq', building B sb' t' → Z.of_nat (length t' + n' + length l) < 2 ^ 32 →
    ∃ p, part_loop (Part sb' (Z.of_nat n') inq') (S i) l = Ok (p, (i + (S (length l) - length (part_rest n' inq' l)))%nat) ∧
      building B (stringBuilder p) (t' ++ part_text n' inq' l)) as Hnext.
  { intros sb' t' n' inq' Hb' Hn'. destruct (IH sb' t' n' inq' (S i) HB Hb' Hn') as (p & Hp & Hbp). exists p. split; [|done].
    rewrite Hp. do 2 f_equal. pose proof (part_rest_length l n' inq'). lia. }
  unfold part_char. destruct (c =? backslash).
  { cbn [mbind result_bind snd fst]. rewrite u32_small by lia. replace (Z.of_nat n + 1) with (Z.of_nat (S n)) by lia. apply Hnext; [done|lia]. }
  destruct (c =? quote).
  - rewrite land_odd, half_nat. pose proof (Nat.Div0.div_le_upper_bound n 2 n ltac:(lia)) as Hhalf.
    destruct (Nat.odd n) eqn:Hodd.
    + destruct (Z.eqb_spec (Z.of_nat n) 0) as [E|E]; [assert (n = 0%nat) as -> by lia; done|]. cbn [negb andb].
      destruct (flush_ok B HB sb t Hb (n / 2)) as (sb1 & -> & Hb1); [lia|]. cbn [mbind result_bind].
      assert (0 < n)%nat by lia. pose proof (Nat.div_lt n 2 ltac:(lia) ltac:(lia)).
      destruct (building_char B HB sb1 _ Hb1 quote) as (sb2 & -> & Hb2); [rewrite length_app, length_replicate; lia|]. cbn [mbind result_bind snd fst].
      destruct (Hnext sb2 _ 0%nat inq Hb2) as (p & Hp & Hbp); [rewrite !length_app, length_replicate; cbn [length]; lia|].
      exists p. split; [done|]. by rewrite <-!app_assoc in *.
    + rewrite andb_false_r. destruct (flush_ok B HB sb t Hb (n / 2)) as (sb1 & Hf & Hb1); [lia|].
      assert ((if negb (Z.of_nat n =? 0) then PhAppendCharStringBuilder2 sb backslash (Z.of_nat (n / 2)) else Ok sb) = Ok sb1) as ->.
      { destruct (Z.eqb_spec (Z.of_nat n) 0) as [E|E]; cbn [negb]; unfold flush_backslashes in Hf.
        - assert (n = 0%nat) as -> by lia. done.
        - destruct (building_run B HB sb t Hb backslash (n / 2)) as (sb2 & Hr & _); [lia|].
          destruct (Z.eqb_spec (Z.of_nat (n / 2)) 0) as [E2|E2]; cbn [negb] in Hf; [|done]. rewrite E2. unfold PhAppendCharStringBuilder2. done. }
      cbn [mbind result_bind snd fst].
      destruct (Hnext sb1 _ 0%nat (negb inq) Hb1) as (p & Hp & Hbp); [rewrite !length_app, length_replicate; lia|].
      exists p. split; [done|]. by rewrite <-app_assoc in Hbp.
  - destruct (flush_ok B HB sb t Hb n) as (sb1 & -> & Hb1); [lia|]. cbn [mbind result_bind].
    destruct ((c =? space) && negb inq).
    + cbn [mbind result_bind snd fst length]. rewrite Nat.sub_diag, Nat.add_0_r. eexists. split; [done|]. by rewrite app_nil_r.
    + destruct (building_char B HB sb1 _ Hb1 c) as (sb2 & -> & Hb2); [rewrite length_app, length_replicate; lia|]. cbn [mbind result_bind snd fst].
      destruct (Hnext sb2 _ 0%nat inq Hb2) as (p & Hp & Hbp); [rewrite !length_app, length_replicate; cbn [length]; lia|].
      exists p. split; [done|]. by rewrite <-!app_assoc in *.
Qed.

Lemma part_rest_suffix l : ∀ n inq, ∃ pre, l = pre ++ part_rest n inq l.
Proof.
  induction l as [|c l IH]; intros n inq; cbn; [by exists []|].
  assert (∀ n' inq', ∃ pre, c :: l = pre ++ part_rest n' inq' l) as Hc.
  { intros n' inq'. destruct (IH n' inq') as [pre Hp]. exists (c :: pre). cbn. by rewrite <-Hp. }
  destruct (c =? backslash); [apply Hc|]. destruct (c =? quote); [apply Hc|].
  destruct ((c =? space) && negb inq); [by exists []|apply Hc].
Qed.

(** The index after a part is that of what follows. *)
Lemma parse_part_ok before l : Z.of_nat (length l) < 2 ^ 32 →
  ∃ s i, PhParseCommandLinePart (before ++ l) (length before) = Ok (s, i) ∧ string_text s = part_text 0 false l ∧
    (i ≤ length (before ++ l))%nat ∧ drop i (before ++ l) = part_rest 0 false l.
Proof.
  intros Hl. unfold PhParseCommandLinePart. rewrite drop_app_length.
  destruct (initialize_ok 0x80) as (sb & -> & Hok & Hc); [lia|]. cbn [mbind result_bind].
  assert (building 0x81 sb []) as Hb by (split; [done|lia]).
  destruct (part_loop_ok 0x81 l sb [] 0 false (length before) ltac:(lia) Hb ltac:(cbn [length]; lia)) as (p & Hp & Hbp).
  change (Z.of_nat 0) with 0 in Hp. rewrite Hp. cbn [mbind result_bind fst snd]. do 2 eexists. split; [done|].
  split; [by eapply building_string|]. destruct (part_rest_suffix l 0 false) as [pre Hpre].
  pose proof (part_rest_length l 0 false). rewrite length_app. split; [lia|].
  rewrite drop_app, (drop_ge before) by lia. cbn [app]. replace (_ - length before)%nat with (length l - length (part_rest 0 false l))%nat by lia.
  assert (length l - length (part_rest 0 false l) = length pre)%nat as -> by (apply (f_equal length) in Hpre; rewrite length_app in Hpre; lia).
  rewrite Hpre at 1. apply drop_app_length.
Qed.

(** Escaping, after [n] backslashes, and what remains of a string. *)
Fixpoint escape_text (n : nat) (l : list Z) : list Z :=
  match l with
  | [] => []
  | c :: l =>
      if c =? backslash then escape_text (S n) l
      else if c =? quote then replicate (2 * n) backslash ++ backslashAndQuote ++ escape_text 0 l
      else replicate n backslash ++ c :: escape_text 0 l
  end.

Fixpoint remaining (n : nat) (l : list Z) : list Z :=
  match l with
  | [] => []
  | c :: l => if c =? backslash then remaining (S n) l else replicate n backslash ++ c :: remaining 0 l
  end.

(** A string without the backslashes at its end. *)
Definition without_backslashes (l : list Z) : list Z := remaining 0 l.

Lemma remaining_app l : ∀ n, ∃ m, replicate n backslash ++ l = remaining n l ++ replicate m backslash.
Proof.
  induction l as [|c l IH]; intros n; cbn; [exists n; by rewrite app_nil_r|]. destruct (Z.eqb_spec c backslash) as [->|].
  - destruct (IH (S n)) as [m Hm]. exists m. by rewrite <-Hm, replicate_S_end, <-app_assoc.
  - destruct (IH 0%nat) as [m Hm]. exists m. rewrite <-app_assoc. cbn. by rewrite <-Hm.
Qed.

Lemma without_backslashes_id l : last l ≠ Some backslash → without_backslashes l = l.
Proof.
  intros Hl. destruct (remaining_app l 0) as [[|m] Hm]; cbn in Hm; [by rewrite app_nil_r in Hm|].
  destruct Hl. change (backslash :: replicate m backslash) with (replicate (S m) backslash) in Hm. rewrite Hm, replicate_S_end, app_assoc. apply last_snoc.
Qed.

Lemma remaining_backslashes l m : ∀ n, remaining n (l ++ replicate m backslash) = remaining n l.
Proof.
  induction l as [|c l IH]; intros n; cbn.
  - revert n. induction m as [|m IH]; intros n; [done|]. apply IH.
  - destruct (c =? backslash); [apply IH|]. by rewrite IH.
Qed.

Lemma escape_length l : ∀ n, (length (escape_text n l) ≤ 2 * n + 2 * length l)%nat.
Proof.
  induction l as [|c l IH]; intros n; cbn [escape_text length]; [lia|]. pose proof (IH (S n)). pose proof (IH 0%nat).
  destruct (c =? backslash); [lia|]. destruct (c =? quote); rewrite !length_app, length_replicate; cbn [length backslashAndQuote]; lia.
Qed.

Lemma escape_lost l m : ∀ n, escape_text n (l ++ replicate m backslash) = escape_text n l.
Proof.
  induction l as [|c l IH]; intros n; cbn.
  - revert n. induction m as [|m IH]; intros n; [done|]. apply IH.
  - repeat case_match; by rewrite ?IH.
Qed.

Lemma escape_loop_ok B l : ∀ sb t n, B < 2 ^ 62 → building B sb t → Z.of_nat (length t + 3 * n + 3 * length l) < 2 ^ 34 → Z.of_nat (n + length l) < 2 ^ 32 →
  ∃ sb', escape_loop sb (Z.of_nat n) l = Ok sb' ∧ building B sb' (t ++ escape_text n l).
Proof.
  induction l as [|c l IH]; intros sb t n HB Hb Ht Hn; cbn [escape_loop escape_text length] in *; [exists sb; by rewrite app_nil_r|].
  unfold escape_char. destruct (c =? backslash).
  { cbn [mbind result_bind fst snd]. rewrite u32_small by lia. replace (Z.of_nat n + 1) with (Z.of_nat (S n)) by lia. apply IH; [done..|lia|lia]. }
  destruct (c =? quote).
  - replace (Z.of_nat n * 2) with (Z.of_nat (2 * n)) by lia.
    destruct (flush_ok B HB sb t Hb (2 * n)) as (sb1 & -> & Hb1); [lia|]. cbn [mbind result_bind].
    destruct (building_text B HB sb1 _ Hb1 backslashAndQuote) as (sb2 & Ha & Hb2); [rewrite length_app, length_replicate; cbn; lia|].
    change (2 * Z.of_nat (length backslashAndQuote)) with 4 in Ha. rewrite Ha. cbn [mbind result_bind fst snd].
    destruct (IH sb2 _ 0%nat HB Hb2) as (sb3 & Hs & Hb3); [rewrite !length_app, length_replicate; cbn [length backslashAndQuote]; lia|lia|].
    exists sb3. split; [done|]. by rewrite <-!app_assoc in Hb3.
  - destruct (flush_ok B HB sb t Hb n) as (sb1 & -> & Hb1); [lia|]. cbn [mbind result_bind].
    destruct (building_char B HB sb1 _ Hb1 c) as (sb2 & -> & Hb2); [rewrite length_app, length_replicate; cbn; lia|]. cbn [mbind result_bind fst snd].
    destruct (IH sb2 _ 0%nat HB Hb2) as (sb3 & Hs & Hb3); [rewrite !length_app, length_replicate; cbn [length]; lia|lia|].
    exists sb3. split; [done|]. by rewrite <-!app_assoc in Hb3.
Qed.

Lemma escape_ok l : Z.of_nat (length l) < 2 ^ 31 → ∃ s, PhEscapeCommandLinePart l = Ok s ∧ string_text s = escape_text 0 l.
Proof.
  intros Hl. unfold PhEscapeCommandLinePart, sizeof_WCHAR. rewrite u32_small, Z.div_mul, u64_small, Nat2Z.id, take_ge by lia.
  destruct (initialize_ok (Z.of_nat (length l) * 3)) as (sb & -> & Hok & Hc); [lia|]. cbn [mbind result_bind].
  assert (building (2 ^ 61) sb []) as Hb by (split; [done|lia]).
  destruct (escape_loop_ok (2 ^ 61) l sb [] 0 ltac:(lia) Hb ltac:(cbn [length]; lia) ltac:(lia)) as (sb' & Hs & Hb').
  change (Z.of_nat 0) with 0 in Hs. rewrite Hs. eexists. split; [done|]. by eapply building_string.
Qed.

Lemma part_text_backslashes m l : ∀ n inq, part_text n inq (replicate m backslash ++ l) = part_text (n + m) inq l.
Proof. induction m as [|m IH]; intros n inq; cbn; [by rewrite Nat.add_0_r|]. rewrite IH. f_equal. lia. Qed.

Lemma part_rest_backslashes m l : ∀ n inq, part_rest n inq (replicate m backslash ++ l) = part_rest (n + m) inq l.
Proof. induction m as [|m IH]; intros n inq; cbn; [by rewrite Nat.add_0_r|]. rewrite IH. f_equal. lia. Qed.

Lemma odd_double n : Nat.odd (2 * n + 1) = true ∧ ((2 * n + 1) / 2 = n)%nat.
Proof. split; [apply Nat.odd_odd|]. symmetry. apply (Nat.div_unique _ 2 n 1); lia. Qed.

(** An escaped string between quotation marks. *)
Lemma part_text_escaped tail l : ∀ n,
  part_text 0 true (escape_text n l ++ quote :: tail) = remaining n l ++ part_text 0 false tail.
Proof.
  induction l as [|c l IH]; intros n; cbn [escape_text remaining]; [done|]. destruct (Z.eqb_spec c backslash) as [|Hb]; [apply IH|].
  destruct (Z.eqb_spec c quote) as [->|Hq].
  - rewrite <-!app_assoc, part_text_backslashes. cbn [backslashAndQuote app part_text]. cbn [Z.eqb backslash quote Pos.eqb].
    replace (S (0 + 2 * n)) with (2 * n + 1)%nat by lia. destruct (odd_double n) as [-> ->]. by rewrite IH.
  - rewrite <-!app_assoc, part_text_backslashes. cbn [app part_text].
    rewrite (proj2 (Z.eqb_neq c backslash)), (proj2 (Z.eqb_neq c quote)), andb_false_r by done. cbn [Nat.add]. by rewrite IH.
Qed.

Lemma part_rest_escaped tail l : ∀ n, part_rest 0 true (escape_text n l ++ quote :: tail) = part_rest 0 false tail.
Proof.
  induction l as [|c l IH]; intros n; cbn [escape_text]; [done|]. destruct (Z.eqb_spec c backslash) as [|Hb]; [apply IH|].
  destruct (Z.eqb_spec c quote) as [->|Hq].
  - rewrite <-!app_assoc, part_rest_backslashes. cbn [backslashAndQuote app part_rest]. cbn [Z.eqb backslash quote Pos.eqb].
    replace (S (0 + 2 * n)) with (2 * n + 1)%nat by lia. destruct (odd_double n) as [-> _]. apply IH.
  - rewrite <-!app_assoc, part_rest_backslashes. cbn [app part_rest].
    rewrite (proj2 (Z.eqb_neq c backslash)), (proj2 (Z.eqb_neq c quote)), andb_false_r by done. apply IH.
Qed.

(** Parts end at a space, or at the end of the command line. *)
Definition ends_part (tail : list Z) : Prop := tail = [] ∨ head tail = Some space.

Lemma ends_part_nothing tail : ends_part tail → part_text 0 false tail = [] ∧ part_rest 0 false tail = tail.
Proof. intros [->|H]; [done|]. destruct tail as [|c tail]; [done|]. by injection H as ->. Qed.

Lemma part_text_lost l m : ∀ n inq, part_text n inq (l ++ replicate m backslash) = part_text n inq l.
Proof.
  induction l as [|c l IH]; intros n inq; cbn.
  - rewrite <-(app_nil_r (replicate m backslash)), part_text_backslashes. done.
  - repeat case_match; rewrite ?IH; done.
Qed.



(** Backslashes at the end of the command line are not part of anything, and a string
    that ends in backslashes is escaped as if it did not. *)
Theorem command_line_lost_backslashes before l m :
  Z.of_nat (length l + m) < 2 ^ 31 →
  (∃ v v' i i', PhParseCommandLinePart (before ++ l ++ replicate m backslash) (length before) = Ok (v, i) ∧
     PhParseCommandLinePart (before ++ l) (length before) = Ok (v', i') ∧ string_text v = string_text v') ∧
  (∃ e e', PhEscapeCommandLinePart (l ++ replicate m backslash) = Ok e ∧ PhEscapeCommandLinePart l = Ok e' ∧
     string_text e = string_text e').
Proof.
  intros Hl. split.
  - destruct (parse_part_ok before (l ++ replicate m backslash)) as (v & i & Hp & Hv & _); [rewrite length_app, length_replicate; lia|].
    destruct (parse_part_ok before l) as (v' & i' & Hp' & Hv' & _); [lia|]. exists v, v', i, i'. split; [done|]. split; [done|].
    rewrite Hv, Hv'. apply part_text_lost.
  - destruct (escape_ok (l ++ replicate m backslash)) as (e & He & Ht); [rewrite length_app, length_replicate; lia|].
    destruct (escape_ok l) as (e' & He' & Ht'); [lia|]. exists e, e'. split; [done|]. split; [done|]. rewrite Ht, Ht'. apply escape_lost.
Qed.

(** ** Options *)

Lemma skip_while_app p l rest : ∀ i, Forall (λ c, p c = true) l → (∀ c, head rest = Some c → p c = false) →
  skip_while p i (l ++ rest) = (i + length l)%nat.
Proof.
  induction l as [|c l IH]; intros i Hl Hr; cbn.
  - destruct rest as [|c rest]; cbn; [lia|]. rewrite (Hr c eq_refl). lia.
  - apply Forall_cons in Hl as [-> Hl]. rewrite IH by done. lia.
Qed.

Lemma skip_while_range p l : ∀ i, (i ≤ skip_while p i l ≤ i + length l)%nat.
Proof. induction l as [|c l IH]; intros i; cbn; [lia|]. destruct (p c); [|lia]. pose proof (IH (S i)). lia. Qed.

Lemma skip_while_stop i l c : l !! skip_while (λ c, c =? space) i (drop i l) = Some c → c ≠ space.
Proof.
  remember (drop i l) as r eqn:Hr. revert i Hr. induction r as [|d r IH]; intros i Hr; cbn.
  - intros Hc%lookup_lt_Some. apply (f_equal length) in Hr. rewrite length_drop in Hr. cbn in Hr. lia.
  - assert (l !! i = Some d) as Hd by (rewrite <-(Nat.add_0_r i), <-lookup_drop, <-Hr; done).
    destruct (Z.eqb_spec d space); [|congruence]. apply IH. rewrite <-Nat.add_1_r, <-drop_drop, <-Hr. done.
Qed.

(** What a command line is made of: options by their names, and values in quotation marks. *)
Inductive token :=
  | OptionToken (name : list Z)
  | ValueToken (value : list Z).

Definition render (t : token) : list Z :=
  match t with
  | OptionToken name => dash :: name
  | ValueToken value => [quote] ++ escape_text 0 value ++ [quote]
  end.

(** Tokens with the number of spaces before each. *)
Fixpoint render_line (tokens : list (nat * token)) : list Z :=
  match tokens with
  | [] => []
  | (k, t) :: tokens => replicate k space ++ render t ++ render_line tokens
  end.

(** A token as an argument. *)
Definition token_text (t : token) : list Z :=
  match t with
  | OptionToken name => dash :: name
  | ValueToken value => without_backslashes value
  end.

Section Options.
Context (upcase : Z → Z) (intrinsics : bool) (iswalnum : Z → bool).
Context (Hspace : iswalnum space = false) (Hquote : iswalnum quote = false) (Hbackslash : iswalnum backslash = false).
Context {Context_ : Type} (cb : option PH_COMMAND_LINE_OPTION → option (list Z) → Context_ → bool * Context_).
Context (Options : list PH_COMMAND_LINE_OPTION) (Flags : Z).

Local Abbreviation wants_argument o t :=
  (has_type o MandatoryArgumentType || has_type o OptionalArgumentType && match t with OptionToken _ => false | _ => true end).

(** What the tokens mean: an option that wants an argument takes the next token; an optional
    argument is no option; the first token may be left out; the callback can stop. *)
Fixpoint interpret (tokens : list token) (option : option PH_COMMAND_LINE_OPTION) (first : bool) (x : Context_) : bool * Context_ :=
  match tokens with
  | [] => (true, if has_type option OptionalArgumentType then (cb option None x).2 else x)
  | t :: tokens =>
      if wants_argument option t then
        let '(cont, x) := cb option (Some (token_text t)) x in
        if cont : bool then interpret tokens None first x else (true, x)
      else
        match t with
        | OptionToken name =>
            let '(cont, x) := if has_type option OptionalArgumentType then cb option None x else (true, x) in
            if negb cont then (true, x)
            else
              let option := List.find (λ o, bool_decide (Name o = name)) Options in
              if negb (bool_decide (is_Some option)) && negb (flag Flags PH_COMMAND_LINE_IGNORE_UNKNOWN_OPTIONS) then (false, x)
              else if has_type option NoArgumentType then
                let '(cont, x) := cb option None x in
                if cont : bool then interpret tokens None false x else (true, x)
              else interpret tokens option false x
        | ValueToken value =>
            if flag Flags PH_COMMAND_LINE_IGNORE_FIRST_PART && first then interpret tokens option false x
            else
              let '(cont, x) := cb None (Some (without_backslashes value)) x in
              if cont : bool then interpret tokens option false x else (true, x)
        end
  end.

Definition token_ok (t : token) : Prop :=
  match t with
  | OptionToken name => Forall (λ c, is_name_char iswalnum c = true) name
  | ValueToken _ => True
  end.

(** A callback reads the text of the value. *)
Local Abbreviation Callback := (λ o v x, cb o (string_text <$> v) x).
Local Abbreviation command_turn' := (command_turn upcase intrinsics iswalnum Callback).

Lemma part_text_name name tail n : Forall (λ c, is_name_char iswalnum c = true) name → ends_part tail →
  part_text 0 n (name ++ tail) = name ++ part_text 0 n tail ∧ part_rest 0 n (name ++ tail) = part_rest 0 n tail.
Proof.
  intros Hn Ht. induction Hn as [|c name Hc _ [IH1 IH2]]; [done|]. unfold is_name_char in Hc. cbn [app part_text part_rest].
  destruct (Z.eqb_spec c backslash) as [->|]; [by rewrite Hbackslash in Hc|]. destruct (Z.eqb_spec c quote) as [->|]; [by rewrite Hquote in Hc|].
  destruct (Z.eqb_spec c space) as [->|]; [by rewrite Hspace in Hc|]. cbn. by rewrite IH1, IH2.
Qed.

(** A token, parsed as a part. *)
Lemma parse_token before t tail : token_ok t → ends_part tail → Z.of_nat (length (render t ++ tail)) < 2 ^ 32 →
  ∃ v, PhParseCommandLinePart (before ++ render t ++ tail) (length before) = Ok (v, length (before ++ render t)) ∧ string_text v = token_text t.
Proof.
  intros Ht Htail Hl. destruct (parse_part_ok before (render t ++ tail) Hl) as (v & i & Hp & Hv & Hi & Hd).
  assert (part_text 0 false (render t ++ tail) = token_text t ∧ part_rest 0 false (render t ++ tail) = tail) as [E1 E2].
  { destruct (ends_part_nothing _ Htail) as [H1 H2]. destruct t as [name|value]; cbn [render token_text].
    - destruct (part_text_name (dash :: name) tail false) as [-> ->]; [constructor; [apply orb_true_r|done]|done|].
      by rewrite H1, H2, app_nil_r.
    - rewrite <-!app_assoc. cbn [app part_text part_rest].
      change (quote =? backslash) with false. change (quote =? quote) with true. cbn iota. cbn [negb Nat.odd Nat.even].
      rewrite part_text_escaped, part_rest_escaped, H1, H2, app_nil_r. done. }
  rewrite E1 in Hv. rewrite E2 in Hd. exists v. split; [|done]. rewrite Hp. do 2 f_equal.
  apply (f_equal length) in Hd. rewrite length_drop, !length_app in Hd. rewrite !length_app in *. lia.
Qed.

Lemma find_option_ok name rest : Forall (λ o, Z.of_nat (length (Name o)) < 2 ^ 62) Options → Z.of_nat (length name) < 2 ^ 62 →
  find_option upcase intrinsics Options (StringRef (Z.of_nat (length name) * sizeof_WCHAR) (Some (name ++ rest))) =
  List.find (λ o, bool_decide (Name o = name)) Options.
Proof using Type.
  intros Ho Hn. unfold find_option. induction Ho as [|o os Ho _ IH]; [done|]. cbn [List.find].
  assert (∀ l r, Z.of_nat (length l) < 2 ^ 62 → valid (StringRef (2 * Z.of_nat (length l)) (Some (l ++ r))) ∧
    text (StringRef (2 * Z.of_nat (length l)) (Some (l ++ r))) = l) as Href.
  { intros l r Hl. split.
    - exists (length l). unfold memory_at. cbn. rewrite length_app. lia.
    - unfold text, count, memory_at. cbn. by rewrite half, Nat2Z.id, take_app_length. }
  assert (equal_name upcase intrinsics (StringRef (Z.of_nat (length name) * sizeof_WCHAR) (Some (name ++ rest))) o = bool_decide (Name o = name)) as ->.
  { unfold equal_name, sizeof_WCHAR. rewrite (Z.mul_comm _ 2). destruct (Href name rest Hn) as [Hv1 Ht1], (Href (Name o) [0] Ho) as [Hv2 Ht2].
    rewrite equal_ok, Ht1, Ht2 by done. apply bool_decide_ext.
    assert (∀ l, fold_case upcase false <$> l = l) as Hid by (intros l; apply list_fmap_id). rewrite !Hid. split; congruence. }
  by rewrite IH.
Qed.

(** The turns of the loop, one for each token. *)
Lemma argument_turn_ok before t tail option first x : token_ok t → ends_part tail → Z.of_nat (length (render t ++ tail)) < 2 ^ 32 →
  argument_turn Callback (before ++ render t ++ tail) (length before) option first x =
  Ok (let '(cont, x) := cb option (Some (token_text t)) x in
      if cont : bool then Next (length (before ++ render t)) None first x else Break false option x).
Proof.
  intros Ht Htail Hl. unfold argument_turn. destruct (parse_token before t tail Ht Htail Hl) as (v & -> & Hv).
  cbn [mbind result_bind fst snd fmap option_fmap option_map]. rewrite Hv. by destruct (cb _ _ _) as [[] ?].
Qed.

Lemma command_turn_spaces before k rest option first x : (∀ c, head rest = Some c → c ≠ space) →
  command_turn' (before ++ replicate k space ++ rest) Options Flags (length before) option first x =
  match head rest with
  | None => Ok (Break true option x)
  | Some c =>
      if has_type option MandatoryArgumentType || has_type option OptionalArgumentType && negb (c =? dash) then
        argument_turn Callback (before ++ replicate k space ++ rest) (length (before ++ replicate k space)) option first x
      else if c =? dash then Ok (option_turn upcase intrinsics iswalnum Callback (before ++ replicate k space ++ rest) Options Flags (length (before ++ replicate k space)) option x)
      else value_turn Callback (before ++ replicate k space ++ rest) Flags (length (before ++ replicate k space)) option first x
  end.
Proof using Type.
  intros Hr. unfold command_turn. rewrite drop_app_length, skip_while_app.
  - assert (length before + length (replicate k space) = length (before ++ replicate k space))%nat as -> by (by rewrite length_app).
    assert ((before ++ replicate k space ++ rest) !! length (before ++ replicate k space) = head rest) as ->; [|done].
    rewrite app_assoc, lookup_app_r, Nat.sub_diag by done. by destruct rest.
  - apply Forall_replicate. done.
  - intros c Hc. apply Z.eqb_neq. by apply Hr.
Qed.

Lemma option_turn_ok before name tail option x : Forall (λ o, Z.of_nat (length (Name o)) < 2 ^ 62) Options →
  Forall (λ c, is_name_char iswalnum c = true) name → ends_part tail → Z.of_nat (length name) < 2 ^ 62 →
  option_turn upcase intrinsics iswalnum Callback (before ++ (dash :: name) ++ tail) Options Flags (length before) option x =
  let '(cont, x) := if has_type option OptionalArgumentType then cb option None x else (true, x) in
  if negb cont then Break false option x
  else
    let option := List.find (λ o, bool_decide (Name o = name)) Options in
    if negb (bool_decide (is_Some option)) && negb (flag Flags PH_COMMAND_LINE_IGNORE_UNKNOWN_OPTIONS) then Return false x
    else if has_type option NoArgumentType then
      let '(cont, x) := cb option None x in
      if cont : bool then Next (length (before ++ dash :: name)) None false x else Break false option x
    else Next (length (before ++ dash :: name)) option false x.
Proof using Hspace.
  intros Ho Hn Htail Hl. unfold option_turn.
  assert (drop (S (length before)) (before ++ (dash :: name) ++ tail) = name ++ tail) as ->.
  { rewrite <-Nat.add_1_r, <-drop_drop, drop_app_length. done. }
  rewrite skip_while_app.
  2: done.
  2: { intros c Hc. destruct Htail as [->|Ht]; [done|]. rewrite Ht in Hc. injection Hc as <-. unfold is_name_char. by rewrite Hspace. }
  assert (S (length before) + length name = length (before ++ dash :: name))%nat as Hi by (rewrite length_app; cbn; lia).
  replace (S (length before) + length name - S (length before))%nat with (length name) by lia. rewrite find_option_ok, Hi by done. done.
Qed.

Lemma command_loop_ok tokens : ∀ fuel before option first x,
  Forall (λ o, Z.of_nat (length (Name o)) < 2 ^ 62) Options → Forall token_ok tokens.*2 → Forall (λ kt, 0 < kt.1)%nat (tail tokens) →
  Z.of_nat (length (render_line tokens)) < 2 ^ 31 → (length tokens < fuel)%nat →
  command_loop upcase intrinsics iswalnum Callback (before ++ render_line tokens) Options Flags fuel (length before) option first x =
  Ok (interpret tokens.*2 option first x).
Proof using Hspace Hquote Hbackslash.
  induction tokens as [|[k t] tokens IH]; intros [|fuel] before option first x Ho Ht Hs Hl Hf; try (cbn in Hf; lia); cbn [command_loop].
  - change (render_line []) with (replicate 0 space ++ []). rewrite command_turn_spaces by done. done.
  - cbn [render_line fmap list_fmap snd] in *. apply Forall_cons in Ht as [Ht Hts]. cbn [tail] in Hs. cbn [length] in Hf.
    assert (ends_part (render_line tokens)) as Hend.
    { destruct tokens as [|[[|k'] t'] tokens]; [by left| |by right]. apply Forall_cons in Hs as [Hs _]. cbn in Hs. lia. }
    assert (Forall (λ kt, 0 < kt.1)%nat (tail tokens)) as Hs'.
    { destruct tokens; [done|]. by apply Forall_cons in Hs as [_ Hs]. }
    rewrite !length_app, length_replicate in Hl. set (before' := before ++ replicate k space).
    assert (∀ option first x, command_loop upcase intrinsics iswalnum Callback (before ++ replicate k space ++ render t ++ render_line tokens) Options Flags fuel
      (length (before' ++ render t)) option first x = Ok (interpret tokens.*2 option first x)) as Hnext.
    { intros. unfold before'. rewrite <-(IH fuel ((before ++ replicate k space) ++ render t)) by (done || lia). by rewrite <-!app_assoc. }
    rewrite command_turn_spaces by (destruct t; cbn; intros c [= <-]; done).
    assert (before ++ replicate k space ++ render t ++ render_line tokens = before' ++ render t ++ render_line tokens) as Hcl by (unfold before'; by rewrite <-app_assoc).
    revert Hnext. fold before'. rewrite Hcl. intros Hnext.
    assert (∀ option first x, argument_turn Callback (before' ++ render t ++ render_line tokens) (length before') option first x = _) as Harg
      by (intros; apply (argument_turn_ok before' t (render_line tokens)); [done|done|rewrite length_app; lia]).
    destruct t as [name|value]; cbn [render app head interpret] in *.
    + change (dash =? dash) with true. cbn [negb]. rewrite andb_false_r, orb_false_r.
      destruct (has_type option MandatoryArgumentType).
      * rewrite Harg. cbn [mbind result_bind]. destruct (cb option (Some (token_text (OptionToken name))) x) as [[] x']; [apply Hnext|done].
      * pose proof (option_turn_ok before' name (render_line tokens) option x Ho Ht Hend ltac:(cbn [length] in Hl; lia)) as Hopt.
        cbn [app] in Hopt. rewrite Hopt. cbn [mbind result_bind]. cbv zeta.
        destruct (if has_type option OptionalArgumentType then cb option None x else (true, x)) as [[] x']; cbn [negb]; [|done].
        destruct (negb (bool_decide (is_Some (List.find (λ o, bool_decide (Name o = name)) Options))) && negb (flag Flags PH_COMMAND_LINE_IGNORE_UNKNOWN_OPTIONS)); [done|].
        destruct (has_type _ NoArgumentType); [|apply Hnext]. destruct (cb _ None x') as [[] x'']; [apply Hnext|done].
    + change (quote =? dash) with false. cbn [negb]. destruct (has_type option MandatoryArgumentType || has_type option OptionalArgumentType && true).
      * rewrite Harg. cbn [mbind result_bind]. destruct (cb option (Some (token_text (ValueToken value))) x) as [[] x']; [apply Hnext|done].
      * unfold value_turn. destruct (parse_token before' (ValueToken value) (render_line tokens) Ht Hend) as (v & Hv & Htext); [rewrite length_app; cbn [render app length] in *; lia|].
        cbn [render app token_text] in Hv, Htext. rewrite Hv. cbn [mbind result_bind fst snd fmap option_fmap option_map]. rewrite Htext.
        destruct (flag Flags PH_COMMAND_LINE_IGNORE_FIRST_PART && first); [apply Hnext|].
        destruct (cb None (Some (without_backslashes value)) x) as [[] x']; [apply Hnext|done].
Qed.

(** C29. A command line of options, whose names are made of the characters of names, and
    of values that are escaped and in quotation marks, with at least one space between two
    of them and any number before the first, is parsed as the tokens it is made of, as long
    as it has fewer than 2^31 characters: the callback is called with the names of the
    options and with the values, in the order and with the effects that the rules on
    arguments, unknown options, the first part and stopping give. A value that ends in
    backslashes does not arrive as it is: the callback is given it without them. *)
Theorem command_line_options tokens x :
  Forall (λ o, Z.of_nat (length (Name o)) < 2 ^ 62) Options → Forall token_ok tokens.*2 → Forall (λ kt, 0 < kt.1)%nat (tail tokens) →
  Z.of_nat (length (render_line tokens)) < 2 ^ 31 →
  PhParseCommandLine upcase intrinsics iswalnum Callback (render_line tokens) Options Flags x = Ok (interpret tokens.*2 None true x).
Proof using Hspace Hquote Hbackslash.
  intros Ho Ht Hs Hl. unfold PhParseCommandLine. destruct (Nat.eqb_spec (length (render_line tokens)) 0) as [E|E].
  - destruct tokens as [|[k t] tokens]; [done|]. cbn in E. rewrite !length_app in E. destruct t; cbn in E; lia.
  - apply (command_loop_ok tokens (S (length (render_line tokens))) []); try done.
    clear. induction tokens as [|[k t] tokens IH]; cbn; [lia|]. rewrite !length_app. assert (0 < length (render t))%nat by (destruct t; cbn; lia). lia.
Qed.
End Options.

Lemma command_line_options_witness :
  let options := [CommandLineOption 1 [0x61] NoArgumentType; CommandLineOption 2 [0x62] MandatoryArgumentType] in
  let tokens := [(0%nat, ValueToken [0x70]); (1%nat, OptionToken [0x61]); (2%nat, OptionToken [0x62]); (1%nat, ValueToken [quote; space])] in
  PhParseCommandLine (λ c, c) true (λ c, 0x61 <=? c) (λ o v x, (true, (Id <$> o, string_text <$> v) :: x)) (render_line tokens) options
    PH_COMMAND_LINE_IGNORE_FIRST_PART [] = Ok (true, [(Some 2, Some [quote; space]); (Some 1, None)]).
Proof.
  cbv zeta. rewrite (command_line_options (λ c, c) true (λ c, 0x61 <=? c) eq_refl eq_refl eq_refl (λ o v x, (true, (Id <$> o, v) :: x))).
  - reflexivity.
  - repeat constructor.
  - repeat constructor.
  - repeat constructor.
  - vm_compute. reflexivity.
Defined.

(** ** Every command line *)

Lemma part_rest_progress c l : c ≠ space → (length (part_rest 0 false (c :: l)) ≤ length l)%nat.
Proof.
  intros Hc. cbn [part_rest]. rewrite (proj2 (Z.eqb_neq c space) Hc). cbn [andb].
  destruct (c =? backslash); [apply part_rest_length|]. destruct (c =? quote); apply part_rest_length.
Qed.

Section Total.
Context (upcase : Z → Z) (intrinsics : bool) (iswalnum : Z → bool).
Context {Context_ : Type} (Callback : option PH_COMMAND_LINE_OPTION → option PH_STRING → Context_ → bool * Context_).
Context (CommandLine : list Z) (Options : list PH_COMMAND_LINE_OPTION) (Flags : Z) (Hlen : Z.of_nat (length CommandLine) < 2 ^ 31).

(** A turn does not fault, and a turn that is not the last one goes forward. *)
Definition forward (i : nat) (t : turn (Context_ := Context_)) : Prop :=
  match t with
  | Next i' _ _ _ => (i < i' ≤ length CommandLine)%nat
  | _ => True
  end.

Lemma parse_part_forward i c : CommandLine !! i = Some c → c ≠ space →
  ∃ s i', PhParseCommandLinePart CommandLine i = Ok (s, i') ∧ (i < i' ≤ length CommandLine)%nat.
Proof using Hlen.
  intros Hc Hs. pose proof (lookup_lt_Some _ _ _ Hc) as Hi.
  destruct (parse_part_ok (take i CommandLine) (drop i CommandLine)) as (s & i' & Hp & _ & Hi' & Hd); [rewrite length_drop; lia|].
  rewrite take_drop, length_take, Nat.min_l in * by lia. exists s, i'. split; [done|]. split; [|done].
  rewrite (drop_S _ c i Hc) in Hd. apply (f_equal length) in Hd. pose proof (part_rest_progress c (drop (S i) CommandLine) Hs).
  rewrite !length_drop in *. lia.
Qed.

Lemma command_turn_forward i option first x : (i ≤ length CommandLine)%nat →
  ∃ t, command_turn upcase intrinsics iswalnum Callback CommandLine Options Flags i option first x = Ok t ∧ forward i t.
Proof using Hlen.
  intros Hi. unfold command_turn. set (j := skip_while _ i _). pose proof (skip_while_range (λ c, c =? space) (drop i CommandLine) i) as Hj. fold j in Hj.
  destruct (CommandLine !! j) as [c|] eqn:Hc; [|by eexists]. assert (c ≠ space) as Hs by (by apply (skip_while_stop _ _ _ Hc)).
  destruct (_ || _).
  - unfold argument_turn. destruct (parse_part_forward j c Hc Hs) as (s & i' & -> & Hi'). cbn [mbind result_bind fst snd].
    destruct (Callback option (Some s) x) as [[] x']; eexists; (split; [done|]); cbn; [lia|done].
  - destruct (c =? dash).
    + eexists. split; [done|]. unfold option_turn. pose proof (skip_while_range (is_name_char iswalnum) (drop (S j) CommandLine) (S j)) as Hk.
      rewrite length_drop in Hk. pose proof (lookup_lt_Some _ _ _ Hc). repeat case_match; cbn; lia || done.
    + unfold value_turn. destruct (parse_part_forward j c Hc Hs) as (s & i' & -> & Hi'). cbn [mbind result_bind fst snd].
      destruct (_ && _); [eexists; split; [done|]; cbn; lia|].
      destruct (Callback None (Some s) x) as [[] x']; eexists; (split; [done|]); cbn; [lia|done].
Qed.

(** C30. The parser of command lines returns on every command line, option table and callback:
    it does not access memory it does not own, and each turn of its loop goes forward. *)
Theorem command_line_total x : ∃ r, PhParseCommandLine upcase intrinsics iswalnum Callback CommandLine Options Flags x = Ok r.
Proof using Hlen.
  unfold PhParseCommandLine. destruct (_ =? _)%nat; [by eexists|].
  assert (∀ fuel i option first x, (i ≤ length CommandLine)%nat → (length CommandLine - i < fuel)%nat →
    ∃ r, command_loop upcase intrinsics iswalnum Callback CommandLine Options Flags fuel i option first x = Ok r) as H; [|apply H; lia].
  clear x. induction fuel as [|fuel IH]; intros i option first x Hi Hf; [lia|]. cbn [command_loop].
  destruct (command_turn_forward i option first x Hi) as (t & -> & Ht). cbn [mbind result_bind].
  destruct t; cbn in Ht; [apply IH; lia|by eexists..].
Qed.
End Total.

Lemma command_line_total_witness : ∃ r, PhParseCommandLine (λ c, c) true (λ c, 0x61 <=? c) (λ _ _ x, (true, S x)) [dash; 0x61; quote; backslash; dash] [] 1 0%nat = Ok r.
Proof. apply (command_line_total (λ c, c) true (λ c, 0x61 <=? c) (λ _ _ x, (true, S x)) [dash; 0x61; quote; backslash; dash] [] 1). vm_compute. reflexivity. Defined.
