(* ===== verification/FilePool.v ===== *)
(** File pools (src/phlib/filepool.c, src/phlib/include/filepool.h): storage that is
    allocated from a file, which is mapped one segment at a time. The words of the
    file, the mappings and the addresses that pointers hold are explicit: the structures
    of the file are read and written through the views that are mapped. *)

From S2P Require Import Prelude.

(** ** The file and its mappings

    The word at an offset of the file in bytes; words that were never written are zero. *)
Record mapping := Mapping { MapBase : Z; MapOffset : Z; MapSize : Z }.

Record PH_FILE_POOL_VIEW := View { RefCount : Z; Base : Z }.

(** A view is named by the index of its segment. A bucket is a circular list, from its
    head on; the set by base is in order; the list of inactive views is from the most
    recent to the least recent. The last five fields are not those of the structure: they
    are the state of the address space, the file and the section, the time, and the number
    of mappings that were refused. *)
Record PH_FILE_POOL := FilePool {
  ByIndexBuckets : list (list Z);
  ByBaseSet : list (Z * Z);
  Views : gmap Z PH_FILE_POOL_VIEW;
  NumberOfInactiveViews : Z;
  InactiveViews : list Z;
  FirstBlockOfFirstSegment : Z;
  mappings : list mapping;
  file : gmap Z Z;
  section_size : Z;
  clock : nat;
  refused : nat;
}.

Definition set_buckets b p := FilePool b (ByBaseSet p) (Views p) (NumberOfInactiveViews p) (InactiveViews p) (FirstBlockOfFirstSegment p) (mappings p) (file p) (section_size p) (clock p) (refused p).
Definition set_by_base b p := FilePool (ByIndexBuckets p) b (Views p) (NumberOfInactiveViews p) (InactiveViews p) (FirstBlockOfFirstSegment p) (mappings p) (file p) (section_size p) (clock p) (refused p).
Definition set_views v p := FilePool (ByIndexBuckets p) (ByBaseSet p) v (NumberOfInactiveViews p) (InactiveViews p) (FirstBlockOfFirstSegment p) (mappings p) (file p) (section_size p) (clock p) (refused p).
Definition set_inactive n l p := FilePool (ByIndexBuckets p) (ByBaseSet p) (Views p) n l (FirstBlockOfFirstSegment p) (mappings p) (file p) (section_size p) (clock p) (refused p).
Definition set_first_block a p := FilePool (ByIndexBuckets p) (ByBaseSet p) (Views p) (NumberOfInactiveViews p) (InactiveViews p) a (mappings p) (file p) (section_size p) (clock p) (refused p).
Definition set_mappings m c p := FilePool (ByIndexBuckets p) (ByBaseSet p) (Views p) (NumberOfInactiveViews p) (InactiveViews p) (FirstBlockOfFirstSegment p) m (file p) (section_size p) c (refused p).
Definition set_file f p := FilePool (ByIndexBuckets p) (ByBaseSet p) (Views p) (NumberOfInactiveViews p) (InactiveViews p) (FirstBlockOfFirstSegment p) (mappings p) f (section_size p) (clock p) (refused p).
Definition set_refused n c p := FilePool (ByIndexBuckets p) (ByBaseSet p) (Views p) (NumberOfInactiveViews p) (InactiveViews p) (FirstBlockOfFirstSegment p) (mappings p) (file p) (section_size p) c n.
Definition set_section n c p := FilePool (ByIndexBuckets p) (ByBaseSet p) (Views p) (NumberOfInactiveViews p) (InactiveViews p) (FirstBlockOfFirstSegment p) (mappings p) (file p) n c (refused p).

(** What Windows provides: the bit maps of ntdll, of 2048 bits as one number, and the
    memory manager, which answers differently at different times. *)
Class FileSystem := {
  RtlSetBits : Z → Z → Z → Z;
  RtlClearBits : Z → Z → Z → Z;
  RtlFindClearBitsAndSet : Z → Z → Z → option (Z * Z);
  NtExtendSection : nat → Z → bool;
  NtMapViewOfSection : nat → list mapping → Z → Z → option Z;
}.

(** An address is read and written through the mapping it is in. *)
Definition maps_address (a : Z) (m : mapping) : bool := (MapBase m <=? a) && (a <? MapBase m + MapSize m).

Definition translate (a : Z) (p : PH_FILE_POOL) : option Z :=
  m ← List.find (maps_address a) (mappings p); Some (MapOffset m + (a - MapBase m)).

Definition read32 (a : Z) : ST PH_FILE_POOL Z := λ p,
  o ← translate a p; Some (default 0 (file p !! o), p).
Definition write32 (a v : Z) : ST PH_FILE_POOL unit := λ p,
  o ← translate a p; Some (tt, set_file (<[o := v]> (file p)) p).

Definition modify (f : PH_FILE_POOL → PH_FILE_POOL) : ST PH_FILE_POOL unit := p ← get_st; put_st (f p).

(** ** Structures

    Offsets of the fields; a block header is followed by the body of its block. *)
Definition ULONG_NONE : Z := 2 ^ 32 - 1.
Definition PH_FP_BLOCK_COUNT : Z := 2048.
Definition Flags : Z := 0.
Definition Span : Z := 4.
Definition Body : Z := 16.

Definition Magic : Z := 0.
Definition SegmentShift_ : Z := 4.
Definition SegmentCount : Z := 8.
Definition UserContext : Z := 16.
Definition FreeLists (i : Z) : Z := 24 + 4 * i.
Definition sizeof_FILE_HEADER : Z := 56.

Definition Bitmap : Z := 0.
Definition FreeBlocks : Z := 256.
Definition FreeFlink : Z := 260.
Definition FreeBlink : Z := 264.
Definition sizeof_SEGMENT_HEADER : Z := 320.

(** The bit map as one number: 64 words, the lowest first. *)
Fixpoint read_words (n : nat) (a : Z) : ST PH_FILE_POOL Z :=
  match n with
  | O => mret 0
  | S n => w ← read32 a; r ← read_words n (a + 4); mret (w + 2 ^ 32 * r)
  end.

Fixpoint write_words (n : nat) (a v : Z) : ST PH_FILE_POOL unit :=
  match n with
  | O => mret tt
  | S n => write32 a (v mod 2 ^ 32);; write_words n (a + 4) (v / 2 ^ 32)
  end.

Section Pool.
Context (SegmentShift MaximumInactiveViews : Z) `{FileSystem}.

Definition SegmentSize : Z := Z.shiftl 1 SegmentShift.
Definition BlockShift : Z := SegmentShift - 11.
Definition BlockSize : Z := Z.shiftl 1 BlockShift.
Definition FileHeaderBlockSpan : Z := Z.shiftr (sizeof_FILE_HEADER + BlockSize - 1) BlockShift.
Definition SegmentHeaderBlockSpan : Z := Z.shiftr (sizeof_SEGMENT_HEADER + BlockSize - 1) BlockShift.

(** The most segments that offsets of 32 bits can tell apart; the loops over segments. *)
Definition max_segments : nat := Z.to_nat (2 ^ (32 - SegmentShift)).

Definition Header : ST PH_FILE_POOL Z := p ← get_st; mret (FirstBlockOfFirstSegment p + Body).

(** *** Range mapping *)

Definition PhFppExtendRange (NewSize : Z) : ST PH_FILE_POOL bool :=
  p ← get_st;
  if NtExtendSection (clock p) NewSize then
    put_st (set_section (Z.max (section_size p) NewSize) (S (clock p)) p);; mret true
  else put_st (set_section (section_size p) (S (clock p)) p);; mret false.

Definition PhFppMapRange (Offset Size : Z) : ST PH_FILE_POOL (option Z) :=
  p ← get_st;
  if section_size p <? Offset + Size then mret None
  else
    match NtMapViewOfSection (clock p) (mappings p) Offset Size with
    | Some base => put_st (set_mappings (Mapping base Offset Size :: mappings p) (S (clock p)) p);; mret (Some base)
    | None => put_st (set_refused (S (refused p)) (S (clock p)) p);; mret None
    end.

Definition PhFppUnmapRange (base : Z) : ST PH_FILE_POOL unit :=
  modify (λ p, set_mappings (List.filter (λ m, negb (MapBase m =? base)) (mappings p)) (clock p) p).

(** *** Views *)

Definition bucket_index (SegmentIndex : Z) : nat := Z.to_nat (Z.land SegmentIndex 31).

Definition PhFppAddViewByIndex (v : Z) : ST PH_FILE_POOL unit :=
  modify (λ p, set_buckets (alter (λ bucket, match bucket with
                                             | head :: bucket => head :: v :: bucket
                                             | [] => [v]
                                             end) (bucket_index v) (ByIndexBuckets p)) p).

Definition PhFppRemoveViewByIndex (v : Z) : ST PH_FILE_POOL unit :=
  modify (λ p, set_buckets (alter (List.filter (λ w, negb (w =? v))) (bucket_index v) (ByIndexBuckets p)) p).

Definition PhFppFindViewByIndex (SegmentIndex : Z) : ST PH_FILE_POOL (option Z) :=
  p ← get_st;
  mret (List.find (λ v, v =? SegmentIndex) (default [] (ByIndexBuckets p !! bucket_index SegmentIndex))).

(** The tree by base, as the sequence of its elements. *)
Fixpoint add_by_base (base v : Z) (l : list (Z * Z)) : list (Z * Z) :=
  match l with
  | [] => [(base, v)]
  | (base', v') :: l' =>
      if base <? base' then (base, v) :: l
      else if base =? base' then l
      else (base', v') :: add_by_base base v l'
  end.

Fixpoint upper_dual_bound (base : Z) (l : list (Z * Z)) : option (Z * Z) :=
  match l with
  | [] => None
  | (base', v') :: l => if base' <=? base then match upper_dual_bound base l with Some r => Some r | None => Some (base', v') end else None
  end.

Definition PhFppAddViewByBase (base v : Z) : ST PH_FILE_POOL unit :=
  modify (λ p, set_by_base (add_by_base base v (ByBaseSet p)) p).

Definition PhFppRemoveViewByBase (base : Z) : ST PH_FILE_POOL unit :=
  modify (λ p, set_by_base (List.filter (λ e, negb (e.1 =? base)) (ByBaseSet p)) p).

Definition PhFppFindViewByBase (address : Z) : ST PH_FILE_POOL (option Z) :=
  p ← get_st;
  mret (match upper_dual_bound address (ByBaseSet p) with
        | Some (base, v) => if address <? base + SegmentSize then Some v else None
        | None => None
        end).

(** The structure of a view; a view that was freed faults. *)
Definition view (v : Z) : ST PH_FILE_POOL PH_FILE_POOL_VIEW := λ p, w ← Views p !! v; Some (w, p).
Definition set_view (v : Z) (w : PH_FILE_POOL_VIEW) : ST PH_FILE_POOL unit := modify (λ p, set_views (<[v := w]> (Views p)) p).

Definition PhFppCreateView (SegmentIndex : Z) : ST PH_FILE_POOL (option Z) :=
  base ← PhFppMapRange (u32 (Z.shiftl SegmentIndex SegmentShift)) SegmentSize;
  match base with
  | None => mret None
  | Some base =>
      set_view SegmentIndex (View 1 base);;
      PhFppAddViewByIndex SegmentIndex;;
      PhFppAddViewByBase base SegmentIndex;;
      mret (Some SegmentIndex)
  end.

Definition PhFppDestroyView (v : Z) : ST PH_FILE_POOL unit :=
  w ← view v;
  PhFppUnmapRange (Base w);;
  PhFppRemoveViewByIndex v;;
  PhFppRemoveViewByBase (Base w);;
  modify (λ p, set_views (delete v (Views p)) p).

Definition PhFppActivateView (v : Z) : ST PH_FILE_POOL unit :=
  modify (λ p, set_inactive (u32 (NumberOfInactiveViews p - 1)) (List.filter (λ w, negb (w =? v)) (InactiveViews p)) p).

(** The least recent view is the last of the list. *)
Fixpoint evict (fuel : nat) : ST PH_FILE_POOL unit :=
  p ← get_st;
  if NumberOfInactiveViews p <=? MaximumInactiveViews then mret tt
  else
    match fuel, last (InactiveViews p) with
    | S fuel, Some v =>
        put_st (set_inactive (u32 (NumberOfInactiveViews p - 1)) (removelast (InactiveViews p)) p);;
        PhFppDestroyView v;;
        evict fuel
    | _, _ => fault
    end.

Definition PhFppDeactivateView (v : Z) : ST PH_FILE_POOL unit :=
  modify (λ p, set_inactive (u32 (NumberOfInactiveViews p + 1)) (v :: InactiveViews p) p);;
  p ← get_st;
  evict (length (InactiveViews p)).

Definition PhFppReferenceView (v : Z) : ST PH_FILE_POOL unit :=
  w ← view v;
  (if RefCount w =? 0 then PhFppActivateView v else mret tt);;
  set_view v (View (u32 (RefCount w + 1)) (Base w)).

(** Raising an exception is a fault, here and below. *)
Definition PhFppDereferenceView (v : Z) : ST PH_FILE_POOL unit :=
  w ← view v;
  let n := u32 (RefCount w - 1) in
  set_view v (View n (Base w));;
  if n =? 0 then if v =? 0 then fault else PhFppDeactivateView v
  else mret tt.

(** The base of the segment, or NULL. *)
Definition PhFppReferenceSegment (SegmentIndex : Z) : ST PH_FILE_POOL Z :=
  valid ← (if SegmentIndex =? 0 then mret true
           else header ← Header; n ← read32 (header + SegmentCount); mret (SegmentIndex <? n));
  if negb valid then mret 0
  else
    v ← PhFppFindViewByIndex SegmentIndex;
    match v with
    | Some v => PhFppReferenceView v;; w ← view v; mret (Base w)
    | None =>
        v ← PhFppCreateView SegmentIndex;
        match v with
        | None => mret 0
        | Some v => w ← view v; mret (Base w)
        end
    end.

Definition PhFppDereferenceSegment (SegmentIndex : Z) : ST PH_FILE_POOL unit :=
  v ← PhFppFindViewByIndex SegmentIndex;
  match v with
  | Some v => PhFppDereferenceView v
  | None => fault
  end.

Definition PhFppReferenceSegmentByBase (address : Z) : ST PH_FILE_POOL unit :=
  v ← PhFppFindViewByBase address;
  match v with
  | Some v => PhFppReferenceView v
  | None => fault
  end.

Definition PhFppDereferenceSegmentByBase (address : Z) : ST PH_FILE_POOL unit :=
  v ← PhFppFindViewByBase address;
  match v with
  | Some v => PhFppDereferenceView v
  | None => fault
  end.

(** *** Segments *)

Definition PhFppInitializeSegment (BlockOfSegmentHeader AdditionalBlocksUsed : Z) : ST PH_FILE_POOL unit :=
  write32 (BlockOfSegmentHeader + Span) SegmentHeaderBlockSpan;;
  let segmentHeader := BlockOfSegmentHeader + Body in
  bitmap ← read_words 64 (segmentHeader + Bitmap);
  write_words 64 (segmentHeader + Bitmap) (RtlSetBits bitmap 0 (SegmentHeaderBlockSpan + AdditionalBlocksUsed));;
  write32 (segmentHeader + FreeBlocks) (u32 (PH_FP_BLOCK_COUNT - (SegmentHeaderBlockSpan + AdditionalBlocksUsed)));;
  write32 (segmentHeader + FreeFlink) ULONG_NONE;;
  write32 (segmentHeader + FreeBlink) ULONG_NONE.

Definition PhFppGetHeaderSegment (FirstBlock : Z) : ST PH_FILE_POOL Z :=
  p ← get_st;
  mret (if negb (FirstBlock =? FirstBlockOfFirstSegment p) then FirstBlock + Body
        else FirstBlock + Z.shiftl FileHeaderBlockSpan BlockShift + Body).

(** *** Bitmap allocation *)

(** The header of the blocks, or NULL. *)
Definition PhFppAllocateBlocks (FirstBlock SegmentHeader NumberOfBlocks : Z) : ST PH_FILE_POOL Z :=
  p ← get_st;
  let hintIndex := if negb (FirstBlock =? FirstBlockOfFirstSegment p) then SegmentHeaderBlockSpan
                   else SegmentHeaderBlockSpan + FileHeaderBlockSpan in
  bitmap ← read_words 64 (SegmentHeader + Bitmap);
  match RtlFindClearBitsAndSet bitmap NumberOfBlocks hintIndex with
  | None => mret 0
  | Some (foundIndex, bitmap) =>
      write_words 64 (SegmentHeader + Bitmap) bitmap;;
      n ← read32 (SegmentHeader + FreeBlocks);
      write32 (SegmentHeader + FreeBlocks) (u32 (n - NumberOfBlocks));;
      let blockHeader := FirstBlock + u32 (Z.shiftl foundIndex BlockShift) in
      write32 (blockHeader + Flags) 0;;
      write32 (blockHeader + Span) NumberOfBlocks;;
      mret blockHeader
  end.

Definition PhFppFreeBlocks (FirstBlock SegmentHeader BlockHeader : Z) : ST PH_FILE_POOL unit :=
  let startIndex := Z.shiftr (u32 (BlockHeader - FirstBlock)) BlockShift in
  blockSpan ← read32 (BlockHeader + Span);
  bitmap ← read_words 64 (SegmentHeader + Bitmap);
  write_words 64 (SegmentHeader + Bitmap) (RtlClearBits bitmap startIndex blockSpan);;
  n ← read32 (SegmentHeader + FreeBlocks);
  write32 (SegmentHeader + FreeBlocks) (u32 (n + blockSpan)).

(** *** Free list *)

Definition PhFppComputeFreeListIndex (NumberOfBlocks : Z) : Z :=
  if PH_FP_BLOCK_COUNT / 64 <=? NumberOfBlocks then
    if PH_FP_BLOCK_COUNT / 2 <=? NumberOfBlocks then
      if PH_FP_BLOCK_COUNT - SegmentHeaderBlockSpan <=? NumberOfBlocks then 0 else 1
    else if PH_FP_BLOCK_COUNT / 16 <=? NumberOfBlocks then 2 else 3
  else if 4 <=? NumberOfBlocks then if PH_FP_BLOCK_COUNT / 256 <=? NumberOfBlocks then 4 else 5
  else if 1 <=? NumberOfBlocks then 6 else 7.

Definition PhFppInsertFreeList (FreeListIndex SegmentIndex SegmentHeader : Z) : ST PH_FILE_POOL bool :=
  header ← Header;
  oldSegmentIndex ← read32 (header + FreeLists FreeListIndex);
  oldSegmentFirstBlock ← (if negb (oldSegmentIndex =? ULONG_NONE) then PhFppReferenceSegment oldSegmentIndex else mret 0);
  if negb (oldSegmentIndex =? ULONG_NONE) && (oldSegmentFirstBlock =? 0) then mret false
  else
    write32 (SegmentHeader + FreeBlink) ULONG_NONE;;
    write32 (SegmentHeader + FreeFlink) oldSegmentIndex;;
    write32 (header + FreeLists FreeListIndex) SegmentIndex;;
    (if negb (oldSegmentIndex =? ULONG_NONE) then
       oldSegmentHeader ← PhFppGetHeaderSegment oldSegmentFirstBlock;
       write32 (oldSegmentHeader + FreeBlink) SegmentIndex;;
       PhFppDereferenceSegment oldSegmentIndex
     else mret tt);;
    mret true.

Definition PhFppRemoveFreeList (FreeListIndex SegmentIndex SegmentHeader : Z) : ST PH_FILE_POOL bool :=
  header ← Header;
  flinkSegmentIndex ← read32 (SegmentHeader + FreeFlink);
  blinkSegmentIndex ← read32 (SegmentHeader + FreeBlink);
  flinkSegmentFirstBlock ← (if negb (flinkSegmentIndex =? ULONG_NONE) then PhFppReferenceSegment flinkSegmentIndex else mret 0);
  if negb (flinkSegmentIndex =? ULONG_NONE) && (flinkSegmentFirstBlock =? 0) then mret false
  else
    blinkSegmentFirstBlock ← (if negb (blinkSegmentIndex =? ULONG_NONE) then PhFppReferenceSegment blinkSegmentIndex else mret 0);
    if negb (blinkSegmentIndex =? ULONG_NONE) && (blinkSegmentFirstBlock =? 0) then
      (if negb (flinkSegmentIndex =? ULONG_NONE) then PhFppDereferenceSegment flinkSegmentIndex else mret tt);;
      mret false
    else
      (if negb (flinkSegmentIndex =? ULONG_NONE) then
         flinkSegmentHeader ← PhFppGetHeaderSegment flinkSegmentFirstBlock;
         write32 (flinkSegmentHeader + FreeBlink) blinkSegmentIndex;;
         PhFppDereferenceSegment flinkSegmentIndex
       else mret tt);;
      (if negb (blinkSegmentIndex =? ULONG_NONE) then
         blinkSegmentHeader ← PhFppGetHeaderSegment blinkSegmentFirstBlock;
         write32 (blinkSegmentHeader + FreeFlink) flinkSegmentIndex;;
         PhFppDereferenceSegment blinkSegmentIndex
       else write32 (header + FreeLists FreeListIndex) flinkSegmentIndex);;
      mret true.

(** The first block of the new segment, or NULL, and its index. *)
Definition PhFppAllocateSegment : ST PH_FILE_POOL (Z * Z) :=
  header ← Header;
  n ← read32 (header + SegmentCount);
  extended ← PhFppExtendRange (u32 (Z.shiftl (u32 (n + 1)) SegmentShift));
  if negb extended then mret (0, 0)
  else
    let segmentIndex := n in
    write32 (header + SegmentCount) (u32 (n + 1));;
    firstBlock ← PhFppReferenceSegment segmentIndex;
    PhFppInitializeSegment firstBlock 0;;
    let segmentHeader := firstBlock + Body in
    PhFppInsertFreeList 0 segmentIndex segmentHeader;;
    mret (firstBlock, segmentIndex).

(** *** Relative virtual addresses *)

Definition PhFppGetHeaderBlock (Block : Z) : Z := Block - Body.

Definition PhFppEncodeRva (SegmentIndex FirstBlock Address : Z) : Z :=
  u32 (u32 (Z.shiftl SegmentIndex SegmentShift) + u32 (Address - FirstBlock)).

(** The offset and the index of the segment. *)
Definition PhFppDecodeRva (Rva : Z) : ST PH_FILE_POOL (option (Z * Z)) :=
  let segmentIndex := Z.shiftr Rva SegmentShift in
  header ← Header;
  n ← read32 (header + SegmentCount);
  mret (if n <=? segmentIndex then None else Some (Z.land Rva (SegmentSize - 1), segmentIndex)).

(** *** Allocation *)

Inductive scan :=
  | Allocated (blockHeader segmentIndex firstBlock segmentHeader freeListIndex : Z)
  | NotAllocated
  | NotMapped.

(** The segments of a free list, from [segmentIndex] on. *)
Fixpoint scan_list (fuel : nat) (numberOfBlocks freeListIndex segmentIndex : Z) : ST PH_FILE_POOL scan :=
  if segmentIndex =? ULONG_NONE then mret NotAllocated
  else
    match fuel with
    | O => fault
    | S fuel =>
        firstBlock ← PhFppReferenceSegment segmentIndex;
        if firstBlock =? 0 then mret NotMapped
        else
          segmentHeader ← PhFppGetHeaderSegment firstBlock;
          nextSegmentIndex ← read32 (segmentHeader + FreeFlink);
          blockHeader ← PhFppAllocateBlocks firstBlock segmentHeader numberOfBlocks;
          if negb (blockHeader =? 0) then mret (Allocated blockHeader segmentIndex firstBlock segmentHeader freeListIndex)
          else
            PhFppDereferenceSegment segmentIndex;;
            scan_list fuel numberOfBlocks freeListIndex nextSegmentIndex
    end.

(** [n] free lists, from [freeListIndex] on. *)
Fixpoint scan_lists (n : nat) (numberOfBlocks freeListIndex : Z) : ST PH_FILE_POOL scan :=
  match n with
  | O => mret NotAllocated
  | S n =>
      header ← Header;
      segmentIndex ← read32 (header + FreeLists freeListIndex);
      r ← scan_list max_segments numberOfBlocks freeListIndex segmentIndex;
      match r with
      | NotAllocated => scan_lists n numberOfBlocks (freeListIndex + 1)
      | _ => mret r
      end
  end.

(** A new segment, when no segment of the free lists has the blocks. *)
Definition scan_new_segment (numberOfBlocks : Z) : ST PH_FILE_POOL scan :=
  new ← PhFppAllocateSegment;
  let '(firstBlock, segmentIndex) := new in
  if firstBlock =? 0 then mret NotMapped
  else
    segmentHeader ← PhFppGetHeaderSegment firstBlock;
    blockHeader ← PhFppAllocateBlocks firstBlock segmentHeader numberOfBlocks;
    if blockHeader =? 0 then PhFppDereferenceSegment segmentIndex;; mret NotMapped
    else mret (Allocated blockHeader segmentIndex firstBlock segmentHeader 0).

Definition move_segment (oldFreeListIndex newFreeListIndex segmentIndex segmentHeader : Z) : ST PH_FILE_POOL unit :=
  if negb (newFreeListIndex =? oldFreeListIndex) then
    PhFppRemoveFreeList oldFreeListIndex segmentIndex segmentHeader;;
    PhFppInsertFreeList newFreeListIndex segmentIndex segmentHeader;;
    mret tt
  else mret tt.

(** The body of the block and its relative virtual address, or NULL. *)
Definition PhAllocateFilePool (Size : Z) : ST PH_FILE_POOL (Z * Z) :=
  let numberOfBlocks := Z.shiftr (u32 (Body + Size + BlockSize - 1)) BlockShift in
  if PH_FP_BLOCK_COUNT - SegmentHeaderBlockSpan <? numberOfBlocks then mret (0, 0)
  else
    let freeListLimit := PhFppComputeFreeListIndex numberOfBlocks in
    r ← scan_lists (S (Z.to_nat freeListLimit)) numberOfBlocks 0;
    r ← match r with
        | NotAllocated => scan_new_segment numberOfBlocks
        | r => mret r
        end;
    match r with
    | Allocated blockHeader segmentIndex firstBlock segmentHeader freeListIndex =>
        n ← read32 (segmentHeader + FreeBlocks);
        move_segment freeListIndex (PhFppComputeFreeListIndex n) segmentIndex segmentHeader;;
        mret (blockHeader + Body, PhFppEncodeRva segmentIndex firstBlock (blockHeader + Body))
    | _ => mret (0, 0)
    end.

Definition PhpFreeFilePool (SegmentIndex FirstBlock Block : Z) : ST PH_FILE_POOL unit :=
  segmentHeader ← PhFppGetHeaderSegment FirstBlock;
  n ← read32 (segmentHeader + FreeBlocks);
  let oldFreeListIndex := PhFppComputeFreeListIndex n in
  PhFppFreeBlocks FirstBlock segmentHeader (PhFppGetHeaderBlock Block);;
  n ← read32 (segmentHeader + FreeBlocks);
  move_segment oldFreeListIndex (PhFppComputeFreeListIndex n) SegmentIndex segmentHeader.

Definition PhFreeFilePool (Block : Z) : ST PH_FILE_POOL unit :=
  v ← PhFppFindViewByBase Block;
  match v with
  | None => fault
  | Some v =>
      w ← view v;
      PhpFreeFilePool v (Base w) Block;;
      PhFppDereferenceView v
  end.

Definition PhFreeFilePoolByRva (Rva : Z) : ST PH_FILE_POOL bool :=
  r ← PhFppDecodeRva Rva;
  match r with
  | None => mret false
  | Some (offset, segmentIndex) =>
      firstBlock ← PhFppReferenceSegment segmentIndex;
      if firstBlock =? 0 then mret false
      else
        PhpFreeFilePool segmentIndex firstBlock (firstBlock + offset);;
        PhFppDereferenceSegment segmentIndex;;
        mret true
  end.

Definition PhReferenceFilePool (Address : Z) : ST PH_FILE_POOL unit := PhFppReferenceSegmentByBase Address.
Definition PhDereferenceFilePool (Address : Z) : ST PH_FILE_POOL unit := PhFppDereferenceSegmentByBase Address.

Definition PhReferenceFilePoolByRva (Rva : Z) : ST PH_FILE_POOL Z :=
  if Rva =? 0 then mret 0
  else
    r ← PhFppDecodeRva Rva;
    match r with
    | None => mret 0
    | Some (offset, segmentIndex) =>
        firstBlock ← PhFppReferenceSegment segmentIndex;
        mret (if firstBlock =? 0 then 0 else firstBlock + offset)
    end.

Definition PhDereferenceFilePoolByRva (Rva : Z) : ST PH_FILE_POOL bool :=
  r ← PhFppDecodeRva Rva;
  match r with
  | None => mret false
  | Some (_, segmentIndex) => PhFppDereferenceSegment segmentIndex;; mret true
  end.

Definition PhEncodeRvaFilePool (Address : Z) : ST PH_FILE_POOL Z :=
  if Address =? 0 then mret 0
  else
    v ← PhFppFindViewByBase Address;
    match v with
    | None => fault
    | Some v => w ← view v; mret (PhFppEncodeRva v (Base w) Address)
    end.

Definition PhGetUserContextFilePool : ST PH_FILE_POOL Z := header ← Header; read_words 2 (header + UserContext).
Definition PhSetUserContextFilePool (Context : Z) : ST PH_FILE_POOL unit := header ← Header; write_words 2 (header + UserContext) Context.

(** *** Creation and destruction *)

(** The rest of the creation, when the segment size is known. *)
Definition open_pool (creating : bool) : ST PH_FILE_POOL bool :=
  extended ← (if creating then PhFppExtendRange SegmentSize else mret true);
  if negb extended then mret false
  else
    modify (λ p, set_inactive 0 [] (set_by_base [] (set_buckets (replicate 32 []) p)));;
    firstBlock ← PhFppReferenceSegment 0;
    modify (set_first_block firstBlock);;
    (if creating then
       write32 (firstBlock + Span) FileHeaderBlockSpan;;
       PhFppInitializeSegment (firstBlock + Z.shiftl FileHeaderBlockSpan BlockShift) FileHeaderBlockSpan;;
       header ← Header;
       write32 (header + FreeLists 1) 0
     else mret tt);;
    mret true.

(** All views are unmapped; the structures are freed. *)
Fixpoint unmap_views (l : list Z) : ST PH_FILE_POOL unit :=
  match l with
  | [] => mret tt
  | v :: l => w ← view v; PhFppUnmapRange (Base w);; unmap_views l
  end.

Definition PhDestroyFilePool : ST PH_FILE_POOL unit := p ← get_st; unmap_views (concat (ByIndexBuckets p)).

End Pool.

Definition PhpValidateFilePoolParameters (SegmentShift : Z) : Z :=
  let SegmentShift := if SegmentShift <? 16 then 16 else SegmentShift in
  if 28 <? SegmentShift then 28 else SegmentShift.

Definition PhpSetDefaultFilePoolParameters : Z * Z := (18, 128).

Definition PH_FP_MAGIC : Z := 0x6c6f5046.
Definition PAGE_SIZE : Z := 4096.

(** On a pool of zeros, with the size of the file as [section_size]: the segment shift and the
    maximum of inactive views of the pool, or [None] for an error. *)
Definition PhCreateFilePool `{FileSystem} (ReadOnly : bool) (Parameters : option (Z * Z)) : ST PH_FILE_POOL (option (Z * Z)) :=
  let '(SegmentShift, MaximumInactiveViews) := match Parameters with
                                               | Some (shift, maximum) => (PhpValidateFilePoolParameters shift, maximum)
                                               | None => PhpSetDefaultFilePoolParameters
                                               end in
  p ← get_st;
  let creating := section_size p <? PAGE_SIZE in
  if creating && ReadOnly then mret None
  else
    (if creating then put_st (set_section PAGE_SIZE (clock p) p) else mret tt);;
    initialBlock ← PhFppMapRange 0 PAGE_SIZE;
    match initialBlock with
    | None => mret None
    | Some initialBlock =>
        let header := initialBlock + Body in
        valid ← (if creating then
                   write32 (header + Magic) PH_FP_MAGIC;;
                   write32 (header + SegmentShift_) SegmentShift;;
                   write32 (header + SegmentCount) 1;;
                   write_words 8 (header + FreeLists 0) (2 ^ 256 - 1);;
                   mret true
                 else m ← read32 (header + Magic); mret (m =? PH_FP_MAGIC));
        if negb valid then PhFppUnmapRange initialBlock;; mret None
        else
          shift ← read32 (header + SegmentShift_);
          PhFppUnmapRange initialBlock;;
          opened ← open_pool shift creating;
          mret (if opened : bool then Some (shift, MaximumInactiveViews) else None)
    end.
