(* ===== verification/FilePoolFacts.v ===== *)
(** File pools: the layout of segments, the words of the file as the views show them, and
    the cache of views. *)

From S2P Require Import Prelude Blocks FilePool.

(** What Windows promises: the bit maps do what they are named after; and a mapping, if it is
    not refused, is placed where no other is, above the first 64K of the address space. *)
Class FileSystemOk (F : FileSystem) := {
  set_bits_ok b s n j : 0 ≤ b < 2 ^ 2048 → 0 ≤ s → 0 ≤ n → s + n ≤ 2048 → 0 ≤ j →
    Z.testbit (RtlSetBits b s n) j = Z.testbit b j || ((s <=? j) && (j <? s + n));
  set_bits_range b s n : 0 ≤ b < 2 ^ 2048 → 0 ≤ s → 0 ≤ n → s + n ≤ 2048 → 0 ≤ RtlSetBits b s n < 2 ^ 2048;
  clear_bits_ok b s n j : 0 ≤ b < 2 ^ 2048 → 0 ≤ s → 0 ≤ n → s + n ≤ 2048 → 0 ≤ j →
    Z.testbit (RtlClearBits b s n) j = Z.testbit b j && negb ((s <=? j) && (j <? s + n));
  clear_bits_range b s n : 0 ≤ b < 2 ^ 2048 → 0 ≤ s → 0 ≤ n → s + n ≤ 2048 → 0 ≤ RtlClearBits b s n < 2 ^ 2048;
  find_some b n h i b' : 0 ≤ b < 2 ^ 2048 → 1 ≤ n → RtlFindClearBitsAndSet b n h = Some (i, b') →
    0 ≤ i ∧ i + n ≤ 2048 ∧ (∀ j, i ≤ j < i + n → Z.testbit b j = false) ∧ b' = RtlSetBits b i n;
  find_none b n h : 0 ≤ b < 2 ^ 2048 → 1 ≤ n → RtlFindClearBitsAndSet b n h = None →
    ∀ i, 0 ≤ i → i + n ≤ 2048 → ∃ j, i ≤ j < i + n ∧ Z.testbit b j = true;
  map_place c ms o s base : NtMapViewOfSection c ms o s = Some base →
    2 ^ 16 ≤ base ∧ ∀ m, m ∈ ms → base + s ≤ MapBase m ∨ MapBase m + MapSize m ≤ base;
}.

(** *** Programs that may fault

    [R] says why. *)
Definition wp_or {S A} (R : Prop) (m : ST S A) (Q : A → S → Prop) (s : S) : Prop := m s = None ∧ R ∨ wp m Q s.

Lemma wp_or_bind {S A B} R (m : ST S A) (f : A → ST S B) (Q : B → S → Prop) (s : S) :
  wp m (λ a s', wp_or R (f a) Q s') s → wp_or R (m ≫= f) Q s.
Proof.
  intros (a & s1 & Hm & [[Hf HR]|Hf]); [left|right].
  - split; [|done]. unfold mbind, ST_bind. by rewrite Hm.
  - apply wp_bind. by exists a, s1.
Qed.

Lemma wp_or_seq {S A B} (R : Prop) (m : ST S A) (f : A → ST S B) (P : A → S → Prop) (Q : B → S → Prop) (s : S) :
  wp_or R m P s → (∀ a s', P a s' → wp_or R (f a) Q s') → wp_or R (m ≫= f) Q s.
Proof.
  intros [[Hm HR]|Hm] Hf; [left; split; [|done]; unfold mbind, ST_bind; by rewrite Hm|]. apply wp_or_bind. by eapply wp_mono.
Qed.

Lemma wp_or_mono {S A} R (m : ST S A) (P Q : A → S → Prop) (s : S) : wp_or R m P s → (∀ a s', P a s' → Q a s') → wp_or R m Q s.
Proof. intros [H|H] HPQ; [by left|right]. by eapply wp_mono. Qed.

Lemma wp_or_wp {S A} R (m : ST S A) (Q : A → S → Prop) (s : S) : wp m Q s → wp_or R m Q s.
Proof. by right. Qed.

Lemma wp_or_assoc {S A B C} R (m : ST S A) (f : A → ST S B) (g : B → ST S C) Q (s : S) :
  wp_or R ((m ≫= f) ≫= g) Q s → wp_or R (m ≫= λ a, f a ≫= g) Q s.
Proof. unfold wp_or, wp, mbind, ST_bind. by destruct (m s) as [[??]|]. Qed.

(** The segment shifts for which the headers do not overlap. *)
Class PoolOk (SegmentShift MaximumInactiveViews : Z) := {
  shift_ok : 18 ≤ SegmentShift ≤ 28;
  maximum_ok : 0 ≤ MaximumInactiveViews < 2 ^ 31;
}.

Lemma wp_modify f (Q : unit → PH_FILE_POOL → Prop) p : Q tt (f p) → wp (modify f) Q p.
Proof. intros H. unfold modify. steps. exact H. Qed.

Lemma wp_view v w (Q : PH_FILE_POOL_VIEW → PH_FILE_POOL → Prop) p : Views p !! v = Some w → Q w p → wp (view v) Q p.
Proof. intros Hv HQ. exists w, p. unfold view. by rewrite Hv. Qed.

(** ** Layout *)
Section Facts.
Context {SegmentShift MaximumInactiveViews : Z} `{F : FileSystem, P : !PoolOk SegmentShift MaximumInactiveViews}.

Local Abbreviation SS := (SegmentSize SegmentShift).
Local Abbreviation BS := (BlockSize SegmentShift).
Local Abbreviation FHS := (FileHeaderBlockSpan SegmentShift).
Local Abbreviation SHS := (SegmentHeaderBlockSpan SegmentShift).

Lemma layout : 128 ≤ BS ∧ SS = 2048 * BS ∧ FHS = 1 ∧ 1 ≤ SHS ≤ 3 ∧ 336 ≤ SHS * BS ∧ BS ≤ 2 ^ 17 ∧ SS = 2 ^ SegmentShift ∧ BS = 2 ^ BlockShift SegmentShift.
Proof.
  pose proof shift_ok as Hshift. assert (∃ k, SegmentShift = 18 + Z.of_nat k ∧ (k < 11)%nat) as (k & -> & Hk) by (exists (Z.to_nat (SegmentShift - 18)); lia). clear P Hshift.
  do 11 (destruct k as [|k]; [vm_compute; repeat split; discriminate|]). lia.
Qed.

(** The blocks before the segment header, and before the blocks for users. *)
Definition header_block (i : Z) : Z := if i =? 0 then FHS else 0.
Definition first_block (i : Z) : Z := header_block i + SHS.

Definition at_bitmap (i : Z) (k : nat) : Z := header_block i * BS + 16 + 4 * Z.of_nat k.
Definition at_free (i : Z) : Z := header_block i * BS + 272.
Definition at_flink (i : Z) : Z := header_block i * BS + 276.
Definition at_blink (i : Z) : Z := header_block i * BS + 280.
Definition at_count : Z := 24.
Definition at_list (c : Z) : Z := 40 + 4 * c.

Lemma header_block_range i : 0 ≤ header_block i ≤ 1 ∧ 0 ≤ header_block i * BS ∧ header_block i * BS + 336 ≤ first_block i * BS ∧ first_block i ≤ 4 ∧ first_block i * BS < SS.
Proof. destruct layout as (H1 & H2 & H3 & H4 & H5 & _). unfold first_block, header_block. destruct (i =? 0); rewrite ?H3; nia. Qed.

(** ** Words *)

Definition word (f : gmap Z Z) (i o : Z) : Z := default 0 (f !! (i * SS + o)).

Lemma offset_inj i o j o' : 0 ≤ o < SS → 0 ≤ o' < SS → i * SS + o = j * SS + o' → i = j ∧ o = o'.
Proof. intros. assert (i = j) by nia. subst. lia. Qed.

Lemma word_insert f i o x j o' : 0 ≤ o < SS → 0 ≤ o' < SS →
  word (<[i * SS + o := x]> f) j o' = if decide (i = j ∧ o = o') then x else word f j o'.
Proof.
  intros Ho Ho'. unfold word. case_decide as E.
  - destruct E as [-> ->]. by rewrite lookup_insert_eq.
  - rewrite lookup_insert_ne; [done|]. intros H%offset_inj; auto.
Qed.

(** ** The cache of views *)

Definition pins (p : PH_FILE_POOL) (i : Z) : Z := match Views p !! i with Some v => RefCount v | None => 0 end.

Record cache_ok (count : Z) (p : PH_FILE_POOL) : Prop := {
  ok_views i v : Views p !! i = Some v → 0 ≤ i < count ∧ 0 ≤ RefCount v ∧ 2 ^ 16 ≤ Base v;
  ok_buckets : length (ByIndexBuckets p) = 32%nat;
  ok_bucket i k b : ByIndexBuckets p !! k = Some b → i ∈ b ↔ k = bucket_index i ∧ is_Some (Views p !! i);
  ok_by_base b i : (b, i) ∈ ByBaseSet p ↔ ∃ v, Views p !! i = Some v ∧ Base v = b;
  ok_sorted : StronglySorted (λ e e', e.1 < e'.1) (ByBaseSet p);
  ok_mappings m : m ∈ mappings p ↔ ∃ i v, Views p !! i = Some v ∧ m = Mapping (Base v) (i * SS) SS;
  ok_apart i v j w : Views p !! i = Some v → Views p !! j = Some w → i = j ∨ Base v + SS ≤ Base w ∨ Base w + SS ≤ Base v;
  ok_inactive : NoDup (InactiveViews p);
  ok_inactive_in i : i ∈ InactiveViews p ↔ ∃ v, Views p !! i = Some v ∧ RefCount v = 0;
  ok_inactive_number : NumberOfInactiveViews p = Z.of_nat (length (InactiveViews p));
  ok_count : 0 < count ∧ count * SS ≤ section_size p ∧ count * SS ≤ 2 ^ 32;
}.

(** The first segment stays mapped. *)
Definition first_ok (p : PH_FILE_POOL) : Prop := ∃ v, Views p !! 0 = Some v ∧ Base v = FirstBlockOfFirstSegment p ∧ 0 < RefCount v.

(** What operations on the cache leave alone. *)
Definition same_file (p p' : PH_FILE_POOL) : Prop :=
  file p' = file p ∧ (section_size p' = section_size p ∧ refused p' = refused p) ∧ FirstBlockOfFirstSegment p' = FirstBlockOfFirstSegment p.

(** A mapping was refused between two states. *)
Definition denied (p p' : PH_FILE_POOL) : Prop := (refused p < refused p')%nat ∧ ∃ c ms o s, NtMapViewOfSection c ms o s = None.

Lemma translate_ok count p i v o : cache_ok count p → Views p !! i = Some v → 0 ≤ o < SS → translate (Base v + o) p = Some (i * SS + o).
Proof.
  intros Hok Hv Ho. unfold translate.
  destruct (List.find (maps_address (Base v + o)) (mappings p)) as [m|] eqn:Hf.
  - apply List.find_some in Hf as [Hin Hm]. apply list_elem_of_In, (ok_mappings _ _ Hok) in Hin as (j & w & Hw & ->).
    unfold maps_address in Hm. cbn in Hm. apply andb_prop in Hm as [H1%Z.leb_le H2%Z.ltb_lt].
    destruct (ok_apart _ _ Hok _ _ _ _ Hv Hw) as [<-|]; [|lia]. rewrite Hv in Hw. injection Hw as <-. cbn. f_equal. lia.
  - exfalso. assert (Mapping (Base v) (i * SS) SS ∈ mappings p) as Hin by (apply (ok_mappings _ _ Hok); eauto).
    apply list_elem_of_In in Hin. apply (List.find_none _ _ Hf) in Hin. unfold maps_address in Hin. cbn in Hin.
    destruct (Z.leb_spec (Base v) (Base v + o)); [|lia]. destruct (Z.ltb_spec (Base v + o) (Base v + SS)); [|lia]. done.
Qed.

Lemma read_view_ok count p i v o (Q : Z → PH_FILE_POOL → Prop) : cache_ok count p → Views p !! i = Some v → 0 ≤ o < SS →
  Q (word (file p) i o) p → wp (read32 (Base v + o)) Q p.
Proof. intros Hok Hv Ho HQ. unfold wp, read32. rewrite (translate_ok count p i v o) by done. cbn. eauto. Qed.

Lemma write_view_ok count p i v o x (Q : unit → PH_FILE_POOL → Prop) : cache_ok count p → Views p !! i = Some v → 0 ≤ o < SS →
  Q tt (set_file (<[i * SS + o := x]> (file p)) p) → wp (write32 (Base v + o) x) Q p.
Proof. intros Hok Hv Ho HQ. unfold wp, write32. rewrite (translate_ok count p i v o) by done. cbn. eauto. Qed.

Lemma cache_file count p f : cache_ok count p → cache_ok count (set_file f p).
Proof. by intros []. Qed.

Lemma bucket_exists count p i : cache_ok count p → is_Some (ByIndexBuckets p !! bucket_index i).
Proof.
  intros Hok. apply lookup_lt_is_Some. rewrite (ok_buckets _ _ Hok). unfold bucket_index.
  change 31 with (2 ^ 5 - 1). rewrite land_pow2 by lia. pose proof (Z.mod_pos_bound i (2 ^ 5) ltac:(lia)). lia.
Qed.

Lemma find_view_ok count p i (Q : option Z → PH_FILE_POOL → Prop) : cache_ok count p →
  Q (if decide (is_Some (Views p !! i)) then Some i else None) p → wp (PhFppFindViewByIndex i) Q p.
Proof.
  intros Hok HQ. unfold PhFppFindViewByIndex. steps. destruct (bucket_exists _ _ i Hok) as [b Hb]. rewrite Hb. cbn [from_option id].
  pose proof (ok_bucket _ _ Hok i _ _ Hb) as Hin. destruct (List.find (λ v, v =? i) b) as [v|] eqn:Hf.
  - apply List.find_some in Hf as [Hv ->%Z.eqb_eq]. apply list_elem_of_In in Hv. rewrite decide_True in HQ by tauto. done.
  - rewrite decide_False in HQ; [done|]. intros Hs. assert (i ∈ b) as Hi by tauto. apply list_elem_of_In, (List.find_none _ _ Hf) in Hi.
    by rewrite Z.eqb_refl in Hi.
Qed.

Lemma add_by_base_elem b v l e : b ∉ l.*1 → e ∈ add_by_base b v l ↔ e = (b, v) ∨ e ∈ l.
Proof.
  induction l as [|[b' v'] l IH]; cbn [add_by_base]; [set_solver|]. intros Hb. destruct (b <? b'); [set_solver|].
  destruct (Z.eqb_spec b b') as [->|]; [set_solver|]. rewrite elem_of_cons, IH by set_solver. set_solver.
Qed.

Lemma add_by_base_sorted b v l : b ∉ l.*1 → StronglySorted (λ e e' : Z * Z, e.1 < e'.1) l → StronglySorted (λ e e', e.1 < e'.1) (add_by_base b v l).
Proof.
  induction l as [|[b' v'] l IH]; cbn [add_by_base]; [repeat constructor|]. intros Hb [Hs Hl]%StronglySorted_inv.
  destruct (Z.ltb_spec b b').
  - constructor; [by constructor|]. constructor; [done|]. eapply Forall_impl; [exact Hl|]. cbn. lia.
  - destruct (Z.eqb_spec b b') as [->|]; [set_solver|]. constructor; [apply IH; [set_solver|done]|].
    apply Forall_forall. intros e. rewrite add_by_base_elem by set_solver. intros [->|He]; cbn; [lia|]. rewrite Forall_forall in Hl. by apply Hl.
Qed.

Lemma add_bucket_ok v k (bs : list (list Z)) i j b : v ∉ default [] (bs !! k) →
  alter (λ bucket, match bucket with head :: bucket => head :: v :: bucket | [] => [v] end) k bs !! j = Some b →
  ∃ b0, bs !! j = Some b0 ∧ (i ∈ b ↔ i ∈ b0 ∨ i = v ∧ j = k).
Proof.
  intros Hv Hb. destruct (decide (k = j)) as [<-|].
  - rewrite list_lookup_alter_eq in Hb. destruct (bs !! k) as [b0|]; [|done]. injection Hb as <-. exists b0. split; [done|].
    destruct b0; set_solver.
  - rewrite list_lookup_alter_ne in Hb by done. exists b. split; [done|]. naive_solver.
Qed.

Lemma create_view_ok `{!FileSystemOk F} count p i : cache_ok count p → Views p !! i = None → 0 ≤ i < count →
  wp (PhFppCreateView SegmentShift i) (λ r p',
    (r = None ∧ NtMapViewOfSection (clock p) (mappings p) (i * SS) SS = None ∧ ∃ c, p' = set_refused (S (refused p)) c p) ∨
    r = Some i ∧ cache_ok count p' ∧ same_file p p' ∧
    NumberOfInactiveViews p' = NumberOfInactiveViews p ∧ ∃ b, 2 ^ 16 ≤ b ∧ Views p' = <[i := View 1 b]> (Views p)) p.
Proof.
  intros Hok Hi Hr. pose proof (ok_count _ _ Hok) as (Hc & Hsec & H32). destruct layout as (HBS & HSS & _ & _ & _ & _ & Hpow & _).
  unfold PhFppCreateView, PhFppMapRange, set_view, PhFppAddViewByIndex, PhFppAddViewByBase. steps.
  pose proof shift_ok. rewrite Z.shiftl_mul_pow2, <-Hpow, u32_small by (lia || nia). destruct (Z.ltb_spec (section_size p) (i * SS + SS)); [nia|].
  destruct (NtMapViewOfSection (clock p) (mappings p) (i * SS) SS) as [b|] eqn:Hb; [|steps; left; eauto]. apply map_place in Hb as [Hb Hplace]. steps.
  repeat (apply wp_modify || step). right. split; [done|].
  assert (∀ j w, Views p !! j = Some w → b + SS ≤ Base w ∨ Base w + SS ≤ b) as Happ.
  { intros j w Hw. apply (Hplace (Mapping (Base w) (j * SS) SS)). apply (ok_mappings _ _ Hok). eauto. }
  assert (b ∉ (ByBaseSet p).*1) as Hfresh.
  { intros Hin. apply list_elem_of_fmap in Hin as ([b' j] & -> & Hin). apply (ok_by_base _ _ Hok) in Hin as (w & Hw & <-). apply Happ in Hw. cbn in Hw. lia. }
  assert (i ∉ default [] (ByIndexBuckets p !! bucket_index i)) as Hib.
  { destruct (bucket_exists _ _ i Hok) as [bk Hbk]. rewrite Hbk. cbn. rewrite (ok_bucket _ _ Hok i _ _ Hbk), Hi. intros [_ [? ?]]; done. }
  split; [|split; [done|]; split; [done|]; exists b; done]. constructor; cbn; try apply Hok.
  - intros j w. rewrite lookup_insert_Some. intros [[<- <-]|[_ Hw]]; [cbn; lia|]. by apply (ok_views _ _ Hok).
  - rewrite length_alter. apply Hok.
  - intros j k bk Hk. destruct (add_bucket_ok i (bucket_index i) _ j k bk Hib Hk) as (b0 & Hb0 & ->). rewrite (ok_bucket _ _ Hok j _ _ Hb0).
    destruct (decide (j = i)) as [->|]; [rewrite lookup_insert_eq|rewrite lookup_insert_ne by done]; naive_solver.
  - intros b' j. rewrite add_by_base_elem by done. rewrite (ok_by_base _ _ Hok). split.
    + intros [[= -> ->]|(w & Hw & <-)]; [exists (View 1 b); by rewrite lookup_insert_eq|]. exists w. by rewrite lookup_insert_ne by congruence.
    + intros (w & [[<- <-]|[_ Hw]]%lookup_insert_Some & <-); [by left|right; eauto].
  - apply add_by_base_sorted; [done|]. apply Hok.
  - intros m. rewrite elem_of_cons, (ok_mappings _ _ Hok). split.
    + intros [->|(j & w & Hw & ->)]; [exists i, (View 1 b); by rewrite lookup_insert_eq|]. exists j, w. by rewrite lookup_insert_ne by congruence.
    + intros (j & w & [[<- <-]|[_ Hw]]%lookup_insert_Some & ->); [by left|right; eauto].
  - intros j w k x. rewrite !lookup_insert_Some. intros [[<- <-]|[Hji Hw]] [[<- <-]|[Hki Hx]]; cbn.
    + by left.
    + right. destruct (Happ _ _ Hx); lia.
    + right. destruct (Happ _ _ Hw); lia.
    + by apply (ok_apart _ _ Hok).
  - intros j. rewrite (ok_inactive_in _ _ Hok). split; intros (w & Hw & Hz).
    + exists w. by rewrite lookup_insert_ne by congruence.
    + apply lookup_insert_Some in Hw as [[<- <-]|[_ Hw]]; [done|eauto].
Qed.

(** There are no more views than segments. *)
Lemma inactive_bound count p : cache_ok count p → Z.of_nat (length (InactiveViews p)) ≤ count ∧ count < 2 ^ 32.
Proof.
  intros Hok. destruct (ok_count _ _ Hok) as (H0 & _ & H32). destruct layout as (HBS & HSS & _). split; [|nia].
  assert (length (InactiveViews p) ≤ length (seqZ 0 count))%nat as Hle; [|rewrite length_seqZ in Hle; lia].
  apply submseteq_length, NoDup_submseteq; [apply Hok|]. intros i (v & Hv & _)%(ok_inactive_in _ _ Hok).
  apply elem_of_seqZ. pose proof (ok_views _ _ Hok _ _ Hv). lia.
Qed.

(** *** Without a view *)

Lemma elem_of_filter_ne (i j : Z) l : j ∈ List.filter (λ w, negb (w =? i)) l ↔ j ∈ l ∧ j ≠ i.
Proof.
  rewrite !list_elem_of_In, List.filter_In. destruct (Z.eqb_spec j i); cbn; naive_solver.
Qed.

Lemma filter_ne_id (i : Z) l : i ∉ l → List.filter (λ w, negb (w =? i)) l = l.
Proof.
  induction l as [|j l IH]; [done|]. intros Hi. cbn. destruct (Z.eqb_spec j i) as [->|]; cbn; [set_solver|]. f_equal. apply IH. set_solver.
Qed.

Lemma length_filter_ne (i : Z) l : NoDup l → i ∈ l → S (length (List.filter (λ w, negb (w =? i)) l)) = length l.
Proof.
  induction 1 as [|j l Hj Hl IH]; [by intros ?%elem_of_nil|]. cbn. destruct (Z.eqb_spec j i) as [->|]; cbn.
  - intros _. by rewrite filter_ne_id.
  - intros Hi. f_equal. apply IH. set_solver.
Qed.

Lemma NoDup_filter_ne (i : Z) l : NoDup l → NoDup (List.filter (λ w, negb (w =? i)) l).
Proof. rewrite !NoDup_ListNoDup. apply List.NoDup_filter. Qed.

Lemma sorted_filter (f : Z * Z → bool) l : StronglySorted (λ e e' : Z * Z, e.1 < e'.1) l → StronglySorted (λ e e', e.1 < e'.1) (List.filter f l).
Proof.
  induction 1 as [|e l Hl IH He]; cbn; [constructor|]. destruct (f e); [|done]. constructor; [done|].
  rewrite Forall_forall in *. intros e' [Hin _]%list_elem_of_In%List.filter_In. apply He. by apply list_elem_of_In.
Qed.

Lemma evict_one_ok count p i l : cache_ok count p → InactiveViews p = l ++ [i] →
  wp (PhFppDestroyView i) (λ _ p', cache_ok count p' ∧ same_file p p' ∧ InactiveViews p' = l ∧ Views p' = delete i (Views p))
    (set_inactive (u32 (NumberOfInactiveViews p - 1)) l p).
Proof.
  intros Hok Hl. pose proof (ok_inactive _ _ Hok) as Hnd. pose proof (ok_inactive_number _ _ Hok) as Hn. rewrite Hl in Hn, Hnd.
  rewrite length_app in Hn. cbn [length] in Hn. apply NoDup_app in Hnd as (Hnd & Hdis & _). assert (i ∉ l) as Hil by (intros H; apply (Hdis i); set_solver).
  pose proof (ok_inactive_in _ _ Hok i) as Hin. rewrite Hl in Hin. assert (∃ v, Views p !! i = Some v ∧ RefCount v = 0) as (v & Hv & Hz) by (apply Hin; set_solver).
  unfold PhFppDestroyView, PhFppUnmapRange, PhFppRemoveViewByIndex, PhFppRemoveViewByBase. step. apply (wp_view i v); [done|].
  destruct (ok_count _ _ Hok) as (_ & Hc). destruct layout as (HBS & HSS & _).
  repeat (apply wp_modify || step). split; [|done]. constructor; cbn; try apply Hok.
  - intros j w. rewrite lookup_delete_Some. intros [_ Hw]. by apply (ok_views _ _ Hok).
  - rewrite length_alter. apply Hok.
  - intros j k b. destruct (decide (k = bucket_index i)) as [->|Hk].
    + rewrite list_lookup_alter_eq. destruct (ByIndexBuckets p !! bucket_index i) as [b0|] eqn:Hb0; [|done]. intros [= <-]. rewrite elem_of_filter_ne, (ok_bucket _ _ Hok j _ _ Hb0).
      destruct (decide (j = i)) as [->|]; [rewrite lookup_delete_eq|rewrite lookup_delete_ne by done]; [|naive_solver].
      split; [naive_solver|intros [_ [? ?]]; done].
    + rewrite list_lookup_alter_ne by done. intros Hb0. rewrite (ok_bucket _ _ Hok j _ _ Hb0). destruct (decide (j = i)) as [->|].
      * rewrite lookup_delete_eq. split; [naive_solver|intros [_ [? ?]]; done].
      * by rewrite lookup_delete_ne.
  - intros b j. rewrite list_elem_of_In, List.filter_In, <-list_elem_of_In, (ok_by_base _ _ Hok). cbn. split.
    + intros [(w & Hw & <-) Hne]. exists w. split; [|done]. rewrite lookup_delete_ne; [done|]. intros <-. rewrite Hv in Hw. injection Hw as <-. by rewrite Z.eqb_refl in Hne.
    + intros (w & [Hj Hw]%lookup_delete_Some & <-). split; [eauto|]. destruct (Z.eqb_spec (Base w) (Base v)); [|done].
      destruct (ok_apart _ _ Hok _ _ _ _ Hv Hw); [done|lia].
  - apply sorted_filter, Hok.
  - intros m. rewrite list_elem_of_In, List.filter_In, <-list_elem_of_In, (ok_mappings _ _ Hok). split.
    + intros [(j & w & Hw & ->) Hne]. exists j, w. split; [|done]. rewrite lookup_delete_ne; [done|]. intros <-. rewrite Hv in Hw. injection Hw as <-. cbn in Hne. by rewrite Z.eqb_refl in Hne.
    + intros (j & w & [Hj Hw]%lookup_delete_Some & ->). split; [eauto|]. cbn. destruct (Z.eqb_spec (Base w) (Base v)); [|done].
      destruct (ok_apart _ _ Hok _ _ _ _ Hv Hw); [done|lia].
  - intros j w k x [_ Hw]%lookup_delete_Some [_ Hx]%lookup_delete_Some. by apply (ok_apart _ _ Hok).
  - done.
  - intros j. pose proof (ok_inactive_in _ _ Hok j) as Hj. rewrite Hl in Hj. split.
    + intros Hjl. assert (∃ w, Views p !! j = Some w ∧ RefCount w = 0) as (w & Hw & Hwz) by (apply Hj; set_solver). exists w. split; [|done].
      rewrite lookup_delete_ne; [done|]. by intros <-.
    + intros (w & [Hji Hw]%lookup_delete_Some & Hwz). assert (j ∈ l ++ [i]) as [|?%list_elem_of_singleton]%elem_of_app by (apply Hj; eauto); [done|by subst].
  - rewrite u32_small; [lia|]. pose proof (inactive_bound _ _ Hok) as Hb. rewrite Hl, length_app in Hb. cbn [length] in Hb. lia.
Qed.

Lemma pins_nonneg count p i : cache_ok count p → 0 ≤ pins p i.
Proof. intros Hok. unfold pins. destruct (Views p !! i) eqn:Hv; [|done]. apply (ok_views _ _ Hok _ _ Hv). Qed.

(** The references of segments stay, and the views of those that are referenced. *)
Definition keeps (p p' : PH_FILE_POOL) : Prop :=
  same_file p p' ∧ (∀ j, pins p' j = pins p j) ∧ (∀ j v, Views p !! j = Some v → 0 < RefCount v → Views p' !! j = Some v).

Definition bounded (p : PH_FILE_POOL) : Prop := NumberOfInactiveViews p ≤ MaximumInactiveViews.

Lemma evict_ok count fuel : ∀ p, cache_ok count p → (length (InactiveViews p) ≤ fuel)%nat →
  wp (evict MaximumInactiveViews fuel) (λ _ p', cache_ok count p' ∧ keeps p p' ∧ bounded p') p.
Proof.
  pose proof maximum_ok as Hmax.
  induction fuel as [|fuel IH]; intros p Hok Hl; cbn [evict]; step; step; pose proof (ok_inactive_number _ _ Hok) as Hn;
    destruct (Z.leb_spec (NumberOfInactiveViews p) MaximumInactiveViews); try (step; split; [done|]; split; [repeat split; auto|done]); [lia|].
  destruct (last (InactiveViews p)) as [i|] eqn:Hlast.
  - apply last_Some in Hlast as [l Hli]. rewrite Hli, removelast_last. step. step. step.
    eapply wp_mono; [by apply (evict_one_ok count)|]. intros [] p1 (Hok1 & (Hf & Hs & Hb) & Hi1 & Hv1). cbn in Hi1.
    eapply wp_mono; [apply IH; [done|]|].
    + rewrite Hi1. rewrite Hli, length_app in Hl. cbn in Hl. lia.
    + intros [] p2 (Hok2 & ((Hf2 & Hs2 & Hb2) & Hp2 & Hk2) & Hbd). split; [done|]. split; [|done].
      assert (∃ v, Views p !! i = Some v ∧ RefCount v = 0) as (v & Hv & Hz) by (apply (ok_inactive_in _ _ Hok); rewrite Hli; set_solver).
      split; [|split].
      * split_and!; try congruence; naive_solver congruence.
      * intros j. rewrite Hp2. unfold pins. rewrite Hv1. destruct (decide (j = i)) as [->|]; [rewrite lookup_delete_eq, Hv; by rewrite Hz|by rewrite lookup_delete_ne].
      * intros j w Hw Hpos. apply Hk2; [|done]. rewrite Hv1, lookup_delete_ne; [done|]. intros <-. rewrite Hv in Hw. injection Hw as <-. lia.
  - apply last_None in Hlast. rewrite Hlast in Hn. cbn in Hn. lia.
Qed.

(** *** References *)

Lemma set_view_ok count p i v r n l : cache_ok count p → Views p !! i = Some v → 0 ≤ r → NoDup l → n = Z.of_nat (length l) →
  (∀ j, j ∈ l ↔ if decide (j = i) then r = 0 else j ∈ InactiveViews p) →
  cache_ok count (set_inactive n l (set_views (<[i := View r (Base v)]> (Views p)) p)).
Proof.
  intros Hok Hv Hr Hnd Hn Hl.
  assert (∀ j w, <[i := View r (Base v)]> (Views p) !! j = Some w → ∃ w', Views p !! j = Some w' ∧ Base w = Base w') as Hto.
  { intros j w [[<- <-]|[_ Hw]]%lookup_insert_Some; eauto. }
  assert (∀ j w, Views p !! j = Some w → ∃ w', <[i := View r (Base v)]> (Views p) !! j = Some w' ∧ Base w' = Base w) as Hfrom.
  { intros j w Hw. destruct (decide (j = i)) as [->|]; [rewrite lookup_insert_eq|rewrite lookup_insert_ne by done]; [|eauto].
    exists (View r (Base v)). split; [done|]. cbn. congruence. }
  constructor; cbn; try apply Hok.
  - intros j w [[<- <-]|[_ Hw]]%lookup_insert_Some; [|by apply (ok_views _ _ Hok)]. cbn. pose proof (ok_views _ _ Hok _ _ Hv). lia.
  - intros j k b Hb. rewrite (ok_bucket _ _ Hok _ _ _ Hb). split; intros [-> [w Hw]]; (split; [done|]); [apply Hfrom in Hw as (w' & ? & _)|apply Hto in Hw as (w' & ? & _)]; eauto.
  - intros b j. rewrite (ok_by_base _ _ Hok). split; intros (w & Hw & <-); [apply Hfrom in Hw as (w' & ? & ?)|apply Hto in Hw as (w' & ? & ?)]; eauto.
  - intros m. rewrite (ok_mappings _ _ Hok). split; intros (j & w & Hw & ->); [apply Hfrom in Hw as (w' & ? & E)|apply Hto in Hw as (w' & ? & E)]; exists j, w'; by rewrite E.
  - intros j w k x Hw Hx. apply Hto in Hw as (w' & Hw & ->). apply Hto in Hx as (x' & Hx & ->). by apply (ok_apart _ _ Hok).
  - done.
  - intros j. rewrite Hl. case_decide as E.
    + subst j. rewrite lookup_insert_eq. split; [intros ->; by eexists|]. by intros (w & [= <-] & ?).
    + rewrite lookup_insert_ne by done. apply Hok.
  - done.
Qed.

Lemma reference_view_ok count p i v : cache_ok count p → Views p !! i = Some v → RefCount v < 2 ^ 31 →
  wp (PhFppReferenceView i) (λ _ p', cache_ok count p' ∧ same_file p p' ∧ Views p' = <[i := View (RefCount v + 1) (Base v)]> (Views p) ∧
    NumberOfInactiveViews p' ≤ NumberOfInactiveViews p) p.
Proof.
  intros Hok Hv Hr. pose proof (ok_views _ _ Hok _ _ Hv) as (_ & H0 & _). pose proof (ok_inactive_number _ _ Hok) as Hn. pose proof (ok_inactive_in _ _ Hok i) as Hi.
  unfold PhFppReferenceView, PhFppActivateView, set_view. step. apply (wp_view i v); [done|]. rewrite u32_small by lia. step. destruct (Z.eqb_spec (RefCount v) 0) as [E|E].
  - assert (i ∈ InactiveViews p) as Hin by (apply Hi; eauto). pose proof (length_filter_ne i _ (ok_inactive _ _ Hok) Hin) as Hlen.
    apply wp_modify, wp_modify. pose proof (inactive_bound _ _ Hok) as Hb. split; [|split; [done|]; split; [done|]; cbn; rewrite u32_small by lia; lia].
    apply (set_view_ok count p i v (RefCount v + 1) (u32 (NumberOfInactiveViews p - 1)) (List.filter (λ w, negb (w =? i)) (InactiveViews p))); [done|done|lia|apply NoDup_filter_ne, Hok| |].
    + rewrite u32_small by lia. lia.
    + intros j. rewrite elem_of_filter_ne. case_decide; [split; [naive_solver|lia]|naive_solver].
  - steps. apply wp_modify. split; [|done]. assert (i ∉ InactiveViews p) as Hin by (rewrite Hi; intros (w & Hw & ?); congruence).
    apply (set_view_ok count p i v (RefCount v + 1) (NumberOfInactiveViews p) (InactiveViews p)); [done|done|lia|apply Hok|done|].
    intros j. case_decide as Ej; [subst j; split; [done|lia]|done].
Qed.

Lemma dereference_view_ok count p i v : cache_ok count p → bounded p → Views p !! i = Some v → 0 < RefCount v < 2 ^ 32 → (i = 0 → 1 < RefCount v) →
  wp (PhFppDereferenceView MaximumInactiveViews i) (λ _ p', cache_ok count p' ∧ bounded p' ∧ same_file p p' ∧ pins p' i = RefCount v - 1 ∧
    (1 < RefCount v → Views p' !! i = Some (View (RefCount v - 1) (Base v))) ∧ (∀ j, j ≠ i → pins p' j = pins p j) ∧
    (∀ j w, j ≠ i → Views p !! j = Some w → 0 < RefCount w → Views p' !! j = Some w)) p.
Proof.
  intros Hok Hbd Hv Hr Hi0. pose proof maximum_ok as Hmax. pose proof (ok_inactive_in _ _ Hok i) as Hi. pose proof (ok_inactive_number _ _ Hok) as Hn.
  assert (i ∉ InactiveViews p) as Hin by (rewrite Hi; intros (w & Hw & ?); assert (w = v) by congruence; subst; lia).
  unfold PhFppDereferenceView, set_view. step. apply (wp_view i v); [done|]. rewrite u32_small by lia. step. apply wp_modify. destruct (Z.eqb_spec (RefCount v - 1) 0) as [E|E].
  - destruct (Z.eqb_spec i 0) as [->|]; [lia|]. unfold PhFppDeactivateView. step. apply wp_modify. steps. unfold bounded in Hbd.
    set (p1 := set_inactive _ _ _). assert (cache_ok count p1) as Hok1.
    { unfold p1. cbn. rewrite u32_small by lia. apply (set_view_ok count p i v (RefCount v - 1) (NumberOfInactiveViews p + 1) (i :: InactiveViews p)); [done|done|lia| | |].
      - constructor; [done|apply Hok].
      - cbn [length]. lia.
      - intros j. rewrite elem_of_cons. case_decide; naive_solver. }
    eapply wp_mono; [by apply (evict_ok count)|]. intros [] p2 (Hok2 & (Hf & Hp2 & Hk2) & Hbd2).
    assert (∀ j, j ≠ i → Views p1 !! j = Views p !! j) as Hne by (intros j Hj; cbn; by rewrite lookup_insert_ne).
    split; [done|]. split; [done|]. split; [done|]. split; [|split; [lia|split]].
    + rewrite Hp2. unfold pins. cbn. by rewrite lookup_insert_eq.
    + intros j Hj. rewrite Hp2. unfold pins. by rewrite Hne.
    + intros j w Hj Hw. apply Hk2. by rewrite Hne.
  - steps. cbn. split; [|split; [done|]; split; [done|]].
    + apply (set_view_ok count p i v (RefCount v - 1) (NumberOfInactiveViews p) (InactiveViews p)); [done|done|lia|apply Hok|done|].
      intros j. case_decide as Ej; [subst j; split; [done|lia]|done].
    + unfold pins. cbn. rewrite lookup_insert_eq. split_and!; [done|done| |]; intros j; intros; by rewrite lookup_insert_ne.
Qed.

(** The cache between operations. *)
Record good (count : Z) (p : PH_FILE_POOL) : Prop := {
  good_cache : cache_ok count p;
  good_first : first_ok p;
  good_bounded : bounded p;
  good_count : word (file p) 0 at_count = count;
}.

(** One more reference to a segment. *)
Record referenced (i : Z) (p p' : PH_FILE_POOL) : Prop := {
  ref_file : same_file p p';
  ref_view : ∃ v, Views p' !! i = Some v ∧ RefCount v = pins p i + 1 ∧ (0 < pins p i → ∃ w, Views p !! i = Some w ∧ Base w = Base v);
  ref_others j : j ≠ i → Views p' !! j = Views p !! j;
}.

(** One reference less. *)
Record dereferenced (i : Z) (p p' : PH_FILE_POOL) : Prop := {
  deref_file : same_file p p';
  deref_pins : pins p' i = pins p i - 1;
  deref_view v : Views p !! i = Some v → 1 < RefCount v → Views p' !! i = Some (View (RefCount v - 1) (Base v));
  deref_others j : j ≠ i → pins p' j = pins p j;
  deref_views j w : j ≠ i → Views p !! j = Some w → 0 < RefCount w → Views p' !! j = Some w;
}.

Lemma reference_view_good count p i : good count p → is_Some (Views p !! i) → pins p i < 2 ^ 31 →
  wp (PhFppReferenceView i) (λ _ p', good count p' ∧ referenced i p p') p.
Proof.
  intros [Hok (v0 & Hv0 & Hb0 & Hr0) Hbd Hcount] [v Hv] Hp. unfold pins in Hp. rewrite Hv in Hp.
  eapply wp_mono; [by apply (reference_view_ok count p i v)|]. intros [] p1 (Hok1 & Hf & Hv1 & Hn1). split.
  - destruct Hf as (Hf & _ & Hb). constructor; [done| |unfold bounded in *; lia|by rewrite Hf]. destruct (decide (i = 0)) as [->|].
    + exists (View (RefCount v + 1) (Base v)). rewrite Hv1, lookup_insert_eq. split; [done|]. rewrite Hv0 in Hv. injection Hv as <-. cbn. split; [congruence|lia].
    + exists v0. rewrite Hv1, lookup_insert_ne by done. by rewrite Hb.
  - constructor; [done| |intros j Hj; by rewrite Hv1, lookup_insert_ne]. exists (View (RefCount v + 1) (Base v)). rewrite Hv1, lookup_insert_eq. unfold pins. rewrite Hv. split_and!; eauto.
Qed.

Lemma reference_segment_ok `{!FileSystemOk F} count p i : good count p → 0 ≤ i < count → pins p i < 2 ^ 31 →
  wp (PhFppReferenceSegment SegmentShift i) (λ b p',
    (b = 0 ∧ NtMapViewOfSection (clock p) (mappings p) (i * SS) SS = None ∧ ∃ c, p' = set_refused (S (refused p)) c p) ∨
    good count p' ∧ referenced i p p' ∧ 2 ^ 16 ≤ b ∧ ∃ v, Views p' !! i = Some v ∧ Base v = b) p.
Proof.
  intros [Hok Hfirst Hbd Hcount] Hi Hp. destruct layout as (HBS & HSS & _). destruct Hfirst as (v0 & Hv0 & Hb0 & Hr0).
  unfold PhFppReferenceSegment, Header. step.
  assert (wp (if i =? 0 then mret true else header ← (p ← get_st; mret (FirstBlockOfFirstSegment p + Body)); n ← read32 (header + SegmentCount); mret (i <? n))
    (λ b p', b = true ∧ p' = p) p) as Hvalid.
  { destruct (Z.eqb_spec i 0); steps; [done|]. rewrite <-Hb0, <-Z.add_assoc. apply (read_view_ok count p 0 v0); [done|done|unfold Body, SegmentCount; lia|]. steps.
    split; [|done]. apply Z.ltb_lt. unfold at_count in Hcount. change (Body + SegmentCount) with 24. lia. }
  eapply wp_mono; [exact Hvalid|]. clear Hvalid. intros b' p' [-> ->]. cbn [negb]. step. apply (find_view_ok count); [done|].
  destruct (Views p !! i) as [v|] eqn:Hv.
  - rewrite decide_True by eauto. step. unfold pins in Hp. rewrite Hv in Hp.
    eapply wp_mono; [apply (reference_view_good count p i); [by constructor; [|exists v0| |]|eauto|unfold pins; by rewrite Hv]|].
    intros [] p1 (Hg1 & Href). step. destruct (ref_view _ _ _ Href) as (w & Hw & _). apply (wp_view i w); [done|]. steps.
    right. split; [done|]. split; [done|]. split; [apply (ok_views _ _ (good_cache _ _ Hg1) _ _ Hw)|eauto].
  - rewrite decide_False by (intros [? ?]; done). step. eapply wp_mono; [by apply (create_view_ok count p i)|].
    intros r p1 [(-> & Hc)|(-> & Hok1 & Hf & Hn & b & Hb & Hv1)]; [step; by left|]. step.
    apply (wp_view i (View 1 b)); [by rewrite Hv1, lookup_insert_eq|]. steps. cbn. right. pose proof Hf as (Hf1 & _ & Hbf). 
    assert (i ≠ 0) by (intros ->; congruence).
    split; [|split; [|split; [done|]; eexists; by rewrite Hv1, lookup_insert_eq]].
    + constructor; [done| | |by rewrite Hf1].
      * exists v0. rewrite Hv1, lookup_insert_ne by done. by rewrite Hbf.
      * unfold bounded in *. lia.
    + constructor; [done| |intros j Hj; by rewrite Hv1, lookup_insert_ne]. exists (View 1 b). rewrite Hv1, lookup_insert_eq. unfold pins. rewrite Hv. split_and!; [done|done|lia].
Qed.

Lemma dereference_view_good count p i : good count p → 0 < pins p i < 2 ^ 32 → (i = 0 → 1 < pins p i) →
  wp (PhFppDereferenceView MaximumInactiveViews i) (λ _ p', good count p' ∧ dereferenced i p p') p.
Proof.
  intros [Hok (v0 & Hv0 & Hb0 & Hr0) Hbd Hcount] Hp Hi0. unfold pins in Hp, Hi0. destruct (Views p !! i) as [v|] eqn:Hv; [|lia].
  eapply wp_mono; [by apply (dereference_view_ok count p i v)|]. intros [] p1 (Hok1 & Hbd1 & Hf & Hp1 & Hv1 & Hpo & Hvo).
  split; [|constructor; [done| | |done|done]].
  - pose proof Hf as (Hf1 & _ & Hbf). constructor; [done| |done|by rewrite Hf1]. destruct (decide (i = 0)) as [->|].
    + rewrite Hv0 in Hv. injection Hv as <-. exists (View (RefCount v0 - 1) (Base v0)). rewrite Hbf. split; [apply Hv1; lia|]. split; [done|]. cbn. lia.
    + exists v0. rewrite Hbf. split; [|done]. by apply Hvo.
  - unfold pins at 2. by rewrite Hv.
  - intros w Hw. rewrite Hv in Hw. injection Hw as <-. done.
Qed.

Lemma dereference_segment_ok count p i : good count p → 0 < pins p i < 2 ^ 32 → (i = 0 → 1 < pins p i) →
  wp (PhFppDereferenceSegment MaximumInactiveViews i) (λ _ p', good count p' ∧ dereferenced i p p') p.
Proof.
  intros Hg Hp Hi0. unfold PhFppDereferenceSegment. step. apply (find_view_ok count); [apply Hg|].
  rewrite decide_True; [by apply dereference_view_good|]. unfold pins in Hp. destruct (Views p !! i); [done|lia].
Qed.

Lemma upper_dual_bound_ok a l e : StronglySorted (λ e e' : Z * Z, e.1 < e'.1) l → e ∈ l → e.1 ≤ a →
  (∀ e', e' ∈ l → e'.1 ≤ a → e'.1 ≤ e.1) → upper_dual_bound a l = Some e.
Proof.
  induction 1 as [|[b j] l Hl IH Hb]; [by intros ?%elem_of_nil|]. rewrite Forall_forall in Hb. cbn in Hb. intros Hin Ha Hmax. cbn [upper_dual_bound].
  apply elem_of_cons in Hin as [->|Hin].
  - cbn in Ha. destruct (Z.leb_spec b a); [|lia]. destruct l as [|[b' j'] l]; [done|]. cbn [upper_dual_bound].
    destruct (Z.leb_spec b' a); [|done]. specialize (Hmax (b', j') ltac:(set_solver)). specialize (Hb (b', j') ltac:(set_solver)). cbn in *. lia.
  - pose proof (Hb _ Hin). destruct (Z.leb_spec b a); [|lia]. rewrite IH; [done|done|done|]. intros e' He'. apply Hmax. set_solver.
Qed.

Lemma find_by_base_ok count p i v o (Q : option Z → PH_FILE_POOL → Prop) : cache_ok count p → Views p !! i = Some v → 0 ≤ o < SS →
  Q (Some i) p → wp (PhFppFindViewByBase SegmentShift (Base v + o)) Q p.
Proof.
  intros Hok Hv Ho HQ. unfold PhFppFindViewByBase. steps. rewrite (upper_dual_bound_ok _ _ (Base v, i)).
  - destruct (Z.ltb_spec (Base v + o) (Base v + SS)); [done|lia].
  - apply Hok.
  - apply (ok_by_base _ _ Hok). eauto.
  - cbn. lia.
  - intros [b j] (w & Hw & <-)%(ok_by_base _ _ Hok). cbn. destruct (ok_apart _ _ Hok _ _ _ _ Hv Hw) as [<-|]; [|lia].
    rewrite Hv in Hw. injection Hw as <-. lia.
Qed.

(** *** How references move

    The reference counts change by [d]; the views that are referenced before and after stay
    where they are. *)
Definition one (i j : Z) : Z := if decide (j = i) then 1 else 0.

Record moves (d : Z → Z) (p p' : PH_FILE_POOL) : Prop := {
  moves_first : FirstBlockOfFirstSegment p' = FirstBlockOfFirstSegment p;
  moves_refused : (refused p ≤ refused p')%nat;
  moves_pins j : pins p' j = pins p j + d j;
  moves_views j v : Views p !! j = Some v → 0 < RefCount v → 0 < pins p' j → ∃ w, Views p' !! j = Some w ∧ Base w = Base v;
}.

Lemma moves_file p f : moves (λ _, 0) p (set_file f p).
Proof. constructor; [done|done|intros; unfold pins; cbn; lia|eauto]. Qed.

Lemma moves_refl p : moves (λ _, 0) p p.
Proof. constructor; [done|done|intros; lia|eauto]. Qed.

Lemma moves_ext d e p p' : (∀ j, d j = e j) → moves d p p' → moves e p p'.
Proof. intros He [H1 H0 H2 H3]. constructor; [done|done|intros j; by rewrite <-He|done]. Qed.

Lemma moves_trans d e p p1 p2 : (∀ j, 0 ≤ d j ∨ e j ≤ 0) → moves d p p1 → moves e p1 p2 → moves (λ j, d j + e j) p p2.
Proof.
  intros Hde [H1 H0 H2 H3] [H4 H0' H5 H6]. constructor; [congruence|lia|intros j; rewrite H5, H2; lia|].
  intros j v Hv Hr Hp. specialize (Hde j). assert (pins p j = RefCount v) as Hpj by (unfold pins; by rewrite Hv).
  pose proof (H5 j) as Hp2. pose proof (H2 j) as Hp1. assert (0 < pins p1 j) as Hpos by lia.
  destruct (H3 j v Hv Hr Hpos) as (w & Hw & Hb). unfold pins in Hpos. rewrite Hw in Hpos.
  destruct (H6 j w Hw Hpos Hp) as (x & Hx & Hbx). exists x. split; [done|congruence].
Qed.

Lemma referenced_moves i p p' : referenced i p p' → moves (one i) p p'.
Proof.
  intros [(_ & (_ & Hrf) & Hb) (v & Hv & Hr & Hw) Ho]. constructor; [done|lia| |].
  - intros j. unfold one. case_decide as E; [subst; unfold pins at 1; by rewrite Hv|]. unfold pins. rewrite Ho by done. lia.
  - intros j w Hj Hpos _. destruct (decide (j = i)) as [->|]; [|exists w; by rewrite Ho].
    unfold pins in Hw. rewrite Hj in Hw. destruct (Hw Hpos) as (x & [= <-] & Hx). by exists v.
Qed.

Lemma dereferenced_moves i p p' : dereferenced i p p' → moves (λ j, - one i j) p p'.
Proof.
  intros [(_ & (_ & Hrf) & Hb) Hp Hv Hpo Hvo]. constructor; [done|lia| |].
  - intros j. unfold one. case_decide as E; [subst; lia|]. rewrite Hpo by done. lia.
  - intros j w Hj Hpos Hpos'. destruct (decide (j = i)) as [->|]; [|exists w; split; [by apply Hvo|done]].
    unfold pins in Hp at 2. rewrite Hj in Hp. eexists. split; [apply Hv; [done|lia]|done].
Qed.

(** A segment that is mapped and referenced, at an address. *)
Definition mapped (i b : Z) (p : PH_FILE_POOL) : Prop := ∃ v, Views p !! i = Some v ∧ Base v = b ∧ 0 < RefCount v.

Lemma mapped_moves d i b p p' : mapped i b p → moves d p p' → 0 < pins p i + d i → mapped i b p'.
Proof.
  intros (v & Hv & <- & Hr) Hm Hp. rewrite <-(moves_pins _ _ _ Hm) in Hp. destruct (moves_views _ _ _ Hm i v Hv Hr Hp) as (w & Hw & Hb).
  exists w. split_and!; [done|done|]. unfold pins in Hp. by rewrite Hw in Hp.
Qed.

Lemma mapped_pins i b p : mapped i b p → 0 < pins p i.
Proof. intros (v & Hv & _ & Hr). unfold pins. by rewrite Hv. Qed.

Lemma mapped_first count p : good count p → mapped 0 (FirstBlockOfFirstSegment p) p.
Proof. intros Hg. destruct (good_first _ _ Hg) as (v & Hv & Hb & Hr). by exists v. Qed.

(** The same address is the same segment. *)
Lemma mapped_inj count i j b p : good count p → mapped i b p → mapped j b p → i = j.
Proof.
  intros Hg (v & Hv & Hb & _) (w & Hw & Hb' & _). destruct layout as (HBS & HSS & _).
  destruct (ok_apart _ _ (good_cache _ _ Hg) _ _ _ _ Hv Hw); [done|lia].
Qed.

Lemma mapped_range count i b p : good count p → mapped i b p → 0 ≤ i < count ∧ 0 < b.
Proof. intros Hg (v & Hv & <- & _). pose proof (ok_views _ _ (good_cache _ _ Hg) _ _ Hv). lia. Qed.

(** An address that no view has, as that of a structure at NULL. *)
Lemma write_low_fault count p a x : good count p → 0 ≤ a < 2 ^ 16 → write32 a x p = None.
Proof.
  intros Hg Ha. unfold write32, translate. destruct (List.find (maps_address a) (mappings p)) as [m|] eqn:Hf; [|done].
  apply List.find_some in Hf as [Hin Hm]. apply list_elem_of_In, (ok_mappings _ _ (good_cache _ _ Hg)) in Hin as (j & w & Hw & ->).
  destruct (ok_views _ _ (good_cache _ _ Hg) _ _ Hw) as (_ & _ & Hb). unfold maps_address in Hm. cbn in Hm. lia.
Qed.

Lemma read_ok count p i b o (Q : Z → PH_FILE_POOL → Prop) : good count p → mapped i b p → 0 ≤ o < SS →
  Q (word (file p) i o) p → wp (read32 (b + o)) Q p.
Proof. intros Hg (v & Hv & <- & _). apply (read_view_ok count); [apply Hg|done]. Qed.

Lemma write_ok count p i b o x (Q : unit → PH_FILE_POOL → Prop) : good count p → mapped i b p → 0 ≤ o < SS →
  Q tt (set_file (<[i * SS + o := x]> (file p)) p) → wp (write32 (b + o) x) Q p.
Proof. intros Hg (v & Hv & <- & _). apply (write_view_ok count); [apply Hg|done]. Qed.

Lemma denied_later p p1 p' : denied p p1 → (refused p1 ≤ refused p')%nat → denied p p'.
Proof. intros [H E] Hr. split; [lia|done]. Qed.

Lemma denied_moves d p p1 p' : denied p p1 → moves d p1 p' → denied p p'.
Proof. intros H Hm. eapply denied_later; [done|apply Hm]. Qed.

Lemma moves_denied d p p1 p' : moves d p p1 → denied p1 p' → denied p p'.
Proof. intros Hm [H E]. pose proof (moves_refused _ _ _ Hm). split; [lia|done]. Qed.

(** Nothing but the count of what was refused has changed, and the time. *)
Lemma set_refused_ok count p n c : good count p → (refused p < n)%nat → (∃ c ms o s, NtMapViewOfSection c ms o s = None) →
  good count (set_refused n c p) ∧ moves (λ _, 0) p (set_refused n c p) ∧ denied p (set_refused n c p).
Proof.
  intros [H1 H2 H3 H4] Hn He. split; [|split; [|by split]].
  - constructor; [by destruct H1|done|done|done].
  - constructor; [done|cbn; lia|intros; unfold pins; cbn; lia|eauto].
Qed.

(** References of a segment, as the programs above them use them: a segment that is not mapped
    may be refused. *)
Definition refuses (i : Z) : Prop := ∃ c ms, NtMapViewOfSection c ms (i * SS) SS = None.

Lemma reference_refuses_ok `{!FileSystemOk F} count p i : good count p → 0 ≤ i < count → pins p i < 2 ^ 31 →
  wp (PhFppReferenceSegment SegmentShift i) (λ b p',
    (b = 0 ∧ denied p p' ∧ good count p' ∧ moves (λ _, 0) p p' ∧ file p' = file p ∧ refuses i) ∨
    good count p' ∧ moves (one i) p p' ∧ file p' = file p ∧ mapped i b p' ∧ 0 < b) p.
Proof.
  intros Hg Hi Hp. eapply wp_mono; [by apply (reference_segment_ok count)|]. intros b p' [(-> & Hr & c & ->)|(Hg' & Href & Hb & v & Hv & <-)].
  { left. destruct (set_refused_ok count p (S (refused p)) c Hg ltac:(lia) ltac:(eauto)) as (H1 & H2 & H3). split_and!; try done. by eexists _, _. }
  right. split_and!; [done|by apply referenced_moves|apply Href| |lia]. exists v. split_and!; [done|done|].
  destruct (ref_view _ _ _ Href) as (w & Hw & Hr & _). rewrite Hv in Hw. injection Hw as <-. rewrite Hr. pose proof (pins_nonneg _ _ i (good_cache _ _ Hg)). lia.
Qed.

Lemma reference_ok `{!FileSystemOk F} count p i : good count p → 0 ≤ i < count → pins p i < 2 ^ 31 →
  wp (PhFppReferenceSegment SegmentShift i) (λ b p',
    (b = 0 ∧ denied p p' ∧ good count p' ∧ moves (λ _, 0) p p' ∧ file p' = file p) ∨
    good count p' ∧ moves (one i) p p' ∧ file p' = file p ∧ mapped i b p' ∧ 0 < b) p.
Proof. intros Hg Hi Hp. eapply wp_mono; [by apply (reference_refuses_ok count)|]. intros b p' [(? & ? & ? & ? & ? & _)|H]; [by left|by right]. Qed.

Lemma dereference_ok count p i : good count p → 0 < pins p i < 2 ^ 32 → (i = 0 → 1 < pins p i) →
  wp (PhFppDereferenceSegment MaximumInactiveViews i) (λ _ p', good count p' ∧ moves (λ j, - one i j) p p' ∧ file p' = file p) p.
Proof.
  intros Hg Hp Hi. eapply wp_mono; [by apply (dereference_segment_ok count)|]. intros [] p' (Hg' & Hd). split_and!; [done|by apply dereferenced_moves|apply Hd].
Qed.
End Facts.
