(* ===== verification/FilePoolSegments.v ===== *)
(** File pools: the bit maps, the blocks of a segment and the free lists of segments. *)

From S2P Require Import Prelude Blocks FilePool FilePoolFacts.

(** ** Numbers in words *)

(** The number of clear bits of a bit map. *)
Definition clear_bits (B : Z) : Z := Z.of_nat (length (filter (λ j, Z.testbit B j = false) (seqZ 0 2048))).

Lemma filter_split {A} (P P1 P2 : A → Prop) `{!∀ x, Decision (P x), !∀ x, Decision (P1 x), !∀ x, Decision (P2 x)} (l : list A) :
  (∀ x, x ∈ l → P x ↔ P1 x ∨ P2 x) → (∀ x, x ∈ l → P1 x → P2 x → False) →
  length (filter P l) = (length (filter P1 l) + length (filter P2 l))%nat.
Proof.
  induction l as [|x l IH]; [done|]. intros Hp Hd. specialize (IH ltac:(set_solver) ltac:(set_solver)).
  pose proof (Hp x ltac:(set_solver)). pose proof (Hd x ltac:(set_solver)). rewrite !filter_cons. repeat case_decide; cbn [length]; try lia; tauto.
Qed.

Lemma filter_seqZ i n m : 0 ≤ i → 0 ≤ n → i + n ≤ m → Z.of_nat (length (filter (λ j, i ≤ j < i + n) (seqZ 0 m))) = n.
Proof.
  intros Hi Hn Hm. replace m with (i + (n + (m - i - n))) by lia. rewrite !seqZ_app, !filter_app by lia.
  rewrite (filter_none _ (seqZ 0 i)), (filter_all _ (seqZ _ n)), (filter_none _ (seqZ _ (m - i - n))), app_nil_r; cbn [app].
  - rewrite length_seqZ. lia.
  - intros j Hj%elem_of_seqZ. lia.
  - intros j Hj%elem_of_seqZ. lia.
  - intros j Hj%elem_of_seqZ. lia.
Qed.

Lemma clear_bits_range B : 0 ≤ clear_bits B ≤ 2048.
Proof. unfold clear_bits. pose proof (length_filter (λ j, Z.testbit B j = false) (seqZ 0 2048)) as H. rewrite length_seqZ in H. lia. Qed.

Lemma in_run_true i n j : i ≤ j < i + n → (i <=? j) && (j <? i + n) = true.
Proof. lia. Qed.

Lemma in_run_false i n j : ¬ (i ≤ j < i + n) → (i <=? j) && (j <? i + n) = false.
Proof. lia. Qed.

(** Taking clear bits away. *)
Lemma clear_bits_take B B' i n : 0 ≤ i → 0 ≤ n → i + n ≤ 2048 →
  (∀ j, i ≤ j < i + n → Z.testbit B j = false) →
  (∀ j, 0 ≤ j < 2048 → Z.testbit B' j = Z.testbit B j || ((i <=? j) && (j <? i + n))) →
  clear_bits B = clear_bits B' + n.
Proof.
  intros Hi Hn Hin Hc Hb. unfold clear_bits. rewrite <-(filter_seqZ i n 2048) at 1 by done. rewrite <-Nat2Z.inj_add. f_equal. apply filter_split.
  - intros j Hj%elem_of_seqZ. rewrite Hb by lia. destruct (decide (i ≤ j < i + n)) as [E|E].
    + specialize (Hc j E). tauto.
    + rewrite (in_run_false i n j E), orb_false_r. tauto.
  - intros j Hj%elem_of_seqZ. rewrite Hb by lia. intros H' E. by rewrite (in_run_true i n j E), orb_true_r in H'.
Qed.

Section Segments.
Context {SegmentShift MaximumInactiveViews : Z} `{F : FileSystem, P : !PoolOk SegmentShift MaximumInactiveViews, FOk : !FileSystemOk F}.

Local Abbreviation SS := (SegmentSize SegmentShift).
Local Abbreviation BS := (BlockSize SegmentShift).
Local Abbreviation SHS := (SegmentHeaderBlockSpan SegmentShift).
Local Abbreviation word := (word (SegmentShift := SegmentShift)).
Local Abbreviation good := (good (SegmentShift := SegmentShift) (MaximumInactiveViews := MaximumInactiveViews)).

Lemma sizes : 128 ≤ BS ∧ SS = 2048 * BS ∧ 1 ≤ SHS ≤ 3 ∧ 336 ≤ SHS * BS.
Proof. destruct (layout (P := P)) as (H1 & H2 & _ & H3 & H4 & _). auto. Qed.

(** The words outside of [W] are the same. *)
Definition writes (W : Z → Z → Prop) (f f' : gmap Z Z) : Prop := ∀ j o, 0 ≤ o < SS → ¬ W j o → word f' j o = word f j o.

Lemma writes_refl W f : writes W f f.
Proof. by intros ????. Qed.

Lemma writes_trans W W' W'' f f1 f2 : writes W f f1 → writes W' f1 f2 → (∀ j o, W j o ∨ W' j o → W'' j o) → writes W'' f f2.
Proof. intros H1 H2 HW j o Ho Hn. rewrite H2, H1; [done|done|intros ?; apply Hn, HW; auto|done|intros ?; apply Hn, HW; auto]. Qed.

Lemma writes_one W i o x f : 0 ≤ o < SS → W i o → writes W f (<[i * SS + o := x]> f).
Proof. intros Ho HW j o' Ho' Hn. rewrite word_insert by done. case_decide as E; [|done]. destruct E as [-> ->]. done. Qed.

Lemma word_insert_eq f i o x : 0 ≤ o < SS → word (<[i * SS + o := x]> f) i o = x.
Proof. intros Ho. rewrite word_insert by done. by rewrite decide_True. Qed.

Lemma good_file count p f : good count p → word f 0 at_count = count → good count (set_file f p).
Proof. intros [H1 H2 H3 H4] Hw. constructor; [by apply cache_file|done|done|done]. Qed.

(** A write that spares the number of segments. *)
Lemma write32_ok count p i b o x (Q : unit → PH_FILE_POOL → Prop) : good count p → mapped i b p → 0 ≤ o < SS → ¬ (i = 0 ∧ o = at_count) →
  (∀ f, (∀ j o', 0 ≤ o' < SS → word f j o' = if decide (i = j ∧ o = o') then x else word (file p) j o') → good count (set_file f p) → Q tt (set_file f p)) →
  wp (write32 (b + o) x) Q p.
Proof.
  intros Hg Hm Ho Hc HQ. destruct sizes as (HBS & HSS & _). eapply write_ok; [done|done|done|]. apply HQ; [intros; by apply word_insert|].
  apply good_file; [done|]. rewrite word_insert by (unfold at_count; lia). rewrite decide_False by done. apply Hg.
Qed.

(** A number in [n] consecutive words. *)
Definition number_at (f : gmap Z Z) (i o : Z) (n : nat) (V : Z) : Prop :=
  ∀ k, (k < n)%nat → word f i (o + 4 * Z.of_nat k) = V / 2 ^ (32 * Z.of_nat k) mod 2 ^ 32.

Lemma number_tail f i o n V : number_at f i o (S n) V → number_at f i (o + 4) n (V / 2 ^ 32).
Proof.
  intros H k Hk. specialize (H (S k) ltac:(lia)). replace (o + 4 + 4 * Z.of_nat k) with (o + 4 * Z.of_nat (S k)) by lia. rewrite H, Z.div_div by lia.
  f_equal. f_equal. rewrite <-Z.pow_add_r by lia. f_equal. lia.
Qed.

Lemma read_words_ok count p i b n : ∀ o V (Q : Z → PH_FILE_POOL → Prop), good count p → mapped i b p → 0 ≤ o → o + 4 * Z.of_nat n ≤ SS →
  number_at (file p) i o n V → 0 ≤ V < 2 ^ (32 * Z.of_nat n) → Q V p → wp (read_words n (b + o)) Q p.
Proof.
  induction n as [|n IH]; intros o V Q Hg Hm Ho Hs Hn HV HQ; cbn [read_words].
  - step. change (2 ^ (32 * Z.of_nat 0)) with 1 in HV. by assert (V = 0) as -> by lia.
  - step. eapply read_ok; [done|done|lia|]. step. rewrite <-Z.add_assoc.
    apply (IH (o + 4) (V / 2 ^ 32)); [done|done|lia|lia|by apply number_tail| |].
    + split; [apply Z.div_pos; lia|]. apply Z.div_lt_upper_bound; [lia|]. rewrite <-Z.pow_add_r by lia. replace (32 + 32 * Z.of_nat n) with (32 * Z.of_nat (S n)) by lia. lia.
    + step. specialize (Hn 0%nat ltac:(lia)). change (o + 4 * Z.of_nat 0) with (o + 0) in Hn. rewrite Z.add_0_r in Hn. rewrite Hn.
      change (2 ^ (32 * Z.of_nat 0)) with 1. rewrite Z.div_1_r. pose proof (Z.div_mod V (2 ^ 32) ltac:(lia)).
      replace (V mod 2 ^ 32 + 2 ^ 32 * (V / 2 ^ 32)) with V by lia. done.
Qed.

Lemma write_words_ok count i b n : ∀ p o V, good count p → mapped i b p → 0 ≤ o → o + 4 * Z.of_nat n ≤ SS → (i = 0 → 28 ≤ o) →
  wp (write_words n (b + o) V) (λ _ p', ∃ f, p' = set_file f p ∧ good count p' ∧ number_at f i o n V ∧ writes (λ j o', j = i ∧ o ≤ o' < o + 4 * Z.of_nat n) (file p) f) p.
Proof.
  destruct sizes as (HBS & HSS & _). induction n as [|n IH]; intros p o V Hg Hm Ho Hs Hi; cbn [write_words].
  - step. exists (file p). split; [by destruct p|]. split; [done|]. split; [intros k Hk; lia|by apply writes_refl].
  - step. eapply (write_ok count p i b); [done|done|lia|]. rewrite <-Z.add_assoc. set (f1 := <[_ := _]> _).
    assert (good count (set_file f1 p)) as Hg1.
    { apply good_file; [done|]. unfold f1. rewrite word_insert by (unfold at_count; lia). rewrite decide_False by (unfold at_count; lia). apply Hg. }
    eapply wp_mono; [apply (IH (set_file f1 p) (o + 4)); [done|exact Hm|lia|lia|lia]|].
    intros [] p' (f & -> & Hg' & Hn & Hw). cbn [file set_file] in Hw. exists f. split; [done|]. split; [done|]. split.
    + intros [|k] Hk.
      * rewrite Hw by lia. unfold f1. rewrite word_insert by lia. rewrite decide_True by lia. change (2 ^ (32 * Z.of_nat 0)) with 1. by rewrite Z.div_1_r.
      * specialize (Hn k ltac:(lia)). replace (o + 4 * Z.of_nat (S k)) with (o + 4 + 4 * Z.of_nat k) by lia. rewrite Hn, Z.div_div by lia.
        do 2 f_equal. rewrite <-Z.pow_add_r by lia. f_equal. lia.
    + eapply (writes_trans (λ j o', j = i ∧ o' = o) _ _ _ f1); [apply writes_one; [lia|done]|exact Hw|]. cbn. intros j o'. lia.
Qed.

(** ** The blocks of a segment

    A run is a number of blocks that are allocated, by its first block. *)
Local Abbreviation first_block := (first_block (SegmentShift := SegmentShift)).
Local Abbreviation header_block := (header_block (SegmentShift := SegmentShift)).
Local Abbreviation at_bitmap := (at_bitmap (SegmentShift := SegmentShift)).
Local Abbreviation at_free := (at_free (SegmentShift := SegmentShift)).
Local Abbreviation at_flink := (at_flink (SegmentShift := SegmentShift)).
Local Abbreviation at_blink := (at_blink (SegmentShift := SegmentShift)).

Lemma headers i : 0 ≤ header_block i ≤ 1 ∧ 0 ≤ header_block i * BS ∧ header_block i * BS + 336 ≤ first_block i * BS ∧ first_block i ≤ 4 ∧
  first_block i * BS < SS ∧ 1 ≤ first_block i ∧ (i = 0 → 128 ≤ header_block i * BS).
Proof.
  destruct (header_block_range (P := P) i) as (H1 & H2 & H3 & H4 & H5). destruct (layout (P := P)) as (HBS & HSS & HF & HS & _).
  assert (1 ≤ first_block i) by (unfold FilePoolFacts.first_block; lia).
  assert (i = 0 → 128 ≤ header_block i * BS) by (intros ->; unfold FilePoolFacts.header_block; cbn; rewrite HF; lia).
  tauto.
Qed.

Definition in_runs (runs : gmap Z Z) (j : Z) : Prop := ∃ s n, runs !! s = Some n ∧ s ≤ j < s + n.

Record seg_ok (f : gmap Z Z) (i : Z) (runs : gmap Z Z) : Prop := {
  sg_bits : ∃ B, number_at f i (at_bitmap i 0) 64 B ∧ 0 ≤ B < 2 ^ 2048 ∧ word f i (at_free i) = clear_bits B ∧
    ∀ j, 0 ≤ j < 2048 → Z.testbit B j = true ↔ j < first_block i ∨ in_runs runs j;
  sg_runs s n : runs !! s = Some n →
    first_block i ≤ s ∧ 1 ≤ n ∧ s + n ≤ 2048 ∧ word f i (s * BS) = 0 ∧ word f i (s * BS + 4) = n;
  sg_apart s n s' n' : runs !! s = Some n → runs !! s' = Some n' → s = s' ∨ s + n ≤ s' ∨ s' + n' ≤ s;
}.

(** The words of the segment header without the links, and those of the headers of runs. *)
Definition in_bitmap (i o : Z) : Prop := at_bitmap i 0 ≤ o < at_flink i.

Lemma seg_frame W f f' i runs : seg_ok f i runs → writes W f f' → (∀ o, in_bitmap i o → ¬ W i o) →
  (∀ s n, runs !! s = Some n → ¬ W i (s * BS) ∧ ¬ W i (s * BS + 4)) → seg_ok f' i runs.
Proof.
  intros [(B & HB & Hr & Hf & Hb) Hruns Hap] Hw Hbm Hh. destruct (headers i) as (Hh0 & Hh1 & Hh2 & Hh3 & Hh4 & _). destruct sizes as (HBS & HSS & _).
  constructor; [|intros s n Hs|done].
  - exists B. split; [|split; [done|split; [|done]]].
    + intros k Hk. rewrite Hw; [by apply HB| |apply Hbm]; unfold in_bitmap, FilePoolFacts.at_bitmap, FilePoolFacts.at_flink; lia.
    + rewrite Hw; [done| |apply Hbm]; unfold in_bitmap, FilePoolFacts.at_bitmap, FilePoolFacts.at_flink, FilePoolFacts.at_free; lia.
  - destruct (Hruns s n Hs) as (H1 & H2 & H3 & H4 & H5). destruct (Hh s n Hs) as [Hn1 Hn2].
    split; [done|]. split; [done|]. split; [done|]. rewrite !Hw; [done|nia|done|nia|done].
Qed.

Lemma in_runs_insert runs s n j : runs !! s = None → in_runs (<[s := n]> runs) j ↔ (s ≤ j < s + n) ∨ in_runs runs j.
Proof.
  intros Hs. split.
  - intros (s' & n' & [[<- <-]|[_ H']]%lookup_insert_Some & Hj); [by left|right; by exists s', n'].
  - intros [Hj|(s' & n' & H' & Hj)]; [exists s, n; by rewrite lookup_insert_eq|]. exists s', n'. rewrite lookup_insert_ne; [done|]. intros <-. congruence.
Qed.

Lemma block_offset s : 0 ≤ s < 2048 → u32 (Z.shiftl s (BlockShift SegmentShift)) = s * BS.
Proof.
  intros Hs. destruct (layout (P := P)) as (HBS & HSS & _ & _ & _ & H17 & _ & Hpow). pose proof (shift_ok (PoolOk := P)).
  rewrite Z.shiftl_mul_pow2, <-Hpow by (unfold BlockShift; lia). apply u32_small. nia.
Qed.

(** The block header of a run can be told from other words. *)
Lemma allocate_blocks_ok count p i b runs n : good count p → mapped i b p → seg_ok (file p) i runs → 1 ≤ n ≤ 2048 →
  wp (PhFppAllocateBlocks SegmentShift b (b + header_block i * BS + 16) n) (λ a p',
    (a = 0 ∧ p' = p ∧ ∀ s, first_block i ≤ s → s + n ≤ 2048 → ∃ j, s ≤ j < s + n ∧ in_runs runs j) ∨
    ∃ s f, p' = set_file f p ∧ a = b + s * BS ∧ good count p' ∧ seg_ok f i (<[s := n]> runs) ∧ first_block i ≤ s ∧ s + n ≤ 2048 ∧
      (∀ j, s ≤ j < s + n → ¬ in_runs runs j) ∧ word f i (at_free i) = word (file p) i (at_free i) - n ∧
      writes (λ j o, j = i ∧ (in_bitmap i o ∨ o = s * BS ∨ o = s * BS + 4)) (file p) f) p.
Proof.
  intros Hg Hm [(B & HB & Hr & Hf & Hbits) Hruns Hap] Hn. destruct (headers i) as (Hh0 & Hh1 & Hh2 & Hh3 & Hh4 & Hh5 & Hh6). destruct sizes as (HBS & HSS & HS & HS2).
  unfold PhFppAllocateBlocks. steps. replace (b + header_block i * BS + 16 + Bitmap) with (b + at_bitmap i 0) by (unfold Bitmap, FilePoolFacts.at_bitmap; lia).
  assert (0 ≤ at_bitmap i 0 ∧ at_bitmap i 0 + 256 = at_free i ∧ at_free i + 4 = at_flink i ∧ at_flink i ≤ SS ∧ at_flink i ≤ first_block i * BS ∧ (i = 0 → 28 ≤ at_bitmap i 0)) as (Ha1 & Ha2 & Ha3 & Ha4 & Ha5 & Ha6)
    by (unfold FilePoolFacts.at_bitmap, FilePoolFacts.at_free, FilePoolFacts.at_flink; lia).
  eapply (read_words_ok count p i b 64 _ B); [done|done|done|lia|done|done|].
  assert (∀ j, 0 ≤ j < 2048 → in_runs runs j → first_block i ≤ j) as Hfirst by (intros j Hj (s & m & Hs & ?); destruct (Hruns s m Hs); lia).
  destruct (RtlFindClearBitsAndSet B n _) as [[s B']|] eqn:Hfind.
  - apply find_some in Hfind as (Hs0 & Hs1 & Hclear & ->); [|done|lia].
    assert (first_block i ≤ s ∧ ∀ j, s ≤ j < s + n → ¬ in_runs runs j) as [Hs2 Hfree].
    { split.
      - destruct (decide (first_block i ≤ s)); [done|]. specialize (Hclear s ltac:(lia)). assert (Z.testbit B s = true) by (apply Hbits; lia). congruence.
      - intros j Hj Hin. specialize (Hclear j Hj). assert (Z.testbit B j = true) by (apply Hbits; [lia|by right]). congruence. }
    step. eapply wp_mono; [apply (write_words_ok count i b 64 p (at_bitmap i 0)); [done|done|done|lia|done]|].
    intros [] p1 (f1 & -> & Hg1 & Hn1 & Hw1). step. replace (b + header_block i * BS + 16 + FreeBlocks) with (b + at_free i) by (unfold FreeBlocks, FilePoolFacts.at_free; lia).
    eapply read_ok; [exact Hg1|exact Hm|lia|]. cbn [file set_file]. step.
    rewrite (Hw1 i (at_free i)), Hf by lia. pose proof (clear_bits_range B) as Hcb.
    assert (clear_bits B = clear_bits (RtlSetBits B s n) + n) as Hcount by (apply (clear_bits_take _ _ s n); [lia|lia|lia|done|intros j Hj; apply set_bits_ok; lia]).
    pose proof (clear_bits_range (RtlSetBits B s n)) as Hcb'. rewrite u32_small by lia.
    assert (u32 (Z.shiftl s (BlockShift SegmentShift)) = s * BS) as -> by (apply block_offset; lia).
    assert (first_block i * BS ≤ s * BS ∧ s * BS + 4 < SS) as [Ho1 Ho2] by nia. unfold at_count in *.
    eapply write32_ok; [exact Hg1|exact Hm|lia|unfold at_count; lia|]. intros f2 Hf2 Hg2. cbn [file set_file] in *. step.
    unfold Flags, Span. rewrite <-!Z.add_assoc, Z.add_0_r. eapply write32_ok; [exact Hg2|exact Hm|lia|unfold at_count; lia|]. intros f3 Hf3 Hg3. cbn [file set_file] in *. step.
    eapply write32_ok; [exact Hg3|exact Hm|lia|unfold at_count; lia|]. intros f4 Hf4 Hg4. cbn [file set_file] in *. step. right.
    assert (∀ j o, 0 ≤ o < SS → word f4 j o = if decide (i = j ∧ s * BS + 4 = o) then n else if decide (i = j ∧ s * BS = o) then 0 else
      if decide (i = j ∧ at_free i = o) then clear_bits B - n else word f1 j o) as Hword.
    { intros j o Ho. rewrite Hf4, Hf3, Hf2 by lia. done. }
    clear Hf2 Hf3 Hf4 Hg2 Hg3. exists s, f4. split; [done|]. split; [done|]. split; [done|]. 
    assert (writes (λ j o, j = i ∧ (in_bitmap i o ∨ o = s * BS ∨ o = s * BS + 4)) (file p) f4) as Hw4.
    { intros j o Ho Hn'. unfold in_bitmap in Hn'. rewrite Hword by done. rewrite !decide_False by lia. apply Hw1; [done|lia]. }
    split; [|split_and!; try done; rewrite Hword by lia; rewrite !decide_False by lia; rewrite decide_True by lia; lia].
    assert (runs !! s = None) as Hnew.
    { destruct (runs !! s) as [m|] eqn:Hm'; [|done]. destruct (Hruns s m Hm'). exfalso. apply (Hfree s); [lia|]. exists s, m. split; [done|lia]. }
    constructor.
    + exists (RtlSetBits B s n). split; [|split; [apply set_bits_range; lia|split]].
      * intros k Hk. rewrite Hword by lia. rewrite !decide_False by lia. by apply Hn1.
      * rewrite Hword by lia. rewrite !decide_False by lia. rewrite decide_True by lia. lia.
      * intros j Hj. rewrite set_bits_ok, in_runs_insert, orb_true_iff, Hbits by (done || lia). rewrite andb_true_iff, Z.leb_le, Z.ltb_lt. tauto.
    + intros s' n' [[<- <-]|[Hne Hs']]%lookup_insert_Some.
      * rewrite !Hword by lia. rewrite decide_False, decide_True, decide_True by lia. lia.
      * destruct (Hruns s' n' Hs') as (H1 & H2 & H3 & H4 & H5). split; [done|]. split; [done|]. split; [done|]. 
        rewrite !Hw4; [done|nia|unfold in_bitmap; nia|nia|unfold in_bitmap; nia].
    + assert (∀ s' n', runs !! s' = Some n' → s + n ≤ s' ∨ s' + n' ≤ s) as Hdis.
      { intros s' n' Hs'. destruct (Hruns s' n' Hs') as (H1 & H2 & H3 & _). destruct (decide (s + n ≤ s')); [by left|]. right.
        destruct (decide (s' + n' ≤ s)); [done|]. exfalso. apply (Hfree (Z.max s s')); [lia|]. exists s', n'. split; [done|lia]. }
      intros s1 n1 s2 n2 [[<- <-]|[Hne1 H1]]%lookup_insert_Some [[<- <-]|[Hne2 H2]]%lookup_insert_Some.
      * by left.
      * right. by apply Hdis.
      * right. destruct (Hdis _ _ H1); lia.
      * by apply Hap.
  - step. left. split; [done|]. split; [done|]. intros s Hs Hsn. destruct (find_none B n _ Hr ltac:(lia) Hfind s ltac:(lia) Hsn) as (j & Hj & Ht).
    exists j. split; [done|]. apply Hbits in Ht as [Hlt|Ht]; [lia|done|lia].
Qed.

Lemma in_runs_delete runs s n j : runs !! s = Some n → (∀ s' n', runs !! s' = Some n' → s = s' ∨ s + n ≤ s' ∨ s' + n' ≤ s) →
  in_runs (delete s runs) j ↔ in_runs runs j ∧ ¬ (s ≤ j < s + n).
Proof.
  intros Hs Hap. split.
  - intros (s' & n' & [Hne H']%lookup_delete_Some & Hj). split; [by exists s', n'|]. destruct (Hap _ _ H'); [done|lia].
  - intros [(s' & n' & H' & Hj) Hn]. exists s', n'. rewrite lookup_delete_ne; [done|]. intros <-. rewrite Hs in H'. injection H' as <-. done.
Qed.

Lemma free_blocks_ok count p i b runs s n : good count p → mapped i b p → seg_ok (file p) i runs → runs !! s = Some n →
  wp (PhFppFreeBlocks SegmentShift b (b + header_block i * BS + 16) (b + s * BS)) (λ _ p',
    ∃ f, p' = set_file f p ∧ good count p' ∧ seg_ok f i (delete s runs) ∧ word f i (at_free i) = word (file p) i (at_free i) + n ∧
      writes (λ j o, j = i ∧ in_bitmap i o) (file p) f) p.
Proof.
  intros Hg Hm [(B & HB & Hr & Hf & Hbits) Hruns Hap] Hs. destruct (headers i) as (Hh0 & Hh1 & Hh2 & Hh3 & Hh4 & Hh5 & Hh6). destruct sizes as (HBS & HSS & HS & HS2).
  destruct (Hruns s n Hs) as (H1 & H2 & H3 & H4 & H5). assert (first_block i * BS ≤ s * BS ∧ s * BS + 4 < SS) as [Ho1 Ho2] by nia.
  assert (0 ≤ at_bitmap i 0 ∧ at_bitmap i 0 + 256 = at_free i ∧ at_free i + 4 = at_flink i ∧ at_flink i ≤ SS ∧ at_flink i ≤ first_block i * BS ∧ (i = 0 → 28 ≤ at_bitmap i 0)) as (Ha1 & Ha2 & Ha3 & Ha4 & Ha5 & Ha6)
    by (unfold FilePoolFacts.at_bitmap, FilePoolFacts.at_free, FilePoolFacts.at_flink; lia).
  unfold PhFppFreeBlocks. step. rewrite <-(Z.add_assoc b). unfold Span. eapply read_ok; [done|done|lia|]. rewrite H5.
  assert (Z.shiftr (u32 (b + s * BS - b)) (BlockShift SegmentShift) = s) as ->.
  { destruct (layout (P := P)) as (_ & _ & _ & _ & _ & H17 & _ & Hpow). pose proof (shift_ok (PoolOk := P)).
    replace (b + s * BS - b) with (s * BS) by lia. rewrite u32_small by nia. rewrite Z.shiftr_div_pow2, <-Hpow by (unfold BlockShift; lia). apply Z.div_mul. lia. }
  replace (b + header_block i * BS + 16 + Bitmap) with (b + at_bitmap i 0) by (unfold Bitmap, FilePoolFacts.at_bitmap; lia).
  replace (b + header_block i * BS + 16 + FreeBlocks) with (b + at_free i) by (unfold FreeBlocks, FilePoolFacts.at_free; lia).
  step. eapply (read_words_ok count p i b 64 _ B); [done|done|done|lia|done|done|]. step.
  eapply wp_mono; [apply (write_words_ok count i b 64 p (at_bitmap i 0)); [done|done|done|lia|done]|].
  intros [] p1 (f1 & -> & Hg1 & Hn1 & Hw1). step. eapply read_ok; [exact Hg1|exact Hm|lia|]. cbn [file set_file].
  rewrite (Hw1 i (at_free i)), Hf by lia.
  assert (clear_bits (RtlClearBits B s n) = clear_bits B + n) as Hcount.
  { apply (clear_bits_take _ _ s n); [lia|lia|lia| |].
    - intros j Hj. rewrite clear_bits_ok, in_run_true by lia. apply andb_false_r.
    - intros j Hj. rewrite clear_bits_ok by lia. destruct (decide (s ≤ j < s + n)) as [E|E].
      + rewrite in_run_true, orb_true_r by done. apply Hbits; [lia|]. right. by exists s, n.
      + rewrite in_run_false, orb_false_r, andb_true_r by done. done. }
  pose proof (clear_bits_range (RtlClearBits B s n)) as Hcb. pose proof (clear_bits_range B) as Hcb'. rewrite u32_small by lia.
  eapply write32_ok; [exact Hg1|exact Hm|lia|unfold at_count; lia|]. intros f2 Hf2 Hg2. cbn [file set_file] in *. exists f2. split; [done|]. split; [done|].
  assert (writes (λ j o, j = i ∧ in_bitmap i o) (file p) f2) as Hw2.
  { intros j o Ho Hn'. unfold in_bitmap in Hn'. rewrite Hf2 by done. rewrite decide_False by lia. apply Hw1; [done|lia]. }
  split; [|split; [rewrite Hf2 by lia; rewrite decide_True by lia; lia|done]]. constructor.
  - exists (RtlClearBits B s n). split; [|split; [apply FilePoolFacts.clear_bits_range; lia|split]].
    + intros k Hk. rewrite Hf2 by lia. rewrite decide_False by lia. by apply Hn1.
    + rewrite Hf2 by lia. rewrite decide_True by lia. lia.
    + intros j Hj. rewrite clear_bits_ok, (in_runs_delete runs s n), andb_true_iff, Hbits, negb_true_iff by (done || lia || (intros; eapply Hap; eauto)).
      destruct (decide (s ≤ j < s + n)) as [E|E]; [rewrite in_run_true by done; split; [naive_solver|lia]|rewrite in_run_false by done; tauto].
  - intros s' n' [Hne Hs']%lookup_delete_Some. destruct (Hruns s' n' Hs') as (K1 & K2 & K3 & K4 & K5). split; [done|]. split; [done|]. split; [done|].
    rewrite !Hw2; [done|nia|unfold in_bitmap; nia|nia|unfold in_bitmap; nia].
  - intros s1 n1 s2 n2 [_ K1]%lookup_delete_Some [_ K2]%lookup_delete_Some. by apply Hap.
Qed.

Lemma initialize_segment_ok count p i b : good count p → mapped i b p → number_at (file p) i (at_bitmap i 0) 64 0 →
  wp (PhFppInitializeSegment SegmentShift (b + header_block i * BS) (header_block i)) (λ _ p',
    ∃ f, p' = set_file f p ∧ good count p' ∧ seg_ok f i ∅ ∧ word f i (at_free i) = 2048 - first_block i ∧
      word f i (at_flink i) = ULONG_NONE ∧ word f i (at_blink i) = ULONG_NONE ∧
      writes (λ j o, j = i ∧ (o = header_block i * BS + 4 ∨ at_bitmap i 0 ≤ o ≤ at_blink i)) (file p) f) p.
Proof.
  intros Hg Hm Hz. destruct (headers i) as (Hh0 & Hh1 & Hh2 & Hh3 & Hh4 & Hh5 & Hh6). destruct sizes as (HBS & HSS & HS & HS2).
  assert (0 ≤ at_bitmap i 0 ∧ at_bitmap i 0 + 256 = at_free i ∧ at_free i + 4 = at_flink i ∧ at_flink i + 4 = at_blink i ∧ at_blink i < SS ∧ header_block i * BS + 16 = at_bitmap i 0 ∧ (i = 0 → 28 ≤ header_block i * BS)) as (Ha1 & Ha2 & Ha3 & Ha4 & Ha5 & Ha6 & Ha7)
    by (unfold FilePoolFacts.at_bitmap, FilePoolFacts.at_free, FilePoolFacts.at_flink, FilePoolFacts.at_blink; lia).
  assert (SHS + header_block i = first_block i) as Hfb by (unfold FilePoolFacts.first_block; lia).
  unfold PhFppInitializeSegment, Span. step. rewrite <-Z.add_assoc. eapply write32_ok; [exact Hg|exact Hm|lia|unfold at_count; lia|]. intros f1 Hf1 Hg1.
  replace (b + header_block i * BS + Body + Bitmap) with (b + at_bitmap i 0) by (unfold Body, Bitmap; lia).
  replace (b + header_block i * BS + Body + FreeBlocks) with (b + at_free i) by (unfold Body, FreeBlocks; lia).
  replace (b + header_block i * BS + Body + FreeFlink) with (b + at_flink i) by (unfold Body, FreeFlink; lia).
  replace (b + header_block i * BS + Body + FreeBlink) with (b + at_blink i) by (unfold Body, FreeBlink; lia).
  step. eapply (read_words_ok count _ i b 64 _ 0); [exact Hg1|exact Hm|done|lia| |lia|].
  { intros k Hk. cbn [file set_file]. rewrite Hf1 by lia. rewrite decide_False by lia. by apply Hz. }
  step. rewrite Hfb. eapply wp_mono; [apply (write_words_ok count i b 64 _ (at_bitmap i 0)); [exact Hg1|exact Hm|done|lia|lia]|].
  intros [] p1 (f2 & -> & Hg2 & Hn2 & Hw2). cbn [file set_file] in Hw2. step. unfold PH_FP_BLOCK_COUNT. rewrite u32_small by lia.
  eapply write32_ok; [exact Hg2|exact Hm|lia|unfold at_count; lia|]. intros f3 Hf3 Hg3. step.
  eapply write32_ok; [exact Hg3|exact Hm|lia|unfold at_count; lia|]. intros f4 Hf4 Hg4.
  eapply write32_ok; [exact Hg4|exact Hm|lia|unfold at_count; lia|]. intros f5 Hf5 Hg5. cbn [file set_file] in *.
  assert (∀ j o, 0 ≤ o < SS → word f5 j o = if decide (i = j ∧ at_blink i = o) then ULONG_NONE else if decide (i = j ∧ at_flink i = o) then ULONG_NONE
    else if decide (i = j ∧ at_free i = o) then 2048 - first_block i else word f2 j o) as Hword by (intros j o Ho; rewrite Hf5, Hf4, Hf3 by lia; done).
  exists f5. split; [done|]. split; [done|]. split; [|split_and!].
  - constructor; [|by intros ??|by intros ????].
    exists (RtlSetBits 0 0 (first_block i)). split; [|split; [apply set_bits_range; lia|split]].
    + intros k Hk. rewrite Hword by lia. rewrite !decide_False by lia. by apply Hn2.
    + rewrite Hword by lia. rewrite !decide_False by lia. rewrite decide_True by lia.
      assert (clear_bits 0 = 2048) as H0 by reflexivity. rewrite (clear_bits_take 0 (RtlSetBits 0 0 (first_block i)) 0 (first_block i)) in H0; [lia|lia|lia|lia|intros; apply Z.testbit_0_l|].
      intros j Hj. apply set_bits_ok; lia.
    + intros j Hj. rewrite set_bits_ok, Z.testbit_0_l, orb_false_l, andb_true_iff, Z.leb_le, Z.ltb_lt by lia. split; [lia|].
      intros [?|(s & n & Hs & _)]; [lia|done].
  - rewrite Hword by lia. rewrite !decide_False by lia. by rewrite decide_True by lia.
  - rewrite Hword by lia. rewrite decide_False by lia. by rewrite decide_True by lia.
  - rewrite Hword by lia. by rewrite decide_True by lia.
  - intros j o Ho Hn'. rewrite Hword by done. rewrite !decide_False by lia. rewrite Hw2 by lia. rewrite Hf1 by done. by rewrite decide_False by lia.
Qed.
End Segments.
