(* ===== verification/FilePoolLists.v ===== *)
(** File pools: the free lists of segments, which are linked through the segment headers. *)

From S2P Require Import Prelude Blocks FilePool FilePoolFacts FilePoolSegments.

Section Lists.
Context {SegmentShift MaximumInactiveViews : Z} `{F : FileSystem, P : !PoolOk SegmentShift MaximumInactiveViews, FOk : !FileSystemOk F}.

Local Abbreviation SS := (SegmentSize SegmentShift).
Local Abbreviation BS := (BlockSize SegmentShift).
Local Abbreviation word := (word (SegmentShift := SegmentShift)).
Local Abbreviation good := (good (SegmentShift := SegmentShift) (MaximumInactiveViews := MaximumInactiveViews)).
Local Abbreviation first_block := (first_block (SegmentShift := SegmentShift)).
Local Abbreviation header_block := (header_block (SegmentShift := SegmentShift)).
Local Abbreviation at_bitmap := (at_bitmap (SegmentShift := SegmentShift)).
Local Abbreviation at_free := (at_free (SegmentShift := SegmentShift)).
Local Abbreviation at_flink := (at_flink (SegmentShift := SegmentShift)).
Local Abbreviation at_blink := (at_blink (SegmentShift := SegmentShift)).
Local Abbreviation writes := (writes (SegmentShift := SegmentShift)).

(** ** Chains *)

Definition head_or (x : Z) (l : list Z) : Z := default x (head l).
Definition last_or (x : Z) (l : list Z) : Z := default x (last l).

(** The segments [l] are linked in this order, from the one before them to the one after. *)
Fixpoint chain (f : gmap Z Z) (before : Z) (l : list Z) (after : Z) : Prop :=
  match l with
  | [] => True
  | i :: l => word f i (at_blink i) = before ∧ word f i (at_flink i) = head_or after l ∧ chain f i l after
  end.

Lemma head_or_app x l k : head_or x (l ++ k) = head_or (head_or x k) l.
Proof. by destruct l. Qed.

Lemma last_or_app x l k : last_or x (l ++ k) = last_or (last_or x l) k.
Proof. unfold last_or. rewrite last_app. by destruct (last k). Qed.

Lemma last_or_cons x y l : last_or x (y :: l) = last_or y l.
Proof. unfold last_or. rewrite last_cons. by destruct (last l). Qed.

Lemma chain_app f l k : ∀ before after, chain f before (l ++ k) after ↔ chain f before l (head_or after k) ∧ chain f (last_or before l) k after.
Proof.
  induction l as [|i l IH]; intros before after; cbn [app chain]; [tauto|]. rewrite IH, head_or_app, last_or_cons. tauto.
Qed.

Lemma chain_same f f' l : ∀ before after, (∀ i, i ∈ l → word f' i (at_blink i) = word f i (at_blink i) ∧ word f' i (at_flink i) = word f i (at_flink i)) →
  chain f before l after → chain f' before l after.
Proof.
  induction l as [|i l IH]; intros before after Hw; cbn [chain]; [done|]. intros (H1 & H2 & H3). destruct (Hw i ltac:(set_solver)) as [-> ->].
  split; [done|]. split; [done|]. apply IH; [set_solver|done].
Qed.

(** The first has another one before it, or the last another one after it. *)
Lemma chain_before f f' before before' l after : NoDup l → chain f before l after →
  (∀ i, i ∈ l → word f' i (at_flink i) = word f i (at_flink i) ∧ word f' i (at_blink i) = if decide (head l = Some i) then before' else word f i (at_blink i)) →
  chain f' before' l after.
Proof.
  destruct l as [|i l]; [done|]. intros [Hi Hl]%NoDup_cons (H1 & H2 & H3) Hw. cbn [chain]. destruct (Hw i ltac:(set_solver)) as [-> ->].
  rewrite decide_True by done. split; [done|]. split; [done|]. eapply chain_same; [|done]. intros j Hj. destruct (Hw j ltac:(set_solver)) as [-> ->].
  rewrite decide_False by (intros [= ->]; done). done.
Qed.

Lemma chain_after f f' before l k after after' : k ∉ l → chain f before (l ++ [k]) after →
  (∀ i, i ∈ l ++ [k] → word f' i (at_blink i) = word f i (at_blink i) ∧ word f' i (at_flink i) = if decide (i = k) then after' else word f i (at_flink i)) →
  chain f' before (l ++ [k]) after'.
Proof.
  intros Hk. rewrite !chain_app. intros [H1 H2] Hw. split.
  - eapply chain_same; [|exact H1]. intros i Hi. destruct (Hw i ltac:(set_solver)) as [-> ->]. rewrite decide_False by (intros ->; done). done.
  - destruct H2 as (H2 & _). cbn. destruct (Hw k ltac:(set_solver)) as [-> ->]. by rewrite decide_True.
Qed.

(** ** The free lists

    [cat] is the free list of a segment; a number from 8 on is none. *)
Definition list_ok (f : gmap Z Z) (count : Z) (cat : Z → Z) (c : Z) (l : list Z) : Prop :=
  word f 0 (at_list c) = head_or ULONG_NONE l ∧ chain f ULONG_NONE l ULONG_NONE ∧ NoDup l ∧ ∀ i, i ∈ l ↔ 0 ≤ i < count ∧ cat i = c.

Definition lists_ok (f : gmap Z Z) (count : Z) (cat : Z → Z) : Prop := ∀ c, 0 ≤ c < 8 → ∃ l, list_ok f count cat c l.

Definition assign (cat : Z → Z) (i c : Z) : Z → Z := λ j, if decide (j = i) then c else cat j.

(** The words that belong to the lists. *)
Definition is_link (count j o : Z) : Prop := j = 0 ∧ 40 ≤ o < 72 ∨ 0 ≤ j < count ∧ (o = at_flink j ∨ o = at_blink j).

Lemma links i : 0 ≤ at_flink i ∧ at_flink i + 4 = at_blink i ∧ at_blink i < first_block i * BS ∧ first_block i * BS < SS ∧ (i = 0 → 128 ≤ at_flink i) ∧ 16 ≤ at_bitmap i 0 ∧ at_bitmap i 0 + 260 = at_flink i ∧ (i = 0 → 128 ≤ at_bitmap i 0).
Proof.
  destruct (headers (P := P) i) as (Hh0 & Hh1 & Hh2 & Hh3 & Hh4 & Hh5 & Hh6).
  unfold FilePoolFacts.at_blink, FilePoolFacts.at_flink, FilePoolFacts.at_bitmap. lia.
Qed.

Lemma list_words c : 0 ≤ c < 8 → 40 ≤ at_list c < 72 ∧ 72 < SS.
Proof. destruct (sizes (P := P)) as (HBS & HSS & _). unfold at_list. lia. Qed.

Lemma header_segment_ok count p i b (Q : Z → PH_FILE_POOL → Prop) : good count p → mapped i b p → Q (b + header_block i * BS + 16) p →
  wp (PhFppGetHeaderSegment SegmentShift b) Q p.
Proof.
  intros Hg Hm HQ. pose proof (mapped_first _ _ Hg) as Hm0. unfold PhFppGetHeaderSegment. steps.
  destruct (layout (P := P)) as (_ & _ & HF & _ & _ & _ & _ & HB). pose proof (shift_ok (PoolOk := P)).
  unfold FilePoolFacts.header_block in HQ. destruct (Z.eqb_spec b (FirstBlockOfFirstSegment p)) as [E|E]; cbn [negb].
  - subst b. rewrite (mapped_inj _ _ _ _ _ Hg Hm Hm0) in HQ. cbn [Z.eqb] in HQ. rewrite Z.shiftl_mul_pow2, <-HB by (unfold BlockShift; lia). exact HQ.
  - destruct (Z.eqb_spec i 0) as [->|]; [|by rewrite Z.add_0_r in HQ]. destruct E. destruct Hm as (v & Hv & <- & _), Hm0 as (w & Hw & <- & _). congruence.
Qed.

(** Room for references that are taken for a time. *)
Definition few (k : Z) (p : PH_FILE_POOL) : Prop := ∀ j, pins p j + k < 2 ^ 31.

Lemma few_moves k d p p' : few k p → moves d p p' → (∀ j, d j ≤ 1) → few (k - 1) p'.
Proof. intros Hf Hm Hd j. rewrite (moves_pins _ _ _ Hm). specialize (Hf j). specialize (Hd j). lia. Qed.

Lemma moves_from_file d f p p' : moves d (set_file f p) p' → moves d p p'.
Proof. intros [H1 H0 H2 H3]. constructor; [exact H1|exact H0|exact H2|exact H3]. Qed.

Lemma one_bounds i j : 0 ≤ one i j ≤ 1.
Proof. unfold one. case_decide; lia. Qed.

Lemma one_same i : one i i = 1.
Proof. unfold one. by rewrite decide_True. Qed.

(** *** Insertion *)

(** The words after a segment was put in front of a list. *)
Definition inserted (c i : Z) (l : list Z) (f f' : gmap Z Z) : Prop := ∀ k o, 0 ≤ o < SS → word f' k o =
  if decide (head l = Some k ∧ o = at_blink k) then i
  else if decide (k = 0 ∧ o = at_list c) then i
  else if decide (k = i ∧ o = at_flink i) then head_or ULONG_NONE l
  else if decide (k = i ∧ o = at_blink i) then ULONG_NONE
  else word f k o.

Lemma inserted_lists c i l f f' count cat : lists_ok f count cat → ¬ 0 ≤ cat i < 8 → 0 ≤ c < 8 → 0 ≤ i < count → list_ok f count cat c l →
  inserted c i l f f' → lists_ok f' count (assign cat i c).
Proof.
  intros Hl Hcat Hc Hi (Hhead & Hchain & Hnd & Hin) Hw c' Hc'. pose proof (list_words c Hc). pose proof (list_words c' Hc').
  assert (∀ k, 0 ≤ at_flink k ∧ at_flink k + 4 = at_blink k ∧ at_blink k < SS ∧ (k = 0 → 128 ≤ at_flink k)) as Hlk.
  { intros k. destruct (links k) as (? & ? & ? & ? & ? & _). lia. }
  assert (i ∉ l) as Hil by (rewrite Hin; intros [_ E]; lia).
  assert (∀ k, k ≠ i → head l ≠ Some k → word f' k (at_blink k) = word f k (at_blink k) ∧ word f' k (at_flink k) = word f k (at_flink k)) as Hothers.
  { intros k Hk Hh. specialize (Hlk k). rewrite !Hw by lia. rewrite !decide_False by (naive_solver lia). done. }
  destruct (decide (c' = c)) as [->|Hne].
  - exists (i :: l). split; [|split; [|split; [by constructor|]]].
    + rewrite Hw by lia. rewrite decide_False by (intros [_ E]; specialize (Hlk 0); lia). by rewrite decide_True.
    + cbn [chain]. pose proof (Hlk i). rewrite !Hw by lia. assert (head l ≠ Some i) by (intros E; apply Hil; destruct l; [done|]; injection E as ->; set_solver).
      rewrite (decide_False (P := head l = Some i ∧ at_blink i = _)), (decide_False (P := i = 0 ∧ _)), (decide_False (P := i = i ∧ at_blink i = at_flink i)), (decide_True (P := i = i ∧ at_blink i = _)) by (lia || tauto).
      rewrite (decide_False (P := head l = Some i ∧ _)), (decide_False (P := i = 0 ∧ _)), (decide_True (P := i = i ∧ _)) by (lia || tauto).
      split; [done|]. split; [done|]. eapply chain_before; [done|exact Hchain|]. intros k Hk. assert (k ≠ i) by (intros ->; done). pose proof (Hlk k).
      rewrite !Hw by lia. split.
      * rewrite !decide_False by (naive_solver lia). done.
      * destruct (decide (head l = Some k)) as [E|E]; [by rewrite decide_True by done|]. rewrite !decide_False by (naive_solver lia). done.
    + intros k. rewrite elem_of_cons, Hin. unfold assign. case_decide as E; [subst; tauto|]. split; [intros [?|?]; [done|tauto]|tauto].
  - destruct (Hl c' Hc') as (l' & Hhead' & Hchain' & Hnd' & Hin'). exists l'.
    assert (∀ k, k ∈ l' → k ≠ i ∧ head l ≠ Some k) as Hk.
    { intros k [Hk E]%Hin'. split; [intros ->; lia|]. intros Hh. assert (k ∈ l) as [_ ?]%Hin by (destruct l; [done|]; injection Hh as ->; set_solver). lia. }
    split; [|split; [|split; [done|]]].
    + rewrite Hw by lia. pose proof (Hlk 0). rewrite !decide_False by (unfold at_list in *; naive_solver lia). done.
    + eapply chain_same; [|done]. intros k H'. by apply Hothers; apply Hk.
    + intros k. rewrite Hin'. unfold assign. case_decide as E; [subst; naive_solver lia|tauto].
Qed.

Lemma good_small count p : good count p → 0 < count < ULONG_NONE.
Proof.
  intros Hg. destruct (ok_count _ _ (good_cache _ _ Hg)) as (H0 & _ & H32). destruct (sizes (P := P)) as (HBS & HSS & _). unfold ULONG_NONE. nia.
Qed.

Lemma head_or_none count (l : list Z) : 0 < count < ULONG_NONE → (∀ i, i ∈ l → 0 ≤ i < count) → (head_or ULONG_NONE l = ULONG_NONE ↔ l = []).
Proof. intros Hc Hl. destruct l as [|i l]; [done|]. cbn. specialize (Hl i ltac:(set_solver)). split; [lia|done]. Qed.

(** The words that are written, wherever the head of the list is; or nothing, when the first
    segment of the list cannot be mapped. *)
Lemma insert_words_ok count p c i b l : good count p → few 1 p → 0 ≤ c < 8 → mapped i b p →
  word (file p) 0 (at_list c) = head_or ULONG_NONE l → (∀ j, head l = Some j → 0 ≤ j < count) →
  wp (PhFppInsertFreeList SegmentShift MaximumInactiveViews c i (b + header_block i * BS + 16)) (λ r p',
    good count p' ∧ moves (λ _, 0) p p' ∧
    (r = false ∧ denied p p' ∧ file p' = file p ∨ r = true ∧ inserted c i l (file p) (file p'))) p.
Proof.
  intros Hg Hfew Hc Hm Hhead Hrange. pose proof (mapped_first _ _ Hg) as Hm0. pose proof (good_small _ _ Hg) as Hsmall. pose proof (mapped_range _ _ _ _ Hg Hm) as [Hi Hb].
  pose proof (list_words c Hc) as Hlw. destruct (links i) as (Hl1 & Hl2 & Hl3 & Hl4 & Hl5 & _).
  unfold PhFppInsertFreeList, Header. steps. replace (FirstBlockOfFirstSegment p + Body + FreeLists c) with (FirstBlockOfFirstSegment p + at_list c) by (unfold Body, FreeLists, at_list; lia).
  replace (b + header_block i * BS + 16 + FreeBlink) with (b + at_blink i) by (unfold FreeBlink, FilePoolFacts.at_blink; lia).
  replace (b + header_block i * BS + 16 + FreeFlink) with (b + at_flink i) by (unfold FreeFlink, FilePoolFacts.at_flink; lia).
  eapply read_ok; [done|exact Hm0|lia|]. rewrite Hhead. step.
  destruct l as [|j l].
  - cbn [head_or head default from_option id]. rewrite Z.eqb_refl. cbn [negb andb]. steps.
    eapply write32_ok; [done|exact Hm|lia|unfold at_count; lia|]. intros f1 Hf1 Hg1. step.
    eapply write32_ok; [exact Hg1|exact Hm|lia|unfold at_count; lia|]. intros f2 Hf2 Hg2. step.
    eapply write32_ok; [exact Hg2|exact Hm0|lia|unfold at_count; lia|]. intros f3 Hf3 Hg3. steps. cbn [file set_file] in *.
    split; [done|]. split; [exact (moves_file p f3)|]. right. split; [done|].
    intros k o Ho. rewrite Hf3, Hf2, Hf1 by lia. cbn [head]. repeat case_decide; try done; naive_solver lia.
  - pose proof (Hrange j eq_refl) as Hj. cbn [head_or head default from_option id].
    destruct (Z.eqb_spec j ULONG_NONE) as [->|_]; [lia|]. cbn [negb andb].
    eapply wp_mono; [apply (reference_ok count p j); [done|done|]; specialize (Hfew j); lia|].
    intros bj p1 [(-> & Hden & Hg1 & Hmv1 & Hfile1)|(Hg1 & Hmv1 & Hfile1 & Hmj & Hbj)]; [cbn [Z.eqb]; step; split; [done|]; split; [done|by left]|]. destruct (Z.eqb_spec bj 0); [lia|].
    assert (mapped i b p1) as Hmi1 by (eapply mapped_moves; [done|done|]; pose proof (one_bounds j i); pose proof (mapped_pins _ _ _ Hm); lia).
    assert (mapped 0 (FirstBlockOfFirstSegment p) p1) as Hm01 by (eapply mapped_moves; [done|done|]; pose proof (one_bounds j 0); pose proof (mapped_pins _ _ _ Hm0); lia).
    destruct (links j) as (Hj1 & Hj2 & Hj3 & Hj4 & Hj5 & _).
    step. eapply write32_ok; [exact Hg1|exact Hmi1|lia|unfold at_count; lia|]. intros f1 Hf1 Hg2. step.
    eapply write32_ok; [exact Hg2|exact Hmi1|lia|unfold at_count; lia|]. intros f2 Hf2 Hg3. step.
    eapply write32_ok; [exact Hg3|exact Hm01|lia|unfold at_count; lia|]. intros f3 Hf3 Hg4. step. step.
    eapply header_segment_ok; [exact Hg4|exact Hmj|]. step.
    replace (bj + header_block j * BS + 16 + FreeBlink) with (bj + at_blink j) by (unfold FreeBlink, FilePoolFacts.at_blink; lia).
    eapply write32_ok; [exact Hg4|exact Hmj|lia|unfold at_count; lia|]. intros f4 Hf4 Hg5. cbn [file set_file] in *.
    eapply wp_mono; [apply (dereference_ok count _ j); [exact Hg5| |]; change (pins (set_file f4 _) j) with (pins p1 j); pose proof (moves_pins _ _ _ Hmv1 j) as Hpj; rewrite one_same in Hpj;
      pose proof (pins_nonneg _ _ j (good_cache _ _ Hg)); specialize (Hfew j); [lia|intros ->; pose proof (mapped_pins _ _ _ Hm0); lia]|].
    intros [] p2 (Hg6 & Hmv2 & Hfile2). cbn [file set_file] in Hfile2. step. split; [done|]. split.
    + eapply moves_ext; [|eapply (moves_trans _ _ _ p1); [|exact Hmv1|exact (moves_from_file _ f4 p1 p2 Hmv2)]]; intros k; cbn; [lia|]. pose proof (one_bounds j k). lia.
    + right. split; [done|]. rewrite Hfile2. intros k o Ho. rewrite Hf4, Hf3, Hf2, Hf1, Hfile1 by lia. cbn [head head_or default from_option id].
      repeat case_decide; try done; naive_solver lia.
Qed.

Lemma inserted_writes c i l f f' count : 0 ≤ c < 8 → 0 ≤ i < count → (∀ j, head l = Some j → 0 ≤ j < count) → inserted c i l f f' → writes (is_link count) f f'.
Proof.
  intros Hc Hi Hrange Hw k o Ho Hn. pose proof (list_words c Hc). unfold is_link in Hn. rewrite Hw by done.
  rewrite !decide_False by (unfold at_list in *; naive_solver lia). done.
Qed.

(** The heads of the lists name segments. *)
Definition heads_ok (f : gmap Z Z) (count : Z) : Prop := ∀ c, 0 ≤ c < 8 → ∃ l, word f 0 (at_list c) = head_or ULONG_NONE l ∧ ∀ j, head l = Some j → 0 ≤ j < count.

Lemma lists_heads f count cat : lists_ok f count cat → heads_ok f count.
Proof.
  intros Hl c Hc. destruct (Hl c Hc) as (l & Hhead & _ & _ & Hin). exists l. split; [done|]. intros j Hj. apply Hin. destruct l; [done|]. injection Hj as ->. set_solver.
Qed.

(** A segment that is in no list is put in front of one. *)
Lemma insert_free_list_ok count p cat c i b : good count p → few 1 p → lists_ok (file p) count cat → ¬ 0 ≤ cat i < 8 → 0 ≤ c < 8 → mapped i b p →
  wp (PhFppInsertFreeList SegmentShift MaximumInactiveViews c i (b + header_block i * BS + 16)) (λ r p',
    good count p' ∧ moves (λ _, 0) p p' ∧ writes (is_link count) (file p) (file p') ∧
    (denied p p' ∧ file p' = file p ∨ lists_ok (file p') count (assign cat i c))) p.
Proof.
  intros Hg Hfew Hl Hcat Hc Hm. pose proof (mapped_range _ _ _ _ Hg Hm) as [Hi _]. destruct (Hl c Hc) as (l & Hlok). pose proof Hlok as (Hhead & _ & _ & Hin).
  assert (∀ j, head l = Some j → 0 ≤ j < count) as Hrange by (intros j Hj; apply Hin; destruct l; [done|]; injection Hj as ->; set_solver).
  eapply wp_mono; [by apply (insert_words_ok count p c i b l)|]. intros r p' (Hg' & Hmv & [(_ & Hden & Hf)|(_ & Hw)]); (split; [done|]); (split; [done|]).
  - split; [rewrite Hf; by apply writes_refl|by left].
  - split; [by eapply inserted_writes|right]. by eapply inserted_lists.
Qed.

(** In front of a list in any case. *)
Lemma insert_loose_ok count p c i b : good count p → few 1 p → heads_ok (file p) count → 0 ≤ c < 8 → mapped i b p →
  wp (PhFppInsertFreeList SegmentShift MaximumInactiveViews c i (b + header_block i * BS + 16)) (λ r p',
    good count p' ∧ moves (λ _, 0) p p' ∧ writes (is_link count) (file p) (file p')) p.
Proof.
  intros Hg Hfew Hl Hc Hm. pose proof (mapped_range _ _ _ _ Hg Hm) as [Hi _]. destruct (Hl c Hc) as (l & Hhead & Hrange).
  eapply wp_mono; [by apply (insert_words_ok count p c i b l)|]. intros r p' (Hg' & Hmv & [(_ & Hden & Hf)|(_ & Hw)]); (split; [done|]); (split; [done|]).
  - rewrite Hf. by apply writes_refl.
  - by eapply inserted_writes.
Qed.

(** *** Removal *)

Definition removed (c i : Z) (l1 l2 : list Z) (f f' : gmap Z Z) : Prop := ∀ k o, 0 ≤ o < SS → word f' k o =
  if decide (head l2 = Some k ∧ o = at_blink k) then last_or ULONG_NONE l1
  else if decide (last l1 = Some k ∧ o = at_flink k) then head_or ULONG_NONE l2
  else if decide (l1 = [] ∧ k = 0 ∧ o = at_list c) then head_or ULONG_NONE l2
  else word f k o.

Lemma removed_lists c i l1 l2 f f' count cat : lists_ok f count cat → 0 ≤ c < 8 → list_ok f count cat c (l1 ++ i :: l2) →
  removed c i l1 l2 f f' → lists_ok f' count (assign cat i 8).
Proof.
  intros Hl Hc (Hhead & Hchain & Hnd & Hin) Hw c' Hc'. pose proof (list_words c Hc). pose proof (list_words c' Hc').
  assert (∀ k, 0 ≤ at_flink k ∧ at_flink k + 4 = at_blink k ∧ at_blink k < SS ∧ (k = 0 → 128 ≤ at_flink k)) as Hlk.
  { intros k. destruct (links k) as (? & ? & ? & ? & ? & _). lia. }
  pose proof Hnd as (Hnd1 & Hdis & [Hi2 Hnd2]%NoDup_cons)%NoDup_app. assert (i ∉ l1) as Hi1 by (intros E; apply (Hdis i E); set_solver).
  assert (∀ k, head l2 = Some k → k ∈ l2) as Hh2 by (intros k E; destruct l2; [done|]; injection E as ->; set_solver).
  assert (∀ k, last l1 = Some k → k ∈ l1) as Hl1 by (intros k; apply last_Some_elem_of).
  assert (∀ k, head l2 ≠ Some k → word f' k (at_blink k) = word f k (at_blink k)) as Hblink.
  { intros k Hk. pose proof (Hlk k). rewrite Hw by lia. rewrite !decide_False by (unfold at_list in *; naive_solver lia). done. }
  assert (∀ k, last l1 ≠ Some k → word f' k (at_flink k) = word f k (at_flink k)) as Hflink.
  { intros k Hk. pose proof (Hlk k). rewrite Hw by lia. rewrite !decide_False by (unfold at_list in *; naive_solver lia). done. }
  destruct (decide (c' = c)) as [->|Hne].
  - exists (l1 ++ l2). apply chain_app in Hchain as [Hc1 Hc2]. cbn [chain head_or head default from_option id] in Hc1, Hc2. destruct Hc2 as (_ & _ & Hc2). split; [|split; [|split]].
    + rewrite Hw by lia. pose proof (Hlk 0). rewrite (decide_False (P := head l2 = Some 0 ∧ _)), (decide_False (P := last l1 = Some 0 ∧ _)) by (unfold at_list in *; naive_solver lia).
      case_decide as E; [by destruct E as [-> _]|]. rewrite Hhead. destruct l1; [tauto|done].
    + apply chain_app. split.
      * destruct (decide (l1 = [])) as [->|Hn1]; [done|]. destruct (last l1) as [k|] eqn:Hk; [|by apply last_None in Hk].
        apply last_Some in Hk as [l1' ->]. eapply chain_after; [|exact Hc1|].
        -- apply NoDup_app in Hnd1 as (_ & Hd & _). intros E. apply (Hd k E). set_solver.
        -- intros j Hj. split; [apply Hblink; intros E; apply (Hdis j Hj); right; by apply Hh2|]. case_decide as E.
           ++ subst j. pose proof (Hlk k). rewrite Hw by lia. rewrite (decide_False (P := _ ∧ _ = at_blink _)) by lia. by rewrite last_snoc, decide_True.
           ++ apply Hflink. congruence.
      * eapply chain_before; [done|exact Hc2|]. intros j Hj. split; [apply Hflink; intros E; apply (Hdis j (Hl1 j E)); set_solver|].
        case_decide as E; [|by apply Hblink]. pose proof (Hlk j). rewrite Hw by lia. by rewrite decide_True.
    + apply NoDup_app. split; [done|]. split; [|done]. intros j Hj Hj2. apply (Hdis j Hj). set_solver.
    + intros k. unfold assign. pose proof (Hin k) as Hk. rewrite elem_of_app, elem_of_cons in Hk. rewrite elem_of_app. case_decide as E; [subst; split; [tauto|lia]|tauto].
  - destruct (Hl c' Hc') as (l' & Hhead' & Hchain' & Hnd' & Hin'). exists l'.
    assert (∀ k, k ∈ l' → head l2 ≠ Some k ∧ last l1 ≠ Some k) as Hk.
    { intros k [Hk E]%Hin'. split; intros Hh; assert (k ∈ l1 ++ i :: l2) as [_ ?]%Hin by (apply elem_of_app; rewrite elem_of_cons; auto); lia. }
    split; [|split; [|split; [done|]]].
    + rewrite Hw by lia. pose proof (Hlk 0). rewrite !decide_False by (unfold at_list in *; naive_solver lia). done.
    + eapply chain_same; [|done]. intros k H'. split; [by apply Hblink, Hk|by apply Hflink, Hk].
    + intros k. rewrite Hin'. unfold assign. case_decide as E; [|tauto]. subst. split; [|lia]. intros [Hi E].
      assert (i ∈ l1 ++ i :: l2) as [_ ?]%Hin by set_solver. lia.
Qed.

(** A reference to a segment that the links may not have. *)
Definition one_if (x : Z) : Z → Z := if decide (x = ULONG_NONE) then λ _, 0 else one x.

Lemma one_if_bounds x j : 0 ≤ one_if x j ≤ 1.
Proof. unfold one_if. case_decide; [lia|apply one_bounds]. Qed.

Lemma reference_if_ok count p x : good count p → few 1 p → x = ULONG_NONE ∨ 0 ≤ x < count →
  wp (if negb (x =? ULONG_NONE) then PhFppReferenceSegment SegmentShift x else mret 0) (λ b p',
    good count p' ∧ file p' = file p ∧
    (moves (λ _, 0) p p' ∧ denied p p' ∧ negb (x =? ULONG_NONE) && (b =? 0) = true ∨
     moves (one_if x) p p' ∧ (x ≠ ULONG_NONE → mapped x b p') ∧ negb (x =? ULONG_NONE) && (b =? 0) = false)) p.
Proof.
  intros Hg Hf Hx. unfold one_if. destruct (Z.eqb_spec x ULONG_NONE) as [->|Hne]; cbn [negb andb].
  - step. rewrite decide_True by done. split; [done|]. split; [done|]. right. split_and!; [apply moves_refl|done|done].
  - rewrite decide_False by done. eapply wp_mono; [apply (reference_ok count p x); [done|lia|]; specialize (Hf x); lia|].
    intros b p' [(-> & Hden & Hg' & Hm & Hfile)|(Hg' & Hm & Hfile & Hmap & Hb)]; (split; [done|]); (split; [done|]); [by left|right].
    split_and!; [done|done|]. by apply Z.eqb_neq, not_eq_sym, Z.lt_neq.
Qed.

(** A link of a neighbour, which is then dereferenced. *)
Lemma set_link_ok count p x b off v : good count p → mapped x b p → pins p x < 2 ^ 32 → (x = 0 → 1 < pins p x) → off = FreeFlink ∨ off = FreeBlink →
  wp (h ← PhFppGetHeaderSegment SegmentShift b; write32 (h + off) v;; PhFppDereferenceSegment MaximumInactiveViews x) (λ _ p',
    good count p' ∧ moves (λ j, - one x j) p p' ∧ ∀ k o, 0 ≤ o < SS → word (file p') k o =
      if decide (x = k ∧ o = (if decide (off = FreeFlink) then at_flink x else at_blink x)) then v else word (file p) k o) p.
Proof.
  intros Hg Hm Hp H0 Hoff. destruct (links x) as (Hl1 & Hl2 & Hl3 & Hl4 & Hl5 & _). set (a := if decide _ then _ else _).
  assert (b + header_block x * BS + 16 + off = b + a ∧ at_flink x ≤ a ≤ at_blink x) as [Ha Hr].
  { unfold a. destruct Hoff as [-> | ->]; [rewrite decide_True by done|rewrite decide_False by done]; unfold FreeFlink, FreeBlink, FilePoolFacts.at_flink, FilePoolFacts.at_blink; lia. }
  step. eapply header_segment_ok; [done|done|]. step. rewrite Ha. eapply write32_ok; [done|exact Hm|lia|unfold at_count; lia|]. intros f Hf Hg1.
  eapply wp_mono; [apply (dereference_ok count _ x); [exact Hg1| |exact H0]; change (pins (set_file f p) x) with (pins p x); pose proof (mapped_pins _ _ _ Hm); lia|].
  intros [] p' (Hg' & Hmv & Hfile). split; [done|]. split; [exact (moves_from_file _ f p p' Hmv)|]. intros k o Ho. rewrite Hfile. cbn [file set_file]. rewrite Hf by done.
  repeat case_decide; try done; naive_solver.
Qed.

Lemma set_link_if_ok count p x b off v : good count p → few 0 p → (x ≠ ULONG_NONE → mapped x b p) → (x = 0 → 1 < pins p x) → off = FreeFlink ∨ off = FreeBlink →
  wp (if negb (x =? ULONG_NONE) then h ← PhFppGetHeaderSegment SegmentShift b; write32 (h + off) v;; PhFppDereferenceSegment MaximumInactiveViews x else mret tt) (λ _ p',
    good count p' ∧ moves (λ j, - one_if x j) p p' ∧ ∀ k o, 0 ≤ o < SS → word (file p') k o =
      if decide (x ≠ ULONG_NONE ∧ x = k ∧ o = (if decide (off = FreeFlink) then at_flink x else at_blink x)) then v else word (file p) k o) p.
Proof.
  intros Hg Hf Hm H0 Hoff. unfold one_if. destruct (Z.eqb_spec x ULONG_NONE) as [E|E]; cbn [negb].
  - rewrite decide_True by done. step. split; [done|]. split; [apply moves_refl|]. intros k o Ho. by rewrite decide_False by tauto.
  - rewrite decide_False by done. eapply wp_mono; [apply (set_link_ok count); [done|by apply Hm|specialize (Hf x); lia|done|done]|].
    intros [] p' (Hg' & Hmv & Hw). split; [done|]. split; [done|]. intros k o Ho. rewrite Hw by done. repeat case_decide; try done; tauto.
Qed.

Lemma dereference_if_ok count p x b : good count p → few 0 p → (x ≠ ULONG_NONE → mapped x b p) → (x = 0 → 1 < pins p x) →
  wp (if negb (x =? ULONG_NONE) then PhFppDereferenceSegment MaximumInactiveViews x else mret tt) (λ _ p',
    good count p' ∧ moves (λ j, - one_if x j) p p' ∧ file p' = file p) p.
Proof.
  intros Hg Hf Hm H0. unfold one_if. destruct (Z.eqb_spec x ULONG_NONE) as [E|E]; cbn [negb].
  - rewrite decide_True by done. step. split_and!; [done|apply moves_refl|done].
  - rewrite decide_False by done. pose proof (mapped_pins _ _ _ (Hm E)). apply (dereference_ok count p x); [done|specialize (Hf x); lia|done].
Qed.

(** The words that are written when the links of the segment are [last l1] and [head l2]; or
    nothing, when a neighbour cannot be mapped. *)
Lemma remove_words_ok count p c i b l1 l2 : good count p → few 2 p → 0 ≤ c < 8 → mapped i b p →
  word (file p) i (at_blink i) = last_or ULONG_NONE l1 → word (file p) i (at_flink i) = head_or ULONG_NONE l2 →
  (∀ j, head l2 = Some j ∨ last l1 = Some j → 0 ≤ j < count) →
  wp (PhFppRemoveFreeList SegmentShift MaximumInactiveViews c i (b + header_block i * BS + 16)) (λ r p',
    good count p' ∧ moves (λ _, 0) p p' ∧
    (r = false ∧ denied p p' ∧ file p' = file p ∨ r = true ∧ removed c i l1 l2 (file p) (file p'))) p.
Proof.
  intros Hg Hfew Hc Hm Hbl Hfl Hrange. pose proof (mapped_first _ _ Hg) as Hm0. pose proof (good_small _ _ Hg) as Hsmall. pose proof (mapped_range _ _ _ _ Hg Hm) as [Hi Hb].
  pose proof (list_words c Hc) as Hlw. destruct (links i) as (Hl1 & Hl2 & Hl3 & Hl4 & Hl5 & _).
  unfold PhFppRemoveFreeList, Header. steps.
  replace (b + header_block i * BS + 16 + FreeBlink) with (b + at_blink i) by (unfold FreeBlink, FilePoolFacts.at_blink; lia).
  replace (b + header_block i * BS + 16 + FreeFlink) with (b + at_flink i) by (unfold FreeFlink, FilePoolFacts.at_flink; lia).
  eapply read_ok; [done|exact Hm|lia|]. step. eapply read_ok; [done|exact Hm|lia|]. rewrite Hbl, Hfl.
  remember (head_or ULONG_NONE l2) as x eqn:Ex. remember (last_or ULONG_NONE l1) as y eqn:Ey.
  assert (x = ULONG_NONE ∧ l2 = [] ∨ head l2 = Some x ∧ 0 ≤ x < count) as Hx by (rewrite Ex; destruct l2 as [|j l2]; [by left|right; split; [done|apply Hrange; by left]]).
  assert (y = ULONG_NONE ∧ l1 = [] ∨ last l1 = Some y ∧ 0 ≤ y < count) as Hy.
  { rewrite Ey. unfold last_or. destruct (last l1) as [j|] eqn:E; [right; split; [done|]|left; by apply last_None in E].
    apply Hrange. by right. }
  assert (∀ k o, (x ≠ ULONG_NONE ∧ x = k ∧ o = at_blink x) ↔ (head l2 = Some k ∧ o = at_blink k)) as Hxk.
  { intros k o. destruct Hx as [[-> ->]|[-> Hxr]]; [cbn; naive_solver|]. split; [naive_solver|]. intros [[= ->] ->]. split; [lia|done]. }
  step. eapply wp_mono; [apply (reference_if_ok count p x); [done| |destruct Hx as [[? _]|[_ ?]]; auto]; intros j; specialize (Hfew j); lia|].
  intros bx p1 (Hg1 & Hf1 & [(Hmv1 & Hden & ->)|(Hmv1 & Hmx & ->)]); [step; split; [done|]; split; [done|by left]|]. step.
  eapply wp_mono; [apply (reference_if_ok count p1 y); [done| |destruct Hy as [[? _]|[_ ?]]; auto]|].
  { exact (few_moves 2 (one_if x) p p1 Hfew Hmv1 (λ j, proj2 (one_if_bounds x j))). }
  pose proof (mapped_pins _ _ _ Hm0) as Hp0.
  intros by_ p2 (Hg2 & Hf2 & [(Hmv2 & Hden & ->)|(Hmv2 & Hmy & ->)]).
  { assert (∀ j, pins p2 j = pins p j + one_if x j) as Hpins by (intros j; rewrite (moves_pins _ _ _ Hmv2), (moves_pins _ _ _ Hmv1); lia).
    step. eapply wp_mono; [apply (dereference_if_ok count p2 x bx); [done| | |]|].
    - intros j. rewrite Hpins. specialize (Hfew j). pose proof (one_if_bounds x j). lia.
    - intros Hxn. eapply mapped_moves; [by apply Hmx|exact Hmv2|]. pose proof (mapped_pins _ _ _ (Hmx Hxn)). lia.
    - intros ->. rewrite Hpins. unfold one_if. rewrite decide_False by done. rewrite one_same. lia.
    - intros [] p3 (Hg3 & Hmv3 & Hf3). step. split; [done|].
      assert (moves (λ _, 0) p p3) as Hm3.
      { eapply (moves_ext (λ j, (one_if x j + 0) + - one_if x j)); [intros j; lia|].
        eapply (moves_trans _ _ _ p2); [intros j; left; pose proof (one_if_bounds x j); lia| |exact Hmv3].
        eapply (moves_trans _ _ _ p1); [|exact Hmv1|exact Hmv2]. intros j. left. apply one_if_bounds. }
      split; [done|]. left. split; [done|]. split; [|congruence]. eapply denied_moves; [|exact Hmv3]. exact (moves_denied _ _ _ _ Hmv1 Hden). }
  step.
  assert (∀ j, pins p2 j = pins p j + one_if x j + one_if y j) as Hpins by (intros j; rewrite (moves_pins _ _ _ Hmv2), (moves_pins _ _ _ Hmv1); done).
  assert (∀ j a, mapped j a p → mapped j a p2) as Hkeep.
  { intros j a Hj. pose proof (mapped_pins _ _ _ Hj). pose proof (one_if_bounds x j). pose proof (one_if_bounds y j). pose proof (mapped_moves _ _ _ _ _ Hj Hmv1 ltac:(lia)) as Hj1.
    apply (mapped_moves _ _ _ _ _ Hj1 Hmv2). pose proof (mapped_pins _ _ _ Hj1). lia. }
  eapply wp_mono; [apply (set_link_if_ok count p2 x bx FreeBlink y); [done| | | |by right]|].
  { intros j. rewrite Hpins. specialize (Hfew j). pose proof (one_if_bounds x j). pose proof (one_if_bounds y j). lia. }
  { intros Hxn. eapply mapped_moves; [by apply Hmx|exact Hmv2|]. pose proof (mapped_pins _ _ _ (Hmx Hxn)). pose proof (one_if_bounds y x). lia. }
  { intros ->. rewrite Hpins. unfold one_if at 1. rewrite decide_False by done. rewrite one_same. pose proof (one_if_bounds y 0). lia. }
  intros [] p3 (Hg3 & Hmv3 & Hw3). rewrite (decide_False (P := FreeBlink = FreeFlink)) in Hw3 by done. step.
  assert (∀ j, pins p3 j = pins p j + one_if y j) as Hpins3 by (intros j; rewrite (moves_pins _ _ _ Hmv3), Hpins; lia).
  assert (∀ j a, mapped j a p → mapped j a p3) as Hkeep3.
  { intros j a Hj. apply (mapped_moves _ _ _ _ _ (Hkeep j a Hj) Hmv3). rewrite Hpins. pose proof (one_if_bounds y j). pose proof (mapped_pins _ _ _ Hj). lia. }
  destruct (links x) as (Hx1 & Hx2 & Hx3 & Hx4 & Hx5 & _). destruct (links y) as (Hy1 & Hy2 & Hy3 & Hy4 & Hy5 & _).
  assert (moves (one_if y) p p3) as Hm3.
  { eapply (moves_ext (λ j, (one_if x j + one_if y j) + - one_if x j)); [intros j; lia|].
    eapply (moves_trans _ _ _ p2); [intros j; left; pose proof (one_if_bounds x j); pose proof (one_if_bounds y j); lia| |exact Hmv3].
    eapply (moves_trans _ _ _ p1); [|exact Hmv1|exact Hmv2]. intros j. left. apply one_if_bounds. }
  destruct (Z.eqb_spec y ULONG_NONE) as [E|E]; cbn [negb].
  - destruct Hy as [[_ ->]|[_ ?]]; [|lia].
    replace (FirstBlockOfFirstSegment p + Body + FreeLists c) with (FirstBlockOfFirstSegment p + at_list c) by (unfold Body, FreeLists, at_list; lia).
    eapply write32_ok; [exact Hg3|by apply Hkeep3|lia|unfold at_count; lia|]. intros f Hf4 Hg4. step. split; [done|].
    split; [apply (moves_ext (λ j, one_if y j + 0)); [intros j; unfold one_if; rewrite decide_True by done; lia|]; eapply (moves_trans _ _ _ p3); [intros; lia|exact Hm3|apply moves_file]|].
    right. split; [done|]. intros k o Ho. cbn [file set_file]. rewrite Hf4, Hw3, Hf2, Hf1 by lia. rewrite <-Ex, <-Ey. cbn [last].
    rewrite (decide_ext _ _ _ _ (Hxk k o)), (decide_False (P := None = Some k ∧ _)) by (by intros [? _]).
    destruct (decide (0 = k ∧ at_list c = o)) as [[<- <-]|H1]; [|rewrite (decide_False (P := [] = [] ∧ _)) by naive_solver; done].
    rewrite (decide_False (P := head l2 = _ ∧ _)), decide_True by (lia || naive_solver lia). done.
  - destruct Hy as [[? _]|[Hy Hyr]]; [done|]. assert (∀ j, one_if y j = one y j) as Hoy by (intros j; unfold one_if; by rewrite decide_False).
    eapply wp_mono; [apply (set_link_ok count p3 y by_ FreeFlink x); [done| | | |by left]|].
    { eapply mapped_moves; [by apply Hmy|exact Hmv3|]. rewrite Hpins, Hoy, one_same. pose proof (pins_nonneg _ _ y (good_cache _ _ Hg)). lia. }
    { rewrite Hpins3, Hoy, one_same. specialize (Hfew y). lia. }
    { intros E0. rewrite Hpins3, Hoy, one_same, E0. lia. }
    intros [] p4 (Hg4 & Hmv4 & Hw4). rewrite (decide_True (P := FreeFlink = FreeFlink)) in Hw4 by done. step. split; [done|]. split.
    + eapply (moves_ext (λ j, one_if y j + - one y j)); [intros j; rewrite Hoy; lia|]. eapply (moves_trans _ _ _ p3); [|exact Hm3|exact Hmv4].
      intros j. left. apply one_if_bounds.
    + right. split; [done|]. intros k o Ho. rewrite Hw4, Hw3, Hf2, Hf1 by lia. rewrite <-Ex, <-Ey.
      assert (l1 ≠ []) as Hl1n by (intros ->; done). rewrite (decide_ext _ _ _ _ (Hxk k o)), (decide_False (P := l1 = [] ∧ _)) by tauto.
      assert ((y = k ∧ o = at_flink y) ↔ (last l1 = Some k ∧ o = at_flink k)) as Hyk by (rewrite Hy; naive_solver).
      rewrite (decide_ext _ _ _ _ Hyk). destruct (decide (head l2 = Some k ∧ o = at_blink k)) as [[H1 ->]|H1]; [|done].
      rewrite decide_False; [done|]. pose proof (links k). lia.
Qed.
Lemma removed_writes c i l1 l2 f f' count : 0 < count → 0 ≤ c < 8 → (∀ j, head l2 = Some j ∨ last l1 = Some j → 0 ≤ j < count) → removed c i l1 l2 f f' → writes (is_link count) f f'.
Proof.
  intros H0 Hc Hrange Hw k o Ho Hn. pose proof (list_words c Hc). unfold is_link in Hn. rewrite Hw by done.
  rewrite !decide_False by (unfold at_list in *; naive_solver lia). done.
Qed.

(** A segment is taken out of its list. *)
Lemma remove_free_list_ok count p cat c i b : good count p → few 2 p → lists_ok (file p) count cat → 0 ≤ c < 8 → cat i = c → mapped i b p →
  wp (PhFppRemoveFreeList SegmentShift MaximumInactiveViews c i (b + header_block i * BS + 16)) (λ r p',
    good count p' ∧ moves (λ _, 0) p p' ∧ writes (is_link count) (file p) (file p') ∧
    (denied p p' ∧ file p' = file p ∨ lists_ok (file p') count (assign cat i 8))) p.
Proof.
  intros Hg Hfew Hl Hc Hcat Hm. pose proof (mapped_range _ _ _ _ Hg Hm) as [Hi _]. destruct (Hl c Hc) as (l & Hlok). pose proof Hlok as (_ & Hchain & _ & Hin).
  assert (i ∈ l) as (l1 & l2 & ->)%list_elem_of_split by (by apply Hin). apply chain_app in Hchain as [_ (Hbl & Hfl & _)].
  assert (∀ k, head l2 = Some k ∨ last l1 = Some k → 0 ≤ k < count) as Hrange.
  { intros k [Hk|Hk]; apply Hin; [destruct l2; [done|]; injection Hk as ->; set_solver|apply elem_of_app; left; by apply last_Some_elem_of]. }
  eapply wp_mono; [by apply (remove_words_ok count p c i b l1 l2)|]. intros r p' (Hg' & Hmv & [(_ & Hden & Hf)|(_ & Hw)]); (split; [done|]); (split; [done|]).
  - split; [rewrite Hf; by apply writes_refl|by left].
  - split; [eapply removed_writes; [|done|done|done]; lia|right]. by eapply removed_lists.
Qed.

(** A segment whose links are empty empties the list. *)
Lemma remove_loose_ok count p c i b : good count p → few 2 p → heads_ok (file p) count → 0 ≤ c < 8 → mapped i b p →
  word (file p) i (at_blink i) = ULONG_NONE → word (file p) i (at_flink i) = ULONG_NONE →
  wp (PhFppRemoveFreeList SegmentShift MaximumInactiveViews c i (b + header_block i * BS + 16)) (λ r p',
    good count p' ∧ moves (λ _, 0) p p' ∧ writes (is_link count) (file p) (file p') ∧ heads_ok (file p') count) p.
Proof.
  intros Hg Hfew Hh Hc Hm Hbl Hfl. pose proof (mapped_range _ _ _ _ Hg Hm) as [Hi _].
  eapply wp_mono; [apply (remove_words_ok count p c i b [] []); [done|done|done|done|done|done|by intros j [?|?]]|].
  intros r p' (Hg' & Hmv & [(_ & Hden & Hf)|(_ & Hw)]); (split; [done|]); (split; [done|]).
  - rewrite Hf. split; [by apply writes_refl|done].
  - split; [eapply (removed_writes c i [] []); [|done|by intros j [?|?]|done]; lia|]. intros c' Hc'. destruct (Hh c' Hc') as (l & Hl & Hr). pose proof (list_words c' Hc').
    destruct (decide (c' = c)) as [->|Hne]; [exists []; split; [|done]|exists l; split; [|done]]; rewrite Hw by lia; cbn [head last];
      rewrite (decide_False (P := None = Some 0 ∧ _)), (decide_False (P := None = Some 0 ∧ _)) by (by intros [? _]).
    + by rewrite decide_True.
    + rewrite decide_False; [done|]. unfold at_list. lia.
Qed.
End Lists.
