(* ===== verification/FilePoolOps.v ===== *)
(** File pools: what allocation and freeing do to the segments and their lists. *)

From S2P Require Import Prelude Blocks FilePool FilePoolFacts FilePoolSegments FilePoolLists.

Section Ops.
Context {SegmentShift MaximumInactiveViews : Z} `{F : FileSystem, P : !PoolOk SegmentShift MaximumInactiveViews, FOk : !FileSystemOk F}.

Local Abbreviation SS := (SegmentSize SegmentShift).
Local Abbreviation BS := (BlockSize SegmentShift).
Local Abbreviation SHS := (SegmentHeaderBlockSpan SegmentShift).
Local Abbreviation word := (word (SegmentShift := SegmentShift)).
Local Abbreviation good := (good (SegmentShift := SegmentShift) (MaximumInactiveViews := MaximumInactiveViews)).
Local Abbreviation first_block := (first_block (SegmentShift := SegmentShift)).
Local Abbreviation header_block := (header_block (SegmentShift := SegmentShift)).
Local Abbreviation at_bitmap := (at_bitmap (SegmentShift := SegmentShift)).
Local Abbreviation at_free := (at_free (SegmentShift := SegmentShift)).
Local Abbreviation at_flink := (at_flink (SegmentShift := SegmentShift)).
Local Abbreviation at_blink := (at_blink (SegmentShift := SegmentShift)).
Local Abbreviation writes := (writes (SegmentShift := SegmentShift)).
Local Abbreviation is_link := (is_link (SegmentShift := SegmentShift)).
Local Abbreviation lists_ok := (lists_ok (SegmentShift := SegmentShift)).
Local Abbreviation seg_ok := (seg_ok (SegmentShift := SegmentShift)).
Local Abbreviation category := (PhFppComputeFreeListIndex SegmentShift).

(** The free list a segment belongs to. *)
Definition cat_of (f : gmap Z Z) (i : Z) : Z := category (word f i (at_free i)).

Lemma category_range n : 0 ≤ category n < 8.
Proof. unfold PhFppComputeFreeListIndex. repeat case_match; lia. Qed.

Lemma lists_ext f count cat cat' : (∀ i, 0 ≤ i < count → cat i = cat' i) → lists_ok f count cat → lists_ok f count cat'.
Proof.
  intros Hc Hl c Hc'. destruct (Hl c Hc') as (l & H1 & H2 & H3 & H4). exists l. split_and!; [done|done|done|].
  intros i. rewrite H4. split; intros [Hi E]; (split; [done|]); specialize (Hc i Hi); congruence.
Qed.

Lemma lists_frame W f f' count cat : lists_ok f count cat → 0 < count → writes W f f' → (∀ j o, W j o → is_link count j o → False) → lists_ok f' count cat.
Proof.
  intros Hl H0 Hw Hd c Hc. destruct (Hl c Hc) as (l & H1 & H2 & H3 & H4). exists l.
  assert (∀ j o, 0 ≤ o < SS → is_link count j o → word f' j o = word f j o) as Hsame by (intros j o Ho Hj; apply Hw; [done|intros H; by apply (Hd j o)]).
  pose proof (list_words (P := P) c Hc). split_and!; [|eapply chain_same; [|done]|done|done].
  - rewrite Hsame; [done|lia|]. left. lia.
  - intros i Hi. apply H4 in Hi as [Hi _]. destruct (links (P := P) i) as (? & ? & ? & ? & ? & _). rewrite !Hsame; [done|lia|right; tauto|lia|right; tauto].
Qed.

Lemma seg_links count f f' i runs : seg_ok f i runs → writes (is_link count) f f' → seg_ok f' i runs.
Proof.
  intros Hs Hw. destruct (links (P := P) i) as (? & ? & ? & ? & ? & ? & ? & ?). eapply seg_frame; [done|exact Hw| |].
  - intros o Ho [[-> ?]|[_ [->| ->]]]; unfold in_bitmap in Ho; lia.
  - intros s n Hn. destruct (sg_runs _ _ _ Hs s n Hn) as (R1 & R2 & R3 & _). pose proof (sizes (P := P)) as (HBS & HSS & _).
    assert (first_block i * BS ≤ s * BS) by nia. unfold FilePoolLists.is_link. split; intros [[-> ?]|[_ [E|E]]]; lia.
Qed.

Lemma free_links count f f' i : writes (is_link count) f f' → word f' i (at_free i) = word f i (at_free i).
Proof.
  intros Hw. destruct (links (P := P) i) as (? & ? & ? & ? & ? & ? & ? & ?). assert (at_free i + 4 = at_flink i) by (unfold FilePoolFacts.at_free, FilePoolFacts.at_flink; lia).
  apply Hw; [lia|]. intros [[-> ?]|[_ [E|E]]]; lia.
Qed.

(** ** Moving a segment to the free list for its free blocks

    The results of the operations on lists are not used: if a mapping is refused on the way the
    lists are left as they are then. *)
Lemma move_segment_ok count p cat old new i b : good count p → few 2 p → lists_ok (file p) count cat → mapped i b p →
  cat i = old → 0 ≤ old < 8 → 0 ≤ new < 8 →
  wp (move_segment SegmentShift MaximumInactiveViews old new i (b + header_block i * BS + 16)) (λ _ p',
    good count p' ∧ moves (λ _, 0) p p' ∧ writes (is_link count) (file p) (file p') ∧ (denied p p' ∨ lists_ok (file p') count (assign cat i new))) p.
Proof.
  intros Hg Hf Hl Hm Hc Ho Hn. unfold move_segment. destruct (Z.eqb_spec new old) as [->|Hne]; cbn [negb].
  - step. split_and!; [done|apply moves_refl|apply writes_refl|]. right. eapply lists_ext; [|done]. intros j _. unfold assign. case_decide; [by subst|done].
  - step. eapply wp_mono; [by apply (remove_free_list_ok count p cat old i b)|]. intros r p1 (Hg1 & Hm1 & Hw1 & Hl1). step.
    assert (few 1 p1) as Hf1 by (intros j; rewrite (moves_pins _ _ _ Hm1); specialize (Hf j); lia).
    assert (mapped i b p1) as Hmap1 by (eapply mapped_moves; [done|done|]; pose proof (mapped_pins _ _ _ Hm); lia).
    assert (∀ p2, moves (λ _, 0) p1 p2 → moves (λ _, 0) p p2) as Hmoves.
    { intros p2 Hm2. eapply (moves_ext (λ j, 0 + 0)); [intros; lia|]. eapply moves_trans; [intros; lia|exact Hm1|exact Hm2]. }
    destruct Hl1 as [[Hden Hfile]|Hl1].
    + eapply wp_mono; [apply (insert_loose_ok count p1 new i b); [done|done|rewrite Hfile; by eapply lists_heads|done|done]|].
      intros r' p2 (Hg2 & Hm2 & Hw2). step. split_and!; [done|by apply Hmoves|by eapply writes_trans; [exact Hw1|exact Hw2|tauto]|left; by eapply denied_moves].
    + eapply wp_mono; [apply (insert_free_list_ok count p1 (assign cat i 8) new i b); [done|done|done| |done|done]|].
      { unfold assign. rewrite decide_True by done. lia. }
      intros r' p2 (Hg2 & Hm2 & Hw2 & Hl2). step. split_and!; [done|by apply Hmoves|by eapply writes_trans; [exact Hw1|exact Hw2|tauto]|].
      destruct Hl2 as [[Hden _]|Hl2]; [left; by eapply moves_denied|right]. eapply lists_ext; [|exact Hl2]. intros j _. unfold assign. by case_decide.
Qed.

(** A segment that is in no list, as when its insertion was refused. *)
Definition loose (f : gmap Z Z) (count i : Z) : Prop :=
  heads_ok (SegmentShift := SegmentShift) f count ∧ word f i (at_blink i) = ULONG_NONE ∧ word f i (at_flink i) = ULONG_NONE.

Lemma move_loose_ok count p old new i b : good count p → few 2 p → loose (file p) count i → mapped i b p → 0 ≤ old < 8 → 0 ≤ new < 8 →
  wp (move_segment SegmentShift MaximumInactiveViews old new i (b + header_block i * BS + 16)) (λ _ p',
    good count p' ∧ moves (λ _, 0) p p' ∧ writes (is_link count) (file p) (file p')) p.
Proof.
  intros Hg Hf (Hh & Hbl & Hfl) Hm Ho Hn. unfold move_segment. destruct (Z.eqb_spec new old) as [->|Hne]; cbn [negb].
  - step. split_and!; [done|apply moves_refl|apply writes_refl].
  - step. eapply wp_mono; [by apply (remove_loose_ok count p old i b)|]. intros r p1 (Hg1 & Hm1 & Hw1 & Hh1). step.
    eapply wp_mono; [apply (insert_loose_ok count p1 new i b); [done| |done|done|]|].
    + intros j. rewrite (moves_pins _ _ _ Hm1). specialize (Hf j). lia.
    + eapply mapped_moves; [done|done|]. pose proof (mapped_pins _ _ _ Hm). lia.
    + intros r' p2 (Hg2 & Hm2 & Hw2). step. split_and!; [done| |by eapply writes_trans; [exact Hw1|exact Hw2|tauto]].
      eapply (moves_ext (λ j, 0 + 0)); [intros; lia|]. eapply moves_trans; [intros; lia|exact Hm1|exact Hm2].
Qed.

(** ** The state between operations

    [runs] has the runs of blocks that are allocated in each segment. *)
Definition header_ok (f : gmap Z Z) : Prop := word f 0 (16 + Magic) = PH_FP_MAGIC ∧ word f 0 (16 + SegmentShift_) = SegmentShift.

Lemma header_same f f' W : header_ok f → writes W f f' → (∀ o, W 0 o → 24 ≤ o) → header_ok f'.
Proof.
  intros [H1 H2] Hw HW. destruct (sizes (P := P)) as (HBS & HSS & _). unfold header_ok, Magic, SegmentShift_ in *.
  rewrite !Hw; [done|lia|intros ?%HW; lia|lia|intros ?%HW; lia].
Qed.

Record blocks_ok (count : Z) (runs : Z → gmap Z Z) (f : gmap Z Z) : Prop := {
  fo_segs i : 0 ≤ i < count → seg_ok f i (runs i);
  fo_fresh i o : count ≤ i → 0 ≤ o < SS → word f i o = 0;
  fo_runs i : ¬ 0 ≤ i < count → runs i = ∅;
  fo_header : header_ok f;
}.

Record file_ok (count : Z) (runs : Z → gmap Z Z) (f : gmap Z Z) : Prop := {
  fo_blocks :> blocks_ok count runs f;
  fo_lists : lists_ok f count (cat_of f);
}.

(** The pool without regard to the free lists, and with them. *)
Record pool_sound (count : Z) (runs : Z → gmap Z Z) (p : PH_FILE_POOL) : Prop := {
  ps_good : good count p;
  ps_blocks : blocks_ok count runs (file p);
}.

Record pool_ok (count : Z) (runs : Z → gmap Z Z) (p : PH_FILE_POOL) : Prop := {
  po_good : good count p;
  po_file : file_ok count runs (file p);
}.

Lemma pool_ok_lists count runs p : pool_sound count runs p → lists_ok (file p) count (cat_of (file p)) → pool_ok count runs p.
Proof. by intros [H1 H2] Hl. Qed.

(** After an operation that started at [p]: the free lists are in order, or a mapping was
    refused. *)
Definition pool_after (count : Z) (runs : Z → gmap Z Z) (p p' : PH_FILE_POOL) : Prop :=
  pool_sound count runs p' ∧ (denied p p' ∨ pool_ok count runs p').

Lemma pool_ok_after count runs p p' : pool_ok count runs p' → pool_after count runs p p'.
Proof. intros Hp. split; [|by right]. destruct Hp as [H1 [H2 _]]. done. Qed.

(** [n] blocks were taken from a segment, which has one more reference than in [p]; the
    file was [f] before. *)
Record took (count : Z) (runs : Z → gmap Z Z) (i s n b : Z) (f : gmap Z Z) (p p' : PH_FILE_POOL) : Prop := {
  tk_good : good count p';
  tk_moves : moves (one i) p p';
  tk_mapped : mapped i b p';
  tk_range : 0 ≤ i < count;
  tk_run : first_block i ≤ s ∧ s + n ≤ 2048;
  tk_apart j : s ≤ j < s + n → ¬ in_runs (runs i) j;
  tk_seg : seg_ok (file p') i (<[s := n]> (runs i));
  tk_free : word (file p') i (at_free i) = word f i (at_free i) - n;
  tk_writes : writes (λ j o, j = i ∧ (in_bitmap (SegmentShift := SegmentShift) i o ∨ o = s * BS ∨ o = s * BS + 4)) f (file p');
}.

Lemma allocate_in_ok count runs p p1 i b n : good count p1 → seg_ok (file p1) i (runs i) → moves (one i) p p1 → mapped i b p1 → 1 ≤ n ≤ 2048 →
  wp (PhFppAllocateBlocks SegmentShift b (b + header_block i * BS + 16) n) (λ a p',
    (a = 0 ∧ p' = p1 ∧ ∀ s, first_block i ≤ s → s + n ≤ 2048 → ∃ j, s ≤ j < s + n ∧ in_runs (runs i) j) ∨
    ∃ s, a = b + s * BS ∧ 0 < a ∧ (refused p1 ≤ refused p')%nat ∧ took count runs i s n b (file p1) p p') p1.
Proof.
  intros Hg Hs Hmv Hm Hn. pose proof (mapped_range _ _ _ _ Hg Hm) as [Hi Hb]. eapply wp_mono; [by apply (allocate_blocks_ok count p1 i b (runs i) n)|].
  intros a p' [H|(s & f & -> & -> & Hg' & Hs' & H1 & H2 & H3 & H4 & H5)]; [by left|right]. exists s. split; [done|].
  destruct (headers (P := P) i) as (_ & _ & _ & _ & _ & Hfb & _). destruct (sizes (P := P)) as (HBS & _). split; [nia|]. split; [done|].
  constructor; try done; cbn.
  - eapply (moves_ext (λ j, one i j + 0)); [intros; lia|]. eapply (moves_trans _ _ _ p1); [intros; lia|done|apply moves_file].
Qed.

Lemma pool_after_cache count runs p p1 p' : pool_after count runs p p1 → good count p' → (refused p1 ≤ refused p')%nat → file p' = file p1 → pool_after count runs p p'.
Proof.
  intros [[_ H1] H2] Hg Hr Hf. split; [constructor; [done|by rewrite Hf]|]. destruct H2 as [H2|[_ H2]]; [left; by eapply denied_later|right]. constructor; [done|by rewrite Hf].
Qed.

Lemma pool_after_earlier count runs p p1 p' : (refused p ≤ refused p1)%nat → pool_after count runs p1 p' → pool_after count runs p p'.
Proof. intros Hr [H1 H2]. split; [done|]. destruct H2 as [[H2 He]|H2]; [left; split; [lia|done]|by right]. Qed.

(** *** Scanning the free lists *)
Lemma pool_ok_cache count runs p p' : pool_ok count runs p → good count p' → file p' = file p → pool_ok count runs p'.
Proof. intros [H1 H2] Hg Hf. constructor; rewrite ?Hf; done. Qed.

Lemma scan_list_ok count runs n c fuel : ∀ p l before, pool_ok count runs p → few 2 p → 1 ≤ n ≤ 2048 →
  chain (SegmentShift := SegmentShift) (file p) before l ULONG_NONE → (∀ i, i ∈ l → 0 ≤ i < count ∧ cat_of (file p) i = c) → (length l ≤ fuel)%nat →
  wp (scan_list SegmentShift MaximumInactiveViews fuel n c (head_or ULONG_NONE l)) (λ r p',
    ((r = NotAllocated ∨ r = NotMapped ∧ denied p p') ∧ good count p' ∧ moves (λ _, 0) p p' ∧ file p' = file p) ∨
    ∃ i s b, r = Allocated (b + s * BS) i b (b + header_block i * BS + 16) c ∧ cat_of (file p) i = c ∧ took count runs i s n b (file p) p p') p.
Proof.
  induction fuel as [|fuel IH]; intros p l before Hpo Hfew Hn Hch Hl Hlen.
  { destruct l; [|cbn in Hlen; lia]. cbn [scan_list head_or head default from_option id]. rewrite Z.eqb_refl. step. left. split_and!; [by left|apply Hpo|apply moves_refl|done]. }
  pose proof (good_small (P := P) _ _ (po_good _ _ _ Hpo)) as Hsmall. destruct l as [|i l]; cbn [scan_list head_or head default from_option id].
  { rewrite Z.eqb_refl. step. left. split_and!; [by left|apply Hpo|apply moves_refl|done]. }
  destruct (Hl i ltac:(set_solver)) as [Hi Hci]. destruct (Z.eqb_spec i ULONG_NONE) as [->|_]; [lia|]. cbn [chain] in Hch. destruct Hch as (_ & Hfl & Hch).
  step. eapply wp_mono; [apply (reference_ok count p i); [apply Hpo|done|]; specialize (Hfew i); lia|].
  intros b p1 [(-> & Hden & Hg1 & Hm1 & Hf1)|(Hg1 & Hm1 & Hf1 & Hmap & Hb)].
  { cbn [Z.eqb]. step. left. split_and!; [by right|done|done|done]. }
  destruct (Z.eqb_spec b 0); [lia|]. step. eapply header_segment_ok; [done|done|]. step.
  replace (b + header_block i * BS + 16 + FreeFlink) with (b + at_flink i) by (unfold FreeFlink, FilePoolFacts.at_flink; lia).
  destruct (links (P := P) i) as (? & ? & ? & ? & ? & _). eapply read_ok; [done|done|lia|]. rewrite Hf1, Hfl. step.
  eapply wp_mono; [apply (allocate_in_ok count runs p p1 i b n); [done|rewrite Hf1; by apply (po_file _ _ _ Hpo)|done|done|done]|].
  intros a p2 [(-> & -> & _)|(s & -> & Ha & _ & Ht)].
  - cbn [Z.eqb negb]. step.
    eapply wp_mono; [apply (dereference_ok count p1 i); [done| |]; pose proof (moves_pins _ _ _ Hm1 i) as Hpi; rewrite one_same in Hpi;
      pose proof (pins_nonneg _ _ i (good_cache _ _ (po_good _ _ _ Hpo))); specialize (Hfew i); [lia|intros ->; pose proof (mapped_pins _ _ _ (mapped_first _ _ (po_good _ _ _ Hpo))); lia]|].
    intros [] p3 (Hg3 & Hm3 & Hf3). assert (moves (λ _, 0) p p3) as Hm03.
    { eapply (moves_ext (λ j, one i j + - one i j)); [intros; lia|]. eapply (moves_trans _ _ _ p1); [|exact Hm1|exact Hm3]. intros j. left. apply one_bounds. }
    assert (file p3 = file p) as Hf03 by congruence.
    eapply wp_mono; [apply (IH p3 l i); [by eapply pool_ok_cache| |done|by rewrite Hf03|intros j Hj; rewrite Hf03; apply Hl; set_solver|cbn in Hlen; lia]|].
    + intros j. rewrite (moves_pins _ _ _ Hm03). specialize (Hfew j). lia.
    + intros r p4 [(Hr & Hg4 & Hm4 & Hf4)|(i' & s & b' & -> & Hc' & Ht)].
      * left. split_and!; [destruct Hr as [->|[-> Hden]]; [by left|right; split; [done|by eapply moves_denied]]|done| |congruence]. eapply (moves_ext (λ j, 0 + 0)); [intros; lia|]. eapply moves_trans; [intros; lia|exact Hm03|exact Hm4].
      * right. exists i', s, b'. split; [done|]. rewrite Hf03 in Hc'. split; [done|]. rewrite Hf03 in Ht. destruct Ht as [T1 T2 T3 T4 T5 T6 T7 T8 T9]. constructor; try done.
        eapply (moves_ext (λ j, 0 + one i' j)); [intros; lia|]. eapply moves_trans; [intros; lia|exact Hm03|exact T2].
  - destruct (Z.eqb_spec (b + s * BS) 0); [lia|]. cbn [negb]. rewrite Hf1 in Ht. step. right. exists i, s, b. done.
Qed.

Lemma max_segments_count count p (l : list Z) : good count p → NoDup l → (∀ i, i ∈ l → 0 ≤ i < count) → (length l ≤ max_segments SegmentShift)%nat.
Proof.
  intros Hg Hnd Hl. destruct (ok_count _ _ (good_cache _ _ Hg)) as (H0 & _ & H32). unfold max_segments.
  destruct (layout (P := P)) as (HBS & _ & _ & _ & _ & _ & Hpow & _). pose proof (shift_ok (PoolOk := P)).
  assert (2 ^ 32 = 2 ^ (32 - SegmentShift) * SS) as E by (rewrite Hpow, <-Z.pow_add_r by lia; f_equal; lia).
  assert (0 < SS) by (rewrite Hpow; apply Z.pow_pos_nonneg; lia).
  assert (count ≤ 2 ^ (32 - SegmentShift)) by nia. assert (length l ≤ length (seqZ 0 count))%nat as Hle; [|rewrite length_seqZ in Hle; lia].
  apply submseteq_length, NoDup_submseteq; [done|]. intros i Hi. apply elem_of_seqZ. specialize (Hl i Hi). lia.
Qed.

Lemma scan_lists_ok count runs n k : ∀ p c, pool_ok count runs p → few 2 p → 1 ≤ n ≤ 2048 → 0 ≤ c → c + Z.of_nat k ≤ 8 →
  wp (scan_lists SegmentShift MaximumInactiveViews k n c) (λ r p',
    ((r = NotAllocated ∨ r = NotMapped ∧ denied p p') ∧ good count p' ∧ moves (λ _, 0) p p' ∧ file p' = file p) ∨
    ∃ i s b, r = Allocated (b + s * BS) i b (b + header_block i * BS + 16) (cat_of (file p) i) ∧ took count runs i s n b (file p) p p') p.
Proof.
  induction k as [|k IH]; intros p c Hpo Hfew Hn Hc Hck; cbn [scan_lists].
  { step. left. split_and!; [by left|apply Hpo|apply moves_refl|done]. }
  pose proof (po_good _ _ _ Hpo) as Hg. destruct (fo_lists _ _ _ (po_file _ _ _ Hpo) c ltac:(lia)) as (l & Hhead & Hch & Hnd & Hin). pose proof (list_words (P := P) c ltac:(lia)).
  unfold Header. steps. replace (FirstBlockOfFirstSegment p + Body + FreeLists c) with (FirstBlockOfFirstSegment p + at_list c) by (unfold Body, FreeLists, at_list; lia).
  eapply read_ok; [done|by eapply mapped_first|lia|]. rewrite Hhead. step.
  eapply wp_mono; [apply (scan_list_ok count runs n c _ p l ULONG_NONE); [done|done|done|done|intros i; by rewrite Hin|]|].
  { apply (max_segments_count count p l); [done|done|]. intros i Hi. by apply Hin. }
  intros r p1 [([->|[-> Hden]] & Hg1 & Hm1 & Hf1)|(i & s & b & -> & Hci & Ht)].
  - eapply wp_mono; [apply (IH p1 (c + 1)); [by eapply pool_ok_cache| |done|lia|lia]|].
    + intros j. rewrite (moves_pins _ _ _ Hm1). specialize (Hfew j). lia.
    + intros r p2 [(Hr & Hg2 & Hm2 & Hf2)|(i & s & b & -> & Ht)].
      * left. split_and!; [destruct Hr as [->|[-> Hden]]; [by left|right; split; [done|by eapply moves_denied]]|done| |congruence].
        eapply (moves_ext (λ j, 0 + 0)); [intros; lia|]. eapply moves_trans; [intros; lia|exact Hm1|exact Hm2].
      * right. exists i, s, b. rewrite Hf1. split; [done|]. rewrite Hf1 in Ht. destruct Ht as [T1 T2 T3 T4 T5 T6 T7 T8 T9]. constructor; try done.
        eapply (moves_ext (λ j, 0 + one i j)); [intros; lia|]. eapply moves_trans; [intros; lia|exact Hm1|exact T2].
  - step. left. split_and!; [by right|done|done|done].
  - step. right. exists i, s, b. by rewrite Hci.
Qed.

(** ** The end of an allocation *)
Definition set_runs (runs : Z → gmap Z Z) (i : Z) (r : gmap Z Z) : Z → gmap Z Z := λ j, if decide (j = i) then r else runs j.

(** The contents of blocks that are allocated. *)
Definition kept (runs : Z → gmap Z Z) (f f' : gmap Z Z) : Prop :=
  ∀ i s n o, runs i !! s = Some n → s * BS + 16 ≤ o < (s + n) * BS → word f' i o = word f i o.

Lemma kept_trans runs f f1 f2 : kept runs f f1 → kept runs f1 f2 → kept runs f f2.
Proof. intros H1 H2 i s n o Hr Ho. by rewrite (H2 i s n o Hr Ho), (H1 i s n o Hr Ho). Qed.

(** A body is apart from the headers of its segment. *)
Lemma body_range count runs f i s n o : blocks_ok count runs f → runs i !! s = Some n → s * BS + 16 ≤ o < (s + n) * BS →
  0 ≤ i < count ∧ 0 ≤ o < SS ∧ first_block i * BS + 16 ≤ o.
Proof.
  intros Hf Hr Ho. assert (0 ≤ i < count) as Hi by (destruct (decide (0 ≤ i < count)); [done|]; rewrite (fo_runs _ _ _ Hf i) in Hr; done).
  destruct (sg_runs _ _ _ (fo_segs _ _ _ Hf i Hi) s n Hr) as (H1 & H2 & H3 & _). destruct (sizes (P := P)) as (HBS & HSS & _).
  destruct (headers (P := P) i) as (_ & _ & _ & _ & _ & Hfb & _). nia.
Qed.

Lemma kept_links count runs f f' : blocks_ok count runs f → writes (is_link count) f f' → kept runs f f'.
Proof.
  intros Hf Hw i s n o Hr Ho. destruct (body_range _ _ _ _ _ _ _ Hf Hr Ho) as (Hi & Hos & Hfb). destruct (links (P := P) i) as (? & ? & ? & ? & ? & _).
  apply Hw; [done|]. intros [[-> ?]|[_ [E|E]]]; lia.
Qed.

(** The links have changed. *)
Lemma blocks_links count runs f f' : (∀ i, 0 ≤ i < count → seg_ok f i (runs i)) → (∀ i o, count ≤ i → 0 ≤ o < SS → word f i o = 0) →
  (∀ i, ¬ 0 ≤ i < count → runs i = ∅) → header_ok f → 0 < count → writes (is_link count) f f' → blocks_ok count runs f'.
Proof.
  intros H1 H3 H4 Hh H0 Hw. constructor; [| |done|].
  - intros i Hi. eapply seg_links; [by apply H1|done].
  - intros i o Hi Ho. rewrite Hw; [by apply H3|done|]. intros [[-> ?]|[? _]]; lia.
  - eapply header_same; [done|exact Hw|]. intros o. destruct (links (P := P) 0) as (J1 & J2 & J3 & J4 & J5 & _). intros [[_ ?]|[_ [E|E]]]; lia.
Qed.

Lemma at_free_range i : 0 ≤ at_free i < SS ∧ at_free i + 4 = at_flink i.
Proof. destruct (links (P := P) i) as (J1 & J2 & J3 & J4 & J5 & J6 & J7 & J8). unfold FilePoolFacts.at_free, FilePoolFacts.at_flink in *. lia. Qed.

(** The lists of the file are in order, or the segment is in none of them. *)
Definition listed (listing : bool) (count i : Z) (f : gmap Z Z) : Prop := if listing then lists_ok f count (cat_of f) else loose f count i.

(** The runs of a segment have changed, and it moves to the list for its free blocks. *)
Lemma settle_ok listing count runs i r b f p : blocks_ok count runs f → listed listing count i f → good count p → mapped i b p → few 2 p → seg_ok (file p) i r →
  writes (λ j o, j = i ∧ (in_bitmap (SegmentShift := SegmentShift) i o ∨ first_block i * BS ≤ o)) f (file p) →
  wp (m ← read32 (b + header_block i * BS + 16 + FreeBlocks);
      move_segment SegmentShift MaximumInactiveViews (cat_of f i) (category m) i (b + header_block i * BS + 16)) (λ _ p',
    pool_sound count (set_runs runs i r) p' ∧ moves (λ _, 0) p p' ∧ writes (is_link count) (file p) (file p') ∧
    (listing = true → denied p p' ∨ pool_ok count (set_runs runs i r) p')) p.
Proof.
  intros Hfo Hcase Hg Hmap Hfew Hs Hw0. destruct (mapped_range _ _ _ _ Hg Hmap) as [Hi Hb]. destruct (at_free_range i) as [Hfr Hfl].
  destruct (links (P := P) i) as (L1 & L2 & L3 & L4 & L5 & L6 & L7 & L8).
  assert (∀ j o, j = i ∧ (in_bitmap (SegmentShift := SegmentShift) i o ∨ first_block i * BS ≤ o) → is_link count j o → False) as Hapart.
  { intros j o [-> Ho] [[-> ?]|[_ [-> | ->]]]; unfold in_bitmap in Ho; lia. }
  step. replace (b + header_block i * BS + 16 + FreeBlocks) with (b + at_free i) by (unfold FreeBlocks, FilePoolFacts.at_free; lia).
  eapply read_ok; [done|done|lia|].
  assert (∀ j, j ≠ i → ∀ o, 0 ≤ o < SS → word (file p) j o = word f j o) as Hother by (intros j Hj o Ho; apply Hw0; [done|tauto]).
  assert (∀ p', good count p' → writes (is_link count) (file p) (file p') → pool_sound count (set_runs runs i r) p') as Hsound.
  { intros p' Hg' Hw. constructor; [done|]. eapply (blocks_links count _ (file p)); [| | | |lia|done].
    - intros j Hj. unfold set_runs. case_decide as E; [by subst|]. eapply seg_frame; [by apply (fo_segs _ _ _ Hfo)|exact Hw0|by intros o _ [-> _]|].
      intros s' n' _. split; by intros [-> _].
    - intros j o Hj Ho. rewrite Hother; [by apply (fo_fresh _ _ _ Hfo)|lia|done].
    - intros j Hj. unfold set_runs. rewrite decide_False by (intros ->; lia). by apply (fo_runs _ _ _ Hfo).
    - eapply header_same; [apply Hfo|exact Hw0|]. intros o [<- [Ho|Ho]]; unfold in_bitmap in Ho; lia. }
  destruct listing; [rename Hcase into Hl|destruct Hcase as (Hh & Hbl & Hfk)].
  - eapply wp_mono; [apply (move_segment_ok count p (cat_of f) (cat_of f i)); [done|done| |done|done|apply category_range|apply category_range]|].
    { eapply lists_frame; [exact Hl|lia|exact Hw0|exact Hapart]. }
    intros [] p' (Hg' & Hm & Hw & Hl'). split; [by apply Hsound|]. split; [done|]. split; [done|]. intros _. destruct Hl' as [?|Hl']; [by left|right].
    apply pool_ok_lists; [by apply Hsound|]. eapply lists_ext; [|exact Hl']. intros j Hj. unfold assign, cat_of. rewrite (free_links count (file p) (file p')) by done.
    case_decide as E; [by subst|]. rewrite Hother; [done|done|]. apply at_free_range.
  - assert (word (file p) i (at_blink i) = ULONG_NONE ∧ word (file p) i (at_flink i) = ULONG_NONE) as [Hbl' Hfk'].
    { rewrite !Hw0; [done|lia|intros Ho; apply (Hapart _ _ Ho); right; tauto|lia|intros Ho; apply (Hapart _ _ Ho); right; tauto]. }
    assert (heads_ok (SegmentShift := SegmentShift) (file p) count) as Hh'.
    { intros c Hc. destruct (Hh c Hc) as (l & Hl & Hr). exists l. split; [|done]. pose proof (list_words (P := P) c Hc). rewrite Hw0; [done|lia|].
      intros Ho. apply (Hapart _ _ Ho). left. lia. }
    eapply wp_mono; [apply (move_loose_ok count p); [done|done|done|done|apply category_range|apply category_range]|].
    intros [] p' (Hg' & Hm & Hw). split; [by apply Hsound|]. split; [done|]. done.
Qed.

Lemma finish_ok listing count runs i s n b f p p' : blocks_ok count runs f → listed listing count i f → took count runs i s n b f p p' → 1 ≤ n → few 2 p' →
  wp (m ← read32 (b + header_block i * BS + 16 + FreeBlocks);
      move_segment SegmentShift MaximumInactiveViews (cat_of f i) (category m) i (b + header_block i * BS + 16)) (λ _ p'',
    pool_sound count (set_runs runs i (<[s := n]> (runs i))) p'' ∧ moves (one i) p p'' ∧ mapped i b p'' ∧ kept runs f (file p'') ∧ (refused p' ≤ refused p'')%nat ∧
    (denied p' p'' ∨ listing = false ∨ pool_ok count (set_runs runs i (<[s := n]> (runs i))) p'')) p'.
Proof.
  intros Hfo Hlist Ht Hn Hfew. pose proof Ht as [T1 T2 T3 T4 T5 T6 T7 T8 T9]. destruct (sizes (P := P)) as (HBS & HSS & _).
  eapply wp_mono; [apply (settle_ok listing count runs i (<[s := n]> (runs i)) b f p'); [done|done|done|done|done|exact T7|]|].
  { intros j o Ho Hn'. apply T9; [done|]. intros [-> Hw]. apply Hn'. split; [done|]. destruct Hw as [?|Hw]; [by left|right]. nia. }
  intros [] p'' (Hpo & Hm & Hw & Hl). split; [done|]. split; [|split; [|split; [|split; [apply Hm|]]]].
  - eapply (moves_ext (λ j, one i j + 0)); [intros; lia|]. eapply moves_trans; [intros; lia|exact T2|exact Hm].
  - eapply mapped_moves; [done|done|]. pose proof (mapped_pins _ _ _ T3). lia.
  - intros j s' n' o Hr Ho. destruct (body_range _ _ _ _ _ _ _ Hfo Hr Ho) as (Hj & Hos & Hfb). destruct (links (P := P) j) as (J1 & J2 & J3 & J4 & J5 & J6 & J7 & J8).
    rewrite Hw; [|done|intros [[-> ?]|[_ [E|E]]]; lia]. apply T9; [done|]. intros [-> [Hw'|Hw']]; [unfold in_bitmap in Hw'; lia|].
    destruct (sg_runs _ _ _ (fo_segs _ _ _ Hfo i Hj) s' n' Hr) as (H1 & H2 & H3 & _). assert (s' ≤ s < s' + n') as Hin by nia. apply (T6 s); [lia|]. by exists s', n'.
  - destruct listing; [|right; by left]. destruct (Hl eq_refl); [by left|right; by right].
Qed.

(** ** A new segment *)
Lemma good_section count p n c : good count p → section_size p ≤ n → good count (set_section n c p).
Proof.
  intros [H1 H2 H3 H4] Hn. constructor; [|done|done|done]. destruct (ok_count _ _ H1) as (K1 & K2 & K3). constructor; try apply H1. cbn. lia.
Qed.

Lemma good_grow count p : good count p → (count + 1) * SS ≤ section_size p → (count + 1) * SS ≤ 2 ^ 32 →
  good (count + 1) (set_file (<[0 * SS + at_count := count + 1]> (file p)) p).
Proof.
  intros [H1 H2 H3 H4] Hs H32. destruct (ok_count _ _ H1) as (K1 & K2 & K3). destruct (sizes (P := P)) as (HBS & HSS & _).
  constructor; [|done|done|apply word_insert_eq; unfold at_count; lia]. constructor; try apply H1.
  - intros i v Hv. destruct (ok_views _ _ H1 _ _ Hv) as (? & ? & ?). lia.
  - cbn. lia.
Qed.

Lemma moves_same p p' : FirstBlockOfFirstSegment p' = FirstBlockOfFirstSegment p → (refused p ≤ refused p')%nat → Views p' = Views p → moves (λ _, 0) p p'.
Proof. intros H1 H0 H2. constructor; [done|done| |]; unfold pins; rewrite H2; [intros; lia|eauto]. Qed.

Lemma new_segment_block count : 0 < count → header_block count = 0 ∧ first_block count = SHS.
Proof. intros Hc. unfold FilePoolFacts.first_block, FilePoolFacts.header_block. destruct (Z.eqb_spec count 0); lia. Qed.

(** The file after a segment was added, before the segment is in a list. *)
Lemma grown_file count runs f f2 : file_ok count runs f → 0 < count →
  writes (λ j o, j = 0 ∧ o = at_count ∨ j = count) f f2 → seg_ok f2 count ∅ →
  (∀ i, 0 ≤ i < count + 1 → seg_ok f2 i (runs i)) ∧ (∀ i o, count + 1 ≤ i → 0 ≤ o < SS → word f2 i o = 0) ∧
  (∀ i, ¬ 0 ≤ i < count + 1 → runs i = ∅) ∧ lists_ok f2 (count + 1) (assign (cat_of f) count 8) ∧ kept runs f f2 ∧ header_ok f2 ∧
  ∀ i, 0 ≤ i < count → word f2 i (at_free i) = word f i (at_free i).
Proof.
  intros Hfo H0 Hw Hs. destruct (sizes (P := P)) as (HBS & HSS & _). unfold at_count in Hw. split_and!.
  - intros i Hi. destruct (decide (i = count)) as [->|Hne]; [by rewrite (fo_runs _ _ _ Hfo) by lia|].
    destruct (links (P := P) i) as (L1 & L2 & L3 & L4 & L5 & L6 & L7 & L8).
    eapply seg_frame; [apply (fo_segs _ _ _ Hfo); lia|exact Hw| |].
    + intros o Ho [[-> ->]|?]; [|lia]. unfold in_bitmap in Ho. lia.
    + intros s n Hr. destruct (sg_runs _ _ _ (fo_segs _ _ _ Hfo i ltac:(lia)) s n Hr) as (H1 & _). destruct (headers (P := P) i) as (_ & _ & _ & _ & _ & Hfb & _).
      split; intros [[-> ?]|?]; nia.
  - intros i o Hi Ho. rewrite Hw; [apply (fo_fresh _ _ _ Hfo); lia|done|lia].
  - intros i Hi. apply (fo_runs _ _ _ Hfo). lia.
  - intros c Hc. destruct (fo_lists _ _ _ Hfo c Hc) as (l & H1 & H2 & H3 & H4). pose proof (list_words (P := P) c Hc). exists l. split_and!; [|eapply chain_same; [|done]|done|].
    + rewrite Hw; [done|lia|]. unfold at_list in *. lia.
    + intros i Hi. apply H4 in Hi as [Hi _]. destruct (links (P := P) i) as (L1 & L2 & L3 & L4 & L5 & L6 & L7 & L8). rewrite !Hw; [done|lia|lia|lia|lia].
    + intros i. rewrite H4. unfold assign. case_decide; [subst|]; lia.
  - intros i s n o Hr Ho. destruct (body_range _ _ _ _ _ _ _ Hfo Hr Ho) as (Hi & Hos & Hfb). destruct (links (P := P) i) as (L1 & L2 & L3 & L4 & L5 & L6 & L7 & L8).
    apply Hw; [done|]. lia.
  - eapply header_same; [apply Hfo|exact Hw|]. intros o [[_ ->]|?]; lia.
  - intros i Hi. destruct (at_free_range i) as [Hr Hfl]. destruct (links (P := P) i) as (L1 & L2 & L3 & L4 & L5 & L6 & L7 & L8). apply Hw; [done|lia].
Qed.

(** The file cannot be extended by another segment. *)
Definition no_room (count : Z) : Prop := ∃ c, NtExtendSection c ((count + 1) * SS) = false.

(** Then the segment is there, with a reference; if it could not be put in front of its list, it
    is in none. If it cannot be mapped, its header is written at NULL. *)
Lemma allocate_segment_ok count runs p : pool_ok count runs p → few 3 p → (count + 1) * SS < 2 ^ 32 →
  wp_or (refuses (SegmentShift := SegmentShift) count) (PhFppAllocateSegment SegmentShift MaximumInactiveViews) (λ r p',
    (r = (0, 0) ∧ pool_ok count runs p' ∧ moves (λ _, 0) p p' ∧ file p' = file p ∧ no_room count) ∨
    ∃ b listing, r = (b, count) ∧ 0 < b ∧ good (count + 1) p' ∧ moves (one count) p p' ∧ mapped count b p' ∧ blocks_ok (count + 1) runs (file p') ∧
      listed listing (count + 1) count (file p') ∧ (listing = true ∨ denied p p') ∧
      cat_of (file p') count = 0 ∧ kept runs (file p) (file p')) p.
Proof.
  intros [Hg Hfo] Hfew H32. destruct (ok_count _ _ (good_cache _ _ Hg)) as (H0 & Hsec & _). destruct (layout (P := P)) as (HBS & HSS & _ & HSH & _ & _ & Hpow & _).
  pose proof (shift_ok (PoolOk := P)) as Hsh. pose proof (mapped_first _ _ Hg) as Hm0.
  unfold PhFppAllocateSegment, Header. apply wp_or_bind. steps. apply wp_or_bind. unfold Body, SegmentCount. rewrite <-!Z.add_assoc. change (16 + 8) with at_count.
  eapply read_ok; [done|exact Hm0|unfold at_count; lia|]. rewrite (good_count _ _ Hg).
  assert (u32 (Z.shiftl (u32 (count + 1)) SegmentShift) = (count + 1) * SS) as ->.
  { rewrite (u32_small (count + 1)) by nia. rewrite Z.shiftl_mul_pow2, <-Hpow by lia. apply u32_small. nia. }
  rewrite (u32_small (count + 1)) by nia. unfold PhFppExtendRange. apply wp_or_bind. steps. destruct (NtExtendSection (clock p) ((count + 1) * SS)) eqn:Hext; steps; cbn [negb].
  2: { apply wp_or_wp. step. left. split; [done|]. split; [constructor; [by apply good_section|done]|]. split; [by apply moves_same|]. split; [done|by eexists]. }
  set (p1 := set_section _ _ p). assert (good count p1) as Hg1 by (apply good_section; [done|lia]).
  apply wp_or_bind. eapply (write_ok count p1 0); [done|exact Hm0|unfold at_count; lia|]. set (p2 := set_file _ p1).
  assert (good (count + 1) p2) as Hg2 by (apply good_grow; [done|cbn; lia|lia]).
  assert (writes (λ j o, j = 0 ∧ o = at_count) (file p) (file p2)) as Hw2 by (apply writes_one; [unfold at_count; lia|done]).
  apply wp_or_bind. eapply wp_mono; [apply (reference_refuses_ok (count + 1) p2 count); [done|lia|]; change (pins p2 count) with (pins p count); specialize (Hfew count); lia|].
  intros b p3 [(-> & _ & Hg3 & _ & _ & Hrefuse)|(Hg3 & Hm3 & Hf3 & Hmap3 & Hb)].
  { left. split; [|done]. assert (PhFppInitializeSegment SegmentShift 0 0 p3 = None) as Hnone; [|unfold mbind, ST_bind; by rewrite Hnone].
    unfold PhFppInitializeSegment, mbind, ST_bind. rewrite (write_low_fault (SegmentShift := SegmentShift) (MaximumInactiveViews := MaximumInactiveViews) (count + 1)); [done|exact Hg3|unfold Span; lia]. }
  destruct (new_segment_block count H0) as [Hhb Hfb]. apply wp_or_wp. step.
  assert (number_at (SegmentShift := SegmentShift) (file p3) count (at_bitmap count 0) 64 0) as Hzero.
  { intros k Hk. rewrite Hf3. destruct (links (P := P) count) as (L1 & L2 & L3 & L4 & L5 & L6 & L7 & L8). unfold FilePoolFacts.at_bitmap, FilePoolFacts.at_flink in *.
    rewrite Hw2 by lia. rewrite (fo_fresh _ _ _ Hfo) by lia. by rewrite Z.div_0_l by (apply Z.pow_nonzero; lia). }
  pose proof (initialize_segment_ok (count + 1) p3 count b Hg3 Hmap3 Hzero) as Hinit.
  rewrite Hhb, Z.mul_0_l, Z.add_0_r in Hinit. eapply wp_mono; [exact Hinit|]. clear Hinit. cbv beta. intros [] p4 (f & -> & Hg4 & Hseg & Hfree & Hfl & Hbl & Hw4).
  rewrite Hf3 in Hw4. destruct (grown_file count runs (file p) f Hfo H0) as (K1 & K2 & K3 & K4 & K5 & Khd & K6).
  { eapply writes_trans; [exact Hw2|exact Hw4|]. tauto. }
  { done. }
  assert (few 1 (set_file f p3)) as Hfew3.
  { intros j. change (pins (set_file f p3) j) with (pins p3 j). rewrite (moves_pins _ _ _ Hm3). change (pins p2 j) with (pins p j). specialize (Hfew j). pose proof (one_bounds count j). lia. }
  step. pose proof (insert_free_list_ok (count + 1) (set_file f p3) (assign (cat_of (file p)) count 8) 0 count b Hg4 Hfew3 K4
    ltac:(unfold assign; rewrite decide_True by done; lia) ltac:(lia) Hmap3) as Hins.
  rewrite Hhb, Z.mul_0_l, Z.add_0_r in Hins. eapply wp_mono; [exact Hins|]. clear Hins. cbv beta. intros r p5 (Hg5 & Hm5 & Hw5 & Hl5). cbn [file set_file] in Hw5, Hl5. step. right.
  assert (∀ i, word (file p5) i (at_free i) = word f i (at_free i)) as Hfr by (intros i; by apply (free_links (count + 1))).
  assert (cat_of (file p5) count = 0) as Hcat.
  { unfold cat_of. rewrite Hfr, Hfree, Hfb. unfold PhFppComputeFreeListIndex, PH_FP_BLOCK_COUNT. rewrite !(proj2 (Z.leb_le _ _)); [done|lia|change (2048 / 2) with 1024; lia|change (2048 / 64) with 32; lia]. }
  assert (moves (one count) p p3) as Hm03.
  { eapply (moves_ext (λ j, 0 + one count j)); [intros; lia|]. eapply (moves_trans _ _ _ p2); [intros; lia|by apply moves_same|exact Hm3]. }
  assert (moves (one count) p p5) as Hm05.
  { eapply (moves_ext (λ j, one count j + 0)); [intros; lia|]. eapply (moves_trans _ _ _ p3); [intros; lia|exact Hm03|exact (moves_from_file _ f p3 p5 Hm5)]. }
  assert (mapped count b p5) as Hmap5.
  { eapply (mapped_moves _ _ _ p3); [done|exact (moves_from_file _ f p3 p5 Hm5)|]. pose proof (mapped_pins _ _ _ Hmap3). lia. }
  assert (blocks_ok (count + 1) runs (file p5)) as Hb5 by (eapply blocks_links; [exact K1|exact K2|exact K3|exact Khd|lia|exact Hw5]).
  assert (kept runs (file p) (file p5)) as Hk5.
  { eapply kept_trans; [exact K5|]. intros i s n o Hr Ho. destruct (body_range _ _ _ _ _ _ _ Hfo Hr Ho) as (Hj & Hos & Hfb'). destruct (links (P := P) i) as (J1 & J2 & J3 & J4 & J5 & _).
    apply Hw5; [done|]. intros [[-> ?]|[_ [E|E]]]; lia. }
  exists b. destruct Hl5 as [[Hden Hfile]|Hl5]; [exists false|exists true]; split_and!; try done.
  - cbn. unfold loose. rewrite Hfile. split; [by eapply lists_heads|done].
  - right. exact (moves_denied _ _ _ _ Hm03 Hden).
  - cbn. eapply lists_ext; [|exact Hl5]. intros j Hj. unfold assign. case_decide as E; [by subst|]. unfold cat_of. by rewrite Hfr, K6 by lia.
  - by left.
Qed.
End Ops.
