(* ===== verification/FilePoolAlloc.v ===== *)
(** File pools: how allocations find their blocks. *)

From S2P Require Import Prelude Blocks FilePool FilePoolFacts FilePoolSegments FilePoolLists FilePoolOps.

Section Alloc.
Context {SegmentShift MaximumInactiveViews : Z} `{F : FileSystem, P : !PoolOk SegmentShift MaximumInactiveViews, FOk : !FileSystemOk F}.

Local Abbreviation SS := (SegmentSize SegmentShift).
Local Abbreviation BS := (BlockSize SegmentShift).
Local Abbreviation SHS := (SegmentHeaderBlockSpan SegmentShift).
Local Abbreviation word := (word (SegmentShift := SegmentShift)).
Local Abbreviation good := (good (SegmentShift := SegmentShift) (MaximumInactiveViews := MaximumInactiveViews)).
Local Abbreviation first_block := (first_block (SegmentShift := SegmentShift)).
Local Abbreviation header_block := (header_block (SegmentShift := SegmentShift)).
Local Abbreviation at_bitmap := (at_bitmap (SegmentShift := SegmentShift)).
Local Abbreviation at_free := (at_free (SegmentShift := SegmentShift)).
Local Abbreviation at_flink := (at_flink (SegmentShift := SegmentShift)).
Local Abbreviation at_blink := (at_blink (SegmentShift := SegmentShift)).
Local Abbreviation writes := (writes (SegmentShift := SegmentShift)).
Local Abbreviation is_link := (is_link (SegmentShift := SegmentShift)).
Local Abbreviation lists_ok := (lists_ok (SegmentShift := SegmentShift)).
Local Abbreviation seg_ok := (seg_ok (SegmentShift := SegmentShift)).
Local Abbreviation category := (PhFppComputeFreeListIndex SegmentShift).

Local Abbreviation cat_of := (cat_of (SegmentShift := SegmentShift)).
Local Abbreviation kept := (kept (SegmentShift := SegmentShift)).
Local Abbreviation file_ok := (file_ok (SegmentShift := SegmentShift)).
Local Abbreviation pool_ok := (pool_ok (SegmentShift := SegmentShift) (MaximumInactiveViews := MaximumInactiveViews)).
Local Abbreviation blocks_ok := (blocks_ok (SegmentShift := SegmentShift)).
Local Abbreviation listed := (listed (SegmentShift := SegmentShift)).
Local Abbreviation refuses := (refuses (SegmentShift := SegmentShift)).
Local Abbreviation pool_sound := (pool_sound (SegmentShift := SegmentShift) (MaximumInactiveViews := MaximumInactiveViews)).
Local Abbreviation pool_after := (pool_after (SegmentShift := SegmentShift) (MaximumInactiveViews := MaximumInactiveViews)).
Local Abbreviation took := (took (SegmentShift := SegmentShift) (MaximumInactiveViews := MaximumInactiveViews)).

(** ** Allocation *)
Lemma scan_new_segment_ok count runs n p : pool_ok count runs p → few 3 p → (count + 1) * SS < 2 ^ 32 → 1 ≤ n ≤ 2048 - SHS →
  wp_or (refuses count) (scan_new_segment SegmentShift MaximumInactiveViews n) (λ r p',
    (r = NotMapped ∧ pool_ok count runs p' ∧ moves (λ _, 0) p p' ∧ file p' = file p ∧ no_room (SegmentShift := SegmentShift) count) ∨
    ∃ s b f listing, r = Allocated (b + s * BS) count b (b + header_block count * BS + 16) (cat_of f count) ∧
      blocks_ok (count + 1) runs f ∧ listed listing (count + 1) count f ∧ (listing = true ∨ denied p p') ∧ kept runs (file p) f ∧
      took (count + 1) runs count s n b f p p') p.
Proof.
  intros Hpo Hfew H32 Hn. destruct (ok_count _ _ (good_cache _ _ (po_good _ _ _ Hpo))) as (H0 & _).
  unfold scan_new_segment. eapply wp_or_seq; [by apply (allocate_segment_ok count runs p)|].
  intros r p1 [(-> & H)|(b & listing & -> & Hb & Hg1 & Hm1 & Hmap & Hfo & Hlist & Hden & Hcat & Hk)]; apply wp_or_wp; [cbn [Z.eqb]; step; by left|]. cbn iota.
  destruct (Z.eqb_spec b 0); [lia|]. step. eapply header_segment_ok; [done|done|]. step.
  pose proof (sizes (P := P)) as (_ & _ & HSHS & _). eapply wp_mono; [apply (allocate_in_ok (count + 1) runs p p1 count b n); [done|apply (fo_segs _ _ _ Hfo); lia|done|done|lia]|].
  rewrite (fo_runs _ _ _ (po_file _ _ _ Hpo)) by lia. destruct (new_segment_block (SegmentShift := SegmentShift) count H0) as [_ Hfb].
  intros a p2 [(-> & -> & Hnone)|(s & -> & Ha & Hrf & Ht)].
  - exfalso. destruct (Hnone SHS ltac:(lia) ltac:(lia)) as (j & _ & s & m & Hs & _). by rewrite lookup_empty in Hs.
  - destruct (Z.eqb_spec (b + s * BS) 0); [lia|]. step. right. exists s, b, (file p1), listing. rewrite Hcat. split_and!; try done.
    destruct Hden as [?|Hden]; [by left|right]. by eapply denied_later.
Qed.

Definition blocks_for (Size : Z) : Z := (16 + Size + BS - 1) / BS.

Lemma blocks_for_ok Size : 0 ≤ Size → 1 ≤ blocks_for Size ∧ (blocks_for Size - 1) * BS < 16 + Size ≤ blocks_for Size * BS.
Proof.
  intros H. destruct (sizes (P := P)) as (HBS & _). unfold blocks_for. pose proof (Z.div_mod (16 + Size + BS - 1) BS ltac:(lia)).
  pose proof (Z.mod_pos_bound (16 + Size + BS - 1) BS ltac:(lia)). nia.
Qed.

Lemma number_of_blocks Size : 0 ≤ Size → 16 + Size + BS - 1 < 2 ^ 32 →
  Z.shiftr (u32 (Body + Size + BS - 1)) (BlockShift SegmentShift) = blocks_for Size.
Proof.
  intros H H32. destruct (layout (P := P)) as (HBS & _ & _ & _ & _ & _ & _ & Hpow). pose proof (shift_ok (PoolOk := P)). unfold Body.
  rewrite u32_small by lia. by rewrite Z.shiftr_div_pow2, <-Hpow by (unfold BlockShift; lia).
Qed.

Lemma encode_rva_ok count i b o : good count b → 0 ≤ i < count → 0 ≤ o < SS → ∀ a, PhFppEncodeRva SegmentShift i a (a + o) = i * SS + o.
Proof.
  intros Hg Hi Ho a. destruct (ok_count _ _ (good_cache _ _ Hg)) as (_ & _ & H32). destruct (layout (P := P)) as (HBS & HSS & _ & _ & _ & _ & Hpow & _).
  pose proof (shift_ok (PoolOk := P)). assert (SS * (i + 1) ≤ count * SS) by nia. unfold PhFppEncodeRva. replace (a + o - a) with o by lia.
  rewrite Z.shiftl_mul_pow2, <-Hpow by lia. rewrite (u32_small (i * SS)), (u32_small o), u32_small by nia. done.
Qed.

(** A run of blocks is found for an allocation. *)
Lemma find_run_of_blocks_ok count runs n p : pool_ok count runs p → few 4 p → (count + 1) * SS < 2 ^ 32 → 1 ≤ n ≤ 2048 - SHS →
  ∀ k, 0 ≤ k < 8 →
  wp_or (refuses count) (r ← scan_lists SegmentShift MaximumInactiveViews (S (Z.to_nat k)) n 0;
      match r with NotAllocated => scan_new_segment SegmentShift MaximumInactiveViews n | r => mret r end) (λ r p',
    (r = NotMapped ∧ pool_ok count runs p' ∧ moves (λ _, 0) p p' ∧ file p' = file p ∧ (no_room (SegmentShift := SegmentShift) count ∨ denied p p')) ∨
    ∃ count' i s b f listing, r = Allocated (b + s * BS) i b (b + header_block i * BS + 16) (cat_of f i) ∧ count ≤ count' ≤ count + 1 ∧
      blocks_ok count' runs f ∧ listed listing count' i f ∧ (listing = true ∨ denied p p') ∧ kept runs (file p) f ∧ took count' runs i s n b f p p') p.
Proof.
  intros Hpo Hfew H32 Hn k Hk. assert (few 3 p) as Hfew3 by (intros j; specialize (Hfew j); lia).
  apply wp_or_bind. eapply wp_mono; [apply (scan_lists_ok count runs n _ p 0); [done|intros j; specialize (Hfew j); lia|pose proof (sizes (P := P)); lia|lia|lia]|].
  intros r p1 [([->|[-> Hden]] & Hg1 & Hm1 & Hf1)|(i & s & b & -> & Ht)].
  - eapply wp_or_mono; [apply (scan_new_segment_ok count runs n p1); [by eapply pool_ok_cache| |done|done]|].
    { intros j. rewrite (moves_pins _ _ _ Hm1). specialize (Hfew3 j). lia. }
    intros r p2 [(-> & Hpo2 & Hm2 & Hf2 & Hr2)|(s & b & f & listing & -> & Hfo & Hlist & Hden & Hk2 & Ht)].
    + left. split_and!; [done|done| |congruence|by left]. eapply (moves_ext (λ j, 0 + 0)); [intros; lia|]. eapply moves_trans; [intros; lia|exact Hm1|exact Hm2].
    + right. exists (count + 1), count, s, b, f, listing. split; [done|]. split; [lia|]. split; [done|]. split; [done|].
      split; [destruct Hden as [?|Hden]; [by left|right; by eapply moves_denied]|]. split; [by rewrite <-Hf1|].
      destruct Ht as [T1 T2 T3 T4 T5 T6 T7 T8 T9]. constructor; try done.
      eapply (moves_ext (λ j, 0 + one count j)); [intros; lia|]. eapply moves_trans; [intros; lia|exact Hm1|exact T2].
  - apply wp_or_wp. step. left. split_and!; [done|by eapply pool_ok_cache|done|done|by right].
  - apply wp_or_wp. step. right. exists count, i, s, b, (file p), true. split; [done|]. split; [lia|]. split; [apply Hpo|]. split; [apply Hpo|].
    split; [by left|]. split; [by intros ????|done].
Qed.

(** What an allocation does when it succeeds: a run of blocks that are apart from all
    others, in a segment that gains a reference. *)
Definition allocation (count : Z) (runs : Z → gmap Z Z) (Size : Z) (p : PH_FILE_POOL) (r : Z * Z) (p' : PH_FILE_POOL) : Prop :=
  ∃ i s b n count', r = (b + (s * BS + 16), i * SS + (s * BS + 16)) ∧ count ≤ count' ≤ count + 1 ∧
    (n - 1) * BS < 16 + Size ≤ n * BS ∧ (∀ j, s ≤ j < s + n → ¬ in_runs (runs i) j) ∧
    pool_after count' (set_runs runs i (<[s := n]> (runs i))) p p' ∧ moves (one i) p p' ∧ mapped i b p' ∧ kept runs (file p) (file p').

Lemma allocate_ok count runs p Size :
  pool_ok count runs p → few 4 p → (count + 1) * SS < 2 ^ 32 → 0 ≤ Size → 16 + Size + BS - 1 < 2 ^ 32 →
  wp_or (refuses count) (PhAllocateFilePool SegmentShift MaximumInactiveViews Size) (λ r p',
    (r = (0, 0) ∧ pool_ok count runs p' ∧ moves (λ _, 0) p p' ∧ file p' = file p ∧
      (2048 - SHS < blocks_for Size ∨ no_room (SegmentShift := SegmentShift) count ∨ denied p p')) ∨
    allocation count runs Size p r p') p.
Proof.
  intros Hpo Hfew H32 H0 HS. destruct (blocks_for_ok Size H0) as (Hn1 & Hn). pose proof (sizes (P := P)) as (HBS & HSS & HSHS & _).
  unfold PhAllocateFilePool. rewrite number_of_blocks by done. unfold PH_FP_BLOCK_COUNT.
  destruct (Z.ltb_spec (2048 - SHS) (blocks_for Size)).
  { apply wp_or_wp. step. left. split_and!; [done|done|apply moves_refl|done|by left]. }
  pose proof (category_range (SegmentShift := SegmentShift) (blocks_for Size)) as Hc. apply wp_or_assoc.
  eapply wp_or_seq; [apply (find_run_of_blocks_ok count runs (blocks_for Size) p); [done|done|done|lia|exact Hc]|].
  intros r p1 [(-> & Hpo1 & Hm1 & Hf1 & Hr)|(count' & i & s & b & f & listing & -> & Hcount & Hfo & Hlist & Hden & Hk & Ht)]; apply wp_or_wp.
  { step. left. split_and!; [done|done|done|done|by right]. }
  assert (few 2 p1) as Hfew1 by (intros j; rewrite (moves_pins _ _ _ (tk_moves _ _ _ _ _ _ _ _ _ Ht)); specialize (Hfew j); pose proof (one_bounds i j); lia).
  apply wp_assoc. step. eapply wp_mono; [by apply (finish_ok listing count' runs i s (blocks_for Size) b f p p1)|].
  intros [] p2 (Hpo2 & Hm2 & Hmap2 & Hk2 & Hrf2 & Hl2). step. right. exists i, s, b, (blocks_for Size), count'. unfold Body. rewrite <-(Z.add_assoc b).
  destruct (tk_run _ _ _ _ _ _ _ _ _ Ht) as [Hs1 Hs2]. destruct (headers (P := P) i) as (_ & _ & _ & _ & _ & Hfb & _).
  rewrite (encode_rva_ok count' i p2 (s * BS + 16)); [|apply Hpo2|apply Ht|nia].
  split; [done|]. split; [lia|]. split; [lia|]. split; [apply Ht|]. split; [|split; [done|]; split; [done|by eapply kept_trans]].
  split; [done|]. destruct Hl2 as [Hl2|[->|?]]; [left|left|by right].
  - exact (moves_denied _ _ _ _ (tk_moves _ _ _ _ _ _ _ _ _ Ht) Hl2).
  - destruct Hden as [|Hden]; [done|]. by eapply denied_later.
Qed.

(** ** Freeing *)
Lemma free_in_ok count runs i s n b p : pool_ok count runs p → mapped i b p → few 2 p → runs i !! s = Some n →
  wp (PhpFreeFilePool SegmentShift MaximumInactiveViews i b (b + (s * BS + 16))) (λ _ p',
    pool_after count (set_runs runs i (delete s (runs i))) p p' ∧ moves (λ _, 0) p p' ∧ kept runs (file p) (file p')) p.
Proof.
  intros [Hg Hfo] Hmap Hfew Hr. destruct (mapped_range _ _ _ _ Hg Hmap) as [Hi Hb]. destruct (at_free_range (P := P) i) as [Hfr Hfl].
  unfold PhpFreeFilePool. step. eapply header_segment_ok; [done|done|]. step. rewrite <-(Z.add_assoc b), <-(Z.add_assoc b).
  replace (header_block i * BS + 16 + FreeBlocks) with (at_free i) by (unfold FreeBlocks, FilePoolFacts.at_free; lia).
  eapply read_ok; [done|done|lia|]. step. replace (PhFppGetHeaderBlock (b + (s * BS + 16))) with (b + s * BS) by (unfold PhFppGetHeaderBlock, Body; lia).
  eapply wp_mono; [rewrite Z.add_assoc; by apply (free_blocks_ok count p i b (runs i) s n); [| |apply (fo_segs _ _ _ Hfo)|]|].
  intros [] p1 (f & -> & Hg1 & Hs1 & Hfree & Hw1).
  pose proof (settle_ok true count runs i (delete s (runs i)) b (file p) (set_file f p) Hfo (fo_lists _ _ _ Hfo) Hg1 Hmap Hfew Hs1) as Hset.
  replace (b + at_free i) with (b + header_block i * BS + 16 + FreeBlocks) by (unfold FreeBlocks, FilePoolFacts.at_free; lia). rewrite (Z.add_assoc b).
  eapply wp_mono; [apply Hset|].
  { intros j o Ho Hn'. apply Hw1; [done|]. tauto. }
  intros [] p' (Hpo & Hm & Hw & Hl). split; [split; [done|by apply Hl]|]. split; [exact (moves_from_file _ f p p' Hm)|].
  intros j s' n' o Hr' Ho. destruct (body_range _ _ _ _ _ _ _ Hfo Hr' Ho) as (Hj & Hos & Hfb). destruct (links (P := P) j) as (J1 & J2 & J3 & J4 & J5 & J6 & J7 & J8).
  rewrite Hw; [|done|intros [[-> ?]|[_ [E|E]]]; lia]. apply Hw1; [done|]. intros [-> Hw']. unfold in_bitmap in Hw'. lia.
Qed.

(** The segment and the offset of a relative virtual address. *)
Lemma decode_rva_ok count runs p i o (Q : option (Z * Z) → PH_FILE_POOL → Prop) : pool_ok count runs p → 0 ≤ i → 0 ≤ o < SS →
  Q (if decide (i < count) then Some (o, i) else None) p → wp (PhFppDecodeRva SegmentShift (i * SS + o)) Q p.
Proof.
  intros [Hg Hfo] Hi Ho HQ. destruct (layout (P := P)) as (HBS & HSS & _ & _ & _ & _ & Hpow & _). pose proof (shift_ok (PoolOk := P)).
  unfold PhFppDecodeRva, Header. steps. unfold Body, SegmentCount. rewrite <-!Z.add_assoc. change (16 + 8) with at_count.
  eapply read_ok; [done|by eapply mapped_first|unfold at_count; lia|]. rewrite (good_count _ _ Hg). step.
  assert (Z.shiftr (i * SS + o) SegmentShift = i) as ->.
  { rewrite Z.shiftr_div_pow2, <-Hpow by lia. rewrite Z.div_add_l, Z.div_small by lia. lia. }
  assert (Z.land (i * SS + o) (SS - 1) = o) as ->.
  { rewrite Hpow, land_pow2, <-Hpow by lia. rewrite Z.add_comm, Z_mod_plus_full, Z.mod_small by lia. done. }
  destruct (Z.leb_spec count i); [rewrite decide_False in HQ by lia|rewrite decide_True in HQ by lia]; done.
Qed.

Lemma run_range count runs p i s n : pool_ok count runs p → runs i !! s = Some n → 0 ≤ i < count ∧ 128 ≤ s * BS ∧ s * BS + 16 < (s + n) * BS ≤ SS.
Proof.
  intros [Hg Hfo] Hr. destruct (sizes (P := P)) as (HBS & HSS & _). destruct (headers (P := P) i) as (_ & _ & _ & _ & _ & Hfb & _).
  assert (0 ≤ i < count) as Hi by (destruct (decide (0 ≤ i < count)); [done|]; rewrite (fo_runs _ _ _ Hfo i) in Hr; done).
  destruct (sg_runs _ _ _ (fo_segs _ _ _ Hfo i Hi) s n Hr) as (H1 & H2 & H3 & _). split; [done|]. nia.
Qed.

(** *** Views by address *)
Lemma find_mapped_ok count p i b o (Q : option Z → PH_FILE_POOL → Prop) : good count p → mapped i b p → 0 ≤ o < SS →
  Q (Some i) p → wp (PhFppFindViewByBase SegmentShift (b + o)) Q p.
Proof. intros Hg (v & Hv & <- & _). apply find_by_base_ok with count; [apply Hg|done]. Qed.

Lemma view_mapped_ok count p i b (Q : PH_FILE_POOL_VIEW → PH_FILE_POOL → Prop) : good count p → mapped i b p → (∀ w, Base w = b → Q w p) → wp (view i) Q p.
Proof. intros Hg (v & Hv & Hb & _) HQ. eapply wp_view; [done|by apply HQ]. Qed.

Lemma dereference_mapped_ok count p i : good count p → 0 < pins p i < 2 ^ 32 → (i = 0 → 1 < pins p i) →
  wp (PhFppDereferenceView MaximumInactiveViews i) (λ _ p', good count p' ∧ moves (λ j, - one i j) p p' ∧ file p' = file p) p.
Proof. intros Hg Hp Hi. eapply wp_mono; [by apply (dereference_view_good count)|]. intros [] p' (Hg' & Hd). split_and!; [done|by apply dereferenced_moves|apply Hd]. Qed.

(** A reference that was taken can be given back. *)
Lemma second_reference count p p' i : good count p → few 1 p → moves (one i) p p' → 0 < pins p' i < 2 ^ 32 ∧ (i = 0 → 1 < pins p' i).
Proof.
  intros Hg Hfew Hm. pose proof (moves_pins _ _ _ Hm i) as Hp. rewrite one_same in Hp. specialize (Hfew i). pose proof (pins_nonneg _ _ i (good_cache _ _ Hg)).
  split; [lia|]. intros ->. pose proof (mapped_pins _ _ _ (mapped_first _ _ Hg)). lia.
Qed.

Lemma moves_back i p p1 p2 p3 : moves (one i) p p1 → moves (λ _, 0) p1 p2 → moves (λ j, - one i j) p2 p3 → moves (λ _, 0) p p3.
Proof.
  intros H1 H2 H3. eapply (moves_ext (λ j, (one i j + 0) + - one i j)); [intros; lia|]. eapply (moves_trans _ _ _ p2); [|eapply moves_trans; [|exact H1|exact H2]|exact H3].
  - intros j. left. pose proof (one_bounds i j). lia.
  - intros j. lia.
Qed.
End Alloc.
