(* ===== verification/FilePoolCreate.v ===== *)
(** File pools: creation and destruction. *)

From S2P Require Import Prelude Blocks FilePool FilePoolFacts FilePoolSegments FilePoolLists FilePoolOps FilePoolAlloc.

Section Raw.
Context `{F : FileSystem, FOk : !FileSystemOk F}.

(** ** The header, mapped alone *)
Lemma raw_translate a n o p : mappings p = [Mapping a 0 n] → 0 ≤ o < n → translate (a + o) p = Some o.
Proof.
  intros Hm Ho. unfold translate. rewrite Hm. cbn [List.find]. unfold maps_address. cbn [MapBase MapSize].
  destruct (Z.leb_spec a (a + o)); [|lia]. destruct (Z.ltb_spec (a + o) (a + n)); [|lia]. cbn. f_equal. lia.
Qed.

Lemma raw_read a n o p (Q : Z → PH_FILE_POOL → Prop) : mappings p = [Mapping a 0 n] → 0 ≤ o < n → Q (default 0 (file p !! o)) p → wp (read32 (a + o)) Q p.
Proof. intros Hm Ho HQ. unfold wp, read32. rewrite (raw_translate a n) by done. cbn. eauto. Qed.

Lemma raw_write a n o x p (Q : unit → PH_FILE_POOL → Prop) : mappings p = [Mapping a 0 n] → 0 ≤ o < n → Q tt (set_file (<[o := x]> (file p)) p) → wp (write32 (a + o) x) Q p.
Proof. intros Hm Ho HQ. unfold wp, write32. rewrite (raw_translate a n) by done. cbn. eauto. Qed.

Lemma raw_write_words a s n : ∀ o V p, mappings p = [Mapping a 0 s] → 0 ≤ o → o + 4 * Z.of_nat n ≤ s →
  wp (write_words n (a + o) V) (λ _ p', ∃ f, p' = set_file f p ∧
    (∀ k, (k < n)%nat → f !! (o + 4 * Z.of_nat k) = Some (V / 2 ^ (32 * Z.of_nat k) mod 2 ^ 32)) ∧
    ∀ o', ¬ o ≤ o' < o + 4 * Z.of_nat n → f !! o' = file p !! o') p.
Proof.
  induction n as [|n IH]; intros o V p Hm Ho Hs; cbn [write_words].
  - step. exists (file p). split; [by destruct p|]. split; [lia|done].
  - step. eapply raw_write; [done|lia|]. rewrite <-Z.add_assoc.
    eapply wp_mono; [apply (IH (o + 4)); [exact Hm|lia|lia]|]. intros [] p' (f & -> & Hf & Hsame). cbn [file set_file] in Hsame. exists f. split; [done|]. split.
    + intros [|k] Hk.
      * rewrite Hsame by lia. change (o + 4 * Z.of_nat 0) with (o + 0). rewrite Z.add_0_r, lookup_insert_eq. change (2 ^ (32 * Z.of_nat 0)) with 1. by rewrite Z.div_1_r.
      * replace (o + 4 * Z.of_nat (S k)) with (o + 4 + 4 * Z.of_nat k) by lia. rewrite Hf, Z.div_div by lia. do 3 f_equal. rewrite <-Z.pow_add_r by lia. f_equal. lia.
    + intros o' Ho'. rewrite Hsame by lia. by rewrite lookup_insert_ne by lia.
Qed.

Lemma map_header p (Q : option Z → PH_FILE_POOL → Prop) : mappings p = [] → PAGE_SIZE ≤ section_size p →
  (∀ c, NtMapViewOfSection (clock p) (mappings p) 0 PAGE_SIZE = None → Q None (set_refused (S (refused p)) c p)) → (∀ b c, Q (Some b) (set_mappings [Mapping b 0 PAGE_SIZE] c p)) → wp (PhFppMapRange 0 PAGE_SIZE) Q p.
Proof.
  intros Hm Hs HN HQ. unfold PhFppMapRange. steps. destruct (Z.ltb_spec (section_size p) (0 + PAGE_SIZE)); [lia|].
  destruct (NtMapViewOfSection (clock p) (mappings p) 0 PAGE_SIZE) as [b|] eqn:Hb; steps; [|by apply HN]. rewrite Hm. by apply HQ.
Qed.

Lemma unmap_header b n p (Q : unit → PH_FILE_POOL → Prop) : mappings p = [Mapping b 0 n] → Q tt (set_mappings [] (clock p) p) → wp (PhFppUnmapRange b) Q p.
Proof. intros Hm HQ. unfold PhFppUnmapRange. apply wp_modify. rewrite Hm. cbn. by rewrite Z.eqb_refl. Qed.

(** What is written for a new file. *)
Definition new_header (shift : Z) (f : gmap Z Z) : Prop :=
  f !! 16 = Some PH_FP_MAGIC ∧ f !! 20 = Some shift ∧ f !! 24 = Some 1 ∧ (∀ c, 0 ≤ c < 8 → f !! (40 + 4 * c) = Some ULONG_NONE) ∧ ∀ o, 72 ≤ o → f !! o = None.

Lemma write_header_ok shift b p (Q : bool → PH_FILE_POOL → Prop) : mappings p = [Mapping b 0 PAGE_SIZE] → file p = ∅ → (∀ f, new_header shift f → Q true (set_file f p)) →
  wp (write32 (b + Body + Magic) PH_FP_MAGIC;;
      write32 (b + Body + SegmentShift_) shift;;
      write32 (b + Body + SegmentCount) 1;;
      write_words 8 (b + Body + FreeLists 0) (2 ^ 256 - 1);;
      mret true) Q p.
Proof.
  intros Hm Hf HQ. rewrite <-!(Z.add_assoc b). change (Body + Magic) with 16. change (Body + SegmentShift_) with 20. change (Body + SegmentCount) with 24. change (Body + FreeLists 0) with 40.
  assert (PAGE_SIZE = 4096) by done.
  step. eapply raw_write; [exact Hm|lia|]. step. eapply raw_write; [exact Hm|lia|]. step. eapply raw_write; [exact Hm|lia|]. rewrite Hf.
  step. eapply wp_mono; [eapply (raw_write_words b PAGE_SIZE 8 40); [exact Hm|lia|lia]|]. intros [] p' (f & -> & Hw & Hsame). cbn [file set_file] in Hsame. step. apply HQ.
  split; [|split; [|split; [|split]]].
  - rewrite Hsame by lia. by rewrite !lookup_insert_ne, lookup_insert_eq by lia.
  - rewrite Hsame by lia. by rewrite lookup_insert_ne, lookup_insert_eq by lia.
  - rewrite Hsame by lia. by rewrite lookup_insert_eq.
  - intros c Hc. specialize (Hw (Z.to_nat c) ltac:(lia)). rewrite Z2Nat.id in Hw by lia. rewrite Hw. f_equal.
    assert (∃ k, c = Z.of_nat k ∧ (k < 8)%nat) as (k & -> & Hk) by (exists (Z.to_nat c); lia). do 8 (destruct k as [|k]; [reflexivity|]). lia.
  - intros o Ho. rewrite Hsame by lia. rewrite !lookup_insert_ne by lia. apply lookup_empty.
Qed.
End Raw.

Section Create.
Context {SegmentShift MaximumInactiveViews : Z} `{F : FileSystem, P : !PoolOk SegmentShift MaximumInactiveViews, FOk : !FileSystemOk F}.

Local Abbreviation SS := (SegmentSize SegmentShift).
Local Abbreviation BS := (BlockSize SegmentShift).
Local Abbreviation SHS := (SegmentHeaderBlockSpan SegmentShift).
Local Abbreviation word := (word (SegmentShift := SegmentShift)).
Local Abbreviation good := (good (SegmentShift := SegmentShift) (MaximumInactiveViews := MaximumInactiveViews)).
Local Abbreviation first_block := (first_block (SegmentShift := SegmentShift)).
Local Abbreviation header_block := (header_block (SegmentShift := SegmentShift)).
Local Abbreviation at_bitmap := (at_bitmap (SegmentShift := SegmentShift)).
Local Abbreviation at_free := (at_free (SegmentShift := SegmentShift)).
Local Abbreviation at_flink := (at_flink (SegmentShift := SegmentShift)).
Local Abbreviation at_blink := (at_blink (SegmentShift := SegmentShift)).
Local Abbreviation writes := (writes (SegmentShift := SegmentShift)).
Local Abbreviation is_link := (is_link (SegmentShift := SegmentShift)).
Local Abbreviation lists_ok := (lists_ok (SegmentShift := SegmentShift)).
Local Abbreviation seg_ok := (seg_ok (SegmentShift := SegmentShift)).
Local Abbreviation category := (PhFppComputeFreeListIndex SegmentShift).

Local Abbreviation cat_of := (cat_of (SegmentShift := SegmentShift)).
Local Abbreviation kept := (kept (SegmentShift := SegmentShift)).
Local Abbreviation file_ok := (file_ok (SegmentShift := SegmentShift)).
Local Abbreviation pool_ok := (pool_ok (SegmentShift := SegmentShift) (MaximumInactiveViews := MaximumInactiveViews)).
Local Abbreviation took := (took (SegmentShift := SegmentShift) (MaximumInactiveViews := MaximumInactiveViews)).

Local Abbreviation cache_ok := (cache_ok (SegmentShift := SegmentShift)).
Local Abbreviation header_ok := (header_ok (SegmentShift := SegmentShift)).

(** ** The first segment *)

(** A pool that has no view. *)
Definition no_views (p : PH_FILE_POOL) : PH_FILE_POOL := set_inactive 0 [] (set_by_base [] (set_buckets (replicate 32 []) p)).

Lemma no_views_cache count p : mappings p = [] → Views p = ∅ → 0 < count → count * SS ≤ section_size p → count * SS ≤ 2 ^ 32 → cache_ok count (no_views p).
Proof.
  intros Hm Hv H0 Hs H32. constructor; cbn; rewrite ?Hm, ?Hv; try done.
  - intros i k b Hb. apply (lookup_replicate_1 32 (@nil Z)) in Hb as [-> _]. rewrite lookup_empty. split; [set_solver|]. intros [_ [? [=]]].
  - intros b i. split; [set_solver|]. intros (v & []%lookup_empty_Some & _).
  - constructor.
  - intros m. split; [set_solver|]. intros (i & v & []%lookup_empty_Some & _).
  - constructor.
  - intros i. split; [set_solver|]. intros (v & []%lookup_empty_Some & _).
Qed.

Lemma first_segment_ok count p (Q : Z → PH_FILE_POOL → Prop) : mappings p = [] → Views p = ∅ → 0 < count → count * SS ≤ section_size p → count * SS ≤ 2 ^ 32 →
  word (file p) 0 at_count = count →
  (∀ c, NtMapViewOfSection (clock p) [] 0 SS = None → Q 0 (set_refused (S (refused p)) c (no_views p))) →
  (∀ b p', good count (set_first_block b p') → file p' = file p → refused p' = refused p → (∀ j, pins p' j = one 0 j) → mapped 0 b p' → Q b p') →
  wp (PhFppReferenceSegment SegmentShift 0) Q (no_views p).
Proof.
  intros Hm Hv H0 Hs H32 Hc HN HQ. pose proof (no_views_cache count p Hm Hv H0 Hs H32) as Hok. unfold PhFppReferenceSegment.
  cbn [Z.eqb]. step. step. cbn [negb]. step. eapply (find_view_ok (SegmentShift := SegmentShift) count); [done|]. cbn [Views no_views set_inactive set_by_base set_buckets]. rewrite Hv, decide_False by (rewrite lookup_empty; by intros [? [=]]).
  step. eapply wp_mono; [apply (create_view_ok count (no_views p) 0); [done|cbn; by rewrite Hv|lia]|].
  intros r p1 [(-> & Hr & c & ->)|(-> & Hok1 & (Hf & (Hsec & Hrf) & _) & Hn & b & Hb & Hv1)].
  { step. apply HN. cbn in Hr. by rewrite Hm in Hr. }
  cbn in Hv1. rewrite Hv in Hv1. step. apply (wp_view 0 (View 1 b)); [by rewrite Hv1|]. step. cbn [Base].
  apply HQ; [|exact Hf|exact Hrf| |exists (View 1 b); by rewrite Hv1].
  - constructor; cbn.
    + by destruct Hok1.
    + exists (View 1 b). cbn. by rewrite Hv1.
    + unfold bounded. cbn. rewrite Hn. cbn. apply (maximum_ok (PoolOk := P)).
    + by rewrite Hf.
  - intros j. unfold pins. cbn. rewrite Hv1. unfold one. case_decide as E; [subst; by rewrite lookup_insert_eq|]. by rewrite lookup_insert_ne, lookup_empty by done.
Qed.

Lemma new_word f i o : new_header SegmentShift f → 0 ≤ i → 0 ≤ o < SS → 0 < i ∨ 72 ≤ o → word f i o = 0.
Proof.
  intros (_ & _ & _ & _ & Hz) Hi Ho H. destruct (sizes (P := P)) as (HBS & HSS & _). unfold FilePoolFacts.word. by rewrite Hz by nia.
Qed.

Lemma new_count f : new_header SegmentShift f → word f 0 at_count = 1.
Proof. intros (_ & _ & H & _). unfold FilePoolFacts.word, at_count. by rewrite Z.mul_0_l, Z.add_0_l, H. Qed.

(** The first segment of a new pool is alone in the second list: of its blocks, few belong to the headers. *)
Lemma new_file_ok f f1 : new_header SegmentShift f →
  writes (λ j o, j = 0 ∧ (o = 4 ∨ at_list 1 = o ∨ o = header_block 0 * BS + 4 ∨ at_bitmap 0 0 ≤ o ≤ at_blink 0)) f f1 → seg_ok f1 0 ∅ →
  word f1 0 (at_list 1) = 0 → word f1 0 (at_free 0) = 2048 - first_block 0 → word f1 0 (at_flink 0) = ULONG_NONE → word f1 0 (at_blink 0) = ULONG_NONE →
  file_ok 1 (λ _, ∅) f1.
Proof.
  intros Hn Hw Hs Hlist Hfree Hflink Hblink. destruct (links (P := P) 0) as (L1 & L2 & L3 & L4 & L5 & L6 & L7 & L8). destruct (headers (P := P) 0) as (H1 & H2 & H3 & H4 & H5 & H6 & H7).
  destruct (layout (P := P)) as (HBS & HSS & HF & HSHS & _). pose proof (sizes (P := P)) as (_ & _ & _ & HSB). assert (first_block 0 = 1 + SHS) as Hfb by (unfold FilePoolFacts.first_block, FilePoolFacts.header_block; cbn; lia).
  assert (∀ o, 0 ≤ o < 72 → o ≠ 4 → o ≠ at_list 1 → word f1 0 o = word f 0 o) as Hsame by (intros o Ho Ho1 Ho2; apply Hw; [lia|]; specialize (L5 eq_refl); specialize (L8 eq_refl); specialize (H7 eq_refl); lia).
  pose proof Hn as (N1 & N2 & N3 & N4 & N5). constructor; [constructor|].
  - intros i Hi. by assert (i = 0) as -> by lia.
  - intros i o Hi Ho. rewrite Hw by lia. apply new_word; [done|lia|lia|lia].
  - done.
  - split; rewrite Hsame by (unfold Magic, SegmentShift_, at_list; lia); unfold FilePoolFacts.word; rewrite Z.mul_0_l, Z.add_0_l; unfold Magic, SegmentShift_; [change (16 + 0) with 16; by rewrite N1|change (16 + 4) with 20; by rewrite N2].
  - intros c Hc. assert (cat_of f1 0 = 1) as Hcat.
    { unfold FilePoolOps.cat_of, PhFppComputeFreeListIndex. rewrite Hfree, Hfb. unfold PH_FP_BLOCK_COUNT. change (2048 / 64) with 32. change (2048 / 2) with 1024.
      destruct (Z.leb_spec 32 (2048 - (1 + SHS))); [|lia]. destruct (Z.leb_spec 1024 (2048 - (1 + SHS))); [|lia]. destruct (Z.leb_spec (2048 - SHS) (2048 - (1 + SHS))); [lia|done]. }
    destruct (decide (c = 1)) as [->|Hne]; [exists [0]|exists []]; split_and!.
    + exact Hlist.
    + cbn. by rewrite Hflink, Hblink.
    + apply NoDup_singleton.
    + intros i. rewrite list_elem_of_singleton. split; [intros ->; split; [lia|done]|]. intros [? _]. lia.
    + rewrite Hsame by (unfold at_list; lia). unfold FilePoolFacts.word. rewrite Z.mul_0_l, Z.add_0_l. unfold at_list. by rewrite N4 by lia.
    + done.
    + constructor.
    + intros i. split; [by intros ?%elem_of_nil|]. intros [Hi Hci]. exfalso. apply Hne. rewrite <-Hci. by assert (i = 0) as -> by lia.
Qed.

Lemma new_segment_ok b p : good 1 p → mapped 0 b p → FirstBlockOfFirstSegment p = b → new_header SegmentShift (file p) →
  wp (write32 (b + Span) (FileHeaderBlockSpan SegmentShift);;
      PhFppInitializeSegment SegmentShift (b + Z.shiftl (FileHeaderBlockSpan SegmentShift) (BlockShift SegmentShift)) (FileHeaderBlockSpan SegmentShift);;
      header ← Header;
      write32 (header + FreeLists 1) 0) (λ _ p', pool_ok 1 (λ _, ∅) p' ∧ ∀ j, pins p' j = pins p j) p.
Proof.
  intros Hg Hm Hb Hn. destruct (links (P := P) 0) as (L1 & L2 & L3 & L4 & L5 & L6 & L7 & L8). specialize (L5 eq_refl). specialize (L8 eq_refl).
  destruct (layout (P := P)) as (HBS & HSS & HF & HSHS & _ & _ & _ & HBpow). pose proof (shift_ok (PoolOk := P)).
  step. unfold Span. eapply write32_ok; [done|done|lia|unfold at_count; lia|]. intros f1 Hf1 Hg1.
  assert (Z.shiftl (FileHeaderBlockSpan SegmentShift) (BlockShift SegmentShift) = header_block 0 * BS) as ->
    by (rewrite Z.shiftl_mul_pow2, <-HBpow by (unfold BlockShift; lia); done).
  change (FileHeaderBlockSpan SegmentShift) with (header_block 0).
  step. eapply wp_mono; [apply (initialize_segment_ok 1 _ 0 b); [exact Hg1|exact Hm|]|].
  { intros k Hk. cbn [file set_file]. unfold FilePoolFacts.at_bitmap, FilePoolFacts.at_flink in *. rewrite Hf1 by lia. rewrite decide_False by lia. rewrite new_word by (done || lia). by rewrite Z.div_0_l by (apply Z.pow_nonzero; lia). }
  intros [] p2 (f & -> & Hg2 & Hseg & Hfree & Hflink & Hblink & Hw). cbn [file set_file] in Hw. unfold Header. steps. cbn [FirstBlockOfFirstSegment set_file]. rewrite Hb.
  replace (b + Body + FreeLists 1) with (b + at_list 1) by (unfold Body, FreeLists, at_list; lia).
  eapply write32_ok; [exact Hg2|exact Hm|unfold at_list; lia|unfold at_count, at_list; lia|]. intros f3 Hf3 Hg3. cbn [file set_file] in *. split; [|done].
  constructor; [done|]. cbn [file set_file].
  assert (∀ j o, 0 ≤ o < SS → ¬ (0 = j ∧ at_list 1 = o) → word f3 j o = word f j o) as Hsame by (intros j o Ho Hne; rewrite Hf3 by done; by rewrite decide_False).
  apply (new_file_ok (file p)); [done| | | | | |].
  - intros j o Ho Hne. rewrite Hsame by lia. rewrite Hw by lia. rewrite Hf1 by done. rewrite decide_False by lia. done.
  - eapply seg_frame; [exact Hseg|intros j o Ho Hne; apply (Hsame j o Ho Hne)| |by intros s n ?%lookup_empty_Some].
    intros o Ho [_ Hl]. unfold in_bitmap, at_list in *. lia.
  - rewrite Hf3 by (unfold at_list; lia). by rewrite decide_True.
  - destruct (at_free_range (P := P) 0). rewrite Hsame; [done|lia|unfold at_list; lia].
  - rewrite Hsame; [done|lia|unfold at_list; lia].
  - rewrite Hsame; [done|lia|unfold at_list; lia].
Qed.

(** ** Creating and opening *)
Definition chosen (Parameters : option (Z * Z)) : Z * Z :=
  match Parameters with
  | Some (shift, maximum) => (PhpValidateFilePoolParameters shift, maximum)
  | None => PhpSetDefaultFilePoolParameters
  end.

(** A file of which the first segment is refused, when it is to be mapped first. *)
Definition first_refused : Prop := ∃ c, NtMapViewOfSection c [] 0 SS = None.

Lemma write_unmapped q a x : mappings q = [] → write32 a x q = None.
Proof. intros Hm. unfold write32, translate. by rewrite Hm. Qed.

Lemma open_new_ok p : mappings p = [] → Views p = ∅ → new_header SegmentShift (file p) →
  wp_or first_refused (open_pool SegmentShift true) (λ r p',
    r = false ∧ (∃ c, NtExtendSection c SS = false) ∨ r = true ∧ pool_ok 1 (λ _, ∅) p' ∧ ∀ j, pins p' j = one 0 j) p.
Proof.
  intros Hm Hv Hn. destruct (sizes (P := P)) as (HBS & HSS & _). destruct (layout (P := P)) as (_ & _ & _ & _ & _ & H17 & _). assert (SS ≤ 2 ^ 32) by lia.
  unfold open_pool, PhFppExtendRange. apply wp_or_bind. steps. destruct (NtExtendSection (clock p) SS) eqn:Hext; steps; cbn [negb].
  2: { apply wp_or_wp. step. left. split; [done|by eexists]. }
  apply wp_or_bind, wp_modify, wp_or_bind. eapply (first_segment_ok 1 (set_section (Z.max (section_size p) SS) (S (clock p)) p)); [exact Hm|exact Hv|lia|cbn; lia|lia|by apply new_count| |].
  { intros c Hr. left. split; [|by eexists]. unfold modify, mbind, ST_bind. cbn [get_st put_st]. by rewrite write_unmapped by exact Hm. }
  intros b p1 Hg1 Hf1 _ Hp1 Hmap1. apply wp_or_wp. step. apply wp_modify. step. eapply wp_mono; [apply (new_segment_ok b (set_first_block b p1)); [done|exact Hmap1|done|]|].
  { cbn [file set_first_block]. rewrite Hf1. exact Hn. }
  intros [] p2 (Hpo & Hp2). step. right. split; [done|]. split; [done|]. intros j. rewrite Hp2. apply Hp1.
Qed.

(** A new file gets its header and its first segment; if that is refused, it is written at NULL. *)
Lemma create_new_ok Parameters p : chosen Parameters = (SegmentShift, MaximumInactiveViews) →
  file p = ∅ → mappings p = [] → Views p = ∅ → section_size p < PAGE_SIZE →
  wp_or first_refused (PhCreateFilePool false Parameters) (λ r p',
    r = None ∧ ((∃ c, NtExtendSection c SS = false) ∨ denied p p') ∨
    r = Some (SegmentShift, MaximumInactiveViews) ∧ pool_ok 1 (λ _, ∅) p' ∧ ∀ j, pins p' j = one 0 j) p.
Proof.
  intros Hch Hf Hm Hv Hs. unfold PhCreateFilePool. fold (chosen Parameters). rewrite Hch. apply wp_or_bind. step.
  destruct (Z.ltb_spec (section_size p) PAGE_SIZE); [|lia]. cbn [andb]. apply wp_or_bind. step. apply wp_or_bind.
  eapply map_header; [exact Hm|cbn; lia| |].
  { intros c Hr. apply wp_or_wp. step. left. split; [done|]. right. split; [cbn; lia|by eexists _, _, _, _]. }
  intros b c. apply wp_or_bind. eapply (write_header_ok SegmentShift b); [done|exact Hf|]. intros f Hn. cbn [negb].
  apply wp_or_bind. rewrite <-Z.add_assoc. eapply raw_read; [done|unfold Body, SegmentShift_, PAGE_SIZE; lia|]. cbn [file set_file]. destruct Hn as (N1 & N2 & N3). change (Body + SegmentShift_) with 20. rewrite N2. cbn [default from_option id].
  apply wp_or_bind. eapply unmap_header; [done|]. eapply wp_or_seq; [apply open_new_ok; [done|exact Hv|done]|].
  intros r p' [(-> & He)|(-> & H')]; apply wp_or_wp; step; [left; split; [done|by left]|by right].
Qed.

(** An existing file is opened; the header may be refused, and if the first segment is, the pool
    that is returned has none. *)
Lemma open_existing_ok count runs ReadOnly Parameters p : (chosen Parameters).2 = MaximumInactiveViews → file_ok count runs (file p) → word (file p) 0 at_count = count →
  0 < count → count * SS ≤ section_size p → count * SS ≤ 2 ^ 32 → mappings p = [] → Views p = ∅ →
  wp (PhCreateFilePool ReadOnly Parameters) (λ r p', file p' = file p ∧
    (r = None ∧ denied p p' ∨
     r = Some (SegmentShift, MaximumInactiveViews) ∧ denied p p' ∧ FirstBlockOfFirstSegment p' = 0 ∧ Views p' = ∅ ∨
     r = Some (SegmentShift, MaximumInactiveViews) ∧ refused p' = refused p ∧ pool_ok count runs p' ∧ ∀ j, pins p' j = one 0 j)) p.
Proof.
  intros Hch Hfo Hc H0 Hs H32 Hm Hv. destruct (sizes (P := P)) as (HBS & HSS & _). assert (PAGE_SIZE = 4096) as HPS by done.
  pose proof (fo_header _ _ _ Hfo) as [Hmagic Hshift]. unfold FilePoolFacts.word in Hmagic, Hshift. rewrite Z.mul_0_l, Z.add_0_l in Hmagic, Hshift.
  unfold PhCreateFilePool. fold (chosen Parameters). destruct (chosen Parameters) as [s0 m0] eqn:E. cbn in Hch. subst m0. step. step.
  destruct (Z.ltb_spec (section_size p) PAGE_SIZE); [nia|]. cbn [andb]. step. step. step.
  eapply map_header; [exact Hm|lia| |].
  { intros c Hr. step. split; [done|]. left. split; [done|]. split; [cbn; lia|by eexists _, _, _, _]. }
  intros b c. step. step. rewrite <-Z.add_assoc. eapply raw_read; [done|unfold Body, Magic; lia|]. change Body with 16. cbn [file set_mappings]. rewrite Hmagic. step. rewrite Z.eqb_refl. cbn [negb].
  step. rewrite <-Z.add_assoc. eapply raw_read; [done|unfold SegmentShift_; lia|]. cbn [file set_mappings]. rewrite Hshift.
  step. eapply unmap_header; [done|]. unfold open_pool. step. step. step. cbn [negb]. step. apply wp_modify. step.
  eapply (first_segment_ok count (set_mappings [] (clock (set_mappings [Mapping b 0 PAGE_SIZE] c p)) (set_mappings [Mapping b 0 PAGE_SIZE] c p))); [done|exact Hv|done|exact Hs|done|exact Hc| |].
  { intros c' Hr. step. apply wp_modify. steps. split; [done|]. right. left. split; [done|]. split; [split; [cbn; lia|by eexists _, _, _, _]|]. split; [done|exact Hv]. }
  intros b1 p1 Hg1 Hf1 Hrf1 Hp1 _. step. apply wp_modify. steps. split; [exact Hf1|]. right. right. split; [done|]. split; [exact Hrf1|]. split; [|exact Hp1].
  constructor; [done|]. cbn [file set_first_block]. rewrite Hf1. exact Hfo.
Qed.

(** ** Destruction *)

(** The structures are freed; a pool that is made for the file starts from zeros. *)
Definition closed (p : PH_FILE_POOL) : PH_FILE_POOL := FilePool [] [] ∅ 0 [] 0 (mappings p) (file p) (section_size p) (clock p) (refused p).

Lemma unmap_views_ok l : ∀ p, (∀ i, i ∈ l → is_Some (Views p !! i)) →
  wp (unmap_views l) (λ _ p', Views p' = Views p ∧ file p' = file p ∧ (section_size p' = section_size p ∧ refused p' = refused p) ∧
    ∀ m, m ∈ mappings p' → m ∈ mappings p ∧ ∀ i v, i ∈ l → Views p !! i = Some v → MapBase m ≠ Base v) p.
Proof.
  induction l as [|i l IH]; intros p Hl; cbn [unmap_views]; [step; set_solver|].
  destruct (Hl i ltac:(set_solver)) as [v Hv]. step. eapply wp_view; [exact Hv|]. step. unfold PhFppUnmapRange. apply wp_modify.
  eapply wp_mono; [apply IH; cbn; intros j Hj; apply Hl; set_solver|]. cbn. intros [] p' (-> & -> & (-> & ->) & Hm). split_and!; [done|done|done|done|].
  intros m [Hin Hne]%Hm. apply list_elem_of_In, List.filter_In in Hin as [Hin%list_elem_of_In Hb]. split; [done|].
  intros j w [->|Hj]%elem_of_cons Hw; [|by eapply Hne]. rewrite Hv in Hw. injection Hw as <-. by apply negb_true_iff, Z.eqb_neq in Hb.
Qed.

Lemma destroy_ok count p : good count p →
  wp PhDestroyFilePool (λ _ p', mappings p' = [] ∧ file p' = file p ∧ section_size p' = section_size p ∧ refused p' = refused p) p.
Proof.
  intros Hg. pose proof (good_cache _ _ Hg) as Hok. unfold PhDestroyFilePool. step. step.
  assert (∀ i, i ∈ concat (ByIndexBuckets p) ↔ is_Some (Views p !! i)) as Hin.
  { intros i. rewrite list_elem_of_In, List.in_concat. split.
    - intros (k & Hk & Hi). apply list_elem_of_In, list_elem_of_lookup in Hk as [n Hk]. apply list_elem_of_In in Hi. by apply (ok_bucket _ _ Hok i n k).
    - intros Hi. destruct (bucket_exists _ _ i Hok) as [k Hk]. exists k. split; [apply list_elem_of_In, list_elem_of_lookup; eauto|]. apply list_elem_of_In, (ok_bucket _ _ Hok i _ _ Hk). done. }
  eapply wp_mono; [apply unmap_views_ok; intros i; apply Hin|]. intros [] p' (Hv & Hf & [Hs Hrf] & Hm). split; [|done].
  destruct (mappings p') as [|m ms]; [done|]. exfalso. destruct (Hm m ltac:(set_solver)) as [Hmp Hne]. apply (ok_mappings _ _ Hok) in Hmp as (i & v & Hiv & ->).
  eapply Hne; [apply Hin; eauto|exact Hiv|done].
Qed.
End Create.
