(* ===== verification/FilePoolSystem.v ===== *)
(** File pools: a system that keeps the promises the theorems ask for, to run the code on. *)

From S2P Require Import Prelude FilePool FilePoolFacts.

(** The first run of clear bits; the hint is not used. *)
Definition find_run (b n : Z) : option Z :=
  (λ k, Z.of_nat k) <$> List.find (λ k, Z.land (Z.shiftr b (Z.of_nat k)) (Z.ones n) =? 0) (seq 0 (Z.to_nat (2048 - n + 1))).

Definition mark (b s n : Z) : Z := Z.lor b (Z.shiftl (Z.ones n) s).

(** Mappings are placed after the others. *)
Definition free_address (ms : list mapping) : Z := foldr (λ m a, Z.max (MapBase m + MapSize m) a) 65536 ms.

Definition windows : FileSystem := {|
  RtlSetBits := mark;
  RtlClearBits b s n := Z.ldiff b (Z.shiftl (Z.ones n) s);
  RtlFindClearBitsAndSet b n _ := (λ i, (i, mark b i n)) <$> find_run b n;
  NtExtendSection _ _ := true;
  NtMapViewOfSection _ ms _ _ := Some (free_address ms);
|}.

Lemma run_bits n s j : 0 ≤ n → 0 ≤ s → 0 ≤ j → Z.testbit (Z.shiftl (Z.ones n) s) j = (s <=? j) && (j <? s + n).
Proof.
  intros Hn Hs Hj. rewrite Z.shiftl_spec by done. destruct (Z.leb_spec s j); [|by rewrite Z.testbit_neg_r by lia].
  rewrite Z.testbit_ones by done. destruct (Z.leb_spec 0 (j - s)); [|lia]. cbn [andb]. destruct (Z.ltb_spec (j - s) n), (Z.ltb_spec j (s + n)); lia.
Qed.

Lemma ones_range s n : 0 ≤ s → 0 ≤ n → s + n ≤ 2048 → 0 ≤ Z.shiftl (Z.ones n) s < 2 ^ 2048.
Proof.
  intros Hs Hn H. assert (0 ≤ Z.ones n) by (rewrite Z.ones_equiv; pose proof (Z.pow_pos_nonneg 2 n); lia). rewrite Z.shiftl_mul_pow2 by done.
  rewrite Z.ones_equiv in *. pose proof (Z.pow_pos_nonneg 2 s). pose proof (Z.pow_pos_nonneg 2 n). pose proof (Z.pow_le_mono_r 2 (s + n) 2048). rewrite Z.pow_add_r in * by done. nia.
Qed.

Lemma lor_range a b n : 0 ≤ n → 0 ≤ a < 2 ^ n → 0 ≤ b < 2 ^ n → 0 ≤ Z.lor a b < 2 ^ n.
Proof.
  intros Hn Ha Hb. assert (0 ≤ Z.lor a b) by (apply Z.lor_nonneg; lia). split; [done|].
  destruct (decide (Z.lor a b = 0)) as [->|Hz]; [lia|]. apply Z.log2_lt_pow2; [lia|]. rewrite Z.log2_lor by lia. 
  assert (∀ x, 0 ≤ x < 2 ^ n → x = 0 ∨ Z.log2 x < n) as Hlog by (intros x Hx; destruct (decide (x = 0)); [by left|right; apply Z.log2_lt_pow2; lia]).
  destruct (decide (n = 0)) as [->|]; [change (2 ^ 0) with 1 in *; assert (a = 0) as -> by lia; assert (b = 0) as -> by lia; done|].
  destruct (Hlog a Ha) as [->|?], (Hlog b Hb) as [->|?]; change (Z.log2 0) with 0; lia.
Qed.

Lemma clear_run b n k : 0 ≤ b → 0 ≤ n → 0 ≤ k → Z.land (Z.shiftr b k) (Z.ones n) = 0 ↔ ∀ j, k ≤ j < k + n → Z.testbit b j = false.
Proof.
  intros Hb Hn Hk. split.
  - intros H j Hj. apply (f_equal (λ x, Z.testbit x (j - k))) in H. rewrite Z.land_spec, Z.shiftr_spec, Z.testbit_ones, Z.testbit_0_l in H by lia.
    replace (j - k + k) with j in H by lia. destruct (Z.leb_spec 0 (j - k)); [|lia]. destruct (Z.ltb_spec (j - k) n); [|lia]. by rewrite andb_true_r in H.
  - intros H. apply Z.bits_inj'. intros j Hj. rewrite Z.land_spec, Z.shiftr_spec, Z.testbit_ones, Z.testbit_0_l by lia.
    destruct (Z.leb_spec 0 j); [|lia]. destruct (Z.ltb_spec j n); [|by rewrite andb_false_r]. by rewrite H by lia.
Qed.

Lemma find_run_some b n i : 0 ≤ b → 0 ≤ n → find_run b n = Some i → 0 ≤ i ∧ i + n ≤ 2048 ∧ ∀ j, i ≤ j < i + n → Z.testbit b j = false.
Proof.
  intros Hb Hn. unfold find_run. intros (k & Hf & ->)%fmap_Some. apply List.find_some in Hf as [Hin%List.in_seq Hz%Z.eqb_eq].
  split; [lia|]. split; [lia|]. apply clear_run; [done|done|lia|done].
Qed.

Lemma find_run_none b n : 0 ≤ b → 0 ≤ n → find_run b n = None → ∀ i, 0 ≤ i → i + n ≤ 2048 → ∃ j, i ≤ j < i + n ∧ Z.testbit b j = true.
Proof.
  intros Hb Hn Hf i Hi Hin. unfold find_run in Hf. apply fmap_None in Hf.
  pose proof (List.find_none _ _ Hf (Z.to_nat i) ltac:(apply List.in_seq; lia)) as Hz. cbv beta in Hz. rewrite Z2Nat.id in Hz by done. apply Z.eqb_neq in Hz.
  destruct (decide (Forall (λ k, Z.testbit b k = false) (seqZ i n))) as [Hall|Hex].
  - destruct Hz. apply clear_run; [done|done|done|]. intros j Hj. rewrite Forall_forall in Hall. apply Hall, elem_of_seqZ. lia.
  - apply not_Forall_Exists in Hex; [|apply _]. apply Exists_exists in Hex as (k & Hk%elem_of_seqZ & Ht). exists k. split; [lia|]. cbn in Ht. by destruct (Z.testbit b k).
Qed.

Lemma free_address_ok ms : 2 ^ 16 ≤ free_address ms ∧ ∀ m, m ∈ ms → MapBase m + MapSize m ≤ free_address ms.
Proof.
  unfold free_address. induction ms as [|m ms [IH1 IH2]]; cbn; [split; [lia|set_solver]|]. split; [lia|].
  intros m' [->|Hm]%elem_of_cons; [lia|]. specialize (IH2 m' Hm). lia.
Qed.

Lemma windows_ok : FileSystemOk windows.
Proof.
  constructor; cbn.
  - intros b s n j _ Hs Hn _ Hj. unfold mark. by rewrite Z.lor_spec, run_bits.
  - intros b s n Hb Hs Hn H. unfold mark. apply lor_range; [done|done|by apply ones_range].
  - intros b s n j _ Hs Hn _ Hj. by rewrite Z.ldiff_spec, run_bits.
  - intros b s n Hb Hs Hn H. assert (0 ≤ Z.ldiff b (Z.shiftl (Z.ones n) s) ≤ b); [|lia].
    apply Z.ldiff_le; [lia|]. apply Z.bits_inj'. intros j Hj. rewrite !Z.ldiff_spec, Z.testbit_0_l. by destruct (Z.testbit b j), (Z.testbit _ j).
  - intros b n h i b' Hb Hn (k & Hf & [= -> ->])%fmap_Some. destruct (find_run_some b n k ltac:(lia) ltac:(lia) Hf) as (? & ? & ?). done.
  - intros b n h Hb Hn Hf%fmap_None. by apply find_run_none; [lia|lia|].
  - intros c ms o s base [= <-]. destruct (free_address_ok ms) as [H0 Hms]. split; [done|]. intros m Hm. right. by apply Hms.
Qed.
