(* ===== verification/FilePoolTheorems.v ===== *)
(** File pools: the theorems. *)

From S2P Require Import Prelude Blocks FilePool FilePoolFacts FilePoolSegments FilePoolLists FilePoolOps FilePoolAlloc FilePoolCreate FilePoolSystem.

Section Theorems.
Context {SegmentShift MaximumInactiveViews : Z} `{F : FileSystem, P : !PoolOk SegmentShift MaximumInactiveViews, FOk : !FileSystemOk F}.

Local Abbreviation SS := (SegmentSize SegmentShift).
Local Abbreviation BS := (BlockSize SegmentShift).
Local Abbreviation SHS := (SegmentHeaderBlockSpan SegmentShift).
Local Abbreviation word := (word (SegmentShift := SegmentShift)).
Local Abbreviation good := (good (SegmentShift := SegmentShift) (MaximumInactiveViews := MaximumInactiveViews)).
Local Abbreviation first_block := (first_block (SegmentShift := SegmentShift)).
Local Abbreviation header_block := (header_block (SegmentShift := SegmentShift)).
Local Abbreviation at_bitmap := (at_bitmap (SegmentShift := SegmentShift)).
Local Abbreviation at_free := (at_free (SegmentShift := SegmentShift)).
Local Abbreviation at_flink := (at_flink (SegmentShift := SegmentShift)).
Local Abbreviation at_blink := (at_blink (SegmentShift := SegmentShift)).
Local Abbreviation writes := (writes (SegmentShift := SegmentShift)).
Local Abbreviation is_link := (is_link (SegmentShift := SegmentShift)).
Local Abbreviation lists_ok := (lists_ok (SegmentShift := SegmentShift)).
Local Abbreviation seg_ok := (seg_ok (SegmentShift := SegmentShift)).
Local Abbreviation category := (PhFppComputeFreeListIndex SegmentShift).

Local Abbreviation cat_of := (cat_of (SegmentShift := SegmentShift)).
Local Abbreviation kept := (kept (SegmentShift := SegmentShift)).
Local Abbreviation file_ok := (file_ok (SegmentShift := SegmentShift)).
Local Abbreviation pool_ok := (pool_ok (SegmentShift := SegmentShift) (MaximumInactiveViews := MaximumInactiveViews)).
Local Abbreviation took := (took (SegmentShift := SegmentShift) (MaximumInactiveViews := MaximumInactiveViews)).

Local Abbreviation refuses := (refuses (SegmentShift := SegmentShift)).
Local Abbreviation pool_after := (pool_after (SegmentShift := SegmentShift) (MaximumInactiveViews := MaximumInactiveViews)).
Local Abbreviation no_room := (no_room (SegmentShift := SegmentShift)).
Local Abbreviation allocation := (allocation (SegmentShift := SegmentShift) (MaximumInactiveViews := MaximumInactiveViews)).
Local Abbreviation blocks_for := (blocks_for (SegmentShift := SegmentShift)).

(** C31. For segment shifts from 18 to 28, sizes whose rounding does not wrap around in 32 bits,
    and a file that one more segment leaves below 4 GB: an allocation takes the fewest blocks
    that hold the header and the body, from a segment with enough clear bits in a row; these
    blocks are apart from all that are allocated, whose bodies are left alone, the segment gains
    a reference and stays mapped at the address that is returned, with the relative virtual
    address that belongs to it, and the bit maps and counts of free blocks agree again
    afterwards; so do the free lists, unless a mapping was refused on the way. NULL is the answer
    only if the size does not fit in a segment, the file cannot grow or a mapping was refused,
    and then nothing has changed. The one fault is that of a new segment whose mapping is
    refused: its header is written at NULL. *)
Theorem file_pool_allocate count runs p Size :
  pool_ok count runs p → few 4 p → (count + 1) * SS < 2 ^ 32 → 0 ≤ Size → 16 + Size + BS - 1 < 2 ^ 32 →
  wp_or (refuses count) (PhAllocateFilePool SegmentShift MaximumInactiveViews Size) (λ r p',
    (r = (0, 0) ∧ pool_ok count runs p' ∧ moves (λ _, 0) p p' ∧ file p' = file p ∧
      (2048 - SHS < blocks_for Size ∨ no_room count ∨ denied p p')) ∨
    allocation count runs Size p r p') p.
Proof. apply allocate_ok. Qed.

(** C32. A block that is freed by its address is free: its run of blocks can be allocated
    again, the reference that came with it is given back, and the bodies of the others are
    left alone, whether or not mappings are refused on the way; if none is, the free lists agree
    with the bit maps again. Segment shifts are from 18 to 28. *)
Theorem file_pool_free count runs p i s n b :
  pool_ok count runs p → few 2 p → runs i !! s = Some n → mapped i b p → (i = 0 → 1 < pins p i) →
  wp (PhFreeFilePool SegmentShift MaximumInactiveViews (b + (s * BS + 16))) (λ _ p',
    pool_after count (set_runs runs i (delete s (runs i))) p p' ∧ moves (λ j, - one i j) p p' ∧ kept runs (file p) (file p')) p.
Proof.
  intros Hpo Hfew Hr Hmap Hi0. pose proof (po_good _ _ _ Hpo) as Hg. destruct (run_range count runs p i s n Hpo Hr) as (Hi & Hs).
  unfold PhFreeFilePool. step. eapply find_mapped_ok; [done|done|lia|]. step. eapply view_mapped_ok; [done|done|]. intros w ->.
  step. eapply wp_mono; [by apply (free_in_ok count runs i s n b p)|]. intros [] p1 (Hpo1 & Hm1 & Hk1).
  pose proof (moves_pins _ _ _ Hm1 i) as Hp1. cbv beta in Hp1. pose proof (mapped_pins _ _ _ Hmap). specialize (Hfew i).
  eapply wp_mono; [apply (dereference_mapped_ok count p1 i); [apply Hpo1|lia|lia]|]. intros [] p2 (Hg2 & Hm2 & Hf2).
  split; [eapply pool_after_cache; [done|done|apply Hm2|done]|]. split; [|by rewrite Hf2]. eapply (moves_ext (λ j, 0 + - one i j)); [intros; lia|].
  eapply moves_trans; [intros; lia|exact Hm1|exact Hm2].
Qed.

(** A block is freed by its relative virtual address, mapped or not, without a change of
    references; an address after the last segment is refused, and so is one whose segment
    cannot be mapped. *)
Theorem file_pool_free_by_rva count runs p i s n :
  pool_ok count runs p → few 3 p →
  (runs i !! s = Some n →
   wp (PhFreeFilePoolByRva SegmentShift MaximumInactiveViews (i * SS + (s * BS + 16))) (λ r p',
     r = false ∧ denied p p' ∧ pool_ok count runs p' ∧ moves (λ _, 0) p p' ∧ file p' = file p ∨
     r = true ∧ pool_after count (set_runs runs i (delete s (runs i))) p p' ∧ moves (λ _, 0) p p' ∧ kept runs (file p) (file p')) p) ∧
  (∀ o, count ≤ i → 0 ≤ o < SS → PhFreeFilePoolByRva SegmentShift MaximumInactiveViews (i * SS + o) p = Some (false, p)).
Proof.
  intros Hpo Hfew. pose proof (po_good _ _ _ Hpo) as Hg. destruct (ok_count _ _ (good_cache _ _ Hg)) as (H0 & _). split.
  - intros Hr. destruct (run_range count runs p i s n Hpo Hr) as (Hi & Hs).
    unfold PhFreeFilePoolByRva. step. eapply (decode_rva_ok count runs); [done|lia|lia|]. rewrite decide_True by lia.
    step. eapply wp_mono; [apply (reference_ok count p i); [done|lia|]; specialize (Hfew i); lia|].
    intros b p1 [(-> & Hden & Hg1 & Hm1 & Hf1)|(Hg1 & Hm1 & Hf1 & Hmap1 & Hb)].
    { cbn [Z.eqb]. step. left. split; [done|]. split; [done|]. split; [by eapply pool_ok_cache|done]. }
    destruct (Z.eqb_spec b 0); [lia|].
    step. eapply wp_mono; [apply (free_in_ok count runs i s n b p1); [by eapply pool_ok_cache|done| |done]|].
    { intros j. rewrite (moves_pins _ _ _ Hm1). specialize (Hfew j). pose proof (one_bounds i j). lia. }
    intros [] p2 (Hpo2 & Hm2 & Hk2). rewrite Hf1 in Hk2.
    destruct (second_reference (SegmentShift := SegmentShift) (MaximumInactiveViews := MaximumInactiveViews) count p p2 i) as [Hp2 Hp2']; [done|intros j; specialize (Hfew j); lia|
      eapply (moves_ext (λ j, one i j + 0)); [intros; lia|]; eapply moves_trans; [intros; lia|exact Hm1|exact Hm2]|].
    step. eapply wp_mono; [apply (dereference_ok count p2 i); [apply Hpo2|done|done]|].
    intros [] p3 (Hg3 & Hm3 & Hf3). step. right. split; [done|]. split; [|split; [by eapply moves_back|by rewrite Hf3]].
    apply (pool_after_earlier count _ p p1); [apply Hm1|eapply pool_after_cache; [done|done|apply Hm3|done]].
  - intros o Hi Ho. apply wp_eq. unfold PhFreeFilePoolByRva. step. eapply (decode_rva_ok count runs); [done|lia|lia|]. rewrite decide_False by lia. by step.
Qed.

(** The relative virtual address of a part of an allocated block names it whether or not its
    segment is mapped: referencing it gives NULL, if the mapping is refused, or an address, which
    is encoded as the same relative virtual address and at which the same word is read, and the
    reference can be given back by the address. *)
Theorem file_pool_rva_roundtrip count runs p i s n o :
  pool_ok count runs p → few 1 p → runs i !! s = Some n → s * BS ≤ o < (s + n) * BS →
  wp (PhReferenceFilePoolByRva SegmentShift (i * SS + o)) (λ a p1,
    a = 0 ∧ denied p p1 ∧ pool_ok count runs p1 ∧ moves (λ _, 0) p p1 ∧ file p1 = file p ∨
    a ≠ 0 ∧ (∀ b, mapped i b p → a = b + o) ∧
    wp (rva ← PhEncodeRvaFilePool SegmentShift a;
        w ← read32 a;
        PhDereferenceFilePool SegmentShift MaximumInactiveViews a;;
        mret (rva, w)) (λ r p', r = (i * SS + o, word (file p) i o) ∧ pool_ok count runs p' ∧ moves (λ _, 0) p p' ∧ file p' = file p) p1) p.
Proof.
  intros Hpo Hfew Hr Ho. pose proof (po_good _ _ _ Hpo) as Hg. destruct (run_range count runs p i s n Hpo Hr) as (Hi & Hs).
  assert (0 < o < SS) as Ho' by lia. unfold PhReferenceFilePoolByRva. assert (0 ≤ i * SS) by nia. destruct (Z.eqb_spec (i * SS + o) 0); [lia|].
  step. eapply (decode_rva_ok count runs); [done|lia|lia|]. rewrite decide_True by lia.
  step. eapply wp_mono; [apply (reference_ok count p i); [done|lia|]; specialize (Hfew i); lia|].
  intros b p1 [(-> & Hden & Hg1 & Hm1 & Hf1)|(Hg1 & Hm1 & Hf1 & Hmap1 & Hb)].
  { step. left. split; [done|]. split; [done|]. split; [by eapply pool_ok_cache|done]. }
  destruct (Z.eqb_spec b 0); [lia|]. step. right. split; [lia|]. split.
  { intros b' Hb'. pose proof (mapped_moves _ _ _ _ _ Hb' Hm1) as Hm'. rewrite one_same in Hm'. pose proof (mapped_pins _ _ _ Hb').
    destruct Hm' as (v & Hv & <- & _); [lia|]. destruct Hmap1 as (v' & Hv' & <- & _). congruence. }
  unfold PhEncodeRvaFilePool. destruct (Z.eqb_spec (b + o) 0); [lia|].
  step. step. eapply find_mapped_ok; [done|done|lia|]. step. eapply view_mapped_ok; [done|done|]. intros w ->. step.
  rewrite (encode_rva_ok count i p1 o) by (done || lia). step. eapply read_ok; [done|done|lia|]. rewrite Hf1. step.
  unfold PhDereferenceFilePool, PhFppDereferenceSegmentByBase. step. eapply find_mapped_ok; [done|done|lia|].
  destruct (second_reference (SegmentShift := SegmentShift) (MaximumInactiveViews := MaximumInactiveViews) count p p1 i Hg Hfew Hm1) as [Hp1 Hp1'].
  eapply wp_mono; [by apply (dereference_mapped_ok count p1 i)|]. intros [] p2 (Hg2 & Hm2 & Hf2). step.
  split; [done|]. split; [apply (pool_ok_cache count runs p); [done|done|congruence]|]. split; [|congruence].
  eapply (moves_ext (λ j, one i j + - one i j)); [intros; lia|]. eapply moves_trans; [|exact Hm1|exact Hm2]. intros j. left. apply one_bounds.
Qed.


(** A size near the greatest of 32 bits is taken for a small one: the sum that rounds it up
    wraps around, and the block has fewer bytes than were asked for. *)
Theorem file_pool_large_sizes count runs p Size :
  pool_ok count runs p → few 4 p → (count + 1) * SS < 2 ^ 32 → 2 ^ 32 - 15 ≤ Size < 2 ^ 32 →
  wp_or (refuses count) (PhAllocateFilePool SegmentShift MaximumInactiveViews Size) (λ r p',
    r = (0, 0) ∨ allocation count runs 1 p r p') p.
Proof.
  intros Hpo Hfew H32 HS. destruct (layout (P := P)) as (HBS & _ & _ & _ & _ & H17 & _).
  replace (PhAllocateFilePool SegmentShift MaximumInactiveViews Size) with (PhAllocateFilePool SegmentShift MaximumInactiveViews 1).
  - eapply wp_or_mono; [apply (allocate_ok count runs p 1); [done|done|done|lia|lia]|]. intros r p' [(-> & _)|H]; [by left|by right].
  - unfold PhAllocateFilePool. rewrite (number_of_blocks (P := P) 1) by lia.
    assert (Z.shiftr (u32 (Body + Size + BS - 1)) (BlockShift SegmentShift) = 1) as ->.
    { destruct (layout (P := P)) as (_ & _ & _ & _ & _ & _ & _ & Hpow). pose proof (shift_ok (PoolOk := P)). rewrite Z.shiftr_div_pow2, <-Hpow by (unfold BlockShift; lia).
      unfold u32, Body. rewrite <-(Z.mod_unique (16 + Size + BS - 1) (2 ^ 32) 1 (16 + Size + BS - 1 - 2 ^ 32)) by lia.
      symmetry. apply (Z.div_unique _ _ _ (15 + Size - 2 ^ 32)); lia. }
    assert (blocks_for 1 = 1) as ->; [|done]. unfold FilePoolAlloc.blocks_for. symmetry. apply (Z.div_unique _ _ _ 16); lia.
Qed.
End Theorems.

(** ** Examples *)

(** A new file; the structure is filled with zeros. *)
Definition new_file : PH_FILE_POOL := FilePool [] [] ∅ 0 [] 0 [] ∅ 0 0 0.

#[local] Instance default_ok : PoolOk 18 128.
Proof. constructor; lia. Qed.

#[local] Existing Instance windows_ok.

Lemma new_pool : ∃ p, pool_ok (SegmentShift := 18) (MaximumInactiveViews := 128) 1 (λ _, ∅) p ∧ ∀ j, pins p j = one 0 j.
Proof.
  destruct (create_new_ok (F := windows) (SegmentShift := 18) (MaximumInactiveViews := 128) None new_file eq_refl eq_refl eq_refl eq_refl eq_refl) as [[_ (c & Hc)]|(r & p & _ & [(_ & [(c & Hc)|(_ & c & ms & o & s & Hc)])|(_ & H)])]; [done|done|done|].
  by exists p.
Qed.


(** A pool with a block, as an allocation of 100 bytes leaves it. *)
Lemma pool_with_block : ∃ count runs p i s n b, pool_ok (SegmentShift := 18) (MaximumInactiveViews := 128) count runs p ∧ few 4 p ∧
  runs i !! s = Some n ∧ mapped i b p ∧ (i = 0 → 1 < pins p i) ∧ 1 ≤ n.
Proof.
  destruct new_pool as (p & Hp & Hpins).
  assert (few 4 p) as Hfew by (intros j; rewrite Hpins; pose proof (one_bounds 0 j); lia).
  destruct (allocate_ok (F := windows) 1 (λ _, ∅) p 100 Hp Hfew ltac:(vm_compute; done) ltac:(lia) ltac:(vm_compute; done))
    as [[_ (c & ms & Hc)]|(r & p' & _ & [(_ & _ & _ & _ & [H|[(c & H)|(_ & c & ms & o & s & Hc)]])|(i & s & b & n & count' & _ & _ & Hn & _ & (_ & [(_ & c & ms & o & s' & Hc)|Hpo]) & Hm & Hmap & _)])];
    [done|done|done|done|done|].
  pose proof (moves_pins _ _ _ Hm) as Hp'. setoid_rewrite Hpins in Hp'. exists count', (set_runs (λ _, ∅) i (<[s := n]> ∅)), p', i, s, n, b.
  split_and!; [done| | |done| |].
  - intros j. rewrite Hp'. pose proof (one_bounds 0 j). pose proof (one_bounds i j). lia.
  - unfold set_runs. rewrite decide_True by done. apply lookup_insert_eq.
  - intros ->. rewrite Hp'. by vm_compute.
  - assert (BlockSize 18 = 128) as HB by done. rewrite HB in Hn. lia.
Qed.

Lemma file_pool_allocate_witness : ∃ p, pool_ok (SegmentShift := 18) (MaximumInactiveViews := 128) 1 (λ _, ∅) p ∧
  wp (PhAllocateFilePool (H := windows) 18 128 100) (λ r p', allocation (F := windows) (SegmentShift := 18) (MaximumInactiveViews := 128) 1 (λ _, ∅) 100 p r p') p.
Proof.
  destruct new_pool as (p & Hp & Hpins). exists p. split; [done|].
  assert (few 4 p) as Hfew by (intros j; rewrite Hpins; pose proof (one_bounds 0 j); lia).
  destruct (file_pool_allocate (F := windows) 1 (λ _, ∅) p 100 Hp Hfew ltac:(vm_compute; done) ltac:(lia) ltac:(vm_compute; done)) as [[_ (c & ms & Hc)]|Hw]; [done|].
  eapply wp_mono; [exact Hw|]. intros r p' [(_ & _ & _ & _ & [H|[(c & H)|(_ & c & ms & o & s & Hc)]])|H]; [by vm_compute in H|done|done|done].
Defined.

Lemma file_pool_free_witness : ∃ (runs : Z → gmap Z Z) p i s n b, runs i !! s = Some n ∧
  wp (PhFreeFilePool (H := windows) 18 128 (b + (s * BlockSize 18 + 16))) (λ _ p', ∃ count, pool_ok (SegmentShift := 18) (MaximumInactiveViews := 128) count (set_runs runs i (delete s (runs i))) p') p.
Proof.
  destruct pool_with_block as (count & runs & p & i & s & n & b & Hpo & Hfew & Hr & Hm & Hi & Hn). exists runs, p, i, s, n, b. split; [done|].
  eapply wp_mono; [apply (file_pool_free (F := windows) count runs p i s n b Hpo); [|done|done|done]|].
  - intros j. specialize (Hfew j). lia.
  - intros [] p' ((_ & [(_ & c & ms & o & s' & Hc)|H]) & _); [done|]. by exists count.
Defined.

Lemma file_pool_rva_roundtrip_witness : ∃ p i s,
  wp (a ← PhReferenceFilePoolByRva (H := windows) 18 (i * SegmentSize 18 + (s * BlockSize 18 + 16)); PhEncodeRvaFilePool 18 a)
    (λ rva _, rva = i * SegmentSize 18 + (s * BlockSize 18 + 16)) p.
Proof.
  destruct pool_with_block as (count & runs & p & i & s & n & b & Hpo & Hfew & Hr & Hm & Hi & Hn). exists p, i, s.
  assert (BlockSize 18 = 128) as HB by done.
  pose proof (file_pool_rva_roundtrip (F := windows) count runs p i s n (s * BlockSize 18 + 16) Hpo ltac:(intros j; specialize (Hfew j); lia) Hr ltac:(rewrite HB; lia)) as Hwp.
  step. eapply wp_mono; [exact Hwp|]. intros a p1 [(_ & (_ & c & ms & o & s' & Hc) & _)|(_ & _ & (r & p' & Hrun & Hr' & _))]; [done|].
  unfold wp. unfold mbind, ST_bind in Hrun. destruct (PhEncodeRvaFilePool _ a p1) as [[rva p2]|] eqn:He; [|done]. exists rva, p2. split; [done|].
  destruct (read32 a p2) as [[w p3]|]; [|done]. destruct (PhDereferenceFilePool _ _ a p3) as [[[] p4]|]; [|done]. injection Hrun as <- _. by injection Hr'.
Defined.


(** ** Limits *)

(** [n] allocations of a size; the last answer. *)
Fixpoint allocations (shift : Z) (n : nat) (Size : Z) : ST PH_FILE_POOL (Z * Z) :=
  match n with
  | O => mret (0, 0)
  | S O => PhAllocateFilePool (H := windows) shift 128 Size
  | S n => PhAllocateFilePool (H := windows) shift 128 Size;; allocations shift n Size
  end.

Definition create (shift : Z) : ST PH_FILE_POOL (option (Z * Z)) := PhCreateFilePool (H := windows) false (Some (shift, 128)).

Definition list_head (c : Z) : ST PH_FILE_POOL Z := header ← Header; read32 (header + FreeLists c).

(** At the limits of the parameters the code does not hold. With 16 as the segment shift,
    which is accepted, the file header is longer than its block: the head of the last free
    list is the span of the block after it, and as segments fill up two free lists have the
    same head. And the segment at which the offsets of the file wrap around is neither
    refused nor mapped: its first block is written through a null pointer. *)
Theorem file_pool_limits :
  (fst <$> (create 16;; list_head 7) new_file = Some (SegmentHeaderBlockSpan 16) ∧ SegmentHeaderBlockSpan 16 ≠ ULONG_NONE) ∧
  fst <$> (create 16;; allocations 16 10 (2037 * BlockSize 16 - 16);; allocations 16 1 (2036 * BlockSize 16 - 16);; allocations 16 1 16;;
           six ← list_head 6; seven ← list_head 7; mret (six, seven)) new_file = Some (10, 10) ∧
  (∃ a, fst <$> (create 28;; allocations 28 15 (2036 * BlockSize 28)) new_file = Some a ∧ a.1 ≠ 0) ∧
  (create 28;; allocations 28 16 (2036 * BlockSize 28)) new_file = None.
Proof. split_and!; [by vm_compute|by vm_compute|by vm_compute|eexists; split; [by vm_compute|done]|by vm_compute]. Qed.
