(* ===== verification/FileStream.v ===== *)
(** File streams (src/phlib/filestream.c, src/phlib/include/filestream.h): a buffer for
    reads or for writes between a caller and a file object, which keeps its own position
    or is told one. *)

From S2P Require Import Prelude Unicode.

(** ** What Windows does

    The services take the state of the file object and give the next. An operation that
    is pending is waited for; what it reads is there when it is over. *)
Record IO := { io_status : Z; wait_status : Z; isb_Status : Z; isb_Information : Z }.

Class FileObject := {
  Handle : Type;
  NtReadFile : Handle → Z → option Z → IO * list Z * Handle;
  NtWriteFile : Handle → list Z → option Z → IO * Handle;
  query_position : Handle → Z * Z;
  set_position : Handle → Z → Z * Handle;
  query_end_of_file : Handle → Z * Z;
  set_end_of_file : Handle → Z → Z * Handle;
  set_allocation : Handle → Z → Z * Handle;
  NtFlushBuffersFile : Handle → Z * Handle;
  NtLockFile : Handle → Z → Z → bool → bool → IO * Handle;
  NtUnlockFile : Handle → Z → Z → Z * Handle;
  PhAllocatePage : Z → bool;
}.

Definition STATUS_SUCCESS : Z := 0.
Definition STATUS_PENDING : Z := 0x103.
Definition STATUS_NO_MEMORY : Z := 0xC0000017.
Definition STATUS_INVALID_PARAMETER : Z := 0xC000000D.
Definition PAGE_SIZE : Z := 4096.

Definition PH_FILE_STREAM_HANDLE_UNOWNED : Z := 0x1.
Definition PH_FILE_STREAM_UNBUFFERED : Z := 0x2.
Definition PH_FILE_STREAM_ASYNCHRONOUS : Z := 0x4.
Definition PH_FILE_STREAM_OWN_POSITION : Z := 0x8.
Definition PH_FILE_STREAM_APPEND : Z := 0x10000.
Definition PH_FILE_STREAM_WRITTEN : Z := 0x80000000.

Inductive PH_SEEK_ORIGIN := SeekStart | SeekCurrent | SeekEnd.

Section Stream.
Context `{FileObject}.

(** [FileHandle] is the state of the file object. *)
Record PH_FILE_STREAM := FileStream {
  FileHandle : Handle;
  Flags : Z;
  Position : Z;
  Buffer : option (list Z);
  BufferLength : Z;
  ReadPosition : Z;
  ReadLength : Z;
  WritePosition : Z;
}.

Definition set_handle h s := FileStream h (Flags s) (Position s) (Buffer s) (BufferLength s) (ReadPosition s) (ReadLength s) (WritePosition s).
Definition set_flags f s := FileStream (FileHandle s) f (Position s) (Buffer s) (BufferLength s) (ReadPosition s) (ReadLength s) (WritePosition s).
Definition set_pos q s := FileStream (FileHandle s) (Flags s) q (Buffer s) (BufferLength s) (ReadPosition s) (ReadLength s) (WritePosition s).
Definition set_buffer b s := FileStream (FileHandle s) (Flags s) (Position s) b (BufferLength s) (ReadPosition s) (ReadLength s) (WritePosition s).
Definition set_read r l s := FileStream (FileHandle s) (Flags s) (Position s) (Buffer s) (BufferLength s) r l (WritePosition s).
Definition set_write w s := FileStream (FileHandle s) (Flags s) (Position s) (Buffer s) (BufferLength s) (ReadPosition s) (ReadLength s) w.

Definition has_flag (s : PH_FILE_STREAM) (flag : Z) : bool := negb (Z.land (Flags s) flag =? 0).

Local Abbreviation M := (ST PH_FILE_STREAM).
Definition update (f : PH_FILE_STREAM → PH_FILE_STREAM) : M unit := s ← get_st; put_st (f s).

(** The bytes of the buffer from [i] on; outside of it is a fault. *)
Definition buffer_get (i n : Z) : M (list Z) :=
  s ← get_st;
  match Buffer s with
  | Some b => if decide (0 ≤ i ∧ 0 ≤ n ∧ i + n ≤ Z.of_nat (length b)) then mret (take (Z.to_nat n) (drop (Z.to_nat i) b)) else fault
  | None => if decide (n = 0) then mret [] else fault
  end.

Definition buffer_set (i : Z) (x : list Z) : M unit :=
  s ← get_st;
  match Buffer s with
  | Some b => if decide (0 ≤ i ∧ i + Z.of_nat (length x) ≤ Z.of_nat (length b))
              then put_st (set_buffer (Some (take (Z.to_nat i) b ++ x ++ drop (Z.to_nat i + length x) b)) s) else fault
  | None => if decide (x = []) then mret tt else fault
  end.

(** The status of an operation when it is over. *)
Definition final (io : IO) : Z :=
  if io_status io =? STATUS_PENDING then
    if NT_SUCCESS (wait_status io) then isb_Status io else wait_status io
  else io_status io.

Definition PhpAllocateBufferFileStream : M Z :=
  s ← get_st;
  if PhAllocatePage (BufferLength s) then put_st (set_buffer (Some (replicate (Z.to_nat (BufferLength s)) 0)) s);; mret STATUS_SUCCESS
  else put_st (set_buffer None s);; mret STATUS_NO_MEMORY.

(** Reads give a status, the bytes that were copied, and the length if it is set. *)
Definition PhpReadFileStream (Length : Z) : M (Z * list Z * option Z) :=
  s ← get_st;
  let position := if has_flag s PH_FILE_STREAM_OWN_POSITION then Some (Position s) else None in
  let '(io, data, h) := NtReadFile (FileHandle s) Length position in
  let status := final io in
  put_st (set_handle h s);;
  if NT_SUCCESS status then
    update (λ s, set_pos (Position s + isb_Information io) s);;
    mret (status, data, Some (u32 (isb_Information io)))
  else mret (status, data, None).

Definition PhpWriteFileStream (bytes : list Z) : M Z :=
  s ← get_st;
  let position := if has_flag s PH_FILE_STREAM_OWN_POSITION then Some (Position s) else None in
  let '(io, h) := NtWriteFile (FileHandle s) bytes position in
  let status := final io in
  put_st (set_handle h s);;
  (if NT_SUCCESS status then
     update (λ s, set_pos (Position s + isb_Information io) s);;
     update (λ s, set_flags (Z.lor (Flags s) PH_FILE_STREAM_WRITTEN) s)
   else mret tt);;
  mret status.

Definition PhpFlushWriteFileStream : M Z :=
  s ← get_st;
  bytes ← buffer_get 0 (WritePosition s);
  status ← PhpWriteFileStream bytes;
  (if NT_SUCCESS status then update (set_write 0) else mret tt);;
  mret status.

Definition PhpSeekFileStream (Offset : Z) (Origin : PH_SEEK_ORIGIN) : M Z :=
  status ← match Origin with
           | SeekStart => update (set_pos Offset);; mret STATUS_SUCCESS
           | SeekCurrent => update (λ s, set_pos (Position s + Offset) s);; mret STATUS_SUCCESS
           | SeekEnd =>
               s ← get_st;
               let '(status, size) := query_end_of_file (FileHandle s) in
               (if NT_SUCCESS status then update (set_pos (size + Offset)) else mret tt);;
               mret status
           end;
  if negb (NT_SUCCESS status) then mret status
  else
    s ← get_st;
    if negb (has_flag s PH_FILE_STREAM_OWN_POSITION) then
      let '(status, h) := set_position (FileHandle s) (Position s) in
      put_st (set_handle h s);; mret status
    else mret status.

(** The value of a ULONG as a LONG. *)
Definition as_long (x : Z) : Z := if x <? 2 ^ 31 then x else x - 2 ^ 32.

Definition PhpFlushReadFileStream : M Z :=
  s ← get_st;
  let ahead := u32 (ReadLength s - ReadPosition s) in
  status ← (if negb (ahead =? 0) then PhpSeekFileStream (- as_long ahead) SeekCurrent else mret STATUS_SUCCESS);
  if negb (NT_SUCCESS status) then mret status
  else update (set_read 0 0);; mret status.

(** The rest of a read, when the buffer has [readLength] bytes for it. *)
Definition satisfy (status Length readLength : Z) : M (Z * list Z * option Z) :=
  let readLength := if Length <? readLength then Length else readLength in
  s ← get_st;
  data ← buffer_get (ReadPosition s) readLength;
  put_st (set_read (u32 (ReadPosition s + readLength)) (ReadLength s) s);;
  if (readLength <? Length) && (ReadLength s =? BufferLength s) then
    r ← PhpReadFileStream (u32 (Length - readLength));
    let '(status, data2, readLength2) := r in
    match readLength2 with
    | Some readLength2 => update (set_read 0 0);; mret (status, data ++ data2, Some (u32 (readLength + readLength2)))
    | None => mret (status, data ++ data2, None)
    end
  else mret (status, data, Some readLength).

Definition allocate_buffer : M Z :=
  s ← get_st;
  match Buffer s with
  | None => PhpAllocateBufferFileStream
  | Some _ => mret STATUS_SUCCESS
  end.

(** A read from a buffer that has nothing more. *)
Definition fill (Length : Z) : M (Z * list Z * option Z) :=
  s ← get_st;
  status ← (if negb (WritePosition s =? 0) then PhpFlushWriteFileStream else mret STATUS_SUCCESS);
  if negb (NT_SUCCESS status) then mret (status, [], None)
  else
    s ← get_st;
    if BufferLength s <=? Length then update (set_read 0 0);; PhpReadFileStream Length
    else
      status ← allocate_buffer;
      if negb (NT_SUCCESS status) then mret (status, [], None)
      else
        s ← get_st;
        r ← PhpReadFileStream (BufferLength s);
        let '(status, data, readLength) := r in
        buffer_set 0 data;;
        match readLength with
        | None => mret (status, [], None)
        | Some readLength =>
            if readLength =? 0 then mret (status, [], Some 0)
            else update (set_read 0 readLength);; satisfy status Length readLength
        end.

Definition PhReadFileStream (Length : Z) : M (Z * list Z * option Z) :=
  s ← get_st;
  if has_flag s PH_FILE_STREAM_UNBUFFERED then PhpReadFileStream Length
  else
    let availableLength := u32 (ReadLength s - ReadPosition s) in
    if availableLength =? 0 then fill Length
    else satisfy STATUS_SUCCESS Length availableLength.

(** The rest of a write, when the buffer is empty. *)
Definition write_rest (status : Z) (bytes : list Z) : M Z :=
  s ← get_st;
  let Length := Z.of_nat (length bytes) in
  if BufferLength s <=? Length then PhpWriteFileStream bytes
  else if negb (Length =? 0) then
    status ← allocate_buffer;
    if negb (NT_SUCCESS status) then mret status
    else buffer_set 0 bytes;; update (set_write Length);; mret status
  else mret status.

Definition PhWriteFileStream (bytes : list Z) : M Z :=
  s ← get_st;
  if has_flag s PH_FILE_STREAM_UNBUFFERED then PhpWriteFileStream bytes
  else
    status ← (if WritePosition s =? 0 then PhpFlushReadFileStream else mret STATUS_SUCCESS);
    if negb (NT_SUCCESS status) then mret status
    else
      s ← get_st;
      if negb (WritePosition s =? 0) then
        let Length := Z.of_nat (length bytes) in
        let availableLength := u32 (BufferLength s - WritePosition s) in
        let writtenLength := if Length <? availableLength then Length else availableLength in
        buffer_set (WritePosition s) (take (Z.to_nat writtenLength) bytes);;
        update (λ s, set_write (u32 (WritePosition s + writtenLength)) s);;
        if negb (availableLength =? 0) && (writtenLength =? Length) then mret status
        else
          status ← PhpFlushWriteFileStream;
          if negb (NT_SUCCESS status) then mret status
          else write_rest status (drop (Z.to_nat writtenLength) bytes)
      else write_rest status bytes.

Definition PhFlushFileStream (Full : bool) : M Z :=
  s ← get_st;
  status ← (if negb (WritePosition s =? 0) then PhpFlushWriteFileStream else mret STATUS_SUCCESS);
  if negb (NT_SUCCESS status) then mret status
  else
    s ← get_st;
    status ← (if negb (ReadPosition s =? 0) then PhpFlushReadFileStream else mret status);
    if negb (NT_SUCCESS status) then mret status
    else
      s ← get_st;
      if Full && has_flag s PH_FILE_STREAM_WRITTEN then
        let '(status, h) := NtFlushBuffersFile (FileHandle s) in
        put_st (set_handle h s);; mret status
      else mret status.

(** The difference has 32 bits without a sign. *)
Definition PhGetPositionFileStream : M Z :=
  s ← get_st;
  mret (Position s + u32 (ReadPosition s - ReadLength s) + WritePosition s).

Definition PhSeekFileStream (Offset : Z) (Origin : PH_SEEK_ORIGIN) : M Z :=
  s ← get_st;
  r ← (if negb (WritePosition s =? 0) then status ← PhpFlushWriteFileStream; mret (status, Offset)
       else if negb (ReadPosition s =? 0) then
         let offset := match Origin with
                       | SeekCurrent => Offset - u32 (ReadLength s - ReadPosition s)
                       | _ => Offset
                       end in
         put_st (set_read 0 0 s);; mret (STATUS_SUCCESS, offset)
       else mret (STATUS_SUCCESS, Offset));
  let '(status, offset) := r in
  if negb (NT_SUCCESS status) then mret status
  else PhpSeekFileStream offset Origin.

Definition PhVerifyFileStream : M unit :=
  s ← get_st;
  if Z.land (Flags s) (Z.lor PH_FILE_STREAM_OWN_POSITION PH_FILE_STREAM_ASYNCHRONOUS) =? 0 then
    let '(status, position) := query_position (FileHandle s) in
    if negb (NT_SUCCESS status) then fault
    else if negb (Position s =? position) then fault
    else mret tt
  else mret tt.

Definition PhLockFileStream (Offset Length : Z) (Wait Shared : bool) : M Z :=
  s ← get_st;
  let '(io, h) := NtLockFile (FileHandle s) Offset Length (negb Wait) (negb Shared) in
  put_st (set_handle h s);;
  mret (if io_status io =? STATUS_PENDING then isb_Status io else io_status io).

Definition PhUnlockFileStream (Offset Length : Z) : M Z :=
  s ← get_st;
  let '(status, h) := NtUnlockFile (FileHandle s) Offset Length in
  put_st (set_handle h s);; mret status.

Definition PhSetAllocationSizeFileStream (AllocationSize : Z) : M Z :=
  s ← get_st;
  let '(status, h) := set_end_of_file (FileHandle s) AllocationSize in
  put_st (set_handle h s);;
  if negb (NT_SUCCESS status) then mret status
  else
    s ← get_st;
    let '(status, h) := set_allocation (FileHandle s) AllocationSize in
    put_st (set_handle h s);; mret status.

(** ** Creation and deletion *)

Definition PhCreateFileStream2 (handle : Handle) (flags bufferLength : Z) : PH_FILE_STREAM :=
  FileStream handle flags 0 None (if Z.land flags PH_FILE_STREAM_UNBUFFERED =? 0 then bufferLength else 0) 0 0 0.

(** [opened] is what opening the file gave: a status, and the file object. *)
Definition PhCreateFileStream (opened : Z * Handle) (flags : Z) : option (Z * option PH_FILE_STREAM) :=
  let '(status, handle) := opened in
  if negb (NT_SUCCESS status) then Some (status, None)
  else
    let fileStream := PhCreateFileStream2 handle flags PAGE_SIZE in
    if negb (Z.land flags PH_FILE_STREAM_APPEND =? 0) then
      '(seek, fileStream) ← PhSeekFileStream 0 SeekEnd fileStream;
      Some (STATUS_SUCCESS, if NT_SUCCESS seek then Some fileStream else None)
    else Some (STATUS_SUCCESS, Some fileStream).

(** The file object at the end, and whether its handle is closed. *)
Definition PhpFileStreamDeleteProcedure (s : PH_FILE_STREAM) : option (Handle * bool) :=
  '(_, s) ← PhFlushFileStream false s;
  Some (FileHandle s, negb (has_flag s PH_FILE_STREAM_HANDLE_UNOWNED)).

(** ** Text

    The units of a string are converted a page at a time, into a page or into a new string. *)
Context `{NativeConversion}.

Definition convert_block (inPlaceUtf8 : bool) (block : list Z) : option (list Z) :=
  if inPlaceUtf8 then
    let '(written, bytesInUtf8String) := PhConvertUtf16ToUtf8Buffer (PAGE_SIZE / 2 * 4) block in
    n ← bytesInUtf8String; Some (take (Z.to_nat n) (filled n written))
  else PhConvertUtf16ToUtf8Ex block.

Fixpoint write_blocks (fuel : nat) (inPlaceUtf8 : bool) (text : list Z) : M Z :=
  match text, fuel with
  | [], _ => mret STATUS_SUCCESS
  | _, O => fault
  | _, S fuel =>
      let units := Z.to_nat (PAGE_SIZE / 2) in
      match convert_block inPlaceUtf8 (take units text) with
      | None => mret STATUS_INVALID_PARAMETER
      | Some utf8 =>
          status ← PhWriteFileStream utf8;
          if negb (NT_SUCCESS status) then mret status
          else write_blocks fuel inPlaceUtf8 (drop units text)
      end
  end.

Definition PhWriteStringAsUtf8FileStreamEx (text : list Z) : M Z :=
  let inPlaceUtf8 := (PAGE_SIZE <? 2 * Z.of_nat (length text)) && PhAllocatePage (PAGE_SIZE / 2 * 4) in
  write_blocks (length text) inPlaceUtf8 text.
End Stream.
