(* ===== verification/FileStreamFacts.v ===== *)
(** File streams: the bytes and the position that a stream stands for, and what its parts do to them. *)

From S2P Require Import Prelude Unicode FileStream.

(** ** Writing into a sequence of bytes

    Between the end and the place written to, a file has zeros. *)
Definition splice (c : list Z) (q : Z) (x : list Z) : list Z :=
  match x with
  | [] => c
  | _ => take (Z.to_nat q) (c ++ replicate (Z.to_nat q - length c) 0) ++ x ++ drop (Z.to_nat q + length x) c
  end.

Lemma splice_lookup c q x i : x ≠ [] → splice c q x !! i =
  if decide (i < Z.to_nat q)%nat then (if decide (i < length c)%nat then c !! i else Some 0)
  else if decide (i < Z.to_nat q + length x)%nat then x !! (i - Z.to_nat q)%nat else c !! i.
Proof.
  intros Hx. unfold splice. destruct x as [|a x]; [done|]. set (y := a :: x). set (n := Z.to_nat q).
  assert (length (take n (c ++ replicate (n - length c) 0)) = n) as Hl by (rewrite length_take, length_app, length_replicate; lia).
  case_decide as H1.
  - rewrite lookup_app_l, lookup_take_lt by lia. case_decide as H2; [by rewrite lookup_app_l|].
    rewrite lookup_app_r, lookup_replicate_2 by lia. done.
  - rewrite lookup_app_r, Hl by lia. case_decide as H2; [by rewrite lookup_app_l by lia|].
    rewrite lookup_app_r, lookup_drop by lia. f_equal. lia.
Qed.

Lemma splice_app c q x y : 0 ≤ q → splice (splice c q x) (q + Z.of_nat (length x)) y = splice c q (x ++ y).
Proof.
  intros Hq. destruct (decide (x = [])) as [->|Hx]; [by rewrite Z.add_0_r|]. destruct (decide (y = [])) as [->|Hy]; [by rewrite app_nil_r|].
  assert (x ++ y ≠ []) as Hxy by (by destruct x). apply list_eq. intros i. rewrite (splice_lookup _ _ y), (splice_lookup _ _ (x ++ y)) by done.
  rewrite (splice_lookup c q x) by done. replace (Z.to_nat (q + Z.of_nat (length x))) with (Z.to_nat q + length x)%nat by lia. rewrite length_app.
  assert (length (splice c q x) = Z.to_nat q + length x + length (drop (Z.to_nat q + length x) c))%nat as Hl.
  { unfold splice. destruct x; [done|]. rewrite !length_app, length_take, length_app, length_replicate. lia. }
  rewrite length_drop in Hl. repeat case_decide; try lia; try done.
  - by rewrite lookup_app_l by lia.
  - rewrite lookup_app_r by lia. f_equal. lia.
Qed.

(** What a file object does, as it is documented: it has contents and an offset; reading gives
    the bytes there are, at least one, or fails; what fails has no effect. Any of the services
    may fail. *)
Class FileObjectOk (F : FileObject) := {
  contents : Handle → list Z;
  offset : Handle → Z;
  read_law h n position io data h' : NtReadFile h n position = (io, data, h') → 0 < n → 0 ≤ default (offset h) position →
    contents h' = contents h ∧
    if NT_SUCCESS (final io) then
      data = take (Z.to_nat n) (drop (Z.to_nat (default (offset h) position)) (contents h)) ∧ data ≠ [] ∧
      isb_Information io = Z.of_nat (length data) ∧ (position = None → offset h' = offset h + Z.of_nat (length data))
    else data = [] ∧ (position = None → offset h' = offset h);
  write_law h x position io h' : NtWriteFile h x position = (io, h') → 0 ≤ default (offset h) position →
    if NT_SUCCESS (final io) then
      contents h' = splice (contents h) (default (offset h) position) x ∧
      isb_Information io = Z.of_nat (length x) ∧ (position = None → offset h' = offset h + Z.of_nat (length x))
    else contents h' = contents h ∧ (position = None → offset h' = offset h);
  position_law h q status h' : set_position h q = (status, h') → 0 ≤ q → contents h' = contents h ∧ offset h' = if NT_SUCCESS status then q else offset h;
  size_law h status n : query_end_of_file h = (status, n) → NT_SUCCESS status = true → n = Z.of_nat (length (contents h));
  flush_law h status h' : NtFlushBuffersFile h = (status, h') → contents h' = contents h ∧ offset h' = offset h;
}.

Section Facts.
Context `{F : FileObject, FOk : !FileObjectOk F}.
Implicit Types (s : PH_FILE_STREAM) (c : list Z).

Lemma wp_update f (Q : unit → PH_FILE_STREAM → Prop) s : Q tt (f s) → wp (update f) Q s.
Proof. intros H. unfold update. steps. exact H. Qed.

Lemma wp_buffer_get i n b s (Q : list Z → PH_FILE_STREAM → Prop) : Buffer s = Some b → 0 ≤ i → 0 ≤ n → i + n ≤ Z.of_nat (length b) →
  Q (take (Z.to_nat n) (drop (Z.to_nat i) b)) s → wp (buffer_get i n) Q s.
Proof. intros Hb H1 H2 H3 HQ. unfold buffer_get. steps. rewrite Hb, decide_True by done. by step. Qed.

Lemma wp_buffer_set i x b s (Q : unit → PH_FILE_STREAM → Prop) : Buffer s = Some b → 0 ≤ i → i + Z.of_nat (length x) ≤ Z.of_nat (length b) →
  Q tt (set_buffer (Some (take (Z.to_nat i) b ++ x ++ drop (Z.to_nat i + length x) b)) s) → wp (buffer_set i x) Q s.
Proof. intros Hb H1 H2 HQ. unfold buffer_set. steps. rewrite Hb, decide_True by done. by step. Qed.

(** ** The file object and the position *)

(** The file object is where the stream takes it to be. *)
Definition synced s : Prop := (has_flag s PH_FILE_STREAM_OWN_POSITION = false → offset (FileHandle s) = Position s) ∧ 0 ≤ Position s.

(** The file object, the flags and the position have changed. *)
Definition moved h f q s : PH_FILE_STREAM := FileStream h f q (Buffer s) (BufferLength s) (ReadPosition s) (ReadLength s) (WritePosition s).

Definition same_flags f s : Prop :=
  Z.land f PH_FILE_STREAM_OWN_POSITION = Z.land (Flags s) PH_FILE_STREAM_OWN_POSITION ∧
  Z.land f PH_FILE_STREAM_UNBUFFERED = Z.land (Flags s) PH_FILE_STREAM_UNBUFFERED.

Lemma written_flags s : same_flags (Z.lor (Flags s) PH_FILE_STREAM_WRITTEN) s.
Proof. split; rewrite Z.land_lor_distr_l; [change (Z.land PH_FILE_STREAM_WRITTEN PH_FILE_STREAM_OWN_POSITION) with 0|change (Z.land PH_FILE_STREAM_WRITTEN PH_FILE_STREAM_UNBUFFERED) with 0]; apply Z.lor_0_r. Qed.

Lemma at_position s : synced s →
  default (offset (FileHandle s)) (if has_flag s PH_FILE_STREAM_OWN_POSITION then Some (Position s) else None) = Position s.
Proof. intros [H _]. destruct (has_flag s PH_FILE_STREAM_OWN_POSITION); [done|]. by apply H. Qed.

Lemma raw_read_ok n s : synced s → 0 < n < 2 ^ 32 →
  wp (PhpReadFileStream n) (λ r s', ∃ h, s' = moved h (Flags s) (Position s + Z.of_nat (length r.1.2)) s ∧ synced s' ∧ contents h = contents (FileHandle s) ∧
    (NT_SUCCESS r.1.1 = true ∧ r.2 = Some (Z.of_nat (length r.1.2)) ∧ r.1.2 = take (Z.to_nat n) (drop (Z.to_nat (Position s)) (contents (FileHandle s))) ∧ r.1.2 ≠ [] ∨
     NT_SUCCESS r.1.1 = false ∧ r.2 = None ∧ r.1.2 = [])) s.
Proof.
  intros Hs Hn. pose proof (at_position s Hs) as Hat. destruct Hs as [Hoff Hpos]. unfold PhpReadFileStream. step. step.
  destruct (NtReadFile (FileHandle s) n _) as [[io data] h] eqn:Hr. apply read_law in Hr as [Hc Hr]; [|lia|by rewrite Hat]. rewrite Hat in Hr. steps.
  destruct (NT_SUCCESS (final io)) eqn:Hst.
  - destruct Hr as (Hd & Hne & Hi & Ho). step. apply wp_update. step. exists h. cbn. rewrite Hi. split; [done|]. split; [|split; [done|left; split; [done|split; [|done]]]].
    + split; cbn; [|lia]. unfold has_flag in *. cbn. intros E. rewrite E in Ho. rewrite Ho, Hoff by done. done.
    + rewrite u32_small; [done|]. rewrite Hd, length_take. lia.
  - destruct Hr as (-> & Ho). step. exists h. cbn. rewrite Z.add_0_r. split; [done|]. split; [|split; [done|by right]].
    split; cbn; [|lia]. unfold has_flag in *. cbn. intros E. rewrite E in Ho. rewrite Ho, Hoff by done. done.
Qed.

Lemma raw_write_ok x s : synced s →
  wp (PhpWriteFileStream x) (λ st s', ∃ h f q, s' = moved h f q s ∧ same_flags f s ∧ synced s' ∧
    (NT_SUCCESS st = true ∧ contents h = splice (contents (FileHandle s)) (Position s) x ∧ q = Position s + Z.of_nat (length x) ∨
     NT_SUCCESS st = false ∧ contents h = contents (FileHandle s) ∧ q = Position s)) s.
Proof.
  intros Hs. pose proof (at_position s Hs) as Hat. destruct Hs as [Hoff Hpos]. unfold PhpWriteFileStream. step. step.
  destruct (NtWriteFile (FileHandle s) x _) as [io h] eqn:Hr. apply write_law in Hr; [|by rewrite Hat]. rewrite Hat in Hr. steps.
  destruct (NT_SUCCESS (final io)) eqn:Hst.
  - destruct Hr as (Hc & Hi & Ho). step. apply wp_update. apply wp_update. step. eexists h, _, _. cbn. rewrite Hi. split; [done|]. split; [apply written_flags|]. split; [|by left].
    split; cbn; [|lia]. unfold has_flag in *. cbn. rewrite (proj1 (written_flags s)). intros E. rewrite E in Ho. rewrite Ho, Hoff by done. done.
  - destruct Hr as (Hc & Ho). steps. exists h, (Flags s), (Position s). split; [done|]. split; [done|]. split; [|by right].
    split; cbn; [|lia]. unfold has_flag in *. cbn. intros E. rewrite E in Ho. rewrite Ho, Hoff by done. done.
Qed.

(** ** What a stream stands for *)

(** The buffer has the bytes of the file before the position, of which [ReadPosition] are used. *)
Definition ahead c q s : Prop :=
  ∃ b, Buffer s = Some b ∧ 0 ≤ ReadPosition s ≤ ReadLength s ∧ ReadLength s ≤ BufferLength s ∧
    ReadLength s ≤ Position s ≤ Z.of_nat (length c) ∧ q = Position s - (ReadLength s - ReadPosition s) ∧
    take (Z.to_nat (ReadLength s)) b = take (Z.to_nat (ReadLength s)) (drop (Z.to_nat (Position s - ReadLength s)) c) ∧
    (ReadLength s < BufferLength s → Position s = Z.of_nat (length c)).

Definition unused c q s : Prop := ReadPosition s = 0 ∧ ReadLength s = 0 ∧ q = Position s.

Definition reading c q s : Prop :=
  WritePosition s = 0 ∧ c = contents (FileHandle s) ∧ (unused c q s ∨ 0 < ReadPosition s ∧ ahead c q s).

(** The buffer has bytes that come after those of the file before the position. *)
Definition writing c q s : Prop :=
  ReadPosition s = 0 ∧ ReadLength s = 0 ∧ 0 < WritePosition s ≤ BufferLength s ∧ q = Position s + WritePosition s ∧
  ∃ b, Buffer s = Some b ∧ c = splice (contents (FileHandle s)) (Position s) (take (Z.to_nat (WritePosition s)) b).

Record sound s : Prop := {
  sound_synced : synced s;
  sound_length : 0 ≤ BufferLength s < 2 ^ 31;
  sound_buffer b : Buffer s = Some b → Z.of_nat (length b) = BufferLength s;
  sound_unbuffered : has_flag s PH_FILE_STREAM_UNBUFFERED = true → BufferLength s = 0;
}.

Definition stands c q s : Prop := sound s ∧ (reading c q s ∨ writing c q s).

(** Nothing is in the buffer. *)
Definition idle c q s : Prop := sound s ∧ WritePosition s = 0 ∧ c = contents (FileHandle s) ∧ unused c q s.

Lemma idle_stands c q s : idle c q s → stands c q s.
Proof. intros (Hs & Hw & Hc & Hu). split; [done|]. left. split; [done|]. split; [done|by left]. Qed.

Lemma sound_moved h f q s : sound s → same_flags f s → synced (moved h f q s) → sound (moved h f q s).
Proof. intros [H1 H2 H3 H4] [_ Hf] Hs. constructor; [done|done|done|]. unfold has_flag in *. cbn. rewrite Hf. exact H4. Qed.

(** An operation of the file object failed. *)
Lemma stands_moved c q h f s : stands c q s → same_flags f s → synced (moved h f (Position s) s) → contents h = contents (FileHandle s) → stands c q (moved h f (Position s) s).
Proof.
  intros [Hs Hcase] Hf Hsy Hh. split; [by apply sound_moved|]. destruct Hcase as [(Hw & Hc & Hu)|(H1 & H2 & H3 & H4 & b & Hb & Hc)].
  - left. split; [done|]. split; [cbn; congruence|]. destruct Hu as [Hu|[H1 Hu]]; [by left|by right].
  - right. do 4 (split; [done|]). exists b. split; [done|]. cbn. by rewrite Hh.
Qed.

Lemma idle_read s : sound s → WritePosition s = 0 → idle (contents (FileHandle s)) (Position s) (set_read 0 0 s).
Proof. intros Hs Hw. split; [by destruct Hs|]. done. Qed.

Lemma stands_position c q s : stands c q s → 0 ≤ q.
Proof.
  intros [[[_ Hp] _ _ _] [(Hw & Hc & [(H1 & H2 & ->)|(H1 & b & _ & H2 & H3 & H4 & -> & _)])|(H1 & H2 & H3 & -> & _)]]; lia.
Qed.

Lemma flush_write_ok c q s : sound s → writing c q s →
  wp PhpFlushWriteFileStream (λ st s', NT_SUCCESS st = true ∧ idle c q s' ∨ NT_SUCCESS st = false ∧ sound s' ∧ writing c q s' ∧ contents (FileHandle s') = contents (FileHandle s)) s.
Proof.
  intros Hs (Hr & Hl & Hw & -> & b & Hb & ->). pose proof Hs as [Hsy Hlen Hbuf Hun]. specialize (Hbuf b Hb).
  unfold PhpFlushWriteFileStream. step. step. step. eapply wp_buffer_get; [done|lia|lia|lia|]. rewrite drop_0.
  step. eapply wp_mono; [by apply raw_write_ok|]. intros st s' (h & f & p & -> & Hf & Hsy' & [(Hst & Hc & ->)|(Hst & Hc & ->)]); rewrite Hst.
  - step. apply wp_update. step. left. split; [done|]. pose proof (sound_moved _ _ _ _ Hs Hf Hsy') as []. split; [by constructor|]. cbn. split; [done|]. split; [done|].
    split; [done|]. split; [done|]. cbn. rewrite length_take. lia.
  - step. step. step. right. split; [done|]. split; [by apply sound_moved|]. split; [|done]. split; [done|]. split; [done|]. split; [done|]. split; [done|]. exists b. split; [done|]. cbn. by rewrite Hc.
Qed.

(** The file object refused to be moved to the position that the stream has already: the two
    are no longer at the same place. The contents of the file are [c]. *)
Definition stranded c s : Prop :=
  has_flag s PH_FILE_STREAM_OWN_POSITION = false ∧ contents (FileHandle s) = c ∧
  ∃ h, NT_SUCCESS (set_position h (Position s)).1 = false ∧ FileHandle s = (set_position h (Position s)).2.

Lemma seek_raw_ok Offset Origin s : sound s →
  let q := match Origin with SeekStart => Offset | SeekCurrent => Position s + Offset | SeekEnd => Z.of_nat (length (contents (FileHandle s))) + Offset end in
  0 ≤ q → wp (PhpSeekFileStream Offset Origin) (λ st s',
    NT_SUCCESS st = true ∧ (∃ h, contents h = contents (FileHandle s) ∧ s' = moved h (Flags s) q s ∧ sound s') ∨
    NT_SUCCESS st = false ∧ (Origin = SeekEnd ∧ s' = s ∨ stranded (contents (FileHandle s)) s')) s.
Proof.
  intros Hs q Hq. unfold PhpSeekFileStream. step.
  assert (∀ st, NT_SUCCESS st = true → wp (mret st : ST PH_FILE_STREAM Z)
    (λ status s', wp (if negb (NT_SUCCESS status) then mret status
      else s0 ← get_st; if negb (has_flag s0 PH_FILE_STREAM_OWN_POSITION) then let '(status0, h) := set_position (FileHandle s0) (Position s0) in put_st (set_handle h s0);; mret status0 else mret status)
      (λ st s', NT_SUCCESS st = true ∧ (∃ h, contents h = contents (FileHandle s) ∧ s' = moved h (Flags s) q s ∧ sound s') ∨
        NT_SUCCESS st = false ∧ (Origin = SeekEnd ∧ s' = s ∨ stranded (contents (FileHandle s)) s')) s') (set_pos q s)) as Hrest.
  { intros st Hst. step. rewrite Hst. cbn [negb]. step. step. destruct (has_flag (set_pos q s) PH_FILE_STREAM_OWN_POSITION) eqn:Hown; cbn [negb].
    - step. left. split; [done|]. exists (FileHandle s). split; [done|]. split; [done|]. apply (sound_moved (FileHandle s) (Flags s) q s); [done|done|].
      split; [|exact Hq]. intros E. unfold has_flag in *. cbn in *. congruence.
    - destruct (set_position _ _) as [st' h] eqn:Hp. pose proof (position_law _ _ _ _ Hp Hq) as (Hc & Ho). step. step. step. destruct (NT_SUCCESS st') eqn:Hst'; [left|right]; (split; [done|]).
      + exists h. split; [done|]. split; [done|]. apply (sound_moved h (Flags s) q s); [done|done|]. split; [|exact Hq]. intros _. exact Ho.
      + right. split; [done|]. split; [done|]. exists (FileHandle s). cbn in Hp |- *. rewrite Hp. done. }
  destruct Origin.
  - step. apply wp_update. by apply Hrest.
  - step. apply wp_update. by apply Hrest.
  - steps. destruct (query_end_of_file (FileHandle s)) as [st n] eqn:Hn. destruct (NT_SUCCESS st) eqn:Hst.
    + rewrite (size_law _ _ _ Hn Hst). step. apply wp_update. by apply Hrest.
    + steps. rewrite Hst. cbn [negb]. step. right. split; [done|]. by left.
Qed.

Lemma flush_read_ok c q s : sound s → reading c q s → wp PhpFlushReadFileStream (λ st s', NT_SUCCESS st = true ∧ idle c q s' ∨ NT_SUCCESS st = false ∧ stranded c s') s.
Proof.
  intros Hs (Hw & Hc & Hcase). pose proof Hs as [[_ Hp] Hlen _ _]. unfold PhpFlushReadFileStream. step. step.
  assert (0 ≤ ReadLength s - ReadPosition s < 2 ^ 31 ∧ q = Position s - (ReadLength s - ReadPosition s) ∧ 0 ≤ q) as (Ha & Hq & Hq0).
  { destruct Hcase as [(H1 & H2 & ->)|(H1 & b & _ & H2 & H3 & H4 & -> & _)]; lia. }
  rewrite u32_small by lia. step. destruct (Z.eqb_spec (ReadLength s - ReadPosition s) 0) as [E|E]; cbn [negb].
  - step. cbn [NT_SUCCESS]. change (NT_SUCCESS STATUS_SUCCESS) with true. cbn [negb]. step. apply wp_update. step. left. split; [done|].
    assert (q = Position s) as -> by lia. rewrite Hc. by apply idle_read.
  - unfold as_long. destruct (Z.ltb_spec (ReadLength s - ReadPosition s) (2 ^ 31)); [|lia].
    eapply wp_mono; [apply (seek_raw_ok _ SeekCurrent); [done|lia]|]. intros st s' [(Hst & h & Hch & -> & Hs')|(Hst & [[? _]|Hstr])]; rewrite Hst; cbn [negb]; [|done|].
    + step. apply wp_update. step. left. split; [done|].
      rewrite Hc, <-Hch. replace q with (Position s + - (ReadLength s - ReadPosition s)) by lia. by apply (idle_read (moved h (Flags s) _ s)).
    + step. right. split; [done|]. by rewrite Hc.
Qed.

(** ** Reading *)

(** What a read gives: the bytes there are, at least one; or a failure, with the bytes that
    were copied before it, at most as many as the buffer had. *)
Definition read_result c q n (r : Z * list Z * option Z) s' : Prop :=
  NT_SUCCESS r.1.1 = true ∧ r.1.2 = take (Z.to_nat n) (drop (Z.to_nat q) c) ∧ r.1.2 ≠ [] ∧ r.2 = Some (Z.of_nat (length r.1.2)) ∧
    stands c (q + Z.of_nat (length r.1.2)) s' ∨
  NT_SUCCESS r.1.1 = false ∧ r.2 = None ∧ Z.of_nat (length r.1.2) < n ∧ r.1.2 = take (length r.1.2) (drop (Z.to_nat q) c) ∧
    stands c (q + Z.of_nat (length r.1.2)) s'.

Lemma take_ahead (b c : list Z) RL RP k P : (RP + k ≤ RL)%nat → (RL ≤ P)%nat →
  take RL b = take RL (drop (P - RL) c) → take k (drop RP b) = take k (drop (P - (RL - RP)) c).
Proof.
  intros H1 H2 H. apply (f_equal (λ l, take k (drop RP l))) in H. rewrite !skipn_firstn_comm, !take_take, drop_drop in H.
  rewrite !Nat.min_l in H by lia. rewrite H. do 2 f_equal. lia.
Qed.

Lemma satisfy_ok c q n st s : sound s → WritePosition s = 0 → c = contents (FileHandle s) → ahead c q s → ReadPosition s < ReadLength s →
  0 < n < 2 ^ 32 → NT_SUCCESS st = true →
  wp (satisfy st n (ReadLength s - ReadPosition s)) (λ r s', read_result c q n r s') s.
Proof.
  intros Hs Hw Hc (b & Hb & Hrp & Hrl & Hp & Hq & Hbytes & Hend) Hlt Hn Hst. pose proof Hs as [Hsy Hlen Hbuf Hun]. specialize (Hbuf b Hb).
  unfold satisfy. set (k := if n <? ReadLength s - ReadPosition s then n else ReadLength s - ReadPosition s).
  assert (0 < k ≤ n ∧ ReadPosition s + k ≤ ReadLength s ∧ (k < n → ReadPosition s + k = ReadLength s)) as (Hk1 & Hk2 & Hk3) by (unfold k; destruct (Z.ltb_spec n (ReadLength s - ReadPosition s)); lia).
  assert (take (Z.to_nat k) (drop (Z.to_nat (ReadPosition s)) b) = take (Z.to_nat k) (drop (Z.to_nat q) c)) as Hdata.
  { rewrite (take_ahead b c (Z.to_nat (ReadLength s)) (Z.to_nat (ReadPosition s)) (Z.to_nat k) (Z.to_nat (Position s))); [do 2 f_equal; lia|lia|lia|].
    rewrite Hbytes. do 2 f_equal. lia. }
  assert (length (take (Z.to_nat k) (drop (Z.to_nat q) c)) = Z.to_nat k) as Hkl by (rewrite length_take, length_drop; lia).
  step. step. step. eapply wp_buffer_get; [done|lia|lia|lia|]. rewrite Hdata. rewrite (u32_small (ReadPosition s + k)) by lia. step. step.
  set (s1 := set_read (ReadPosition s + k) (ReadLength s) s). assert (sound s1) as Hs1 by (by destruct Hs).
  assert (stands c (q + k) s1) as Hstands.
  { split; [done|]. left. split; [done|]. split; [done|]. right. cbn. split; [lia|]. exists b. cbn. split_and!; try done; lia. }
  destruct (Z.ltb_spec k n) as [Hkn|Hkn]; cbn [andb].
  - destruct (Z.eqb_spec (ReadLength s) (BufferLength s)) as [E|E].
    + rewrite (u32_small (n - k)) by lia. step. eapply wp_mono; [apply (raw_read_ok (n - k) s1); [apply Hs1|lia]|].
      intros [[st2 data2] len2] s2 (h & -> & Hsy2 & Hch & H2). cbn in H2, Hch, Hsy2. destruct H2 as [(Hst2 & -> & Hd2 & Hne)|(Hst2 & -> & ->)].
      * step. apply wp_update. step. left. cbn. assert (length data2 ≤ Z.to_nat (n - k))%nat as Hl2 by (rewrite Hd2, length_take; lia).
        assert (take (Z.to_nat k) (drop (Z.to_nat q) c) ++ data2 = take (Z.to_nat n) (drop (Z.to_nat q) c)) as Hall.
        { rewrite Hd2, <-Hc. replace (Z.to_nat (Position s)) with (Z.to_nat q + Z.to_nat k)%nat by lia. rewrite <-drop_drop, take_take_drop. f_equal. lia. }
        split; [done|]. split; [done|]. split; [intros E2%(f_equal length); rewrite length_app, Hkl in E2; cbn in E2; lia|]. rewrite length_app, Hkl.
        split; [rewrite u32_small by lia; f_equal; lia|]. apply idle_stands. 
        replace (q + Z.of_nat (Z.to_nat k + length data2)) with (Position s + Z.of_nat (length data2)) by lia. rewrite Hc, <-Hch.
        apply (idle_read (moved h (Flags s) (Position s + Z.of_nat (length data2)) s1)); [apply sound_moved; done|done].
      * step. right. cbn. rewrite app_nil_r, Hkl, Z2Nat.id by lia. split_and!; [done|done|lia|done|]. rewrite Z.add_0_r in *. by apply (stands_moved c (q + k) h (Flags s) s1).
    + step. left. cbn. rewrite Hkl, Z2Nat.id by lia. specialize (Hend ltac:(lia)). split; [done|]. split; [|split; [|split; [done|exact Hstands]]].
      * rewrite !take_ge; [done|rewrite length_drop; lia|rewrite length_drop; lia].
      * intros E2. rewrite E2 in Hkl. cbn in Hkl. lia.
  - step. left. cbn. rewrite Hkl, Z2Nat.id by lia. assert (k = n) as -> by lia. split; [done|]. split; [done|]. split; [|done]. intros E2. rewrite E2 in Hkl. cbn in Hkl. lia.
Qed.

(** A buffer is there, or there is no memory. *)
Lemma allocate_buffer_ok c q s : stands c q s → WritePosition s = 0 →
  wp allocate_buffer (λ st s', stands c q s' ∧ (NT_SUCCESS st = true → is_Some (Buffer s')) ∧
    WritePosition s' = 0 ∧ BufferLength s' = BufferLength s ∧ ReadPosition s' = ReadPosition s ∧ ReadLength s' = ReadLength s) s.
Proof.
  intros Hst Hw. pose proof Hst as [[H1 H2 H3 H4] Hcase]. unfold allocate_buffer, PhpAllocateBufferFileStream. step. step.
  destruct (Buffer s) as [b|] eqn:Hb; [step; split; [done|]; by rewrite Hb|]. step. step.
  destruct Hcase as [(_ & Hc & [Hu|(_ & b & Hb' & _)])|(_ & _ & ? & _)]; [|congruence|lia].
  destruct (PhAllocatePage (BufferLength s)); step; step; step.
  - split; [|done]. split; [|by left; split; [|split; [|left]]]. constructor; [done|done| |done]. intros b [= <-]. cbn. rewrite length_replicate. lia.
  - split; [|done]. split; [by constructor|]. by left; split; [|split; [|left]].
Qed.

Lemma drained c q s : stands c q s → WritePosition s = 0 → ReadLength s - ReadPosition s = 0 → c = contents (FileHandle s) ∧ q = Position s.
Proof. intros [_ [(_ & Hc & [(_ & _ & Hq)|(_ & b & _ & _ & _ & _ & Hq & _)])|(_ & _ & ? & _)]] Hw H0; [done|split; [done|lia]|lia]. Qed.

Lemma flush_writes_ok c q s : stands c q s → ReadLength s - ReadPosition s = 0 →
  wp (if negb (WritePosition s =? 0) then PhpFlushWriteFileStream else mret STATUS_SUCCESS) (λ st s',
    stands c q s' ∧ (NT_SUCCESS st = true → WritePosition s' = 0 ∧ ReadLength s' - ReadPosition s' = 0)) s.
Proof.
  intros [Hs Hcase] H0. destruct Hcase as [Hr|Hwr].
  - pose proof Hr as (Hw & _). rewrite Hw. cbn [Z.eqb negb]. step. split; [|done]. split; [done|by left].
  - pose proof Hwr as (_ & _ & Hw & _). destruct (Z.eqb_spec (WritePosition s) 0); [lia|]. cbn [negb].
    eapply wp_mono; [by apply (flush_write_ok c q)|]. intros st s' [(Hst & Hi)|(Hst & Hs' & Hw' & _)].
    + split; [by apply idle_stands|]. intros _. destruct Hi as (_ & Hw' & _ & (-> & -> & _)). done.
    + split; [split; [done|by right]|congruence].
Qed.

Lemma take_ge_min {A} (l : list A) n : take n l = take (Nat.min n (length l)) l.
Proof. destruct (Nat.le_ge_cases n (length l)); [by rewrite Nat.min_l|]. rewrite Nat.min_r, !take_ge by lia. done. Qed.

Lemma fill_ok c q n s : stands c q s → ReadLength s - ReadPosition s = 0 → 0 < n < 2 ^ 32 →
  wp (fill n) (λ r s', read_result c q n r s') s.
Proof.
  intros Hst0 Havail Hn. unfold fill. step. step. step. eapply wp_mono; [by apply (flush_writes_ok c q)|]. clear s Hst0 Havail. intros st s (Hstands & Hdr).
  destruct (NT_SUCCESS st) eqn:Hst; cbn [negb]; [|step; right; cbn; rewrite Z.add_0_r; split_and!; [done|done|lia|done|done]].
  destruct Hdr as [Hw Hdr]; [done|]. destruct (drained c q s Hstands Hw Hdr) as [Hc Hq]. step. step. destruct (Z.leb_spec (BufferLength s) n) as [Hbig|Hsmall].
  - pose proof Hstands as [Hs _]. step. apply wp_update. eapply wp_mono; [apply (raw_read_ok n (set_read 0 0 s)); [apply Hs|lia]|].
    intros [[st2 data] len] s2 (h & -> & Hsy2 & Hch & H2). cbn in H2, Hch, Hsy2.
    assert (stands c (q + Z.of_nat (length data)) (moved h (Flags s) (Position s + Z.of_nat (length data)) (set_read 0 0 s))) as Hfin.
    { apply idle_stands. rewrite Hc, <-Hch, Hq. split; [apply sound_moved; [by destruct Hs|done|done]|]. done. }
    destruct H2 as [(Hst2 & -> & Hd & Hne)|(Hst2 & -> & ->)]; [left|right]; cbn.
    + split_and!; [done|by rewrite Hc, Hq|done|done|done].
    + split_and!; [done|done|lia|done|done].
  - step. eapply wp_mono; [by apply (allocate_buffer_ok c q)|]. clear Hc Hq. intros st2 s2 (Hst2 & Hb2 & Hw2 & Hbl2 & Hrp2 & Hrl2).
    destruct (NT_SUCCESS st2) eqn:Hst2'; cbn [negb]; [|step; right; cbn; rewrite Z.add_0_r; split_and!; [done|done|lia|done|done]].
    destruct Hb2 as [b Hb]; [done|]. destruct (drained c q s2 Hst2 Hw2 ltac:(lia)) as [Hc Hq]. pose proof Hst2 as [Hs2 Hcase2]. pose proof Hs2 as [Hsy2 Hlen2 Hbuf2 Hun2]. specialize (Hbuf2 b Hb).
    step. step. step. eapply wp_mono; [apply (raw_read_ok (BufferLength s2) s2); [done|lia]|].
    intros [[st3 data] len] s3 (h & -> & Hsy3 & Hch & H3). cbn in H3, Hch, Hsy3. destruct H3 as [(Hst3 & -> & Hd & Hne)|(Hst3 & -> & ->)].
    + assert (length data ≤ length b)%nat as Hdl by (rewrite Hd, length_take; lia). assert (0 < length data)%nat by (destruct data; [done|cbn; lia]).
      step. eapply (wp_buffer_set _ _ b); [exact Hb|lia|lia|]. change (Z.to_nat 0) with 0%nat. cbn [take app Nat.add].
      destruct (Z.eqb_spec (Z.of_nat (length data)) 0); [lia|]. step. apply wp_update.
      set (s4 := set_read 0 (Z.of_nat (length data)) (set_buffer _ _)).
      assert (Z.of_nat (length data) = ReadLength s4 - ReadPosition s4) as -> by (cbn; lia).
      eapply (satisfy_ok c q n st3 s4); [| |by rewrite Hc, <-Hch| |cbn; lia|done|done].
      * assert (sound (moved h (Flags s2) (Position s2 + Z.of_nat (length data)) s2)) as [K1 K2 K3 K4] by (by apply sound_moved).
        constructor; [exact K1|exact K2| |exact K4]. intros b' [= <-]. cbn. rewrite length_app, length_drop. lia.
      * done.
      * exists (data ++ drop (length data) b). cbn. rewrite <-Hc in Hd. assert (length data = Nat.min (Z.to_nat (BufferLength s2)) (length c - Z.to_nat (Position s2)))%nat as Hl by (rewrite Hd at 1; by rewrite length_take, length_drop).
        split; [done|]. split; [lia|]. split; [lia|]. split; [destruct Hsy2; lia|]. split; [lia|]. rewrite Nat2Z.id.
        replace (Z.to_nat (Position s2 + Z.of_nat (length data) - Z.of_nat (length data))) with (Z.to_nat (Position s2)) by lia. split; [|destruct Hsy2; lia].
        rewrite take_app_length, Hd at 1. by rewrite take_ge_min, length_drop, <-Hl.
    + step. eapply (wp_buffer_set _ _ b); [exact Hb|lia|cbn; lia|]. step. right. cbn. split_and!; [done|done|lia|done|]. rewrite !Z.add_0_r in *.
      assert (moved h (Flags s2) (Position s2) s2 = set_buffer (Some b) (moved h (Flags s2) (Position s2) s2)) as Hsame by (unfold moved, set_buffer; cbn; by rewrite Hb).
      pose proof (stands_moved c q h (Flags s2) s2 Hst2 ltac:(done) Hsy3 Hch) as Hm. rewrite Hsame in Hm. exact Hm.
Qed.
End Facts.
