(* ===== verification/FileStreamTheorems.v ===== *)
(** File streams: the theorems. *)

From S2P Require Import Prelude Unicode UnicodeFacts UnicodeTheorems FileStream FileStreamFacts.

Section Theorems.
Context `{F : FileObject, FOk : !FileObjectOk F}.
Implicit Types (s : PH_FILE_STREAM) (c : list Z).

(** Without a buffer, nothing is in it. *)
Lemma unbuffered_idle c q s : stands c q s → has_flag s PH_FILE_STREAM_UNBUFFERED = true → idle c q s.
Proof.
  intros [Hs Hcase] Hun. pose proof (sound_unbuffered _ Hs Hun) as H0. destruct Hcase as [(Hw & Hc & [Hu|(H1 & b & _ & H2 & H3 & _)])|(_ & _ & H1 & _)]; [done|lia|lia].
Qed.

Lemma read_stream_ok c q n s : stands c q s → 0 < n < 2 ^ 32 → wp (PhReadFileStream n) (λ r s', read_result c q n r s') s.
Proof.
  intros Hst Hn. pose proof Hst as [Hs Hcase]. pose proof Hs as [Hsy Hlen _ _]. unfold PhReadFileStream. step. step.
  destruct (has_flag s PH_FILE_STREAM_UNBUFFERED) eqn:Hun.
  - destruct (unbuffered_idle c q s Hst Hun) as (_ & Hw & Hc & (Hrp & Hrl & Hq)).
    eapply wp_mono; [by apply raw_read_ok|]. intros [[st data] len] s2 (h & -> & Hsy2 & Hch & H2). cbn in H2, Hch, Hsy2.
    assert (stands c (q + Z.of_nat (length data)) (moved h (Flags s) (Position s + Z.of_nat (length data)) s)) as Hfin.
    { apply idle_stands. rewrite Hc, <-Hch, Hq. split; [by apply sound_moved|]. done. }
    destruct H2 as [(Hst2 & -> & Hd & Hne)|(Hst2 & -> & ->)]; [left|right]; cbn.
    + split_and!; [done|by rewrite Hc, Hq|done|done|done].
    + split_and!; [done|done|lia|done|done].
  - assert (0 ≤ ReadLength s - ReadPosition s < 2 ^ 31) as Ha by (destruct Hcase as [(_ & _ & [(-> & -> & _)|(H1 & b & _ & H2 & H3 & _)])|(-> & -> & _)]; lia).
    rewrite u32_small by lia. destruct (Z.eqb_spec (ReadLength s - ReadPosition s) 0) as [E|E]; [by apply fill_ok|].
    destruct Hcase as [(Hw & Hc & [(H1 & H2 & _)|(_ & Hah)])|(H1 & H2 & _)]; [lia| |lia]. eapply satisfy_ok; [done|done|done|done|lia|done|done].
Qed.

(** What a write gives: the bytes are written, or the first of them; then the file object may
    have refused to be moved back over what was read ahead. *)
Definition write_result c q (x : list Z) (st : Z) s' : Prop :=
  NT_SUCCESS st = true ∧ stands (splice c q x) (q + Z.of_nat (length x)) s' ∨
  NT_SUCCESS st = false ∧ ∃ k, (k ≤ length x)%nat ∧
    (stands (splice c q (take k x)) (q + Z.of_nat k) s' ∨ stranded (splice c q (take k x)) s').

Lemma raw_write_result c q x s : idle c q s → wp (PhpWriteFileStream x) (λ st s', write_result c q x st s') s.
Proof.
  intros Hi. pose proof Hi as (Hs & Hw & Hc & Hu). pose proof Hu as (Hrp & Hrl & Hq). eapply wp_mono; [apply raw_write_ok; apply Hs|].
  intros st s' (h & f & p & -> & Hf & Hsy & [(Hst & Hch & ->)|(Hst & Hch & ->)]).
  - left. split; [done|]. apply idle_stands. split; [by apply sound_moved|]. split; [done|]. split; [cbn; congruence|]. split; [done|]. split; [done|]. cbn. lia.
  - right. split; [done|]. exists 0%nat. split; [lia|]. cbn [take splice]. change (Z.of_nat 0) with 0. rewrite Z.add_0_r. left. apply stands_moved; [by apply idle_stands|done|done|done].
Qed.

Lemma write_rest_ok c q x st s : idle c q s → Z.of_nat (length x) < 2 ^ 32 → NT_SUCCESS st = true → wp (write_rest st x) (λ st s', write_result c q x st s') s.
Proof.
  intros Hi Hx Hst. unfold write_rest. step. step. destruct (Z.leb_spec (BufferLength s) (Z.of_nat (length x))) as [Hbig|Hsmall]; [by apply raw_write_result|].
  destruct (Z.eqb_spec (Z.of_nat (length x)) 0) as [E|E]; cbn [negb].
  { step. left. split; [done|]. rewrite E, Z.add_0_r. apply nil_length_inv in E as -> || (assert (x = []) as -> by (destruct x; [done|cbn in E; lia])). by apply idle_stands. }
  pose proof Hi as (_ & Hw & _ & (Hrp & Hrl & _)). step. eapply wp_mono; [apply (allocate_buffer_ok c q); [by apply idle_stands|done]|].
  intros st2 s2 (Hst2 & Hb2 & Hw2 & Hbl2 & Hrp2 & Hrl2). destruct (NT_SUCCESS st2) eqn:Hs2; cbn [negb].
  - destruct Hb2 as [b Hb]; [done|]. destruct (drained c q s2 Hst2 Hw2 ltac:(lia)) as [Hc Hq]. destruct Hst2 as [[K1 K2 K3 K4] _]. specialize (K3 b Hb).
    step. eapply (wp_buffer_set _ _ b); [done|lia|lia|]. change (Z.to_nat 0) with 0%nat. cbn [take app Nat.add]. step. apply wp_update. step. left. split; [done|].
    split; [constructor; [done|done| |done]|].
    + intros b' [= <-]. cbn. rewrite length_app, length_drop. lia.
    + right. split; [cbn; lia|]. split; [cbn; lia|]. split; [cbn; lia|]. split; [cbn; lia|]. exists (x ++ drop (length x) b). split; [done|]. cbn. rewrite Nat2Z.id, take_app_length, Hc, Hq. done.
  - step. right. split; [done|]. exists 0%nat. split; [lia|]. cbn [take splice]. change (Z.of_nat 0) with 0. rewrite Z.add_0_r. by left.
Qed.

Lemma write_more c q x w st s : 0 ≤ q → (w ≤ length x)%nat → write_result (splice c q (take w x)) (q + Z.of_nat w) (drop w x) st s → write_result c q x st s.
Proof.
  intros Hq Hw. assert (length (take w x) = w) as Hl by (rewrite length_take; lia). rewrite <-Hl at 2. unfold write_result. intros [(Hst & H)|(Hst & k & Hk & H)].
  - left. split; [done|]. rewrite splice_app, take_drop, length_drop, Hl in H by done. by replace (q + Z.of_nat (length x)) with (q + Z.of_nat w + Z.of_nat (length x - w)) by lia.
  - right. split; [done|]. exists (w + k)%nat. rewrite length_drop in Hk. split; [lia|]. rewrite splice_app, take_take_drop, Hl in H by done. by rewrite Nat2Z.inj_add, Z.add_assoc.
Qed.

Lemma write_stream_ok c q x s : stands c q s → Z.of_nat (length x) < 2 ^ 32 → wp (PhWriteFileStream x) (λ st s', write_result c q x st s') s.
Proof.
  intros Hst Hx. pose proof Hst as [Hs Hcase]. pose proof Hs as [Hsy Hlen Hbuf Hunb]. unfold PhWriteFileStream. step. step.
  destruct (has_flag s PH_FILE_STREAM_UNBUFFERED) eqn:Hun; [apply raw_write_result; by apply unbuffered_idle|]. step. destruct Hcase as [Hr|Hw].
  - pose proof Hr as (Hw & _). rewrite Hw. cbn [Z.eqb]. eapply wp_mono; [by apply (flush_read_ok c q)|]. intros st s' [(Hst' & Hi)|(Hst' & Hstr)]; rewrite Hst'; cbn [negb]; step.
    + step. pose proof Hi as (_ & Hw' & _). rewrite Hw'. cbn [Z.eqb negb]. by apply write_rest_ok.
    + right. split; [done|]. exists 0%nat. split; [lia|]. by right.
  - pose proof Hw as (Hrp & Hrl & HW & -> & b & Hb & ->). specialize (Hbuf b Hb). destruct (Z.eqb_spec (WritePosition s) 0); [lia|]. step. change (NT_SUCCESS STATUS_SUCCESS) with true. cbn [negb]. step. step.
    destruct (Z.eqb_spec (WritePosition s) 0); [lia|]. cbn [negb]. rewrite (u32_small (BufferLength s - WritePosition s)) by lia.
    set (w := if Z.of_nat (length x) <? BufferLength s - WritePosition s then Z.of_nat (length x) else BufferLength s - WritePosition s).
    assert (0 ≤ w ≤ Z.of_nat (length x) ∧ WritePosition s + w ≤ BufferLength s) as [Hw1 Hw2] by (unfold w; destruct (Z.ltb_spec (Z.of_nat (length x)) (BufferLength s - WritePosition s)); lia).
    assert (length (take (Z.to_nat w) x) = Z.to_nat w) as Hlw by (rewrite length_take; lia).
    step. eapply (wp_buffer_set _ _ b); [done|lia|lia|]. step. apply wp_update. cbn [WritePosition set_buffer]. rewrite u32_small by lia.
    set (s1 := set_write _ _). set (c := splice (contents (FileHandle s)) (Position s) (take (Z.to_nat (WritePosition s)) b)). set (q := Position s + WritePosition s).
    assert (sound s1) as Hs1.
    { constructor; [done|done| |exact (sound_unbuffered _ Hs)]. intros b' [= <-]. rewrite !length_app, length_take, length_drop, Hlw. cbn. lia. }
    assert (writing (splice c q (take (Z.to_nat w) x)) (q + w) s1) as Hw3.
    { split; [done|]. split; [done|]. split; [cbn; lia|]. split; [cbn; unfold q; lia|]. eexists. split; [done|]. cbn.
      assert (length (take (Z.to_nat (WritePosition s)) b) = Z.to_nat (WritePosition s)) as Hlb by (rewrite length_take; lia).
      unfold c, q. assert (Position s + WritePosition s = Position s + Z.of_nat (length (take (Z.to_nat (WritePosition s)) b))) as -> by lia.
      destruct Hsy as [_ Hp]. rewrite splice_app by done. f_equal. rewrite app_assoc. symmetry. apply take_app_length'. rewrite length_app. lia. }
    assert (0 ≤ q) by (destruct Hsy; unfold q; lia).
    destruct (negb (BufferLength s - WritePosition s =? 0) && (w =? Z.of_nat (length x))) eqn:Hdone.
    + apply andb_prop in Hdone as [_ Hwl%Z.eqb_eq]. step. left. split; [done|]. rewrite take_ge in Hw3 by lia. rewrite Hwl in Hw3. split; [done|by right].
    + step. eapply wp_mono; [by apply (flush_write_ok (splice c q (take (Z.to_nat w) x)) (q + w))|].
      intros st s' [(Hst' & Hi)|(Hst' & Hs' & Hw' & _)]; rewrite Hst'; cbn [negb].
      * eapply wp_mono; [apply (write_rest_ok (splice c q (take (Z.to_nat w) x)) (q + w)); [done|rewrite length_drop; lia|done]|].
        intros st'' s'' Hres. apply (write_more c q x (Z.to_nat w)); [done|lia|]. by rewrite Z2Nat.id by lia.
      * step. right. split; [done|]. exists (Z.to_nat w). split; [lia|]. rewrite Z2Nat.id by lia. left. split; [done|by right].
Qed.

Definition target c q (Offset : Z) (Origin : PH_SEEK_ORIGIN) : Z :=
  match Origin with
  | SeekStart => Offset
  | SeekCurrent => q + Offset
  | SeekEnd => Z.of_nat (length c) + Offset
  end.

(** What a seek gives. One that fails may have passed the bytes that were read ahead. *)
Definition seek_result c q Offset Origin (st : Z) s' : Prop :=
  NT_SUCCESS st = true ∧ stands c (target c q Offset Origin) s' ∨
  NT_SUCCESS st = false ∧ (stands c q s' ∨ stranded c s' ∨
    Origin = SeekEnd ∧ ∃ k, 0 < k ∧ q + k ≤ Z.of_nat (length c) ∧ stands c (q + k) s').

Lemma seek_ok c q Offset Origin s : stands c q s → 0 ≤ target c q Offset Origin →
  wp (PhSeekFileStream Offset Origin) (λ st s', seek_result c q Offset Origin st s') s.
Proof.
  intros Hst Ht. pose proof Hst as [Hs Hcase]. unfold PhSeekFileStream. step. step. step.
  eapply (wp_mono _ (λ r s', NT_SUCCESS r.1 = true ∧ idle c (Position s') s' ∧ target c (Position s') r.2 Origin = target c q Offset Origin ∧
      (Position s' = q ∨ q < Position s' ≤ Z.of_nat (length c)) ∨ NT_SUCCESS r.1 = false ∧ stands c q s')).
  { destruct Hcase as [(Hw & Hc & Hu)|Hw].
    - rewrite Hw. cbn [Z.eqb negb]. pose proof (sound_length _ Hs). destruct (Z.eqb_spec (ReadPosition s) 0) as [E|E]; cbn [negb].
      + destruct Hu as [(_ & Hrl & ->)|[? _]]; [|lia]. step. left. split; [done|]. split; [done|]. split; [done|by left].
      + destruct Hu as [[? _]|(_ & b & Hb & Hrp & Hrl & Hp & -> & _)]; [done|]. rewrite u32_small by lia. cbv zeta. steps. left. split; [done|].
        split; [rewrite Hc; exact (idle_read s Hs Hw)|]. cbn. split; [destruct Origin; cbn; lia|]. lia.
    - pose proof Hw as (_ & _ & HW & _). destruct (Z.eqb_spec (WritePosition s) 0); [lia|]. cbn [negb]. step. eapply wp_mono; [by apply (flush_write_ok c q)|].
      intros st s' [(H1 & Hi)|(H1 & Hs' & Hw' & _)]; step; [left|right; split; [done|]; split; [done|by right]]. pose proof Hi as (_ & _ & _ & (_ & _ & <-)).
      split; [done|]. split; [done|]. split; [done|by left]. }
  intros [st offset] s1 [(H1 & Hi & Ht1 & Hq1)|(H1 & Hs1)]; cbn in H1; rewrite H1; cbn [negb]; [|step; right; split; [done|by left]]. cbn in Ht1.
  pose proof Hi as (Hs1 & Hw1 & Hc1 & (Hrp1 & Hrl1 & _)).
  eapply wp_mono; [apply (seek_raw_ok offset Origin s1 Hs1)|].
  - rewrite <-Ht1, Hc1 in Ht. by destruct Origin.
  - intros st' s' [(Hst' & h & Hh & -> & Hs')|(Hst' & [[-> ->]|Hstr])]; [left|right|right]; (split; [done|]).
    + apply idle_stands. split; [done|]. split; [done|]. split; [cbn; congruence|]. split; [done|]. split; [done|]. rewrite <-Ht1, Hc1. by destruct Origin.
    + apply idle_stands in Hi. destruct Hq1 as [Hq1|Hq1]; [left; by rewrite <-Hq1|]. right. right. split; [done|]. exists (Position s1 - q).
      split; [lia|]. split; [lia|]. by replace (q + (Position s1 - q)) with (Position s1) by lia.
    + right. left. by rewrite Hc1.
Qed.

Lemma flush_stream_ok c q Full s : stands c q s →
  wp (PhFlushFileStream Full) (λ st s',
    (stands c q s' ∧ (NT_SUCCESS st = true → idle c q s') ∨ NT_SUCCESS st = false ∧ stranded c s') ∧
    (contents (FileHandle s') = c ∨ NT_SUCCESS st = false ∧ contents (FileHandle s') = contents (FileHandle s))) s.
Proof.
  intros Hst. pose proof Hst as [Hs Hcase]. unfold PhFlushFileStream. step. step. step.
  eapply (wp_mono _ (λ st s', NT_SUCCESS st = true ∧ sound s' ∧ reading c q s' ∨ NT_SUCCESS st = false ∧ stands c q s' ∧ contents (FileHandle s') = contents (FileHandle s))).
  { destruct Hcase as [Hr|Hw].
    - pose proof Hr as (Hw & _). rewrite Hw. cbn [Z.eqb negb]. step. by left.
    - pose proof Hw as (_ & _ & HW & _). destruct (Z.eqb_spec (WritePosition s) 0); [lia|]. cbn [negb]. eapply wp_mono; [by apply (flush_write_ok c q)|].
      intros st s' [(H1 & (Hs' & Hw' & Hc' & Hu'))|(H1 & Hs' & Hw' & Hc')]; [left; split; [done|]; split; [done|]; split; [done|]; split; [done|by left]|right]. split; [done|]. split; [|done]. split; [done|by right]. }
  intros st s1 [(H1 & Hs1 & Hr1)|(H1 & Hs1 & Hc1)]; rewrite H1; cbn [negb]; [|step; split; [left; split; [done|congruence]|by right]].
  step. step. step.
  eapply (wp_mono _ (λ st s', NT_SUCCESS st = true ∧ idle c q s' ∨ NT_SUCCESS st = false ∧ stranded c s')).
  { destruct (Z.eqb_spec (ReadPosition s1) 0) as [E|E]; cbn [negb]; [|by apply flush_read_ok]. step. left. split; [done|].
    destruct Hr1 as (Hw & Hc & [Hu|[? _]]); [done|lia]. }
  intros st2 s2 [(H2 & Hi)|(H2 & Hstr)]; rewrite H2; cbn [negb]; [|step; split; [by right|]; left; by destruct Hstr as (_ & ? & _)]. pose proof Hi as (Hs2 & Hw2 & Hc2 & Hu2). step. step. destruct (Full && has_flag s2 PH_FILE_STREAM_WRITTEN).
  - destruct (NtFlushBuffersFile (FileHandle s2)) as [st3 h] eqn:Hf. apply flush_law in Hf as [Hch Ho]. step. step. step.
    assert (idle c q (set_handle h s2)) as Hi3.
    { destruct Hs2 as [[K0 K1] K2 K3 K4]. split; [|split; [done|split; [cbn; congruence|done]]]. constructor; [|done|done|done]. split; [|done]. intros E. cbn. rewrite Ho. by apply K0. }
    split; [left; split; [by apply idle_stands|done]|]. left. cbn. congruence.
  - step. split; [left; split; [by apply idle_stands|done]|]. by left.
Qed.

Lemma position_ok c q s : stands c q s →
  PhGetPositionFileStream s = Some (q + (if ReadPosition s <? ReadLength s then 2 ^ 32 else 0), s).
Proof.
  intros [Hs Hcase]. pose proof (sound_length _ Hs). apply wp_eq. unfold PhGetPositionFileStream. step. step. step. split; [|done].
  assert (0 ≤ ReadPosition s ≤ ReadLength s ∧ ReadLength s < 2 ^ 31 ∧ q = Position s - (ReadLength s - ReadPosition s) + WritePosition s) as (H1 & H2 & ->).
  { destruct Hcase as [(-> & _ & [(-> & -> & ->)|(_ & b & _ & H1 & H2 & _ & -> & _)])|(-> & -> & H1 & -> & _)]; lia. }
  destruct (Z.ltb_spec (ReadPosition s) (ReadLength s)).
  - replace (u32 (ReadPosition s - ReadLength s)) with (ReadPosition s - ReadLength s + 2 ^ 32); [lia|]. unfold u32. apply (Z.mod_unique _ _ (-1)); lia.
  - rewrite u32_small by lia. lia.
Qed.

Lemma create_ok h flags n : (Z.land flags PH_FILE_STREAM_OWN_POSITION = 0 → offset h = 0) → 0 ≤ n < 2 ^ 31 → stands (contents h) 0 (PhCreateFileStream2 h flags n).
Proof.
  intros Ho Hn. apply idle_stands. unfold PhCreateFileStream2. split; [|done]. constructor; cbn; [| |done|].
  - split; [|done]. unfold has_flag. cbn. intros E. apply Ho. by destruct (Z.eqb_spec (Z.land flags PH_FILE_STREAM_OWN_POSITION) 0).
  - by destruct (Z.land flags PH_FILE_STREAM_UNBUFFERED =? 0).
  - unfold has_flag. cbn. by destruct (Z.land flags PH_FILE_STREAM_UNBUFFERED =? 0).
Qed.

(** ** Text *)

Section Text.
Context `{N : NativeConversion, NOk : !NativeConversionOk N}.

(** A page of units at a time is encoded. *)
Fixpoint utf8_pages (fuel : nat) (text : list Z) : list Z :=
  match text, fuel with
  | [], _ | _, O => []
  | _, S fuel => encode_with utf8_encode (scalars16 (take 2048 text)) ++ utf8_pages fuel (drop 2048 text)
  end.

Lemma encode_length cs : (length (encode_with utf8_encode cs) ≤ 4 * length cs)%nat.
Proof.
  induction cs as [|x cs IH]; [done|]. rewrite encode_with_cons, length_app. cbn [length]. assert (length (utf8_encode x) ≤ 4)%nat; [|lia].
  unfold utf8_encode. repeat case_match; cbn; lia.
Qed.

Lemma scalars16_short us : (length (scalars16 us) ≤ length us)%nat.
Proof.
  induction us as [|a|a b us IH IH'] using list_ind2; [done| |]; cbn [scalars16 length] in *; repeat case_match; cbn [length] in *; lia.
Qed.

Lemma page_length us : (length us ≤ 2048)%nat → Z.of_nat (length (encode_with utf8_encode (scalars16 us))) ≤ 8192.
Proof. intros Hl. pose proof (encode_length (scalars16 us)). pose proof (scalars16_short us). lia. Qed.

Lemma convert_block_ok inPlaceUtf8 us : words us → (length us ≤ 2048)%nat →
  convert_block inPlaceUtf8 us = Some (encode_with utf8_encode (scalars16 us)).
Proof.
  intros Hu Hl. pose proof (page_length us Hl). destruct (native_to_utf8 us Hu ltac:(lia) ltac:(lia)) as (_ & Hex & Hbuf).
  unfold convert_block. destruct inPlaceUtf8; [|done]. destruct (Hbuf (PAGE_SIZE / 2 * 4) ltac:(by vm_compute)) as (w & -> & _ & Hw).
  change (PAGE_SIZE / 2 * 4) with 8192 in *. rewrite decide_True by lia. rewrite Hw by lia. cbn. by rewrite filled_whole, Nat2Z.id, firstn_all.
Qed.

Lemma write_blocks_ok inPlaceUtf8 fuel : ∀ text c q s, (length text ≤ fuel)%nat → words text → stands c q s →
  wp (write_blocks fuel inPlaceUtf8 text) (λ st s', write_result c q (utf8_pages fuel text) st s') s.
Proof.
  induction fuel as [|fuel IH]; intros text c q s Hl Hu Hst; (destruct text as [|u text]; [cbn [write_blocks utf8_pages]; step; left; split; [done|]; cbn; by rewrite Z.add_0_r|]); [cbn in Hl; lia|].
  remember (u :: text) as us eqn:Hus. assert (us ≠ []) as Hne by (by subst).
  assert (utf8_pages (S fuel) us = encode_with utf8_encode (scalars16 (take 2048 us)) ++ utf8_pages fuel (drop 2048 us)) as Hpages by (by subst). rewrite Hpages. clear Hpages.
  assert (write_blocks (S fuel) inPlaceUtf8 us = (
      match convert_block inPlaceUtf8 (take 2048 us) with None => mret STATUS_INVALID_PARAMETER | Some utf8 => status ← PhWriteFileStream utf8;
          if negb (NT_SUCCESS status) then mret status else write_blocks fuel inPlaceUtf8 (drop 2048 us) end)) as Hunfold by (by subst). rewrite Hunfold. clear Hunfold Hus.
  assert (length (take 2048 us) ≤ 2048)%nat as Hl2 by (rewrite length_take; lia). rewrite convert_block_ok by (done || by apply Forall_take).
  set (x := encode_with utf8_encode (scalars16 (take 2048 us))). pose proof (page_length _ Hl2) as Hx. fold x in Hx.
  pose proof (stands_position _ _ _ Hst) as Hq. step. eapply wp_mono; [apply (write_stream_ok c q x); [done|lia]|].
  intros st s1 [(H1 & Hs1)|(H1 & k & Hk & Hs1)]; rewrite H1; cbn [negb].
  - eapply wp_mono; [apply (IH (drop 2048 us) (splice c q x) (q + Z.of_nat (length x))); [rewrite length_drop; destruct us; [done|cbn in *; lia]|by apply Forall_drop|done]|].
    intros st2 s2 Hres. apply (write_more c q (x ++ utf8_pages fuel (drop 2048 us)) (length x)); [done|rewrite length_app; lia|]. by rewrite take_app_length, drop_app_length.
  - step. right. split; [done|]. exists k. split; [rewrite length_app; lia|]. by rewrite take_app_le by lia.
Qed.

(** A pair of surrogates that is the end of one string and the start of the next. *)
Definition split_pair (us vs : list Z) : Prop :=
  ∃ a b, last us = Some a ∧ head vs = Some b ∧ PH_UNICODE_UTF16_IS_HIGH_SURROGATE a = true ∧ PH_UNICODE_UTF16_IS_LOW_SURROGATE b = true.

Lemma scalars16_app us vs : ¬ split_pair us vs → scalars16 (us ++ vs) = scalars16 us ++ scalars16 vs.
Proof.
  induction us as [|a|a b us IH IH'] using list_ind2; intros Hn; [done| |].
  - cbn [app scalars16]. destruct (PH_UNICODE_UTF16_IS_HIGH_SURROGATE a) eqn:Hh; [|by destruct (PH_UNICODE_UTF16_IS_LOW_SURROGATE a)].
    destruct vs as [|b vs]; [done|]. destruct (PH_UNICODE_UTF16_IS_LOW_SURROGATE b) eqn:Hl; [|done]. destruct Hn. by exists a, b.
  - assert (¬ split_pair (b :: us) vs) as Hn' by (intros (x & y & H1 & H2); apply Hn; by exists x, y).
    specialize (IH' Hn'). cbn [app scalars16] in IH' |- *. destruct (PH_UNICODE_UTF16_IS_HIGH_SURROGATE a) eqn:Hh.
    + destruct (PH_UNICODE_UTF16_IS_LOW_SURROGATE b) eqn:Hl; [|cbn [app]; by f_equal]. cbn [app]. f_equal. apply IH.
      intros (x & y & H1 & H2). apply Hn'. exists x, y. split; [|done]. destruct us; [done|]. exact H1.
    + destruct (PH_UNICODE_UTF16_IS_LOW_SURROGATE a); cbn [app]; by f_equal.
Qed.

(** No two pages have a pair of surrogates between them. *)
Fixpoint whole_pages (fuel : nat) (text : list Z) : Prop :=
  match fuel with
  | O => True
  | S fuel => ¬ split_pair (take 2048 text) (drop 2048 text) ∧ whole_pages fuel (drop 2048 text)
  end.

Lemma utf8_pages_whole fuel : ∀ text, (length text ≤ fuel)%nat → whole_pages fuel text → utf8_pages fuel text = encode_with utf8_encode (scalars16 text).
Proof.
  induction fuel as [|fuel IH]; intros text Hl Hw; [by destruct text; [|cbn in Hl; lia]|]. destruct (decide (text = [])) as [->|Hne]; [done|].
  assert (utf8_pages (S fuel) text = encode_with utf8_encode (scalars16 (take 2048 text)) ++ utf8_pages fuel (drop 2048 text)) as -> by (by destruct text).
  destruct Hw as [Hr Hw]. rewrite IH; [|rewrite length_drop; destruct text; [done|cbn in *; lia]|done].
  pose proof (scalars16_app (take 2048 text) (drop 2048 text) Hr) as Happ. rewrite take_drop in Happ.
  rewrite Happ. unfold encode_with. by rewrite map_app, concat_app.
Qed.

(** C36. A string is written at the position of the stream as the UTF-8 of its pages of 2048 units,
    each converted by itself, or on failure some first bytes of that are; which is the UTF-8 of
    the whole string if no pair of surrogates is split between two pages, and otherwise has two
    replacement characters for the pair. *)
Theorem file_stream_text c q text s :
  stands c q s → words text →
  wp (PhWriteStringAsUtf8FileStreamEx text) (λ st s',
    write_result c q (utf8_pages (length text) text) st s' ∧
    (whole_pages (length text) text → utf8_pages (length text) text = encode_with utf8_encode (scalars16 text))) s.
Proof.
  intros Hst Hu. eapply wp_mono; [by apply write_blocks_ok|]. intros st s' H. split; [done|]. by apply utf8_pages_whole.
Qed.
End Text.

(** ** The stream as a file with a position *)
Inductive operation :=
  | Read (n : Z)
  | Write (x : list Z)
  | Seek (Offset : Z) (Origin : PH_SEEK_ORIGIN)
  | Flush (Full : bool).

Inductive answer :=
  | Bytes (x : list Z)
  | Done
  | Failed.

Definition answered (st : Z) : answer := if NT_SUCCESS st then Done else Failed.

Definition perform (op : operation) : ST PH_FILE_STREAM answer :=
  match op with
  | Read n => r ← PhReadFileStream n; mret (if NT_SUCCESS r.1.1 then Bytes r.1.2 else Failed)
  | Write x => st ← PhWriteFileStream x; mret (answered st)
  | Seek Offset Origin => st ← PhSeekFileStream Offset Origin; mret (answered st)
  | Flush Full => st ← PhFlushFileStream Full; mret (answered st)
  end.

(** Without a stream: the contents [c] and the position [q] before and after. What fails may
    have been done in part. *)
Inductive specified (c : list Z) (q : Z) : operation → answer → list Z → Z → Prop :=
  | reads n x : x = take (Z.to_nat n) (drop (Z.to_nat q) c) → x ≠ [] → specified c q (Read n) (Bytes x) c (q + Z.of_nat (length x))
  | read_fails n k : 0 ≤ k < n → specified c q (Read n) Failed c (q + k)
  | writes x : specified c q (Write x) Done (splice c q x) (q + Z.of_nat (length x))
  | write_fails x k : (k ≤ length x)%nat → specified c q (Write x) Failed (splice c q (take k x)) (q + Z.of_nat k)
  | seeks Offset Origin : specified c q (Seek Offset Origin) Done c (target c q Offset Origin)
  | seek_fails Offset Origin k : k = 0 ∨ Origin = SeekEnd ∧ 0 < k ∧ q + k ≤ Z.of_nat (length c) → specified c q (Seek Offset Origin) Failed c (q + k)
  | flushes Full a : specified c q (Flush Full) a c q.

Definition permitted (c : list Z) (q : Z) (op : operation) : Prop :=
  match op with
  | Read n => 0 < n < 2 ^ 32
  | Write x => Z.of_nat (length x) < 2 ^ 32
  | Seek Offset Origin => 0 ≤ target c q Offset Origin
  | Flush _ => True
  end.

(** C35. A file stream, buffered or not, stands for a file with a position. A read of at least
    one byte, a write, a seek to a place that is not before the start of the file and a flush,
    if they succeed, do to the contents and the position what they do to a file without a
    buffer. If they fail, the contents are as they were, but for the first bytes of a write,
    and the position is where these end, where the bytes that a read took from the buffer end
    (they are lost to the caller), or, for a seek to the end, after bytes that were read ahead.
    The stream goes on to stand for these, except where the file object refused to be moved:
    then the operation has failed and the file has the contents, but the stream and the file
    object differ on the position. After a flush that succeeds the file has the contents. *)
Theorem file_stream_refines c q s op :
  stands c q s → permitted c q op →
  wp (perform op) (λ a s', ∃ c' q', specified c q op a c' q' ∧
    (stands c' q' s' ∨ a = Failed ∧ (∀ n, op ≠ Read n) ∧ stranded c' s') ∧
    ∀ Full, op = Flush Full → a = Done → contents (FileHandle s') = c) s.
Proof.
  intros Hst Hp. destruct op as [n|x|Offset Origin|Full]; cbn [perform permitted] in *; step.
  - eapply wp_mono; [by apply read_stream_ok|]. intros r s' [(-> & Hx & Hne & _ & Hs')|(-> & _ & Hk & _ & Hs')]; step; eexists _, _; (split; [|split; [left; exact Hs'|done]]); constructor; [done|done|lia].
  - eapply wp_mono; [by apply write_stream_ok|]. intros st s' [(Hs & Hs')|(Hs & k & Hk & Hs')]; step; unfold answered; rewrite Hs; eexists _, _; (split; [by constructor|split; [|done]]); [by left|].
    destruct Hs'; [by left|by right].
  - eapply wp_mono; [by apply seek_ok|]. intros st s' [(Hs & Hs')|(Hs & Hs')]; step; unfold answered; rewrite Hs.
    + eexists _, _. split; [constructor|]. split; [by left|done].
    + destruct Hs' as [Hs'|[Hs'|(Ho & k & H1 & H2 & Hs')]].
      * exists c, (q + 0). rewrite Z.add_0_r at 2. split; [constructor; by left|]. split; [by left|done].
      * exists c, (q + 0). split; [constructor; by left|]. split; [by right|done].
      * exists c, (q + k). split; [constructor; by right|]. split; [by left|done].
  - eapply wp_mono; [by apply flush_stream_ok|]. intros st s' (Hs' & _). step. exists c, q. split; [constructor|]. unfold answered. split.
    + destruct Hs' as [[Hs' _]|[-> Hs']]; [by left|by right].
    + intros _ _ Ha. destruct Hs' as [[_ Hi]|[Hs _]]; [|by rewrite Hs in Ha]. destruct (NT_SUCCESS st); [|done]. by destruct Hi as (_ & _ & -> & _).
Qed.

(** When a stream is deleted its bytes are in the file, or, as the result of the flush is not
    used, what was in the buffer is lost. *)
Theorem file_stream_delete c q s : stands c q s → ∃ h closed, PhpFileStreamDeleteProcedure s = Some (h, closed) ∧ (contents h = c ∨ contents h = contents (FileHandle s)).
Proof.
  intros Hst. destruct (flush_stream_ok c q false s Hst) as (st & s' & Hf & _ & Hc). unfold PhpFileStreamDeleteProcedure. rewrite Hf. cbn.
  eexists _, _. split; [done|]. destruct Hc as [?|[_ ?]]; auto.
Qed.
End Theorems.

(** ** A file in memory *)

Definition io (status information : Z) : IO := {| io_status := status; wait_status := 0; isb_Status := status; isb_Information := information |}.

Definition STATUS_END_OF_FILE : Z := 0xC0000011.

Definition memory : FileObject := {|
  Handle := list Z * Z;
  NtReadFile h n position :=
    let data := take (Z.to_nat n) (drop (Z.to_nat (default h.2 position)) h.1) in
    match data with
    | [] => (io STATUS_END_OF_FILE 0, [], h)
    | _ => (io 0 (Z.of_nat (length data)), data, (h.1, match position with None => h.2 + Z.of_nat (length data) | Some _ => h.2 end))
    end;
  NtWriteFile h x position := (io 0 (Z.of_nat (length x)), (splice h.1 (default h.2 position) x, match position with None => h.2 + Z.of_nat (length x) | Some _ => h.2 end));
  query_position h := (0, h.2);
  set_position h q := (0, (h.1, q));
  query_end_of_file h := (0, Z.of_nat (length h.1));
  set_end_of_file h n := (0, (take (Z.to_nat n) h.1, h.2));
  set_allocation h n := (0, h);
  NtFlushBuffersFile h := (0, h);
  NtLockFile h _ _ _ _ := (io 0 0, h);
  NtUnlockFile h _ _ := (0, h);
  PhAllocatePage _ := true;
|}.

#[local] Instance memory_ok : FileObjectOk memory.
Proof.
  refine {| contents := (λ h : @Handle memory, h.1 : list Z); offset := (λ h : @Handle memory, h.2 : Z) |}.
  - intros h n position io data h'. cbn. destruct (take _ _) as [|x l] eqn:E; intros [= <- <- <-] Hn Hat; (split; [done|]); cbn; [done|].
    split; [done|]. split; [done|]. split; [done|]. by intros ->.
  - intros h x position io h'. cbn. intros [= <- <-] Hat. cbn. split; [done|]. split; [done|]. by intros ->.
  - intros h q status h' [= <- <-] _. done.
  - by intros h status n [= <- <-] _.
  - intros h status h' [= <- <-]. done.
Defined.

Definition open (x : list Z) (flags : Z) : @PH_FILE_STREAM memory := PhCreateFileStream2 (H := memory) (x, 0) flags PAGE_SIZE.

Lemma open_ok (x : list Z) flags : stands (F := memory) x 0 (open x flags).
Proof. refine (create_ok (F := memory) (x, 0) flags PAGE_SIZE _ _); [done|unfold PAGE_SIZE; lia]. Qed.

Lemma file_stream_refines_witness : wp (perform (Read 2)) (λ a s', a = Bytes [1; 2] ∨ a = Failed) (open [1; 2; 3] 0).
Proof.
  eapply wp_mono; [apply (file_stream_refines (F := memory) [1; 2; 3] 0 (open [1; 2; 3] 0) (Read 2)); [apply open_ok|done]|].
  intros a s' (c' & q' & Hsp & _). inversion Hsp; subst; [left|right]; done.
Defined.

Lemma file_stream_text_witness : wp (PhWriteStringAsUtf8FileStreamEx (H := memory) (H0 := ntdll) [0x61; 0xd83d; 0xde00])
  (λ st s', write_result (F := memory) [] 0 [0x61; 0xf0; 0x9f; 0x98; 0x80] st s') (open [] 0).
Proof.
  eapply wp_mono; [apply (file_stream_text (F := memory) (N := ntdll) [] 0 [0x61; 0xd83d; 0xde00] (open [] 0)); [apply open_ok|repeat constructor; by vm_compute]|].
  intros st s' [H _]. exact H.
Defined.

(** What a program gives, and the file it leaves. *)
Definition outcome {A} (m : ST (@PH_FILE_STREAM memory) A) (s : @PH_FILE_STREAM memory) : option A := fst <$> m s.
Definition file_after {A} (m : ST (@PH_FILE_STREAM memory) A) (s : @PH_FILE_STREAM memory) : option (list Z) :=
  match m s with
  | Some (_, s) => Some (contents (FileHandle s))
  | None => None
  end.

(** Where the code fails. The position of a stream that has read ahead is 2^32 too far. A read
    that takes the last bytes of a full buffer at the end of the file and finds no more fails,
    and its bytes are lost; without a buffer it gives them. A read of no bytes fills the buffer
    and leaves it in place when the stream is moved, and the next read gives bytes from
    elsewhere. And a character of two units that straddles two pages of a string is written
    as two replacement characters. *)
Theorem file_stream_errors :
  outcome (PhReadFileStream 4;; PhGetPositionFileStream) (open (replicate 10 7) 0) = Some (4 + 2 ^ 32) ∧
  outcome (PhReadFileStream 100;; r ← PhReadFileStream 4000; mret (r.1.1, r.2)) (open (replicate 4096 7) 0) = Some (STATUS_END_OF_FILE, None) ∧
  outcome (PhReadFileStream 100;; r ← PhReadFileStream 4000; mret (r.1.1, r.2)) (open (replicate 4096 7) PH_FILE_STREAM_UNBUFFERED) = Some (0, Some 3996) ∧
  outcome (PhReadFileStream 0;; PhSeekFileStream 5 SeekStart;; r ← PhReadFileStream 1; mret r.1.2) (open [1; 2; 3; 4; 5; 6; 7] 0) = Some [1] ∧
  (let text := replicate 2047 0x61 ++ [0xd83d; 0xde00] in
   file_after (PhWriteStringAsUtf8FileStreamEx (H0 := ntdll) text;; PhFlushFileStream false) (open [] 0) = Some (replicate 2047 0x61 ++ [0xef; 0xbf; 0xbd; 0xef; 0xbf; 0xbd]) ∧
   PhConvertUtf16ToUtf8Ex (H := ntdll) text = Some (replicate 2047 0x61 ++ [0xf0; 0x9f; 0x98; 0x80])).
Proof. split_and!; by vm_compute. Qed.
