(* ===== verification/FreeList.v ===== *)
(** Free lists (src/phlib/basesup.c, src/phlib/include/phbasesup.h): blocks of memory that
    are kept for the next allocation, on a list of which any thread takes and gives blocks
    at once, with a count that is only corrected after the list was changed; the invariant
    that every step keeps, and the theorems. *)

From S2P Require Import Prelude Concurrency.

(** ** The list and the heap

    The interlocked list is popped, pushed and flushed in one step each. Blocks are
    numbered as they are allocated, so that memory that is allocated again after it was
    freed has another number; [Allocated] are those that were not freed. The size of the
    blocks and [MaximumCount] do not change; the latter is a parameter of the functions. *)
Record PH_FREE_LIST := FreeList {
  ListHead : list Z;
  Count : Z;
  Allocated : list Z;
  Next : Z;
}.

Definition PhInitializeFreeList : PH_FREE_LIST := FreeList [] 0 [] 0.

Definition with_count n σ := FreeList (ListHead σ) n (Allocated σ) (Next σ).
Definition with_list l σ := FreeList l (Count σ) (Allocated σ) (Next σ).

(** Freeing a block that is not allocated is a fault. *)
Definition PhFree (b : Z) (σ : PH_FREE_LIST) : option PH_FREE_LIST :=
  if decide (b ∈ Allocated σ)
  then Some (FreeList (ListHead σ) (Count σ) (List.remove Z.eq_dec b (Allocated σ)) (Next σ)) else None.

Definition PhAllocate (σ : PH_FREE_LIST) : PH_FREE_LIST * Z :=
  (FreeList (ListHead σ) (Count σ) (Next σ :: Allocated σ) (Next σ + 1), Next σ).

Section Functions.
Context (MaximumCount : Z).

(** The points of the two functions, before each access to what is shared. *)
Inductive point :=
  | Idle
  | allocate_pop
  | allocate_decrement (b : Z)
  | allocate_heap
  | free_check (b : Z)
  | free_push (b : Z)
  | free_increment
  | free_heap (b : Z).

Definition PhAllocateFromFreeList (σ : PH_FREE_LIST) (p : point) : list (PH_FREE_LIST * (point + Z)) :=
  match p with
  | allocate_pop =>
      match ListHead σ with
      | b :: l => [(with_list l σ, inl (allocate_decrement b))]
      | [] => [(σ, inl allocate_heap)]
      end
  | allocate_decrement b => [(with_count (u32 (Count σ - 1)) σ, inr b)]
  | allocate_heap => let '(σ, b) := PhAllocate σ in [(σ, inr b)]
  | _ => []
  end.

Definition PhFreeToFreeList (σ : PH_FREE_LIST) (p : point) : list (PH_FREE_LIST * point) :=
  match p with
  | free_check b => [(σ, if Count σ <? MaximumCount then free_push b else free_heap b)]
  | free_push b => [(with_list (b :: ListHead σ) σ, free_increment)]
  | free_increment => [(with_count (u32 (Count σ + 1)) σ, Idle)]
  | free_heap b => match PhFree b σ with Some σ => [(σ, Idle)] | None => [] end
  | _ => []
  end.

(** A thread has the blocks it allocated, and frees those it has. *)
Record thread := Thread { owned : list Z; at_point : point }.

Definition next (σ : PH_FREE_LIST) (t : thread) : list (PH_FREE_LIST * thread) :=
  match at_point t with
  | Idle =>
      (σ, Thread (owned t) allocate_pop) ::
      ((λ b, (σ, Thread (List.remove Z.eq_dec b (owned t)) (free_check b))) <$> owned t)
  | allocate_pop | allocate_decrement _ | allocate_heap =>
      (λ r, (r.1, match r.2 with inl p => Thread (owned t) p | inr b => Thread (b :: owned t) Idle end)) <$> PhAllocateFromFreeList σ (at_point t)
  | p => (λ r, (r.1, Thread (owned t) r.2)) <$> PhFreeToFreeList σ p
  end.
End Functions.

(** All blocks of the list are freed. *)
Fixpoint free_all (l : list Z) (σ : PH_FREE_LIST) : option PH_FREE_LIST :=
  match l with
  | [] => Some σ
  | b :: l => σ ← PhFree b σ; free_all l σ
  end.

Definition PhDeleteFreeList (σ : PH_FREE_LIST) : option PH_FREE_LIST := free_all (ListHead σ) (with_list [] σ).

(** ** The invariant *)

Definition in_hand (p : point) : list Z :=
  match p with
  | allocate_decrement b | free_check b | free_push b | free_heap b => [b]
  | _ => []
  end.
Definition held (t : thread) : list Z := owned t ++ in_hand (at_point t).

Definition decrementing (t : thread) : Z := match at_point t with allocate_decrement _ => 1 | _ => 0 end.
Definition incrementing (t : thread) : Z := match at_point t with free_increment => 1 | _ => 0 end.
Definition pushing (t : thread) : Z := match at_point t with free_push _ => 1 | _ => 0 end.

(** Where the blocks are. *)
Definition places (s : system (S := PH_FREE_LIST) (T := thread)) : list Z := ListHead (shared s) ++ (threads s ≫= held).

Record ok (MaximumCount : Z) (s : system) : Prop := {
  ok_places : places s ≡ₚ Allocated (shared s);
  ok_nodup : NoDup (Allocated (shared s));
  ok_next b : b ∈ Allocated (shared s) → b < Next (shared s);
  ok_count : Count (shared s) = u32 (Z.of_nat (length (ListHead (shared s))) + total decrementing (threads s) - total incrementing (threads s));
  ok_bound : Z.of_nat (length (ListHead (shared s))) + total decrementing (threads s) + total pushing (threads s) ≤ Z.max 0 (MaximumCount + Z.of_nat (length (threads s)) - 1);
}.

Lemma remove_perm (b : Z) l : b ∈ l → NoDup l → l ≡ₚ b :: List.remove Z.eq_dec b l.
Proof.
  induction l as [|x l IH]; [by intros ?%elem_of_nil|]. intros Hb [Hx Hl]%NoDup_cons. cbn. destruct (Z.eq_dec b x) as [->|Hne].
  - f_equiv. rewrite List.notin_remove; [done|]. by rewrite <-list_elem_of_In.
  - apply elem_of_cons in Hb as [->|Hb]; [done|]. rewrite (IH Hb Hl) at 1. by rewrite Permutation_swap.
Qed.

(** The blocks of one thread, and all others. *)
Lemma places_split ts i t : ts !! i = Some t → ∃ others : list Z, ∀ (σ' : PH_FREE_LIST),
  places (System σ' ts) ≡ₚ held t ++ ListHead σ' ++ others ∧
  ∀ t', places (System σ' (<[i := t']> ts)) ≡ₚ held t' ++ ListHead σ' ++ others.
Proof.
  intros Ht. exists (delete i ts ≫= held). intros σ'. unfold places. cbn [shared threads]. split.
  - rewrite (delete_Permutation ts i t Ht) at 1. cbn. by rewrite Permutation_app_swap_app.
  - intros t'. assert (<[i := t']> ts !! i = Some t') as Ht' by (apply list_lookup_insert_eq; by eapply lookup_lt_Some).
    rewrite (delete_Permutation _ i t' Ht'). rewrite !delete_take_drop, take_insert_ge, drop_insert_lt by lia. cbn. by rewrite Permutation_app_swap_app.
Qed.

(** ** Every step keeps the invariant *)

Section Steps.
Context (MaximumCount : Z).

(** The blocks on the list, and those that are between the list and the count. *)
Definition kept (σ : PH_FREE_LIST) (t : thread) : Z := Z.of_nat (length (ListHead σ)) + decrementing t + pushing t.

(** What one step changes: the place of a block, and what the thread adds to the sums. *)
Record moves (σ : PH_FREE_LIST) (t : thread) (σ' : PH_FREE_LIST) (t' : thread) : Prop := {
  moves_places others : held t ++ ListHead σ ++ others ≡ₚ Allocated σ → held t' ++ ListHead σ' ++ others ≡ₚ Allocated σ';
  moves_nodup : NoDup (Allocated σ');
  moves_next b : b ∈ Allocated σ' → b < Next σ';
  moves_count x : Count σ = u32 (Z.of_nat (length (ListHead σ)) + decrementing t - incrementing t + x) →
    Count σ' = u32 (Z.of_nat (length (ListHead σ')) + decrementing t' - incrementing t' + x);
  moves_bound :
    kept σ' t' ≤ kept σ t ∨
    σ' = σ ∧ (∃ b, at_point t = free_check b ∧ at_point t' = free_push b) ∧ Count σ < MaximumCount;
}.

#[local] Ltac unmoved :=
  split; unfold held, kept; cbn [owned at_point in_hand decrementing incrementing pushing ListHead Allocated Next Count shared with_count with_list];
    repeat match goal with H : ListHead _ = _ |- _ => progress rewrite ?H end; rewrite ?app_nil_r; try done; try (left; cbn [length]; lia); try (intros x ->; cbn [length]; f_equal; lia).

Lemma next_moves σ t σ' t' :
  (σ', t') ∈ next MaximumCount σ t → NoDup (Allocated σ) → (∀ b, b ∈ Allocated σ → b < Next σ) →
  (∃ others, held t ++ ListHead σ ++ others ≡ₚ Allocated σ) → moves σ t σ' t'.
Proof.
  intros Hin Hnd Hnext [o Ho]. assert (NoDup (owned t)) as Hown.
  { rewrite <-Ho in Hnd. unfold held in Hnd. rewrite <-app_assoc in Hnd. by apply NoDup_app in Hnd as [? _]. }
  destruct t as [own p]. unfold held in *. cbn [owned at_point] in *.
  destruct p as [| |b| |b|b| |b]; cbn [next at_point owned PhAllocateFromFreeList PhFreeToFreeList fmap list_fmap fst snd] in Hin.
  - apply elem_of_cons in Hin as [Hin|Hin]; [simplify_eq; by unmoved|].
    apply list_elem_of_fmap in Hin as (b & ? & Hb). simplify_eq. unmoved. intros others <-.
    by rewrite (remove_perm b own Hb Hown) at 2; rewrite (Permutation_app_comm _ [b]).
  - destruct (ListHead σ) as [|b l] eqn:Hl; cbn in Hin; in_list Hin; simplify_eq; unmoved.
    intros others <-. rewrite <-app_assoc. cbn. by rewrite Permutation_middle.
  - in_list Hin; simplify_eq. unmoved.
    + intros others <-. by rewrite (Permutation_app_comm own [b]).
    + intros x ->. unfold Z.sub. rewrite u32_add. cbn [length]. f_equal. lia.
  - cbn in Hin. in_list Hin; simplify_eq. unmoved.
    + intros others <-. done.
    + apply NoDup_cons. split; [|done]. intros Hb%Hnext. lia.
    + intros b [->|Hb%Hnext]%elem_of_cons; lia.
  - in_list Hin; simplify_eq. destruct (Z.ltb_spec (Count σ) MaximumCount).
    + unmoved. right. eauto 10.
    + unmoved.
  - in_list Hin; simplify_eq. unmoved.
    intros others <-. rewrite <-app_assoc. cbn. by rewrite Permutation_middle.
  - in_list Hin; simplify_eq. unmoved. intros x ->. rewrite u32_add. cbn [length]. f_equal. lia.
  - unfold PhFree in Hin. case_decide as Hb; cbn in Hin; in_list Hin; simplify_eq. unmoved.
    + intros others Hp. rewrite (remove_perm b _ Hb Hnd), <-app_assoc in Hp. cbn in Hp.
      rewrite <-Permutation_middle in Hp. by apply Permutation_cons_inv in Hp.
    + rewrite (remove_perm b _ Hb Hnd) in Hnd. by apply NoDup_cons in Hnd as [_ ?].
    + intros c Hc. apply Hnext. rewrite (remove_perm b _ Hb Hnd). by constructor.
Qed.
End Steps.

Section Invariant.
Context (MaximumCount : Z) (Hmax : 0 ≤ MaximumCount).

Lemma point_weights t : 0 ≤ decrementing t + incrementing t + pushing t ≤ 1 ∧ 0 ≤ decrementing t ∧ 0 ≤ incrementing t ∧ 0 ≤ pushing t.
Proof. destruct t as [own []]; unfold decrementing, incrementing, pushing; cbn; lia. Qed.

(** The sums over the other threads. *)
Lemma others_weights ts i t : ts !! i = Some t →
  (total decrementing ts - decrementing t) + (total incrementing ts - incrementing t) + (total pushing ts - pushing t) ≤ Z.of_nat (length ts) - 1 ∧
  0 ≤ total decrementing ts - decrementing t ∧ 0 ≤ total incrementing ts - incrementing t ∧ 0 ≤ total pushing ts - pushing t.
Proof.
  intros Ht. pose proof (total_others (λ t, (decrementing t + incrementing t) + pushing t) ts i t ltac:(apply point_weights) Ht) as H.
  rewrite !total_add in H. cbn beta in H.
  assert (∀ w, (∀ t, 0 ≤ w t ≤ 1) → 0 ≤ total w ts - w t) as Hw by (intros w Hw; apply (total_others w ts i t Hw Ht)).
  split_and!; [lia|apply Hw..]; intros u; pose proof (point_weights u); lia.
Qed.

Lemma ok_step s s' : MaximumCount + Z.of_nat (length (threads s)) ≤ 2 ^ 32 → ok MaximumCount s → step (next MaximumCount) s s' → ok MaximumCount s'.
Proof.
  intros Hn [Hp Hnd Hnext Hc Hb] Hs. destruct Hs as [i σ ts t σ' t' Ht Hin]. cbn [shared threads] in *.
  destruct (places_split ts i t Ht) as [o Ho]. destruct (Ho σ) as [Ho1 _]. rewrite Ho1 in Hp.
  destruct (next_moves MaximumCount σ t σ' t' Hin Hnd Hnext ltac:(by exists o)) as [Mp Mn Mx Mc Mb].
  pose proof (others_weights ts i t Ht). unfold kept in Mb. split; cbn [shared threads]; rewrite ?length_insert, ?(total_insert _ _ _ _ _ Ht).
  - rewrite (proj2 (Ho σ') t'). by apply Mp.
  - done.
  - done.
  - specialize (Mc ((total decrementing ts - decrementing t) - (total incrementing ts - incrementing t))).
    rewrite Mc; [f_equal; lia|]. rewrite Hc. f_equal. lia.
  - destruct Mb as [Mb|(-> & (b & H1 & H2) & Hlt)]; [lia|].
    assert (decrementing t = 0 ∧ incrementing t = 0 ∧ pushing t = 0 ∧ decrementing t' = 0 ∧ pushing t' = 1) as (?&?&?&?&?).
    { unfold decrementing, incrementing, pushing. rewrite H1, H2. done. }
    rewrite Hc in Hlt. destruct (decide (0 ≤ Z.of_nat (length (ListHead σ)) + total decrementing ts - total incrementing ts)); [|lia].
    rewrite u32_small in Hlt; lia.
Qed.

Definition start (n : nat) : system := System PhInitializeFreeList (replicate n (Thread [] Idle)).

Lemma ok_start n : ok MaximumCount (start n).
Proof.
  split; cbn [start shared threads ListHead Allocated PhInitializeFreeList Count]; rewrite ?total_replicate; cbn [decrementing incrementing pushing at_point length].
  - unfold places. cbn. induction n; done.
  - constructor.
  - by intros b ?%elem_of_nil.
  - by rewrite !Z.mul_0_r.
  - lia.
Qed.

Lemma ok_reachable n s : MaximumCount + Z.of_nat n ≤ 2 ^ 32 → reachable (next MaximumCount) (start n) s → ok MaximumCount s ∧ length (threads s) = n.
Proof.
  intros Hn. apply (reachable_invariant _ (λ s, ok MaximumCount s ∧ length (threads s) = n)).
  - split; [apply ok_start|apply length_replicate].
  - intros s1 s2 [Hok Hl] Hs. split; [|by rewrite (step_threads_length _ _ _ Hs)]. eapply ok_step; [|done..]. by rewrite Hl.
Qed.

(** ** Deleting the list, and blocks that are always there to free *)

Lemma free_all_spec l k σ : NoDup (Allocated σ) → l ++ k ≡ₚ Allocated σ →
  ∃ σ', free_all l σ = Some σ' ∧ ListHead σ' = ListHead σ ∧ Allocated σ' ≡ₚ k.
Proof.
  revert σ. induction l as [|b l IH]; intros σ Hnd Hl; cbn [free_all]; [by exists σ|].
  assert (b ∈ Allocated σ) as Hb by (rewrite <-Hl; by constructor).
  unfold PhFree. rewrite decide_True by done. cbn [mbind option_bind].
  pose proof (remove_perm b _ Hb Hnd) as Hr. rewrite Hr in Hl, Hnd. apply NoDup_cons in Hnd as [_ Hnd]. cbn in Hl. apply Permutation_cons_inv in Hl.
  by apply (IH (FreeList (ListHead σ) (Count σ) (List.remove Z.eq_dec b (Allocated σ)) (Next σ))).
Qed.

Lemma places_held i s t b : threads s !! i = Some t → b ∈ held t → b ∈ places s.
Proof.
  intros Ht Hb. unfold places. apply elem_of_app. right. apply list_elem_of_bind. exists t. split; [done|]. by eapply list_elem_of_lookup_2.
Qed.

Lemma next_exists s i t : ok MaximumCount s → threads s !! i = Some t → next MaximumCount (shared s) t ≠ [].
Proof.
  intros [Hp _ _ _ _] Ht. destruct t as [own p] eqn:Heq. destruct p; cbn; try done; [by destruct (ListHead (shared s))|].
  unfold PhFree. rewrite decide_True; [done|]. rewrite <-Hp. eapply places_held; [done|]. unfold held. cbn. set_solver.
Qed.

(** C37. A free list that any number of threads use at once neither loses nor doubles a
    block: in every state that can be reached, however the threads were interleaved, the
    blocks that were allocated and not freed are exactly those on the list and those the
    threads have, and none is in two of these places, so no two allocations give the same
    block; no step is a fault, in particular none frees a block twice; and the list has at
    most [MaximumCount + n - 1] blocks, as [MaximumCount] is only checked. When no thread
    is in a function, the count is the length of the list, although it may have been below
    zero before, and deleting the list frees what is on it and nothing else. *)
Theorem free_list_safe n s :
  MaximumCount + Z.of_nat n ≤ 2 ^ 32 → reachable (next MaximumCount) (start n) s →
  NoDup (places s) ∧ places s ≡ₚ Allocated (shared s) ∧
  (∀ t, t ∈ threads s → next MaximumCount (shared s) t ≠ []) ∧
  Z.of_nat (length (ListHead (shared s))) ≤ Z.max 0 (MaximumCount + Z.of_nat n - 1) ∧
  ((∀ t, t ∈ threads s → at_point t = Idle) →
    Count (shared s) = Z.of_nat (length (ListHead (shared s))) ∧
    ∃ σ, PhDeleteFreeList (shared s) = Some σ ∧ ListHead σ = [] ∧ Allocated σ ≡ₚ threads s ≫= owned).
Proof.
  intros Hn Hs. destruct (ok_reachable n s Hn Hs) as [Hok Hl]. pose proof Hok as [Hp Hnd _ Hc Hb]. rewrite Hl in Hb.
  assert (∀ w, (∀ t, 0 ≤ w t) → 0 ≤ total w (threads s)) as Hw by (intros; by apply total_nonneg).
  pose proof (Hw decrementing ltac:(apply point_weights)). pose proof (Hw pushing ltac:(apply point_weights)).
  split_and!; [by rewrite Hp|done| |lia|].
  - intros t [i Ht]%list_elem_of_lookup_1. by eapply next_exists.
  - intros Hidle. split.
    + assert (∀ w, (∀ t, at_point t = Idle → w t = 0) → total w (threads s) = 0) as Hzero.
      { intros w Hw0. clear -Hidle Hw0. induction (threads s) as [|t ts IH]; [done|]. rewrite total_cons, Hw0 by (apply Hidle; set_solver).
        rewrite IH; [done|]. set_solver. }
      rewrite Hc, !Hzero by (intros t Ht; unfold decrementing, incrementing; by rewrite Ht). rewrite u32_small; lia.
    + assert (threads s ≫= held = threads s ≫= owned) as Hheld.
      { clear -Hidle. induction (threads s) as [|t ts IH]; [done|]. cbn. rewrite IH by set_solver.
        unfold held. rewrite (Hidle t) by set_solver. cbn. by rewrite app_nil_r. }
      unfold places in Hp. rewrite Hheld in Hp.
      by apply (free_all_spec _ _ (with_list [] (shared s))).
Qed.

(** What is left of the function that the thread is in. *)
Definition remaining (t : thread) : Z :=
  match at_point t with
  | Idle => 0
  | allocate_pop | free_push _ => 2
  | allocate_decrement _ | allocate_heap | free_increment | free_heap _ => 1
  | free_check _ => 3
  end.

Definition all_idle (s : system (S := PH_FREE_LIST) (T := thread)) : Prop := Forall (λ t, at_point t = Idle) (threads s).

#[local] Instance point_idle_dec (t : thread) : Decision (at_point t = Idle).
Proof. destruct (at_point t); [by left|by right..]. Defined.

Lemma next_remaining σ t σ' t' : at_point t ≠ Idle → (σ', t') ∈ next MaximumCount σ t → 0 ≤ remaining t' < remaining t.
Proof.
  intros Hp Hin. destruct t as [own []]; cbn in *; try done; repeat case_match; cbn in Hin; in_list Hin; simplify_eq; cbn; try lia.
Qed.

(** Whatever the threads are doing, they can finish, one after the other. *)
Theorem free_list_drains n s :
  MaximumCount + Z.of_nat n ≤ 2 ^ 32 → reachable (next MaximumCount) (start n) s →
  ∃ s', rtc (step (next MaximumCount)) s s' ∧ all_idle s'.
Proof.
  intros Hn Hs. pose proof (ok_reachable n s Hn Hs) as HI.
  destruct (drain (next MaximumCount) (λ s, ok MaximumCount s ∧ length (threads s) = n) all_idle (λ s, Z.to_nat (total remaining (threads s)))) with s
    as (s' & H1 & _ & H2); [|done|by exists s'].
  clear -Hn Hmax. intros s [Hok Hl] Hidle. apply not_Forall_Exists in Hidle; [|apply _].
  apply Exists_exists in Hidle as (t & [i Ht]%list_elem_of_lookup_1 & Hp). cbn beta in Hp.
  destruct (next MaximumCount (shared s) t) as [|[σ' t'] l] eqn:Hnext; [by destruct (next_exists s i t Hok Ht)|].
  assert ((σ', t') ∈ next MaximumCount (shared s) t) as Hin by (rewrite Hnext; constructor).
  destruct s as [σ ts]. cbn [shared threads] in *. exists (System σ' (<[i := t']> ts)).
  assert (step (next MaximumCount) (System σ ts) (System σ' (<[i := t']> ts))) as Hstep by (by econstructor).
  split; [by apply rtc_once|]. split; [split; [eapply ok_step; [|done..]; cbn; lia|cbn; by rewrite length_insert]|].
  cbn [threads]. rewrite (total_insert _ _ _ _ _ Ht). pose proof (next_remaining _ _ _ _ Hp Hin).
  assert (∀ u, 0 ≤ remaining u) as Hr by (intros u; unfold remaining; case_match; lia).
  pose proof (total_elem remaining ts i t Hr Ht). lia.
Qed.

End Invariant.

(** Two threads free when the list is one block short of full: the list gets two. *)
Lemma free_list_safe_witness : ∃ s, reachable (next 1) (start 2) s ∧ ListHead (shared s) = [1; 0] ∧ NoDup (places s) ∧
  Count (shared s) = 2 ∧ ∃ σ, PhDeleteFreeList (shared s) = Some σ ∧ Allocated σ ≡ₚ [].
Proof.
  destruct (run (next 1) [(0, 0); (0, 0); (0, 0); (1, 0); (1, 0); (1, 0); (0, 1); (1, 1); (0, 0); (1, 0); (0, 0); (1, 0); (0, 0); (1, 0)]%nat (start 2))
    as [s|] eqn:Hs; [|by vm_compute in Hs].
  pose proof (run_steps _ _ _ _ Hs) as Hr. exists s. vm_compute in Hs. injection Hs as Hs.
  destruct (free_list_safe 1 ltac:(lia) 2 s ltac:(lia) Hr) as (H1 & _ & _ & _ & H2).
  destruct H2 as (H2 & σ & H3 & _ & H4); [subst s; cbn [threads]; intros t; rewrite !elem_of_cons; intros [->|[->|[]%elem_of_nil]]; done|].
  split; [done|]. split; [by subst s|]. split; [done|]. split; [by rewrite H2; subst s|]. exists σ. split; [done|]. by subst s.
Defined.

(** The count is below zero, and so the largest number: one thread has pushed a block and
    not counted it, another has taken it. Until the first thread goes on, every block that
    is freed goes to the heap. *)
Lemma free_list_count_wraps : ∃ s, reachable (next 1) (start 2) s ∧ Count (shared s) = 2 ^ 32 - 1 ∧ ListHead (shared s) = [].
Proof.
  destruct (run (next 1) [(0, 0); (0, 0); (0, 0); (0, 1); (0, 0); (0, 0); (1, 0); (1, 0); (1, 0)]%nat (start 2))
    as [s|] eqn:Hs; [|by vm_compute in Hs].
  exists s. split; [by eapply run_steps|]. vm_compute in Hs. injection Hs as <-. done.
Qed.
