(* ===== verification/AutoPool.v ===== *)
(** Automatic dereference pools (src/phlib/ref.c, src/phlib/include/ref.h): a stack of pools for
    each thread. Objects are added to the pool on top, and lose a reference each when
    their pool is drained or deleted. A pool is used by one thread only. *)

From S2P Require Import Prelude Blocks.

Definition STATUS_UNSUCCESSFUL : Z := 0xC0000001.
Definition PH_AUTO_POOL_STATIC_SIZE : Z := 64.
Definition PH_AUTO_POOL_DYNAMIC_BIG_SIZE : Z := 256.

(** ** Pools

    A dynamic array belongs to one pool, so its elements are kept with the pointer to it;
    [address] tells an array from those that were there before. [Freed] is the pointer
    that is left when a pool is deleted. *)
Inductive dynamic :=
  | NULL
  | Array (address : nat) (elements : block Z)
  | Freed.

Record PH_AUTO_POOL := AutoPool {
  StaticCount : Z;
  StaticObjects : block Z;
  DynamicCount : Z;
  DynamicAllocated : Z;
  DynamicObjects : dynamic;
  NextPool : Z;
}.

Definition with_static n b P := AutoPool n b (DynamicCount P) (DynamicAllocated P) (DynamicObjects P) (NextPool P).
Definition with_dynamic n m d P := AutoPool (StaticCount P) (StaticObjects P) n m d (NextPool P).

(** What a thread has: the memory in which its pools are, at the addresses of pools, the
    pool that its slot of thread-local storage has (0 for none), the number of dynamic
    arrays there have been, and the objects that lost a reference, in this order. *)
Record memory := Memory {
  Pools : gmap Z PH_AUTO_POOL;
  Current : Z;
  Arrays : nat;
  Dereferenced : list Z;
}.

(** An address that is not that of a pool is a fault. *)
Definition load_pool (p : Z) : ST memory PH_AUTO_POOL := λ m,
  match Pools m !! p with Some P => Some (P, m) | None => None end.
Definition store_pool (p : Z) (P : PH_AUTO_POOL) : ST memory unit := λ m, Some (tt, Memory (<[p := P]> (Pools m)) (Current m) (Arrays m) (Dereferenced m)).
Definition new_array : ST memory nat := λ m, Some (Arrays m, Memory (Pools m) (Current m) (S (Arrays m)) (Dereferenced m)).

(** An element that was not written, or that is outside, is a fault. *)
Definition element (b : block Z) (i : Z) : ST memory Z :=
  match (b : list (option Z)) !! Z.to_nat i with
  | Some (Some x) => mret x
  | _ => fault
  end.
Definition set_element (b : block Z) (i x : Z) : ST memory (block Z) :=
  match store b i [x] with
  | Ok b => mret b
  | _ => fault
  end.

Definition PhpGetCurrentAutoPool : ST memory Z := λ m, Some (Current m, m).
Definition log_object (o : Z) : ST memory unit := λ m, Some (tt, Memory (Pools m) (Current m) (Arrays m) (Dereferenced m ++ [o])).

(** A function that can raise an exception gives the status. *)
Definition or_raise (A : Type) : Type := A + Z.

(** What a pool is when nothing was stored in it yet: its storage is not initialized. *)
Definition uninitialized : PH_AUTO_POOL := AutoPool 0 (allocate PH_AUTO_POOL_STATIC_SIZE) 0 0 NULL 0.

Section Functions.
(** Whether the program is a debug build, whether setting the slot succeeds, and what the
    delete procedure of an object does when the object loses its last reference. *)
Context (DEBUG slot_set : bool) (delete_procedure : Z → ST memory unit).

Definition PhpSetCurrentAutoPool (p : Z) : ST memory (or_raise unit) := λ m,
  if slot_set then Some (inl tt, Memory (Pools m) p (Arrays m) (Dereferenced m)) else Some (inr STATUS_UNSUCCESSFUL, m).

Definition PhDereferenceObject (o : Z) : ST memory unit := log_object o;; delete_procedure o.

(** The loop of [PhDereferenceObjects] from the index [i] on; [objects] reads an element of
    the array whose address was passed. *)
Fixpoint PhDereferenceObjects (objects : Z → ST memory Z) (n : nat) (i : Z) : ST memory unit :=
  match n with
  | O => mret tt
  | S n =>
      o ← objects i;
      PhDereferenceObject o;;
      PhDereferenceObjects objects n (i + 1)
  end.

Definition static_element (p i : Z) : ST memory Z := P ← load_pool p; element (StaticObjects P) i.

(** An array that is not there any more is a fault. *)
Definition dynamic_element (p : Z) (address : nat) (i : Z) : ST memory Z :=
  P ← load_pool p;
  match DynamicObjects P with
  | Array a b => if decide (a = address) then element b i else fault
  | _ => fault
  end.

Definition PhInitializeAutoPool (p : Z) : ST memory (or_raise unit) :=
  next ← PhpGetCurrentAutoPool;
  P ← load_pool p;
  store_pool p (AutoPool 0 (StaticObjects P) 0 0 NULL next);;
  PhpSetCurrentAutoPool p.

Definition PhDrainAutoPool (p : Z) : ST memory unit :=
  P ← load_pool p;
  PhDereferenceObjects (static_element p) (Z.to_nat (StaticCount P)) 0;;
  P ← load_pool p;
  store_pool p (with_static 0 (StaticObjects P) P);;
  P ← load_pool p;
  match DynamicObjects P with
  | NULL => mret tt
  | Freed => fault
  | Array address _ =>
      PhDereferenceObjects (dynamic_element p address) (Z.to_nat (DynamicCount P)) 0;;
      P ← load_pool p;
      store_pool p (with_dynamic 0 (DynamicAllocated P) (DynamicObjects P) P);;
      if PH_AUTO_POOL_DYNAMIC_BIG_SIZE <? DynamicAllocated P then
        P ← load_pool p;
        store_pool p (with_dynamic (DynamicCount P) 0 NULL P)
      else mret tt
  end.

Definition PhDeleteAutoPool (p : Z) : ST memory (or_raise unit) :=
  PhDrainAutoPool p;;
  current ← PhpGetCurrentAutoPool;
  if negb (current =? p) then mret (inr STATUS_UNSUCCESSFUL)
  else
    P ← load_pool p;
    r ← PhpSetCurrentAutoPool (NextPool P);
    match r with
    | inr status => mret (inr status)
    | inl _ =>
        match DynamicObjects P with
        | NULL => mret (inl tt)
        | _ => store_pool p (with_dynamic (DynamicCount P) (DynamicAllocated P) Freed P);; mret (inl tt)
        end
    end.

(** The dynamic array of [PhAutoDereferenceObject]: allocated, and grown when it is full. *)
Definition dynamic_array (P : PH_AUTO_POOL) : ST memory PH_AUTO_POOL :=
  P ← match DynamicObjects P with
      | NULL => address ← new_array; mret (with_dynamic (DynamicCount P) 64 (Array address (allocate 64)) P)
      | _ => mret P
      end;
  if DynamicCount P =? DynamicAllocated P then
    match DynamicObjects P with
    | Array _ b =>
        address ← new_array;
        let n := u32 (DynamicAllocated P * 2) in
        mret (with_dynamic (DynamicCount P) n (Array address (reallocate b n)) P)
    | _ => fault
    end
  else mret P.

Definition PhAutoDereferenceObject (o : Z) : ST memory (or_raise Z) :=
  p ← PhpGetCurrentAutoPool;
  if DEBUG && (p =? 0) then mret (inr STATUS_UNSUCCESSFUL)
  else if o =? 0 then mret (inl 0)
  else
    P ← load_pool p;
    if StaticCount P <? PH_AUTO_POOL_STATIC_SIZE then
      b ← set_element (StaticObjects P) (StaticCount P) o;
      store_pool p (with_static (u32 (StaticCount P + 1)) b P);;
      mret (inl o)
    else
      P ← dynamic_array P;
      match DynamicObjects P with
      | Array address b =>
          b ← set_element b (DynamicCount P) o;
          store_pool p (with_dynamic (u32 (DynamicCount P + 1)) (DynamicAllocated P) (Array address b) P);;
          mret (inl o)
      | _ => fault
      end.

End Functions.
