(* ===== verification/AutoPoolTheorems.v ===== *)
(** Automatic dereference pools: the stack of lists that the pools of a thread are, and the
    theorems. *)

From S2P Require Import Prelude Blocks AutoPool.

(** ** Pools as lists *)

(** The objects of a pool, in the order in which they were added. *)
Record contents (P : PH_AUTO_POOL) (l : list Z) : Prop := {
  static_length : Z.of_nat (length (StaticObjects P)) = 64;
  static_count : StaticCount P = Z.of_nat (length l) `min` 64;
  static_objects : holds (StaticObjects P) (take 64 l);
  dynamic_count : DynamicCount P = Z.of_nat (length l) - StaticCount P;
  dynamic_objects :
    match DynamicObjects P with
    | NULL => (length l ≤ 64)%nat
    | Array _ b => holds b (drop 64 l) ∧ Z.of_nat (length b) = DynamicAllocated P ∧ 64 ≤ DynamicAllocated P < 2 ^ 32
    | Freed => False
    end;
}.

(** The stack of pools, from the current one on: their addresses and their objects. *)
Fixpoint chain (pools : gmap Z PH_AUTO_POOL) (p : Z) (st : list (Z * list Z)) : Prop :=
  match st with
  | [] => p = 0
  | (q, l) :: st => p = q ∧ p ≠ 0 ∧ ∃ P, pools !! p = Some P ∧ contents P l ∧ chain pools (NextPool P) st
  end.

Record represents (m : memory) (st : list (Z * list Z)) : Prop := {
  rep_chain : chain (Pools m) (Current m) st;
  rep_nodup : NoDup st.*1;
  rep_null : Pools m !! 0 = None;
  rep_size p P : Pools m !! p = Some P → Z.of_nat (length (StaticObjects P)) = 64;
}.

Lemma chain_other pools p P q st : p ∉ st.*1 → chain pools q st → chain (<[p := P]> pools) q st.
Proof.
  revert q. induction st as [|[q' l] st IH]; intros q Hp; cbn; [done|]. cbn in Hp. apply not_elem_of_cons in Hp as [Hne Hp].
  intros (-> & H0 & Q & HQ & Hc & Hch). split; [done|]. split; [done|]. exists Q. rewrite lookup_insert_ne by done. auto.
Qed.

(** One pool of a stack. *)
Lemma chain_split pools q st i p l : chain pools q st → NoDup st.*1 → st !! i = Some (p, l) →
  ∃ P, pools !! p = Some P ∧ contents P l ∧ p ≠ 0 ∧
    ∀ P' l', contents P' l' → NextPool P' = NextPool P → chain (<[p := P']> pools) q (<[i := (p, l')]> st).
Proof.
  revert q i. induction st as [|[q' l1] st IH]; intros q i; [done|]. cbn. intros (-> & H0 & Q & HQ & Hc & Hch) [Hq Hnd]%NoDup_cons.
  destruct i as [|i]; cbn.
  - intros [= <- <-]. exists Q. split_and!; [done..|]. intros P' l' Hc' Hn. split; [done|]. split; [done|]. exists P'.
    rewrite lookup_insert_eq, Hn. split_and!; [done..|]. by apply chain_other.
  - intros Hi. destruct (IH _ _ Hch Hnd Hi) as (P & HP & HcP & Hp0 & Hnew). exists P. split_and!; [done..|].
    intros P' l' Hc' Hn. split; [done|]. split; [done|]. exists Q. rewrite lookup_insert_ne; [auto|].
    intros ->. apply Hq. apply list_elem_of_fmap. exists (q', l). split; [done|]. by eapply list_elem_of_lookup_2.
Qed.

Lemma contents_empty P : StaticCount P = 0 → DynamicCount P = 0 → Z.of_nat (length (StaticObjects P)) = 64 →
  match DynamicObjects P with
  | NULL => True
  | Array _ b => Z.of_nat (length b) = DynamicAllocated P ∧ 64 ≤ DynamicAllocated P < 2 ^ 32
  | Freed => False
  end → contents P [].
Proof.
  intros H1 H2 H3 H4. split; [done|by rewrite H1|apply holds_nil|by rewrite H1, H2|].
  destruct (DynamicObjects P); [cbn; lia| |done]. split; [apply holds_nil|done].
Qed.

(** ** Adding *)

Lemma wp_set_element (b : block Z) (l : list Z) (x : Z) Q (s : memory) : holds b l → (length l < length b)%nat →
  (∀ b', holds b' (l ++ [x]) → length b' = length b → Q b' s) → wp (set_element b (Z.of_nat (length l)) x) Q s.
Proof.
  intros Hb Hl HQ. unfold set_element. destruct (store_end b l [x] Hb) as (b' & -> & Hb' & Hlen); [cbn; lia|]. apply wp_ret. auto.
Qed.

Lemma dynamic_array_ok P l m Q : contents P l → (64 ≤ length l)%nat → Z.of_nat (length l) < 2 ^ 31 →
  (∀ P' m' a b, Pools m' = Pools m → Current m' = Current m → Dereferenced m' = Dereferenced m →
     StaticCount P' = StaticCount P → StaticObjects P' = StaticObjects P → DynamicCount P' = DynamicCount P → NextPool P' = NextPool P →
     DynamicObjects P' = Array a b → holds b (drop 64 l) → Z.of_nat (length b) = DynamicAllocated P' → DynamicCount P < DynamicAllocated P' →
     64 ≤ DynamicAllocated P' < 2 ^ 32 → Q P' m') →
  wp (dynamic_array P) Q m.
Proof.
  intros [H1 H2 H3 H4 H5] Hl Hmax HQ. unfold dynamic_array. step. rewrite Z.min_r in H2 by lia.
  destruct (DynamicObjects P) as [|a b|] eqn:Hd; [| |done].
  - apply wp_bind. eexists _, _. split; [reflexivity|]. step. cbn [DynamicCount DynamicAllocated with_dynamic].
    destruct (Z.eqb_spec (DynamicCount P) 64); [lia|]. step. eapply HQ; try done; cbn; [|lia..].
    rewrite drop_ge by lia. apply holds_nil.
  - destruct H5 as (Hb & Hlen & Hall). step. pose proof (holds_length _ _ Hb) as Hle. rewrite length_drop in Hle.
    destruct (Z.eqb_spec (DynamicCount P) (DynamicAllocated P)).
    + rewrite Hd. apply wp_bind. eexists _, _. split; [reflexivity|]. cbv zeta. step.
      assert (u32 (DynamicAllocated P * 2) = DynamicAllocated P * 2) as Hu by (apply u32_small; lia). rewrite Hu.
      eapply HQ; try done; cbn; [|rewrite length_reallocate; lia|lia..]. apply holds_reallocate; [done|]. rewrite length_drop. lia.
    + step. eapply HQ; try done. lia.
Qed.

Lemma add_static P l o : contents P l → (length l < 64)%nat →
  ∀ b, holds b (l ++ [o]) → length b = length (StaticObjects P) → contents (with_static (u32 (StaticCount P + 1)) b P) (l ++ [o]).
Proof.
  intros [H1 H2 H3 H4 H5] Hl b Hb Hlen. rewrite Z.min_l in H2 by lia.
  assert (u32 (StaticCount P + 1) = Z.of_nat (length (l ++ [o]))) as Hc by (rewrite length_app, u32_small; cbn; lia).
  rewrite length_app in Hc. cbn in Hc. split; cbn; rewrite ?Hc, ?length_app; cbn; [lia|lia| |lia|].
  - rewrite take_ge; [done|]. rewrite length_app. cbn. lia.
  - destruct (DynamicObjects P); [lia| |done]. rewrite !drop_ge in *; [done|lia|rewrite length_app; cbn; lia].
Qed.

Lemma add_dynamic P l o : contents P l → (64 ≤ length l)%nat → Z.of_nat (length l) < 2 ^ 31 →
  ∀ P' a b, StaticCount P' = StaticCount P → StaticObjects P' = StaticObjects P → DynamicCount P' = DynamicCount P →
  holds b (drop 64 l ++ [o]) → Z.of_nat (length b) = DynamicAllocated P' → 64 ≤ DynamicAllocated P' < 2 ^ 32 →
  contents (with_dynamic (u32 (DynamicCount P' + 1)) (DynamicAllocated P') (Array a b) P') (l ++ [o]).
Proof.
  intros [H1 H2 H3 H4 H5] Hl Hmax P' a b E1 E2 E3 Hb Hlen Hall.
  split; cbn; rewrite ?E1, ?E2, ?E3, ?length_app; cbn; [done|lia| |rewrite u32_small; lia|].
  - by rewrite take_app_le by lia.
  - by rewrite drop_app_le by lia.
Qed.

Section Adding.
Context (DEBUG : bool).

Lemma auto_dereference_ok m p l st o :
  represents m ((p, l) :: st) → o ≠ 0 → Z.of_nat (length l) < 2 ^ 31 →
  wp (PhAutoDereferenceObject DEBUG o) (λ r m', r = inl o ∧ represents m' ((p, l ++ [o]) :: st) ∧ Dereferenced m' = Dereferenced m ∧ dom (Pools m') = dom (Pools m)) m.
Proof.
  intros [Hch Hnd Hnull Hsize] Ho Hmax. destruct Hch as (Hcur & Hp & P & HP & Hc & Hch). apply NoDup_cons in Hnd as [Hp' Hnd].
  assert (∀ P' m', Pools m' = <[p := P']> (Pools m) → Current m' = p → NextPool P' = NextPool P → contents P' (l ++ [o]) →
    represents m' ((p, l ++ [o]) :: st)) as Hrep.
  { intros P' m' E1 E2 E3 Hc'. split; rewrite ?E1, ?E2.
    - split; [done|]. split; [congruence|]. exists P'. rewrite lookup_insert_eq, E3. split_and!; [done..|]. by apply chain_other.
    - cbn. by apply NoDup_cons.
    - rewrite lookup_insert_ne by congruence. done.
    - intros q Q. rewrite lookup_insert. case_decide; [intros [= <-]; apply Hc'|apply Hsize]. }
  unfold PhAutoDereferenceObject. apply wp_bind. eexists _, _. split; [reflexivity|].
  destruct (Z.eqb_spec (Current m) 0); [congruence|]. rewrite andb_false_r. destruct (Z.eqb_spec o 0); [done|].
  apply wp_bind. unfold load_pool at 1, wp. rewrite HP. eexists _, _. split; [reflexivity|].
  pose proof Hc as [H1 H2 H3 H4 H5]. destruct (Z.ltb_spec (StaticCount P) PH_AUTO_POOL_STATIC_SIZE) as [Hlt|Hge].
  - unfold PH_AUTO_POOL_STATIC_SIZE in Hlt. assert (length l < 64)%nat by lia. rewrite take_ge in H3 by lia. rewrite Z.min_l in H2 by lia.
    apply wp_bind. rewrite H2. apply wp_set_element; [done|lia|]. intros b Hb Hlen. rewrite <-H2.
    apply wp_bind. eexists _, _. split; [reflexivity|]. step. split; [done|]. split; [|split; [done|cbn; apply dom_insert_lookup_L; by exists P]].
    eapply Hrep; [cbn; by rewrite Hcur|by cbn|done|]. by apply add_static.
  - unfold PH_AUTO_POOL_STATIC_SIZE in Hge. assert (64 ≤ length l)%nat by lia.
    apply wp_bind. apply (dynamic_array_ok P l); [done..|]. intros P' m' a b E1 E2 E3 E4 E5 E6 E7 E8 Hb Hlen Hlt Hall. rewrite E8.
    apply wp_bind. rewrite E6. assert (DynamicCount P = Z.of_nat (length (drop 64 l))) as Hcnt by (rewrite length_drop; lia). rewrite Hcnt.
    apply wp_set_element; [done|lia|]. intros b' Hb' Hlen'. rewrite <-Hcnt.
    apply wp_bind. eexists _, _. split; [reflexivity|]. step. split; [done|]. split; [|split; [done|cbn; rewrite E1; apply dom_insert_lookup_L; by exists P]].
    eapply Hrep; cbn; [by rewrite E1, Hcur|by rewrite E2|done|]. rewrite <-E6. apply (add_dynamic P l o); try done. lia.
Qed.

End Adding.

(** ** Draining, when the delete procedures leave the pools alone *)

Definition Quiet (delete_procedure : Z → ST memory unit) : Prop := ∀ o m, delete_procedure o m = Some (tt, m).

Section Draining.
Context (DEBUG slot_set : bool) (delete_procedure : Z → ST memory unit) (Hquiet : Quiet delete_procedure).

Definition logged (m : memory) (l : list Z) : memory := Memory (Pools m) (Current m) (Arrays m) (Dereferenced m ++ l).

Lemma logged_nil m : logged m [] = m.
Proof. destruct m. unfold logged. cbn. by rewrite app_nil_r. Qed.

Lemma logged_app m k l : logged (logged m k) l = logged m (k ++ l).
Proof. unfold logged. cbn. by rewrite app_assoc. Qed.

Lemma dereference_objects_ok objects l (i : nat) m Q :
  (∀ (j : nat) o k, l !! j = Some o → objects (Z.of_nat (i + j)) (logged m k) = Some (o, logged m k)) →
  Q tt (logged m l) → wp (PhDereferenceObjects delete_procedure objects (length l) (Z.of_nat i)) Q m.
Proof.
  revert i m. induction l as [|o l IH]; intros i m Hobj HQ; cbn; [step; by rewrite logged_nil in HQ|].
  pose proof (Hobj O o [] eq_refl) as H0. rewrite logged_nil, Nat.add_0_r in H0.
  apply wp_bind. eexists _, _. split; [exact H0|]. apply wp_bind. exists tt, (logged m [o]). split.
  { unfold PhDereferenceObject, log_object, mbind, ST_bind. by rewrite Hquiet. }
  replace (Z.of_nat i + 1) with (Z.of_nat (S i)) by lia. apply IH.
  - intros j x k Hj. rewrite logged_app. rewrite <-(Hobj (S j) x ([o] ++ k) Hj). do 2 f_equal. lia.
  - by rewrite logged_app.
Qed.

Lemma element_ok (b : block Z) l (j : nat) o m : holds b l → l !! j = Some o → element b (Z.of_nat j) m = Some (o, m).
Proof. intros Hb Hj. unfold element. rewrite Nat2Z.id. by rewrite (holds_lookup b l j o Hb Hj). Qed.

Lemma drain_ok m p P l : Pools m !! p = Some P → contents P l →
  wp (PhDrainAutoPool delete_procedure p) (λ _ m', ∃ P', contents P' [] ∧ NextPool P' = NextPool P ∧
    Pools m' = <[p := P']> (Pools m) ∧ Current m' = Current m ∧ Dereferenced m' = Dereferenced m ++ l) m.
Proof.
  intros HP [H1 H2 H3 H4 H5]. unfold PhDrainAutoPool.
  assert (∀ m (P : PH_AUTO_POOL), Pools m !! p = Some P → load_pool p m = Some (P, m)) as Hload by (intros m0 P0 HP0; unfold load_pool; by rewrite HP0).
  apply wp_bind. eexists _, _. split; [by apply Hload|].
  apply wp_bind. replace (Z.to_nat (StaticCount P)) with (length (take 64 l)) by (rewrite length_take; lia).
  apply (dereference_objects_ok _ _ 0).
  { intros j o k Hj. unfold static_element, mbind, ST_bind. rewrite (Hload (logged m k) P HP). by apply (element_ok _ (take 64 l)). }
  apply wp_bind. eexists _, _. split; [by apply Hload|]. apply wp_bind. eexists _, _. split; [reflexivity|].
  apply wp_bind. eexists _, _. split; [apply Hload; cbn; apply lookup_insert_eq|].
  cbn [with_static DynamicObjects DynamicCount]. destruct (DynamicObjects P) as [|a b|] eqn:Hd; [| |done].
  - step. eexists. split; [|split; [|split; [reflexivity|split; [reflexivity|]]]]; [|done|].
    + apply contents_empty; cbn; [done|lia|done|by rewrite Hd].
    + cbn. by rewrite take_ge by lia.
  - destruct H5 as (Hb & Hlen & Hall). pose proof (holds_length _ _ Hb) as Hle. rewrite length_drop in Hle.
    apply wp_bind. replace (Z.to_nat (DynamicCount P)) with (length (drop 64 l)) by (rewrite length_drop; lia).
    apply (dereference_objects_ok _ _ 0).
    { intros j o k Hj. unfold dynamic_element, mbind, ST_bind. erewrite Hload by (cbn; apply lookup_insert_eq). cbn. rewrite Hd.
      rewrite decide_True by done. by apply (element_ok _ (drop 64 l)). }
    apply wp_bind. eexists _, _. split; [apply Hload; cbn; apply lookup_insert_eq|]. apply wp_bind. eexists _, _. split; [reflexivity|].
    cbn [with_static with_dynamic DynamicAllocated DynamicObjects DynamicCount]. destruct (Z.ltb_spec PH_AUTO_POOL_DYNAMIC_BIG_SIZE (DynamicAllocated P)).
    + apply wp_bind. eexists _, _. split; [apply Hload; cbn; apply lookup_insert_eq|]. eexists _, _. split; [reflexivity|].
      eexists. cbn. rewrite !insert_insert_eq. split; [|split; [|split; [reflexivity|split; [reflexivity|]]]]; [|done|].
      * by apply contents_empty.
      * by rewrite <-app_assoc, take_drop.
    + step. eexists. cbn. rewrite !insert_insert_eq. split; [|split; [|split; [reflexivity|split; [reflexivity|]]]]; [|done|].
      * apply contents_empty; cbn; [done..|]. by rewrite Hd.
      * by rewrite <-app_assoc, take_drop.
Qed.

Lemma update_pool m m' st i p l l' P P' :
  represents m st → st !! i = Some (p, l) → Pools m !! p = Some P → contents P' l' → NextPool P' = NextPool P →
  Pools m' = <[p := P']> (Pools m) → Current m' = Current m → represents m' (<[i := (p, l')]> st).
Proof.
  intros [Hch Hnd Hnull Hsize] Hi HP Hc Hn E1 E2. destruct (chain_split _ _ _ _ _ _ Hch Hnd Hi) as (P0 & HP0 & _ & Hp0 & Hnew).
  simplify_eq. split; rewrite ?E1, ?E2.
  - by apply Hnew.
  - rewrite list_fmap_insert. cbn. rewrite list_insert_id; [done|]. by rewrite list_lookup_fmap, Hi.
  - by rewrite lookup_insert_ne.
  - intros q Q. rewrite lookup_insert. case_decide; [intros [= <-]; apply Hc|apply Hsize].
Qed.

Lemma drain_pool_ok m st i p l : represents m st → st !! i = Some (p, l) →
  wp (PhDrainAutoPool delete_procedure p) (λ _ m', represents m' (<[i := (p, [])]> st) ∧ dom (Pools m') = dom (Pools m) ∧
    Dereferenced m' = Dereferenced m ++ l) m.
Proof.
  intros Hrep Hi. pose proof Hrep as [Hch Hnd _ _]. destruct (chain_split _ _ _ _ _ _ Hch Hnd Hi) as (P & HP & Hc & Hp0 & _).
  eapply wp_mono; [by apply (drain_ok m p P l)|]. intros _ m' (P' & Hc' & Hn & E1 & E2 & E3). split; [|split; [|done]].
  - by eapply update_pool.
  - rewrite E1. apply dom_insert_lookup_L. by exists P.
Qed.

Lemma initialize_pool_ok m st p : represents m st → p ∈ dom (Pools m) → p ∉ st.*1 →
  wp (PhInitializeAutoPool true p) (λ r m', r = inl tt ∧ represents m' ((p, []) :: st) ∧ dom (Pools m') = dom (Pools m) ∧
    Dereferenced m' = Dereferenced m) m.
Proof.
  intros [Hch Hnd Hnull Hsize] [P HP]%elem_of_dom Hp. unfold PhInitializeAutoPool.
  apply wp_bind. eexists _, _. split; [reflexivity|]. apply wp_bind. unfold load_pool at 1, wp at 1. rewrite HP.
  eexists _, _. split; [reflexivity|]. apply wp_bind. eexists _, _. split; [reflexivity|]. eexists _, _. split; [reflexivity|].
  split; [done|]. cbn [Pools Current Arrays Dereferenced]. split; [|split; [apply dom_insert_lookup_L; by exists P|done]].
  assert (contents (AutoPool 0 (StaticObjects P) 0 0 NULL (Current m)) []) as Hc by (apply contents_empty; cbn; eauto).
  split; cbn [Pools Current].
  - split; [done|]. split; [congruence|]. eexists. rewrite lookup_insert_eq. split; [done|]. split; [done|]. by apply chain_other.
  - cbn. by apply NoDup_cons.
  - rewrite lookup_insert_ne by congruence. done.
  - intros q Q. rewrite lookup_insert. case_decide; [intros [= <-]; apply Hc|apply Hsize].
Qed.

Lemma delete_ok m st i p l : represents m st → st !! i = Some (p, l) →
  wp (PhDeleteAutoPool true delete_procedure p) (λ r m',
    match i with
    | O => r = inl tt ∧ represents m' (drop 1 st)
    | S _ => r = inr STATUS_UNSUCCESSFUL ∧ represents m' (<[i := (p, [])]> st)
    end ∧ dom (Pools m') = dom (Pools m) ∧ Dereferenced m' = Dereferenced m ++ l) m.
Proof.
  intros Hrep Hi. unfold PhDeleteAutoPool. apply wp_bind. eapply wp_mono; [by eapply drain_pool_ok|].
  intros _ m' (Hrep' & Hdom & Hlog). apply wp_bind. eexists _, _. split; [reflexivity|].
  pose proof Hrep' as [Hch Hnd Hnull Hsize]. destruct st as [|[q k] st]; [done|]. destruct i as [|i]; cbn in Hi, Hch.
  - injection Hi as -> ->. destruct Hch as (Hcur & Hp & P & HP & Hc & Hch). rewrite Hcur, Z.eqb_refl. cbn [negb].
    apply wp_bind. unfold load_pool at 1, wp at 1. rewrite <-Hcur, HP. eexists _, _. split; [reflexivity|].
    apply wp_bind. eexists _, _. split; [reflexivity|]. cbn in Hnd. apply NoDup_cons in Hnd as [Hp' Hnd].
    assert (∀ m2, Pools m2 = Pools m' ∨ Pools m2 = <[Current m' := with_dynamic (DynamicCount P) (DynamicAllocated P) Freed P]> (Pools m') →
      Current m2 = NextPool P → represents m2 st ∧ dom (Pools m2) = dom (Pools m')) as Hend.
    { intros m2 E1 E2. split; [split|].
      - rewrite E2. destruct E1 as [->| ->]; [done|]. rewrite Hcur. by apply chain_other.
      - done.
      - destruct E1 as [->| ->]; [done|]. by rewrite lookup_insert_ne.
      - intros p1 P1. destruct E1 as [->| ->]; [apply Hsize|]. rewrite lookup_insert. case_decide; [intros [= <-]; cbn; by eapply Hsize|apply Hsize].
      - destruct E1 as [->| ->]; [done|]. apply dom_insert_lookup_L. by exists P. }
    assert (∀ m2, Dereferenced m2 = Dereferenced m' → represents m2 st ∧ dom (Pools m2) = dom (Pools m') →
      (inl tt = @inl unit Z tt ∧ represents m2 st) ∧ dom (Pools m2) = dom (Pools m) ∧ Dereferenced m2 = Dereferenced m ++ l) as Hfin.
    { intros m2 E [? ?]. split; [done|]. split; congruence. }
    destruct (DynamicObjects P); [step|apply wp_bind; eexists _, _; (split; [reflexivity|]); step..].
    all: cbn [drop]; apply Hfin; [done|apply Hend; [cbn; auto|done]].
  - assert (Current m' ≠ p) as Hne.
    { intros Hcp. destruct Hch as (Hcur & _). assert (i < length st)%nat by (by eapply lookup_lt_Some).
      assert (0%nat = S i) as ?; [|done]. apply (NoDup_lookup _ _ _ p Hnd); rewrite list_lookup_fmap; [cbn; congruence|].
      rewrite list_lookup_insert_eq by (cbn; lia). done. }
    destruct (Z.eqb_spec (Current m') p); [done|]. cbn [negb]. step. auto.
Qed.

(** ** Sequences of operations *)

Inductive operation :=
  | Initialize (p : Z)
  | AutoDereference (o : Z)
  | Drain (p : Z)
  | Delete (p : Z).

Definition perform (op : operation) : ST memory (or_raise unit) :=
  match op with
  | Initialize p => PhInitializeAutoPool true p
  | AutoDereference o => r ← PhAutoDereferenceObject DEBUG o; mret (match r with inl _ => inl tt | inr status => inr status end)
  | Drain p => PhDrainAutoPool delete_procedure p;; mret (inl tt)
  | Delete p => PhDeleteAutoPool true delete_procedure p
  end.

Fixpoint perform_all (ops : list operation) : ST memory (list (or_raise unit)) :=
  match ops with
  | [] => mret []
  | op :: ops => r ← perform op; rs ← perform_all ops; mret (r :: rs)
  end.

(** What they do to the stack of lists, and the objects that lose a reference. The pools
    may be at the addresses [D]; a pool that is on the stack is not initialized again, and
    no other pool is drained or deleted. *)
Definition specified (D : gset Z) (op : operation) (st : list (Z * list Z)) : option (or_raise unit * list (Z * list Z) * list Z) :=
  match op with
  | Initialize p => if decide (p ∈ D ∧ p ∉ st.*1) then Some (inl tt, (p, []) :: st, []) else None
  | AutoDereference o =>
      match st with
      | [] => if DEBUG then Some (inr STATUS_UNSUCCESSFUL, st, []) else if o =? 0 then Some (inl tt, st, []) else None
      | (p, l) :: st' =>
          if o =? 0 then Some (inl tt, st, [])
          else if Z.of_nat (length l) <? 2 ^ 31 then Some (inl tt, (p, l ++ [o]) :: st', []) else None
      end
  | Drain p => '(i, (_, l)) ← list_find (λ x, x.1 = p) st; Some (inl tt, <[i := (p, [])]> st, l)
  | Delete p =>
      '(i, (_, l)) ← list_find (λ x, x.1 = p) st;
      Some (if i is O then (inl tt, drop 1 st, l) else (inr STATUS_UNSUCCESSFUL, <[i := (p, [])]> st, l))
  end.

Fixpoint specified_all (D : gset Z) (ops : list operation) (st : list (Z * list Z)) : option (list (or_raise unit) * list (Z * list Z) * list Z) :=
  match ops with
  | [] => Some ([], st, [])
  | op :: ops =>
      '(r, st, dereferenced) ← specified D op st;
      '(rs, st, later) ← specified_all D ops st;
      Some (r :: rs, st, dereferenced ++ later)
  end.

Lemma perform_ok op m st r st' l : represents m st → specified (dom (Pools m)) op st = Some (r, st', l) →
  wp (perform op) (λ r' m', r' = r ∧ represents m' st' ∧ dom (Pools m') = dom (Pools m) ∧ Dereferenced m' = Dereferenced m ++ l) m.
Proof.
  intros Hrep Hs. destruct op as [p|o|p|p]; cbn [perform specified] in *.
  - case_decide as Hp; simplify_eq. destruct Hp as [HD Hp]. rewrite app_nil_r. by apply initialize_pool_ok.
  - apply wp_bind. destruct st as [|[p k] st].
    + destruct Hrep as [Hch ? Hnull ?]. cbn in Hch. unfold PhAutoDereferenceObject. apply wp_bind. eexists _, _. split; [reflexivity|].
      rewrite Hch. destruct DEBUG; cbn [andb Z.eqb]; [|destruct (o =? 0); [|done]]; simplify_eq; step; step; by rewrite app_nil_r.
    + destruct (Z.eqb_spec o 0) as [->|Ho].
      * destruct Hrep as [Hch ? Hnull ?] eqn:Heq. pose proof Hch as (Hcur & Hp & _). unfold PhAutoDereferenceObject.
        apply wp_bind. eexists _, _. split; [reflexivity|]. destruct (Z.eqb_spec (Current m) 0); [congruence|]. rewrite andb_false_r. cbn [Z.eqb].
        step. step. simplify_eq. by rewrite app_nil_r.
      * destruct (Z.ltb_spec (Z.of_nat (length k)) (2 ^ 31)); [|done]. simplify_eq.
        rewrite app_nil_r.
        eapply wp_mono; [by apply auto_dereference_ok|]. intros x m' (-> & Hrep' & Hlog & Hdom). by step.
  - destruct (list_find _ _) as [[i [q k]]|] eqn:Hf; [|done]. cbn in Hs. simplify_eq. apply list_find_Some in Hf as (Hi & Hq & _). cbn in Hq. subst q.
    apply wp_bind. eapply wp_mono; [by eapply drain_pool_ok|]. intros _ m' (? & ? & ?). by step.
  - destruct (list_find _ _) as [[i [q k]]|] eqn:Hf; [|done]. cbn in Hs. simplify_eq. apply list_find_Some in Hf as (Hi & Hq & _). cbn in Hq. subst q.
    eapply wp_mono; [by eapply delete_ok|]. intros r1 m' (H1 & ? & ?). destruct i; simplify_eq; naive_solver.
Qed.

(** A thread that has no pool yet, with storage for pools at the addresses [D]. *)
Definition thread_start (D : gset Z) : memory := Memory (gset_to_gmap uninitialized D) 0 0 [].

Lemma represents_start D : 0 ∉ D → represents (thread_start D) [].
Proof.
  intros H0. split; cbn; [done|constructor|by apply lookup_gset_to_gmap_None|].
  intros p P [_ <-]%lookup_gset_to_gmap_Some. done.
Qed.

Lemma perform_all_ok ops m st rs st' l : represents m st → specified_all (dom (Pools m)) ops st = Some (rs, st', l) →
  wp (perform_all ops) (λ rs' m', rs' = rs ∧ represents m' st' ∧ Dereferenced m' = Dereferenced m ++ l) m.
Proof.
  revert m st rs st' l. induction ops as [|op ops IH]; intros m st rs st' l Hrep Hs; cbn [specified_all perform_all] in *.
  - simplify_eq. step. by rewrite app_nil_r.
  - destruct (specified _ op st) as [[[r st1] l1]|] eqn:H1; [|done]. cbn [mbind option_bind] in Hs.
    destruct (specified_all _ ops st1) as [[[rs2 st2] l2]|] eqn:H2; [|done]. cbn in Hs. simplify_eq.
    apply wp_bind. eapply wp_mono; [by apply (perform_ok op m st r st1 l1)|]. intros x m1 (-> & Hrep1 & Hdom & Hlog).
    rewrite <-Hdom in H2. apply wp_bind. eapply wp_mono; [by eapply IH|]. intros xs m2 (-> & Hrep2 & Hlog2). step.
    split_and!; [done|done|]. by rewrite Hlog2, Hlog, app_assoc.
Qed.

(** *** No object is forgotten *)

Definition added (op : operation) (r : or_raise unit) : list Z :=
  match op, r with
  | AutoDereference o, inl _ => if o =? 0 then [] else [o]
  | _, _ => []
  end.

Fixpoint added_all (ops : list operation) (rs : list (or_raise unit)) : list Z :=
  match ops, rs with
  | op :: ops, r :: rs => added op r ++ added_all ops rs
  | _, _ => []
  end.

Lemma bind_insert (st : list (Z * list Z)) i p l : st !! i = Some (p, l) → st ≫= snd ≡ₚ l ++ (<[i := (p, [])]> st ≫= snd).
Proof.
  revert i. induction st as [|[q k] st IH]; intros [|i] Hi; try done; cbn in *.
  - by injection Hi as -> ->.
  - rewrite (IH i Hi). apply Permutation_app_swap_app.
Qed.

Lemma specified_added D op st r st' l : specified D op st = Some (r, st', l) → (st ≫= snd) ++ added op r ≡ₚ l ++ (st' ≫= snd).
Proof.
  intros Hs. destruct op as [p|o|p|p]; cbn [specified added] in *.
  - case_decide; simplify_eq. cbn. by rewrite app_nil_r.
  - destruct st as [|[p k] st]; repeat case_match; simplify_eq; cbn; try done; rewrite ?app_nil_r; try done.
    rewrite <-!app_assoc. f_equiv. apply Permutation_app_comm.
  - destruct (list_find _ _) as [[i [q k]]|] eqn:Hf; [|done]. cbn in Hs. simplify_eq. apply list_find_Some in Hf as (Hi & Hq & _). cbn in Hq. subst q.
    rewrite app_nil_r. by apply bind_insert.
  - destruct (list_find _ _) as [[i [q k]]|] eqn:Hf; [|done]. cbn in Hs. apply list_find_Some in Hf as (Hi & Hq & _). cbn in Hq. subst q.
    rewrite app_nil_r. destruct i as [|i]; simplify_eq; [|by apply bind_insert].
    destruct st as [|[q k'] st]; [done|]. cbn in *. by simplify_eq.
Qed.

Lemma specified_all_added D ops st rs st' l : specified_all D ops st = Some (rs, st', l) → (st ≫= snd) ++ added_all ops rs ≡ₚ l ++ (st' ≫= snd).
Proof.
  revert st rs st' l. induction ops as [|op ops IH]; intros st rs st' l Hs; cbn [specified_all] in *.
  - simplify_eq. cbn. by rewrite app_nil_r.
  - destruct (specified _ op st) as [[[r st1] l1]|] eqn:H1; [|done]. cbn [mbind option_bind] in Hs.
    destruct (specified_all _ ops st1) as [[[rs2 st2] l2]|] eqn:H2; [|done]. cbn in Hs. simplify_eq.
    cbn [added_all]. rewrite app_assoc, (specified_added _ _ _ _ _ _ H1), <-app_assoc, (IH _ _ _ _ H2). by rewrite app_assoc.
Qed.

(** C38. The automatic dereference pools of a thread are a stack of lists, for the
    sequences of operations that [specified] admits and delete procedures that leave the
    pools alone: a pool is initialized where there is storage and not while it is on the
    stack, only pools on the stack are drained or deleted, a pool has at most 2^31
    objects, and no object is added without a pool, but in debug builds, which raise. Such
    a sequence runs without a fault, however often the array of a pool was moved, gives the
    results and exceptions of the operations on the stack, and takes a reference from the
    objects of a pool in the order in which they were added; every object that was added
    has lost exactly one reference or is still in a pool. What happens to the others is in
    [auto_pool_forgets] and [auto_dereference_without_pool]. *)
Theorem auto_pool_refines D ops rs st dereferenced :
  0 ∉ D → specified_all D ops [] = Some (rs, st, dereferenced) →
  wp (perform_all ops) (λ rs' m, rs' = rs ∧ represents m st ∧ Dereferenced m = dereferenced ∧
    Dereferenced m ++ (st ≫= snd) ≡ₚ added_all ops rs) (thread_start D).
Proof.
  intros H0 Hs. pose proof (specified_all_added _ _ _ _ _ _ Hs) as Hadd. cbn in Hadd.
  assert (dom (Pools (thread_start D)) = D) as Hdom by apply dom_gset_to_gmap. rewrite <-Hdom in Hs.
  eapply wp_mono; [eapply (perform_all_ok ops _ []); [by apply represents_start|exact Hs]|]. intros rs' m (-> & Hrep & Hlog).
  cbn in Hlog. rewrite Hlog. by split_and!.
Qed.

End Draining.

(** Two pools, one with more objects than fit the static array, so that its dynamic array is
    moved; the other is deleted too early. *)
Lemma auto_pool_refines_witness :
  wp (perform_all true (λ o, mret tt) ([Initialize 8; AutoDereference 5; Initialize 16] ++ (AutoDereference <$> seqZ 1 140) ++ [Delete 8; Delete 16; AutoDereference 6; Delete 8; AutoDereference 7]))
    (λ rs m, rs = replicate 143 (inl tt) ++ [inr STATUS_UNSUCCESSFUL; inl tt; inl tt; inl tt; inr STATUS_UNSUCCESSFUL] ∧
       Dereferenced m = [5] ++ seqZ 1 140 ++ [6]) (thread_start {[8; 16]}).
Proof.
  eapply wp_mono.
  - apply (auto_pool_refines true (λ o, mret tt) (λ o m, eq_refl) {[8; 16]} _
      (replicate 143 (inl tt) ++ [inr STATUS_UNSUCCESSFUL; inl tt; inl tt; inl tt; inr STATUS_UNSUCCESSFUL]) [] ([5] ++ seqZ 1 140 ++ [6])).
    + by rewrite !elem_of_union, !elem_of_singleton; intros [?|?].
    + by vm_compute.
  - intros rs m (-> & _ & -> & _). done.
Defined.

(** Without a pool, a program that is not a debug build does not raise an exception, as the
    description of [PhAutoDereferenceObject] says it does: it reads at address zero. *)
Theorem auto_dereference_without_pool D o : 0 ∉ D → o ≠ 0 →
  PhAutoDereferenceObject false o (thread_start D) = None ∧
  PhAutoDereferenceObject true o (thread_start D) = Some (inr STATUS_UNSUCCESSFUL, thread_start D).
Proof.
  intros H0 Ho. split; [|done]. unfold PhAutoDereferenceObject, mbind, ST_bind. cbn. rewrite (proj2 (Z.eqb_neq o 0) Ho).
  unfold load_pool. cbn. by rewrite (proj2 (lookup_gset_to_gmap_None uninitialized D 0) H0).
Qed.

(** An object that the delete procedure of another adds while the pool is drained is
    forgotten: the count is set to zero only after the references were taken. Here the
    delete procedure of object 1 adds object 2, which the pool takes; after the pool is
    deleted, object 2 still has its reference, and no pool has it. *)
Theorem auto_pool_forgets :
  let delete_procedure o := if o =? 1 then PhAutoDereferenceObject false 2;; mret tt else mret tt in
  wp (perform_all false delete_procedure [Initialize 8; AutoDereference 1; Delete 8])
    (λ rs m, rs = [inl tt; inl tt; inl tt] ∧ Current m = 0 ∧ Dereferenced m = [1]) (thread_start {[8]}).
Proof. cbv zeta. eexists _, _. split; [by vm_compute|done]. Qed.
