(* ===== verification/StringSearch.v ===== *)
(** Searching memory for strings (src/phlib/strsrch.c, src/phlib/data.c): a state machine that
    passes the bytes of a buffer once and reports the runs of printable characters, of one
    byte each or of two bytes of which the second is zero. *)

From S2P Require Import Prelude.

(** ** Printable characters *)

Definition PhCharIsPrintable : list Z :=
  [
   0; 0; 0; 0; 0; 0; 0; 0; 0; 1; 1; 0; 0; 1; 0; 0; 0; 0; 0; 0; 0; 0; 0; 0; 0; 0; 0; 0; 0; 0; 0; 0;
   1; 1; 1; 1; 1; 1; 1; 1; 1; 1; 1; 1; 1; 1; 1; 1; 1; 1; 1; 1; 1; 1; 1; 1; 1; 1; 1; 1; 1; 1; 1; 1;
   1; 1; 1; 1; 1; 1; 1; 1; 1; 1; 1; 1; 1; 1; 1; 1; 1; 1; 1; 1; 1; 1; 1; 1; 1; 1; 1; 1; 1; 1; 1; 1;
   1; 1; 1; 1; 1; 1; 1; 1; 1; 1; 1; 1; 1; 1; 1; 1; 1; 1; 1; 1; 1; 1; 1; 1; 1; 1; 1; 1; 1; 1; 1; 0;
   0; 0; 0; 0; 0; 0; 0; 0; 0; 0; 0; 0; 0; 0; 0; 0; 0; 0; 0; 0; 0; 0; 0; 0; 0; 0; 0; 0; 0; 0; 0; 0;
   0; 0; 0; 0; 0; 0; 0; 0; 0; 0; 0; 0; 0; 0; 0; 0; 0; 0; 0; 0; 0; 0; 0; 0; 0; 0; 0; 0; 0; 0; 0; 0;
   0; 0; 0; 0; 0; 0; 0; 0; 0; 0; 0; 0; 0; 0; 0; 0; 0; 0; 0; 0; 0; 0; 0; 0; 0; 0; 0; 0; 0; 0; 0; 0;
   0; 0; 0; 0; 0; 0; 0; 0; 0; 0; 0; 0; 0; 0; 0; 0; 0; 0; 0; 0; 0; 0; 0; 0; 0; 0; 0; 0; 0; 0; 0; 0].

Definition PhCharIsPrintableEx : list Z :=
  [
   0; 0; 0; 0; 0; 0; 0; 0; 0; 1; 1; 0; 0; 1; 0; 0; 0; 0; 0; 0; 0; 0; 0; 0; 0; 0; 0; 0; 0; 0; 0; 0;
   1; 1; 1; 1; 1; 1; 1; 1; 1; 1; 1; 1; 1; 1; 1; 1; 1; 1; 1; 1; 1; 1; 1; 1; 1; 1; 1; 1; 1; 1; 1; 1;
   1; 1; 1; 1; 1; 1; 1; 1; 1; 1; 1; 1; 1; 1; 1; 1; 1; 1; 1; 1; 1; 1; 1; 1; 1; 1; 1; 1; 1; 1; 1; 1;
   1; 1; 1; 1; 1; 1; 1; 1; 1; 1; 1; 1; 1; 1; 1; 1; 1; 1; 1; 1; 1; 1; 1; 1; 1; 1; 1; 1; 1; 1; 1; 0;
   0; 0; 0; 0; 0; 0; 0; 0; 0; 0; 0; 0; 0; 0; 0; 0; 0; 0; 0; 0; 0; 0; 0; 0; 0; 0; 0; 0; 0; 0; 0; 0;
   0; 1; 1; 1; 1; 1; 1; 1; 1; 1; 1; 1; 1; 1; 1; 1; 1; 1; 1; 1; 1; 1; 1; 1; 1; 1; 1; 1; 1; 1; 1; 1;
   1; 1; 1; 1; 1; 1; 1; 1; 1; 1; 1; 1; 1; 1; 1; 1; 1; 1; 1; 1; 1; 1; 1; 1; 1; 1; 1; 1; 1; 1; 1; 1;
   1; 1; 1; 1; 1; 1; 1; 1; 1; 1; 1; 1; 1; 1; 1; 1; 1; 1; 1; 1; 1; 1; 1; 1; 1; 1; 1; 1; 1; 1; 1; 1].

(** ** The search *)

(** The number of characters that the buffer of the context can have. *)
Definition RTL_NUMBER_OF_Buffer : Z := 4096 * 2.

Definition STATUS_SUCCESS : Z := 0.
Definition STATUS_INVALID_PARAMETER : Z := 0xC000000D.
Definition NT_SUCCESS (status : Z) : bool := status <? 2 ^ 31.

Record PH_STRING_SEARCH_RESULT := Result {
  Address : Z;
  Length : Z;
  String : list Z;
  Unicode : bool;
}.

(** The local variables of the loop, and the buffer of the context. *)
Record search := Search {
  byte1 : Z;
  byte2 : Z;
  printable1 : bool;
  printable2 : bool;
  run_length : Z;
  Buffer : list Z;
}.

(** What a byte does to the run of characters: it goes on with another run, or the run
    becomes a result. *)
Inductive action :=
  | Continue (length : Z) (Buffer : list Z)
  | CreateResult (length : Z).

Definition append (s : search) (byte : Z) : action :=
  if run_length s <? RTL_NUMBER_OF_Buffer
  then Continue (u32 (run_length s + 1)) (<[Z.to_nat (run_length s) := byte]> (Buffer s))
  else Continue (run_length s) (Buffer s).

Section Search.
Context (MinimumLength : Z) (ExtendedCharSet : bool).

Definition is_printable (byte : Z) : bool :=
  negb (nth (Z.to_nat byte) (if ExtendedCharSet then PhCharIsPrintableEx else PhCharIsPrintable) 0 =? 0).

(** The table of states: whether the byte before the previous one, the previous byte and
    the current one are printable. *)
Definition transition (s : search) (byte : Z) : action :=
  match printable2 s, printable1 s, is_printable byte with
  | true, true, true => append s byte
  | true, true, false =>
      if MinimumLength <=? run_length s then CreateResult (run_length s)
      else if byte =? 0 then Continue 1 (<[0%nat := byte1 s]> (Buffer s))
      else Continue 0 (Buffer s)
  | true, false, true =>
      if (run_length s =? 0) || (byte1 s =? 0) then append s byte
      else Continue 0 (Buffer s)
  | true, false, false =>
      if MinimumLength <=? run_length s then CreateResult (run_length s)
      else Continue 0 (Buffer s)
  | false, true, true =>
      if u32 (MinimumLength + 1) <=? run_length s then CreateResult (u32 (run_length s - 1))
      else Continue 2 (<[1%nat := byte]> (<[0%nat := byte1 s]> (Buffer s)))
  | false, true, false =>
      if (byte2 s =? 0) && (byte =? 0) then Continue (run_length s) (Buffer s)
      else if (run_length s =? 1) && (byte =? 0) then Continue (run_length s) (Buffer s)
      else Continue 0 (Buffer s)
  | false, false, true => append s byte
  | false, false, false => Continue (run_length s) (Buffer s)
  end.

(** The result when the byte at the index [i] ends a run; [base] is the address of the
    bytes that are searched. *)
Definition create_result (base i : Z) (s : search) (printable : bool) (length : Z) : PH_STRING_SEARCH_RESULT :=
  let isWide := Bool.eqb (printable1 s) printable in
  let lengthInBytes := if isWide then u32 (length * 2) else length in
  let bias := if printable then 1 else 0 in
  Result (u64 (base + u64 (i - bias - lengthInBytes))) lengthInBytes
    (take (Z.to_nat (Z.min length RTL_NUMBER_OF_Buffer)) (Buffer s)) isWide.

Definition shift (s : search) (byte length : Z) (Buffer : list Z) : search :=
  Search byte (byte1 s) (is_printable byte) (printable1 s) length Buffer.

Section Callback.
(** What the callbacks are given and change. *)
Context {C : Type} (Callback : PH_STRING_SEARCH_RESULT → C → bool * C).

(** The loop from the index [i] on; it gives whether the callback stopped it, and the
    buffer of the context as it is then. *)
Fixpoint search_from (base i : Z) (data : list Z) (s : search) (c : C) : bool * list Z * C :=
  match data with
  | [] => (false, Buffer s, c)
  | byte :: data =>
      match transition s byte with
      | Continue length Buffer => search_from base (i + 1) data (shift s byte length Buffer) c
      | CreateResult length =>
          match Callback (create_result base i s (is_printable byte) length) c with
          | (true, c) => (true, Buffer s, c)
          | (false, c) => search_from base (i + 1) data (shift s byte 0 (Buffer s)) c
          end
      end
  end.

Definition PhpSearchStrings (Buffer : list Z) (base : Z) (data : list Z) (c : C) : bool * list Z * C :=
  search_from base 0 data (Search 0 0 false false 0 Buffer) c.

(** [NextBuffer] gives a status, an address and the bytes there. *)
Context (NextBuffer : C → Z * Z * list Z * C).

(** The loop over the buffers; [None] when [fuel] buffers were not all. *)
Fixpoint search_buffers (fuel : nat) (Buffer : list Z) (c : C) : option (Z * C) :=
  match fuel with
  | O => None
  | S fuel =>
      let '(status, base, data, c) := NextBuffer c in
      if negb (NT_SUCCESS status) then Some (status, c)
      else
        match data with
        | [] => Some (status, c)
        | _ =>
            match PhpSearchStrings Buffer base data c with
            | (true, _, c) => Some (status, c)
            | (false, Buffer, c) => search_buffers fuel Buffer c
            end
        end
  end.

Definition PhSearchStrings (fuel : nat) (c : C) : option (Z * C) :=
  if MinimumLength =? 0 then Some (STATUS_INVALID_PARAMETER, c)
  else search_buffers fuel (replicate (Z.to_nat RTL_NUMBER_OF_Buffer) 0) c.

End Callback.
End Search.
