(* ===== verification/StringSearchTheorems.v ===== *)
(** Searching memory for strings: what is found is there, in order and apart, and what
    stands by itself is found. *)

From S2P Require Import Prelude StringSearch.

#[local] Abbreviation cap := RTL_NUMBER_OF_Buffer (only parsing).

(** Characters of two bytes. *)
Definition wide (cs : list Z) : list Z := cs ≫= λ c, [c; 0].

Lemma wide_app cs ds : wide (cs ++ ds) = wide cs ++ wide ds.
Proof. apply bind_app. Qed.

Lemma length_wide cs : length (wide cs) = (2 * length cs)%nat.
Proof. induction cs as [|c cs IH]; cbn; [done|]. unfold wide in IH. rewrite IH. lia. Qed.

(** ** The results in order *)

Section Results.
Context (MinimumLength : Z) (ExtendedCharSet : bool).
#[local] Abbreviation P := (is_printable ExtendedCharSet).
#[local] Abbreviation transition := (transition MinimumLength ExtendedCharSet).

Fixpoint found (base i : Z) (data : list Z) (s : search) : list PH_STRING_SEARCH_RESULT :=
  match data with
  | [] => []
  | byte :: data =>
      match transition s byte with
      | Continue n b => found base (i + 1) data (shift ExtendedCharSet s byte n b)
      | CreateResult n => create_result base i s (P byte) n :: found base (i + 1) data (shift ExtendedCharSet s byte 0 (Buffer s))
      end
  end.

Lemma zero_not_printable : P 0 = false.
Proof. by destruct ExtendedCharSet. Qed.

(** *** What the variables of the loop say of the bytes before *)

Definition run (s : search) : list Z := take (Z.to_nat (run_length s)) (Buffer s).

(** How the run stands in the bytes: [p2] and [p1] say whether the last two bytes are
    printable. *)
Definition spelled (p2 p1 : bool) (cs text : list Z) : Prop :=
  match p2, p1 with
  | true, true => text = cs
  | true, false => text = wide cs
  | false, true => (cs = [] ∧ text = []) ∨ ∃ ds c, cs = ds ++ [c] ∧ text = wide ds ++ [c]
  | false, false => cs = [] ∧ text = []
  end.

(** The number of bytes it takes. *)
Definition reach (p2 p1 : bool) (n : Z) : Z :=
  match p2, p1 with
  | true, true => n
  | true, false => 2 * n
  | false, true => if n =? 0 then 0 else 2 * n - 1
  | false, false => 0
  end.

(** [done] is where the last result ends. *)
Record state_ok (pre : list Z) (done : Z) (s : search) : Prop := {
  ok_bytes : ∃ q, [0; 0] ++ pre = q ++ [byte2 s; byte1 s];
  ok_printable1 : printable1 s = P (byte1 s);
  ok_printable2 : printable2 s = P (byte2 s);
  ok_length : 0 ≤ run_length s ≤ cap;
  ok_buffer : Z.of_nat (length (Buffer s)) = cap;
  ok_done : 0 ≤ done ≤ Z.of_nat (length pre) - (if printable1 s then 1 else 0);
  ok_reach : done ≤ Z.of_nat (length pre) - reach (printable2 s) (printable1 s) (run_length s);
  ok_idle : printable2 s = false → printable1 s = false → run_length s = 0;
  ok_zero : printable2 s = true → printable1 s = false → run_length s = 0 ∨ byte1 s = 0;
  ok_run : run_length s < cap → Forall (λ c, P c = true) (run s) ∧
    ∃ q text, pre = q ++ text ∧ spelled (printable2 s) (printable1 s) (run s) text;
}.

Lemma search_ok_last pre done s : state_ok pre done s → printable1 s = true → ∃ q, pre = q ++ [byte1 s].
Proof.
  intros [(q & Hq) H1 _ _ _ _ _ _ _ _] Hp. rewrite H1 in Hp. assert (byte1 s ≠ 0) as Hne by (intros E; by rewrite E, zero_not_printable in Hp).
  destruct pre as [|b pre' _] using rev_ind.
  - destruct q as [|? [|? [|? ?]]]; by simplify_eq/=.
  - exists pre'. f_equal. rewrite app_assoc in Hq. replace (q ++ [byte2 s; byte1 s]) with ((q ++ [byte2 s]) ++ [byte1 s]) in Hq by (by rewrite <-app_assoc).
    apply app_inj_tail in Hq as [_ ->]. done.
Qed.

Lemma run_empty s : run_length s = 0 → run s = [].
Proof. unfold run. by intros ->. Qed.

Lemma length_run pre done s : state_ok pre done s → Z.of_nat (length (run s)) = run_length s.
Proof. intros H. unfold run. rewrite length_take. pose proof (ok_buffer _ _ _ H). pose proof (ok_length _ _ _ H). lia. Qed.

Lemma take_store (b : list Z) (n : nat) x : (n < length b)%nat → take (S n) (<[n := x]> b) = take n b ++ [x].
Proof.
  intros Hn. rewrite (take_S_r _ _ x); [|by apply list_lookup_insert_eq]. by rewrite take_insert_ge.
Qed.

Lemma shift_ok pre done s byte n b done' :
  state_ok pre done s → 0 ≤ n ≤ cap → Z.of_nat (length b) = cap →
  0 ≤ done' ≤ Z.of_nat (length pre) + 1 - (if P byte then 1 else 0) →
  done' ≤ Z.of_nat (length pre) + 1 - reach (printable1 s) (P byte) n →
  (printable1 s = false → P byte = false → n = 0) →
  (printable1 s = true → P byte = false → n = 0 ∨ byte = 0) →
  (n < cap → Forall (λ c, P c = true) (take (Z.to_nat n) b) ∧
     ∃ q text, pre ++ [byte] = q ++ text ∧ spelled (printable1 s) (P byte) (take (Z.to_nat n) b) text) →
  state_ok (pre ++ [byte]) done' (shift ExtendedCharSet s byte n b).
Proof.
  intros [(q & Hq) H1 _ _ _ _ _ _ _ _] Hn Hb Hd Hr Hi Hz Hrun.
  split; cbn [shift byte1 byte2 printable1 printable2 run_length Buffer]; rewrite ?length_app; cbn [length]; try done; [|lia..].
  exists (q ++ [byte2 s]). rewrite app_assoc, Hq. by rewrite <-!app_assoc.
Qed.

(** The run is given up. *)
Lemma shift_none pre done s byte b done' :
  state_ok pre done s → Z.of_nat (length b) = cap → 0 ≤ done' ≤ Z.of_nat (length pre) + 1 - (if P byte then 1 else 0) →
  state_ok (pre ++ [byte]) done' (shift ExtendedCharSet s byte 0 b).
Proof.
  intros Hok Hb Hd. eapply shift_ok; try done; [destruct (printable1 s), (P byte); cbn in *; lia|by auto|].
  intros _. split; [constructor|]. exists (pre ++ [byte]), []. rewrite app_nil_r. split; [done|].
  destruct (printable1 s), (P byte); cbn; auto.
Qed.

(** A character is appended, or there is no place for it. *)
Lemma search_append_ok pre done s byte :
  state_ok pre done s → P byte = true → (printable2 s = true → printable1 s = false → run_length s = 0 ∨ byte1 s = 0) →
  (printable2 s = false → printable1 s = false) →
  ∃ n b, append s byte = Continue n b ∧ state_ok (pre ++ [byte]) done (shift ExtendedCharSet s byte n b).
Proof.
  intros Hok Hp Hz Hf. pose proof Hok as [Hby Hp1 Hp2 Hl Hb Hd Hr Hi _ Hrun]. unfold append.
  assert (reach (printable1 s) true (run_length s + 1) ≤ reach (printable2 s) (printable1 s) (run_length s) + 1) as Hreach.
  { destruct (printable2 s), (printable1 s); cbn; [lia| |by discriminate Hf|]; destruct (Z.eqb_spec (run_length s + 1) 0); try lia.
    all: rewrite Hi by done; lia. }
  assert (0 ≤ done ≤ Z.of_nat (length pre)) by (destruct (printable1 s); lia).
  destruct (Z.ltb_spec (run_length s) cap) as [Hlt|Hge]; eexists _, _; (split; [reflexivity|]).
  - rewrite u32_small by (unfold cap in *; lia). destruct (Hrun Hlt) as [Hall (q & text & Hq & Hsp)].
    assert (take (Z.to_nat (run_length s + 1)) (<[Z.to_nat (run_length s) := byte]> (Buffer s)) = run s ++ [byte]) as Htake.
    { replace (Z.to_nat (run_length s + 1)) with (S (Z.to_nat (run_length s))) by lia. apply take_store. lia. }
    eapply shift_ok; try done; rewrite ?Hp, ?length_insert; try lia; try done. rewrite Htake.
    intros _. split; [apply Forall_app; auto|].
    destruct (printable2 s), (printable1 s); cbn [spelled] in *; [subst text|subst text|by discriminate Hf|destruct Hsp as [Hr0 ->]].
    + exists q, (run s ++ [byte]). by rewrite Hq, app_assoc.
    + exists q, (wide (run s) ++ [byte]). rewrite Hq, app_assoc. split; [done|]. right. by exists (run s), byte.
    + exists pre, [byte]. split; [done|]. right. exists [], byte. by rewrite Hr0.
  - eapply shift_ok; try done; rewrite ?Hp; try lia; try done.
    + destruct (printable2 s), (printable1 s); cbn in *; [lia| |by discriminate Hf|specialize (Hi eq_refl eq_refl); unfold RTL_NUMBER_OF_Buffer in *; lia].
      destruct (Z.eqb_spec (run_length s) 0); lia.
Qed.

(** *** Results that are right *)

(** The characters of the result are at its address, as many as [MinimumLength] asks for. *)
Definition sound (base : Z) (data : list Z) (r : PH_STRING_SEARCH_RESULT) : Prop :=
  Forall (λ c, P c = true) (String r) ∧ MinimumLength ≤ Z.of_nat (length (String r)) ∧
  ∃ q text rest, data = q ++ text ++ rest ∧ text = (if Unicode r then wide (String r) else String r) ∧
    Address r = base + Z.of_nat (length q) ∧ Length r = Z.of_nat (length text).

(** One after the other, between two addresses. *)
Fixpoint in_order (first last : Z) (rs : list PH_STRING_SEARCH_RESULT) : Prop :=
  match rs with
  | [] => first ≤ last
  | r :: rs => first ≤ Address r ∧ 0 < Length r ∧ in_order (Address r + Length r) last rs
  end.

Context (Hmin : 1 ≤ MinimumLength < 2 ^ 32 - 1).

(** What a result that takes [m] bytes before the last [b] bytes is. *)
Lemma result_ok pre done s byte n base rest m k (cs : list Z) w :
  state_ok pre done s → 0 ≤ base → base + Z.of_nat (length (pre ++ byte :: rest)) < 2 ^ 64 →
  MinimumLength ≤ n ≤ cap → w = Bool.eqb (printable1 s) (P byte) → k = (if P byte then 1 else 0) →
  m = (if w then 2 * n else n) → done ≤ Z.of_nat (length pre) - k - m → cs = take (Z.to_nat n) (Buffer s) →
  (n < cap - k → Forall (λ c, P c = true) cs ∧ ∃ q tail, pre = q ++ (if w then wide cs else cs) ++ tail ∧ Z.of_nat (length tail) = k) →
  let r := create_result base (Z.of_nat (length pre)) s (P byte) n in
  base + done ≤ Address r ∧ 0 < Length r ∧
  (Z.of_nat (length (String r)) < cap - 1 → sound base (pre ++ byte :: rest) r) ∧
  state_ok (pre ++ [byte]) (Address r - base + Length r) (shift ExtendedCharSet s byte 0 (Buffer s)).
Proof.
  intros Hok Hbase Hlen Hn Hw Hk Hm Hdone Hcs Hex. pose proof Hok as [_ _ _ _ Hb Hd _ _ _ _]. cbv zeta.
  rewrite length_app in Hlen. cbn [length] in Hlen. unfold cap in *. unfold RTL_NUMBER_OF_Buffer in *.
  assert (create_result base (Z.of_nat (length pre)) s (P byte) n = Result (base + (Z.of_nat (length pre) - k - m)) m cs w) as ->.
  { unfold create_result. rewrite <-Hw, <-Hk. assert ((if w then u32 (n * 2) else n) = m) as ->.
    { rewrite Hm. destruct w; [|done]. rewrite u32_small; lia. }
    assert (0 ≤ Z.of_nat (length pre) - k - m) by lia.
    assert (∀ x, 0 ≤ x < 2 ^ 64 → u64 x = x) as Hu by (intros x Hx; unfold u64; by apply Z.mod_small).
    assert (0 ≤ m) by (destruct w; lia). assert (0 ≤ k) by (destruct (P byte); lia).
    rewrite (Hu (_ - _ - _)), Hu by lia. rewrite Hcs. unfold RTL_NUMBER_OF_Buffer. by rewrite Z.min_l by lia. }
  cbn [Address Length String Unicode].
  assert (Z.of_nat (length cs) = n) as Hlcs by (rewrite Hcs, length_take; lia).
  assert (0 < m) by (destruct w; lia). split; [lia|]. split; [done|]. split.
  - intros Hlt. assert (k ≤ 1) by (destruct (P byte); lia). destruct Hex as (Hall & q & tail & Hpre & Htail); [lia|].
    split; [done|]. cbn [String Unicode Address Length]. split; [lia|]. exists q, (if w then wide cs else cs), (tail ++ byte :: rest).
    split; [rewrite Hpre; by rewrite <-!app_assoc|]. split; [done|].
    assert (Z.of_nat (length (if w then wide cs else cs)) = m) as Hlm by (destruct w; rewrite ?length_wide; lia).
    apply (f_equal length) in Hpre. rewrite !length_app in Hpre. lia.
  - eapply shift_none; [done|done|]. destruct (P byte); lia.
Qed.

Lemma search_create_ok pre done s byte n base rest :
  state_ok pre done s → transition s byte = CreateResult n → 0 ≤ base → base + Z.of_nat (length (pre ++ byte :: rest)) < 2 ^ 64 →
  let r := create_result base (Z.of_nat (length pre)) s (P byte) n in
  base + done ≤ Address r ∧ 0 < Length r ∧
  (Z.of_nat (length (String r)) < cap - 1 → sound base (pre ++ byte :: rest) r) ∧
  state_ok (pre ++ [byte]) (Address r - base + Length r) (shift ExtendedCharSet s byte 0 (Buffer s)).
Proof.
  intros Hok Ht Hbase Hlen. pose proof Hok as [_ _ _ Hl _ _ Hr _ _ Hrun]. unfold StringSearch.transition in Ht.
  destruct (printable2 s) eqn:E2, (printable1 s) eqn:E1, (P byte) eqn:E0; try (unfold append in Ht; repeat case_match; done).
  - destruct (Z.leb_spec MinimumLength (run_length s)); [|by case_match]. simplify_eq. rewrite <-E0.
    eapply (result_ok _ _ _ _ _ _ _ _ 0 (run s) false); try done; rewrite ?E1, ?E0; try done; [|cbn in Hr; lia|].
    + lia.
    + intros Hlt. destruct (Hrun ltac:(lia)) as [Hall (q & text & -> & ->)]. split; [done|]. exists q, []. by rewrite app_nil_r.
  - destruct (Z.leb_spec MinimumLength (run_length s)); [|done]. simplify_eq. rewrite <-E0.
    eapply (result_ok _ _ _ _ _ _ _ _ 0 (run s) true); try done; rewrite ?E1, ?E0; try done; [|cbn in Hr; lia|].
    + lia.
    + intros Hlt. destruct (Hrun ltac:(lia)) as [Hall (q & text & -> & ->)]. split; [done|]. exists q, []. by rewrite app_nil_r.
  - rewrite u32_small in Ht by lia. destruct (Z.leb_spec (MinimumLength + 1) (run_length s)); [|done].
    rewrite u32_small in Ht by (unfold RTL_NUMBER_OF_Buffer in *; lia). simplify_eq. rewrite <-E0.
    cbn in Hr. destruct (Z.eqb_spec (run_length s) 0); [lia|].
    eapply (result_ok _ _ _ _ _ _ _ _ 1 _ true); try done; rewrite ?E1, ?E0; try done; [lia|lia|].
    intros Hlt. destruct (Hrun ltac:(lia)) as [Hall (q & text & -> & Hsp)]. destruct Hsp as [[Hnil _]|(ds & c & Hds & ->)].
    { apply (f_equal (λ l, Z.of_nat (length l))) in Hnil. rewrite (length_run _ _ _ Hok) in Hnil. cbn in Hnil. lia. }
    pose proof (length_run _ _ _ Hok) as Hlr. rewrite Hds, length_app in Hlr. cbn in Hlr.
    assert (take (Z.to_nat (run_length s - 1)) (Buffer s) = ds) as ->.
    { replace (Z.to_nat (run_length s - 1)) with (length ds) by lia.
      transitivity (take (length ds) (run s)); [|by rewrite Hds, take_app_length].
      unfold run. rewrite take_take. f_equal. lia. }
    rewrite Hds in Hall. apply Forall_app in Hall as [Hall _]. split; [done|]. by exists q, [c].
Qed.

Lemma continue_ok pre done s byte n b :
  state_ok pre done s → transition s byte = Continue n b → state_ok (pre ++ [byte]) done (shift ExtendedCharSet s byte n b).
Proof.
  intros Hok Ht. pose proof Hok as [Hby Hp1 Hp2 Hl Hb Hd Hr Hi Hz Hrun]. unfold StringSearch.transition in Ht.
  assert (0 ≤ done ≤ Z.of_nat (length pre)) by (destruct (printable1 s); lia).
  destruct (printable2 s) eqn:E2, (printable1 s) eqn:E1, (P byte) eqn:E0; cbn [reach] in *.
  - destruct (search_append_ok pre done s byte Hok E0) as (n' & b' & Ha & Hok'); [by rewrite E1|by rewrite E2|]. rewrite Ha in Ht. by simplify_eq.
  - destruct (MinimumLength <=? run_length s); [done|]. destruct (Z.eqb_spec byte 0) as [->|]; simplify_eq.
    + destruct (search_ok_last _ _ _ Hok E1) as [q Hq]. destruct (Buffer s) as [|x b] eqn:HB; [unfold RTL_NUMBER_OF_Buffer in Hb; cbn in Hb; lia|].
      eapply shift_ok; try done; rewrite ?E1, ?E0; cbn [reach]; try done; try (unfold RTL_NUMBER_OF_Buffer; lia); try by auto.
      intros _. cbn. split; [constructor; [congruence|constructor]|]. exists q, [byte1 s; 0]. by rewrite Hq, <-app_assoc.
    + eapply shift_none; [done|done|]. rewrite E0. lia.
  - destruct (Z.eqb_spec (run_length s) 0), (Z.eqb_spec (byte1 s) 0); cbn [orb] in Ht.
    4: { simplify_eq. eapply shift_none; [done|done|]. rewrite E0. lia. }
    all: destruct (search_append_ok pre done s byte Hok E0) as (n' & b' & Ha & Hok'); [by auto|by rewrite E2|]; rewrite Ha in Ht; by simplify_eq.
  - destruct (MinimumLength <=? run_length s); [done|]. simplify_eq. eapply shift_none; [done|done|]. rewrite E0. lia.
  - destruct (u32 (MinimumLength + 1) <=? run_length s); [done|]. simplify_eq. destruct (search_ok_last _ _ _ Hok E1) as [q Hq].
    destruct (Buffer s) as [|x [|y b]] eqn:HB; [unfold RTL_NUMBER_OF_Buffer in Hb; cbn in Hb; lia..|].
    eapply shift_ok; try done; rewrite ?E1, ?E0; cbn [reach]; try done; try (unfold RTL_NUMBER_OF_Buffer; lia).
    intros _. cbn. split; [repeat constructor; congruence|]. exists q, [byte1 s; byte]. by rewrite Hq, <-app_assoc.
  - assert (state_ok (pre ++ [byte]) done (shift ExtendedCharSet s byte 0 (Buffer s))) as Hnone.
    { eapply shift_none; [done|done|]. rewrite E0. lia. }
    assert (byte = 0 → state_ok (pre ++ [byte]) done (shift ExtendedCharSet s byte (run_length s) (Buffer s))) as Hkeep.
    { intros ->. eapply shift_ok; try done; rewrite ?E1, ?E0; cbn [reach]; try done; try lia; try (intros; by right); [destruct (Z.eqb_spec (run_length s) 0); lia|].
      intros Hlt. destruct (Hrun Hlt) as [Hall (q & text & Hq & Hsp)]. split; [done|]. fold (run s).
      destruct Hsp as [[-> ->]|(ds & c & -> & ->)].
      - exists (pre ++ [0]), []. by rewrite app_nil_r.
      - exists q, (wide (ds ++ [c])). split; [|done]. rewrite Hq, wide_app. change (wide [c]) with ([c] ++ [0]). by rewrite !app_assoc. }
    destruct (Z.eqb_spec byte 0), (byte2 s =? 0), (run_length s =? 1); cbn [andb] in Ht; simplify_eq; auto.
  - destruct (search_append_ok pre done s byte Hok E0) as (n' & b' & Ha & Hok'); [by rewrite E2|by auto|]. rewrite Ha in Ht. by simplify_eq.
  - simplify_eq. rewrite Hi by done. eapply shift_none; [done|done|]. rewrite E0. lia.
Qed.

Definition first_state (b : list Z) : search := Search 0 0 false false 0 b.

Lemma first_ok b : Z.of_nat (length b) = cap → state_ok [] 0 (first_state b).
Proof.
  intros Hb. split; cbn; try done; try (unfold RTL_NUMBER_OF_Buffer; lia); try by rewrite zero_not_printable.
  - by exists [].
  - intros _. split; [constructor|]. by exists [], [].
Qed.

(** What is found from a state on. *)
Lemma found_ok data pre done s base :
  state_ok pre done s → 0 ≤ base → base + Z.of_nat (length (pre ++ data)) < 2 ^ 64 →
  let rs := found base (Z.of_nat (length pre)) data s in
  in_order (base + done) (base + Z.of_nat (length (pre ++ data))) rs ∧
  ∀ r, r ∈ rs → Z.of_nat (length (String r)) < cap - 1 → sound base (pre ++ data) r.
Proof.
  revert pre done s. induction data as [|byte data IH]; intros pre done s Hok Hbase Hlen; cbn [found in_order].
  - rewrite app_nil_r. split; [|by intros r ?%elem_of_nil]. pose proof (ok_done _ _ _ Hok). cbn. destruct (printable1 s); lia.
  - assert (Z.of_nat (length pre) + 1 = Z.of_nat (length (pre ++ [byte]))) as -> by (rewrite length_app; cbn; lia).
    assert (pre ++ byte :: data = (pre ++ [byte]) ++ data) as Happ by (by rewrite <-app_assoc).
    destruct (transition s byte) as [n b|n] eqn:Ht.
    + rewrite Happ in *. apply IH; [by apply continue_ok|done|done].
    + destruct (search_create_ok pre done s byte n base data Hok Ht Hbase Hlen) as (H1 & H2 & H3 & H4).
      rewrite Happ in *. destruct (IH _ _ _ H4 Hbase Hlen) as [H5 H6]. split.
      * split; [done|]. split; [done|]. replace (base + _) with (Address (create_result base (Z.of_nat (length pre)) s (P byte) n) + Length (create_result base (Z.of_nat (length pre)) s (P byte) n)) in H5 by lia.
        exact H5.
      * intros r [->|Hr]%elem_of_cons; [done|by apply H6].
Qed.

(** ** What stands by itself is found *)

Lemma found_app base pre rest p0 done s : state_ok p0 done s → 0 ≤ base → base + Z.of_nat (length (p0 ++ pre ++ rest)) < 2 ^ 64 →
  ∃ rs done' s', found base (Z.of_nat (length p0)) (pre ++ rest) s = rs ++ found base (Z.of_nat (length (p0 ++ pre))) rest s' ∧
    state_ok (p0 ++ pre) done' s'.
Proof.
  revert p0 done s. induction pre as [|byte pre IH]; intros p0 done s Hok Hbase Hlen; cbn [app found].
  - exists [], done, s. rewrite app_nil_r. split; [reflexivity|exact Hok].
  - assert (Z.of_nat (length p0) + 1 = Z.of_nat (length (p0 ++ [byte]))) as -> by (rewrite length_app; cbn; lia).
    assert (∀ l, p0 ++ byte :: l = (p0 ++ [byte]) ++ l) as Happ by (intros l; by rewrite <-app_assoc).
    destruct (transition s byte) as [n b|n] eqn:Ht.
    + destruct (IH (p0 ++ [byte]) done (shift ExtendedCharSet s byte n b)) as (rs & d & s' & H1 & H2); [by apply continue_ok|done|by rewrite <-Happ|].
      exists rs, d, s'. rewrite H1, (Happ pre). split; [reflexivity|exact H2].
    + destruct (search_create_ok p0 done s byte n base (pre ++ rest) Hok Ht Hbase Hlen) as (_ & _ & _ & H4).
      destruct (IH _ _ _ H4) as (rs & d & s' & H1 & H2); [done|by rewrite <-Happ|].
      eexists (_ :: rs), d, s'. rewrite H1, (Happ pre). split; [reflexivity|exact H2].
Qed.

(** The last two bytes, as far as there are any, are not printable. *)
Definition quiet (pre : list Z) : Prop := Forall (λ b, P b = false) (take 2 (reverse pre)).

Lemma quiet_state pre done s : state_ok pre done s → quiet pre → printable2 s = false ∧ printable1 s = false ∧ run_length s = 0.
Proof.
  intros [(q & Hq) H1 H2 _ _ _ _ Hi _ _] Hquiet. assert (P (byte1 s) = false ∧ P (byte2 s) = false) as [E1 E2].
  { apply (f_equal reverse) in Hq. rewrite !reverse_app in Hq. unfold quiet in Hquiet. cbn in Hq.
    destruct (reverse pre) as [|b1 [|b2 l]]; cbn in Hq, Hquiet; injection Hq as E1 E2 _; rewrite <-E1, <-E2, ?zero_not_printable;
      rewrite ?Forall_cons in Hquiet; intuition. }
  rewrite H1, H2, E1, E2. split; [done|]. split; [done|]. apply Hi; congruence.
Qed.

(** The state within a run of characters of one byte, and within one of two bytes. *)
Definition in_run (p2 p1 : bool) (cs : list Z) (s : search) : Prop :=
  printable2 s = p2 ∧ printable1 s = p1 ∧ run_length s = Z.of_nat (length cs) ∧ run s = cs ∧ Z.of_nat (length (Buffer s)) = cap.

Lemma append_run p2 p1 cs s byte n b : in_run p2 p1 cs s → Z.of_nat (length cs) < cap → append s byte = Continue n b →
  in_run p1 (P byte) (cs ++ [byte]) (shift ExtendedCharSet s byte n b).
Proof.
  intros (H1 & H2 & H3 & H4 & H5) Hlt Ha. unfold append in Ha. rewrite H3 in Ha. rewrite (proj2 (Z.ltb_lt _ _) Hlt) in Ha. injection Ha as <- <-.
  unfold in_run, run in *. cbn. rewrite length_insert, length_app. cbn. unfold RTL_NUMBER_OF_Buffer in *. rewrite u32_small by lia.
  split_and!; [done|done|lia| |done]. replace (Z.to_nat (Z.of_nat (length cs) + 1)) with (S (length cs)) by lia.
  rewrite Nat2Z.id, take_store by lia. f_equal. rewrite H3, Nat2Z.id in H4. done.
Qed.

Lemma found_run cs ds b post base i s :
  in_run true true cs s → Forall (λ c, P c = true) ds → P b = false → Z.of_nat (length (cs ++ ds)) < cap →
  MinimumLength ≤ Z.of_nat (length (cs ++ ds)) → 0 ≤ base → Z.of_nat (length cs) ≤ i → base + i + Z.of_nat (length ds) < 2 ^ 64 →
  Result (base + i - Z.of_nat (length cs)) (Z.of_nat (length (cs ++ ds))) (cs ++ ds) false ∈ found base i (ds ++ b :: post) s.
Proof.
  revert cs i s. induction ds as [|d ds IH]; intros cs i s Hs Hds Hb Hcap Hm Hbase Hi Hlen; cbn [app found].
  - rewrite app_nil_r in *. destruct Hs as (H1 & H2 & H3 & H4 & H5). unfold StringSearch.transition. rewrite H1, H2, H3, Hb.
    rewrite (proj2 (Z.leb_le _ _) Hm). apply elem_of_cons. left. unfold create_result. rewrite H2. cbn [Bool.eqb].
    assert (∀ x, 0 ≤ x < 2 ^ 64 → u64 x = x) as Hu by (intros x Hx; unfold u64; by apply Z.mod_small).
    rewrite (Hu (_ - _ - _)), Hu, Z.min_l by lia. f_equal; [lia|]. unfold run in H4. by rewrite H3 in H4.
  - apply Forall_cons in Hds as [Hd Hds]. rewrite length_app in *. cbn [length] in *. pose proof Hs as (H1 & H2 & H3 & H4 & H5).
    unfold StringSearch.transition. rewrite H1, H2, Hd. destruct (append s d) as [n k|n] eqn:Ha; [|unfold append in Ha; by case_match].
    specialize (IH (cs ++ [d]) (i + 1) (shift ExtendedCharSet s d n k)). rewrite !length_app in IH. cbn [length] in IH.
    rewrite <-app_assoc in IH. cbn [app] in IH. eapply (append_run _ _ _ _ d) in Hs; [|lia|done]. rewrite Hd in Hs.
    replace (base + i - Z.of_nat (length cs)) with (base + (i + 1) - Z.of_nat (length cs + 1)) by lia.
    replace (length cs + S (length ds))%nat with (length cs + 1 + length ds)%nat by lia.
    apply IH; try done; lia.
Qed.

(** A run of two-byte characters ends before a byte that is not printable, or before two
    that are. *)
Definition ends_wide (tail : list Z) : Prop :=
  (∃ b post, tail = b :: post ∧ P b = false) ∨ (∃ x y post, tail = x :: y :: post ∧ P x = true ∧ P y = true).

Lemma wide_end cs tail base i s :
  in_run true false cs s → byte1 s = 0 → ends_wide tail → Z.of_nat (length cs) < cap → MinimumLength ≤ Z.of_nat (length cs) →
  0 ≤ base → 2 * Z.of_nat (length cs) ≤ i → base + i + 1 < 2 ^ 64 →
  Result (base + i - 2 * Z.of_nat (length cs)) (2 * Z.of_nat (length cs)) cs true ∈ found base i tail s.
Proof.
  intros Hs Hb1 Hend Hcap Hm Hbase Hi Hlen. pose proof Hs as (H1 & H2 & H3 & H4 & H5).
  assert (∀ x, 0 ≤ x < 2 ^ 64 → u64 x = x) as Hu by (intros x Hx; unfold u64; by apply Z.mod_small).
  unfold run in H4. rewrite H3 in H4. unfold RTL_NUMBER_OF_Buffer in *.
  destruct Hend as [(b & post & -> & Hb)|(x & y & post & -> & Hx & Hy)]; cbn [found]; unfold StringSearch.transition at 1; rewrite H1, H2.
  - rewrite Hb, H3, (proj2 (Z.leb_le _ _) Hm). apply elem_of_cons. left. unfold create_result. rewrite H2. cbn [Bool.eqb].
    rewrite u32_small, (Hu (_ - _ - _)), Hu, Z.min_l by (unfold RTL_NUMBER_OF_Buffer; lia). f_equal; [lia|lia|done].
  - rewrite Hx, Hb1, orb_true_r. destruct (append s x) as [n k|n] eqn:Ha; [|unfold append in Ha; by case_match].
    eapply (append_run _ _ _ _ x) in Hs; [|done|done]. rewrite Hx in Hs. destruct Hs as (G1 & G2 & G3 & G4 & _).
    unfold StringSearch.transition at 1. rewrite G1, G2, Hy, G3. rewrite length_app. cbn [length].
    rewrite u32_small by lia. rewrite (proj2 (Z.leb_le _ _)) by lia. apply elem_of_cons. left. unfold create_result. rewrite G2.
    cbn [Bool.eqb]. replace (Z.of_nat (length cs + 1) - 1) with (Z.of_nat (length cs)) by lia.
    rewrite (u32_small (Z.of_nat (length cs))), u32_small, (Hu (_ - _ - _)), Hu, Z.min_l by (unfold RTL_NUMBER_OF_Buffer; lia).
    f_equal; [lia|lia|]. unfold run in G4. rewrite G3 in G4.
    transitivity (take (length cs) (cs ++ [x])); [by rewrite take_app_length|]. rewrite <-G4, take_take. f_equal. rewrite length_app. cbn. lia.
Qed.

Lemma found_wide cs ds tail base i s :
  in_run true false cs s → byte1 s = 0 → Forall (λ c, P c = true) ds → ends_wide tail → Z.of_nat (length (cs ++ ds)) < cap →
  MinimumLength ≤ Z.of_nat (length (cs ++ ds)) → 0 ≤ base → 2 * Z.of_nat (length cs) ≤ i → base + i + 2 * Z.of_nat (length ds) + 1 < 2 ^ 64 →
  Result (base + i - 2 * Z.of_nat (length cs)) (2 * Z.of_nat (length (cs ++ ds))) (cs ++ ds) true ∈ found base i (wide ds ++ tail) s.
Proof.
  revert cs i s. induction ds as [|d ds IH]; intros cs i s Hs Hb1 Hds Hend Hcap Hm Hbase Hi Hlen.
  - rewrite app_nil_r in *. apply wide_end; try done. cbn [length] in Hlen. lia.
  - apply Forall_cons in Hds as [Hd Hds]. pose proof Hs as (H1 & H2 & H3 & H4 & H5).
    change (wide (d :: ds) ++ tail) with (d :: 0 :: (wide ds ++ tail)). cbn [found].
    unfold StringSearch.transition at 1. rewrite H1, H2, Hd, Hb1, orb_true_r.
    destruct (append s d) as [n k|n] eqn:Ha; [|unfold append in Ha; by case_match].
    rewrite length_app in *. cbn [length] in *.
    eapply (append_run _ _ _ _ d) in Hs; [|lia|done]. rewrite Hd in Hs. pose proof Hs as (G1 & G2 & G3 & G4 & G5).
    unfold StringSearch.transition at 1. rewrite G1, G2, zero_not_printable. cbn [shift byte2 andb]. rewrite Hb1. cbn [Z.eqb andb].
    specialize (IH (cs ++ [d]) (i + 1 + 1) (shift ExtendedCharSet (shift ExtendedCharSet s d n k) 0 n k)).
    rewrite !length_app in IH. cbn [length] in IH. rewrite <-app_assoc in IH. cbn [app] in IH.
    replace (base + i - 2 * Z.of_nat (length cs)) with (base + (i + 1 + 1) - 2 * Z.of_nat (length cs + 1)) by lia.
    replace (length cs + S (length ds))%nat with (length cs + 1 + length ds)%nat by lia.
    apply IH; try done; try lia. unfold in_run, run in *. cbn in *. rewrite Hd, zero_not_printable. cbn. split_and!; try done.
Qed.

(** A string of either kind after bytes that are not printable. *)
Lemma found_narrow_fresh cs b post base i s :
  printable2 s = false → printable1 s = false → run_length s = 0 → Z.of_nat (length (Buffer s)) = cap →
  Forall (λ c, P c = true) cs → P b = false → 2 ≤ Z.of_nat (length cs) < cap → MinimumLength ≤ Z.of_nat (length cs) →
  0 ≤ base → 0 ≤ i → base + i + Z.of_nat (length cs) < 2 ^ 64 →
  Result (base + i) (Z.of_nat (length cs)) cs false ∈ found base i (cs ++ b :: post) s.
Proof.
  intros H1 H2 H3 H5 Hcs Hb Hl Hm Hbase Hi Hlen. destruct cs as [|c [|d cs]]; cbn [length] in Hl; [lia..|].
  apply Forall_cons in Hcs as [Hc Hcs]. apply Forall_cons in Hcs as [Hd Hcs]. cbn [app found].
  assert (in_run false false [] s) as Hs by (unfold in_run; rewrite run_empty by done; by split_and!).
  unfold StringSearch.transition at 1. rewrite H1, H2, Hc. destruct (append s c) as [n k|n] eqn:Ha; [|unfold append in Ha; by case_match].
  eapply (append_run _ _ _ _ c) in Hs; [|unfold RTL_NUMBER_OF_Buffer; cbn; lia|done]. rewrite Hc in Hs. destruct Hs as (G1 & G2 & G3 & G4 & G5).
  unfold StringSearch.transition at 1. rewrite G1, G2, Hd, G3. cbn [length app]. rewrite u32_small by lia.
  destruct (Z.leb_spec (MinimumLength + 1) (Z.of_nat 1)); [lia|].
  replace (base + i) with (base + (i + 1 + 1) - Z.of_nat (length [c; d])) by (cbn; lia).
  change (c :: d :: cs) with ([c; d] ++ cs). cbn [length] in *.
  apply (found_run [c; d] cs); try done; cbn [length app]; try lia.
  cbn in G5. destruct k as [|x [|y k]]; [unfold RTL_NUMBER_OF_Buffer in G5; cbn in G5; lia..|].
  unfold in_run, run. cbn. by rewrite Hc, Hd.
Qed.

Lemma found_wide_fresh cs tail base i s :
  printable2 s = false → printable1 s = false → run_length s = 0 → Z.of_nat (length (Buffer s)) = cap →
  Forall (λ c, P c = true) cs → ends_wide tail → Z.of_nat (length cs) < cap → MinimumLength ≤ Z.of_nat (length cs) →
  0 ≤ base → 0 ≤ i → base + i + 2 * Z.of_nat (length cs) + 1 < 2 ^ 64 →
  Result (base + i) (2 * Z.of_nat (length cs)) cs true ∈ found base i (wide cs ++ tail) s.
Proof.
  intros H1 H2 H3 H5 Hcs Hend Hl Hm Hbase Hi Hlen. destruct cs as [|c cs]; cbn [length] in *; [lia|].
  apply Forall_cons in Hcs as [Hc Hcs]. change (wide (c :: cs) ++ tail) with (c :: 0 :: (wide cs ++ tail)). cbn [found].
  assert (in_run false false [] s) as Hs by (unfold in_run; rewrite run_empty by done; by split_and!).
  unfold StringSearch.transition at 1. rewrite H1, H2, Hc. destruct (append s c) as [n k|n] eqn:Ha; [|unfold append in Ha; by case_match].
  eapply (append_run _ _ _ _ c) in Hs; [|unfold RTL_NUMBER_OF_Buffer; cbn; lia|done]. rewrite Hc in Hs. pose proof Hs as (G1 & G2 & G3 & G4 & G5).
  unfold StringSearch.transition at 1. rewrite G1, G2, zero_not_printable, G3. cbn [length app]. rewrite !andb_true_r.
  assert (∀ (A : action) B, (if byte2 (shift ExtendedCharSet s c n k) =? 0 then A else if Z.of_nat 1 =? 1 then A else B) = A) as -> by (intros; by case_match).
  replace (base + i) with (base + (i + 1 + 1) - 2 * Z.of_nat (length [c])) by (cbn; lia).
  apply (found_wide [c] cs); try done; cbn [length app]; try lia.
  unfold in_run, run in *. cbn in *. rewrite Hc, zero_not_printable. split_and!; try done. by rewrite G3 in G4.
Qed.

(** ** What was in the buffer before does not matter *)

Definition same (s s' : search) : Prop :=
  byte1 s = byte1 s' ∧ byte2 s = byte2 s' ∧ printable1 s = printable1 s' ∧ printable2 s = printable2 s' ∧ run_length s = run_length s' ∧
  0 ≤ run_length s ≤ cap ∧ Z.of_nat (length (Buffer s)) = cap ∧ Z.of_nat (length (Buffer s')) = cap ∧ run s = run s'.

Definition same_action (s s' : search) (a a' : action) : Prop :=
  match a, a' with
  | Continue n b, Continue n' b' =>
      n = n' ∧ 0 ≤ n ≤ cap ∧ Z.of_nat (length b) = cap ∧ Z.of_nat (length b') = cap ∧ take (Z.to_nat n) b = take (Z.to_nat n) b'
  | CreateResult n, CreateResult n' => n = n' ∧ n ≤ run_length s
  | _, _ => False
  end.

Lemma append_same s s' byte : same s s' → same_action s s' (append s byte) (append s' byte).
Proof.
  intros (_ & _ & _ & _ & Hn & Hl & Hb & Hb' & Hrun). unfold append. rewrite <-Hn. unfold run in Hrun. rewrite <-Hn in Hrun.
  destruct (Z.ltb_spec (run_length s) cap); cbn; [|split_and!; try done; lia]. rewrite !length_insert.
  unfold RTL_NUMBER_OF_Buffer in *. rewrite u32_small by lia. split_and!; [done|lia..|done|done|].
  replace (Z.to_nat (run_length s + 1)) with (S (Z.to_nat (run_length s))) by lia. rewrite !take_store by lia. by rewrite Hrun.
Qed.

Lemma transition_same s s' byte : same s s' → same_action s s' (transition s byte) (transition s' byte).
Proof.
  intros Hs. pose proof (append_same s s' byte Hs) as Ha. destruct Hs as (H1 & H2 & H3 & H4 & Hn & Hl & Hb & Hb' & Hrun).
  unfold StringSearch.transition. rewrite <-H1, <-H2, <-H3, <-H4, <-Hn. unfold run in Hrun. rewrite <-Hn in Hrun.
  assert (∀ n, n = 0 ∨ n = run_length s → same_action s s' (Continue n (Buffer s)) (Continue n (Buffer s'))) as Hkeep.
  { intros n [->| ->]; cbn; split_and!; try done; lia. }
  assert (∀ x, ∃ b, <[0%nat := x]> (Buffer s) = x :: b) as Hz.
  { intros x. destruct (Buffer s); [unfold RTL_NUMBER_OF_Buffer in Hb; cbn in Hb; lia|by eexists]. }
  destruct (printable2 s), (printable1 s), (P byte); try done; try (apply Hkeep; by auto).
  - case_match; [by cbn|]. case_match; [|apply Hkeep; by auto]. cbn. rewrite !length_insert.
    split_and!; try done; try (unfold RTL_NUMBER_OF_Buffer; lia).
    destruct (Buffer s), (Buffer s'); try done; unfold RTL_NUMBER_OF_Buffer in *; cbn in Hb, Hb'; lia.
  - case_match; [done|apply Hkeep; by auto].
  - case_match; [by cbn|apply Hkeep; by auto].
  - destruct (Z.leb_spec (u32 (MinimumLength + 1)) (run_length s)) as [Hle|]; [cbn|].
    + rewrite u32_small in Hle by lia. unfold RTL_NUMBER_OF_Buffer in *. rewrite u32_small by lia. split; [done|lia].
    + cbn. rewrite !length_insert. split_and!; try done; try (unfold RTL_NUMBER_OF_Buffer; lia).
      destruct (Buffer s) as [|? [|]], (Buffer s') as [|? [|]]; try done; unfold RTL_NUMBER_OF_Buffer in *; cbn in Hb, Hb'; lia.
  - repeat case_match; apply Hkeep; auto.
Qed.

Lemma found_same data base i s s' : same s s' → found base i data s = found base i data s'.
Proof.
  revert i s s'. induction data as [|byte data IH]; intros i s s' Hs; cbn [found]; [done|].
  pose proof (transition_same s s' byte Hs) as Ha. destruct Hs as (H1 & H2 & H3 & H4 & Hn & Hl & Hb & Hb' & Hrun).
  destruct (transition s byte) as [n b|n], (transition s' byte) as [n' b'|n']; try done; cbn in Ha.
  - destruct Ha as (-> & ? & ? & ? & ?). apply IH. unfold same, run. cbn. by rewrite H1, H3.
  - destruct Ha as (-> & Hle). f_equal.
    + unfold create_result. rewrite H3. f_equal. unfold run in Hrun. rewrite <-Hn in Hrun.
      assert (Z.to_nat (Z.min n' cap) ≤ Z.to_nat (run_length s))%nat as Hle' by (unfold RTL_NUMBER_OF_Buffer in *; lia).
      apply (f_equal (take (Z.to_nat (Z.min n' cap)))) in Hrun. by rewrite !take_take, Nat.min_l in Hrun.
    + apply IH. unfold same, run. cbn. unfold RTL_NUMBER_OF_Buffer in *. rewrite H1, H3. by split_and!.
Qed.

(** ** The functions *)

(** What is in a buffer. *)
Definition results (base : Z) (data : list Z) : list PH_STRING_SEARCH_RESULT :=
  found base 0 data (first_state (replicate (Z.to_nat cap) 0)).

Lemma length_zeros : Z.of_nat (length (replicate (Z.to_nat cap) 0)) = cap.
Proof. rewrite length_replicate. unfold RTL_NUMBER_OF_Buffer. lia. Qed.

Lemma results_found base data b : Z.of_nat (length b) = cap → found base 0 data (first_state b) = results base data.
Proof.
  intros Hb. apply found_same. unfold same, run. cbn [first_state byte1 byte2 printable1 printable2 run_length Buffer].
  split_and!; try done; apply length_zeros.
Qed.

Section Callback.
Context {C : Type} (Callback : PH_STRING_SEARCH_RESULT → C → bool * C).

(** The callback is given one result after the other, until it stops the search. *)
Fixpoint feed (rs : list PH_STRING_SEARCH_RESULT) (c : C) : bool * C :=
  match rs with
  | [] => (false, c)
  | r :: rs => match Callback r c with (true, c) => (true, c) | (false, c) => feed rs c end
  end.

Lemma feed_app rs rs' c : feed (rs ++ rs') c = match feed rs c with (true, c) => (true, c) | (false, c) => feed rs' c end.
Proof. revert c. induction rs as [|r rs IH]; intros c; [done|]. cbn. destruct (Callback r c) as [[] c']; [done|apply IH]. Qed.

Lemma search_from_ok base data pre done s c :
  state_ok pre done s → 0 ≤ base → base + Z.of_nat (length (pre ++ data)) < 2 ^ 64 →
  ∃ b, search_from MinimumLength ExtendedCharSet Callback base (Z.of_nat (length pre)) data s c =
    ((feed (found base (Z.of_nat (length pre)) data s) c).1, b, (feed (found base (Z.of_nat (length pre)) data s) c).2) ∧ Z.of_nat (length b) = cap.
Proof.
  revert pre done s c. induction data as [|byte data IH]; intros pre done s c Hok Hbase Hlen; cbn [search_from found feed].
  - exists (Buffer s). split; [done|apply Hok].
  - assert (Z.of_nat (length pre) + 1 = Z.of_nat (length (pre ++ [byte]))) as -> by (rewrite length_app; cbn; lia).
    assert (pre ++ byte :: data = (pre ++ [byte]) ++ data) as Happ by (by rewrite <-app_assoc).
    destruct (transition s byte) as [n b|n] eqn:Ht.
    + rewrite Happ in Hlen. eapply IH; [by apply continue_ok|done|done].
    + destruct (search_create_ok pre done s byte n base data Hok Ht Hbase Hlen) as (_ & _ & _ & H4). rewrite Happ in Hlen. cbn [feed].
      destruct (Callback _ c) as [[] c']; [exists (Buffer s); split; [done|apply Hok]|]. by eapply IH.
Qed.

Lemma search_strings_ok base data b c : Z.of_nat (length b) = cap → 0 ≤ base → base + Z.of_nat (length data) < 2 ^ 64 →
  ∃ b', PhpSearchStrings MinimumLength ExtendedCharSet Callback b base data c =
    ((feed (results base data) c).1, b', (feed (results base data) c).2) ∧ Z.of_nat (length b') = cap.
Proof.
  intros Hb Hbase Hlen. destruct (search_from_ok base data [] 0 (first_state b) c) as (b' & Hs & Hb'); [by apply first_ok|done|done|].
  exists b'. split; [|done]. cbn [length] in Hs. change (Z.of_nat 0) with 0 in Hs. rewrite results_found in Hs by done. exact Hs.
Qed.

End Callback.

(** C39. What the search for strings finds is there: it gives the callback, until the callback
    stops it, a list of results that does not depend on the callback; their places are
    within the buffer, one after the other and apart; and each result with fewer than 8191
    characters has at least [MinimumLength] characters, all printable, which stand at its
    address, as single bytes or each before a zero, and take as many bytes as it says. *)
Theorem string_search_sound {C} (Callback : PH_STRING_SEARCH_RESULT → C → bool * C) b base data c :
  Z.of_nat (length b) = cap → 0 ≤ base → base + Z.of_nat (length data) < 2 ^ 64 →
  (∃ b', PhpSearchStrings MinimumLength ExtendedCharSet Callback b base data c =
    ((feed Callback (results base data) c).1, b', (feed Callback (results base data) c).2)) ∧
  in_order base (base + Z.of_nat (length data)) (results base data) ∧
  ∀ r, r ∈ results base data → Z.of_nat (length (String r)) < cap - 1 → sound base data r.
Proof.
  intros Hb Hbase Hlen. split.
  - destruct (search_strings_ok Callback base data b c Hb Hbase Hlen) as (b' & H & _). by exists b'.
  - pose proof (found_ok data [] 0 _ base (first_ok _ length_zeros) Hbase Hlen) as H. cbn [app length] in H. cbv zeta in H.
    change (Z.of_nat 0) with 0 in H. by rewrite Z.add_0_r in H.
Qed.

(** C40. What stands by itself and does not end the buffer is found. Let the last two bytes
    before a run, as far as there are two, not be printable, and let the run have at least
    [MinimumLength] characters and fewer than 8192. If it is a run of at least two printable
    bytes and a byte that is not printable follows, it is a result, with its address, its
    length and its kind; and so is a run of printable characters of two bytes if a byte
    that is not printable or two that are follow. A run with nothing after it is not
    reported: [string_search_misses]. *)
Theorem string_search_complete base pre cs tail :
  quiet pre → Forall (λ c, P c = true) cs → MinimumLength ≤ Z.of_nat (length cs) < cap → 0 ≤ base →
  (2 ≤ Z.of_nat (length cs) → (∃ b post, tail = b :: post ∧ P b = false) → base + Z.of_nat (length (pre ++ cs ++ tail)) < 2 ^ 64 →
    Result (base + Z.of_nat (length pre)) (Z.of_nat (length cs)) cs false ∈ results base (pre ++ cs ++ tail)) ∧
  (ends_wide tail → base + Z.of_nat (length (pre ++ wide cs ++ tail)) < 2 ^ 64 →
    Result (base + Z.of_nat (length pre)) (2 * Z.of_nat (length cs)) cs true ∈ results base (pre ++ wide cs ++ tail)).
Proof.
  intros Hq Hcs [Hm Hl] Hbase.
  assert (∀ rest, base + Z.of_nat (length (pre ++ rest)) < 2 ^ 64 → ∃ s rs, results base (pre ++ rest) = rs ++ found base (Z.of_nat (length pre)) rest s ∧
    printable2 s = false ∧ printable1 s = false ∧ run_length s = 0 ∧ Z.of_nat (length (Buffer s)) = cap) as Hstate.
  { intros rest Hlen. destruct (found_app base pre rest [] 0 _ (first_ok _ length_zeros) Hbase Hlen) as (rs & d & s & H1 & H2).
    exists s, rs. cbn [app length] in H1, H2. change (Z.of_nat 0) with 0 in H1. split; [done|].
    destruct (quiet_state _ _ _ H2 Hq) as (? & ? & ?). split_and!; [done..|apply H2]. }
  split.
  - intros H2 (x & post & -> & Hx) Hlen. destruct (Hstate _ Hlen) as (s & rs & -> & ? & ? & ? & ?). rewrite !length_app in Hlen.
    apply elem_of_app. right. apply found_narrow_fresh; try done; lia.
  - intros Hend Hlen. destruct (Hstate _ Hlen) as (s & rs & -> & ? & ? & ? & ?). rewrite !length_app, length_wide in Hlen.
    apply elem_of_app. right. apply found_wide_fresh; try done; try lia.
    assert (length tail ≠ 0%nat) by (destruct Hend as [(? & ? & -> & _)|(? & ? & ? & -> & _)]; done). lia.
Qed.

(** *** Several buffers *)

Section Buffers.
Context {D : Type} (Callback : PH_STRING_SEARCH_RESULT → D → bool * D).

(** The callbacks have a list of buffers that are left, and what the callback has. *)
Definition next_buffer (c : list (Z * list Z) * D) : Z * Z * list Z * (list (Z * list Z) * D) :=
  match c with
  | ([], d) => (STATUS_SUCCESS, 0, [], ([], d))
  | ((base, data) :: rest, d) => (STATUS_SUCCESS, base, data, (rest, d))
  end.

Definition on_result (r : PH_STRING_SEARCH_RESULT) (c : list (Z * list Z) * D) : bool * (list (Z * list Z) * D) :=
  let '(stop, d) := Callback r c.2 in (stop, (c.1, d)).

Lemma feed_on_result rs rest d : feed on_result rs (rest, d) = ((feed Callback rs d).1, (rest, (feed Callback rs d).2)).
Proof.
  revert d. induction rs as [|r rs IH]; intros d; cbn; [done|]. unfold on_result at 1. cbn. destruct (Callback r d) as [[] d']; [done|apply IH].
Qed.

(** The results of all buffers are given to the callback in order; a buffer is searched by
    itself. *)
Theorem string_search_buffers bufs d :
  Forall (λ x, x.2 ≠ [] ∧ 0 ≤ x.1 ∧ x.1 + Z.of_nat (length x.2) < 2 ^ 64) bufs →
  ∃ rest, PhSearchStrings MinimumLength ExtendedCharSet on_result next_buffer (S (length bufs)) (bufs, d) =
    Some (STATUS_SUCCESS, (rest, (feed Callback (bufs ≫= λ x, results x.1 x.2) d).2)).
Proof.
  intros Hbufs. unfold PhSearchStrings. rewrite (proj2 (Z.eqb_neq _ _)) by lia.
  generalize (replicate (Z.to_nat cap) 0) length_zeros. intros b Hb. revert b Hb d.
  induction Hbufs as [|[base data] bufs (Hd & Hbase & Hlen) _ IH]; intros b Hb d; [by exists []|].
  cbn [fst snd] in *. cbn [length]. remember (S (length bufs)) as fuel eqn:Hfuel. cbn [search_buffers next_buffer].
  change (NT_SUCCESS STATUS_SUCCESS) with true. cbn [negb]. destruct data as [|x data]; [done|].
  destruct (search_strings_ok on_result base (x :: data) b (bufs, d) Hb Hbase Hlen) as (b' & -> & Hb').
  rewrite feed_on_result. change (((base, x :: data) :: bufs) ≫= _) with (results base (x :: data) ++ (bufs ≫= λ x, results x.1 x.2)).
  rewrite feed_app. cbn [fst snd]. destruct (feed Callback (results base (x :: data)) d) as [[] d'] eqn:Hf; cbn [fst snd].
  - by exists bufs.
  - subst fuel. by apply IH.
Qed.
End Buffers.
End Results.

Definition collect (r : PH_STRING_SEARCH_RESULT) (rs : list PH_STRING_SEARCH_RESULT) := (false, rs ++ [r]).

(** "ab" in two-byte characters, and "hello". *)
Definition example_data : list Z := [1; 0; 97; 0; 98; 0; 0; 104; 101; 108; 108; 111; 7].

Lemma string_search_sound_witness :
  results 2 false 4096 example_data = [Result 4098 4 [97; 98] true; Result 4103 5 [104; 101; 108; 108; 111] false] ∧
  ∀ r, r ∈ results 2 false 4096 example_data → Z.of_nat (length (String r)) < 8191 → sound 2 false 4096 example_data r.
Proof.
  split; [by vm_compute|].
  exact (proj2 (proj2 (string_search_sound 2 false ltac:(lia) collect (replicate (Z.to_nat cap) 0) 4096 example_data []
    length_zeros ltac:(lia) ltac:(vm_compute; reflexivity)))).
Defined.

Lemma string_search_complete_witness :
  Result 4098 4 [97; 98] true ∈ results 2 false 4096 ([1; 0] ++ wide [97; 98] ++ [0; 104; 101]).
Proof.
  refine (proj2 (string_search_complete 2 false ltac:(lia) 4096 [1; 0] [97; 98] [0; 104; 101] _ _ _ _) _ _).
  - by repeat constructor.
  - by repeat constructor.
  - by vm_compute.
  - lia.
  - left. by exists 0, [104; 101].
  - by vm_compute.
Defined.

(** What the search misses. A string that ends where the buffer ends is not a result. The
    first two bytes of a string that follows two-byte characters directly are lost: "hello"
    after "test" is not found. And the address of a result with more characters than the
    buffer of the context has is that of its last 8192, while its string has the first. *)
Theorem string_search_misses :
  results 4 false 4096 [104; 101; 108; 108; 111] = [] ∧
  results 4 false 4096 (wide [116; 101; 115; 116] ++ [104; 101; 108; 108; 111; 0]) = [Result 4096 8 [116; 101; 115; 116] true] ∧
  let data := 98 :: replicate (Z.to_nat 8192) 97 ++ [0] in
  let rs := results 4 false 4096 data in
  Address <$> rs = [4097] ∧ Length <$> rs = [8192] ∧ (λ r, take 2 (String r)) <$> rs = [[98; 97]] ∧ take 2 (drop 1 data) = [97; 97].
Proof. split; [by vm_compute|]. split; by vm_compute. Qed.
