(* ===== verification/Utilities.v ===== *)
(** Utilities of src/phlib/util.c: rectangles, strings that are shortened with an ellipsis,
    texts of menus, and the mapping of flags. Rectangles stay within bounds, shortened strings
    have the length that was asked for, menu texts are compared as they are shown, flags are
    mapped bit by bit. *)

From S2P Require Import Prelude Blocks Strings StringsTheorems StringBuilder StringBuilderTheorems CommandLineTheorems.

(** ** Rectangles

    Positions and sizes are LONGs. *)
Record PH_RECTANGLE := Rectangle { Left : Z; Top : Z; Width : Z; Height : Z }.

Definition PhAdjustRectangleToBounds (r bounds : PH_RECTANGLE) : PH_RECTANGLE :=
  let r :=
    if i32 (Left bounds + Width bounds) <? i32 (Left r + Width r)
    then Rectangle (i32 (i32 (Left bounds + Width bounds) - Width r)) (Top r) (Width r) (Height r) else r in
  let r :=
    if i32 (Top bounds + Height bounds) <? i32 (Top r + Height r)
    then Rectangle (Left r) (i32 (i32 (Top bounds + Height bounds) - Height r)) (Width r) (Height r) else r in
  let r := if Left r <? Left bounds then Rectangle (Left bounds) (Top r) (Width r) (Height r) else r in
  let r := if Top r <? Top bounds then Rectangle (Left r) (Top bounds) (Width r) (Height r) else r in
  let r := if Width bounds <? Width r then Rectangle (Left r) (Top r) (Width bounds) (Height r) else r in
  if Height bounds <? Height r then Rectangle (Left r) (Top r) (Width r) (Height bounds) else r.

(** The division rounds towards zero. *)
Definition PhCenterRectangle (r bounds : PH_RECTANGLE) : PH_RECTANGLE :=
  Rectangle (i32 (Left bounds + Z.quot (i32 (Width bounds - Width r)) 2))
    (i32 (Top bounds + Z.quot (i32 (Height bounds - Height r)) 2)) (Width r) (Height r).

(** ** Ellipses

    A string is given by its text; [None] for the result is another reference to it. *)
Definition ellipsis : list Z := [46; 46; 46].
Definition OBJ_NAME_PATH_SEPARATOR : Z := 92.
Definition OBJ_NAME_ALTPATH_SEPARATOR : Z := 47.

(** [memcpy] of [n] characters of [text], which may not read past its terminator. *)
Definition copy_text (buffer : block Z) (offset : Z) (text : list Z) (n : Z) : result (block Z) :=
  if Z.of_nat (length text) + 1 <? n then Fault else store buffer offset (take (Z.to_nat n) (text ++ [0])).

Definition PhEllipsisString (text : list Z) (DesiredCount : Z) : result (option PH_STRING) :=
  let count := Z.of_nat (length text) in
  if (count <=? DesiredCount) || (DesiredCount <? 3) then Ok None
  else
    string ← PhCreateStringEx None (u64 (DesiredCount * sizeof_WCHAR));
    buffer ← copy_text (Buffer string) 0 text (DesiredCount - 3);
    buffer ← store buffer (DesiredCount - 3) ellipsis;
    Ok (Some (String (Length string) buffer)).

Section Ellipsis.
(** The upper case and the processor of [Strings]. *)
Context (PhUpcaseUnicodeChar : Z → Z) (PhHasIntrinsics : bool).

Definition find_last (text : list Z) (c : Z) : Z :=
  PhFindLastCharInStringRef PhUpcaseUnicodeChar PhHasIntrinsics
    (StringRef (2 * Z.of_nat (length text)) (Some (text ++ [0]))) c false.

Definition PhEllipsisStringPath (text : list Z) (DesiredCount : Z) : result (option PH_STRING) :=
  let count := Z.of_nat (length text) in
  let secondPartIndex := find_last text OBJ_NAME_PATH_SEPARATOR in
  let secondPartIndex := if secondPartIndex =? SIZE_MAX then find_last text OBJ_NAME_ALTPATH_SEPARATOR else secondPartIndex in
  if secondPartIndex =? SIZE_MAX then PhEllipsisString text DesiredCount
  else if (count <=? DesiredCount) || (DesiredCount <? 3) then Ok None
  else
    string ← PhCreateStringEx None (u64 (DesiredCount * sizeof_WCHAR));
    let secondPartCopyLength := count - secondPartIndex in
    let '(firstPartCopyLength, secondPartCopyLength, secondPartIndex) :=
      if secondPartCopyLength + 3 <=? DesiredCount then (DesiredCount - secondPartCopyLength - 3, secondPartCopyLength, secondPartIndex)
      else
        let firstPartCopyLength := (DesiredCount - 3) / sizeof_WCHAR in
        let secondPartCopyLength := DesiredCount - 3 - firstPartCopyLength in
        (firstPartCopyLength, secondPartCopyLength, count - secondPartCopyLength) in
    buffer ← copy_text (Buffer string) 0 text firstPartCopyLength;
    buffer ← store buffer firstPartCopyLength ellipsis;
    buffer ← copy_text buffer (firstPartCopyLength + 3) (drop (Z.to_nat secondPartIndex) text) secondPartCopyLength;
    Ok (Some (String (Length string) buffer)).

(** ** Texts of menus *)

Definition ampersand : Z := 38.

(** The loop of [PhEscapeStringForMenuPrefix]; [run] are the characters from [runStart] on. *)
Fixpoint escape_menu_loop (sb : PH_STRING_BUILDER) (run : list Z) (rest : list Z) : result PH_STRING_BUILDER :=
  match rest with
  | [] => if decide (run = []) then Ok sb else PhAppendStringBuilderEx sb (Some run) (u64 (Z.of_nat (length run) * sizeof_WCHAR))
  | c :: rest =>
      if c =? ampersand then
        sb ← (if decide (run = []) then Ok sb else PhAppendStringBuilderEx sb (Some run) (u64 (Z.of_nat (length run) * sizeof_WCHAR)));
        sb ← PhAppendStringBuilderEx sb (Some [ampersand; ampersand]) (2 * sizeof_WCHAR);
        escape_menu_loop sb [] rest
      else escape_menu_loop sb (run ++ [c]) rest
  end.

Definition PhEscapeStringForMenuPrefix (string : list Z) : result PH_STRING :=
  sb ← PhInitializeStringBuilder (Z.of_nat (length string) * sizeof_WCHAR);
  sb ← escape_menu_loop sb [] string;
  Ok (PhFinalStringBuilderString sb).

(** Strings that end with a terminator are given by their characters; [None] is a null
    pointer, and [Fault] an access behind the terminator. *)
Definition char_at (s : list Z) : Z := hd 0 s.
Definition skip_ampersand (s : list Z) : list Z := if char_at s =? ampersand then tail s else s.

Fixpoint compare_menu_loop (fuel : nat) (IgnoreCase MatchIfPrefix : bool) (A B : list Z) : result Z :=
  match fuel with
  | O => Fault
  | S fuel =>
      let A := skip_ampersand A in
      let B := skip_ampersand B in
      let t := char_at A in
      if t =? 0 then Ok (if MatchIfPrefix then 0 else t - char_at B)
      else if negb (if IgnoreCase then PhUpcaseUnicodeChar t =? PhUpcaseUnicodeChar (char_at B) else t =? char_at B) then Ok (t - char_at B)
      else
        match A, B with
        | _ :: A, _ :: B => compare_menu_loop fuel IgnoreCase MatchIfPrefix A B
        | _, _ => Fault
        end
  end.

Definition PhCompareUnicodeStringZIgnoreMenuPrefix (A B : option (list Z)) (IgnoreCase MatchIfPrefix : bool) : result Z :=
  match A, B with
  | Some A, Some B => compare_menu_loop (S (length A)) IgnoreCase MatchIfPrefix A B
  | _, _ => Ok (-1)
  end.

End Ellipsis.

(** ** Flags *)

Record PH_FLAG_MAPPING := FlagMapping { Flag1 : Z; Flag2 : Z }.

Fixpoint PhMapFlags1_clear (Value1 : Z) (Mappings : list PH_FLAG_MAPPING) (value2 : Z) : Z :=
  match Mappings with
  | [] => value2
  | m :: Mappings =>
      PhMapFlags1_clear Value1 Mappings (if negb (Z.land Value1 (Flag1 m) =? 0) then Z.lor value2 (Flag2 m) else Z.ldiff value2 (Flag2 m))
  end.

Fixpoint PhMapFlags1_build (Value1 : Z) (Mappings : list PH_FLAG_MAPPING) (value2 : Z) : Z :=
  match Mappings with
  | [] => value2
  | m :: Mappings => PhMapFlags1_build Value1 Mappings (if negb (Z.land Value1 (Flag1 m) =? 0) then Z.lor value2 (Flag2 m) else value2)
  end.

Definition PhMapFlags1 (Value2 Value1 : Z) (Mappings : list PH_FLAG_MAPPING) : Z :=
  if negb (Value2 =? 0) then PhMapFlags1_clear Value1 Mappings Value2 else PhMapFlags1_build Value1 Mappings Value2.

Fixpoint PhMapFlags2_clear (Value2 : Z) (Mappings : list PH_FLAG_MAPPING) (value1 : Z) : Z :=
  match Mappings with
  | [] => value1
  | m :: Mappings =>
      PhMapFlags2_clear Value2 Mappings (if negb (Z.land Value2 (Flag2 m) =? 0) then Z.lor value1 (Flag1 m) else Z.ldiff value1 (Flag1 m))
  end.

Fixpoint PhMapFlags2_build (Value2 : Z) (Mappings : list PH_FLAG_MAPPING) (value1 : Z) : Z :=
  match Mappings with
  | [] => value1
  | m :: Mappings => PhMapFlags2_build Value2 Mappings (if negb (Z.land Value2 (Flag2 m) =? 0) then Z.lor value1 (Flag1 m) else value1)
  end.

Definition PhMapFlags2 (Value1 Value2 : Z) (Mappings : list PH_FLAG_MAPPING) : Z :=
  if negb (Value1 =? 0) then PhMapFlags2_clear Value2 Mappings Value1 else PhMapFlags2_build Value2 Mappings Value1.

(** ** Rectangles *)

Definition no_overflow (x : Z) : Prop := - 2 ^ 30 ≤ x < 2 ^ 30.

(** A rectangle of positions and sizes that LONGs can add. *)
Definition moderate (r : PH_RECTANGLE) : Prop :=
  no_overflow (Left r) ∧ no_overflow (Top r) ∧ 0 ≤ Width r < 2 ^ 30 ∧ 0 ≤ Height r < 2 ^ 30.

(** One dimension: where a length from [pos] on goes within the bounds. *)
Definition placed (bpos blen pos len pos' len' : Z) : Prop :=
  bpos ≤ pos' ∧ pos' + len' ≤ bpos + blen ∧ len' = Z.min len blen ∧
  (bpos ≤ pos → pos + len ≤ bpos + blen → pos' = pos) ∧
  (blen < len → pos' = bpos) ∧
  ∀ q, bpos ≤ q → q + len ≤ bpos + blen → Z.abs (pos - pos') ≤ Z.abs (pos - q).

Definition adjust (bpos blen pos len : Z) : Z :=
  let pos := if bpos + blen <? pos + len then bpos + blen - len else pos in if pos <? bpos then bpos else pos.

Lemma adjust_placed bpos blen pos len : 0 ≤ blen → 0 ≤ len → placed bpos blen pos len (adjust bpos blen pos len) (Z.min len blen).
Proof.
  intros Hb Hl. unfold placed, adjust. destruct (Z.ltb_spec (bpos + blen) (pos + len)).
  - destruct (Z.ltb_spec (bpos + blen - len) bpos); split_and!; intros; lia.
  - destruct (Z.ltb_spec pos bpos); split_and!; intros; lia.
Qed.

Lemma adjust_dimensions r b : moderate r → moderate b →
  PhAdjustRectangleToBounds r b =
    Rectangle (adjust (Left b) (Width b) (Left r) (Width r)) (adjust (Top b) (Height b) (Top r) (Height r))
      (Z.min (Width r) (Width b)) (Z.min (Height r) (Height b)).
Proof.
  intros (H1 & H2 & H3 & H4) (G1 & G2 & G3 & G4). unfold no_overflow in *. destruct r as [l t w h], b as [bl bt bw bh]. cbn [Left Top Width Height] in *.
  unfold PhAdjustRectangleToBounds, adjust. cbn [Left Top Width Height].
  rewrite (i32_small (bl + bw)), (i32_small (bt + bh)), (i32_small (l + w)), (i32_small (bl + bw - w)) by lia.
  assert (w `min` bw = if bw <? w then bw else w) as -> by (destruct (Z.ltb_spec bw w); lia).
  assert (h `min` bh = if bh <? h then bh else h) as -> by (destruct (Z.ltb_spec bh h); lia).
  destruct (bl + bw <? l + w); cbn [Left Top Width Height]; rewrite (i32_small (t + h)), (i32_small (bt + bh - h)) by lia.
  all: destruct (bt + bh <? t + h); cbn [Left Top Width Height].
  all: repeat match goal with |- context [?x <? ?y] =>
    lazymatch constr:((x, y)) with context [if _ then _ else _] => fail | _ => destruct (Z.ltb_spec x y); cbn [Left Top Width Height] end
  end; try done; f_equal; lia.
Qed.

(** A rectangle that is adjusted is within the bounds, and the nearest such: it is where it
    was if it was within the bounds already, at the left or top if it is too large. *)
Theorem rectangle_adjusted r b : moderate r → moderate b →
  let r' := PhAdjustRectangleToBounds r b in
  placed (Left b) (Width b) (Left r) (Width r) (Left r') (Width r') ∧
  placed (Top b) (Height b) (Top r) (Height r) (Top r') (Height r').
Proof.
  intros Hr Hb. cbv zeta. rewrite adjust_dimensions by done. cbn [Left Top Width Height].
  destruct Hr as (_ & _ & ? & ?), Hb as (_ & _ & ? & ?). split; apply adjust_placed; lia.
Qed.

(** A rectangle that is centered has as much space on one side as on the other, but for
    one unit, and keeps its size. *)
Theorem rectangle_centered r b : moderate r → moderate b →
  let r' := PhCenterRectangle r b in
  Z.abs ((Left r' - Left b) - (Left b + Width b - (Left r' + Width r'))) ≤ 1 ∧
  Z.abs ((Top r' - Top b) - (Top b + Height b - (Top r' + Height r'))) ≤ 1 ∧
  Width r' = Width r ∧ Height r' = Height r.
Proof.
  intros (H1 & H2 & H3 & H4) (G1 & G2 & G3 & G4). unfold no_overflow in *. cbv zeta. unfold PhCenterRectangle. cbn [Left Top Width Height].
  rewrite !(i32_small (_ - _)) by lia. rewrite !i32_small by (Z.to_euclidean_division_equations; lia).
  split_and!; [Z.to_euclidean_division_equations; lia..|done|done].
Qed.

(** ** Ellipses *)

Lemma create_string_ok n : 0 ≤ n < 2 ^ 62 → ∃ b, PhCreateStringEx None (u64 (n * sizeof_WCHAR)) = Ok (String (2 * n) b) ∧ Z.of_nat (length b) = n + 1.
Proof. intros Hn. unfold sizeof_WCHAR. rewrite u64_small, Z.mul_comm by lia. apply create_string; lia. Qed.

Lemma holds_string b t : holds b t → string_text (String (2 * Z.of_nat (length t)) b) = t.
Proof.
  intros [tail ->]. unfold string_text. cbn [Length Buffer]. rewrite half, Nat2Z.id.
  rewrite take_app_length' by (by rewrite length_fmap). rewrite <-list_fmap_compose. apply list_fmap_id.
Qed.

(** Writing what follows. *)
Lemma copy_text_ok b t text n : holds b t → (n ≤ length text)%nat → (length t + n ≤ length b)%nat →
  ∃ b', copy_text b (Z.of_nat (length t)) text (Z.of_nat n) = Ok b' ∧ holds b' (t ++ take n text) ∧ length b' = length b.
Proof.
  intros Hb Hn Hl. unfold copy_text. destruct (Z.ltb_spec (Z.of_nat (length text) + 1) (Z.of_nat n)); [lia|].
  rewrite Nat2Z.id, take_app_le by done. apply store_end; [done|]. rewrite length_take. lia.
Qed.

(** A string that is not longer is left alone, and so is every string when fewer than three
    characters are desired, although the description promises the length. Any other is
    cut, with the ellipsis at its end, and has the length that was asked for. *)
Theorem ellipsis_string text D : 0 ≤ D < 2 ^ 62 →
  if decide (Z.of_nat (length text) ≤ D ∨ D < 3) then PhEllipsisString text D = Ok None
  else ∃ s, PhEllipsisString text D = Ok (Some s) ∧ string_text s = take (Z.to_nat (D - 3)) text ++ ellipsis ∧ Z.of_nat (length (string_text s)) = D.
Proof.
  intros HD. unfold PhEllipsisString. case_decide as Hc.
  - destruct (Z.leb_spec (Z.of_nat (length text)) D); [done|]. destruct (Z.ltb_spec D 3); [done|lia].
  - destruct (Z.leb_spec (Z.of_nat (length text)) D), (Z.ltb_spec D 3); try lia. cbn [orb].
    destruct (create_string_ok D) as (b & -> & Hb); [lia|]. cbn [mbind result_bind Buffer Length].
    destruct (copy_text_ok b [] text (Z.to_nat (D - 3)) (holds_nil b)) as (b1 & H1 & Hb1 & Hl1); [lia|cbn; lia|].
    cbn [length] in H1. rewrite Z2Nat.id in H1 by lia. change (Z.of_nat 0) with 0 in H1. rewrite H1. cbn [mbind result_bind app] in *.
    destruct (store_end b1 _ ellipsis Hb1) as (b2 & H2 & Hb2 & Hl2); [rewrite length_take; cbn; lia|].
    rewrite length_take, Nat.min_l, Z2Nat.id in H2 by lia. rewrite H2. cbn [mbind result_bind].
    eexists. split; [done|]. assert (2 * D = 2 * Z.of_nat (length (take (Z.to_nat (D - 3)) text ++ ellipsis))) as ->
      by (rewrite length_app, length_take; cbn; lia).
    rewrite holds_string by done. split; [done|]. rewrite length_app, length_take. cbn. lia.
Qed.

(** A beginning, the ellipsis and an end. *)
Lemma ellipsis_stores text D (a b : nat) : Z.of_nat (a + 3 + b) = D → D < 2 ^ 62 → (a + b ≤ length text)%nat →
  ∃ buffer b1 b2 b3, PhCreateStringEx None (u64 (D * sizeof_WCHAR)) = Ok (String (2 * D) buffer) ∧
    copy_text buffer 0 text (Z.of_nat a) = Ok b1 ∧ store b1 (Z.of_nat a) ellipsis = Ok b2 ∧
    copy_text b2 (Z.of_nat a + 3) (drop (length text - b) text) (Z.of_nat b) = Ok b3 ∧
    string_text (String (2 * D) b3) = take a text ++ ellipsis ++ drop (length text - b) text ∧ Z.of_nat (length (string_text (String (2 * D) b3))) = D.
Proof.
  intros HD HD2 Hab. destruct (create_string_ok D) as (buffer & Hc & Hb); [lia|].
  destruct (copy_text_ok buffer [] text a (holds_nil buffer)) as (b1 & H1 & Hb1 & Hl1); [lia|cbn; lia|].
  destruct (store_end b1 _ ellipsis Hb1) as (b2 & H2 & Hb2 & Hl2); [cbn; rewrite length_take; lia|].
  destruct (copy_text_ok b2 _ (drop (length text - b) text) b Hb2) as (b3 & H3 & Hb3 & Hl3);
    [rewrite length_drop; lia|rewrite length_app; cbn; rewrite length_take; lia|].
  cbn [app length] in *. rewrite !length_app, !length_take, !Nat.min_l in * by lia. cbn [length ellipsis] in *.
  rewrite (take_ge (drop _ _)) in Hb3 by (rewrite length_drop; lia). rewrite Nat2Z.inj_add in H3. change (Z.of_nat 0) with 0 in H1.
  exists buffer, b1, b2, b3. split_and!; [done..| |]; rewrite <-app_assoc in Hb3.
  - replace D with (Z.of_nat (length (take a text ++ ellipsis ++ drop (length text - b) text))) by
      (rewrite !length_app, length_take, length_drop; cbn; lia). by apply holds_string.
  - assert (D = Z.of_nat (length (take a text ++ ellipsis ++ drop (length text - b) text))) as HDl by
      (rewrite !length_app, length_take, length_drop; cbn; lia).
    rewrite HDl at 1. rewrite holds_string by done. done.
Qed.

(** The place of the last separator. *)
Definition last_part (text : list Z) (part : list Z) : Prop :=
  ∃ before c, text = before ++ c :: part ∧ (c = 92 ∨ c = 47 ∧ 92 ∉ text) ∧ c ∉ part.

Definition second_part upcase (text : list Z) : Z :=
  let i := find_last upcase true text OBJ_NAME_PATH_SEPARATOR in
  if i =? SIZE_MAX then find_last upcase true text OBJ_NAME_ALTPATH_SEPARATOR else i.

Lemma find_last_ok upcase text c : Z.of_nat (length text) < 2 ^ 62 → last_of (λ i, text !! i = Some c) (find_last upcase true text c).
Proof.
  intros Htext. assert (valid (StringRef (2 * Z.of_nat (length text)) (Some (text ++ [0])))) as Hv.
  { exists (length text). unfold memory_at. cbn. rewrite length_app. cbn. split_and!; lia. }
  assert (Strings.text (StringRef (2 * Z.of_nat (length text)) (Some (text ++ [0]))) = text) as Ht.
  { unfold Strings.text, count, memory_at. cbn. rewrite half, Nat2Z.id. apply take_app_length. }
  pose proof (find_last_char_ok upcase true _ c false Hv (or_introl eq_refl)) as H. rewrite Ht in H.
  eapply last_of_ext; [|exact H]. intros i. unfold unit_at. cbn [fold_case]. split.
  - intros (d & Hd & ->%Z.eqb_eq). done.
  - intros Hi. exists c. by rewrite Z.eqb_refl.
Qed.

Lemma last_of_place (text before : list Z) c part r : text = before ++ c :: part → c ∉ part → last_of (λ i, text !! i = Some c) r → r = Z.of_nat (length before).
Proof.
  intros -> Hc [(i & -> & Hi & Hj)|[_ Hj]].
  - destruct (decide (i < length before)%nat) as [Hlt|Hge]; [destruct (Hj (length before) Hlt); by rewrite list_lookup_middle|].
    destruct (decide (i = length before)) as [->|Hne]; [done|]. exfalso. apply Hc. rewrite lookup_app_r in Hi by lia.
    destruct (i - length before)%nat as [|k] eqn:Hk; [lia|]. cbn in Hi. by eapply list_elem_of_lookup_2.
  - destruct (Hj (length before)). by rewrite list_lookup_middle.
Qed.

Lemma second_part_ok upcase text : Z.of_nat (length text) < 2 ^ 62 →
  (second_part upcase text = SIZE_MAX ∧ ∀ part, ¬ last_part text part) ∨
  (∃ i, second_part upcase text = Z.of_nat i ∧ (i < length text)%nat ∧ ∀ part, last_part text part → (length text - i)%nat = S (length part)).
Proof.
  intros Htext. unfold second_part. pose proof (find_last_ok upcase text OBJ_NAME_PATH_SEPARATOR Htext) as H1.
  pose proof (find_last_ok upcase text OBJ_NAME_ALTPATH_SEPARATOR Htext) as H2. unfold OBJ_NAME_PATH_SEPARATOR, OBJ_NAME_ALTPATH_SEPARATOR in *.
  assert (∀ i, (i < length text)%nat → Z.of_nat i =? SIZE_MAX = false) as Hne by (intros i Hi; unfold SIZE_MAX; lia).
  assert (∀ c i r, text !! i = Some c → last_of (λ i, text !! i = Some c) r → r = Z.of_nat i → (i < length text)%nat ∧
    ∀ before part, text = before ++ c :: part → c ∉ part → (length text - i)%nat = S (length part)) as Hplace.
  { intros c i r Hi Hr ->. split; [by eapply lookup_lt_Some|]. intros before part Ht Hc. pose proof (last_of_place text before c part _ Ht Hc Hr) as E.
    rewrite Ht, length_app. cbn. lia. }
  assert (last_of (λ i, text !! i = Some 92) (find_last upcase true text 92)) as H1' by done.
  destruct H1' as [(i & Er & Hi & _)|[Er Hno]].
  - destruct (Hplace 92 i _ Hi H1 Er) as [Hlt Hp]. rewrite Er, Hne by done. right. exists i. split; [done|]. split; [done|].
    intros part (before & c & Ht & [->|[_ Hn]] & Hc); [by eapply Hp|]. destruct Hn. by eapply list_elem_of_lookup_2.
  - rewrite Er, Z.eqb_refl. assert (92 ∉ text) as Hn by (intros [i Hi]%list_elem_of_lookup_1; by destruct (Hno i)).
    assert (∀ before part : list Z, text ≠ before ++ 92 :: part) as Hn' by (intros before part Ht; apply Hn; rewrite Ht; set_solver).
    assert (last_of (λ i, text !! i = Some 47) (find_last upcase true text 47)) as H2' by done.
    destruct H2' as [(i & Er2 & Hi & _)|[Er2 Hno2]].
    + destruct (Hplace 47 i _ Hi H2 Er2) as [Hlt Hp]. right. exists i. split; [done|]. split; [done|].
      intros part (before & c & Ht & [->|[-> _]] & Hc); [by destruct (Hn' before part)|by eapply Hp].
    + left. split; [done|]. intros part (before & c & Ht & [->|[-> _]] & Hc); [by destruct (Hn' before part)|].
      destruct (Hno2 (length before)). by rewrite Ht, list_lookup_middle.
Qed.

(** A path is cut before its last part, if that fits with the ellipsis, or in the middle of
    both parts: a beginning and an end of the text around the ellipsis, of the length that
    was asked for. *)
Theorem ellipsis_path upcase text D : 0 ≤ D < 2 ^ 62 → Z.of_nat (length text) < 2 ^ 62 → ¬ (Z.of_nat (length text) ≤ D ∨ D < 3) →
  ∃ s (a b : nat), PhEllipsisStringPath upcase true text D = Ok (Some s) ∧ Z.of_nat (length (string_text s)) = D ∧
    string_text s = take a text ++ ellipsis ++ drop (length text - b) text ∧ (a + b ≤ length text)%nat ∧
    ∀ part, last_part text part → Z.of_nat (length part) + 4 ≤ D → b = S (length part).
Proof.
  intros HD Htext Hc. unfold PhEllipsisStringPath. fold (second_part upcase text).
  destruct (second_part_ok upcase text Htext) as [[-> Hnone]|(i & -> & Hi & Hpart)].
  - rewrite Z.eqb_refl. pose proof (ellipsis_string text D HD) as He. rewrite decide_False in He by done.
    destruct He as (s & -> & Hs & Hl). exists s, (Z.to_nat (D - 3)), 0%nat. split_and!; [done|done| |lia|by intros ? ?%Hnone].
    rewrite Hs, Nat.sub_0_r, drop_all, app_nil_r. done.
  - destruct (Z.eqb_spec (Z.of_nat i) SIZE_MAX); [unfold SIZE_MAX in *; lia|].
    destruct (Z.leb_spec (Z.of_nat (length text)) D) as [G1|G1], (Z.ltb_spec D 3) as [G2|G2]; try lia. cbn [orb].
    destruct (Z.leb_spec (Z.of_nat (length text) - Z.of_nat i + 3) D) as [G3|G3].
    + destruct (ellipsis_stores text D (Z.to_nat (D - (Z.of_nat (length text) - Z.of_nat i) - 3)) (length text - i)) as
        (buffer & b1 & b2 & b3 & H1 & H2 & H3 & H4 & H5 & H6); [lia..|].
      rewrite Z2Nat.id, Nat2Z.inj_sub in * by lia. replace (length text - (length text - i))%nat with i in * by lia.
      rewrite H1. cbn [mbind result_bind Buffer Length]. rewrite H2. cbn [mbind result_bind]. rewrite H3. cbn [mbind result_bind].
      rewrite Nat2Z.id, H4. cbn [mbind result_bind]. eexists _, _, (length text - i)%nat. split; [done|].
      replace (length text - (length text - i))%nat with i by lia. split_and!; [done|exact H5|lia|]. intros part Hp _. by apply Hpart.
    + unfold sizeof_WCHAR.
      assert (0 ≤ (D - 3) / 2 ∧ 0 ≤ D - 3 - (D - 3) / 2) as [? ?] by (Z.to_euclidean_division_equations; lia).
      destruct (ellipsis_stores text D (Z.to_nat ((D - 3) / 2)) (Z.to_nat (D - 3 - (D - 3) / 2))) as
        (buffer & b1 & b2 & b3 & H1 & H2 & H3 & H4 & H5 & H6); [lia..|].
      unfold sizeof_WCHAR in H1. rewrite !Z2Nat.id in * by lia.
      rewrite H1. cbn [mbind result_bind Buffer Length]. rewrite H2. cbn [mbind result_bind]. rewrite H3. cbn [mbind result_bind].
      replace (Z.to_nat (Z.of_nat (length text) - (D - 3 - (D - 3) / 2))) with (length text - Z.to_nat (D - 3 - (D - 3) / 2))%nat by lia.
      rewrite H4. cbn [mbind result_bind]. eexists _, _, _. split; [done|]. split_and!; [done|exact H5|lia|].
      intros part Hp Hd. pose proof (Hpart part Hp). lia.
Qed.

(** ** Texts of menus *)

(** What a menu shows: an ampersand is not shown, what follows it is. *)
Fixpoint shown (s : list Z) : list Z :=
  match s with
  | [] => []
  | c :: s => if c =? ampersand then match s with [] => [] | d :: s => d :: shown s end else c :: shown s
  end.

Definition escaped (s : list Z) : list Z := s ≫= λ c, if c =? ampersand then [ampersand; ampersand] else [c].

Lemma escaped_cons c s : escaped (c :: s) = (if c =? ampersand then [ampersand; ampersand] else [c]) ++ escaped s.
Proof. done. Qed.

Lemma length_escaped s : (length (escaped s) ≤ 2 * length s)%nat.
Proof. induction s as [|c s IH]; [done|]. rewrite escaped_cons, length_app. destruct (c =? ampersand); cbn in *; lia. Qed.

Lemma shown_escaped s : shown (escaped s) = s.
Proof.
  induction s as [|c s IH]; [done|]. rewrite escaped_cons. destruct (Z.eqb_spec c ampersand) as [->|Hc]; cbn [app shown].
  - rewrite Z.eqb_refl. by f_equal.
  - rewrite (proj2 (Z.eqb_neq _ _) Hc). by f_equal.
Qed.

Lemma flush_run_ok B sb t run : B < 2 ^ 62 → building B sb t → Z.of_nat (length t + length run) < 2 ^ 60 →
  ∃ sb', (if decide (run = []) then Ok sb else PhAppendStringBuilderEx sb (Some run) (u64 (Z.of_nat (length run) * sizeof_WCHAR))) = Ok sb' ∧
    building B sb' (t ++ run).
Proof.
  intros HB Hb Hl. case_decide as Hr; [exists sb; by rewrite Hr, app_nil_r|].
  unfold sizeof_WCHAR. rewrite u64_small, Z.mul_comm by lia. by apply building_text.
Qed.

Lemma escape_menu_ok B rest sb t run : B < 2 ^ 62 → building B sb t → Z.of_nat (length t + length run + 2 * length rest) < 2 ^ 60 →
  ∃ sb', escape_menu_loop sb run rest = Ok sb' ∧ building B sb' (t ++ run ++ escaped rest).
Proof.
  intros HB. revert sb t run. induction rest as [|c rest IH]; intros sb t run Hb Hl; cbn [escape_menu_loop length] in *.
  - rewrite app_nil_r. apply flush_run_ok; [done|done|lia].
  - rewrite escaped_cons. destruct (c =? ampersand).
    + destruct (flush_run_ok B sb t run HB Hb) as (sb1 & -> & Hb1); [lia|]. cbn [mbind result_bind].
      destruct (building_text B HB sb1 _ Hb1 [ampersand; ampersand]) as (sb2 & H2 & Hb2); [rewrite length_app; cbn; lia|].
      change (2 * Z.of_nat (length [ampersand; ampersand])) with (2 * sizeof_WCHAR) in H2. rewrite H2. cbn [mbind result_bind].
      destruct (IH sb2 _ [] Hb2) as (sb3 & -> & Hb3); [rewrite !length_app; cbn; lia|]. exists sb3. split; [done|].
      by rewrite <-!app_assoc in Hb3.
    + destruct (IH sb t (run ++ [c]) Hb) as (sb3 & -> & Hb3); [rewrite length_app; cbn; lia|]. exists sb3. split; [done|].
      by rewrite <-!app_assoc in Hb3.
Qed.

(** Texts compared as they are shown. *)
Fixpoint compare_shown (same : Z → Z → bool) (MatchIfPrefix : bool) (a b : list Z) : Z :=
  match a with
  | [] => if MatchIfPrefix then 0 else 0 - char_at b
  | c :: a =>
      match b with
      | [] => c
      | d :: b => if same c d then compare_shown same MatchIfPrefix a b else c - d
      end
  end.

Section Menus.
Context (upcase : Z → Z) (Hupcase : ∀ c, upcase c = upcase 0 → c = 0).

Definition same_char (IgnoreCase : bool) (c d : Z) : bool := if IgnoreCase then upcase c =? upcase d else c =? d.

Lemma shown_skip s : shown s = match skip_ampersand s with [] => [] | c :: s => c :: shown s end.
Proof. destruct s as [|c s]; [done|]. unfold skip_ampersand. cbn. by destruct (c =? ampersand). Qed.

Lemma skip_suffix s : ∃ pre, s = pre ++ skip_ampersand s.
Proof. destruct s as [|c s]; [by exists []|]. unfold skip_ampersand. cbn. destruct (c =? ampersand); [by exists [c]|by exists []]. Qed.

Lemma compare_menu_ok IgnoreCase MatchIfPrefix fuel A B : (length A < fuel)%nat → 0 ∉ A → 0 ∉ B →
  compare_menu_loop upcase fuel IgnoreCase MatchIfPrefix A B = Ok (compare_shown (same_char IgnoreCase) MatchIfPrefix (shown A) (shown B)).
Proof.
  revert A B. induction fuel as [|fuel IH]; intros A B Hf HA HB; [lia|]. cbn [compare_menu_loop]. rewrite (shown_skip A), (shown_skip B).
  destruct (skip_suffix A) as [pa Ha], (skip_suffix B) as [pb Hb].
  destruct (skip_ampersand A) as [|c A'], (skip_ampersand B) as [|d B']; cbn [char_at hd compare_shown Z.eqb]; try done.
  all: assert (c ≠ 0) as Hc by (intros ->; apply HA; rewrite Ha; set_solver); rewrite (proj2 (Z.eqb_neq _ _) Hc).
  - assert ((if IgnoreCase then upcase c =? upcase 0 else false) = false) as -> by (destruct IgnoreCase; [apply Z.eqb_neq; auto|done]).
    cbn [negb]. f_equal. lia.
  - fold (same_char IgnoreCase c d). destruct (same_char IgnoreCase c d); cbn [negb]; [|done].
    apply IH; [|set_solver..]. apply (f_equal length) in Ha. rewrite length_app in Ha. cbn in Ha. lia.
Qed.

(** Menu texts are compared as they are shown; an escaped text is shown as it was. *)
Theorem menu_texts A B IgnoreCase MatchIfPrefix : 0 ∉ A → 0 ∉ B →
  PhCompareUnicodeStringZIgnoreMenuPrefix upcase (Some A) (Some B) IgnoreCase MatchIfPrefix =
    Ok (compare_shown (same_char IgnoreCase) MatchIfPrefix (shown A) (shown B)) ∧
  (Z.of_nat (length A) < 2 ^ 58 → ∃ s, PhEscapeStringForMenuPrefix A = Ok s ∧ shown (string_text s) = A ∧
     PhCompareUnicodeStringZIgnoreMenuPrefix upcase (Some (string_text s)) (Some B) IgnoreCase MatchIfPrefix =
       Ok (compare_shown (same_char IgnoreCase) MatchIfPrefix A (shown B))).
Proof.
  intros HA HB. split; [by apply compare_menu_ok; [lia|..]|]. intros Hl. unfold PhEscapeStringForMenuPrefix.
  destruct (initialize_ok (Z.of_nat (length A) * sizeof_WCHAR)) as (sb & -> & Hok & Hc); [unfold sizeof_WCHAR; lia|]. cbn [mbind result_bind].
  assert (building (2 ^ 61) sb []) as Hb by (split; [done|unfold sizeof_WCHAR in *; lia]).
  destruct (escape_menu_ok (2 ^ 61) A sb [] [] ltac:(lia) Hb ltac:(cbn [length]; lia)) as (sb' & -> & Hb'). cbn [mbind result_bind app] in *.
  eexists. split; [done|]. rewrite (building_string _ _ _ Hb'). split; [apply shown_escaped|].
  cbn [PhCompareUnicodeStringZIgnoreMenuPrefix]. rewrite compare_menu_ok, shown_escaped; [done|lia| |done].
  intros (c & Hin & Hc')%list_elem_of_bind. destruct (Z.eqb_spec c ampersand); set_solver.
Qed.

End Menus.

(** Ignoring case, the sign of the difference is that of the characters as they are: "a"
    comes after "B", although "A" comes before. *)
Theorem menu_order_with_case :
  let upcase c := if (97 <=? c) && (c <=? 122) then c - 32 else c in
  PhCompareUnicodeStringZIgnoreMenuPrefix upcase (Some [97]) (Some [66]) true false = Ok 31 ∧
  PhCompareUnicodeStringZIgnoreMenuPrefix upcase (Some [65]) (Some [66]) true false = Ok (-1) ∧
  PhCompareUnicodeStringZIgnoreMenuPrefix upcase (Some [65]) (Some [97]) true false = Ok 0.
Proof. by vm_compute. Qed.

(** ** Flags *)

Section Flags.
(** The flags of one side that stand for those of the other. *)
Context (from to : PH_FLAG_MAPPING → Z) (Value : Z).

Definition set_in (m : PH_FLAG_MAPPING) : bool := negb (Z.land Value (from m) =? 0).

Definition step_clear (m : PH_FLAG_MAPPING) (v : Z) : Z := if set_in m then Z.lor v (to m) else Z.ldiff v (to m).
Definition step_build (m : PH_FLAG_MAPPING) (v : Z) : Z := if set_in m then Z.lor v (to m) else v.

(** No two mappings have a flag in common. *)
Definition apart (ms : list PH_FLAG_MAPPING) : Prop :=
  ∀ i j m n, i ≠ j → ms !! i = Some m → ms !! j = Some n → Z.land (to m) (to n) = 0.

Lemma apart_cons m ms : apart (m :: ms) → apart ms ∧ ∀ n k, n ∈ ms → Z.testbit (to m) k = true → Z.testbit (to n) k = false.
Proof.
  intros H. split; [intros i j x y Hij Hx Hy; by apply (H (S i) (S j)); [lia|..]|].
  intros n k [j Hj]%list_elem_of_lookup_1 Hk. pose proof (H 0%nat (S j) m n ltac:(lia) eq_refl Hj) as Hl.
  apply (f_equal (λ z, Z.testbit z k)) in Hl. rewrite Z.land_spec, Hk, Z.bits_0 in Hl. done.
Qed.

(** The bit that the mappings give, and the one that was there. *)
Definition mapped_bit (ms : list PH_FLAG_MAPPING) (k : Z) (bit : bool) : bool :=
  match List.find (λ m, Z.testbit (to m) k) ms with Some m => set_in m | None => bit end.

Lemma find_none ms k : (∀ n, n ∈ ms → Z.testbit (to n) k = false) → List.find (λ m, Z.testbit (to m) k) ms = None.
Proof. induction ms as [|n ms IH]; intros H; cbn; [done|]. rewrite H by constructor. apply IH. intros ? ?. apply H. by constructor. Qed.

Lemma fold_bits (f : PH_FLAG_MAPPING → Z → Z) ms v k :
  (∀ m v, Z.testbit (f m v) k = if Z.testbit (to m) k then set_in m || (Z.testbit v k && Z.testbit (f m v) k) else Z.testbit v k) →
  apart ms → (∀ m v, m ∈ ms → Z.testbit (to m) k = true → Z.testbit v k = false ∨ f m = step_clear m → Z.testbit (f m v) k = set_in m) →
  (Z.testbit v k = false ∨ ∀ m, m ∈ ms → f m = step_clear m) →
  Z.testbit (foldl (λ v m, f m v) v ms) k = mapped_bit ms k (Z.testbit v k).
Proof.
  intros Hf. revert v. induction ms as [|m ms IH]; intros v Ha Hin Hv; [done|]. cbn [foldl]. destruct (apart_cons _ _ Ha) as [Ha' Hother].
  unfold mapped_bit. cbn [List.find]. destruct (Z.testbit (to m) k) eqn:Hk.
  - assert (Z.testbit (f m v) k = set_in m) as Hbit.
    { apply Hin; [constructor|done|]. destruct Hv as [?|Hv]; [by left|right; apply Hv; constructor]. }
    clear IH Ha. revert Hbit. generalize (f m v). assert (∀ n, n ∈ ms → Z.testbit (to n) k = false) as Hno by (intros n Hn; by apply Hother).
    clear -Hno Hf. induction ms as [|n ms IH]; intros z Hz; cbn [foldl]; [done|]. apply IH; [intros; apply Hno; by constructor|].
    rewrite Hf, Hno by constructor. done.
  - rewrite IH; [|done|intros n w Hn; apply Hin; by constructor|].
    + unfold mapped_bit. by rewrite Hf, Hk.
    + destruct Hv as [Hv|Hv]; [left; by rewrite Hf, Hk|right]. intros n Hn. apply Hv. by constructor.
Qed.

Lemma clear_bits ms v k : 0 ≤ k → apart ms → Z.testbit (foldl (λ v m, step_clear m v) v ms) k = mapped_bit ms k (Z.testbit v k).
Proof.
  intros Hk Ha. apply fold_bits; [|done| |by right].
  - intros m w. unfold step_clear. destruct (set_in m); rewrite ?Z.lor_spec, ?Z.ldiff_spec; destruct (Z.testbit (to m) k), (Z.testbit w k); done.
  - intros m w _ Hm _. unfold step_clear. destruct (set_in m); rewrite ?Z.lor_spec, ?Z.ldiff_spec, Hm; by destruct (Z.testbit w k).
Qed.

Lemma build_bits ms k : 0 ≤ k → apart ms → Z.testbit (foldl (λ v m, step_build m v) 0 ms) k = mapped_bit ms k false.
Proof.
  intros Hk Ha. transitivity (mapped_bit ms k (Z.testbit 0 k)); [|by rewrite Z.bits_0]. apply fold_bits; [|done| |left; by rewrite Z.bits_0].
  - intros m w. unfold step_build. destruct (set_in m); rewrite ?Z.lor_spec; destruct (Z.testbit (to m) k), (Z.testbit w k); done.
  - intros m w _ Hm [Hw|Hw]; [unfold step_build; destruct (set_in m); rewrite ?Z.lor_spec, ?Hm, Hw; done|].
    rewrite Hw. unfold step_clear. destruct (set_in m); rewrite ?Z.lor_spec, ?Z.ldiff_spec, Hm; by destruct (Z.testbit w k).
Qed.

End Flags.

Lemma loops_fold x ms : ∀ v,
  PhMapFlags1_clear x ms v = foldl (λ v m, step_clear Flag1 Flag2 x m v) v ms ∧
  PhMapFlags1_build x ms v = foldl (λ v m, step_build Flag1 Flag2 x m v) v ms ∧
  PhMapFlags2_clear x ms v = foldl (λ v m, step_clear Flag2 Flag1 x m v) v ms ∧
  PhMapFlags2_build x ms v = foldl (λ v m, step_build Flag2 Flag1 x m v) v ms.
Proof. induction ms as [|m ms IH]; intros v; [done|]. split_and!; apply IH. Qed.

(** The bits of the result, whatever the value was. *)
Lemma map_flags1_bits Value2 Value1 ms k : 0 ≤ k → apart Flag2 ms →
  Z.testbit (PhMapFlags1 Value2 Value1 ms) k = mapped_bit Flag1 Flag2 Value1 ms k (Z.testbit Value2 k).
Proof.
  intros Hk Ha. unfold PhMapFlags1. destruct (loops_fold Value1 ms Value2) as (E1 & E2 & _). destruct (Z.eqb_spec Value2 0) as [->|]; cbn [negb].
  - rewrite E2, Z.bits_0. by apply build_bits.
  - rewrite E1. by apply clear_bits.
Qed.

Lemma map_flags2_bits Value1 Value2 ms k : 0 ≤ k → apart Flag1 ms →
  Z.testbit (PhMapFlags2 Value1 Value2 ms) k = mapped_bit Flag2 Flag1 Value2 ms k (Z.testbit Value1 k).
Proof.
  intros Hk Ha. unfold PhMapFlags2. destruct (loops_fold Value2 ms Value1) as (_ & _ & E1 & E2). destruct (Z.eqb_spec Value1 0) as [->|]; cbn [negb].
  - rewrite E2, Z.bits_0. by apply build_bits.
  - rewrite E1. by apply clear_bits.
Qed.

(** Flags that no two mappings have in common are mapped one by one: those that stand for
    a flag of the value are set, those that stand for a flag that the value has not are
    cleared, all others stay; and mapping there and back, flags of one bit are as they
    were. *)
Theorem map_flags ms Value1 Value2 Other : apart Flag1 ms → apart Flag2 ms →
  (∀ k m, 0 ≤ k → m ∈ ms → Z.testbit (Flag2 m) k = true →
     Z.testbit (PhMapFlags1 Value2 Value1 ms) k = negb (Z.land Value1 (Flag1 m) =? 0)) ∧
  (∀ k, 0 ≤ k → (∀ m, m ∈ ms → Z.testbit (Flag2 m) k = false) → Z.testbit (PhMapFlags1 Value2 Value1 ms) k = Z.testbit Value2 k) ∧
  ∀ k m, 0 ≤ k → m ∈ ms → Flag1 m = 2 ^ k → 0 < Flag2 m →
    Z.testbit (PhMapFlags2 Other (PhMapFlags1 Value2 Value1 ms) ms) k = Z.testbit Value1 k.
Proof.
  intros H1 H2.
  assert (∀ from to V ms k m bit, apart to ms → m ∈ ms → Z.testbit (to m) k = true → mapped_bit from to V ms k bit = set_in from V m) as Hmap.
  { clear. intros from to V ms k m bit. induction ms as [|n ms IH]; intros Ha Hm Hk; [by apply elem_of_nil in Hm|].
    destruct (apart_cons _ _ _ Ha) as [Ha' Hother]. unfold mapped_bit. cbn [List.find]. apply elem_of_cons in Hm as [->|Hm]; [by rewrite Hk|].
    destruct (Z.testbit (to n) k) eqn:Hn; [by rewrite (Hother m k) in Hk|]. by apply IH. }
  assert (∀ k m, 0 ≤ k → m ∈ ms → Z.testbit (Flag2 m) k = true → Z.testbit (PhMapFlags1 Value2 Value1 ms) k = set_in Flag1 Value1 m) as Hset.
  { intros k m Hk Hm Hb. rewrite map_flags1_bits by done. by apply Hmap. }
  split; [exact Hset|]. split.
  - intros k Hk Hno. rewrite map_flags1_bits by done. unfold mapped_bit. by rewrite find_none.
  - intros k m Hk Hm Hp Hpos. rewrite map_flags2_bits by done. rewrite (Hmap _ _ _ _ _ m) by (done || (rewrite Hp; by apply Z.pow2_bits_true)).
    unfold set_in. set (V := PhMapFlags1 Value2 Value1 ms) in *.
    assert (Z.testbit (Flag2 m) (Z.log2 (Flag2 m)) = true) as Hlog by (by apply Z.bit_log2).
    pose proof (Hset _ m (Z.log2_nonneg _) Hm Hlog) as Hbit. unfold set_in in Hbit. rewrite Hp in Hbit.
    assert (negb (Z.land Value1 (2 ^ k) =? 0) = Z.testbit Value1 k) as Hone.
    { destruct (Z.testbit Value1 k) eqn:Hv.
      - apply negb_true_iff, Z.eqb_neq. intros H0. apply (f_equal (λ z, Z.testbit z k)) in H0.
        rewrite Z.land_spec, Hv, Z.pow2_bits_true, Z.bits_0 in H0 by done. done.
      - apply negb_false_iff, Z.eqb_eq. apply Z.bits_inj'. intros i Hi. rewrite Z.land_spec, Z.bits_0.
        destruct (decide (i = k)) as [->|Hne]; [by rewrite Hv|]. rewrite Z.pow2_bits_false by done. apply andb_false_r. }
    rewrite Hone in Hbit. destruct (Z.testbit Value1 k) eqn:Hv.
    + apply negb_true_iff, Z.eqb_neq. intros H0. apply (f_equal (λ z, Z.testbit z (Z.log2 (Flag2 m)))) in H0.
      rewrite Z.land_spec, Hbit, Hlog, Z.bits_0 in H0. done.
    + apply negb_false_iff, Z.eqb_eq. apply Z.bits_inj'. intros i Hi. rewrite Z.land_spec, Z.bits_0.
      destruct (Z.testbit (Flag2 m) i) eqn:Hi2; [|apply andb_false_r]. rewrite (Hset i m Hi Hm Hi2). unfold set_in. by rewrite Hp, Hone.
Qed.

(** Where mappings have a flag in common, the result depends on whether there were flags
    before: from nothing the flag is set if any of them sets it, otherwise the last one
    decides. *)
Theorem map_flags_overlap :
  let ms := [FlagMapping 1 3; FlagMapping 2 1] in PhMapFlags1 0 1 ms = 3 ∧ PhMapFlags1 4 1 ms = 6.
Proof. by vm_compute. Qed.
